(* ===== verification/_CoqProject ===== *)
-Q . S2P
Prelude.v
MetaError.v
FreeList.v
Membership.v
Leases.v
Acl.v
Ec.v
Lru.v
Tracked.v
Catalog.v
Store.v
Extents.v
FsTree.v
Inodes.v
InodesSpec.v
InodesSim.v
Checkpoint.v
CheckpointSpec.v
CheckpointOk.v
StoreSim.v
Wal.v
WalSpec.v
RaftLog.v
RaftMachine.v
Raft.v
RaftCalc.v
RaftVotes.v
RaftCluster.v
RaftSafe.v
RaftOps.v
RaftFollow.v
RaftLead.v
RaftElect.v
RaftNet.v
RaftAgree.v
Tree.v
Namespace.v
NsSpec.v
NsRefs.v
NsTree.v
Replica.v
ReplicaRefs.v
Metadata.v
Frames.v
NoStore.v
Space.v
MetaSpace.v
MetaRefs.v
MetaSpec.v
TreeSpec.v
CatalogKeys.v
RaftSnapshot.v
RaftCatalog.v
RaftReads.v
Placement.v
NativeError.v
Device.v
DataNode.v
Inflight.v
Objects.v
Engine.v
EngineRead.v
EngineWrite.v
EngineRepair.v
EngineMeta.v
EngineData.v
EngineInv.v
EnginePlace.v
EngineRange.v
EngineCat.v
EngineBatch.v
EngineCommit.v
EngineDisks.v
EngineSpec.v
EngineOps.v
EngineWrites.v
EngineUpkeep.v
EngineSim.v
EngineAvail.v
