(* ===== verification/Prelude.v ===== *)
(** * Atlas Native: metadata, replication and the storage engine

    Atlas Native is a clustered block and file store.  Its volumes, filesystems,
    snapshots, locks and device space are one replicated state machine, the
    catalog ([src/crates/atlas-native/src/metadata.rs]): commands are agreed on
    in a Raft log, applied one after the other on every node, and checkpointed in
    an embedded database from which a node restarts.  The storage engine
    ([engine.rs]) keeps the bytes: it cuts volumes into extents on a grid, writes
    each as copies or erasure-coded shards to the devices of data nodes, and
    commits a command that names them in the catalog; in the background it
    reclaims, repairs and moves extents to object storage.  This development
    models the state machine and the modules it is made of, the store it is
    checkpointed in, Raft, and the engine over a local log.  All source files
    named below are under [src/crates/atlas-native/src].

    ** How the code is modelled

    Pure functions are functions.  A method that changes an object is a
    computation of the state monad [SM S E A] of this file, which returns [Ok],
    [Err] or [Panic] ([expect], an index out of bounds, an underflow) and the
    state it leaves, also when it fails.  [BTreeMap] and [BTreeSet] are [gmap]
    and [gset], iterated in the order of their keys by [bt_entries], [bt_keys],
    [bt_values] and [bt_elements].  Machine integers are [N] or [Z]; where the
    source can leave the range, the wrap or the check is written out.  Counters
    that grow by one per command or access (reference counts, log indices, cache
    stamps, inode and entry counts) are unbounded: 2^64 of them are out of reach.
    Names, ids and paths are strings; the text of error messages is dropped.
    What comes from outside (times, identifiers, outcomes of disk and device
    calls) is a stream the state carries with the number of calls made; theorems
    are about every stream.  Components meet in classes: [RaftMachine.v] is what
    Raft needs of the catalog, [Device.BlockStore] and [Objects.ObjectStore] are
    the traits of [device.rs] and [object.rs], each with a class of laws and an
    instance that satisfies them.  Proofs about [SM] go through [wp], the weakest
    precondition, which excludes panics.

    ** Parts, files and what is shown

    - [alloc.rs] is [FreeList.v]: free ranges per device.  A list is the
      canonical form of a set of free bytes; [reserve], [release] and [find] are
      exact on it, errors included.
    - [membership.rs] is [Membership.v]: stable and joint voter sets; quorums of
      configurations that can meet intersect.
    - [leases.rs] is [Leases.v]: sessions and byte-range locks.  Locks exclude
      each other in every reachable table, [Lock] means [F_SETLK] byte by byte,
      and expiry drops exactly the sessions that are due.
    - [acl.rs] is [Acl.v]: parsing accepts exactly the encodings of well-formed
      ACLs, and the mode bits and the ACL stay in step.
    - [ec.rs] is [Ec.v]: erasure-coded extents survive the loss of any [parity]
      shards.  The Reed-Solomon codec is a parameter with one law.
    - The catalog's records and commands are [Catalog.v] and [MetaError.v];
      reference counting is [Extents.v]; one filesystem's inodes are [FsTree.v];
      the filesystem operations of [namespace.rs] are [Namespace.v], those of
      [namespace/replica.rs] are [Replica.v]; the commands of [metadata.rs] and
      their application are [Metadata.v].
    - [Tree.v] is the abstract tree a filesystem promises to be; [NsSpec.v],
      [NsTree.v] and [TreeSpec.v] show that the directory operations refine the
      tree's and that every filesystem clients produce is one.
    - [NsRefs.v], [ReplicaRefs.v] and [MetaRefs.v] show that references are exact
      through every command, [Space.v] and [MetaSpace.v] that device space stays
      exclusive when commands place unused ranges, [Frames.v] and [NoStore.v] what
      commands leave alone; [MetaSpec.v] puts them together: a committed command that
      meets its preconditions ([MetaSpec.accepts], which the state machine does not
      check) either succeeds and keeps the invariant or changes nothing, and does not
      panic.  Without them it can: [MetaSpec.replica_apply_stale_check].
    - [tracked.rs] is [Tracked.v], [inodes.rs] is [Store.v] (directory entries)
      and [Inodes.v] (tables), [store.rs] is [Lru.v] (the cache), [Store.v]
      (snapshots) and [Checkpoint.v] (checkpoint and load).  [InodesSpec.v] and
      [InodesSim.v] show that a table paged on the store cannot be told from the
      map of its inodes; [CheckpointSpec.v], [CheckpointOk.v] and [StoreSim.v]
      that incremental checkpoints and restarts, in any order, keep the catalog.

    - [wal.rs] is [Wal.v]: the log as the bytes of its file and how many of them
      are durable.  [WalSpec.v] shows that it implements a list of records over
      clean crashes, and the two kinds of torn tail for which it does not.
    - [raft.rs] is [Raft.v], with [raft_snapshot.rs] in [RaftSnapshot.v], over the
      interface of [RaftMachine.v].  [RaftLog.v] has the facts of the Raft paper on
      histories of logs; [RaftCalc.v], [RaftVotes.v], [RaftSafe.v], [RaftOps.v],
      [RaftFollow.v], [RaftLead.v], [RaftElect.v] and [RaftNet.v] show that every
      operation of a node keeps its invariant within the history;
      [RaftCluster.v] is a cluster with a network and crashes, with one leader per
      term.  [RaftAgree.v] has the other results: log matching, leader
      completeness, state machine safety, and that an operation panics only where the
      state machine does.  [CatalogKeys.v] and [RaftCatalog.v] put Raft over the
      catalog: one sound catalog, and operations that return unless a committed command
      did not meet its preconditions.  [RaftReads.v] shows a read barrier answered with
      an old index.
    - [placement.rs] is [Placement.v], [device.rs] is [Device.v], [data_node.rs] is
      [DataNode.v], [engine/inflight.rs] is [Inflight.v], [object.rs] is
      [Objects.v].  Placement picks different eligible nodes and spreads them;
      appends that overlap in time get space of their own; a data node that has
      carried out a write of a term carries out none of earlier terms, whichever reads
      and writes of its fence files fail.
    - [engine.rs] is [NativeError.v], [Engine.v] (state, health, commits),
      [EngineRead.v] and [EngineWrite.v]; with [gc.rs], [engine/rebuild.rs] and
      [engine/tier.rs] it is [EngineRepair.v].  [EngineMeta.v] shows that a commit
      is all or nothing over a local log and what a restart loads; [EngineData.v],
      [EngineInv.v], [EnginePlace.v], [EngineRange.v], [EngineCat.v],
      [EngineBatch.v] and [EngineCommit.v] are the invariant of an engine (what an
      extent's record says is on its devices or in its object, and space in flight
      is nobody else's) and that placements, reads and commits keep it.
    - [EngineDisks.v] and [EngineSpec.v] are what users are promised: volumes and
      snapshots as byte sequences.  [EngineOps.v], [EngineWrites.v] and
      [EngineUpkeep.v] show that every operation does what it promises and that
      maintenance changes no byte; [EngineSim.v] puts them together for any
      interleaving with failures and restarts, with device space that no two extents
      or writes under way share, and [EngineAvail.v] shows that reads succeed while
      enough devices, or the object store for what has moved there, answer.

    ** Fuel and bounds

    Where a loop is not structural its fuel is a count that the loop uses up.
    The walk up the directory tree ([FsTree.is_within]) has one step more than
    there are inodes; it is shown to end within them in every filesystem that
    clients produce, and to return [Panic] only where the source would loop for
    ever.  The eviction loop of the cache ([Lru.evict]) has a step per entry.  In
    Raft, applying ([apply_loop]) has a step per committed entry, the hint of a
    rejected append one per index, a commit three rounds (a joint configuration,
    the stable one after it, and the test that nothing follows) and a snapshot's
    next chunk one per filesystem and four for the rest; running out is a panic,
    and [RaftCatalog.v] shows that in a reachable cluster operations panic only when a
    committed command did not meet its preconditions (a proposal, also when it panics
    itself on the state computed ahead).  In the engine, rounds of placements and of
    shard reads have a step per candidate (each round takes at least one), the cells of
    a write and the chunks of a slice one per byte or element (each takes at
    least one), and the loop on a fence two (the second round finds the fence the
    first one raised); running out there is a panic, an error or a list cut
    short, which the theorems on results exclude.

    ** Choices of the model

    - A Raft node that panics or stops after an error takes no more steps; it
      crashes between its operations, cleanly: its log keeps whole records, all that
      were synced among them, which is what [WalSpec.v] shows of files whose torn
      tail is dropped; its disk operations do not fail; the agreement theorems are for
      a fixed set of voters: no step changes the membership.
    - A data node's fence files keep what was last written to them.
    - The engine runs over the local log.  Device calls of parallel threads run
      in order; a sort calls its key once per element; a pass of maintenance is
      one step, while reads and writes of whole cells are two, with anything in
      between.  A crash is between steps and loses what is in flight.
    - Theorems about the engine assume that the hash has no collisions, that the
      erasure code recovers what its parity allows, that identifiers are new,
      that volumes are smaller than 2^64 - 1 bytes and that directory syncs
      succeed; [EngineSim.v] and [EngineMeta.v] show what happens without the last
      two.  A device may fail at any call, and a write that fails may have written
      a part; what was acknowledged stays.

    ** Not modelled

    Sockets, threads, timers and system calls, with what is only made of them
    ([raft_server.rs], [raw.rs], [uring.rs], [durable.rs] and the client side of
    [data_node.rs]); the engine over Raft, its file, replication and lease calls
    ([engine/files.rs], [engine/replica.rs], [engine/leases.rs]), which use the
    cells and commits that are modelled and the commands of the state machine,
    and its reports; the controllers that pace maintenance; HTTP, TLS, FUSE, NFS,
    SMB, S3 and CSI front ends; SQL and the control plane around them; the JSON
    of records (a record is the value it stands for) and the embedded database
    beneath its tables, whose reads and commits do not fail in the store's
    theorems; telemetry, and locks poisoned by a panic. *)

From stdpp Require Export base tactics decidable list gmap strings sorting numbers fin_maps fin_sets.
From Stdlib Require Export NArith ZArith.

#[global] Set Default Goal Selector "!".

(** ** Results

    A Rust [Result<A, E>] computation that may also panic.  [Panic] stands for
    an [expect], an index out of bounds or an arithmetic underflow that the
    source does not turn into an error value. *)

Inductive res (E A : Type) : Type :=
| Ok (a : A)
| Err (e : E)
| Panic.
Arguments Ok {E A} a.
Arguments Err {E A} e.
Arguments Panic {E A}.

#[export] Instance res_ret {E} : MRet (res E) := λ A a, Ok a.
#[export] Instance res_bind {E} : MBind (res E) := λ A B f x,
  match x with Ok a => f a | Err e => Err e | Panic => Panic end.

Definition ok_or {E A} (o : option A) (e : E) : res E A :=
  match o with Some a => Ok a | None => Err e end.

(** [reject_if b e] is the early return [if b { return Err(e) }]. *)
Definition reject_if {E} (b : bool) (e : E) : res E () := if b then Err e else Ok ().

Lemma res_bind_Ok {E A B} (x : res E A) (f : A → res E B) b :
  (x ≫= f) = Ok b ↔ ∃ a, x = Ok a ∧ f a = Ok b.
Proof. unfold mbind, res_bind. destruct x; naive_solver. Qed.
Lemma reject_if_Ok {E} b (e : E) u : reject_if b e = Ok u ↔ b = false.
Proof. destruct b, u; simpl; split; congruence. Qed.

(** ** State and errors

    A method taking [&mut self] and returning [Result<A, E>]: the state it
    leaves behind is kept also when it returns an error, so that what a failed
    call changed stays visible. *)

Definition SM (S E A : Type) : Type := S → S * res E A.

#[export] Instance sm_ret {S E} : MRet (SM S E) := λ A a s, (s, Ok a).
#[export] Instance sm_bind {S E} : MBind (SM S E) := λ A B f m s,
  match m s with
  | (s', Ok a) => f a s'
  | (s', Err e) => (s', Err e)
  | (s', Panic) => (s', Panic)
  end.

Definition sm_get {S E} : SM S E S := λ s, (s, Ok s).
Definition sm_put {S E} (s : S) : SM S E () := λ _, (s, Ok ()).
Definition sm_modify {S E} (f : S → S) : SM S E () := λ s, (f s, Ok ()).
Definition sm_reads {S E A} (f : S → A) : SM S E A := λ s, (s, Ok (f s)).
Definition sm_err {S E A} (e : E) : SM S E A := λ s, (s, Err e).
Definition sm_panic {S E A} : SM S E A := λ s, (s, Panic).
Definition sm_lift {S E A} (r : res E A) : SM S E A := λ s, (s, r).
(** A read of the state that may fail. *)
Definition sm_try {S E A} (f : S → res E A) : SM S E A := λ s, (s, f s).

(** [for x in l { f(x)? }]. *)
Fixpoint sm_for {S E A} (l : list A) (f : A → SM S E ()) : SM S E () :=
  match l with
  | [] => mret ()
  | x :: l => f x ;; sm_for l f
  end.

Fixpoint res_for {E A} (l : list A) (f : A → res E ()) : res E () :=
  match l with
  | [] => mret ()
  | x :: l => f x ;; res_for l f
  end.

(** What happens to a write of a file: it succeeds, or fails without or with having
    reached the disk. *)
Inductive DiskFault := DiskOk | DiskLost | DiskWritten.

(** ** Weakest preconditions

    [wp m s Q R]: run from [s], [m] does not panic, and ends in [Q a s'] when it
    returns [Ok a] and in [R e s'] when it returns [Err e]. *)

Definition wp {S E A} (m : SM S E A) (s : S) (Q : A → S → Prop) (R : E → S → Prop) : Prop :=
  match m s with
  | (s', Ok a) => Q a s'
  | (s', Err e) => R e s'
  | (_, Panic) => False
  end.

Section wp.
Context {S E : Type}.
Implicit Types s : S.

Lemma wp_mono {A} (m : SM S E A) s (Q Q' : A → S → Prop) (R R' : E → S → Prop) :
  wp m s Q R → (∀ a s', Q a s' → Q' a s') → (∀ e s', R e s' → R' e s') → wp m s Q' R'.
Proof. unfold wp. intros Hm HQ HR. destruct (m s) as [s' []]; auto. Qed.

Lemma wp_ret {A} (a : A) s (Q : A → S → Prop) (R : E → S → Prop) : wp (mret a) s Q R ↔ Q a s.
Proof. done. Qed.

Lemma wp_bind {A B} (m : SM S E A) (k : A → SM S E B) s Q R :
  wp (m ≫= k) s Q R ↔ wp m s (λ a s', wp (k a) s' Q R) R.
Proof. unfold wp, mbind, sm_bind. by destruct (m s) as [s' []]. Qed.

Lemma wp_get s (Q : S → S → Prop) (R : E → S → Prop) : wp sm_get s Q R ↔ Q s s.
Proof. done. Qed.
Lemma wp_put s' s (Q : () → S → Prop) (R : E → S → Prop) : wp (sm_put s') s Q R ↔ Q () s'.
Proof. done. Qed.
Lemma wp_modify f s (Q : () → S → Prop) (R : E → S → Prop) : wp (sm_modify f) s Q R ↔ Q () (f s).
Proof. done. Qed.
Lemma wp_reads {A} (f : S → A) s (Q : A → S → Prop) (R : E → S → Prop) :
  wp (sm_reads f) s Q R ↔ Q (f s) s.
Proof. done. Qed.
Lemma wp_err {A} (e : E) s (Q : A → S → Prop) (R : E → S → Prop) : wp (sm_err e) s Q R ↔ R e s.
Proof. done. Qed.
Lemma wp_lift {A} (r : res E A) s (Q : A → S → Prop) (R : E → S → Prop) :
  wp (sm_lift r) s Q R ↔ match r with Ok a => Q a s | Err e => R e s | Panic => False end.
Proof. by destruct r. Qed.
Lemma wp_try {A} (f : S → res E A) s (Q : A → S → Prop) (R : E → S → Prop) :
  wp (sm_try f) s Q R ↔ match f s with Ok a => Q a s | Err e => R e s | Panic => False end.
Proof. unfold wp, sm_try. by destruct (f s). Qed.

(** A loop whose every step succeeds and re-establishes the invariant, which
    may speak of the elements left. *)
Lemma wp_for {A} (l : list A) (f : A → SM S E ()) (I : list A → S → Prop) s Q R :
  (∀ x l s, I (x :: l) s → wp (f x) s (λ _ s', I l s') (λ _ _, False)) →
  I l s → (∀ s', I [] s' → Q () s') → wp (sm_for l f) s Q R.
Proof.
  intros Hf. revert s. induction l as [|x l IH]; intros s Hi HQ; cbn [sm_for].
  - by apply wp_ret, HQ.
  - apply wp_bind. eapply wp_mono; [by apply Hf| |done]. intros [] s' Hs'. by apply IH.
Qed.
End wp.

Create Rewrite HintDb wp.
#[export] Hint Rewrite @wp_ret @wp_bind @wp_get @wp_put @wp_modify @wp_reads @wp_err @wp_lift @wp_try : wp.
Ltac wp_simpl := autorewrite with wp.

(** ** Record update

    [x <| f := v |>] is the struct update [T { f: v, ..x }] and
    [x <| f ::= g |>] edits the field in place. *)

Class Eta (R : Type) := eta : R → R.
Class Setter {R T : Type} (proj : R → T) := set_field : (T → T) → R → R.
Arguments set_field {R T} proj {_} f x /.
#[global] Hint Mode Eta ! : typeclass_instances.

Ltac term_head t := lazymatch t with ?f _ => term_head f | _ => t end.

Ltac build_setter :=
  lazymatch goal with
  | |- @Setter ?R ?T ?proj =>
      let f := fresh "f" in
      let x := fresh "x" in
      intros f x;
      let i := constr:(_ : Eta R) in
      let t := eval cbv beta delta [eta] in (@eta R i x) in
      let h := term_head t in
      let t := eval cbv beta delta [h] in t in
      lazymatch eval pattern (proj x) in t with
      | ?g _ => let r := eval cbv beta in (g (f (proj x))) in exact r
      end
  end.
#[global] Hint Extern 1 (Setter _) => build_setter : typeclass_instances.

Declare Scope record_scope.
Delimit Scope record_scope with rec.
Notation "x <| f := v |>" := (set_field f (λ _, v) x)
  (at level 1, f at level 9, left associativity, format "x  <| f  :=  v |>") : record_scope.
Notation "x <| f ::= g |>" := (set_field f g x)
  (at level 1, f at level 9, left associativity, format "x  <| f  ::=  g |>") : record_scope.
Open Scope record_scope.

(** ** Machine integers

    [u64], [usize] (64-bit targets) and [u32] values are [N]; the release
    profile does not check overflow, so [+] wraps. *)

Definition u64_max : N := 18446744073709551615.
Definition u64_size : N := 18446744073709551616.
Definition u64_add (a b : N) : N := (a + b) `mod` u64_size.
Definition u64_saturating_add (a b : N) : N := N.min u64_max (a + b).
Definition u64_checked_add (a b : N) : option N :=
  if (a + b <=? u64_max)%N then Some (a + b)%N else None.

Definition u32_size : N := 4294967296.
Definition u32_add (a b : N) : N := (a + b) `mod` u32_size.
(** [as u32] of a non-negative value. *)
Definition as_u32 (z : Z) : N := Z.to_N z `mod` u32_size.

Lemma u64_add_small a b : (a + b < u64_size)%N → u64_add a b = (a + b)%N.
Proof. intros H. unfold u64_add. by apply N.mod_small. Qed.

Lemma u64_add_bound a b : (u64_add a b < u64_size)%N.
Proof. unfold u64_add. apply N.mod_lt. by unfold u64_size. Qed.

(** Boolean comparisons of the goal that linear arithmetic settles. *)
Ltac leb_lia :=
  repeat match goal with
  | |- context [N.leb ?a ?b] => first [rewrite (proj2 (N.leb_le a b)) by lia | rewrite (proj2 (N.leb_gt a b)) by lia]
  | |- context [N.ltb ?a ?b] => first [rewrite (proj2 (N.ltb_lt a b)) by lia | rewrite (proj2 (N.ltb_ge a b)) by lia]
  end.

(** ** Vectors *)

(** [iter().position(p)]. *)
Fixpoint position {A} (p : A → bool) (l : list A) : option nat :=
  match l with
  | [] => None
  | x :: l => if p x then Some 0 else S <$> position p l
  end.

(** [Vec::insert] and [Vec::remove] (the callers stay in range). *)
Definition vec_insert {A} (l : list A) (i : nat) (x : A) : list A :=
  take i l ++ x :: drop i l.
Definition vec_remove {A} (l : list A) (i : nat) : list A :=
  take i l ++ drop (S i) l.

(** [slice::partition_point]: the length of the prefix satisfying [p]; on a
    slice partitioned by [p], as the standard library requires, this is the
    index its binary search returns. *)
Fixpoint partition_point {A} (p : A → bool) (l : list A) : nat :=
  match l with
  | [] => 0
  | x :: l => if p x then S (partition_point p l) else 0
  end.

Lemma position_Some {A} (p : A → bool) l i :
  position p l = Some i →
  ∃ l1 x l2, l = l1 ++ x :: l2 ∧ length l1 = i ∧ p x = true ∧ Forall (λ y, p y = false) l1.
Proof.
  revert i. induction l as [|y l IH]; intros i; simpl; [done|].
  destruct (p y) eqn:Hp.
  - intros [= <-]. exists [], y, l. repeat split; auto.
  - intros (j & Hj & ->)%fmap_Some.
    destruct (IH _ Hj) as (l1 & x & l2 & -> & <- & Hx & Hl).
    exists (y :: l1), x, l2. repeat split; auto.
Qed.

Lemma position_None {A} (p : A → bool) l :
  position p l = None ↔ Forall (λ y, p y = false) l.
Proof.
  induction l as [|y l IH]; simpl; [done|].
  destruct (p y) eqn:Hp; rewrite Forall_cons.
  - split; [done|]. intros [H _]. congruence.
  - rewrite fmap_None, IH. naive_solver.
Qed.

Lemma position_app_cons {A} (p : A → bool) l1 x l2 :
  Forall (λ y, p y = false) l1 → p x = true → position p (l1 ++ x :: l2) = Some (length l1).
Proof. induction 1 as [|y l1 Hy _ IH]; intros Hx; simpl; [by rewrite Hx|]. by rewrite Hy, IH. Qed.

Lemma vec_insert_app {A} (l1 l2 : list A) x : vec_insert (l1 ++ l2) (length l1) x = l1 ++ x :: l2.
Proof. unfold vec_insert. by rewrite take_app_length, drop_app_length. Qed.

Lemma vec_remove_app {A} (l1 l2 : list A) x : vec_remove (l1 ++ x :: l2) (length l1) = l1 ++ l2.
Proof.
  unfold vec_remove. rewrite take_app_length. f_equal.
  by rewrite cons_middle, app_assoc, drop_app_length' by (rewrite length_app; simpl; lia).
Qed.

Lemma vec_insert_app_S {A} (l1 l2 : list A) x y :
  vec_insert (l1 ++ x :: l2) (S (length l1)) y = l1 ++ x :: y :: l2.
Proof.
  rewrite cons_middle, app_assoc.
  replace (S (length l1)) with (length (l1 ++ [x])) by (rewrite length_app; simpl; lia).
  by rewrite vec_insert_app, <- app_assoc.
Qed.

Lemma vec_remove_app_S {A} (l1 l2 : list A) x y :
  vec_remove (l1 ++ x :: y :: l2) (S (length l1)) = l1 ++ x :: l2.
Proof.
  rewrite (cons_middle x l1 (y :: l2)), app_assoc.
  replace (S (length l1)) with (length (l1 ++ [x])) by (rewrite length_app; simpl; lia).
  by rewrite vec_remove_app, <- app_assoc.
Qed.

(** Indexing past a known prefix, in a form [S (S (length l1))] unifies with. *)
Lemma lookup_app_plus {A} (k : nat) (l1 l : list A) : (l1 ++ l) !! (k + length l1)%nat = l !! k.
Proof. rewrite lookup_app_r by lia. f_equal. lia. Qed.
Lemma insert_app_plus {A} (k : nat) (l1 l : list A) x :
  <[(k + length l1)%nat := x]> (l1 ++ l) = l1 ++ <[k := x]> l.
Proof. rewrite insert_app_r_alt by lia. do 2 f_equal. lia. Qed.
Lemma vec_insert_app_plus {A} (k : nat) (l1 l : list A) x :
  vec_insert (l1 ++ l) (k + length l1) x = l1 ++ vec_insert l k x.
Proof.
  unfold vec_insert. rewrite take_app_ge, drop_app_ge by lia.
  replace (k + length l1 - length l1) with k by lia. by rewrite <- app_assoc.
Qed.
Lemma vec_remove_app_plus {A} (k : nat) (l1 l : list A) :
  vec_remove (l1 ++ l) (k + length l1) = l1 ++ vec_remove l k.
Proof.
  unfold vec_remove. rewrite take_app_ge, drop_app_ge by lia.
  replace (k + length l1 - length l1) with k by lia.
  replace (S (k + length l1) - length l1) with (S k) by lia. by rewrite <- app_assoc.
Qed.

Lemma partition_point_split {A} (p : A → bool) l :
  ∃ l1 l2, l = l1 ++ l2 ∧ length l1 = partition_point p l ∧
    Forall (λ y, p y = true) l1 ∧ match l2 with [] => True | x :: _ => p x = false end.
Proof.
  induction l as [|y l IH]; simpl; [by exists [], []|].
  destruct IH as (l1 & l2 & -> & Hlen & H1 & H2).
  destruct (p y) eqn:Hp.
  - exists (y :: l1), l2. simpl. auto with f_equal.
  - exists [], (y :: l1 ++ l2). auto.
Qed.

Lemma find_Some_split {A} (p : A → bool) l x :
  List.find p l = Some x → p x = true ∧ ∃ l1 l2, l = l1 ++ x :: l2 ∧ Forall (λ y, p y = false) l1.
Proof.
  induction l as [|y l IH]; simpl; [done|]. destruct (p y) eqn:Hp.
  - intros [= <-]. split; [done|]. by exists [], l.
  - intros (Hx & l1 & l2 & -> & Hl)%IH. split; [done|]. exists (y :: l1), l2. auto.
Qed.

Lemma find_None_Forall {A} (p : A → bool) l :
  List.find p l = None ↔ Forall (λ y, p y = false) l.
Proof.
  induction l as [|y l IH]; simpl; [done|]. rewrite Forall_cons.
  destruct (p y); [|naive_solver]. split; [done|]. by intros [? _].
Qed.

Lemma elem_of_concat {A} (x : A) ls : x ∈ concat ls ↔ ∃ l, l ∈ ls ∧ x ∈ l.
Proof. rewrite list_elem_of_In, in_concat. by setoid_rewrite <- list_elem_of_In. Qed.

(** ** String order

    Rust orders [String]s by their bytes, as [String.compare] does. *)

Definition string_lt (s1 s2 : string) : Prop := String.compare s1 s2 = Lt.

Lemma string_compare_refl s : String.compare s s = Eq.
Proof. generalize (String.compare_antisym s s). by destruct (String.compare s s). Qed.

Lemma string_lt_le s1 s2 : string_lt s1 s2 ↔ String.le s1 s2 ∧ s1 ≠ s2.
Proof.
  unfold string_lt, String.le, String.leb.
  destruct (String.compare s1 s2) eqn:H; simpl; split; try done; try naive_solver.
  - apply String.compare_eq_iff in H as ->. naive_solver.
  - split; [done|]. intros ->. by rewrite string_compare_refl in H.
Qed.

Lemma string_lt_trans s1 s2 s3 : string_lt s1 s2 → string_lt s2 s3 → string_lt s1 s3.
Proof.
  rewrite !string_lt_le. intros [H12 N12] [H23 N23]. split; [by etrans|].
  intros ->. apply N12. by apply (anti_symm String.le).
Qed.

Lemma string_lt_irrefl s : ¬ string_lt s s.
Proof. rewrite string_lt_le. naive_solver. Qed.

Lemma string_compare_gt s1 s2 : String.compare s1 s2 = Gt ↔ string_lt s2 s1.
Proof.
  unfold string_lt. rewrite String.compare_antisym.
  destruct (String.compare s2 s1); simpl; naive_solver.
Qed.

(** ** Filters *)

Section filters.
Context {A : Type} (P Q : A → Prop) `{!∀ x, Decision (P x), !∀ x, Decision (Q x)}.

Lemma filter_none (l : list A) : (∀ x, x ∈ l → ¬ P x) → base.filter P l = [].
Proof.
  induction l as [|x l IH]; intros Hn; [done|].
  rewrite filter_cons_False by (apply Hn; set_solver). apply IH. set_solver.
Qed.

Lemma filter_every (l : list A) : (∀ x, x ∈ l → P x) → base.filter P l = l.
Proof.
  induction l as [|x l IH]; intros Hn; [done|].
  rewrite filter_cons_True by (apply Hn; set_solver). f_equal. apply IH. set_solver.
Qed.

Lemma length_filter_filter (l : list A) :
  length (base.filter P (base.filter Q l)) ≤ length (base.filter P l).
Proof.
  induction l as [|x l IH]; [done|]. rewrite (filter_cons Q), (filter_cons P).
  case_decide; [rewrite filter_cons|]; case_decide; simpl; lia.
Qed.
End filters.

(** ** Ordered maps

    A [BTreeMap] or [BTreeSet] is a [gmap] or [gset]; where the source iterates
    over one, the traversal in key order is written out. *)

Class BTreeKey (K : Type) := {
  bt_le : relation K;
  bt_le_dec : RelDecision bt_le;
  bt_le_po : PartialOrder bt_le;
  bt_le_total : Total bt_le;
}.
#[export] Existing Instance bt_le_dec.
#[export] Existing Instance bt_le_po.
#[export] Existing Instance bt_le_total.

#[export] Instance N_btkey : BTreeKey N := {| bt_le := N.le |}.
#[export] Instance string_btkey : BTreeKey string := {| bt_le := String.le |}.

Section btree.
Context {K : Type} `{Countable K} `{!BTreeKey K}.

Definition entry_le {V} (a b : K * V) : Prop := bt_le (a.1) (b.1).
#[export] Instance entry_le_dec {V} : RelDecision (@entry_le V) := λ a b, bt_le_dec (a.1) (b.1).

Definition bt_entries {V} (m : gmap K V) : list (K * V) :=
  merge_sort entry_le (map_to_list m).
Definition bt_keys {V} (m : gmap K V) : list K := (bt_entries m).*1.
Definition bt_values {V} (m : gmap K V) : list V := (bt_entries m).*2.
Definition bt_elements (s : gset K) : list K := merge_sort bt_le (elements s).

#[export] Instance entry_le_trans {V} : Transitive (@entry_le V).
Proof. intros a b c. unfold entry_le. by etrans. Qed.
#[export] Instance entry_le_total {V} : Total (@entry_le V).
Proof. intros a b. unfold entry_le. apply (total bt_le). Qed.

Lemma bt_entries_sorted {V} (m : gmap K V) : StronglySorted entry_le (bt_entries m).
Proof. apply (StronglySorted_merge_sort entry_le _). Qed.

Lemma bt_entries_perm {V} (m : gmap K V) : bt_entries m ≡ₚ map_to_list m.
Proof. apply merge_sort_Permutation. Qed.

Lemma elem_of_bt_entries {V} (m : gmap K V) k v : (k, v) ∈ bt_entries m ↔ m !! k = Some v.
Proof. by rewrite bt_entries_perm, elem_of_map_to_list. Qed.

Lemma elem_of_bt_keys {V} (m : gmap K V) k : k ∈ bt_keys m ↔ is_Some (m !! k).
Proof.
  unfold bt_keys. rewrite list_elem_of_fmap. split.
  - intros ([k' v] & -> & Hin%elem_of_bt_entries). by eexists.
  - intros [v Hv]. exists (k, v). by rewrite elem_of_bt_entries.
Qed.

Lemma elem_of_bt_values {V} (m : gmap K V) v : v ∈ bt_values m ↔ ∃ k, m !! k = Some v.
Proof.
  unfold bt_values. rewrite list_elem_of_fmap. split.
  - intros ([k v'] & -> & Hin%elem_of_bt_entries). by eexists.
  - intros [k Hk]. exists (k, v). by rewrite elem_of_bt_entries.
Qed.

Lemma elem_of_bt_elements (s : gset K) k : k ∈ bt_elements s ↔ k ∈ s.
Proof. unfold bt_elements. by rewrite merge_sort_Permutation, elem_of_elements. Qed.
Lemma NoDup_bt_elements (s : gset K) : NoDup (bt_elements s).
Proof. unfold bt_elements. rewrite merge_sort_Permutation. apply NoDup_elements. Qed.

Lemma NoDup_bt_keys {V} (m : gmap K V) : NoDup (bt_keys m).
Proof. unfold bt_keys. rewrite bt_entries_perm. apply NoDup_fst_map_to_list. Qed.

(** The traversal in key order is the only sorted list of the map's entries. *)
Lemma sorted_entries_unique {V} (l1 l2 : list (K * V)) :
  StronglySorted entry_le l1 → StronglySorted entry_le l2 → NoDup l1.*1 → l1 ≡ₚ l2 → l1 = l2.
Proof.
  revert l2. induction l1 as [|a l1 IH]; intros l2 H1 H2 Hn Hp; [by apply Permutation_nil_l in Hp|].
  destruct l2 as [|b l2]; [by apply Permutation_nil_r in Hp|].
  apply StronglySorted_inv in H1 as [H1 Ha], H2 as [H2 Hb]. rewrite Forall_forall in Ha, Hb.
  assert (a = b) as ->.
  { assert (a ∈ b :: l2) as Hain by (rewrite <- Hp; by left). assert (b ∈ a :: l1) as Hbin by (rewrite Hp; by left).
    apply elem_of_cons in Hain as [?|Hain]; [done|]. apply elem_of_cons in Hbin as [?|Hbin]; [done|].
    assert (a.1 = b.1) as Hk by (apply (anti_symm bt_le); [by apply Ha|by apply Hb]).
    csimpl in Hn. apply NoDup_cons in Hn as [Hn _]. destruct Hn. rewrite Hk. by apply list_elem_of_fmap_2. }
  f_equal. csimpl in Hn. apply NoDup_cons in Hn as [_ Hn]. apply IH; [done..|]. by apply Permutation_cons_inv in Hp.
Qed.

Lemma bt_entries_unique {V} (l : list (K * V)) (m : gmap K V) :
  StronglySorted entry_le l → l ≡ₚ map_to_list m → l = bt_entries m.
Proof.
  intros Hs Hp. apply sorted_entries_unique; [done|apply bt_entries_sorted| |by rewrite bt_entries_perm].
  rewrite Hp. apply NoDup_fst_map_to_list.
Qed.

Lemma sorted_filter {V} (f : K * V → bool) l : StronglySorted entry_le l → StronglySorted entry_le (List.filter f l).
Proof.
  induction 1 as [|x l Hl IH Hx]; [constructor|]. simpl. destruct (f x); [|done]. constructor; [done|].
  rewrite Forall_forall in Hx |- *. intros y [Hy _]%list_elem_of_In%List.filter_In. by apply Hx, list_elem_of_In.
Qed.

Lemma bt_entries_filter {V} (f : K * V → bool) (m m' : gmap K V) :
  (∀ k v, m' !! k = Some v ↔ m !! k = Some v ∧ f (k, v) = true) → bt_entries m' = List.filter f (bt_entries m).
Proof.
  intros Hm. symmetry. apply bt_entries_unique; [apply sorted_filter, bt_entries_sorted|].
  apply NoDup_Permutation.
  - apply NoDup_ListNoDup, List.NoDup_filter, NoDup_ListNoDup. rewrite bt_entries_perm. apply NoDup_map_to_list.
  - apply NoDup_map_to_list.
  - intros [k v]. rewrite elem_of_map_to_list, Hm, <- elem_of_bt_entries, !list_elem_of_In. apply List.filter_In.
Qed.

(** An entry is among the first [n] exactly when fewer than [n] have smaller keys. *)
Definition bt_lt (a b : K) : Prop := bt_le a b ∧ a ≠ b.
#[export] Instance bt_lt_dec a b : Decision (bt_lt a b).
Proof. apply _. Defined.

Definition below {V} (k : K) (m : gmap K V) : nat := length (base.filter (λ x, bt_lt (x.1) k) (map_to_list m)).

Lemma below_sub {V} (m1 m2 : gmap K V) k : m1 ⊆ m2 → (below k m1 ≤ below k m2)%nat.
Proof.
  intros Hm. unfold below. apply submseteq_length, NoDup_submseteq; [apply NoDup_filter, NoDup_map_to_list|].
  intros [j v] [Hj Hin]%list_elem_of_filter. apply list_elem_of_filter. split; [done|].
  apply elem_of_map_to_list. apply elem_of_map_to_list in Hin. by eapply lookup_weaken.
Qed.

Lemma take_sorted {V} n (l : list (K * V)) x :
  StronglySorted entry_le l → NoDup l.*1 →
  x ∈ take n l ↔ x ∈ l ∧ (length (base.filter (λ y, bt_lt (y.1) (x.1)) l) < n)%nat.
Proof.
  revert n. induction l as [|a l IH]; intros n Hs Hn; [rewrite take_nil; set_solver|].
  apply StronglySorted_inv in Hs as [Hs Ha]. csimpl in Hn. apply NoDup_cons in Hn as [Hna Hn]. rewrite Forall_forall in Ha.
  assert (∀ y, y ∈ l → bt_lt (a.1) (y.1)) as Hlt.
  { intros y Hy. split; [by apply Ha|]. intros Heq. apply Hna. rewrite Heq. by apply list_elem_of_fmap_2. }
  destruct n as [|n]; [split; [by intros ?%elem_of_nil|lia]|]. simpl. rewrite !elem_of_cons, (IH n Hs Hn).
  split.
  - intros [->|[Hx Hlen]].
    + split; [by left|]. rewrite filter_cons_False by (by intros [_ ?]). rewrite filter_none; [simpl; lia|].
      intros y Hy [H1 H2]. destruct (Hlt y Hy) as [H3 H4]. apply H4. by apply (anti_symm bt_le).
    + split; [by right|]. rewrite filter_cons_True by (by apply Hlt). simpl. lia.
  - intros [[?|Hx] Hlen]; [by left|]. right. split; [done|]. rewrite filter_cons_True in Hlen by (by apply Hlt).
    simpl in Hlen. lia.
Qed.

Lemma elem_of_take_bt {V} n (m : gmap K V) k v :
  (k, v) ∈ take n (bt_entries m) ↔ m !! k = Some v ∧ (below k m < n)%nat.
Proof.
  rewrite take_sorted; [|apply bt_entries_sorted|apply NoDup_bt_keys]. rewrite elem_of_bt_entries. unfold below.
  assert (∀ P : K * V → Prop, ∀ HP : (∀ x, Decision (P x)), length (base.filter P (bt_entries m)) = length (base.filter P (map_to_list m))) as Hl.
  { intros P HP. by rewrite bt_entries_perm. }
  by rewrite Hl.
Qed.

(** A part of a map that has its first [n] entries has the same first [n]. *)
Lemma take_bt_part {V} n (m m' : gmap K V) :
  m' ⊆ m → (∀ k v, m !! k = Some v → (below k m < n)%nat → m' !! k = Some v) →
  take n (bt_entries m') = take n (bt_entries m).
Proof.
  intros Hsub Hpre. set (f := λ x : K * V, bool_decide (is_Some (m' !! x.1))).
  rewrite (bt_entries_filter f m m').
  2:{ intros k v. unfold f. rewrite bool_decide_eq_true. simpl. split.
      - intros Hk. split; [by eapply lookup_weaken|]. by eexists.
      - intros [Hk [w Hw]]. pose proof (lookup_weaken _ _ _ _ Hw Hsub). congruence. }
  rewrite <- (take_drop n (bt_entries m)) at 1. rewrite List.filter_app.
  assert (List.filter f (take n (bt_entries m)) = take n (bt_entries m)) as ->.
  { apply List.forallb_filter_id. apply forallb_forall. intros [k v] Hin%list_elem_of_In%elem_of_take_bt.
    unfold f. rewrite bool_decide_eq_true. destruct Hin as [Hk Hb]. eexists. by apply Hpre. }
  destruct (decide (n ≤ length (bt_entries m))%nat) as [Hn|Hn].
  - rewrite take_app_le by (rewrite length_take; lia). by rewrite take_take, Nat.min_id.
  - rewrite (drop_ge (bt_entries m)) by lia. by rewrite app_nil_r, take_take, Nat.min_id.
Qed.

Lemma bt_entries_fmap {V W} (g : V → W) (m : gmap K V) :
  bt_entries (g <$> m) = (λ x, (x.1, g (x.2))) <$> bt_entries m.
Proof.
  symmetry. apply bt_entries_unique.
  - generalize (bt_entries_sorted m). induction 1 as [|x l Hl IH Hx]; [constructor|]. csimpl. constructor; [done|].
    apply Forall_fmap. by eapply Forall_impl.
  - rewrite map_to_list_fmap, bt_entries_perm. reflexivity.
Qed.

Lemma bt_keys_dom {V W} (m : gmap K V) (m' : gmap K W) : dom m = dom m' → bt_keys m = bt_keys m'.
Proof.
  intros Hd. assert ((λ _, ()) <$> m = (λ _, ()) <$> m') as Hu.
  { apply map_eq. intros k. rewrite !lookup_fmap. assert (k ∈ dom m ↔ k ∈ dom m') as Hk by (by rewrite Hd).
    rewrite !elem_of_dom in Hk. destruct (m !! k), (m' !! k); simpl; [done| | |done]; exfalso; destruct Hk as [H1 H2];
      [destruct H1; eauto|destruct H2; eauto]; done. }
  transitivity (bt_keys ((λ _, ()) <$> m)); [|rewrite Hu]; unfold bt_keys; rewrite bt_entries_fmap, <- list_fmap_compose; done.
Qed.

(** The entries of a map by its keys in order. *)
Lemma bt_entries_keys {V} (m : gmap K V) : omap (λ k, pair k <$> m !! k) (bt_keys m) = bt_entries m.
Proof.
  unfold bt_keys. assert (∀ k v, (k, v) ∈ bt_entries m → m !! k = Some v) as Hm by (intros k v; apply elem_of_bt_entries).
  induction (bt_entries m) as [|[k v] l IH]; [done|]. csimpl. rewrite (Hm k v) by (by left). simpl. f_equal.
  apply IH. intros k' v' Hx. apply Hm. by right.
Qed.

Lemma filter_keys {V} (f : K → bool) (m : gmap K V) :
  List.filter f (bt_keys m) = bt_keys (base.filter (λ x, f (x.1) = true) m).
Proof.
  unfold bt_keys. rewrite (bt_entries_filter (λ x, f (x.1)) m (base.filter (λ x, f (x.1) = true) m)); [|intros k v; by rewrite map_lookup_filter_Some].
  induction (bt_entries m) as [|[k v] l IH]; [done|]. csimpl. destruct (f k); csimpl; by rewrite IH.
Qed.

Lemma bt_entries_Forall2 {V W} (P : V → W → Prop) (m : gmap K V) (m' : gmap K W) :
  (∀ k, option_Forall2 P (m !! k) (m' !! k)) →
  Forall2 (λ x y, x.1 = y.1 ∧ P (x.2) (y.2)) (bt_entries m) (bt_entries m').
Proof.
  intros HP. assert (dom m = dom m') as Hd.
  { apply set_eq. intros k. rewrite !elem_of_dom. destruct (HP k); split; intros [? ?]; simplify_eq; eauto. }
  rewrite <- (bt_entries_keys m), <- (bt_entries_keys m'), (bt_keys_dom m m' Hd).
  induction (bt_keys m') as [|k l IH]; [constructor|]. csimpl. destruct (HP k); simpl; [|done]. by constructor.
Qed.
End btree.

(** ** Sums over the values of a map *)

Section map_sum.
Context {K : Type} `{Countable K} {V : Type}.

Definition map_sum (f : V → nat) (m : gmap K V) : nat :=
  sum_list_with f ((map_to_list m).*2).

Lemma sum_list_with_perm (f : V → nat) l1 l2 :
  l1 ≡ₚ l2 → sum_list_with f l1 = sum_list_with f l2.
Proof. induction 1; simpl; lia. Qed.

Lemma map_sum_empty f : map_sum f ∅ = 0.
Proof. unfold map_sum. by rewrite map_to_list_empty. Qed.

Lemma map_sum_insert_None f m k v :
  m !! k = None → map_sum f (<[k := v]> m) = f v + map_sum f m.
Proof.
  intros Hk. unfold map_sum.
  erewrite sum_list_with_perm; [|apply fmap_Permutation, map_to_list_insert; done]. done.
Qed.

Lemma map_sum_delete f m k v :
  m !! k = Some v → map_sum f m = f v + map_sum f (delete k m).
Proof.
  intros Hk. rewrite <- (insert_delete_id m k v) at 1 by done.
  apply map_sum_insert_None, lookup_delete_eq.
Qed.

Lemma map_sum_insert f m k v :
  map_sum f (<[k := v]> m) + default 0 (f <$> m !! k) = f v + map_sum f m.
Proof.
  destruct (m !! k) as [w|] eqn:Hk; simpl.
  - rewrite (map_sum_delete f m k w Hk), <- insert_delete_eq.
    rewrite map_sum_insert_None by apply lookup_delete_eq. lia.
  - rewrite map_sum_insert_None by done. lia.
Qed.

Lemma map_sum_ext f g m :
  (∀ k v, m !! k = Some v → f v = g v) → map_sum f m = map_sum g m.
Proof.
  intros Hfg. unfold map_sum.
  assert (∀ v, v ∈ (map_to_list m).*2 → f v = g v) as Hl.
  { intros v ([k w] & -> & Hin%elem_of_map_to_list)%list_elem_of_fmap. simpl. eauto. }
  induction (map_to_list m).*2 as [|v l IH]; simpl; [done|].
  rewrite Hl, IH by set_solver. done.
Qed.

Lemma map_sum_elem f m k v : m !! k = Some v → f v ≤ map_sum f m.
Proof. intros Hk. rewrite (map_sum_delete f m k v Hk). lia. Qed.

Lemma map_sum_zero f m : map_sum f m = 0 ↔ ∀ k v, m !! k = Some v → f v = 0.
Proof.
  split.
  - intros Hz k v Hk. pose proof (map_sum_elem f m k v Hk). lia.
  - intros Hz. rewrite (map_sum_ext f (λ _, 0) m Hz). unfold map_sum.
    induction (map_to_list m).*2; simpl; lia.
Qed.

Lemma map_sum_le f (m1 m2 : gmap K V) :
  (∀ k v1, m1 !! k = Some v1 → ∃ v2, m2 !! k = Some v2 ∧ f v1 ≤ f v2) →
  map_sum f m1 ≤ map_sum f m2.
Proof.
  revert m2. induction m1 as [|k v m1 Hk IH] using map_ind; intros m2 Hle.
  - rewrite map_sum_empty. lia.
  - destruct (Hle k v) as (v2 & Hv2 & Hf); [apply lookup_insert_eq|].
    rewrite map_sum_insert_None, (map_sum_delete f m2 k v2) by done.
    enough (map_sum f m1 ≤ map_sum f (delete k m2)) by lia.
    apply IH. intros k' v1 Hv1. destruct (decide (k = k')) as [<-|Hne]; [congruence|].
    destruct (Hle k' v1) as (v2' & ? & ?); [by rewrite lookup_insert_ne|].
    exists v2'. by rewrite lookup_delete_ne.
Qed.
End map_sum.

Lemma map_sum_fmap {K V W} `{Countable K} (h : V → W) (g : W → nat) (m : gmap K V) :
  map_sum g (h <$> m) = map_sum (g ∘ h) m.
Proof.
  induction m as [|k v m Hk IH] using map_ind; [by rewrite fmap_empty, !map_sum_empty|].
  rewrite fmap_insert, !map_sum_insert_None, IH; [done|done|by rewrite lookup_fmap, Hk].
Qed.

Lemma sum_list_with_app {A} (f : A → nat) l1 l2 :
  sum_list_with f (l1 ++ l2) = sum_list_with f l1 + sum_list_with f l2.
Proof. induction l1; simpl; lia. Qed.

Lemma map_size_le {K V} `{Countable K} (m1 m2 : gmap K V) :
  (∀ k, is_Some (m1 !! k) → is_Some (m2 !! k)) → size m1 ≤ size m2.
Proof.
  intros Hsub. rewrite <- !size_dom. apply subseteq_size. intros k.
  rewrite !elem_of_dom. apply Hsub.
Qed.

(** ** Relations on all pairs of a list *)

Fixpoint pairwise {A} (R : A → A → Prop) (l : list A) : Prop :=
  match l with
  | [] => True
  | x :: l => (∀ y, y ∈ l → R x y) ∧ pairwise R l
  end.

Lemma pairwise_app {A} (R : A → A → Prop) l1 l2 :
  pairwise R (l1 ++ l2) ↔
  pairwise R l1 ∧ pairwise R l2 ∧ ∀ x y, x ∈ l1 → y ∈ l2 → R x y.
Proof.
  induction l1 as [|x l1 IH]; simpl; [set_solver|].
  rewrite IH. setoid_rewrite elem_of_app. setoid_rewrite elem_of_cons. naive_solver.
Qed.

Lemma pairwise_perm {A} (R : A → A → Prop) `{!Symmetric R} l1 l2 :
  l1 ≡ₚ l2 → pairwise R l1 → pairwise R l2.
Proof.
  induction 1 as [|x l1 l2 Hp IH|x y l|l1 l2 l3 _ IH1 _ IH2]; simpl; [done| | |by auto].
  - intros [Hx Hl]. split; [|auto]. intros z. rewrite <- Hp. apply Hx.
  - setoid_rewrite elem_of_cons. naive_solver.
Qed.

Lemma pairwise_filter {A} (R : A → A → Prop) (P : A → Prop) `{!∀ x, Decision (P x)} l :
  pairwise R l → pairwise R (base.filter P l).
Proof.
  induction l as [|x l IH]; [done|]. intros [Hx Hl]. rewrite filter_cons. case_decide; [|auto].
  simpl. split; [|auto]. intros y [_ Hy]%list_elem_of_filter. auto.
Qed.

(** Two elements of a list are the same or related one way or the other. *)
Lemma pairwise_elem {A} (R : A → A → Prop) l x y :
  pairwise R l → x ∈ l → y ∈ l → x = y ∨ R x y ∨ R y x.
Proof.
  induction l as [|z l IH]; simpl; [set_solver|]. intros [Hz Hl].
  rewrite !elem_of_cons. naive_solver.
Qed.
