(* ===== verification/MetaError.v ===== *)
(** * Errors of the metadata state machine ([metadata.rs])

    The constructors of [MetaError]; the formatted text each carries for the
    operator is dropped, since no code branches on it. *)

From S2P Require Import Prelude.

Module MetaError.

Inductive MetaError :=
| NotFound
| Invalid
| Exists
| NotEmpty
| NotDir
| IsDir
| NoAttr
| TooBig
| Unsupported
| Locked
| Quota
| ReadOnly
| NoSession
| Store.

#[export] Instance MetaError_eq_dec : EqDecision MetaError.
Proof. solve_decision. Defined.

End MetaError.
