(* ===== verification/FreeList.v ===== *)
(** * Device-space free lists ([alloc.rs])

    [FreeList] keeps the free byte ranges of every device of every node as a
    sorted, coalesced vector.  The module models its four operations and shows
    that the vector is the canonical representation of a set of free bytes:
    [find] is complete, [reserve] takes exactly the bytes asked for, [release]
    gives them back and rejects precisely the double frees. *)

From S2P Require Import Prelude.

Module FreeList.

Open Scope N_scope.

(** ** Data *)

Record FreeRange := mkFreeRange {
  fr_node_id : string;
  fr_device_index : N;
  fr_offset : N;
  fr_len : N;
}.
#[export] Instance eta_FreeRange : Eta FreeRange :=
  λ r, mkFreeRange (fr_node_id r) (fr_device_index r) (fr_offset r) (fr_len r).
#[export] Instance FreeRange_eq_dec : EqDecision FreeRange.
Proof. solve_decision. Defined.

Definition range_end (r : FreeRange) : N := u64_add (fr_offset r) (fr_len r).

Definition same_device (r : FreeRange) (node_id : string) (device_index : N) : bool :=
  String.eqb (fr_node_id r) node_id && (fr_device_index r =? device_index).

(** [r.key() < s.key()], the tuple order on [(node_id, device_index, offset)]. *)
Definition key_lt (r s : FreeRange) : bool :=
  match String.compare (fr_node_id r) (fr_node_id s) with
  | Lt => true
  | Gt => false
  | Eq =>
      match fr_device_index r ?= fr_device_index s with
      | Lt => true
      | Gt => false
      | Eq => fr_offset r <? fr_offset s
      end
  end.

(** The [Vec<FreeRange>] of the struct [FreeList]. *)
Abbreviation FreeList := (list FreeRange).

(** ** Operations *)

Definition total_bytes (self : FreeList) : N :=
  foldr (λ r acc, u64_add (fr_len r) acc) 0 self.

Definition find (self : FreeList) (node_id : string) (device_index len : N) : option N :=
  if len =? 0 then None
  else fr_offset <$>
    List.find (λ r, same_device r node_id device_index && (len <=? fr_len r)) self.

Definition reserve (self : FreeList) (node_id : string) (device_index offset len : N) :
    FreeList * bool :=
  if len =? 0 then (self, false)
  else
    match position (λ r, same_device r node_id device_index && (fr_offset r <=? offset)
                         && (u64_add offset len <=? range_end r)) self with
    | None => (self, false)
    | Some pos =>
        match self !! pos with
        | None => (self, false)
        | Some r =>
            let ranges := vec_remove self pos in
            let '(ranges, insert_at) :=
              if fr_offset r <? offset
              then (vec_insert ranges pos (r <| fr_len := offset - fr_offset r |>), S pos)
              else (ranges, pos) in
            let ranges :=
              if u64_add offset len <? range_end r
              then vec_insert ranges insert_at
                     (r <| fr_offset := u64_add offset len |>
                        <| fr_len := range_end r - u64_add offset len |>)
              else ranges in
            (ranges, true)
        end
    end.

(** The error of [release]: the formatted message is dropped. *)
Inductive FreeError := DoubleFree.

Definition release (self : FreeList) (node_id : string) (device_index offset len : N) :
    res FreeError FreeList :=
  if len =? 0 then Ok self
  else
    let new := mkFreeRange node_id device_index offset len in
    let pos := partition_point (λ r, key_lt r new) self in
    let overlaps_prev :=
      match pos with
      | O => false
      | S p =>
          match self !! p with
          | Some prev => same_device prev node_id device_index && (offset <? range_end prev)
          | None => false
          end
      end in
    if overlaps_prev then Err DoubleFree
    else
      let overlaps_next :=
        match self !! pos with
        | Some next => same_device next node_id device_index && (fr_offset next <? range_end new)
        | None => false
        end in
      if overlaps_next then Err DoubleFree
      else
        let ranges := vec_insert self pos new in
        let ranges :=
          match ranges !! pos, ranges !! S pos with
          | Some cur, Some next =>
              if same_device next node_id device_index && (range_end cur =? fr_offset next)
              then vec_remove (<[pos := cur <| fr_len := u64_add (fr_len cur) (fr_len next) |>]> ranges)
                     (S pos)
              else ranges
          | _, _ => ranges
          end in
        let ranges :=
          match pos with
          | O => ranges
          | S p =>
              match ranges !! pos, ranges !! p with
              | Some cur, Some prev =>
                  if same_device prev node_id device_index && (range_end prev =? fr_offset cur)
                  then vec_remove (<[p := prev <| fr_len := u64_add (fr_len prev) (fr_len cur) |>]> ranges)
                         pos
                  else ranges
              | _, _ => ranges
              end
          end in
        Ok ranges.

(** ** The free set and well-formedness *)

(** Byte [b] of device [d] of node [n] lies in [r]. *)
Definition covers (r : FreeRange) (n : string) (d b : N) : Prop :=
  fr_node_id r = n ∧ fr_device_index r = d ∧ fr_offset r <= b ∧ b < fr_offset r + fr_len r.

(** The set of free bytes a list stands for. *)
Definition is_free (fl : FreeList) (n : string) (d b : N) : Prop :=
  ∃ r, r ∈ fl ∧ covers r n d b.

Definition dev_lt (r s : FreeRange) : Prop :=
  string_lt (fr_node_id r) (fr_node_id s) ∨
  (fr_node_id r = fr_node_id s ∧ fr_device_index r < fr_device_index s).

Definition same_dev (r s : FreeRange) : Prop :=
  fr_node_id r = fr_node_id s ∧ fr_device_index r = fr_device_index s.

(** [r] comes before [s] with at least one used byte between them. *)
Definition apart (r s : FreeRange) : Prop :=
  dev_lt r s ∨ (same_dev r s ∧ fr_offset r + fr_len r < fr_offset s).

Definition range_ok (r : FreeRange) : Prop :=
  0 < fr_len r ∧ fr_offset r + fr_len r < u64_size.

(** Sorted by key, without overlap, adjacent ranges coalesced. *)
Definition wf (fl : FreeList) : Prop := StronglySorted apart fl ∧ Forall range_ok fl.

(** ** Order lemmas *)

Lemma dev_lt_irrefl r s : same_dev r s → ¬ dev_lt r s.
Proof.
  intros [Hn Hd] [H|[_ H]]; [|lia]. rewrite Hn in H. by apply string_lt_irrefl in H.
Qed.

Lemma dev_lt_trans r s t : dev_lt r s → dev_lt s t → dev_lt r t.
Proof.
  unfold dev_lt. intros [H1|[E1 H1]] [H2|[E2 H2]].
  - left. by eapply string_lt_trans.
  - left. congruence.
  - left. congruence.
  - right. split; [congruence|lia].
Qed.

Lemma dev_lt_same_r r s t : dev_lt r s → same_dev s t → dev_lt r t.
Proof. intros [H|[E H]] [En Ed]; [left|right; split]; [congruence..|lia]. Qed.

Lemma dev_lt_same_l r s t : same_dev r s → dev_lt s t → dev_lt r t.
Proof. intros [En Ed] [H|[E H]]; [left|right; split]; [congruence..|lia]. Qed.

Lemma same_dev_refl r : same_dev r r.
Proof. done. Qed.
Lemma same_dev_sym r s : same_dev r s → same_dev s r.
Proof. unfold same_dev. intuition congruence. Qed.
Lemma same_dev_trans r s t : same_dev r s → same_dev s t → same_dev r t.
Proof. unfold same_dev. intuition congruence. Qed.

Create HintDb fl.
#[export] Hint Resolve same_dev_refl same_dev_sym dev_lt_same_l dev_lt_same_r : fl.

Lemma apart_trans r s t : range_ok s → apart r s → apart s t → apart r t.
Proof.
  intros [Hs _] [H1|[E1 H1]] [H2|[E2 H2]].
  - left. by eapply dev_lt_trans.
  - left. by eapply dev_lt_same_r.
  - left. by eapply dev_lt_same_l.
  - right. split; [by eapply same_dev_trans|lia].
Qed.

Lemma same_device_spec r n d :
  same_device r n d = true ↔ fr_node_id r = n ∧ fr_device_index r = d.
Proof. unfold same_device. by rewrite andb_true_iff, String.eqb_eq, N.eqb_eq. Qed.

Lemma key_lt_spec r s :
  key_lt r s = true ↔ dev_lt r s ∨ (same_dev r s ∧ fr_offset r < fr_offset s).
Proof.
  unfold key_lt, dev_lt, same_dev.
  destruct (String.compare _ _) eqn:Hn.
  - apply String.compare_eq_iff in Hn.
    destruct (N.compare_spec (fr_device_index r) (fr_device_index s)) as [Hd|Hd|Hd].
    + rewrite N.ltb_lt, Hn. split; [tauto|]. intros [[H|[_ H]]|H]; [|lia|tauto].
      by apply string_lt_irrefl in H.
    + tauto.
    + split; [done|]. rewrite Hn. intros [[H|[_ H]]|[[_ H] _]]; [|lia..].
      by apply string_lt_irrefl in H.
  - tauto.
  - split; [done|]. apply string_compare_gt in Hn. intros [[H|[H _]]|[[H _] _]].
    + destruct (string_lt_irrefl (fr_node_id r)). by eapply string_lt_trans.
    + rewrite H in Hn. by apply string_lt_irrefl in Hn.
    + rewrite H in Hn. by apply string_lt_irrefl in Hn.
Qed.

(** Not before [s] in key order: a later device, or at [s]'s offset or past it. *)
Lemma key_lt_false r s :
  key_lt r s = false → dev_lt s r ∨ (same_dev s r ∧ fr_offset s <= fr_offset r).
Proof.
  intros H. assert (¬ key_lt r s = true) as H' by congruence. rewrite key_lt_spec in H'.
  unfold dev_lt, same_dev in *.
  destruct (String.compare (fr_node_id r) (fr_node_id s)) eqn:Hn.
  - apply String.compare_eq_iff in Hn.
    destruct (N.lt_trichotomy (fr_device_index r) (fr_device_index s)) as [?|[?|?]]; [tauto| |].
    + right. split; [done|]. destruct (N.le_gt_cases (fr_offset s) (fr_offset r)); [done|]. tauto.
    + left. right. done.
  - tauto.
  - left. left. by apply string_compare_gt.
Qed.

(** ** Structure of well-formed lists *)

Lemma wf_app l1 l2 :
  wf (l1 ++ l2) ↔ wf l1 ∧ wf l2 ∧ ∀ r s, r ∈ l1 → s ∈ l2 → apart r s.
Proof.
  unfold wf. rewrite Forall_app. split.
  - intros [HS [H1 H2]]. apply StronglySorted_app in HS as (HA & HS1 & HS2). naive_solver.
  - intros ([HS1 H1] & [HS2 H2] & HA). split; [|done]. apply StronglySorted_app. naive_solver.
Qed.

Lemma wf_cons r l : wf (r :: l) ↔ range_ok r ∧ wf l ∧ ∀ s, s ∈ l → apart r s.
Proof.
  unfold wf. rewrite Forall_cons, StronglySorted_cons, Forall_forall. naive_solver.
Qed.

Lemma wf_nil : wf [].
Proof. split; constructor. Qed.

Lemma wf_elem fl r : wf fl → r ∈ fl → range_ok r.
Proof. intros [_ H]. rewrite Forall_forall in H. auto. Qed.

Lemma wf_pair fl r s : wf fl → r ∈ fl → s ∈ fl → r = s ∨ apart r s ∨ apart s r.
Proof.
  induction fl as [|t fl IH]; [by intros _ ?%elem_of_nil|].
  rewrite wf_cons, !elem_of_cons. intros (Ht & Hfl & Hap) [->|Hr] [->|Hs]; auto.
Qed.

Lemma is_free_app l1 l2 n d b : is_free (l1 ++ l2) n d b ↔ is_free l1 n d b ∨ is_free l2 n d b.
Proof. unfold is_free. setoid_rewrite elem_of_app. naive_solver. Qed.

Lemma is_free_cons r l n d b : is_free (r :: l) n d b ↔ covers r n d b ∨ is_free l n d b.
Proof. unfold is_free. setoid_rewrite elem_of_cons. naive_solver. Qed.

Lemma is_free_nil n d b : is_free [] n d b ↔ False.
Proof. unfold is_free. split; [|done]. by intros (r & ?%elem_of_nil & _). Qed.

Create Rewrite HintDb fl_free.
#[export] Hint Rewrite is_free_app is_free_cons is_free_nil : fl_free.

Lemma apart_disjoint r s n d b : apart r s → covers r n d b → covers s n d b → False.
Proof.
  unfold covers. intros [H|[_ H]] (Hn & Hd & H1 & H2) (Hn' & Hd' & H3 & H4); [|lia].
  apply (dev_lt_irrefl r s); [|done]. split; congruence.
Qed.

(** A run of free bytes lies in one range, since adjacent ranges are merged. *)
Lemma free_run_in_range fl n d off len :
  wf fl → 0 < len → (∀ b, off <= b < off + len → is_free fl n d b) →
  ∃ r, r ∈ fl ∧ fr_node_id r = n ∧ fr_device_index r = d ∧
       fr_offset r <= off ∧ off + len <= fr_offset r + fr_len r.
Proof.
  intros Hwf Hlen Hrun.
  destruct (Hrun off) as (r & Hr & Hn & Hd & Hlo & Hhi); [lia|].
  exists r. do 4 (split; [done|]).
  destruct (N.le_gt_cases (off + len) (fr_offset r + fr_len r)) as [?|Hshort]; [done|exfalso].
  destruct (Hrun (fr_offset r + fr_len r)) as (s & Hs & Hn' & Hd' & Hlo' & Hhi'); [lia|].
  destruct (wf_pair fl r s Hwf Hr Hs) as [->|[[H|[_ H]]|[H|[_ H]]]]; [lia| |lia| |lia];
    eapply dev_lt_irrefl; try exact H; split; congruence.
Qed.

(** ** Reservation *)

Definition in_range (n : string) (d off len : N) (n' : string) (d' b : N) : Prop :=
  n' = n ∧ d' = d ∧ off <= b < off + len.

#[export] Instance in_range_dec n d off len n' d' b : Decision (in_range n d off len n' d' b).
Proof. unfold in_range. solve_decision. Defined.

(** What is left of [r] once [[off, off+len)] is cut out of it. *)
Definition cut (r : FreeRange) (off len : N) : list FreeRange :=
  (if fr_offset r <? off then [r <| fr_len := off - fr_offset r |>] else []) ++
  (if off + len <? fr_offset r + fr_len r
   then [r <| fr_offset := off + len |> <| fr_len := fr_offset r + fr_len r - (off + len) |>]
   else []).

Lemma cut_elem r off len s :
  range_ok r → fr_offset r <= off → 0 < len → off + len <= fr_offset r + fr_len r →
  s ∈ cut r off len →
  range_ok s ∧ same_dev r s ∧ fr_offset r <= fr_offset s ∧
  fr_offset s + fr_len s <= fr_offset r + fr_len r.
Proof.
  intros [Hr1 Hr2] Hlo Hlen Hhi. unfold cut. rewrite elem_of_app.
  destruct (N.ltb_spec (fr_offset r) off); destruct (N.ltb_spec (off + len) (fr_offset r + fr_len r));
    rewrite ?elem_of_nil, ?list_elem_of_singleton;
    intros [Hs|Hs]; try done; subst s; unfold range_ok, same_dev; simpl; repeat split; lia.
Qed.

Lemma cut_wf r off len :
  range_ok r → fr_offset r <= off → 0 < len → off + len <= fr_offset r + fr_len r →
  wf (cut r off len).
Proof.
  intros [Hr1 Hr2] Hlo Hlen Hhi. unfold cut.
  destruct (N.ltb_spec (fr_offset r) off); destruct (N.ltb_spec (off + len) (fr_offset r + fr_len r));
    simpl; rewrite ?wf_cons; unfold range_ok; simpl;
    (repeat split; try lia; try apply wf_nil; try (intros s Hs; by apply elem_of_nil in Hs)).
  intros s ->%list_elem_of_singleton. right. split; [done|]. simpl. lia.
Qed.

Lemma cut_free r off len n d b :
  fr_offset r <= off → off + len <= fr_offset r + fr_len r →
  is_free (cut r off len) n d b ↔
  covers r n d b ∧ ¬ in_range (fr_node_id r) (fr_device_index r) off len n d b.
Proof.
  intros Hlo Hhi.
  assert (covers r n d b ∧ ¬ in_range (fr_node_id r) (fr_device_index r) off len n d b ↔
          covers r n d b ∧ (b < off ∨ off + len <= b)) as ->.
  { unfold covers, in_range. split; intros [Hc Hb]; split; [done| |done|lia].
    destruct (N.lt_ge_cases b off); [by left|]. right.
    destruct (N.le_gt_cases (off + len) b); [done|]. destruct Hb. intuition. }
  unfold cut.
  destruct (N.ltb_spec (fr_offset r) off); destruct (N.ltb_spec (off + len) (fr_offset r + fr_len r));
    autorewrite with fl_free; unfold covers; simpl; intuition lia.
Qed.

(** Replacing a range by sub-ranges of it keeps the list well-formed. *)
Lemma wf_replace l1 r l2 m :
  wf (l1 ++ r :: l2) → wf m →
  (∀ s, s ∈ m → same_dev r s ∧ fr_offset r <= fr_offset s ∧
                fr_offset s + fr_len s <= fr_offset r + fr_len r) →
  wf (l1 ++ m ++ l2).
Proof.
  rewrite !wf_app, wf_cons. intros (H1 & (Hr & H2 & Hr2) & H12) Hm Hsub.
  split; [done|]. split; [split; [done|]; split; [done|]|].
  - intros s t Hs Ht. destruct (Hsub s Hs) as (Hd & Hlo & Hhi).
    destruct (Hr2 t Ht) as [Hdev|[Hdev Hlt]]; [left; eauto with fl|right].
    split; [|lia]. exact (same_dev_trans _ _ _ (same_dev_sym _ _ Hd) Hdev).
  - intros s t Hs [Ht|Ht]%elem_of_app; [|apply H12; [done|by right]].
    destruct (Hsub t Ht) as (Hd & Hlo & Hhi).
    destruct (H12 s r Hs (list_elem_of_here _ _)) as [Hdev|[Hdev Hlt]];
      [left; eauto with fl|right]. split; [|lia]. by eapply same_dev_trans.
Qed.

Lemma range_end_ok r : range_ok r → range_end r = fr_offset r + fr_len r.
Proof. intros [_ H]. by apply u64_add_small. Qed.

(** The test [reserve] scans with. *)
Definition holds_run (n : string) (d off len : N) (r : FreeRange) : bool :=
  same_device r n d && (fr_offset r <=? off) && (u64_add off len <=? range_end r).

Lemma holds_run_spec n d off len r :
  range_ok r → off + len < u64_size →
  holds_run n d off len r = true ↔
  fr_node_id r = n ∧ fr_device_index r = d ∧ fr_offset r <= off ∧
  off + len <= fr_offset r + fr_len r.
Proof.
  intros Hr Hu. unfold holds_run.
  rewrite !andb_true_iff, same_device_spec, !N.leb_le, range_end_ok, u64_add_small by done.
  tauto.
Qed.

Lemma reserve_found l1 r l2 n d off len :
  wf (l1 ++ r :: l2) → 0 < len → off + len < u64_size →
  Forall (λ s, holds_run n d off len s = false) l1 → holds_run n d off len r = true →
  reserve (l1 ++ r :: l2) n d off len = (l1 ++ cut r off len ++ l2, true).
Proof.
  intros Hwf Hlen Hu H1 Hr. unfold reserve.
  destruct (N.eqb_spec len 0); [lia|].
  fold (holds_run n d off len). rewrite position_app_cons by done.
  rewrite list_lookup_middle by done.
  assert (range_ok r) as Hrok by (eapply wf_elem; [done|]; set_solver).
  rewrite range_end_ok, u64_add_small, vec_remove_app by done.
  unfold cut. destruct (fr_offset r <? off), (off + len <? _); simpl;
    by rewrite ?vec_insert_app, ?vec_insert_app_S.
Qed.

Lemma is_free_cut l1 r l2 n d off len n' d' b :
  wf (l1 ++ r :: l2) → fr_node_id r = n → fr_device_index r = d →
  fr_offset r <= off → off + len <= fr_offset r + fr_len r →
  is_free (l1 ++ cut r off len ++ l2) n' d' b ↔
  is_free (l1 ++ r :: l2) n' d' b ∧ ¬ in_range n d off len n' d' b.
Proof.
  intros Hwf Hn Hd Hlo Hhi. autorewrite with fl_free. rewrite cut_free, Hn, Hd by done.
  assert (in_range n d off len n' d' b → covers r n' d' b) as Hin.
  { unfold in_range, covers. intuition (congruence || lia). }
  assert (in_range n d off len n' d' b → ¬ is_free (l1 ++ l2) n' d' b) as Hout.
  { intros Hir%Hin (s & Hs & Hc). apply wf_app in Hwf as (_ & Hrl & H1).
    apply wf_cons in Hrl as (_ & _ & H2).
    apply elem_of_app in Hs as [Hs|Hs];
      [eapply (apart_disjoint s r)|eapply (apart_disjoint r s)]; eauto using list_elem_of_here. }
  rewrite is_free_app in Hout. tauto.
Qed.

Lemma reserve_cases fl n d off len :
  wf fl → 0 < len → off + len < u64_size →
  (reserve fl n d off len = (fl, false) ∧ Forall (λ s, holds_run n d off len s = false) fl) ∨
  (∃ l1 r l2, fl = l1 ++ r :: l2 ∧ fr_node_id r = n ∧ fr_device_index r = d ∧
     fr_offset r <= off ∧ off + len <= fr_offset r + fr_len r ∧
     reserve fl n d off len = (l1 ++ cut r off len ++ l2, true)).
Proof.
  intros Hwf Hlen Hu.
  destruct (position (holds_run n d off len) fl) as [pos|] eqn:Hpos.
  - right. apply position_Some in Hpos as (l1 & r & l2 & -> & _ & Hr & H1).
    assert (range_ok r) as Hrok by (eapply wf_elem; [done|]; set_solver).
    exists l1, r, l2. rewrite reserve_found by done.
    apply holds_run_spec in Hr; [|done..]. naive_solver.
  - left. split; [|by apply position_None]. unfold reserve.
    destruct (N.eqb_spec len 0); [lia|]. fold (holds_run n d off len). by rewrite Hpos.
Qed.

Lemma reserve_run fl n d off len :
  wf fl → 0 < len → off + len < u64_size →
  (∀ b, off <= b < off + len → is_free fl n d b) → snd (reserve fl n d off len) = true.
Proof.
  intros Hwf Hlen Hu Hrun.
  destruct (reserve_cases fl n d off len) as
    [[-> Hno]|(l1 & r & l2 & -> & _ & _ & _ & _ & ->)]; [done..| |done].
  apply free_run_in_range in Hrun as (r & Hr & Hrun); [|done..].
  rewrite Forall_forall in Hno. specialize (Hno r Hr).
  apply holds_run_spec in Hrun; [congruence|eauto using wf_elem|done].
Qed.

(** What [reserve] does to the free bytes. *)
Lemma reserve_effect fl n d off len :
  wf fl → 0 < len → off + len < u64_size →
  let '(fl', ok) := reserve fl n d off len in
  wf fl' ∧
  (ok = true ↔ ∀ b, off <= b < off + len → is_free fl n d b) ∧
  (ok = false → fl' = fl) ∧
  (ok = true → ∀ n' d' b,
     is_free fl' n' d' b ↔ is_free fl n' d' b ∧ ¬ in_range n d off len n' d' b).
Proof.
  intros Hwf Hlen Hu.
  destruct (reserve_cases fl n d off len) as
    [[-> Hno]|(l1 & r & l2 & -> & Hn & Hd & Hlo & Hhi & ->)]; [done..| |].
  - split_and!; [done| |done|done]. split; [done|]. intros Hrun.
    apply reserve_run in Hrun; [|done..].
    destruct (reserve_cases fl n d off len) as [[Hres _]|Hc]; [done..|by rewrite Hres in Hrun|].
    destruct Hc as (l1 & r & l2 & -> & ? & ? & ? & ? & _).
    apply Forall_app in Hno as [_ [Hno _]%Forall_cons].
    assert (range_ok r) by (eapply wf_elem; [done|]; set_solver).
    enough (holds_run n d off len r = true) by congruence. by apply holds_run_spec.
  - assert (range_ok r) as Hrok by (eapply wf_elem; [done|]; set_solver).
    split_and!; [| |done|].
    + apply (wf_replace l1 r l2); [done|by apply cut_wf|].
      intros s Hs. by apply (cut_elem r off len) in Hs as [? ?].
    + split; [|done]. intros _ b Hb. exists r. split; [set_solver|].
      unfold covers. split_and!; [done|done|lia|lia].
    + intros _ n' d' b. by apply is_free_cut.
Qed.

(** C26. [reserve] succeeds exactly when every byte of [[off, off+len)] is free
    (adjacent free ranges being merged, "inside one free range" is no
    restriction); it then takes exactly those bytes out of the free set, and
    keeps the list sorted and coalesced.  Otherwise it changes nothing. *)
Theorem reserve_correct fl n d off len :
  wf fl → 0 < len → off + len < u64_size →
  let '(fl', ok) := reserve fl n d off len in
  wf fl' ∧
  (ok = true ↔ ∀ b, off <= b < off + len → is_free fl n d b) ∧
  (ok = false → fl' = fl) ∧
  (ok = true → ∀ n' d' b,
     is_free fl' n' d' b ↔ is_free fl n' d' b ∧ ¬ in_range n d off len n' d' b).
Proof. apply reserve_effect. Qed.

(** What [find] returns. *)
Lemma find_effect fl n d len :
  wf fl →
  match find fl n d len with
  | Some off => 0 < len ∧ off + len < u64_size ∧
                (∀ b, off <= b < off + len → is_free fl n d b) ∧
                snd (reserve fl n d off len) = true
  | None => len = 0 ∨ ∀ off, ¬ (∀ b, off <= b < off + len → is_free fl n d b)
  end.
Proof.
  intros Hwf. unfold find. destruct (N.eqb_spec len 0) as [|Hne]; [by left|].
  assert (0 < len) as Hlen by lia.
  destruct (List.find _ fl) as [r|] eqn:Hf; simpl.
  - apply find_Some_split in Hf as (Hr & l1 & l2 & Hfl & _).
    apply andb_true_iff in Hr as [Hdev Hle%N.leb_le]. apply same_device_spec in Hdev as [Hn Hd].
    assert (r ∈ fl) as Hin by set_solver.
    destruct (wf_elem fl r Hwf Hin) as [_ Hu].
    assert (∀ b, fr_offset r <= b < fr_offset r + len → is_free fl n d b) as Hrun.
    { intros b Hb. exists r. unfold covers. split_and!; [done..|lia|lia]. }
    split_and!; [done|lia|done|]. apply reserve_run; [done..|lia|done].
  - right. intros off Hrun.
    apply free_run_in_range in Hrun as (r & Hr & Hn & Hd & Hlo & Hhi); [|done..].
    rewrite find_None_Forall, Forall_forall in Hf. specialize (Hf r Hr).
    apply andb_false_iff in Hf as [Hf|Hf%N.leb_gt]; [|lia].
    assert (same_device r n d = true) by (by apply same_device_spec). congruence.
Qed.

(** C27. [find] is sound and complete: an offset it returns starts [len] free
    bytes on that device (so [reserve] there succeeds), and [None] for a
    positive [len] means no such run of free bytes exists. *)
Theorem find_correct fl n d len :
  wf fl →
  match find fl n d len with
  | Some off => 0 < len ∧ off + len < u64_size ∧
                (∀ b, off <= b < off + len → is_free fl n d b) ∧
                snd (reserve fl n d off len) = true
  | None => len = 0 ∨ ∀ off, ¬ (∀ b, off <= b < off + len → is_free fl n d b)
  end.
Proof. apply find_effect. Qed.

(** ** Release *)

(** [new] merged with the first range of [l] when they touch. *)
Definition join_next (new : FreeRange) (l : FreeList) : FreeList :=
  match l with
  | next :: l' =>
      if same_device next (fr_node_id new) (fr_device_index new)
         && (range_end new =? fr_offset next)
      then new <| fr_len := u64_add (fr_len new) (fr_len next) |> :: l'
      else new :: l
  | [] => [new]
  end.

(** [prev] merged with the first range of [l] when they touch. *)
Definition join_prev (prev : FreeRange) (l : FreeList) (n : string) (d : N) : FreeList :=
  match l with
  | cur :: l' =>
      if same_device prev n d && (range_end prev =? fr_offset cur)
      then prev <| fr_len := u64_add (fr_len prev) (fr_len cur) |> :: l'
      else prev :: l
  | [] => [prev]
  end.

Ltac past_prefix l1 :=
  repeat (progress simpl || rewrite (lookup_app_plus 0 l1) || rewrite (lookup_app_plus 1 l1)
    || rewrite (lookup_app_plus 2 l1) || rewrite (insert_app_plus 0 l1)
    || rewrite (insert_app_plus 1 l1) || rewrite (vec_insert_app_plus 1 l1)
    || rewrite (vec_remove_app_plus 1 l1) || rewrite (vec_remove_app_plus 2 l1));
  unfold vec_insert; simpl.

Lemma release_first l2 n d off len :
  0 < len →
  partition_point (λ r, key_lt r (mkFreeRange n d off len)) l2 = O →
  release l2 n d off len =
  if match l2 with
     | next :: _ => same_device next n d && (fr_offset next <? u64_add off len)
     | [] => false
     end
  then Err DoubleFree else Ok (join_next (mkFreeRange n d off len) l2).
Proof.
  intros Hlen Hpos. unfold release. destruct (N.eqb_spec len 0); [lia|]. rewrite Hpos.
  destruct l2 as [|next l2]; simpl; [done|]. unfold range_end; simpl.
  repeat case_match; try done; simplify_eq; done.
Qed.

Lemma release_after l1 prev l2 n d off len :
  0 < len →
  partition_point (λ r, key_lt r (mkFreeRange n d off len)) ((l1 ++ [prev]) ++ l2)
    = length (l1 ++ [prev]) →
  release ((l1 ++ [prev]) ++ l2) n d off len =
  if same_device prev n d && (off <? range_end prev) then Err DoubleFree
  else if match l2 with
     | next :: _ => same_device next n d && (fr_offset next <? u64_add off len)
     | [] => false
     end
  then Err DoubleFree
  else Ok (l1 ++ join_prev prev (join_next (mkFreeRange n d off len) l2) n d).
Proof.
  intros Hlen Hpos. unfold release. destruct (N.eqb_spec len 0); [lia|].
  rewrite Hpos. rewrite length_app, Nat.add_comm. simpl.
  rewrite <- !app_assoc. simpl.
  past_prefix l1.
  destruct (same_device prev n d && (off <? range_end prev)); [done|].
  destruct l2 as [|next l2]; past_prefix l1.
  - by destruct (same_device prev n d && _); past_prefix l1.
  - destruct (same_device next n d && (fr_offset next <? _)); [done|].
    destruct (same_device next n d && _); past_prefix l1;
      by destruct (same_device prev n d && _); past_prefix l1.
Qed.

(** [r] ends where [s] starts or earlier. *)
Definition before (r s : FreeRange) : Prop :=
  dev_lt r s ∨ (same_dev r s ∧ fr_offset r + fr_len r <= fr_offset s).

(** [x] is not left of where [r] starts. *)
Definition from_start (r x : FreeRange) : Prop :=
  dev_lt r x ∨ (same_dev r x ∧ fr_offset r <= fr_offset x).

Lemma before_disjoint r s n d b : before r s → covers r n d b → covers s n d b → False.
Proof.
  unfold covers. intros [H|[_ H]] (Hn & Hd & H1 & H2) (Hn' & Hd' & H3 & H4); [|lia].
  apply (dev_lt_irrefl r s); [|done]. split; congruence.
Qed.

Lemma apart_before r s : apart r s → before r s.
Proof. intros [H|[? H]]; [by left|right; split; [done|lia]]. Qed.

Lemma apart_from_start r s x : apart r s → from_start s x → apart r x.
Proof.
  intros [H1|[E1 H1]] [H2|[E2 H2]].
  - left. by eapply dev_lt_trans.
  - left. by eapply dev_lt_same_r.
  - left. by eapply dev_lt_same_l.
  - right. split; [by eapply same_dev_trans|lia].
Qed.

Lemma before_apart_tail r s x : range_ok s → before r s → apart s x → apart r x.
Proof.
  intros [Hs _] [H1|[E1 H1]] [H2|[E2 H2]].
  - left. by eapply dev_lt_trans.
  - left. by eapply dev_lt_same_r.
  - left. by eapply dev_lt_same_l.
  - right. split; [by eapply same_dev_trans|lia].
Qed.

Lemma same_device_dev r s :
  same_device s (fr_node_id r) (fr_device_index r) = true ↔ same_dev r s.
Proof. rewrite same_device_spec. unfold same_dev. intuition congruence. Qed.

Lemma join_next_cases r l :
  (∃ s l', l = s :: l' ∧ same_dev r s ∧ range_end r = fr_offset s ∧
     join_next r l = r <| fr_len := u64_add (fr_len r) (fr_len s) |> :: l') ∨
  (join_next r l = r :: l ∧
   match l with s :: _ => ¬ (same_dev r s ∧ range_end r = fr_offset s) | [] => True end).
Proof.
  destruct l as [|s l]; simpl; [by right|].
  destruct (same_device s _ _) eqn:Hd; simpl.
  - apply same_device_dev in Hd. destruct (N.eqb_spec (range_end r) (fr_offset s)).
    + left. by exists s, l.
    + right. naive_solver.
  - right. split; [done|]. intros [?%same_device_dev _]. congruence.
Qed.

(** Putting [r] in front of ranges that do not start before its end. *)
Lemma join_next_spec r l :
  range_ok r → wf l → (∀ s, s ∈ l → before r s) →
  wf (join_next r l) ∧
  (∀ n d b, is_free (join_next r l) n d b ↔ covers r n d b ∨ is_free l n d b) ∧
  (∀ x, x ∈ join_next r l → from_start r x) ∧
  (∃ cur l', join_next r l = cur :: l' ∧ same_dev r cur ∧ fr_offset cur = fr_offset r).
Proof.
  intros Hr Hl Hbef. pose proof Hr as [Hr1 Hr2].
  destruct (join_next_cases r l) as [(s & l' & -> & Hd & He & ->)|[-> Hno]].
  - rewrite range_end_ok in He by done.
    apply wf_cons in Hl as (Hs & Hl' & Hap). pose proof Hs as [Hs1 Hs2].
    rewrite u64_add_small by lia. split_and!.
    + apply wf_cons. split_and!; [split; simpl; lia|done|].
      intros x Hx. destruct (Hap x Hx) as [H|[E H]]; [left; eauto using dev_lt_same_l|].
      right. split; [by eapply same_dev_trans|simpl; lia].
    + intros n d b. rewrite !is_free_cons. unfold covers. simpl. destruct Hd as [Hd1 Hd2].
      rewrite <- Hd1, <- Hd2, <- He.
      destruct (N.lt_ge_cases b (fr_offset r + fr_len r)); intuition lia.
    + intros x [->|Hx]%elem_of_cons; [by right|].
      destruct (Hap x Hx) as [H|[E H]]; [left; eauto using dev_lt_same_l|].
      right. split; [by eapply same_dev_trans|lia].
    + by eexists _, l'.
  - split_and!.
    + apply wf_cons. split_and!; [done|done|]. intros x Hx. destruct l as [|s l]; [set_solver|].
      assert (apart r s) as Hrs.
      { destruct (Hbef s (list_elem_of_here _ _)) as [?|[E ?]]; [by left|right].
        split; [done|]. rewrite range_end_ok in Hno by done.
        destruct (N.eq_dec (fr_offset r + fr_len r) (fr_offset s)); [tauto|lia]. }
      apply wf_cons in Hl as (Hs & _ & Hap). apply elem_of_cons in Hx as [->|Hx]; [done|].
      eapply apart_trans; eauto.
    + intros. by rewrite is_free_cons.
    + intros x [->|Hx]%elem_of_cons; [by right|].
      destruct (Hbef x Hx) as [?|[? ?]]; [by left|right; split; [done|lia]].
    + by exists r, l.
Qed.

Lemma join_prev_next prev cur l n d :
  fr_node_id cur = n → fr_device_index cur = d →
  join_prev prev (cur :: l) n d = join_next prev (cur :: l).
Proof.
  intros <- <-. simpl.
  replace (same_device prev (fr_node_id cur) (fr_device_index cur))
    with (same_device cur (fr_node_id prev) (fr_device_index prev)); [done|].
  apply eq_true_iff_eq. rewrite !same_device_dev. split; apply same_dev_sym.
Qed.

Lemma release_position fl new :
  wf fl →
  ∃ l1 l2, fl = l1 ++ l2 ∧ partition_point (λ r, key_lt r new) fl = length l1 ∧
    (∀ r, r ∈ l1 → dev_lt r new ∨ (same_dev r new ∧ fr_offset r < fr_offset new)) ∧
    (∀ s, s ∈ l2 → from_start new s).
Proof.
  intros Hwf. destruct (partition_point_split (λ r, key_lt r new) fl) as (l1 & l2 & -> & Hlen & H1 & H2).
  exists l1, l2. split_and!; [done|done| |].
  - intros r Hr. rewrite Forall_forall in H1. by apply key_lt_spec, H1.
  - apply wf_app in Hwf as (_ & Hwf & _). destruct l2 as [|s l2]; [set_solver|].
    apply key_lt_false in H2. apply wf_cons in Hwf as (Hs & _ & Hap).
    intros x [->|Hx]%elem_of_cons; [done|].
    destruct (Hap x Hx) as [H|[E H]], H2 as [H2|[E2 H2]].
    + left. by eapply dev_lt_trans.
    + left. by eapply dev_lt_same_l.
    + left. by eapply dev_lt_same_r.
    + right. split; [by eapply same_dev_trans|lia].
Qed.

(** The whole of [l2] starts at or after the end of [new] once its first range does. *)
Lemma before_all new l2 :
  wf l2 → (∀ s, s ∈ l2 → from_start new s) →
  match l2 with
  | next :: _ => same_device next (fr_node_id new) (fr_device_index new)
                 && (fr_offset next <? fr_offset new + fr_len new) = false
  | [] => True
  end → ∀ s, s ∈ l2 → before new s.
Proof.
  intros Hwf Hfrom Hhead s Hs. destruct l2 as [|next l2]; [set_solver|].
  assert (before new next) as Hn.
  { destruct (Hfrom next (list_elem_of_here _ _)) as [?|[E H]]; [by left|].
    apply same_device_dev in E as E'. rewrite E' in Hhead. apply N.ltb_ge in Hhead. by right. }
  apply wf_cons in Hwf as (Hok & _ & Hap). apply elem_of_cons in Hs as [->|Hs]; [done|].
  apply apart_before. eapply before_apart_tail; eauto.
Qed.

Definition release_post fl n d off len (r : res FreeError FreeList) : Prop :=
  match r with
  | Ok fl' => wf fl' ∧
      (∀ n' d' b, is_free fl' n' d' b ↔ in_range n d off len n' d' b ∨ is_free fl n' d' b) ∧
      (∀ b, off <= b < off + len → ¬ is_free fl n d b)
  | Err DoubleFree => ∃ b, off <= b < off + len ∧ is_free fl n d b
  | Panic => False
  end.

Lemma covers_new n d off len n' d' b :
  covers (mkFreeRange n d off len) n' d' b ↔ in_range n d off len n' d' b.
Proof. unfold covers, in_range. simpl. intuition congruence. Qed.

Lemma overlap_next_free n d off len l2 :
  wf l2 → (∀ s, s ∈ l2 → from_start (mkFreeRange n d off len) s) →
  match l2 with
  | next :: _ => same_device next n d && (fr_offset next <? off + len)
  | [] => false
  end = true → ∃ b, off <= b < off + len ∧ is_free l2 n d b.
Proof.
  intros Hwf Hfrom Hov. destruct l2 as [|next l2]; [done|].
  apply andb_true_iff in Hov as [[Hn Hd]%same_device_spec Hlt%N.ltb_lt].
  apply wf_cons in Hwf as ([Hok _] & _).
  destruct (Hfrom next (list_elem_of_here _ _)) as [Hdev|[_ Hge]].
  { exfalso. eapply dev_lt_irrefl; [|exact Hdev]. by split. }
  simpl in Hge. exists (fr_offset next). split; [lia|]. exists next.
  split; [set_solver|]. unfold covers. split_and!; [done|done|lia|lia].
Qed.

Lemma release_post_first n d off len l2 :
  wf l2 → 0 < len → off + len < u64_size →
  partition_point (λ r, key_lt r (mkFreeRange n d off len)) l2 = O →
  (∀ s, s ∈ l2 → from_start (mkFreeRange n d off len) s) →
  release_post l2 n d off len (release l2 n d off len).
Proof.
  intros Hw2 Hlen Hu Hpos Hl2. rewrite release_first, u64_add_small by done.
  set (new := mkFreeRange n d off len) in *.
  case_match eqn:Hov; [by apply overlap_next_free|].
  pose proof (before_all new l2 Hw2 Hl2 ltac:(by destruct l2)) as Hbef.
  destruct (join_next_spec new l2) as (Hw & Hf & _); [split; simpl; lia|done..|].
  split_and!; [done| |].
  - intros n' d' b. unfold new in *. by rewrite Hf, covers_new.
  - intros b Hb (s & Hs & Hc). eapply (before_disjoint new s); [by apply Hbef| |done].
    by apply covers_new.
Qed.

Lemma before_from_start prev new x : before prev new → from_start new x → before prev x.
Proof.
  intros [H1|[E1 H1]] [H2|[E2 H2]].
  - left. by eapply dev_lt_trans.
  - left. by eapply dev_lt_same_r.
  - left. by eapply dev_lt_same_l.
  - right. split; [by eapply same_dev_trans|lia].
Qed.

Lemma release_post_after n d off len l1 prev l2 :
  wf (l1 ++ [prev]) → wf l2 → 0 < len → off + len < u64_size →
  partition_point (λ r, key_lt r (mkFreeRange n d off len)) ((l1 ++ [prev]) ++ l2)
    = length (l1 ++ [prev]) →
  from_start prev (mkFreeRange n d off len) →
  (dev_lt prev (mkFreeRange n d off len) ∨ fr_offset prev < off) →
  (∀ s, s ∈ l2 → from_start (mkFreeRange n d off len) s) →
  release_post ((l1 ++ [prev]) ++ l2) n d off len (release ((l1 ++ [prev]) ++ l2) n d off len).
Proof.
  intros Hw1 Hw2 Hlen Hu Hpos Hp Hlt Hl2. rewrite release_after, u64_add_small by done.
  assert (range_ok prev) as Hprev by (eapply wf_elem; [exact Hw1|set_solver]).
  rewrite range_end_ok by done. set (new := mkFreeRange n d off len) in *.
  case_match eqn:Hovp.
  { apply andb_true_iff in Hovp as [[En Ed]%same_device_spec Hov%N.ltb_lt].
    exists off. split; [lia|]. exists prev. split; [set_solver|].
    destruct Hlt as [Hlt|Hlt]; [exfalso; eapply dev_lt_irrefl; [|exact Hlt]; by split|].
    unfold covers. split_and!; [done|done|lia|lia]. }
  case_match eqn:Hov.
  { apply overlap_next_free in Hov as (b & Hb & Hf); [|done..]. exists b. split; [done|].
    autorewrite with fl_free. auto. }
  pose proof (before_all new l2 Hw2 Hl2 ltac:(by destruct l2)) as Hbef.
  destruct (join_next_spec new l2) as (Hw & Hf & Hfs & cur & l' & Hj & Hdc & _);
    [split; simpl; lia|done..|].
  assert (before prev new) as Hpn.
  { destruct Hp as [?|[E _]]; [by left|right]. split; [done|].
    assert (same_device prev n d = true) as Hs by (by apply same_device_spec).
    rewrite Hs in Hovp. by apply N.ltb_ge in Hovp. }
  rewrite Hj, join_prev_next, <- Hj by (by destruct Hdc).
  destruct (join_next_spec prev (join_next new l2)) as (Hw' & Hf' & Hfs' & _);
    [done..|eauto using before_from_start|].
  apply wf_app in Hw1 as (Hw1 & _ & Hap).
  assert (∀ r, r ∈ l1 → apart r prev) as Hap' by (intros; apply Hap; set_solver).
  split_and!.
  - apply wf_app. split_and!; [done|done|]. intros r x Hr Hx.
    eauto using apart_from_start.
  - intros n' d' b. autorewrite with fl_free. rewrite Hf', Hf. unfold new. rewrite covers_new. tauto.
  - intros b Hb. assert (covers new n d b) as Hc by (by apply covers_new).
    autorewrite with fl_free. intros [[(r & Hr & Hcr)|[Hcr|[]]]|(s & Hs & Hcs)].
    + eapply (before_disjoint r new); [|done..]. apply apart_before.
      eauto using apart_from_start.
    + by eapply (before_disjoint prev new).
    + eapply (before_disjoint new s); [by apply Hbef|done..].
Qed.

Lemma release_meets_post fl n d off len :
  wf fl → 0 < len → off + len < u64_size →
  release_post fl n d off len (release fl n d off len).
Proof.
  intros Hwf Hlen Hu.
  destruct (release_position fl (mkFreeRange n d off len) Hwf) as (l1 & l2 & -> & Hpos & Hl1 & Hl2).
  apply wf_app in Hwf as (Hw1 & Hw2 & _).
  induction l1 as [|prev l1 _] using rev_ind; [by apply release_post_first|].
  specialize (Hl1 prev ltac:(set_solver)).
  apply release_post_after; try done.
  - destruct Hl1 as [?|[? ?]]; [by left|right; split; [done|simpl in *; lia]].
  - tauto.
Qed.

(** C25. [release] accepts a range exactly when none of its bytes is already
    free; it then adds exactly those bytes to the free set and keeps the list
    sorted and coalesced.  It returns the double-free error exactly when some
    byte of the range is already free. *)
Theorem release_correct fl n d off len :
  wf fl → 0 < len → off + len < u64_size →
  match release fl n d off len with
  | Ok fl' => wf fl' ∧
      (∀ n' d' b, is_free fl' n' d' b ↔ in_range n d off len n' d' b ∨ is_free fl n' d' b) ∧
      (∀ b, off <= b < off + len → ¬ is_free fl n d b)
  | Err DoubleFree => ∃ b, off <= b < off + len ∧ is_free fl n d b
  | Panic => False
  end.
Proof. apply release_meets_post. Qed.

(** ** Canonicity *)

(** The head of a well-formed list starts at the least free byte of the least device. *)
Lemma head_least r l n d b :
  wf (r :: l) → is_free (r :: l) n d b → from_start r (mkFreeRange n d b 1).
Proof.
  rewrite wf_cons, is_free_cons. intros (Hr & Hl & Hap) [(Hn & Hd & Hlo & Hhi)|(s & Hs & Hn & Hd & Hlo & Hhi)].
  - right. by split.
  - destruct (Hap s Hs) as [[?|[? ?]]|[[? ?] ?]].
    + left. left. simpl. congruence.
    + left. right. simpl. split; [congruence|lia].
    + right. split; [split; simpl; congruence|simpl; lia].
Qed.

Lemma head_byte r l : wf (r :: l) → is_free (r :: l) (fr_node_id r) (fr_device_index r) (fr_offset r).
Proof. rewrite wf_cons. intros ([Hr _] & _). apply is_free_cons. left. unfold covers. split_and!; [done|done|lia|lia]. Qed.

Lemma from_start_antisym r s t u :
  from_start r t → same_dev s t → fr_offset s = fr_offset t →
  from_start s u → same_dev r u → fr_offset r = fr_offset u →
  same_dev r s ∧ fr_offset r = fr_offset s.
Proof.
  intros [H1|[E1 H1]] Es Os [H2|[E2 H2]] Er Or.
  - exfalso. apply (dev_lt_irrefl r r); [done|].
    eapply dev_lt_trans; [eapply dev_lt_same_r; [exact H1|by apply same_dev_sym]|].
    eapply dev_lt_same_r; [exact H2|by apply same_dev_sym].
  - exfalso. apply (dev_lt_irrefl r s); [|eauto with fl].
    eapply same_dev_trans; [exact Er|by apply same_dev_sym].
  - exfalso. apply (dev_lt_irrefl s r); [|eauto with fl].
    eapply same_dev_trans; [exact Es|by apply same_dev_sym].
  - split; [|lia]. eapply same_dev_trans; [exact E1|by apply same_dev_sym].
Qed.

(** The head ends where the run of free bytes at its start ends. *)
Lemma head_end r l1 s l2 :
  wf (r :: l1) → wf (s :: l2) → same_dev r s → fr_offset r = fr_offset s →
  (∀ n d b, is_free (s :: l2) n d b → is_free (r :: l1) n d b) → fr_len s <= fr_len r.
Proof.
  intros H1 H2 Hd Ho Himp. destruct (N.le_gt_cases (fr_len s) (fr_len r)) as [?|Hgt]; [done|exfalso].
  destruct (Himp (fr_node_id s) (fr_device_index s) (fr_offset r + fr_len r)) as (t & Ht & Hc).
  { apply is_free_cons. left. unfold covers. rewrite <- Ho. split_and!; [done|done|lia|lia]. }
  apply wf_cons in H1 as (Hr & _ & Hap). destruct Hd as [Hdn Hdd].
  destruct Hc as (Hcn & Hcd & Hlo & Hhi). apply elem_of_cons in Ht as [->|Ht]; [lia|].
  destruct (Hap t Ht) as [Hlt|[_ Hlt]]; [|lia].
  eapply dev_lt_irrefl; [|exact Hlt]. split; congruence.
Qed.

Lemma is_free_tail r l n d b :
  wf (r :: l) → is_free l n d b ↔ is_free (r :: l) n d b ∧ ¬ covers r n d b.
Proof.
  rewrite wf_cons, is_free_cons. intros (_ & _ & Hap). split; [|tauto].
  intros (s & Hs & Hc). split; [right; by exists s|].
  intros Hr. eapply (apart_disjoint r s); eauto.
Qed.

Lemma wf_canonical l1 l2 :
  wf l1 → wf l2 → (∀ n d b, is_free l1 n d b ↔ is_free l2 n d b) → l1 = l2.
Proof.
  revert l2. induction l1 as [|r l1 IH]; intros l2 H1 H2 Heq.
  - destruct l2 as [|s l2]; [done|]. apply head_byte, Heq, is_free_nil in H2. done.
  - destruct l2 as [|s l2]; [apply head_byte, Heq, is_free_nil in H1; done|].
    assert (same_dev r s ∧ fr_offset r = fr_offset s) as [Hd Ho].
    { eapply from_start_antisym.
      - eapply head_least; [exact H1|]. apply Heq. by apply head_byte.
      - done.
      - done.
      - eapply head_least; [exact H2|]. apply Heq. by apply head_byte.
      - done.
      - done. }
    assert (fr_len r = fr_len s) as Hl.
    { apply N.le_antisymm; eapply head_end; eauto with fl; naive_solver. }
    assert (r = s) as ->. { destruct r, s, Hd. simpl in *. congruence. }
    f_equal. apply IH; [by apply wf_cons in H1 as (_ & ? & _)|by apply wf_cons in H2 as (_ & ? & _)|].
    intros n d b. rewrite (is_free_tail s l1), (is_free_tail s l2), Heq by done. done.
Qed.

(** Releasing what was just reserved restores the list exactly: the vector
    is a canonical representation of its free set, so coalescing undoes the
    split. *)
Theorem reserve_release_roundtrip fl n d off len fl' :
  wf fl → 0 < len → off + len < u64_size →
  reserve fl n d off len = (fl', true) → release fl' n d off len = Ok fl.
Proof.
  intros Hwf Hlen Hu Hres.
  destruct (reserve_cases fl n d off len) as
    [[Hf _]|(l1 & r & l2 & -> & Hn & Hd & Hlo & Hhi & Hr)]; [done..|congruence|].
  rewrite Hr in Hres. injection Hres as <-.
  assert (range_ok r) as Hrok by (eapply wf_elem; [done|]; set_solver).
  assert (wf (l1 ++ cut r off len ++ l2)) as Hwf'.
  { apply (wf_replace l1 r l2); [done|by apply cut_wf|].
    intros s Hs. by apply (cut_elem r off len) in Hs as [? ?]. }
  assert (∀ n' d' b, is_free (l1 ++ cut r off len ++ l2) n' d' b ↔
    is_free (l1 ++ r :: l2) n' d' b ∧ ¬ in_range n d off len n' d' b) as Hcut
    by (intros; by apply is_free_cut).
  pose proof (release_meets_post _ n d off len Hwf' Hlen Hu) as Hpost.
  destruct (release _ n d off len) as [fl'|[]|] eqn:Hrel; simpl in Hpost; [|exfalso|done].
  - destruct Hpost as (Hw & Hfree & _). f_equal. apply wf_canonical; [done..|].
    intros n' d' b. rewrite Hfree, Hcut. split; [|destruct (decide (in_range n d off len n' d' b)); tauto].
    intros [(-> & -> & Hb)|[? _]]; [|done]. exists r. split; [set_solver|].
    unfold covers. split_and!; [done|done|lia|lia].
  - destruct Hpost as (b & Hb & Hfree). apply Hcut in Hfree as [_ Hno]. by apply Hno.
Qed.

(** ** Witnesses *)

Definition demo : FreeList :=
  [mkFreeRange "n1" 0 0 30; mkFreeRange "n1" 1 8 8; mkFreeRange "n2" 0 100 50].

Lemma demo_wf : wf demo.
Proof.
  unfold wf, demo, range_ok, apart, dev_lt, same_dev, string_lt. split.
  - repeat constructor; simpl; first [left; left; reflexivity|left; right; by split].
  - repeat constructor.
Qed.

Lemma reserve_correct_witness :
  let '(fl', ok) := reserve demo "n1" 0 10 5 in ok = true ∧ wf fl' ∧ ¬ is_free fl' "n1" 0 12.
Proof.
  pose proof (reserve_correct demo "n1" 0 10 5 demo_wf eq_refl eq_refl) as H.
  destruct (reserve demo "n1" 0 10 5) as [fl' ok] eqn:E.
  destruct H as (Hwf & _ & _ & Hfree). vm_compute in E. injection E as <- <-.
  split; [done|]. split; [done|]. rewrite (Hfree eq_refl).
  intros [_ Hno]. by apply Hno.
Defined.

Lemma find_correct_witness :
  find demo "n1" 0 20 = Some 0 ∧ snd (reserve demo "n1" 0 0 20) = true.
Proof.
  pose proof (find_correct demo "n1" 0 20 demo_wf) as H.
  vm_compute (find _ _ _ _) in H. split; [reflexivity|]. apply H.
Defined.

Lemma release_correct_witness :
  ∃ fl', release demo "n1" 0 30 10 = Ok fl' ∧ wf fl' ∧ is_free fl' "n1" 0 35.
Proof.
  pose proof (release_correct demo "n1" 0 30 10 demo_wf eq_refl eq_refl) as H.
  destruct (release demo "n1" 0 30 10) as [fl'| |] eqn:E; [|by vm_compute in E..].
  destruct H as (Hwf & Hfree & _). exists fl'. split; [done|]. split; [done|].
  apply Hfree. left. done.
Defined.

Lemma reserve_release_roundtrip_witness :
  release (fst (reserve demo "n1" 0 10 5)) "n1" 0 10 5 = Ok demo.
Proof. apply reserve_release_roundtrip; [exact demo_wf|done|done|reflexivity]. Defined.

End FreeList.
