(* ===== verification/Membership.v ===== *)
(** * Voter configurations ([membership.rs])

    [Stable] and [Joint] configurations and their quorums.  Two quorums of
    configurations that can be in force next to each other during a
    joint-consensus change always share a voter. *)

From S2P Require Import Prelude.

Module Membership.

Abbreviation NodeId := string.

Inductive Membership :=
| Stable (voters : gset NodeId)
| Joint (old new : gset NodeId).

#[export] Instance Membership_eq_dec : EqDecision Membership.
Proof. solve_decision. Defined.

Definition stable (vs : list NodeId) : Membership := Stable (list_to_set vs).

Definition voters (self : Membership) : gset NodeId :=
  match self with
  | Stable vs => vs
  | Joint old new => old ∪ new
  end.

Definition target (self : Membership) : gset NodeId :=
  match self with
  | Stable vs => vs
  | Joint _ new => new
  end.

Definition majority (vs acks : gset NodeId) : bool :=
  negb (bool_decide (vs = ∅)) && (size vs / 2 <? size (vs ∩ acks))%nat.

Definition has_quorum (self : Membership) (acks : gset NodeId) : bool :=
  match self with
  | Stable vs => majority vs acks
  | Joint old new => majority old acks && majority new acks
  end.

(** ** Quorum lemmas *)

Lemma majority_spec vs acks :
  majority vs acks = true ↔ (size vs < 2 * size (vs ∩ acks))%nat.
Proof.
  unfold majority. rewrite andb_true_iff, negb_true_iff, bool_decide_eq_false, Nat.ltb_lt.
  pose proof (Nat.div_mod_eq (size vs) 2). pose proof (Nat.mod_upper_bound (size vs) 2).
  split; [lia|]. intros Hlt. split; [|lia]. intros ->. rewrite intersection_empty_l_L, size_empty in Hlt. lia.
Qed.

Lemma majority_intersect vs a1 a2 :
  majority vs a1 = true → majority vs a2 = true → ∃ v, v ∈ vs ∧ v ∈ a1 ∧ v ∈ a2.
Proof.
  rewrite !majority_spec. intros H1 H2.
  destruct (decide ((vs ∩ a1) ∩ (vs ∩ a2) = ∅)) as [Hdisj|Hne].
  - exfalso. assert (size ((vs ∩ a1) ∪ (vs ∩ a2)) ≤ size vs)%nat as Hle
      by (apply subseteq_size; set_solver).
    rewrite size_union in Hle; [lia|]. set_solver.
  - apply set_choose_L in Hne as [v Hv]. exists v. set_solver.
Qed.

Lemma majority_mono vs a1 a2 : a1 ⊆ a2 → majority vs a1 = true → majority vs a2 = true.
Proof.
  rewrite !majority_spec. intros Hsub.
  assert (size (vs ∩ a1) ≤ size (vs ∩ a2))%nat by (apply subseteq_size; set_solver). lia.
Qed.

Lemma has_quorum_mono self a1 a2 :
  a1 ⊆ a2 → has_quorum self a1 = true → has_quorum self a2 = true.
Proof.
  intros Hsub. destruct self; simpl; rewrite ?andb_true_iff; intuition eauto using majority_mono.
Qed.

Lemma has_quorum_intersect self a1 a2 :
  has_quorum self a1 = true → has_quorum self a2 = true →
  ∃ v, v ∈ voters self ∧ v ∈ a1 ∧ v ∈ a2.
Proof.
  destruct self as [vs|old new]; simpl; [apply majority_intersect|].
  intros [H1 _]%andb_true_iff [H2 _]%andb_true_iff.
  destruct (majority_intersect old a1 a2) as (v & ? & ? & ?); [done..|]. exists v. set_solver.
Qed.

(** Configurations a membership change passes through one after the other. *)
Inductive adjacent : Membership → Membership → Prop :=
| adj_same m : adjacent m m
| adj_enter old new : adjacent (Stable old) (Joint old new)
| adj_leave old new : adjacent (Joint old new) (Stable new).

(** C28. Joint consensus never has two disjoint quorums in force: a quorum of a
    configuration and one of the next configuration of the change (or of the
    same one) share a node that is a voter of both. *)
Theorem adjacent_quorums_intersect m1 m2 a1 a2 :
  adjacent m1 m2 → has_quorum m1 a1 = true → has_quorum m2 a2 = true →
  ∃ v, v ∈ voters m1 ∧ v ∈ voters m2 ∧ v ∈ a1 ∧ v ∈ a2.
Proof.
  intros [m|old new|old new] H1 H2.
  - destruct (has_quorum_intersect m a1 a2) as (v & ? & ? & ?); [done..|]. by exists v.
  - simpl in *. apply andb_true_iff in H2 as [H2 _].
    destruct (majority_intersect old a1 a2) as (v & ? & ? & ?); [done..|]. exists v. set_solver.
  - simpl in *. apply andb_true_iff in H1 as [_ H1].
    destruct (majority_intersect new a1 a2) as (v & ? & ? & ?); [done..|]. exists v. set_solver.
Qed.

Definition abc : gset NodeId := list_to_set ["a"; "b"; "c"]%string.
Definition bcd : gset NodeId := list_to_set ["b"; "c"; "d"]%string.

Lemma adjacent_quorums_intersect_witness :
  ∃ v, v ∈ voters (Stable abc) ∧ v ∈ voters (Joint abc bcd) ∧
       v ∈ ({["a"; "b"]} : gset NodeId)%string ∧ v ∈ ({["b"; "c"]} : gset NodeId)%string.
Proof. apply adjacent_quorums_intersect; [constructor|reflexivity|reflexivity]. Defined.

End Membership.
