(* ===== verification/Leases.v ===== *)
(** * Client sessions and byte-range locks ([leases.rs])

    The replicated table of sessions and of the POSIX byte-range locks they
    hold.  The invariant [wf] says that no two owners hold conflicting locks,
    that an owner's own locks are disjoint and merged, that every lock belongs
    to an open session and that the limits are respected; every operation
    preserves it, a failed one changes nothing, and [Lock] has the byte-level
    meaning of [F_SETLK]. *)

From S2P Require Import Prelude MetaError.

Module Leases.
Import MetaError.

Open Scope N_scope.

(** ** Data *)

Definition MIN_TTL_MS : N := 1000.
Definition MAX_TTL_MS : N := 300000.
Definition MAX_SESSIONS : N := 65536.
Definition MAX_LOCKS_PER_SESSION : N := 4096.
Definition MAX_SESSION_ID_BYTES : N := 128.

Abbreviation FsId := string.

Record Session := mkSession {
  ttl_ms : N;
  expires_ms : N;
  cache : bool;
  term : N;
}.
#[export] Instance eta_Session : Eta Session :=
  λ s, mkSession (ttl_ms s) (expires_ms s) (cache s) (term s).

Inductive LockKind := Read | Write.
#[export] Instance LockKind_eq_dec : EqDecision LockKind.
Proof. solve_decision. Defined.

(** A held lock on [[start, end]], both ends included. *)
Record FileLock := mkFileLock {
  ino : N;
  session : string;
  owner : N;
  kind : LockKind;
  start : N;
  last : N;
  pid : N;
}.
#[export] Instance FileLock_eq_dec : EqDecision FileLock.
Proof. solve_decision. Defined.
#[export] Instance eta_FileLock : Eta FileLock :=
  λ l, mkFileLock (ino l) (session l) (owner l) (kind l) (start l) (last l) (pid l).

Definition same_owner (self : FileLock) (s : string) (o : N) : bool :=
  String.eqb (session self) s && (owner self =? o).

Definition overlaps (self : FileLock) (b e : N) : bool := (start self <=? e) && (b <=? last self).

Definition conflicts (self : FileLock) (s : string) (o : N) (k : LockKind) (b e : N) : bool :=
  negb (same_owner self s o) && overlaps self b e
  && (bool_decide (kind self = Write) || bool_decide (k = Write)).

Record Leases := mkLeases {
  sessions : gmap string Session;
  locks : gmap FsId (list FileLock);
}.
#[export] Instance eta_Leases : Eta Leases := λ l, mkLeases (sessions l) (locks l).

Definition empty_leases : Leases := mkLeases ∅ ∅.

Inductive LeaseOp :=
| Open_ (session : string) (ttl_ms now_ms : N) (cache : bool)
| Renew (session : string) (now_ms : N)
| Close (session : string)
| Expire (now_ms : N)
| Lock (fs : FsId) (ino : N) (session : string) (owner : N) (kind : option LockKind)
       (start last pid now_ms : N)
| ReleaseOwner (fs : FsId) (ino : N) (session : string) (owner : N).

Definition check_holder_name (s : string) : res MetaError () :=
  reject_if (String.eqb s EmptyString || (MAX_SESSION_ID_BYTES <? N.of_nat (String.length s))) Invalid.

(** ** Relocking *)

(** [a.checked_add(1) == Some(b)]. *)
Definition next_is (a b : N) : bool := bool_decide (u64_checked_add a 1 = Some b).

(** The order [relock] sorts by: [(ino, session, owner, start)]. *)
Definition lock_cmp (a b : FileLock) : comparison :=
  match ino a ?= ino b with
  | Eq =>
      match String.compare (session a) (session b) with
      | Eq =>
          match owner a ?= owner b with
          | Eq => start a ?= start b
          | c => c
          end
      | c => c
      end
  | c => c
  end.
Definition lock_le (a b : FileLock) : Prop := lock_cmp a b ≠ Gt.
#[export] Instance lock_le_dec : RelDecision lock_le.
Proof. intros a b. unfold lock_le. destruct (lock_cmp a b); [left|left|right]; naive_solver. Defined.

(** One iteration of the loop of [relock]: [(out, new)] after looking at [l]. *)
Definition relock_step (i : N) (s : string) (o b e : N)
    (acc : list FileLock * option FileLock) (l : FileLock) : list FileLock * option FileLock :=
  let '(out, new) := acc in
  if negb (ino l =? i) || negb (same_owner l s o) then (out ++ [l], new)
  else
    let touches := overlaps l b e || next_is (last l) b || next_is e (start l) in
    if negb touches then (out ++ [l], new)
    else
      match new with
      | Some n =>
          if bool_decide (kind n = kind l)
          then (out, Some (n <| start := N.min (start n) (start l) |>
                             <| last := N.max (last n) (last l) |>))
          else if negb (overlaps l b e) then (out ++ [l], new)
          else (out ++ (if start l <? b then [l <| last := b - 1 |>] else [])
                    ++ (if e <? last l then [l <| start := u64_add e 1 |>] else []), new)
      | None =>
          if negb (overlaps l b e) then (out ++ [l], new)
          else (out ++ (if start l <? b then [l <| last := b - 1 |>] else [])
                    ++ (if e <? last l then [l <| start := u64_add e 1 |>] else []), new)
      end.

Arguments relock_step : simpl never.

Definition relock (held : list FileLock) (i : N) (s : string) (o : N) (k : option LockKind)
    (b e p : N) : list FileLock :=
  let new := (λ k, mkFileLock i s o k b e p) <$> k in
  let '(out, new) := foldl (relock_step i s o b e) ([], new) held in
  merge_sort lock_le (out ++ option_list new).

(** ** Queries and operations *)

Definition lock_count (self : Leases) : nat := map_sum length (locks self).

Definition locks_on (self : Leases) (fs : FsId) (i : N) : list FileLock :=
  base.filter (λ l, ino l = i) (default [] (locks self !! fs)).

Definition conflict (self : Leases) (fs : FsId) (i : N) (s : string) (o : N) (k : LockKind)
    (b e : N) : option FileLock :=
  List.find (λ l, conflicts l s o k b e) (locks_on self fs i).

Definition expired (self : Leases) (now_ms : N) : list string :=
  (base.filter (λ x : string * Session, expires_ms x.2 <= now_ms) (bt_entries (sessions self))).*1.

Definition max_ttl_ms (self : Leases) : N :=
  foldr N.max 0 (ttl_ms <$> bt_values (sessions self)).

Definition forget_fs (self : Leases) (fs : FsId) : Leases :=
  self <| locks ::= delete fs |>.

Definition drop_sessions (self : Leases) (gone : list string) : Leases :=
  match gone with
  | [] => self
  | _ =>
      let ss := foldl (λ m s, delete s m) (sessions self) gone in
      let lk := base.filter (λ l, session l ∉ gone) <$> locks self in
      mkLeases ss (base.filter (λ x : FsId * list FileLock, x.2 ≠ []) lk)
  end.

Definition caching_since_before (self : Leases) (t : N) : bool :=
  existsb (λ s, cache s && (term s <? t)) (bt_values (sessions self)).

Definition session_of (self : Leases) (s : string) : res MetaError Session :=
  ok_or (sessions self !! s) NoSession.

(** How many locks of session [s] a list holds. *)
Definition count_session (s : string) (l : list FileLock) : nat :=
  length (base.filter (λ x, session x = s) l).

Section apply.
(** [file fs ino] says whether the inode is a regular file of the filesystem. *)
Variable file : FsId → N → res MetaError ().
(** The Raft term the operation was committed in. *)
Variable at_term : N.

Definition apply (op : LeaseOp) : SM Leases MetaError () :=
  match op with
  | Open_ s ttl now c =>
      sm_lift (check_holder_name s) ;;
      self ← sm_get;
      sm_lift (reject_if (negb ((MIN_TTL_MS <=? ttl) && (ttl <=? MAX_TTL_MS))) Invalid) ;;
      sm_lift (reject_if (bool_decide (sessions self !! s = None)
                 && (MAX_SESSIONS <=? N.of_nat (size (sessions self)))) TooBig) ;;
      let t := match sessions self !! s with Some x => term x | None => at_term end in
      sm_put (self <| sessions ::= <[s := mkSession ttl (u64_saturating_add now ttl) c t]> |>)
  | Renew s now =>
      self ← sm_get;
      x ← sm_lift (session_of self s);
      sm_put (self <| sessions ::= <[s := x <| expires_ms :=
                N.max (expires_ms x) (u64_saturating_add now (ttl_ms x)) |> ]> |>)
  | Close s =>
      self ← sm_get;
      sm_put (match sessions self !! s with Some _ => drop_sessions self [s] | None => self end)
  | Expire now =>
      self ← sm_get;
      sm_put (drop_sessions self (expired self now))
  | Lock fs i s o k b e p now =>
      sm_lift (reject_if (e <? b) Invalid) ;;
      self ← sm_get;
      x ← sm_lift (session_of self s);
      let ttl := ttl_ms x in
      sm_lift (file fs i) ;;
      sm_lift (match k with
               | Some k => reject_if (bool_decide (conflict self fs i s o k b e ≠ None)) Locked
               | None => Ok ()
               end) ;;
      let held := default [] (locks self !! fs) in
      let next := relock held i s o k b e p in
      let mine := (count_session s next
                   + map_sum (count_session s) (delete fs (locks self)))%nat in
      sm_lift (reject_if (MAX_LOCKS_PER_SESSION <? N.of_nat mine) TooBig) ;;
      sm_modify (λ self, self <| sessions ::= <[s := x <| expires_ms :=
                   N.max (expires_ms x) (u64_saturating_add now ttl) |> ]> |>) ;;
      sm_modify (λ self, self <| locks ::= match next with
                                           | [] => delete fs
                                           | _ => <[fs := next]>
                                           end |>)
  | ReleaseOwner fs i s o =>
      sm_modify (λ self,
        match locks self !! fs with
        | Some l =>
            let l := base.filter (λ x, ¬ (ino x = i ∧ same_owner x s o = true)) l in
            self <| locks ::= match l with [] => delete fs | _ => <[fs := l]> end |>
        | None => self
        end)
  end.
End apply.

(** ** Compatibility of locks *)

Definition at_byte (l : FileLock) (x : N) : Prop := start l <= x <= last l.
Definition lock_ok (l : FileLock) : Prop := start l <= last l ∧ last l <= u64_max.

Definition disjoint (l m : FileLock) : Prop := last l < start m ∨ last m < start l.
(** Not even adjacent. *)
Definition separate (l m : FileLock) : Prop := last l + 1 < start m ∨ last m + 1 < start l.

Definition owned_alike (l m : FileLock) : Prop := session l = session m ∧ owner l = owner m.
#[export] Instance owned_alike_dec l m : Decision (owned_alike l m).
Proof. unfold owned_alike. solve_decision. Defined.

(** What two locks of a filesystem may be to each other: on one inode, an
    owner's locks are disjoint, and not adjacent when of one kind; locks of two
    owners are disjoint or both shared. *)
Definition compat (l m : FileLock) : Prop :=
  ino l = ino m →
  if decide (owned_alike l m)
  then disjoint l m ∧ (kind l = kind m → separate l m)
  else disjoint l m ∨ (kind l = Read ∧ kind m = Read).

#[export] Instance compat_sym : Symmetric compat.
Proof.
  intros l m Hc He. specialize (Hc (eq_sym He)). unfold disjoint, separate in *.
  destruct (decide (owned_alike l m)) as [Ho|Ho], (decide (owned_alike m l)) as [Ho'|Ho'].
  - destruct Hc as [Hd Hs]. split; [lia|]. intros Hk. specialize (Hs (eq_sym Hk)). lia.
  - exfalso. apply Ho'. destruct Ho. by split.
  - exfalso. apply Ho. destruct Ho'. by split.
  - destruct Hc as [Hd|[? ?]]; [left; lia|by right].
Qed.

(** [x] is a part of [l]: a sub-range with the same holder and kind. *)
Definition part_of (x l : FileLock) : Prop :=
  ino x = ino l ∧ session x = session l ∧ owner x = owner l ∧ kind x = kind l ∧
  start l <= start x ∧ last x <= last l.

Lemma part_of_refl l : part_of l l.
Proof. unfold part_of. split_and!; done. Qed.

Lemma compat_parts x l y m :
  compat l m → part_of x l → part_of y m → lock_ok x → lock_ok y → compat x y.
Proof.
  unfold compat, part_of, lock_ok.
  intros Hc (Hi & Hs & Ho & Hk & Hb & He) (Hi' & Hs' & Ho' & Hk' & Hb' & He') Hx Hy Hino.
  specialize (Hc ltac:(congruence)). unfold disjoint, separate in *.
  destruct (decide (owned_alike l m)) as [Hlm|Hlm], (decide (owned_alike x y)) as [Hxy|Hxy];
    unfold owned_alike in *;
    [|exfalso; apply Hxy; split; intuition congruence|exfalso; apply Hlm; split; intuition congruence|].
  - destruct Hc as [Hd Hsep]. split; [lia|]. intros Hkk. specialize (Hsep ltac:(congruence)). lia.
  - destruct Hc as [Hd|[? ?]]; [left; lia|right; split; congruence].
Qed.

Lemma compat_not_mine l m : compat l m → ino l = ino m → ¬ owned_alike l m →
  ∀ x, at_byte l x → at_byte m x → kind l = Read ∧ kind m = Read.
Proof.
  intros Hc Hi Ho x Hl Hm. specialize (Hc Hi). rewrite decide_False in Hc by done.
  destruct Hc as [[?|?]|?]; [unfold at_byte in *; lia..|done].
Qed.

(** ** Relocking, lock by lock *)

Section relock.
Context (i : N) (s : string) (o b e p : N) (k : option LockKind).
Hypothesis Hbe : b <= e.
Hypothesis He : e <= u64_max.

Definition mine (l : FileLock) : Prop := ino l = i ∧ session l = s ∧ owner l = o.
#[export] Instance mine_dec l : Decision (mine l).
Proof. unfold mine. solve_decision. Defined.

Definition touches (l : FileLock) : Prop := start l <= e + 1 ∧ b <= last l + 1.
Definition meets (l : FileLock) : Prop := start l <= e ∧ b <= last l.
#[export] Instance touches_dec l : Decision (touches l).
Proof. unfold touches. solve_decision. Defined.
#[export] Instance meets_dec l : Decision (meets l).
Proof. unfold meets. solve_decision. Defined.

(** [l] is merged into the new lock. *)
Definition absorbed (l : FileLock) : Prop := mine l ∧ touches l ∧ k = Some (kind l).
#[export] Instance absorbed_dec l : Decision (absorbed l).
Proof. unfold absorbed. solve_decision. Defined.

(** What stays of [l] besides the new lock. *)
Definition pieces (l : FileLock) : list FileLock :=
  if decide (absorbed l) then []
  else if decide (mine l ∧ meets l)
  then (if start l <? b then [l <| last := b - 1 |>] else [])
       ++ (if e <? last l then [l <| start := e + 1 |>] else [])
  else [l].

Definition grow (n l : FileLock) : FileLock :=
  if decide (absorbed l)
  then n <| start := N.min (start n) (start l) |> <| last := N.max (last n) (last l) |>
  else n.

Definition fresh_lock (k : LockKind) : FileLock := mkFileLock i s o k b e p.

Lemma same_owner_spec l s' o' : same_owner l s' o' = true ↔ session l = s' ∧ owner l = o'.
Proof. unfold same_owner. by rewrite andb_true_iff, String.eqb_eq, N.eqb_eq. Qed.

Lemma overlaps_spec l : overlaps l b e = true ↔ meets l.
Proof. unfold overlaps, meets. by rewrite andb_true_iff, !N.leb_le. Qed.

Lemma next_is_spec x y : y <= u64_max → next_is x y = true ↔ x + 1 = y.
Proof.
  intros Hy. unfold next_is, u64_checked_add. rewrite bool_decide_eq_true.
  destruct (N.leb_spec (x + 1) u64_max); split; intros H'; try lia; try congruence.
Qed.

Lemma touches_spec l :
  lock_ok l →
  overlaps l b e || next_is (last l) b || next_is e (start l) = true ↔ touches l.
Proof.
  intros [Hl1 Hl2]. rewrite !orb_true_iff, overlaps_spec, !next_is_spec by lia.
  unfold meets, touches. lia.
Qed.

(** The tests of the loop body as decisions. *)
Lemma step_tests l :
  lock_ok l →
  negb (ino l =? i) || negb (same_owner l s o) = bool_decide (¬ mine l) ∧
  overlaps l b e || next_is (last l) b || next_is e (start l) = bool_decide (touches l) ∧
  overlaps l b e = bool_decide (meets l) ∧
  (if e <? last l then [l <| start := u64_add e 1 |>] else [])
    = (if e <? last l then [l <| start := e + 1 |>] else []).
Proof.
  intros Hok. split_and!.
  - apply eq_true_iff_eq. rewrite bool_decide_eq_true, <- not_false_iff_true.
    rewrite orb_false_iff, !negb_false_iff, N.eqb_eq, same_owner_spec. unfold mine. tauto.
  - apply eq_true_iff_eq. by rewrite touches_spec, bool_decide_eq_true.
  - apply eq_true_iff_eq. by rewrite overlaps_spec, bool_decide_eq_true.
  - destruct (N.ltb_spec e (last l)); [|done]. rewrite u64_add_small; [done|].
    destruct Hok. unfold u64_size, u64_max in *. lia.
Qed.

Lemma relock_step_eq out new l :
  lock_ok l → match new with Some n => k = Some (kind n) | None => k = None end →
  relock_step i s o b e (out, new) l = (out ++ pieces l, (λ n, grow n l) <$> new).
Proof.
  intros Hok Hk. destruct (step_tests l Hok) as (T1 & T2 & T3 & T4).
  unfold relock_step. rewrite T1, T2, T3, T4. clear T1 T2 T3 T4.
  assert (meets l → touches l) by (unfold meets, touches; lia).
  unfold pieces, grow, absorbed.
  destruct new as [n|]; simpl;
    repeat (case_bool_decide || case_decide); simpl; rewrite ?app_nil_r;
    first [done | exfalso; naive_solver congruence].
Qed.

Lemma relock_fold out new held :
  Forall lock_ok held → match new with Some n => k = Some (kind n) | None => k = None end →
  foldl (relock_step i s o b e) (out, new) held
  = (out ++ (held ≫= pieces), (λ n, foldl grow n held) <$> new).
Proof.
  revert out new. induction held as [|l held IH]; intros out new; simpl.
  - rewrite app_nil_r. by destruct new.
  - intros [Hl Hh]%Forall_cons Hk.
    rewrite relock_step_eq by done.
    rewrite IH by first [done|destruct new; simpl; unfold grow; by repeat case_decide].
    rewrite <- app_assoc. by destruct new.
Qed.

Lemma relock_perm held :
  Forall lock_ok held →
  relock held i s o k b e p ≡ₚ
    (held ≫= pieces) ++ option_list ((λ k, foldl grow (fresh_lock k) held) <$> k).
Proof.
  intros Hh. unfold relock. rewrite relock_fold by (done || by destruct k). simpl.
  rewrite merge_sort_Permutation. by destruct k.
Qed.

(** ** The pieces *)

Lemma elem_of_pieces x l :
  lock_ok l → x ∈ pieces l →
  lock_ok x ∧ part_of x l ∧ ¬ absorbed l ∧
  (mine l → ∀ y, at_byte x y → y < b ∨ e < y).
Proof.
  intros [Hl1 Hl2]. unfold pieces.
  destruct (decide (absorbed l)) as [Ha|Ha]; [set_solver|].
  destruct (decide (mine l ∧ meets l)) as [[Hm Hme]|Hno].
  - rewrite elem_of_app.
    destruct (N.ltb_spec (start l) b), (N.ltb_spec e (last l));
      rewrite ?list_elem_of_singleton, ?elem_of_nil;
      intros [Hx|Hx]; try done; subst x;
      unfold lock_ok, part_of, at_byte, meets in *; simpl; (split_and!; try done; lia).
  - intros ->%list_elem_of_singleton.
    split_and!; [done|apply part_of_refl|done|].
    unfold at_byte, meets in *. intros Hm y Hy.
    destruct (N.lt_ge_cases y b); [by left|]. right.
    destruct (N.lt_ge_cases e y); [done|]. exfalso. apply Hno. split; [done|lia].
Qed.

Lemma pieces_not_mine l : ¬ mine l → pieces l = [l].
Proof. intros Hm. unfold pieces, absorbed. rewrite !decide_False by tauto. done. Qed.

(** The bytes a lock keeps: those outside the range, unless it is absorbed. *)
Lemma pieces_bytes l y :
  lock_ok l → mine l →
  (∃ x, x ∈ pieces l ∧ at_byte x y) ↔ ¬ absorbed l ∧ at_byte l y ∧ (y < b ∨ e < y).
Proof.
  intros Hok Hm. split.
  - intros (x & Hx & Hy). destruct (elem_of_pieces x l Hok Hx) as (_ & Hp & Hna & Hout).
    split_and!; [done| |auto]. unfold part_of, at_byte in *. lia.
  - intros (Hna & Hy & Hout). unfold pieces. rewrite decide_False by done.
    destruct (decide (mine l ∧ meets l)) as [[_ Hme]|Hno];
      [|exists l; split; [set_solver|done]].
    unfold at_byte in *. destruct Hout as [Hlo|Hhi].
    + destruct (N.ltb_spec (start l) b); [|lia]. exists (l <| last := b - 1 |>).
      split; [set_solver|]. simpl. lia.
    + destruct (N.ltb_spec e (last l)); [|lia]. exists (l <| start := e + 1 |>).
      split; [set_solver|]. simpl. lia.
Qed.

(** ** The new lock *)

Lemma grow_fold n held :
  Forall lock_ok held → start n <= b → e <= last n → last n <= u64_max →
  let n' := foldl grow n held in
  ino n' = ino n ∧ session n' = session n ∧ owner n' = owner n ∧ kind n' = kind n ∧
  start n' <= b ∧ e <= last n' ∧ last n' <= u64_max ∧
  ∀ y, at_byte n' y ↔ at_byte n y ∨ ∃ l, l ∈ held ∧ absorbed l ∧ at_byte l y.
Proof.
  revert n. induction held as [|l held IH]; intros n; simpl.
  - intros _ ? ? ?. split_and!; try done. intros y. split; [by left|]. intros [?|(l & Hl & _)]; [done|set_solver].
  - intros [[Hl1 Hl2] Hh]%Forall_cons Hs Hel Hu.
    destruct (IH (grow n l)) as (Hi & Hse & Ho & Hk & H1 & H2 & H3 & Hy);
      [done|unfold grow; case_decide; simpl; lia..|].
    assert (ino (grow n l) = ino n ∧ session (grow n l) = session n ∧
            owner (grow n l) = owner n ∧ kind (grow n l) = kind n) as (Gi & Gs & Go & Gk)
      by (unfold grow; by case_decide).
    split_and!; try congruence; try done. intros y. rewrite Hy.
    assert (at_byte (grow n l) y ↔ at_byte n y ∨ (absorbed l ∧ at_byte l y)) as ->.
    { unfold grow. destruct (decide (absorbed l)) as [Ha|Hna]; [|tauto].
      pose proof Ha as (Hm & [Ht1 Ht2] & ?).
      assert ((absorbed l ∧ at_byte l y) ↔ at_byte l y) as -> by tauto.
      unfold at_byte. simpl. lia. }
    setoid_rewrite elem_of_cons. naive_solver.
Qed.

(** Set the kind held over [[b, e]] to [k]; everything else stays. *)
Definition holds (held : list FileLock) (i' : N) (s' : string) (o' : N) (k' : LockKind) (y : N) : Prop :=
  ∃ l, l ∈ held ∧ ino l = i' ∧ session l = s' ∧ owner l = o' ∧ kind l = k' ∧ at_byte l y.

Lemma elem_of_relock held x :
  Forall lock_ok held →
  x ∈ relock held i s o k b e p ↔
  (∃ l, l ∈ held ∧ x ∈ pieces l) ∨ (∃ k0, k = Some k0 ∧ x = foldl grow (fresh_lock k0) held).
Proof.
  intros Hh. rewrite relock_perm, elem_of_app, list_elem_of_bind by done.
  f_equiv; [naive_solver|]. destruct k as [k0|]; simpl; set_solver.
Qed.

Lemma relock_holds held i' s' o' k' y :
  Forall lock_ok held →
  holds (relock held i s o k b e p) i' s' o' k' y ↔
  if decide (i' = i ∧ s' = s ∧ o' = o ∧ b <= y <= e) then k = Some k'
  else holds held i' s' o' k' y.
Proof.
  intros Hh. unfold holds. setoid_rewrite (elem_of_relock held _ Hh).
  pose proof Hh as Hall. rewrite Forall_forall in Hall.
  assert (∀ k0, let n := foldl grow (fresh_lock k0) held in
    ino n = i ∧ session n = s ∧ owner n = o ∧ kind n = k0 ∧
    ∀ y, at_byte n y ↔ b <= y <= e ∨ ∃ l, l ∈ held ∧ absorbed l ∧ at_byte l y) as Hnew.
  { intros k0. destruct (grow_fold (fresh_lock k0) held) as (? & ? & ? & ? & _ & _ & _ & Hy);
      [done|simpl; lia..|]. split_and!; done. }
  case_decide as Hin.
  - destruct Hin as (-> & -> & -> & Hy). split.
    + intros (x & [(l & Hl & Hx)|(k0 & Hk & ->)] & Hi & Hs & Ho & Hkx & Hxy).
      * exfalso. destruct (elem_of_pieces x l (Hall l Hl) Hx) as (_ & Hp & _ & Hout).
        unfold part_of in Hp. destruct Hp as (Pi & Ps & Po & _).
        assert (mine l) as Hm by (unfold mine; split_and!; congruence).
        destruct (Hout Hm y Hxy); lia.
      * destruct (Hnew k0) as (_ & _ & _ & Hk0 & _). congruence.
    + intros Hk. exists (foldl grow (fresh_lock k') held). split; [right; eauto|].
      destruct (Hnew k') as (? & ? & ? & ? & Hb). split_and!; [done..|]. apply Hb. by left.
  - split.
    + intros (x & [(l & Hl & Hx)|(k0 & Hk & ->)] & Hi & Hs & Ho & Hkx & Hxy).
      * destruct (elem_of_pieces x l (Hall l Hl) Hx) as (_ & (Pi & Ps & Po & Pk & P1 & P2) & _).
        exists l. unfold at_byte in *. split_and!; [done|congruence..|lia|lia].
      * destruct (Hnew k0) as (Ni & Ns & No & Nk & Nb). apply Nb in Hxy as [?|(l & Hl & Ha & Hly)].
        { exfalso. apply Hin. split_and!; try congruence; lia. }
        destruct Ha as ((Mi & Ms & Mo) & _ & Hkl). exists l. split_and!; [done|congruence..|done].
    + intros (l & Hl & Hi & Hs & Ho & Hkl & Hly).
      destruct (decide (absorbed l)) as [Ha|Hna].
      * exists (foldl grow (fresh_lock (kind l)) held).
        destruct (Hnew (kind l)) as (Ni & Ns & No & Nk & Nb). pose proof Ha as ((Mi & Ms & Mo) & _ & Hk).
        split; [right; eauto|]. split_and!; [congruence..|]. apply Nb. right. eauto.
      * destruct (decide (mine l)) as [Hm|Hm].
        { destruct (proj2 (pieces_bytes l y (Hall l Hl) Hm)) as (x & Hx & Hxy).
          - split_and!; [done..|]. destruct Hm as (Mi & Ms & Mo).
            destruct (N.lt_ge_cases y b); [by left|]. right.
            destruct (N.lt_ge_cases e y); [done|]. exfalso. apply Hin. split_and!; congruence || lia.
          - destruct (elem_of_pieces x l (Hall l Hl) Hx) as (_ & (Pi & Ps & Po & Pk & _) & _).
            exists x. split; [left; eauto|]. split_and!; congruence || done. }
        exists l. split; [|done]. left. exists l. rewrite pieces_not_mine by done. set_solver.
Qed.

(** ** The result is compatible *)

Lemma pieces_pairwise l : lock_ok l → pairwise compat (pieces l).
Proof.
  intros Hok. unfold pieces. repeat case_decide; try done; [|by split; [set_solver|]].
  destruct (N.ltb_spec (start l) b), (e <? last l); simpl; try (split; [set_solver|done]).
  2: done. split; [|by split; [set_solver|]].
  intros y ->%list_elem_of_singleton _. rewrite decide_True by done.
  unfold disjoint, separate. simpl. lia.
Qed.

Lemma bind_pieces_pairwise held :
  Forall lock_ok held → pairwise compat held → pairwise compat (held ≫= pieces).
Proof.
  induction held as [|l held IH]; simpl; [done|].
  intros [Hl Hh]%Forall_cons [Hcl Hc]. apply pairwise_app. split_and!.
  - by apply pieces_pairwise.
  - auto.
  - intros x y Hx (m & Hy & Hm)%list_elem_of_bind. rewrite Forall_forall in Hh.
    destruct (elem_of_pieces x l Hl Hx) as (? & ? & _).
    destruct (elem_of_pieces y m (Hh m Hm) Hy) as (? & ? & _).
    eapply compat_parts; eauto.
Qed.

(** [conflict] found nothing that blocks [k0] over [[b, e]]. *)
Definition unblocked (k0 : LockKind) (held : list FileLock) : Prop :=
  ∀ l, l ∈ held → ino l = i → conflicts l s o k0 b e = false.

Lemma conflicts_spec l k0 :
  conflicts l s o k0 b e = true ↔
  (session l, owner l) ≠ (s, o) ∧ meets l ∧ (kind l = Write ∨ k0 = Write).
Proof.
  unfold conflicts. rewrite !andb_true_iff, negb_true_iff, orb_true_iff, !bool_decide_eq_true.
  rewrite overlaps_spec, <- not_true_iff_false, same_owner_spec. naive_solver.
Qed.

Lemma unblocked_reads k0 held l y :
  unblocked k0 held → l ∈ held → ino l = i → ¬ mine l → at_byte l y → b <= y <= e →
  kind l = Read ∧ k0 = Read.
Proof.
  intros Hub Hl Hi Hm Hly Hy. specialize (Hub l Hl Hi). unfold conflicts in Hub.
  assert (same_owner l s o = false) as Hso.
  { apply not_true_iff_false. rewrite same_owner_spec. intros [? ?]. by apply Hm. }
  assert (overlaps l b e = true) as Hov.
  { apply overlaps_spec. unfold meets, at_byte in *. lia. }
  rewrite Hso, Hov in Hub. simpl in Hub. apply orb_false_iff in Hub as [H1 H2].
  apply bool_decide_eq_false in H1, H2. by destruct (kind l), k0.
Qed.

Lemma disjoint_bytes l m :
  lock_ok l → lock_ok m → (∀ y, at_byte l y → at_byte m y → False) → disjoint l m.
Proof.
  intros [Hl _] [Hm _] Hno. unfold disjoint, at_byte in *.
  destruct (N.lt_ge_cases (last l) (start m)); [by left|]. right.
  destruct (N.lt_ge_cases (last m) (start l)); [done|]. exfalso.
  apply (Hno (N.max (start l) (start m))); lia.
Qed.

(** Own locks outside the range keep clear of the absorbed ones, hence of the
    new lock that covers exactly the range and those. *)
Lemma new_compat_own n l x :
  lock_ok n → lock_ok x → part_of x l → mine l → ¬ absorbed l → k = Some (kind n) →
  (∀ y, at_byte x y → y < b ∨ e < y) →
  (∀ y, at_byte n y → b <= y <= e ∨
     ∃ m, absorbed m ∧ at_byte m y ∧ disjoint l m ∧ (kind l = kind m → separate l m)) →
  disjoint x n ∧ (kind x = kind n → separate x n).
Proof.
  intros Hn Hx (Pi & Ps & Po & Pk & P1 & P2) Hm Hna Hk Hout Nb.
  assert (disjoint x n) as Hd.
  { apply disjoint_bytes; [done..|]. intros y Hxy Hny. specialize (Hout y Hxy).
    apply Nb in Hny as [?|(m & _ & Hmy & [?|?] & _)]; unfold at_byte in *; lia. }
  split; [done|]. intros Hkk. destruct Hx as [X1 X2], Hn as [N1 N2].
  assert (¬ touches l) as Hnt by (intros Ht; apply Hna; unfold absorbed; naive_solver congruence).
  assert (∀ y, at_byte n y → y <> last x + 1 ∧ y + 1 <> start x) as Hclear.
  { intros y [Hy|(m & (_ & _ & Hkm) & Hmy & _ & Hs)]%Nb.
    - unfold at_byte, touches in *. lia.
    - destruct (Hs ltac:(congruence)); unfold at_byte in *; lia. }
  unfold separate. destruct Hd as [Hd|Hd].
  - left. destruct (Hclear (start n)); unfold at_byte; lia.
  - right. destruct (Hclear (last n)); unfold at_byte; lia.
Qed.

Lemma new_compat_foreign k0 held n l x :
  lock_ok n → lock_ok x → part_of x l → ino l = i → ¬ mine l → kind n = k0 →
  unblocked k0 held → l ∈ held →
  (∀ y, at_byte n y → b <= y <= e ∨
     ∃ m, mine m ∧ kind m = k0 ∧ at_byte m y ∧ compat l m) →
  disjoint x n ∨ (kind x = Read ∧ kind n = Read).
Proof.
  intros Hn Hx (Pi & Ps & Po & Pk & P1 & P2) Hi Hnm Hk Hub Hl Nb.
  destruct (decide (kind x = Read ∧ kind n = Read)) as [?|Hnr]; [by right|left].
  apply disjoint_bytes; [done..|]. intros y Hxy Hny. apply Hnr.
  assert (at_byte l y) as Hly by (unfold at_byte in *; lia).
  apply Nb in Hny as [Hy|(m & (Mi & Ms & Mo) & Hkm & Hmy & Hc)].
  - destruct (unblocked_reads k0 held l y) as [? ?]; [done..|split; congruence].
  - destruct (compat_not_mine l m Hc) with (x := y) as [? ?];
      [congruence| |done|done|split; congruence].
    intros [? ?]. apply Hnm. unfold mine. split_and!; congruence.
Qed.

Lemma new_compat_piece k0 held l x :
  Forall lock_ok held → pairwise compat held → k = Some k0 → unblocked k0 held →
  l ∈ held → x ∈ pieces l → compat x (foldl grow (fresh_lock k0) held).
Proof.
  intros Hh Hc Hk Hub Hl Hx Hino. pose proof Hh as Hall. rewrite Forall_forall in Hall.
  destruct (grow_fold (fresh_lock k0) held) as (Ni & Ns & No & Nk & N1 & N2 & N3 & Nb);
    [done|simpl; lia..|]. simpl in *.
  set (n := foldl grow (fresh_lock k0) held) in *.
  assert (lock_ok n) as Hn by (split; lia).
  destruct (elem_of_pieces x l (Hall l Hl) Hx) as (Hxok & Hp & Hna & Hout).
  pose proof Hp as (Pi & Ps & Po & _).
  assert (∀ m, m ∈ held → absorbed m → compat l m) as Hlm.
  { intros m Hm Ha. destruct (pairwise_elem compat held l m Hc Hl Hm) as [->|[?|?]];
      [done|done|by symmetry]. }
  case_decide as Ho.
  - assert (mine l) as Hmine by (destruct Ho; unfold mine; split_and!; congruence).
    apply (new_compat_own n l x); [done..|congruence|auto|].
    intros y [?|(m & Hm & Ha & Hmy)]%Nb; [by left|right]. exists m. split; [done|]. split; [done|].
    specialize (Hlm m Hm Ha). destruct Ha as ((Mi & Ms & Mo) & _), Hmine as (Li & Ls & Lo).
    specialize (Hlm ltac:(congruence)). rewrite decide_True in Hlm; [done|split; congruence].
  - assert (¬ mine l) as Hnm by (intros (Mi & Ms & Mo); apply Ho; split; congruence).
    apply (new_compat_foreign k0 held n l x); [done..|congruence|done|done|done|done|].
    intros y [?|(m & Hm & Ha & Hmy)]%Nb; [by left|right]. exists m.
    specialize (Hlm m Hm Ha). destruct Ha as (? & _ & ?). split_and!; [done|congruence|done|done].
Qed.

Lemma relock_compat held :
  Forall lock_ok held → pairwise compat held →
  (∀ k0, k = Some k0 → unblocked k0 held) →
  Forall lock_ok (relock held i s o k b e p) ∧ pairwise compat (relock held i s o k b e p).
Proof.
  intros Hh Hc Hub. pose proof Hh as Hall. rewrite Forall_forall in Hall. split.
  - apply Forall_forall. intros x [(l & Hl & Hx)|(k0 & Hk & ->)]%elem_of_relock; [| |done].
    + by apply (elem_of_pieces x l (Hall l Hl) Hx).
    + destruct (grow_fold (fresh_lock k0) held) as (_ & _ & _ & _ & ? & ? & ? & _);
        [done|simpl; lia..|split; lia].
  - apply (pairwise_perm compat _ _ (Permutation_sym (relock_perm held Hh))). apply pairwise_app. split_and!.
    + by apply bind_pieces_pairwise.
    + destruct k; simpl; [by split; [set_solver|]|done].
    + intros x y (l & Hx & Hl)%list_elem_of_bind. destruct k as [k0|] eqn:Hk; simpl; [|set_solver].
      intros ->%list_elem_of_singleton. eapply new_compat_piece; eauto.
Qed.

(** Other sessions keep their locks, and their number of them. *)
Lemma relock_count_other held s' :
  Forall lock_ok held → s' ≠ s →
  count_session s' (relock held i s o k b e p) = count_session s' held.
Proof.
  intros Hh Hne. unfold count_session. rewrite relock_perm, filter_app, length_app by done.
  rewrite (filter_none _ (option_list _)), Nat.add_0_r.
  2:{ destruct k as [k0|]; simpl; [intros x ->%list_elem_of_singleton|set_solver].
      destruct (grow_fold (fresh_lock k0) held) as (_ & -> & _); [done|simpl; lia..|]. simpl. congruence. }
  induction held as [|l held IH]; [done|]. apply Forall_cons in Hh as [Hl Hh].
  rewrite bind_cons, filter_app, length_app, IH, filter_cons by done.
  destruct (decide (mine l)) as [Hm|Hm].
  - rewrite (filter_none _ (pieces l)).
    + pose proof Hm as (_ & Hs & _). by rewrite decide_False by congruence.
    + intros x Hx. destruct (elem_of_pieces x l Hl Hx) as (_ & (_ & -> & _) & _).
      destruct Hm as (_ & -> & _). congruence.
  - rewrite pieces_not_mine by done. rewrite filter_cons, filter_nil. by case_decide.
Qed.

Lemma relock_sessions held x :
  Forall lock_ok held → x ∈ relock held i s o k b e p →
  session x = s ∨ ∃ l, l ∈ held ∧ session x = session l.
Proof.
  intros Hh [(l & Hl & Hx)|(k0 & _ & ->)]%elem_of_relock; [| |done].
  - right. exists l. split; [done|]. rewrite Forall_forall in Hh.
    by destruct (elem_of_pieces x l (Hh l Hl) Hx) as (_ & (_ & -> & _) & _).
  - left. destruct (grow_fold (fresh_lock k0) held) as (_ & -> & _); [done|simpl; lia..|done].
Qed.
End relock.
(** ** The invariant *)

Definition session_ok (n : string) (x : Session) : Prop :=
  MIN_TTL_MS <= ttl_ms x <= MAX_TTL_MS ∧ n ≠ EmptyString ∧
  N.of_nat (String.length n) <= MAX_SESSION_ID_BYTES.

Record locks_ok (ss : gmap string Session) (ls : list FileLock) : Prop := {
  lo_ne : ls ≠ [];
  lo_ok : Forall lock_ok ls;
  lo_compat : pairwise compat ls;
  lo_session : ∀ l, l ∈ ls → is_Some (ss !! session l);
}.

Record wf (self : Leases) : Prop := {
  wf_session : ∀ n x, sessions self !! n = Some x → session_ok n x;
  wf_size : N.of_nat (size (sessions self)) <= MAX_SESSIONS;
  wf_locks : ∀ fs ls, locks self !! fs = Some ls → locks_ok (sessions self) ls;
  wf_count : ∀ s, N.of_nat (map_sum (count_session s) (locks self)) <= MAX_LOCKS_PER_SESSION;
}.

(** The width of the one operand whose upper end matters. *)
Definition op_in_range (op : LeaseOp) : Prop :=
  match op with
  | Lock _ _ _ _ _ _ e _ _ => e <= u64_max
  | _ => True
  end.

Lemma empty_wf : wf empty_leases.
Proof.
  by split.
Qed.

Lemma drop_sessions_session self gone n :
  sessions (drop_sessions self gone) !! n
  = if decide (n ∈ gone) then None else sessions self !! n.
Proof.
  assert (∀ m, foldl (λ m s, delete s m) m gone !! n
               = if decide (n ∈ gone) then None else (m : gmap string Session) !! n) as Hf.
  { induction gone as [|g gone IH]; intros m; simpl; [done|]. rewrite IH.
    destruct (decide (n ∈ gone)); [by rewrite decide_True by set_solver|].
    destruct (decide (g = n)) as [->|].
    - rewrite lookup_delete_eq. by rewrite decide_True by set_solver.
    - rewrite lookup_delete_ne by done. by rewrite decide_False by set_solver. }
  destruct gone; [done|]. apply Hf.
Qed.

Lemma drop_sessions_locks self gone fs ls :
  (∀ fs ls, locks self !! fs = Some ls → ls ≠ []) →
  locks (drop_sessions self gone) !! fs = Some ls ↔
  ∃ l0, locks self !! fs = Some l0 ∧ ls = base.filter (λ l, session l ∉ gone) l0 ∧ ls ≠ [].
Proof.
  intros Hne. destruct gone as [|g gone].
  - simpl. split.
    + intros Hl. exists ls. split_and!; [done| |eauto]. symmetry. apply filter_every. set_solver.
    + intros (l0 & Hl & -> & _). rewrite Hl. f_equal. symmetry. apply filter_every. set_solver.
  - cbn [drop_sessions locks]. rewrite map_lookup_filter_Some, lookup_fmap, fmap_Some. naive_solver.
Qed.

Lemma drop_sessions_wf self gone : wf self → wf (drop_sessions self gone).
Proof.
  intros [Hs Hsz Hl Hc].
  assert (∀ fs ls, locks self !! fs = Some ls → ls ≠ []) as Hne by (intros; by eapply lo_ne, Hl).
  split.
  - intros n x. rewrite drop_sessions_session. case_decide; [done|]. apply Hs.
  - etrans; [|exact Hsz].
    enough (size (sessions (drop_sessions self gone)) ≤ size (sessions self))%nat by lia.
    apply map_size_le. intros n. rewrite drop_sessions_session. by case_decide.
  - intros fs ls (l0 & Hl0 & -> & Hnil)%drop_sessions_locks; [|done].
    destruct (Hl fs l0 Hl0) as [_ Hok Hcp Hse]. split.
    + done.
    + apply Forall_forall. intros l [_ Hin]%list_elem_of_filter. rewrite Forall_forall in Hok. auto.
    + by apply pairwise_filter.
    + intros l [Hng Hin]%list_elem_of_filter. rewrite drop_sessions_session, decide_False by done. auto.
  - intros s. etrans; [|exact (Hc s)].
    enough (map_sum (count_session s) (locks (drop_sessions self gone)) ≤ map_sum (count_session s) (locks self))%nat by lia.
    apply map_sum_le. intros fs ls (l0 & Hl0 & -> & _)%drop_sessions_locks; [|done].
    exists l0. split; [done|]. apply length_filter_filter.
Qed.

(** ** The operations *)

Definition held_in (self : Leases) (fs : FsId) : list FileLock := default [] (locks self !! fs).

Lemma held_in_ok self fs :
  wf self → Forall lock_ok (held_in self fs) ∧ pairwise compat (held_in self fs) ∧
  ∀ l, l ∈ held_in self fs → is_Some (sessions self !! session l).
Proof.
  intros Hwf. unfold held_in. destruct (locks self !! fs) as [ls|] eqn:Hl; simpl; [|set_solver].
  by destruct (wf_locks self Hwf fs ls Hl).
Qed.

Lemma conflict_None self fs i s o k b e :
  conflict self fs i s o k b e = None ↔ unblocked i s o b e k (held_in self fs).
Proof.
  unfold conflict, locks_on, unblocked, held_in. rewrite find_None_Forall, Forall_forall.
  setoid_rewrite list_elem_of_filter. naive_solver.
Qed.

(** A conflict, byte by byte. *)
Lemma conflict_Some self fs i s o k b e :
  b <= e → Forall lock_ok (held_in self fs) →
  conflict self fs i s o k b e ≠ None ↔
  ∃ l y, l ∈ held_in self fs ∧ ino l = i ∧ (session l, owner l) ≠ (s, o) ∧
    b <= y <= e ∧ at_byte l y ∧ (kind l = Write ∨ k = Write).
Proof.
  intros Hbe Hok. rewrite Forall_forall in Hok. split.
  - destruct (conflict self fs i s o k b e) as [l|] eqn:Hc; [intros _|done].
    apply List.find_some in Hc as [Hl Hc]. apply list_elem_of_In, list_elem_of_filter in Hl as [Hi Hl].
    apply conflicts_spec in Hc as (Ho & Hm & Hk). destruct (Hok l Hl) as [? ?].
    exists l, (N.max b (start l)). unfold at_byte, meets in *. split_and!; [done..|lia|lia|lia|lia|done].
  - intros (l & y & Hl & Hi & Ho & Hy & Hly & Hk) Hc. rewrite conflict_None in Hc.
    specialize (Hc l Hl Hi). apply not_true_iff_false in Hc. apply Hc, conflicts_spec.
    unfold meets, at_byte in *. split_and!; [done|lia|lia|done].
Qed.

Lemma elem_of_expired self now s :
  s ∈ expired self now ↔ ∃ x, sessions self !! s = Some x ∧ expires_ms x <= now.
Proof.
  unfold expired. rewrite list_elem_of_fmap. split.
  - intros ([n x] & -> & [Hx Hin%elem_of_bt_entries]%list_elem_of_filter). by exists x.
  - intros (x & Hs & Hx). exists (s, x). by rewrite list_elem_of_filter, elem_of_bt_entries.
Qed.

Lemma drop_sessions_held self gone fs l :
  (∀ fs ls, locks self !! fs = Some ls → ls ≠ []) →
  l ∈ held_in (drop_sessions self gone) fs ↔ l ∈ held_in self fs ∧ session l ∉ gone.
Proof.
  intros Hne. unfold held_in.
  assert (∀ m, l ∈ default [] (m !! fs) ↔ ∃ ls, (m : gmap FsId _) !! fs = Some ls ∧ l ∈ ls) as Hd.
  { intros m. destruct (m !! fs); simpl; set_solver. }
  rewrite !Hd. setoid_rewrite drop_sessions_locks; [|done]. split.
  - intros (ls & (l0 & H0 & -> & _) & [? ?]%list_elem_of_filter). eauto.
  - intros ((l0 & H0 & Hl) & Hs).
    assert (l ∈ base.filter (λ l, session l ∉ gone) l0) as Hin by (by apply list_elem_of_filter).
    exists (base.filter (λ l, session l ∉ gone) l0). split; [|done]. exists l0.
    split_and!; [done|done|]. intros Hnil. rewrite Hnil in Hin. set_solver.
Qed.

(** The list a filesystem's locks become, dropping the key of an empty one. *)
Definition put_locks (fs : FsId) (ls : list FileLock) (m : gmap FsId (list FileLock)) :
    gmap FsId (list FileLock) :=
  match ls with [] => delete fs m | _ => <[fs := ls]> m end.

Lemma put_locks_eq fs ls m :
  match ls with [] => delete fs | _ => <[fs := ls]> end m = put_locks fs ls m.
Proof. by destruct ls. Qed.

Lemma put_locks_lookup fs ls m fs' ls' :
  put_locks fs ls m !! fs' = Some ls' ↔
  (fs' = fs ∧ ls' = ls ∧ ls ≠ []) ∨ (fs' ≠ fs ∧ m !! fs' = Some ls').
Proof.
  unfold put_locks. destruct ls as [|l ls].
  - rewrite lookup_delete_Some. naive_solver.
  - rewrite lookup_insert_Some. naive_solver.
Qed.

Lemma put_locks_held fs ls m : default [] (put_locks fs ls m !! fs) = ls.
Proof.
  unfold put_locks. destruct ls; [by rewrite lookup_delete_eq|by rewrite lookup_insert_eq].
Qed.

Lemma put_locks_other fs fs' ls m : fs' ≠ fs → put_locks fs ls m !! fs' = m !! fs'.
Proof.
  intros Hne. unfold put_locks.
  destruct ls; [by rewrite lookup_delete_ne|by rewrite lookup_insert_ne].
Qed.

Lemma put_locks_sum f fs ls m :
  f [] = 0%nat → map_sum f (put_locks fs ls m) = (f ls + map_sum f (delete fs m))%nat.
Proof.
  intros Hf. unfold put_locks. destruct ls as [|l ls]; [by rewrite Hf|].
  rewrite <- insert_delete_eq. apply map_sum_insert_None, lookup_delete_eq.
Qed.

Definition renewed (x : Session) (now : N) : Session :=
  x <| expires_ms := N.max (expires_ms x) (u64_saturating_add now (ttl_ms x)) |>.

Lemma apply_lock_inv file t fs i s o k b e p now self self' :
  apply file t (Lock fs i s o k b e p now) self = (self', Ok ()) →
  ∃ x, b <= e ∧ sessions self !! s = Some x ∧ file fs i = Ok () ∧
    (∀ k0, k = Some k0 → unblocked i s o b e k0 (held_in self fs)) ∧
    N.of_nat (count_session s (relock (held_in self fs) i s o k b e p)
              + map_sum (count_session s) (delete fs (locks self))) <= MAX_LOCKS_PER_SESSION ∧
    self' = mkLeases (<[s := renewed x now]> (sessions self))
              (put_locks fs (relock (held_in self fs) i s o k b e p) (locks self)).
Proof.
  unfold apply, mbind, sm_bind, sm_lift, sm_get, sm_modify, session_of, reject_if.
  destruct (N.ltb_spec e b); [done|].
  destruct (sessions self !! s) as [x|] eqn:Hs; [|done]. simpl.
  destruct (file fs i) as [[]| |]; [|done..].
  fold (held_in self fs).
  destruct (match k with Some _ => _ | None => _ end) as [[]| |] eqn:Hk; [|done..].
  destruct (MAX_LOCKS_PER_SESSION <? _) eqn:Hm; [done|]. apply N.ltb_ge in Hm. rewrite put_locks_eq.
  intros [= <-]. exists x. split_and!; try done. intros k0 ->.
  case_bool_decide as Hc; [done|]. apply conflict_None.
  destruct (conflict self fs i s o k0 b e); [by destruct Hc|done].
Qed.

Lemma apply_not_ok file t op self self' r :
  apply file t op self = (self', r) → r ≠ Ok () → self' = self.
Proof.
  destruct op; unfold apply, mbind, sm_bind, sm_lift, sm_get, sm_modify, sm_put, session_of, ok_or,
    check_holder_name, reject_if; intros Hap Hr; simpl in Hap;
    simplify_eq/=; repeat (case_match; simplify_eq/=);
    repeat match goal with u : () |- _ => destruct u end; done.
Qed.

Lemma put_session_wf self s x :
  wf self → session_ok s x →
  N.of_nat (size (<[s := x]> (sessions self))) <= MAX_SESSIONS →
  wf (self <| sessions ::= <[s := x]> |>).
Proof.
  intros [Hs Hsz Hl Hc] Hx Hsz'. split; simpl; try done.
  - intros n y. rewrite lookup_insert_Some. intros [[<- <-]|[_ ?]]; auto.
  - intros fs ls Hfs. destruct (Hl fs ls Hfs) as [? ? ? Hse]. split; try done.
    intros l Hin. rewrite lookup_insert_is_Some'. auto.
Qed.

Lemma replace_session_wf self s x y :
  wf self → sessions self !! s = Some x → ttl_ms y = ttl_ms x →
  wf (self <| sessions ::= <[s := y]> |>).
Proof.
  intros Hwf Hs Httl. destruct (wf_session self Hwf s x Hs) as (? & ? & ?).
  apply put_session_wf; [done|split; [by rewrite Httl|done]|].
  rewrite map_size_insert_Some by (rewrite Hs; eauto). by apply wf_size.
Qed.

(** Replacing one filesystem's list by a compatible one of the same sessions. *)
Lemma put_locks_wf self fs ls :
  wf self → (ls ≠ [] → locks_ok (sessions self) ls) →
  (∀ s, N.of_nat (count_session s ls + map_sum (count_session s) (delete fs (locks self)))
        <= MAX_LOCKS_PER_SESSION) →
  wf (self <| locks ::= put_locks fs ls |>).
Proof.
  intros [Hs Hsz Hl Hc] Hls Hcnt. split; simpl; try done.
  - intros fs' ls'. rewrite put_locks_lookup. intros [(-> & -> & ?)|[_ ?]]; eauto.
  - intros s. by rewrite put_locks_sum.
Qed.

Lemma count_split self fs s :
  map_sum (count_session s) (locks self)
  = (count_session s (held_in self fs) + map_sum (count_session s) (delete fs (locks self)))%nat.
Proof.
  unfold held_in. destruct (locks self !! fs) as [ls|] eqn:Hl; simpl.
  - by rewrite (map_sum_delete _ _ _ _ Hl).
  - by rewrite delete_id.
Qed.

Lemma relock_wf self fs i s o k b e p x :
  wf self → b <= e → e <= u64_max → sessions self !! s = Some x →
  (∀ k0, k = Some k0 → unblocked i s o b e k0 (held_in self fs)) →
  N.of_nat (count_session s (relock (held_in self fs) i s o k b e p)
            + map_sum (count_session s) (delete fs (locks self))) <= MAX_LOCKS_PER_SESSION →
  wf (self <| locks ::= put_locks fs (relock (held_in self fs) i s o k b e p) |>).
Proof.
  intros Hwf Hbe He Hs Hub Hmine. destruct (held_in_ok self fs Hwf) as (Hok & Hcp & Hse).
  apply put_locks_wf; [done| |].
  - intros Hne. destruct (relock_compat i s o b e p k Hbe He (held_in self fs)) as [? ?]; [done..|].
    split; [done..|]. intros l Hl.
    apply relock_sessions in Hl as [->|(m & Hm & ->)]; [by eexists|by apply Hse|done..].
  - intros s'. destruct (decide (s' = s)) as [->|Hne]; [done|].
    rewrite relock_count_other by done. rewrite <- count_split. by apply wf_count.
Qed.

Lemma filter_locks_wf self fs (P : FileLock → Prop) `{!∀ l, Decision (P l)} :
  wf self → wf (self <| locks ::= put_locks fs (base.filter P (held_in self fs)) |>).
Proof.
  intros Hwf. destruct (held_in_ok self fs Hwf) as (Hok & Hcp & Hse).
  apply put_locks_wf; [done| |].
  - intros Hne. split; [done| |by apply pairwise_filter|].
    + apply Forall_forall. intros l [_ Hl]%list_elem_of_filter. rewrite Forall_forall in Hok. auto.
    + intros l [_ Hl]%list_elem_of_filter. auto.
  - intros s. pose proof (wf_count self Hwf s) as Hc. rewrite (count_split self fs) in Hc.
    assert (count_session s (base.filter P (held_in self fs)) ≤ count_session s (held_in self fs))%nat
      by apply length_filter_filter. lia.
Qed.

Lemma apply_release_owner file t fs i s o self :
  wf self → wf (fst (apply file t (ReleaseOwner fs i s o) self)).
Proof.
  intros Hwf. simpl.
  pose proof (filter_locks_wf self fs (λ x, ¬ (ino x = i ∧ same_owner x s o = true)) Hwf) as Hf.
  unfold held_in in Hf. destruct (locks self !! fs) as [ls|] eqn:Hl; [|done].
  by rewrite put_locks_eq.
Qed.

Lemma forget_fs_wf self fs : wf self → wf (forget_fs self fs).
Proof.
  intros Hwf. apply (put_locks_wf self fs []); [done|done|].
  intros s. pose proof (wf_count self Hwf s) as Hc. rewrite (count_split self fs) in Hc.
  unfold count_session at 1. simpl. lia.
Qed.

Lemma apply_open_wf file t s ttl now c self self' :
  wf self → apply file t (Open_ s ttl now c) self = (self', Ok ()) → wf self'.
Proof.
  intros Hwf. unfold apply, mbind, sm_bind, sm_lift, sm_get, sm_put, check_holder_name, reject_if.
  destruct (_ || _) eqn:Hn; [done|]. destruct (negb _) eqn:Ht; [done|].
  destruct (bool_decide _ && _) eqn:Hm; [done|]. intros [= <-].
  apply orb_false_iff in Hn as [Hn1%String.eqb_neq Hn2%N.ltb_ge].
  apply negb_false_iff, andb_true_iff in Ht as [Ht1%N.leb_le Ht2%N.leb_le].
  apply put_session_wf; [done|by split_and!|]. pose proof (wf_size self Hwf).
  destruct (sessions self !! s) as [x|] eqn:Hs; simpl in *.
  - rewrite map_size_insert_Some by (rewrite Hs; eauto). done.
  - rewrite map_size_insert_None by done. apply N.leb_gt in Hm. lia.
Qed.

Lemma apply_renew_wf file t s now self self' :
  wf self → apply file t (Renew s now) self = (self', Ok ()) → wf self'.
Proof.
  intros Hwf. unfold apply, mbind, sm_bind, sm_lift, sm_get, sm_put, session_of.
  destruct (sessions self !! s) as [x|] eqn:Hs; [|done]. intros [= <-].
  by apply (replace_session_wf _ s x).
Qed.

Lemma apply_wf file t op self :
  wf self → op_in_range op → wf (fst (apply file t op self)).
Proof.
  intros Hwf Hop. destruct (apply file t op self) as [self' r] eqn:Hap. simpl.
  destruct r as [[]| |]; [|by rewrite (apply_not_ok _ _ _ _ _ _ Hap)..].
  destruct op as [s ttl now c|s now|s|now|fs i s o k b e p now|fs i s o].
  - by eapply apply_open_wf.
  - by eapply apply_renew_wf.
  - injection Hap as <-. case_match; [by apply (drop_sessions_wf self [s])|done].
  - injection Hap as <-. by apply drop_sessions_wf.
  - apply apply_lock_inv in Hap as (x & Hbe & Hs & _ & Hub & Hmine & ->).
    eapply relock_wf in Hmine; [|eauto..].
    exact (replace_session_wf _ s x (renewed x now) Hmine Hs eq_refl).
  - pose proof (apply_release_owner file t fs i s o self Hwf) as H. by rewrite Hap in H.
Qed.

(** ** What the table promises *)

(** The tables the service goes through: every committed operation, and a
    filesystem being deleted. *)
Inductive reachable : Leases → Prop :=
| reach_empty : reachable empty_leases
| reach_op file t op self :
    reachable self → op_in_range op → reachable (fst (apply file t op self))
| reach_forget fs self : reachable self → reachable (forget_fs self fs).

Lemma reachable_wf self : reachable self → wf self.
Proof.
  induction 1; [apply empty_wf|by apply apply_wf|by apply forget_fs_wf].
Qed.

(** A failed operation leaves the lease table exactly as it was: every input
    is checked before anything is changed. *)
Theorem apply_error_unchanged file t op self self' e :
  apply file t op self = (self', Err e) → self' = self.
Proof. intros Hap. by apply (apply_not_ok _ _ _ _ _ _ Hap). Qed.

(** C23. Mutual exclusion. In any state the service can be in, when two owners
    hold a lock on the same byte of the same file, both hold it shared; and an
    owner holds a byte by at most one lock. *)
Theorem lock_exclusion self fs l m y :
  reachable self → l ∈ held_in self fs → m ∈ held_in self fs →
  ino l = ino m → at_byte l y → at_byte m y →
  l = m ∨ (¬ owned_alike l m ∧ kind l = Read ∧ kind m = Read).
Proof.
  intros Hr Hl Hm Hi Hly Hmy.
  destruct (held_in_ok self fs (reachable_wf self Hr)) as (_ & Hc & _).
  destruct (decide (l = m)) as [?|Hne]; [by left|right].
  assert (compat l m) as Hlm.
  { destruct (pairwise_elem compat _ l m Hc Hl Hm) as [?|[?|?]]; [done|done|by symmetry]. }
  destruct (decide (owned_alike l m)) as [Ho|Ho].
  - specialize (Hlm Hi). rewrite decide_True in Hlm by done.
    destruct Hlm as [[?|?] _]; unfold at_byte in *; lia.
  - split; [done|]. by apply (compat_not_mine l m Hlm Hi Ho y).
Qed.

(** C29. A granted [Lock] is POSIX's [F_SETLK]: on exactly the bytes of the range,
    the owner holds the requested kind (nothing, for an unlock); every other
    byte, owner, file and filesystem is held as before. *)
Theorem lock_is_setlk file t fs i s o k b e p now self self' fs' i' s' o' k' y :
  reachable self → e <= u64_max →
  apply file t (Lock fs i s o k b e p now) self = (self', Ok ()) →
  holds (held_in self' fs') i' s' o' k' y ↔
  if decide (fs' = fs ∧ i' = i ∧ s' = s ∧ o' = o ∧ b <= y <= e) then k = Some k'
  else holds (held_in self fs') i' s' o' k' y.
Proof.
  intros Hr He (x & Hbe & _ & _ & _ & _ & ->)%apply_lock_inv.
  destruct (held_in_ok self fs (reachable_wf self Hr)) as (Hok & _).
  destruct (decide (fs' = fs)) as [->|Hne].
  - unfold held_in at 1. cbn [locks]. rewrite put_locks_held, relock_holds by done.
    by repeat case_decide; naive_solver.
  - unfold held_in. cbn [locks]. rewrite put_locks_other by done. by case_decide; [naive_solver|].
Qed.

(** C40. A lock request by an open session on a regular file is refused with
    [Locked] exactly when another owner holds a conflicting lock on some byte of
    the range. *)
Theorem lock_refused_iff file t fs i s o k b e p now self :
  reachable self → b <= e → is_Some (sessions self !! s) → file fs i = Ok () →
  snd (apply file t (Lock fs i s o (Some k) b e p now) self) = Err Locked ↔
  ∃ l y, l ∈ held_in self fs ∧ ino l = i ∧ (session l, owner l) ≠ (s, o) ∧
    b <= y <= e ∧ at_byte l y ∧ (kind l = Write ∨ k = Write).
Proof.
  intros Hr Hbe [x Hx] Hf.
  destruct (held_in_ok self fs (reachable_wf self Hr)) as (Hok & _).
  rewrite <- (conflict_Some self fs i s o k b e Hbe Hok).
  unfold apply, mbind, sm_bind, sm_lift, sm_get, sm_modify, session_of, reject_if.
  destruct (N.ltb_spec e b); [lia|]. rewrite Hx, Hf. simpl.
  case_bool_decide as Hc; simpl; [done|]. destruct (_ <? _); split; done.
Qed.

(** [Expire] drops exactly the sessions whose lease has run out and exactly
    their locks; what the others hold does not change. *)
Theorem expire_exact file t now self self' r :
  reachable self → apply file t (Expire now) self = (self', r) →
  r = Ok () ∧
  (∀ s x, sessions self' !! s = Some x ↔ sessions self !! s = Some x ∧ now < expires_ms x) ∧
  (∀ fs l, l ∈ held_in self' fs ↔
     l ∈ held_in self fs ∧ ∃ x, sessions self !! session l = Some x ∧ now < expires_ms x).
Proof.
  intros Hr [= <- <-]. apply reachable_wf in Hr. split; [done|].
  assert (∀ s x, sessions self !! s = Some x → s ∉ expired self now ↔ now < expires_ms x) as Hexp.
  { intros s x Hs. rewrite elem_of_expired, Hs. split.
    - intros Hn. apply N.lt_nge. intros ?. apply Hn. eauto.
    - intros Hn (y & [= <-] & ?). lia. }
  split.
  - intros s x. rewrite drop_sessions_session. case_decide as Hd.
    + split; [done|]. intros [Hs Hn]. by apply (Hexp s x) in Hn.
    + split; [|naive_solver]. intros Hs. split; [done|]. by apply (Hexp s x).
  - intros fs l. rewrite drop_sessions_held by (intros; by eapply lo_ne, wf_locks).
    split; intros [Hl Hs]; (split; [done|]).
    + destruct (held_in_ok self fs Hr) as (_ & _ & Hse). destruct (Hse l Hl) as [x Hx].
      exists x. split; [done|]. by apply (Hexp (session l)).
    + destruct Hs as (x & Hx & Hn). by apply (Hexp (session l) x).
Qed.

(** ** Witnesses *)

(** Two sessions; [a] holds bytes 0-99 of inode 7 exclusively. *)
Definition any_file (fs : FsId) (i : N) : res MetaError () := Ok ().
Definition demo : Leases :=
  Eval vm_compute in
  let run op self := fst (apply any_file 1 op self) in
  run (Lock "fs" 7 "a" 1 (Some Write) 0 99 42 0)
    (run (Open_ "b" 5000 0 false) (run (Open_ "a" 1000 0 true) empty_leases)).

Lemma demo_reachable : reachable demo.
Proof.
  set (run := λ op self, fst (apply any_file 1 op self)).
  change demo with (run (Lock "fs" 7 "a" 1 (Some Write) 0 99 42 0)
    (run (Open_ "b" 5000 0 false) (run (Open_ "a" 1000 0 true) empty_leases))).
  repeat apply reach_op; [apply reach_empty|done..].
Qed.

Lemma apply_error_unchanged_witness :
  ∃ self' e, apply any_file 1 (Lock "fs" 7 "b" 1 (Some Read) 50 50 43 0) demo = (self', Err e)
    ∧ self' = demo.
Proof.
  exists demo, Locked. split; [by vm_compute|].
  apply (apply_error_unchanged any_file 1 (Lock "fs" 7 "b" 1 (Some Read) 50 50 43 0) demo demo Locked).
  by vm_compute.
Defined.

(** Then both sessions read bytes 250-299; a write of [b] there would be refused. *)
Definition demo_shared : Leases :=
  fst (apply any_file 1 (Lock "fs" 7 "b" 1 (Some Read) 250 349 43 0) (fst (apply any_file 1 (Lock "fs" 7 "a" 1 (Some Read) 200 299 42 0) demo))).

Lemma demo_shared_reachable : reachable demo_shared.
Proof. unfold demo_shared. repeat apply reach_op; [apply demo_reachable|done..]. Qed.

Lemma lock_exclusion_witness :
  ∃ l m, l ∈ held_in demo_shared "fs" ∧ m ∈ held_in demo_shared "fs" ∧ at_byte l 260 ∧ at_byte m 260 ∧
    ¬ owned_alike l m ∧ kind l = Read ∧ kind m = Read ∧
    snd (apply any_file 1 (Lock "fs" 7 "b" 1 (Some Write) 250 349 43 0) demo_shared) = Err Locked.
Proof.
  exists (mkFileLock 7 "a" 1 Read 200 299 42), (mkFileLock 7 "b" 1 Read 250 349 43).
  assert (mkFileLock 7 "a" 1 Read 200 299 42 ∈ held_in demo_shared "fs") as Hl by (apply list_elem_of_In; vm_compute; tauto).
  assert (mkFileLock 7 "b" 1 Read 250 349 43 ∈ held_in demo_shared "fs") as Hm by (apply list_elem_of_In; vm_compute; tauto).
  destruct (lock_exclusion demo_shared "fs" _ _ 260 demo_shared_reachable Hl Hm eq_refl) as [?|(Ho & ? & ?)]; [by vm_compute..|done|].
  split; [exact Hl|]. split; [exact Hm|]. split_and!; by vm_compute.
Defined.

Lemma lock_is_setlk_witness :
  ∃ self', apply any_file 2 (Lock "fs" 7 "a" 1 None 10 19 42 0) demo = (self', Ok ()) ∧
    (holds (held_in self' "fs") 7 "a" 1 Write 15 ↔ None = Some Write).
Proof.
  eexists. split; [by vm_compute|].
  apply (lock_is_setlk any_file 2 "fs" 7 "a" 1 None 10 19 42 0 demo _ "fs" 7 "a" 1 Write 15
           demo_reachable); by vm_compute.
Defined.

Lemma lock_refused_iff_witness :
  snd (apply any_file 2 (Lock "fs" 7 "b" 1 (Some Read) 99 200 43 0) demo) = Err Locked.
Proof.
  apply (lock_refused_iff any_file 2 "fs" 7 "b" 1 Read 99 200 43 0 demo demo_reachable);
    [done|by eexists|done|].
  exists (mkFileLock 7 "a" 1 Write 0 99 42), 99.
  split_and!; [apply list_elem_of_here|done..|by vm_compute|by vm_compute|by left].
Defined.

Lemma expire_exact_witness :
  ∃ self', apply any_file 2 (Expire 1000) demo = (self', Ok ()) ∧ sessions self' !! "a" = None.
Proof.
  eexists. split; [by vm_compute|].
  destruct (expire_exact any_file 2 1000 demo _ _ demo_reachable eq_refl) as (_ & Hs & _).
  apply eq_None_not_Some. intros [x Hx]. apply Hs in Hx as [[= <-] Hn]. by vm_compute in Hn.
Defined.

End Leases.
