(* ===== verification/Acl.v ===== *)
(** * POSIX ACLs in the Linux xattr encoding ([acl.rs])

    Decoding and validation, encoding, and the three rules that keep an ACL and
    the mode bits in step: [apply_to_mode], [chmod] and [create_masq].  An ACL is
    accepted exactly when it is well formed, the encoding round-trips, and the
    two agree on the permission bits after each of the rules. *)

From S2P Require Import Prelude MetaError.

Module Acl.
Import MetaError.

Open Scope N_scope.

(** ** Data *)

Definition ACCESS : string := "system.posix_acl_access".
Definition DEFAULT : string := "system.posix_acl_default".

Definition VERSION : N := 2.
Definition USER_OBJ : N := 1.
Definition USER : N := 2.
Definition GROUP_OBJ : N := 4.
Definition GROUP : N := 8.
Definition MASK : N := 16.
Definition OTHER : N := 32.
Definition UNDEFINED_ID : N := 4294967295.
Definition MAX_ENTRIES : N := 1024.

Record Entry := mkEntry { tag : N; eperm : N; id : N }.
#[export] Instance eta_Entry : Eta Entry := λ e, mkEntry (tag e) (eperm e) (id e).
#[export] Instance Entry_eq_dec : EqDecision Entry.
Proof. solve_decision. Defined.

Abbreviation Acl := (list Entry).

(** A byte string; every element is below 256. *)
Abbreviation bytes := (list N).
Definition is_bytes (v : bytes) : Prop := Forall (λ b, b < 256) v.

(** ** Parsing *)

(** [from_le_bytes] and [to_le_bytes]. *)
Fixpoint from_le (v : bytes) : N :=
  match v with
  | [] => 0
  | b :: v => b + 256 * from_le v
  end.
Fixpoint to_le (n : nat) (x : N) : bytes :=
  match n with
  | O => []
  | S n => x mod 256 :: to_le n (x / 256)
  end.

(** [as_chunks::<8>().0] with each chunk read as an entry. *)
Fixpoint decode_entries (v : bytes) : list Entry :=
  match v with
  | c0 :: c1 :: c2 :: c3 :: c4 :: c5 :: c6 :: c7 :: v =>
      mkEntry (from_le [c0; c1]) (from_le [c2; c3]) (from_le [c4; c5; c6; c7]) :: decode_entries v
  | _ => []
  end.

(** The variables of the validating loop. *)
Record Seen := mkSeen {
  prev : option (N * N);
  user_obj : N;
  group_obj : N;
  other : N;
  mask : N;
  named : N;
}.
#[export] Instance eta_Seen : Eta Seen :=
  λ s, mkSeen (prev s) (user_obj s) (group_obj s) (other s) (mask s) (named s).

Definition is_named (t : N) : bool := (t =? USER) || (t =? GROUP).
Definition entry_key (e : Entry) : N * N := (tag e, if is_named (tag e) then id e else 0).
(** The order of [(u16, u32)] tuples. *)
Definition key_ge (p q : N * N) : bool := (q.1 <? p.1) || ((p.1 =? q.1) && (q.2 <=? p.2)).

Definition see_tag (e : Entry) (s : Seen) : res MetaError Seen :=
  if tag e =? USER_OBJ then Ok (s <| user_obj ::= N.succ |>)
  else if tag e =? GROUP_OBJ then Ok (s <| group_obj ::= N.succ |>)
  else if tag e =? OTHER then Ok (s <| other ::= N.succ |>)
  else if tag e =? MASK then Ok (s <| mask ::= N.succ |>)
  else if is_named (tag e) then
    if id e =? UNDEFINED_ID then Err Invalid else Ok (s <| named ::= N.succ |>)
  else Err Invalid.

Definition see_entry (e : Entry) (s : Seen) : res MetaError Seen :=
  if negb (N.ldiff (eperm e) 7 =? 0) then Err Invalid
  else
    s ← see_tag e s;
    let key := entry_key e in
    if match prev s with Some p => key_ge p key | None => false end then Err Invalid
    else Ok (s <| prev := Some key |>).

Fixpoint see_all (l : list Entry) (s : Seen) : res MetaError Seen :=
  match l with
  | [] => Ok s
  | e :: l => s ← see_entry e s; see_all l s
  end.

Definition parse (value : bytes) : res MetaError Acl :=
  let len := N.of_nat (length value) in
  if (len <? 4) || negb ((len - 4) mod 8 =? 0) then Err Invalid
  else if negb (from_le (take 4 value) =? VERSION) then Err Invalid
  else if MAX_ENTRIES <? (len - 4) / 8 then Err Invalid
  else
    let entries := decode_entries (drop 4 value) in
    s ← see_all entries (mkSeen None 0 0 0 0 0);
    if negb ((user_obj s =? 1) && (group_obj s =? 1) && (other s =? 1))
       || (1 <? mask s) || ((0 <? named s) && (mask s =? 0))
    then Err Invalid
    else Ok entries.

Definition encode_entry (e : Entry) : bytes :=
  to_le 2 (tag e) ++ to_le 2 (eperm e) ++ to_le 4 (id e).
Definition encode (self : Acl) : bytes := to_le 4 VERSION ++ (self ≫= encode_entry).

(** ** Permissions and modes *)

Definition perm (self : Acl) (t : N) : option N := eperm <$> List.find (λ e, tag e =? t) self.

Fixpoint set_perm (self : Acl) (t p : N) : Acl :=
  match self with
  | [] => []
  | e :: l => if tag e =? t then e <| eperm := N.land p 7 |> :: l else e :: set_perm l t p
  end.

Definition group_tag (self : Acl) : N := if perm self MASK is Some _ then MASK else GROUP_OBJ.

Definition is_minimal (self : Acl) : bool := N.of_nat (length self) =? 3.

(** [mode & !0o777] of a [u32]. *)
Definition special_bits (mode : N) : N := N.ldiff mode 511.

Definition apply_to_mode (self : Acl) (mode : N) : N :=
  let p t := default 0 (perm self t) in
  N.lor (N.lor (N.lor (special_bits mode) (N.shiftl (p USER_OBJ) 6))
               (N.shiftl (p (group_tag self)) 3)) (p OTHER).

Definition chmod (self : Acl) (mode : N) : Acl :=
  let self := set_perm self USER_OBJ (N.shiftr mode 6) in
  let self := set_perm self (group_tag self) (N.shiftr mode 3) in
  set_perm self OTHER mode.

Definition masq_step (mode : N) (acl : Acl) (ts : N * N) : Acl :=
  let '(t, shift) := ts in
  let have := default 0 (perm acl t) in
  set_perm acl t (N.land have (N.shiftr mode shift)).

Definition create_masq (self : Acl) (mode : N) : Acl * N :=
  let g := group_tag self in
  let acl := foldl (masq_step mode) self [(USER_OBJ, 6); (g, 3); (OTHER, 0)] in
  (acl, apply_to_mode acl mode).

(** ** Well-formed ACLs *)

Definition key_lt (p q : N * N) : Prop := p.1 < q.1 ∨ (p.1 = q.1 ∧ p.2 < q.2).

Definition count_tag (t : N) (l : list Entry) : nat := length (base.filter (λ e, tag e = t) l).

(** What an entry may be: [rwx] only, a known tag, an id where the tag has one;
    the widths are those of the struct. *)
Record entry_ok (e : Entry) : Prop := {
  eo_perm : eperm e < 8;
  eo_tag : tag e ∈ [USER_OBJ; USER; GROUP_OBJ; GROUP; MASK; OTHER];
  eo_named : is_named (tag e) = true → id e ≠ UNDEFINED_ID;
  eo_id : id e <= UNDEFINED_ID;
}.

Record acl_ok (a : Acl) : Prop := {
  ao_entries : Forall entry_ok a;
  ao_sorted : StronglySorted (λ x y, key_lt (entry_key x) (entry_key y)) a;
  ao_user : count_tag USER_OBJ a = 1%nat;
  ao_group : count_tag GROUP_OBJ a = 1%nat;
  ao_other : count_tag OTHER a = 1%nat;
  ao_mask : (count_tag MASK a ≤ 1)%nat;
  ao_named : (∃ e, e ∈ a ∧ is_named (tag e) = true) → count_tag MASK a = 1%nat;
  ao_len : N.of_nat (length a) <= MAX_ENTRIES;
}.

(** ** Bytes *)

Lemma from_to_le n x : from_le (to_le n x) = x mod 256 ^ N.of_nat n.
Proof.
  revert x. induction n as [|n IH]; intros x; cbn [to_le from_le].
  - by rewrite N.mod_1_r.
  - rewrite IH, Nat2N.inj_succ, N.pow_succ_r', N.Div0.mod_mul_r. lia.
Qed.

Lemma from_to_le_small n x : x < 256 ^ N.of_nat n → from_le (to_le n x) = x.
Proof. intros. rewrite from_to_le. by apply N.mod_small. Qed.

Lemma to_from_le v : is_bytes v → to_le (length v) (from_le v) = v.
Proof.
  induction 1 as [|b v Hb _ IH]; [done|]. cbn [length from_le to_le].
  replace ((b + 256 * from_le v) mod 256) with b
    by (rewrite N.mul_comm, N.Div0.mod_add; symmetry; by apply N.mod_small).
  replace ((b + 256 * from_le v) / 256) with (from_le v); [by rewrite IH|].
  rewrite N.mul_comm, N.div_add by done. rewrite N.div_small; [done|done].
Qed.

Lemma to_from_le_len n v : length v = n → is_bytes v → to_le n (from_le v) = v.
Proof. intros <-. apply to_from_le. Qed.

Lemma length_to_le n x : length (to_le n x) = n.
Proof. revert x. induction n; intros; simpl; auto. Qed.

Lemma to_le_bytes n x : is_bytes (to_le n x).
Proof.
  revert x. induction n as [|n IH]; intros x; constructor; [|apply IH].
  by apply N.mod_lt.
Qed.

Lemma length_encode_entry e : length (encode_entry e) = 8%nat.
Proof. unfold encode_entry. by rewrite !length_app, !length_to_le. Qed.

Lemma length_encode a : length (encode a) = (4 + 8 * length a)%nat.
Proof.
  unfold encode. rewrite length_app, length_to_le. f_equal.
  induction a as [|e a IH]; [done|]. rewrite bind_cons, length_app, length_encode_entry, IH. simpl. lia.
Qed.

Lemma decode_app c v :
  length c = 8%nat →
  decode_entries (c ++ v)
  = mkEntry (from_le (take 2 c)) (from_le (take 2 (drop 2 c))) (from_le (drop 4 c)) :: decode_entries v.
Proof. intros Hc. do 8 (destruct c as [|? c]; [done|]). by destruct c. Qed.

Lemma decode_encode_entry e v :
  tag e < 65536 → eperm e < 65536 → id e <= UNDEFINED_ID →
  decode_entries (encode_entry e ++ v) = e :: decode_entries v.
Proof.
  intros Ht Hp Hi. rewrite decode_app by apply length_encode_entry. f_equal.
  destruct e as [t p i]. unfold encode_entry, UNDEFINED_ID in *. simpl tag in *. simpl eperm in *. simpl id in *.
  f_equal; [apply (from_to_le_small 2 t)|apply (from_to_le_small 2 p)|apply (from_to_le_small 4 i)];
    simpl; lia.
Qed.

Lemma entry_ok_tag e : entry_ok e → tag e < 64.
Proof.
  intros [_ Ht _ _]. unfold USER_OBJ, USER, GROUP_OBJ, GROUP, MASK, OTHER in Ht.
  repeat (apply elem_of_cons in Ht as [->|Ht]; [lia|]). set_solver.
Qed.

Lemma decode_encode a : Forall entry_ok a → decode_entries (a ≫= encode_entry) = a.
Proof.
  induction 1 as [|e a He _ IH]; [done|]. rewrite bind_cons, decode_encode_entry, IH; [done| | |].
  - apply entry_ok_tag in He. lia.
  - destruct He. lia.
  - by destruct He.
Qed.

(** Whole chunks decode and encode back to themselves. *)
Lemma encode_decode n v :
  is_bytes v → length v = (8 * n)%nat →
  (decode_entries v ≫= encode_entry) = v ∧ length (decode_entries v) = n ∧
  Forall (λ e, id e <= UNDEFINED_ID) (decode_entries v).
Proof.
  revert v. induction n as [|n IH]; intros v Hv Hlen.
  - destruct v; [|simpl in Hlen; lia]. by split_and!.
  - rewrite <- (take_drop 8 v). assert (length (take 8 v) = 8%nat) as Hc by (rewrite length_take; lia).
    assert (is_bytes (take 8 v)) as Hb by (by apply Forall_take).
    destruct (IH (drop 8 v)) as (IH1 & IH2 & IH3); [by apply Forall_drop|rewrite length_drop; lia|].
    rewrite decode_app by done. rewrite bind_cons, IH1. cbn [length]. rewrite IH2.
    set (c := take 8 v) in *. clearbody c.
    do 8 (destruct c as [|? c]; [done|]). destruct c; [|done].
    unfold is_bytes in Hb. rewrite !Forall_cons in Hb. destruct Hb as (?&?&?&?&?&?&?&?&?).
    split_and!; [|done|].
    + unfold encode_entry. cbn [tag eperm id].
      rewrite !(to_from_le_len 2), (to_from_le_len 4) by (by repeat constructor). done.
    + constructor; [|done].
      unfold UNDEFINED_ID. cbn [id drop from_le]. lia.
Qed.

(** ** The validating loop *)

Definition one_if (b : bool) : N := if b then 1 else 0.
Definition tags : list N := [USER_OBJ; USER; GROUP_OBJ; GROUP; MASK; OTHER].

(** What the loop counts for an entry it accepts. *)
Definition tally (e : Entry) (s : Seen) : Seen :=
  mkSeen (Some (entry_key e))
    (user_obj s + one_if (tag e =? USER_OBJ)) (group_obj s + one_if (tag e =? GROUP_OBJ))
    (other s + one_if (tag e =? OTHER)) (mask s + one_if (tag e =? MASK))
    (named s + one_if (is_named (tag e))).

Lemma see_tag_ok e s :
  tag e ∈ tags → (is_named (tag e) = true → id e ≠ UNDEFINED_ID) →
  see_tag e s = Ok ((tally e s) <| prev := prev s |>).
Proof.
  destruct e as [t p i], s as [pr u g o m n]. cbn [tag id]. intros Ht Hn.
  unfold tags, USER_OBJ, USER, GROUP_OBJ, GROUP, MASK, OTHER in Ht.
  repeat (apply elem_of_cons in Ht as [->|Ht]); [..|set_solver];
    unfold see_tag, tally; cbn -[N.add]; rewrite ?N.add_0_r, ?N.add_1_r;
    try (destruct (N.eqb_spec i UNDEFINED_ID); [by destruct Hn|]); done.
Qed.

Lemma see_tag_inv e s s' :
  see_tag e s = Ok s' → tag e ∈ tags ∧ (is_named (tag e) = true → id e ≠ UNDEFINED_ID).
Proof.
  destruct e as [t p i]. cbn [tag id]. destruct (decide (t ∈ tags)) as [Ht|Ht].
  - intros Hs. split; [done|]. revert Hs.
    unfold tags, USER_OBJ, USER, GROUP_OBJ, GROUP, MASK, OTHER in Ht.
    repeat (apply elem_of_cons in Ht as [->|Ht]); [..|set_solver];
      unfold see_tag; cbn; try done; by destruct (N.eqb_spec i UNDEFINED_ID).
  - unfold see_tag, is_named, tags in *. cbn [tag].
    by rewrite !(proj2 (N.eqb_neq _ _)) by set_solver.
Qed.

Lemma key_ge_spec p q : key_ge p q = false ↔ key_lt p q.
Proof.
  unfold key_ge, key_lt. destruct p as [a b], q as [c d]. simpl.
  rewrite orb_false_iff, andb_false_iff, N.ltb_ge, N.eqb_neq, N.leb_gt. lia.
Qed.

Lemma ldiff_7 p : N.ldiff p 7 = 0 ↔ p < 8.
Proof.
  change 7 with (N.ones 3). rewrite N.ldiff_ones_r. change 8 with (2 ^ 3).
  rewrite N.shiftr_div_pow2, N.shiftl_mul_pow2, N.eq_mul_0, N.div_small_iff by done. naive_solver.
Qed.

Lemma see_entry_spec e s s' :
  id e <= UNDEFINED_ID →
  see_entry e s = Ok s' ↔
  entry_ok e ∧ (∀ p, prev s = Some p → key_lt p (entry_key e)) ∧ s' = tally e s.
Proof.
  intros Hi. unfold see_entry. destruct (negb _) eqn:Hp.
  { split; [done|]. intros ([Hlt _ _ _] & _). apply negb_true_iff, N.eqb_neq in Hp. by rewrite ldiff_7 in Hp. }
  apply negb_false_iff, N.eqb_eq, ldiff_7 in Hp.
  destruct (see_tag e s) as [s1| |] eqn:Hs; simpl.
  2,3: split; [done|]; intros ([_ Ht Hn _] & _); by rewrite see_tag_ok in Hs.
  destruct (see_tag_inv e s s1 Hs) as [Ht Hn]. rewrite see_tag_ok in Hs by done.
  injection Hs as <-. simpl.
  assert (match prev s with Some p => key_ge p (entry_key e) | None => false end = false ↔
          ∀ p, prev s = Some p → key_lt p (entry_key e)) as Hk.
  { destruct (prev s) as [p|]; [rewrite key_ge_spec|]; naive_solver. }
  destruct (match prev s with Some _ => _ | None => _ end) eqn:Hg.
  - split; [done|]. intros (_ & Hlt & _). by apply Hk in Hlt.
  - split; [intros [= <-]|by intros (_ & _ & ->)]. split_and!; [by split|by apply Hk|done].
Qed.

Lemma key_lt_trans p q r : key_lt p q → key_lt q r → key_lt p r.
Proof. unfold key_lt. lia. Qed.

Lemma see_all_spec l s s' :
  Forall (λ e, id e <= UNDEFINED_ID) l →
  see_all l s = Ok s' ↔
  Forall entry_ok l ∧ StronglySorted (λ x y, key_lt (entry_key x) (entry_key y)) l ∧
  (∀ p, prev s = Some p → Forall (λ e, key_lt p (entry_key e)) l) ∧ s' = foldl (flip tally) s l.
Proof.
  intros Hl. revert s. induction Hl as [|e l He _ IH]; intros s; cbn [see_all foldl].
  { split; [intros [= <-]|by intros (_ & _ & _ & ->)]. repeat split; constructor. }
  rewrite Forall_cons. split.
  - destruct (see_entry e s) as [s1| |] eqn:Hs; [|done..]. simpl.
    apply see_entry_spec in Hs as (Ho & Hp & ->); [|done].
    intros (Hok & Hs & Hn & ->)%IH. specialize (Hn _ eq_refl). split_and!; [done..| | |done].
    + by constructor.
    + intros p Hpp. constructor; [by apply Hp|]. eapply Forall_impl; [exact Hn|].
      intros x. apply key_lt_trans. by apply Hp.
  - intros ([Ho Hok] & [Hs Hlt]%StronglySorted_inv & Hp & ->).
    assert (see_entry e s = Ok (tally e s)) as ->.
    { apply see_entry_spec; [done|]. split_and!; [done| |done]. intros p Hpp.
      apply Hp in Hpp. by apply Forall_cons in Hpp as [? _]. }
    simpl. apply IH. split_and!; [done..| |done]. by intros p [= <-].
Qed.

Lemma count_tag_cons t e l :
  N.of_nat (count_tag t (e :: l)) = one_if (tag e =? t) + N.of_nat (count_tag t l).
Proof.
  unfold count_tag. rewrite filter_cons. destruct (N.eqb_spec (tag e) t).
  - rewrite decide_True by done. simpl length. unfold one_if. lia.
  - by rewrite decide_False by done.
Qed.

Lemma tally_all l s :
  let s' := foldl (flip tally) s l in
  user_obj s' = user_obj s + N.of_nat (count_tag USER_OBJ l) ∧
  group_obj s' = group_obj s + N.of_nat (count_tag GROUP_OBJ l) ∧
  other s' = other s + N.of_nat (count_tag OTHER l) ∧
  mask s' = mask s + N.of_nat (count_tag MASK l) ∧
  (0 < named s' ↔ 0 < named s ∨ ∃ e, e ∈ l ∧ is_named (tag e) = true).
Proof.
  revert s. induction l as [|e l IH]; intros s.
  - unfold count_tag. simpl. rewrite !N.add_0_r. split_and!; [done..|]. set_solver.
  - cbn [foldl flip]. destruct (IH (tally e s)) as (-> & -> & -> & -> & ->).
    cbn [tally user_obj group_obj other mask named]. rewrite !count_tag_cons.
    split_and!; [lia..|]. setoid_rewrite elem_of_cons. unfold one_if.
    destruct (is_named (tag e)) eqn:Hn; split.
    + intros _. right. exists e. by split; [left|].
    + intros _. left. lia.
    + intros [?|(x & ? & ?)]; [left; lia|right; eauto].
    + intros [?|(x & [->|?] & ?)]; [left; lia|congruence|right; eauto].
Qed.

Lemma see_all_final l :
  Forall (λ e, id e <= UNDEFINED_ID) l → N.of_nat (length l) <= MAX_ENTRIES →
  (∃ s, see_all l (mkSeen None 0 0 0 0 0) = Ok s ∧
     negb ((user_obj s =? 1) && (group_obj s =? 1) && (other s =? 1))
       || (1 <? mask s) || ((0 <? named s) && (mask s =? 0)) = false) ↔ acl_ok l.
Proof.
  intros Hl Hlen. setoid_rewrite see_all_spec; [|done].
  destruct (tally_all l (mkSeen None 0 0 0 0 0)) as (Hu & Hg & Ho & Hm & Hn). cbn in Hu, Hg, Ho, Hm, Hn.
  set (s' := foldl (flip tally) (mkSeen None 0 0 0 0 0) l) in *.
  assert (negb ((user_obj s' =? 1) && (group_obj s' =? 1) && (other s' =? 1))
       || (1 <? mask s') || ((0 <? named s') && (mask s' =? 0)) = false ↔
     user_obj s' = 1 ∧ group_obj s' = 1 ∧ other s' = 1 ∧ mask s' <= 1 ∧ (0 < named s' → mask s' <> 0)) as Hb.
  { rewrite !orb_false_iff, andb_false_iff, negb_false_iff, !andb_true_iff, !N.eqb_eq, N.eqb_neq, !N.ltb_ge.
    split; [|lia]. intros [[[[? ?] ?] ?] [?|?]]; split_and!; try done; lia. }
  split.
  - intros (s & (He & Hs & _ & ->) & H). fold s' in H. apply Hb in H as (? & ? & ? & ? & Hmn).
    split; try done; try lia. intros Hex. assert (0 < named s') by (apply Hn; by right). lia.
  - intros [He Hs Hu' Hg' Ho' Hm1 Hmn _]. exists s'. split; [by split_and!|]. apply Hb.
    split_and!; [lia..|]. intros [?|Hex]%Hn; [lia|]. apply Hmn in Hex. lia.
Qed.

(** C31. The parser accepts exactly the encodings of well-formed ACLs, and what
    it returns is the ACL that was encoded. *)
Theorem parse_spec v a : is_bytes v → parse v = Ok a ↔ v = encode a ∧ acl_ok a.
Proof.
  intros Hv. unfold parse. set (len := N.of_nat (length v)).
  split.
  - destruct ((len <? 4) || _) eqn:Hlen; [done|]. apply orb_false_iff in Hlen as [H4%N.ltb_ge H8].
    apply negb_false_iff, N.eqb_eq in H8. destruct (negb _) eqn:Hver; [done|].
    apply negb_false_iff, N.eqb_eq in Hver. destruct (N.ltb_spec MAX_ENTRIES ((len - 4) / 8)); [done|].
    destruct (encode_decode (N.to_nat ((len - 4) / 8)) (drop 4 v)) as (Hed & Hn & Hid);
      [by apply Forall_drop|rewrite length_drop; pose proof (N.div_mod (len - 4) 8 ltac:(done)); lia|].
    destruct (see_all _ _) as [s| |] eqn:Hs; [|done..]. simpl. destruct (_ || _) eqn:Hb; [done|].
    intros [= <-]. split; [|apply see_all_final; [done|lia|eauto]].
    unfold encode. rewrite Hed, <- Hver, to_from_le_len, take_drop; [done| |by apply Forall_take].
    rewrite length_take. lia.
  - intros [-> Ha]. pose proof (length_encode a) as Hl.
    assert (len = 4 + 8 * N.of_nat (length a)) as Hlen by (unfold len; rewrite Hl; lia).
    assert (len - 4 = N.of_nat (length a) * 8) as -> by lia.
    rewrite N.Div0.mod_mul, N.div_mul by done. destruct (N.ltb_spec len 4); [lia|].
    destruct (N.ltb_spec MAX_ENTRIES (N.of_nat (length a))); [destruct Ha; lia|].
    change (drop 4 (encode a)) with (a ≫= encode_entry).
    change (from_le (take 4 (encode a))) with VERSION.
    rewrite decode_encode by apply Ha.
    assert (Forall (λ e, id e <= UNDEFINED_ID) a) as Hid
      by (eapply Forall_impl; [apply Ha|]; by intros ? []).
    apply see_all_final in Ha as (s & -> & Hb); [|done..]. simpl. by rewrite Hb.
Qed.

(** ** Permissions *)

Lemma perm_set_perm a t p t' :
  perm (set_perm a t p) t' = if decide (t' = t) then (λ _, N.land p 7) <$> perm a t else perm a t'.
Proof.
  unfold perm. induction a as [|e a IH]; cbn [set_perm List.find]; [by case_decide|].
  destruct (N.eqb_spec (tag e) t) as [Ht|Ht]; cbn [List.find set_field tag];
    destruct (N.eqb_spec (tag e) t') as [Ht'|Ht']; case_decide; try congruence; done.
Qed.

(** Two ACLs that differ in permissions only. *)
Definition same_shape : relation Acl := Forall2 (λ x y, tag x = tag y ∧ id x = id y).

Lemma same_shape_refl a : same_shape a a.
Proof. induction a; by constructor. Qed.

Lemma set_perm_shape a t p : same_shape a (set_perm a t p).
Proof.
  induction a as [|e a IH]; cbn [set_perm]; [constructor|]. destruct (_ =? _).
  - constructor; [done|]. apply same_shape_refl.
  - by constructor.
Qed.

Lemma set_perm_small a t p :
  Forall (λ e, eperm e < 8) a → Forall (λ e, eperm e < 8) (set_perm a t p).
Proof.
  induction 1 as [|e a He Ha IH]; cbn [set_perm]; [constructor|]. destruct (_ =? _); constructor; try done.
  cbn. change 7 with (N.ones 3). rewrite N.land_ones. by apply N.mod_lt.
Qed.

Lemma shape_count t a b : same_shape a b → count_tag t a = count_tag t b.
Proof.
  unfold count_tag. induction 1 as [|x y a b [Ht _] _ IH]; [done|].
  rewrite !filter_cons, Ht. case_decide; simpl; by rewrite ?IH.
Qed.

Lemma shape_sorted a b :
  same_shape a b → StronglySorted (λ x y, key_lt (entry_key x) (entry_key y)) a →
  StronglySorted (λ x y, key_lt (entry_key x) (entry_key y)) b.
Proof.
  assert (∀ x y, tag x = tag y → id x = id y → entry_key x = entry_key y) as Hk
    by (intros x y Ht Hi; unfold entry_key; by rewrite Ht, Hi).
  induction 1 as [|x y a b [Ht Hi] Hab IH]; [constructor|]. intros [Hs Hx]%StronglySorted_inv.
  constructor; [by apply IH|]. rewrite <- (Hk x y Ht Hi). clear -Hab Hx Hk.
  induction Hab as [|z w a b [??] _ IH]; [constructor|]. apply Forall_cons in Hx as [Hz Hx].
  constructor; [by rewrite <- (Hk z w)|by apply IH].
Qed.

Lemma shape_entries a b :
  same_shape a b → Forall (λ e, eperm e < 8) b → Forall entry_ok a → Forall entry_ok b.
Proof.
  induction 1 as [|x y a b [Ht Hi] _ IH]; [done|]. intros [? ?]%Forall_cons [[? ? ? ?] ?]%Forall_cons.
  constructor; [|by apply IH]. rewrite Ht, Hi in *. by split.
Qed.

Lemma shape_ok a b :
  same_shape a b → Forall (λ e, eperm e < 8) b → acl_ok a → acl_ok b.
Proof.
  intros Hab Hp [He Hs Hu Hg Ho Hm Hn Hl]. split.
  - by eapply shape_entries.
  - by eapply shape_sorted.
  - by rewrite <- (shape_count _ a).
  - by rewrite <- (shape_count _ a).
  - by rewrite <- (shape_count _ a).
  - by rewrite <- (shape_count _ a).
  - intros (y & Hy & Hny). rewrite <- (shape_count _ a) by done. apply Hn.
    apply list_elem_of_lookup in Hy as [i Hi].
    destruct (Forall2_lookup_r _ _ _ _ _ Hab Hi) as (x & Hx & Ht & _). exists x. split.
    + by eapply list_elem_of_lookup_2.
    + by rewrite Ht.
  - by rewrite <- (Forall2_length _ _ _ Hab).
Qed.

Lemma set_perm_ok a t p : acl_ok a → acl_ok (set_perm a t p).
Proof.
  intros Ha. eapply shape_ok; [apply set_perm_shape| |done]. apply set_perm_small.
  eapply Forall_impl; [apply Ha|]. by intros ? [].
Qed.

Lemma group_tag_set_perm a t p : group_tag (set_perm a t p) = group_tag a.
Proof.
  unfold group_tag. rewrite perm_set_perm. case_decide as Hd; [|done]. subst.
  by destruct (perm a MASK).
Qed.

Lemma perm_Some a t : count_tag t a ≠ 0%nat → is_Some (perm a t).
Proof.
  unfold perm. intros Hc. apply fmap_is_Some. destruct (List.find _ a) as [e|] eqn:Hf; [by eexists|].
  destruct Hc. unfold count_tag. rewrite filter_none; [done|]. intros x Hx.
  rewrite find_None_Forall, Forall_forall in Hf. specialize (Hf x Hx). by apply N.eqb_neq.
Qed.

Lemma perm_small a t p : acl_ok a → perm a t = Some p → p < 8.
Proof.
  intros Ha. unfold perm. intros (e & Hf & ->)%fmap_Some. apply List.find_some in Hf as [Hin _].
  apply list_elem_of_In in Hin. pose proof (ao_entries a Ha) as He. rewrite Forall_forall in He.
  by destruct (He e Hin).
Qed.

(** The three entries the mode mirrors are there. *)
Lemma classes_present a :
  acl_ok a → ∃ u g o, perm a USER_OBJ = Some u ∧ perm a (group_tag a) = Some g ∧ perm a OTHER = Some o
    ∧ u < 8 ∧ g < 8 ∧ o < 8.
Proof.
  intros Ha. destruct (perm_Some a USER_OBJ) as [u Hu]; [by rewrite ao_user|].
  destruct (perm_Some a OTHER) as [o Ho]; [by rewrite ao_other|].
  assert (is_Some (perm a (group_tag a))) as [g Hg].
  { unfold group_tag. destruct (perm a MASK) eqn:Hm; [by eexists|]. apply perm_Some. by rewrite ao_group. }
  exists u, g, o. split_and!; [done..| | |]; by eapply perm_small.
Qed.

(** ** The mode, bit by bit *)

Lemma testbit_small p n : p < 8 → 3 <= n → N.testbit p n = false.
Proof.
  intros Hp Hn. destruct (N.eq_dec p 0) as [->|]; [apply N.bits_0|].
  apply N.bits_above_log2. assert (N.log2 p < 3) by (apply N.log2_lt_pow2; [lia|done]). lia.
Qed.

Lemma shift_bit p k n :
  N.testbit (N.shiftl p k) n = (k <=? n) && N.testbit p (n - k).
Proof.
  destruct (N.leb_spec k n).
  - by rewrite N.shiftl_spec_high by lia.
  - by rewrite N.shiftl_spec_low by lia.
Qed.

Lemma testbit_511 n : N.testbit 511 n = (n <? 9).
Proof.
  change 511 with (N.ones 9).
  destruct (N.ltb_spec n 9); [by apply N.ones_spec_low|by apply N.ones_spec_high].
Qed.

(** Bits 6-8 are the owner's, 3-5 the group class's, 0-2 the others'; the rest is kept. *)
Lemma apply_to_mode_bit a m u g o n :
  perm a USER_OBJ = Some u → perm a (group_tag a) = Some g → perm a OTHER = Some o →
  u < 8 → g < 8 → o < 8 →
  N.testbit (apply_to_mode a m) n =
  if n <? 3 then N.testbit o n
  else if n <? 6 then N.testbit g (n - 3)
  else if n <? 9 then N.testbit u (n - 6)
  else N.testbit m n.
Proof.
  intros Hu Hg Ho Lu Lg Lo. unfold apply_to_mode, special_bits. rewrite Hu, Hg, Ho. simpl default.
  rewrite !N.lor_spec, N.ldiff_spec, !shift_bit, testbit_511.
  destruct (N.ltb_spec n 3), (N.ltb_spec n 6), (N.ltb_spec n 9), (N.leb_spec 6 n), (N.leb_spec 3 n);
    try lia; rewrite ?(testbit_small u), ?(testbit_small g), ?(testbit_small o) by lia;
    simpl; by rewrite ?andb_false_r, ?andb_true_r, ?orb_false_r.
Qed.

Lemma land_7_bit p n : N.testbit (N.land p 7) n = N.testbit p n && (n <? 3).
Proof.
  rewrite N.land_spec. f_equal. change 7 with (N.ones 3).
  destruct (N.ltb_spec n 3); [by apply N.ones_spec_low|by apply N.ones_spec_high].
Qed.

Lemma land_7_small p : N.land p 7 < 8.
Proof. change 7 with (N.ones 3). rewrite N.land_ones. by apply N.mod_lt. Qed.

Lemma group_tag_cases a : group_tag a = MASK ∨ group_tag a = GROUP_OBJ.
Proof. unfold group_tag. destruct (perm a MASK); auto. Qed.

(** Writing the three classes in turn. *)
Definition set_classes (a : Acl) (u g o : N) : Acl :=
  set_perm (set_perm (set_perm a USER_OBJ u) (group_tag a) g) OTHER o.

Lemma set_classes_spec a u g o :
  acl_ok a →
  let b := set_classes a u g o in
  acl_ok b ∧ group_tag b = group_tag a ∧
  perm b USER_OBJ = Some (N.land u 7) ∧ perm b (group_tag b) = Some (N.land g 7) ∧
  perm b OTHER = Some (N.land o 7) ∧
  ∀ t, t ≠ USER_OBJ → t ≠ group_tag a → t ≠ OTHER → perm b t = perm a t.
Proof.
  intros Ha b. destruct (classes_present a Ha) as (pu & pg & po & Hu & Hg & Ho & _).
  assert (group_tag b = group_tag a) as Hgt by (unfold b, set_classes; by rewrite !group_tag_set_perm).
  unfold b, set_classes in *. split_and!.
  - by repeat apply set_perm_ok.
  - done.
  - rewrite !perm_set_perm, Hu. destruct (group_tag_cases a) as [-> | ->]; done.
  - rewrite Hgt, !perm_set_perm. destruct (group_tag_cases a) as [E|E]; rewrite E in *; by rewrite Hg.
  - rewrite !perm_set_perm. destruct (group_tag_cases a) as [-> | ->]; simpl; by rewrite Ho.
  - intros t H1 H2 H3. rewrite !perm_set_perm. by repeat rewrite decide_False by done.
Qed.

Lemma chmod_classes a m : chmod a m = set_classes a (N.shiftr m 6) (N.shiftr m 3) m.
Proof. unfold chmod, set_classes. by rewrite group_tag_set_perm. Qed.

(** C32. After [chmod] the ACL is still well formed and says exactly what the new
    mode says; named entries are as before. *)
Theorem chmod_in_sync a m :
  acl_ok a →
  let mode := N.land m 4095 in
  acl_ok (chmod a m) ∧ apply_to_mode (chmod a m) mode = mode ∧
  perm (chmod a m) USER = perm a USER ∧ perm (chmod a m) GROUP = perm a GROUP.
Proof.
  intros Ha mode. rewrite chmod_classes.
  destruct (set_classes_spec a (N.shiftr m 6) (N.shiftr m 3) m Ha) as (Hok & Hg & Hu & Hgp & Ho & Hrest).
  split_and!; [done| | |].
  - apply N.bits_inj. intros n. erewrite apply_to_mode_bit by eauto using land_7_small.
    rewrite !land_7_bit, !N.shiftr_spec'. unfold mode. rewrite N.land_spec.
    assert (N.testbit 4095 n = (n <? 12)) as ->.
    { change 4095 with (N.ones 12).
      destruct (N.ltb_spec n 12); [by apply N.ones_spec_low|by apply N.ones_spec_high]. }
    destruct (N.ltb_spec n 3), (N.ltb_spec n 6), (N.ltb_spec n 9), (N.ltb_spec n 12),
      (N.ltb_spec (n - 3) 3), (N.ltb_spec (n - 6) 3); try lia; rewrite ?N.sub_add by lia; done.
  - apply Hrest; [done| |done]. destruct (group_tag_cases a) as [-> | ->]; done.
  - apply Hrest; [done| |done]. destruct (group_tag_cases a) as [-> | ->]; done.
Qed.

Lemma create_masq_classes a m u g o :
  perm a USER_OBJ = Some u → perm a (group_tag a) = Some g → perm a OTHER = Some o →
  fst (create_masq a m)
  = set_classes a (N.land u (N.shiftr m 6)) (N.land g (N.shiftr m 3)) (N.land o m).
Proof.
  intros Hu Hg Ho. unfold create_masq, set_classes. cbn [foldl masq_step fst].
  rewrite !perm_set_perm, Hu, N.shiftr_0_r.
  destruct (group_tag_cases a) as [E|E]; rewrite E in *; simpl; by rewrite Hg, Ho.
Qed.

(** A node created under a default ACL gets a well-formed access ACL with the
    default's named entries, and a mode the ACL agrees with: of the permission
    bits asked for, exactly those the default ACL allows; the setuid, setgid and
    sticky bits are as asked. *)
Theorem create_masq_spec a m a' m' :
  acl_ok a → create_masq a m = (a', m') →
  acl_ok a' ∧ apply_to_mode a' m' = m' ∧
  m' = N.lor (special_bits m) (N.land m (apply_to_mode a 0)) ∧
  perm a' USER = perm a USER ∧ perm a' GROUP = perm a GROUP.
Proof.
  intros Ha Hc. destruct (classes_present a Ha) as (u & g & o & Hu & Hg & Ho & Lu & Lg & Lo).
  assert (m' = apply_to_mode a' m) as -> by (unfold create_masq in Hc; by injection Hc as <- <-).
  pose proof (create_masq_classes a m u g o Hu Hg Ho) as Ha'. rewrite Hc in Ha'. cbn [fst] in Ha'. subst a'.
  destruct (set_classes_spec a (N.land u (N.shiftr m 6)) (N.land g (N.shiftr m 3)) (N.land o m) Ha)
    as (Hok & Hgt & Hu' & Hg' & Ho' & Hrest).
  set (b := set_classes _ _ _ _) in *.
  split_and!; [done| | | |].
  - apply N.bits_inj. intros n. rewrite !(apply_to_mode_bit b _ _ _ _ n Hu' Hg' Ho') by apply land_7_small.
    by repeat case_match.
  - apply N.bits_inj. intros n. rewrite (apply_to_mode_bit b _ _ _ _ n Hu' Hg' Ho') by apply land_7_small.
    rewrite N.lor_spec, !land_7_bit, !N.land_spec, !N.shiftr_spec'.
    rewrite (apply_to_mode_bit a _ _ _ _ n Hu Hg Ho) by done.
    unfold special_bits. rewrite N.ldiff_spec, testbit_511, N.bits_0.
    destruct (N.ltb_spec n 3), (N.ltb_spec n 6), (N.ltb_spec n 9),
      (N.ltb_spec (n - 3) 3), (N.ltb_spec (n - 6) 3); try lia; rewrite ?N.sub_add by lia; simpl;
      rewrite ?andb_true_r, ?andb_false_r, ?orb_false_r; [..|done]; simpl; apply andb_comm.
  - apply Hrest; [done| |done]. destruct (group_tag_cases a) as [-> | ->]; done.
  - apply Hrest; [done| |done]. destruct (group_tag_cases a) as [-> | ->]; done.
Qed.

(** ** Witnesses *)

(** [u::rwx, u:1000:r-x, g::r-x, m::rwx, o::---]. *)
Definition demo_acl : Acl :=
  [mkEntry USER_OBJ 7 UNDEFINED_ID; mkEntry USER 5 1000; mkEntry GROUP_OBJ 5 UNDEFINED_ID;
   mkEntry MASK 7 UNDEFINED_ID; mkEntry OTHER 0 UNDEFINED_ID].

Lemma encode_bytes a : is_bytes (encode a).
Proof.
  apply Forall_app. split; [apply to_le_bytes|].
  induction a as [|e a IH]; [constructor|]. rewrite bind_cons. unfold encode_entry at 1.
  rewrite !Forall_app. split_and!; [apply to_le_bytes..|exact IH].
Qed.

Lemma demo_acl_ok : acl_ok demo_acl.
Proof.
  assert (∃ s, see_all demo_acl (mkSeen None 0 0 0 0 0) = Ok s ∧
     negb ((user_obj s =? 1) && (group_obj s =? 1) && (other s =? 1))
       || (1 <? mask s) || ((0 <? named s) && (mask s =? 0)) = false) as H
    by (exists (mkSeen (Some (OTHER, 0)) 1 1 1 1 1); by split).
  apply see_all_final in H; [done| |by apply N.leb_le].
  repeat (apply Forall_cons; split; [by apply N.leb_le|]). constructor.
Qed.

Lemma parse_spec_witness : is_bytes (encode demo_acl) ∧ parse (encode demo_acl) = Ok demo_acl.
Proof.
  split; [apply encode_bytes|].
  apply (parse_spec (encode demo_acl) demo_acl (encode_bytes demo_acl)). split; [done|apply demo_acl_ok].
Defined.

Lemma chmod_in_sync_witness :
  acl_ok demo_acl ∧ apply_to_mode (chmod demo_acl 416) 416 = 416.
Proof.
  split; [apply demo_acl_ok|].
  destruct (chmod_in_sync demo_acl 416 demo_acl_ok) as (_ & Hm & _). exact Hm.
Defined.

Lemma create_masq_spec_witness :
  ∃ a' m', create_masq demo_acl 438 = (a', m') ∧ acl_ok a' ∧ m' = 432.
Proof.
  destruct (create_masq demo_acl 438) as [a' m'] eqn:Hc. exists a', m'. split; [done|].
  destruct (create_masq_spec demo_acl 438 a' m' demo_acl_ok Hc) as (Hok & _ & Hm & _).
  split; [done|]. rewrite Hm. by vm_compute.
Defined.

End Acl.
