(* ===== verification/Ec.v ===== *)
(** * Erasure-coded extents ([ec.rs])

    The scheme and layout types, the split of an extent into shards, and the
    rebuild of lost ones.  The Reed-Solomon codec is a library: its two entry
    points are parameters, and what the code relies on - any [data] of the shards
    determine the others - is the hypothesis [codec_law].  Under it an extent
    reads back byte for byte after the loss of any [parity] shards. *)

From S2P Require Import Prelude MetaError.

Module Ec.
Import MetaError.

Open Scope N_scope.

(** ** Data *)

Definition MAX_DATA_SHARDS : N := 32.
Definition MAX_PARITY_SHARDS : N := 8.

Record EcScheme := mkEcScheme { sc_data : N; sc_parity : N }.

Definition new (data parity : N) : option EcScheme :=
  if negb ((1 <=? data) && (data <=? MAX_DATA_SHARDS))
     || negb ((1 <=? parity) && (parity <=? MAX_PARITY_SHARDS))
  then None else Some (mkEcScheme data parity).

Definition sc_shards (self : EcScheme) : N := sc_data self + sc_parity self.

(** [len.div_ceil(d)]. *)
Definition div_ceil (len d : N) : N := (len + d - 1) / d.

Definition sc_shard_len (self : EcScheme) (len : N) : N :=
  let n := N.max (div_ceil len (sc_data self)) 2 in u64_add n (n mod 2).

Abbreviation bytes := (list N).

Record EcLayout := mkEcLayout {
  data : N;
  parity : N;
  shard_len : N;
  shard_checksums : list bytes;
}.
#[export] Instance EcLayout_eq_dec : EqDecision EcLayout.
Proof. solve_decision. Defined.

Record EcShards := mkEcShards { layout : EcLayout; shards : list bytes }.

Definition scheme (self : EcLayout) : res MetaError EcScheme :=
  ok_or (new (data self) (parity self)) Invalid.

(** ** Layout checks *)

Definition check (self : EcLayout) (len replicas : N) : res MetaError () :=
  sc ← scheme self;
  if negb (replicas =? sc_shards sc)
     || negb (N.of_nat (length (shard_checksums self)) =? sc_shards sc)
  then Err Invalid
  else if negb (shard_len self =? sc_shard_len sc len) then Err Invalid
  else Ok ().

(** ** Coding *)

(** Shard [i] of [bs]: its slice, zero-padded. *)
Definition shard_at (len : N) (bs : bytes) (i : nat) : bytes :=
  let total := N.of_nat (length bs) in
  let start := N.min (N.of_nat i * len) total in
  let stop := N.min (N.of_nat (S i) * len) total in
  resize (N.to_nat len) 0 (take (N.to_nat (stop - start)) (drop (N.to_nat start) bs)).

Definition split_shards (self : EcScheme) (bs : bytes) : list bytes :=
  shard_at (sc_shard_len self (N.of_nat (length bs))) bs <$> seq 0 (N.to_nat (sc_data self)).

Section codec.
(** [checksum::sha256]. *)
Variable sha256 : bytes → bytes.
(** [reed_solomon_simd::encode] and [decode]; an error is [None]. *)
Variable rs_encode : N → N → list bytes → option (list bytes).
Variable rs_decode : N → N → list (nat * bytes) → list (nat * bytes) → option (list (nat * bytes)).

Definition parity_of (self : EcScheme) (ds : list bytes) : res MetaError (list bytes) :=
  ok_or (rs_encode (sc_data self) (sc_parity self) ds) Invalid.

Definition encode (self : EcScheme) (bs : bytes) : res MetaError EcShards :=
  let len := sc_shard_len self (N.of_nat (length bs)) in
  let ds := split_shards self bs in
  ps ← parity_of self ds;
  let all := ds ++ ps in
  Ok (mkEcShards (mkEcLayout (sc_data self) (sc_parity self) len (sha256 <$> all)) all).

Definition verify (self : EcLayout) (i : nat) (shard : bytes) : bool :=
  (N.of_nat (length shard) =? shard_len self)
  && match shard_checksums self !! i with
     | Some c => bool_decide (sha256 shard = c)
     | None => false
     end.

(** The present shards of a list with their positions. *)
Definition present (l : list (option bytes)) : list (nat * bytes) :=
  omap (λ x : nat * option bytes, pair (x.1) <$> x.2) (zip (seq 0 (length l)) l).

(** [for (i, s) in restored { shards[i] = Some(s) }]: a position outside the
    vector panics. *)
Fixpoint restore (l : list (option bytes)) (r : list (nat * bytes)) : res MetaError (list (option bytes)) :=
  match r with
  | [] => Ok l
  | (i, s) :: r => if (i <? length l)%nat then restore (<[i := Some s]> l) r else Panic
  end.

Definition rebuild_data (self : EcLayout) (ss : list (option bytes)) : res MetaError (list bytes) :=
  sc ← scheme self;
  if negb (N.of_nat (length ss) =? sc_shards sc) then Err Invalid
  else
    let have := N.of_nat (length (base.filter is_Some ss)) in
    if have <? data self then Err Invalid
    else
      let k := N.to_nat (data self) in
      ss ← (if existsb (λ s, bool_decide (s = None)) (take k ss)
            then
              restored ← ok_or (rs_decode (data self) (parity self)
                                  (present (take k ss)) (present (drop k ss))) Invalid;
              restore ss restored
            else Ok ss);
      ok_or (mapM id (take k ss)) Invalid.

Definition rebuild (self : EcLayout) (ss : list (option bytes)) : res MetaError (list bytes) :=
  sc ← scheme self;
  let ps := drop (N.to_nat (data self)) ss in
  ds ← rebuild_data self ss;
  ps ← (if existsb (λ s, bool_decide (s = None)) ps then parity_of sc ds
        else Ok (omap id ps));
  Ok (ds ++ ps).

(** [&data_shards[..self.data]] panics on a shorter slice. *)
Definition join (self : EcLayout) (ds : list bytes) (len : N) : res MetaError bytes :=
  if (length ds <? N.to_nat (data self))%nat then Panic
  else Ok (take (N.to_nat len) (concat (take (N.to_nat (data self)) ds))).
(** What the code relies on of the codec, for a scheme of [k] data and [m] parity
    shards.  Shards of one even, positive length can be encoded; and from any [k]
    shards, named by their positions, decoding returns exactly the data shards
    that were not given. *)
Record codec_law (k m : N) : Prop := {
  law_encode ds n : N.of_nat (length ds) = k → (2 ≤ n)%nat → Nat.Even n → Forall (λ d, length d = n) ds →
    ∃ ps, rs_encode k m ds = Some ps ∧ N.of_nat (length ps) = m ∧ Forall (λ d, length d = n) ps;
  law_decode ds ps os rs : rs_encode k m ds = Some ps →
    NoDup os.*1 → NoDup rs.*1 →
    (∀ i s, (i, s) ∈ os → ds !! i = Some s) → (∀ i s, (i, s) ∈ rs → ps !! i = Some s) →
    k <= N.of_nat (length os + length rs) →
    ∃ r, rs_decode k m os rs = Some r ∧ ∀ i s, (i, s) ∈ r ↔ ds !! i = Some s ∧ i ∉ os.*1;
}.
End codec.

(** ** Splitting and joining *)

Lemma shard_at_resize len bs i :
  shard_at len bs i = resize (N.to_nat len) 0 (drop (i * N.to_nat len) bs).
Proof.
  unfold shard_at. cbv zeta. rewrite !N2Nat.inj_sub, !N2Nat.inj_min, !N2Nat.inj_mul, !Nat2N.id.
  set (n := N.to_nat len). set (t := length bs).
  replace (_ - _)%nat with (n `min` (t - i * n))%nat by lia.
  destruct (decide (i * n ≤ t)%nat) as [Hi|Hi].
  - rewrite (Nat.min_l (i * n)) by lia. destruct (decide (n ≤ t - i * n)%nat) as [Hn|Hn].
    + rewrite Nat.min_l by lia. by rewrite resize_take_eq.
    + rewrite Nat.min_r by lia. f_equal. apply take_ge. rewrite length_drop. lia.
  - rewrite Nat.min_r by lia. rewrite !drop_ge by lia. by rewrite take_nil.
Qed.

Lemma concat_shards len bs j n :
  concat (shard_at len bs <$> seq j n) = resize (n * N.to_nat len) 0 (drop (j * N.to_nat len) bs).
Proof.
  revert j. induction n as [|n IH]; intros j; [by rewrite resize_0|].
  csimpl. rewrite IH, shard_at_resize, resize_add, drop_drop. do 3 f_equal. simpl. lia.
Qed.

Lemma sc_shard_len_spec sc n :
  0 < sc_data sc → n < 2 ^ 63 →
  (2 ≤ N.to_nat (sc_shard_len sc n))%nat ∧ Nat.Even (N.to_nat (sc_shard_len sc n)) ∧
  (N.to_nat n ≤ N.to_nat (sc_data sc) * N.to_nat (sc_shard_len sc n))%nat.
Proof.
  intros Hd Hn. unfold sc_shard_len, div_ceil. set (q := (n + sc_data sc - 1) / sc_data sc).
  assert (n <= sc_data sc * q) as Hq.
  { pose proof (N.div_mod (n + sc_data sc - 1) (sc_data sc) ltac:(lia)) as Hdm. fold q in Hdm.
    pose proof (N.mod_lt (n + sc_data sc - 1) (sc_data sc) ltac:(lia)). lia. }
  assert (q < n + 1) as Hqn by (apply N.Div0.div_lt_upper_bound; nia).
  remember (N.max q 2) as x eqn:Hx. pose proof (N.mod_lt x 2 ltac:(lia)). pose proof (N.div_mod x 2 ltac:(lia)).
  change (2 ^ 63) with 9223372036854775808 in Hn. rewrite u64_add_small by (unfold u64_size; lia).
  clearbody q. generalize dependent (x mod 2). intros y. generalize (x / 2). intros z Hy Hz.
  split; [lia|]. split; [|nia]. exists (N.to_nat (z + y)). lia.
Qed.

Lemma split_shards_shape sc bs :
  length (split_shards sc bs) = N.to_nat (sc_data sc) ∧
  Forall (λ d, length d = N.to_nat (sc_shard_len sc (N.of_nat (length bs)))) (split_shards sc bs).
Proof.
  unfold split_shards. split; [by rewrite length_fmap, length_seq|].
  apply Forall_fmap, Forall_true. intros i. simpl. rewrite shard_at_resize. apply length_resize.
Qed.

Lemma split_shards_concat sc bs :
  0 < sc_data sc → N.of_nat (length bs) < 2 ^ 63 →
  take (length bs) (concat (split_shards sc bs)) = bs.
Proof.
  intros Hd Hn. destruct (sc_shard_len_spec sc _ Hd Hn) as (_ & _ & Hl).
  unfold split_shards. rewrite concat_shards, drop_0, resize_ge by lia. by rewrite take_app_length.
Qed.

(** ** Rebuilding *)

Section rebuild.
Variable sha256 : bytes → bytes.
Variable rs_encode : N → N → list bytes → option (list bytes).
Variable rs_decode : N → N → list (nat * bytes) → list (nat * bytes) → option (list (nat * bytes)).

(** What is left of the shards [all]: each is there as written or lost. *)
Definition remains (all : list bytes) (ss : list (option bytes)) : Prop :=
  Forall2 (λ s o, o = None ∨ o = Some s) all ss.

Lemma remains_lookup all ss i s : remains all ss → ss !! i = Some (Some s) → all !! i = Some s.
Proof.
  intros Hr Hs. destruct (Forall2_lookup_r _ _ _ _ _ Hr Hs) as (x & Hx & [?|?]); congruence.
Qed.

Lemma elem_of_present l i s : (i, s) ∈ present l ↔ l !! i = Some (Some s).
Proof.
  unfold present. rewrite list_elem_of_omap. split.
  - intros ([j o] & (k & Hk)%list_elem_of_lookup & Ho). apply lookup_zip_Some in Hk as [Hj Hk].
    apply lookup_seq in Hj as [-> _]. destruct o; simplify_eq/=. done.
  - intros Hl. exists (i, Some s). split; [|done]. apply list_elem_of_lookup. exists i. apply lookup_zip_Some.
    split; [|done]. apply lookup_seq. split; [done|]. by eapply lookup_lt_Some.
Qed.

Lemma present_from l j :
  length (omap (λ x : nat * option bytes, pair (x.1) <$> x.2) (zip (seq j (length l)) l))
    = length (base.filter is_Some l) ∧
  (omap (λ x : nat * option bytes, pair (x.1) <$> x.2) (zip (seq j (length l)) l)).*1 `sublist_of` seq j (length l).
Proof.
  revert j. induction l as [|[s|] l IH]; intros j; [done|..]; destruct (IH (S j)) as [H1 H2]; csimpl.
  - split; [by rewrite H1|by constructor].
  - split; [done|by constructor].
Qed.

Lemma present_length l : length (present l) = length (base.filter is_Some l).
Proof. apply present_from. Qed.

Lemma present_NoDup l : NoDup (present l).*1.
Proof. eapply sublist_NoDup; [apply NoDup_seq|apply present_from]. Qed.

Lemma restore_spec l r :
  (∀ i s, (i, s) ∈ r → (i < length l)%nat) →
  ∃ l', restore l r = Ok l' ∧ length l' = length l ∧
    (∀ i, l' !! i = l !! i ∨ ∃ s, (i, s) ∈ r ∧ l' !! i = Some (Some s)) ∧
    (∀ i s, (i, s) ∈ r → ∃ s', (i, s') ∈ r ∧ l' !! i = Some (Some s')).
Proof.
  revert l. induction r as [|[i s] r IH]; intros l Hr; simpl.
  { exists l. split_and!; [done..|auto|]. by intros ?? ?%elem_of_nil. }
  assert (i < length l)%nat as Hi by (eapply Hr; by left). rewrite (proj2 (Nat.ltb_lt _ _) Hi).
  destruct (IH (<[i:=Some s]> l)) as (l' & -> & Hl & H1 & H2).
  { intros j t Hj. rewrite length_insert. eapply Hr. by right. }
  rewrite length_insert in Hl.
  assert (l' !! i = Some (Some s) ∨ ∃ t, (i, t) ∈ r ∧ l' !! i = Some (Some t)) as Hat.
  { destruct (H1 i) as [->|?]; [|by right]. left. by apply list_lookup_insert_eq. }
  exists l'. split_and!; [done..| |].
  - intros j. destruct (decide (j = i)) as [->|Hj].
    + right. destruct Hat as [?|(t & ? & ?)]; [exists s|exists t]; split; [by left|done|by right|done].
    + destruct (H1 j) as [->|(t & ? & ?)]; [left; by apply list_lookup_insert_ne|right]. exists t. split; [by right|done].
  - intros j t [[= -> ->]|Hj]%elem_of_cons.
    + destruct Hat as [?|(t & ? & ?)]; [exists s|exists t]; split; [by left|done|by right|done].
    + destruct (H2 j t Hj) as (t' & ? & ?). exists t'. split; [by right|done].
Qed.

Lemma mapM_id_Some (l : list bytes) : mapM (M := option) id (Some <$> l) = Some l.
Proof. apply mapM_Some_2. induction l; by constructor. Qed.

Lemma remains_full all ss : remains all ss → existsb (λ s, bool_decide (s = None)) ss = false → ss = Some <$> all.
Proof.
  intros Hr He. induction Hr as [|s o all ss [->| ->] Hr IH]; [done|by simpl in He|]. csimpl. f_equal. by apply IH.
Qed.

Lemma remains_take n all ss : remains all ss → remains (take n all) (take n ss).
Proof. apply Forall2_take. Qed.
Lemma remains_drop n all ss : remains all ss → remains (drop n all) (drop n ss).
Proof. apply Forall2_drop. Qed.

Lemma new_data k m sc : new k m = Some sc → sc = mkEcScheme k m ∧ 0 < k ∧ 0 < m.
Proof.
  unfold new. destruct (N.leb_spec 1 k); [|done]. destruct (N.leb_spec 1 m); [|by rewrite orb_true_r].
  case_match; [done|]. intros [= <-]. split; [done|]. lia.
Qed.

(** The data shards after decoding: what was there, or what the codec restored. *)
Lemma restored_data ds ss (r : list (nat * bytes)) l' :
  (∀ i s, (i, s) ∈ r ↔ ds !! i = Some s ∧ i ∉ (present (take (length ds) ss)).*1) →
  remains ds (take (length ds) ss) →
  (∀ i, l' !! i = ss !! i ∨ ∃ s, (i, s) ∈ r ∧ l' !! i = Some (Some s)) →
  (∀ i s, (i, s) ∈ r → ∃ s', (i, s') ∈ r ∧ l' !! i = Some (Some s')) →
  take (length ds) l' = Some <$> ds.
Proof.
  intros Hr Hs H1 H2. apply list_eq. intros i. rewrite list_lookup_fmap.
  destruct (decide (i < length ds)%nat) as [Hi|Hi].
  2:{ rewrite lookup_take_ge, lookup_ge_None_2 by lia. done. }
  rewrite lookup_take_lt by done. destruct (lookup_lt_is_Some_2 ds i Hi) as [d Hd]. rewrite Hd. simpl.
  destruct (Forall2_lookup_l _ _ _ _ _ Hs Hd) as (o & Ho & Hod). rewrite lookup_take_lt in Ho by done.
  assert (∀ s, (i, s) ∈ r → s = d) as Hrd by (intros s [? _]%Hr; congruence).
  destruct (H1 i) as [Hl|(s & Hs' & Hl)]; [|by rewrite Hl, (Hrd s)].
  rewrite Hl, Ho. destruct Hod as [->| ->]; [|done].
  assert ((i, d) ∈ r) as Hin.
  { apply Hr. split; [done|]. intros ([j s] & -> & Hp)%list_elem_of_fmap. apply elem_of_present in Hp.
    simpl in *. rewrite lookup_take_lt in Hp by done. congruence. }
  destruct (H2 i d Hin) as (s & Hs' & Hl'). rewrite (Hrd s Hs') in Hl'. congruence.
Qed.

Lemma rebuild_data_ok lay sc ds ps ss :
  codec_law rs_encode rs_decode (data lay) (parity lay) → new (data lay) (parity lay) = Some sc →
  length ds = N.to_nat (data lay) → N.of_nat (length ps) = parity lay →
  rs_encode (data lay) (parity lay) ds = Some ps →
  remains (ds ++ ps) ss → data lay <= N.of_nat (length (base.filter is_Some ss)) →
  rebuild_data rs_decode lay ss = Ok ds.
Proof.
  intros Hlaw Hnew Hd Hp Henc Hss Hc. pose proof (Forall2_length _ _ _ Hss) as Hlen. rewrite length_app in Hlen.
  destruct (new_data _ _ _ Hnew) as (Hsc & _ & _).
  unfold rebuild_data, scheme. rewrite Hnew. simpl. rewrite Hsc. unfold sc_shards. simpl.
  rewrite (proj2 (N.eqb_eq _ _)) by lia. simpl. destruct (N.ltb_spec (N.of_nat (length (base.filter is_Some ss))) (data lay)); [lia|].
  rewrite <- Hd. assert (remains ds (take (length ds) ss)) as Hsd.
  { pose proof (remains_take (length ds) _ _ Hss) as H0. by rewrite take_app_length in H0. }
  destruct (existsb _ _) eqn:He.
  2:{ simpl. rewrite (remains_full _ _ Hsd He), mapM_id_Some. done. }
  assert (remains ps (drop (length ds) ss)) as Hsp.
  { pose proof (remains_drop (length ds) _ _ Hss) as H0. by rewrite drop_app_length in H0. }
  destruct (law_decode _ _ _ _ Hlaw ds ps (present (take (length ds) ss)) (present (drop (length ds) ss)))
    as (r & -> & Hr); [done|apply present_NoDup..| | | |].
  { intros i s Hi%elem_of_present. by eapply remains_lookup. }
  { intros i s Hi%elem_of_present. by eapply remains_lookup. }
  { rewrite !present_length, <- length_app, <- filter_app, take_drop. done. }
  simpl. destruct (restore_spec ss r) as (l' & -> & _ & H1 & H2).
  { intros i s [Hi%lookup_lt_Some _]%Hr. lia. }
  simpl. rewrite (restored_data ds ss r l'), mapM_id_Some by done. done.
Qed.

Lemma rebuild_ok lay sc ds ps ss :
  new (data lay) (parity lay) = Some sc → length ds = N.to_nat (data lay) →
  rs_encode (data lay) (parity lay) ds = Some ps → remains (ds ++ ps) ss →
  rebuild_data rs_decode lay ss = Ok ds →
  rebuild rs_encode rs_decode lay ss = Ok (ds ++ ps).
Proof.
  intros Hnew Hd Henc Hss Hr. unfold rebuild, scheme. rewrite Hnew. simpl. rewrite Hr. simpl.
  destruct (new_data _ _ _ Hnew) as (-> & _ & _). rewrite <- Hd.
  assert (remains ps (drop (length ds) ss)) as Hsp.
  { pose proof (remains_drop (length ds) _ _ Hss) as H0. by rewrite drop_app_length in H0. }
  destruct (existsb _ _) eqn:He.
  - unfold parity_of. simpl. by rewrite Henc.
  - rewrite (remains_full _ _ Hsp He). simpl. do 2 f_equal. clear. induction ps; csimpl; congruence.
Qed.

(** What [encode] returns when the codec returns the parity shards [ps]. *)
Definition coded (sc : EcScheme) (bs : bytes) (ps : list bytes) : EcShards :=
  let all := split_shards sc bs ++ ps in
  mkEcShards (mkEcLayout (sc_data sc) (sc_parity sc) (sc_shard_len sc (N.of_nat (length bs))) (sha256 <$> all)) all.

Lemma encode_parts k m bs :
  codec_law rs_encode rs_decode k m → 0 < k → N.of_nat (length bs) < 2 ^ 63 →
  let sc := mkEcScheme k m in
  ∃ ps, rs_encode k m (split_shards sc bs) = Some ps ∧ N.of_nat (length ps) = m ∧
    Forall (λ d, length d = N.to_nat (sc_shard_len sc (N.of_nat (length bs)))) ps.
Proof.
  intros Hlaw Hk Hn sc. destruct (split_shards_shape sc bs) as [Hl Hf].
  destruct (sc_shard_len_spec sc _ Hk Hn) as (H2 & Hev & _).
  apply (law_encode _ _ _ _ Hlaw _ (N.to_nat (sc_shard_len sc (N.of_nat (length bs))))); [|done..].
  rewrite Hl. simpl. lia.
Qed.

(** C34. Erasure-coded extents survive the loss of shards.  Encoding an extent of
    any length under a valid scheme succeeds, with a layout that passes its own
    check and shards that pass verification.  Whatever shards are then lost, as
    long as [data] of them are left, the data shards and the whole set are rebuilt
    as they were written, and joining the data shards gives the extent's bytes. *)
Theorem lost_shards_recovered k m sc bs :
  codec_law rs_encode rs_decode k m → new k m = Some sc → N.of_nat (length bs) < 2 ^ 63 →
  ∃ e, encode sha256 rs_encode sc bs = Ok e ∧
    check (layout e) (N.of_nat (length bs)) (N.of_nat (length (shards e))) = Ok () ∧
    (∀ i s, shards e !! i = Some s → verify sha256 (layout e) i s = true) ∧
    ∀ ss, remains (shards e) ss → k <= N.of_nat (length (base.filter is_Some ss)) →
      rebuild rs_encode rs_decode (layout e) ss = Ok (shards e) ∧
      ∃ ds, rebuild_data rs_decode (layout e) ss = Ok ds ∧ join (layout e) ds (N.of_nat (length bs)) = Ok bs.
Proof.
  intros Hlaw Hnew Hn. destruct (new_data _ _ _ Hnew) as (-> & Hk & Hm).
  destruct (encode_parts k m bs Hlaw Hk Hn) as (ps & Hps & Hlp & Hfp). set (sc := mkEcScheme k m) in *.
  destruct (split_shards_shape sc bs) as [Hld Hfd]. set (ds := split_shards sc bs) in *.
  assert (length ds = N.to_nat k) as Hld' by done. exists (coded sc bs ps). split; [|split; [|split]].
  - unfold encode. fold ds. unfold parity_of. simpl. by rewrite Hps.
  - unfold check, scheme. simpl. rewrite Hnew. simpl. rewrite length_fmap, length_app. fold ds.
    replace (N.of_nat (length ds + length ps)) with (sc_shards sc) by (change (sc_shards sc) with (k + m); lia). by rewrite !N.eqb_refl.
  - intros i s Hi. unfold verify. simpl in *. rewrite list_lookup_fmap, Hi. simpl. rewrite bool_decide_true by done.
    rewrite andb_true_r. apply N.eqb_eq. apply list_elem_of_lookup_2 in Hi.
    rewrite Forall_forall in Hfd, Hfp. apply elem_of_app in Hi as [Hi|Hi]; [rewrite (Hfd _ Hi)|rewrite (Hfp _ Hi)]; lia.
  - intros ss Hss Hc.
    pose proof (rebuild_data_ok (layout (coded sc bs ps)) sc ds ps ss Hlaw Hnew Hld' Hlp Hps Hss Hc) as Hd.
    split; [by apply (rebuild_ok _ sc)|]. exists ds. split; [done|]. unfold join. simpl.
    destruct (Nat.ltb_spec (length ds) (N.to_nat k)); [lia|]. rewrite Nat2N.id, (take_ge ds) by lia. f_equal.
    by apply split_shards_concat.
Qed.

End rebuild.

(** ** A codec: two data shards and their exclusive or *)

Definition xor_shard (a b : bytes) : bytes := zip_with N.lxor a b.
Definition at_position (i : nat) (l : list (nat * bytes)) : option bytes := snd <$> head (base.filter (λ x, x.1 = i) l).

Definition xor_encode (k m : N) (ds : list bytes) : option (list bytes) :=
  match ds with [a; b] => if bool_decide (length a = length b) then Some [xor_shard a b] else None | _ => None end.

Definition xor_decode (k m : N) (os rs : list (nat * bytes)) : option (list (nat * bytes)) :=
  match at_position 0 os, at_position 1 os, at_position 0 rs with
  | Some _, Some _, _ => Some []
  | Some a, None, Some p => Some [(1%nat, xor_shard a p)]
  | None, Some b, Some p => Some [(0%nat, xor_shard b p)]
  | _, _, _ => None
  end.

Lemma at_position_Some i l s : at_position i l = Some s → (i, s) ∈ l.
Proof.
  unfold at_position. destruct (base.filter _ l) as [|[j t] l'] eqn:Hf; [done|]. intros [= <-].
  assert ((j, t) ∈ base.filter (λ x, x.1 = i) l) as Hin by (rewrite Hf; by left).
  by apply list_elem_of_filter in Hin as [<- ?].
Qed.

Lemma at_position_None i l : at_position i l = None → i ∉ l.*1.
Proof.
  unfold at_position. destruct (base.filter _ l) as [|x l'] eqn:Hf; [|done]. intros _ ([j t] & -> & Hj)%list_elem_of_fmap.
  assert ((j, t) ∈ base.filter (λ x, x.1 = j) l) as Hin by (by apply list_elem_of_filter). simpl in Hf. rewrite Hf in Hin.
  by apply elem_of_nil in Hin.
Qed.

Lemma xor_shard_self a b : length a = length b → xor_shard a (xor_shard a b) = b.
Proof.
  revert b. induction a as [|x a IH]; intros [|y b]; try done. intros [= Hl]. csimpl. unfold xor_shard in *. csimpl.
  rewrite IH by done. by rewrite <- N.lxor_assoc, N.lxor_nilpotent, N.lxor_0_l.
Qed.

Lemma xor_shard_comm a b : xor_shard a b = xor_shard b a.
Proof.
  revert b. induction a as [|x a IH]; intros [|y b]; try done. unfold xor_shard in *. csimpl. by rewrite IH, N.lxor_comm.
Qed.

(** At least two of the three shards are there: which data shard is missing, if
    any, and then the parity shard is there. *)
Lemma xor_have (a b p : bytes) (os rs : list (nat * bytes)) :
  NoDup os.*1 → NoDup rs.*1 →
  (∀ i s, (i, s) ∈ os → [a; b] !! i = Some s) → (∀ i s, (i, s) ∈ rs → [p] !! i = Some s) →
  (2 ≤ length os + length rs)%nat →
  (at_position 0 os = Some a ∧ at_position 1 os = Some b) ∨
  (at_position 0 os = Some a ∧ at_position 1 os = None ∧ at_position 0 rs = Some p) ∨
  (at_position 0 os = None ∧ at_position 1 os = Some b ∧ at_position 0 rs = Some p).
Proof.
  intros Ho Hr Hos Hrs Hc.
  assert (∀ i, at_position i os = None ∨ at_position i os = [a; b] !! i) as Hat.
  { intros i. destruct (at_position i os) as [s|] eqn:E; [right|by left]. apply at_position_Some, Hos in E. done. }
  assert (os.*1 ⊆+ base.filter (λ i, i ∈ os.*1) [0; 1]%nat) as Hosub.
  { apply NoDup_submseteq; [done|]. intros i Hi. apply list_elem_of_filter. split; [done|].
    apply list_elem_of_fmap in Hi as ([j s] & -> & Hj). apply Hos in Hj. destruct j as [|[|j]]; [set_solver..|done]. }
  assert (rs.*1 ⊆+ base.filter (λ i, i ∈ rs.*1) [0]%nat) as Hrsub.
  { apply NoDup_submseteq; [done|]. intros i Hi. apply list_elem_of_filter. split; [done|].
    apply list_elem_of_fmap in Hi as ([j s] & -> & Hj). apply Hrs in Hj. destruct j as [|j]; [set_solver|done]. }
  apply submseteq_length in Hosub, Hrsub. rewrite !length_fmap in Hosub, Hrsub.
  assert (at_position 0 rs = Some p ∨ length rs = 0%nat) as Hp.
  { destruct (at_position 0 rs) as [s|] eqn:E; [left; by apply at_position_Some, Hrs in E|right].
    apply at_position_None in E. rewrite filter_cons_False in Hrsub by done. simpl in Hrsub. lia. }
  destruct (Hat 0%nat) as [H0|H0], (Hat 1%nat) as [H1|H1]; simpl in H0, H1; [| | |by left].
  - apply at_position_None in H0, H1. rewrite !filter_cons_False in Hosub by done. simpl in Hosub.
    assert (length rs ≤ 1)%nat; [|lia]. etrans; [apply Hrsub|]. apply (length_filter _ [0%nat]).
  - right; right. split_and!; [done..|]. destruct Hp as [?|?]; [done|]. apply at_position_None in H0.
    rewrite filter_cons_False in Hosub by done. pose proof (length_filter (λ i, i ∈ os.*1) [1%nat]). simpl in *. lia.
  - right; left. split_and!; [done..|]. destruct Hp as [?|?]; [done|]. apply at_position_None in H1.
    rewrite (filter_app _ [0%nat] [1%nat]) in Hosub. rewrite (filter_cons_False _ 1%nat) in Hosub by done.
    rewrite length_app in Hosub. pose proof (length_filter (λ i, i ∈ os.*1) [0%nat]). simpl in *. lia.
Qed.


Lemma xor_codec_law : codec_law xor_encode xor_decode 2 1.
Proof.
  split.
  - intros [|a [|b [|]]] n Hk _ _ Hf; simpl in Hk; try lia. apply Forall_cons in Hf as [Ha Hf]. apply Forall_cons in Hf as [Hb _].
    exists [xor_shard a b]. unfold xor_encode. rewrite bool_decide_true by congruence. split_and!; [done..|].
    constructor; [|done]. unfold xor_shard. rewrite length_zip_with. lia.
  - intros [|a [|b [|]]] ps os rs He Ho Hr Hos Hrs Hc; try done. unfold xor_encode in He. case_bool_decide as Hl; [|done].
    injection He as <-. unfold xor_decode.
    destruct (xor_have a b _ os rs Ho Hr Hos Hrs ltac:(lia)) as [(Ea & Eb)|[(Ea & Eb & Ep)|(Ea & Eb & Ep)]]; rewrite Ea, Eb, ?Ep.
    + exists []. split; [done|]. intros i s. split; [by intros ?%elem_of_nil|]. intros [Hi Hni]. destruct Hni.
      destruct i as [|[|i]]; [apply at_position_Some in Ea|apply at_position_Some in Eb|done]; eapply (list_elem_of_fmap_2' fst); done.
    + exists [(1%nat, b)]. rewrite xor_shard_self by done. split; [done|]. apply at_position_None in Eb.
      apply at_position_Some, (list_elem_of_fmap_2 fst) in Ea. intros i s. rewrite list_elem_of_singleton. split.
      * by intros [= -> ->].
      * intros [Hi Hni]. by destruct i as [|[|i]]; simplify_eq/=.
    + exists [(0%nat, a)]. rewrite (xor_shard_comm a), xor_shard_self by done. split; [done|]. apply at_position_None in Ea.
      apply at_position_Some, (list_elem_of_fmap_2 fst) in Eb. intros i s. rewrite list_elem_of_singleton. split.
      * by intros [= -> ->].
      * intros [Hi Hni]. by destruct i as [|[|i]]; simplify_eq/=.
Qed.

Lemma lost_shards_recovered_witness :
  ∃ e, encode (λ s, s) xor_encode (mkEcScheme 2 1) [1; 2; 3; 4; 5] = Ok e ∧
    rebuild xor_encode xor_decode (layout e) [Some [1; 2; 3; 4]; None; Some [4; 2; 3; 4]] = Ok (shards e).
Proof.
  destruct (lost_shards_recovered (λ s, s) xor_encode xor_decode 2 1 (mkEcScheme 2 1) [1; 2; 3; 4; 5] xor_codec_law)
    as (e & He & _ & _ & Hr); [done..|].
  exists e. split; [done|]. vm_compute in He. injection He as <-. apply Hr; [|by vm_compute].
  apply Forall2_cons. split; [by right|]. apply Forall2_cons. split; [by left|]. apply Forall2_cons. split; [by right|done].
Defined.

End Ec.
