(* ===== verification/Lru.v ===== *)
(** * The inode cache of the catalog store ([store.rs], [Lru])

    A map with a stamp per entry and the stamps in order.  The theorem says that
    an insertion keeps the cache within its capacity by dropping the entries used
    longest ago, and none when there is room.  Stamps are natural numbers: the
    [u64] counter would take 2^64 accesses to wrap. *)

From S2P Require Import Prelude.

Module Lru.

Open Scope N_scope.

Section lru.
Context {K V : Type} `{Countable K}.

Record Lru := mkLru {
  cap : nat;
  tick : N;
  map : gmap K (V * N);
  order : gmap N K;
}.

Definition new (n : nat) : Lru := mkLru n 0 ∅ ∅.

Definition get (self : Lru) (k : K) : Lru * option V :=
  match map self !! k with
  | None => (self, None)
  | Some (v, t) =>
      let t' := tick self + 1 in
      (mkLru (cap self) t' (<[k := (v, t')]> (map self)) (<[t' := k]> (delete t (order self))), Some v)
  end.

Definition take (self : Lru) (k : K) : Lru * option V :=
  match map self !! k with
  | None => (self, None)
  | Some (v, t) => (mkLru (cap self) (tick self) (delete k (map self)) (delete t (order self)), Some v)
  end.

(** [BTreeMap::pop_first]: the smallest stamp. *)
Definition pop_first (m : gmap N K) : option (N * K) := head (bt_entries m).

(** The loop of [put]: every turn removes an entry of [order], so it has as many
    turns at most. *)
Fixpoint evict (fuel : nat) (self : Lru) : Lru :=
  match fuel with
  | O => self
  | S fuel =>
      if (cap self <? size (map self))%nat
      then match pop_first (order self) with
           | None => self
           | Some (t, k) => evict fuel (mkLru (cap self) (tick self) (delete k (map self)) (delete t (order self)))
           end
      else self
  end.

Definition put (self : Lru) (k : K) (v : V) : Lru :=
  let t' := tick self + 1 in
  let ord := match map self !! k with Some (_, t) => delete t (order self) | None => order self end in
  let self := mkLru (cap self) t' (<[k := (v, t')]> (map self)) (<[t' := k]> ord) in
  evict (size (order self)) self.

Definition retain (self : Lru) (keep : K → bool) : Lru :=
  mkLru (cap self) (tick self) (base.filter (λ x, keep (x.1) = true) (map self))
    (base.filter (λ x, keep (x.2) = true) (order self)).

(** ** The two maps agree *)

Record ok (l : Lru) : Prop := {
  ok_order t k : order l !! t = Some k ↔ ∃ v, map l !! k = Some (v, t);
  ok_tick k v t : map l !! k = Some (v, t) → t <= tick l;
}.

(** What the cache holds, and the use of it that [k] had last. *)
Definition holds (l : Lru) (k : K) : option V := fst <$> map l !! k.
Definition stamp (l : Lru) (k : K) : option N := snd <$> map l !! k.

Lemma new_ok n : ok (new n).
Proof. split; [|done]. intros t k. split; [done|]. by intros [v ?]. Qed.

Lemma restamp_ok l k v :
  ok l →
  ok (mkLru (cap l) (tick l + 1) (<[k := (v, tick l + 1)]> (map l))
        (<[tick l + 1 := k]> (match map l !! k with Some (_, t) => delete t (order l) | None => order l end))).
Proof.
  intros [Ho Ht]. set (ord := match map l !! k with Some (_, t) => delete t (order l) | None => order l end).
  assert (∀ t k', ord !! t = Some k' ↔ k' ≠ k ∧ ∃ v, map l !! k' = Some (v, t)) as Hord.
  { intros t k'. unfold ord. destruct (map l !! k) as [[w s]|] eqn:Hk.
    - destruct (decide (s = t)) as [->|Hne].
      + rewrite lookup_delete_eq. split; [done|]. intros (Hkk & w' & Hw').
        assert (order l !! t = Some k') as E by (apply Ho; eauto).
        assert (order l !! t = Some k) as E' by (apply Ho; eauto). congruence.
      + rewrite lookup_delete_ne, Ho by done. split; [|naive_solver]. intros [w' Hw']. split; [|eauto].
        intros ->. congruence.
    - rewrite Ho. split; [|naive_solver]. intros [w' Hw']. split; [|eauto]. intros ->. congruence. }
  split; simpl.
  - intros t k'. destruct (decide (t = tick l + 1)) as [->|Hne].
    + rewrite lookup_insert_eq. split; [intros [= <-]; exists v; by rewrite lookup_insert_eq|].
      intros [w Hw]. destruct (decide (k = k')) as [->|Hkk]; [done|]. rewrite lookup_insert_ne in Hw by done.
      apply Ht in Hw. lia.
    + rewrite lookup_insert_ne, Hord by done. split.
      * intros (Hkk & w & Hw). exists w. by rewrite lookup_insert_ne.
      * intros [w Hw]. destruct (decide (k = k')) as [->|Hkk].
        { rewrite lookup_insert_eq in Hw. congruence. }
        rewrite lookup_insert_ne in Hw by done. eauto.
  - intros k' w t Hw. destruct (decide (k = k')) as [->|Hkk].
    + rewrite lookup_insert_eq in Hw. simplify_eq. lia.
    + rewrite lookup_insert_ne in Hw by done. apply Ht in Hw. lia.
Qed.

Lemma drop_entry_ok l k v t :
  ok l → map l !! k = Some (v, t) →
  ok (mkLru (cap l) (tick l) (delete k (map l)) (delete t (order l))).
Proof.
  intros [Ho Ht] Hk. split; simpl.
  - intros s k'. rewrite !lookup_delete_Some, Ho. split.
    + intros (Hne & w & Hw). exists w. rewrite lookup_delete_ne; [done|]. intros ->. congruence.
    + intros [w [Hkk Hw]%lookup_delete_Some]. split; [|eauto]. intros ->.
      assert (order l !! s = Some k) as E by (apply Ho; eauto). assert (order l !! s = Some k') as E' by (apply Ho; eauto).
      congruence.
  - intros k' w s [_ Hw]%lookup_delete_Some. eauto.
Qed.

Lemma lru_get_spec l k l' r :
  ok l → get l k = (l', r) → ok l' ∧ r = holds l k ∧ cap l' = cap l ∧ ∀ j, holds l' j = holds l j.
Proof.
  intros Hok. unfold get, holds. destruct (map l !! k) as [[v t]|] eqn:Hk; intros [= <- <-]; [|by split].
  split; [|split; [done|split; [done|]]].
  - pose proof (restamp_ok l k v Hok) as Hr. by rewrite Hk in Hr.
  - intros j. simpl. destruct (decide (k = j)) as [->|Hne]; [by rewrite lookup_insert_eq, Hk|by rewrite lookup_insert_ne].
Qed.

Lemma take_spec l k l' r :
  ok l → take l k = (l', r) → ok l' ∧ r = holds l k ∧ cap l' = cap l ∧ holds l' k = None ∧ ∀ j, j ≠ k → holds l' j = holds l j.
Proof.
  intros Hok. unfold take, holds. destruct (map l !! k) as [[v t]|] eqn:Hk; intros [= <- <-].
  2:{ split_and!; [done..|by rewrite Hk|done]. }
  split_and!; [by apply (drop_entry_ok l k v t)|done|done|by simpl; rewrite lookup_delete_eq|].
  intros j Hne. simpl. by rewrite lookup_delete_ne.
Qed.

Lemma retain_spec l keep :
  ok l → ok (retain l keep) ∧ ∀ k, holds (retain l keep) k = if keep k then holds l k else None.
Proof.
  intros [Ho Ht]. split.
  - split; simpl.
    + intros t k. rewrite map_lookup_filter_Some, Ho. setoid_rewrite map_lookup_filter_Some. simpl. naive_solver.
    + intros k v t [? _]%map_lookup_filter_Some. eauto.
  - intros k. unfold holds. simpl. destruct (keep k) eqn:Hk.
    + destruct (map l !! k) as [x|] eqn:Hm.
      * by rewrite (map_lookup_filter_Some_2 _ _ _ _ Hm).
      * by rewrite map_lookup_filter_None_2 by auto.
    + rewrite map_lookup_filter_None_2; [done|]. right. intros x _. simpl. congruence.
Qed.

(** ** Insertion *)

Lemma pop_first_Some (m : gmap N K) t k :
  pop_first m = Some (t, k) → m !! t = Some k ∧ ∀ t' k', m !! t' = Some k' → t <= t'.
Proof.
  unfold pop_first. intros Hh. destruct (bt_entries m) as [|[t0 k0] l] eqn:Hm; [done|]. injection Hh as -> ->.
  pose proof (bt_entries_sorted m) as Hs.
  rewrite Hm in Hs. apply StronglySorted_inv in Hs as [_ Hs]. rewrite Forall_forall in Hs. split.
  - apply elem_of_bt_entries. rewrite Hm. by left.
  - intros t' k' Hk. apply elem_of_bt_entries in Hk. rewrite Hm in Hk. apply elem_of_cons in Hk as [[= -> ->]|Hk]; [done|].
    exact (Hs _ Hk).
Qed.

Lemma pop_first_None (m : gmap N K) : pop_first m = None → m = ∅.
Proof.
  unfold pop_first. intros Hh. apply map_empty. intros t. destruct (m !! t) as [k|] eqn:Hk; [|done].
  apply elem_of_bt_entries in Hk. destruct (bt_entries m); [by apply elem_of_nil in Hk|done].
Qed.

Lemma order_empty l : ok l → order l = ∅ → map l = ∅.
Proof.
  intros [Ho _] He. apply map_empty. intros k. destruct (map l !! k) as [[v t]|] eqn:Hk; [|done].
  assert (order l !! t = Some k) as E by (apply Ho; eauto). by rewrite He in E.
Qed.

(** What dropping entries from [l] to [l'] may do. *)
Record evicted (l l' : Lru) : Prop := {
  ev_ok : ok l';
  ev_cap : cap l' = cap l;
  ev_sub k x : map l' !! k = Some x → map l !! k = Some x;
  ev_old k1 t1 k2 t2 : stamp l k1 = Some t1 → stamp l' k1 = None → stamp l' k2 = Some t2 → t1 < t2;
}.

Lemma evict_spec fuel l :
  ok l → (size (order l) ≤ fuel)%nat →
  evicted l (evict fuel l) ∧ (size (map (evict fuel l)) ≤ cap l)%nat ∧
  ((size (map l) ≤ cap l)%nat → evict fuel l = l).
Proof.
  revert l. induction fuel as [|fuel IH]; intros l Hok Hf.
  { assert (map l = ∅) as Hm by (apply order_empty; [done|]; apply map_size_empty_inv; lia).
    split; [|split; [simpl; rewrite Hm, map_size_empty; lia|done]]. split; try done. simpl. congruence. }
  simpl. destruct (Nat.ltb_spec (cap l) (size (map l))) as [Hc|Hc].
  2:{ split; [|split; [lia|done]]. split; try done. congruence. }
  destruct (pop_first (order l)) as [[t k]|] eqn:Hp.
  2:{ apply pop_first_None, order_empty in Hp; [|done]. rewrite Hp, map_size_empty in Hc. lia. }
  apply pop_first_Some in Hp as [Hk Hmin]. destruct (proj1 (ok_order _ Hok t k) Hk) as [v Hv].
  pose proof (drop_entry_ok l k v t Hok Hv) as Hok'. set (l1 := mkLru _ _ _ _) in *.
  destruct (IH l1 Hok') as ([Ho' Hc' Hsub Hold] & Hs & _).
  { simpl. rewrite map_size_delete_Some by eauto. lia. }
  split; [|split; [exact Hs|lia]]. split; [done|done| |].
  - intros j x Hj. apply Hsub in Hj. simpl in Hj. by apply lookup_delete_Some in Hj as [_ ?].
  - intros k1 t1 k2 t2 H1 H1' H2. destruct (decide (k1 = k)) as [->|Hne].
    + unfold stamp in H1, H2. rewrite Hv in H1. injection H1 as <-.
      apply fmap_Some in H2 as ([w s] & Hw & ->). apply Hsub in Hw. simpl in Hw. apply lookup_delete_Some in Hw as [Hkk Hw].
      assert (order l !! s = Some k2) as E by (apply (ok_order _ Hok); eauto). pose proof (Hmin _ _ E).
      assert (s ≠ t) by (intros ->; congruence). simpl. lia.
    + eapply Hold; [|done|done]. unfold stamp, l1. simpl. by rewrite lookup_delete_ne.
Qed.

Lemma put_ok l k v : ok l → ok (put l k v).
Proof. intros Hok. exact (ev_ok _ _ (proj1 (evict_spec _ _ (restamp_ok l k v Hok) (le_n _)))). Qed.

Lemma put_sub l k v j w : ok l → holds (put l k v) j = Some w → (j = k ∧ w = v) ∨ holds l j = Some w.
Proof.
  intros Hok. unfold holds. intros ([w' t] & Hj & ->)%fmap_Some.
  apply (ev_sub _ _ (proj1 (evict_spec _ _ (restamp_ok l k v Hok) (le_n _)))) in Hj. simpl in Hj.
  destruct (decide (k = j)) as [->|Hne]; [rewrite lookup_insert_eq in Hj; simplify_eq; by left|].
  rewrite lookup_insert_ne in Hj by done. right. by rewrite Hj.
Qed.

Lemma put_cap l k v : ok l → cap (put l k v) = cap l.
Proof. intros Hok. exact (ev_cap _ _ (proj1 (evict_spec _ _ (restamp_ok l k v Hok) (le_n _)))). Qed.

(** Inserting into the cache keeps it within its capacity.  What it holds
    afterwards is the new value under the key and otherwise only what it held;
    with room for the key nothing is dropped; and an entry that is dropped was
    used longer ago than every entry that stays. *)
Theorem put_drops_oldest l k v :
  ok l →
  let l' := put l k v in
  ok l' ∧ (size (map l') ≤ cap l)%nat ∧
  (∀ j w, holds l' j = Some w → (j = k ∧ w = v) ∨ holds l j = Some w) ∧
  ((size (<[k := (v, 0%N)]> (map l)) ≤ cap l)%nat → ∀ j, holds l' j = if decide (j = k) then Some v else holds l j) ∧
  (∀ j t j' t', j ≠ k → stamp l j = Some t → holds l' j = None → stamp l' j' = Some t' → t < t').
Proof.
  intros Hok l'. destruct (evict_spec _ _ (restamp_ok l k v Hok) (le_n _)) as (Hev & Hsize & Hroom).
  split_and!; [by apply put_ok|done|intros; by eapply put_sub| |].
  - intros Hs j. unfold l', put, holds. rewrite Hroom.
    + simpl. case_decide as E; [subst; by rewrite lookup_insert_eq|]. by rewrite lookup_insert_ne.
    + simpl. rewrite map_size_insert in Hs |- *. done.
  - intros j t j' t' Hne Ht Hj Ht'. eapply (ev_old _ _ Hev j t j' t'); [| |done].
    + unfold stamp. simpl. by rewrite lookup_insert_ne.
    + unfold stamp, holds in *. apply fmap_None in Hj. apply fmap_None. exact Hj.
Qed.

End lru.
Lemma put_drops_oldest_witness :
  let l := put (put (new 2) "a"%string 1) "b"%string 2 in
  ok l ∧ (size (map (put (fst (get l "a"%string)) "c"%string 3%N)) ≤ 2)%nat ∧
  holds (put (fst (get l "a"%string)) "c"%string 3) "b"%string = None.
Proof.
  assert (ok (fst (get (put (put (new 2) "a"%string 1) "b"%string 2) "a"%string))) as Hok.
  { destruct (get _ _) as [l' r] eqn:E. eapply lru_get_spec; [|exact E]. by apply put_ok, put_ok, new_ok. }
  split; [by apply put_ok, put_ok, new_ok|]. pose proof (put_drops_oldest _ "c"%string 3 Hok) as (_ & Hs & _ & _ & _).
  split; [exact Hs|by vm_compute].
Defined.

End Lru.
