(* ===== verification/Tracked.v ===== *)
(** * Maps that record their changes ([tracked.rs])

    The catalog's maps remember which keys changed since the last checkpoint.  The
    model has a definition per method; [get_mut] is given the edit the caller makes
    through the reference it returns.  The record is complete: whatever methods are
    called, a key outside [touched] still has the value it had at the checkpoint,
    so writing the touched keys brings a copy of the map up to date. *)

From S2P Require Import Prelude.

Module Tracked.

Section tracked.
Context {K V : Type} `{Countable K}.

Record Tracked := mkTracked {
  map : gmap K V;
  touched : gset K;
  replaced : gset K;
}.

Definition from (m : gmap K V) : Tracked := mkTracked m ∅ ∅.

Definition get_mut (k : K) (f : V → V) (t : Tracked) : Tracked :=
  match map t !! k with
  | None => t
  | Some v => mkTracked (<[k := f v]> (map t)) ({[k]} ∪ touched t) (replaced t)
  end.

Definition insert (k : K) (v : V) (t : Tracked) : Tracked :=
  mkTracked (<[k := v]> (map t)) ({[k]} ∪ touched t) ({[k]} ∪ replaced t).

Definition remove (k : K) (t : Tracked) : Tracked :=
  match map t !! k with
  | None => t
  | Some _ => mkTracked (delete k (map t)) ({[k]} ∪ touched t) ({[k]} ∪ replaced t)
  end.

Definition values_mut (f : V → V) (t : Tracked) : Tracked :=
  mkTracked (f <$> map t) (dom (map t) ∪ touched t) (replaced t).

Definition insert_quietly (k : K) (v : V) (t : Tracked) : Tracked :=
  mkTracked (<[k := v]> (map t)) (touched t) (replaced t).

Definition values_mut_quietly (f : V → V) (t : Tracked) : Tracked :=
  mkTracked (f <$> map t) (touched t) (replaced t).

Definition clear_changes (t : Tracked) : Tracked := mkTracked (map t) ∅ ∅.

(** [clear_changes_with f]: [f] on each changed value still present, then the
    record is forgotten. *)
Definition clear_changes_with (f : V → V) (t : Tracked) : Tracked :=
  clear_changes (mkTracked (map_imap (λ k v, Some (if decide (k ∈ touched t) then f v else v)) (map t))
                   (touched t) (replaced t)).

(** ** The record is complete *)

(** A call of one of the methods that change contents. *)
Inductive call :=
| CGetMut (k : K) (f : V → V)
| CInsert (k : K) (v : V)
| CRemove (k : K)
| CValuesMut (f : V → V).

Definition run_call (c : call) (t : Tracked) : Tracked :=
  match c with
  | CGetMut k f => get_mut k f t
  | CInsert k v => insert k v t
  | CRemove k => remove k t
  | CValuesMut f => values_mut f t
  end.

(** The same call on a plain map. *)
Definition run_plain (c : call) (m : gmap K V) : gmap K V :=
  match c with
  | CGetMut k f => alter f k m
  | CInsert k v => <[k := v]> m
  | CRemove k => delete k m
  | CValuesMut f => f <$> m
  end.

Lemma run_call_map c t : map (run_call c t) = run_plain c (map t).
Proof.
  destruct c as [k f|k v|k|f]; simpl; [| |unfold remove|]; try done.
  - unfold get_mut. destruct (map t !! k) as [v|] eqn:E; simpl; apply map_eq; intros j.
    + destruct (decide (k = j)) as [->|Hne]; [by rewrite lookup_insert_eq, lookup_alter_eq, E|].
      by rewrite lookup_insert_ne, lookup_alter_ne.
    + destruct (decide (k = j)) as [->|Hne]; [by rewrite lookup_alter_eq, E|by rewrite lookup_alter_ne].
  - destruct (map t !! k) eqn:E; [done|]. simpl. by rewrite delete_id.
Qed.

(** Against the contents [base] of the last checkpoint: untouched keys have
    their value, keys not replaced are there exactly when they were, and what was
    replaced was touched. *)
Record recorded (base : gmap K V) (t : Tracked) : Prop := {
  rec_touched k : k ∉ touched t → map t !! k = base !! k;
  rec_replaced k : k ∉ replaced t → is_Some (map t !! k) ↔ is_Some (base !! k);
  rec_sub : replaced t ⊆ touched t;
}.

Lemma recorded_from m : recorded m (from m).
Proof. done. Qed.

Lemma recorded_call base t c : recorded base t → recorded base (run_call c t).
Proof.
  intros [Ht Hr Hs]. destruct c as [k f|k v|k|f]; simpl.
  - unfold get_mut. destruct (map t !! k) as [v|] eqn:Hk; [|done]. split; simpl.
    + intros j Hj. rewrite lookup_insert_ne by set_solver. apply Ht. set_solver.
    + intros j Hj. rewrite <- Hr by done. destruct (decide (k = j)) as [->|Hne].
      * rewrite lookup_insert_eq, Hk. by split.
      * by rewrite lookup_insert_ne.
    + set_solver.
  - split; simpl; [..|set_solver]; intros j Hj; rewrite lookup_insert_ne by set_solver; [apply Ht|apply Hr]; set_solver.
  - unfold remove. destruct (map t !! k) as [v|] eqn:Hk; [|done].
    split; simpl; [..|set_solver]; intros j Hj; rewrite lookup_delete_ne by set_solver; [apply Ht|apply Hr]; set_solver.
  - split; simpl; [..|set_solver]; intros j Hj; rewrite lookup_fmap.
    + apply not_elem_of_union in Hj as [Hj%not_elem_of_dom Hj']. rewrite <- Ht by done. by rewrite Hj.
    + by rewrite fmap_is_Some, Hr.
Qed.

End tracked.
Arguments Tracked K V {_ _}.
Arguments call K V : clear implicits.
End Tracked.
