(* ===== verification/Catalog.v ===== *)
(** * The replicated catalog: its data ([metadata.rs], [namespace.rs])

    The types of the metadata state machine and its commands.  [Tracked] maps are
    their contents (what changed since a checkpoint is bookkeeping of the store),
    and an inode table and a directory are the finite maps they stand for;
    [Inodes.v] relates the latter to the paged tables of [inodes.rs]. *)

From S2P Require Import Prelude MetaError FreeList Membership Leases Acl Ec.

Module Catalog.
Export MetaError.

Open Scope N_scope.

(** ** Extents and volumes *)

Abbreviation VolumeId := string.
Abbreviation SnapshotId := string.
Abbreviation ExtentId := string.
Abbreviation FsId := string.
Abbreviation bytes := (list N).

Record ReplicaRef := mkReplicaRef { node_id : string; device_index : N; offset : N }.
#[export] Instance ReplicaRef_eq_dec : EqDecision ReplicaRef.
Proof. solve_decision. Defined.

Record ExtentRef := mkExtentRef {
  eid : ExtentId;
  logical_offset : N;
  len : N;
  checksum : bytes;
  replicas : list ReplicaRef;
  ec : option Ec.EcLayout;
  created_ms : N;
  object : option string;
}.
#[export] Instance eta_ExtentRef : Eta ExtentRef :=
  λ e, mkExtentRef (eid e) (logical_offset e) (len e) (checksum e) (replicas e) (ec e)
         (created_ms e) (object e).

Definition stored_len (self : ExtentRef) : N :=
  match ec self with Some e => Ec.shard_len e | None => len self end.

(** [nodes.sort_unstable(); nodes.windows(2).any(|w| w[0] == w[1])]. *)
Definition shares_node (nodes : list string) : bool :=
  let sorted := merge_sort String.le nodes in
  existsb (λ w : string * string, String.eqb (w.1) (w.2)) (zip sorted (tail sorted)).

Definition check (self : ExtentRef) : res MetaError () :=
  if bool_decide (object self ≠ None)
     && (bool_decide (replicas self ≠ []) || bool_decide (ec self ≠ None))
  then Err Invalid
  else
    match ec self with
    | Some l =>
        Ec.check l (len self) (N.of_nat (length (replicas self))) ;;
        reject_if (shares_node (node_id <$> replicas self)) Invalid
    | None => Ok ()
    end.

Record VolumeMeta := mkVolumeMeta {
  v_id : VolumeId;
  v_name : string;
  v_size_bytes : N;
  v_extents : gmap N ExtentId;
}.
#[export] Instance eta_VolumeMeta : Eta VolumeMeta :=
  λ v, mkVolumeMeta (v_id v) (v_name v) (v_size_bytes v) (v_extents v).

Record SnapshotMeta := mkSnapshotMeta {
  s_id : SnapshotId;
  s_volume_id : VolumeId;
  s_name : string;
  s_size_bytes : N;
  s_extents : gmap N ExtentId;
}.

Record ExtentMeta := mkExtentMeta { extent : ExtentRef; refs : N; tombstoned : bool }.
#[export] Instance eta_ExtentMeta : Eta ExtentMeta :=
  λ m, mkExtentMeta (extent m) (refs m) (tombstoned m).

(** ** Filesystems *)

Definition ROOT_INO : N := 1.
Definition MAX_NAME_BYTES : N := 255.
Definition MAX_SYMLINK_BYTES : N := 4096.
Definition MAX_XATTR_VALUE_BYTES : N := 65536.
Definition MAX_XATTR_TOTAL_BYTES : N := 262144.

Inductive NodeType := NFile | NDir | NSymlink | NFifo | NSocket | NCharDevice | NBlockDevice.
#[export] Instance NodeType_eq_dec : EqDecision NodeType.
Proof. solve_decision. Defined.

Inductive InodeKind :=
| Dir (parent : N) (entries : gmap string N)
| File (size : N) (extents : gmap N ExtentId)
| Symlink (target : string)
| Special (node_type : NodeType) (rdev : N).

Record Inode := mkInode {
  ino : N;
  kind : InodeKind;
  mode : N;
  uid : N;
  gid : N;
  nlink : N;
  atime_ns : Z;
  mtime_ns : Z;
  ctime_ns : Z;
  op_id : string;
  xattrs : gmap string bytes;
}.
#[export] Instance eta_Inode : Eta Inode :=
  λ i, mkInode (ino i) (kind i) (mode i) (uid i) (gid i) (nlink i) (atime_ns i) (mtime_ns i)
         (ctime_ns i) (op_id i) (xattrs i).

Record FsQuota := mkFsQuota { max_bytes : option N; max_inodes : option N }.
#[export] Instance FsQuota_eq_dec : EqDecision FsQuota.
Proof. solve_decision. Defined.

Record FsUsage := mkFsUsage { file_bytes : N; used_bytes : N }.
#[export] Instance eta_FsUsage : Eta FsUsage := λ u, mkFsUsage (file_bytes u) (used_bytes u).

Record ReplicaState := mkReplicaState {
  rs_base : option SnapshotId;
  rs_local : option SnapshotId;
  rs_pending : option SnapshotId;
}.
#[export] Instance eta_ReplicaState : Eta ReplicaState :=
  λ r, mkReplicaState (rs_base r) (rs_local r) (rs_pending r).

Record FsMeta := mkFsMeta {
  f_id : FsId;
  f_name : string;
  next_ino : N;
  inodes : gmap N Inode;
  source_snapshot : option SnapshotId;
  extent_bytes : option N;
  usage : option FsUsage;
  quota : option FsQuota;
  replica : option ReplicaState;
}.
#[export] Instance eta_FsMeta : Eta FsMeta :=
  λ f, mkFsMeta (f_id f) (f_name f) (next_ino f) (inodes f) (source_snapshot f) (extent_bytes f)
         (usage f) (quota f) (replica f).

Record FsSnapshotMeta := mkFsSnapshotMeta {
  sn_id : SnapshotId;
  sn_fs_id : FsId;
  sn_name : string;
  sn_created_ns : Z;
  sn_tree : FsMeta;
}.
#[export] Instance eta_FsSnapshotMeta : Eta FsSnapshotMeta :=
  λ s, mkFsSnapshotMeta (sn_id s) (sn_fs_id s) (sn_name s) (sn_created_ns s) (sn_tree s).

(** One inode of a replication increment. *)
Record ReplicaInode := mkReplicaInode {
  r_ino : N;
  r_node_type : NodeType;
  r_mode : N;
  r_uid : N;
  r_gid : N;
  r_nlink : N;
  r_atime_ns : Z;
  r_mtime_ns : Z;
  r_ctime_ns : Z;
  r_xattrs : gmap string bytes;
  r_size : N;
  r_holes : list N;
  r_parent : N;
  r_entries : list (string * option N);
  r_target : option string;
  r_rdev : N;
}.

(** ** The catalog *)

Record Catalog := mkCatalog {
  volumes : gmap VolumeId VolumeMeta;
  snapshots : gmap SnapshotId SnapshotMeta;
  extents : gmap ExtentId ExtentMeta;
  applied_index : N;
  current_term : N;
  free : FreeList.FreeList;
  membership : option Membership.Membership;
  raft_addrs : gmap string string;
  filesystems : gmap FsId FsMeta;
  fs_snapshots : gmap SnapshotId FsSnapshotMeta;
  leases : Leases.Leases;
}.
#[export] Instance eta_Catalog : Eta Catalog :=
  λ c, mkCatalog (volumes c) (snapshots c) (extents c) (applied_index c) (current_term c) (free c)
         (membership c) (raft_addrs c) (filesystems c) (fs_snapshots c) (leases c).

Definition empty_catalog : Catalog :=
  mkCatalog ∅ ∅ ∅ 0 0 [] None ∅ ∅ ∅ Leases.empty_leases.

(** ** Commands *)

Inductive XattrMode := XSet | XCreate | XReplace.

Record SetAttr := mkSetAttr {
  a_mode : option N;
  a_uid : option N;
  a_gid : option N;
  a_size : option N;
  a_atime_ns : option Z;
  a_mtime_ns : option Z;
}.

Inductive FsOp :=
| CreateFs (fs : FsId) (name : string) (now_ns : Z) (extent_bytes : option N)
| DeleteFs (fs : FsId)
| Mknode (fs : FsId) (parent : N) (name op_id : string) (node_type : NodeType)
         (target : option string) (rdev mode : N) (create_mode : option N) (uid gid : N) (now_ns : Z)
| Link (fs : FsId) (ino parent : N) (name : string) (now_ns : Z)
| Unlink (fs : FsId) (parent : N) (name : string) (now_ns : Z)
| Rmdir (fs : FsId) (parent : N) (name : string) (now_ns : Z)
| Rename (fs : FsId) (parent : N) (name : string) (new_parent : N) (new_name : string) (now_ns : Z)
| SetAttrOp (fs : FsId) (ino : N) (attr : SetAttr) (now_ns : Z)
| SetXattr (fs : FsId) (ino : N) (name : string) (value : bytes) (mode : XattrMode) (now_ns : Z)
| RemoveXattr (fs : FsId) (ino : N) (name : string) (now_ns : Z)
| InstallFileExtent (fs : FsId) (ino logical_offset : N) (extent : ExtentRef) (size : N)
                    (now_ns : Z) (replica : bool)
| InstallFileExtents (fs : FsId) (ino : N) (extents : list ExtentRef) (size : N) (now_ns : Z)
                     (replica : bool)
| SnapshotFs (id : SnapshotId) (fs : FsId) (name : string) (now_ns : Z)
| DeleteFsSnapshot (id : SnapshotId)
| CloneFs (id : FsId) (name : string) (snapshot_id : SnapshotId)
| SetQuota (fs : FsId) (max_bytes max_inodes : option N)
| CreateReplica (fs : FsId) (name : string) (now_ns : Z) (extent_bytes : N)
| ReplicaApply (fs : FsId) (from : option SnapshotId) (to : SnapshotId)
               (inodes : list ReplicaInode) (removed : list N)
| ReplicaCommit (fs : FsId) (from : option SnapshotId) (to snapshot : SnapshotId) (name : string)
                (next_ino : N) (now_ns : Z)
| ReplicaPromote (fs : FsId) (force : bool)
| ReplicaDemote (fs : FsId) (snapshot base : SnapshotId).

Inductive MetaCommand :=
| CreateVolume (id : VolumeId) (name : string) (size_bytes : N)
| InstallExtent (volume_id : VolumeId) (logical_offset : N) (extent : ExtentRef)
| InstallExtents (volume_id : VolumeId) (extents : list ExtentRef)
| CreateSnapshot (id : SnapshotId) (volume_id : VolumeId) (name : string)
| DeleteSnapshot (snapshot_id : SnapshotId)
| DeleteVolume (volume_id : VolumeId)
| ResizeVolume (volume_id : VolumeId) (size_bytes : N)
| CloneSnapshot (id : VolumeId) (name : string) (snapshot_id : SnapshotId) (size_bytes : option N)
| MarkExtentReclaimed (extent_id : ExtentId)
| ReplaceReplica (extent_id : ExtentId) (old new : ReplicaRef)
| TierExtent (extent_id : ExtentId) (key : string) (replicas : list ReplicaRef)
| ChangeMembership (membership : Membership.Membership) (addrs : gmap string string)
| Fs (op : FsOp)
| Lease (op : Leases.LeaseOp)
| Noop.

End Catalog.
