(* ===== verification/Store.v ===== *)
(** * Reading the catalog store ([store.rs], [inodes.rs])

    Inodes as paged tables keep them, the records of the store, and a snapshot of
    the store with its cache of inodes.  The records are modelled by the values
    their JSON stands for; the embedded database by its tables, whose reads do not
    fail.  A snapshot's cache never changes what is read: it holds only what the
    records say. *)

From S2P Require Import Prelude MetaError Lru Catalog.

Module Store.
Import Catalog.

Open Scope N_scope.

(** ** Inodes over a type of directory entries *)

Record Attrs := mkAttrs {
  at_ino : N;
  at_mode : N;
  at_uid : N;
  at_gid : N;
  at_nlink : N;
  at_atime_ns : Z;
  at_mtime_ns : Z;
  at_ctime_ns : Z;
  at_op_id : string;
  at_xattrs : gmap string bytes;
}.

Inductive KindOf (E : Type) :=
| KDir (parent : N) (entries : E)
| KFile (size : N) (extents : gmap N ExtentId)
| KSymlink (target : string)
| KSpecial (node_type : NodeType) (rdev : N).
Arguments KDir {E} parent entries.
Arguments KFile {E} size extents.
Arguments KSymlink {E} target.
Arguments KSpecial {E} node_type rdev.

Record InodeOf (E : Type) := mkInodeOf { attrs : Attrs; kd : KindOf E }.
Arguments mkInodeOf {E} attrs kd.
Arguments attrs {E} _.
Arguments kd {E} _.

Definition map_kind {E F} (g : E → F) (k : KindOf E) : KindOf F :=
  match k with
  | KDir p e => KDir p (g e)
  | KFile s m => KFile s m
  | KSymlink t => KSymlink t
  | KSpecial t r => KSpecial t r
  end.
Definition map_entries {E F} (g : E → F) (x : InodeOf E) : InodeOf F := mkInodeOf (attrs x) (map_kind g (kd x)).

(** The inodes of the rest of the development are those with all their entries. *)
Definition of_inode (i : Inode) : InodeOf (gmap string N) :=
  mkInodeOf (mkAttrs (ino i) (mode i) (uid i) (gid i) (nlink i) (atime_ns i) (mtime_ns i) (ctime_ns i) (op_id i) (xattrs i))
    (match kind i with
     | Dir p es => KDir p es
     | File s m => KFile s m
     | Symlink t => KSymlink t
     | Special t r => KSpecial t r
     end).
Definition to_inode (x : InodeOf (gmap string N)) : Inode :=
  let a := attrs x in
  mkInode (at_ino a)
    (match kd x with
     | KDir p es => Dir p es
     | KFile s m => File s m
     | KSymlink t => Symlink t
     | KSpecial t r => Special t r
     end)
    (at_mode a) (at_uid a) (at_gid a) (at_nlink a) (at_atime_ns a) (at_mtime_ns a) (at_ctime_ns a) (at_op_id a) (at_xattrs a).

Lemma to_of_inode i : to_inode (of_inode i) = i.
Proof. by destruct i as [? []]. Qed.
Lemma of_to_inode x : of_inode (to_inode x) = x.
Proof. by destruct x as [[] []]. Qed.

(** ** Directory entries of a paged table *)

Record DirEntries := mkDirEntries {
  de_map : gmap string N;
  changed : gset string;
  de_len : N;
  stored : bool;
}.
#[export] Instance eta_DirEntries : Eta DirEntries :=
  λ d, mkDirEntries (de_map d) (changed d) (de_len d) (stored d).

Abbreviation PInode := (InodeOf DirEntries).

Definition de_default : DirEntries := mkDirEntries ∅ ∅ 0 false.
Definition de_stored (n : N) : DirEntries := mkDirEntries ∅ ∅ n true.
Definition de_from (m : gmap string N) : DirEntries := mkDirEntries m ∅ (N.of_nat (size m)) false.

(** What memory knows of a name; [None] when only the store can tell. *)
Definition known (self : DirEntries) (name : string) : option (option N) :=
  match de_map self !! name with
  | Some i => Some (Some i)
  | None => if negb (stored self) || bool_decide (name ∈ changed self) then Some None else None
  end.

(** Neither count wraps: an entry is counted before it is taken away, and a
    directory has fewer than 2^64 entries. *)
Definition de_set (self : DirEntries) (name : string) (o : option N) (existed : bool) : DirEntries :=
  let self := match o with
              | Some i => self <| de_map ::= <[name := i]> |> <| de_len ::= λ n, n + (if existed then 0 else 1) |>
              | None => self <| de_map ::= delete name |> <| de_len ::= λ n, n - (if existed then 1 else 0) |>
              end in
  self <| changed ::= λ s, {[name]} ∪ s |>.

Definition changes (self : DirEntries) : list (string * option N) :=
  (λ n, (n, de_map self !! n)) <$> bt_elements (changed self).

Definition settled (self : DirEntries) : bool :=
  stored self && bool_decide (de_map self = ∅) && bool_decide (changed self = ∅).

Definition settle (self : DirEntries) : DirEntries := mkDirEntries ∅ ∅ (de_len self) true.

(** ** Records *)

(** The tables [inodes] and [dir_entries]. *)
Record Recs := mkRecs {
  r_inodes : gmap (FsId * N) PInode;
  r_dirents : gmap (FsId * N * string) N;
}.
#[export] Instance eta_Recs : Eta Recs := λ r, mkRecs (r_inodes r) (r_dirents r).

(** The rows of one filesystem and of one directory, in the order of their keys. *)
Definition fs_inodes (r : Recs) (fs : FsId) : gmap N PInode := default ∅ (map_curry (M1 := gmap FsId) (M2 := gmap N) (r_inodes r) !! fs).
Definition dir_names (r : Recs) (fs : FsId) (d : N) : gmap string N := default ∅ (map_curry (M1 := gmap (FsId * N)) (M2 := gmap string) (r_dirents r) !! (fs, d)).

(** [limit]; [None] is [usize::MAX], more than any collection holds. *)
Definition at_most {A} (limit : option nat) (l : list A) : list A :=
  match limit with Some n => take n l | None => l end.

Definition after_name (after : option string) (n : string) : bool :=
  match after with Some a => String.ltb a n | None => true end.

Definition inos_from (r : Recs) (fs : FsId) (from : N) (limit : option nat) (skip : N → bool) : list N :=
  at_most limit (List.filter (λ i, (from <=? i) && negb (skip i)) (bt_keys (fs_inodes r fs))).
Definition inos (r : Recs) (fs : FsId) : list N := inos_from r fs 0 None (λ _, false).

Definition entry (r : Recs) (fs : FsId) (d : N) (name : string) : option N := r_dirents r !! (fs, d, name).

Definition entries (r : Recs) (fs : FsId) (d : N) (after : option string) (limit : option nat) (skip : string → bool) :
    list (string * N) :=
  at_most limit (List.filter (λ x : string * N, after_name after (x.1) && negb (skip (x.1))) (bt_entries (dir_names r fs d))).

(** A directory's record holds the count of its entries; one written before
    entries were paged does not, and they are counted. *)
Definition read (r : Recs) (fs : FsId) (i : N) : option PInode :=
  p ← r_inodes r !! (fs, i);
  Some (map_entries (λ de, if stored de then de
                           else de_stored (N.of_nat (length (entries r fs i None None (λ _, false))))) p).

(** ** A snapshot and its cache *)

Record Snap := mkSnap { recs : Recs; cache : Lru.Lru (K := FsId * N) (V := PInode) }.

Definition put (fs : FsId) (i : N) (p : PInode) (s : Snap) : Snap := mkSnap (recs s) (Lru.put (cache s) (fs, i) p).

Definition get (fs : FsId) (i : N) (s : Snap) : Snap * option PInode :=
  match Lru.get (cache s) (fs, i) with
  | (c, Some p) => (mkSnap (recs s) c, Some p)
  | (c, None) =>
      match read (recs s) fs i with
      | None => (mkSnap (recs s) c, None)
      | Some p => (put fs i p (mkSnap (recs s) c), Some p)
      end
  end.

Definition peek (fs : FsId) (i : N) (s : Snap) : Snap * option PInode :=
  match Lru.get (cache s) (fs, i) with
  | (c, Some p) => (mkSnap (recs s) c, Some p)
  | (c, None) => (mkSnap (recs s) c, read (recs s) fs i)
  end.

Definition take (fs : FsId) (i : N) (s : Snap) : Snap * option PInode :=
  match Lru.take (cache s) (fs, i) with
  | (c, Some p) => (mkSnap (recs s) c, Some p)
  | (c, None) => (mkSnap (recs s) c, read (recs s) fs i)
  end.

(** The cache holds only what the records say. *)
Record coherent (s : Snap) : Prop := {
  co_ok : Lru.ok (cache s);
  co_read fs i p : Lru.holds (cache s) (fs, i) = Some p → read (recs s) fs i = Some p;
}.

(** [s'] is [s] with another coherent cache. *)
Definition same_store (s s' : Snap) : Prop := recs s' = recs s ∧ coherent s'.

Lemma get_read fs i s s' r :
  coherent s → get fs i s = (s', r) → r = read (recs s) fs i ∧ same_store s s'.
Proof.
  intros [Ho Hr]. unfold get. destruct (Lru.get (cache s) (fs, i)) as [c o] eqn:E.
  apply Lru.lru_get_spec in E as (Hc & -> & _ & Hh); [|done].
  assert (coherent (mkSnap (recs s) c)) as Hco by (split; [done|]; simpl; intros g j p; rewrite Hh; apply Hr).
  destruct (Lru.holds _ _) as [p|] eqn:Ep.
  { intros [= <- <-]. apply Hr in Ep. by split. }
  destruct (read (recs s) fs i) as [p|] eqn:Er; intros [= <- <-]; [|by split].
  split; [done|]. split; [done|]. split; [by apply Lru.put_ok|]. simpl. intros g j q [([= -> ->] & ->)|Hq]%Lru.put_sub; [done| |done].
  rewrite Hh in Hq. by apply Hr.
Qed.

Lemma peek_read fs i s s' r :
  coherent s → peek fs i s = (s', r) → r = read (recs s) fs i ∧ same_store s s'.
Proof.
  intros [Ho Hr]. unfold peek. destruct (Lru.get (cache s) (fs, i)) as [c o] eqn:E.
  apply Lru.lru_get_spec in E as (Hc & -> & _ & Hh); [|done].
  assert (coherent (mkSnap (recs s) c)) as Hco by (split; [done|]; simpl; intros g j p; rewrite Hh; apply Hr).
  destruct (Lru.holds _ _) as [p|] eqn:Ep; intros [= <- <-]; [|by split]. apply Hr in Ep. by split.
Qed.

Lemma take_read fs i s s' r :
  coherent s → take fs i s = (s', r) → r = read (recs s) fs i ∧ same_store s s'.
Proof.
  intros [Ho Hr]. unfold take. destruct (Lru.take (cache s) (fs, i)) as [c o] eqn:E.
  apply Lru.take_spec in E as (Hc & -> & _ & Hn & Hh); [|done].
  assert (coherent (mkSnap (recs s) c)) as Hco.
  { split; [done|]. simpl. intros g j p Hp. apply Hr. rewrite <- Hh; [done|]. intros Heq. rewrite Heq in Hp. congruence. }
  destruct (Lru.holds (cache s) (fs, i)) as [p|] eqn:Ep; intros [= <- <-]; [|by split]. apply Hr in Ep. by split.
Qed.

Lemma put_coherent fs i p s : coherent s → read (recs s) fs i = Some p → coherent (put fs i p s).
Proof.
  intros [Ho Hr] Hp. split; [by apply Lru.put_ok|]. simpl. intros g j q [([= -> ->] & ->)|Hq]%Lru.put_sub; [done| |done]. by apply Hr.
Qed.

Lemma lookup_fs_inodes r fs i : fs_inodes r fs !! i = r_inodes r !! (fs, i).
Proof. unfold fs_inodes. rewrite <- (lookup_map_curry (M1 := gmap FsId) (M2 := gmap N)). by destruct (map_curry (M1 := gmap FsId) (M2 := gmap N) (r_inodes r) !! fs). Qed.
Lemma lookup_dir_names r fs d n : dir_names r fs d !! n = r_dirents r !! (fs, d, n).
Proof. unfold dir_names. rewrite <- (lookup_map_curry (M1 := gmap (FsId * N)) (M2 := gmap string) (r_dirents r) (fs, d) n). by destruct (map_curry (M1 := gmap (FsId * N)) (M2 := gmap string) (r_dirents r) !! (fs, d)). Qed.

End Store.
