(* ===== verification/Extents.v ===== *)
(** * Extent references ([metadata.rs])

    Taking and dropping references on extents, and the accounting behind them:
    an extent's [refs] is the number of places of volumes, snapshots,
    filesystems and their snapshots that name it.  While a command runs the two
    may differ by references already moved on one side only; [balanced] states
    the difference, and a loop that settles it cannot fail. *)

From S2P Require Import Prelude MetaError FreeList Catalog.

Module Extents.
Import Catalog.

Open Scope N_scope.

(** ** Operations *)

(** What a command works on: the catalog and the [&mut Vec<ExtentId>] it reports
    the extents that lost their last reference in. *)
Record Ctx := mkCtx { cat : Catalog; gc : list ExtentId }.
#[export] Instance eta_Ctx : Eta Ctx := λ s, mkCtx (cat s) (gc s).

Abbreviation M := (SM Ctx MetaError).

(** Change the catalog, keep the list. *)
Definition edit (f : Catalog → Catalog) : M () := sm_modify (λ s, s <| cat ::= f |>).

Definition written_end (self : Catalog) (m : gmap N ExtentId) : N :=
  foldr N.max 0 ((λ x, u64_add (logical_offset (extent x)) (len (extent x)))
                   <$> omap (λ id, extents self !! id) (bt_values m)).

Definition reserve_all (e : ExtentRef) (fl : FreeList.FreeList) : FreeList.FreeList :=
  foldl (λ fl r, fst (FreeList.reserve fl (node_id r) (device_index r) (offset r) (stored_len e)))
    fl (replicas e).

Definition add_extent_ref (e : ExtentRef) (self : Catalog) : Catalog :=
  let self := match extents self !! eid e with
              | None => self <| free ::= reserve_all e |>
              | Some _ => self
              end in
  match extents self !! eid e with
  | Some m => self <| extents ::= <[eid e := m <| refs ::= N.succ |>]> |>
  | None => self <| extents ::= <[eid e := mkExtentMeta e 1 false]> |>
  end.

Definition dec_ref (id : ExtentId) : M () :=
  s ← sm_get;
  e ← sm_lift (ok_or (extents (cat s) !! id) NotFound);
  if refs e =? 0 then sm_err Invalid
  else
    edit (λ c, c <| extents ::= <[id := e <| refs := refs e - 1 |>]> |>) ;;
    if refs e - 1 =? 0 then sm_modify (λ s, s <| gc ::= λ l, l ++ [id] |>) else mret ().

(** [self.extents.get_mut(id).ok_or(NotFound)?.refs += 1]. *)
Definition inc_ref (id : ExtentId) : M () :=
  s ← sm_get;
  e ← sm_lift (ok_or (extents (cat s) !! id) NotFound);
  edit (λ c, c <| extents ::= <[id := e <| refs ::= N.succ |>]> |>).

Definition extent_len (self : Catalog) (id : ExtentId) : N :=
  match extents self !! id with Some m => len (extent m) | None => 0 end.

(** ** Counting references *)

Definition count (x : ExtentId) (l : list ExtentId) : nat := length (base.filter (x =.) l).

Definition map_refs (x : ExtentId) (m : gmap N ExtentId) : nat := count x (map_to_list m).*2.

Definition inode_refs (x : ExtentId) (i : Inode) : nat :=
  match kind i with File _ m => map_refs x m | _ => 0%nat end.

Definition tree_refs (x : ExtentId) (f : FsMeta) : nat := map_sum (inode_refs x) (inodes f).

Definition catalog_refs (x : ExtentId) (c : Catalog) : nat :=
  (map_sum (λ v, map_refs x (v_extents v)) (volumes c)
   + map_sum (λ s, map_refs x (s_extents s)) (snapshots c)
   + map_sum (tree_refs x) (filesystems c)
   + map_sum (λ s, tree_refs x (sn_tree s)) (fs_snapshots c))%nat.

(** The references an extent counts. *)
Definition held (x : ExtentId) (c : Catalog) : nat :=
  match extents c !! x with Some m => N.to_nat (refs m) | None => 0%nat end.

(** Every reference is counted, apart from those [due] to be taken and those
    [owed] to be dropped. *)
Definition balanced (c : Catalog) (due owed : list ExtentId) : Prop :=
  ∀ x, (held x c + count x due = catalog_refs x c + count x owed)%nat.

Definition refs_exact (c : Catalog) : Prop := ∀ x, held x c = catalog_refs x c.

Lemma balanced_nil c : balanced c [] [] ↔ refs_exact c.
Proof. unfold balanced, refs_exact, count. simpl. setoid_rewrite Nat.add_0_r. done. Qed.

Lemma count_cons x y l : count x (y :: l) = ((if decide (x = y) then 1 else 0) + count x l)%nat.
Proof. unfold count. rewrite filter_cons. by case_decide. Qed.

Lemma count_nil x : count x [] = 0%nat.
Proof. done. Qed.

Lemma count_app x l1 l2 : count x (l1 ++ l2) = (count x l1 + count x l2)%nat.
Proof. unfold count. by rewrite filter_app, length_app. Qed.

#[export] Instance count_perm x : Proper ((≡ₚ) ==> eq) (count x).
Proof. intros l1 l2 Hl. unfold count. by rewrite Hl. Qed.

Lemma count_elem x l : x ∈ l → (1 ≤ count x l)%nat.
Proof.
  induction l as [|y l IH]; [set_solver|]. rewrite elem_of_cons, count_cons.
  case_decide; [lia|]. intros [?|?%IH]; [done|lia].
Qed.

Lemma count_bt_values {V} `{!BTreeKey K, Countable K} x (m : gmap K V) (f : V → ExtentId) :
  count x (f <$> bt_values m) = count x (f <$> (map_to_list m).*2).
Proof. unfold bt_values. by rewrite bt_entries_perm. Qed.

Lemma map_refs_values x m : map_refs x m = count x (bt_values m).
Proof. unfold map_refs, bt_values. by rewrite bt_entries_perm. Qed.

Lemma map_refs_empty x : map_refs x ∅ = 0%nat.
Proof. unfold map_refs. by rewrite map_to_list_empty. Qed.

Lemma map_refs_insert x m k y :
  (map_refs x (<[k := y]> m) + count x (option_list (m !! k))
   = (if decide (x = y) then 1 else 0) + map_refs x m)%nat.
Proof.
  unfold map_refs. destruct (m !! k) as [z|] eqn:Hk; simpl.
  - rewrite <- insert_delete_eq, map_to_list_insert by apply lookup_delete_eq.
    rewrite <- (map_to_list_delete m k z Hk). csimpl. rewrite !count_cons, count_nil. lia.
  - rewrite map_to_list_insert by done. csimpl. rewrite count_cons, count_nil. lia.
Qed.

(** ** What every step of a command keeps *)

Definition zero (x : ExtentId) (c : Catalog) : Prop :=
  ∃ m, extents c !! x = Some m ∧ refs m = 0.

(** The references balance; the list reports extents without references, and
    every one that lost its last since the command started on [c0]. *)
Record inv (c0 : Catalog) (due owed : list ExtentId) (s : Ctx) : Prop := {
  inv_bal : balanced (cat s) due owed;
  inv_sound : ∀ x, x ∈ gc s → zero x (cat s);
  inv_complete : ∀ x, zero x (cat s) → x ∈ gc s ∨ zero x c0;
}.

Lemma inv_start c : refs_exact c → inv c [] [] (mkCtx c []).
Proof. intros H. split; simpl; [by apply balanced_nil|set_solver|auto]. Qed.

#[export] Instance inv_perm c0 : Proper ((≡ₚ) ==> (≡ₚ) ==> eq ==> iff) (inv c0).
Proof.
  intros d1 d2 Hd o1 o2 Ho s ? <-.
  assert (balanced (cat s) d1 o1 ↔ balanced (cat s) d2 o2) as Hb.
  { unfold balanced. by setoid_rewrite Hd; setoid_rewrite Ho. }
  split; intros [? ? ?]; split; try done; by apply Hb.
Qed.

(** A change of the catalog that leaves the extents alone moves references. *)
Lemma inv_edit c0 due owed due' owed' s f :
  inv c0 due owed s → extents (f (cat s)) = extents (cat s) →
  (∀ x, catalog_refs x (f (cat s)) + count x owed' + count x due
        = catalog_refs x (cat s) + count x owed + count x due')%nat →
  inv c0 due' owed' (s <| cat ::= f |>).
Proof.
  intros [Hb Hs Hc] He Hr. unfold zero in *. split; simpl; unfold zero; rewrite ?He; try done.
  intros x. specialize (Hb x). specialize (Hr x). unfold held in *. rewrite He. lia.
Qed.

(** The catalogs that differ in their extents only. *)
Definition only_extents (c c' : Catalog) : Prop := ∃ es, c' = c <| extents := es |>.

#[export] Instance only_extents_po : PreOrder only_extents.
Proof.
  split.
  - intros c. exists (extents c). by destruct c.
  - intros c1 c2 c3 [es ->] [es' ->]. by exists es'.
Qed.

Lemma only_extents_refs x c c' : only_extents c c' → catalog_refs x c' = catalog_refs x c.
Proof. by intros [es ->]. Qed.

Lemma held_insert x y m c c' :
  extents c' = <[y := m]> (extents c) →
  held x c' = if decide (x = y) then N.to_nat (refs m) else held x c.
Proof.
  intros He. unfold held. rewrite He. case_decide as Hd.
  - subst. by rewrite lookup_insert_eq.
  - by rewrite lookup_insert_ne.
Qed.

Lemma zero_insert x y m c c' :
  extents c' = <[y := m]> (extents c) →
  zero x c' ↔ if decide (x = y) then refs m = 0 else zero x c.
Proof.
  intros He. unfold zero. rewrite He. case_decide as Hd.
  - subst. rewrite lookup_insert_eq. naive_solver.
  - by rewrite lookup_insert_ne.
Qed.

(** An extent still referenced is known and counts it. *)
Lemma referenced c0 owed s x :
  inv c0 [] owed s → (1 ≤ catalog_refs x (cat s) + count x owed)%nat →
  ∃ m, extents (cat s) !! x = Some m ∧ 1 <= refs m.
Proof.
  intros [Hb _ _] Hx. specialize (Hb x). rewrite count_nil in Hb. unfold held in Hb.
  destruct (extents (cat s) !! x) as [m|]; [exists m; split; [done|lia]|lia].
Qed.

Lemma add_extent_ref_eq e c :
  ∃ m fl, add_extent_ref e c = c <| free := fl |> <| extents ::= <[eid e := m]> |> ∧
    refs m = N.of_nat (held (eid e) c) + 1.
Proof.
  unfold add_extent_ref, held. destruct (extents c !! eid e) as [m|] eqn:Hm.
  - exists (m <| refs ::= N.succ |>), (free c). rewrite Hm. simpl. split; [by destruct c|lia].
  - exists (mkExtentMeta e 1 false), (reserve_all e (free c)). simpl. rewrite Hm. by split.
Qed.

Lemma add_extent_ref_inv c0 e due owed s :
  gc s = [] → inv c0 (eid e :: due) owed s → inv c0 due owed (s <| cat ::= add_extent_ref e |>).
Proof.
  intros Hgc [Hb Hs Hc]. destruct (add_extent_ref_eq e (cat s)) as (m & fl & Heq & Hm).
  split; cbn [set_field cat gc]; rewrite ?Heq.
  - intros x. specialize (Hb x). rewrite count_cons in Hb. rewrite (held_insert x (eid e) m (cat s)) by reflexivity.
    change (catalog_refs x _) with (catalog_refs x (cat s)).
    case_decide as Hd; [|lia]. subst. rewrite Hm. lia.
  - rewrite Hgc. set_solver.
  - intros x. rewrite (zero_insert x (eid e) m (cat s)) by reflexivity.
    case_decide as Hd; [subst; lia|]. apply Hc.
Qed.

(** ** Loops over references *)

Lemma wp_dec_ref c0 x owed s :
  inv c0 [] (x :: owed) s →
  wp (dec_ref x) s (λ _ s', inv c0 [] owed s' ∧ only_extents (cat s) (cat s')) (λ _ _, False).
Proof.
  intros Hi. destruct (referenced c0 (x :: owed) s x Hi) as (m & Hm & Hr).
  { rewrite count_cons, decide_True by done. lia. }
  destruct Hi as [Hb Hs Hc]. unfold dec_ref. wp_simpl. rewrite Hm. simpl.
  destruct (N.eqb_spec (refs m) 0); [lia|]. unfold edit. wp_simpl.
  assert (x ∉ gc s) as Hx.
  { intros (m' & Hm' & Hz)%Hs. rewrite Hm in Hm'. injection Hm' as <-. lia. }
  assert (balanced ((cat s) <| extents ::= <[x := m <| refs := refs m - 1 |>]> |>) [] owed) as Hb'.
  { intros y. specialize (Hb y). rewrite count_cons in Hb. rewrite (held_insert y x _ (cat s)) by reflexivity.
    change (catalog_refs y _) with (catalog_refs y (cat s)). unfold held in Hb.
    case_decide as Hd; [|unfold held; lia]. subst. rewrite Hm in Hb. simpl. lia. }
  destruct (N.eqb_spec (refs m - 1) 0) as [Hz|Hz]; wp_simpl; (split; [split|by eexists]);
    cbn [set_field cat gc]; try done; intros y; rewrite (zero_insert y x _ (cat s)) by reflexivity; case_decide as Hd; subst.
  - done.
  - rewrite elem_of_app, list_elem_of_singleton. naive_solver.
  - rewrite elem_of_app, list_elem_of_singleton. naive_solver.
  - rewrite elem_of_app, list_elem_of_singleton. naive_solver.
  - done.
  - apply Hs.
  - done.
  - apply Hc.
Qed.

Lemma wp_dec_refs c0 l rest s :
  inv c0 [] (l ++ rest) s →
  wp (sm_for l dec_ref) s (λ _ s', inv c0 [] rest s' ∧ only_extents (cat s) (cat s')) (λ _ _, False).
Proof.
  intros Hi.
  apply (wp_for l dec_ref (λ l s', inv c0 [] (l ++ rest) s' ∧ only_extents (cat s) (cat s'))); [|done..].
  intros x l' s' [Hi' Ho]. eapply wp_mono; [by apply wp_dec_ref| |done].
  intros [] s'' [? ?]. split; [done|by etrans].
Qed.

Lemma wp_inc_ref c0 x owed s :
  inv c0 [] owed s → (1 ≤ catalog_refs x (cat s))%nat →
  wp (inc_ref x) s (λ _ s', inv c0 [] (x :: owed) s' ∧ only_extents (cat s) (cat s') ∧ gc s' = gc s)
    (λ _ _, False).
Proof.
  intros Hi Hx. destruct (referenced c0 owed s x Hi) as (m & Hm & Hr); [lia|].
  destruct Hi as [Hb Hs Hc]. unfold inc_ref, edit. wp_simpl. rewrite Hm. simpl.
  change (wp _ ?s ?Q ?R) with (Q () ((s <| cat ::= λ c, c <| extents ::= <[x := m <| refs ::= N.succ |>]> |> |>))).
  split; [split|split; [by eexists|done]]; cbn [set_field cat gc].
  - intros y. specialize (Hb y). rewrite count_cons. rewrite (held_insert y x _ (cat s)) by reflexivity.
    change (catalog_refs y _) with (catalog_refs y (cat s)). unfold held in Hb.
    case_decide as Hd; [|unfold held; lia]. subst. rewrite Hm in Hb. simpl. lia.
  - intros y Hy. rewrite (zero_insert y x _ (cat s)) by reflexivity. case_decide as Hd; [|auto]. subst.
    destruct (Hs x Hy) as (m' & Hm' & Hz). rewrite Hm in Hm'. injection Hm' as <-. lia.
  - intros y. rewrite (zero_insert y x _ (cat s)) by reflexivity. case_decide as Hd; [|auto]. subst. simpl. lia.
Qed.

Lemma wp_inc_refs c0 l owed s :
  inv c0 [] owed s → (∀ x, x ∈ l → 1 ≤ catalog_refs x (cat s))%nat →
  wp (sm_for l inc_ref) s
    (λ _ s', inv c0 [] (l ++ owed) s' ∧ only_extents (cat s) (cat s') ∧ gc s' = gc s) (λ _ _, False).
Proof.
  intros Hi Hl. revert owed s Hi Hl. induction l as [|x l IH]; intros owed s Hi Hl; cbn [sm_for].
  - wp_simpl. split_and!; [done|done|done].
  - wp_simpl. eapply wp_mono; [apply wp_inc_ref; [done|apply Hl; set_solver]| |done].
    intros [] s' (Hi' & Ho & Hg). eapply wp_mono; [apply (IH (x :: owed) s' Hi')| |done].
    + intros y Hy. rewrite (only_extents_refs y _ _ Ho). apply Hl. set_solver.
    + intros [] s'' (Hi'' & Ho' & Hg'). split_and!; [|by etrans|congruence].
      by rewrite <- Permutation_middle in Hi''.
Qed.

End Extents.
