(* ===== verification/FsTree.v ===== *)
(** * One filesystem's inodes and directories ([namespace.rs])

    The methods of [Inode] and [FsMeta] and the name checks.  The walk up the
    directory tree ([is_within]) is given one step more than there are inodes:
    by then it has ended or it never will ([is_within_ends]). *)

From Stdlib Require Import Ascii.
From S2P Require Import Prelude MetaError Acl Catalog.

Module FsTree.
Import Catalog.

Open Scope N_scope.

(** ** Names *)

Definition contains (x : Ascii.ascii) (s : string) : bool := existsb (Ascii.eqb x) (String.list_ascii_of_string s).

(** [name.split_once(x)]. *)
Fixpoint split_once (x : Ascii.ascii) (s : string) : option (string * string) :=
  match s with
  | EmptyString => None
  | String.String y s =>
      if Ascii.eqb x y then Some (EmptyString, s)
      else '(a, b) ← split_once x s; Some (String.String y a, b)
  end.

Definition strlen (s : string) : N := N.of_nat (String.length s).

Definition check_xattr_name (name : string) : res MetaError () :=
  if String.eqb name EmptyString || (MAX_NAME_BYTES <? strlen name) || contains Ascii.zero name
  then Err Invalid
  else if String.eqb name Acl.ACCESS || String.eqb name Acl.DEFAULT then Ok ()
  else
    match split_once "."%char name with
    | Some (ns, rest) =>
        if (String.eqb ns "user" || String.eqb ns "trusted" || String.eqb ns "security")
           && negb (String.eqb rest EmptyString)
        then Ok () else Err Unsupported
    | None => Err Unsupported
    end.

Definition check_name (name : string) : res MetaError () :=
  reject_if (String.eqb name EmptyString || (MAX_NAME_BYTES <? strlen name)
             || String.eqb name "." || String.eqb name ".."
             || contains "/"%char name || contains Ascii.zero name) Invalid.

(** ** Inodes *)

Definition node_type (i : Inode) : NodeType :=
  match kind i with
  | Dir _ _ => NDir
  | File _ _ => NFile
  | Symlink _ => NSymlink
  | Special t _ => t
  end.

Definition is_dir (self : Inode) : bool := match kind self with Dir _ _ => true | _ => false end.

Definition Inode_new (i : N) (k : InodeKind) (m u g : N) (now : Z) : Inode :=
  mkInode i k (N.land m 4095) u g (match k with Dir _ _ => 2 | _ => 1 end) now now now EmptyString ∅.

Definition size (self : Inode) : N :=
  match kind self with
  | Dir _ es => N.of_nat (base.size es)
  | File n _ => n
  | Symlink t => strlen t
  | Special _ _ => 0
  end.

Definition touch (now : Z) (self : Inode) : Inode :=
  self <| mtime_ns := now |> <| ctime_ns := now |>.

(** ** Filesystems *)

Definition inode (self : FsMeta) (i : N) : res MetaError Inode := ok_or (inodes self !! i) NotFound.

(** Edit in place what [inode_mut] returns. *)
Definition edit_inode (i : N) (g : Inode → Inode) : SM FsMeta MetaError () :=
  x ← sm_try (λ f, inode f i);
  sm_modify (λ f, f <| inodes ::= <[i := g x]> |>).

Definition dir (self : FsMeta) (d : N) : res MetaError Inode :=
  i ← inode self d;
  if negb (is_dir i) then Err NotDir else Ok i.

(** [InodeTable::entry]. *)
Definition entry_of (d : Inode) (name : string) : option N :=
  match kind d with Dir _ es => es !! name | _ => None end.

Definition entry (self : FsMeta) (d : N) (name : string) : res MetaError (option N) :=
  i ← dir self d; Ok (entry_of i name).

(** Names after [after], in order, at most [limit] of them. *)
Definition entries (self : FsMeta) (d : N) (after : option string) (limit : N) :
    res MetaError (list (string * N)) :=
  i ← dir self d;
  Ok (match kind i with
      | Dir _ es =>
          take (N.to_nat limit)
            (List.filter (λ x : string * N,
               match after with Some a => String.ltb a (x.1) | None => true end) (bt_entries es))
      | _ => []
      end).

(** [DirEntries::set]. *)
Definition with_entry (name : string) (o : option N) (k : InodeKind) : InodeKind :=
  match k with
  | Dir p es => Dir p (match o with Some c => <[name := c]> es | None => delete name es end)
  | k => k
  end.

(** [InodeTable::set_entry]. *)
Definition table_set_entry (d : N) (name : string) (o : option N) : SM FsMeta MetaError (option N) :=
  i ← sm_try (λ f, inode f d);
  let old := entry_of i name in
  if is_dir i
  then edit_inode d (λ i, i <| kind ::= with_entry name o |>) ;; mret old
  else sm_err NotDir.

Definition set_entry (d : N) (name : string) (o : option N) : SM FsMeta MetaError () :=
  sm_try (λ f, dir f d) ;;
  table_set_entry d name o ;;
  mret ().

Definition lookup (self : FsMeta) (d : N) (name : string) : res MetaError N :=
  o ← entry self d name; ok_or o NotFound.

Definition inherit_acls (self : FsMeta) (parent : N) (t : NodeType) (m : N) (create_mode : option N) :
    res MetaError (N * list (string * bytes)) :=
  if bool_decide (t = NSymlink) then Ok (m, [])
  else
    p ← inode self parent;
    match xattrs p !! Acl.DEFAULT with
    | None => Ok (m, [])
    | Some raw =>
        a ← Acl.parse raw;
        let '(access, m) := Acl.create_masq a (default m create_mode) in
        let acls := (if negb (Acl.is_minimal access) then [(Acl.ACCESS, Acl.encode access)] else [])
                    ++ (if bool_decide (t = NDir) then [(Acl.DEFAULT, raw)] else []) in
        Ok (m, acls)
    end.

Definition check_inode_quota (self : FsMeta) : res MetaError () :=
  match quota self ≫= max_inodes with
  | Some m => reject_if (m <=? N.of_nat (base.size (inodes self))) Quota
  | None => Ok ()
  end.

Definition dir_changed (d : N) (subdirs : Z) (now : Z) : SM FsMeta MetaError () :=
  edit_inode d (λ i, touch now (i <| nlink ::= λ n, as_u32 (Z.max (Z.of_N n + subdirs) 0) |>)).

Definition drop_link (i : N) (now : Z) : SM FsMeta MetaError (option Inode) :=
  edit_inode i (λ x, x <| nlink ::= λ n, n - 1 |> <| ctime_ns := now |>) ;;
  x ← sm_try (λ f, inode f i);
  if nlink x =? 0
  then sm_modify (λ f, f <| inodes ::= delete i |>) ;; mret (Some x)
  else mret None.

Fixpoint walk_up (fuel : nat) (self : FsMeta) (i ancestor : N) : res MetaError bool :=
  match fuel with
  | O => Panic
  | S fuel =>
      if i =? ancestor then Ok true
      else
        x ← inode self i;
        match kind x with
        | Dir p _ => if negb (i =? ROOT_INO) then walk_up fuel self p ancestor else Ok false
        | _ => Ok false
        end
  end.

(** [Panic] stands for a walk that never ends. *)
Definition is_within (self : FsMeta) (i ancestor : N) : res MetaError bool :=
  walk_up (S (base.size (inodes self))) self i ancestor.

(** Every extent a list of inodes references, in order. *)
Definition file_extents (l : list Inode) : list ExtentId :=
  l ≫= λ i, match kind i with File _ m => bt_values m | _ => [] end.

(** ** Reading and editing *)

Definition put (f : FsMeta) (i : N) (x : Inode) : FsMeta := f <| inodes ::= <[i := x]> |>.

Lemma put_same f i x y : put (put f i x) i y = put f i y.
Proof. unfold put. simpl. by rewrite insert_insert_eq. Qed.

Lemma put_comm f i j x y : i ≠ j → put (put f i x) j y = put (put f j y) i x.
Proof. intros Hij. unfold put. simpl. by rewrite insert_insert_ne. Qed.

Lemma inode_Ok f i x : inode f i = Ok x ↔ inodes f !! i = Some x.
Proof. unfold inode, ok_or. destruct (inodes f !! i); naive_solver. Qed.

Lemma is_dir_true x : is_dir x = true ↔ ∃ p es, kind x = Dir p es.
Proof. unfold is_dir. destruct (kind x); naive_solver. Qed.

Lemma dir_Ok f d x : dir f d = Ok x ↔ inodes f !! d = Some x ∧ is_dir x = true.
Proof.
  unfold dir, inode, mbind, res_bind, ok_or. destruct (inodes f !! d) as [y|]; [|naive_solver].
  destruct (is_dir y) eqn:Hy; simpl; split.
  - by intros [= <-].
  - by intros [[= <-] _].
  - done.
  - intros [[= <-] ?]. congruence.
Qed.

Lemma entry_Ok f d name o :
  entry f d name = Ok o ↔ ∃ p, inodes f !! d = Some p ∧ is_dir p = true ∧ entry_of p name = o.
Proof.
  unfold entry, mbind, res_bind. split.
  - destruct (dir f d) as [p| |] eqn:Hd; [|done..]. apply dir_Ok in Hd as []. naive_solver.
  - intros (p & Hp & Hdir & <-). by rewrite (proj2 (dir_Ok f d p)).
Qed.

Lemma lookup_Ok f d name i :
  lookup f d name = Ok i ↔ ∃ p, inodes f !! d = Some p ∧ is_dir p = true ∧ entry_of p name = Some i.
Proof.
  unfold lookup, mbind, res_bind. split.
  - destruct (entry f d name) as [o| |] eqn:He; [|done..]. apply entry_Ok in He as (p & ? & ? & <-).
    destruct (entry_of p name) eqn:Ho; [|done]. intros [= ->]. by exists p.
  - intros (p & Hp & Hdir & Ho). rewrite (proj2 (entry_Ok f d name (Some i))) by (by exists p). done.
Qed.

(** None of the reads panics. *)
Lemma inode_no_panic f i : inode f i ≠ Panic.
Proof. unfold inode, ok_or. by case_match. Qed.
Lemma dir_no_panic f d : dir f d ≠ Panic.
Proof. unfold dir, mbind, res_bind, inode, ok_or. by repeat case_match. Qed.
Lemma entry_no_panic f d name : entry f d name ≠ Panic.
Proof.
  unfold entry, mbind, res_bind. pose proof (dir_no_panic f d). by destruct (dir f d).
Qed.
Lemma lookup_no_panic f d name : lookup f d name ≠ Panic.
Proof.
  unfold lookup, mbind, res_bind, ok_or. pose proof (entry_no_panic f d name).
  destruct (entry f d name); [by case_match|done..].
Qed.
Lemma check_inode_quota_no_panic f : check_inode_quota f ≠ Panic.
Proof. unfold check_inode_quota, reject_if. by repeat case_match. Qed.

(** A read that may fail: the rest runs on the value, an error changes nothing. *)
Lemma wp_read {E A} (r : res E A) (P : A → Prop) (Q : E → Prop) :
  r ≠ Panic → (∀ a, r = Ok a → P a) → (∀ e, Q e) →
  match r with Ok a => P a | Err e => Q e | Panic => False end.
Proof. intros Hp HP HQ. destruct r; [auto..|done]. Qed.

Lemma wp_edit_inode i g f x Q R :
  inodes f !! i = Some x → Q () (put f i (g x)) → wp (edit_inode i g) f Q R.
Proof. intros Hx HQ. unfold edit_inode. wp_simpl. unfold inode. by rewrite Hx. Qed.

Lemma wp_table_set_entry d name o f p Q R :
  inodes f !! d = Some p → is_dir p = true →
  Q (entry_of p name) (put f d (p <| kind ::= with_entry name o |>)) →
  wp (table_set_entry d name o) f Q R.
Proof.
  intros Hp Hd HQ. unfold table_set_entry. wp_simpl. unfold inode. rewrite Hp. simpl. rewrite Hd.
  wp_simpl. by apply (wp_edit_inode _ _ _ p).
Qed.

Lemma wp_set_entry d name o f p Q R :
  inodes f !! d = Some p → is_dir p = true →
  Q () (put f d (p <| kind ::= with_entry name o |>)) → wp (set_entry d name o) f Q R.
Proof.
  intros Hp Hd HQ. unfold set_entry. wp_simpl. rewrite (proj2 (dir_Ok f d p)) by done.
  wp_simpl. by apply (wp_table_set_entry _ _ _ _ p).
Qed.

Lemma is_dir_with_entry name o x : is_dir (x <| kind ::= with_entry name o |>) = is_dir x.
Proof. unfold is_dir. simpl. by destruct (kind x). Qed.

(** An entry set and the directory stamped: the new directory inode. *)
Definition relinked (name : string) (o : option N) (subdirs : Z) (now : Z) (p : Inode) : Inode :=
  touch now (p <| kind ::= with_entry name o |>
               <| nlink ::= λ n, as_u32 (Z.max (Z.of_N n + subdirs) 0) |>).

Lemma wp_relink {B} d name o subdirs now f p (k : () → SM FsMeta MetaError B) Q R :
  inodes f !! d = Some p → is_dir p = true →
  wp (k ()) (put f d (relinked name o subdirs now p)) Q R →
  wp (set_entry d name o ;; x ← dir_changed d subdirs now; k x) f Q R.
Proof.
  intros Hp Hd HQ. wp_simpl. apply (wp_set_entry _ _ _ _ p); [done..|]. wp_simpl.
  eapply (wp_edit_inode _ _ _ _); [unfold put; simpl; by rewrite lookup_insert_eq|].
  by rewrite put_same.
Qed.

Lemma wp_drop_link i now f x Q R :
  inodes f !! i = Some x →
  (let y := x <| nlink ::= λ n, n - 1 |> <| ctime_ns := now |> in
   if nlink x - 1 =? 0 then Q (Some y) (f <| inodes ::= delete i |>) else Q None (put f i y)) →
  wp (drop_link i now) f Q R.
Proof.
  intros Hx HQ. unfold drop_link. wp_simpl. apply (wp_edit_inode _ _ _ x); [done|]. wp_simpl.
  unfold inode at 1, put at 1. simpl. rewrite lookup_insert_eq. simpl. simpl in HQ.
  destruct (_ =? 0); wp_simpl; [|done].
  unfold put. simpl. by rewrite delete_insert_eq.
Qed.

(** ** Walking up the tree *)

Definition parent_of (f : FsMeta) (d p : N) : Prop :=
  d ≠ ROOT_INO ∧ ∃ x es, inodes f !! d = Some x ∧ kind x = Dir p es.

Lemma parent_of_fun f d p q : parent_of f d p → parent_of f d q → p = q.
Proof. intros (_ & x & es & Hx & Hk) (_ & y & es' & Hy & Hk'). congruence. Qed.

(** The walk from [d] to [a] ends after [n] steps. *)
Inductive stops (f : FsMeta) (a : N) : nat → N → Prop :=
| stop_here d : (d = a ∨ ∀ p, ¬ parent_of f d p) → stops f a 0 d
| stop_later n d p : d ≠ a → parent_of f d p → stops f a n p → stops f a (S n) d.

Lemma stops_fun f a n m d : stops f a n d → stops f a m d → n = m.
Proof.
  intros Hn. revert m. induction Hn as [d Hd|n d p Ha Hp _ IH]; intros m Hm;
    inversion Hm as [d' Hd'|m' d' q Ha' Hq Hm']; subst.
  - done.
  - destruct Hd as [?|Hd]; [done|]. by destruct (Hd q).
  - destruct Hd' as [?|Hd']; [done|]. by destruct (Hd' p).
  - f_equal. apply IH. by rewrite (parent_of_fun f d p q).
Qed.

(** The inodes on the way are all different. *)
Lemma stops_path f a n d :
  stops f a n d → ∃ l, length l = n ∧ NoDup l ∧ ∀ x, x ∈ l →
    is_Some (inodes f !! x) ∧ ∃ k, (1 ≤ k ≤ n)%nat ∧ stops f a k x.
Proof.
  induction 1 as [d Hd|n d p Ha Hp Hn IH].
  - exists []. split_and!; [done|constructor|set_solver].
  - destruct IH as (l & Hlen & Hnd & Hl). exists (d :: l).
    assert (stops f a (S n) d) as Hs by (by econstructor). split_and!.
    + simpl. congruence.
    + constructor; [|done]. intros (_ & k & Hk & Hk')%Hl. pose proof (stops_fun _ _ _ _ _ Hs Hk'). lia.
    + intros x [->|Hx]%elem_of_cons.
      * destruct Hp as (_ & y & es & Hy & _). split; [by eexists|]. exists (S n). split; [lia|done].
      * destruct (Hl x Hx) as (? & k & ? & ?). split; [done|]. exists k. split; [lia|done].
Qed.

Lemma stops_bound f a n d : stops f a n d → (n ≤ base.size (inodes f))%nat.
Proof.
  intros (l & <- & Hnd & Hl)%stops_path. rewrite <- size_dom, <- (size_list_to_set (C := gset N) l) by done.
  apply subseteq_size. intros x Hx%elem_of_list_to_set. apply elem_of_dom. by apply Hl.
Qed.

Lemma walk_up_unfold n f d a :
  walk_up (S n) f d a =
  if d =? a then Ok true
  else match inodes f !! d with
       | None => Err NotFound
       | Some x => match kind x with
                   | Dir p _ => if negb (d =? ROOT_INO) then walk_up n f p a else Ok false
                   | _ => Ok false
                   end
       end.
Proof. cbn [walk_up]. unfold inode. by destruct (inodes f !! d). Qed.

Lemma parent_of_dec f d : (∃ p, parent_of f d p) ∨ ∀ p, ¬ parent_of f d p.
Proof.
  destruct (decide (d = ROOT_INO)) as [->|Hr]; [right; by intros p [? _]|].
  destruct (inodes f !! d) as [x|] eqn:Hx; [|right; intros p (_ & y & es & Hy & _); congruence].
  destruct (kind x) as [p es| | |] eqn:Hk; [left; exists p; split; eauto|right..];
    intros q (_ & y & es' & Hy & Hk'); congruence.
Qed.

Lemma walk_up_step n f d a p : d ≠ a → parent_of f d p → walk_up (S n) f d a = walk_up n f p a.
Proof.
  intros Ha (Hr & x & es & Hx & Hk). rewrite walk_up_unfold, Hx, Hk.
  apply N.eqb_neq in Ha, Hr. by rewrite Ha, Hr.
Qed.

Lemma walk_up_stop n f d a :
  d ≠ a → (∀ p, ¬ parent_of f d p) → walk_up (S n) f d a ∈ [Ok false; Err NotFound].
Proof.
  intros Ha Hp. rewrite walk_up_unfold, (proj2 (N.eqb_neq d a)) by done.
  destruct (inodes f !! d) as [x|] eqn:Hx; [|set_solver].
  destruct (kind x) as [p es| | |] eqn:Hk; [|set_solver..].
  destruct (N.eqb_spec d ROOT_INO); [set_solver|]. destruct (Hp p). split; eauto.
Qed.

(** With enough fuel the walk ends exactly when it does in the source. *)
Lemma walk_up_ends n f d a :
  walk_up n f d a ≠ Panic ↔ ∃ k, (k < n)%nat ∧ stops f a k d.
Proof.
  revert d. induction n as [|n IH]; intros d.
  { split; [done|]. intros (k & ? & _). lia. }
  destruct (decide (d = a)) as [->|Ha].
  { rewrite walk_up_unfold, N.eqb_refl. split; [|done]. intros _. exists 0%nat.
    split; [lia|]. constructor. by left. }
  destruct (parent_of_dec f d) as [[p Hp]|Hp].
  - rewrite (walk_up_step n f d a p), IH by done. split.
    + intros (k & ? & ?). exists (S k). split; [lia|by econstructor].
    + intros (k & Hk & Hs). inversion Hs as [d' Hd|k' d' q _ Hq Hs']; subst.
      * destruct Hd as [?|Hd]; [done|]. by destruct (Hd p).
      * exists k'. split; [lia|]. by rewrite (parent_of_fun f d p q).
  - pose proof (walk_up_stop n f d a Ha Hp) as Hw. split.
    + intros _. exists 0%nat. split; [lia|]. constructor. by right.
    + intros _ Heq. rewrite Heq in Hw. set_solver.
Qed.

Lemma is_within_ends f d a : is_within f d a ≠ Panic ↔ ∃ n, stops f a n d.
Proof.
  unfold is_within. rewrite walk_up_ends. split; [naive_solver|].
  intros [n Hn]. exists n. split; [|done]. apply stops_bound in Hn. lia.
Qed.

(** Every walk up reaches the root or leaves the directories. *)
Definition rooted (f : FsMeta) : Prop := ∀ d, ∃ n, stops f ROOT_INO n d.

Lemma rooted_stops f d a : rooted f → ∃ n, stops f a n d.
Proof.
  intros Hr. destruct (Hr d) as [n Hn]. induction Hn as [d Hd|n d p Hne Hp Hn IH].
  - exists 0%nat. constructor. right. destruct Hd as [->|Hd]; [by intros p [? _]|done].
  - destruct (decide (d = a)) as [->|Ha]; [exists 0%nat; constructor; by left|].
    destruct IH as [k Hk]. exists (S k). by econstructor.
Qed.

Lemma is_within_no_panic f d a : rooted f → is_within f d a ≠ Panic.
Proof. intros Hr. by apply is_within_ends, rooted_stops. Qed.

(** [a] is [d] or above it. *)
Inductive above (f : FsMeta) (a : N) : N → Prop :=
| above_refl : above f a a
| above_step d p : parent_of f d p → above f a p → above f a d.

Lemma walk_up_true n f d a : walk_up n f d a = Ok true → above f a d.
Proof.
  revert d. induction n as [|n IH]; intros d; [done|].
  destruct (decide (d = a)) as [->|Ha]; [constructor|].
  destruct (parent_of_dec f d) as [[p Hp]|Hp].
  - rewrite (walk_up_step n f d a p) by done. intros ?%IH. by econstructor.
  - pose proof (walk_up_stop n f d a Ha Hp) as Hw. intros Heq. rewrite Heq in Hw. set_solver.
Qed.

Lemma walk_up_above n f d a : above f a d → walk_up n f d a ∈ [Ok true; Panic].
Proof.
  intros Hab. revert n. induction Hab as [|d p Hp Hab IH]; intros [|n]; try (set_solver).
  - rewrite walk_up_unfold, N.eqb_refl. set_solver.
  - destruct (decide (d = a)) as [->|Ha]; [rewrite walk_up_unfold, N.eqb_refl; set_solver|].
    by rewrite (walk_up_step n f d a p).
Qed.

Lemma is_within_spec f d a : rooted f → is_within f d a = Ok true ↔ above f a d.
Proof.
  intros Hr. split; [apply walk_up_true|]. intros Hab. pose proof (is_within_no_panic f d a Hr).
  pose proof (walk_up_above (S (base.size (inodes f))) f d a Hab) as Hw. unfold is_within in *. set_solver.
Qed.

End FsTree.
