(* ===== verification/Inodes.v ===== *)
(** * Paged inode tables ([inodes.rs])

    Once the store holds a filesystem, its table keeps in memory only the inodes
    changed since the last checkpoint, and a directory only the entries changed
    since; the rest is read from the store's snapshot.  The rest of the development
    works on the contents of a table, a map from numbers to whole inodes.  The
    theorem of [InodesSim.v] is that the two cannot be told apart: every operation on
    the paged table returns what it returns on the contents, and leaves a paged
    table of the new contents.  Counts are natural numbers (a table in memory has
    fewer than 2^64 inodes). *)

From S2P Require Import Prelude MetaError Lru Tracked Catalog Store FsTree.

Module Inodes.
Import MetaError Catalog Store.

Open Scope N_scope.

Record InodeTable := mkTable {
  tmap : Tracked.Tracked N PInode;
  tlen : N;
  paged : option FsId;
}.
#[export] Instance eta_InodeTable : Eta InodeTable := λ t, mkTable (tmap t) (tlen t) (paged t).

(** A table with the snapshot it shares with the other tables of its catalog. *)
Record World := mkWorld { tbl : InodeTable; snap : Snap }.
#[export] Instance eta_World : Eta World := λ w, mkWorld (tbl w) (snap w).

Abbreviation T := (SM World MetaError).

(** [InodeTable::paged]. *)
Definition paged_table (fs : FsId) (n : N) : InodeTable := mkTable (Tracked.from ∅) n (Some fs).

(** The store's side of [i], unless the table changed it since the checkpoint. *)
Definition behind (self : InodeTable) (i : N) : option FsId :=
  fs ← paged self; if decide (i ∈ Tracked.touched (tmap self)) then None else Some fs.

(** A read of the snapshot, which may change its cache. *)
Definition from_snap {A} (f : Snap → Snap * A) : T A := λ w,
  let '(s, a) := f (snap w) in (w <| snap := s |>, Ok a).

Definition get (i : N) : T (option PInode) :=
  t ← sm_reads tbl;
  match Tracked.map (tmap t) !! i with
  | Some p => mret (Some p)
  | None => match behind t i with
            | Some fs => from_snap (Store.get fs i)
            | None => mret None
            end
  end.

Definition page_in (i : N) : T bool :=
  t ← sm_reads tbl;
  match Tracked.map (tmap t) !! i with
  | Some _ => mret true
  | None =>
      match behind t i with
      | None => mret false
      | Some fs =>
          o ← from_snap (Store.take fs i);
          match o with
          | Some p => sm_modify (λ w, w <| tbl ::= λ t, t <| tmap ::= Tracked.insert_quietly i p |> |>) ;; mret true
          | None => mret false
          end
      end
  end.

(** [get_mut] with the edit its caller makes; [false] when there is no inode. *)
Definition get_mut (i : N) (g : PInode → PInode) : T bool :=
  b ← page_in i;
  if (b : bool)
  then sm_modify (λ w, w <| tbl ::= λ t, t <| tmap ::= Tracked.get_mut i g |> |>) ;; mret true
  else mret false.

Definition insert (p : PInode) : T () :=
  sm_modify (λ w, w <| tbl ::= λ t,
    let i := at_ino (attrs p) in
    t <| tmap ::= Tracked.insert i p |>
      <| tlen ::= λ n, n + match Tracked.map (tmap t) !! i with None => 1 | Some _ => 0 end |> |>).

Definition remove (i : N) : T (option PInode) :=
  b ← page_in i;
  if negb b then mret None
  else
    t ← sm_reads tbl;
    let o := Tracked.map (tmap t) !! i in
    sm_modify (λ w, w <| tbl ::= λ t,
      t <| tmap ::= Tracked.remove i |> <| tlen ::= λ n, n - match o with Some _ => 1 | None => 0 end |> |>) ;;
    mret o.

(** Directories a store holds are read through the table that is paged on it. *)
Definition paged_on : T FsId := sm_try (λ w, ok_or (paged (tbl w)) Store).

Definition entry (d : PInode) (name : string) : T (option N) :=
  match kd d with
  | KDir _ de =>
      match known de name with
      | Some o => mret o
      | None => fs ← paged_on; sm_reads (λ w, Store.entry (recs (snap w)) fs (at_ino (attrs d)) name)
      end
  | _ => mret None
  end.

(** [BTreeMap::extend] of [m] by pairs. *)
Definition extend {K V} `{Countable K} (m : gmap K V) (l : list (K * V)) : gmap K V :=
  foldl (λ m x, <[x.1 := x.2]> m) m l.

Definition entries (d : PInode) (after : option string) (limit : option nat) : T (list (string * N)) :=
  match kd d with
  | KDir _ de =>
      let out := list_to_map (at_most limit
                   (List.filter (λ x : string * N, after_name after (x.1)) (bt_entries (de_map de)))) : gmap string N in
      out ← (if stored de
             then
               fs ← paged_on;
               l ← sm_reads (λ w, Store.entries (recs (snap w)) fs (at_ino (attrs d)) after limit
                                    (λ n, bool_decide (n ∈ changed de)));
               mret (extend out l)
             else mret out);
      mret (at_most limit (bt_entries out))
  | _ => mret []
  end.

Definition set_kind_entry (name : string) (o : option N) (existed : bool) (p : PInode) : PInode :=
  map_entries (λ de, de_set de name o existed) p.

Definition is_kdir {E} (x : InodeOf E) : bool := match kd x with KDir _ _ => true | _ => false end.

Definition set_entry (d : N) (name : string) (o : option N) : T (option N) :=
  x ← get d;
  match x with
  | None => sm_err NotFound
  | Some p =>
      old ← entry p name;
      b ← get_mut d (set_kind_entry name o (bool_decide (is_Some old)));
      if b && is_kdir p then mret old else sm_err NotDir
  end.

(** [i] with every directory entry in memory. *)
Definition full (p : PInode) : T PInode :=
  match kd p with
  | KDir par de =>
      if stored de
      then l ← entries p None None; mret (mkInodeOf (attrs p) (KDir par (de_from (list_to_map l))))
      else mret p
  | _ => mret p
  end.

Fixpoint sm_map {S E A B} (f : A → SM S E B) (l : list A) : SM S E (list B) :=
  match l with
  | [] => mret []
  | x :: l => y ← f x; ys ← sm_map f l; mret (y :: ys)
  end.

(** The inodes of [l] the store holds, by number. *)
Definition peek_all (fs : FsId) (l : list N) : T (list (N * PInode)) :=
  r ← sm_map (λ i, o ← from_snap (peek fs i); mret (pair i <$> o)) l;
  mret (omap id r).

Definition scan : T (list PInode) :=
  t ← sm_reads tbl;
  match paged t with
  | None => mret (bt_values (Tracked.map (tmap t)))
  | Some fs =>
      nums ← sm_reads (λ w, inos (recs (snap w)) fs);
      all ← peek_all fs (List.filter (λ i, negb (bool_decide (i ∈ Tracked.touched (tmap t)))) nums);
      mret (bt_values (extend (extend ∅ all) (bt_entries (Tracked.map (tmap t)))))
  end.

Definition page (from : N) (limit : option nat) : T (list PInode) :=
  t ← sm_reads tbl;
  let out := list_to_map (at_most limit
               (List.filter (λ x : N * PInode, from <=? x.1) (bt_entries (Tracked.map (tmap t))))) : gmap N PInode in
  out ← match paged t with
        | None => mret out
        | Some fs =>
            nums ← sm_reads (λ w, inos_from (recs (snap w)) fs from limit
                                  (λ i, bool_decide (i ∈ Tracked.touched (tmap t))));
            all ← peek_all fs nums;
            mret (extend out all)
        end;
  mret (at_most limit (bt_values out)).

Definition scan_full : T (list PInode) := l ← scan; sm_map full l.
Definition page_full (from : N) (limit : option nat) : T (list PInode) := l ← page from limit; sm_map full l.

(** [FromIterator]. *)
Definition from_iter (l : list PInode) : InodeTable :=
  let m := extend ∅ ((λ p, (at_ino (attrs p), p)) <$> l) in
  mkTable (Tracked.from m) (N.of_nat (size m)) None.

Definition detached : T InodeTable := l ← scan_full; mret (from_iter l).

Definition clear_changes (self : InodeTable) : InodeTable := self <| tmap ::= Tracked.clear_changes |>.

(** An inode given to the cache, its directory entries left to the store. *)
Definition hand_over (fs : FsId) (p : PInode) : T () :=
  let p := map_entries (λ de, if settled de then de else settle de) p in
  sm_modify (λ w, w <| snap ::= put fs (at_ino (attrs p)) p |>).

Definition attach (fs : FsId) : T () :=
  t ← sm_reads tbl;
  sm_for (bt_values (Tracked.map (tmap t))) (hand_over fs) ;;
  sm_modify (λ w, w <| tbl := mkTable (Tracked.from ∅) (tlen (tbl w)) (Some fs) |>).

End Inodes.
