(* ===== verification/InodesSpec.v ===== *)
(** * Paged tables and their contents ([inodes.rs])

    When a paged table shows some contents, what its reads return, and the
    simulation of every operation by the same operation on the contents. *)

From S2P Require Import Prelude MetaError Lru Tracked Catalog Store FsTree Inodes.

Module InodesSpec.
Import MetaError Catalog Store Inodes.

Open Scope N_scope.

(** ** Contents *)

(** The entries [de] of directory [i] are [es], given the store's entries. *)
Record dir_shows (r : Recs) (o : option FsId) (i : N) (de : DirEntries) (es : gmap string N) : Prop := {
  ds_look n : es !! n = match known de n with Some x => x | None => fs ← o; Store.entry r fs i n end;
  ds_len : de_len de = N.of_nat (size es);
  ds_changed : stored de = true → dom (de_map de) ⊆ changed de;
  ds_paged : stored de = true → is_Some o;
}.

Definition kind_shows (r : Recs) (o : option FsId) (i : N) (k : KindOf DirEntries) (k' : KindOf (gmap string N)) : Prop :=
  match k, k' with
  | KDir a de, KDir b es => a = b ∧ dir_shows r o i de es
  | KFile s m, KFile s' m' => s = s' ∧ m = m'
  | KSymlink t, KSymlink t' => t = t'
  | KSpecial t d, KSpecial t' d' => t = t' ∧ d = d'
  | _, _ => False
  end.

Definition inode_shows (r : Recs) (o : option FsId) (p : PInode) (x : InodeOf (gmap string N)) : Prop :=
  attrs p = attrs x ∧ kind_shows r o (at_ino (attrs p)) (kd p) (kd x).

(** The inode the table has for a number, in memory or in the store. *)
Definition raw (w : World) (i : N) : option PInode :=
  match Tracked.map (tmap (tbl w)) !! i with
  | Some p => Some p
  | None => fs ← behind (tbl w) i; read (recs (snap w)) fs i
  end.

Record shows (w : World) (m : gmap N Inode) : Prop := {
  sh_look i : option_Forall2 (inode_shows (recs (snap w)) (paged (tbl w))) (raw w i) (of_inode <$> m !! i);
  sh_ino i x : m !! i = Some x → ino x = i;
  sh_len : tlen (tbl w) = N.of_nat (size m);
  sh_touched fs : paged (tbl w) = Some fs → dom (Tracked.map (tmap (tbl w))) ⊆ Tracked.touched (tmap (tbl w));
  sh_coherent : coherent (snap w);
}.

(** The same table over the same records, with another coherent cache. *)
Definition same_world (w w' : World) : Prop := tbl w' = tbl w ∧ same_store (snap w) (snap w').

Lemma same_world_refl w : coherent (snap w) → same_world w w.
Proof. intros ?. split; [done|by split]. Qed.
Lemma same_world_trans w1 w2 w3 : same_world w1 w2 → same_world w2 w3 → same_world w1 w3.
Proof. intros (H1 & H2 & _) (H3 & H4 & H5). split; [congruence|]. split; [congruence|done]. Qed.

Lemma same_world_raw w w' i : same_world w w' → raw w' i = raw w i.
Proof. intros (Ht & Hr & _). unfold raw. by rewrite Ht, Hr. Qed.

Lemma same_world_shows w w' m : same_world w w' → shows w m → shows w' m.
Proof.
  intros Hs [Hl Hi Hn Ht _]. pose proof Hs as (E & Er & Hc). split; rewrite ?E, ?Er; [|done..].
  intros i. rewrite (same_world_raw _ _ _ Hs). apply Hl.
Qed.

(** What the table has under [i] when the contents have [x] there. *)
Lemma shows_raw w m i :
  shows w m →
  match m !! i with
  | Some x => ∃ p, raw w i = Some p ∧ inode_shows (recs (snap w)) (paged (tbl w)) p (of_inode x) ∧ at_ino (attrs p) = i
  | None => raw w i = None
  end.
Proof.
  intros Hs. pose proof (sh_look _ _ Hs i) as Hl. destruct (m !! i) as [x|] eqn:Hx; simpl in Hl.
  - inversion Hl as [p ? Hp Hr|]; subst. exists p. split; [done|]. split; [done|].
    rewrite (proj1 Hp). exact (sh_ino _ _ Hs _ _ Hx).
  - by inversion Hl.
Qed.

(** ** Directory entries *)

Lemma dir_shows_from r o i es : dir_shows r o i (de_from es) es.
Proof.
  split; [|done..]. intros n. unfold known, de_from. simpl. by destruct (es !! n).
Qed.

Lemma dir_shows_unstored r o i de es : dir_shows r o i de es → stored de = false → de_map de = es.
Proof.
  intros Hd Hs. apply map_eq. intros n. rewrite (ds_look _ _ _ _ _ Hd). unfold known. rewrite Hs.
  by destruct (de_map de !! n).
Qed.

Lemma dir_shows_settled r fs i n es :
  (∀ k, r_dirents r !! (fs, i, k) = es !! k) → n = N.of_nat (size es) → dir_shows r (Some fs) i (de_stored n) es.
Proof. intros He Hn. split; [|done|done|by eexists]. intros k. rewrite <- He. done. Qed.

Lemma known_set de n x b k :
  known (de_set de n x b) k = if decide (k = n) then Some x else known de k.
Proof.
  unfold known, de_set. destruct x as [c|]; simpl; case_decide as E.
  - subst. by rewrite lookup_insert_eq.
  - rewrite lookup_insert_ne by done. case_match; [done|].
    by rewrite (bool_decide_ext (k ∈ {[n]} ∪ changed de) (k ∈ changed de)) by set_solver.
  - subst. rewrite lookup_delete_eq, bool_decide_true by set_solver. by rewrite orb_true_r.
  - rewrite lookup_delete_ne by done. case_match; [done|].
    by rewrite (bool_decide_ext (k ∈ {[n]} ∪ changed de) (k ∈ changed de)) by set_solver.
Qed.

Lemma dir_shows_set r o i de es n x :
  dir_shows r o i de es →
  dir_shows r o i (de_set de n x (bool_decide (is_Some (es !! n))))
    (match x with Some c => <[n := c]> es | None => delete n es end).
Proof.
  intros [Hl Hn Hc Hp]. split.
  - intros k. rewrite known_set. case_decide as E; [subst; destruct x; by rewrite ?lookup_insert_eq, ?lookup_delete_eq|].
    rewrite <- Hl. destruct x; by rewrite ?lookup_insert_ne, ?lookup_delete_ne by done.
  - destruct x as [c|]; simpl; rewrite Hn.
    + rewrite map_size_insert. case_bool_decide as E; [destruct E as [y ->]; simpl; lia|].
      rewrite <- eq_None_not_Some in E. rewrite E. simpl. lia.
    + rewrite map_size_delete. case_bool_decide as E; [|rewrite <- eq_None_not_Some in E; rewrite E; simpl; lia].
      destruct E as [y Hy]. rewrite Hy. simpl.
      assert (size es ≠ 0%nat); [|lia]. intros Hz. apply map_size_empty_inv in Hz. by rewrite Hz in Hy.
  - destruct x; simpl; intros Hs; [rewrite dom_insert|rewrite dom_delete]; specialize (Hc Hs); set_solver.
  - by destruct x.
Qed.

Lemma entry_spec w d x n :
  inode_shows (recs (snap w)) (paged (tbl w)) d x →
  entry d n w = (w, Ok (match kd x with KDir _ es => es !! n | _ => None end)).
Proof.
  intros [_ Hk]. unfold entry. destruct (kd d), (kd x); try done. destruct Hk as [_ Hd].
  rewrite (ds_look _ _ _ _ _ Hd n). destruct (known entries0 n) as [o|] eqn:E; [done|].
  assert (stored entries0 = true) as Hs.
  { unfold known in E. case_match; [done|]. by destruct (stored entries0). }
  destruct (ds_paged _ _ _ _ _ Hd Hs) as [fs Hfs]. unfold paged_on, mbind, sm_bind, sm_try. by rewrite Hfs.
Qed.

(** ** Merging two ordered listings *)

Section merge.
Context {K V : Type} `{Countable K} `{!BTreeKey K}.
Implicit Types m A B : gmap K V.

Lemma elem_of_at_most {X} limit (l : list X) x : x ∈ at_most limit l → x ∈ l.
Proof. destruct limit; [|done]. simpl. apply subseteq_take. Qed.

Lemma NoDup_at_most limit m : NoDup (at_most limit (bt_entries m)).*1.
Proof.
  destruct limit as [n|]; simpl; [|apply NoDup_bt_keys]. rewrite fmap_take.
  eapply sublist_NoDup; [apply (NoDup_bt_keys m)|apply sublist_take].
Qed.

Lemma extend_Some m (l : list (K * V)) k v :
  NoDup l.*1 → extend m l !! k = Some v ↔ (k, v) ∈ l ∨ ((k ∉ l.*1) ∧ m !! k = Some v).
Proof.
  unfold extend. revert m. induction l as [|[j x] l IH]; intros m Hn; [set_solver|].
  csimpl in Hn. apply NoDup_cons in Hn as [Hj Hn]. csimpl. rewrite (IH (<[j := x]> m) Hn), elem_of_cons, not_elem_of_cons. simpl.
  destruct (decide (k = j)) as [->|Hne].
  - rewrite lookup_insert_eq. split.
    + intros [Hin|[_ [= ->]]]; [|by left; left]. destruct Hj. by apply (list_elem_of_fmap_2 fst) in Hin.
    + intros [[[= ->]|Hin]|[[? _] _]]; [right|by left|done]. by split.
  - rewrite lookup_insert_ne by done. naive_solver.
Qed.

Lemma extend_keyed {X : Type} (key : X → K) (f : X → V) (a : gmap K X) k :
  (∀ k x, a !! k = Some x → key x = k) → extend ∅ ((λ x, (key x, f x)) <$> bt_values a) !! k = f <$> a !! k.
Proof.
  intros Hkey.
  assert ((λ x, (key x, f x)) <$> bt_values a = (λ y, (y.1, f (y.2))) <$> bt_entries a) as ->.
  { unfold bt_values. rewrite <- list_fmap_compose. apply list_fmap_ext. intros i [j x] Hi. simpl.
    apply list_elem_of_lookup_2, elem_of_bt_entries in Hi. by rewrite (Hkey j x). }
  assert (NoDup ((λ y : K * X, (y.1, f (y.2))) <$> bt_entries a).*1) as Hn by (rewrite <- list_fmap_compose; apply NoDup_bt_keys).
  apply option_eq. intros b. rewrite extend_Some, list_elem_of_fmap, fmap_Some by done. split.
  - intros [([j x] & [= -> ->] & Hin%elem_of_bt_entries)|[_ ?]]; [|done]. by exists x.
  - intros (x & Hx & ->). left. exists (k, x). split; [done|]. by apply elem_of_bt_entries.
Qed.

Lemma filtered (f : K * V → bool) m :
  bt_entries (base.filter (λ x, f x = true) m) = List.filter f (bt_entries m).
Proof. apply bt_entries_filter. intros k v. by rewrite map_lookup_filter_Some. Qed.

(** The first entries of two disjoint maps together, from the first of each. *)
Lemma merge_first limit A B :
  A ##ₘ B →
  at_most limit (bt_entries (extend (list_to_map (at_most limit (bt_entries A))) (at_most limit (bt_entries B)))) =
  at_most limit (bt_entries (A ∪ B)).
Proof.
  intros Hd. set (out := extend _ _).
  assert (∀ k v, out !! k = Some v ↔ (k, v) ∈ at_most limit (bt_entries A) ∨ (k, v) ∈ at_most limit (bt_entries B)) as Ho.
  { intros k v. unfold out. rewrite extend_Some by apply NoDup_at_most.
    rewrite <- elem_of_list_to_map by apply NoDup_at_most. split; [naive_solver|].
    intros [HA|HB]; [right|by left]. split; [|done]. intros ([j w] & -> & HB)%list_elem_of_fmap. simpl in HA.
    apply elem_of_at_most, elem_of_bt_entries in HA, HB. by eapply map_disjoint_spec. }
  assert (out ⊆ A ∪ B) as Hsub.
  { apply map_subseteq_spec. intros k v [Hk|Hk]%Ho; apply elem_of_at_most, elem_of_bt_entries in Hk.
    - by apply lookup_union_Some_l. - by apply lookup_union_Some_r. }
  destruct limit as [n|]; simpl in *.
  - apply take_bt_part; [done|]. intros k v Hk Hb. apply Ho. rewrite !elem_of_take_bt.
    apply lookup_union_Some in Hk as [Hk|Hk]; [left|right|done]; (split; [done|]); eapply Nat.le_lt_trans; [|exact Hb| |exact Hb];
      apply below_sub; [by apply map_union_subseteq_l|by apply map_union_subseteq_r].
  - f_equal. apply (anti_symm (⊆)); [done|]. apply map_subseteq_spec. intros k v Hk. apply Ho. rewrite !elem_of_bt_entries.
    by apply lookup_union_Some in Hk.
Qed.

Lemma first_again limit A :
  at_most limit (bt_entries (list_to_map (at_most limit (bt_entries A)) : gmap K V)) = at_most limit (bt_entries A).
Proof.
  pose proof (merge_first limit A ∅ (map_disjoint_empty_r A)) as Hm. rewrite map_union_empty in Hm.
  assert (at_most limit (bt_entries (∅ : gmap K V)) = []) as He.
  { replace (bt_entries (∅ : gmap K V)) with ([] : list (K * V)); [by destruct limit as [[]|]|].
    apply bt_entries_unique; [constructor|by rewrite map_to_list_empty]. }
  by rewrite He in Hm.
Qed.

End merge.

(** The names of a stored directory that a predicate picks: those in memory and
    those of the store that did not change. *)
Lemma dir_merge r fs i de es (f : string * N → bool) :
  dir_shows r (Some fs) i de es → stored de = true →
  let A := base.filter (λ x, f x = true) (de_map de) in
  let B := base.filter (λ x, f x && negb (bool_decide (x.1 ∈ changed de)) = true) (dir_names r fs i) in
  A ##ₘ B ∧ base.filter (λ x, f x = true) es = A ∪ B.
Proof.
  intros Hd Hs A B. pose proof (ds_changed _ _ _ _ _ Hd Hs) as Hc.
  assert (A ##ₘ B) as Hdis.
  { apply map_disjoint_spec. intros n a b [Ha _]%map_lookup_filter_Some [_ Hb]%map_lookup_filter_Some.
    apply andb_true_iff in Hb as [_ Hb]. apply negb_true_iff, bool_decide_eq_false in Hb. apply Hb, Hc, elem_of_dom. by eexists. }
  split; [done|]. apply map_eq. intros n. apply option_eq. intros v.
  rewrite lookup_union_Some by done. unfold A, B. rewrite !map_lookup_filter_Some, lookup_dir_names, (ds_look _ _ _ _ _ Hd).
  unfold known, Store.entry. simpl. rewrite Hs. simpl. destruct (de_map de !! n) as [y|] eqn:Hy.
  - assert (n ∈ changed de) by (apply Hc, elem_of_dom; by eexists). rewrite bool_decide_true by done.
    rewrite andb_false_r. naive_solver.
  - case_bool_decide; simpl; rewrite ?andb_false_r, ?andb_true_r; naive_solver.
Qed.

Lemma entries_spec w d x after limit :
  inode_shows (recs (snap w)) (paged (tbl w)) d x →
  entries d after limit w =
    (w, Ok (match kd x with
            | KDir _ es => at_most limit (List.filter (λ y : string * N, after_name after (y.1)) (bt_entries es))
            | _ => []
            end)).
Proof.
  intros [_ Hk]. unfold entries. destruct (kd d) as [a de| | |], (kd x) as [b es| | |]; try done. destruct Hk as [_ Hd].
  set (f := λ y : string * N, after_name after (y.1)). rewrite <- !filtered. destruct (stored de) eqn:Hs.
  - destruct (ds_paged _ _ _ _ _ Hd Hs) as [fs Hfs]. rewrite Hfs in Hd.
    unfold paged_on, mbind, sm_bind, sm_try, sm_reads, mret, sm_ret. rewrite Hfs. simpl. do 2 f_equal.
    unfold Store.entries. rewrite <- filtered. destruct (dir_merge _ _ _ _ _ f Hd Hs) as [Hdis Hm].
    rewrite Hm. by apply merge_first.
  - rewrite (dir_shows_unstored _ _ _ _ _ Hd Hs). unfold mbind, sm_bind, mret, sm_ret. do 2 f_equal. apply first_again.
Qed.

Lemma all_entries (es : gmap string N) : list_to_map (List.filter (λ _, true) (bt_entries es)) = es.
Proof.
  rewrite List.forallb_filter_id by (by apply forallb_forall). apply map_eq. intros n. apply option_eq. intros v.
  rewrite <- elem_of_list_to_map by apply NoDup_bt_keys. apply elem_of_bt_entries.
Qed.

(** All of an inode in memory. *)
Definition whole (p : PInode) : InodeOf (gmap string N) := map_entries de_map p.

Lemma full_spec w p x :
  inode_shows (recs (snap w)) (paged (tbl w)) p x →
  ∃ p', full p w = (w, Ok p') ∧ whole p' = x ∧ (∀ r o, inode_shows r o p' x).
Proof.
  intros Hp. pose proof Hp as [Ha Hk]. unfold full. destruct p as [at_p kp], x as [at_x kx]. simpl in *. subst at_x.
  destruct kp as [a de| | |] eqn:Ek, kx as [b es| | |]; try done; [|eexists; split; [done|]; unfold whole, inode_shows; simpl; naive_solver..].
  destruct Hk as [-> Hd]. destruct (stored de) eqn:Hs.
  - unfold mbind, sm_bind. rewrite (entries_spec w _ _ None None Hp). simpl. eexists. split; [done|].
    rewrite all_entries.
    split; [done|]. intros r o. split; [done|]. split; [done|]. apply dir_shows_from.
  - eexists. split; [done|]. pose proof (dir_shows_unstored _ _ _ _ _ Hd Hs) as Hes. unfold whole, map_entries. simpl.
    rewrite Hes. split; [done|]. intros r o. split; [done|]. split; [done|]. destruct Hd as [Hl Hn _ _].
    split; [|done|congruence|congruence]. intros n. rewrite Hl. destruct (known de n) eqn:E; [done|]. unfold known in E.
    rewrite Hs in E. by case_match.
Qed.

(** ** Single inodes *)

Lemma from_snap_spec {A} (f : Snap → Snap * A) w s a :
  f (snap w) = (s, a) → same_store (snap w) s → from_snap f w = (w <| snap := s |>, Ok a) ∧ same_world w (w <| snap := s |>).
Proof. intros Hf Hs. unfold from_snap. rewrite Hf. split; [done|]. by split. Qed.

Lemma get_spec w m i :
  shows w m → ∃ w', get i w = (w', Ok (raw w i)) ∧ same_world w w'.
Proof.
  intros Hs. pose proof (sh_coherent _ _ Hs) as Hc. unfold get, raw, mbind, sm_bind, sm_reads.
  destruct (Tracked.map (tmap (tbl w)) !! i) as [p|]; [exists w; split; [done|by apply same_world_refl]|].
  destruct (behind (tbl w) i) as [fs|]; [|exists w; split; [done|by apply same_world_refl]].
  destruct (Store.get fs i (snap w)) as [s r] eqn:E. destruct (get_read _ _ _ _ _ Hc E) as [-> Hss].
  destruct (from_snap_spec _ _ _ _ E Hss) as [-> ?]. by eexists.
Qed.

(** [w'] is [w] with [i], if the table has it, in memory. *)
Record with_page (w w' : World) (i : N) : Prop := {
  wp_store : same_store (snap w) (snap w');
  wp_map : Tracked.map (tmap (tbl w')) =
           match raw w i with Some p => <[i := p]> (Tracked.map (tmap (tbl w))) | None => Tracked.map (tmap (tbl w)) end;
  wp_touched : Tracked.touched (tmap (tbl w')) = Tracked.touched (tmap (tbl w));
  wp_replaced : Tracked.replaced (tmap (tbl w')) = Tracked.replaced (tmap (tbl w));
  wp_none : raw w i = None → tbl w' = tbl w;
  wp_len : tlen (tbl w') = tlen (tbl w);
  wp_paged : paged (tbl w') = paged (tbl w);
}.

Lemma page_in_spec w m i :
  shows w m → ∃ w', page_in i w = (w', Ok (bool_decide (is_Some (raw w i)))) ∧ with_page w w' i.
Proof.
  intros Hs. pose proof (sh_coherent _ _ Hs) as Hc. unfold page_in, mbind, sm_bind, sm_reads.
  assert (same_store (snap w) (snap w)) as Hrefl by (by split).
  assert (raw w i = match Tracked.map (tmap (tbl w)) !! i with Some p => Some p
                    | None => fs ← behind (tbl w) i; read (recs (snap w)) fs i end) as Hraw by done.
  destruct (Tracked.map (tmap (tbl w)) !! i) as [p|] eqn:Hp.
  { exists w. rewrite Hraw. split; [done|]. split; [done| |done..]. rewrite Hraw. by rewrite insert_id. }
  destruct (behind (tbl w) i) as [fs|]; simpl in Hraw; [|exists w; rewrite Hraw; split; [done|]; split; [done| |done..]; by rewrite Hraw].
  destruct (take fs i (snap w)) as [s r] eqn:E. destruct (take_read _ _ _ _ _ Hc E) as [-> Hss].
  destruct (from_snap_spec _ _ _ _ E Hss) as [-> ?]. rewrite <- Hraw.
  destruct (raw w i) as [q|] eqn:Hq; [|exists (w <| snap := s |>); split; [done|]; split; [done| |done..]; by rewrite Hq].
  eexists. split; [done|]. split; [done| |done|done|congruence|done..]. by rewrite Hq.
Qed.

(** A change of one inode. *)
Lemma shows_update w w' m m' i o :
  shows w m → recs (snap w') = recs (snap w) → coherent (snap w') → paged (tbl w') = paged (tbl w) →
  (∀ j, j ≠ i → raw w' j = raw w j) → (∀ j, j ≠ i → m' !! j = m !! j) →
  raw w' i = o → option_Forall2 (inode_shows (recs (snap w)) (paged (tbl w))) o (of_inode <$> m' !! i) →
  (∀ x, m' !! i = Some x → ino x = i) → tlen (tbl w') = N.of_nat (size m') →
  (∀ fs, paged (tbl w') = Some fs → dom (Tracked.map (tmap (tbl w'))) ⊆ Tracked.touched (tmap (tbl w'))) →
  shows w' m'.
Proof.
  intros Hs Hr Hc Hp Hj Hmj Hi Ho Hino Hn Ht. split; [|..|done|done|done].
  - intros j. rewrite Hr, Hp. destruct (decide (j = i)) as [->|Hne]; [by rewrite Hi|]. rewrite Hj, Hmj by done. apply Hs.
  - intros j x Hx. destruct (decide (j = i)) as [->|Hne]; [by apply Hino|]. rewrite Hmj in Hx by done. by eapply sh_ino.
Qed.

(** The table after [get_mut] of an inode it has, [remove] of one, [insert] of a
    new one: [i] is touched, has [o] in memory, and is marked replaced when [rep]. *)
Record put_in (w w' : World) (i : N) (o : option PInode) (n : N) (rep : bool) : Prop := {
  pi_store : same_store (snap w) (snap w');
  pi_map : Tracked.map (tmap (tbl w')) =
    match o with Some p => <[i := p]> (Tracked.map (tmap (tbl w))) | None => delete i (Tracked.map (tmap (tbl w))) end;
  pi_touched : Tracked.touched (tmap (tbl w')) = {[i]} ∪ Tracked.touched (tmap (tbl w));
  pi_replaced : Tracked.replaced (tmap (tbl w')) =
    if rep then {[i]} ∪ Tracked.replaced (tmap (tbl w)) else Tracked.replaced (tmap (tbl w));
  pi_len : tlen (tbl w') = n;
  pi_paged : paged (tbl w') = paged (tbl w);
}.

Lemma put_in_raw w w' i o n rep j : put_in w w' i o n rep → raw w' j = if decide (j = i) then o else raw w j.
Proof.
  intros [[Hr _] Hm Ht _ _ Hp]. unfold raw, behind. rewrite Hm, Ht, Hp, Hr. destruct (decide (j = i)) as [->|Hne].
  - destruct o; simpl; [by rewrite lookup_insert_eq|]. rewrite lookup_delete_eq.
    destruct (paged (tbl w)); [|done]. simpl. by rewrite decide_True by set_solver.
  - assert ((match o with Some p => <[i := p]> (Tracked.map (tmap (tbl w))) | None => delete i (Tracked.map (tmap (tbl w))) end) !! j
            = Tracked.map (tmap (tbl w)) !! j) as -> by (destruct o; by rewrite ?lookup_insert_ne, ?lookup_delete_ne by done).
    destruct (Tracked.map (tmap (tbl w)) !! j); [done|]. destruct (paged (tbl w)); [|done]. simpl.
    rewrite (decide_ext (j ∈ {[i]} ∪ Tracked.touched (tmap (tbl w))) (j ∈ Tracked.touched (tmap (tbl w)))) by set_solver. done.
Qed.

Lemma shows_put w w' m m' i o n rep :
  shows w m → put_in w w' i o n rep → (∀ j, j ≠ i → m' !! j = m !! j) →
  option_Forall2 (inode_shows (recs (snap w)) (paged (tbl w))) o (of_inode <$> m' !! i) →
  (∀ x, m' !! i = Some x → ino x = i) → n = N.of_nat (size m') → shows w' m'.
Proof.
  intros Hs Hp Hmj Ho Hino Hn. pose proof Hp as [[Hr Hc] Hm Ht _ Hlen Hpg].
  apply (shows_update w w' m m' i o); try done.
  - intros j Hne. rewrite (put_in_raw _ _ _ _ _ _ _ Hp). by rewrite decide_False.
  - rewrite (put_in_raw _ _ _ _ _ _ _ Hp). by rewrite decide_True.
  - congruence.
  - intros fs Hfs. rewrite Hpg in Hfs. pose proof (sh_touched _ _ Hs _ Hfs). rewrite Hm, Ht.
    destruct o; [rewrite dom_insert|rewrite dom_delete]; set_solver.
Qed.

Lemma get_mut_spec w m i g :
  shows w m →
  match raw w i with
  | Some p => ∃ w', get_mut i g w = (w', Ok true) ∧ put_in w w' i (Some (g p)) (tlen (tbl w)) false
  | None => ∃ w', get_mut i g w = (w', Ok false) ∧ same_world w w'
  end.
Proof.
  intros Hs. destruct (page_in_spec w m i Hs) as (w1 & E & [Hst Hm Ht Hr Hn Hl Hp]).
  unfold get_mut, mbind, sm_bind. rewrite E. destruct (raw w i) as [p|] eqn:Hraw.
  - rewrite bool_decide_true by (by eexists). eexists. split; [done|]. simpl. unfold Tracked.get_mut. rewrite Hm, lookup_insert_eq.
    split; simpl; [done| |by rewrite Ht|done|done|done]. by rewrite insert_insert_eq.
  - rewrite bool_decide_false by (by intros [??]). exists w1. split; [done|]. split; [by apply Hn|done].
Qed.

Lemma insert_spec w m p :
  shows w m → raw w (at_ino (attrs p)) = None →
  ∃ w', insert p w = (w', Ok ()) ∧ put_in w w' (at_ino (attrs p)) (Some p) (tlen (tbl w) + 1) true.
Proof.
  intros Hs Hr. pose proof (sh_coherent _ _ Hs). eexists. split; [done|].
  assert (Tracked.map (tmap (tbl w)) !! at_ino (attrs p) = None) as Hn.
  { unfold raw in Hr. by destruct (Tracked.map _ !! _). }
  split; simpl; try done. by rewrite Hn.
Qed.

Lemma remove_spec w m i :
  shows w m →
  match raw w i with
  | Some p => ∃ w', remove i w = (w', Ok (Some p)) ∧ put_in w w' i None (tlen (tbl w) - 1) true
  | None => ∃ w', remove i w = (w', Ok None) ∧ same_world w w'
  end.
Proof.
  intros Hs. destruct (page_in_spec w m i Hs) as (w1 & E & [Hst Hm Ht Hr Hn Hl Hp]).
  unfold remove, mbind, sm_bind. rewrite E. destruct (raw w i) as [p|] eqn:Hraw.
  - rewrite bool_decide_true by (by eexists). simpl. unfold sm_reads, sm_modify, mret, sm_ret. simpl.
    rewrite Hm, lookup_insert_eq. eexists. split; [done|]. unfold Tracked.remove. simpl. rewrite Hm, lookup_insert_eq.
    split; simpl; [done| |by rewrite Ht|by rewrite Hr|by rewrite Hl|done]. by rewrite delete_insert_eq.
  - rewrite bool_decide_false by (by intros [??]). exists w1. split; [done|]. split; [by apply Hn|done].
Qed.

(** ** Scans *)

Lemma sm_map_reads {A B} (f : A → T B) (g : A → B) l w :
  coherent (snap w) → (∀ x w1, same_world w w1 → ∃ w2, f x w1 = (w2, Ok (g x)) ∧ same_world w w2) →
  ∃ w', sm_map f l w = (w', Ok (g <$> l)) ∧ same_world w w'.
Proof.
  intros Hc Hf. assert (same_world w w) as H0 by (by apply same_world_refl). revert H0. generalize w at 2 3. clear Hc.
  induction l as [|x l IH]; intros w0 H0; [by exists w0|]. simpl. unfold mbind, sm_bind.
  destruct (Hf x w0 H0) as (w1 & -> & H1). destruct (IH w1 H1) as (w2 & -> & H2). by exists w2.
Qed.

Lemma peek_all_spec w fs l :
  coherent (snap w) →
  ∃ w', peek_all fs l w = (w', Ok (omap (λ i, pair i <$> read (recs (snap w)) fs i) l)) ∧ same_world w w'.
Proof.
  intros Hc. unfold peek_all, mbind, sm_bind.
  destruct (sm_map_reads (λ i, o ← from_snap (peek fs i); mret (pair i <$> o)) (λ i, pair i <$> read (recs (snap w)) fs i) l w Hc)
    as (w' & E & Hw).
  - intros i w1 H1. pose proof H1 as (_ & Hr & Hc1). destruct (peek fs i (snap w1)) as [s r] eqn:Ep.
    destruct (peek_read _ _ _ _ _ Hc1 Ep) as [-> Hss]. unfold mbind, sm_bind.
    destruct (from_snap_spec _ _ _ _ Ep Hss) as [-> Hw1]. rewrite Hr. eexists. split; [done|]. by eapply same_world_trans.
  - unfold mbind, sm_bind in E. rewrite E. exists w'. split; [|done]. unfold mret, sm_ret. do 2 f_equal. clear.
    induction l as [|i l IH]; [done|]. csimpl. destruct (read _ fs i); csimpl; by rewrite IH.
Qed.

(** The records of a paged table that it did not touch, from [from] on, as they
    are read. *)
Definition untouched (w : World) (fs : FsId) (from : N) : gmap N PInode :=
  map_imap (λ i _, read (recs (snap w)) fs i)
    (base.filter (λ x, (from <=? x.1) && negb (bool_decide (x.1 ∈ Tracked.touched (tmap (tbl w)))) = true)
       (fs_inodes (recs (snap w)) fs)).

Lemma read_Some r fs i p : read r fs i = Some p → is_Some (r_inodes r !! (fs, i)).
Proof. unfold read. intros (q & -> & _)%bind_Some. by eexists. Qed.

Lemma untouched_Some w fs from i p :
  untouched w fs from !! i = Some p ↔
  read (recs (snap w)) fs i = Some p ∧ from <= i ∧ i ∉ Tracked.touched (tmap (tbl w)).
Proof.
  unfold untouched. rewrite map_lookup_imap, bind_Some. setoid_rewrite map_lookup_filter_Some. simpl.
  setoid_rewrite andb_true_iff. setoid_rewrite negb_true_iff. setoid_rewrite bool_decide_eq_false.
  setoid_rewrite N.leb_le. setoid_rewrite lookup_fs_inodes. split; [naive_solver|].
  intros (Hr & ? & ?). destruct (read_Some _ _ _ _ Hr). naive_solver.
Qed.

Lemma untouched_keys w fs from :
  List.filter (λ i, (from <=? i) && negb (bool_decide (i ∈ Tracked.touched (tmap (tbl w))))) (bt_keys (fs_inodes (recs (snap w)) fs)) =
  bt_keys (untouched w fs from).
Proof.
  rewrite filter_keys. apply bt_keys_dom. apply set_eq. intros i. rewrite !elem_of_dom. unfold is_Some.
  setoid_rewrite untouched_Some. setoid_rewrite map_lookup_filter_Some. simpl.
  setoid_rewrite andb_true_iff. setoid_rewrite negb_true_iff. setoid_rewrite bool_decide_eq_false.
  setoid_rewrite N.leb_le. setoid_rewrite lookup_fs_inodes. split; [|intros (p & Hr & ? & ?); destruct (read_Some _ _ _ _ Hr); naive_solver].
  intros (p & Hp & ? & ?). unfold read. rewrite Hp. simpl. eauto.
Qed.

Lemma peek_keys w fs from (l : list N) :
  (∀ i, i ∈ l → i ∈ bt_keys (untouched w fs from)) →
  omap (λ i, pair i <$> read (recs (snap w)) fs i) l = omap (λ i, pair i <$> untouched w fs from !! i) l.
Proof.
  intros Hl. induction l as [|i l IH]; [done|]. csimpl.
  assert (i ∈ bt_keys (untouched w fs from)) as [p Hp]%elem_of_bt_keys by (apply Hl; by left). rewrite Hp.
  apply untouched_Some in Hp as [-> _]. simpl. f_equal. apply IH. intros j Hj. apply Hl. by right.
Qed.

(** The whole table, by number. *)
Lemma raw_map w m : shows w m → ∃ R : gmap N PInode, (∀ i, R !! i = raw w i) ∧
  (paged (tbl w) = None → R = Tracked.map (tmap (tbl w))) ∧
  ∀ fs, paged (tbl w) = Some fs →
    Tracked.map (tmap (tbl w)) ##ₘ untouched w fs 0 ∧ R = Tracked.map (tmap (tbl w)) ∪ untouched w fs 0.
Proof.
  intros Hs. unfold raw, behind. destruct (paged (tbl w)) as [fs|] eqn:Hp; simpl.
  2:{ exists (Tracked.map (tmap (tbl w))). split; [|by split]. intros i. by case_match. }
  pose proof (sh_touched _ _ Hs _ Hp) as Ht.
  assert (Tracked.map (tmap (tbl w)) ##ₘ untouched w fs 0) as Hd.
  { apply map_disjoint_spec. intros i a b Ha (_ & _ & Hi)%untouched_Some. apply Hi, Ht, elem_of_dom. by eexists. }
  exists (Tracked.map (tmap (tbl w)) ∪ untouched w fs 0). split; [|split; [done|by intros ? [= <-]]].
  intros i. apply option_eq. intros p. rewrite lookup_union_Some, untouched_Some by done.
  destruct (Tracked.map (tmap (tbl w)) !! i) as [q|] eqn:Hq.
  - assert (i ∈ Tracked.touched (tmap (tbl w))) by (apply Ht, elem_of_dom; by eexists). naive_solver.
  - case_decide; simpl; naive_solver lia.
Qed.

Lemma scan_spec w m :
  shows w m → ∃ R w', (∀ i, R !! i = raw w i) ∧ scan w = (w', Ok (bt_values R)) ∧ same_world w w'.
Proof.
  intros Hs. destruct (raw_map w m Hs) as (R & HR & Hmem & Hpg). exists R. pose proof (sh_coherent _ _ Hs) as Hc.
  unfold scan, mbind, sm_bind, sm_reads. destruct (paged (tbl w)) as [fs|] eqn:Hp.
  2:{ exists w. split_and!; [done|by rewrite Hmem|by apply same_world_refl]. }
  destruct (Hpg fs eq_refl) as [Hd ->]. set (t := tmap (tbl w)) in *.
  match goal with |- context [peek_all fs ?l] => destruct (peek_all_spec w fs l Hc) as (w' & E & Hw) end.
  unfold mbind, sm_bind in E. rewrite E. exists w'. split_and!; [done| |done]. unfold mret, sm_ret. do 3 f_equal.
  unfold inos, inos_from. simpl. rewrite (List.forallb_filter_id _ (bt_keys _)).
  2:{ apply forallb_forall. intros i _. apply andb_true_iff. split; [apply N.leb_le; lia|done]. }
  pose proof (untouched_keys w fs 0) as Hk. rewrite (List.filter_ext _ (λ i, negb (bool_decide (i ∈ Tracked.touched t)))) in Hk
    by (intros i; by rewrite (proj2 (N.leb_le 0 i)) by lia).
  rewrite Hk, (peek_keys w fs 0) by done. rewrite bt_entries_keys.
  apply map_eq. intros i. apply option_eq. intros p. rewrite extend_Some by apply NoDup_bt_keys.
  rewrite extend_Some by apply NoDup_bt_keys. rewrite lookup_union_Some, !elem_of_bt_entries by done.
  split; [naive_solver|]. intros [?|Hu]; [by left|right]. split; [|by left].
  intros [q Hq]%elem_of_bt_keys. by eapply map_disjoint_spec.
Qed.

Lemma page_spec w m from limit :
  shows w m → ∃ R w', (∀ i, R !! i = raw w i) ∧ same_world w w' ∧
    page from limit w = (w', Ok (at_most limit (List.filter (λ x : N * PInode, from <=? x.1) (bt_entries R))).*2).
Proof.
  intros Hs. destruct (raw_map w m Hs) as (R & HR & Hmem & Hpg). exists R. pose proof (sh_coherent _ _ Hs) as Hc.
  assert (∀ out : gmap N PInode, at_most limit (bt_values out) = (at_most limit (bt_entries out)).*2) as Hv.
  { intros out. unfold bt_values. destruct limit; [|done]. simpl. by rewrite fmap_take. }
  unfold page, mbind, sm_bind, sm_reads. rewrite <- !filtered. destruct (paged (tbl w)) as [fs|] eqn:Hp.
  2:{ exists w. split_and!; [done|by apply same_world_refl|]. unfold mret, sm_ret. rewrite Hv, Hmem by done. do 3 f_equal. apply first_again. }
  destruct (Hpg fs eq_refl) as [Hd ->].
  match goal with |- context [peek_all fs ?l] => destruct (peek_all_spec w fs l Hc) as (w' & E & Hw) end.
  unfold mbind, sm_bind in E. rewrite E. exists w'. split_and!; [done|done|]. unfold mret, sm_ret. rewrite Hv. do 3 f_equal.
  unfold inos_from. rewrite untouched_keys, (peek_keys w fs from) by apply elem_of_at_most.
  assert (omap (λ i, pair i <$> untouched w fs from !! i) (at_most limit (bt_keys (untouched w fs from))) =
          at_most limit (bt_entries (untouched w fs from))) as ->.
  { rewrite <- (bt_entries_keys (untouched w fs from)).
    assert (∀ i, i ∈ bt_keys (untouched w fs from) → is_Some (untouched w fs from !! i)) as Hin by (intros i; apply elem_of_bt_keys).
    clear -Hin. destruct limit as [n|]; [|done]. simpl. revert n. induction (bt_keys (untouched w fs from)) as [|i l IH]; intros [|n]; [done..|].
    csimpl. destruct (Hin i ltac:(by left)) as [p ->]. csimpl. f_equal. apply IH. intros j Hj. apply Hin. by right. }
  assert (untouched w fs from ⊆ untouched w fs 0) as Hsub.
  { apply map_subseteq_spec. intros i p (? & ? & ?)%untouched_Some. apply untouched_Some. split_and!; [done|lia|done]. }
  assert (base.filter (λ x, (from <=? x.1) = true) (Tracked.map (tmap (tbl w))) ##ₘ untouched w fs from) as Hdf.
  { eapply map_disjoint_weaken; [exact Hd|apply map_filter_subseteq|done]. }
  rewrite (merge_first limit) by done. do 2 f_equal. apply map_eq. intros i. apply option_eq. intros p.
  rewrite map_lookup_filter_Some, !lookup_union_Some, map_lookup_filter_Some, !untouched_Some by done. simpl.
  rewrite N.leb_le. naive_solver lia.
Qed.

End InodesSpec.
