(* ===== verification/InodesSim.v ===== *)
(** * A paged table is its contents ([inodes.rs])

    The operations of a table as the rest of the code uses them, on the paged
    table and on the plain map of its contents, and the proof that no sequence of
    them tells the two apart. *)

From S2P Require Import Prelude MetaError Lru Tracked Catalog Store FsTree Inodes InodesSpec.

Module InodesSim.
Import MetaError Catalog Store Inodes InodesSpec.

Open Scope N_scope.

(** ** Edits *)

(** An inode apart from its directory entries, which is what the callers of
    [get_mut] edit; the entries change through [set_entry]. *)
Definition head {E} (x : InodeOf E) : InodeOf () := map_entries (λ _, ()) x.

Definition edit_with {E} (g : InodeOf () → InodeOf ()) (x : InodeOf E) : InodeOf E :=
  let h := g (head x) in
  mkInodeOf (attrs h)
    (match kd h, kd x with
     | KDir p _, KDir _ e => KDir p e
     | KDir _ _, k => k
     | KFile s m, _ => KFile s m
     | KSymlink t, _ => KSymlink t
     | KSpecial t r, _ => KSpecial t r
     end).

(** An edit keeps the inode's number and does not turn a directory into something
    else or back. *)
Definition keeps (g : InodeOf () → InodeOf ()) : Prop :=
  ∀ h, at_ino (attrs (g h)) = at_ino (attrs h) ∧ is_kdir (g h) = is_kdir h.

(** ** Operations and what they return *)

Inductive TableOp :=
| OGet (i : N)
| OEdit (i : N) (g : InodeOf () → InodeOf ())
| OInsert (x : Inode)
| ORemove (i : N)
| OEntry (d : N) (name : string)
| OEntries (d : N) (after : option string) (limit : option nat)
| OSetEntry (d : N) (name : string) (o : option N)
| OScan
| OPage (from : N) (limit : option nat)
| OLen.

(** Of an inode that is read or removed, callers see all but the entries, and
    their number. *)
Inductive Obs :=
| Summary (o : option (InodeOf N))
| Found (b : bool)
| Entry (o : option N)
| Entries (l : list (string * N))
| Whole (l : list Inode)
| Count (n : N)
| Done.

Definition run_paged (op : TableOp) : T Obs :=
  match op with
  | OGet i => p ← get i; mret (Summary (map_entries de_len <$> p))
  | OEdit i g => b ← get_mut i (edit_with g); mret (Found b)
  | OInsert x => insert (map_entries de_from (of_inode x)) ;; mret Done
  | ORemove i => p ← remove i; mret (Summary (map_entries de_len <$> p))
  | OEntry d n =>
      o ← get d;
      match o with None => sm_err NotFound | Some p => r ← entry p n; mret (Entry r) end
  | OEntries d a limit =>
      o ← get d;
      match o with None => sm_err NotFound | Some p => l ← entries p a limit; mret (Entries l) end
  | OSetEntry d n o => r ← set_entry d n o; mret (Entry r)
  | OScan => l ← scan_full; mret (Whole ((to_inode ∘ whole) <$> l))
  | OPage from limit => l ← page_full from limit; mret (Whole ((to_inode ∘ whole) <$> l))
  | OLen => sm_reads (λ w, Count (tlen (tbl w)))
  end.

Definition summary (x : Inode) : InodeOf N := map_entries (λ es, N.of_nat (size es)) (of_inode x).

Definition run_mem (op : TableOp) : SM FsMeta MetaError Obs :=
  match op with
  | OGet i => sm_reads (λ f, Summary (summary <$> inodes f !! i))
  | OEdit i g =>
      b ← sm_reads (λ f, bool_decide (is_Some (inodes f !! i)));
      sm_modify (λ f, f <| inodes ::= alter (to_inode ∘ edit_with g ∘ of_inode) i |>) ;;
      mret (Found b)
  | OInsert x => sm_modify (λ f, f <| inodes ::= <[ino x := x]> |>) ;; mret Done
  | ORemove i =>
      o ← sm_reads (λ f, inodes f !! i);
      sm_modify (λ f, f <| inodes ::= delete i |>) ;;
      mret (Summary (summary <$> o))
  | OEntry d n => x ← sm_try (λ f, FsTree.inode f d); mret (Entry (FsTree.entry_of x n))
  | OEntries d a limit =>
      x ← sm_try (λ f, FsTree.inode f d);
      mret (Entries (match kind x with
                     | Dir _ es => at_most limit (List.filter (λ y : string * N, after_name a (y.1)) (bt_entries es))
                     | _ => []
                     end))
  | OSetEntry d n o => r ← FsTree.table_set_entry d n o; mret (Entry r)
  | OScan => sm_reads (λ f, Whole (bt_values (inodes f)))
  | OPage from limit =>
      sm_reads (λ f, Whole (at_most limit (List.filter (λ x : N * Inode, from <=? x.1) (bt_entries (inodes f)))).*2)
  | OLen => sm_reads (λ f, Count (N.of_nat (size (inodes f))))
  end.

(** Inode numbers are never reused, and edits are those above. *)
Definition op_ok (f : FsMeta) (op : TableOp) : Prop :=
  match op with
  | OInsert x => inodes f !! ino x = None
  | OEdit _ g => keeps g
  | _ => True
  end.

(** ** Simulation *)

Definition reads (op : TableOp) : bool :=
  match op with OEdit _ _ | OInsert _ | ORemove _ | OSetEntry _ _ _ => false | _ => true end.

(** An edit in place leaves a directory a directory, and its entries where they
    were. *)
Definition same_shape (p p' : PInode) : Prop :=
  match kd p, kd p' with
  | KDir _ de, KDir _ de' => stored de' = stored de
  | KDir _ _, _ | _, KDir _ _ => False
  | _, _ => True
  end.

(** What an operation changes of a table: nothing when it reads, else at most one
    inode, edited in place or replaced. *)
Definition moves (op : TableOp) (w w' : World) : Prop :=
  same_world w w' ∨ reads op = false ∧ ∃ i o n rep, put_in w w' i o n rep ∧
    (rep = false → ∃ p p', raw w i = Some p ∧ o = Some p' ∧ same_shape p p').

(** [w] simulates [f] over one operation. *)
Definition simulated (op : TableOp) (w : World) (f : FsMeta) : Prop :=
  ∃ w' f' r, run_paged op w = (w', r) ∧ run_mem op f = (f', r) ∧ shows w' (inodes f') ∧ moves op w w'.

Lemma put_in_from w w1 w2 i o n rep : same_world w w1 → put_in w1 w2 i o n rep → put_in w w2 i o n rep.
Proof.
  intros (Et & Hr & _) [[Hr2 Hc2] H2 H3 H4 H5 H6]. rewrite Et in *. split; [|done..]. split; [congruence|done].
Qed.

Lemma set_same_shape n c b p : same_shape p (set_kind_entry n c b p).
Proof. unfold same_shape, set_kind_entry. simpl. destruct (kd p); simpl; try done. by destruct c. Qed.

Lemma edit_same_shape g p : keeps g → same_shape p (edit_with g p).
Proof.
  intros Hg. unfold same_shape, edit_with. simpl. destruct (Hg (head p)) as [_ Hd]. unfold is_kdir, head in Hd. simpl in Hd.
  destruct (kd p), (kd (g (head p))) eqn:E; simpl in *; unfold head in E; rewrite E in Hd; done.
Qed.

Lemma shows_len r o p x : inode_shows r o p (of_inode x) → map_entries de_len p = summary x.
Proof.
  intros [Ha Hk]. unfold summary, map_entries. rewrite <- Ha. f_equal. destruct (kd p), (kd (of_inode x)); try done; simpl in *.
  - destruct Hk as [-> Hd]. by rewrite (ds_len _ _ _ _ _ Hd).
  - by destruct Hk as [-> ->].
  - by rewrite Hk.
  - by destruct Hk as [-> ->].
Qed.

Lemma shows_edit g r o p x : keeps g → inode_shows r o p x → inode_shows r o (edit_with g p) (edit_with g x).
Proof.
  intros Hg [Ha Hk]. assert (head p = head x) as Hh.
  { unfold head, map_entries. rewrite Ha. f_equal. destruct (kd p), (kd x); try done; simpl in *; naive_solver. }
  unfold edit_with. rewrite Hh. split; [done|]. simpl. destruct (Hg (head x)) as [Hi Hd]. rewrite Hi. unfold is_kdir in Hd.
  change (at_ino (attrs (head x))) with (at_ino (attrs x)). rewrite Ha in Hk.
  destruct (kd (g (head x))), (kd p) eqn:Ep, (kd x) eqn:Ex; try done; simpl in *; rewrite ?Ex in Hd; simpl in Hd; try done; naive_solver.
Qed.

Lemma read_sim i w f : shows w (inodes f) → simulated (OGet i) w f.
Proof.
  intros Hs. destruct (get_spec w _ i Hs) as (w' & E & Hw). pose proof (shows_raw w _ i Hs) as Hr.
  exists w', f, (Ok (Summary (summary <$> inodes f !! i))). split; [|split; [done|split; [by eapply same_world_shows|by left]]].
  unfold run_paged, mbind, sm_bind. rewrite E. unfold mret, sm_ret. do 3 f_equal.
  destruct (inodes f !! i) as [x|]; [|by rewrite Hr]. destruct Hr as (p & -> & Hp & _). simpl. by rewrite (shows_len _ _ _ _ Hp).
Qed.

Lemma edit_sim i g w f : shows w (inodes f) → keeps g → simulated (OEdit i g) w f.
Proof.
  intros Hs Hg. pose proof (get_mut_spec w _ i (edit_with g) Hs) as Hm. pose proof (shows_raw w _ i Hs) as Hr.
  unfold simulated, run_paged, run_mem, mbind, sm_bind, sm_reads, sm_modify. destruct (inodes f !! i) as [x|] eqn:Hx.
  - destruct Hr as (p & Hp & Hpx & Hi). rewrite Hp in Hm. destruct Hm as (w' & -> & Hput). do 3 eexists. split; [done|]. split; [done|]. split.
    2:{ right. split; [done|]. do 4 eexists. split; [exact Hput|]. intros _. exists p. eexists. split_and!; [done..|]. by apply edit_same_shape. }
    simpl. apply (shows_put w w' (inodes f) _ i _ _ _ Hs Hput).
    + intros j Hne. by rewrite lookup_alter_ne.
    + rewrite lookup_alter_eq, Hx. simpl. rewrite of_to_inode. constructor. by apply shows_edit.
    + intros y. rewrite lookup_alter_eq, Hx. intros [= <-]. simpl. rewrite (proj1 (Hg _)). exact (sh_ino _ _ Hs _ _ Hx).
    + rewrite (sh_len _ _ Hs). f_equal. rewrite <- !size_dom, dom_alter_L. done.
  - rewrite Hr in Hm. destruct Hm as (w' & -> & Hw). do 3 eexists. split; [done|]. split; [done|]. split; [|by left]. simpl.
    rewrite alter_id; [by eapply same_world_shows|]. intros y Hy. congruence.
Qed.

Lemma insert_sim x w f : shows w (inodes f) → inodes f !! ino x = None → simulated (OInsert x) w f.
Proof.
  intros Hs Hn. pose proof (shows_raw w _ (ino x) Hs) as Hr. rewrite Hn in Hr.
  set (p := map_entries de_from (of_inode x)). destruct (insert_spec w _ p Hs Hr) as (w' & E & Hput).
  exists w', (f <| inodes ::= <[ino x := x]> |>), (Ok Done). unfold run_paged, mbind, sm_bind. fold p. rewrite E.
  split; [done|]. split; [done|]. split; [|right; split; [done|]; do 4 eexists; split; [exact Hput|done]].
  change (at_ino (attrs p)) with (ino x) in Hput. simpl.
  apply (shows_put w w' (inodes f) _ (ino x) _ _ _ Hs Hput).
  - intros j Hne. by rewrite lookup_insert_ne.
  - rewrite lookup_insert_eq. constructor. split; [done|]. unfold p. destruct (kind x) eqn:Ek; simpl; rewrite Ek; simpl; [|done..].
    split; [done|apply dir_shows_from].
  - intros y. rewrite lookup_insert_eq. by intros [= <-].
  - rewrite map_size_insert_None, (sh_len _ _ Hs) by done. lia.
Qed.

Lemma remove_sim i w f : shows w (inodes f) → simulated (ORemove i) w f.
Proof.
  intros Hs. pose proof (remove_spec w _ i Hs) as Hm. pose proof (shows_raw w _ i Hs) as Hr.
  unfold simulated, run_paged, run_mem, mbind, sm_bind, sm_reads, sm_modify. destruct (inodes f !! i) as [x|] eqn:Hx.
  - destruct Hr as (p & Hp & Hpx & Hi). rewrite Hp in Hm. destruct Hm as (w' & -> & Hput). do 3 eexists. split; [done|].
    split; [simpl; by rewrite (shows_len _ _ _ _ Hpx)|]. split; [|right; split; [done|]; do 4 eexists; split; [exact Hput|done]]. simpl. apply (shows_put w w' (inodes f) _ i _ _ _ Hs Hput).
    + intros j Hne. by rewrite lookup_delete_ne.
    + rewrite lookup_delete_eq. constructor.
    + intros y. by rewrite lookup_delete_eq.
    + rewrite (sh_len _ _ Hs), map_size_delete_Some by eauto. lia.
  - rewrite Hr in Hm. destruct Hm as (w' & -> & Hw). do 3 eexists. split; [done|]. split; [done|]. split; [|by left]. simpl.
    rewrite delete_id by done. by eapply same_world_shows.
Qed.

Lemma entry_sim d n w f : shows w (inodes f) → simulated (OEntry d n) w f.
Proof.
  intros Hs. destruct (get_spec w _ d Hs) as (w' & E & Hw). pose proof (shows_raw w _ d Hs) as Hr.
  pose proof (same_world_shows _ _ _ Hw Hs) as Hs'. pose proof Hw as (Ht & Hrec & _).
  unfold simulated, run_paged, run_mem, FsTree.inode, mbind, sm_bind, sm_try. rewrite E.
  destruct (inodes f !! d) as [x|]; [|rewrite Hr; exists w', f, (Err NotFound); split_and!; [done..|by left]].
  destruct Hr as (p & -> & Hp & _). rewrite <- Hrec, <- Ht in Hp. rewrite (entry_spec w' p _ n Hp).
  do 3 eexists. split; [done|]. split; [|split; [done|by left]]. unfold FsTree.entry_of, of_inode. simpl. by destruct (kind x).
Qed.

Lemma entries_sim d a limit w f : shows w (inodes f) → simulated (OEntries d a limit) w f.
Proof.
  intros Hs. destruct (get_spec w _ d Hs) as (w' & E & Hw). pose proof (shows_raw w _ d Hs) as Hr.
  pose proof (same_world_shows _ _ _ Hw Hs) as Hs'. pose proof Hw as (Ht & Hrec & _).
  unfold simulated, run_paged, run_mem, FsTree.inode, mbind, sm_bind, sm_try. rewrite E.
  destruct (inodes f !! d) as [x|]; [|rewrite Hr; exists w', f, (Err NotFound); split_and!; [done..|by left]].
  destruct Hr as (p & -> & Hp & _). rewrite <- Hrec, <- Ht in Hp. rewrite (entries_spec w' p _ a limit Hp).
  do 3 eexists. split; [done|]. split; [|split; [done|by left]]. unfold of_inode. simpl. by destruct (kind x).
Qed.

Lemma shows_is_dir r o p x : inode_shows r o p (of_inode x) → is_kdir p = FsTree.is_dir x.
Proof. intros [_ Hk]. unfold is_kdir, FsTree.is_dir, of_inode in *. simpl in Hk. by destruct (kd p), (kind x). Qed.

Lemma shows_set_entry r o p x n c :
  inode_shows r o p (of_inode x) →
  inode_shows r o (set_kind_entry n c (bool_decide (is_Some (FsTree.entry_of x n))) p)
    (of_inode (x <| kind ::= FsTree.with_entry n c |>)).
Proof.
  intros [Ha Hk]. split; [done|]. unfold set_kind_entry, of_inode, FsTree.entry_of in *. simpl in *.
  destruct (kd p), (kind x); try done. simpl in *. destruct Hk as [-> Hd]. split; [done|]. by apply dir_shows_set.
Qed.

Lemma set_entry_sim d n o w f : shows w (inodes f) → simulated (OSetEntry d n o) w f.
Proof.
  intros Hs. destruct (get_spec w _ d Hs) as (w1 & E & Hw). pose proof (shows_raw w _ d Hs) as Hr.
  pose proof (same_world_shows _ _ _ Hw Hs) as Hs1. pose proof Hw as (Ht & Hrec & _).
  unfold simulated, run_paged, run_mem, set_entry, FsTree.table_set_entry, FsTree.edit_inode, FsTree.inode, mbind, sm_bind, sm_try, sm_modify.
  rewrite E. destruct (inodes f !! d) as [x|] eqn:Hx; [|rewrite Hr; exists w1, f, (Err NotFound); split_and!; [done..|by left]].
  destruct Hr as (p & Hp & Hpx & _). rewrite Hp. rewrite <- Hrec, <- Ht in Hpx. rewrite (entry_spec w1 p _ n Hpx).
  rewrite <- (same_world_raw _ _ d Hw) in Hp. cbn [ok_or].
  pose proof (get_mut_spec w1 _ d (set_kind_entry n o (bool_decide (is_Some (FsTree.entry_of x n)))) Hs1) as Hm. rewrite Hp in Hm.
  assert ((match kd (of_inode x) with KDir _ es => es !! n | _ => None end) = FsTree.entry_of x n) as ->.
  { unfold FsTree.entry_of, of_inode. simpl. by destruct (kind x). }
  destruct Hm as (w2 & -> & Hput). pose proof (shows_set_entry _ _ _ _ n o Hpx) as Hset.
  assert (shows w2 (<[d := x <| kind ::= FsTree.with_entry n o |>]> (inodes f))) as Hs2.
  { apply (shows_put w1 w2 (inodes f) _ d _ _ _ Hs1 Hput).
    - intros j Hne. by rewrite lookup_insert_ne.
    - rewrite lookup_insert_eq. by constructor.
    - intros y. rewrite lookup_insert_eq. intros [= <-]. exact (sh_ino _ _ Hs _ _ Hx).
    - rewrite (sh_len _ _ Hs1). f_equal. rewrite map_size_insert_Some by eauto. done. }
  assert (moves (OSetEntry d n o) w w2) as Hmv.
  { right. split; [done|]. do 4 eexists. split; [by eapply put_in_from|]. intros _. exists p. eexists. rewrite <- (same_world_raw _ _ d Hw).
    split_and!; [done..|]. apply set_same_shape. }
  rewrite (shows_is_dir _ _ _ _ Hpx). cbn [andb]. destruct (FsTree.is_dir x) eqn:Hdir; [do 3 eexists; split; [reflexivity|]; split; [simpl; by rewrite Hx|by split]|].
  exists w2, f, (Err NotDir). split; [done|]. split; [done|]. rewrite insert_id in Hs2; [by split|]. rewrite Hx. f_equal.
  destruct x as [? []]; try done.
Qed.

(** ** Listings *)

Lemma sm_map_full w l xs :
  Forall2 (inode_shows (recs (snap w)) (paged (tbl w))) l xs → ∃ l', sm_map full l w = (w, Ok l') ∧ whole <$> l' = xs.
Proof.
  induction 1 as [|p x l xs Hp _ IH]; [by exists []|]. destruct (full_spec w p x Hp) as (p' & E & Hx & _).
  destruct IH as (l' & E' & Hl). exists (p' :: l'). simpl. unfold mbind, sm_bind. rewrite E, E'. split; [done|].
  change (whole p' :: (whole <$> l') = x :: xs). by rewrite Hx, Hl.
Qed.

Lemma listing_shows w m R :
  shows w m → (∀ i, R !! i = raw w i) →
  Forall2 (λ x y, x.1 = y.1 ∧ inode_shows (recs (snap w)) (paged (tbl w)) (x.2) (y.2)) (bt_entries R)
    ((λ x, (x.1, of_inode (x.2))) <$> bt_entries m).
Proof.
  intros Hs HR. rewrite <- bt_entries_fmap. apply bt_entries_Forall2. intros i. rewrite HR, lookup_fmap. apply Hs.
Qed.

Lemma Forall2_keys_filter {K A B} (P : A → B → Prop) (f : K → bool) (l : list (K * A)) (l' : list (K * B)) :
  Forall2 (λ x y, x.1 = y.1 ∧ P (x.2) (y.2)) l l' →
  Forall2 (λ x y, x.1 = y.1 ∧ P (x.2) (y.2)) (List.filter (λ x, f (x.1)) l) (List.filter (λ x, f (x.1)) l').
Proof.
  induction 1 as [|x y l l' [Hk Hp] _ IH]; [constructor|]. simpl. rewrite Hk. destruct (f (y.1)); [|done]. by constructor.
Qed.

Lemma Forall2_at_most {A B} (P : A → B → Prop) limit l l' : Forall2 P l l' → Forall2 P (at_most limit l) (at_most limit l').
Proof. destruct limit; [|done]. apply Forall2_take. Qed.

Lemma filter_fmap {A B} (f : B → bool) (g : A → B) l : List.filter f (g <$> l) = g <$> List.filter (λ x, f (g x)) l.
Proof. induction l as [|x l IH]; [done|]. rewrite fmap_cons. simpl. destruct (f (g x)); [by rewrite fmap_cons, IH|done]. Qed.

Lemma to_of_list (l : list Inode) : to_inode <$> (of_inode <$> l) = l.
Proof. induction l as [|x l IH]; [done|]. csimpl. by rewrite to_of_inode, IH. Qed.

Lemma scan_sim w f : shows w (inodes f) → simulated OScan w f.
Proof.
  intros Hs. destruct (scan_spec w _ Hs) as (R & w' & HR & E & Hw). pose proof (same_world_shows _ _ _ Hw Hs) as Hs'.
  unfold simulated, run_paged, run_mem, scan_full, mbind, sm_bind, sm_reads. rewrite E.
  assert (∀ i, R !! i = raw w' i) as HR' by (intros i; by rewrite (same_world_raw _ _ _ Hw)).
  pose proof (listing_shows _ _ _ Hs' HR') as HF. destruct (sm_map_full w' (bt_values R) (of_inode <$> bt_values (inodes f))) as (l' & -> & Hl).
  { unfold bt_values. apply Forall2_fmap_l, Forall2_fmap_r, Forall2_fmap_r. apply Forall2_fmap_r in HF.
    eapply Forall2_impl; [exact HF|]. by intros ?? [_ ?]. }
  do 3 eexists. split; [done|]. split; [|split; [done|by left]]. by rewrite list_fmap_compose, Hl, to_of_list.
Qed.

Lemma page_sim from limit w f : shows w (inodes f) → simulated (OPage from limit) w f.
Proof.
  intros Hs. destruct (page_spec w _ from limit Hs) as (R & w' & HR & Hw & E). pose proof (same_world_shows _ _ _ Hw Hs) as Hs'.
  unfold simulated, run_paged, run_mem, page_full, mbind, sm_bind, sm_reads. rewrite E.
  assert (∀ i, R !! i = raw w' i) as HR' by (intros i; by rewrite (same_world_raw _ _ _ Hw)).
  pose proof (listing_shows _ _ _ Hs' HR') as HF. apply (Forall2_keys_filter _ (N.leb from)) in HF.
  set (xs := at_most limit (List.filter (λ x : N * Inode, from <=? x.1) (bt_entries (inodes f)))).
  destruct (sm_map_full w' (at_most limit (List.filter (λ x : N * PInode, from <=? x.1) (bt_entries R))).*2 (of_inode <$> xs.*2))
    as (l' & -> & Hl).
  { rewrite filter_fmap in HF. apply Forall2_fmap_r in HF. apply Forall2_fmap_l, Forall2_fmap_r, Forall2_fmap_r. unfold xs.
    apply (Forall2_at_most _ limit) in HF. eapply Forall2_impl; [exact HF|]. by intros ?? [_ ?]. }
  do 3 eexists. split; [done|]. split; [|split; [done|by left]]. by rewrite list_fmap_compose, Hl, to_of_list.
Qed.

Lemma step_sim op w f : shows w (inodes f) → op_ok f op → simulated op w f.
Proof.
  destruct op; simpl; intros Hs Hok;
    [by apply read_sim|by apply edit_sim|by apply insert_sim|by apply remove_sim|by apply entry_sim|by apply entries_sim
    |by apply set_entry_sim|by apply scan_sim|by apply page_sim|].
  exists w, f, (Ok (Count (tlen (tbl w)))). split; [done|]. split; [unfold run_mem, sm_reads; by rewrite (sh_len _ _ Hs)|].
  split; [done|]. left. apply same_world_refl, Hs.
Qed.

(** ** Sequences of operations *)

Fixpoint outputs {S} (run : TableOp → SM S MetaError Obs) (ops : list TableOp) (s : S) : S * list (res MetaError Obs) :=
  match ops with
  | [] => (s, [])
  | op :: ops => let '(s, r) := run op s in let '(s, rs) := outputs run ops s in (s, r :: rs)
  end.

Fixpoint ops_ok (f : FsMeta) (ops : list TableOp) : Prop :=
  match ops with
  | [] => True
  | op :: ops => op_ok f op ∧ ops_ok (fst (run_mem op f)) ops
  end.

(** C16. A paged inode table cannot be told from its contents.  Whatever sequence
    of reads, edits, insertions, removals, entry lookups and updates, scans and
    pages is run, the table that keeps only changed inodes and entries in memory,
    reads the others from the store's snapshot and caches them, returns exactly
    what the same sequence returns on the plain map of all inodes, errors
    included, and still shows the map's contents at the end. *)
Theorem paged_table_is_contents ops w f :
  shows w (inodes f) → ops_ok f ops →
  snd (outputs run_paged ops w) = snd (outputs run_mem ops f) ∧
  shows (fst (outputs run_paged ops w)) (inodes (fst (outputs run_mem ops f))).
Proof.
  revert w f. induction ops as [|op ops IH]; intros w f Hs Hok; [done|]. destruct Hok as [Hop Hok].
  destruct (step_sim op w f Hs Hop) as (w' & f' & r & E & E' & Hs' & _). rewrite E' in Hok. cbn [outputs]. rewrite E, E'.
  destruct (IH w' f' Hs' Hok) as [H1 H2]. destruct (outputs run_paged ops w'), (outputs run_mem ops f').
  simpl in *. by rewrite H1.
Qed.

(** ** An example *)

Definition demo_attrs (i : N) : Attrs := mkAttrs i 420 0 0 1 0 0 0 EmptyString ∅.
Definition demo_recs : Recs :=
  mkRecs (<[("fs"%string, 1) := mkInodeOf (demo_attrs 1) (KDir 1 (de_stored 1))]>
           (<[("fs"%string, 2) := mkInodeOf (demo_attrs 2) (KFile 0 ∅)]> ∅))
    (<[("fs"%string, 1, "a"%string) := 2]> ∅).
Definition demo_world : World := mkWorld (paged_table "fs" 2) (mkSnap demo_recs (Lru.new 64)).
Definition demo_inodes : gmap N Inode :=
  <[1 := to_inode (mkInodeOf (demo_attrs 1) (KDir 1 (<["a"%string := 2]> ∅)))]>
    (<[2 := to_inode (mkInodeOf (demo_attrs 2) (KFile 0 ∅))]> ∅).
Definition demo_fs : FsMeta := mkFsMeta "fs" "fs" 3 demo_inodes None None None None None.
Definition demo_ops : list TableOp :=
  [OSetEntry 1 "b" (Some 2); OSetEntry 1 "a" None; OEntries 1 None None; ORemove 2; OScan; OLen].

Lemma demo_shows : shows demo_world (inodes demo_fs).
Proof.
  split; [|..|done|done|].
  - intros i. destruct (decide (i = 1)) as [->|H1]; [|destruct (decide (i = 2)) as [->|H2]].
    + constructor. split; [done|]. split; [done|]. apply dir_shows_settled; [|done]. intros k. simpl.
      destruct (decide (k = "a"%string)) as [->|Hk]; [by vm_compute|]. rewrite !lookup_insert_ne by congruence. done.
    + by constructor.
    + assert (raw demo_world i = None) as ->.
      { assert (r_inodes demo_recs !! ("fs"%string, i) = None) as Hn.
        { unfold demo_recs. cbn [r_inodes]. rewrite !lookup_insert_ne by congruence. apply lookup_empty. }
        unfold raw, behind, demo_world, paged_table, Tracked.from. cbn [tbl tmap paged snap recs Tracked.map Tracked.touched].
        rewrite lookup_empty. cbn [mbind option_bind]. rewrite decide_False by set_solver. change (read demo_recs "fs" i = None). unfold read. by rewrite Hn. }
      simpl. unfold demo_inodes. rewrite !lookup_insert_ne by congruence. constructor.
  - intros i x. simpl. unfold demo_inodes. rewrite !lookup_insert_Some. intros [[<- <-]|[_ [[<- <-]|[_ ?]]]]; done.
  - split; [apply Lru.new_ok|done].
Qed.

Lemma paged_table_is_contents_witness :
  snd (outputs run_paged demo_ops demo_world) = snd (outputs run_mem demo_ops demo_fs) ∧
  nth_error (snd (outputs run_paged demo_ops demo_world)) 2 = Some (Ok (Entries [("b"%string, 2)])).
Proof.
  split; [|by vm_compute]. apply (paged_table_is_contents demo_ops demo_world demo_fs demo_shows). by vm_compute.
Defined.

End InodesSim.
