(* ===== verification/Checkpoint.v ===== *)
(** * Checkpoints of the catalog ([store.rs])

    A catalog whose maps record their changes, the tables of the store, and the
    checkpoint that writes the changes and pages the filesystems' inode tables on
    the new snapshot; and the load of a checkpoint.  A write transaction is the
    tables it leaves when it commits; reads and commits of the database do not
    fail.  Before a transaction commits, paged tables read the old snapshot. *)

From S2P Require Import Prelude MetaError FreeList Membership Leases Lru Tracked Catalog Store FsTree Inodes.

Module Checkpoint.
Import MetaError Catalog Store Inodes.

Open Scope N_scope.

(** ** Data *)

(** [StateRef] and [State]: what is outside the tracked maps. *)
Record State := mkState {
  st_applied_index : N;
  st_current_term : N;
  st_free : FreeList.FreeList;
  st_membership : option Membership.Membership;
  st_raft_addrs : gmap string string;
  st_leases : Leases.Leases;
}.

(** A filesystem apart from its inodes. *)
Record FsInfo := mkFsInfo {
  i_id : FsId;
  i_name : string;
  i_next_ino : N;
  i_source_snapshot : option SnapshotId;
  i_extent_bytes : option N;
  i_usage : option FsUsage;
  i_quota : option FsQuota;
  i_replica : option ReplicaState;
}.
Record FsHeader := mkFsHeader { h_info : FsInfo; h_inodes : option N }.

(** [FsMeta] with the inode table it has. *)
Record PFs := mkPFs { p_info : FsInfo; p_table : InodeTable }.
#[export] Instance eta_PFs : Eta PFs := λ f, mkPFs (p_info f) (p_table f).

Record PCatalog := mkPCatalog {
  c_state : State;
  c_volumes : Tracked.Tracked VolumeId VolumeMeta;
  c_snapshots : Tracked.Tracked SnapshotId SnapshotMeta;
  c_extents : Tracked.Tracked ExtentId ExtentMeta;
  c_fs_snapshots : Tracked.Tracked SnapshotId FsSnapshotMeta;
  c_filesystems : Tracked.Tracked FsId PFs;
  in_store : bool;
}.

(** The tables of the database. *)
Record Tables := mkTables {
  t_state : option State;
  t_volumes : gmap VolumeId VolumeMeta;
  t_snapshots : gmap SnapshotId SnapshotMeta;
  t_extents : gmap ExtentId ExtentMeta;
  t_fs_snapshots : gmap SnapshotId FsSnapshotMeta;
  t_headers : gmap FsId FsHeader;
  t_recs : Recs;
}.
#[export] Instance eta_Tables : Eta Tables :=
  λ t, mkTables (t_state t) (t_volumes t) (t_snapshots t) (t_extents t) (t_fs_snapshots t) (t_headers t) (t_recs t).

Definition no_tables : Tables := mkTables None ∅ ∅ ∅ ∅ ∅ (mkRecs ∅ ∅).

(** [CatalogStore]: the database, the size of the cache and the snapshot the last
    load or checkpoint paged the catalog on. *)
Record CatalogStore := mkStore { db : Tables; cache_inodes : nat; last : option Snap }.

(** ** Snapshots *)

(** [CatalogStore::snapshot]: a snapshot of the database with what stays valid of
    the last one's cache. *)
Definition snapshot (self : CatalogStore) (stale : list (FsId * N)) (stale_fs : gset FsId) : Snap :=
  let c := match last self with
           | None => Lru.new (cache_inodes self)
           | Some old =>
               let c := foldl (λ c k, fst (Lru.take c k)) (cache old) stale in
               let c := if bool_decide (stale_fs = ∅) then c
                        else Lru.retain c (λ k : FsId * N, negb (bool_decide (k.1 ∈ stale_fs))) in
               Lru.mkLru (cache_inodes self) (Lru.tick c) (Lru.map c) (Lru.order c)
           end in
  mkSnap (t_recs (db self)) c.

(** ** Load *)

Definition load_fs (h : FsHeader) (s : Snap) : PFs :=
  let id := i_id (h_info h) in
  mkPFs (h_info h)
    (paged_table id (match h_inodes h with Some n => n | None => N.of_nat (length (inos (recs s) id)) end)).

Definition load (self : CatalogStore) : CatalogStore * option PCatalog :=
  match t_state (db self) with
  | None => (self, None)
  | Some st =>
      let s := snapshot self [] ∅ in
      let fss := extend ∅ ((λ h, (i_id (h_info h), load_fs h s)) <$> bt_values (t_headers (db self))) in
      (mkStore (db self) (cache_inodes self) (Some s),
       Some (mkPCatalog st (Tracked.from (t_volumes (db self))) (Tracked.from (t_snapshots (db self)))
               (Tracked.from (t_extents (db self))) (Tracked.from (t_fs_snapshots (db self))) (Tracked.from fss) true))
  end.

(** ** Writing *)

Definition write_map {V} (t : Tracked.Tracked string V) (full : bool) (tab : gmap string V) : gmap string V :=
  foldl (λ tab k, match Tracked.map t !! k with Some v => <[k := v]> tab | None => delete k tab end) tab
    (if full then bt_keys (Tracked.map t) else bt_elements (Tracked.touched t)).

(** A directory's record holds the count of its entries. *)
Definition inode_record (p : PInode) : PInode := map_entries (λ de, de_stored (de_len de)) p.

(** The write transaction's tables and the old snapshot the paged tables read. *)
Record Tx := mkTx { x_headers : gmap FsId FsHeader; x_recs : Recs; x_snap : Snap }.
#[export] Instance eta_Tx : Eta Tx := λ x, mkTx (x_headers x) (x_recs x) (x_snap x).

Abbreviation W := (SM Tx MetaError).

(** An operation of [t] on the old snapshot. *)
Definition on_table {A} (t : InodeTable) (m : T A) : W A := λ x,
  let '(w, r) := m (mkWorld t (x_snap x)) in (x <| x_snap := snap w |>, r).

Definition edit_recs (g : Recs → Recs) : W () := sm_modify (λ x, x <| x_recs ::= g |>).

(** [retain_in] over a range of keys, keeping none. *)
Definition drop_inodes (fs : FsId) (r : Recs) : Recs :=
  r <| r_inodes ::= base.filter (λ x, x.1.1 ≠ fs) |>.
Definition drop_dirents (fs : FsId) (r : Recs) : Recs :=
  r <| r_dirents ::= base.filter (λ x, ¬ (x.1.1.1 = fs ∧ x.1.1.2 < u64_max)) |>.
Definition drop_dir (fs : FsId) (i : N) (r : Recs) : Recs :=
  r <| r_dirents ::= base.filter (λ x, x.1.1 ≠ (fs, i)) |>.

Definition put_dirent (fs : FsId) (i : N) (e : string * option N) : W () :=
  edit_recs (λ r, r <| r_dirents ::= λ m, match e.2 with
                                          | Some c => <[(fs, i, e.1) := c]> m
                                          | None => delete (fs, i, e.1) m
                                          end |>).

(** The record of inode [i] and its entries: all of them when it is [fresh], else
    those that changed. *)
Definition write_row (fs : FsId) (t : InodeTable) (fresh : bool) (i : N) : W () :=
  o ← on_table t (get i);
  match o with
  | None => edit_recs (λ r, r <| r_inodes ::= delete (fs, i) |>)
  | Some p =>
      edit_recs (λ r, r <| r_inodes ::= <[(fs, i) := inode_record p]> |>) ;;
      match kd p with
      | KDir _ de =>
          if fresh
          then l ← on_table t (entries p None None);
               sm_for l (λ e, put_dirent fs i (e.1, Some (e.2)))
          else sm_for (changes de) (put_dirent fs i)
      | _ => mret ()
      end
  end.

Definition write_inode (fs : FsId) (t : InodeTable) (rewrite : bool) (i : N) : W () :=
  let fresh := rewrite || bool_decide (i ∈ Tracked.replaced (tmap t)) in
  (if fresh && negb rewrite then edit_recs (drop_dir fs i) else mret ()) ;;
  write_row fs t fresh i.

Definition write_fs (fss : Tracked.Tracked FsId PFs) (full : bool) (fs : FsId) : W () :=
  let rewrite := full || bool_decide (fs ∈ Tracked.replaced fss) in
  (if rewrite && negb full then edit_recs (drop_inodes fs) ;; edit_recs (drop_dirents fs) else mret ()) ;;
  match Tracked.map fss !! fs with
  | None => sm_modify (λ x, x <| x_headers ::= delete fs |>)
  | Some f =>
      let t := p_table f in
      sm_modify (λ x, x <| x_headers ::= <[fs := mkFsHeader (p_info f) (Some (tlen t))]> |>) ;;
      changed ← (if rewrite then l ← on_table t scan; mret ((λ p, at_ino (attrs p)) <$> l)
                 else mret (bt_elements (Tracked.touched (tmap t))));
      sm_for changed (write_inode fs t rewrite)
  end.

Definition write_filesystems (fss : Tracked.Tracked FsId PFs) (full : bool) : W () :=
  sm_for (if full then bt_keys (Tracked.map fss) else bt_elements (Tracked.touched fss)) (write_fs fss full).

(** ** The checkpoint *)

(** Pages every table on the new snapshot, which they share. *)
Fixpoint attach_all (l : list (FsId * PFs)) (s : Snap) : list (FsId * PFs) * Snap :=
  match l with
  | [] => ([], s)
  | (k, f) :: l =>
      let '(w, _) := attach (i_id (p_info f)) (mkWorld (p_table f) s) in
      let '(l, s) := attach_all l (snap w) in
      ((k, f <| p_table := tbl w |>) :: l, s)
  end.

Definition checkpoint (self : CatalogStore) (c : PCatalog) : CatalogStore * res MetaError PCatalog :=
  let full := negb (in_store c) in
  let d := if full then no_tables else db self in
  let old := match last self with Some s => s | None => mkSnap (mkRecs ∅ ∅) (Lru.new 0) end in
  match write_filesystems (c_filesystems c) full (mkTx (t_headers d) (t_recs d) old) with
  | (x, Ok _) =>
      let d := mkTables (Some (c_state c)) (write_map (c_volumes c) full (t_volumes d))
                 (write_map (c_snapshots c) full (t_snapshots d)) (write_map (c_extents c) full (t_extents d))
                 (write_map (c_fs_snapshots c) full (t_fs_snapshots d)) (x_headers x) (x_recs x) in
      let self := mkStore d (cache_inodes self) (match last self with Some _ => Some (x_snap x) | None => None end) in
      let fss := c_filesystems c in
      let stale := bt_elements (Tracked.touched fss) ≫= λ id,
                     match Tracked.map fss !! id with
                     | Some f => pair (i_id (p_info f)) <$> bt_elements (Tracked.touched (tmap (p_table f)))
                     | None => []
                     end in
      let s := snapshot self stale (Tracked.replaced fss) in
      let fss := Tracked.clear_changes_with (λ f, f <| p_table ::= clear_changes |>) fss in
      let '(l, s) := attach_all (bt_entries (Tracked.map fss)) s in
      (mkStore d (cache_inodes self) (Some s),
       Ok (mkPCatalog (c_state c) (Tracked.clear_changes (c_volumes c)) (Tracked.clear_changes (c_snapshots c))
             (Tracked.clear_changes (c_extents c)) (Tracked.clear_changes (c_fs_snapshots c))
             (Tracked.mkTracked (list_to_map l) (Tracked.touched fss) (Tracked.replaced fss)) true))
  | (x, Err e) => (self, Err e)
  | (x, Panic) => (self, Panic)
  end.

End Checkpoint.
