(* ===== verification/CheckpointSpec.v ===== *)
(** * What a checkpoint writes ([store.rs])

    The contents of the store as a function of the contents of a catalog, and the
    proof that an incremental checkpoint brings the store from the contents of the
    last checkpoint to the catalog's. *)

From S2P Require Import Prelude MetaError FreeList Membership Leases Lru Tracked Catalog Store FsTree Inodes InodesSpec InodesSim Checkpoint.

Module CheckpointSpec.
Import MetaError Catalog Store Inodes InodesSpec InodesSim Checkpoint.

Open Scope N_scope.

(** ** A filesystem on disk *)

Definition record_of (x : Inode) : PInode := map_entries (λ es, de_stored (N.of_nat (size es))) (of_inode x).

(** The rows of one inode, of inode [o]. *)
Definition at_inode (r : Recs) (fs : FsId) (i : N) (o : option Inode) : Prop :=
  r_inodes r !! (fs, i) = record_of <$> o ∧
  ∀ n, r_dirents r !! (fs, i, n) = x ← o; FsTree.entry_of x n.

Definition on_disk (r : Recs) (fs : FsId) (m : gmap N Inode) : Prop := ∀ i, at_inode r fs i (m !! i).

(** Inodes are filed under their numbers, which are below [u64::MAX]. *)
Definition numbered (m : gmap N Inode) : Prop := ∀ i x, m !! i = Some x → ino x = i ∧ i < u64_max.

Lemma record_inode r o p x : inode_shows r o p (of_inode x) → inode_record p = record_of x.
Proof.
  intros [Ha Hk]. unfold inode_record, record_of, map_entries. rewrite <- Ha. f_equal.
  destruct (kd p), (kd (of_inode x)); try done; simpl in *; [|naive_solver..].
  destruct Hk as [-> Hd]. by rewrite (ds_len _ _ _ _ _ Hd).
Qed.

Lemma settled_record (p : PInode) : map_entries (λ de, if settled de then de else settle de) p = inode_record p.
Proof.
  unfold inode_record, map_entries. f_equal. destruct (kd p) as [a [m ch n b]| | |]; try done. simpl.
  unfold settled. simpl. destruct b; [|done]. simpl. repeat case_bool_decide; simpl; subst; done.
Qed.

Lemma read_record r fs i x : r_inodes r !! (fs, i) = Some (record_of x) → read r fs i = Some (record_of x).
Proof. intros E. unfold read. rewrite E. simpl. f_equal. destruct x as [? []]; done. Qed.

Lemma at_inode_read r fs i o : at_inode r fs i o → read r fs i = record_of <$> o.
Proof.
  intros [Hi _]. destruct o as [x|]; simpl in *; [by apply read_record|]. unfold read. by rewrite Hi.
Qed.

Lemma at_inode_shows r fs i x : at_inode r fs i (Some x) → ino x = i → inode_shows r (Some fs) (record_of x) (of_inode x).
Proof.
  intros [_ Hd] <-. split; [done|]. simpl in *. unfold FsTree.entry_of in Hd. unfold of_inode. simpl.
  destruct (kind x) as [p es| | |]; simpl; try done. split; [done|]. by apply dir_shows_settled.
Qed.

(** A clean table paged on a store that holds its filesystem. *)
Lemma paged_shows s fs m n :
  on_disk (recs s) fs m → numbered m → coherent s → n = N.of_nat (size m) → shows (mkWorld (paged_table fs n) s) m.
Proof.
  intros Hd Hn Hc ->. split; [|by intros i x [? _]%Hn|done| |done].
  - intros i. unfold raw, behind. cbn [tbl paged_table tmap Tracked.from Tracked.map paged snap Tracked.touched].
    rewrite lookup_empty. cbn [mbind option_bind]. rewrite decide_False by set_solver. cbn [mbind option_bind].
    rewrite (at_inode_read _ _ _ _ (Hd i)). destruct (m !! i) as [x|] eqn:Hx; simpl; constructor.
    apply (at_inode_shows _ _ i); [by rewrite <- Hx|]. by apply Hn.
  - intros fs' _. cbn. rewrite dom_empty_L. done.
Qed.

(** What a table shows is determined. *)
Lemma dir_shows_fun r o i de es es' : dir_shows r o i de es → dir_shows r o i de es' → es = es'.
Proof. intros H1 H2. apply map_eq. intros n. by rewrite (ds_look _ _ _ _ _ H1), (ds_look _ _ _ _ _ H2). Qed.

Lemma inode_shows_fun r o p x y : inode_shows r o p x → inode_shows r o p y → x = y.
Proof.
  intros [A1 K1] [A2 K2]. destruct x as [ax kx], y as [ay ky]. simpl in *. f_equal; [congruence|].
  destruct (kd p), kx, ky; try done; simpl in *; [|naive_solver congruence..].
  destruct K1 as [-> H1], K2 as [-> H2]. f_equal. by eapply dir_shows_fun.
Qed.

(** An inode the table did not touch is the one on disk. *)
Lemma untouched_same t s fs m m0 i :
  shows (mkWorld t s) m → paged t = Some fs → on_disk (recs s) fs m0 → numbered m0 →
  i ∉ Tracked.touched (tmap t) → m !! i = m0 !! i.
Proof.
  intros Hs Hp Hd Hn Hi. pose proof (sh_look _ _ Hs i) as Hl. pose proof (sh_touched _ _ Hs fs Hp) as Ht. cbn [tbl snap] in *.
  assert (raw (mkWorld t s) i = read (recs s) fs i) as Hraw.
  { unfold raw, behind. cbn [tbl snap]. rewrite Hp. assert (Tracked.map (tmap t) !! i = None) as ->.
    { apply not_elem_of_dom. set_solver. }
    cbn [mbind option_bind]. by rewrite decide_False. }
  rewrite Hraw, (at_inode_read _ _ _ _ (Hd i)), Hp in Hl. destruct (m0 !! i) as [x0|] eqn:H0.
  - inversion Hl as [p x Hpx E1 E2|]; subst. destruct (m !! i) as [y|]; [|done]. simplify_eq/=. f_equal.
    assert (inode_shows (recs s) (Some fs) (record_of x0) (of_inode x0)) as H1.
    { apply (at_inode_shows _ _ i); [by rewrite <- H0|]. by apply Hn. }
    rewrite <- (to_of_inode y), <- (to_of_inode x0). f_equal. by eapply inode_shows_fun.
  - inversion Hl as [|E]. by destruct (m !! i).
Qed.

(** ** Writing one inode *)

(** A step of the transaction that changes only records, as [P] says. *)
Definition writes (m : W ()) (x : Tx) (P : Recs → Prop) : Prop :=
  ∃ x', m x = (x', Ok ()) ∧ x_headers x' = x_headers x ∧ same_store (x_snap x) (x_snap x') ∧ P (x_recs x').

Lemma writes_ret x P : coherent (x_snap x) → P (x_recs x) → writes (mret ()) x P.
Proof. intros Hc HP. exists x. split_and!; [done..|by split|done]. Qed.

Lemma writes_edit g x P : coherent (x_snap x) → P (g (x_recs x)) → writes (edit_recs g) x P.
Proof. intros Hc HP. eexists. split; [done|]. split; [done|]. by split. Qed.

Lemma writes_bind m k x (P Q : Recs → Prop) :
  writes m x P →
  (∀ x', x_headers x' = x_headers x → same_store (x_snap x) (x_snap x') → P (x_recs x') → writes (k ()) x' Q) →
  writes (m ≫= k) x Q.
Proof.
  intros (x1 & E & Hh & Hs & HP) Hk. destruct (Hk x1 Hh Hs HP) as (x2 & E2 & Hh2 & Hs2 & HQ).
  exists x2. unfold mbind, sm_bind. rewrite E, E2. split_and!; [done|congruence| |done].
  destruct Hs as [H1 _], Hs2 as [H2 H3]. split; [congruence|done].
Qed.

Lemma writes_read {A} t (m : T A) (k : A → W ()) x a w Q :
  m (mkWorld t (x_snap x)) = (w, Ok a) → same_world (mkWorld t (x_snap x)) w →
  (∀ x', x_headers x' = x_headers x → same_store (x_snap x) (x_snap x') → x_recs x' = x_recs x → writes (k a) x' Q) →
  writes (on_table t m ≫= k) x Q.
Proof.
  intros E (_ & Hss) Hk. destruct (Hk (mkTx (x_headers x) (x_recs x) (snap w))) as (x2 & E2 & Hh2 & Hs2 & HQ); [done..|].
  exists x2. unfold mbind, sm_bind, on_table. rewrite E. split_and!; [exact E2|done| |done].
  destruct Hss as [H1 _], Hs2 as [H2 H3]. split; [simpl in *; congruence|done].
Qed.

Lemma writes_mono m x (P Q : Recs → Prop) : writes m x P → (∀ r, P r → Q r) → writes m x Q.
Proof. intros (x' & ? & ? & ? & ?) HPQ. exists x'. auto. Qed.

(** Directory entries [l] written over [r]. *)
Record dirents_put (fs : FsId) (i : N) (l : list (string * option N)) (r r' : Recs) : Prop := {
  dp_inodes : r_inodes r' = r_inodes r;
  dp_other k : k.1 ≠ (fs, i) → r_dirents r' !! k = r_dirents r !! k;
  dp_in n o : (n, o) ∈ l → r_dirents r' !! (fs, i, n) = o;
  dp_out n : n ∉ l.*1 → r_dirents r' !! (fs, i, n) = r_dirents r !! (fs, i, n);
}.

Lemma put_dirents_spec fs i l x :
  coherent (x_snap x) → NoDup l.*1 → writes (sm_for l (put_dirent fs i)) x (dirents_put fs i l (x_recs x)).
Proof.
  revert x. induction l as [|[n o] l IH]; intros x Hc Hn.
  { apply writes_ret; [done|]. split; [done..|set_solver|done]. }
  csimpl in Hn. apply NoDup_cons in Hn as [Hn Hnd]. cbn [sm_for].
  eapply (writes_bind _ _ x (λ r, r = (x_recs x) <| r_dirents ::= λ m, match o with Some c => <[(fs, i, n) := c]> m | None => delete (fs, i, n) m end |>)).
  { by apply writes_edit. }
  intros x1 Hh [_ Hc1] E. eapply writes_mono; [by apply IH|]. intros r [H1 H2 H3 H4]. rewrite E in *. clear E.
  split.
  - done.
  - intros [[g j] k] Hk. rewrite H2 by done. simpl in *. destruct o; [by rewrite lookup_insert_ne by congruence|by rewrite lookup_delete_ne by congruence].
  - intros n' o' [[= -> ->]|Hin]%elem_of_cons; [|by apply H3]. rewrite H4 by done. simpl.
    destruct o; [by rewrite lookup_insert_eq|by rewrite lookup_delete_eq].
  - intros n'. csimpl. rewrite not_elem_of_cons. intros [Hne Hin]. rewrite H4 by done. simpl.
    destruct o; [by rewrite lookup_insert_ne by congruence|by rewrite lookup_delete_ne by congruence].
Qed.

Lemma sm_for_fmap {S E A B} (g : A → B) (f : B → SM S E ()) l : sm_for l (λ x, f (g x)) = sm_for (g <$> l) f.
Proof. induction l as [|x l IH]; [done|]. rewrite fmap_cons. cbn [sm_for]. by rewrite IH. Qed.

(** Everything but the rows of one inode. *)
Definition same_except (fs : FsId) (i : N) (r r' : Recs) : Prop :=
  (∀ k, k ≠ (fs, i) → r_inodes r' !! k = r_inodes r !! k) ∧
  (∀ k, k.1 ≠ (fs, i) → r_dirents r' !! k = r_dirents r !! k).

Lemma drop_dir_spec fs i r :
  (∀ n, r_dirents (drop_dir fs i r) !! (fs, i, n) = None) ∧ same_except fs i r (drop_dir fs i r).
Proof.
  split; [|split; [done|]].
  - intros n. apply map_lookup_filter_None. right. intros x _ Hx. by apply Hx.
  - intros k Hk. simpl. destruct (r_dirents r !! k) as [c|] eqn:E.
    + by apply map_lookup_filter_Some.
    + apply map_lookup_filter_None. by left.
Qed.

(** All the entries of a directory, as an iteration returns them. *)
Lemma whole_dir r fs i (es : gmap string N) r' :
  (∀ n, r_dirents r !! (fs, i, n) = None) →
  dirents_put fs i ((λ e : string * N, (e.1, Some (e.2))) <$> bt_entries es) r r' →
  ∀ n, r_dirents r' !! (fs, i, n) = es !! n.
Proof.
  intros Hr [_ _ Hin Hout] n. destruct (es !! n) as [c|] eqn:E.
  - apply Hin. apply list_elem_of_fmap. exists (n, c). split; [done|]. by apply elem_of_bt_entries.
  - rewrite Hout; [apply Hr|]. rewrite <- list_fmap_compose. intros ([k v] & -> & Hk)%list_elem_of_fmap.
    apply elem_of_bt_entries in Hk. simpl in E. congruence.
Qed.

Lemma same_except_trans fs i r1 r2 r3 : same_except fs i r1 r2 → same_except fs i r2 r3 → same_except fs i r1 r3.
Proof. intros [A1 B1] [A2 B2]. split; intros k Hk; [by rewrite A2, A1|by rewrite B2, B1]. Qed.

Lemma dirents_put_except fs i l r r' : dirents_put fs i l r r' → same_except fs i r r'.
Proof. intros [H1 H2 _ _]. split; [by rewrite H1|done]. Qed.

Lemma put_record_except fs i p r : same_except fs i r (r <| r_inodes ::= <[(fs, i) := p]> |>).
Proof. split; [|done]. intros k Hk. simpl. by rewrite lookup_insert_ne. Qed.

(** The precondition of a row: nothing is left of a fresh inode's entries, and a
    kept one has its old entries, as its paged directory expects. *)
Definition row_ready (fs : FsId) (t : InodeTable) (s : Snap) (fresh : bool) (i : N) (o : option Inode) (r : Recs) : Prop :=
  if fresh then ∀ n, r_dirents r !! (fs, i, n) = None
  else
    is_Some o ∧ paged t = Some fs ∧
    (∀ n, r_dirents r !! (fs, i, n) = r_dirents (recs s) !! (fs, i, n)) ∧
    (∀ x, o = Some x → FsTree.is_dir x = false → ∀ n, r_dirents r !! (fs, i, n) = None) ∧
    ∀ p par de, raw (mkWorld t s) i = Some p → kd p = KDir par de → stored de = true.

Lemma changed_dir fs i de es r0 r r' :
  dir_shows r0 (Some fs) i de es → stored de = true →
  (∀ n, r_dirents r !! (fs, i, n) = r_dirents r0 !! (fs, i, n)) →
  dirents_put fs i (changes de) r r' → ∀ n, r_dirents r' !! (fs, i, n) = es !! n.
Proof.
  intros Hd Hs Hr [_ _ Hin Hout] n. rewrite (ds_look _ _ _ _ _ Hd). unfold known. rewrite Hs. simpl.
  assert ((changes de).*1 = bt_elements (changed de)) as Hc.
  { unfold changes. rewrite <- list_fmap_compose. apply list_fmap_id. }
  destruct (decide (n ∈ changed de)) as [Hch|Hch].
  - rewrite (Hin n (de_map de !! n)); [by destruct (de_map de !! n); rewrite ?bool_decide_true by done|].
    apply list_elem_of_fmap. exists n. split; [done|]. by apply elem_of_bt_elements.
  - rewrite Hout, Hr by (rewrite Hc, elem_of_bt_elements; done). rewrite bool_decide_false by done.
    assert (de_map de !! n = None) as ->; [|done]. apply not_elem_of_dom. pose proof (ds_changed _ _ _ _ _ Hd Hs). set_solver.
Qed.

Lemma changes_NoDup de : NoDup (changes de).*1.
Proof.
  unfold changes. rewrite <- list_fmap_compose. change (NoDup (id <$> bt_elements (changed de))). rewrite list_fmap_id.
  apply NoDup_bt_elements.
Qed.

Lemma write_row_spec fs t fresh i x m :
  shows (mkWorld t (x_snap x)) m → row_ready fs t (x_snap x) fresh i (m !! i) (x_recs x) →
  writes (write_row fs t fresh i) x (λ r, at_inode r fs i (m !! i) ∧ same_except fs i (x_recs x) r).
Proof.
  intros Hs Hready. destruct (get_spec _ _ i Hs) as (w & E & Hw). pose proof (shows_raw _ _ i Hs) as Hraw.
  unfold write_row. eapply writes_read; [exact E|done|]. intros x1 _ [Hr1 Hc1] Hx1. destruct (m !! i) as [y|] eqn:Hy.
  2:{ rewrite Hraw. apply writes_edit; [done|]. rewrite Hx1. split; [split|split; [|done]].
      - simpl. by rewrite lookup_delete_eq.
      - simpl. intros n. destruct fresh; [by apply Hready|]. by destruct Hready as [[??] _].
      - intros k Hk. simpl. by rewrite lookup_delete_ne. }
  destruct Hraw as (p & Hp & Hpy & Hpi). rewrite Hp. cbn [tbl snap] in Hpy.
  eapply (writes_bind _ _ _ (λ r, r = (x_recs x) <| r_inodes ::= <[(fs, i) := record_of y]> |>)).
  { apply writes_edit; [done|]. by rewrite Hx1, (record_inode _ _ _ _ Hpy). }
  intros x2 _ [Hr2 Hc2] Hx2. assert (recs (x_snap x2) = recs (x_snap x)) as Hrecs by congruence.
  assert (∀ r, r_inodes r = r_inodes (x_recs x2) → (∀ n, r_dirents r !! (fs, i, n) = FsTree.entry_of y n) →
    at_inode r fs i (Some y)) as Hat.
  { intros r Hri Hrd. split; [|done]. rewrite Hri, Hx2. simpl. by rewrite lookup_insert_eq. }
  assert (same_except fs i (x_recs x) (x_recs x2)) as Hexc by (rewrite Hx2; apply put_record_except).
  destruct Hpy as [Ha Hk] eqn:Hpy'. clear Hpy'. unfold of_inode, FsTree.entry_of in *. simpl in Hk.
  destruct (kd p) as [a de| | |] eqn:Ekd, (kind y) as [b es| | |] eqn:Eky; try done.
  2,3,4: apply writes_ret; [done|]; split; [|done]; apply Hat; [done|]; intros n; rewrite Hx2; simpl; destruct fresh;
    [by apply Hready|]; destruct Hready as (_ & _ & _ & Hnd & _); apply (Hnd y eq_refl); unfold FsTree.is_dir; by rewrite Eky.
  destruct Hk as [-> Hd]. destruct fresh.
  - assert (inode_shows (recs (x_snap x2)) (paged t) p (mkInodeOf (attrs p) (KDir b es))) as Hpe.
    { split; [done|]. rewrite Ekd, Hrecs. by split. }
    eapply writes_read; [apply (entries_spec (mkWorld t (x_snap x2)) p _ None None Hpe)|by apply same_world_refl|].
    intros x3 _ [_ Hc3] Hx3. simpl. rewrite (sm_for_fmap (λ e : string * N, (e.1, Some (e.2))) (put_dirent fs i)).
    rewrite List.forallb_filter_id by (by apply forallb_forall).
    eapply writes_mono; [apply put_dirents_spec; [done|]|].
    { rewrite <- list_fmap_compose. apply NoDup_bt_keys. }
    intros r Hput. rewrite Hx3 in Hput. split; [|by eapply same_except_trans, dirents_put_except].
    apply Hat; [apply Hput|]. apply (whole_dir (x_recs x2) fs i es r); [|done]. intros n. rewrite Hx2. apply Hready.
  - destruct Hready as (_ & Hpg & Hold & _ & Hst). eapply writes_mono; [apply put_dirents_spec; [done|apply changes_NoDup]|].
    intros r Hput. split; [|by eapply same_except_trans, dirents_put_except]. apply Hat; [apply Hput|].
    rewrite Hpi, Hpg in Hd. eapply (changed_dir fs i de es (recs (x_snap x)) (x_recs x2) r); [done|by eapply Hst| |done].
    intros n. rewrite Hx2. apply Hold.
Qed.

(** ** Writing a filesystem *)

Definition inode_ready (fs : FsId) (t : InodeTable) (s : Snap) (rewrite : bool) (i : N) (o : option Inode) (r : Recs) : Prop :=
  if negb rewrite && bool_decide (i ∈ Tracked.replaced (tmap t)) then True
  else row_ready fs t s rewrite i o r.

Lemma write_inode_spec fs t rewrite i x m :
  shows (mkWorld t (x_snap x)) m → inode_ready fs t (x_snap x) rewrite i (m !! i) (x_recs x) →
  writes (write_inode fs t rewrite i) x (λ r, at_inode r fs i (m !! i) ∧ same_except fs i (x_recs x) r).
Proof.
  intros Hs Hready. pose proof (sh_coherent _ _ Hs) as Hc. cbn [snap] in Hc. unfold write_inode, inode_ready in *.
  set (fresh := rewrite || bool_decide (i ∈ Tracked.replaced (tmap t))).
  eapply (writes_bind _ _ x (λ r, row_ready fs t (x_snap x) fresh i (m !! i) r ∧ same_except fs i (x_recs x) r)).
  - unfold fresh. destruct rewrite; simpl in *; [by apply writes_ret|]. case_bool_decide; simpl.
    + apply writes_edit; [done|]. apply drop_dir_spec.
    + by apply writes_ret.
  - intros x1 _ Hss [Hr1 He1]. assert (same_world (mkWorld t (x_snap x)) (mkWorld t (x_snap x1))) as Hw by (by split).
    assert (row_ready fs t (x_snap x1) fresh i (m !! i) (x_recs x1)) as Hr1'.
    { unfold row_ready in *. destruct fresh; [done|]. destruct Hss as [Hrec _]. rewrite Hrec.
      destruct Hr1 as (H1 & H2 & H3 & H4 & H5). split_and!; [done..|]. intros p par de Hp. apply H5.
      by rewrite <- (same_world_raw _ _ i Hw). }
    eapply writes_mono; [by apply write_row_spec; [eapply same_world_shows|]|]. intros r [Ha He]. split; [done|].
    by eapply same_except_trans.
Qed.

(** Everything but the rows of the inodes [l] of a filesystem. *)
Definition same_off (fs : FsId) (l : list N) (r r' : Recs) : Prop :=
  (∀ k, ¬ (k.1 = fs ∧ k.2 ∈ l) → r_inodes r' !! k = r_inodes r !! k) ∧
  (∀ k, ¬ (k.1.1 = fs ∧ k.1.2 ∈ l) → r_dirents r' !! k = r_dirents r !! k).

Lemma same_except_row fs i j r r' o : same_except fs i r r' → j ≠ i → at_inode r fs j o → at_inode r' fs j o.
Proof. intros [H1 H2] Hne [Hi Hd]. split; [rewrite H1 by congruence; done|]. intros n. rewrite H2 by (simpl; congruence). apply Hd. Qed.

Lemma inode_ready_except fs t s s' rewrite i j o r r' :
  same_except fs i r r' → j ≠ i → same_store s s' →
  inode_ready fs t s rewrite j o r → inode_ready fs t s' rewrite j o r'.
Proof.
  intros [H1 H2] Hne [Hrec Hc]. unfold inode_ready. case_match; [done|]. unfold row_ready. destruct rewrite.
  - intros Hd n. rewrite H2 by (simpl; congruence). apply Hd.
  - rewrite Hrec. intros (A1 & A2 & A3 & A4 & A5). split_and!; [done|done|..].
    + intros n. rewrite H2 by (simpl; congruence). apply A3.
    + intros y Hy Hdir n. rewrite H2 by (simpl; congruence). by eapply A4.
    + intros p par de Hp. apply A5. rewrite <- Hp. symmetry. apply (same_world_raw (mkWorld t s) (mkWorld t s')). by split.
Qed.

Lemma write_inodes_spec fs t rewrite l x m :
  shows (mkWorld t (x_snap x)) m → NoDup l →
  (∀ i, i ∈ l → inode_ready fs t (x_snap x) rewrite i (m !! i) (x_recs x)) →
  writes (sm_for l (write_inode fs t rewrite)) x
    (λ r, (∀ i, i ∈ l → at_inode r fs i (m !! i)) ∧ same_off fs l (x_recs x) r).
Proof.
  revert x. induction l as [|i l IH]; intros x Hs Hn Hready.
  { apply writes_ret; [apply (sh_coherent _ _ Hs)|]. split; [by intros i ?%elem_of_nil|done]. }
  apply NoDup_cons in Hn as [Hi Hn]. cbn [sm_for].
  eapply writes_bind; [apply write_inode_spec; [done|apply Hready; by left]|].
  intros x1 _ Hss [Hat He]. eapply writes_mono; [apply IH|].
  - eapply (same_world_shows (mkWorld t (x_snap x))); [by split|done].
  - done.
  - intros j Hj. eapply inode_ready_except; [done| |done|apply Hready; by right]. intros ->. done.
  - intros r [Hall Hoff]. split.
    + intros j [->|Hj]%elem_of_cons; [|by apply Hall]. destruct Hat as [H1 H2], Hoff as [H3 H4].
      split; [rewrite H3; [done|]; simpl; naive_solver|]. intros n. rewrite H4; [done|]. simpl. naive_solver.
    + destruct He as [H1 H2], Hoff as [H3 H4]. split; intros k Hk.
      * rewrite H3, H1; [done| |]; destruct k; simpl in *; [set_solver|]. intros [? ?]. set_solver.
      * rewrite H4, H2; [done| |]; destruct k as [[] ?]; simpl in *; [set_solver|]. intros [? ?]. set_solver.
Qed.

(** Everything but one filesystem's rows. *)
Definition other_fs (fs : FsId) (r r' : Recs) : Prop :=
  (∀ k, k.1 ≠ fs → r_inodes r' !! k = r_inodes r !! k) ∧ (∀ k, k.1.1 ≠ fs → r_dirents r' !! k = r_dirents r !! k).

Lemma other_fs_on_disk fs g r r' m : other_fs fs r r' → g ≠ fs → on_disk r g m → on_disk r' g m.
Proof.
  intros [H1 H2] Hne Hd i. destruct (Hd i) as [Hi Hn]. split; [by rewrite H1|]. intros n. rewrite H2 by done. apply Hn.
Qed.

Lemma other_fs_trans fs r1 r2 r3 : other_fs fs r1 r2 → other_fs fs r2 r3 → other_fs fs r1 r3.
Proof. intros [A1 B1] [A2 B2]. split; intros k Hk; [by rewrite A2, A1|by rewrite B2, B1]. Qed.

Lemma same_off_other fs l r r' : same_off fs l r r' → other_fs fs r r'.
Proof. intros [H1 H2]. split; intros k Hk; [apply H1|apply H2]; naive_solver. Qed.

(** Dropping the rows of a filesystem whose inodes are numbered. *)
Lemma drop_fs_spec fs r m :
  on_disk r fs m → numbered m →
  on_disk (drop_dirents fs (drop_inodes fs r)) fs ∅ ∧ other_fs fs r (drop_dirents fs (drop_inodes fs r)).
Proof.
  intros Hd Hn. split.
  - intros i. split; simpl.
    + rewrite lookup_empty. apply map_lookup_filter_None. right. intros p _ Hp. by apply Hp.
    + intros n. rewrite lookup_empty. apply map_lookup_filter_None. destruct (r_dirents r !! (fs, i, n)) as [c|] eqn:E; [right|by left].
      intros c' _ Hc. apply Hc. split; [done|]. rewrite (proj2 (Hd i)) in E. apply bind_Some in E as (x & Hx & _). by apply (Hn i x).
  - split; intros k Hk; simpl.
    + destruct (r_inodes r !! k) as [p|] eqn:E; [by apply map_lookup_filter_Some|]. apply map_lookup_filter_None. by left.
    + destruct (r_dirents r !! k) as [p|] eqn:E; [|by apply map_lookup_filter_None; left]. apply map_lookup_filter_Some.
      split; [done|]. simpl. intros [? _]. done.
Qed.

(** What is recorded of a table paged on a filesystem that had contents [m0]: an
    inode that was edited in place is still a directory if it was one, and its
    entries are still read from the store. *)
Record table_tracks (fs : FsId) (t : InodeTable) (m0 : gmap N Inode) : Prop := {
  tt_paged : paged t = Some fs;
  tt_sub : Tracked.replaced (tmap t) ⊆ Tracked.touched (tmap t);
  tt_kept i : i ∈ Tracked.touched (tmap t) → i ∉ Tracked.replaced (tmap t) →
    ∃ p x0, Tracked.map (tmap t) !! i = Some p ∧ m0 !! i = Some x0 ∧
      is_kdir p = FsTree.is_dir x0 ∧ (∀ par de, kd p = KDir par de → stored de = true);
}.

(** The rows of a filesystem the transaction has written, from the table [t]. *)
Lemma write_whole fs t x m :
  shows (mkWorld t (x_snap x)) m → on_disk (x_recs x) fs ∅ →
  writes (changed ← (l ← on_table t scan; mret ((λ p, at_ino (attrs p)) <$> l)); sm_for changed (write_inode fs t true)) x
    (λ r, on_disk r fs m ∧ other_fs fs (x_recs x) r).
Proof.
  intros Hs Hnone. destruct (scan_spec _ _ Hs) as (R & w & HR & E & Hw).
  pose proof (listing_shows _ _ _ Hs HR) as HF. pose proof (sh_ino _ _ Hs) as Hino.
  assert ((λ p, at_ino (attrs p)) <$> bt_values R = bt_keys m) as Hkeys.
  { unfold bt_values, bt_keys. apply Forall2_fmap_r in HF.
    assert (∀ x, x ∈ bt_entries m → ino (x.2) = x.1) as Hn by (intros [k v] Hin; apply elem_of_bt_entries in Hin; by apply Hino).
    induction HF as [|a b l l' [Hk Ha] _ IH]; [done|]. csimpl. rewrite (proj1 Ha). simpl.
    rewrite (Hn b) by (by left). f_equal. apply IH. intros x1 Hx1. apply Hn. by right. }
  destruct Hw as (Ht & Hss). 
  destruct (write_inodes_spec fs t true (bt_keys m) (mkTx (x_headers x) (x_recs x) (snap w)) m) as (x' & E' & Hh & Hst & Hall & Hoff).
  - cbn [x_snap]. eapply (same_world_shows (mkWorld t (x_snap x))); [by split|done].
  - apply NoDup_bt_keys.
  - intros i _. unfold inode_ready. simpl. intros n. rewrite (proj2 (Hnone i)). by rewrite lookup_empty.
  - exists x'. split_and!.
    + unfold mbind, sm_bind, on_table. rewrite E. cbn [mret sm_ret]. rewrite Hkeys. exact E'.
    + done.
    + destruct Hss as [H1 _], Hst as [H2 H3]. split; [simpl in *; congruence|done].
    + intros i. destruct (m !! i) as [y|] eqn:Hy.
      * rewrite <- Hy. apply Hall, elem_of_bt_keys. by eexists.
      * assert (i ∉ bt_keys m) as Hni by (rewrite elem_of_bt_keys, Hy; by intros [??]).
        destruct (Hnone i) as [H1 H2]. rewrite lookup_empty in H1, H2. destruct Hoff as [H3 H4]. split.
        { rewrite H3; [done|]. simpl. naive_solver. } intros n. rewrite H4; [apply H2|]. simpl. naive_solver.
    + by apply (same_off_other fs (bt_keys m)).
Qed.

Lemma write_changed fs t x m m0 :
  shows (mkWorld t (x_snap x)) m → table_tracks fs t m0 →
  on_disk (recs (x_snap x)) fs m0 → numbered m0 → on_disk (x_recs x) fs m0 →
  writes (changed ← mret (bt_elements (Tracked.touched (tmap t))); sm_for changed (write_inode fs t false)) x
    (λ r, on_disk r fs m ∧ other_fs fs (x_recs x) r).
Proof.
  intros Hs [Hp Hsub Hkept] Hold Hnum Hcur.
  destruct (write_inodes_spec fs t false (bt_elements (Tracked.touched (tmap t))) x m Hs) as (x' & E' & Hh & Hst & Hall & Hoff).
  - apply NoDup_bt_elements.
  - intros i Hi%elem_of_bt_elements. unfold inode_ready. simpl. case_bool_decide as Hrep; [done|].
    destruct (Hkept i Hi Hrep) as (p & x0 & Hmp & Hm0 & Hdir & Hstored). unfold row_ready.
    pose proof (sh_look _ _ Hs i) as Hl. unfold raw in Hl. cbn [tbl snap] in Hl. rewrite Hmp in Hl.
    destruct (m !! i) as [y|] eqn:Hm; [|by inversion Hl]. inversion Hl as [? ? Hy|]; subst. apply shows_is_dir in Hy. split_and!.
    + by eexists.
    + done.
    + intros n. by rewrite (proj2 (Hcur i)), (proj2 (Hold i)).
    + intros z Hz Hzd n. rewrite (proj2 (Hcur i)), Hm0. simpl. assert (z = y) as -> by congruence. rewrite <- Hy, Hdir in Hzd.
      unfold FsTree.is_dir, FsTree.entry_of in *. by destruct (kind x0).
    + intros q par de Hq. unfold raw in Hq. cbn [tbl snap] in Hq. rewrite Hmp in Hq. simplify_eq. apply Hstored.
  - exists x'. split_and!; [exact E'|done|done| |by eapply same_off_other].
    intros i. destruct (decide (i ∈ Tracked.touched (tmap t))) as [Hi|Hi]; [by apply Hall, elem_of_bt_elements|].
    rewrite (untouched_same t _ fs m m0 i Hs Hp Hold Hnum Hi). destruct (Hcur i) as [H1 H2], Hoff as [H3 H4].
    assert (i ∉ bt_elements (Tracked.touched (tmap t))) as Hni by (by rewrite elem_of_bt_elements).
    split; [rewrite H3; [done|]; simpl; naive_solver|]. intros n. rewrite H4; [apply H2|]. simpl. naive_solver.
Qed.

(** ** Writing the filesystems *)

Definition info_of (g : FsMeta) : FsInfo :=
  mkFsInfo (f_id g) (f_name g) (next_ino g) (source_snapshot g) (extent_bytes g) (usage g) (quota g) (replica g).
Definition header_of (g : FsMeta) : FsHeader := mkFsHeader (info_of g) (Some (N.of_nat (size (inodes g)))).
Definition files (o : option FsMeta) : gmap N Inode := default ∅ (inodes <$> o).

Definition fs_shows (s : Snap) (k : FsId) (f : PFs) (g : FsMeta) : Prop :=
  p_info f = info_of g ∧ f_id g = k ∧ shows (mkWorld (p_table f) s) (inodes g) ∧ numbered (inodes g).

Definition fss_shows (s : Snap) (fss : gmap FsId PFs) (gs : gmap FsId FsMeta) : Prop :=
  ∀ k, option_Forall2 (fs_shows s k) (fss !! k) (gs !! k).

(** The rows and headers of the filesystems [gs]. *)
Definition rows_of (h : gmap FsId FsHeader) (r : Recs) (gs : gmap FsId FsMeta) (k : FsId) : Prop :=
  h !! k = header_of <$> gs !! k ∧ on_disk r k (files (gs !! k)) ∧ numbered (files (gs !! k)).

(** What is recorded of the filesystems since they were [g0]. *)
Record fss_synced (fss : Tracked.Tracked FsId PFs) (g0 g : gmap FsId FsMeta) : Prop := {
  fy_sub : Tracked.replaced fss ⊆ Tracked.touched fss;
  fy_clean k : k ∉ Tracked.touched fss →
    g !! k = g0 !! k ∧ ∀ f, Tracked.map fss !! k = Some f → p_table f = paged_table k (tlen (p_table f));
  fy_kept k : k ∈ Tracked.touched fss → k ∉ Tracked.replaced fss →
    ∃ f h0, Tracked.map fss !! k = Some f ∧ g0 !! k = Some h0 ∧ table_tracks k (p_table f) (inodes h0);
}.

(** The transaction has the filesystem [fs] of [g] and the others as they were. *)
Definition wrote (fs : FsId) (g : gmap FsId FsMeta) (x x' : Tx) : Prop :=
  same_store (x_snap x) (x_snap x') ∧ rows_of (x_headers x') (x_recs x') g fs ∧
  (∀ k, k ≠ fs → x_headers x' !! k = x_headers x !! k) ∧ other_fs fs (x_recs x) (x_recs x').

Lemma rows_of_other h h' r r' g k fs :
  (∀ k, k ≠ fs → h' !! k = h !! k) → other_fs fs r r' → k ≠ fs → rows_of h r g k → rows_of h' r' g k.
Proof. intros Hh Ho Hne (H1 & H2 & H3). split_and!; [by rewrite Hh|by eapply other_fs_on_disk|done]. Qed.

Lemma fss_shows_store s s' fss g : same_store s s' → fss_shows s fss g → fss_shows s' fss g.
Proof.
  intros Hs Hf k. destruct (Hf k) as [f h (H1 & H2 & H3 & H4)|]; constructor. split_and!; [done..| |done].
  eapply (same_world_shows (mkWorld (p_table f) s)); [by split|done].
Qed.

(** With the rows of [fs] gone, its table is written whole. *)
Lemma write_fs_whole fss full fs f h x :
  Tracked.map fss !! fs = Some f → full || bool_decide (fs ∈ Tracked.replaced fss) = true →
  fs_shows (x_snap x) fs f h → (∀ r, full = false → x_recs x = r → ∃ m, on_disk r fs m ∧ numbered m) →
  (full = true → on_disk (x_recs x) fs ∅) →
  ∃ x', write_fs fss full fs x = (x', Ok ()) ∧ same_store (x_snap x) (x_snap x') ∧
    x_headers x' = <[fs := header_of h]> (x_headers x) ∧ on_disk (x_recs x') fs (inodes h) ∧ other_fs fs (x_recs x) (x_recs x').
Proof.
  intros Hf Hrw (Hi & Hid & Hs & Hn) Hdrop Hfull. unfold write_fs. rewrite Hrw, Hf. simpl.
  assert (header_of h = mkFsHeader (p_info f) (Some (tlen (p_table f)))) as Hh.
  { unfold header_of. rewrite Hi. pose proof (sh_len _ _ Hs) as Hl. simpl in Hl. by rewrite Hl. }
  set (r1 := if full then x_recs x else drop_dirents fs (drop_inodes fs (x_recs x))).
  assert (on_disk r1 fs ∅ ∧ other_fs fs (x_recs x) r1) as [Hr1 Ho1].
  { unfold r1. destruct full; [by split; [apply Hfull|]|]. destruct (Hdrop _ eq_refl eq_refl) as (m & Hd & Hm). by eapply drop_fs_spec. }
  destruct (write_whole fs (p_table f) (mkTx (<[fs := header_of h]> (x_headers x)) r1 (x_snap x)) (inodes h) Hs Hr1)
    as (x' & E & Hxh & Hxs & Hd & Ho).
  exists x'. split_and!; [|done|done|done|by eapply other_fs_trans].
  rewrite <- E. unfold r1. destruct full, x; simpl; rewrite Hh; done.
Qed.

Lemma write_fs_removed fss g fs x m :
  coherent (x_snap x) → Tracked.map fss !! fs = None → g !! fs = None → fs ∈ Tracked.replaced fss →
  on_disk (x_recs x) fs m → numbered m → ∃ x', write_fs fss false fs x = (x', Ok ()) ∧ wrote fs g x x'.
Proof.
  intros Hc Hf Hg Hrep Hd Hn. destruct (drop_fs_spec fs (x_recs x) _ Hd Hn) as [Hd' Ho].
  exists (mkTx (delete fs (x_headers x)) (drop_dirents fs (drop_inodes fs (x_recs x))) (x_snap x)). split.
  { unfold write_fs. rewrite bool_decide_true, Hf by done. by destruct x. }
  split_and!; [by split| |intros k Hk; simpl; by rewrite lookup_delete_ne|done].
  unfold rows_of. rewrite Hg. simpl. split_and!; [by rewrite lookup_delete_eq|done|by intros i y ?].
Qed.

Lemma write_fs_spec fss g0 g fs x :
  fss_synced fss g0 g → coherent (x_snap x) → fss_shows (x_snap x) (Tracked.map fss) g → fs ∈ Tracked.touched fss →
  rows_of (x_headers x) (x_recs x) g0 fs → on_disk (recs (x_snap x)) fs (files (g0 !! fs)) →
  ∃ x', write_fs fss false fs x = (x', Ok ()) ∧ wrote fs g x x'.
Proof.
  intros Hy Hc Hs Ht (Hh & Hd & Hn) Hold. pose proof (Hs fs) as Hfs.
  destruct (decide (fs ∈ Tracked.replaced fss)) as [Hrep|Hrep].
  - destruct (Tracked.map fss !! fs) as [f|] eqn:Hf.
    + inversion Hfs as [? h Hsh E1 E2|]; subst.
      destruct (write_fs_whole fss false fs f h x Hf) as (x' & E & Hss & Hxh & Hxd & Ho); [by rewrite bool_decide_true|done| |done|].
      { intros r _ <-. by eexists. }
      exists x'. split; [done|]. split_and!; [done| | |done]; [|intros k Hk; rewrite Hxh; by rewrite lookup_insert_ne].
      unfold rows_of. rewrite <- E2. simpl. split_and!; [rewrite Hxh; by rewrite lookup_insert_eq|done|apply Hsh].
    + inversion Hfs as [|E1 E2]. by eapply write_fs_removed.
  - destruct (fy_kept _ _ _ Hy fs Ht Hrep) as (f & h0 & Hf & Hg0 & Htt). rewrite Hf in Hfs.
    inversion Hfs as [? h Hsh E1 Hg|]; subst. symmetry in Hg. destruct Hsh as (Hi & Hid & Hsh & Hnum). rewrite Hg0 in *. simpl in *.
    destruct (write_changed fs (p_table f) (mkTx (<[fs := header_of h]> (x_headers x)) (x_recs x) (x_snap x)) (inodes h) (inodes h0))
      as (x' & E & Hxh & Hss & Hxd & Ho); [done..|].
    exists x'. split; [|split_and!; [done| | |done]].
    + rewrite <- E. unfold write_fs. rewrite bool_decide_false, Hf by done. unfold header_of. rewrite <- Hi.
      pose proof (sh_len _ _ Hsh) as Hl. simpl in Hl. rewrite <- Hl. by destruct x.
    + unfold rows_of. rewrite Hg. simpl. split_and!; [rewrite Hxh; simpl; by rewrite lookup_insert_eq|done|done].
    + intros k Hk. rewrite Hxh. simpl. by rewrite lookup_insert_ne.
Qed.

Lemma wrote_rows fs g x x' gs k : wrote fs g x x' → k ≠ fs → rows_of (x_headers x) (x_recs x) gs k → rows_of (x_headers x') (x_recs x') gs k.
Proof. intros (_ & _ & Hh & Ho). by apply rows_of_other. Qed.

(** A step per filesystem, each from a state [old] that the others keep. *)
Lemma write_loop (f : FsId → W ()) (old : FsId → Tx → Prop) g l x :
  NoDup l →
  (∀ fs x, fs ∈ l → coherent (x_snap x) → old fs x → ∃ x', f fs x = (x', Ok ()) ∧ wrote fs g x x') →
  (∀ fs fs' x x', fs ≠ fs' → wrote fs' g x x' → old fs x → old fs x') →
  coherent (x_snap x) → (∀ fs, fs ∈ l → old fs x) →
  ∃ x', sm_for l f x = (x', Ok ()) ∧ same_store (x_snap x) (x_snap x') ∧
    (∀ k, k ∈ l → rows_of (x_headers x') (x_recs x') g k) ∧
    (∀ k gs, k ∉ l → rows_of (x_headers x) (x_recs x) gs k → rows_of (x_headers x') (x_recs x') gs k).
Proof.
  intros Hn Hstep Hkeep. revert x. induction l as [|fs l IH]; intros x Hc Hold.
  { exists x. split_and!; [done|by split|by intros k ?%elem_of_nil|done]. }
  apply NoDup_cons in Hn as [Hfs Hn]. destruct (Hstep fs x) as (x1 & E1 & Hw); [by left|done|apply Hold; by left|].
  pose proof Hw as ((Hr & Hc1) & Hrows & _).
  destruct (IH Hn) with (x := x1) as (x2 & E2 & (Hr2 & Hc2) & Hin & Hout).
  - intros k y Hk. apply Hstep. by right.
  - done.
  - intros k Hk. apply (Hkeep k fs x); [by intros ->|done|]. apply Hold. by right.
  - exists x2. split_and!.
    + cbn [sm_for]. unfold mbind, sm_bind. by rewrite E1.
    + split; [congruence|done].
    + intros k [->|Hk]%elem_of_cons; [by apply Hout|by apply Hin].
    + intros k gs [Hne Hk]%not_elem_of_cons Hg. apply Hout; [done|]. by eapply wrote_rows.
Qed.

Definition all_rows (h : gmap FsId FsHeader) (r : Recs) (gs : gmap FsId FsMeta) : Prop := ∀ k, rows_of h r gs k.

Lemma write_filesystems_spec fss g0 g x :
  fss_synced fss g0 g → coherent (x_snap x) → fss_shows (x_snap x) (Tracked.map fss) g →
  all_rows (x_headers x) (x_recs x) g0 → recs (x_snap x) = x_recs x →
  ∃ x', write_filesystems fss false x = (x', Ok ()) ∧ same_store (x_snap x) (x_snap x') ∧ all_rows (x_headers x') (x_recs x') g.
Proof.
  intros Hy Hc Hs Hall Hrec.
  destruct (write_loop (write_fs fss false) (λ fs x, fss_shows (x_snap x) (Tracked.map fss) g ∧
     rows_of (x_headers x) (x_recs x) g0 fs ∧ on_disk (recs (x_snap x)) fs (files (g0 !! fs))) g (bt_elements (Tracked.touched fss)) x)
    as (x' & E & Hss & Hin & Hout).
  - apply NoDup_bt_elements.
  - intros fs y Hfs%elem_of_bt_elements Hcy (H1 & H2 & H3). by eapply write_fs_spec.
  - intros fs fs' y y' Hne Hw (H1 & H2 & H3). split_and!; [by eapply fss_shows_store; [apply Hw|]|by eapply wrote_rows|].
    destruct Hw as ((-> & _) & _). done.
  - done.
  - intros fs _. rewrite Hrec. split_and!; [done|apply Hall|apply Hall].
  - exists x'. split_and!; [done..|]. intros k. destruct (decide (k ∈ Tracked.touched fss)) as [Hk|Hk].
    + by apply Hin, elem_of_bt_elements.
    + assert (rows_of (x_headers x') (x_recs x') g0 k) as Hg0 by (apply Hout; [by rewrite elem_of_bt_elements|apply Hall]).
      unfold rows_of in *. by rewrite (proj1 (fy_clean _ _ _ Hy k Hk)).
Qed.

Lemma write_filesystems_full fss g s :
  coherent s → fss_shows s (Tracked.map fss) g →
  ∃ x', write_filesystems fss true (mkTx ∅ (mkRecs ∅ ∅) s) = (x', Ok ()) ∧ same_store s (x_snap x') ∧
    all_rows (x_headers x') (x_recs x') g.
Proof.
  intros Hc Hs.
  destruct (write_loop (write_fs fss true) (λ fs x, fss_shows (x_snap x) (Tracked.map fss) g ∧ on_disk (x_recs x) fs ∅) g
     (bt_keys (Tracked.map fss)) (mkTx ∅ (mkRecs ∅ ∅) s)) as (x' & E & Hss & Hin & Hout).
  - apply NoDup_bt_keys.
  - intros fs y [f Hf]%elem_of_bt_keys Hcy (H1 & H2). pose proof (H1 fs) as Hfs. rewrite Hf in Hfs.
    inversion Hfs as [? h Hsh E1 E2|]; subst.
    destruct (write_fs_whole fss true fs f h y Hf) as (y' & E & Hss & Hxh & Hxd & Ho); [done..|].
    exists y'. split; [done|]. split_and!; [done| | |done]; [|intros k Hk; rewrite Hxh; by rewrite lookup_insert_ne].
    unfold rows_of. rewrite <- E2. simpl. split_and!; [rewrite Hxh; by rewrite lookup_insert_eq|done|apply Hsh].
  - intros fs fs' y y' Hne Hw (H1 & H2). split; [by eapply fss_shows_store; [apply Hw|]|].
    eapply (other_fs_on_disk fs'); [apply Hw|done|done].
  - done.
  - intros fs _. split; [done|]. intros i. rewrite lookup_empty. by split.
  - exists x'. split_and!; [done..|]. intros k. destruct (Tracked.map fss !! k) as [f|] eqn:Hf.
    + apply Hin, elem_of_bt_keys. by eexists.
    + apply Hout; [rewrite elem_of_bt_keys, Hf; by intros [??]|]. pose proof (Hs k) as Hk. rewrite Hf in Hk. inversion Hk as [|E1 E2].
      unfold rows_of. rewrite <- E2. simpl. split_and!; [done| |by intros i y ?]. intros i. by split.
Qed.

End CheckpointSpec.
