(* ===== verification/CheckpointOk.v ===== *)
(** * A checkpoint keeps the catalog ([store.rs])

    A store and a catalog in memory that agree: the tables hold the catalog of the
    last checkpoint, and what was recorded since then accounts for the
    difference.  A checkpoint writes the catalog and leaves the two in
    agreement. *)

From S2P Require Import Prelude MetaError FreeList Membership Leases Lru Tracked Catalog Store FsTree Inodes InodesSpec InodesSim Checkpoint CheckpointSpec.

Module CheckpointOk.
Import MetaError Catalog Store Inodes InodesSpec InodesSim Checkpoint CheckpointSpec.

Open Scope N_scope.

(** ** Plain maps *)

Lemma fold_rows {V} (m : gmap string V) (l : list string) (tab : gmap string V) k :
  foldl (λ tab k, match m !! k with Some v => <[k := v]> tab | None => delete k tab end) tab l !! k =
  if decide (k ∈ l) then m !! k else tab !! k.
Proof.
  revert tab. induction l as [|j l IH]; intros tab; cbn [foldl]; [by rewrite decide_False by set_solver|]. rewrite IH.
  destruct (decide (k ∈ l)); [by rewrite decide_True by set_solver|]. destruct (decide (j = k)) as [->|Hne].
  - rewrite decide_True by set_solver. destruct (m !! k); by rewrite ?lookup_insert_eq, ?lookup_delete_eq.
  - rewrite decide_False by set_solver. destruct (m !! j); by rewrite ?lookup_insert_ne, ?lookup_delete_ne.
Qed.

Lemma write_map_spec {V} base (t : Tracked.Tracked string V) :
  Tracked.recorded base t → write_map t false base = Tracked.map t.
Proof.
  intros [Ht _ _]. apply map_eq. intros k. unfold write_map. rewrite fold_rows.
  destruct (decide (k ∈ bt_elements (Tracked.touched t))) as [Hk|Hk]; [done|]. symmetry. apply Ht. by rewrite elem_of_bt_elements in Hk.
Qed.

Lemma write_map_full {V} (t : Tracked.Tracked string V) : write_map t true ∅ = Tracked.map t.
Proof.
  apply map_eq. intros k. unfold write_map. rewrite fold_rows. case_decide as Hk; [done|].
  rewrite elem_of_bt_keys in Hk. rewrite lookup_empty. symmetry. by apply eq_None_not_Some.
Qed.

(** ** Paging on the new snapshot *)

(** The inodes a table has in memory are those of [m]. *)
Definition memory_of (t : InodeTable) (m : gmap N Inode) : Prop :=
  ∀ i p, Tracked.map (tmap t) !! i = Some p → ∃ x, m !! i = Some x ∧ inode_record p = record_of x ∧ at_ino (attrs p) = i.

Lemma shows_memory t s m : shows (mkWorld t s) m → memory_of t m.
Proof.
  intros Hs i p Hp. pose proof (shows_raw _ _ i Hs) as Hr. unfold raw in Hr. cbn [tbl] in Hr. rewrite Hp in Hr.
  destruct (m !! i) as [x|]; [|done]. destruct Hr as (q & [= <-] & Hq & Hi). exists x. split; [done|]. split; [by eapply record_inode|done].
Qed.

Lemma attach_spec fs t s m :
  memory_of t m → on_disk (recs s) fs m → coherent s →
  ∃ s', attach fs (mkWorld t s) = (mkWorld (paged_table fs (tlen t)) s', Ok ()) ∧ same_store s s'.
Proof.
  intros Hm Hd Hc.
  assert (∀ (l : list PInode) s0, same_store s s0 → (∀ p, p ∈ l → ∃ i, Tracked.map (tmap t) !! i = Some p) →
    ∃ s', sm_for l (hand_over fs) (mkWorld t s0) = (mkWorld t s', Ok ()) ∧ same_store s s') as Hl.
  { induction l as [|p l IH]; intros s0 Hss Hin; [by exists s0|]. cbn [sm_for]. unfold mbind, sm_bind, hand_over at 1, sm_modify. cbv zeta.
    rewrite settled_record. destruct (Hin p) as [i Hp]; [by left|]. destruct (Hm i p Hp) as (x & Hx & Hrec & Hi).
    apply IH; [|intros q Hq; apply Hin; by right]. destruct Hss as [Hr Hc0]. split; [done|]. apply put_coherent; [done|].
    change (at_ino (attrs (inode_record p))) with (at_ino (attrs p)). rewrite Hi, Hrec. cbn [snap]. rewrite Hr. by rewrite (at_inode_read _ _ _ _ (Hd i)), Hx. }
  destruct (Hl (bt_values (Tracked.map (tmap t))) s) as (s' & E & Hss); [by split| |].
  { intros p (k & Hk)%elem_of_bt_values. by exists k. }
  exists s'. split; [|done]. unfold attach. unfold mbind at 1, sm_bind at 1, sm_reads. cbn [tbl]. unfold mbind, sm_bind. rewrite E. done.
Qed.

Definition paged_fs (k : FsId) (f : PFs) : PFs := mkPFs (p_info f) (paged_table k (tlen (p_table f))).

Lemma attach_all_spec l s :
  coherent s →
  (∀ k f, (k, f) ∈ l → i_id (p_info f) = k ∧ ∃ m, memory_of (p_table f) m ∧ on_disk (recs s) k m) →
  ∃ s', attach_all l s = ((λ x, (x.1, paged_fs (x.1) (x.2))) <$> l, s') ∧ same_store s s'.
Proof.
  revert s. induction l as [|[k f] l IH]; intros s Hc Hl; [by exists s|].
  destruct (Hl k f) as (Hk & m & Hm & Hd); [by left|]. destruct (attach_spec k (p_table f) s m Hm Hd Hc) as (s1 & E & [Hr1 Hc1]).
  destruct (IH s1 Hc1) as (s2 & E2 & [Hr2 Hc2]). { intros k' f' Hin. rewrite Hr1. apply Hl. by right. }
  exists s2. split; [|split; [congruence|done]]. cbn [attach_all]. rewrite Hk, E. cbn [snap tbl]. rewrite E2. done.
Qed.

(** The filesystems after a checkpoint. *)
Definition paged_fss (m : gmap FsId PFs) : gmap FsId PFs := list_to_map ((λ x, (x.1, paged_fs (x.1) (x.2))) <$> bt_entries m).

Lemma lookup_paged_fss m k : paged_fss m !! k = paged_fs k <$> m !! k.
Proof.
  unfold paged_fss. destruct (m !! k) as [f|] eqn:E; simpl.
  - apply elem_of_list_to_map_1; [rewrite <- list_fmap_compose; apply NoDup_bt_keys|].
    apply list_elem_of_fmap. exists (k, f). split; [done|]. by apply elem_of_bt_entries.
  - apply not_elem_of_list_to_map_1. rewrite <- list_fmap_compose. intros ([j f] & -> & Hin)%list_elem_of_fmap.
    apply elem_of_bt_entries in Hin. simpl in E. congruence.
Qed.

Lemma paged_fss_shows s g h r old (fss fss' : gmap FsId PFs) :
  fss_shows old fss g → (∀ k, paged_fs k <$> fss' !! k = paged_fs k <$> fss !! k) →
  coherent s → recs s = r → all_rows h r g → fss_shows s (paged_fss fss') g.
Proof.
  intros Hs He Hc Hr Hrows k. rewrite lookup_paged_fss, He. destruct (Hrows k) as (_ & Hd & Hn).
  destruct (Hs k) as [f q (Hi & Hid & Hsh & _)|]; simpl; constructor. rewrite <- Hr in Hd.
  pose proof (sh_len _ _ Hsh) as Hl. split_and!; [done..| |]; [by apply paged_shows|done].
Qed.

Lemma paged_fss_synced g fss : fss_synced (Tracked.from (paged_fss fss)) g g.
Proof.
  split; [done| |by intros k ?%not_elem_of_empty]. intros k _. split; [done|]. intros f Hf. simpl in Hf.
  rewrite lookup_paged_fss in Hf. destruct (fss !! k) as [q|]; [|done]. simpl in Hf. by simplify_eq.
Qed.

(** ** The new snapshot *)

Lemma take_all_spec (stale : list (FsId * N)) (c : Lru.Lru (K := FsId * N) (V := PInode)) :
  Lru.ok c →
  Lru.ok (foldl (λ c k, fst (Lru.take c k)) c stale) ∧
  ∀ k p, Lru.holds (foldl (λ c k, fst (Lru.take c k)) c stale) k = Some p → k ∉ stale ∧ Lru.holds c k = Some p.
Proof.
  revert c. induction stale as [|j l IH]; intros c Hok; [by split; [|intros k p ?; split; [set_solver|]]|].
  cbn [foldl]. destruct (Lru.take c j) as [c1 o] eqn:E. apply Lru.take_spec in E as (Hok1 & _ & _ & Hj & Hother); [|done].
  destruct (IH c1 Hok1) as [H1 H2]. split; [done|]. intros k p Hk. destruct (H2 k p Hk) as [Hn Hp].
  assert (k ≠ j) as Hne by (intros ->; simpl in Hp; congruence). split; [set_solver|]. by rewrite <- Hother.
Qed.

Lemma snapshot_coherent st old stale sfs :
  last st = Some old → coherent old →
  (∀ fs i, fs ∉ sfs → (fs, i) ∉ stale → read (t_recs (db st)) fs i = read (recs old) fs i) →
  coherent (snapshot st stale sfs).
Proof.
  intros Hl [Hok Hread] Hsame. unfold snapshot. rewrite Hl. cbv zeta.
  destruct (take_all_spec stale (cache old) Hok) as [Hok1 Hh]. set (c := foldl _ _ _) in *.
  set (c' := if bool_decide (sfs = ∅) then c else Lru.retain c (λ k : FsId * N, negb (bool_decide (k.1 ∈ sfs)))).
  assert (Lru.ok c' ∧ ∀ k p, Lru.holds c' k = Some p → k.1 ∉ sfs ∧ Lru.holds c k = Some p) as [Hok2 Hh2].
  { unfold c'. case_bool_decide as E; [split; [done|]; intros k p Hk; subst; split; [set_solver|done]|].
    destruct (Lru.retain_spec c (λ k : FsId * N, negb (bool_decide (k.1 ∈ sfs))) Hok1) as [H1 H2]. split; [done|].
    intros k p Hk. rewrite H2 in Hk. case_bool_decide; done. }
  split; [destruct Hok2; by split|]. cbn [cache recs]. intros fs i p Hp.
  destruct (Hh2 (fs, i) p Hp) as [Hs1 Hp1]. destruct (Hh _ _ Hp1) as [Hs2 Hp2]. rewrite Hsame by done. by apply Hread.
Qed.

(** ** A store and a catalog that agree *)

Definition state_of (c : Catalog) : State :=
  mkState (applied_index c) (current_term c) (free c) (membership c) (raft_addrs c) (leases c).

(** The catalog in memory, its tables reading the snapshot [s], is [c]. *)
Record cat_shows (s : Snap) (C : PCatalog) (c : Catalog) : Prop := {
  cs_state : c_state C = state_of c;
  cs_volumes : Tracked.map (c_volumes C) = volumes c;
  cs_snapshots : Tracked.map (c_snapshots C) = snapshots c;
  cs_extents : Tracked.map (c_extents C) = extents c;
  cs_fs_snapshots : Tracked.map (c_fs_snapshots C) = fs_snapshots c;
  cs_filesystems : fss_shows s (Tracked.map (c_filesystems C)) (filesystems c);
}.

(** The tables hold [c]. *)
Record disk_is (d : Tables) (c : Catalog) : Prop := {
  di_state : t_state d = Some (state_of c);
  di_volumes : t_volumes d = volumes c;
  di_snapshots : t_snapshots d = snapshots c;
  di_extents : t_extents d = extents c;
  di_fs_snapshots : t_fs_snapshots d = fs_snapshots c;
  di_filesystems : all_rows (t_headers d) (t_recs d) (filesystems c);
  di_ids k g : filesystems c !! k = Some g → f_id g = k;
}.

(** What is recorded accounts for the changes from [c0] to [c]. *)
Record tracks (C : PCatalog) (c0 c : Catalog) : Prop := {
  tr_volumes : Tracked.recorded (volumes c0) (c_volumes C);
  tr_snapshots : Tracked.recorded (snapshots c0) (c_snapshots C);
  tr_extents : Tracked.recorded (extents c0) (c_extents C);
  tr_fs_snapshots : Tracked.recorded (fs_snapshots c0) (c_fs_snapshots C);
  tr_filesystems : fss_synced (c_filesystems C) (filesystems c0) (filesystems c);
}.

Definition snap_of (st : CatalogStore) : Snap :=
  match last st with Some s => s | None => mkSnap (mkRecs ∅ ∅) (Lru.new 0) end.

(** The catalog in memory is [c], and the last checkpoint, if there was one, was
    of [saved]. *)
Record synced (st : CatalogStore) (C : PCatalog) (saved : option Catalog) (c : Catalog) : Prop := {
  sy_coherent : coherent (snap_of st);
  sy_shows : cat_shows (snap_of st) C c;
  sy_disk : match saved with Some c0 => disk_is (db st) c0 | None => t_state (db st) = None end;
  sy_store : in_store C = true →
    ∃ s c0, last st = Some s ∧ recs s = t_recs (db st) ∧ saved = Some c0 ∧ tracks C c0 c;
  sy_fresh : in_store C = false → last st = None;
}.

(** What the inodes read are, for inodes the checkpoint did not write. *)
Lemma unwritten_read fss g0 g s h r h' r' fs i :
  fss_synced fss g0 g → fss_shows s (Tracked.map fss) g → recs s = r → all_rows h r g0 → all_rows h' r' g →
  fs ∉ Tracked.replaced fss →
  (∀ f, fs ∈ Tracked.touched fss → Tracked.map fss !! fs = Some f → i ∉ Tracked.touched (tmap (p_table f))) →
  read r' fs i = read r fs i.
Proof.
  intros Hy Hs Hr Hrow Hrow' Hrep Hi. destruct (Hrow fs) as (_ & Hd & Hn), (Hrow' fs) as (_ & Hd' & _).
  rewrite (at_inode_read _ _ _ _ (Hd i)), (at_inode_read _ _ _ _ (Hd' i)). f_equal.
  destruct (decide (fs ∈ Tracked.touched fss)) as [Ht|Ht].
  - destruct (fy_kept _ _ _ Hy fs Ht Hrep) as (f & h0 & Hf & Hg0 & Htt). pose proof (Hs fs) as Hfs. rewrite Hf in Hfs.
    inversion Hfs as [? q (_ & _ & Hsh & _) E1 E2|]; subst. rewrite Hg0 in *. simpl in *.
    eapply untouched_same; [done|by apply Htt|done|done|by apply Hi].
  - by destruct (fy_clean _ _ _ Hy fs Ht) as [-> _].
Qed.

(** Clearing the record and paging on the new snapshot. *)
Lemma attached old s fss g h r :
  fss_shows old (Tracked.map fss) g → coherent s → recs s = r → all_rows h r g →
  let fss' := Tracked.map (Tracked.clear_changes_with (λ f, f <| p_table ::= clear_changes |>) fss) in
  ∃ s', attach_all (bt_entries fss') s = ((λ x, (x.1, paged_fs (x.1) (x.2))) <$> bt_entries fss', s') ∧
    same_store s s' ∧ fss_shows s' (paged_fss fss') g.
Proof.
  intros Hs Hc Hr Hrows fss'.
  assert (∀ k, fss' !! k = (λ f, if decide (k ∈ Tracked.touched fss) then f <| p_table ::= clear_changes |> else f) <$> Tracked.map fss !! k) as Hl.
  { intros k. unfold fss'. simpl. rewrite map_lookup_imap. by destruct (Tracked.map fss !! k). }
  destruct (attach_all_spec (bt_entries fss') s Hc) as (s' & E & Hss).
  { intros k f Hf%elem_of_bt_entries. rewrite Hl in Hf. apply fmap_Some in Hf as (f0 & Hf0 & ->). pose proof (Hs k) as Hk. rewrite Hf0 in Hk.
    inversion Hk as [? q (Hi & Hid & Hsh & _) E1 E2|]; subst. destruct (Hrows (f_id q)) as (_ & Hd & _). rewrite <- E2 in Hd.
    assert (i_id (p_info f0) = f_id q) as Hii by (by rewrite Hi). apply shows_memory in Hsh.
    case_decide; (split; [done|]); exists (inodes q); by split. }
  exists s'. split; [done|]. split; [done|]. eapply (paged_fss_shows s' g h r old (Tracked.map fss)); [done| |apply Hss|by rewrite (proj1 Hss)|done].
  intros k. rewrite Hl. destruct (Tracked.map fss !! k); [|done]. simpl. by case_decide.
Qed.

(** The tables before a checkpoint: none for a catalog the store does not hold. *)
Definition start_tables (st : CatalogStore) (C : PCatalog) : Tables := if negb (in_store C) then no_tables else db st.

Lemma filesystems_written st C saved c :
  synced st C saved c →
  ∃ x, write_filesystems (c_filesystems C) (negb (in_store C))
         (mkTx (t_headers (start_tables st C)) (t_recs (start_tables st C)) (snap_of st)) = (x, Ok ()) ∧
    same_store (snap_of st) (x_snap x) ∧ all_rows (x_headers x) (x_recs x) (filesystems c).
Proof.
  intros [Hco Hsh Hdisk Hst Hfr]. unfold start_tables. destruct (in_store C) eqn:Ein; simpl.
  - destruct (Hst eq_refl) as (s & c0 & Hl & Hr & -> & Htr). apply (write_filesystems_spec _ (filesystems c0)); simpl;
      [apply Htr|done|apply Hsh|apply Hdisk|]. unfold snap_of. by rewrite Hl.
  - apply write_filesystems_full; [done|apply Hsh].
Qed.

Lemma maps_written st C saved c h r :
  synced st C saved c → all_rows h r (filesystems c) →
  let d := start_tables st C in
  let full := negb (in_store C) in
  disk_is (mkTables (Some (c_state C)) (write_map (c_volumes C) full (t_volumes d)) (write_map (c_snapshots C) full (t_snapshots d))
             (write_map (c_extents C) full (t_extents d)) (write_map (c_fs_snapshots C) full (t_fs_snapshots d)) h r) c.
Proof.
  intros [_ [Hs Hv Hsn He Hfs Hsh] Hdisk Hst _] Hrows.
  assert (∀ k g, filesystems c !! k = Some g → f_id g = k) as Hids.
  { intros k g Hg. pose proof (Hsh k) as Hk. rewrite Hg in Hk. by inversion Hk as [? ? (_ & ? & _)|]. }
  unfold start_tables. destruct (in_store C); simpl.
  - destruct (Hst eq_refl) as (s & c0 & _ & _ & -> & [T1 T2 T3 T4 _]). destruct Hdisk as [_ D1 D2 D3 D4 _ _].
    rewrite D1, D2, D3, D4. split; simpl; rewrite ?write_map_spec by done; congruence || done.
  - split; simpl; rewrite ?write_map_full; congruence || done.
Qed.

(** What the new snapshot's cache keeps is still right. *)
Lemma snapshot_written st C saved c h r s d cap :
  synced st C saved c → same_store (snap_of st) s → all_rows h r (filesystems c) → t_recs d = r →
  coherent (snapshot (mkStore d cap (match last st with Some _ => Some s | None => None end))
    (bt_elements (Tracked.touched (c_filesystems C)) ≫= λ id,
       match Tracked.map (c_filesystems C) !! id with
       | Some f => pair (i_id (p_info f)) <$> bt_elements (Tracked.touched (tmap (p_table f)))
       | None => []
       end) (Tracked.replaced (c_filesystems C))).
Proof.
  intros [Hco Hsh Hdisk Hst Hfr] Hss Hrows Hd. destruct (last st) as [s0|] eqn:Hl.
  2:{ split; [apply Lru.new_ok|done]. }
  destruct (in_store C); [|by specialize (Hfr eq_refl)]. destruct (Hst eq_refl) as (s1 & c0 & [= <-] & Hr & -> & Htr).
  unfold snap_of in *. rewrite Hl in *. destruct Hss as [Hsr Hsc].
  eapply snapshot_coherent; [done|done|]. cbn [db]. intros fs i Hrep Hstale. rewrite Hd, Hsr, Hr.
  eapply (unwritten_read (c_filesystems C) (filesystems c0) (filesystems c) s0); [apply Htr|apply Hsh|done|apply Hdisk|done|done|].
  intros f Ht Hf Hi. apply Hstale. apply list_elem_of_bind. exists fs. split; [|by apply elem_of_bt_elements]. rewrite Hf.
  pose proof (cs_filesystems _ _ _ Hsh fs) as Hk. rewrite Hf in Hk. inversion Hk as [? q (Hin & Hid & _) E1 E2|]; subst.
  apply list_elem_of_fmap. exists i. split; [by rewrite Hin|]. by apply elem_of_bt_elements.
Qed.

Lemma recorded_clear {V} (t : Tracked.Tracked string V) m : Tracked.map t = m → Tracked.recorded m (Tracked.clear_changes t).
Proof. intros <-. done. Qed.

(** A checkpoint succeeds, and leaves the store with the catalog and nothing
    recorded. *)
Lemma checkpoint_synced st C saved c :
  synced st C saved c → ∃ st' C', checkpoint st C = (st', Ok C') ∧ synced st' C' (Some c) c ∧ in_store C' = true.
Proof.
  intros Hsy. destruct (filesystems_written _ _ _ _ Hsy) as (x & Ew & Hss & Hrows).
  pose proof (maps_written _ _ _ _ _ _ Hsy Hrows) as Hdisk. unfold checkpoint.
  fold (start_tables st C). fold (snap_of st). rewrite Ew. cbv zeta in Hdisk |- *. set (d := mkTables _ _ _ _ _ _ _) in *.
  pose proof (snapshot_written _ _ _ _ _ _ _ d (cache_inodes st) Hsy Hss Hrows eq_refl) as Hc.
  cbn [cache_inodes]. set (s := snapshot _ _ _) in *. destruct Hsy as [_ [H1 H2 H3 H4 H5 H6] _ _ _].
  destruct (attached _ s _ _ _ _ H6 Hc eq_refl Hrows) as (s' & Ea & [Hr' Hc'] & Hsh). rewrite Ea. clear Ea.
  do 2 eexists. split; [done|]. split; [|done]. split; [done| |done| |done].
  - by split.
  - intros _. exists s', c. split_and!; [done|by rewrite Hr'|done|]. split; [by apply recorded_clear..|]. apply paged_fss_synced.
Qed.

(** ** Loading *)

(** A new process finds the catalog the store holds. *)
Lemma load_synced d cap c :
  disk_is d c → ∃ s C, load (mkStore d cap None) = (mkStore d cap (Some s), Some C) ∧ synced (mkStore d cap (Some s)) C (Some c) c ∧ in_store C = true.
Proof.
  intros Hd. pose proof Hd as [H1 H2 H3 H4 H5 H6 Hids]. unfold load. cbn [db]. rewrite H1. do 2 eexists. split; [done|]. split; [|done].
  set (s := snapshot _ _ _). assert (coherent s) as Hc by (split; [apply Lru.new_ok|done]).
  set (fss := extend ∅ _). assert (∀ k, fss !! k = (λ h, load_fs h s) <$> t_headers d !! k) as Hl.
  { intros k. apply extend_keyed. intros j h Hj. rewrite (proj1 (H6 j)) in Hj. apply fmap_Some in Hj as (g & Hg & ->). by apply Hids. }
  split; [done| |done| |done].
  - split; simpl; try done. intros k. rewrite Hl, (proj1 (H6 k)). destruct (H6 k) as (_ & Hdisk & Hnum).
    destruct (filesystems c !! k) as [g|] eqn:Hg; simpl; constructor. simpl in *.
    split_and!; [done|by apply Hids| |done]. simpl. rewrite (Hids k g Hg). by apply paged_shows.
  - intros _. exists s, c. split_and!; [done..|]. split; simpl; rewrite ?H2, ?H3, ?H4, ?H5; try done.
    split; [done| |by intros k ?%not_elem_of_empty]. intros k _. split; [done|]. intros f. simpl. rewrite Hl, (proj1 (H6 k)).
    destruct (filesystems c !! k) as [g|] eqn:Hg; [|done]. simpl. intros [= <-]. simpl. by rewrite (Hids k g Hg).
Qed.

End CheckpointOk.
