(* ===== verification/StoreSim.v ===== *)
(** * The store and the catalog over any history ([store.rs], [tracked.rs], [inodes.rs])

    A process that edits its catalog through the recording maps and the paged
    tables, checkpoints it at any time and is restarted at any time, against a
    plain catalog of which a copy is saved at every checkpoint. *)

From S2P Require Import Prelude MetaError FreeList Membership Leases Lru Tracked Catalog Store FsTree Inodes InodesSpec InodesSim Checkpoint CheckpointSpec CheckpointOk.

Module StoreSim.
Import MetaError Catalog Store Inodes InodesSpec InodesSim Checkpoint CheckpointSpec CheckpointOk.

Open Scope N_scope.

(** ** Events *)

Inductive Event :=
| SetState (f : State → State)
| OnVolumes (c : Tracked.call VolumeId VolumeMeta)
| OnSnapshots (c : Tracked.call SnapshotId SnapshotMeta)
| OnExtents (c : Tracked.call ExtentId ExtentMeta)
| OnFsSnapshots (c : Tracked.call SnapshotId FsSnapshotMeta)
| ReadFs (k : FsId) (op : TableOp)
| EditFs (k : FsId) (op : TableOp) (e : FsInfo → FsInfo)
| InsertFs (g : FsMeta)
| RemoveFs (k : FsId)
| Save
| Restart (cache_inodes : nat).

(** ** The process *)

Record Sys := mkSys { store : CatalogStore; cat : PCatalog }.

Definition fresh_catalog : PCatalog :=
  mkPCatalog (state_of empty_catalog) (Tracked.from ∅) (Tracked.from ∅) (Tracked.from ∅) (Tracked.from ∅) (Tracked.from ∅) false.

Definition new_sys (cap : nat) : Sys := mkSys (mkStore no_tables cap None) fresh_catalog.

Definition set_snap (s : Snap) (st : CatalogStore) : CatalogStore :=
  mkStore (db st) (cache_inodes st) (match last st with Some _ => Some s | None => None end).

Definition edit_cat (f : PCatalog → PCatalog) (y : Sys) : Sys := mkSys (store y) (f (cat y)).

#[export] Instance eta_PCatalog : Eta PCatalog :=
  λ c, mkPCatalog (c_state c) (c_volumes c) (c_snapshots c) (c_extents c) (c_fs_snapshots c) (c_filesystems c) (in_store c).

(** A table of the filesystem's inodes, all in memory. *)
Definition in_memory (m : gmap N Inode) : InodeTable := from_iter ((λ x, map_entries de_from (of_inode x)) <$> bt_values m).

Definition run (e : Event) (y : Sys) : Sys * option (res MetaError Obs) :=
  match e with
  | SetState f => (edit_cat (λ c, c <| c_state ::= f |>) y, None)
  | OnVolumes a => (edit_cat (λ c, c <| c_volumes ::= Tracked.run_call a |>) y, None)
  | OnSnapshots a => (edit_cat (λ c, c <| c_snapshots ::= Tracked.run_call a |>) y, None)
  | OnExtents a => (edit_cat (λ c, c <| c_extents ::= Tracked.run_call a |>) y, None)
  | OnFsSnapshots a => (edit_cat (λ c, c <| c_fs_snapshots ::= Tracked.run_call a |>) y, None)
  | ReadFs k op =>
      match Tracked.map (c_filesystems (cat y)) !! k with
      | None => (y, None)
      | Some f =>
          let '(w, r) := run_paged op (mkWorld (p_table f) (snap_of (store y))) in
          (mkSys (set_snap (snap w) (store y)) (cat y), Some r)
      end
  | EditFs k op e =>
      match Tracked.map (c_filesystems (cat y)) !! k with
      | None => (y, None)
      | Some f =>
          let '(w, r) := run_paged op (mkWorld (p_table f) (snap_of (store y))) in
          (mkSys (set_snap (snap w) (store y))
             ((cat y) <| c_filesystems ::= Tracked.get_mut k (λ _, mkPFs (e (p_info f)) (tbl w)) |>), Some r)
      end
  | InsertFs g => (edit_cat (λ c, c <| c_filesystems ::= Tracked.insert (f_id g) (mkPFs (info_of g) (in_memory (inodes g))) |>) y, None)
  | RemoveFs k => (edit_cat (λ c, c <| c_filesystems ::= Tracked.remove k |>) y, None)
  | Save =>
      match checkpoint (store y) (cat y) with
      | (st, Ok c) => (mkSys st c, Some (Ok Done))
      | (st, Err e) => (mkSys st (cat y), Some (Err e))
      | (st, Panic) => (mkSys st (cat y), Some Panic)
      end
  | Restart cap =>
      match load (mkStore (db (store y)) cap None) with
      | (st, Some c) => (mkSys st c, None)
      | (st, None) => (mkSys st fresh_catalog, None)
      end
  end.

(** ** The plain catalog and its saved copy *)

Record Abs := mkAbs { saved : option Catalog; cur : Catalog }.

Definition new_abs : Abs := mkAbs None empty_catalog.

Definition set_state (s : State) (c : Catalog) : Catalog :=
  mkCatalog (volumes c) (snapshots c) (extents c) (st_applied_index s) (st_current_term s) (st_free s) (st_membership s)
    (st_raft_addrs s) (filesystems c) (fs_snapshots c) (st_leases s).
Definition set_info (i : FsInfo) (g : FsMeta) : FsMeta :=
  mkFsMeta (i_id i) (i_name i) (i_next_ino i) (inodes g) (i_source_snapshot i) (i_extent_bytes i) (i_usage i) (i_quota i) (i_replica i).

Definition edit_cur (f : Catalog → Catalog) (a : Abs) : Abs := mkAbs (saved a) (f (cur a)).

Definition run_abs (e : Event) (a : Abs) : Abs * option (res MetaError Obs) :=
  match e with
  | SetState f => (edit_cur (λ c, set_state (f (state_of c)) c) a, None)
  | OnVolumes x => (edit_cur (λ c, c <| volumes ::= Tracked.run_plain x |>) a, None)
  | OnSnapshots x => (edit_cur (λ c, c <| snapshots ::= Tracked.run_plain x |>) a, None)
  | OnExtents x => (edit_cur (λ c, c <| extents ::= Tracked.run_plain x |>) a, None)
  | OnFsSnapshots x => (edit_cur (λ c, c <| fs_snapshots ::= Tracked.run_plain x |>) a, None)
  | ReadFs k op => (a, g ← filesystems (cur a) !! k; Some (snd (run_mem op g)))
  | EditFs k op e =>
      match filesystems (cur a) !! k with
      | None => (a, None)
      | Some g =>
          let '(g, r) := run_mem op g in
          (edit_cur (λ c, c <| filesystems ::= <[k := set_info (e (info_of g)) g]> |>) a, Some r)
      end
  | InsertFs g => (edit_cur (λ c, c <| filesystems ::= <[f_id g := g]> |>) a, None)
  | RemoveFs k => (edit_cur (λ c, c <| filesystems ::= delete k |>) a, None)
  | Save => (mkAbs (Some (cur a)) (cur a), Some (Ok Done))
  | Restart _ => (mkAbs (saved a) (default empty_catalog (saved a)), None)
  end.

(** What callers keep to: reads read, inode numbers are below [u64::MAX] and not
    reused, and a filesystem keeps its id. *)
Definition event_ok (a : Abs) (e : Event) : Prop :=
  match e with
  | ReadFs k op => reads op = true
  | EditFs k op e =>
      (∀ g, filesystems (cur a) !! k = Some g → op_ok g op) ∧ (∀ i, i_id (e i) = i_id i) ∧
      (∀ x, op = OInsert x → ino x < u64_max)
  | InsertFs g => numbered (inodes g)
  | _ => True
  end.

(** ** Tables *)

(** A table is still tracked after an operation. *)
Lemma moves_tracks fs op w w' m0 m :
  shows w m → on_disk (recs (snap w)) fs m0 → moves op w w' → table_tracks fs (tbl w) m0 → table_tracks fs (tbl w') m0.
Proof.
  intros Hs Hd [(-> & _)|(_ & i & o & n & rep & [Hst Hm Ht Hr Hn Hp] & Hrep)] [Tp Ts Tk]; [by split|]. split.
  - by rewrite Hp.
  - rewrite Hr, Ht. clear -Ts. destruct rep; set_solver.
  - intros j Hj Hnr. rewrite Ht in Hj. rewrite Hr in Hnr. rewrite Hm.
    assert (j ∉ Tracked.replaced (tmap (tbl w))) as Hnj by (clear -Hnr; destruct rep; simpl in *; set_solver).
    destruct (decide (j = i)) as [->|Hne].
    2:{ destruct (Tk j) as (p & x0 & H1 & H2 & H3 & H4); [clear -Hj Hne; set_solver|done|]. exists p, x0.
        split_and!; [|done..]. destruct o; by rewrite ?lookup_insert_ne, ?lookup_delete_ne by done. }
    destruct rep; [clear -Hnr; set_solver|]. destruct (Hrep eq_refl) as (p & p' & Hraw & -> & Hsame). rewrite lookup_insert_eq.
    assert (∃ x0, m0 !! i = Some x0 ∧ is_kdir p = FsTree.is_dir x0 ∧ (∀ par de, kd p = KDir par de → stored de = true)) as (x0 & H0 & Hdir & Hsto).
    { destruct (decide (i ∈ Tracked.touched (tmap (tbl w)))) as [Hit|Hit].
      - destruct (Tk i Hit Hnr) as (q & x0 & H1 & H2 & H3 & H4). unfold raw in Hraw. rewrite H1 in Hraw. simplify_eq. by exists x0.
      - assert (Tracked.map (tmap (tbl w)) !! i = None) as Hnone.
        { apply not_elem_of_dom. pose proof (sh_touched _ _ Hs fs Tp). set_solver. }
        unfold raw, behind in Hraw. rewrite Hnone, Tp in Hraw. simpl in Hraw. rewrite decide_False in Hraw by done. simpl in Hraw.
        rewrite (at_inode_read _ _ _ _ (Hd i)) in Hraw. apply fmap_Some in Hraw as (x0 & Hx0 & ->). exists x0.
        split_and!; [done| |]; unfold is_kdir, FsTree.is_dir, record_of, of_inode; simpl; destruct (kind x0); try done.
        by intros ? ? [= _ <-]. }
    exists p', x0. split_and!; [done|done|rewrite <- Hdir|]; unfold same_shape, is_kdir in *.
    + by destruct (kd p), (kd p').
    + intros par de Hde. rewrite Hde in Hsame. destruct (kd p) as [q dq| | |]; try done. rewrite Hsame. by eapply Hsto.
Qed.

Lemma clean_tracks fs n m0 : table_tracks fs (paged_table fs n) m0.
Proof. split; [done..|]. by intros i ?%not_elem_of_empty. Qed.

Lemma moves_store op w w' : coherent (snap w) → moves op w w' → same_store (snap w) (snap w').
Proof. intros Hc [(_ & ?)|(_ & i & o & n & rep & [? _ _ _ _ _] & _)]; done. Qed.

(** The operations of a table change nothing but inodes, and add none but the one
    inserted. *)
Lemma run_mem_info op g : info_of (fst (run_mem op g)) = info_of g.
Proof.
  destruct op as [i|i f|x|i|d n|d a l|d n o| |from l|]; try done; unfold run_mem, mbind, sm_bind, sm_try, sm_reads.
  - by destruct (FsTree.inode g d).
  - by destruct (FsTree.inode g d).
  - unfold FsTree.table_set_entry, FsTree.edit_inode, mbind, sm_bind, sm_try, sm_modify.
    destruct (FsTree.inode g d) as [x| |] eqn:E; [|done..]. destruct (FsTree.is_dir x); [|done]. by rewrite E.
Qed.

Lemma run_mem_dom op g i :
  is_Some (inodes (fst (run_mem op g)) !! i) → is_Some (inodes g !! i) ∨ ∃ x, op = OInsert x ∧ ino x = i.
Proof.
  destruct op as [j|j f|x|j|d n|d a l|d n o| |from l|]; unfold run_mem, mbind, sm_bind, sm_try, sm_reads; simpl; auto.
  - rewrite lookup_alter_is_Some. auto.
  - rewrite lookup_insert_is_Some. naive_solver.
  - rewrite lookup_delete_is_Some. naive_solver.
  - destruct (FsTree.inode g d); auto.
  - destruct (FsTree.inode g d); auto.
  - unfold FsTree.table_set_entry, FsTree.edit_inode, mbind, sm_bind, sm_try, sm_modify.
    destruct (FsTree.inode g d) as [x| |] eqn:E; [|auto..]. destruct (FsTree.is_dir x); [|auto]. rewrite E. simpl.
    rewrite lookup_insert_is_Some. unfold FsTree.inode in E. destruct (inodes g !! d) eqn:Ed; [|done]. intros [->|[_ ?]]; eauto.
Qed.

Lemma run_mem_numbered op g w :
  numbered (inodes g) → (∀ x, op = OInsert x → ino x < u64_max) → shows w (inodes (fst (run_mem op g))) →
  numbered (inodes (fst (run_mem op g))).
Proof.
  intros Hn Hx Hs i x Hi. split; [by eapply sh_ino|]. destruct (run_mem_dom op g i) as [[y Hy]|(y & Hy & <-)]; [by eexists|by apply (Hn i y)|by apply Hx].
Qed.

Lemma in_memory_shows m s : numbered m → coherent s → shows (mkWorld (in_memory m) s) m.
Proof.
  intros Hn Hc.
  assert (∀ i, Tracked.map (tmap (in_memory m)) !! i = (λ x, map_entries de_from (of_inode x)) <$> m !! i) as Hl.
  { intros i. unfold in_memory, from_iter. simpl. rewrite <- list_fmap_compose. apply (extend_keyed ino). by intros k x [? _]%Hn. }
  split; [|by intros i x [? _]%Hn| |done|done].
  - intros i. unfold raw. cbn [tbl snap]. rewrite Hl. destruct (m !! i) as [x|]; simpl; [|constructor]. constructor. split; [done|].
    destruct (kind x) eqn:Ek; unfold of_inode; simpl; rewrite Ek; simpl; [|done..]. split; [done|apply dir_shows_from].
  - unfold in_memory, from_iter in *. simpl in *. f_equal. rewrite <- !size_dom. f_equal. apply set_eq. intros i.
    by rewrite !elem_of_dom, Hl, fmap_is_Some.
Qed.

(** ** Simulation *)

Definition related (y : Sys) (a : Abs) : Prop := synced (store y) (cat y) (saved a) (cur a).

Definition agrees (e : Event) (y : Sys) (a : Abs) : Prop :=
  ∃ y' a' r, run e y = (y', r) ∧ run_abs e a = (a', r) ∧ related y' a'.

Lemma state_set s c : state_of (set_state s c) = s.
Proof. by destruct s. Qed.

Lemma maps_agree e y a :
  related y a →
  match e with SetState _ | OnVolumes _ | OnSnapshots _ | OnExtents _ | OnFsSnapshots _ => true | _ => false end = true →
  agrees e y a.
Proof.
  intros [Hc [H1 H2 H3 H4 H5 H6] Hd Hst Hfr] He. unfold agrees.
  destruct e; try done; simpl; do 3 eexists; (split; [done|]); (split; [done|]);
    (split; [done|split|done|intros Hin; destruct (Hst Hin) as (s & c0 & ? & ? & ? & [T1 T2 T3 T4 T5]);
                             exists s, c0; split_and!; [done..|]; split|done]);
    simpl; rewrite ?Tracked.run_call_map, ?state_set; try congruence; try done; by apply Tracked.recorded_call.
Qed.

(** A read, or the reading side of an edit, leaves the snapshot with another cache. *)
Lemma set_snap_same st s : same_store (snap_of st) s → coherent (snap_of st) → same_store (snap_of st) (snap_of (set_snap s st)).
Proof. unfold snap_of, set_snap. destruct (last st); simpl; [done|]. by split. Qed.

Lemma synced_set_snap st C sv c s : synced st C sv c → same_store (snap_of st) s → synced (set_snap s st) C sv c.
Proof.
  intros [Hc [H1 H2 H3 H4 H5 H6] Hd Hst Hfr] Hs. pose proof (set_snap_same _ _ Hs Hc) as Hs'. split; [apply Hs'| |done| |].
  - split; try done. by eapply fss_shows_store.
  - intros Hin. destruct (Hst Hin) as (s0 & c0 & Hl & Hr & ? & ?). unfold snap_of in *. rewrite Hl in *. simpl in *.
    exists s, c0. split_and!; [by rewrite Hl| |done..]. rewrite (proj1 Hs). done.
  - intros Hin. simpl. by rewrite (Hfr Hin).
Qed.

Lemma fs_at y a k :
  related y a →
  match filesystems (cur a) !! k with
  | Some g => ∃ f, Tracked.map (c_filesystems (cat y)) !! k = Some f ∧ fs_shows (snap_of (store y)) k f g
  | None => Tracked.map (c_filesystems (cat y)) !! k = None
  end.
Proof.
  intros [_ Hsh _ _ _]. pose proof (cs_filesystems _ _ _ Hsh k) as Hk. destruct (filesystems (cur a) !! k) as [g|]; inversion Hk; [|done].
  by eexists.
Qed.

Lemma read_agrees k op y a : related y a → reads op = true → agrees (ReadFs k op) y a.
Proof.
  intros Hr Ho. pose proof (fs_at y a k Hr) as Hk. unfold agrees, run, run_abs.
  destruct (filesystems (cur a) !! k) as [g|]; [|rewrite Hk; by exists y, a, None]. destruct Hk as (f & -> & (_ & _ & Hs & _)).
  destruct (step_sim op _ _ Hs) as (w & g' & r & -> & Em & _ & Hm); [by destruct op|].
  do 3 eexists. split; [done|]. split; [simpl; by rewrite Em|]. destruct Hm as [(_ & Hss)|[Hf _]]; [|congruence].
  by apply synced_set_snap.
Qed.

Lemma fss_shows_insert s fss gs k f g : fss_shows s fss gs → fs_shows s k f g → fss_shows s (<[k := f]> fss) (<[k := g]> gs).
Proof.
  intros Hs Hf j. destruct (decide (k = j)) as [->|Hne]; [rewrite !lookup_insert_eq; by constructor|].
  rewrite !lookup_insert_ne by done. apply Hs.
Qed.

(** Other filesystems in place of a synced catalog's. *)
Lemma synced_fss st C sv c fss gs :
  synced st C sv c → fss_shows (snap_of st) (Tracked.map fss) gs →
  (∀ g0 h, fss_synced (c_filesystems C) g0 (filesystems c) → all_rows h (recs (snap_of st)) g0 → fss_synced fss g0 gs) →
  synced st (C <| c_filesystems := fss |>) sv (c <| filesystems := gs |>).
Proof.
  intros [Hc [H1 H2 H3 H4 H5 H6] Hd Hst Hfr] Hs Hy. split; [done|by split|done| |done].
  intros Hin. destruct (Hst Hin) as (s & c0 & Hl & Hr & -> & [T1 T2 T3 T4 T5]). exists s, c0. split_and!; [done..|]. split; try done.
  simpl. eapply Hy; [done|]. unfold snap_of. rewrite Hl, Hr. apply Hd.
Qed.

(** [get_mut] of a filesystem. *)
Lemma fss_synced_edit s h fss g0 g k f f' q q' op :
  fss_synced fss g0 g → all_rows h (recs s) g0 → Tracked.map fss !! k = Some f → g !! k = Some q →
  shows (mkWorld (p_table f) s) (inodes q) →
  (∃ w', moves op (mkWorld (p_table f) s) w' ∧ tbl w' = p_table f') →
  fss_synced (Tracked.get_mut k (λ _, f') fss) g0 (<[k := q']> g).
Proof.
  intros Hy Hrows Hf Hq Hs (w' & Hm & Hw). unfold Tracked.get_mut. rewrite Hf. split; simpl.
  - pose proof (fy_sub _ _ _ Hy). set_solver.
  - intros j Hj. rewrite !lookup_insert_ne by set_solver. apply (fy_clean _ _ _ Hy). set_solver.
  - intros j Hj Hrep. destruct (decide (k = j)) as [->|Hne].
    2:{ rewrite lookup_insert_ne by done. apply (fy_kept _ _ _ Hy); [set_solver|done]. }
    rewrite lookup_insert_eq. assert (∃ h0, g0 !! j = Some h0 ∧ table_tracks j (p_table f) (inodes h0)) as (h0 & Hh0 & Ht).
    { destruct (decide (j ∈ Tracked.touched fss)) as [Hjt|Hjt].
      - destruct (fy_kept _ _ _ Hy j Hjt Hrep) as (f0 & h0 & ? & ? & ?). simplify_eq. by exists h0.
      - destruct (fy_clean _ _ _ Hy j Hjt) as [<- Hcl]. exists q. split; [done|]. rewrite (Hcl f Hf). apply clean_tracks. }
    exists f', h0. split_and!; [done..|]. rewrite <- Hw. eapply moves_tracks; [done| |done|done].
    destruct (Hrows j) as (_ & Hd & _). by rewrite Hh0 in Hd.
Qed.

Lemma edit_agrees k op e y a : related y a → event_ok a (EditFs k op e) → agrees (EditFs k op e) y a.
Proof.
  intros Hr (Hok & Hid & Hino). pose proof (fs_at y a k Hr) as Hk. unfold agrees, run, run_abs.
  destruct (filesystems (cur a) !! k) as [g|] eqn:Hg; [|rewrite Hk; by exists y, a, None].
  destruct Hk as (f & Hf & (Hinfo & Hgid & Hs & Hn)). rewrite Hf.
  destruct (step_sim op _ _ Hs (Hok g eq_refl)) as (w & g' & r & -> & Em & Hs' & Hm). rewrite Em.
  assert (g' = fst (run_mem op g)) as Hg' by (by rewrite Em).
  do 3 eexists. split; [done|]. split; [done|]. pose proof (sy_coherent _ _ _ _ Hr) as Hc. pose proof (moves_store op (mkWorld (p_table f) (snap_of (store y))) w Hc Hm) as Hss. cbn [snap] in Hss.
  unfold related. cbn [store cat saved cur edit_cur].
  apply (synced_fss _ _ _ _ _ _ (synced_set_snap _ _ _ _ _ Hr Hss)).
  - unfold Tracked.get_mut. rewrite Hf. simpl. pose proof (set_snap_same _ _ Hss Hc) as Hss'. apply fss_shows_insert.
    + eapply fss_shows_store; [done|]. apply Hr.
    + assert (info_of g' = info_of g) as Hinf by (subst g'; apply run_mem_info). split_and!.
      * simpl. rewrite Hinfo, <- Hinf. by destruct (e (info_of g')).
      * simpl. rewrite Hid, Hinf. done.
      * simpl. destruct w as [t sw]. eapply (same_world_shows (mkWorld t sw)); [|done]. split; [done|]. cbn [snap] in *.
        destruct Hss as [E1 ?], Hss' as [E2 ?]. split; [congruence|done].
      * simpl. subst g'. by eapply run_mem_numbered.
  - intros g0 h Hy Hrows. eapply (fss_synced_edit (snap_of (store y)) h _ _ _ _ f _ g); [done| |done..|].
    + rewrite (proj1 (set_snap_same _ _ Hss Hc)) in Hrows. done.
    + by exists w.
Qed.

Lemma insert_agrees g y a : related y a → numbered (inodes g) → agrees (InsertFs g) y a.
Proof.
  intros Hr Hn. unfold agrees, run, run_abs. do 3 eexists. split; [done|]. split; [done|].
  apply (synced_fss _ _ _ _ _ _ Hr); simpl.
  - apply fss_shows_insert; [apply Hr|]. split_and!; [done..| |done]. apply in_memory_shows; [done|apply Hr].
  - intros g0 h Hy _. split; simpl.
    + pose proof (fy_sub _ _ _ Hy). set_solver.
    + intros k Hk. rewrite !lookup_insert_ne by set_solver. apply (fy_clean _ _ _ Hy). set_solver.
    + intros k Hk Hrep. rewrite lookup_insert_ne by set_solver. apply (fy_kept _ _ _ Hy); set_solver.
Qed.

Lemma remove_agrees k y a : related y a → agrees (RemoveFs k) y a.
Proof.
  intros Hr. unfold agrees, run, run_abs. do 3 eexists. split; [done|]. split; [done|].
  pose proof (fs_at y a k Hr) as Hk. apply (synced_fss _ _ _ _ _ _ Hr); simpl; unfold Tracked.remove.
  - intros j. pose proof (cs_filesystems _ _ _ (sy_shows _ _ _ _ Hr) j) as Hj. destruct (decide (k = j)) as [->|Hne].
    + rewrite lookup_delete_eq. destruct (Tracked.map _ !! j) eqn:E; simpl; [rewrite lookup_delete_eq|rewrite E]; constructor.
    + rewrite lookup_delete_ne by done. destruct (Tracked.map _ !! k); simpl; [by rewrite lookup_delete_ne|done].
  - intros g0 h Hy _. destruct (Tracked.map _ !! k) as [f|] eqn:E.
    + split; simpl.
      * pose proof (fy_sub _ _ _ Hy). set_solver.
      * intros j Hj. rewrite !lookup_delete_ne by set_solver. apply (fy_clean _ _ _ Hy). set_solver.
      * intros j Hj Hrep. rewrite lookup_delete_ne by set_solver. apply (fy_kept _ _ _ Hy); set_solver.
    + rewrite delete_id; [done|]. destruct (filesystems (cur a) !! k); [|done]. destruct Hk as (? & ? & _). congruence.
Qed.

Lemma save_agrees y a : related y a → agrees Save y a.
Proof.
  intros Hr. destruct (checkpoint_synced _ _ _ _ Hr) as (st & C & E & Hs & _). unfold agrees, run, run_abs. rewrite E. by do 3 eexists.
Qed.

(** What a new process finds on disk. *)
Definition found (st : CatalogStore) (sv : option Catalog) (cap : nat) : Prop :=
  match sv with
  | None => load (mkStore (db st) cap None) = (mkStore (db st) cap None, None)
  | Some c => ∃ s C, load (mkStore (db st) cap None) = (mkStore (db st) cap (Some s), Some C) ∧
                synced (mkStore (db st) cap (Some s)) C (Some c) c
  end.

Lemma related_found y a cap : related y a → found (store y) (saved a) cap.
Proof.
  intros [_ _ Hd _ _]. unfold found. destruct (saved a) as [c|].
  - destruct (load_synced _ cap _ Hd) as (s & C & E & Hs & _). by exists s, C.
  - unfold load. cbn [db]. by rewrite Hd.
Qed.

Lemma fresh_synced d cap : t_state d = None → synced (mkStore d cap None) fresh_catalog None empty_catalog.
Proof.
  intros Hd. split; [split; [apply Lru.new_ok|done]| |done|done|done]. split; try done. intros k. simpl. rewrite !lookup_empty. constructor.
Qed.

Lemma restart_agrees cap y a : related y a → agrees (Restart cap) y a.
Proof.
  intros Hr. pose proof (related_found y a cap Hr) as Hf. unfold found in Hf. unfold agrees, run, run_abs.
  destruct Hr as [_ _ Hd _ _]. destruct (saved a) as [c|].
  - destruct Hf as (s & C & -> & Hs). by do 3 eexists.
  - rewrite Hf. do 3 eexists. split; [done|]. split; [done|]. by apply fresh_synced.
Qed.

Lemma event_agrees e y a : related y a → event_ok a e → agrees e y a.
Proof.
  intros Hr He. destruct e; try (by apply maps_agree); simpl in He;
    [by apply read_agrees|by apply edit_agrees|by apply insert_agrees|by apply remove_agrees|by apply save_agrees|by apply restart_agrees].
Qed.

(** ** Histories *)

Fixpoint history {S} (step : Event → S → S * option (res MetaError Obs)) (es : list Event) (s : S) : S * list (option (res MetaError Obs)) :=
  match es with
  | [] => (s, [])
  | e :: es => let '(s, r) := step e s in let '(s, rs) := history step es s in (s, r :: rs)
  end.

Fixpoint events_ok (a : Abs) (es : list Event) : Prop :=
  match es with
  | [] => True
  | e :: es => event_ok a e ∧ events_ok (fst (run_abs e a)) es
  end.

Lemma history_related es y a :
  related y a → events_ok a es →
  snd (history run es y) = snd (history run_abs es a) ∧ related (fst (history run es y)) (fst (history run_abs es a)).
Proof.
  revert y a. induction es as [|e es IH]; intros y a Hr Hok; [done|]. destruct Hok as [He Hok].
  destruct (event_agrees e y a Hr He) as (y' & a' & r & E & E' & Hr'). rewrite E' in Hok. cbn [history]. rewrite E, E'.
  destruct (IH y' a' Hr' Hok) as [H1 H2]. destruct (history run es y'), (history run_abs es a'). simpl in *. by rewrite H1.
Qed.

(** C8. Incremental checkpoints lose nothing.  A process starts on an empty store
    and edits its catalog through the maps that record changes and the inode
    tables that are paged on the store, checkpoints it (writing only what is
    recorded) and is restarted, any number of times and in any order.  It returns
    at every step what a process with the whole catalog in memory and a full copy
    saved at every checkpoint returns; its checkpoints do not fail; its catalog is
    that process's catalog; and a new process that loads the store finds exactly
    the catalog of the last checkpoint, or nothing if there was none. *)
Theorem checkpoints_keep_catalog es cap cap' :
  events_ok new_abs es →
  let y := history run es (new_sys cap) in
  let a := history run_abs es new_abs in
  snd y = snd a ∧ cat_shows (snap_of (store (fst y))) (cat (fst y)) (cur (fst a)) ∧ found (store (fst y)) (saved (fst a)) cap'.
Proof.
  intros Hok y a. destruct (history_related es (new_sys cap) new_abs) as [H1 H2]; [by apply fresh_synced|done|].
  split_and!; [done|apply H2|by apply related_found].
Qed.

(** ** An example *)

Definition demo_events : list Event :=
  [InsertFs demo_fs; Save; EditFs "fs" (OSetEntry 1 "b" (Some 2)) id; EditFs "fs" (OSetEntry 1 "a" None) id; Save;
   EditFs "fs" (ORemove 2) id; RemoveFs "fs"; Restart 64; ReadFs "fs" (OEntries 1 None None); ReadFs "fs" OLen].

Lemma checkpoints_keep_catalog_witness :
  snd (history run demo_events (new_sys 64)) = snd (history run_abs demo_events new_abs) ∧
  drop 8 (snd (history run demo_events (new_sys 64))) = [Some (Ok (Entries [("b"%string, 2)])); Some (Ok (Count 2))].
Proof.
  split; [|by vm_compute]. apply (checkpoints_keep_catalog demo_events 64 64).
  assert (numbered demo_inodes) as Hn.
  { intros i x. unfold demo_inodes. rewrite !lookup_insert_Some. intros [[<- <-]|[_ [[<- <-]|[_ ?]]]]; done. }
  split; [exact Hn|]. repeat (split; [first [exact I|reflexivity|split_and!; done]|]). exact I.
Defined.

End StoreSim.
