(* ===== verification/Wal.v ===== *)
(** * The write-ahead log ([wal.rs])

    One JSON line per record in an append-only file.  The file is modelled by its
    bytes and by how many of them an [fsync] has made durable: a crash leaves any
    prefix that has at least those.  [serde_json] is a library: its printer and
    parsers are parameters, and what the code relies on is [serde_law].  Reads,
    writes and renames of files do not fail; [rewrite] replaces the file at once
    (a temporary file, synced and renamed), so that a crash during it is a crash
    before or after it. *)

From S2P Require Import Prelude.

(** ** Text: [str::from_utf8], [char::is_whitespace], [BufRead::lines] *)

Module Text.

Open Scope N_scope.

Definition within (lo hi b : N) : bool := (lo <=? b) && (b <=? hi).
Definition cont (b : N) : bool := within 128 191 b.
Definition low6 (b : N) : N := b mod 64.

(** The characters of valid UTF-8. *)
Fixpoint chars (l : list N) : option (list N) :=
  match l with
  | [] => Some []
  | b :: l1 =>
      if b <? 128 then cons b <$> chars l1
      else
        match l1 with
        | [] => None
        | c1 :: l2 =>
            if within 194 223 b
            then if cont c1 then cons (b mod 32 * 64 + low6 c1) <$> chars l2 else None
            else
              match l2 with
              | [] => None
              | c2 :: l3 =>
                  if within 224 239 b
                  then
                    if (if b =? 224 then within 160 191 c1 else if b =? 237 then within 128 159 c1 else cont c1) && cont c2
                    then cons (b mod 16 * 4096 + low6 c1 * 64 + low6 c2) <$> chars l3 else None
                  else
                    match l3 with
                    | [] => None
                    | c3 :: l4 =>
                        if within 240 244 b
                           && (if b =? 240 then within 144 191 c1 else if b =? 244 then within 128 143 c1 else cont c1)
                           && cont c2 && cont c3
                        then cons (b mod 8 * 262144 + low6 c1 * 4096 + low6 c2 * 64 + low6 c3) <$> chars l4 else None
                    end
              end
        end
  end.

Definition is_whitespace (c : N) : bool :=
  within 9 13 c || (c =? 32) || (c =? 133) || (c =? 160) || (c =? 5760) || within 8192 8202 c
  || (c =? 8232) || (c =? 8233) || (c =? 8239) || (c =? 8287) || (c =? 12288).

(** [trim().is_empty()] of a line that is a [String]. *)
Definition blank (l : list N) : bool :=
  match chars l with Some cs => forallb is_whitespace cs | None => false end.

(** The pieces between newlines; the last has none after it. *)
Fixpoint split_lines (l : list N) : list (list N) * list N :=
  match l with
  | [] => ([], [])
  | b :: l =>
      let '(ls, rest) := split_lines l in
      if b =? 10 then ([] :: ls, rest)
      else match ls with
           | [] => ([], b :: rest)
           | x :: ls => ((b :: x) :: ls, rest)
           end
  end.

(** A carriage return before the newline goes with it. *)
Definition strip_cr (l : list N) : list N :=
  match reverse l with 13 :: r => reverse r | _ => l end.

(** [lines()] collected: [None] when a line is not UTF-8. *)
Definition lines (l : list N) : option (list (list N)) :=
  let '(ls, rest) := split_lines l in
  let ls := (strip_cr <$> ls) ++ (match rest with [] => [] | _ => [rest] end) in
  if forallb (λ x, bool_decide (is_Some (chars x))) ls then Some ls else None.

End Text.

(** ** The log *)

Module Wal.
Import Text.

Open Scope N_scope.

Inductive WalError := Io | Decode | IndexRegression (last next : N) | Corrupt (line : nat).

Record WalRecord (T : Type) := mkRecord { term : N; index : N; command : T }.
Arguments mkRecord {T} term index command.
Arguments term {T} _.
Arguments index {T} _.
Arguments command {T} _.

(** A file: what was written, and how much of it is on disk for certain. *)
Record File := mkFile { data : list N; durable : nat }.
Definition write_all (f : File) (l : list N) : File := mkFile (data f ++ l) (durable f).
Definition sync_data (f : File) : File := mkFile (data f) (length (data f)).

Record Wal := mkWal { file : File; last_index : N; synced_index : N; records : N }.
#[export] Instance eta_Wal : Eta Wal := λ w, mkWal (file w) (last_index w) (synced_index w) (records w).

Section wal.
Context {T : Type}.
(** [serde_json::to_vec], [from_str::<IndexOnly>] and [from_str::<WalRecord<T>>]. *)
Context (to_vec : WalRecord T → list N) (parse_index : list N → option N) (parse_record : list N → option (WalRecord T)).

Abbreviation M := (SM Wal WalError).

(** [raw.iter().rposition(..)]. *)
Definition last_non_empty (raw : list (list N)) : option nat :=
  fst <$> head (List.filter (λ x : nat * list N, negb (blank (x.2))) (reverse (imap pair raw))).

(** The loop of [scan]; [n] counts lines and [out] is built in reverse. *)
Fixpoint scan_lines (last : option nat) (n : nat) (raw : list (list N)) (out : list (N * list N)) (torn : bool) :
    res WalError (list (N * list N) * bool) :=
  match raw with
  | [] => Ok (reverse out, torn)
  | line :: raw =>
      if blank line then scan_lines last (S n) raw out torn
      else
        match parse_index line with
        | Some i =>
            match out with
            | (prev, _) :: _ => if i <=? prev then Err (Corrupt (S n)) else scan_lines last (S n) raw ((i, line) :: out) torn
            | [] => scan_lines last (S n) raw ((i, line) :: out) torn
            end
        | None => if bool_decide (Some n = last) then scan_lines last (S n) raw out true else Err (Corrupt (S n))
        end
  end.

Definition scan (f : File) : res WalError (list (N * list N) * bool) :=
  raw ← ok_or (lines (data f)) Io;
  scan_lines (last_non_empty raw) 0 raw [] false.

Definition rewrite (keep : N → bool) : M N :=
  '(ls, _) ← sm_try (λ w, scan (file w));
  let kept := List.filter (λ x : N * list N, keep (x.1)) ls in
  let bytes := kept ≫= λ x, x.2 ++ [10] in
  n ← sm_reads records;
  sm_modify (λ w, mkWal (mkFile bytes (length bytes)) (last_index w) (last_index w) (N.of_nat (length kept))) ;;
  mret (n - N.of_nat (length kept)).

(** [Wal::open] of a file that is on disk. *)
Definition open (bytes : list N) : res WalError Wal :=
  let f := mkFile bytes (length bytes) in
  '(ls, torn) ← scan f;
  let i := match list.last ls with Some (i, _) => i | None => 0 end in
  let w := mkWal f i i (N.of_nat (length ls)) in
  if (torn : bool) then match rewrite (λ _, true) w with (w, Ok _) => Ok w | (_, Err e) => Err e | (_, Panic) => Panic end
  else Ok w.

Definition append_unsynced (r : WalRecord T) : M () :=
  l ← sm_reads last_index;
  if index r <=? l then sm_err (IndexRegression l (index r))
  else sm_modify (λ w, w <| file ::= λ f, write_all f (to_vec r ++ [10]) |> <| last_index := index r |> <| records ::= N.add 1 |>).

Definition sync : M () :=
  sm_modify (λ w, if synced_index w <? last_index w then w <| file ::= sync_data |> <| synced_index := last_index w |> else w).

Definition append (r : WalRecord T) : M () := append_unsynced r ;; sync.

Definition replay : M (list (WalRecord T)) :=
  '(ls, _) ← sm_try (λ w, scan (file w));
  sm_lift (foldr (λ (x : N * list N) acc, r ← ok_or (parse_record (x.2)) Decode; l ← acc; Ok (r :: l)) (Ok []) ls).

Definition raise_floor (i : N) : M () :=
  sm_modify (λ w, w <| last_index ::= N.max i |> <| synced_index ::= N.max i |>).

Definition compact_through (i : N) : M N := rewrite (λ j, i <? j).

Definition truncate_after (i : N) : M N :=
  n ← rewrite (λ j, j <=? i);
  sm_modify (λ w, w <| last_index := i |> <| synced_index := i |>) ;;
  mret n.

Definition reset (floor : N) : M () :=
  rewrite (λ _, false) ;;
  sm_modify (λ w, w <| last_index := floor |> <| synced_index := floor |>).

End wal.
End Wal.
