(* ===== verification/WalSpec.v ===== *)
(** * What the write-ahead log promises ([wal.rs])

    The log as a list of records, which the operations on the file implement, and
    what a crash can take from it: never a record that was synced, unless a
    checkpoint covers it.  The exceptions are crashes that cut a record inside a
    character, which [open] refuses, and just before its newline, after which the
    next record appended is lost. *)

From S2P Require Import Prelude Wal.

Module WalSpec.
Import Text Wal.

Open Scope N_scope.

(** ** Lines *)

Lemma split_lines_app x l : 10 ∉ x → split_lines (x ++ 10 :: l) = (x :: (split_lines l).1, (split_lines l).2).
Proof.
  induction x as [|b x IH]; intros Hx; simpl; [by destruct (split_lines l)|].
  apply not_elem_of_cons in Hx as [Hb Hx]. rewrite IH by done. assert ((b =? 10) = false) as -> by (apply N.eqb_neq; congruence). done.
Qed.

Lemma split_lines_last p : 10 ∉ p → split_lines p = ([], p).
Proof.
  induction p as [|b p IH]; intros Hp; simpl; [done|]. apply not_elem_of_cons in Hp as [Hb Hp]. rewrite IH by done.
  assert ((b =? 10) = false) as -> by (apply N.eqb_neq; congruence). done.
Qed.

Lemma strip_cr_brace l : strip_cr (l ++ [125]) = l ++ [125].
Proof. unfold strip_cr. by rewrite reverse_snoc. Qed.

Lemma blank_brace l : blank (123 :: l) = false.
Proof. unfold blank. cbn [chars]. change (123 <? 128) with true. cbv iota. by destruct (chars l). Qed.

Lemma chars_app a b x : chars a = Some x → chars (a ++ b) = app x <$> chars b.
Proof.
  assert (∀ c o y, (o : option (list N)) = app y <$> chars b → cons c <$> o = app (c :: y) <$> chars b) as Hc.
  { intros c o y ->. by destruct (chars b). }
  remember (length a) as n eqn:Hn. revert a x Hn. induction (lt_wf n) as [n _ IH]. intros a x ->.
  destruct a as [|c a1]; [intros [= <-]; simpl; by destruct (chars b)|].
  assert (∀ a' y, chars a' = Some y → (length a' < S (length a1))%nat → chars (a' ++ b) = app y <$> chars b) as IH'.
  { intros a' y Hy Hl. by eapply IH. }
  cbn [chars app]. destruct (c <? 128).
  { intros (y & Hy & ->)%fmap_Some. apply Hc, IH'; [done|lia]. }
  destruct a1 as [|c1 a2]; [done|]. cbn [app]. destruct (within 194 223 c).
  { destruct (cont c1); [|done]. intros (y & Hy & ->)%fmap_Some. apply Hc, IH'; [done|simpl; lia]. }
  destruct a2 as [|c2 a3]; [done|]. cbn [app]. destruct (within 224 239 c).
  { case_match; [|done]. intros (y & Hy & ->)%fmap_Some. apply Hc, IH'; [done|simpl; lia]. }
  destruct a3 as [|c3 a4]; [done|]. cbn [app]. case_match; [|done].
  intros (y & Hy & ->)%fmap_Some. apply Hc, IH'; [done|simpl; lia].
Qed.

Section spec.
Context {T : Type} (to_vec : WalRecord T → list N) (parse_index : list N → option N) (parse_record : list N → option (WalRecord T)).

(** What the log needs of [serde_json]: a record is an object on one line of
    valid UTF-8, which parses back; no beginning of it is an object. *)
Record serde_law : Prop := {
  sl_index r : parse_index (to_vec r) = Some (index r);
  sl_record r : parse_record (to_vec r) = Some r;
  sl_utf8 r : is_Some (chars (to_vec r));
  sl_newline r : 10 ∉ to_vec r;
  sl_open r : ∃ l, to_vec r = 123 :: l;
  sl_close r : ∃ l, to_vec r = l ++ [125];
  sl_prefix r p q : to_vec r = p ++ q → p ≠ [] → q ≠ [] → parse_index p = None;
}.
Context (serde : serde_law).

Abbreviation Rec := (WalRecord T).
Implicit Types rs : list Rec.

Definition enc rs : list N := rs ≫= λ r, to_vec r ++ [10].

Lemma enc_app rs rs' : enc (rs ++ rs') = enc rs ++ enc rs'.
Proof. apply bind_app. Qed.

Lemma split_lines_enc rs p : 10 ∉ p → split_lines (enc rs ++ p) = (to_vec <$> rs, p).
Proof.
  intros Hp. induction rs as [|r rs IH]; [by apply split_lines_last|]. cbn [enc mbind list_bind]. fold (enc rs).
  rewrite <- !app_assoc. simpl. rewrite split_lines_app by apply serde. by rewrite IH.
Qed.

Definition tail_line (p : list N) : list (list N) := match p with [] => [] | _ => [p] end.

Lemma lines_enc rs p :
  10 ∉ p → lines (enc rs ++ p) = if bool_decide (is_Some (chars p)) then Some ((to_vec <$> rs) ++ tail_line p) else None.
Proof.
  intros Hp. unfold lines. rewrite split_lines_enc by done.
  assert (strip_cr <$> (to_vec <$> rs) = to_vec <$> rs) as ->.
  { rewrite <- list_fmap_compose. apply list_fmap_ext. intros i r _. simpl. destruct (sl_close serde r) as [l ->]. apply strip_cr_brace. }
  fold (tail_line p). rewrite forallb_app.
  assert (forallb (λ x, bool_decide (is_Some (chars x))) (to_vec <$> rs) = true) as ->.
  { apply forallb_forall. intros x (r & <- & _)%in_map_iff. apply bool_decide_eq_true, serde. }
  simpl. destruct p as [|b p]; [done|]. cbn [tail_line forallb]. by rewrite andb_true_r.
Qed.

Lemma last_non_empty_snoc raw x : blank x = false → last_non_empty (raw ++ [x]) = Some (length raw).
Proof.
  intros Hx. unfold last_non_empty. rewrite imap_app, reverse_app. simpl. rewrite Hx. simpl. by rewrite Nat.add_0_r.
Qed.

(** ** Scanning *)

(** Indexes go up from above [lo]. *)
Fixpoint ordered (lo : N) rs : Prop :=
  match rs with
  | [] => True
  | r :: rs => lo < index r ∧ ordered (index r) rs
  end.

Definition entries rs : list (N * list N) := (λ r, (index r, to_vec r)) <$> rs.

Lemma blank_record r : blank (to_vec r) = false.
Proof. destruct (sl_open serde r) as [l ->]. apply blank_brace. Qed.

Definition head_index (out : list (N * list N)) : N := match out with [] => 0 | (i, _) :: _ => i end.

Lemma scan_records last n rs raw out torn :
  ordered (head_index out) rs →
  scan_lines parse_index last n ((to_vec <$> rs) ++ raw) out torn =
  scan_lines parse_index last (n + length rs) raw (reverse (entries rs) ++ out) torn.
Proof.
  revert n out. induction rs as [|r rs IH]; intros n out Ho; [by rewrite Nat.add_0_r|]. destruct Ho as [Hlt Ho].
  rewrite fmap_cons. cbn [app scan_lines]. rewrite blank_record, (sl_index serde).
  assert (scan_lines parse_index last (S n) ((to_vec <$> rs) ++ raw) ((index r, to_vec r) :: out) torn =
    scan_lines parse_index last (n + length (r :: rs)) raw (reverse (entries (r :: rs)) ++ out) torn) as Hgo.
  { rewrite IH by done. unfold entries. rewrite fmap_cons, reverse_cons, <- app_assoc. simpl. by rewrite Nat.add_succ_r. }
  destruct out as [|[i x] out]; [done|]. simpl in Hlt. assert ((index r <=? i) = false) as -> by (apply N.leb_gt; lia). done.
Qed.

Lemma scan_whole rs n : ordered 0 rs → scan parse_index (mkFile (enc rs) n) = Ok (entries rs, false).
Proof.
  intros Ho. unfold scan. cbn [data]. rewrite <- (app_nil_r (enc rs)), lines_enc by apply not_elem_of_nil.
  rewrite bool_decide_true by (by eexists). cbn [mbind ok_or res_bind tail_line].
  rewrite scan_records by done. simpl. by rewrite app_nil_r, reverse_involutive.
Qed.

Lemma newline_prefix r p q : to_vec r = p ++ q → 10 ∉ p.
Proof. intros E Hp. apply (sl_newline serde r). rewrite E. apply elem_of_app. by left. Qed.

Lemma blank_prefix r p q : to_vec r = p ++ q → p ≠ [] → blank p = false.
Proof.
  intros E Hp. destruct (sl_open serde r) as [l Hl]. destruct p as [|b p]; [done|]. rewrite Hl in E. simpl in E.
  injection E as <- _. apply blank_brace.
Qed.

(** A file that ends inside a record. *)
Lemma scan_cut rs r p q n :
  ordered 0 rs → to_vec r = p ++ q → p ≠ [] → q ≠ [] →
  scan parse_index (mkFile (enc rs ++ p) n) = if bool_decide (is_Some (chars p)) then Ok (entries rs, true) else Err Io.
Proof.
  intros Ho E Hp Hq. unfold scan. cbn [data]. rewrite lines_enc by (by eapply newline_prefix).
  case_bool_decide as Hu; [|done]. cbn [mbind ok_or res_bind]. assert (tail_line p = [p]) as -> by (by destruct p).
  rewrite last_non_empty_snoc by (by eapply blank_prefix). rewrite scan_records by done. simpl.
  rewrite (blank_prefix r p q) by done. rewrite (sl_prefix serde r p q) by done.
  rewrite length_fmap, bool_decide_true by done. simpl. by rewrite app_nil_r, reverse_involutive.
Qed.

(** A file whose last record is whole but for its newline. *)
Lemma scan_unterminated rs r n :
  ordered 0 (rs ++ [r]) → scan parse_index (mkFile (enc rs ++ to_vec r) n) = Ok (entries (rs ++ [r]), false).
Proof.
  intros Ho. unfold scan. cbn [data]. rewrite lines_enc by apply serde. rewrite bool_decide_true by apply serde.
  cbn [mbind ok_or res_bind]. assert (tail_line (to_vec r) = to_vec <$> [r]) as ->.
  { destruct (sl_open serde r) as [l Hl]. simpl. by rewrite Hl. }
  rewrite <- fmap_app. rewrite <- (app_nil_r (to_vec <$> (rs ++ [r]))) at 2. rewrite scan_records by done. simpl.
  by rewrite app_nil_r, reverse_involutive.
Qed.

(** ** Cutting a file *)

Lemma cut_enc rs n :
  ∃ k p, take n (enc rs) = enc (take k rs) ++ p ∧ (k ≤ length rs)%nat ∧
    (p = [] ∨ ∃ r q, rs !! k = Some r ∧ to_vec r = p ++ q ∧ p ≠ []).
Proof.
  revert n. induction rs as [|r rs IH]; intros n.
  { exists 0%nat, []. split; [by destruct n|]. split; [done|by left]. }
  destruct (decide (n ≤ length (to_vec r))%nat) as [Hn|Hn].
  - exists 0%nat, (take n (to_vec r)). split; [|split; [simpl; lia|]].
    + cbn [enc mbind list_bind]. rewrite <- app_assoc. rewrite take_app_le by done. done.
    + destruct (decide (take n (to_vec r) = [])) as [E|E]; [by left|right]. exists r, (drop n (to_vec r)).
      split; [done|]. split; [by rewrite take_drop|done].
  - destruct (IH (n - length (to_vec r) - 1)%nat) as (k & p & E & Hk & Hp). exists (S k), p. split; [|split; [simpl; lia|exact Hp]].
    cbn [enc mbind list_bind take]. fold (enc rs) (enc (take k rs)). rewrite <- !app_assoc.
    rewrite take_app_ge by lia. simpl. destruct (n - length (to_vec r))%nat as [|m] eqn:Em; [lia|]. simpl.
    f_equal. f_equal. rewrite <- E. f_equal. lia.
Qed.

Lemma enc_length_mono rs k j : (k ≤ j)%nat → (length (enc (take k rs)) ≤ length (enc (take j rs)))%nat.
Proof.
  intros Hkj. rewrite <- (take_drop k (take j rs)), enc_app, length_app, take_take. replace (k `min` j)%nat with k by lia. lia.
Qed.

Lemma enc_length_lt rs k r q p :
  rs !! k = Some r → to_vec r = p ++ q → (length (enc (take k rs) ++ p) < length (enc (take (S k) rs)))%nat.
Proof.
  intros Hr E. rewrite (take_S_r _ _ _ Hr), enc_app, !length_app. simpl. rewrite E, !length_app. simpl. lia.
Qed.

(** ** The log as records *)

(** [l_floor] is what the caller said is checkpointed. *)
Record Log := mkLog { l_recs : list Rec; l_last : N; l_synced : N; l_floor : N }.

Definition top rs : N := match list.last rs with Some r => index r | None => 0 end.

(** The file has every record, and durably those that are synced and not
    checkpointed. *)
Record implements (w : Wal) (l : Log) : Prop := {
  im_data : data (file w) = enc (l_recs l);
  im_ordered : ordered 0 (l_recs l);
  im_top : Forall (λ r, index r ≤ l_last l) (l_recs l);
  im_last : last_index w = l_last l;
  im_synced : synced_index w = l_synced l;
  im_records : records w = N.of_nat (length (l_recs l));
  im_le : l_synced l ≤ l_last l;
  im_durable : ∃ k, (k ≤ length (l_recs l))%nat ∧ (length (enc (take k (l_recs l))) ≤ durable (file w))%nat ∧
    Forall (λ r, l_synced l < index r ∨ index r ≤ l_floor l) (drop k (l_recs l));
  im_len : (durable (file w) ≤ length (data (file w)))%nat;
}.

Lemma ordered_weaken lo lo' rs : lo' ≤ lo → ordered lo rs → ordered lo' rs.
Proof. destruct rs as [|r rs]; [done|]. simpl. intros ? [? ?]. split; [lia|done]. Qed.

Lemma ordered_filter (keep : Rec → bool) lo rs : ordered lo rs → ordered lo (List.filter keep rs).
Proof.
  revert lo. induction rs as [|r rs IH]; intros lo; simpl; [done|]. intros [Hlt Ho]. destruct (keep r); simpl; [by split; [|apply IH]|].
  apply IH. eapply ordered_weaken; [|done]. lia.
Qed.

Lemma ordered_take lo rs k : ordered lo rs → ordered lo (take k rs).
Proof. revert lo k. induction rs as [|r rs IH]; intros lo [|k]; simpl; try done. intros [? ?]. split; [done|by apply IH]. Qed.

Lemma ordered_snoc lo rs r : ordered lo rs → lo < index r → Forall (λ x, index x < index r) rs → ordered lo (rs ++ [r]).
Proof.
  revert lo. induction rs as [|x rs IH]; intros lo; simpl; [by intros _ ? _|]. intros [? ?] ? Hall. apply Forall_cons in Hall as [? ?].
  split; [done|by apply IH].
Qed.

Lemma ordered_top lo rs : ordered lo rs → Forall (λ r, index r ≤ top rs) rs.
Proof.
  intros Ho. destruct rs as [|r rs _] using rev_ind; [constructor|]. unfold top. rewrite last_snoc. apply Forall_app. split; [|by constructor].
  revert lo Ho. induction rs as [|x rs IH]; intros lo; [constructor|]. simpl. intros [_ Ho]. constructor; [|by eapply IH].
  clear IH. revert x Ho. induction rs as [|y rs IH]; simpl; intros x [? ?]; [lia|]. pose proof (IH y ltac:(done)). lia.
Qed.

Lemma entries_filter (keep : N → bool) rs :
  List.filter (λ x : N * list N, keep (x.1)) (entries rs) = entries (List.filter (λ r, keep (index r)) rs).
Proof. induction rs as [|r rs IH]; [done|]. unfold entries in *. rewrite fmap_cons. simpl. destruct (keep (index r)); simpl; by rewrite IH. Qed.

Lemma entries_enc rs : (entries rs ≫= λ x, x.2 ++ [10]) = enc rs.
Proof.
  induction rs as [|r rs IH]; [done|].
  change ((to_vec r ++ [10]) ++ (entries rs ≫= λ x, x.2 ++ [10]) = (to_vec r ++ [10]) ++ enc rs). by rewrite IH.
Qed.

Lemma last_entries rs : match list.last (entries rs) with Some (i, _) => i | None => 0 end = top rs.
Proof. unfold entries, top. rewrite fmap_last. by destruct (list.last rs). Qed.

(** ** Operations *)

Inductive Op :=
| Append (r : Rec)
| AppendUnsynced (r : Rec)
| Sync
| RaiseFloor (i : N)
| CompactThrough (i : N)
| TruncateAfter (i : N)
| Reset (i : N)
| Replay
| Crash (n : nat).

Inductive Out := Done | Removed (n : N) | Records (rs : list Rec).

(** After a crash the file is a prefix with at least its durable part, and is
    opened again. *)
Definition after_crash (n : nat) (w : Wal) : list N := take (Nat.max n (durable (file w))) (data (file w)).

Definition run (op : Op) : SM Wal WalError Out :=
  match op with
  | Append r => append to_vec r ;; mret Done
  | AppendUnsynced r => append_unsynced to_vec r ;; mret Done
  | Sync => sync ;; mret Done
  | RaiseFloor i => raise_floor i ;; mret Done
  | CompactThrough i => n ← compact_through parse_index i; mret (Removed n)
  | TruncateAfter i => n ← truncate_after parse_index i; mret (Removed n)
  | Reset i => reset parse_index i ;; mret Done
  | Replay => rs ← replay parse_index parse_record; mret (Records rs)
  | Crash n => λ w, match open parse_index (after_crash n w) with
                    | Ok w' => (w', Ok Done)
                    | Err e => (w, Err e)
                    | Panic => (w, Panic)
                    end
  end.

Definition log_append (r : Rec) (l : Log) : Log := mkLog (l_recs l ++ [r]) (index r) (l_synced l) (l_floor l).
Definition log_sync (l : Log) : Log := mkLog (l_recs l) (l_last l) (l_last l) (l_floor l).
Definition log_keep (keep : N → bool) (l : Log) : Log :=
  mkLog (List.filter (λ r, keep (index r)) (l_recs l)) (l_last l) (l_last l) (l_floor l).
Definition log_restart (i : N) (l : Log) : Log := mkLog (l_recs l) i i (l_floor l).
Definition removed (l l' : Log) : N := N.of_nat (length (l_recs l)) - N.of_nat (length (l_recs l')).

(** What a crash can leave: a beginning of the log with every record that is
    synced and not checkpointed. *)
Definition survive (l : Log) (k : nat) : Prop :=
  Forall (λ r, l_synced l < index r ∨ index r ≤ l_floor l) (drop k (l_recs l)).

Inductive log_step (l : Log) : Op → Log → res WalError Out → Prop :=
| log_regression r op : op = Append r ∨ op = AppendUnsynced r → index r ≤ l_last l →
    log_step l op l (Err (IndexRegression (l_last l) (index r)))
| log_Append r : l_last l < index r → log_step l (Append r) (log_sync (log_append r l)) (Ok Done)
| log_AppendUnsynced r : l_last l < index r → log_step l (AppendUnsynced r) (log_append r l) (Ok Done)
| log_Sync : log_step l Sync (log_sync l) (Ok Done)
| log_RaiseFloor i : log_step l (RaiseFloor i) (mkLog (l_recs l) (N.max i (l_last l)) (N.max i (l_synced l)) (N.max i (l_floor l))) (Ok Done)
| log_CompactThrough i l' : l' = log_keep (λ j, i <? j) l → log_step l (CompactThrough i) l' (Ok (Removed (removed l l')))
| log_TruncateAfter i l' : l' = log_restart i (log_keep (λ j, j <=? i) l) → log_step l (TruncateAfter i) l' (Ok (Removed (removed l l')))
| log_Reset i : log_step l (Reset i) (log_restart i (log_keep (λ _, false) l)) (Ok Done)
| log_Replay : log_step l Replay l (Ok (Records (l_recs l)))
| log_Crash n k : survive l k → (k ≤ length (l_recs l))%nat →
    log_step l (Crash n) (mkLog (take k (l_recs l)) (top (take k (l_recs l))) (top (take k (l_recs l))) 0) (Ok Done).

(** The crash leaves valid UTF-8, and does not cut off a newline alone. *)
Definition clean (bytes : list N) : Prop :=
  is_Some (lines bytes) ∧ ((split_lines bytes).2 = [] ∨ parse_index (split_lines bytes).2 = None).

Definition op_clean (op : Op) (w : Wal) : Prop :=
  match op with Crash n => clean (after_crash n w) | _ => True end.

(** ** Refinement *)

Lemma rewrite_spec keep w l :
  implements w l →
  ∃ w', rewrite parse_index keep w = (w', Ok (removed l (log_keep keep l))) ∧ implements w' (log_keep keep l) ∧
    durable (file w') = length (data (file w')).
Proof.
  intros [Hd Ho Ht Hl Hs Hr Hle Hdu Hln]. unfold rewrite, mbind, sm_bind, sm_try, sm_reads, sm_modify, mret, sm_ret.
  destruct w as [[dat dur] li si re]. simpl in *. rewrite Hd, scan_whole by done. cbn [fst]. rewrite entries_filter, entries_enc.
  unfold entries. rewrite length_fmap. eexists. split; [unfold removed; simpl; by rewrite Hr|].
  split; [|done]. split; simpl; try done.
  - by apply ordered_filter.
  - apply Forall_forall. intros r (Hin & _)%list_elem_of_In%filter_In. apply list_elem_of_In in Hin. by apply (proj1 (Forall_forall _ _) Ht).
  - exists (length (List.filter (λ r, keep (index r)) (l_recs l))). split_and!; [done|by rewrite firstn_all|]. rewrite drop_ge by done. constructor.
Qed.

Lemma append_spec r w l :
  implements w l →
  if index r <=? l_last l then append_unsynced to_vec r w = (w, Err (IndexRegression (l_last l) (index r)))
  else ∃ w', append_unsynced to_vec r w = (w', Ok ()) ∧ implements w' (log_append r l).
Proof.
  intros [Hd Ho Ht Hl Hs Hr Hle (k & Hk & Hdu & Hf) Hln]. unfold append_unsynced, mbind, sm_bind, sm_reads. rewrite Hl.
  destruct (N.leb_spec (index r) (l_last l)) as [Hi|Hi]; [done|]. eexists. split; [done|]. destruct w as [[dat dur] li si re]. simpl in *.
  assert (Forall (λ x, index x < index r) (l_recs l)) as Hlt by (eapply Forall_impl; [done|]; simpl; intros; lia).
  split; simpl; try done.
  - rewrite enc_app, Hd. simpl. by rewrite app_nil_r.
  - apply ordered_snoc; [done|lia|done].
  - apply Forall_app. split; [|by constructor]. eapply Forall_impl; [exact Hlt|]. simpl. intros. lia.
  - rewrite Hr, length_app. simpl. lia.
  - lia.
  - exists k. rewrite length_app. split; [lia|]. split; [by rewrite take_app_le|]. rewrite drop_app_le by done.
    apply Forall_app. split; [done|]. constructor; [left; lia|done].
  - rewrite length_app. lia.
Qed.

Lemma sync_spec w l : implements w l → ∃ w', sync w = (w', Ok ()) ∧ implements w' (log_sync l).
Proof.
  intros [Hd Ho Ht Hl Hs Hr Hle Hdu Hln]. eexists. split; [done|]. rewrite Hl, Hs.
  destruct (N.ltb_spec (l_synced l) (l_last l)) as [Hlt|Hge].
  - destruct w as [[dat dur] li si re]. simpl in *. split; simpl; try done.
    exists (length (l_recs l)). split_and!; [done|by rewrite firstn_all, Hd|]. rewrite drop_ge by done. constructor.
  - assert (l_synced l = l_last l) as E by lia. destruct l as [rs la sy fl]. simpl in *. subst sy. split; simpl; try done. by rewrite <- E.
Qed.

Lemma replay_scanned rs w torn :
  scan parse_index (file w) = Ok (entries rs, torn) → replay parse_index parse_record w = (w, Ok rs).
Proof.
  intros Hs. unfold replay, mbind, sm_bind, sm_try, sm_lift. rewrite Hs. f_equal. clear Hs.
  induction rs as [|r rs IH]; [done|]. unfold entries in *. rewrite fmap_cons. cbn [foldr]. rewrite IH. simpl. by rewrite (sl_record serde).
Qed.

Lemma replay_spec w l : implements w l → replay parse_index parse_record w = (w, Ok (l_recs l)).
Proof.
  intros [Hd Ho _ _ _ _ _ _ _]. apply (replay_scanned _ _ false). destruct w as [[dat dur] li si re]. simpl in *. rewrite Hd. by apply scan_whole.
Qed.

(** A clean crash cuts between two records, or inside one. *)
Lemma open_cut w l n :
  implements w l → clean (after_crash n w) →
  ∃ k w', survive l k ∧ (k ≤ length (l_recs l))%nat ∧ open parse_index (after_crash n w) = Ok w' ∧
    implements w' (mkLog (take k (l_recs l)) (top (take k (l_recs l))) (top (take k (l_recs l))) 0).
Proof.
  intros [Hd Ho Ht Hl Hs Hr Hle (j & Hj & Hdu & Hf) Hln] [Hu Hc]. unfold after_crash in *. rewrite Hd in *.
  set (c := Nat.max n (durable (file w))) in *. destruct (cut_enc (l_recs l) c) as (k & p & Ecut & Hk & Hp). rewrite Ecut in *.
  assert (survive l k) as Hsur.
  { unfold survive. assert (j ≤ k)%nat as Hjk.
    { destruct (decide (j ≤ k)%nat) as [|Hnjk]; [done|]. exfalso.
      assert (length (enc (take k (l_recs l)) ++ p) < length (enc (take j (l_recs l))))%nat as Hlt.
      { destruct Hp as [->|(r & q & Hr' & E & _)].
        - destruct (lookup_lt_is_Some_2 (l_recs l) k) as [r Hr']; [lia|].
          pose proof (enc_length_lt _ k r (to_vec r) [] Hr' eq_refl). pose proof (enc_length_mono (l_recs l) (S k) j ltac:(lia)). lia.
        - pose proof (enc_length_lt _ k r q p Hr' E). pose proof (enc_length_mono (l_recs l) (S k) j ltac:(lia)). lia. }
      rewrite <- Ecut, length_take in Hlt. lia. }
    replace (drop k (l_recs l)) with (drop (k - j) (drop j (l_recs l))) by (rewrite drop_drop; f_equal; lia). by apply Forall_drop. }
  set (rs := take k (l_recs l)) in *. assert (ordered 0 rs) as Hord by (by apply ordered_take).
  set (w0 := mkWal (mkFile (enc rs) (length (enc rs))) (top rs) (top rs) (N.of_nat (length rs))).
  assert (implements w0 (mkLog rs (top rs) (top rs) 0)) as Him.
  { split; simpl; try done; [by eapply ordered_top|]. exists (length rs). split_and!; [done|by rewrite firstn_all|]. rewrite drop_ge by done. constructor. }
  exists k. destruct Hp as [->|(r & q & Hr' & E & Hne)].
  - exists w0. split_and!; [done..| |done]. rewrite app_nil_r. unfold open. rewrite scan_whole by done. simpl. rewrite last_entries.
    unfold entries. by rewrite length_fmap.
  - rewrite split_lines_enc in Hc by (by eapply newline_prefix). cbn [snd] in Hc. destruct Hc as [->|Hc]; [done|].
    assert (q ≠ []) as Hq. { intros ->. rewrite app_nil_r in E. rewrite <- E, (sl_index serde) in Hc. done. }
    unfold open. rewrite (scan_cut rs r p q) by done. rewrite lines_enc in Hu by (by eapply newline_prefix).
    destruct (bool_decide (is_Some (chars p))) eqn:Eu; [|by destruct Hu]. cbn [mbind res_bind]. rewrite last_entries.
    unfold rewrite, mbind, sm_bind, sm_try, sm_reads, sm_modify, mret, sm_ret. cbn [file]. rewrite (scan_cut rs r p q), Eu by done. cbn [fst].
    rewrite (entries_filter (λ _, true)), List.forallb_filter_id by (by apply forallb_forall). rewrite entries_enc. unfold entries. rewrite length_fmap.
    exists w0. by split_and!.
Qed.

(** The log's indexes restart at [i], all that it has being on disk. *)
Lemma restart_spec i w l :
  implements w l → durable (file w) = length (data (file w)) → Forall (λ r, index r ≤ i) (l_recs l) →
  implements (w <| last_index := i |> <| synced_index := i |>) (log_restart i l).
Proof.
  intros [Hd Ho _ Hl Hs Hr Hle _ Hln] Hdu Ht. split; simpl; try done.
  exists (length (l_recs l)). split_and!; [done|by rewrite firstn_all, Hdu, Hd|]. rewrite drop_ge by done. constructor.
Qed.

Lemma step_refines op w l :
  implements w l → op_clean op w → ∃ w' l' r, run op w = (w', r) ∧ log_step l op l' r ∧ implements w' l'.
Proof.
  intros Him Hc. destruct op as [r|r| |i|i|i|i| |n]; unfold run, append, mbind, sm_bind, mret, sm_ret.
  - pose proof (append_spec r w l Him) as Ha. destruct (N.leb_spec (index r) (l_last l)) as [Hi|Hi].
    { rewrite Ha. do 3 eexists. split; [done|]. split; [|done]. by apply (log_regression l r); [left|]. }
    destruct Ha as (w1 & E1 & H1). destruct (sync_spec _ _ H1) as (w2 & E2 & H2). rewrite E1, E2.
    do 3 eexists. split; [done|]. split; [by constructor|done].
  - pose proof (append_spec r w l Him) as Ha. destruct (N.leb_spec (index r) (l_last l)) as [Hi|Hi].
    { rewrite Ha. do 3 eexists. split; [done|]. split; [|done]. by apply (log_regression l r); [right|]. }
    destruct Ha as (w1 & E1 & H1). rewrite E1. do 3 eexists. split; [done|]. split; [by constructor|done].
  - destruct (sync_spec _ _ Him) as (w2 & E2 & H2). rewrite E2. do 3 eexists. split; [done|]. split; [constructor|done].
  - do 3 eexists. split; [done|]. split; [constructor|]. destruct Him as [Hd Ho Ht Hl Hs Hr Hle (k & Hk & Hdu & Hf) Hln].
    split; simpl; try done; rewrite ?Hl, ?Hs; try done; [|lia|].
    + eapply Forall_impl; [exact Ht|]. simpl. intros. lia.
    + exists k. split_and!; [done..|]. eapply Forall_impl; [exact Hf|]. simpl. intros r. lia.
  - destruct (rewrite_spec (λ j, i <? j) w l Him) as (w1 & E1 & H1 & _). unfold compact_through. rewrite E1.
    do 3 eexists. split; [done|]. split; [by constructor|done].
  - destruct (rewrite_spec (λ j, j <=? i) w l Him) as (w1 & E1 & H1 & Hdu). unfold truncate_after, mbind, sm_bind. rewrite E1.
    do 3 eexists. split; [done|]. split; [by apply (log_TruncateAfter l i (log_restart i (log_keep (λ j, j <=? i) l)))|].
    apply restart_spec; [done..|]. apply Forall_forall. intros r (_ & Hi)%list_elem_of_In%filter_In. by apply N.leb_le.
  - destruct (rewrite_spec (λ _, false) w l Him) as (w1 & E1 & H1 & Hdu). unfold reset, mbind, sm_bind. rewrite E1.
    do 3 eexists. split; [done|]. split; [constructor|]. apply restart_spec; [done..|]. apply Forall_forall.
    by intros r (_ & ?)%list_elem_of_In%filter_In.
  - rewrite (replay_spec w l Him). do 3 eexists. split; [done|]. split; [constructor|done].
  - destruct (open_cut w l n Him Hc) as (k & w' & Hs & Hk & E & H1). rewrite E. do 3 eexists. split; [done|]. split; [by constructor|done].
Qed.

(** ** Histories *)

Fixpoint run_all (ops : list Op) (w : Wal) : Wal * list (res WalError Out) :=
  match ops with
  | [] => (w, [])
  | op :: ops => let '(w, r) := run op w in let '(w, out) := run_all ops w in (w, r :: out)
  end.

Fixpoint all_clean (ops : list Op) (w : Wal) : Prop :=
  match ops with
  | [] => True
  | op :: ops => op_clean op w ∧ all_clean ops (fst (run op w))
  end.

Inductive log_run : Log → list Op → Log → list (res WalError Out) → Prop :=
| log_run_nil l : log_run l [] l []
| log_run_cons l l1 l2 op ops r out :
    log_step l op l1 r → log_run l1 ops l2 out → log_run l (op :: ops) l2 (r :: out).

Definition new_wal : Wal := mkWal (mkFile [] 0) 0 0 0.
Definition new_log : Log := mkLog [] 0 0 0.

Lemma new_implements : implements new_wal new_log.
Proof. split; simpl; try done. exists 0%nat. by split_and!. Qed.

Lemma run_refines ops w l :
  implements w l → all_clean ops w → ∃ l', log_run l ops l' (snd (run_all ops w)) ∧ implements (fst (run_all ops w)) l'.
Proof.
  revert w l. induction ops as [|op ops IH]; intros w l Him Hc; [exists l; by split; [constructor|]|]. destruct Hc as [Hop Hc].
  destruct (step_refines op w l Him Hop) as (w1 & l1 & r & E & Hs & H1). rewrite E in Hc. cbn [run_all]. rewrite E.
  destruct (IH w1 l1 H1 Hc) as (l2 & Hr & H2). destruct (run_all ops w1) as [w2 out]. exists l2. split; [by econstructor|done].
Qed.

(** C15. The write-ahead log is a log.  Whatever sequence of appends, syncs,
    truncations, compactions, resets, replays and crashes happens from an empty
    directory, every operation returns what it returns on the list of records,
    and the file keeps holding that list.  A crash leaves a beginning of the list
    that has every record that was synced and not covered by a checkpoint;
    opening the file again never fails and replay returns the records left.  This
    is under the library's laws, and for crashes that leave valid UTF-8 and do
    not cut off a newline alone. *)
Theorem wal_is_log ops :
  all_clean ops new_wal →
  ∃ l, log_run new_log ops l (snd (run_all ops new_wal)) ∧ implements (fst (run_all ops new_wal)) l.
Proof. intros Hc. by apply run_refines; [apply new_implements|]. Qed.

(** ** Crashes that are not clean *)

Definition full rs : Wal := mkWal (mkFile (enc rs) (length (enc rs))) (top rs) (top rs) (N.of_nat (length rs)).

Lemma ordered_mid rs r rs' : ordered 0 (rs ++ r :: rs') → top rs < index r ∧ ordered 0 (rs ++ [r]).
Proof.
  intros Ho. assert (ordered 0 (rs ++ [r])) as Ho'.
  { rewrite cons_middle, app_assoc in Ho. apply (ordered_take _ _ (length (rs ++ [r]))) in Ho. by rewrite take_app_length in Ho. }
  split; [|done]. clear Ho. destruct rs as [|x rs _] using rev_ind; [by destruct Ho'|]. unfold top. rewrite last_snoc.
  revert Ho'. generalize 0. induction rs as [|y rs IH]; simpl; [by intros n (_ & ? & _)|]. intros n [_ ?]. by eapply IH.
Qed.

Lemma append_full rs r : top rs < index r → append to_vec r (full rs) = (full (rs ++ [r]), Ok ()).
Proof.
  intros Hr. unfold append, append_unsynced, sync, mbind, sm_bind, sm_reads, sm_modify, full. cbn [last_index].
  assert ((index r <=? top rs) = false) as -> by (by apply N.leb_gt). cbn. rewrite (proj2 (N.ltb_lt _ _) Hr). unfold sync_data. cbn [data write_all].
  rewrite enc_app. unfold top. rewrite last_snoc. assert (enc [r] = to_vec r ++ [10]) as -> by apply app_nil_r.
  do 2 f_equal. rewrite length_app. simpl. lia.
Qed.

Lemma run_appends rs rs' ops :
  ordered 0 (rs ++ rs') →
  run_all ((Append <$> rs') ++ ops) (full rs) =
  let '(w, out) := run_all ops (full (rs ++ rs')) in (w, repeat (Ok Done) (length rs') ++ out).
Proof.
  revert rs. induction rs' as [|r rs' IH]; intros rs Ho; [rewrite (app_nil_r rs); cbn; by destruct (run_all ops (full rs))|].
  rewrite fmap_cons. cbn [app run_all run]. unfold mbind, sm_bind. destruct (ordered_mid _ _ _ Ho) as [Hr _]. rewrite append_full by done.
  unfold mret, sm_ret. rewrite cons_middle, app_assoc in Ho. rewrite IH by done. rewrite <- app_assoc. cbn [app].
  by destruct (run_all ops (full (rs ++ r :: rs'))).
Qed.

(** The file after [r] was written but not synced, and cut to [p] of it. *)
Lemma unsynced_cut rs r p q :
  top rs < index r → to_vec r = p ++ q →
  ∃ w, append_unsynced to_vec r (full rs) = (w, Ok ()) ∧ after_crash (length (enc rs ++ p)) w = enc rs ++ p.
Proof.
  intros Hr E. unfold append_unsynced, mbind, sm_bind, sm_reads, sm_modify, full. cbn [last_index].
  assert ((index r <=? top rs) = false) as -> by (by apply N.leb_gt). eexists. split; [done|]. unfold after_crash. cbn.
  rewrite length_app. replace (_ `max` _)%nat with (length (enc rs ++ p)) by (rewrite length_app; lia).
  rewrite E, <- !app_assoc, app_assoc. by rewrite take_app_length.
Qed.

(** C36. A crash that tears a record inside a character makes the log unusable:
    [open] returns an I/O error instead of dropping the torn record, since the
    lines are read as strings before any is recognised as torn. *)
Theorem torn_character_refused rs r p q :
  ordered 0 (rs ++ [r]) → to_vec r = p ++ q → chars p = None →
  snd (run_all ((Append <$> rs) ++ [AppendUnsynced r; Crash (length (enc rs ++ p))]) new_wal) =
  repeat (Ok Done) (length rs) ++ [Ok Done; Err Io].
Proof.
  intros Ho E Hp. change new_wal with (full []). rewrite run_appends by (by apply (ordered_take _ _ (length rs)) in Ho; rewrite take_app_length in Ho).
  cbn [app run_all run]. destruct (ordered_mid _ _ _ Ho) as [Hr _]. destruct (unsynced_cut rs r p q Hr E) as (w & Ea & Ec).
  unfold mbind, sm_bind. rewrite Ea. unfold mret, sm_ret. rewrite Ec. unfold open.
  assert (p ≠ []) as Hne by (by intros ->). assert (q ≠ []) as Hq.
  { intros ->. rewrite app_nil_r in E. destruct (sl_utf8 serde r) as [? Hc]. rewrite E in Hc. congruence. }
  rewrite (scan_cut rs r p q); [|by apply (ordered_take _ _ (length rs)) in Ho; rewrite take_app_length in Ho|done..].
  rewrite bool_decide_false; [done|]. rewrite Hp. by intros [??].
Qed.

(** Reading a file in which two records share a line. *)
Lemma scan_joined rs r s n :
  ordered 0 rs → parse_index (to_vec r ++ to_vec s) = None →
  scan parse_index (mkFile (enc rs ++ to_vec r ++ to_vec s ++ [10]) n) = Ok (entries rs, true).
Proof.
  intros Ho Hj. unfold scan, lines. cbn [data]. destruct (sl_close serde s) as [l Hl]. set (x := to_vec r ++ to_vec s) in *.
  replace (enc rs ++ to_vec r ++ to_vec s ++ [10]) with (enc rs ++ x ++ [10]) by (unfold x; by rewrite <- app_assoc).
  assert (split_lines (enc rs ++ x ++ [10]) = ((to_vec <$> rs) ++ [x], [])) as ->.
  { induction rs as [|a rs IH]; cbn [enc mbind list_bind app].
    - rewrite split_lines_app; [done|]. unfold x. rewrite elem_of_app. by intros [?%(sl_newline serde)|?%(sl_newline serde)].
    - fold (enc rs). rewrite <- !app_assoc. cbn [app]. rewrite split_lines_app by apply serde. destruct Ho as [_ Ho]. rewrite IH; [done|].
      eapply ordered_weaken; [|done]. lia. }
  assert (strip_cr <$> ((to_vec <$> rs) ++ [x]) = (to_vec <$> rs) ++ [x]) as ->.
  { rewrite fmap_app. f_equal; [|unfold x; cbn; rewrite Hl, app_assoc; by rewrite strip_cr_brace]. rewrite <- list_fmap_compose.
    apply list_fmap_ext. intros i a _. simpl. destruct (sl_close serde a) as [? ->]. apply strip_cr_brace. }
  assert (is_Some (chars x)) as Hx.
  { destruct (sl_utf8 serde r) as [y Hy], (sl_utf8 serde s) as [z Hz]. unfold x. rewrite (chars_app _ _ _ Hy), Hz. by eexists. }
  rewrite app_nil_r, forallb_app. assert (forallb (λ x, bool_decide (is_Some (chars x))) (to_vec <$> rs) = true) as ->.
  { apply forallb_forall. intros a (b & <- & _)%in_map_iff. apply bool_decide_eq_true, serde. }
  simpl. rewrite bool_decide_true by done. cbn [andb mbind ok_or res_bind].
  assert (blank x = false) as Hb. { destruct (sl_open serde r) as [m Hm]. unfold x. rewrite Hm. apply blank_brace. }
  rewrite last_non_empty_snoc by done. rewrite scan_records by done. simpl. rewrite Hb, Hj.
  rewrite length_fmap, bool_decide_true by done. simpl. by rewrite app_nil_r, reverse_involutive.
Qed.

(** [open] of a torn file drops what is torn. *)
Lemma open_torn rs bytes :
  (∀ n, scan parse_index (mkFile bytes n) = Ok (entries rs, true)) → open parse_index bytes = Ok (full rs).
Proof.
  intros Hs. unfold open. rewrite Hs. cbn [mbind res_bind]. rewrite last_entries.
  unfold rewrite, mbind, sm_bind, sm_try, sm_reads, sm_modify, mret, sm_ret. cbn [file]. rewrite Hs. cbn [fst].
  rewrite (entries_filter (λ _, true)), List.forallb_filter_id by (by apply forallb_forall). rewrite entries_enc. unfold entries. by rewrite length_fmap.
Qed.

(** C35. A record that was synced can be lost.  A crash cuts off the newline of the
    last record, which was not synced; [open] takes that record for a whole one
    and leaves the file as it is.  The next record is appended to the same line,
    synced and acknowledged.  The two on one line are not a record: the next time
    the log is opened, after any crash or none, both are dropped as torn. *)
Theorem synced_record_lost rs r s n :
  ordered 0 (rs ++ [r; s]) → parse_index (to_vec r ++ to_vec s) = None →
  snd (run_all ((Append <$> rs) ++ [AppendUnsynced r; Crash (length (enc rs ++ to_vec r)); Replay; Append s; Crash n; Replay]) new_wal) =
  repeat (Ok Done) (length rs) ++ [Ok Done; Ok Done; Ok (Records (rs ++ [r])); Ok Done; Ok Done; Ok (Records rs)].
Proof.
  intros Ho Hj. destruct (ordered_mid _ _ _ Ho) as [Hr Ho1].
  assert (ordered 0 rs) as Ho0 by (apply (ordered_take _ _ (length rs)) in Ho; by rewrite take_app_length in Ho).
  assert (index r < index s) as Hs.
  { rewrite cons_middle, app_assoc in Ho. apply ordered_mid in Ho as [Ho _]. unfold top in Ho. by rewrite last_snoc in Ho. }
  change new_wal with (full []). rewrite run_appends by done. cbn [app run_all run].
  destruct (unsynced_cut rs r (to_vec r) []) as (w & Ea & Ec); [done|by rewrite app_nil_r|].
  unfold mbind, sm_bind. rewrite Ea. unfold mret, sm_ret. rewrite Ec. unfold open at 1. rewrite scan_unterminated by done. cbn [mbind res_bind].
  rewrite last_entries. unfold entries at 1. rewrite length_fmap. set (w1 := mkWal _ _ _ _).
  rewrite (replay_scanned (rs ++ [r]) w1 false) by (by apply scan_unterminated).
  unfold append, append_unsynced, sync, mbind, sm_bind, sm_reads, sm_modify. cbn [last_index w1]. unfold top at 1. rewrite last_snoc.
  assert ((index s <=? index r) = false) as -> by (by apply N.leb_gt). cbn [w1]. cbn.
  assert ((top (rs ++ [r]) <? index s) = true) as -> by (unfold top; rewrite last_snoc; by apply N.ltb_lt).
  unfold after_crash. cbn [file data durable sync_data write_all]. rewrite take_ge by lia.
  rewrite <- !app_assoc, (open_torn rs) by (intros; by apply scan_joined).
  rewrite (replay_scanned rs (full rs) false) by (by apply scan_whole). done.
Qed.

End spec.
(** ** An example

    A printer of records whose numbers are written in ones and whose command is
    the letter e with an acute accent, two bytes of UTF-8. *)

Definition toy_body (r : WalRecord ()) : list N :=
  123 :: repeat 49 (N.to_nat (index r)) ++ 44 :: repeat 49 (N.to_nat (term r)) ++ [195; 169].
Definition toy_vec (r : WalRecord ()) : list N := toy_body r ++ [125].

Fixpoint ones (l : list N) : N * list N :=
  match l with
  | [] => (0, [])
  | b :: m => if b =? 49 then let '(n, r) := ones m in (1 + n, r) else (0, l)
  end.

Definition toy_record (l : list N) : option (WalRecord ()) :=
  match l with
  | b :: l =>
      let '(i, l) := ones l in
      match l with
      | c :: l =>
          let '(t, l) := ones l in
          if (b =? 123) && (c =? 44) && bool_decide (l = [195; 169; 125]) then Some (mkRecord t i ()) else None
      | [] => None
      end
  | [] => None
  end.
Definition toy_index (l : list N) : option N := index <$> toy_record l.

Lemma ones_repeat n l : match l with b :: _ => b ≠ 49 | [] => True end → ones (repeat 49 n ++ l) = (N.of_nat n, l).
Proof.
  intros Hl. induction n as [|n IH]; [|cbn [repeat app ones]; rewrite IH; cbn [N.eqb]; f_equal; lia].
  simpl. destruct l as [|b l]; [done|]. simpl. by rewrite (proj2 (N.eqb_neq b 49)).
Qed.

Lemma ones_split l n r : ones l = (n, r) → ∃ m, l = repeat 49 m ++ r.
Proof.
  revert n r. induction l as [|b l IH]; intros n r; simpl; [intros [= _ <-]; by exists 0%nat|].
  destruct (N.eqb_spec b 49) as [->|_]; [|intros [= _ <-]; by exists 0%nat]. destruct (ones l) as [n' r'] eqn:E.
  intros [= _ <-]. destruct (IH _ _ eq_refl) as [m ->]. by exists (S m).
Qed.

Lemma toy_record_vec r : toy_record (toy_vec r) = Some r.
Proof.
  unfold toy_vec, toy_body, toy_record. cbn [app]. rewrite <- app_assoc. cbn [app]. rewrite ones_repeat by done.
  rewrite <- app_assoc. rewrite ones_repeat by done. rewrite bool_decide_true by done. cbn. destruct r as [t i []]. simpl. by rewrite !N2Nat.id.
Qed.

(** What parses ends in the only brace it has. *)
Lemma toy_record_brace l r : toy_record l = Some r → ∃ m, l = m ++ [125] ∧ 125 ∉ m.
Proof.
  unfold toy_record. destruct l as [|b l]; [done|]. destruct (ones l) as [i l1] eqn:E1. destruct l1 as [|c l1]; [done|].
  destruct (ones l1) as [t l2] eqn:E2. destruct (_ && _) eqn:Eb; [|done]. intros _.
  apply andb_true_iff in Eb as [[Hb Hc]%andb_true_iff Hl]. apply N.eqb_eq in Hb, Hc. apply bool_decide_eq_true in Hl. subst.
  apply ones_split in E1 as [m1 ->]. apply ones_split in E2 as [m2 ->].
  exists (123 :: repeat 49 m1 ++ 44 :: repeat 49 m2 ++ [195; 169]). split; [cbn [app]; do 2 (rewrite <- app_assoc; cbn [app]); done|].
  assert (∀ m, 125 ∉ repeat 49 m) as Hrep by (intros m Hm; apply list_elem_of_In, repeat_spec in Hm; done).
  rewrite not_elem_of_cons, not_elem_of_app, not_elem_of_cons, not_elem_of_app. split_and!; [done|apply Hrep|done|apply Hrep|set_solver].
Qed.

Lemma toy_body_spec r : 125 ∉ toy_body r ∧ 10 ∉ toy_body r ∧ is_Some (chars (toy_vec r)).
Proof.
  assert (∀ b m, b ≠ 49 → b ∉ repeat 49 m) as Hrep by (intros b m Hb Hm; apply list_elem_of_In, repeat_spec in Hm; done).
  assert (∀ m l, chars (repeat 49 m ++ l) = app (repeat 49 m) <$> chars l) as Hch.
  { intros m l. apply chars_app. induction m as [|m IH]; [done|]. simpl. by rewrite IH. }
  unfold toy_vec, toy_body. split_and!.
  - rewrite not_elem_of_cons, not_elem_of_app, not_elem_of_cons, not_elem_of_app. split_and!; [done|by apply Hrep|done|by apply Hrep|set_solver].
  - rewrite not_elem_of_cons, not_elem_of_app, not_elem_of_cons, not_elem_of_app. split_and!; [done|by apply Hrep|done|by apply Hrep|set_solver].
  - cbn [app chars]. rewrite <- app_assoc, Hch. cbn [app chars]. rewrite <- app_assoc, Hch. simpl. by eexists.
Qed.

Lemma toy_law : serde_law toy_vec toy_index toy_record.
Proof.
  split; intros r.
  - unfold toy_index. by rewrite toy_record_vec.
  - apply toy_record_vec.
  - apply toy_body_spec.
  - unfold toy_vec. rewrite not_elem_of_app. split; [apply toy_body_spec|set_solver].
  - by eexists.
  - by eexists.
  - intros p q E Hp Hq. unfold toy_index. destruct (toy_record p) as [s|] eqn:Es; [|done]. exfalso.
    destruct (toy_record_brace _ _ Es) as (m & -> & _). destruct q as [|b q _] using rev_ind; [done|].
    unfold toy_vec in E. rewrite app_assoc in E. apply app_inj_tail in E as [E _]. apply (proj1 (toy_body_spec r)). rewrite E. set_solver.
Qed.

Definition toy (i : N) : WalRecord () := mkRecord 1 i ().

Lemma wal_is_log_witness :
  let ops := [Append (toy 1); AppendUnsynced (toy 2); Crash 0; Replay] in
  snd (run_all toy_vec toy_index toy_record ops new_wal) = [Ok Done; Ok Done; Ok Done; Ok (Records [toy 1])] ∧
  ∃ l, log_run new_log ops l (snd (run_all toy_vec toy_index toy_record ops new_wal)).
Proof.
  intros ops. split; [by vm_compute|]. destruct (wal_is_log toy_vec toy_index toy_record toy_law ops) as (l & Hl & _).
  { split; [done|]. split; [done|]. split; [|by split]. split; [by eexists; vm_compute|]. left. by vm_compute. }
  by exists l.
Defined.

Lemma torn_character_refused_witness :
  snd (run_all toy_vec toy_index toy_record ([Append (toy 1)] ++ [AppendUnsynced (toy 2); Crash 14]) new_wal) = [Ok Done; Ok Done; Err Io].
Proof. exact (torn_character_refused toy_vec toy_index toy_record toy_law [toy 1] (toy 2) [123; 49; 49; 44; 49; 195] [169; 125] (conj eq_refl (conj eq_refl I)) eq_refl eq_refl). Defined.

Lemma synced_record_lost_witness :
  snd (run_all toy_vec toy_index toy_record
         ([] ++ [AppendUnsynced (toy 1); Crash 7; Replay; Append (toy 2); Crash 0; Replay]) new_wal) =
  [Ok Done; Ok Done; Ok (Records [toy 1]); Ok Done; Ok Done; Ok (Records [])].
Proof. exact (synced_record_lost toy_vec toy_index toy_record toy_law [] (toy 1) (toy 2) 0 (conj eq_refl (conj eq_refl I)) eq_refl). Defined.

End WalSpec.
