(* ===== verification/RaftLog.v ===== *)
(** * Logs and terms of a Raft cluster

    The history of a cluster: for every term that had a leader, the leader, who
    voted for it, the log it was elected with and the log it has reached; and what
    each node acknowledged.  The facts of the Raft paper are proved here of any
    history that is well formed: entries of the same index and term end equal logs,
    what a quorum acknowledged is in the log of every later leader, and any two
    committed logs are one a beginning of the other. *)

From S2P Require Import Prelude Membership Wal.

Module RaftLog.
Import Membership.
Import Wal.

Open Scope N_scope.

Section history.
Context {C : Type} (V : gset NodeId).
Abbreviation Entry := (WalRecord C).
Abbreviation M := (Stable V).
Implicit Types l : list Entry.

(** ** Logs *)

Definition len l : N := N.of_nat (length l).
Definition upto (i : N) l : list Entry := take (N.to_nat i) l.
Definition end_term l : N := match list.last l with Some e => term e | None => 0 end.

(** The entry at position [k] has index [k + 1]. *)
Definition numbered l : Prop := ∀ k e, l !! k = Some e → index e = N.of_nat k + 1.

(** Log [l] is at least as up to date as one that ends at [lli] in term [llt]. *)
Definition newer (lli llt : N) l : Prop := end_term l < llt ∨ (llt = end_term l ∧ len l ≤ lli).

Lemma len_upto i l : i ≤ len l → len (upto i l) = i.
Proof. unfold len, upto. rewrite length_take. lia. Qed.
Lemma upto_all i l : len l ≤ i → upto i l = l.
Proof. unfold len, upto. intros Hi. apply take_ge. lia. Qed.
Lemma upto_prefix i l : upto i l `prefix_of` l.
Proof. apply prefix_take. Qed.
Lemma prefix_len l l' : l `prefix_of` l' → len l ≤ len l'.
Proof. intros Hp%prefix_length. unfold len. lia. Qed.
Lemma prefix_upto l l' : l `prefix_of` l' → l = upto (len l) l'.
Proof. intros [k ->]. unfold upto, len. by rewrite Nat2N.id, take_app_length. Qed.
(** Two beginnings of a log: the shorter is a beginning of the longer. *)
Lemma prefix_shorter l1 l2 l : l1 `prefix_of` l → l2 `prefix_of` l → len l1 ≤ len l2 → l1 `prefix_of` l2.
Proof.
  intros H1 H2 Hle. destruct (prefix_weak_total _ _ _ H1 H2) as [|H3]; [done|].
  rewrite (prefix_length_eq l2 l1 H3); [done|]. unfold len in Hle. lia.
Qed.
Lemma upto_mono i j l : i ≤ j → upto i l `prefix_of` upto j l.
Proof.
  intros Hij. apply (prefix_shorter _ _ l); try apply upto_prefix. unfold len, upto. rewrite !length_take. lia.
Qed.
Lemma prefix_in_upto i l l' : l `prefix_of` l' → len l ≤ i → l `prefix_of` upto i l'.
Proof. intros Hp Hi. rewrite (prefix_upto _ _ Hp). by apply upto_mono. Qed.
Lemma upto_upto i j l : i ≤ j → upto i (upto j l) = upto i l.
Proof. intros Hij. unfold upto. rewrite take_take. f_equal. lia. Qed.
Lemma upto_of_prefix i l l' : l `prefix_of` l' → i ≤ len l → upto i l = upto i l'.
Proof. intros Hp Hi. rewrite (prefix_upto _ _ Hp), upto_upto; [done|lia]. Qed.
Lemma lookup_upto i k l : (k < N.to_nat i)%nat → upto i l !! k = l !! k.
Proof. intros Hk. by apply lookup_take_lt. Qed.

Lemma end_term_last l k e : l !! k = Some e → length l = Datatypes.S k → end_term l = term e.
Proof. intros He Hl. unfold end_term. rewrite last_lookup, Hl. simpl. by rewrite He. Qed.

(** ** Histories *)

Record Term := mkTerm { tm_leader : NodeId; tm_voters : gset NodeId; tm_first : list Entry; tm_log : list Entry }.

(** [acked u t i]: node [u] acknowledged the first [i] entries of the log of term [t]. *)
Record Hist := mkHist { terms : gmap N Term; acked : NodeId → N → N → Prop }.
Implicit Types h : Hist.

(** Every entry ends a beginning of the log of its term. *)
Definition coherent h l : Prop :=
  ∀ k e, l !! k = Some e → ∃ T, terms h !! term e = Some T ∧ take (Datatypes.S k) l `prefix_of` tm_log T.

Definition part h (t i : N) : list Entry := match terms h !! t with Some T => upto i (tm_log T) | None => [] end.

(** A leader between [t] and [b] was elected without the first [i] entries of term [t]. *)
Definition lost h (t i b : N) : Prop :=
  ∃ t' T, t < t' ∧ t' < b ∧ terms h !! t' = Some T ∧ ¬ part h t i `prefix_of` tm_first T.

(** The log [(lli, llt)] is that of a candidate that does not miss the entries. *)
Definition covered h (t i lli llt : N) : Prop := ∃ W, coherent h W ∧ part h t i `prefix_of` W ∧ newer lli llt W.

Record term_ok h (t : N) (T : Term) : Prop := {
  to_quorum : has_quorum M (tm_voters T) = true;
  to_leader : tm_leader T ∈ V;
  to_first : tm_first T `prefix_of` tm_log T;
  to_numbered : numbered (tm_log T);
  to_coherent : coherent h (tm_log T);
  to_older k e : tm_first T !! k = Some e → term e < t;
  to_own k e : (length (tm_first T) ≤ k)%nat → tm_log T !! k = Some e → term e = t;
  to_votes u t1 i : u ∈ tm_voters T → acked h u t1 i → t1 < t →
    covered h t1 i (len (tm_first T)) (end_term (tm_first T)) ∨ lost h t1 i t;
}.

Record hist_ok h : Prop := {
  ho_terms t T : terms h !! t = Some T → term_ok h t T;
  ho_acked u t i : acked h u t i → ∃ T, terms h !! t = Some T ∧ i ≤ len (tm_log T);
}.

(** A quorum acknowledged the entry [i] of term [t], which is of that term. *)
Definition chosen h (t i : N) : Prop :=
  ∃ T vs e, terms h !! t = Some T ∧ 0 < i ∧ tm_log T !! N.to_nat (i - 1) = Some e ∧ term e = t ∧
    has_quorum M vs = true ∧ ∀ u, u ∈ vs → acked h u t i.

(** [l] was committed in a term up to [b]. *)
Definition settled h (b : N) l : Prop := l = [] ∨ ∃ t i, chosen h t i ∧ t ≤ b ∧ l `prefix_of` part h t i.

(** ** Leader completeness *)

Section facts.
Context (h : Hist) (Hok : hist_ok h).

Lemma part_prefix t T i : terms h !! t = Some T → part h t i `prefix_of` tm_log T.
Proof. intros E. unfold part. rewrite E. apply upto_prefix. Qed.

(** The terms of a log do not decrease. *)
Lemma coherent_mono l j k e e' : coherent h l → l !! j = Some e → l !! k = Some e' → (j ≤ k)%nat → term e ≤ term e'.
Proof.
  intros Hc Hj Hk Hjk. destruct (Hc k e' Hk) as (T & HT & Hp). pose proof (ho_terms h Hok _ _ HT) as Ht.
  assert (tm_log T !! j = Some e) as He.
  { eapply prefix_lookup_Some; [|exact Hp]. by rewrite lookup_take_lt by lia. }
  destruct (decide (length (tm_first T) ≤ j)%nat) as [Hle|Hlt]; [by rewrite (to_own _ _ _ Ht j e)|].
  destruct (lookup_lt_is_Some_2 (tm_first T) j) as [e1 He1]; [lia|]. pose proof (prefix_lookup_Some _ _ _ _ He1 (to_first _ _ _ Ht)) as He2.
  rewrite He in He2. injection He2 as <-. apply (to_older _ _ _ Ht) in He1. lia.
Qed.

Lemma coherent_end l k e : coherent h l → l !! k = Some e → term e ≤ end_term l.
Proof.
  intros Hc Hk. pose proof (lookup_lt_Some _ _ _ Hk) as Hlt. destruct (lookup_lt_is_Some_2 l (length l - 1)%nat) as [e' He']; [lia|].
  rewrite (end_term_last l _ _ He') by lia. eapply coherent_mono; [done..|lia].
Qed.

(** A log is a beginning of the log of its last term. *)
Lemma coherent_whole l : coherent h l → l ≠ [] → ∃ T, terms h !! end_term l = Some T ∧ l `prefix_of` tm_log T.
Proof.
  intros Hc Hne. assert (length l ≠ 0%nat) as Hl by (by destruct l). destruct (lookup_lt_is_Some_2 l (length l - 1)%nat) as [e He]; [lia|].
  destruct (Hc _ _ He) as (T & HT & Hp). exists T. rewrite (end_term_last l _ _ He) by lia. split; [done|]. by rewrite take_ge in Hp by lia.
Qed.

(** A log that ends in a term of its own starts with the log that leader had. *)
Lemma ends_after_first l T : coherent h l → l ≠ [] → terms h !! end_term l = Some T → tm_first T `prefix_of` l.
Proof.
  intros Hc Hne HT. destruct (coherent_whole l Hc Hne) as (T' & HT' & Hp). rewrite HT in HT'. injection HT' as <-.
  pose proof (ho_terms h Hok _ _ HT) as Ht. apply (prefix_shorter _ _ _ (to_first _ _ _ Ht) Hp). unfold len.
  destruct (decide (length (tm_first T) ≤ length l)%nat) as [|Hgt]; [lia|]. exfalso.
  assert (length l ≠ 0%nat) by (by destruct l). destruct (lookup_lt_is_Some_2 l (length l - 1)%nat) as [e He]; [lia|].
  assert (tm_first T !! (length l - 1)%nat = Some e) as He1.
  { destruct (lookup_lt_is_Some_2 (tm_first T) (length l - 1)%nat) as [e1 He1]; [lia|]. rewrite He1. f_equal.
    pose proof (prefix_lookup_Some _ _ _ _ He1 (to_first _ _ _ Ht)). pose proof (prefix_lookup_Some _ _ _ _ He Hp). congruence. }
  apply (to_older _ _ _ Ht) in He1. rewrite (end_term_last l _ _ He) in He1 by lia. lia.
Qed.

Lemma coherent_first t T : terms h !! t = Some T → coherent h (tm_first T).
Proof.
  intros HT k e Hk. pose proof (ho_terms h Hok _ _ HT) as Ht. pose proof (to_first _ _ _ Ht) as Hf.
  pose proof (prefix_lookup_Some _ _ _ _ Hk Hf) as Hk'. destruct (to_coherent _ _ _ Ht _ _ Hk') as (T' & HT' & Hp).
  exists T'. split; [done|]. destruct Hf as [l' E]. rewrite E, take_app_le in Hp; [done|]. apply lookup_lt_Some in Hk. lia.
Qed.

(** A candidate that does not miss the entries of a log it is newer than. *)
Lemma covered_first t i t' T' :
  terms h !! t' = Some T' → 
  (∀ t1 T1, t < t1 → t1 < t' → terms h !! t1 = Some T1 → part h t i `prefix_of` tm_first T1) →
  (∃ e, part h t i !! N.to_nat (i - 1) = Some e ∧ term e = t) →
  covered h t i (len (tm_first T')) (end_term (tm_first T')) → part h t i `prefix_of` tm_first T'.
Proof.
  intros HT' IH (e & He & Et) (W & HW & Hp & Hn). pose proof (ho_terms h Hok _ _ HT') as Ht.
  assert (t ≤ end_term W) as Hw.
  { rewrite <- Et. eapply coherent_end; [done|]. by eapply prefix_lookup_Some. }
  assert (tm_first T' ≠ []) as Hne.
  { intros E. rewrite E in Hn. destruct Hn as [Hn|[E1 Hn]]; [unfold end_term in Hn at 2; simpl in Hn; lia|].
    assert (W = []) as -> by (destruct W; [done|unfold len in Hn; simpl in Hn; lia]). apply prefix_nil_inv in Hp. by rewrite Hp in He. }
  pose proof (coherent_first t' T' HT') as Hc. destruct (coherent_whole _ Hc Hne) as (T1 & HT1 & Hp1).
  assert (end_term (tm_first T') < t') as Hlt.
  { assert (length (tm_first T') ≠ 0%nat) by (by destruct (tm_first T')).
    destruct (lookup_lt_is_Some_2 (tm_first T') (length (tm_first T') - 1)%nat) as [e1 He1]; [lia|].
    rewrite (end_term_last _ _ _ He1) by lia. by eapply to_older. }
  destruct Hn as [Hn|[E1 Hn]].
  - etrans; [|by eapply ends_after_first]. eapply IH; [|exact Hlt|exact HT1]. lia.
  - assert (W ≠ []) as HWne by (intros ->; apply prefix_nil_inv in Hp; by rewrite Hp in He).
    destruct (coherent_whole W HW HWne) as (T2 & HT2 & Hp2). rewrite E1, HT2 in HT1. injection HT1 as <-.
    etrans; [exact Hp|]. by eapply prefix_shorter.
Qed.

Lemma chosen_entry t i : chosen h t i → ∃ e, part h t i !! N.to_nat (i - 1) = Some e ∧ term e = t.
Proof.
  intros (T & vs & e & HT & Hi & He & Et & _). exists e. split; [|done]. unfold part. rewrite HT, lookup_upto by lia. done.
Qed.

Lemma leader_complete t i t' T' : chosen h t i → t < t' → terms h !! t' = Some T' → part h t i `prefix_of` tm_first T'.
Proof.
  intros Hch. revert T'. induction (N.lt_wf_0 t') as [t' _ IH]. intros T' Hlt HT'.
  assert (∀ t1 T1, t < t1 → t1 < t' → terms h !! t1 = Some T1 → part h t i `prefix_of` tm_first T1) as IH'.
  { intros t1 T1 H1 H2 H3. by eapply IH. }
  pose proof (chosen_entry t i Hch) as He. destruct Hch as (T & vs & e & HT & Hi & _ & _ & Hq & Ha).
  pose proof (ho_terms h Hok _ _ HT') as Ht. destruct (has_quorum_intersect M _ _ Hq (to_quorum _ _ _ Ht)) as (u & _ & Hu & Hu').
  destruct (to_votes _ _ _ Ht u t i Hu' (Ha u Hu) Hlt) as [Hc|(t1 & T1 & H1 & H2 & H3 & H4)]; [by eapply covered_first|].
  destruct H4. by eapply IH'.
Qed.

Lemma leader_complete_log t i t' T' : chosen h t i → t ≤ t' → terms h !! t' = Some T' → part h t i `prefix_of` tm_log T'.
Proof.
  intros Hch Hle HT'. destruct (decide (t = t')) as [<-|Hne]; [by apply part_prefix|].
  etrans; [eapply leader_complete; [done| |done]; lia|]. by eapply to_first, ho_terms.
Qed.

(** What is committed is in the log of every later leader. *)
Lemma settled_log b l t T : settled h b l → b ≤ t → terms h !! t = Some T → l `prefix_of` tm_log T.
Proof.
  intros [->|(t1 & i & Hch & Ht1 & Hp)] Hb HT; [apply prefix_nil|]. etrans; [exact Hp|]. eapply leader_complete_log; [done| |done]. lia.
Qed.

Lemma settled_total b l b' l' : settled h b l → settled h b' l' → l `prefix_of` l' ∨ l' `prefix_of` l.
Proof.
  intros [->|(t & i & Hch & _ & Hp)]; [left; apply prefix_nil|]. intros [->|(t' & i' & Hch' & _ & Hp')]; [right; apply prefix_nil|].
  pose proof Hch as (T & _ & _ & HT & _). pose proof Hch' as (T' & _ & _ & HT' & _).
  destruct (decide (t ≤ t')) as [Hle|Hgt].
  - apply (prefix_weak_total l l' (tm_log T')).
    + etrans; [exact Hp|]. by eapply leader_complete_log.
    + etrans; [exact Hp'|]. by apply part_prefix.
  - apply (prefix_weak_total l l' (tm_log T)).
    + etrans; [exact Hp|]. by apply part_prefix.
    + etrans; [exact Hp'|]. eapply leader_complete_log; [done| |done]. lia.
Qed.

Lemma settled_same b l b' l' : settled h b l → settled h b' l' → len l = len l' → l = l'.
Proof.
  intros Hl Hl' E. unfold len in E. destruct (settled_total _ _ _ _ Hl Hl') as [Hp|Hp]; [|symmetry]; apply prefix_length_eq; try done; lia.
Qed.

Lemma settled_mono b b' l l' : settled h b l → b ≤ b' → l' `prefix_of` l → settled h b' l'.
Proof.
  intros [->|(t & i & Hch & Ht & Hp)] Hb Hl; [left; by apply prefix_nil_inv|]. right. exists t, i. split_and!; [done|lia|by etrans].
Qed.

Lemma settled_coherent b l : settled h b l → coherent h l ∧ numbered l.
Proof.
  intros [->|(t & i & (T & _ & _ & HT & _) & _ & Hp)]; [done|]. pose proof (ho_terms h Hok _ _ HT) as Ht.
  assert (l `prefix_of` tm_log T) as Hl by (etrans; [exact Hp|by apply part_prefix]). split.
  - intros k e Hk. pose proof (prefix_lookup_Some _ _ _ _ Hk Hl) as Hk'. destruct (to_coherent _ _ _ Ht _ _ Hk') as (T' & HT' & Hp').
    exists T'. split; [done|]. destruct Hl as [l' E]. rewrite E, take_app_le in Hp'; [done|]. apply lookup_lt_Some in Hk. lia.
  - intros k e Hk. eapply to_numbered; [done|]. by eapply prefix_lookup_Some.
Qed.

(** Logs with an entry of the same index and term are equal up to it. *)
Lemma same_entry l l' k e e' :
  coherent h l → coherent h l' → l !! k = Some e → l' !! k = Some e' → term e = term e' → take (Datatypes.S k) l = take (Datatypes.S k) l'.
Proof.
  intros Hc Hc' Hk Hk' Et. destruct (Hc _ _ Hk) as (T & HT & Hp). destruct (Hc' _ _ Hk') as (T' & HT' & Hp').
  rewrite Et, HT' in HT. injection HT as <-. pose proof (lookup_lt_Some _ _ _ Hk). pose proof (lookup_lt_Some _ _ _ Hk').
  apply prefix_length_eq; [|rewrite !length_take; lia]. apply (prefix_shorter _ _ _ Hp Hp'). unfold len. rewrite !length_take. lia.
Qed.

Lemma coherent_prefix l l' : l `prefix_of` l' → coherent h l' → coherent h l.
Proof.
  intros Hl Hc k e Hk. pose proof (prefix_lookup_Some _ _ _ _ Hk Hl) as Hk'. destruct (Hc _ _ Hk') as (T' & HT' & Hp').
  exists T'. split; [done|]. destruct Hl as [l2 E]. rewrite E, take_app_le in Hp'; [done|]. apply lookup_lt_Some in Hk. lia.
Qed.

(** Whether a log starts another is decided by the term of its last entry. *)
Lemma coherent_prefix_dec l l' : coherent h l → coherent h l' → l `prefix_of` l' ∨ ¬ l `prefix_of` l'.
Proof.
  intros Hc Hc'. destruct (decide (l = [])) as [->|Hne]; [left; apply prefix_nil|].
  assert (length l ≠ 0%nat) as Hl by (by destruct l). destruct (lookup_lt_is_Some_2 l (length l - 1)%nat) as [e He]; [lia|].
  destruct (l' !! (length l - 1)%nat) as [e'|] eqn:He'.
  - destruct (decide (term e = term e')) as [Et|Hn].
    + left. pose proof (same_entry _ _ _ _ _ Hc Hc' He He' Et) as E. rewrite (take_ge l) in E by lia. rewrite E. apply prefix_take.
    + right. intros Hp. pose proof (prefix_lookup_Some _ _ _ _ He Hp). congruence.
  - right. intros Hp. pose proof (prefix_lookup_Some _ _ _ _ He Hp). congruence.
Qed.

End facts.

(** ** Growth *)

(** Node [v] extends the history: logs of terms it leads, its acknowledgements,
    and new terms of which [fresh] holds. *)
Record grows (fresh : N → NodeId → gset NodeId → list Entry → Prop) (v : NodeId) h h' : Prop := {
  gr_old t T : terms h !! t = Some T →
    ∃ T', terms h' !! t = Some T' ∧ tm_leader T' = tm_leader T ∧ tm_voters T' = tm_voters T ∧ tm_first T' = tm_first T ∧
      tm_log T `prefix_of` tm_log T' ∧ (tm_leader T ≠ v → T' = T);
  gr_new t T' : terms h !! t = None → terms h' !! t = Some T' → fresh t (tm_leader T') (tm_voters T') (tm_first T');
  gr_acked u t i : acked h u t i → acked h' u t i;
  gr_other u t i : u ≠ v → acked h' u t i → acked h u t i;
}.

Lemma grows_refl fresh v h : grows fresh v h h.
Proof. split; try done; [|congruence]. intros t T HT. by exists T. Qed.

Definition valid h (t i : N) : Prop := ∃ T, terms h !! t = Some T ∧ i ≤ len (tm_log T).

Section growth.
Context (fresh : N → NodeId → gset NodeId → list Entry → Prop) (v : NodeId) (h h' : Hist) (Hg : grows fresh v h h').

Lemma part_grows t i : valid h t i → part h' t i = part h t i.
Proof.
  intros (T & HT & Hi). destruct (gr_old _ _ _ _ Hg t T HT) as (T' & HT' & _ & _ & _ & Hp & _). unfold part. rewrite HT, HT'.
  symmetry. by apply upto_of_prefix.
Qed.

Lemma valid_grows t i : valid h t i → valid h' t i.
Proof.
  intros (T & HT & Hi). destruct (gr_old _ _ _ _ Hg t T HT) as (T' & HT' & _ & _ & _ & Hp & _). exists T'. split; [done|].
  pose proof (prefix_len _ _ Hp). lia.
Qed.

Lemma coherent_grows l : coherent h l → coherent h' l.
Proof.
  intros Hc k e Hk. destruct (Hc k e Hk) as (T & HT & Hp). destruct (gr_old _ _ _ _ Hg _ T HT) as (T' & HT' & _ & _ & _ & Hp' & _).
  exists T'. split; [done|by etrans].
Qed.

Lemma lost_grows t i b : valid h t i → lost h t i b → lost h' t i b.
Proof.
  intros Hv (t' & T & H1 & H2 & HT & Hn). destruct (gr_old _ _ _ _ Hg _ T HT) as (T' & HT' & _ & _ & E & _).
  exists t', T'. rewrite E, part_grows by done. done.
Qed.

Lemma covered_grows t i lli llt : valid h t i → covered h t i lli llt → covered h' t i lli llt.
Proof.
  intros Hv (W & Hc & Hp & Hn). exists W. rewrite part_grows by done. split; [by apply coherent_grows|done].
Qed.

Lemma chosen_grows t i : chosen h t i → chosen h' t i.
Proof.
  intros (T & vs & e & HT & Hi & He & Et & Hq & Ha). destruct (gr_old _ _ _ _ Hg _ T HT) as (T' & HT' & _ & _ & _ & Hp & _).
  exists T', vs, e. split_and!; try done; [by eapply prefix_lookup_Some|]. intros u Hu. by apply (gr_acked _ _ _ _ Hg), Ha.
Qed.

Lemma settled_grows b l : settled h b l → settled h' b l.
Proof.
  intros [->|(t & i & Hch & Hb & Hp)]; [by left|]. right. exists t, i. split; [by apply chosen_grows|]. split; [done|].
  destruct Hch as (T & _ & e & HT & Hi & He & _). rewrite part_grows; [done|]. exists T. split; [done|]. apply lookup_lt_Some in He.
  unfold len. lia.
Qed.

End growth.

Lemma grows_trans fresh v h1 h2 h3 : grows fresh v h1 h2 → grows fresh v h2 h3 → grows fresh v h1 h3.
Proof.
  intros [A1 A2 A3 A4] [B1 B2 B3 B4]. split; auto.
  - intros t T HT. destruct (A1 t T HT) as (T2 & HT2 & E1 & E2 & E3 & Hp & Hn). destruct (B1 t T2 HT2) as (T3 & HT3 & F1 & F2 & F3 & Hp' & Hn').
    exists T3. split_and!; [done|congruence..| |]; [by etrans|]. intros Hv. rewrite Hn' by congruence. auto.
  - intros t T' H1 H3. destruct (terms h2 !! t) as [T2|] eqn:H2; [|by apply (B2 t T')].
    destruct (B1 t T2 H2) as (T3 & HT3 & E1 & E2 & E3 & _). rewrite H3 in HT3. injection HT3 as <-. rewrite E1, E2, E3. by apply (A2 t T2).
Qed.

Lemma grows_weaken (fresh fresh' : N → NodeId → gset NodeId → list Entry → Prop) v h h' :
  (∀ t c vs l, fresh t c vs l → fresh' t c vs l) → grows fresh v h h' → grows fresh' v h h'.
Proof. intros Hf []. split; auto. Qed.

(** A term keeps its shape when the rest of the history grows. *)
Lemma term_ok_grows fresh v h h' t T :
  hist_ok h → grows fresh v h h' → (∀ u t i, acked h' u t i → acked h u t i) → term_ok h t T → term_ok h' t T.
Proof.
  intros Hok Hg Ha []. split; try done; [by eapply coherent_grows|]. intros u t1 i Hu Hack Hlt. apply Ha in Hack.
  pose proof (ho_acked h Hok _ _ _ Hack) as Hv. destruct (to_votes0 u t1 i Hu Hack Hlt); [left; by eapply covered_grows|right; by eapply lost_grows].
Qed.

(** The leader of [t] appends [e]. *)
Definition add_entry (t : N) (T : Term) (e : Entry) h : Hist :=
  mkHist (<[t := mkTerm (tm_leader T) (tm_voters T) (tm_first T) (tm_log T ++ [e])]> (terms h)) (acked h).

Lemma add_entry_grows t T e h : terms h !! t = Some T → grows (λ _ _ _ _, False) (tm_leader T) h (add_entry t T e h).
Proof.
  intros HT. split; simpl; try done.
  - intros t' T' HT'. destruct (decide (t' = t)) as [->|Hne]; [|exists T'; by rewrite lookup_insert_ne by done].
    rewrite HT in HT'. injection HT' as <-. rewrite lookup_insert_eq. eexists. split; [done|]. simpl. split_and!; try done. by apply prefix_app_r.
  - intros t' T' Hn Hs. apply lookup_insert_Some in Hs as [[<- _]|[_ Hs]]; congruence.
Qed.

Lemma add_entry_ok t T e h :
  hist_ok h → terms h !! t = Some T → term e = t → index e = len (tm_log T) + 1 → hist_ok (add_entry t T e h).
Proof.
  intros Hok HT Et Ei. pose proof (add_entry_grows t T e h HT) as Hg. pose proof (ho_terms h Hok _ _ HT) as Ht. split.
  - intros t' T' HT'. cbn in HT'. apply lookup_insert_Some in HT' as [[<- <-]|[Hne HT']]; [|eapply term_ok_grows; [done..|by apply Hok]].
    assert (term_ok (add_entry t T e h) t T) as [] by (by eapply term_ok_grows).
    split; simpl; try done; [by apply prefix_app_r| | |].
    + intros k x [Hx|[Hk [Hk' <-]%list_lookup_singleton_Some]]%lookup_app_Some; [by apply to_numbered0|].
      unfold len in Ei. rewrite Ei. lia.
    + intros k x [Hx|[Hk Hx]]%lookup_app_Some.
      * destruct (to_coherent0 k x Hx) as (T1 & HT1 & Hp). exists T1. split; [done|]. rewrite take_app_le; [done|].
        apply lookup_lt_Some in Hx. lia.
      * apply list_lookup_singleton_Some in Hx as [Hk' <-]. rewrite Et. eexists. split; [apply lookup_insert_eq|]. simpl. apply prefix_take.
    + intros k x Hk [Hx|[Hk' [_ <-]%list_lookup_singleton_Some]]%lookup_app_Some; [by eapply to_own0|done].
  - intros u t' i Ha. eapply valid_grows; [done|]. by apply (ho_acked h Hok u).
Qed.

(** A new term. *)
Definition elect (t : N) (c : NodeId) (vs : gset NodeId) (l : list Entry) h : Hist :=
  mkHist (<[t := mkTerm c vs l l]> (terms h)) (acked h).

Lemma elect_grows fresh t c vs l h : terms h !! t = None → fresh t c vs l → grows fresh c h (elect t c vs l h).
Proof.
  intros HN Hf. split; simpl; try done.
  - intros t' T' HT'. exists T'. rewrite lookup_insert_ne by congruence. done.
  - intros t' T' Hn Hs. apply lookup_insert_Some in Hs as [[<- <-]|[_ Hs]]; [done|congruence].
Qed.

Lemma elect_ok t c vs l h :
  hist_ok h → terms h !! t = None → has_quorum M vs = true → c ∈ V → numbered l → coherent h l → (∀ e, e ∈ l → term e < t) →
  (∀ u t1 i, u ∈ vs → acked h u t1 i → t1 < t → covered h t1 i (len l) (end_term l) ∨ lost h t1 i t) →
  hist_ok (elect t c vs l h).
Proof.
  intros Hok HN Hq Hc Hnum Hcoh Hold Hv. pose proof (elect_grows (λ _ _ _ _, True) t c vs l h HN I) as Hg. split.
  - intros t' T' HT'. cbn in HT'. apply lookup_insert_Some in HT' as [[<- <-]|[Hne HT']]; [|eapply term_ok_grows; [done..|by apply Hok]].
    split; simpl; try done.
    + by eapply coherent_grows.
    + intros k e He. by eapply Hold, list_elem_of_lookup_2.
    + intros k e Hk He. apply lookup_lt_Some in He. lia.
    + intros u t1 i Hu Ha Hlt. pose proof (ho_acked h Hok _ _ _ Ha) as Hval.
      destruct (Hv u t1 i Hu Ha Hlt); [left; by eapply covered_grows|right; by eapply lost_grows].
  - intros u t' i Ha. eapply valid_grows; [done|]. by apply (ho_acked h Hok u).
Qed.

(** Node [v] acknowledges what [P] says. *)
Definition acknowledge (v : NodeId) (P : N → N → Prop) h : Hist := mkHist (terms h) (λ u t i, acked h u t i ∨ (u = v ∧ P t i)).

Lemma acknowledge_grows v P h : grows (λ _ _ _ _, False) v h (acknowledge v P h).
Proof. split; simpl; [|congruence|by left|naive_solver]. intros t T HT. by exists T. Qed.

Lemma acknowledge_ok v P h :
  hist_ok h → (∀ t i, P t i → valid h t i) →
  (∀ t1 i t T, P t1 i → terms h !! t = Some T → v ∈ tm_voters T → t1 < t →
    covered h t1 i (len (tm_first T)) (end_term (tm_first T)) ∨ lost h t1 i t) →
  hist_ok (acknowledge v P h).
Proof.
  intros Hok Hval HP. split.
  - intros t T HT. destruct (ho_terms h Hok t T HT). split; try done. simpl. intros u t1 i Hu [Ha|[-> Hpi]] Hlt; [by eapply to_votes0|by eapply HP].
  - intros u t i [Ha|[-> Hpi]]; [by apply (ho_acked h Hok u)|by apply Hval].
Qed.

End history.
End RaftLog.
