(* ===== verification/RaftMachine.v ===== *)
(** * What Raft needs of the state machine ([metadata.rs], [raft_snapshot.rs])

    The operations of the catalog and of snapshot transfers that [raft.rs] calls,
    and the laws its correctness rests on.  [RaftSnapshot.v] gives the instance for
    the catalog. *)

From S2P Require Import Prelude Membership.

Open Scope N_scope.

(** [S] is the state. *)
Class Machine (S : Type) := {
  m_command : Type;
  m_error : Type;
  m_apply : N → N → m_command → S → S * res m_error ();
  m_apply_committed : N → N → m_command → S → S * res m_error ();
  m_applied : S → N;
  m_term : S → N;
  m_membership : S → option Membership.Membership;
  m_addrs : S → gmap string string;
  m_empty : S;
  m_noop : m_command;
  m_change : Membership.Membership → gmap string string → m_command;
  (** The arguments of a membership change; [None] for other commands. *)
  m_changes : m_command → option (Membership.Membership * gmap string string);
  (** A snapshot in chunks, and what follows the chunk in flight. *)
  x_chunk : Type;
  x_cursor : Type;
  (** [Outgoing::start]: the header and what follows it. *)
  x_start : S → x_chunk * x_cursor;
  (** [Outgoing::advance]; [None] when nothing follows. *)
  x_advance : S → x_cursor → res m_error (option (x_chunk * x_cursor));
  x_is_done : x_chunk → bool;
  (** The catalog of a header chunk. *)
  x_header : x_chunk → option S;
  (** [Incoming::stage] on the catalog staged so far; [None] is an I/O error. *)
  x_stage : x_chunk → S → option S;
}.

(** ** Transfers *)

Section transfer.
Context {S : Type} `{Machine S}.

(** The chunk of number [q] of a transfer of [s], and what follows it. *)
Inductive chunk_at (s : S) : N → x_chunk → x_cursor → Prop :=
| chunk_first x k : x_start s = (x, k) → chunk_at s 0 x k
| chunk_next q x k x' k' :
    chunk_at s q x k → x_is_done x = false → x_advance s k = Ok (Some (x', k')) → chunk_at s (q + 1) x' k'.

(** What a follower has staged after chunk [q]. *)
Inductive staged_at (s : S) : N → S → Prop :=
| staged_first x k p : x_start s = (x, k) → x_header x = Some p → staged_at s 0 p
| staged_next q x k p p' :
    staged_at s q p → chunk_at s (q + 1) x k → x_is_done x = false → x_stage x p = Some p' → staged_at s (q + 1) p'.

Lemma chunk_at_inv s q x k :
  chunk_at s q x k →
  match q with
  | 0 => x_start s = (x, k)
  | _ => ∃ x0 k0, chunk_at s (q - 1) x0 k0 ∧ x_is_done x0 = false ∧ x_advance s k0 = Ok (Some (x, k))
  end.
Proof.
  intros [|q' x0 k0 x1 k1 Hc Hd E]; [done|]. destruct (q' + 1) as [|q1] eqn:Eq; [lia|]. exists x0, k0.
  replace (N.pos q1 - 1) with q' by lia. done.
Qed.

Lemma chunk_at_fun s q x k x' k' : chunk_at s q x k → chunk_at s q x' k' → x = x' ∧ k = k'.
Proof.
  intros Hc. revert x' k'. induction Hc as [x k E|q x k x1 k1 Hc IH Hd E]; intros x' k' Hc'%chunk_at_inv.
  - rewrite E in Hc'. by injection Hc' as -> ->.
  - destruct (q + 1) as [|q1] eqn:Eq; [lia|]. destruct Hc' as (x0 & k0 & Hc0 & _ & E0). replace (N.pos q1 - 1) with q in Hc0 by lia.
    destruct (IH _ _ Hc0) as [-> ->]. rewrite E in E0. by injection E0 as -> ->.
Qed.

End transfer.

(** A committed command moves the applied index to its own and, whether it is
    rejected or not, records its term; only a membership change touches the
    membership; one that was accepted does not panic when it comes again.  The empty state has applied nothing.  The first chunk of a
    snapshot is a header with the index, term and membership of the state, which
    staging the other chunks keeps; what is staged when the end comes is the state,
    if commands produced it. *)
Class MachineLaws (S : Type) `{Machine S} := {
  ml_committed t i c (s s' : S) r :
    m_applied s < i → m_apply_committed t i c s = (s', r) → r ≠ Panic → m_applied s' = i ∧ m_term s' = t;
  ml_plain t i c (s s' : S) r :
    m_changes c = None → m_apply_committed t i c s = (s', r) → m_membership s' = m_membership s;
  ml_empty : m_applied (m_empty : S) = 0 ∧ m_term (m_empty : S) = 0 ∧ m_membership (m_empty : S) = None;
  (** A command that was accepted may come again. *)
  ml_again t i c (s s' s'' : S) : m_apply t i c s = (s', Ok ()) → m_apply_committed t i c s' ≠ (s'', Panic);
  ml_noop : m_changes m_noop = None;
  ml_change m a : m_changes (m_change m a) = Some (m, a);
  ml_start (s : S) x k h : x_start s = (x, k) → x_header x = Some h →
    m_applied h = m_applied s ∧ m_term h = m_term s ∧ m_membership h = m_membership s;
  ml_advance (s : S) k x k' : x_advance s k = Ok (Some (x, k')) → x_header x = None;
  ml_advance_ends (s : S) k : x_advance s k ≠ Panic;
  ml_stage x (s s' : S) : x_stage x s = Some s' →
    m_applied s' = m_applied s ∧ m_term s' = m_term s ∧ m_membership s' = m_membership s;
  (** What a state that commands produce satisfies. *)
  m_wf : S → Prop;
  ml_wf_empty : m_wf m_empty;
  ml_wf t i c (s s' : S) r : m_wf s → m_apply_committed t i c s = (s', r) → m_wf s';
  ml_transfer (s : S) q p x k : m_wf s → staged_at s q p → chunk_at s (q + 1) x k → x_is_done x = true → p = s;
}.
