(* ===== verification/Raft.v ===== *)
(** * Raft ([raft.rs])

    The whole of [RaftNode]: elections with pre-vote and check-quorum, log
    replication, commit, compaction, snapshot installation, membership changes and
    read barriers.  The write-ahead log is the list of records of [WalSpec.v]; the
    catalog store is the state last checkpointed; the vote file is the state last
    written.  Terms, indexes, ticks and counters are unbounded.  Disk operations
    do not fail.  Event counters for operators are left out. *)

From S2P Require Import Prelude Membership Wal WalSpec RaftMachine.

Module Raft.
Import Membership.
Import Wal WalSpec.

Open Scope N_scope.

Abbreviation NodeId := string.

Section raft.
Context {S : Type} `{Machine S}.

Abbreviation C := m_command.
Abbreviation X := x_chunk.
Abbreviation Entry := (WalRecord C).

(** ** Data *)

Inductive RaftError :=
| RWal (e : WalError)
| NotLeader (leader : option NodeId)
| Rejected (e : m_error)
| Config
| Inconsistent
| MembershipBusy
| RIo.

Record RaftConfig := mkConfig {
  cid : NodeId;
  cpeers : list NodeId;
  bootstrap : option (list NodeId);
  election_ticks : N * N;
  heartbeat_ticks : N;
  max_batch : nat;
  compact_after : N;
}.

Inductive Role := Follower | PreCandidate | Candidate | Leader.

Inductive Message :=
| PreVote (term last_log_index last_log_term : N)
| PreVoteResponse (term : N) (granted : bool)
| RequestVote (term last_log_index last_log_term : N)
| RequestVoteResponse (term : N) (granted : bool)
| AppendEntries (term prev_log_index prev_log_term : N) (entries : list Entry) (leader_commit read_seq : N)
| AppendEntriesResponse (term : N) (success : bool) (match_index read_seq : N)
| InstallSnapshot (term index seq : N) (chunk : X)
| InstallSnapshotResponse (term match_index : N) (ack : option N)
| ReadIndex (term id : N)
| ReadIndexResponse (term id : N) (index : option N).

Definition msg_term (m : Message) : N :=
  match m with
  | PreVote t _ _ | PreVoteResponse t _ | RequestVote t _ _ | RequestVoteResponse t _
  | AppendEntries t _ _ _ _ _ | AppendEntriesResponse t _ _ _ | InstallSnapshot t _ _ _
  | InstallSnapshotResponse t _ _ | ReadIndex t _ | ReadIndexResponse t _ _ => t
  end.

Record Envelope := mkEnv { from : NodeId; to : NodeId; msg : Message }.

Record HardState := mkHard { hterm : N; voted_for : option NodeId }.
#[export] Instance eta_HardState : Eta HardState := λ h, mkHard (hterm h) (voted_for h).

Record PendingRead := mkRead { p_seq : N; p_index : N; p_from : option NodeId; p_id : N; p_acks : gset NodeId }.

(** [Outgoing]: the transfer to one follower. *)
Record Outgoing := mkOut { o_index : N; o_seq : N; o_sent_at : N; o_chunk : X; o_state : S; o_next : x_cursor }.
(** [Incoming]: the transfer being staged. *)
Record Incoming := mkIn { in_index : N; in_seq : N; in_state : S }.

Record RaftNode := mkNode {
  cfg : RaftConfig;
  membership : Membership;
  initial : Membership;
  role : Role;
  hard : HardState;
  leader : option NodeId;
  log : list Entry;
  snapshot_index : N;
  snapshot_term : N;
  commit_index : N;
  catalog : S;
  spec : option S;
  wal : Log (T := C);
  stored : S;
  hard_file : HardState;
  votes : gset NodeId;
  next_index : gmap NodeId N;
  match_index : gmap NodeId N;
  recent_active : gset NodeId;
  check_quorum_elapsed : N;
  election_elapsed : N;
  election_timeout : N;
  heartbeat_elapsed : N;
  ticks : N;
  outgoing : gmap NodeId Outgoing;
  incoming : option Incoming;
  rng : N;
  outbox : list Envelope;
  read_seq : N;
  pending_reads : list PendingRead;
  next_read_id : N;
  read_results : gmap N (option N);
}.
#[export] Instance eta_RaftNode : Eta RaftNode := λ n,
  mkNode (cfg n) (membership n) (initial n) (role n) (hard n) (leader n) (log n) (snapshot_index n) (snapshot_term n)
    (commit_index n) (catalog n) (spec n) (wal n) (stored n) (hard_file n) (votes n) (next_index n) (match_index n)
    (recent_active n) (check_quorum_elapsed n) (election_elapsed n) (election_timeout n) (heartbeat_elapsed n) (ticks n)
    (outgoing n) (incoming n) (rng n) (outbox n) (read_seq n) (pending_reads n) (next_read_id n) (read_results n).

#[export] Instance Role_eq_dec : EqDecision Role.
Proof. solve_decision. Defined.

Abbreviation R := (SM RaftNode RaftError).

Definition has_role (n : RaftNode) (r : Role) : bool := bool_decide (role n = r).
Definition my_id (n : RaftNode) : NodeId := cid (cfg n).

(** ** The log *)

Definition last_index (n : RaftNode) : N :=
  match list.last (log n) with Some e => index e | None => snapshot_index n end.
Definition last_term (n : RaftNode) : N :=
  match list.last (log n) with Some e => Wal.term e | None => snapshot_term n end.

Definition entry (n : RaftNode) (i : N) : option Entry :=
  if i <=? snapshot_index n then None else log n !! N.to_nat (i - snapshot_index n - 1).

Definition term_at (n : RaftNode) (i : N) : option N :=
  if i =? snapshot_index n then Some (snapshot_term n) else Wal.term <$> entry n i.

Definition log_up_to_date (n : RaftNode) (last_log_index last_log_term : N) : bool :=
  (last_term n <? last_log_term) || ((last_log_term =? last_term n) && (last_index n <=? last_log_index)).

(** ** The write-ahead log *)

Definition wal_append_unsynced (e : Entry) : R () :=
  l ← sm_reads wal;
  if index e <=? l_last l then sm_err (RWal (IndexRegression (l_last l) (index e)))
  else sm_modify (λ n, n <| wal ::= log_append e |>).

Definition wal_sync : R () := sm_modify (λ n, n <| wal ::= log_sync |>).

Definition wal_raise_floor (i : N) : R () :=
  sm_modify (λ n, n <| wal ::= λ l, mkLog (l_recs l) (N.max i (l_last l)) (N.max i (l_synced l)) (N.max i (l_floor l)) |>).

Definition wal_compact_through (i : N) : R () := sm_modify (λ n, n <| wal ::= log_keep (λ j, i <? j) |>).
Definition wal_truncate_after (i : N) : R () := sm_modify (λ n, n <| wal ::= λ l, log_restart i (log_keep (λ j, j <=? i) l) |>).
Definition wal_reset (i : N) : R () := sm_modify (λ n, n <| wal ::= λ l, log_restart i (log_keep (λ _, false) l) |>).

(** [Vec::drain(..k)]. *)
Definition drain_log (k : N) : R () :=
  l ← sm_reads log;
  if N.of_nat (length l) <? k then sm_panic else sm_modify (λ n, n <| log ::= drop (N.to_nat k) |>).

(** ** Small operations *)

Definition send (dest : NodeId) (m : Message) : R () :=
  sm_modify (λ n, n <| outbox ::= λ l, l ++ [mkEnv (my_id n) dest m] |>).

Definition persist_hard : R () := sm_modify (λ n, n <| hard_file := hard n |>).
Definition persist_catalog : R () := sm_modify (λ n, n <| stored := catalog n |>).

Definition u64_shl (a k : N) : N := N.shiftl a k mod u64_size.

Definition xorshift (x : N) : N :=
  let x := N.lxor x (u64_shl x 13) in
  let x := N.lxor x (N.shiftr x 7) in
  N.lxor x (u64_shl x 17).

Definition reset_election_timer : R () :=
  sm_modify (λ n,
    let r := xorshift (rng n) in
    let '(lo, hi) := election_ticks (cfg n) in
    n <| rng := r |> <| election_elapsed := 0 |> <| election_timeout := lo + r mod (hi - lo) |>).

Definition leader_active (n : RaftNode) : bool :=
  has_role n Leader || (bool_decide (is_Some (leader n)) && (election_elapsed n <? fst (election_ticks (cfg n)))).

Definition is_voter (n : RaftNode) : bool := bool_decide (my_id n ∈ voters (membership n)).

(** Every voter but this node, in order. *)
Definition peers (n : RaftNode) : list NodeId := List.filter (λ p, negb (String.eqb p (my_id n))) (bt_elements (voters (membership n))).

Definition latest_change (l : list Entry) : option (Entry * (Membership * gmap string string)) :=
  head (omap (λ e : Entry, m ← m_changes (command e); Some (e, m)) (reverse l)).

Definition config_index (n : RaftNode) : option N := (λ x, index (x.1)) <$> latest_change (log n).

(** [retain] and [entry().or_insert(v)] over [ps]. *)
Definition track_peers (ps : list NodeId) (v : N) (m : gmap NodeId N) : gmap NodeId N :=
  foldl (λ m p, match m !! p with Some _ => m | None => <[p := v]> m end)
    (base.filter (λ x, x.1 ∈ ps) m) ps.

Definition refresh_membership : R () :=
  sm_modify (λ n,
    let m := match latest_change (log n) with
             | Some (_, (m, _)) => m
             | None => default (initial n) (m_membership (catalog n))
             end in
    let n := n <| membership := m |> in
    if has_role n Leader
    then n <| next_index ::= track_peers (peers n) (last_index n + 1) |> <| match_index ::= track_peers (peers n) 0 |>
    else n).

Definition peer_addrs (n : RaftNode) : gmap string string :=
  foldl (λ a e, match m_changes (command e) with Some (_, b) => b ∪ a | None => a end) (m_addrs (catalog n)) (log n).

(** ** Read barriers *)

Definition my_term (n : RaftNode) : N := hterm (hard n).

Definition answer_read (dest : option NodeId) (id : N) (i : option N) : R () :=
  match dest with
  | None => sm_modify (λ n, n <| read_results ::= <[id := i]> |>)
  | Some f => t ← sm_reads my_term; send f (ReadIndexResponse t id i)
  end.

Definition count_ack (ack : option NodeId) (seq : N) (r : PendingRead) : PendingRead :=
  match ack with
  | Some f => if p_seq r <=? seq then mkRead (p_seq r) (p_index r) (p_from r) (p_id r) ({[f]} ∪ p_acks r) else r
  | None => r
  end.

Definition confirm_reads (ack : option NodeId) (seq : N) : R () :=
  m ← sm_reads membership;
  rs ← sm_reads (λ n, count_ack ack seq <$> pending_reads n);
  sm_modify (λ n, n <| pending_reads := List.filter (λ r, negb (has_quorum m (p_acks r))) rs |>) ;;
  sm_for (List.filter (λ r, has_quorum m (p_acks r)) rs) (λ r, answer_read (p_from r) (p_id r) (Some (p_index r))).

(** ** Replication: the leader's side *)

(** [-] wraps below zero. *)
Definition u64_sub (a b : N) : N := if a <? b then a + u64_size - b else a - b.

Definition snapshot_message (t : N) (o : Outgoing) : Message := InstallSnapshot t (o_index o) (o_seq o) (o_chunk o).

Definition start_out (s : S) (now : N) : Outgoing :=
  let '(chunk, next) := x_start s in mkOut (m_applied s) 0 now chunk s next.

Definition advance_out (o : Outgoing) (now : N) : res m_error Outgoing :=
  r ← x_advance (o_state o) (o_next o);
  Ok (match r with
      | Some (chunk, next) => mkOut (o_index o) (o_seq o + 1) now chunk (o_state o) next
      | None => o
      end).

(** The next chunk, unless one is in flight that may still be answered. *)
Definition send_snapshot (peer : NodeId) : R () :=
  n ← sm_get;
  match outgoing n !! peer with
  | Some o =>
      if ticks n <? o_sent_at o + snd (election_ticks (cfg n)) then mret ()
      else
        let o := mkOut (o_index o) (o_seq o) (ticks n) (o_chunk o) (o_state o) (o_next o) in
        sm_modify (λ n, n <| outgoing ::= <[peer := o]> |>) ;;
        send peer (snapshot_message (my_term n) o)
  | None =>
      let o := start_out (catalog n) (ticks n) in
      sm_modify (λ n, n <| outgoing ::= <[peer := o]> |>) ;;
      send peer (snapshot_message (my_term n) o)
  end.

Definition send_append (peer : NodeId) : R () :=
  n ← sm_get;
  let next := N.min (default (last_index n + 1) (next_index n !! peer)) (last_index n + 1) in
  let prev := u64_sub next 1 in
  if prev <? snapshot_index n then send_snapshot peer
  else
    let prev_term := default 0 (term_at n prev) in
    let start := N.to_nat (u64_sub (u64_sub next (snapshot_index n)) 1) in
    if (length (log n) <? start)%nat then sm_panic
    else
      let es := take (max_batch (cfg n)) (drop start (log n)) in
      (match list.last es with
       | Some e => sm_modify (λ n, n <| next_index ::= <[peer := index e + 1]> |>)
       | None => mret ()
       end) ;;
      send peer (AppendEntries (my_term n) prev prev_term es (commit_index n) (read_seq n)).

Definition broadcast_append : R () := ps ← sm_reads peers; sm_for ps send_append.

Definition register_read (dest : option NodeId) (id : N) : R bool :=
  n ← sm_get;
  if negb (bool_decide (term_at n (commit_index n) = Some (my_term n))) then mret false
  else
    sm_modify (λ n, n <| read_seq ::= N.add 1 |>) ;;
    sm_modify (λ n, n <| pending_reads ::= λ l, l ++ [mkRead (read_seq n) (commit_index n) dest id {[my_id n]}] |>) ;;
    confirm_reads None 0 ;;
    left ← sm_reads pending_reads;
    (match left with [] => mret () | _ => broadcast_append end) ;;
    mret true.

(** ** The log of the leader *)

(** [let _ = state.apply_committed(..)]. *)
Definition committed (e : Entry) (s : S) : option S :=
  match m_apply_committed (Wal.term e) (index e) (command e) s with
  | (_, Panic) => None
  | (s, _) => Some s
  end.

Definition or_panic {A} (o : option A) : R A := match o with Some a => mret a | None => sm_panic end.

Definition spec_mut : R S :=
  n ← sm_get;
  match spec n with
  | Some s => mret s
  | None =>
      s ← or_panic (foldl (λ o e, s ← o; committed e s) (Some (catalog n))
                      (List.filter (λ e, m_applied (catalog n) <? index e) (log n)));
      sm_modify (λ n, n <| spec := Some s |>) ;;
      mret s
  end.

Definition append_local (c : C) : R N :=
  n ← sm_get;
  let i := last_index n + 1 in
  let e := mkRecord (my_term n) i c in
  wal_append_unsynced e ;;
  (match spec n with
   | Some s => s ← or_panic (committed e s); sm_modify (λ n, n <| spec := Some s |>)
   | None => mret ()
   end) ;;
  sm_modify (λ n, n <| log ::= λ l, l ++ [e] |>) ;;
  (match m_changes c with Some _ => refresh_membership | None => mret () end) ;;
  mret i.

(** [Result::inspect_err]. *)
Definition inspect_err {A} (f : RaftNode → RaftNode) (m : R A) : R A := λ n,
  match m n with
  | (n, Err e) => (f n, Err e)
  | r => r
  end.

Definition append_validated (c : C) : R N :=
  n ← sm_get;
  let t := my_term n in
  let i := last_index n + 1 in
  s ← spec_mut;
  (match m_apply t i c s with
   | (s, Ok _) => sm_modify (λ n, n <| spec := Some s |>)
   | (s, Err e) => sm_modify (λ n, n <| spec := Some s |>) ;; sm_err (Rejected e)
   | (_, Panic) => sm_panic
   end) ;;
  inspect_err (λ n, n <| spec := None |>) (append_local c).

(** ** Roles *)

(** A newer term starts without a vote. *)
Definition raise_term (t : N) : R () :=
  cur ← sm_reads my_term;
  if cur <? t then sm_modify (λ n, n <| hard := mkHard t None |>) ;; persist_hard else mret ().

Definition become_follower (t : N) (l : option NodeId) : R () :=
  wal_sync ;;
  raise_term t ;;
  rs ← sm_reads pending_reads;
  sm_modify (λ n, n <| pending_reads := [] |>) ;;
  sm_for rs (λ r, answer_read (p_from r) (p_id r) None) ;;
  sm_modify (λ n, n <| role := Follower |> <| spec := None |> <| outgoing := ∅ |> <| leader := l |> <| votes := ∅ |>) ;;
  reset_election_timer.

(** ** Commit *)

(** The loop of [apply_committed], with a step per entry. *)
Fixpoint apply_loop (fuel : nat) : R () :=
  n ← sm_get;
  if m_applied (catalog n) <? commit_index n
  then
    match fuel with
    | O => sm_panic
    | Datatypes.S fuel =>
        match entry n (m_applied (catalog n) + 1) with
        | None => sm_err Inconsistent
        | Some e =>
            s ← or_panic (committed e (catalog n));
            sm_modify (λ n, n <| catalog := s |>) ;;
            apply_loop fuel
        end
    end
  else mret ().

Definition maybe_compact : R () :=
  n ← sm_get;
  let applied := m_applied (catalog n) in
  let keep := compact_after (cfg n) in
  if (keep =? 0) || (applied - snapshot_index n <? 2 * keep) then mret ()
  else
    let through := applied - keep in
    match term_at n through with
    | None => sm_err Inconsistent
    | Some t =>
        persist_catalog ;;
        wal_compact_through through ;;
        drain_log (through - snapshot_index n) ;;
        sm_modify (λ n, n <| snapshot_index := through |> <| snapshot_term := t |>)
    end.

Definition apply_committed : R () :=
  n ← sm_get;
  let start := m_applied (catalog n) in
  apply_loop (N.to_nat (commit_index n - start)) ;;
  a ← sm_reads (λ n, m_applied (catalog n));
  if start <? a then maybe_compact else mret ().

(** Who has entry [i]: peers that acknowledged it, and this node if it is synced. *)
Definition acks_at (n : RaftNode) (i : N) : gset NodeId :=
  dom (base.filter (λ x : NodeId * N, i ≤ x.2) (match_index n)) ∪ (if i <=? l_synced (wal n) then {[my_id n]} else ∅).

(** The newest entry of the term a quorum has, looking down from [commit_index + k]. *)
Fixpoint scan_commit (n : RaftNode) (k : nat) : N :=
  match k with
  | O => commit_index n
  | Datatypes.S k' =>
      let i := commit_index n + N.of_nat k in
      if bool_decide (term_at n i = Some (my_term n))
      then if has_quorum (membership n) (acks_at n i) then i else scan_commit n k'
      else commit_index n
  end.

Definition finish_membership_change : R () :=
  n ← sm_get;
  if negb (has_role n Leader) || match config_index n with Some i => commit_index n <? i | None => false end then mret ()
  else
    match membership n with
    | Joint _ new =>
        append_validated (m_change (Stable new) ∅) ;;
        broadcast_append
    | Stable vs =>
        if bool_decide (my_id n ∈ vs) then mret () else become_follower (my_term n) None
    end.

(** One round of [advance_commit]; whether there is another. *)
Definition commit_round : R bool :=
  n ← sm_get;
  (if has_quorum (membership n) {[my_id n]} then wal_sync else mret ()) ;;
  n ← sm_get;
  let new_commit := scan_commit n (N.to_nat (last_index n - commit_index n)) in
  if new_commit <=? commit_index n then mret false
  else
    sm_modify (λ n, n <| commit_index := new_commit |>) ;;
    apply_committed ;;
    broadcast_append ;;
    last ← sm_reads last_index;
    finish_membership_change ;;
    last' ← sm_reads last_index;
    mret (negb (last' =? last)).

(** The loop of [advance_commit]: a round commits a joint configuration and
    appends the stable one, the next may commit that one. *)
Fixpoint commit_loop (fuel : nat) : R () :=
  n ← sm_get;
  if has_role n Leader
  then
    match fuel with
    | O => sm_panic
    | Datatypes.S fuel =>
        more ← commit_round;
        if (more : bool) then commit_loop fuel else mret ()
    end
  else mret ().

Definition commit_rounds : nat := 3.
Definition advance_commit : R () := commit_loop commit_rounds.

(** ** Elections *)

Definition become_leader : R () :=
  sm_modify (λ n,
    let next := last_index n + 1 in
    n <| role := Leader |> <| spec := None |> <| outgoing := ∅ |> <| incoming := None |> <| leader := Some (my_id n) |>
      <| heartbeat_elapsed := 0 |> <| check_quorum_elapsed := 0 |> <| recent_active := ∅ |>
      <| next_index := list_to_map ((λ p, (p, next)) <$> peers n) |>
      <| match_index := list_to_map ((λ p, (p, 0)) <$> peers n) |>) ;;
  append_local m_noop ;;
  broadcast_append ;;
  advance_commit.

Definition campaign : R () :=
  sm_modify (λ n, n <| role := Candidate |> <| hard := mkHard (my_term n + 1) (Some (my_id n)) |>) ;;
  persist_hard ;;
  sm_modify (λ n, n <| leader := None |> <| votes := {[my_id n]} |>) ;;
  reset_election_timer ;;
  n ← sm_get;
  if has_quorum (membership n) (votes n) then become_leader
  else sm_for (peers n) (λ p, send p (RequestVote (my_term n) (last_index n) (last_term n))).

Definition pre_campaign : R () :=
  n ← sm_get;
  if negb (is_voter n) then reset_election_timer
  else
    sm_modify (λ n, n <| role := PreCandidate |> <| leader := None |> <| votes := {[my_id n]} |>) ;;
    reset_election_timer ;;
    n ← sm_get;
    if has_quorum (membership n) (votes n) then campaign
    else sm_for (peers n) (λ p, send p (PreVote (my_term n + 1) (last_index n) (last_term n))).

(** ** Replication: the follower's side *)

(** The loop that looks for the first entry of term [t] below a conflict. *)
Fixpoint hint_loop (n : RaftNode) (t : N) (fuel : nat) (hint : N) : N :=
  match fuel with
  | O => hint
  | Datatypes.S fuel =>
      if (snapshot_index n <? hint) && bool_decide (term_at n hint = Some t) then hint_loop n t fuel (hint - 1) else hint
  end.

Definition append_entry (e : Entry) : R () :=
  n ← sm_get;
  match term_at n (index e) with
  | Some t =>
      if t =? Wal.term e then mret ()
      else if index e <=? commit_index n then sm_err Inconsistent
      else
        wal_truncate_after (index e - 1) ;;
        sm_modify (λ n, n <| log ::= take (N.to_nat (index e - snapshot_index n - 1)) |>) ;;
        wal_append_unsynced e ;;
        sm_modify (λ n, n <| log ::= λ l, l ++ [e] |>)
  | None =>
      wal_append_unsynced e ;;
      sm_modify (λ n, n <| log ::= λ l, l ++ [e] |>)
  end.

(** The part after the consistency check. *)
Definition append_entries (prev_index : N) (es : list Entry) (leader_commit : N) : R (bool * N) :=
  let match_index := prev_index + N.of_nat (length es) in
  sm_for es append_entry ;;
  refresh_membership ;;
  n ← sm_get;
  (if commit_index n <? leader_commit
   then
     sm_modify (λ n, n <| commit_index := N.max (N.min leader_commit match_index) (commit_index n) |>) ;;
     apply_committed
   else mret ()) ;;
  mret (true, match_index).

Definition check_append (prev_index prev_term : N) (es : list Entry) (leader_commit : N) : R (bool * N) :=
  n ← sm_get;
  match term_at n prev_index with
  | None => mret (false, last_index n)
  | Some t =>
      if t =? prev_term then append_entries prev_index es leader_commit
      else
        let hint := u64_sub prev_index 1 in
        mret (false, hint_loop n t (N.to_nat hint) hint)
  end.

Definition handle_append (prev_index prev_term : N) (es : list Entry) (leader_commit : N) : R (bool * N) :=
  n ← sm_get;
  if prev_index <? snapshot_index n
  then
    let skip := N.to_nat (snapshot_index n - prev_index) in
    if (length es <=? skip)%nat then mret (true, snapshot_index n)
    else check_append (snapshot_index n) (snapshot_term n) (drop skip es) leader_commit
  else check_append prev_index prev_term es leader_commit.

(** ** Snapshots: the follower's side *)

Definition adopt_snapshot (s : S) : R () :=
  let si := m_applied s in
  let st := m_term s in
  sm_modify (λ n, n <| catalog := s |>) ;;
  n ← sm_get;
  (if bool_decide (term_at n si = Some st)
   then drain_log (si - snapshot_index n) ;; wal_compact_through si
   else sm_modify (λ n, n <| log := [] |>) ;; wal_reset si) ;;
  wal_raise_floor si ;;
  sm_modify (λ n, n <| snapshot_index := si |> <| snapshot_term := st |> <| commit_index := si |>) ;;
  refresh_membership.

Definition install_staged (i : Incoming) : R () :=
  sm_modify (λ n, n <| spec := None |> <| stored := in_state i |>) ;;
  adopt_snapshot (in_state i).

Definition handle_snapshot_chunk (idx seq : N) (chunk : X) : R (option N) :=
  n ← sm_get;
  if idx <=? commit_index n then sm_modify (λ n, n <| incoming := None |>) ;; mret (Some seq)
  else
    match x_header chunk with
    | Some s =>
        sm_modify (λ n, n <| incoming := None |>) ;;
        if negb (seq =? 0) then mret None
        else sm_modify (λ n, n <| incoming := Some (mkIn idx 0 s) |>) ;; mret (Some 0)
    | None =>
        match incoming n with
        | None => mret None
        | Some i =>
            if negb (in_index i =? idx) then mret None
            else if seq =? in_seq i then mret (Some seq)
            else if negb (seq =? in_seq i + 1) then mret None
            else if x_is_done chunk
            then
              sm_modify (λ n, n <| incoming := None |>) ;;
              install_staged i ;;
              mret (Some seq)
            else
              match x_stage chunk (in_state i) with
              | None => sm_err RIo
              | Some s => sm_modify (λ n, n <| incoming := Some (mkIn idx seq s) |>) ;; mret (Some seq)
              end
        end
    end.

(** ** Messages *)

Definition ensure_follower (t : N) (l : NodeId) : R () :=
  n ← sm_get;
  (if has_role n Follower then mret () else become_follower t (Some l)) ;;
  sm_modify (λ n, n <| leader := Some l |>) ;;
  reset_election_timer.

(** A response counts for a leader of the term that replicates to the sender. *)
Definition counts (n : RaftNode) (t : N) (peer : NodeId) : bool :=
  has_role n Leader && (t =? my_term n) && bool_decide (is_Some (next_index n !! peer)).

Definition on_append_response (peer : NodeId) (success : bool) (m : N) (seq : N) : R () :=
  sm_modify (λ n, n <| recent_active ::= λ s, {[peer]} ∪ s |>) ;;
  (if 0 <? seq then confirm_reads (Some peer) seq else mret ()) ;;
  n ← sm_get;
  if success
  then
    let m := N.max (default 0 (match_index n !! peer)) m in
    let next := N.max (m + 1) (default 0 (next_index n !! peer)) in
    sm_modify (λ n, n <| match_index ::= <[peer := m]> |> <| next_index ::= <[peer := next]> |>) ;;
    wal_sync ;;
    advance_commit ;;
    last ← sm_reads last_index;
    if next <=? last then send_append peer else mret ()
  else
    let next := N.max (N.min (default 1 (next_index n !! peer) - 1) (m + 1)) 1 in
    sm_modify (λ n, n <| next_index ::= <[peer := next]> |>) ;;
    send_append peer.

(** The transfer to [peer] is over. *)
Definition finish_snapshot (peer : NodeId) (m : N) : R () :=
  sm_modify (λ n, n <| outgoing ::= delete peer |>) ;;
  n ← sm_get;
  let m := N.max (default 0 (match_index n !! peer)) (N.min m (last_index n)) in
  let next := m + 1 in
  sm_modify (λ n, n <| match_index ::= <[peer := m]> |> <| next_index ::= <[peer := next]> |>) ;;
  advance_commit ;;
  last ← sm_reads last_index;
  if next <=? last then send_append peer else mret ().

Definition on_snapshot_response (peer : NodeId) (m : N) (ack : option N) : R () :=
  sm_modify (λ n, n <| recent_active ::= λ s, {[peer]} ∪ s |>) ;;
  n ← sm_get;
  match outgoing n !! peer with
  | Some o =>
      if m <? o_index o
      then
        match ack with
        | Some seq =>
            if (seq =? o_seq o) && negb (x_is_done (o_chunk o))
            then
              match advance_out o (ticks n) with
              | Ok o =>
                  sm_modify (λ n, n <| outgoing ::= <[peer := o]> |>) ;;
                  send peer (snapshot_message (my_term n) o)
              | Err _ => sm_err RIo
              | Panic => sm_panic
              end
            else mret ()
        | None =>
            let o := start_out (catalog n) (ticks n) in
            send peer (snapshot_message (my_term n) o) ;;
            sm_modify (λ n, n <| outgoing ::= <[peer := o]> |>)
        end
      else finish_snapshot peer m
  | None => finish_snapshot peer m
  end.

(** The first [match] of [step]: messages of a newer term; [false] to ignore the
    message. *)
Definition observe_term (src : NodeId) (m : Message) : R bool :=
  n ← sm_get;
  let newer := my_term n <? msg_term m in
  match m with
  | PreVote _ _ _ | PreVoteResponse _ true => mret true
  | RequestVote _ _ _ =>
      if newer && leader_active n then mret false
      else if newer then become_follower (msg_term m) None ;; mret true
      else mret true
  | AppendEntries _ _ _ _ _ _ | InstallSnapshot _ _ _ _ =>
      if newer then become_follower (msg_term m) (Some src) ;; mret true else mret true
  | _ => if newer then become_follower (msg_term m) None ;; mret true else mret true
  end.

Definition on_request_vote (src : NodeId) (t lli llt : N) : R () :=
  n ← sm_get;
  let can_vote := match voted_for (hard n) with None => true | Some v => String.eqb v src end in
  let granted := (t =? my_term n) && can_vote && log_up_to_date n lli llt in
  (if granted
   then
     sm_modify (λ n, n <| hard ::= λ h, mkHard (hterm h) (Some src) |>) ;;
     persist_hard ;;
     reset_election_timer
   else mret ()) ;;
  t' ← sm_reads my_term;
  send src (RequestVoteResponse t' granted).

Definition on_append (src : NodeId) (t pi pt : N) (es : list Entry) (lc rs : N) : R () :=
  n ← sm_get;
  if t <? my_term n then send src (AppendEntriesResponse (my_term n) false 0 rs)
  else
    ensure_follower t src ;;
    '(success, m) ← handle_append pi pt es lc;
    t' ← sm_reads my_term;
    send src (AppendEntriesResponse t' success m rs).

Definition on_snapshot (src : NodeId) (t idx seq : N) (chunk : X) : R () :=
  n ← sm_get;
  ack ← (if my_term n <=? t then ensure_follower t src ;; handle_snapshot_chunk idx seq chunk else mret None);
  n ← sm_get;
  send src (InstallSnapshotResponse (my_term n) (commit_index n) ack).

Definition on_read_index (src : NodeId) (t id : N) : R () :=
  n ← sm_get;
  served ← (if negb (t =? my_term n) || negb (has_role n Leader) then mret false else register_read (Some src) id);
  if (served : bool) then mret ()
  else t' ← sm_reads my_term; send src (ReadIndexResponse t' id None).

Definition dispatch (src : NodeId) (m : Message) : R () :=
  n ← sm_get;
  match m with
  | PreVote t lli llt =>
      let granted := (my_term n <? t) && log_up_to_date n lli llt && negb (leader_active n) in
      send src (PreVoteResponse (if granted then t else my_term n) granted)
  | PreVoteResponse t granted =>
      if has_role n PreCandidate && granted && (t =? my_term n + 1)
      then
        sm_modify (λ n, n <| votes ::= λ v, {[src]} ∪ v |>) ;;
        n ← sm_get;
        if has_quorum (membership n) (votes n) then campaign else mret ()
      else mret ()
  | RequestVote t lli llt => on_request_vote src t lli llt
  | RequestVoteResponse t granted =>
      if has_role n Candidate && (t =? my_term n) && granted
      then
        sm_modify (λ n, n <| votes ::= λ v, {[src]} ∪ v |>) ;;
        n ← sm_get;
        if has_quorum (membership n) (votes n) then become_leader else mret ()
      else mret ()
  | AppendEntries t pi pt es lc rs => on_append src t pi pt es lc rs
  | AppendEntriesResponse t success mi rs =>
      if counts n t src then on_append_response src success mi rs else mret ()
  | InstallSnapshot t idx seq chunk => on_snapshot src t idx seq chunk
  | InstallSnapshotResponse t mi ack => if counts n t src then on_snapshot_response src mi ack else mret ()
  | ReadIndex t id => on_read_index src t id
  | ReadIndexResponse _ id idx =>
      if has_role n Leader then mret () else sm_modify (λ n, n <| read_results ::= <[id := idx]> |>)
  end.

Definition step (env : Envelope) : R () :=
  go ← observe_term (from env) (msg env);
  if (go : bool) then dispatch (from env) (msg env) else mret ().

(** ** The interface *)

Definition check_quorum : R bool :=
  n ← sm_get;
  if fst (election_ticks (cfg n)) <=? check_quorum_elapsed n
  then
    sm_modify (λ n, n <| check_quorum_elapsed := 0 |> <| recent_active := ∅ |>) ;;
    mret (has_quorum (membership n) ({[my_id n]} ∪ recent_active n))
  else mret true.

Definition tick_leader : R () :=
  n ← sm_get;
  (if l_synced (wal n) <? last_index n then wal_sync ;; advance_commit else mret ()) ;;
  sm_modify (λ n, n <| check_quorum_elapsed ::= N.add 1 |>) ;;
  ok ← check_quorum;
  if negb ok then t ← sm_reads my_term; become_follower t None
  else
    sm_modify (λ n, n <| heartbeat_elapsed ::= N.add 1 |>) ;;
    n ← sm_get;
    if heartbeat_ticks (cfg n) <=? heartbeat_elapsed n
    then sm_modify (λ n, n <| heartbeat_elapsed := 0 |>) ;; broadcast_append
    else mret ().

Definition tick : R () :=
  sm_modify (λ n, n <| ticks ::= N.add 1 |>) ;;
  n ← sm_get;
  if has_role n Leader then tick_leader
  else
    sm_modify (λ n, n <| election_elapsed ::= N.add 1 |>) ;;
    n ← sm_get;
    if election_timeout n <=? election_elapsed n then pre_campaign else mret ().

Definition take_messages : R (list Envelope) :=
  n ← sm_get;
  (if has_role n Leader then mret () else wal_sync) ;;
  ms ← sm_reads outbox;
  sm_modify (λ n, n <| outbox := [] |>) ;;
  mret ms.

Definition propose (c : C) : R N :=
  n ← sm_get;
  if negb (has_role n Leader) then sm_err (NotLeader (leader n))
  else
    match m_changes c with
    | Some _ => sm_err Config
    | None =>
        i ← append_validated c;
        broadcast_append ;;
        advance_commit ;;
        mret i
    end.

Definition change_membership (vs : gset NodeId) (addrs : gmap string string) : R N :=
  n ← sm_get;
  if negb (has_role n Leader) then sm_err (NotLeader (leader n))
  else if bool_decide (vs = ∅) then sm_err Config
  else
    match membership n with
    | Joint _ _ => sm_err MembershipBusy
    | Stable old =>
        if (match config_index n with Some i => commit_index n <? i | None => false end)
           || negb (bool_decide (term_at n (commit_index n) = Some (my_term n)))
        then sm_err MembershipBusy
        else if bool_decide (old = vs) then mret (commit_index n)
        else
          let known := peer_addrs n in
          if existsb (λ v, negb (String.eqb v (my_id n)) && bool_decide (addrs !! v = None) && bool_decide (known !! v = None)
                           && negb (existsb (String.eqb v) (cpeers (cfg n)))) (bt_elements vs)
          then sm_err Config
          else
            i ← append_validated (m_change (Joint old vs) addrs);
            broadcast_append ;;
            advance_commit ;;
            mret i
    end.

Definition read_index : R N :=
  id ← sm_reads next_read_id;
  sm_modify (λ n, n <| next_read_id ::= N.add 1 |>) ;;
  n ← sm_get;
  (if has_role n Leader
   then
     served ← register_read None id;
     if (served : bool) then mret () else l ← sm_reads leader; sm_err (NotLeader l)
   else
     match leader n with
     | None => sm_err (NotLeader None)
     | Some l => send l (ReadIndex (my_term n) id)
     end) ;;
  mret id.

Definition read_result (id : N) : R (option (option N)) :=
  r ← sm_reads (λ n, read_results n !! id);
  sm_modify (λ n, n <| read_results ::= delete id |>) ;;
  mret r.

Definition forget_read (id : N) : R () :=
  sm_modify (λ n, n <| read_results ::= delete id |>
                    <| pending_reads ::= List.filter (λ r, negb (bool_decide (p_from r = None) && (p_id r =? id))) |>).

(** ** Start *)

(** FNV-1a of the id's bytes. *)
Definition seed (id : NodeId) : N :=
  N.lor 1 (foldl (λ r b, (N.lxor r (N.of_nat (Ascii.nat_of_ascii b)) * 1099511628211) mod u64_size) 14695981039346656037
             (String.list_ascii_of_string id)).

Definition config_ok (c : RaftConfig) : bool :=
  bool_decide (NoDup (cpeers c)) && bool_decide (cid c ∉ cpeers c)
  && negb ((fst (election_ticks c) =? 0) || (snd (election_ticks c) <=? fst (election_ticks c))
           || (heartbeat_ticks c =? 0) || (fst (election_ticks c) <=? heartbeat_ticks c)).

Definition initial_voters (c : RaftConfig) : option Membership :=
  match bootstrap c with
  | Some b => if bool_decide (b = []) || negb (bool_decide (NoDup b)) then None else Some (stable b)
  | None => Some (stable (cpeers c ++ [cid c]))
  end.

(** Entries follow each other from [i]. *)
Fixpoint contiguous (i : N) (l : list Entry) : bool :=
  match l with
  | [] => true
  | e :: l => (index e =? i) && contiguous (i + 1) l
  end.

(** The entries to replay. *)
Definition replayed (s : S) (w : Log (T := C)) : list Entry := List.filter (λ e, m_applied s <? index e) (l_recs w).

(** The node [open] builds. *)
Definition booted (c : RaftConfig) (m : Membership) (h : HardState) (s : S) (w : Log (T := C)) : RaftNode :=
  mkNode c m m Follower (mkHard (N.max (hterm h) (m_term s)) (voted_for h)) None (replayed s w) (m_applied s) (m_term s)
    (m_applied s) s None w s h ∅ ∅ ∅ ∅ 0 0 0 0 0 ∅ None (seed (cid c)) [] 0 [] 1 ∅.

Definition start (applied : N) : R () :=
  wal_compact_through applied ;; wal_raise_floor applied ;; refresh_membership ;; reset_election_timer.

(** [RaftNode::open] with what is on disk: the vote, the checkpoint and the log. *)
Definition open (c : RaftConfig) (h : HardState) (s : S) (w : Log (T := C)) : res RaftError RaftNode :=
  if negb (config_ok c) then Err Config
  else if negb (contiguous (m_applied s + 1) (replayed s w)) then Err Inconsistent
  else
    match initial_voters c with
    | None => Err Config
    | Some m =>
        match start (m_applied s) (booted c m h s w) with
        | (n, Ok _) => Ok n
        | (_, Err e) => Err e
        | (_, Panic) => Panic
        end
    end.

End raft.
End Raft.
