(* ===== verification/RaftCalc.v ===== *)
(** * A calculus for node invariants

    A predicate is kept by a computation when it holds of the node it leaves,
    however it ends.  The database [keeps] decides the computations whose every
    step keeps it whatever was read before. *)

From S2P Require Import Prelude Membership Wal WalSpec RaftMachine Raft.

Module RaftCalc.
Import Membership.
Import Wal WalSpec Raft.

Section calc.
Context {S : Type} `{Machine S}.
Implicit Types n : RaftNode (S := S).
Abbreviation M := (SM RaftNode RaftError).

Definition keeps (I : RaftNode → Prop) {A} (f : M A) : Prop := ∀ n, I n → I (f n).1.

(** A computation that succeeds and takes [I] to [J]. *)
Definition ends (I : RaftNode → Prop) {A} (m : M A) (J : RaftNode → Prop) : Prop :=
  ∀ n, I n → ∃ n' a, m n = (n', Ok a) ∧ J n'.

Lemma ends_bind {A B} (I J K : RaftNode → Prop) (m : M A) (k : A → M B) : ends I m J → (∀ a, ends J (k a) K) → ends I (m ≫= k) K.
Proof.
  intros Hm Hk n Hn. destruct (Hm n Hn) as (n' & a & E & Hn'). destruct (Hk a n' Hn') as (n'' & b & E' & HK).
  exists n'', b. split; [|done]. unfold mbind, sm_bind. by rewrite E.
Qed.
Lemma ends_modify (I J : RaftNode → Prop) f : (∀ n, I n → J (f n)) → ends I (sm_modify f) J.
Proof. intros Hf n Hn. exists (f n), (). split; [done|by apply Hf]. Qed.
Lemma ends_reads {A} (I : RaftNode → Prop) (f : RaftNode → A) : ends I (sm_reads f) I.
Proof. intros n Hn. by exists n, (f n). Qed.
Lemma ends_for {A} (I : RaftNode → Prop) (l : list A) (f : A → M ()) : (∀ x, ends I (f x) I) → ends I (sm_for l f) I.
Proof.
  intros Hf. induction l as [|x l IH]; cbn [sm_for]; [intros n Hn; by exists n, ()|]. by apply (ends_bind I I I).
Qed.
Lemma ends_keeps {A} (I J : RaftNode → Prop) (m : M A) n : ends I m J → I n → J (m n).1.
Proof. intros Hm Hn. destruct (Hm n Hn) as (n' & a & E & HJ). by rewrite E. Qed.

Lemma run_modify {B} f (k : () → M B) n : (sm_modify f ≫= k) n = k () (f n).
Proof. done. Qed.
Lemma run_get {B} (k : RaftNode → M B) n : (sm_get ≫= k) n = k n n.
Proof. done. Qed.
Lemma run_ok {A B} (m : M A) (k : A → M B) n n' a : m n = (n', Ok a) → (m ≫= k) n = k a n'.
Proof. intros E. unfold mbind, sm_bind. by rewrite E. Qed.

(** The state machine panics on the next committed entry. *)
Definition stuck n : Prop :=
  m_applied (catalog n) < commit_index n ∧ ∃ e, entry n (m_applied (catalog n) + 1) = Some e ∧ committed e (catalog n) = None.

(** The log cannot be replayed ahead of its commit, or the command panics on what
    that gives. *)
Definition balks (c : m_command) n : Prop :=
  match spec n with
  | Some s => ∃ s', m_apply (my_term n) (last_index n + 1) c s = (s', Panic)
  | None => foldl (λ o e, s ← o; committed e s) (Some (catalog n)) (List.filter (λ e, m_applied (catalog n) <? index e) (log n)) = None
  end.

(** Where an operation may panic. *)
Class Excuse := { excused : RaftNode → Prop; excused_stuck n : stuck n → excused n }.

Definition when_stuck : Excuse := {| excused := stuck; excused_stuck _ Hn := Hn |}.
Definition when_balking (c : m_command) : Excuse := {| excused n := stuck n ∨ balks c n; excused_stuck _ Hn := or_introl Hn |}.

Context (I : RaftNode → Prop) {X : Excuse}.

Lemma keeps_ret {A} (a : A) : keeps I (mret a).
Proof. by intros n Hn. Qed.
Lemma keeps_err {A} e : keeps I (sm_err e : M A).
Proof. by intros n Hn. Qed.
Lemma keeps_panic {A} : keeps I (sm_panic : M A).
Proof. by intros n Hn. Qed.
Lemma keeps_reads {A} (f : RaftNode → A) : keeps I (sm_reads f).
Proof. by intros n Hn. Qed.
Lemma keeps_get : keeps I sm_get.
Proof. by intros n Hn. Qed.
Lemma keeps_modify f : (∀ n, I n → I (f n)) → keeps I (sm_modify f).
Proof. intros Hf n Hn. by apply Hf. Qed.
Lemma keeps_bind {A B} (m : M A) (k : A → M B) : keeps I m → (∀ a, keeps I (k a)) → keeps I (m ≫= k).
Proof.
  intros Hm Hk n Hn. unfold mbind, sm_bind. specialize (Hm n Hn). destruct (m n) as [n' [a|e|]]; simpl in *; [|done..]. by apply Hk.
Qed.
Lemma keeps_ret_bind {A B} (a : A) (k : A → M B) : keeps I (k a) → keeps I (mret a ≫= k).
Proof. done. Qed.
Lemma keeps_for {A} (l : list A) (f : A → M ()) : (∀ x, x ∈ l → keeps I (f x)) → keeps I (sm_for l f).
Proof.
  induction l as [|x l IH]; intros Hf; cbn [sm_for]; [apply keeps_ret|]. apply keeps_bind; [apply Hf; by left|]. intros _. apply IH.
  intros y Hy. apply Hf. by right.
Qed.
Lemma keeps_or_panic {A} (o : option A) : keeps I (or_panic o).
Proof. destruct o; [apply keeps_ret|apply keeps_panic]. Qed.
Lemma keeps_inspect_err {A} f (m : M A) : (∀ n, I n → I (f n)) → keeps I m → keeps I (inspect_err f m).
Proof. intros Hf Hm n Hn. unfold inspect_err. specialize (Hm n Hn). destruct (m n) as [n' [a|e|]]; simpl in *; auto. Qed.

(** A computation that reads the node first. *)
Lemma keeps_from_get {B} (k : RaftNode → M B) : (∀ n, I n → I (k n n).1) → keeps I (sm_get ≫= k).
Proof. intros Hk n Hn. by apply Hk. Qed.
Lemma keeps_from_reads {A B} (f : RaftNode → A) (k : A → M B) : (∀ n, I n → I (k (f n) n).1) → keeps I (sm_reads f ≫= k).
Proof. intros Hk n Hn. by apply Hk. Qed.
(** The same, with what the invariant says of the node read. *)
Lemma keeps_get_with {B} (P : RaftNode → Prop) (k : RaftNode → M B) :
  (∀ n, I n → P n) → (∀ n, P n → keeps I (k n)) → keeps I (sm_get ≫= k).
Proof. intros HP Hk n Hn. by apply Hk; [apply HP|]. Qed.
Lemma keeps_if {A} (b : bool) (m m' : M A) : keeps I m → keeps I m' → keeps I (if b then m else m').
Proof. by destruct b. Qed.

(** ** Errors

    Errors that say a node's log contradicts itself or its leader's are fatal: the
    server stops on them.  A computation is safe when it keeps [I], does not end in
    such an error, and panics only in a node that is excused: always one that is
    stuck, and in a proposal one on which the state machine balks. *)

Definition benign (e : RaftError) : Prop := match e with RWal _ | Inconsistent => False | _ => True end.

Definition safe {A} (f : M A) : Prop :=
  ∀ n, I n → match f n with (n', Ok _) => I n' | (n', Err e) => I n' ∧ benign e | (n', Panic) => I n' ∧ excused n' end.

Lemma safe_ret {A} (a : A) : safe (mret a).
Proof. by intros n Hn. Qed.
Lemma safe_err {A} e : benign e → safe (sm_err e : M A).
Proof. by intros He n Hn. Qed.
Lemma safe_reads {A} (f : RaftNode → A) : safe (sm_reads f).
Proof. by intros n Hn. Qed.
Lemma safe_read : safe sm_get.
Proof. by intros n Hn. Qed.
Lemma safe_modify f : (∀ n, I n → I (f n)) → safe (sm_modify f).
Proof. intros Hf n Hn. by apply Hf. Qed.
Lemma safe_bind {A B} (m : M A) (k : A → M B) : safe m → (∀ a, safe (k a)) → safe (m ≫= k).
Proof.
  intros Hm Hk n Hn. unfold mbind, sm_bind. specialize (Hm n Hn). destruct (m n) as [n' [a|e|]]; [by apply Hk|done..].
Qed.
Lemma safe_ret_bind {A B} (a : A) (k : A → M B) : safe (k a) → safe (mret a ≫= k).
Proof. done. Qed.
Lemma safe_for {A} (l : list A) (f : A → M ()) : (∀ x, x ∈ l → safe (f x)) → safe (sm_for l f).
Proof.
  induction l as [|x l IH]; intros Hf; cbn [sm_for]; [apply safe_ret|]. apply safe_bind; [apply Hf; by left|]. intros _. apply IH.
  intros y Hy. apply Hf. by right.
Qed.
Lemma safe_inspect_err {A} f (m : M A) : (∀ n, I n → I (f n)) → safe m → safe (inspect_err f m).
Proof. intros Hf Hm n Hn. unfold inspect_err. specialize (Hm n Hn). destruct (m n) as [n' [a|e|]]; simpl in *; naive_solver. Qed.
Lemma safe_get_with {B} (P : RaftNode → Prop) (k : RaftNode → M B) :
  (∀ n, I n → P n) → (∀ n, P n → safe (k n)) → safe (sm_get ≫= k).
Proof. intros HP Hk n Hn. by apply Hk; [apply HP|]. Qed.
Lemma safe_from_get {B} (k : RaftNode → M B) :
  (∀ n, I n → match k n n with (n', Ok _) => I n' | (n', Err e) => I n' ∧ benign e | (n', Panic) => I n' ∧ excused n' end) → safe (sm_get ≫= k).
Proof. intros Hk n Hn. by apply Hk. Qed.

End calc.

Create HintDb keeps discriminated.
#[export] Hint Resolve keeps_ret keeps_err keeps_panic keeps_reads keeps_get keeps_or_panic : keeps.
Create HintDb safe discriminated.
#[export] Hint Resolve safe_ret safe_reads safe_read : safe.
#[export] Hint Extern 1 (safe _ (sm_err _)) => apply safe_err; exact I : safe.
End RaftCalc.

(** Takes a computation apart; leaves the goals of its edits. *)
Ltac keeps_step :=
  lazymatch goal with
  | |- RaftCalc.keeps _ (match ?x with _ => _ end) => destruct x eqn:?
  | |- RaftCalc.keeps _ (let '(_, _) := ?x in _) => destruct x eqn:?
  | |- RaftCalc.keeps _ (mret _ ≫= _) => apply RaftCalc.keeps_ret_bind
  | |- RaftCalc.keeps _ (_ ≫= _) => apply RaftCalc.keeps_bind; [|intros ?]
  | |- RaftCalc.keeps _ (sm_for _ _) => apply RaftCalc.keeps_for; intros ? ?
  | |- RaftCalc.keeps _ (sm_modify _) => apply RaftCalc.keeps_modify; intros ? ?
  | |- RaftCalc.keeps _ (Raft.inspect_err _ _) => apply RaftCalc.keeps_inspect_err; [intros ? ?|]
  end.
Ltac keeps_auto := repeat first [solve [eauto with keeps] | keeps_step].
Ltac safe_step :=
  lazymatch goal with
  | |- RaftCalc.safe _ (match ?x with _ => _ end) => destruct x eqn:?
  | |- RaftCalc.safe _ (let '(_, _) := ?x in _) => destruct x eqn:?
  | |- RaftCalc.safe _ (mret _ ≫= _) => apply RaftCalc.safe_ret_bind
  | |- RaftCalc.safe _ (_ ≫= _) => apply RaftCalc.safe_bind; [|intros ?]
  | |- RaftCalc.safe _ (sm_for _ _) => apply RaftCalc.safe_for; intros ? ?
  | |- RaftCalc.safe _ (sm_modify _) => apply RaftCalc.safe_modify; intros ? ?
  | |- RaftCalc.safe _ (Raft.inspect_err _ _) => apply RaftCalc.safe_inspect_err; [intros ? ?|]
  end.
Ltac safe_auto := repeat first [solve [eauto with safe] | safe_step].
