(* ===== verification/RaftVotes.v ===== *)
(** * Votes ([raft.rs])

    What a node must never forget: in a term it votes for one candidate, and says
    so to no other; it leads a term only when a quorum voted for it.  [g] records
    the votes cast in the cluster; an operation of a node only adds votes of that
    node.  The voters are [V] throughout: no configuration change is in a log, a
    message or a state. *)

From S2P Require Import Prelude Membership Wal WalSpec RaftMachine Raft RaftCalc.

Module RaftVotes.
Import Membership.
Import Wal WalSpec Raft RaftCalc.

Open Scope N_scope.

Section votes.
Context {S : Type} `{MachineLaws S} (V : gset NodeId).
Abbreviation M := (Stable V).
Implicit Types n : RaftNode (S := S).

Abbreviation Votes := (gmap (NodeId * N) NodeId).

(** ** No configuration changes *)

Definition plain (e : WalRecord m_command) : Prop := m_changes (command e) = None.

Definition plain_chunk (x : x_chunk) : Prop := ∀ s : S, x_header x = Some s → m_membership s = None.

Definition plain_msg (m : Message (S := S)) : Prop :=
  match m with
  | AppendEntries _ _ _ es _ _ => Forall plain es
  | InstallSnapshot _ _ _ x => plain_chunk x
  | _ => True
  end.

Record static (n : RaftNode (S := S)) : Prop := {
  st_cfg : initial_voters (cfg n) = Some M;
  st_log : Forall plain (log n);
  st_wal : Forall plain (l_recs (wal n));
  st_catalog : m_membership (catalog n) = None;
  st_stored : m_membership (stored n) = None;
  st_initial : initial n = M;
  st_membership : membership n = M;
  st_incoming i : incoming n = Some i → m_membership (in_state i) = None;
  st_outgoing p o : outgoing n !! p = Some o → m_membership (o_state o) = None ∧ plain_chunk (o_chunk o);
  st_outbox : Forall (λ e, plain_msg (msg e)) (outbox n);
}.

(** ** Votes *)

(** The votes of node [v] are remembered in [h]. *)
Definition remembers (g : Votes) (v : NodeId) (h : HardState) : Prop :=
  ∀ t c, g !! (v, t) = Some c → t ≤ hterm h ∧ (t = hterm h → voted_for h = Some c).

Definition told (g : Votes) (env : Envelope (S := S)) : Prop :=
  match msg env with
  | RequestVoteResponse t true => g !! (from env, t) = Some (to env)
  | _ => True
  end.

(** [v] has a quorum in term [t]. *)
Definition elected (g : Votes) (v : NodeId) (t : N) : Prop :=
  ∃ vs, has_quorum M vs = true ∧ ∀ u, u ∈ vs → g !! (u, t) = Some v.

Record counted (g : Votes) (n : RaftNode (S := S)) : Prop := {
  co_votes : role n = Candidate → ∀ v, v ∈ votes n → g !! (v, my_term n) = Some (my_id n);
  co_leader : role n = Leader → elected g (my_id n) (my_term n);
}.

Record ballots (g : Votes) (n : RaftNode (S := S)) : Prop := {
  bl_static : static n;
  bl_hard : remembers g (my_id n) (hard n);
  bl_file : remembers g (my_id n) (hard_file n);
  bl_from : Forall (λ e, from e = my_id n ∧ told g e) (outbox n);
}.

(** [g] has the votes of [g0] and more of node [v]. *)
Definition casts (v : NodeId) (g0 g : Votes) : Prop :=
  g0 ⊆ g ∧ ∀ u t, u ≠ v → g !! (u, t) = g0 !! (u, t).

(** The invariant; what depends on the role only when [b]. *)
Definition inv (b : bool) (v : NodeId) (g0 : Votes) (n : RaftNode (S := S)) : Prop :=
  my_id n = v ∧ ∃ g, casts v g0 g ∧ ballots g n ∧ (b = true → counted g n).

Lemma casts_refl v g : casts v g g.
Proof. done. Qed.
Lemma casts_trans v g1 g2 g3 : casts v g1 g2 → casts v g2 g3 → casts v g1 g3.
Proof. intros [A1 B1] [A2 B2]. split; [by etrans|]. intros u t Hu. by rewrite B2, B1. Qed.

Lemma elected_mono g g' v t : g ⊆ g' → elected g v t → elected g' v t.
Proof. intros Hg (vs & Hq & Hv). exists vs. split; [done|]. intros u Hu. eapply lookup_weaken; [by apply Hv|done]. Qed.

Lemma told_mono g g' e : g ⊆ g' → told g e → told g' e.
Proof. unfold told. intros Hg. destruct (msg e) as [| | |? []| | | | | |]; try done. intros ?. by eapply lookup_weaken. Qed.

(** Two leaders of a term have a voter in common, who voted once. *)
Lemma elected_unique g a b t : elected g a t → elected g b t → a = b.
Proof.
  intros (vs & Hq & Hv) (ws & Hq' & Hw). destruct (has_quorum_intersect M vs ws Hq Hq') as (u & _ & Hu & Hu').
  apply Hv in Hu. apply Hw in Hu'. congruence.
Qed.

Lemma inv_weaken b v g0 n : inv b v g0 n → inv false v g0 n.
Proof. intros (Hid & g & Hg & Hb & _). split; [done|]. by exists g. Qed.

(** ** Edits *)

(** What the invariant looks at. *)
Definition same_ballot (n n' : RaftNode (S := S)) : Prop :=
  my_id n' = my_id n ∧ hard n' = hard n ∧ hard_file n' = hard_file n ∧ role n' = role n ∧ votes n' = votes n ∧ outbox n' = outbox n.

Lemma inv_touch b v g0 n n' : inv b v g0 n → same_ballot n n' → (static n → static n') → inv b v g0 n'.
Proof.
  intros (Hid & g & Hg & [B1 B2 B3 B4] & Hc) (E1 & E2 & E3 & E4 & E5 & E6) Hst. unfold inv. rewrite E1. split; [done|].
  exists g. split; [done|]. split.
  - split; [by apply Hst|by rewrite E1, E2|by rewrite E1, E3|by rewrite E1, E6].
  - intros Hb. destruct (Hc Hb) as [C1 C2]. assert (my_term n' = my_term n) as E7 by (unfold my_term; by rewrite E2).
    split; rewrite E4, E1; [|by rewrite E7]. intros Hr u. rewrite E5, E7. by apply C1.
Qed.

Lemma inv_send b v g0 n dest m :
  inv b v g0 n → plain_msg m → (∀ t, m ≠ RequestVoteResponse t true) → inv b v g0 (n <| outbox ::= λ l, l ++ [mkEnv (my_id n) dest m] |>).
Proof.
  intros (Hid & g & Hg & [[] B2 B3 B4] & Hc) Hp Hm. split; [done|]. exists g. split; [done|]. split.
  - split; [split; try done; simpl; apply Forall_app; by split; [|constructor]|done|done|]. simpl. apply Forall_app. split; [done|].
    constructor; [|done]. split; [done|]. unfold told. simpl. destruct m as [| | |t []| | | | | |]; try done. by destruct (Hm t).
  - intros Hb. destruct (Hc Hb) as [C1 C2]. by split.
Qed.

(** An edit of fields the invariant does not look at, or only keeps plain. *)
Ltac edit := intros; eapply inv_touch; [eassumption|by repeat split|intros []; split; simpl; try done].

Section node.
Context (b : bool) (v : NodeId) (g0 : Votes).
Abbreviation I := (inv b v g0).

Lemma keeps_send dest m : plain_msg m → (∀ t, m ≠ RequestVoteResponse t true) → keeps I (send dest m).
Proof. intros Hp Hm. apply keeps_modify. intros n Hn. by apply inv_send. Qed.

Lemma keeps_wal_append e : plain e → keeps I (wal_append_unsynced e).
Proof.
  intros He. unfold wal_append_unsynced. keeps_auto. edit. apply Forall_app. split; [done|by constructor].
Qed.

Lemma keeps_wal_sync : keeps I wal_sync.
Proof. unfold wal_sync. keeps_auto. edit. Qed.
Lemma keeps_wal_raise_floor i : keeps I (wal_raise_floor i).
Proof. unfold wal_raise_floor. keeps_auto. edit. Qed.

Lemma plain_filter (f : WalRecord m_command → bool) l : Forall plain l → Forall plain (List.filter f l).
Proof. rewrite !Forall_forall. intros Hl e (He & _)%list_elem_of_In%filter_In. by apply Hl, list_elem_of_In. Qed.

Lemma keeps_wal_compact i : keeps I (wal_compact_through i).
Proof. unfold wal_compact_through. keeps_auto. edit. by apply plain_filter. Qed.
Lemma keeps_wal_truncate i : keeps I (wal_truncate_after i).
Proof. unfold wal_truncate_after. keeps_auto. edit. by apply plain_filter. Qed.
Lemma keeps_wal_reset i : keeps I (wal_reset i).
Proof. unfold wal_reset. keeps_auto. edit. by apply plain_filter. Qed.

Lemma keeps_drain k : keeps I (drain_log k).
Proof. unfold drain_log. keeps_auto. edit. by apply Forall_drop. Qed.

Lemma keeps_persist_catalog : keeps I persist_catalog.
Proof. unfold persist_catalog. keeps_auto. edit. Qed.

Lemma keeps_reset_timer : keeps I reset_election_timer.
Proof. unfold reset_election_timer. keeps_auto. destruct (election_ticks _). edit. Qed.

Lemma no_change l : Forall plain l → latest_change l = None.
Proof.
  intros Hl. unfold latest_change. assert (omap (λ e, m ← m_changes (command e); Some (e, m)) (reverse l) = []) as ->; [|done].
  apply Forall_reverse in Hl. induction Hl as [|e l' He _ IH]; [done|]. simpl. by rewrite He.
Qed.

Lemma keeps_refresh : keeps I refresh_membership.
Proof.
  unfold refresh_membership. keeps_auto. eapply inv_touch; [done| |].
  - unfold same_ballot, my_id. case_match; by repeat split.
  - intros Hst. pose proof Hst as []. rewrite (no_change _ st_log0), st_catalog0. simpl.
    case_match; split; simpl; done.
Qed.

Lemma inv_static n : I n → static n.
Proof. by intros (_ & g & _ & [] & _). Qed.

Hint Resolve keeps_send keeps_wal_append keeps_wal_sync keeps_wal_raise_floor keeps_wal_compact keeps_wal_truncate keeps_wal_reset
  keeps_drain keeps_persist_catalog keeps_reset_timer keeps_refresh : keeps.
Hint Extern 1 (plain_msg _) => done : keeps.
Hint Extern 1 (∀ t, _ ≠ RequestVoteResponse t true) => done : keeps.

Lemma keeps_answer_read dest id i : keeps I (answer_read dest id i).
Proof. unfold answer_read. keeps_auto. edit. Qed.
Hint Resolve keeps_answer_read : keeps.

Lemma keeps_confirm_reads ack seq : keeps I (confirm_reads ack seq).
Proof. unfold confirm_reads. keeps_auto. edit. Qed.
Hint Resolve keeps_confirm_reads : keeps.

Lemma plain_start s now : m_membership s = None → m_membership (o_state (start_out s now)) = None ∧ plain_chunk (o_chunk (start_out s now)).
Proof.
  intros Hs. unfold start_out. destruct (x_start s) as [x k] eqn:E. split; [done|]. intros h Hh. simpl in Hh.
  destruct (ml_start _ _ _ _ E Hh) as (_ & _ & ->). done.
Qed.

Lemma inv_outgoing n p o :
  I n → m_membership (o_state o) = None ∧ plain_chunk (o_chunk o) → I (n <| outgoing ::= <[p := o]> |>).
Proof. intros Hn Ho. edit. intros q o' [[<- <-]|[_ ?]]%lookup_insert_Some; eauto. Qed.

Lemma keeps_send_snapshot p : keeps I (send_snapshot p).
Proof.
  unfold send_snapshot. apply (keeps_get_with _ static); [apply inv_static|]. intros n Hst.
  destruct (outgoing n !! p) as [o|] eqn:Ho.
  - destruct (st_outgoing _ Hst _ _ Ho) as [H1 H2]. keeps_auto; by apply inv_outgoing.
  - pose proof (plain_start (catalog n) (ticks n) (st_catalog _ Hst)) as [H1 H2]. keeps_auto; by apply inv_outgoing.
Qed.
Hint Resolve keeps_send_snapshot : keeps.

Lemma keeps_send_append p : keeps I (send_append p).
Proof.
  unfold send_append. apply (keeps_get_with _ static); [apply inv_static|]. intros n Hst. cbv zeta. keeps_auto; [edit|].
  apply keeps_send; [|done]. simpl. by apply Forall_take, Forall_drop, Hst.
Qed.
Hint Resolve keeps_send_append : keeps.

Lemma keeps_broadcast : keeps I broadcast_append.
Proof. unfold broadcast_append. keeps_auto. Qed.
Hint Resolve keeps_broadcast : keeps.

Lemma keeps_register_read dest id : keeps I (register_read dest id).
Proof. unfold register_read. keeps_auto; edit. Qed.

Lemma keeps_spec_mut : keeps I spec_mut.
Proof. unfold spec_mut. keeps_auto. edit. Qed.
Hint Resolve keeps_spec_mut keeps_register_read : keeps.

Lemma keeps_append_local c : m_changes c = None → keeps I (append_local c).
Proof.
  intros Hc. unfold append_local. rewrite Hc. keeps_auto; edit. apply Forall_app. split; [done|by constructor].
Qed.
Hint Resolve keeps_append_local : keeps.

Lemma keeps_append_validated c : m_changes c = None → keeps I (append_validated c).
Proof. intros Hc. unfold append_validated. keeps_auto; edit. Qed.
Hint Resolve keeps_append_validated : keeps.

Lemma committed_plain e s s' : plain e → committed e s = Some s' → m_membership s' = m_membership s.
Proof.
  unfold committed. intros He. destruct (m_apply_committed _ _ _ _) as [s1 r] eqn:E. apply (ml_plain _ _ _ _ _ _ He) in E.
  destruct r; [|..]; congruence.
Qed.

Lemma keeps_apply_loop fuel : keeps I (apply_loop fuel).
Proof.
  induction fuel as [|fuel IH]; cbn [apply_loop]; [keeps_auto|]. apply (keeps_get_with _ static); [apply inv_static|]. intros n Hst.
  destruct (m_applied _ <? _); [|keeps_auto]. destruct (entry n _) as [e|] eqn:He; [|keeps_auto].
  destruct (committed e (catalog n)) as [s|] eqn:Hs; simpl; [|keeps_auto]. 
  assert (m_membership s = None) as Hm.
  { rewrite (committed_plain e (catalog n) s); [apply Hst| |done]. unfold entry in He. case_match; [done|].
    eapply Forall_lookup_1; [apply Hst|done]. }
  keeps_auto. edit.
Qed.
Hint Resolve keeps_apply_loop : keeps.

Lemma keeps_maybe_compact : keeps I maybe_compact.
Proof. unfold maybe_compact. keeps_auto. edit. Qed.
Hint Resolve keeps_maybe_compact : keeps.

Lemma keeps_apply_committed : keeps I apply_committed.
Proof. unfold apply_committed. keeps_auto. Qed.
Hint Resolve keeps_apply_committed : keeps.

Lemma ends_answer_read dest id i : ends I (answer_read dest id i) I.
Proof.
  intros n Hn. pose proof (keeps_answer_read dest id i n Hn) as Hk. destruct dest; (eexists _, (); split; [reflexivity|exact Hk]).
Qed.

End node.

Section roles.
Context (v : NodeId) (g0 : Votes).

Lemma ends_raise_term t : ends (inv false v g0) (raise_term t) (inv false v g0).
Proof.
  intros n Hn. unfold raise_term, sm_reads, mbind, sm_bind. destruct (N.ltb_spec (my_term n) t) as [Hlt|Hge]; [|by exists n, ()].
  eexists _, (). split; [done|]. destruct Hn as (Hid & g & Hg & [Hst Hh Hf Ho] & _). split; [done|]. exists g.
  assert (remembers g (my_id n) (mkHard t None)) as Hr.
  { intros t' c Hc. destruct (Hh t' c Hc) as [Hle _]. unfold my_term in Hlt. simpl in *. split; lia. }
  split; [done|]. split; [|done]. split; try done. by destruct Hst.
Qed.

Lemma follower_forgets n l :
  inv false v g0 n → inv true v g0 (n <| role := Follower |> <| spec := None |> <| outgoing := ∅ |> <| leader := l |> <| votes := ∅ |>).
Proof.
  intros (Hid & g & Hg & [Hst Hh Hf Ho] & _). split; [done|]. exists g. split; [done|]. split; [|done].
  split; try done. destruct Hst. by split.
Qed.

(** Becoming a follower forgets what depends on the role. *)
Lemma ends_become_follower t l : ends (inv false v g0) (become_follower t l) (inv true v g0).
Proof.
  unfold become_follower. eapply ends_bind; [apply ends_modify; intros n Hn; by apply (keeps_wal_sync false v g0)|intros _].
  eapply ends_bind; [apply ends_raise_term|intros _]. eapply ends_bind; [apply ends_reads|intros rs].
  eapply ends_bind; [apply (ends_modify _ (inv false v g0)); edit|intros _].
  eapply ends_bind; [apply ends_for; intros r; apply ends_answer_read|intros _].
  eapply ends_bind; [apply ends_modify; intros n Hn; by apply (follower_forgets n l)|intros _].
  apply ends_modify. intros n Hn. by apply (keeps_reset_timer true v g0).
Qed.

Abbreviation I := (inv true v g0).
Abbreviation node_static := (inv_static true v g0).

Lemma keeps_become_follower t l : keeps I (become_follower t l).
Proof. intros n Hn. by eapply ends_keeps; [apply ends_become_follower|eapply inv_weaken]. Qed.

Hint Resolve keeps_become_follower : keeps.
Hint Resolve keeps_wal_append keeps_wal_sync keeps_wal_raise_floor keeps_wal_compact keeps_wal_truncate keeps_wal_reset keeps_drain
  keeps_persist_catalog keeps_reset_timer keeps_refresh keeps_answer_read keeps_confirm_reads keeps_send_snapshot keeps_send_append
  keeps_broadcast keeps_register_read keeps_spec_mut keeps_append_local keeps_append_validated keeps_apply_committed : keeps.
Hint Resolve keeps_send : keeps.
Hint Extern 1 (plain_msg _) => done : keeps.
Hint Extern 1 (∀ t, _ ≠ RequestVoteResponse t true) => done : keeps.

Lemma keeps_finish : keeps I finish_membership_change.
Proof.
  unfold finish_membership_change. apply (keeps_get_with _ static); [apply node_static|]. intros n Hst.
  rewrite (st_membership _ Hst). keeps_auto.
Qed.
Hint Resolve keeps_finish : keeps.

Lemma keeps_commit_round : keeps I commit_round.
Proof. unfold commit_round. keeps_auto. edit. Qed.
Hint Resolve keeps_commit_round : keeps.

Lemma keeps_advance_commit : keeps I advance_commit.
Proof.
  unfold advance_commit. generalize commit_rounds. intros fuel. induction fuel as [|fuel IH]; cbn [commit_loop]; keeps_auto.
Qed.
Hint Resolve keeps_advance_commit : keeps.

Lemma keeps_append_entry e : plain e → keeps I (append_entry e).
Proof.
  intros He. unfold append_entry. keeps_auto; edit; try by apply Forall_take. all: apply Forall_app; by split; [|constructor].
Qed.

Lemma keeps_check_append pi pt es lc : Forall plain es → keeps I (check_append pi pt es lc).
Proof.
  intros Hes. unfold check_append, append_entries. keeps_auto; [|edit]. apply keeps_append_entry. by eapply Forall_forall in Hes.
Qed.

Lemma keeps_handle_append pi pt es lc : Forall plain es → keeps I (handle_append pi pt es lc).
Proof. intros Hes. unfold handle_append. keeps_auto; apply keeps_check_append; [by apply Forall_drop|done]. Qed.

Lemma keeps_adopt s : m_membership s = None → keeps I (adopt_snapshot s).
Proof. intros Hs. unfold adopt_snapshot. keeps_auto; edit. Qed.
Hint Resolve keeps_adopt : keeps.

Lemma stage_plain x s s' : x_stage x s = Some s' → m_membership s = None → m_membership s' = None.
Proof. intros E Hs. by destruct (ml_stage _ _ _ E) as (_ & _ & ->). Qed.

Lemma keeps_snapshot_chunk idx seq x : plain_chunk x → keeps I (handle_snapshot_chunk idx seq x).
Proof.
  intros Hx. unfold handle_snapshot_chunk, install_staged. apply (keeps_get_with _ static); [apply node_static|]. intros n Hst.
  destruct (_ <=? _); [keeps_auto; edit|]. destruct (x_header x) as [s|] eqn:Es.
  { apply Hx in Es. keeps_auto; edit. by intros ? [= <-]. }
  destruct (incoming n) as [i|] eqn:Ei; [|keeps_auto]. pose proof (st_incoming _ Hst _ Ei) as Hi.
  destruct (x_stage x (in_state i)) as [s|] eqn:Es'; keeps_auto; edit. intros ? [= <-]. by eapply stage_plain.
Qed.

(** ** Casting and counting votes *)

Lemma inv_casts g1 b n : casts v g0 g1 → inv b v g1 n → inv b v g0 n.
Proof. intros Hc (Hid & g & Hg & Hr). split; [done|]. exists g. split; [by eapply casts_trans|done]. Qed.

(** A node votes for [c] in its term when it voted for no one else in it. *)
Definition vote_for (c : NodeId) (n : RaftNode (S := S)) : RaftNode :=
  let h := mkHard (my_term n) (Some c) in n <| hard := h |> <| hard_file := h |>.

Lemma casts_vote g n c :
  my_id n = v → remembers g v (hard n) → (∀ c', voted_for (hard n) = Some c' → c' = c) → casts v g (<[(v, my_term n) := c]> g).
Proof.
  intros Hid Hr Hc. split.
  - apply map_subseteq_spec. intros k d E. destruct (decide (k = (v, my_term n))) as [->|Hne]; [|by rewrite lookup_insert_ne by done].
    destruct (Hr _ _ E) as [_ Hv]. by rewrite lookup_insert_eq, (Hc d (Hv eq_refl)).
  - intros u t Hu. by rewrite lookup_insert_ne by congruence.
Qed.

Lemma remembers_vote g n c : remembers g v (hard n) → remembers (<[(v, my_term n) := c]> g) v (mkHard (my_term n) (Some c)).
Proof.
  intros Hr t d [[[= <-] <-]|[Hne Hd]]%lookup_insert_Some; [done|]. destruct (Hr t d Hd) as [Hle _]. simpl. split; [done|].
  intros ->. done.
Qed.

Lemma ballots_vote g n c :
  my_id n = v → (∀ c', voted_for (hard n) = Some c' → c' = c) → ballots g n → ballots (<[(v, my_term n) := c]> g) (vote_for c n).
Proof.
  intros Hid Hc [Hst Hh Hf Ho]. rewrite Hid in *. pose proof (casts_vote g n c Hid Hh Hc) as [Hsub _].
  split; change (my_id (vote_for c n)) with (my_id n); rewrite ?Hid; [by destruct Hst; split|by apply remembers_vote|by apply remembers_vote|].
  eapply Forall_impl; [done|]. intros e [Hfrom Ht]. split; [done|by eapply told_mono].
Qed.

Lemma inv_vote n c :
  I n → (∀ c', voted_for (hard n) = Some c' → c' = c) →
  ∃ g1, casts v g0 g1 ∧ g1 !! (v, my_term n) = Some c ∧ inv true v g1 (vote_for c n).
Proof.
  intros (Hid & g & Hg & Hb & Hcnt) Hc. pose proof (casts_vote g n c Hid) as Hcast. pose proof Hb as [_ Hh _ _]. rewrite Hid in Hh.
  specialize (Hcast Hh Hc). exists (<[(v, my_term n) := c]> g). split; [by eapply casts_trans|]. split; [by rewrite lookup_insert_eq|].
  split; [done|]. exists (<[(v, my_term n) := c]> g). split; [done|]. split; [by apply ballots_vote|]. intros Ht.
  destruct (Hcnt Ht) as [Hv Hl]. destruct Hcast as [Hsub _]. split; simpl.
  - intros Hr u Hu. eapply lookup_weaken; [by apply Hv|done].
  - intros Hr. eapply elected_mono; [done|by apply Hl].
Qed.

Lemma inv_tell n dest t :
  I n → g0 !! (v, t) = Some dest → I (n <| outbox ::= λ l, l ++ [mkEnv (my_id n) dest (RequestVoteResponse t true)] |>).
Proof.
  intros (Hid & g & Hg & [[] B2 B3 B4] & Hc) Ht. split; [done|]. exists g. split; [done|].
  split; [|intros Hb; destruct (Hc Hb) as [C1 C2]; by split].
  split; [split; try done; simpl; apply Forall_app; by split; [|constructor]|done|done|]. simpl. apply Forall_app. split; [done|].
  constructor; [|done]. split; [done|]. unfold told. simpl. rewrite Hid. eapply lookup_weaken; [done|apply Hg].
Qed.

Lemma timer_term n : my_term (reset_election_timer n).1 = my_term n.
Proof. unfold reset_election_timer, sm_modify. simpl. by destruct (election_ticks _). Qed.

End roles.

Section counting.
Context (v : NodeId) (g0 : Votes).
Abbreviation I := (inv true v g0).

(** The answer to a request for a vote, once it is decided. *)
Lemma keeps_answer_vote src (granted : bool) n :
  I n → (granted = true → ∀ c, voted_for (hard n) = Some c → c = src) →
  I (((if granted
       then sm_modify (λ n, n <| hard ::= λ h, mkHard (hterm h) (Some src) |>) ;; persist_hard ;; reset_election_timer
       else mret ()) ;;
      t' ← sm_reads my_term;
      send src (RequestVoteResponse t' granted)) n).1.
Proof.
  intros Hn Hc. destruct granted; [|by apply keeps_send]. destruct (inv_vote v g0 n src Hn (Hc eq_refl)) as (g1 & Hcast & Ht & Hv).
  apply (inv_casts _ _ g1); [done|]. apply (keeps_reset_timer true v g1) in Hv. apply inv_tell; [exact Hv|].
  change (g1 !! (v, my_term (reset_election_timer (vote_for src n)).1) = Some src). by rewrite timer_term.
Qed.

Lemma keeps_request_vote src t lli llt : keeps I (on_request_vote src t lli llt).
Proof.
  intros n Hn. apply keeps_answer_vote; [done|]. intros [[_ Hv]%andb_prop _]%andb_prop c Hc. rewrite Hc in Hv. by apply String.eqb_eq.
Qed.

Hint Resolve keeps_become_follower keeps_request_vote keeps_wal_sync keeps_reset_timer keeps_confirm_reads keeps_send_append
  keeps_broadcast keeps_register_read keeps_append_local keeps_append_validated keeps_advance_commit keeps_handle_append
  keeps_snapshot_chunk keeps_finish keeps_send ml_noop : keeps.
Hint Extern 1 (plain_msg _) => done : keeps.
Hint Extern 1 (∀ t, _ ≠ RequestVoteResponse t true) => done : keeps.

(** A candidate with a quorum leads. *)
Lemma become_leader_keeps n : I n → role n = Candidate → has_quorum (membership n) (votes n) = true → I (become_leader n).1.
Proof.
  intros (Hid & g & Hg & [Hst Hh Hf Ho] & Hc) Hr Hq. unfold become_leader.
  assert (∀ n, I n → I ((append_local m_noop ;; broadcast_append ;; advance_commit) n).1) as Hk.
  { change (keeps I (append_local m_noop ;; broadcast_append ;; advance_commit)). keeps_auto. }
  apply Hk. split; [done|]. exists g. split; [done|]. split; [split; try done; destruct Hst; by split|]. intros _. split; [done|].
  intros _. exists (votes n). rewrite (st_membership _ Hst) in Hq. split; [done|]. destruct (Hc eq_refl) as [Hv _]. by apply Hv.
Qed.

(** A campaign votes for itself in a new term. *)
Definition stand (n : RaftNode (S := S)) : RaftNode :=
  let n := n <| role := Candidate |> <| hard := mkHard (my_term n + 1) (Some (my_id n)) |> in
  let n := n <| hard_file := hard n |> in
  n <| leader := None |> <| votes := {[my_id n]} |>.

Lemma stand_inv n : I n → I (stand n).
Proof.
  intros (Hid & g & Hg & [Hst Hh Hf Ho] & Hc). rewrite Hid in *. set (t := my_term n + 1).
  assert (remembers (<[(v, t) := v]> g) v (mkHard t (Some v))) as Hr.
  { intros t' c [[[= <-] <-]|[Hne Hd]]%lookup_insert_Some; [done|]. destruct (Hh t' c Hd) as [Hle _]. unfold my_term in t. simpl.
    split; lia. }
  assert (casts v g (<[(v, t) := v]> g)) as Hcast.
  { split; [|intros u t' Hu; by rewrite lookup_insert_ne by congruence]. apply insert_subseteq. 
    destruct (g !! (v, t)) as [c|] eqn:E; [|done]. destruct (Hh _ _ E) as [Hle _]. unfold my_term in t. lia. }
  split; [done|]. exists (<[(v, t) := v]> g). split; [by eapply casts_trans|]. unfold stand. rewrite Hid. fold t. split.
  - split; try done; change (my_id _) with (my_id n); rewrite ?Hid; [destruct Hst; by split|done|done|].
    simpl. eapply Forall_impl; [exact Ho|]. intros e [Hfrom Ht]. split; [done|]. by eapply told_mono; [apply Hcast|].
  - intros _. split; [|done]. intros _ u Hu. simpl in Hu. apply elem_of_singleton in Hu as ->. change (my_id _) with (my_id n).
    rewrite Hid. apply lookup_insert_eq.
Qed.

Lemma timer_ok n : reset_election_timer n = ((reset_election_timer n).1, Ok ()).
Proof. done. Qed.
Lemma timer_role n : role (reset_election_timer n).1 = role n.
Proof. unfold reset_election_timer, sm_modify. simpl. by destruct (election_ticks _). Qed.

Lemma keeps_campaign : keeps I campaign.
Proof.
  intros n Hn. apply stand_inv in Hn. pose proof (timer_role (stand n)) as Hr. apply (keeps_reset_timer true v g0) in Hn.
  unfold campaign, persist_hard. rewrite !run_modify. fold (stand n). rewrite (run_ok _ _ _ _ _ (timer_ok (stand n))).
  revert Hn Hr. generalize (reset_election_timer (stand n)).1. intros n' Hn Hr. change (role (stand n)) with Candidate in Hr.
  rewrite run_get. destruct (has_quorum _ _) eqn:Hq; [by apply become_leader_keeps|].
  apply keeps_for; [|done]. intros p _. by apply keeps_send.
Qed.
Hint Resolve keeps_campaign : keeps.

Lemma keeps_pre_campaign : keeps I pre_campaign.
Proof.
  unfold pre_campaign. keeps_auto. destruct H1 as (Hid & g & Hg & [Hst Hh Hf Ho] & Hc). split; [done|]. exists g. split; [done|].
  split; [split; try done; destruct Hst; by split|]. intros _. by split.
Qed.
Hint Resolve keeps_pre_campaign : keeps.

(** A vote that was told is counted. *)
Lemma inv_count src n :
  I n → (role n = Candidate → g0 !! (src, my_term n) = Some v) → I (n <| votes ::= λ s, {[src]} ∪ s |>).
Proof.
  intros (Hid & g & Hg & [Hst Hh Hf Ho] & Hc) Ht. split; [done|]. exists g. split; [done|].
  split; [split; try done; destruct Hst; by split|]. intros _. destruct (Hc eq_refl) as [Hv Hl]. split; [|done].
  intros Hr u Hu. simpl in Hr, Hu. apply elem_of_union in Hu as [->%elem_of_singleton|Hu]; [|by apply Hv]. change (my_id _) with (my_id n). rewrite Hid.
  eapply lookup_weaken; [by apply Ht|apply Hg].
Qed.

(** ** Handlers *)

Lemma keeps_ensure_follower t l : keeps I (ensure_follower t l).
Proof. unfold ensure_follower. keeps_auto. edit. Qed.
Hint Resolve keeps_ensure_follower : keeps.

Lemma keeps_append_response p ok m seq : keeps I (on_append_response p ok m seq).
Proof. unfold on_append_response. keeps_auto; edit. Qed.

Lemma keeps_finish_snapshot p m : keeps I (finish_snapshot p m).
Proof. unfold finish_snapshot. keeps_auto; edit. intros q o [_ ?]%lookup_delete_Some. eauto. Qed.
Hint Resolve keeps_finish_snapshot keeps_append_response : keeps.

Lemma advance_plain o now o' :
  advance_out o now = Ok o' → m_membership (o_state o) = None ∧ plain_chunk (o_chunk o) →
  m_membership (o_state o') = None ∧ plain_chunk (o_chunk o').
Proof.
  unfold advance_out. destruct (x_advance _ _) as [[[x k]|]|e|] eqn:E; simpl; intros [= <-] [H1 H2]; [|done]. split; [done|].
  intros s Hs. simpl in Hs. by rewrite (ml_advance _ _ _ _ E) in Hs.
Qed.

Lemma keeps_snapshot_response p m ack : keeps I (on_snapshot_response p m ack).
Proof.
  unfold on_snapshot_response. apply keeps_bind; [keeps_auto; edit|intros _].
  apply (keeps_get_with _ static); [apply inv_static|]. intros n Hst.
  pose proof (plain_start (catalog n) (ticks n) (st_catalog _ Hst)) as [Hs1 Hs2]. pose proof (st_outgoing _ Hst p) as Hout.
  destruct (outgoing n !! p) as [o|] eqn:Ho; [|keeps_auto]. specialize (Hout o eq_refl).
  destruct (advance_out o (ticks n)) as [o'| |] eqn:Ha; [apply advance_plain in Ha as [Ha1 Ha2]; [|done]|..].
  all: keeps_auto; by apply inv_outgoing.
Qed.
Hint Resolve keeps_snapshot_response : keeps.

Lemma keeps_on_append src t pi pt es lc rs : Forall plain es → keeps I (on_append src t pi pt es lc rs).
Proof. intros Hes. unfold on_append. keeps_auto. Qed.

Lemma keeps_on_snapshot src t idx seq x : plain_chunk x → keeps I (on_snapshot src t idx seq x).
Proof. intros Hx. unfold on_snapshot. keeps_auto. Qed.

Lemma keeps_on_read_index src t id : keeps I (on_read_index src t id).
Proof. unfold on_read_index. keeps_auto. Qed.

Lemma keeps_observe src m : keeps I (observe_term src m).
Proof. unfold observe_term. keeps_auto. Qed.
Hint Resolve keeps_on_append keeps_on_snapshot keeps_on_read_index keeps_observe : keeps.

Lemma keeps_pre_vote_response src t granted : keeps I (dispatch src (PreVoteResponse t granted)).
Proof.
  apply keeps_from_get. intros n Hn. destruct (has_role n PreCandidate && granted && (t =? my_term n + 1)) eqn:Hr; [|done].
  apply andb_prop in Hr as [[Hr _]%andb_prop _]. apply bool_decide_eq_true in Hr. rewrite run_modify, run_get.
  assert (I (n <| votes ::= λ s, {[src]} ∪ s |>)) as Hn' by (apply inv_count; [done|by rewrite Hr]).
  destruct (has_quorum _ _); [by apply keeps_campaign|done].
Qed.

Lemma keeps_vote_response src t granted :
  (granted = true → g0 !! (src, t) = Some v) → keeps I (dispatch src (RequestVoteResponse t granted)).
Proof.
  intros Ht. apply keeps_from_get. intros n Hn. destruct (has_role n Candidate && (t =? my_term n) && granted) eqn:Hr; [|done].
  apply andb_prop in Hr as [[Hr ->%N.eqb_eq]%andb_prop ->]. apply bool_decide_eq_true in Hr. rewrite run_modify, run_get.
  assert (I (n <| votes ::= λ s, {[src]} ∪ s |>)) as Hn' by (apply inv_count; auto).
  destruct (has_quorum _ _) eqn:Hq; [|done]. by apply become_leader_keeps.
Qed.

Lemma keeps_dispatch env : to env = v → told g0 env → plain_msg (msg env) → keeps I (dispatch (from env) (msg env)).
Proof.
  intros Hto Ht Hp. unfold told in Ht. destruct (msg env) as [| |? ? ?|? granted| | | | | |];
    try apply keeps_pre_vote_response.
  - unfold dispatch. keeps_auto.
  - unfold dispatch. keeps_auto.
  - apply keeps_vote_response. intros ->. by rewrite Ht, Hto.
  - unfold dispatch. keeps_auto.
  - unfold dispatch. keeps_auto.
  - unfold dispatch. keeps_auto.
  - unfold dispatch. keeps_auto.
  - unfold dispatch. keeps_auto.
  - unfold dispatch. keeps_auto. edit.
Qed.

(** ** The interface *)

Lemma keeps_step env : to env = v → told g0 env → plain_msg (msg env) → keeps I (step env).
Proof. intros Hto Ht Hp. unfold step. keeps_auto. by apply keeps_dispatch. Qed.

Lemma keeps_tick : keeps I tick.
Proof. unfold tick, tick_leader, check_quorum. keeps_auto; edit. Qed.

Lemma keeps_propose c : keeps I (propose c).
Proof. unfold propose. keeps_auto. Qed.

Lemma keeps_read_index : keeps I read_index.
Proof. unfold read_index. keeps_auto. edit. Qed.

Lemma keeps_read_result id : keeps I (read_result id).
Proof. unfold read_result. keeps_auto. edit. Qed.

Lemma keeps_forget_read id : keeps I (forget_read id).
Proof. unfold forget_read. keeps_auto. edit. Qed.

Lemma keeps_take_messages : keeps I take_messages.
Proof.
  unfold take_messages. keeps_auto. destruct H1 as (Hid & g & Hg & [[] Hh Hf Ho] & Hc). split; [done|]. exists g. split; [done|].
  split; [by split|]. intros Hb. destruct (Hc Hb). by split.
Qed.

End counting.

(** ** Start *)

Lemma open_inv c g h s w n :
  initial_voters c = Some M → remembers g (cid c) h → m_membership s = None → Forall plain (l_recs w) →
  open c h s w = Ok n → inv true (cid c) g n.
Proof.
  intros Hv Hh Hs Hw. unfold open. destruct (config_ok c); [|done]. cbn [negb]. destruct (contiguous _ _); [|done]. cbn [negb].
  rewrite Hv. assert (inv true (cid c) g (booted c M h s w)) as Hn0.
  { split; [done|]. exists g. split; [done|]. split; [|done]. split; [split; simpl; try done; by apply plain_filter| |done|constructor].
    intros t d Hd. destruct (Hh t d Hd) as [H1 H2]. simpl. split; [lia|]. intros E. apply H2. lia. }
  assert (keeps (inv true (cid c) g) (start (m_applied s))) as Hk.
  { unfold start. keeps_auto; eauto using keeps_wal_compact, keeps_wal_raise_floor, keeps_refresh, keeps_reset_timer. }
  specialize (Hk _ Hn0). destruct (start _ _) as [n1 [[]|e|]]; [|done..]. by intros [= <-].
Qed.

End votes.
End RaftVotes.
