(* ===== verification/RaftCluster.v ===== *)
(** * A cluster ([raft.rs], [raft_server.rs])

    Nodes that tick, take proposals and reads, exchange messages and crash, in
    any order.  The network loses, duplicates, delays and reorders messages: what
    was sent stays deliverable.  A crash keeps the vote, the checkpoint and a
    beginning of the write-ahead log with all that was synced; the node opens
    again from these.  Such a crash is clean: no record is torn ([WalSpec.v] has the
    crashes of the file that are, and two kinds that are not).  No action proposes a
    change of membership, so the voters are those of the start.  A node that stops after an error takes no more steps; one that
    panics or cannot open again is gone. *)

From S2P Require Import Prelude Membership Wal WalSpec RaftMachine Raft RaftCalc RaftVotes.

Module RaftCluster.
Import Membership.
Import Wal WalSpec Raft RaftCalc RaftVotes.

Open Scope N_scope.

Section cluster.
Context {S : Type} `{Machine S}.
Implicit Types n : RaftNode (S := S).

Record Cluster := mkCluster { nodes : gmap NodeId (RaftNode (S := S)); net : list (Envelope (S := S)) }.

(** What a node does in one step; [k] records of its log survive a crash. *)
Inductive Action :=
| ATick
| APropose (c : m_command)
| AReadIndex
| AReadResult (id : N)
| AForgetRead (id : N)
| ADeliver (e : Envelope (S := S))
| AFlush
| ACrash (k : nat).

(** The log a clean crash leaves, opened again. *)
Definition crash_wal (k : nat) (w : Log (T := m_command)) : Log :=
  mkLog (take k (l_recs w)) (top (take k (l_recs w))) (top (take k (l_recs w))) 0.

Definition restart (k : nat) n : res RaftError (RaftNode (S := S)) := open (cfg n) (hard_file n) (stored n) (crash_wal k (wal n)).

(** A node that panics is gone. *)
Definition alive {A} (r : RaftNode (S := S) * res RaftError A) : option (RaftNode (S := S) * list (Envelope (S := S))) :=
  match r with (_, Panic) => None | (n', _) => Some (n', []) end.

(** The node after the action and what it hands to the network. *)
Definition act (a : Action) n : option (RaftNode * list Envelope) :=
  match a with
  | ATick => alive (tick n)
  | APropose c => alive (propose c n)
  | AReadIndex => alive (read_index n)
  | AReadResult id => alive (read_result id n)
  | AForgetRead id => alive (forget_read id n)
  | ADeliver e => alive (step e n)
  | AFlush => match take_messages n with (n', Ok ms) => Some (n', ms) | r => alive r end
  | ACrash k => match restart k n with Ok n' => Some (n', []) | _ => None end
  end.

Definition move (v : NodeId) (a : Action) (c : Cluster) : Cluster :=
  match nodes c !! v with
  | None => c
  | Some n =>
      match act a n with
      | Some (n', ms) => mkCluster (<[v := n']> (nodes c)) (net c ++ ms)
      | None => mkCluster (delete v (nodes c)) (net c)
      end
  end.

Definition allowed (v : NodeId) (a : Action) (c : Cluster) : Prop :=
  match a with
  | ADeliver e => e ∈ net c ∧ to e = v
  | ACrash k => ∀ n, nodes c !! v = Some n → survive (wal n) k
  | _ => True
  end.

Inductive cstep : Cluster → Cluster → Prop :=
| cstep_move v a c : allowed v a c → cstep c (move v a c).

(** New nodes that agree on the voters. *)
Record starts (V : gset NodeId) (c : Cluster) : Prop := {
  ss_net : net c = [];
  ss_nodes v n : nodes c !! v = Some n →
    ∃ cf, cid cf = v ∧ initial_voters cf = Some (Stable V) ∧ open cf (mkHard 0 None) m_empty new_log = Ok n;
}.

Definition reachable (V : gset NodeId) (c : Cluster) : Prop := ∃ c0, starts V c0 ∧ rtc cstep c0 c.

Lemma reachable_ind' V (P : Cluster → Prop) :
  (∀ c, starts V c → P c) → (∀ c v a, P c → allowed v a c → P (move v a c)) → ∀ c, reachable V c → P c.
Proof.
  intros Hinit Hstep c (c0 & Hc0 & Hr). revert c Hr. apply (rtc_ind_r P); [by apply Hinit|]. intros c c' _ [v a c1 Ha] HP. by apply Hstep.
Qed.

(** ** Elections *)

Section elections.
Context `{!MachineLaws S} (V : gset NodeId).

(** The votes [g] account for every node and message. *)
Record fair (g : gmap (NodeId * N) NodeId) (c : Cluster) : Prop := {
  fa_nodes v n : nodes c !! v = Some n → my_id n = v ∧ ballots V g n ∧ counted V g n;
  fa_net : Forall (λ e, told g e ∧ plain_msg (msg e)) (net c);
}.

Lemma alive_inv {A} (r : RaftNode (S := S) * res RaftError A) n' ms : alive r = Some (n', ms) → n' = r.1 ∧ ms = [].
Proof. destruct r as [n1 []]; simpl; naive_solver. Qed.

Lemma flush_sends n n' ms : act AFlush n = Some (n', ms) → n' = (take_messages n).1 ∧ ms = outbox n.
Proof. unfold act, take_messages. rewrite run_get. destruct (has_role n Leader); simpl; by intros [= <- <-]. Qed.

Lemma act_inv v g c n a n' ms :
  fair g c → nodes c !! v = Some n → allowed v a c → act a n = Some (n', ms) → inv V true v g n'.
Proof.
  intros [Hns Hnet] Hn Ha E. destruct (Hns v n Hn) as (Hid & Hb & Hc).
  assert (inv V true v g n) as Hi by (split; [done|]; by exists g).
  destruct a as [|p| |id|id|e| |k]; try (apply alive_inv in E as [-> _]).
  - by apply keeps_tick.
  - by apply keeps_propose.
  - by apply keeps_read_index.
  - by apply keeps_read_result.
  - by apply keeps_forget_read.
  - destruct Ha as [He Hto]. eapply Forall_forall in Hnet as [Ht Hp]; [|done]. by apply keeps_step.
  - apply flush_sends in E as [-> _]. by apply keeps_take_messages.
  - simpl in E. destruct (restart k n) as [n1|e|] eqn:E1; [|done..]. injection E as <- <-. destruct Hb as [Hst _ Hf _]. rewrite <- Hid.
    destruct Hst. apply (open_inv V (cfg n) g (hard_file n) (stored n) (crash_wal k (wal n))); try done. by apply Forall_take.
Qed.

(** What a node sends was in its outbox. *)
Lemma act_sends g c v n a n' ms :
  fair g c → nodes c !! v = Some n → act a n = Some (n', ms) → Forall (λ e, from e = v ∧ told g e ∧ plain_msg (msg e)) ms.
Proof.
  intros [Hns _] Hn E. destruct (Hns v n Hn) as (Hid & [Hst _ _ Ho] & _). pose proof (st_outbox _ _ Hst) as Hp.
  destruct a as [|p| |id|id|e| |k]; try (apply alive_inv in E as [_ ->]; constructor).
  - apply flush_sends in E as [_ ->]. apply Forall_forall. intros e He. eapply Forall_forall in Ho as [Hfrom Ht]; [|done].
    split; [congruence|]. by eapply Forall_forall in Hp.
  - simpl in E. destruct (restart k n); [|done..]. injection E as <- <-. constructor.
Qed.

(** Votes of other nodes do not concern a node. *)
Lemma ballots_other g g' v n : casts v g g' → my_id n ≠ v → ballots V g n ∧ counted V g n → ballots V g' n ∧ counted V g' n.
Proof.
  intros [Hsub Hoth] Hne [[Hst Hh Hf Ho] [Hv Hl]]. split; split; try done.
  - intros t d. rewrite Hoth by done. apply Hh.
  - intros t d. rewrite Hoth by done. apply Hf.
  - eapply Forall_impl; [done|]. intros e [? ?]. split; [done|by eapply told_mono].
  - intros Hr u Hu. eapply lookup_weaken; [by apply Hv|done].
  - intros Hr. eapply elected_mono; [done|by apply Hl].
Qed.

Lemma move_fair g c v a : fair g c → allowed v a c → ∃ g', g ⊆ g' ∧ fair g' (move v a c).
Proof.
  intros Hf Ha. unfold move. destruct (nodes c !! v) as [n|] eqn:Hn; [|by exists g]. pose proof Hf as [Hns Hnet].
  destruct (act a n) as [[n' ms]|] eqn:E.
  - destruct (act_inv v g c n a n' ms Hf Hn Ha E) as (Hid & g' & Hg & Hb & Hc). specialize (Hc eq_refl).
    pose proof (act_sends g c v n a n' ms Hf Hn E) as Hs. exists g'. split; [apply Hg|]. split; simpl.
    + intros u m [[<- <-]|[Hne Hm]]%lookup_insert_Some; [done|]. destruct (Hns u m Hm) as [Hu HB]. split; [done|].
      eapply ballots_other; [done|congruence|done].
    + apply Forall_app. split; (eapply Forall_impl; [done|]); [intros e [? ?]|intros e (_ & ? & ?)];
        (split; [eapply told_mono; [apply Hg|done]|done]).
  - exists g. split; [done|]. split; [|done]. intros u m Hm. cbn in Hm. apply lookup_delete_Some in Hm as [_ Hm]. by apply Hns.
Qed.

Lemma open_quiet cf h s w n : open cf h s w = Ok n → role n = Follower ∧ outbox n = [].
Proof.
  unfold open. destruct (config_ok cf); [|done]. destruct (contiguous _ _); [|done]. destruct (initial_voters cf) as [m|]; [|done].
  assert (∀ n0, role n0 = Follower → outbox n0 = [] →
    let n1 := (start (m_applied s) n0).1 in (start (m_applied s) n0).2 = Ok () ∧ role n1 = Follower ∧ outbox n1 = []) as Hs.
  { intros n0 Hr Ho. unfold start, wal_compact_through, wal_raise_floor, refresh_membership, has_role. rewrite !run_modify. cbv zeta.
    rewrite (bool_decide_eq_false_2 (role _ = Leader)) by (simpl; congruence).
    unfold reset_election_timer, sm_modify. simpl. by destruct (election_ticks _). }
  destruct (Hs (booted cf m h s w) eq_refl eq_refl) as (E & Hr & Ho). destruct (start _ _) as [n1 r]. simpl in *. subst r.
  by intros [= <-].
Qed.

Lemma starts_fair c : starts V c → fair ∅ c.
Proof.
  intros [Hnet Hns]. split; [|rewrite Hnet; constructor]. intros v n Hn. destruct (Hns v n Hn) as (cf & <- & Hv & Ho).
  destruct (open_inv V cf ∅ (mkHard 0 None) m_empty new_log n Hv ltac:(done) (proj2 (proj2 ml_empty)) (Forall_nil_2 _) Ho) as (Hid & g & _ & [Hst _ _ _] & _).
  destruct (open_quiet _ _ _ _ _ Ho) as [Hr Hq]. split; [done|]. split; split; try done; [by rewrite Hq|by rewrite Hr..].
Qed.

Lemma reachable_fair c : reachable V c → ∃ g, fair g c.
Proof.
  revert c. apply reachable_ind'; [intros c Hc; exists ∅; by apply starts_fair|]. intros c v a [g Hg] Ha.
  destruct (move_fair g c v a Hg Ha) as (g' & _ & Hg'). by exists g'.
Qed.

Lemma later_fair g c c' : fair g c → rtc cstep c c' → ∃ g', g ⊆ g' ∧ fair g' c'.
Proof.
  intros Hg Hr. revert g Hg. induction Hr as [c|c c1 c' [v a c0 Ha] _ IH]; intros g Hg; [by exists g|].
  destruct (move_fair g c0 v a Hg Ha) as (g1 & Hsub & Hg1). destruct (IH g1 Hg1) as (g2 & Hsub' & Hg2). exists g2. split; [by etrans|done].
Qed.

(** C10. Election safety: with fixed voters, whatever is lost, duplicated or reordered
    and whichever nodes crash cleanly, no two nodes ever lead the same term, at the
    same time or at different ones. *)
Theorem election_safety c c' a b na nb :
  reachable V c → rtc cstep c c' → nodes c !! a = Some na → nodes c' !! b = Some nb →
  role na = Leader → role nb = Leader → my_term na = my_term nb → a = b.
Proof.
  intros Hc Hr Ha Hb Hla Hlb Ht. destruct (reachable_fair c Hc) as [g Hg]. destruct (later_fair g c c' Hg Hr) as (g' & Hsub & Hg').
  destruct (fa_nodes _ _ Hg a na Ha) as (<- & _ & [_ Hea]). destruct (fa_nodes _ _ Hg' b nb Hb) as (<- & _ & [_ Heb]).
  apply (elected_unique V g' _ _ (my_term nb)); [|by apply Heb]. rewrite <- Ht. eapply elected_mono; [done|by apply Hea].
Qed.

End elections.

End cluster.

(** ** A machine that counts *)

Inductive CCommand := CNoop | CIncr | CChange (m : Membership) (a : gmap string string).

Record Count := mkCount { n_incr : N; n_applied : N; n_term : N; n_membership : option Membership; n_addrs : gmap string string }.

Definition count (t i : N) (c : CCommand) (s : Count) : Count * res () () :=
  (match c with
   | CNoop => mkCount (n_incr s) i t (n_membership s) (n_addrs s)
   | CIncr => mkCount (n_incr s + 1) i t (n_membership s) (n_addrs s)
   | CChange m a => mkCount (n_incr s) i t (Some m) a
   end, Ok ()).

(** A transfer is a header with the whole state and an empty end. *)
#[export] Instance count_machine : Machine Count := {|
  m_command := CCommand;
  m_error := ();
  m_apply := count;
  m_apply_committed := count;
  m_applied := n_applied;
  m_term := n_term;
  m_membership := n_membership;
  m_addrs := n_addrs;
  m_empty := mkCount 0 0 0 None ∅;
  m_noop := CNoop;
  m_change := CChange;
  m_changes c := match c with CChange m a => Some (m, a) | _ => None end;
  x_chunk := option Count;
  x_cursor := bool;
  x_start s := (Some s, true);
  x_advance _ k := Ok (if k then Some (None, false) else None);
  x_is_done x := match x with None => true | Some _ => false end;
  x_header x := x;
  x_stage _ s := Some s;
|}.

#[export] Instance count_laws : MachineLaws Count.
Proof.
  refine {| m_wf := λ _, True |}; simpl; try done.
  - intros t i [| |m a] s s' r _ [= <- <-] _; done.
  - intros t i [| |m a] s s' r Hc [= <- <-]; done.
  - by intros s x k h [= <- <-] [= <-].
  - by intros s [] x k' [= <- <-].
  - by intros x s s' [= <-].
  - intros s q p x k _ Hs _ _. induction Hs as [x' k' p [= <- <-] [= <-]|q x' k' p p' _ IH _ _ [= <-]]; done.
Qed.

(** ** A run of three nodes *)

Definition names : list NodeId := ["a"%string; "b"%string; "c"%string].
Definition conf (v : NodeId) : RaftConfig :=
  mkConfig v (List.filter (λ u, negb (String.eqb u v)) names) None (3, 6) 1 10 4.
Definition voters3 : gset NodeId := list_to_set names.

Section run.
Context {S : Type} `{Machine S}.

Definition boot (m : gmap NodeId (RaftNode (S := S))) (v : NodeId) : gmap NodeId RaftNode :=
  match open (conf v) (mkHard 0 None) m_empty new_log with Ok n => <[v := n]> m | _ => m end.
Definition three : Cluster (S := S) := mkCluster (foldl boot ∅ names) [].

Lemma boot_starts vs m :
  (∀ v, v ∈ vs → initial_voters (conf v) = Some (Stable voters3)) →
  (∀ v n, m !! v = Some n → ∃ cf, cid cf = v ∧ initial_voters cf = Some (Stable voters3) ∧ open cf (mkHard 0 None) m_empty new_log = Ok n) →
  starts voters3 (mkCluster (foldl boot m vs) []).
Proof.
  revert m. induction vs as [|u vs IH]; intros m Hv Hm; [by split|]. apply IH; [intros v Hin; apply Hv; by right|]. intros v n.
  unfold boot. destruct (open (conf u) _ _ _) as [n'| |] eqn:E; [|apply Hm..].
  intros [[<- <-]|[_ Hn]]%lookup_insert_Some; [|by apply Hm]. exists (conf u). split_and!; [done| |done]. apply Hv. by left.
Qed.

Lemma three_starts : starts voters3 three.
Proof.
  apply boot_starts; [|done]. intros v Hv. unfold names in Hv. rewrite !elem_of_cons, elem_of_nil in Hv.
  by destruct Hv as [->|[->|[->|[]]]].
Qed.

(** A node acts by itself, or the [k]-th message is delivered. *)
Inductive Move := Do (v : NodeId) (a : Action (S := S)) | Recv (k : nat).

Definition own (a : Action (S := S)) : bool := match a with ADeliver _ | ACrash _ => false | _ => true end.

Definition exec (c : Cluster (S := S)) (m : Move) : Cluster :=
  match m with
  | Do v a => if own a then move v a c else c
  | Recv k => match net c !! k with Some e => move (to e) (ADeliver e) c | None => c end
  end.

Lemma exec_steps ms c : rtc cstep c (foldl exec c ms).
Proof.
  revert c. induction ms as [|m ms IH]; intros c; [done|]. cbn [foldl]. etrans; [|apply IH]. destruct m as [v a|k]; simpl.
  - destruct (own a) eqn:Ho; [|done]. apply rtc_once. constructor. by destruct a.
  - destruct (net c !! k) as [e|] eqn:He; [|done]. apply rtc_once. constructor. split; [by eapply list_elem_of_lookup_2|done].
Qed.

Definition elect_a : list Move :=
  repeat (Do "a"%string ATick) 5 ++ [Do "a"%string AFlush; Recv 0; Do "b"%string AFlush; Recv 2; Do "a"%string AFlush; Recv 3; Do "b"%string AFlush; Recv 5].

(** The leader's first entry reaches [b]. *)
Definition replicate_a : list Move := [Do "a"%string AFlush; Recv 6; Do "b"%string AFlush; Recv 8].

End run.

Definition led_by_a : Cluster (S := Count) := foldl exec three elect_a.
Definition replicated_by_a : Cluster := foldl exec led_by_a replicate_a.

Lemma election_safety_witness :
  (λ n, (role n, my_term n)) <$> nodes led_by_a !! "a"%string = Some (Leader, 1) ∧
  commit_index <$> nodes replicated_by_a !! "a"%string = Some 1 ∧
  ∀ b nb, nodes replicated_by_a !! b = Some nb → role nb = Leader → my_term nb = 1 → "a"%string = b.
Proof.
  assert ((λ n, (role n, my_term n)) <$> nodes led_by_a !! "a"%string = Some (Leader, 1)) as Hr by (vm_compute; done).
  split; [exact Hr|]. split; [vm_compute; done|]. intros b nb Hb Hl Hnb. apply fmap_Some in Hr as (na & Ha & [= Hr Ht]).
  refine (election_safety voters3 led_by_a replicated_by_a "a"%string b na nb _ (exec_steps _ _) Ha Hb (eq_sym Hr) Hl _).
  - exists three. exact (conj three_starts (exec_steps _ _)).
  - by rewrite Hnb, <- Ht.
Defined.

End RaftCluster.
