(* ===== verification/RaftSafe.v ===== *)
(** * What keeps replicas equal ([raft.rs])

    The invariant of a node within the history of its cluster: its whole log, of
    which it has dropped a beginning, agrees entry by entry with the logs of the
    terms; its catalog and its checkpoint are the replay of beginnings of that log;
    its commit index is settled; what it acknowledged is on its disk unless a later
    leader overwrote it; and what it says in messages is true. *)

From S2P Require Import Prelude Membership Wal WalSpec RaftLog RaftMachine Raft RaftCalc RaftVotes.

Module RaftSafe.
Import Membership.
Import Wal WalSpec RaftLog Raft RaftCalc RaftVotes.

Open Scope N_scope.

Section safe.
Context {S : Type} `{MachineLaws S} (V : gset NodeId) (net : list (Envelope (S := S))).
Abbreviation M := (Stable V).
Abbreviation Entry := (WalRecord m_command).
Abbreviation History := (Hist (C := m_command)).
Implicit Types n : RaftNode (S := S).
Implicit Types F l : list Entry.
Implicit Types h : History.

(** The state after the commands of a log. *)
Definition replay (l : list Entry) : option S := foldl (λ o e, s ← o; committed e s) (Some m_empty) l.

(** ** Messages *)

(** What a node says of itself when it acknowledges entries. *)
Definition pending n (t i : N) : Prop :=
  ∃ d m rs, mkEnv (my_id n) d (AppendEntriesResponse t true m rs) ∈ outbox n ∧ i ≤ m.

Definition asked (c : NodeId) (t lli llt : N) (e : Envelope (S := S)) : Prop := from e = c ∧ msg e = RequestVote t lli llt.

(** The vote for [c] does not endanger the entries. *)
Definition endorsed h (c : NodeId) (t t1 i : N) : Prop :=
  (∃ e lli llt, e ∈ net ∧ asked c t lli llt e ∧ covered h t1 i lli llt) ∨ lost h t1 i t.

(** A state that is the replay of a settled log. *)
Definition shared h (t : N) (s : S) (i : N) : Prop := ∃ P, settled V h t P ∧ replay P = Some s ∧ i = len P.

(** Entries [es] after the first [pi] of the leader's log. *)
Definition segment h (c d : NodeId) (t pi pt : N) (es : list Entry) (lc : N) : Prop :=
  ∃ T, terms h !! t = Some T ∧ tm_leader T = c ∧ c ≠ d ∧ pi + len es ≤ len (tm_log T) ∧
    es = take (length es) (drop (N.to_nat pi) (tm_log T)) ∧ pt = end_term (upto pi (tm_log T)) ∧
    lc ≤ len (tm_log T) ∧ settled V h t (upto lc (tm_log T)).

(** What is true of a message as soon as it is written. *)
Definition said h (e : Envelope (S := S)) : Prop :=
  match msg e with
  | AppendEntries t pi pt es lc _ => segment h (from e) (to e) t pi pt es lc
  | RequestVoteResponse t true => ∃ e' lli llt, e' ∈ net ∧ asked (to e) t lli llt e'
  | InstallSnapshot t idx seq x => ∃ s k, shared h t s idx ∧ chunk_at s seq x k
  | InstallSnapshotResponse t m _ => ∃ P, settled V h t P ∧ m = len P
  | _ => True
  end.

(** And once it is sent. *)
Definition sent h (e : Envelope (S := S)) : Prop :=
  said h e ∧
  match msg e with
  | AppendEntriesResponse t true m _ => ∀ i, i ≤ m → acked h (from e) t i
  | RequestVoteResponse t true =>
      terms h !! t = None → ∀ t1 i, acked h (from e) t1 i → t1 < t → endorsed h (to e) t t1 i
  | _ => True
  end.

(** ** A node *)

Record core h n F : Prop := {
  cr_config : config_ok (cfg n) = true ∧ initial_voters (cfg n) = Some M;
  cr_members : membership n = M ∧ initial n = M;
  cr_numbered : numbered F;
  cr_coherent : coherent h F;
  cr_terms e : e ∈ F → Wal.term e ≤ my_term n;
  cr_log : log n = drop (N.to_nat (snapshot_index n)) F;
  cr_snap_term : snapshot_term n = end_term (upto (snapshot_index n) F);
  cr_recs : l_recs (wal n) = log n;
  cr_last : l_last (wal n) = len F;
  cr_synced : snapshot_index n ≤ l_synced (wal n) ∧ l_synced (wal n) ≤ len F;
  cr_floor : l_floor (wal n) ≤ snapshot_index n;
  cr_snap : snapshot_index n ≤ m_applied (catalog n);
  cr_applied : m_applied (catalog n) ≤ commit_index n;
  cr_commit : commit_index n ≤ len F;
  cr_settled : settled V h (my_term n) (upto (commit_index n) F);
  cr_catalog : replay (upto (m_applied (catalog n)) F) = Some (catalog n);
  cr_stored : replay (upto (m_applied (stored n)) F) = Some (stored n);
  cr_stored_at : snapshot_index n ≤ m_applied (stored n) ∧ m_applied (stored n) ≤ commit_index n;
  cr_file : hard_file n = hard n;
  cr_acked t i : acked h (my_id n) t i →
    t ≤ my_term n ∧ (part h t i `prefix_of` F ∧ i ≤ l_synced (wal n) ∨ lost h t i (my_term n + 1));
  cr_pending t i : pending n t i →
    t ≤ my_term n ∧ (∃ T, terms h !! t = Some T ∧ i ≤ len (tm_log T) ∧ tm_leader T ≠ my_id n) ∧
    (part h t i `prefix_of` F ∨ lost h t i (my_term n + 1));
  cr_voted t T : terms h !! t = Some T → my_id n ∈ tm_voters T →
    t ≤ my_term n ∧
    ∀ t1 i, pending n t1 i → t1 < t → covered h t1 i (len (tm_first T)) (end_term (tm_first T)) ∨ lost h t1 i t;
  cr_led t T : terms h !! t = Some T → tm_leader T = my_id n → t ≤ my_term n;
  cr_answer e t : e ∈ net ∨ e ∈ outbox n → from e = my_id n → msg e = RequestVoteResponse t true →
    t ≤ my_term n ∧
    (terms h !! t = None → ∀ t1 i, pending n t1 i ∨ acked h (my_id n) t1 i → t1 < t → endorsed h (to e) t t1 i);
  cr_ask e t lli llt : e ∈ net ∨ e ∈ outbox n → asked (my_id n) t lli llt e → t ≤ my_term n;
  cr_said : Forall (said h) (outbox n);
  cr_next p x : next_index n !! p = Some x → p ≠ my_id n ∧ 1 ≤ x;
  cr_outgoing p o : outgoing n !! p = Some o → shared h (my_term n) (o_state o) (o_index o) ∧ chunk_at (o_state o) (o_seq o) (o_chunk o) (o_next o);
  cr_incoming i : incoming n = Some i → ∃ s, shared h (my_term n) s (in_index i) ∧ staged_at s (in_seq i) (in_state i);
}.

(** What depends on the role. *)
Record roles h n F : Prop := {
  rl_voter : role n ≠ Follower → my_id n ∈ V;
  rl_asked e lli llt : e ∈ net ∨ e ∈ outbox n → asked (my_id n) (my_term n) lli llt e → role n = Candidate →
    lli = len F ∧ llt = end_term F;
  rl_synced e lli llt : e ∈ net → asked (my_id n) (my_term n) lli llt e → role n = Candidate → len F ≤ l_synced (wal n);
  rl_new T : role n = Candidate → terms h !! my_term n = Some T → tm_leader T ≠ my_id n;
  rl_votes u : role n = Candidate → u ∈ votes n →
    u = my_id n ∨ ∃ e, e ∈ net ∧ from e = u ∧ to e = my_id n ∧ msg e = RequestVoteResponse (my_term n) true;
  rl_leader : role n = Leader → ∃ T, terms h !! my_term n = Some T ∧ tm_leader T = my_id n ∧ tm_log T = F;
  rl_match p m : role n = Leader → match_index n !! p = Some m →
    m ≤ len F ∧ ((∀ i, i ≤ m → acked h p (my_term n) i) ∨ settled V h (my_term n) (upto m F));
  rl_durable t i : role n = Leader → pending n t i →
    part h t i `prefix_of` F ∧ i ≤ l_synced (wal n) ∨ lost h t i (my_term n + 1);
}.

Definition plain_terms h : Prop := ∀ t T, terms h !! t = Some T → Forall plain (tm_log T).

(** The node, and the messages sent so far, within a history that is well formed. *)
Definition sound (b : bool) h n : Prop :=
  hist_ok V h ∧ plain_terms h ∧ Forall (sent h) net ∧ ∃ F, core h n F ∧ (b = true → roles h n F).

(** ** Replay *)

Lemma replay_snoc l e : replay (l ++ [e]) = (s ← replay l; committed e s).
Proof. unfold replay. by rewrite foldl_app. Qed.

Lemma committed_at e s s' : m_applied s < index e → committed e s = Some s' → m_applied s' = index e ∧ m_term s' = Wal.term e.
Proof.
  unfold committed. intros Hi. destruct (m_apply_committed _ _ _ _) as [s1 r] eqn:E. intros E'.
  apply (ml_committed _ _ _ _ _ _ Hi) in E; [|by intros ->]. destruct r; congruence.
Qed.

Lemma numbered_snoc l (e : Entry) : numbered (l ++ [e]) → numbered l ∧ index e = len l + 1.
Proof.
  intros Hn. split.
  - intros k x Hk. apply Hn. by apply lookup_app_l_Some.
  - rewrite (Hn (length l) e); [done|]. by rewrite lookup_app_r, Nat.sub_diag by lia.
Qed.

Lemma end_term_snoc l (e : Entry) : end_term (l ++ [e]) = Wal.term e.
Proof. unfold end_term. by rewrite last_snoc. Qed.

Lemma replay_at l s : numbered l → replay l = Some s → m_applied s = len l ∧ m_term s = end_term l.
Proof.
  revert s. induction l as [|e l IH] using rev_ind; intros s Hn.
  - intros [= <-]. destruct ml_empty as (? & ? & ?). done.
  - destruct (numbered_snoc l e Hn) as [Hn' Hi]. rewrite replay_snoc. destruct (replay l) as [s1|] eqn:E; [|done]. simpl. intros Hs.
    destruct (IH s1 Hn' eq_refl) as [E1 _]. apply committed_at in Hs as [-> ->]; [|lia]. rewrite end_term_snoc. split; [|done].
    rewrite Hi. unfold len. rewrite length_app. simpl. lia.
Qed.

Lemma replay_plain l s : Forall plain l → replay l = Some s → m_membership s = None.
Proof.
  revert s. induction l as [|e l IH] using rev_ind; intros s Hp.
  - intros [= <-]. by destruct ml_empty as (? & ? & ?).
  - apply Forall_app in Hp as [Hp [He _]%Forall_cons]. rewrite replay_snoc. destruct (replay l) as [s1|] eqn:E; [|done]. simpl. intros Hs.
    rewrite (committed_plain e s1 s); auto.
Qed.

Lemma replay_wf l s : replay l = Some s → m_wf s.
Proof.
  revert s. induction l as [|e l IH] using rev_ind; intros s; [intros [= <-]; apply ml_wf_empty|].
  rewrite replay_snoc. destruct (replay l) as [s1|]; [|done]. simpl. unfold committed. specialize (IH s1 eq_refl).
  destruct (m_apply_committed _ _ _ s1) as [s2 r] eqn:E. apply ml_wf in E; [|done]. destruct r; [..|done]; by intros [= <-].
Qed.

(** ** The log of a node *)

Lemma numbered_upto i l : numbered l → numbered (upto i l).
Proof. intros Hn k e Hk. apply Hn. eapply prefix_lookup_Some; [done|apply upto_prefix]. Qed.

Lemma last_upto i (l : list Entry) e : 0 < i → l !! N.to_nat (i - 1) = Some e → end_term (upto i l) = Wal.term e.
Proof.
  intros Hi He. apply (end_term_last _ (N.to_nat (i - 1))).
  - rewrite lookup_upto by lia. done.
  - apply lookup_lt_Some in He. unfold upto. rewrite length_take. lia.
Qed.

Section node.
Context h n F (Hc : core h n F).

Lemma snap_le : snapshot_index n ≤ len F.
Proof. destruct Hc. lia. Qed.

Lemma core_entry i : entry n i = if i <=? snapshot_index n then None else F !! N.to_nat (i - 1).
Proof.
  unfold entry. destruct (N.leb_spec i (snapshot_index n)); [done|]. rewrite (cr_log _ _ _ Hc), lookup_drop. f_equal. lia.
Qed.

Lemma core_term_at i : term_at n i = if (snapshot_index n <=? i) && (i <=? len F) then Some (end_term (upto i F)) else None.
Proof.
  unfold term_at. pose proof snap_le. destruct (N.eqb_spec i (snapshot_index n)) as [->|Hne].
  - rewrite (cr_snap_term _ _ _ Hc), N.leb_refl. simpl. by destruct (N.leb_spec (snapshot_index n) (len F)); [|lia].
  - rewrite core_entry. destruct (N.leb_spec i (snapshot_index n)), (N.leb_spec (snapshot_index n) i); simpl; try lia; [done|].
    destruct (N.leb_spec i (len F)) as [Hi|Hi].
    + destruct (lookup_lt_is_Some_2 F (N.to_nat (i - 1))) as [e He]; [unfold len in Hi; lia|]. rewrite He. simpl. f_equal.
      symmetry. apply last_upto; [lia|done].
    + rewrite lookup_ge_None_2; [done|]. unfold len in Hi. lia.
Qed.

Lemma log_empty : log n = [] → snapshot_index n = len F.
Proof.
  rewrite (cr_log _ _ _ Hc). intros E%(f_equal length). rewrite length_drop in E. simpl in E. pose proof snap_le. unfold len in *. lia.
Qed.

Lemma last_drop l k : (k < length l)%nat → list.last (drop k l) = list.last l.
Proof. intros Hk. rewrite !last_lookup, lookup_drop, length_drop. f_equal. lia. Qed.

Lemma core_last_log : list.last (log n) = if snapshot_index n =? len F then None else list.last F.
Proof.
  pose proof snap_le. destruct (N.eqb_spec (snapshot_index n) (len F)) as [E|Hne].
  - rewrite (cr_log _ _ _ Hc), drop_ge; [done|]. unfold len in E. lia.
  - rewrite (cr_log _ _ _ Hc), last_drop; [done|]. unfold len in *. lia.
Qed.

Lemma last_index_len l (e : Entry) : numbered l → list.last l = Some e → index e = len l.
Proof.
  intros Hn. rewrite last_lookup. intros Hl. rewrite (Hn _ _ Hl). apply lookup_lt_Some in Hl. unfold len. lia.
Qed.

Lemma core_last_index : last_index n = len F.
Proof.
  unfold last_index. rewrite core_last_log. destruct (N.eqb_spec (snapshot_index n) (len F)); [done|]. pose proof snap_le.
  destruct (list.last F) as [e|] eqn:E; [by apply last_index_len; [apply Hc|]|]. apply last_None in E. rewrite E in *. unfold len in *. simpl in *. lia.
Qed.

Lemma core_last_term : last_term n = end_term F.
Proof.
  unfold last_term. rewrite core_last_log. destruct (N.eqb_spec (snapshot_index n) (len F)) as [E|Hne].
  - rewrite (cr_snap_term _ _ _ Hc), E. by rewrite upto_all.
  - pose proof snap_le. unfold end_term. destruct (list.last F) as [e|] eqn:E; [done|]. apply last_None in E. rewrite E in *.
    unfold len in *. simpl in *. lia.
Qed.

Lemma core_plain : hist_ok V h → plain_terms h → Forall plain F.
Proof.
  intros Hok Hp. apply Forall_lookup_2. intros k e Hk. destruct (cr_coherent _ _ _ Hc k e Hk) as (T & HT & Hpre).
  eapply (Forall_lookup_1 plain (tm_log T) k); [by eapply Hp|]. eapply prefix_lookup_Some; [|exact Hpre]. by rewrite lookup_take_lt by lia.
Qed.

End node.

(** ** Growth of the history *)

Section growth.
Context (fresh : N → NodeId → gset NodeId → list Entry → Prop) (v : NodeId) (h h' : History).
Context (Hok : hist_ok V h) (Hg : grows fresh v h h').

Lemma still_none t : terms h' !! t = None → terms h !! t = None.
Proof.
  intros HN. destruct (terms h !! t) as [T|] eqn:HT; [|done]. destruct (gr_old _ _ _ _ Hg t T HT) as (T' & HT' & _). congruence.
Qed.

Lemma shared_grows t s i : shared h t s i → shared h' t s i.
Proof. intros (P & HP & Hs & Hi). exists P. split; [by eapply settled_grows|done]. Qed.

Lemma segment_grows c d t pi pt es lc : segment h c d t pi pt es lc → segment h' c d t pi pt es lc.
Proof.
  intros (T & HT & Hc & Hd & Hl & Hes & Hpt & Hlc & Hset). destruct (gr_old _ _ _ _ Hg t T HT) as (T' & HT' & E1 & _ & _ & Hp & _).
  exists T'. pose proof (prefix_len _ _ Hp). rewrite <- !(upto_of_prefix _ _ _ Hp) by lia.
  split_and!; try done; try congruence; try lia; [|by eapply settled_grows].
  destruct Hp as [l' ->]. rewrite drop_app_le, take_app_le; [done|..]; unfold len in Hl; rewrite ?length_drop; lia.
Qed.

Lemma said_grows e : said h e → said h' e.
Proof.
  unfold said. destruct (msg e) as [| | |t []|t pi pt es lc rs| |t idx seq x|t m a| |]; try done.
  - apply segment_grows.
  - intros (s & k & Hs & Hx). exists s, k. split; [by apply shared_grows|done].
  - intros (P & HP & Hm). exists P. split; [by eapply settled_grows|done].
Qed.

Lemma endorsed_grows c t t1 i : valid h t1 i → endorsed h c t t1 i → endorsed h' c t t1 i.
Proof.
  intros Hv [(e & lli & llt & He & Ha & Hcov)|Hl]; [left|right; by eapply lost_grows]. exists e, lli, llt.
  split_and!; try done. by eapply covered_grows.
Qed.

Lemma acked_valid u t i : acked h u t i → valid h t i.
Proof. apply (ho_acked V h Hok). Qed.

Lemma pending_valid n F t i : core h n F → pending n t i → valid h t i.
Proof. intros Hc (_ & (T & HT & Hi & _) & _)%(cr_pending _ _ _ Hc). by exists T. Qed.

(** An acknowledgement [n] may make: of its own term, or one it has written. *)
Definition may_ack n F (t i : N) : Prop :=
  t ≤ my_term n ∧ valid h t i ∧ (part h t i `prefix_of` F ∧ i ≤ l_synced (wal n) ∨ lost h t i (my_term n + 1)) ∧
  (t = my_term n ∨ pending n t i).

Lemma sent_grows e : (∀ t i, acked h' (from e) t i → acked h (from e) t i) → sent h e → sent h' e.
Proof.
  intros Ha [Hs Hm]. split; [by apply said_grows|]. destruct (msg e) as [| | |t []|t pi pt es lc rs|t [] m rs| | | |]; try done.
  - intros HN%still_none t1 i Hack%Ha Hlt. apply endorsed_grows; [by eapply acked_valid|by apply Hm].
  - intros i Hi. apply (gr_acked _ _ _ _ Hg). by apply Hm.
Qed.

(** A message of the node that acknowledges. *)
Lemma sent_own n F e :
  core h n F → (∀ t i, acked h' (my_id n) t i → acked h (my_id n) t i ∨ may_ack n F t i) → e ∈ net → from e = my_id n →
  sent h e → sent h' e.
Proof.
  intros Hc Ha He Hfrom [Hs Hm]. split; [by apply said_grows|].
  destruct (msg e) as [| | |t []|t pi pt es lc rs|t [] m rs| | | |] eqn:Em; try done.
  - intros HN%still_none t1 i Hack Hlt. rewrite Hfrom in *.
    destruct (cr_answer _ _ _ Hc e t (or_introl He) Hfrom Em) as [Ht Hend].
    destruct (Ha _ _ Hack) as [Hold|(_ & Hv & _ & [->|Hp])]; [|lia|].
    + apply endorsed_grows; [by eapply acked_valid|by apply Hm].
    + apply endorsed_grows; [done|]. apply Hend; auto.
  - intros i Hi. apply (gr_acked _ _ _ _ Hg). by apply Hm.
Qed.

Lemma core_grows n F :
  (∀ t i, acked h' (my_id n) t i → acked h (my_id n) t i ∨ may_ack n F t i) →
  (∀ t T, terms h !! t = None → terms h' !! t = Some T → tm_leader T = my_id n → t ≤ my_term n) →
  (∀ t T, terms h !! t = None → terms h' !! t = Some T → my_id n ∈ tm_voters T →
    t ≤ my_term n ∧ ∀ t1 i, pending n t1 i → t1 < t → covered h t1 i (len (tm_first T)) (end_term (tm_first T)) ∨ lost h t1 i t) →
  core h n F → core h' n F.
Proof.
  intros Ha Hled Hvoted Hc. pose proof (λ t i, pending_valid n F t i Hc) as Hpv. destruct Hc. split; try done.
  - by eapply coherent_grows.
  - by eapply settled_grows.
  - intros t i Hack. assert (valid h t i ∧ t ≤ my_term n ∧ (part h t i `prefix_of` F ∧ i ≤ l_synced (wal n) ∨ lost h t i (my_term n + 1))) as (Hv & Ht & Hd).
    { destruct (Ha _ _ Hack) as [Hold|(? & ? & ? & _)]; [|done]. split; [by eapply acked_valid|by apply cr_acked0]. }
    split; [done|]. rewrite (part_grows _ _ _ _ Hg) by done. destruct Hd; [by left|right; by eapply lost_grows].
  - intros t i Hp. pose proof (Hpv t i Hp) as Hv. destruct (cr_pending0 t i Hp) as (Ht & (T & HT & Hi & Hl) & Hd). split; [done|]. split.
    + destruct (gr_old _ _ _ _ Hg t T HT) as (T' & HT' & E & _ & _ & Hpre & _). exists T'. pose proof (prefix_len _ _ Hpre).
      split_and!; [done|lia|congruence].
    + rewrite (part_grows _ _ _ _ Hg) by done. destruct Hd; [by left|right; by eapply lost_grows].
  - intros t T' HT' Hv. assert (t ≤ my_term n ∧ ∀ t1 i, pending n t1 i → t1 < t →
      covered h t1 i (len (tm_first T')) (end_term (tm_first T')) ∨ lost h t1 i t) as [H1 H2].
    { destruct (terms h !! t) as [T|] eqn:HT; [|by apply Hvoted]. destruct (gr_old _ _ _ _ Hg t T HT) as (T1 & HT1 & _ & E2 & E3 & _).
      rewrite HT' in HT1. injection HT1 as <-. rewrite E3. rewrite E2 in Hv. by apply cr_voted0. }
    split; [done|]. intros t1 i Hp Hlt. pose proof (Hpv t1 i Hp).
    destruct (H2 t1 i Hp Hlt); [left; by eapply covered_grows|right; by eapply lost_grows].
  - intros t T' HT' Hl. destruct (terms h !! t) as [T|] eqn:HT; [|by eapply Hled].
    destruct (gr_old _ _ _ _ Hg t T HT) as (T1 & HT1 & E1 & _). rewrite HT' in HT1. injection HT1 as <-. eapply cr_led0; [done|congruence].
  - intros e t He Hfrom Hm. destruct (cr_answer0 e t He Hfrom Hm) as [H1 H2]. split; [done|]. intros HN%still_none t1 i Hpa Hlt.
    assert (pending n t1 i ∨ acked h (my_id n) t1 i) as Hpa'.
    { destruct Hpa as [Hp|Hack]; [by left|]. destruct (Ha _ _ Hack) as [Hold|(_ & _ & _ & [->|Hp])]; [by right|lia|by left]. }
    apply endorsed_grows; [|by apply H2]. destruct Hpa'; [by apply Hpv|by eapply acked_valid].
  - eapply Forall_impl; [done|]. intros e. apply said_grows.
  - intros p o Ho. destruct (cr_outgoing0 p o Ho) as [Hs Hx]. split; [by apply shared_grows|done].
  - intros i Hi. destruct (cr_incoming0 i Hi) as (x & Hs & Hx). exists x. split; [by apply shared_grows|done].
Qed.

Lemma roles_grows n F :
  my_id n ≠ v → (∀ t T, terms h !! t = None → terms h' !! t = Some T → tm_leader T ≠ my_id n) →
  core h n F → roles h n F → roles h' n F.
Proof.
  intros Hv Hnew Hc Hr. pose proof (λ t i, pending_valid n F t i Hc) as Hpv. destruct Hr. split; try done.
  - intros T' Hrole HT'. destruct (terms h !! my_term n) as [T|] eqn:HT; [|by eapply Hnew].
    destruct (gr_old _ _ _ _ Hg _ T HT) as (T1 & HT1 & E1 & _). rewrite HT' in HT1. injection HT1 as <-. rewrite E1. auto.
  - intros Hrole. destruct (rl_leader0 Hrole) as (T & HT & Hl & HF). destruct (gr_old _ _ _ _ Hg _ T HT) as (T1 & HT1 & _ & _ & _ & _ & E).
    rewrite E in HT1 by congruence. by exists T.
  - intros p m Hrole Hm. destruct (rl_match0 p m Hrole Hm) as [Hle Hd]. split; [done|].
    destruct Hd as [Hd|Hd]; [left; intros i Hi; by apply (gr_acked _ _ _ _ Hg), Hd|right; by eapply settled_grows].
  - intros t i Hrole Hp. pose proof (Hpv t i Hp) as Hval. rewrite (part_grows _ _ _ _ Hg) by done.
    destruct (rl_durable0 t i Hrole Hp); [by left|right; by eapply lost_grows].
Qed.

End growth.

End safe.
End RaftSafe.
