(* ===== verification/RaftOps.v ===== *)
(** * Operations that leave the history as it is ([raft.rs])

    Everything a node does except appending to the log it leads and counting
    acknowledgements keeps the invariant of [RaftSafe.v] in the same history, and
    never finds the log inconsistent. *)

From S2P Require Import Prelude Membership Wal WalSpec RaftLog RaftMachine Raft RaftCalc RaftVotes RaftSafe.

Module RaftOps.
Import Membership.
Import Wal WalSpec RaftLog Raft RaftCalc RaftVotes RaftSafe.

Open Scope N_scope.

Section ops.
Context {S : Type} `{MachineLaws S} {EX : Excuse (S := S)} (V : gset NodeId) (net : list (Envelope (S := S))).
Abbreviation M := (Stable V).
Abbreviation Entry := (WalRecord m_command).
Implicit Types n : RaftNode (S := S).
Implicit Types F : list Entry.

Context (h : Hist (C := m_command)) (Hok : hist_ok V h) (Hpt : plain_terms h) (Hnet : Forall (sent V net h) net).
Abbreviation core := (core V net h).
Abbreviation roles := (roles V net h).
Abbreviation said := (said V net h).
Abbreviation settled := (settled V h).
Abbreviation shared := (shared V h).

(** The invariant of node [v], with [Y] of its role, term and log; what depends on
    the role only when [b]. *)
Definition good (Y : Role → N → list Entry → Prop) (b : bool) (v : NodeId) n : Prop :=
  my_id n = v ∧ ∃ F, core n F ∧ (b = true → roles n F) ∧ Y (role n) (my_term n) F.

Definition anyhow : Role → N → list Entry → Prop := λ _ _ _, True.
Definition leads (t : N) : Role → N → list Entry → Prop := λ r t' _, r = Leader ∧ t' = t.

(** ** Fields the invariant does not look at *)

Record same n n' : Prop := {
  sm_cfg : cfg n' = cfg n;
  sm_membership : membership n' = membership n;
  sm_initial : initial n' = initial n;
  sm_role : role n' = role n;
  sm_hard : hard n' = hard n;
  sm_log : log n' = log n;
  sm_snapshot_index : snapshot_index n' = snapshot_index n;
  sm_snapshot_term : snapshot_term n' = snapshot_term n;
  sm_commit : commit_index n' = commit_index n;
  sm_catalog : catalog n' = catalog n;
  sm_wal : wal n' = wal n;
  sm_stored : stored n' = stored n;
  sm_file : hard_file n' = hard_file n;
  sm_votes : votes n' = votes n;
  sm_next : next_index n' = next_index n;
  sm_match : match_index n' = match_index n;
  sm_outgoing : outgoing n' = outgoing n;
  sm_incoming : incoming n' = incoming n;
  sm_outbox : outbox n' = outbox n;
}.

Lemma core_same n n' F : same n n' → core n F → core n' F.
Proof. destruct n, n'. intros []. simpl in *. subst. intros []. by split. Qed.
Lemma roles_same n n' F : same n n' → roles n F → roles n' F.
Proof. destruct n, n'. intros []. simpl in *. subst. intros []. by split. Qed.
Lemma good_same Y b v n n' : same n n' → good Y b v n → good Y b v n'.
Proof.
  intros Hs (Hid & F & Hc & Hr & Hy). split; [unfold my_id in *; by rewrite (sm_cfg _ _ Hs)|]. exists F.
  split; [by eapply core_same|]. split; [intros Hb; eapply roles_same; [done|auto]|].
  unfold my_term in *. by rewrite (sm_role _ _ Hs), (sm_hard _ _ Hs).
Qed.

(** ** Sending *)

(** What has to be true to write message [m]. *)
Definition can_say n F (d : NodeId) (m : Message (S := S)) : Prop :=
  said (mkEnv (my_id n) d m) ∧
  match m with
  | RequestVote t lli llt => t = my_term n ∧ lli = len F ∧ llt = end_term F
  | RequestVoteResponse t true =>
      t ≤ my_term n ∧
      (terms h !! t = None → ∀ t1 i, pending n t1 i ∨ acked h (my_id n) t1 i → t1 < t → endorsed net h d t t1 i)
  | AppendEntriesResponse t true m _ =>
      t = my_term n ∧ role n ≠ Leader ∧
      ∀ i, i ≤ m → (∃ T, terms h !! t = Some T ∧ i ≤ len (tm_log T) ∧ tm_leader T ≠ my_id n) ∧ part h t i `prefix_of` F
  | _ => True
  end.

Definition say n (d : NodeId) (m : Message (S := S)) : RaftNode := n <| outbox ::= λ l, l ++ [mkEnv (my_id n) d m] |>.

Lemma pending_say n d m t i :
  pending (say n d m) t i ↔ pending n t i ∨ ∃ j rs, m = AppendEntriesResponse t true j rs ∧ i ≤ j.
Proof.
  unfold pending. simpl. change (my_id (say n d m)) with (my_id n). setoid_rewrite elem_of_app. setoid_rewrite list_elem_of_singleton.
  split.
  - intros (d' & j & rs & [He|[= -> <-]] & Hi); [left; by eauto|right; eauto].
  - intros [(d' & j & rs & He & Hi)|(j & rs & -> & Hi)]; [exists d', j, rs; eauto|exists d, j, rs; eauto].
Qed.

Lemma core_say n F d m : core n F → can_say n F d m → core (say n d m) F.
Proof.
  intros Hc [Hs Hm]. pose proof Hc as []. split; try done.
  - intros t i [Hp|(j & rs & -> & Hi)]%pending_say; [by apply cr_pending0|]. destruct Hm as (-> & _ & Hm). destruct (Hm i Hi) as [HT Hp].
    split; [done|]. split; [done|by left].
  - intros t T HT Hv. destruct (cr_voted0 t T HT Hv) as [H1 H2]. split; [done|].
    intros t1 i [Hp|(j & rs & -> & Hi)]%pending_say Hlt; [by apply H2|]. destruct Hm as (-> & _). unfold my_term in *. simpl in *. lia.
  - intros e t He Hfrom Hmsg. assert (t ≤ my_term n ∧ (terms h !! t = None → ∀ t1 i, pending n t1 i ∨ acked h (my_id n) t1 i →
      t1 < t → endorsed net h (to e) t t1 i)) as [H1 H2].
    { destruct He as [He|He]; [by apply (cr_answer0 e t); [left|..]|]. simpl in He. apply elem_of_app in He as [He|He%list_elem_of_singleton].
      - by apply (cr_answer0 e t); [right|..].
      - subst e. simpl in *. subst m. done. }
    split; [done|]. intros HN t1 i [[Hp|(j & rs & -> & Hi)]%pending_say|Ha] Hlt; [by apply H2; [done|left|]| |by apply H2; [done|right|]].
    destruct Hm as (-> & _). unfold my_term in *. simpl in *. lia.
  - intros e t lli llt He Ha. destruct He as [He|He]; [by eapply cr_ask0; [left|]|]. simpl in He.
    apply elem_of_app in He as [He|He%list_elem_of_singleton]; [by eapply cr_ask0; [right|]|]. subst e.
    destruct Ha as [_ Ha]. simpl in Ha. subst m. destruct Hm as [-> _]. done.
  - simpl. apply Forall_app. split; [done|by constructor].
Qed.

Lemma roles_say n F d m : roles n F → can_say n F d m → roles (say n d m) F.
Proof.
  intros [] [Hs Hm]. split; try done.
  - intros e lli llt He Ha Hr. destruct He as [He|He]; [by eapply rl_asked0; [left|..]|]. simpl in He.
    apply elem_of_app in He as [He|He%list_elem_of_singleton]; [by eapply rl_asked0; [right|..]|]. subst e.
    destruct Ha as [_ Ha]. simpl in Ha. rewrite Ha in Hm. by destruct Hm as [_ Hm].
  - intros t i Hr [Hp|(j & rs & -> & Hi)]%pending_say; [by apply rl_durable0|]. by destruct Hm as (_ & Hm & _).
Qed.

Lemma good_say Y b v n d m :
  good Y b v n → (∀ F, core n F → (b = true → roles n F) → Y (role n) (my_term n) F → can_say n F d m) → good Y b v (say n d m).
Proof.
  intros (Hid & F & Hc & Hr & Hy) Hm. specialize (Hm F Hc Hr Hy). split; [done|]. exists F. split; [by apply core_say|].
  split; [|done]. intros Hb. apply roles_say; auto.
Qed.

(** An edit of fields the invariant does not look at. *)
Ltac touch := intros; eapply good_same; [|eassumption]; by split.

Section any.
Context (Y : Role → N → list Entry → Prop) (b : bool) (v : NodeId).
Abbreviation I := (good Y b v).

(** Messages of which nothing has to be true. *)
Definition chat (m : Message (S := S)) : Prop :=
  match m with
  | PreVote _ _ _ | PreVoteResponse _ _ | RequestVoteResponse _ false | AppendEntriesResponse _ false _ _
  | ReadIndex _ _ | ReadIndexResponse _ _ _ => True
  | _ => False
  end.

Lemma safe_say d m :
  (∀ n F, my_id n = v → core n F → (b = true → roles n F) → Y (role n) (my_term n) F → can_say n F d m) → safe I (send d m).
Proof. intros Hm. apply safe_modify. intros n Hn. apply good_say; [done|]. intros F Hc Hr Hy. apply Hm; [apply Hn|done..]. Qed.

Lemma safe_chat d m : chat m → safe I (send d m).
Proof. intros Hm. apply safe_say. intros n F _ _ _ _. destruct m as [| | |? []| |? []| | | |]; done. Qed.
Hint Resolve safe_chat : safe.
Hint Extern 1 (chat _) => exact Logic.I : safe.

Lemma safe_timer : safe I reset_election_timer.
Proof. unfold reset_election_timer. safe_auto. destruct (election_ticks _). touch. Qed.

Lemma safe_answer_read d id i : safe I (answer_read d id i).
Proof. unfold answer_read. safe_auto. touch. Qed.
Hint Resolve safe_timer safe_answer_read : safe.

Lemma safe_confirm_reads ack seq : safe I (confirm_reads ack seq).
Proof. unfold confirm_reads. safe_auto. touch. Qed.

Lemma core_sync n F : core n F → core (n <| wal ::= log_sync |>) F.
Proof.
  intros []. split; try done; simpl.
  - destruct cr_synced0. lia.
  - intros t i Ha. destruct (cr_acked0 t i Ha) as [Ht [[Hp Hi]|Hl]]; (split; [done|]); [left; split; [done|]; simpl; destruct cr_synced0; lia|by right].
Qed.

Lemma roles_sync n F : core n F → roles n F → roles (n <| wal ::= log_sync |>) F.
Proof.
  intros Hc []. split; try done; simpl.
  - intros _ _ _ _ _ _. by rewrite (cr_last _ _ _ _ _ Hc).
  - intros t i Hr Hp. destruct (rl_durable0 t i Hr Hp) as [[Hpre Hi]|Hl]; [left; split; [done|]; simpl; destruct (cr_synced _ _ _ _ _ Hc), Hc; lia|by right].
Qed.

Lemma good_sync n : I n → I (n <| wal ::= log_sync |>).
Proof.
  intros (Hid & F & Hc & Hr & Hy). split; [done|]. exists F. split; [by apply core_sync|]. split; [|done]. intros Hb. apply roles_sync; auto.
Qed.

Lemma safe_wal_sync : safe I wal_sync.
Proof. apply safe_modify, good_sync. Qed.

End any.

(** ** The leader's messages *)

Section lead.
Context (v : NodeId) (now : N).
Abbreviation L := (good (leads now) true v).
Hint Resolve safe_chat safe_timer safe_answer_read safe_confirm_reads safe_wal_sync : safe.
Hint Extern 1 (chat _) => exact Logic.I : safe.

Lemma good_next Y b n p x : good Y b v n → p ≠ v → 1 ≤ x → good Y b v (n <| next_index ::= <[p := x]> |>).
Proof.
  intros (Hid & F & Hc & Hr & Hy) Hp H1. split; [done|]. exists F. split; [|split; [|done]].
  - destruct Hc. split; try done. intros q y Hq. cbn in Hq. apply lookup_insert_Some in Hq as [[<- <-]|[_ Hq]]; [|by apply cr_next0]. change (my_id _) with (my_id n). by rewrite Hid.
  - intros Hb. destruct (Hr Hb). by split.
Qed.

Lemma take_take_length {A} k (l : list A) : take k l = take (length (take k l)) l.
Proof. rewrite length_take. destruct (decide (k ≤ length l)%nat); [by rewrite Nat.min_l by lia|]. rewrite !take_ge by lia. done. Qed.

Lemma lead_segment n p prev :
  L n → p ≠ v → snapshot_index n ≤ prev → prev ≤ last_index n →
  segment V h v p (my_term n) prev (default 0 (term_at n prev))
    (take (max_batch (cfg n)) (drop (N.to_nat (prev - snapshot_index n)) (log n))) (commit_index n).
Proof.
  intros (Hid & F & Hc & Hr & Hx & _) Hp Hs Hl. destruct (rl_leader _ _ _ _ _ (Hr eq_refl) Hx) as (T & HT & Hlead & HF).
  rewrite (core_last_index _ _ _ _ _ Hc) in Hl. exists T. rewrite HF, (core_term_at _ _ _ _ _ Hc), (cr_log _ _ _ _ _ Hc), drop_drop.
  replace (N.to_nat (snapshot_index n) + N.to_nat (prev - snapshot_index n))%nat with (N.to_nat prev) by lia.
  rewrite (proj2 (N.leb_le _ _) Hs), (proj2 (N.leb_le _ _) Hl). simpl. pose proof Hc as []. split_and!; try done; try congruence.
  - unfold len in *. rewrite length_take, length_drop. lia.
  - apply take_take_length.
Qed.

Lemma shared_catalog Y b n : good Y b v n → shared (my_term n) (catalog n) (m_applied (catalog n)).
Proof.
  intros (_ & F & Hc & _). destruct Hc. exists (upto (m_applied (catalog n)) F). split_and!; [|done|].
  - eapply settled_mono; [done..|]. by apply upto_mono.
  - rewrite len_upto; [done|lia].
Qed.

Lemma good_outgoing Y b n p o :
  good Y b v n → shared (my_term n) (o_state o) (o_index o) → chunk_at (o_state o) (o_seq o) (o_chunk o) (o_next o) →
  good Y b v (n <| outgoing ::= <[p := o]> |>).
Proof.
  intros (Hid & F & Hc & Hr & Hy) Ho Hk. split; [done|]. exists F. split; [|split; [|done]].
  - destruct Hc. split; try done. intros q y Hq. cbn in Hq. apply lookup_insert_Some in Hq as [[<- <-]|[_ Hq]]; [done|by eapply cr_outgoing0].
  - intros Hb. destruct (Hr Hb). by split.
Qed.

Lemma start_chunk s k : chunk_at (o_state (start_out s k)) (o_seq (start_out s k)) (o_chunk (start_out s k)) (o_next (start_out s k)).
Proof. unfold start_out. destruct (x_start s) as [x c] eqn:E. by apply chunk_first. Qed.

Lemma safe_send_chunk Y b p t o :
  shared t (o_state o) (o_index o) → chunk_at (o_state o) (o_seq o) (o_chunk o) (o_next o) → safe (good Y b v) (send p (snapshot_message t o)).
Proof.
  intros Hs Hx. apply safe_say. intros n F _ _ _ _. split; [|done]. unfold said, snapshot_message. simpl. by exists (o_state o), (o_next o).
Qed.

Lemma safe_send_snapshot p : safe L (send_snapshot p).
Proof.
  apply safe_from_get. intros n Hn. destruct (outgoing n !! p) as [o|] eqn:Ho.
  - destruct (_ <? _); [done|]. pose proof Hn as (Hid & F & Hc & Hr & Hy). destruct (cr_outgoing _ _ _ _ _ Hc p o Ho) as [Hs Hk].
    apply safe_send_chunk; [done..|]. by apply good_outgoing.
  - pose proof (shared_catalog _ _ _ Hn) as Hs. pose proof (start_chunk (catalog n) (ticks n)) as Hk.
    assert (shared (my_term n) (o_state (start_out (catalog n) (ticks n))) (o_index (start_out (catalog n) (ticks n)))) as Hs'.
    { unfold start_out. by destruct (x_start (catalog n)). }
    apply safe_send_chunk; [done..|]. by apply good_outgoing.
Qed.

Lemma safe_send_append p : p ≠ v → safe L (send_append p).
Proof.
  intros Hp. apply safe_from_get. intros n Hn. pose proof Hn as (Hid & F & Hc & Hr & Hy).
  cbv beta zeta. set (next := N.min _ _). assert (1 ≤ next ∧ next ≤ last_index n + 1) as [H1 H2].
  { unfold next. split; [|lia]. destruct (next_index n !! p) as [x|] eqn:Ex; simpl; [|lia]. apply (cr_next _ _ _ _ _ Hc) in Ex. lia. }
  assert (u64_sub next 1 = next - 1) as -> by (unfold u64_sub; by rewrite (proj2 (N.ltb_ge _ _) H1)).
  destruct (N.ltb_spec (next - 1) (snapshot_index n)) as [|Hs]; [by apply safe_send_snapshot|]. 
  assert (u64_sub (u64_sub next (snapshot_index n)) 1 = next - snapshot_index n - 1) as ->.
  { unfold u64_sub. rewrite (proj2 (N.ltb_ge next (snapshot_index n))) by lia. by rewrite (proj2 (N.ltb_ge _ _)) by lia. }
  assert ((length (log n) <? N.to_nat (next - snapshot_index n - 1))%nat = false) as ->.
  { apply Nat.ltb_ge. rewrite (cr_log _ _ _ _ _ Hc), length_drop. rewrite (core_last_index _ _ _ _ _ Hc) in H2. unfold len in H2. lia. }
  pose proof (lead_segment n p (next - 1) Hn Hp Hs ltac:(lia)) as Hseg.
  replace (next - 1 - snapshot_index n) with (next - snapshot_index n - 1) in Hseg by lia.
  assert (∀ n', L n' → match send p (AppendEntries (my_term n) (next - 1) (default 0 (term_at n (next - 1)))
     (take (max_batch (cfg n)) (drop (N.to_nat (next - snapshot_index n - 1)) (log n))) (commit_index n) (read_seq n)) n'
     with (n'', Ok _) => L n'' | (n'', Err e) => L n'' ∧ benign e | (n'', Panic) => L n'' ∧ excused n'' end) as Hsend.
  { apply safe_say. intros n' F' Hid' _ _ _. split; [|done]. unfold said. simpl. by rewrite Hid'. }
  destruct (list.last _) as [e|]; [|by apply Hsend]. rewrite run_modify. apply Hsend, good_next; [done|done|]. lia.
Qed.

Lemma safe_broadcast : safe L broadcast_append.
Proof.
  unfold broadcast_append. intros n Hn. pose proof Hn as (Hid & _). apply (safe_for _ (peers n) send_append); [|done].
  intros p Hp. apply safe_send_append. unfold peers in Hp. apply list_elem_of_In, filter_In in Hp as [_ Hp].
  rewrite Hid in Hp. by apply negb_true_iff, String.eqb_neq in Hp.
Qed.
Hint Resolve safe_broadcast : safe.

Lemma safe_register_read d id : safe L (register_read d id).
Proof. unfold register_read. safe_auto; touch. Qed.

End lead.

(** ** Terms and roles *)

Lemma lost_mono t i b b' : b ≤ b' → lost h t i b → lost h t i b'.
Proof. intros Hb (t' & T & H1 & H2 & HT). exists t', T. split; [done|]. split; [lia|done]. Qed.

Lemma shared_mono t t' s i : t ≤ t' → shared t s i → shared t' s i.
Proof. intros Ht (P & HP & Hs). exists P. split; [by eapply settled_mono|done]. Qed.

Definition set_hard (hd : HardState) n : RaftNode := n <| hard := hd |> <| hard_file := hd |>.

Lemma core_hard n F hd : core n F → my_term n ≤ hterm hd → core (set_hard hd n) F.
Proof.
  intros Hc Ht. change (my_term n ≤ my_term (set_hard hd n)) in Ht. destruct Hc. split; try done.
  - intros e He. specialize (cr_terms0 e He). lia.
  - by eapply settled_mono.
  - intros t i Ha. destruct (cr_acked0 t i Ha) as [H1 H2]. split; [lia|]. destruct H2; [by left|right; eapply lost_mono; [|done]; lia].
  - intros t i Hp. destruct (cr_pending0 t i Hp) as (H1 & H2 & H3). split_and!; [lia|done|]. destruct H3; [by left|right; eapply lost_mono; [|done]; lia].
  - intros t T HT Hv. destruct (cr_voted0 t T HT Hv). split; [lia|done].
  - intros t T HT Hl. specialize (cr_led0 t T HT Hl). lia.
  - intros e t He Hfrom Hm. destruct (cr_answer0 e t He Hfrom Hm). split; [lia|done].
  - intros e t lli llt He Ha. specialize (cr_ask0 e t lli llt He Ha). lia.
  - intros p o Ho. destruct (cr_outgoing0 p o Ho). split; [by eapply shared_mono|done].
  - intros i Hi. destruct (cr_incoming0 i Hi) as (s & Hs & Hst). exists s. split; [by eapply shared_mono|done].
Qed.

(** Fields [core] does not look at, but [roles] does. *)
Lemma core_role n F r' l vs sp mi :
  core n F → core (n <| role := r' |> <| spec := sp |> <| outgoing := ∅ |> <| leader := l |> <| votes := vs |> <| match_index := mi |>) F.
Proof. destruct n. intros []. by split. Qed.

Lemma follower_roles n F : role n = Follower → roles n F.
Proof. intros Hr. split; rewrite Hr; done. Qed.

Section follow.
Context (v : NodeId).

Lemma raise_term_good t n :
  good anyhow false v n → ∃ n', raise_term t n = (n', Ok ()) ∧ good anyhow false v n' ∧ my_term n' = N.max (my_term n) t.
Proof.
  intros Hn. unfold raise_term, sm_reads, mbind, sm_bind. destruct (N.ltb_spec (my_term n) t) as [Hlt|Hge].
  - exists (set_hard (mkHard t None) n). split; [done|]. destruct Hn as (Hid & F & Hc & _). split.
    + split; [done|]. exists F. split; [|done]. apply core_hard; [done|simpl; lia].
    + change (my_term (set_hard (mkHard t None) n)) with t. lia.
  - exists n. split_and!; [done..|lia].
Qed.

Definition at_term (t : N) n : Prop := good anyhow false v n ∧ my_term n = t.

Lemma answer_keeps t d id i : ends (at_term t) (answer_read d id i) (at_term t).
Proof.
  intros n [Hn Ht]. pose proof (safe_answer_read anyhow false v d id i n Hn) as Hk. destruct d as [f|].
  - exists (say n f (ReadIndexResponse (my_term n) id i)), (). done.
  - exists (n <| read_results ::= <[id := i]> |>), (). done.
Qed.

Definition follows (t : N) : Role → N → list Entry → Prop := λ r t' _, r = Follower ∧ t' = t.

Lemma follow_good t n l :
  at_term t n →
  good (follows t) true v
    (reset_election_timer (n <| role := Follower |> <| spec := None |> <| outgoing := ∅ |> <| leader := l |> <| votes := ∅ |>)).1.
Proof.
  intros [(Hid & F & Hc & _) Ht]. apply (core_role n F Follower l ∅ None (match_index n)) in Hc.
  assert (good (follows t) true v (n <| role := Follower |> <| spec := None |> <| outgoing := ∅ |> <| leader := l |> <| votes := ∅ |>)) as Hg.
  { split; [done|]. exists F. split; [by destruct n|]. split; [intros _; by apply follower_roles|]. done. }
  apply (safe_timer _ _ _ _ Hg).
Qed.

Lemma become_follower_good t l n :
  good anyhow false v n → ∃ n', become_follower t l n = (n', Ok ()) ∧ good (follows (N.max (my_term n) t)) true v n'.
Proof.
  intros Hn. apply (good_sync anyhow false v) in Hn. destruct (raise_term_good t _ Hn) as (n2 & E2 & Hn2 & Ht2).
  change (my_term (n <| wal ::= log_sync |>)) with (my_term n) in Ht2. rewrite <- Ht2.
  assert (at_term (my_term n2) (n2 <| pending_reads := [] |>)) as Hn3 by (split; [|done]; touch).
  destruct (ends_for (at_term (my_term n2)) (pending_reads n2) (λ r, answer_read (p_from r) (p_id r) None)
    (λ r, answer_keeps _ (p_from r) (p_id r) None) _ Hn3) as (n4 & [] & E4 & Hn4).
  apply (follow_good _ _ l) in Hn4. eexists. split; [|exact Hn4]. unfold become_follower, wal_sync. rewrite run_modify.
  rewrite (run_ok _ _ _ _ _ E2). rewrite (run_ok _ _ n2 n2 (pending_reads n2)) by done. rewrite run_modify, (run_ok _ _ _ _ _ E4), run_modify. apply timer_ok.
Qed.

End follow.

(** ** Applying and compacting *)

Lemma list_filter_none {A} (f : A → bool) (l : list A) : (∀ x, x ∈ l → f x = false) → List.filter f l = [].
Proof. induction l as [|x l IH]; intros Hf; [done|]. simpl. rewrite (Hf x) by (by left). apply IH. intros y Hy. apply Hf. by right. Qed.
Lemma list_filter_all {A} (f : A → bool) (l : list A) : (∀ x, x ∈ l → f x = true) → List.filter f l = l.
Proof. induction l as [|x l IH]; intros Hf; [done|]. simpl. rewrite (Hf x) by (by left). f_equal. apply IH. intros y Hy. apply Hf. by right. Qed.

(** The records of a log above an index are those after it. *)
Lemma filter_above F j k : numbered F → j ≤ k → List.filter (λ e : Entry, k <? index e) (drop (N.to_nat j) F) = drop (N.to_nat k) F.
Proof.
  intros Hn Hjk. rewrite <- (take_drop (N.to_nat (k - j)) (drop (N.to_nat j) F)), List.filter_app, drop_drop.
  replace (N.to_nat j + N.to_nat (k - j))%nat with (N.to_nat k) by lia.
  rewrite list_filter_none, list_filter_all; [done|..]; intros e (i & Hi)%list_elem_of_lookup.
  - rewrite lookup_drop in Hi. apply Hn in Hi. apply N.ltb_lt. lia.
  - apply lookup_take_Some in Hi as [Hi Hik]. rewrite lookup_drop in Hi. apply Hn in Hi. apply N.ltb_ge. lia.
Qed.

Definition compacted (through t : N) n : RaftNode :=
  n <| stored := catalog n |> <| wal ::= log_keep (λ j, through <? j) |> <| log ::= drop (N.to_nat (through - snapshot_index n)) |>
    <| snapshot_index := through |> <| snapshot_term := t |>.

Section apply.
Context (Y : Role → N → list Entry → Prop) (b : bool) (v : NodeId).
Abbreviation I := (good Y b v).

Lemma core_compacted n F through :
  core n F → snapshot_index n ≤ through → through ≤ m_applied (catalog n) →
  core (compacted through (end_term (upto through F)) n) F.
Proof.
  intros Hc Hs Ha. pose proof (cr_recs _ _ _ _ _ Hc) as Hrec. pose proof (cr_log _ _ _ _ _ Hc) as Hl.
  destruct Hc. split; try done; simpl.
  - rewrite Hl, drop_drop. f_equal. lia.
  - rewrite Hrec, Hl, filter_above, drop_drop by done. f_equal. lia.
  - destruct cr_synced0. lia.
  - lia.
  - intros t i Hack. destruct (cr_acked0 t i Hack) as [H1 H2]. split; [done|]. destruct H2 as [[H2 H3]|H2]; [left|by right]. split; [done|].
    simpl. destruct cr_synced0. lia.
Qed.

Lemma roles_compacted n F through t : core n F → roles n F → roles (compacted through t n) F.
Proof.
  intros Hc []. split; try done; simpl.
  - intros e lli llt He Ha Hr. by rewrite (cr_last _ _ _ _ _ Hc).
  - intros t' i Hr Hp. destruct (rl_durable0 t' i Hr Hp) as [[H1 H2]|H2]; [left|by right]. split; [done|]. simpl.
    destruct (cr_synced _ _ _ _ _ Hc), Hc. lia.
Qed.

Lemma safe_maybe_compact : safe I maybe_compact.
Proof.
  apply safe_from_get. intros n Hn. cbv beta zeta. destruct (N.eqb_spec (compact_after (cfg n)) 0) as [|Hk]; [done|]. simpl.
  destruct (N.ltb_spec (m_applied (catalog n) - snapshot_index n) (2 * compact_after (cfg n))) as [|Hle]; [done|].
  destruct Hn as (Hid & F & Hc & Hr & Hy). set (through := m_applied (catalog n) - compact_after (cfg n)).
  pose proof (cr_commit _ _ _ _ _ Hc) as Hcm. pose proof (cr_applied _ _ _ _ _ Hc) as Hap.
  assert (snapshot_index n ≤ through ∧ through ≤ m_applied (catalog n)) as [H1 H2] by (unfold through; lia).
  rewrite (core_term_at _ _ _ _ _ Hc), (proj2 (N.leb_le _ _) H1), (proj2 (N.leb_le through (len F))) by lia. simpl.
  pose proof (core_compacted n F through Hc H1 H2) as Hc'.
  assert (length (log n) = (length F - N.to_nat (snapshot_index n))%nat) as Hlen by (by rewrite (cr_log _ _ _ _ _ Hc), length_drop).
  unfold persist_catalog, wal_compact_through, drain_log. rewrite !run_modify. unfold sm_reads, mbind, sm_bind. simpl.
  rewrite (proj2 (N.ltb_ge _ _)) by (unfold len in *; lia).
  split; [done|]. exists F. split; [exact Hc'|]. split; [|done]. intros Hb. apply roles_compacted; auto.
Qed.

Lemma good_apply n e s :
  I n → m_applied (catalog n) < commit_index n → entry n (m_applied (catalog n) + 1) = Some e → committed e (catalog n) = Some s →
  I (n <| catalog := s |>).
Proof.
  intros (Hid & F & Hc & Hr & Hy) Hlt He Hs. split; [done|]. exists F. split; [|split; [intros Hb; destruct (Hr Hb); by split|done]].
  pose proof (core_entry _ _ _ _ _ Hc (m_applied (catalog n) + 1)) as HE. rewrite He in HE.
  destruct (N.leb_spec (m_applied (catalog n) + 1) (snapshot_index n)) as [|Hgt]; [done|].
  replace (N.to_nat (m_applied (catalog n) + 1 - 1)) with (N.to_nat (m_applied (catalog n))) in HE by lia.
  destruct Hc. assert (index e = m_applied (catalog n) + 1) as Hi by (rewrite (cr_numbered0 _ _ (eq_sym HE)); lia).
  destruct (committed_at e (catalog n) s) as [Ha _]; [lia|done|]. split; try done; simpl; try (rewrite Ha, Hi; lia).
  rewrite Ha, Hi. unfold upto in *. rewrite N2Nat.inj_add. change (N.to_nat 1) with 1%nat. rewrite Nat.add_1_r.
  rewrite (take_S_r _ _ e) by done. rewrite replay_snoc, cr_catalog0. done.
Qed.

Lemma apply_step n : I n → m_applied (catalog n) < commit_index n → ∃ e, entry n (m_applied (catalog n) + 1) = Some e.
Proof.
  intros (Hid & F & Hc & Hr & Hy) Hlt. rewrite (core_entry _ _ _ _ _ Hc). destruct Hc.
  rewrite (proj2 (N.leb_gt _ _)) by lia. apply lookup_lt_is_Some_2. unfold len in *. lia.
Qed.

Lemma apply_index n e s :
  I n → entry n (m_applied (catalog n) + 1) = Some e → committed e (catalog n) = Some s → m_applied s = m_applied (catalog n) + 1.
Proof.
  intros (Hid & F & Hc & Hr & Hy) He Hs. rewrite (core_entry _ _ _ _ _ Hc) in He. case_match; [done|].
  pose proof (cr_numbered _ _ _ _ _ Hc _ _ He) as Hi. apply committed_at in Hs as [-> _]; lia.
Qed.

(** A step per entry to apply is enough. *)
Lemma apply_loop_good fuel n :
  I n → commit_index n ≤ m_applied (catalog n) + N.of_nat fuel →
  match apply_loop fuel n with (n', Ok _) => I n' | (n', Err e) => I n' ∧ benign e | (n', Panic) => I n' ∧ excused n' end.
Proof.
  revert n. induction fuel as [|fuel IH]; intros n Hn Hf; cbn [apply_loop]; rewrite run_get;
    (destruct (N.ltb_spec (m_applied (catalog n)) (commit_index n)) as [Hlt|]; [|done]); [lia|].
  destruct (apply_step n Hn Hlt) as [e He]. rewrite He. destruct (committed e (catalog n)) as [s|] eqn:Hs; [|split; [done|apply excused_stuck; split; [done|by exists e]]].
  cbn [or_panic]. change (mret s ≫= ?k) with (k s). cbv beta. rewrite run_modify. apply IH; [by eapply good_apply|].
  simpl. rewrite (apply_index n e s Hn He Hs). lia.
Qed.

Lemma safe_apply_committed : safe I apply_committed.
Proof.
  apply safe_from_get. intros n Hn. cbv beta zeta. pose proof (apply_loop_good (N.to_nat (commit_index n - m_applied (catalog n))) n Hn ltac:(lia)) as Hl.
  unfold mbind at 1, sm_bind at 1. destruct (apply_loop _ n) as [n' [[]|e|]]; [|done..].
  unfold sm_reads, mbind, sm_bind. destruct (_ <? _); [by apply safe_maybe_compact|done].
Qed.

End apply.

End ops.
End RaftOps.
