(* ===== verification/RaftFollow.v ===== *)
(** * The follower's side ([raft.rs])

    Appending the leader's entries, installing its snapshot and voting keep the
    invariant of [RaftSafe.v]; the leader never overwrites a committed entry, and
    what the follower answers is true. *)

From S2P Require Import Prelude Membership Wal WalSpec RaftLog RaftMachine Raft RaftCalc RaftVotes RaftSafe RaftOps.

Module RaftFollow.
Import Membership.
Import Wal WalSpec RaftLog Raft RaftCalc RaftVotes RaftSafe RaftOps.

Open Scope N_scope.

Section follow.
Context {S : Type} `{MachineLaws S} {EX : Excuse (S := S)} (V : gset NodeId) (net : list (Envelope (S := S))).
Abbreviation M := (Stable V).
Abbreviation Entry := (WalRecord m_command).
Implicit Types n : RaftNode (S := S).
Implicit Types F : list Entry.

Context (h : Hist (C := m_command)) (Hok : hist_ok V h) (Hpt : plain_terms h) (Hnet : Forall (sent V net h) net).
Abbreviation core := (core V net h).
Abbreviation roles := (roles V net h).
Abbreviation settled := (settled V h).
Abbreviation shared := (shared V h).
Abbreviation good := (good V net h).
Abbreviation can_say := (can_say V net h).

Context (v : NodeId).

(** ** Entries of the leader *)

Section append.
Context (t : N) (T : Term (C := m_command)) (HT : terms h !! t = Some T) (Hlead : tm_leader T ≠ v).
Abbreviation tl := (tm_log T).

(** The follower has the first [i] entries of the leader. *)
Definition agrees (i : N) : Role → N → list Entry → Prop := λ r t' F, r = Follower ∧ t' = t ∧ upto i tl `prefix_of` F.

Lemma term_bound k e : tl !! k = Some e → Wal.term e ≤ t.
Proof.
  intros Hk. pose proof (ho_terms V h Hok t T HT) as Ht. destruct (decide (length (tm_first T) ≤ k)%nat) as [Hle|Hlt].
  - by rewrite (to_own _ _ _ _ Ht k e).
  - destruct (lookup_lt_is_Some_2 (tm_first T) k) as [e1 He1]; [lia|]. pose proof (prefix_lookup_Some _ _ _ _ He1 (to_first _ _ _ _ Ht)) as E.
    rewrite Hk in E. injection E as <-. apply (to_older _ _ _ _ Ht) in He1. lia.
Qed.

(** The entries a conflict removes were lost already. *)
Lemma conflict_lost F i e0 e t1 j :
  F !! N.to_nat i = Some e0 → tl !! N.to_nat i = Some e → Wal.term e0 ≠ Wal.term e →
  valid h t1 j → t1 ≤ t → part h t1 j `prefix_of` F → j ≤ i ∨ lost h t1 j (t + 1).
Proof.
  intros He0 He Hne (T1 & HT1 & Hj) Ht1 Hp. destruct (decide (j ≤ i)) as [|Hgt]; [by left|]. right.
  assert (part h t1 j !! N.to_nat i = Some e0) as Hpi.
  { rewrite (prefix_upto _ _ Hp). assert (len (part h t1 j) = j) as -> by (unfold part; rewrite HT1; by apply len_upto).
    rewrite lookup_upto by lia. done. }
  assert (∀ l, part h t1 j `prefix_of` l → l `prefix_of` tl → False) as Hno.
  { intros l H1 H2. apply Hne. pose proof (prefix_lookup_Some _ _ _ _ Hpi (transitivity H1 H2)). congruence. }
  pose proof (ho_terms V h Hok t T HT) as Ht. exists t, T.
  assert (t1 ≠ t) as Hn.
  { intros ->. apply (Hno tl); [|done]. by apply part_prefix. }
  split_and!; [lia|lia|done|]. intros Hf. eapply Hno; [exact Hf|]. apply (to_first _ _ _ _ Ht).
Qed.

(** The follower's log becomes the first [i + 1] entries of the leader. *)
Lemma core_extend n F i e lg w :
  core n F → my_id n = v → my_term n = t → role n = Follower → tl !! N.to_nat i = Some e →
  snapshot_index n ≤ i → commit_index n ≤ i → upto i tl `prefix_of` F →
  lg = drop (N.to_nat (snapshot_index n)) (upto (i + 1) tl) → l_recs w = lg → l_last w = i + 1 →
  snapshot_index n ≤ l_synced w → l_synced w ≤ i → l_floor w = l_floor (wal n) →
  (∀ t1 j, valid h t1 j → t1 ≤ t → part h t1 j `prefix_of` F → j ≤ i ∧ (j ≤ l_synced (wal n) → j ≤ l_synced w) ∨ lost h t1 j (t + 1)) →
  core (n <| wal := w |> <| log := lg |>) (upto (i + 1) tl).
Proof.
  intros Hc Hid Ht Hrole He Hs Hcm Hpre Hlg Hrec Hlast Hsy1 Hsy2 Hfl Hkeep. pose proof (ho_terms V h Hok t T HT) as HtT.
  assert (i + 1 ≤ len tl) as Hlen by (apply lookup_lt_Some in He; unfold len; lia).
  assert (∀ k, k ≤ i → upto k (upto (i + 1) tl) = upto k F) as Hup.
  { intros k Hk. rewrite upto_upto by lia. rewrite <- (upto_of_prefix _ _ _ Hpre) by (rewrite len_upto by lia; lia). by rewrite upto_upto. }
  assert (∀ t1 j, part h t1 j `prefix_of` F → valid h t1 j → j ≤ i → part h t1 j `prefix_of` upto (i + 1) tl) as Hstay.
  { intros t1 j Hp (T1 & HT1 & Hj) Hji. assert (len (part h t1 j) = j) as Hl by (unfold part; rewrite HT1; by apply len_upto).
    rewrite (prefix_upto _ _ Hp), Hl, <- (Hup j Hji). apply upto_prefix. }
  pose proof (λ t i, pending_valid V net h n F t i Hc) as Hpv. destruct Hc.
  split; try done; simpl; rewrite ?Hup by lia; try done.
  - apply numbered_upto. by eapply to_numbered.
  - intros k x Hk. pose proof (prefix_lookup_Some _ _ _ _ Hk (upto_prefix _ _)) as Hk'.
    destruct (to_coherent _ _ _ _ HtT _ _ Hk') as (T1 & HT1 & Hp). exists T1. split; [done|]. unfold upto. rewrite take_take.
    rewrite Nat.min_l; [done|]. apply lookup_lt_Some in Hk. unfold upto in Hk. rewrite length_take in Hk. lia.
  - intros x (k & Hk)%list_elem_of_lookup. pose proof (prefix_lookup_Some _ _ _ _ Hk (upto_prefix _ _)) as Hk'.
    change (my_term _) with (my_term n). rewrite Ht. by eapply term_bound.
  - by rewrite len_upto.
  - rewrite len_upto by done. lia.
  - by rewrite Hfl.
  - rewrite len_upto by done. lia.
  - intros t1 j Ha. pose proof (ho_acked V h Hok _ _ _ Ha) as Hval. destruct (cr_acked0 t1 j Ha) as [H1 H2]. split; [done|].
    destruct H2 as [[H2 H3]|H2]; [|by right]. destruct (Hkeep t1 j Hval ltac:(congruence) H2) as [[H4 H5]|H4]; [left; split; [by apply Hstay|auto]|right].
    change (my_term _) with (my_term n). by rewrite Ht.
  - intros t1 j Hp. pose proof (Hpv t1 j Hp) as Hval. destruct (cr_pending0 t1 j Hp) as (H1 & H2 & H3). split; [done|]. split; [done|].
    destruct H3 as [H3|H3]; [|by right]. destruct (Hkeep t1 j Hval ltac:(congruence) H3) as [[H4 H5]|H4]; [left; by apply Hstay|right].
    change (my_term _) with (my_term n). by rewrite Ht.
Qed.

Lemma filter_upto F j k : numbered F → List.filter (λ e : Entry, index e <=? k) (drop (N.to_nat j) F) = drop (N.to_nat j) (upto k F).
Proof.
  intros Hn. unfold upto. rewrite <- (take_drop (N.to_nat k - N.to_nat j)%nat (drop (N.to_nat j) F)), List.filter_app, drop_drop.
  rewrite list_filter_all, list_filter_none, app_nil_r; [|intros e (x & Hx)%list_elem_of_lookup..].
  - symmetry. apply skipn_firstn_comm.
  - rewrite lookup_drop in Hx. apply Hn in Hx. apply N.leb_gt. lia.
  - apply lookup_take_Some in Hx as [Hx Hk]. rewrite lookup_drop in Hx. apply Hn in Hx. apply N.leb_le. lia.
Qed.

Lemma agrees_same F i e0 e :
  coherent h F → F !! N.to_nat i = Some e0 → tl !! N.to_nat i = Some e → Wal.term e0 = Wal.term e → upto (i + 1) tl `prefix_of` F.
Proof.
  intros Hc He0 He Et. pose proof (ho_terms V h Hok t T HT) as HtT.
  pose proof (same_entry h F tl _ _ _ Hc (to_coherent _ _ _ _ HtT) He0 He Et) as E. unfold upto.
  replace (N.to_nat (i + 1)) with (Datatypes.S (N.to_nat i)) by lia. rewrite <- E. apply prefix_take.
Qed.

Lemma run_push e n :
  l_last (wal n) < index e →
  (wal_append_unsynced e ;; sm_modify (λ n, n <| log ::= λ l, l ++ [e] |>)) n =
  (n <| wal := log_append e (wal n) |> <| log := log n ++ [e] |>, Ok ()).
Proof.
  intros Hl. unfold wal_append_unsynced, sm_reads, mbind, sm_bind. rewrite (proj2 (N.leb_gt _ _) Hl). by destruct n.
Qed.

(** The log after a conflict, or at the end of the follower's log. *)
Lemma truncate_good n i e :
  good (agrees i) true v n → snapshot_index n ≤ i → commit_index n ≤ i → tl !! N.to_nat i = Some e →
  (∃ e0, entry n (i + 1) = Some e0 ∧ Wal.term e0 ≠ Wal.term e) →
  good (agrees (i + 1)) true v
    (n <| wal := log_append e (log_restart i (log_keep (λ j, j <=? i) (wal n))) |>
       <| log := take (N.to_nat (i - snapshot_index n)) (log n) ++ [e] |>).
Proof.
  intros (Hid & F & Hc & Hr & Hrole & Ht & Hpre) Hs Hcm He (e0 & He0 & Hne). pose proof (ho_terms V h Hok t T HT) as HtT.
  assert (index e = i + 1) as Hidx by (rewrite (to_numbered _ _ _ _ HtT _ _ He); lia).
  assert (i + 1 ≤ len tl) as Hlen by (apply lookup_lt_Some in He; unfold len; lia).
  rewrite (core_entry _ _ _ _ _ Hc), (proj2 (N.leb_gt _ _)) in He0 by lia. replace (i + 1 - 1) with i in He0 by lia.
  assert (upto i F = upto i tl) as Hu by (rewrite <- (upto_of_prefix _ _ _ Hpre), upto_upto; [done|lia|rewrite len_upto; lia]).
  assert (drop (N.to_nat (snapshot_index n)) (upto (i + 1) tl) = drop (N.to_nat (snapshot_index n)) (upto i F) ++ [e]) as Hd.
  { rewrite Hu. unfold upto. replace (N.to_nat (i + 1)) with (Datatypes.S (N.to_nat i)) by lia. rewrite (take_S_r _ _ e) by done.
    rewrite drop_app_le; [done|]. rewrite length_take. unfold len in Hlen. lia. }
  split; [done|]. exists (upto (i + 1) tl). split; [|split; [intros _; by apply follower_roles|done]].
  eapply core_extend; try done; simpl; rewrite ?Hidx; try done; try lia.
  - rewrite Hd, (cr_log _ _ _ _ _ Hc). f_equal. unfold upto. rewrite skipn_firstn_comm. f_equal. lia.
  - rewrite (cr_recs _ _ _ _ _ Hc), (cr_log _ _ _ _ _ Hc), filter_upto by apply Hc. f_equal.
    unfold upto. rewrite skipn_firstn_comm. f_equal. lia.
  - intros t1 j Hval Ht1 Hp. destruct (conflict_lost F i e0 e t1 j He0 He Hne Hval Ht1 Hp); [left; split; [done|by intros _]|by right].
Qed.

Lemma push_good n i e :
  good (agrees i) true v n → snapshot_index n ≤ i → last_index n = i → tl !! N.to_nat i = Some e →
  good (agrees (i + 1)) true v (n <| wal := log_append e (wal n) |> <| log := log n ++ [e] |>).
Proof.
  intros (Hid & F & Hc & Hr & Hrole & Ht & Hpre) Hs Hlast He. pose proof (ho_terms V h Hok t T HT) as HtT.
  assert (index e = i + 1) as Hidx by (rewrite (to_numbered _ _ _ _ HtT _ _ He); lia).
  assert (i + 1 ≤ len tl) as Hlen by (apply lookup_lt_Some in He; unfold len; lia).
  rewrite (core_last_index _ _ _ _ _ Hc) in Hlast.
  assert (F = upto i tl) as HF by (symmetry; apply prefix_length_eq; [done|]; unfold len, upto in *; rewrite length_take; lia).
  assert (drop (N.to_nat (snapshot_index n)) (upto (i + 1) tl) = log n ++ [e]) as Hd.
  { rewrite (cr_log _ _ _ _ _ Hc), HF. unfold upto. replace (N.to_nat (i + 1)) with (Datatypes.S (N.to_nat i)) by lia.
    rewrite (take_S_r _ _ e) by done. rewrite drop_app_le; [done|]. rewrite length_take. unfold len in Hlen. lia. }
  pose proof (cr_synced _ _ _ _ _ Hc) as [Hsy1 Hsy2]. pose proof (cr_commit _ _ _ _ _ Hc) as Hcm.
  split; [done|]. exists (upto (i + 1) tl). split; [|split; [intros _; by apply follower_roles|done]].
  eapply core_extend; try done; simpl; rewrite ?Hidx; try done; try lia.
  - by rewrite (cr_recs _ _ _ _ _ Hc).
  - intros t1 j (T1 & HT1 & Hj) Ht1 Hp. left. split; [|done]. apply prefix_len in Hp. unfold part in Hp. rewrite HT1, len_upto in Hp by done. lia.
Qed.

Lemma append_entry_good n i e :
  good (agrees i) true v n → snapshot_index n ≤ i → tl !! N.to_nat i = Some e →
  ∃ n', append_entry e n = (n', Ok ()) ∧ good (agrees (i + 1)) true v n' ∧ snapshot_index n' = snapshot_index n.
Proof.
  intros Hn Hs He. pose proof Hn as (Hid & F & Hc & Hr & Hrole & Ht & Hpre). pose proof (ho_terms V h Hok t T HT) as HtT.
  assert (index e = i + 1) as Hidx by (rewrite (to_numbered _ _ _ _ HtT _ _ He); lia).
  assert (i + 1 ≤ len tl) as Hlen by (apply lookup_lt_Some in He; unfold len; lia).
  assert (i ≤ len F) as HiF by (apply prefix_len in Hpre; by rewrite len_upto in Hpre by lia).
  unfold append_entry. rewrite run_get, Hidx, (core_term_at _ _ _ _ _ Hc), (proj2 (N.leb_le (snapshot_index n) (i + 1))) by lia.
  cbn [andb]. replace (i + 1 - 1) with i by lia. destruct (N.leb_spec (i + 1) (len F)) as [Hin|Hout].
  - destruct (lookup_lt_is_Some_2 F (N.to_nat i)) as [e0 He0]; [unfold len in Hin; lia|].
    rewrite (last_upto (i + 1) F e0) by (try lia; by replace (i + 1 - 1) with i by lia).
    destruct (N.eqb_spec (Wal.term e0) (Wal.term e)) as [Et|Hne].
    + exists n. split; [done|]. split; [|done]. split; [done|]. exists F. split; [done|]. split; [done|]. split_and!; [done..|].
      by eapply agrees_same; [apply Hc|..].
    + assert (commit_index n ≤ i) as Hcm.
      { destruct (decide (commit_index n ≤ i)) as [|Hgt]; [done|]. destruct Hne.
        pose proof (settled_log V h Hok _ _ t T (cr_settled _ _ _ _ _ Hc) ltac:(lia) HT) as Hp.
        assert (upto (commit_index n) F !! N.to_nat i = Some e0) as Hu by (rewrite lookup_upto by lia; done).
        pose proof (prefix_lookup_Some _ _ _ _ Hu Hp). congruence. }
      rewrite (proj2 (N.leb_gt _ _)) by lia. unfold wal_truncate_after. rewrite !run_modify, run_push by (simpl; lia). eexists.
      split; [reflexivity|]. split; [|done].
      assert (∃ e0, entry n (i + 1) = Some e0 ∧ Wal.term e0 ≠ Wal.term e) as Hconf.
      { exists e0. rewrite (core_entry _ _ _ _ _ Hc), (proj2 (N.leb_gt _ _)) by lia. by replace (i + 1 - 1) with i by lia. }
      pose proof (truncate_good n i e Hn Hs Hcm He Hconf) as Hg. replace (i - snapshot_index n) with (i + 1 - snapshot_index n - 1) in Hg by lia.
      clear -Hg. by destruct n.
  - rewrite run_push by (rewrite (cr_last _ _ _ _ _ Hc); lia). eexists. split; [reflexivity|]. split; [|done].
    apply push_good; [done..| |done]. rewrite (core_last_index _ _ _ _ _ Hc). lia.
Qed.

Lemma append_all_good es n i :
  good (agrees i) true v n → snapshot_index n ≤ i → es `prefix_of` drop (N.to_nat i) tl →
  ∃ n', sm_for es append_entry n = (n', Ok ()) ∧ good (agrees (i + len es)) true v n' ∧ snapshot_index n' = snapshot_index n.
Proof.
  revert n i. induction es as [|e es IH]; intros n i Hn Hs Hp; cbn [sm_for].
  - exists n. split; [done|]. by rewrite N.add_0_r.
  - assert (tl !! N.to_nat i = Some e) as He.
    { destruct Hp as [k Hk]. apply (f_equal (lookup 0%nat)) in Hk. rewrite lookup_drop, Nat.add_0_r in Hk. done. }
    destruct (append_entry_good n i e Hn Hs He) as (n1 & E1 & Hn1 & Hs1). rewrite (run_ok _ _ _ _ _ E1).
    destruct (IH n1 (i + 1) Hn1) as (n2 & E2 & Hn2 & Hs2); [lia| |].
    { replace (N.to_nat (i + 1)) with (N.to_nat i + 1)%nat by lia. rewrite <- drop_drop. destruct Hp as [k ->]. simpl. by exists k. }
    exists n2. split; [done|]. split; [|congruence]. replace (i + len (e :: es)) with (i + 1 + len es); [done|]. unfold len. simpl. lia.
Qed.

Lemma good_commit n m c :
  good (agrees m) true v n → m ≤ len tl → c ≤ m → settled t (upto c tl) → commit_index n ≤ c →
  good (agrees m) true v (n <| commit_index := c |>).
Proof.
  intros (Hid & F & Hc & Hr & Hrole & Ht & Hpre) Hm Hcm Hset Hle. split; [done|]. exists F.
  split; [|split; [intros _; by apply follower_roles|done]].
  assert (upto c F = upto c tl) as Hu by (rewrite <- (upto_of_prefix _ _ _ Hpre), upto_upto; [done|lia|rewrite len_upto; lia]).
  assert (c ≤ len F) as HcF by (apply prefix_len in Hpre; rewrite len_upto in Hpre by done; lia).
  destruct Hc. split; try done; simpl; try lia.
  change (my_term _) with (my_term n). by rewrite Ht, Hu.
Qed.

End append.

(** ** The configuration *)

Lemma safe_refresh Y b n : good Y b v n → role n ≠ Leader → good Y b v (refresh_membership n).1.
Proof.
  intros Hn Hrole. unfold refresh_membership, sm_modify. cbn [fst]. pose proof Hn as (Hid & F & Hc & _ & _).
  pose proof (core_plain V net h n F Hc Hok Hpt) as Hp. destruct (cr_members _ _ _ _ _ Hc) as [Hm Hi].
  rewrite (no_change (log n)) by (rewrite (cr_log _ _ _ _ _ Hc); by apply Forall_drop).
  rewrite (replay_plain _ _ (Forall_take plain _ _ Hp) (cr_catalog _ _ _ _ _ Hc)). cbn [default].
  unfold has_role. rewrite bool_decide_eq_false_2 by done. eapply good_same; [|exact Hn]. split; try done. simpl. congruence.
Qed.


(** ** AppendEntries *)

Lemma good_weaken (Y Y' : Role → N → list Entry → Prop) b n : (∀ r t F, Y r t F → Y' r t F) → good Y b v n → good Y' b v n.
Proof. intros HY (Hid & F & Hc & Hr & Hy). split; [done|]. exists F. auto. Qed.

Section handle.
Context (t : N) (T : Term (C := m_command)) (HT : terms h !! t = Some T).
Abbreviation tl := (tm_log T).
Abbreviation agrees := (agrees t T).

Definition replies (x : RaftNode (S := S) * res RaftError (bool * N)) : Prop :=
  match x with
  | (n', Ok (s, m)) => good (follows t) true v n' ∧ (s = true → m ≤ len tl ∧ good (agrees m) true v n')
  | (n', Err e) => good (follows t) true v n' ∧ benign e
  | (n', Panic) => good (follows t) true v n' ∧ excused n'
  end.

Lemma agrees_follows i n : good (agrees i) true v n → good (follows t) true v n.
Proof. apply good_weaken. by intros r t' F (? & ? & _). Qed.

(** What is committed here is in the leader's log. *)
Lemma snapshot_agrees n : good (follows t) true v n →
  snapshot_index n ≤ len tl ∧ good (agrees (snapshot_index n)) true v n ∧ snapshot_term n = end_term (upto (snapshot_index n) tl).
Proof.
  intros (Hid & F & Hc & Hr & Hrole & Ht). pose proof (settled_log V h Hok _ _ t T (cr_settled _ _ _ _ _ Hc) ltac:(lia) HT) as Hp.
  pose proof (cr_commit _ _ _ _ _ Hc). pose proof (cr_applied _ _ _ _ _ Hc). pose proof (cr_snap _ _ _ _ _ Hc).
  pose proof (prefix_len _ _ Hp) as Hl. rewrite len_upto in Hl by done.
  assert (upto (snapshot_index n) tl = upto (snapshot_index n) F) as Hu.
  { rewrite <- (upto_of_prefix _ _ _ Hp), upto_upto; [done|lia|rewrite len_upto; lia]. }
  split; [lia|]. split; [|by rewrite Hu, (cr_snap_term _ _ _ _ _ Hc)]. split; [done|]. exists F. split_and!; [done..|].
  split_and!; [done..|]. rewrite Hu. apply upto_prefix.
Qed.

Lemma append_entries_good n i es lc :
  good (agrees i) true v n → snapshot_index n ≤ i → es `prefix_of` drop (N.to_nat i) tl → i + len es ≤ len tl →
  settled t (upto lc tl) → replies (append_entries i es lc n).
Proof.
  intros Hn Hs Hp Hl Hset. unfold append_entries. cbv zeta. change (N.of_nat (length es)) with (len es).
  destruct (append_all_good t T HT es n i Hn Hs Hp) as (n1 & E1 & Hn1 & _). rewrite (run_ok _ _ _ _ _ E1).
  assert (role n1 = Follower) as Hf by (by destruct Hn1 as (_ & F & _ & _ & ? & _)).
  apply (safe_refresh _ _ n1) in Hn1; [|by rewrite Hf]. 
  rewrite (run_ok refresh_membership _ n1 (refresh_membership n1).1 ()) by done. revert Hn1. generalize (refresh_membership n1).1.
  intros n2 Hn2. rewrite run_get. destruct (N.ltb_spec (commit_index n2) lc) as [Hlt|Hge].
  - unfold mbind at 1, sm_bind at 1. rewrite run_modify. set (c := N.max _ _). assert (good (agrees (i + len es)) true v (n2 <| commit_index := c |>)) as Hn3.
    { destruct (decide (N.min lc (i + len es) ≤ commit_index n2)) as [Hle|Hgt].
      - replace c with (commit_index n2) by (unfold c; lia). by destruct n2.
      - replace c with (N.min lc (i + len es)) by (unfold c; lia). apply good_commit; try done; try lia.
        eapply settled_mono; [done..|]. by apply upto_mono; lia. }
    pose proof (safe_apply_committed _ _ _ _ _ _ _ Hn3) as Ha.
    destruct (apply_committed _) as [n4 [[]|e|]]; simpl; [|destruct Ha; split; [by eapply agrees_follows|done]..].
    split; [by eapply agrees_follows|done].
  - simpl. split; [by eapply agrees_follows|done].
Qed.

Lemma check_append_good n i pt es lc :
  good (follows t) true v n → snapshot_index n ≤ i → es `prefix_of` drop (N.to_nat i) tl → i + len es ≤ len tl →
  pt = end_term (upto i tl) → settled t (upto lc tl) → replies (check_append i pt es lc n).
Proof.
  intros Hn Hs Hp Hl Hpt' Hset. unfold check_append. rewrite run_get. pose proof Hn as (Hid & F & Hc & Hr & Hrole & Ht).
  rewrite (core_term_at _ _ _ _ _ Hc), (proj2 (N.leb_le _ _) Hs). simpl. destruct (N.leb_spec i (len F)) as [Hi|]; [|done].
  destruct (N.eqb_spec (end_term (upto i F)) pt) as [Et|]; [|done]. apply append_entries_good; try done.
  split; [done|]. exists F. split_and!; [done..|]. split_and!; [done..|].
  destruct (decide (i = 0)) as [->|Hi0]; [apply prefix_nil|].
  destruct (lookup_lt_is_Some_2 F (N.to_nat (i - 1))) as [e0 He0]; [unfold len in *; lia|].
  destruct (lookup_lt_is_Some_2 tl (N.to_nat (i - 1))) as [e1 He1]; [unfold len in *; lia|].
  rewrite Hpt', (last_upto i F e0), (last_upto i tl e1) in Et by (done || lia).
  replace i with (i - 1 + 1) by lia. eapply (agrees_same t T HT); [apply Hc|done..].
Qed.

Lemma handle_append_good n src pi pt es lc :
  good (follows t) true v n → segment V h src v t pi pt es lc → replies (handle_append pi pt es lc n).
Proof.
  intros Hn (T' & HT' & _ & _ & Hl & Hes & Hpt' & _ & Hset). rewrite HT in HT'. injection HT' as <-.
  assert (es `prefix_of` drop (N.to_nat pi) tl) as Hp by (rewrite Hes; apply prefix_take).
  destruct (snapshot_agrees n Hn) as (Hs1 & Hs2 & Hs3). unfold handle_append. rewrite run_get.
  destruct (N.ltb_spec pi (snapshot_index n)) as [Hlt|Hge]; [|by apply check_append_good].
  destruct (Nat.leb_spec (length es) (N.to_nat (snapshot_index n - pi))) as [Hle|Hgt]; [done|].
  apply check_append_good; try done.
  - destruct Hp as [k Hk]. replace (N.to_nat (snapshot_index n)) with (N.to_nat pi + N.to_nat (snapshot_index n - pi))%nat by lia.
    rewrite <- drop_drop, Hk, drop_app_le by lia. by exists k.
  - unfold len in *. rewrite length_drop. lia.
Qed.

End handle.

(** The node keeps the invariant, and the operation does not end in a fatal error. *)
Definition fine {A} (x : RaftNode (S := S) * res RaftError A) : Prop :=
  match x with
  | (n', Ok _) => good anyhow true v n'
  | (n', Err e) => good anyhow true v n' ∧ benign e
  | (n', Panic) => good anyhow true v n' ∧ excused n'
  end.

Lemma good_any Y b n : good Y b v n → good anyhow b v n.
Proof. by apply good_weaken. Qed.
Lemma good_false Y b n : good Y b v n → good anyhow false v n.
Proof. intros (Hid & F & Hc & _). split; [done|]. by exists F. Qed.

Lemma ensure_good t l n :
  good anyhow true v n → my_term n = t → ∃ n', ensure_follower t l n = (n', Ok ()) ∧ good (follows t) true v n'.
Proof.
  intros Hn Ht. assert (∃ n1, (if has_role n Follower then mret () else become_follower t (Some l)) n = (n1, Ok ()) ∧
    good (follows t) true v n1) as (n1 & E1 & Hn1).
  { unfold has_role. case_bool_decide as Hr.
    - exists n. split; [done|]. destruct Hn as (Hid & F & Hc & Hro & _). split; [done|]. by exists F.
    - destruct (become_follower_good V net h v t (Some l) n (good_false _ _ _ Hn)) as (n1 & E & Hg). exists n1. split; [done|].
      rewrite Ht, N.max_id in Hg. done. }
  unfold ensure_follower. rewrite run_get, (run_ok _ _ _ _ _ E1), run_modify. eexists. split; [apply timer_ok|].
  apply (safe_timer _ _ _ (follows t) true v). eapply good_same; [|exact Hn1]. by split.
Qed.

Lemma on_append_good n src t pi pt es lc rs :
  good anyhow true v n → segment V h src v t pi pt es lc → t ≤ my_term n → fine (on_append src t pi pt es lc rs n).
Proof.
  intros Hn Hseg Ht. unfold on_append. rewrite run_get. destruct (N.ltb_spec t (my_term n)) as [Hlt|Hge].
  - apply (safe_chat V net h anyhow true v src (AppendEntriesResponse (my_term n) false 0 rs) I _ Hn).
  - destruct (ensure_good t src n Hn ltac:(lia)) as (n1 & E1 & Hn1). rewrite (run_ok _ _ _ _ _ E1).
    pose proof Hseg as (T & HT & Hsrc & Hne & _). pose proof (handle_append_good t T HT n1 src pi pt es lc Hn1 Hseg) as Hh.
    unfold mbind at 1, sm_bind at 1. destruct (handle_append pi pt es lc n1) as [n2 [[s m]|e|]]; [|destruct Hh; split; [by eapply good_any|done]..].
    destruct Hh as [Hn2 Hs]. unfold sm_reads. unfold mbind, sm_bind.
    change (good anyhow true v (say n2 src (AppendEntriesResponse (my_term n2) s m rs))). destruct s.
    + destruct (Hs eq_refl) as [Hm Hn3]. eapply good_any, good_say; [exact Hn3|]. intros F Hc Hr (Hrole & Et & Hp). split; [done|].
      split; [done|]. split; [by rewrite Hrole|]. intros i Hi. rewrite Et. split.
      * exists T. split_and!; [done|lia|]. rewrite Hsrc. by destruct Hn3 as [-> _].
      * unfold part. rewrite HT. etrans; [by apply upto_mono|exact Hp].
    + eapply good_any, good_say; [exact Hn2|]. done.
Qed.

(** ** Snapshots *)

Section adopt.
Context (t : N) (s : S) (P : list Entry) (HP : settled t P) (Hs : replay P = Some s).

Lemma adopt_at : m_applied s = len P ∧ m_term s = end_term P.
Proof. destruct (settled_coherent V h Hok _ _ HP) as [_ Hn]. by apply replay_at. Qed.

(** The log after a snapshot it agrees with, and after one that replaces it. *)
Definition adopt_keep n : RaftNode :=
  n <| spec := None |> <| stored := s |> <| catalog := s |> <| log ::= drop (N.to_nat (len P - snapshot_index n)) |>
    <| wal := (let l := log_keep (λ j, len P <? j) (wal n) in mkLog (l_recs l) (N.max (len P) (l_last l)) (N.max (len P) (l_synced l)) (N.max (len P) (l_floor l))) |>
    <| snapshot_index := len P |> <| snapshot_term := end_term P |> <| commit_index := len P |>.
Definition adopt_reset n : RaftNode :=
  n <| spec := None |> <| stored := s |> <| catalog := s |> <| log := [] |>
    <| wal := mkLog [] (len P) (len P) (N.max (len P) (l_floor (wal n))) |>
    <| snapshot_index := len P |> <| snapshot_term := end_term P |> <| commit_index := len P |>.

Lemma keep_good n F :
  core n F → my_id n = v → my_term n = t → role n = Follower → commit_index n < len P → len P ≤ len F → end_term (upto (len P) F) = end_term P →
  good (follows t) true v (adopt_keep n).
Proof.
  intros Hc Hid Ht Hrole Hcm Hl Het. destruct (settled_coherent V h Hok _ _ HP) as [Hco Hnu]. destruct adopt_at as [Ha1 Ha2].
  assert (upto (len P) F = P) as Hu.
  { destruct (lookup_lt_is_Some_2 F (N.to_nat (len P - 1))) as [e0 He0]; [unfold len in *; lia|].
    destruct (lookup_lt_is_Some_2 P (N.to_nat (len P - 1))) as [e1 He1]; [unfold len in *; lia|].
    rewrite (last_upto _ _ e0) in Het by (done || lia). rewrite (end_term_last P _ _ He1) in Het by (unfold len in *; lia).
    pose proof (same_entry h F P _ _ _ (cr_coherent _ _ _ _ _ Hc) Hco He0 He1 Het) as E. unfold upto, len in *.
    replace (N.to_nat (N.of_nat (length P))) with (Datatypes.S (N.to_nat (N.of_nat (length P) - 1))) by lia. rewrite E.
    apply take_ge. lia. }
  split; [done|]. exists F. split; [|split; [intros _; by apply follower_roles|done]].
  pose proof (cr_snap _ _ _ _ _ Hc). pose proof (cr_applied _ _ _ _ _ Hc). pose proof (cr_recs _ _ _ _ _ Hc) as Hrec.
  pose proof (cr_log _ _ _ _ _ Hc) as Hlog. pose proof (cr_synced _ _ _ _ _ Hc). pose proof (cr_floor _ _ _ _ _ Hc).
  pose proof (cr_last _ _ _ _ _ Hc) as Hla. destruct Hc.
  split; try done; simpl; rewrite ?Ha1, ?Hu; try done; try lia.
  - rewrite Hlog, drop_drop. f_equal. lia.
  - rewrite Hrec, Hlog, filter_above, drop_drop by (done || lia). f_equal. lia.
  - change (my_term _) with (my_term n). by rewrite Ht.
  - intros t1 j Hack. destruct (cr_acked0 t1 j Hack) as [Hle Hd]. split; [done|]. destruct Hd as [[Hd Hj]|Hd]; [left|by right].
    split; [done|lia].
Qed.

Lemma adopt_covers n F t1 j :
  core n F → my_term n = t → commit_index n < len P → ¬ (len P ≤ len F ∧ end_term (upto (len P) F) = end_term P) →
  valid h t1 j → t1 ≤ t → part h t1 j `prefix_of` F → part h t1 j `prefix_of` P ∧ j ≤ len P ∨ lost h t1 j (t + 1).
Proof.
  intros Hc Ht Hcm Hno (T1 & HT1 & Hj) Ht1 Hp.
  assert (len (part h t1 j) = j) as Hlj by (unfold part; rewrite HT1; by apply len_upto).
  assert (∀ l, part h t1 j `prefix_of` l → P `prefix_of` l → part h t1 j `prefix_of` P ∧ j ≤ len P) as Hcmp.
  { intros l H1 H2. destruct (decide (j ≤ len P)) as [Hle|Hgt]; [split; [eapply prefix_shorter; [done..|lia]|done]|].
    destruct Hno. assert (P `prefix_of` F) as HPF by (etrans; [|exact Hp]; eapply prefix_shorter; [done..|lia]).
    split; [by apply prefix_len|]. by rewrite <- (prefix_upto _ _ HPF). }
  destruct HP as [->|(t0 & i0 & Hch & Ht0 & HP0)]; [unfold len in Hcm; simpl in Hcm; lia|].
  pose proof Hch as (T0 & _ & _ & HT0 & _). pose proof (part_prefix h t0 T0 i0 HT0) as Hp0. pose proof (part_prefix h t1 T1 j HT1) as Hp1.
  destruct (decide (t1 < t0)) as [Hlt|Hge].
  - destruct (coherent_prefix_dec h (part h t1 j) (tm_first T0)) as [Hf|Hnf].
    { eapply coherent_prefix; [exact Hp|apply Hc]. }
    { by eapply coherent_first. }
    + left. apply (Hcmp (tm_log T0)); [|by etrans]. etrans; [exact Hf|]. by eapply to_first, ho_terms.
    + right. exists t0, T0. split_and!; [done|lia|done|done].
  - left. apply (Hcmp (tm_log T1)); [done|]. etrans; [exact HP0|]. apply (leader_complete_log V h Hok t0 i0 t1 T1); [done|lia|done].
Qed.

Lemma settled_terms e : e ∈ P → Wal.term e ≤ t.
Proof.
  intros He. destruct HP as [->|(t0 & i0 & (T0 & _ & _ & HT0 & _) & Ht0 & HP0)]; [by apply not_elem_of_nil in He|].
  apply list_elem_of_lookup in He as [k Hk]. etrans; [|exact Ht0]. eapply (term_bound t0 T0 HT0). eapply prefix_lookup_Some; [exact Hk|].
  etrans; [exact HP0|]. by apply part_prefix.
Qed.

Lemma reset_good n F :
  core n F → my_id n = v → my_term n = t → role n = Follower → commit_index n < len P →
  ¬ (len P ≤ len F ∧ end_term (upto (len P) F) = end_term P) → good (follows t) true v (adopt_reset n).
Proof.
  intros Hc Hid Ht Hrole Hcm Hno. destruct (settled_coherent V h Hok _ _ HP) as [Hco Hnu]. destruct adopt_at as [Ha1 Ha2].
  pose proof (λ t1 j, adopt_covers n F t1 j Hc Ht Hcm Hno) as Hcov. pose proof (λ t i, pending_valid V net h n F t i Hc) as Hpv.
  split; [done|]. exists P. split; [|split; [intros _; by apply follower_roles|done]].
  assert (upto (len P) P = P) as Hu by (by apply upto_all). assert (drop (N.to_nat (len P)) P = []) as Hd by (apply drop_ge; unfold len; lia).
  pose proof (cr_floor _ _ _ _ _ Hc). pose proof (cr_snap _ _ _ _ _ Hc). pose proof (cr_applied _ _ _ _ _ Hc).
  destruct Hc. split; try done; simpl; rewrite ?Ha1, ?Hu, ?Hd; try done; try lia.
  - intros e He. change (my_term _) with (my_term n). rewrite Ht. by apply settled_terms.
  - change (my_term _) with (my_term n). by rewrite Ht.
  - intros t1 j Hack. pose proof (ho_acked V h Hok _ _ _ Hack) as Hval. destruct (cr_acked0 t1 j Hack) as [Hle Hd']. split; [done|].
    change (my_term _) with (my_term n). destruct Hd' as [[Hd' Hj]|Hd']; [|by right]. rewrite Ht in *. by apply Hcov.
  - intros t1 j Hp. pose proof (Hpv t1 j Hp) as Hval. destruct (cr_pending0 t1 j Hp) as (Hle & HT & Hd'). split; [done|]. split; [done|].
    change (my_term _) with (my_term n). destruct Hd' as [Hd'|Hd']; [|by right]. rewrite Ht in *. destruct (Hcov t1 j Hval Hle Hd') as [[? _]|?]; auto.
Qed.

Lemma run_reset n :
  (((sm_modify (λ n, n <| log := [] |>) ;; wal_reset (len P)) ;;
    wal_raise_floor (len P) ;;
    sm_modify (λ n, n <| snapshot_index := len P |> <| snapshot_term := end_term P |> <| commit_index := len P |>) ;;
    refresh_membership) (n <| spec := None |> <| stored := s |> <| catalog := s |>)) = refresh_membership (adopt_reset n).
Proof.
  unfold wal_reset, wal_raise_floor. unfold mbind at 1, sm_bind at 1. rewrite !run_modify. unfold adopt_reset, log_restart, log_keep.
  destruct n. cbn. rewrite list_filter_none by done. rewrite !run_modify. cbn [wal l_recs l_last l_synced l_floor]. by rewrite !N.max_id.
Qed.

Lemma install_good i n :
  good (follows t) true v n → in_state i = s → commit_index n < len P →
  ∃ n', install_staged i n = (n', Ok ()) ∧ good (follows t) true v n'.
Proof.
  intros (Hid & F & Hc & Hr & Hrole & Ht) Hi Hcm. destruct adopt_at as [Ha1 Ha2]. unfold install_staged, adopt_snapshot. rewrite run_modify, Hi.
  cbv zeta. rewrite Ha1, Ha2, run_modify, run_get.
  assert (term_at (n <| spec := None |> <| stored := s |> <| catalog := s |>) (len P) = term_at n (len P)) as -> by done.
  pose proof (cr_snap _ _ _ _ _ Hc). pose proof (cr_applied _ _ _ _ _ Hc).
  rewrite (core_term_at _ _ _ _ _ Hc), (proj2 (N.leb_le (snapshot_index n) (len P))) by lia. simpl andb.
  assert (∀ n1, good (follows t) true v n1 → ∃ n', refresh_membership n1 = (n', Ok ()) ∧ good (follows t) true v n') as Hfin.
  { intros n1 Hn1. eexists. split; [done|]. apply (safe_refresh _ _ n1); [done|]. destruct Hn1 as (_ & F1 & _ & _ & E & _). by rewrite E. }
  case_bool_decide as Hm.
  - destruct (N.leb_spec (len P) (len F)) as [Hl|]; [|done]. injection Hm as Het.
    destruct (Hfin (adopt_keep n)) as (n' & E & Hn'); [by eapply keep_good|]. exists n'. split; [|done]. rewrite <- E.
    unfold drain_log, wal_compact_through, wal_raise_floor. unfold mbind at 1, sm_bind at 1. unfold mbind at 1, sm_bind at 1. unfold sm_reads. 
    unfold mbind at 1, sm_bind at 1.
    assert (length (log n) = (length F - N.to_nat (snapshot_index n))%nat) as Hlen by (by rewrite (cr_log _ _ _ _ _ Hc), length_drop).
    simpl. rewrite (proj2 (N.ltb_ge _ _)) by (unfold len in *; lia). by destruct n.
  - destruct (Hfin (adopt_reset n)) as (n' & E & Hn').
    { eapply reset_good; [done..|]. intros [Hl Het]. apply Hm. by rewrite (proj2 (N.leb_le _ _) Hl), Het. }
    exists n'. split; [|done]. rewrite <- E. apply run_reset.
Qed.

End adopt.

Lemma good_incoming Y b n x :
  good Y b v n → (∀ i, x = Some i → ∃ s, shared (my_term n) s (in_index i) ∧ staged_at s (in_seq i) (in_state i)) →
  good Y b v (n <| incoming := x |>).
Proof.
  intros (Hid & F & Hc & Hr & Hy) Hx. split; [done|]. exists F. split; [destruct Hc; by split|]. split; [|done].
  intros Hb. destruct (Hr Hb). by split.
Qed.

(** Two states shared at the same index are equal. *)
Lemma shared_same t s t' s' i : shared t s i → shared t' s' i → s = s'.
Proof.
  intros (P & HP & Hs & Hi) (P' & HP' & Hs' & Hi'). assert (P = P') as <- by (eapply (settled_same V h Hok); [done..|congruence]). congruence.
Qed.

Lemma chunk_good t n s idx seq x k :
  good (follows t) true v n → shared t s idx → chunk_at s seq x k →
  match handle_snapshot_chunk idx seq x n with
  | (n', Ok _) => good (follows t) true v n'
  | (n', Err e) => good (follows t) true v n' ∧ benign e
  | (n', Panic) => good (follows t) true v n' ∧ excused n'
  end.
Proof.
  intros Hn Hsh Hx. pose proof Hn as (Hid & F & Hc & Hr & Hrole & Ht). unfold handle_snapshot_chunk. rewrite run_get.
  assert (good (follows t) true v (n <| incoming := None |>)) as Hnone by (by apply good_incoming).
  destruct (N.leb_spec idx (commit_index n)) as [Hle|Hgt]; [done|]. destruct (x_header x) as [p|] eqn:Hh.
  { rewrite run_modify. destruct (N.eqb_spec seq 0) as [->|]; [|done]. simpl. change (good (follows t) true v (n <| incoming := None |> <| incoming := Some (mkIn idx 0 p) |>)).
    apply good_incoming; [done|]. intros i [= <-]. exists s. change (my_term _) with (my_term n). rewrite Ht. split; [done|].
    apply chunk_at_inv in Hx. by eapply staged_first. }
  destruct (incoming n) as [i|] eqn:Hi; [|done]. destruct (N.eqb_spec (in_index i) idx) as [Hidx|]; [|done]. cbn [negb].
  destruct (N.eqb_spec seq (in_seq i)) as [|Hne]; [done|]. destruct (N.eqb_spec seq (in_seq i + 1)) as [->|]; [|done]. cbn [negb].
  destruct (cr_incoming _ _ _ _ _ Hc i Hi) as (s' & Hsh' & Hst). rewrite Hidx, Ht in Hsh'. rewrite (shared_same _ _ _ _ _ Hsh' Hsh) in Hst.
  destruct (x_is_done x) eqn:Hd.
  - destruct Hsh as (P & HP & Hrep & ->). assert (in_state i = s) as Hs by (eapply ml_transfer; [by eapply replay_wf|done..]). rewrite run_modify.
    destruct (install_good t s P HP Hrep i (n <| incoming := None |>) Hnone Hs Hgt) as (n' & E & Hn'). by rewrite (run_ok _ _ _ _ _ E).
  - destruct (x_stage x (in_state i)) as [p|] eqn:Hp; [|done]. rewrite run_modify. change (good (follows t) true v (n <| incoming := Some (mkIn idx (in_seq i + 1) p) |>)).
    apply good_incoming; [done|]. intros i' [= <-]. exists s. rewrite Ht. split; [done|]. by eapply staged_next.
Qed.

Lemma say_commit Y b n d t ack : good Y b v n → t = my_term n → good Y b v (say n d (InstallSnapshotResponse t (commit_index n) ack)).
Proof.
  intros Hn ->. apply good_say; [done|]. intros F Hc Hr Hy. split; [|done]. unfold said. simpl. exists (upto (commit_index n) F).
  split; [apply Hc|]. rewrite len_upto; [done|apply Hc].
Qed.

Lemma on_snapshot_good n src t idx seq x s k :
  good anyhow true v n → shared t s idx → chunk_at s seq x k → t ≤ my_term n → fine (on_snapshot src t idx seq x n).
Proof.
  intros Hn Hsh Hx Ht. unfold on_snapshot. rewrite run_get. destruct (N.leb_spec (my_term n) t) as [Hge|Hlt].
  - destruct (ensure_good t src n Hn ltac:(lia)) as (n1 & E1 & Hn1). unfold mbind at 1, sm_bind at 1. rewrite (run_ok _ _ _ _ _ E1).
    pose proof (chunk_good t n1 s idx seq x k Hn1 Hsh Hx) as Hk. destruct (handle_snapshot_chunk idx seq x n1) as [n2 [ack|e|]].
    + rewrite run_get. eapply good_any. by apply (say_commit (follows t)).
    + destruct Hk. split; [by eapply good_any|done].
    + destruct Hk. split; [by eapply good_any|done].
  - change (fine ((n ← sm_get; send src (InstallSnapshotResponse (my_term n) (commit_index n) None)) n)). rewrite run_get. by apply (say_commit anyhow).
Qed.

(** ** Votes *)

Lemma roles_hard_same n F c : core n F → roles n F → roles (set_hard (mkHard (my_term n) c) n) F.
Proof. intros _ []. by split. Qed.

Lemma good_hard Y n c : good Y true v n → good Y true v (set_hard (mkHard (my_term n) c) n).
Proof.
  intros (Hid & F & Hc & Hr & Hy). split; [done|]. exists F. split; [by apply core_hard|]. split; [|done].
  intros Hb. apply roles_hard_same; auto.
Qed.

Lemma lost_below t t1 i : terms h !! t = None → lost h t1 i (t + 1) → lost h t1 i t.
Proof.
  intros HN (t' & T' & H1 & H2 & HT' & Hno). exists t', T'. split_and!; try done. assert (t' ≠ t) by congruence. lia.
Qed.

(** A vote for a candidate whose log is not older. *)
Lemma vote_good n src t lli llt e :
  e ∈ net → asked src t lli llt e → good (λ _ t' F, t' = t ∧ newer lli llt F) true v n →
  good anyhow true v (say n src (RequestVoteResponse (my_term n) true)).
Proof.
  intros He Ha Hn. eapply good_any, good_say; [exact Hn|]. intros F Hc Hr [Ht Hnew]. rewrite Ht. split; [|split; [lia|]].
  - unfold said. simpl. by exists e, lli, llt.
  - intros HN t1 i Hack Hlt. assert (part h t1 i `prefix_of` F ∨ lost h t1 i (t + 1)) as [Hp|Hl].
    { rewrite <- Ht. destruct Hack as [(_ & _ & Hd)%(cr_pending _ _ _ _ _ Hc)|[_ [[Hd _]|Hd]]%(cr_acked _ _ _ _ _ Hc)]; auto. }
    + left. exists e, lli, llt. split_and!; [done..|]. exists F. split; [apply Hc|done].
    + right. by apply lost_below.
Qed.

Lemma on_request_vote_good n src t lli llt e :
  good anyhow true v n → e ∈ net → asked src t lli llt e → fine (on_request_vote src t lli llt n).
Proof.
  intros Hn He Ha. unfold on_request_vote. rewrite run_get. cbv zeta.
  destruct ((t =? my_term n) && _ && log_up_to_date n lli llt) eqn:Hg.
  - apply andb_prop in Hg as [[->%N.eqb_eq _]%andb_prop Hup]. pose proof Hn as (Hid & F & Hc & Hr & _).
    assert (good (λ _ t' F, t' = my_term n ∧ newer lli llt F) true v n) as Hn1.
    { split; [done|]. exists F. split_and!; [done..|]. unfold log_up_to_date in Hup.
      rewrite (core_last_term _ _ _ _ _ Hc), (core_last_index _ _ _ _ _ Hc) in Hup. apply orb_prop in Hup as [Hlt%N.ltb_lt|Hup]; [by left|].
      apply andb_prop in Hup as [->%N.eqb_eq Hle%N.leb_le]. by right. }
    apply (good_hard _ n (Some src)) in Hn1. apply (safe_timer _ _ _ _ _ _ _) in Hn1.
    change (fine ((t' ← sm_reads my_term; send src (RequestVoteResponse t' true)) (reset_election_timer (set_hard (mkHard (my_term n) (Some src)) n)).1)).
    by eapply vote_good.
  - change (fine (send src (RequestVoteResponse (my_term n) false) n)). by apply safe_chat.
Qed.

End follow.
End RaftFollow.
