(* ===== verification/RaftLead.v ===== *)
(** * The leader's side ([raft.rs])

    Appending to the log, counting acknowledgements and committing extend the
    history and keep the invariant of [RaftSafe.v]. *)

From S2P Require Import Prelude Membership Wal WalSpec RaftLog RaftMachine Raft RaftCalc RaftVotes RaftSafe RaftOps RaftFollow.

Module RaftLead.
Import Membership.
Import Wal WalSpec RaftLog Raft RaftCalc RaftVotes RaftSafe RaftOps RaftFollow.

Open Scope N_scope.

Section lead.
Context {S : Type} `{MachineLaws S} {EX : Excuse (S := S)} (V : gset NodeId) (net : list (Envelope (S := S))).
Abbreviation M := (Stable V).
Abbreviation Entry := (WalRecord m_command).
Abbreviation History := (Hist (C := m_command)).
Implicit Types n : RaftNode (S := S).
Implicit Types F : list Entry.
Implicit Types h : History.

Abbreviation good := (good V net).

(** No new terms. *)
Definition calm : N → NodeId → gset NodeId → list Entry → Prop := λ _ _ _ _, False.

Definition well h : Prop := hist_ok V h ∧ plain_terms h ∧ Forall (sent V net h) net.

(** The invariant in a history that extends [h0]. *)
Definition held (Y : Role → N → list Entry → Prop) (b : bool) (v : NodeId) (h0 : History) n : Prop :=
  ∃ h, grows calm v h0 h ∧ well h ∧ good h Y b v n.

Lemma lift {A} (f : SM RaftNode RaftError A) Y b v h0 : (∀ h, well h → safe (good h Y b v) f) → safe (held Y b v h0) f.
Proof.
  intros Hf n (h & Hg & Hw & Hn). specialize (Hf h Hw n Hn). destruct (f n) as [n' [a|e|]]; [by exists h|..].
  all: destruct Hf as [Hn' He]; split; [by exists h|done].
Qed.

Lemma held_trans Y b v h0 h n : grows calm v h0 h → held Y b v h n → held Y b v h0 n.
Proof. intros Hg (h' & Hg' & Hn). exists h'. split; [by eapply grows_trans|done]. Qed.

Lemma held_weaken (Y Y' : Role → N → list Entry → Prop) b v h0 n : (∀ r t F, Y r t F → Y' r t F) → held Y b v h0 n → held Y' b v h0 n.
Proof. intros HY (h & Hg & Hw & Hn). exists h. split; [done|]. split; [done|]. by eapply good_weaken. Qed.

(** The node left satisfies [J], and the operation does not end in a fatal error. *)
Definition lands (J : RaftNode (S := S) → Prop) {A} (x : RaftNode (S := S) * res RaftError A) : Prop :=
  match x with (n', Ok _) => J n' | (n', Err e) => J n' ∧ benign e | (n', Panic) => J n' ∧ excused n' end.

Lemma safe_at {A} I (m : SM RaftNode RaftError A) n : safe I m → I n → lands I (m n).
Proof. intros Hm Hn. by apply Hm. Qed.

Lemma lands_weaken {A} (I J : RaftNode (S := S) → Prop) (x : _ * res RaftError A) : (∀ n, I n → J n) → lands I x → lands J x.
Proof. intros HIJ. destruct x as [n' []]; simpl; naive_solver. Qed.

Lemma lands_bind {A B} (I J : RaftNode (S := S) → Prop) (m : SM RaftNode RaftError A) (k : A → SM RaftNode RaftError B) n :
  safe I m → (∀ n, I n → J n) → I n → (∀ a n', I n' → lands J (k a n')) → lands J ((m ≫= k) n).
Proof.
  intros Hm HIJ Hn Hk. specialize (Hm n Hn). unfold mbind, sm_bind. destruct (m n) as [n' [a|e|]]; simpl; [by apply Hk| |].
  all: destruct Hm; auto.
Qed.

Lemma lands_then {A B} (I : RaftNode (S := S) → Prop) (m : SM RaftNode RaftError A) (k : A → SM RaftNode RaftError B) n :
  lands I (m n) → (∀ a, safe I (k a)) → lands I ((m ≫= k) n).
Proof. intros Hm Hk. unfold mbind, sm_bind. destruct (m n) as [n' [a|e|]]; [by apply Hk|done..]. Qed.

Lemma run_reads {A B} (f : RaftNode (S := S) → A) (k : A → SM RaftNode RaftError B) n : (sm_reads f ≫= k) n = k (f n) n.
Proof. done. Qed.

(** ** Appending *)

Definition pushed (e : Entry) (sp : option S) n : RaftNode :=
  n <| wal ::= log_append e |> <| spec := sp |> <| log ::= λ l, l ++ [e] |>.

Lemma core_pushed h n F T c sp :
  let e := mkRecord (my_term n) (len F + 1) c in
  hist_ok V h → core V net h n F → terms h !! my_term n = Some T → tm_leader T = my_id n → tm_log T = F →
  core V net (add_entry (my_term n) T e h) (pushed e sp n) (F ++ [e]).
Proof.
  intros e Hok Hc HT Hl HF. set (h' := add_entry (my_term n) T e h). pose proof (add_entry_grows (my_term n) T e h HT) as Hg. fold h' in Hg.
  assert (core V net h' n F) as Hc'.
  { eapply core_grows; [done|exact Hg| | | |done]; [by left|..]; intros t T' HN HT'; simpl in HT';
      apply lookup_insert_Some in HT' as [[<- _]|[_ HT']]; congruence. }
  assert (hist_ok V h') as Hok' by (apply add_entry_ok; rewrite ?HF; done).
  assert (∀ k, k ≤ len F → upto k (F ++ [e]) = upto k F) as Hu.
  { intros k Hk. symmetry. apply upto_of_prefix; [by apply prefix_app_r|done]. }
  assert (len (F ++ [e]) = len F + 1) as Hlen by (unfold len; rewrite length_app; simpl; lia).
  assert (∀ l, l `prefix_of` F → l `prefix_of` F ++ [e]) as Hpre by (intros l Hp; by apply prefix_app_r).
  pose proof (cr_snap _ _ _ _ _ Hc'). pose proof (cr_applied _ _ _ _ _ Hc'). pose proof (cr_commit _ _ _ _ _ Hc').
  pose proof (cr_stored_at _ _ _ _ _ Hc'). pose proof (cr_synced _ _ _ _ _ Hc').
  destruct Hc'. split; try done; simpl; rewrite ?Hlen, ?Hu by lia; try done; try lia.
  - intros k x [Hx|[Hk [Hk' <-]%list_lookup_singleton_Some]]%lookup_app_Some; [by apply cr_numbered0|]. simpl. unfold len. lia.
  - pose proof (ho_terms V h' Hok' (my_term n)) as Ht. unfold h' in Ht at 1. simpl in Ht. rewrite lookup_insert_eq in Ht. 
    specialize (Ht _ eq_refl). apply to_coherent in Ht. simpl in Ht. by rewrite HF in Ht.
  - intros x [Hx| ->%list_elem_of_singleton]%elem_of_app; [by apply cr_terms0|]. done.
  - rewrite cr_log0, drop_app_le; [done|]. unfold len in *. lia.
  - by rewrite cr_recs0.
  - intros t i Ha. destruct (cr_acked0 t i Ha) as [Ht [[Hp Hi]|Hd]]; (split; [done|]); [left; split; [by apply Hpre|done]|by right].
  - intros t i Hp. destruct (cr_pending0 t i Hp) as (Ht & HT' & Hd). split; [done|]. split; [done|]. destruct Hd; [left; by apply Hpre|by right].
Qed.

Lemma roles_pushed h n F T c sp :
  let e := mkRecord (my_term n) (len F + 1) c in
  hist_ok V h → core V net h n F → roles V net h n F → role n = Leader → terms h !! my_term n = Some T → tm_leader T = my_id n → tm_log T = F →
  roles V net (add_entry (my_term n) T e h) (pushed e sp n) (F ++ [e]).
Proof.
  intros e Hok Hc [] Hrole HT Hl HF. set (h' := add_entry (my_term n) T e h). pose proof (add_entry_grows (my_term n) T e h HT) as Hg. fold h' in Hg.
  assert (∀ k, k ≤ len F → upto k (F ++ [e]) = upto k F) as Hu.
  { intros k Hk. symmetry. apply upto_of_prefix; [by apply prefix_app_r|done]. }
  split; try done; simpl; try congruence.
  - intros _. unfold h'. simpl. eexists. split; [apply lookup_insert_eq|]. simpl. split; [done|by rewrite HF].
  - intros p m _ Hm. destruct (rl_match0 p m Hrole Hm) as [Hle Hd]. split; [unfold len in *; rewrite length_app; lia|].
    rewrite Hu by done. destruct Hd as [Hd|Hd]; [by left|right]. by eapply settled_grows.
  - intros t i _ Hp. pose proof (pending_valid V net h n F t i Hc Hp) as Hv. rewrite (part_grows _ _ _ _ Hg) by done.
    destruct (rl_durable0 t i Hrole Hp) as [[Hd Hi]|Hd]; [left; split; [by apply prefix_app_r|done]|right]. by eapply lost_grows.
Qed.

(** The state computed ahead, if there is one, takes the command. *)
Definition receptive (c : m_command) n : Prop := ∀ s, spec n = Some s → committed (mkRecord (my_term n) (last_index n + 1) c) s ≠ None.

Lemma run_append_local h n F c :
  core V net h n F → m_changes c = None → receptive c n →
  ∃ sp, append_local c n = (pushed (mkRecord (my_term n) (len F + 1) c) sp n, Ok (len F + 1)).
Proof.
  intros Hc Hp Hre. unfold receptive in Hre. rewrite (core_last_index _ _ _ _ _ Hc) in Hre. unfold append_local. rewrite run_get, Hp, (core_last_index _ _ _ _ _ Hc). cbv zeta. set (e := mkRecord _ _ _).
  assert (wal_append_unsynced e n = (n <| wal ::= log_append e |>, Ok ())) as E.
  { unfold wal_append_unsynced, sm_reads, mbind, sm_bind. rewrite (cr_last _ _ _ _ _ Hc). simpl. by destruct (N.leb_spec (len F + 1) (len F)); [lia|]. }
  rewrite (run_ok _ _ _ _ _ E). destruct (spec n) as [s|] eqn:Es.
  - destruct (committed e s) as [s'|] eqn:Hs; [by exists (Some s')|]. by destruct (Hre s).
  - exists None. rewrite <- Es. done.
Qed.

Lemma append_local_lands t v h0 c n :
  m_changes c = None → receptive c n → held (leads t) true v h0 n → lands (held (leads t) true v h0) (append_local c n).
Proof.
  intros Hp Hre (h & Hg & (Hok & Hpt & Hnet) & Hid & F & Hc & Hr & Hlead & Ht). specialize (Hr eq_refl).
  destruct (run_append_local h n F c Hc Hp Hre) as [sp E]; rewrite E. clear E.
  destruct (rl_leader _ _ _ _ _ Hr Hlead) as (T & HT & Hl & HF). set (e := mkRecord _ _ _).
  pose proof (add_entry_grows (my_term n) T e h HT) as Hg'. rewrite Hl, Hid in Hg'.
  exists (add_entry (my_term n) T e h). split; [by eapply grows_trans|]. split; [split_and!|].
  - apply add_entry_ok; rewrite ?HF; done.
  - intros t' T' HT'. cbn in HT'. apply lookup_insert_Some in HT' as [[<- <-]|[_ HT']]; [|by eapply Hpt]. simpl. apply Forall_app.
    split; [by eapply Hpt|]. by constructor.
  - eapply Forall_impl; [exact Hnet|]. intros x. by eapply sent_grows.
  - split; [done|]. exists (F ++ [e]). split; [by apply core_pushed|]. split; [intros _; by apply roles_pushed|done].
Qed.

Lemma held_same Y b v h0 n n' : same n n' → held Y b v h0 n → held Y b v h0 n'.
Proof. intros Hs (h & Hg & Hw & Hn). exists h. split; [done|]. split; [done|]. by eapply good_same. Qed.

Lemma held_spec t v h0 sp n : held (leads t) true v h0 n → held (leads t) true v h0 (n <| spec := sp |>).
Proof. apply held_same. by split. Qed.

(** The command on the state computed ahead. *)
Lemma validated_lands t v h0 c n s :
  m_changes c = None → (∀ n, balks c n → excused n) → held (leads t) true v h0 n → spec n = Some s →
  lands (held (leads t) true v h0)
    (((match m_apply (my_term n) (last_index n + 1) c s with
       | (s, Ok _) => sm_modify (λ n, n <| spec := Some s |>)
       | (s, Err e) => sm_modify (λ n, n <| spec := Some s |>) ;; sm_err (Rejected e)
       | (_, Panic) => sm_panic
       end) ;; inspect_err (λ n, n <| spec := None |>) (append_local c)) n).
Proof.
  intros Hp Hb Hn Hs. destruct (m_apply _ _ c s) as [s' [[]|e|]] eqn:Ha.
  - rewrite run_modify. pose proof (append_local_lands t v h0 c (n <| spec := Some s' |>) Hp) as Hl. unfold inspect_err.
    destruct (append_local c _) as [n' [i|e|]]; [apply Hl|split; [apply held_spec|]; apply Hl|apply Hl]; try (by apply held_spec);
      intros s1 [= <-]; unfold committed; destruct (m_apply_committed _ _ _ _) as [s2 [|e'|]] eqn:E; try done; exact (False_rect _ (ml_again _ _ _ _ _ _ Ha E)).
  - split; [by apply held_spec|done].
  - split; [done|]. apply Hb. unfold balks. rewrite Hs. by exists s'.
Qed.

Lemma safe_append_validated t v h0 c :
  m_changes c = None → (∀ n, balks c n → excused n) → safe (held (leads t) true v h0) (append_validated c).
Proof.
  intros Hp Hb n Hn. unfold append_validated. rewrite run_get. cbv zeta. unfold spec_mut. destruct (spec n) as [s|] eqn:Hs.
  - unfold mbind at 1, sm_bind at 1. rewrite run_get, Hs. by apply (validated_lands t v h0 c n s).
  - unfold mbind at 1, sm_bind at 1. rewrite run_get, Hs. destruct (foldl _ _ _) as [s|] eqn:Hf; [|split; [done|]; apply Hb; unfold balks; by rewrite Hs].
    cbn [or_panic]. change (mret s ≫= ?k) with (k s). cbv beta. exact (validated_lands t v h0 c (n <| spec := Some s |>) s Hp Hb (held_spec _ _ _ _ _ Hn) eq_refl).
Qed.

(** ** Acknowledging *)

Section acknowledge.
Context (v : NodeId) (P : N → N → Prop) (h : History) (n : RaftNode (S := S)) (F : list Entry).
Context (Hw : well h) (Hid : my_id n = v) (Hc : core V net h n F) (HP : ∀ t i, P t i → may_ack h n F t i).
Abbreviation h' := (acknowledge v P h).

Lemma ack_cases t i : acked h' (my_id n) t i → acked h (my_id n) t i ∨ may_ack h n F t i.
Proof. intros [Ha|[_ Hp]]; [by left|right; by apply HP]. Qed.

Lemma ack_core : core V net h' n F.
Proof.
  eapply core_grows; [apply Hw|apply acknowledge_grows|apply ack_cases|..|done]; intros t T HN HT; simpl in HT; congruence.
Qed.

Lemma ack_roles : roles V net h n F → roles V net h' n F.
Proof.
  intros []. split; try done. intros p m Hr Hm. destruct (rl_match0 p m Hr Hm) as [Hle Hd]. split; [done|].
  destruct Hd as [Hd|Hd]; [left; intros i Hi; left; by apply Hd|right; eapply settled_grows; [apply acknowledge_grows|done]].
Qed.

Lemma ack_well : well h'.
Proof.
  destruct Hw as (Hok & Hpt & Hnet). split_and!; [|done|].
  - apply acknowledge_ok; [done|intros t i Hp; apply (HP t i Hp)|]. intros t1 i t T Hp HT Hv Hlt. rewrite <- Hid in Hv.
    destruct (cr_voted _ _ _ _ _ Hc t T HT Hv) as [Ht Hcov]. destruct (HP t1 i Hp) as (_ & _ & _ & [->|Hpen]); [lia|by apply Hcov].
  - apply Forall_forall. intros e He. eapply Forall_forall in Hnet; [|done]. destruct (decide (from e = my_id n)) as [Hf|Hne].
    + eapply sent_own; [done|apply acknowledge_grows|done|apply ack_cases|done..].
    + eapply sent_grows; [done|apply acknowledge_grows| |done]. intros t i [Ha|[E _]]; [done|]. congruence.
Qed.

End acknowledge.

(** ** Committing *)

Lemma forall_or {A} `{Countable A} (X : gset A) (Q : A → Prop) (R : Prop) : (∀ p, p ∈ X → Q p ∨ R) → (∀ p, p ∈ X → Q p) ∨ R.
Proof.
  revert X. refine (set_ind_L _ _ _); [left; set_solver|]. intros x X _ IH HX. destruct (HX x); [set_solver| |by right].
  destruct IH as [IH|]; [intros p Hp; apply HX; set_solver| |by right]. left. intros p [->%elem_of_singleton|Hp]%elem_of_union; auto.
Qed.

Lemma scan_commit_at n k i :
  scan_commit n k = i → commit_index n < i →
  i ≤ commit_index n + N.of_nat k ∧ term_at n i = Some (my_term n) ∧ has_quorum (membership n) (acks_at n i) = true.
Proof.
  revert i. induction k as [|k IH]; intros i; cbn [scan_commit]; [lia|]. case_bool_decide as Ht; [|lia].
  destruct (has_quorum _ _) eqn:Hq; [intros <- _; split_and!; [lia|done..]|]. intros E Hi. destruct (IH i E Hi) as (? & ? & ?).
  split_and!; [lia|done..].
Qed.

(** A leader acknowledges what it has written. *)
Definition own_acks n i : N → N → Prop := λ t j, t = my_term n ∧ j ≤ i ∧ i ≤ l_synced (wal n).

Lemma may_own h n F T i :
  core V net h n F → terms h !! my_term n = Some T → tm_log T = F → ∀ t j, own_acks n i t j → may_ack h n F t j.
Proof.
  intros Hc HT HF t j (-> & Hj & Hi). destruct (cr_synced _ _ _ _ _ Hc). split; [done|]. split; [exists T; rewrite HF; split; [done|lia]|].
  split; [|by left]. left. split; [|lia]. rewrite <- HF. by apply part_prefix.
Qed.

Lemma scan_settled h n F T i :
  core V net h n F → roles V net h n F → role n = Leader → terms h !! my_term n = Some T → tm_log T = F →
  0 < i → term_at n i = Some (my_term n) → has_quorum M (acks_at n i) = true →
  i ≤ len F ∧ settled V (acknowledge (my_id n) (own_acks n i) h) (my_term n) (upto i F).
Proof.
  intros Hc Hr Hlead HT HF Hi Ht Hq. rewrite (core_term_at _ _ _ _ _ Hc) in Ht. destruct (N.leb_spec (snapshot_index n) i); [|done].
  destruct (N.leb_spec i (len F)) as [Hle|]; [|done]. injection Ht as Ht. split; [done|]. set (h' := acknowledge _ _ _).
  assert (∀ p, p ∈ acks_at n i → acked h' p (my_term n) i ∨ settled V h (my_term n) (upto i F)) as Hp.
  { intros p Hp. unfold acks_at in Hp. apply elem_of_union in Hp as [Hp|Hp].
    - apply elem_of_dom in Hp as [m [Hm Him]%map_lookup_filter_Some]. simpl in Him. destruct (rl_match _ _ _ _ _ Hr p m Hlead Hm) as [Hmle [Ha|Hs]];
        [left; left; by apply Ha|right]. eapply settled_mono; [done..|by apply upto_mono].
    - destruct (N.leb_spec i (l_synced (wal n))) as [Hsy|]; [|by apply elem_of_empty in Hp]. apply elem_of_singleton in Hp as ->. left. right. done. }
  destruct (forall_or _ _ _ Hp) as [Ha|Hs]; [|by eapply settled_grows; [apply acknowledge_grows|]].
  destruct (lookup_lt_is_Some_2 F (N.to_nat (i - 1))) as [e He]; [unfold len in Hle; lia|]. right. exists (my_term n), i. split_and!; [|done|].
  - exists T, (acks_at n i), e. rewrite HF. split_and!; try done. by rewrite <- Ht, (last_upto i F e).
  - unfold part. simpl. by rewrite HT, HF.
Qed.

Lemma core_commit h n F i :
  core V net h n F → commit_index n ≤ i → i ≤ len F → settled V h (my_term n) (upto i F) → core V net h (n <| commit_index := i |>) F.
Proof. intros [] Hci Hi Hs. split; try done; simpl; try lia. Qed.

Lemma held_commit t v h0 n i :
  held (leads t) true v h0 n → commit_index n < i → term_at n i = Some (my_term n) → has_quorum M (acks_at n i) = true →
  held (leads t) true v h0 (n <| commit_index := i |>).
Proof.
  intros (h & Hg & Hw & Hid & F & Hc & Hr & Hlead & Hnow) Hi Ht Hq. specialize (Hr eq_refl).
  destruct (rl_leader _ _ _ _ _ Hr Hlead) as (T & HT & Hl & HF). pose proof (may_own h n F T i Hc HT HF) as Hown.
  destruct (scan_settled h n F T i) as [Hle Hs]; try done; [lia|]. rewrite Hid in Hs. set (h' := acknowledge v (own_acks n i) h) in *.
  exists h'. split; [eapply grows_trans; [done|apply acknowledge_grows]|]. split; [by eapply ack_well|]. split; [done|]. exists F.
  split; [apply core_commit; [by apply ack_core|lia|done..]|]. split; [|done]. intros _.
  pose proof (ack_roles v (own_acks n i) h n F Hr) as []. by split.
Qed.

Section leader.
Context (t : N) (v : NodeId) (h0 : History).
Abbreviation I := (held (leads t) true v h0).

Lemma held_sync : safe I wal_sync.
Proof. apply lift. intros h _. apply safe_wal_sync. Qed.
Lemma held_broadcast : safe I broadcast_append.
Proof. apply lift. intros h (? & ? & ?). by apply safe_broadcast. Qed.
Lemma held_send_append p : p ≠ v → safe I (send_append p).
Proof. intros Hp. apply lift. intros h (? & ? & ?). by apply safe_send_append. Qed.
Lemma held_apply : safe I apply_committed.
Proof. apply lift. intros h (? & ? & ?). by apply safe_apply_committed. Qed.
Lemma held_confirm a q : safe I (confirm_reads a q).
Proof. apply lift. intros h _. apply safe_confirm_reads. Qed.
Lemma held_register d id : safe I (register_read d id).
Proof. apply lift. intros h (? & ? & ?). by apply safe_register_read. Qed.
Hint Resolve held_sync held_broadcast held_send_append held_apply held_confirm held_register : safe.

(** The configuration does not change. *)
Lemma held_members n : I n → membership n = M ∧ my_id n ∈ V ∧ my_id n = v.
Proof.
  intros (h & _ & _ & Hid & F & Hc & Hr & Hlead & _). split_and!; [apply Hc| |done]. apply (rl_voter _ _ _ _ _ (Hr eq_refl)). congruence.
Qed.

Lemma held_finish n : I n → finish_membership_change n = (n, Ok ()).
Proof.
  intros Hn. destruct (held_members n Hn) as (Hm & Hv & _). unfold finish_membership_change. rewrite run_get, Hm. destruct (_ || _); [done|].
  by rewrite bool_decide_eq_true_2 by done.
Qed.

(** The part of a round after the scan; there is no other round. *)
Definition rounds (x : RaftNode (S := S) * res RaftError bool) : Prop :=
  match x with (n', Ok b) => I n' ∧ b = false | (n', Err e) => I n' ∧ benign e | (n', Panic) => I n' ∧ excused n' end.

Lemma held_advance i n :
  I n → commit_index n < i → term_at n i = Some (my_term n) → has_quorum (membership n) (acks_at n i) = true →
  rounds ((sm_modify (λ n, n <| commit_index := i |>) ;;
           apply_committed ;; broadcast_append ;;
           last ← sm_reads last_index; finish_membership_change ;; last' ← sm_reads last_index; mret (negb (last' =? last))) n).
Proof.
  intros Hn Hi Ht Hq. destruct (held_members n Hn) as (Hm & _). rewrite Hm in Hq. pose proof (held_commit t v h0 n i Hn Hi Ht Hq) as Hn'.
  rewrite run_modify. unfold mbind at 1, sm_bind at 1. pose proof (held_apply _ Hn') as Ha. destruct (apply_committed _) as [n1 [[]|e|]]; [|done..].
  unfold mbind at 1, sm_bind at 1. pose proof (held_broadcast _ Ha) as Hb. destruct (broadcast_append _) as [n2 [[]|e|]]; [|done..].
  rewrite run_reads, (run_ok _ _ _ _ _ (held_finish n2 Hb)), run_reads, N.eqb_refl. done.
Qed.

Lemma held_round n : I n → rounds (commit_round n).
Proof.
  intros Hn. unfold commit_round. rewrite run_get.
  assert (∃ n', (if has_quorum (membership n) {[my_id n]} then wal_sync else mret ()) n = (n', Ok ()) ∧ I n') as (n1 & E & Hn1).
  { destruct (has_quorum _ _); [|by exists n]. eexists. split; [done|]. by apply (held_sync n). }
  rewrite (run_ok _ _ _ _ _ E), run_get. cbv zeta.
  destruct (N.leb_spec (scan_commit n1 (N.to_nat (last_index n1 - commit_index n1))) (commit_index n1)) as [|Hlt]; [done|].
  destruct (scan_commit_at n1 _ _ eq_refl Hlt) as (_ & Ht & Hq). by apply held_advance.
Qed.

Lemma held_advance_commit : safe I advance_commit.
Proof.
  apply safe_from_get. intros n Hn. cbn [commit_loop]. destruct (has_role n Leader); [|done]. pose proof (held_round n Hn) as Hr.
  unfold mbind, sm_bind. destruct (commit_round n) as [n' [b|e|]]; [|done..]. by destruct Hr as [Hn' ->].
Qed.
Hint Resolve held_advance_commit : safe.

(** ** Answers of followers *)

Lemma held_match p m x n :
  I n → p ≠ v → 1 ≤ x →
  (∀ h T, grows calm v h0 h → well h → terms h !! t = Some T →
    m ≤ len (tm_log T) ∧ ((∀ i, i ≤ m → acked h p t i) ∨ settled V h t (upto m (tm_log T)))) →
  I (n <| match_index ::= <[p := N.max (default 0 (match_index n !! p)) m]> |> <| next_index ::= <[p := x]> |>).
Proof.
  intros (h & Hg & Hw & Hn) Hp Hx Hm. exists h. split; [done|]. split; [done|].
  apply (good_next V net h v (leads t) true (n <| match_index ::= <[p := N.max (default 0 (match_index n !! p)) m]> |>)); [|done..].
  destruct Hn as (Hid & F & Hc & Hr & Hlead & Ht). specialize (Hr eq_refl).
  destruct (rl_leader _ _ _ _ _ Hr Hlead) as (T & HT & Hl & HF). rewrite Ht in HT. destruct (Hm h T Hg Hw HT) as [Hle Hd]. rewrite HF in *.
  split; [done|]. exists F. split; [destruct Hc; by split|]. split; [|done]. intros _. destruct Hr. split; try done.
  intros q y Hq Hy. cbn in Hy. apply lookup_insert_Some in Hy as [[<- <-]|[_ Hy]]; [|by apply rl_match0].
  destruct (match_index n !! p) as [m0|] eqn:E; simpl.
  - destruct (rl_match0 p m0 Hlead E) as [Hle0 Hd0]. unfold my_term in *. simpl in *. rewrite Ht in *. split; [lia|].
    by destruct (N.max_spec m0 m) as [[_ ->]|[_ ->]].
  - rewrite N.max_r by lia. unfold my_term in *. simpl in *. rewrite Ht in *. done.
Qed.

Lemma held_append_response p ok m seq :
  p ≠ v → (ok = true → ∀ i, i ≤ m → acked h0 p t i) → safe I (on_append_response p ok m seq).
Proof.
  intros Hp Ha. unfold on_append_response. apply safe_bind; [apply safe_modify; intros n Hn; eapply held_same; [|exact Hn]; by split|intros _].
  apply safe_bind; [destruct (0 <? seq); eauto with safe|intros _]. apply safe_from_get. intros n Hn. cbv beta. destruct ok; cbv zeta; rewrite run_modify.
  - apply (safe_at I); [safe_auto|]. apply held_match; [done..|lia|]. intros h T Hg (Hok & _) HT.
    assert (∀ i, i ≤ m → acked h p t i) as Ha' by (intros i Hi; by apply (gr_acked _ _ _ _ Hg), Ha). split; [|by left].
    destruct (ho_acked V h Hok p t m (Ha' m ltac:(lia))) as (T' & HT' & Hi). congruence.
  - apply (safe_at I); [safe_auto|]. destruct Hn as (h & Hg & Hw & Hn). exists h. split; [done|]. split; [done|]. apply good_next; [done..|lia].
Qed.

Lemma held_drop_transfer p n : I n → I (n <| outgoing ::= delete p |>).
Proof.
  intros (h & Hg & Hw & Hid & F & Hc & Hr & Hy). exists h. split; [done|]. split; [done|]. split; [done|]. exists F. split; [|split; [|done]].
  - destruct Hc. split; try done. intros q o Ho. cbn in Ho. apply lookup_delete_Some in Ho as [_ Ho]. by eapply cr_outgoing0.
  - intros Hb. destruct (Hr Hb). by split.
Qed.

Lemma held_finish_snapshot p m P : p ≠ v → settled V h0 t P → m = len P → safe I (finish_snapshot p m).
Proof.
  intros Hp HP ->. unfold finish_snapshot. apply safe_bind; [apply safe_modify; intros n Hn; by apply held_drop_transfer|intros _].
  apply safe_from_get. intros n Hn. cbv beta zeta. rewrite run_modify. apply (safe_at I); [safe_auto|]. 
  pose proof Hn as (h1 & _ & (Hok1 & _) & _ & F & Hc & _). pose proof (core_last_index _ _ _ _ _ Hc) as Hlast.
  apply held_match; [done..|lia|]. intros h T Hg (Hok & _) HT.
  pose proof (settled_log V h Hok t P t T (settled_grows _ _ _ _ _ Hg t P HP) ltac:(lia) HT) as Hpre.
  pose proof (prefix_len _ _ Hpre). split; [lia|right]. eapply settled_mono; [by eapply settled_grows|done|].
  rewrite <- (upto_of_prefix _ _ _ Hpre) by lia. apply upto_prefix.
Qed.

(** A chunk is sent and remembered. *)
Lemma held_transfer p o n :
  I n → (∀ h, good h (leads t) true v n → shared V h (my_term n) (o_state o) (o_index o)) → chunk_at (o_state o) (o_seq o) (o_chunk o) (o_next o) →
  I ((say n p (snapshot_message (my_term n) o)) <| outgoing ::= <[p := o]> |>).
Proof.
  intros (h & Hg & Hw & Hn) Hs Hk. exists h. split; [done|]. split; [done|]. apply good_outgoing; [|by apply Hs|done].
  apply (safe_at _ _ _ (safe_send_chunk V net h v (leads t) true p (my_term n) o (Hs h Hn) Hk) Hn).
Qed.

Lemma advance_chunk o now o' :
  advance_out o now = Ok o' → x_is_done (o_chunk o) = false → chunk_at (o_state o) (o_seq o) (o_chunk o) (o_next o) →
  o_state o' = o_state o ∧ o_index o' = o_index o ∧ chunk_at (o_state o') (o_seq o') (o_chunk o') (o_next o').
Proof.
  unfold advance_out. intros E Hd Hk. destruct (x_advance _ _) as [[[x k]|]|e|] eqn:Ex; [| |done..]; injection E as <-; [|done].
  split_and!; [done..|]. simpl. by eapply chunk_next.
Qed.

Lemma advance_out_ends (o : Outgoing (S := S)) now : advance_out o now ≠ Panic.
Proof. unfold advance_out. pose proof (ml_advance_ends (o_state o) (o_next o)). by destruct (x_advance _ _) as [[]|e|]. Qed.

Lemma held_snapshot_response p m ack P : p ≠ v → settled V h0 t P → m = len P → safe I (on_snapshot_response p m ack).
Proof.
  intros Hp HP Hm. pose proof (held_finish_snapshot p m P Hp HP Hm) as Hf. unfold on_snapshot_response.
  apply safe_bind; [apply safe_modify; intros n Hn; eapply held_same; [|exact Hn]; by split|intros _].
  apply safe_from_get. intros n Hn. cbv beta. destruct (outgoing n !! p) as [o|] eqn:Ho; [|by apply Hf].
  destruct (m <? o_index o); [|by apply Hf]. destruct ack as [seq|].
  - destruct (_ =? _); [|done]. destruct (x_is_done (o_chunk o)) eqn:Hd; [done|]. simpl.
    assert (∀ h, good h (leads t) true v n → shared V h (my_term n) (o_state o) (o_index o) ∧ chunk_at (o_state o) (o_seq o) (o_chunk o) (o_next o)) as Hout.
    { intros h (_ & F & Hc & _). by apply (cr_outgoing _ _ _ _ _ Hc p). }
    destruct (advance_out o (ticks n)) as [o'|e|] eqn:Ha; [|done|by apply advance_out_ends in Ha].
    pose proof Hn as (h & _ & _ & Hgood). destruct (advance_chunk o (ticks n) o' Ha Hd (proj2 (Hout h Hgood))) as (E1 & E2 & Hk).
    apply (held_transfer p o' n Hn); [|done]. intros h1 Hh1. rewrite E1, E2. by apply Hout.
  - apply (held_transfer p (start_out (catalog n) (ticks n)) n Hn); [|apply start_chunk]. intros h Hh.
    pose proof (shared_catalog V net h v _ _ n Hh) as Hs. unfold start_out. by destruct (x_start (catalog n)).
Qed.

(** ** The interface *)

Abbreviation J := (held anyhow true v h0).

Lemma held_any n : I n → J n.
Proof. by apply held_weaken. Qed.

Lemma held_follower t' l n : I n → lands J (become_follower t' l n).
Proof.
  intros (h & Hg & Hw & Hn). destruct Hw as (Hok & Hpt & Hnet). destruct (become_follower_good V net h v t' l n) as (n' & E & Hn'); [by eapply good_false|].
  rewrite E. exists h. split; [done|]. split; [done|]. by eapply good_any.
Qed.

Lemma held_quorum : safe I check_quorum.
Proof. unfold check_quorum. safe_auto. eapply held_same; [|eassumption]. by split. Qed.
Hint Resolve held_quorum : safe.

Lemma tick_leader_lands n : I n → lands J (tick_leader n).
Proof.
  intros Hn. unfold tick_leader. rewrite run_get. apply (lands_bind I); [safe_auto|apply held_any|done|]. clear n Hn. intros _ n Hn.
  apply (lands_bind I); [safe_auto; eapply held_same; [|eassumption]; by split|apply held_any|done|]. clear n Hn. intros _ n Hn.
  apply (lands_bind I); [safe_auto|apply held_any|done|]. clear n Hn. intros ok n Hn. destruct ok; simpl.
  - apply (lands_weaken I); [apply held_any|]. apply (safe_at I); [|done]. safe_auto; (eapply held_same; [|eassumption]; by split).
  - apply (lands_bind I); [safe_auto|apply held_any|done|]. intros t' n' Hn'. by apply held_follower.
Qed.

Lemma propose_lands c n : (∀ n, balks c n → excused n) → I n → lands J (propose c n).
Proof.
  intros Hb Hn. apply (lands_weaken I); [apply held_any|]. apply (safe_at I); [|done]. unfold propose.
  assert (m_changes c = None → safe I (append_validated c)) by (intros; by apply safe_append_validated). safe_auto.
Qed.

End leader.

End lead.
End RaftLead.
