(* ===== verification/RaftElect.v ===== *)
(** * Elections and the history ([raft.rs])

    A candidate with a quorum of votes starts a term of the history: no other node
    leads it, and no vote misses what its voter acknowledged.  With this, whatever
    a node does from a message, a tick or a request extends the history and keeps
    the invariant of [RaftSafe.v]. *)

From S2P Require Import Prelude Membership Wal WalSpec RaftLog RaftMachine Raft RaftCalc RaftVotes RaftSafe RaftOps RaftFollow RaftLead.

Module RaftElect.
Import Membership.
Import Wal WalSpec RaftLog Raft RaftCalc RaftVotes RaftSafe RaftOps RaftFollow RaftLead.

Open Scope N_scope.

(** A quorum without other nodes is that of a single voter. *)
Lemma quorum_alone (V X : gset NodeId) v : has_quorum (Stable V) X = true → X ⊆ {[v]} → V ⊆ {[v]}.
Proof.
  simpl. rewrite majority_spec. intros Hq Hx. assert (size (V ∩ X) ≤ 1)%nat as H1.
  { rewrite <- (size_singleton (C := gset NodeId) v). apply subseteq_size. set_solver. }
  assert (size V = 1)%nat as [u Hu]%size_1_elem_of by (pose proof (subseteq_size (V ∩ X) V ltac:(set_solver)); lia).
  assert (u = v) as ->; [|set_solver]. destruct (decide (V ∩ X = ∅)) as [E|[w Hw]%set_choose_L]; [rewrite E, size_empty in Hq; lia|set_solver].
Qed.

Lemma not_alone (X : gset NodeId) v : ¬ X ⊆ {[v]} → ∃ u, u ∈ X ∧ u ≠ v.
Proof. intros Hs. destruct (decide (X ∖ {[v]} = ∅)) as [E|[u Hu]%set_choose_L]; [|exists u; set_solver]. destruct Hs. intros w Hw. destruct (decide (w = v)) as [->|]; set_solver. Qed.

Lemma const_map (x y : N) (ps : list NodeId) p : (list_to_map ((λ p, (p, x)) <$> ps) : gmap NodeId N) !! p = Some y → p ∈ ps ∧ y = x.
Proof. intros E%elem_of_list_to_map_2. apply list_elem_of_fmap in E as (q & [= -> ->] & Hq). done. Qed.

Section elect.
Context {S : Type} `{MachineLaws S} {EX : Excuse (S := S)} (V : gset NodeId) (net : list (Envelope (S := S))) (g : gmap (NodeId * N) NodeId).
Abbreviation M := (Stable V).
Abbreviation Entry := (WalRecord m_command).
Abbreviation History := (Hist (C := m_command)).
Implicit Types n : RaftNode (S := S).
Implicit Types F : list Entry.
Implicit Types h : History.
Abbreviation good := (good V net).
Abbreviation well := (well V net).

(** The votes of the history were cast. *)
Definition link (g : gmap (NodeId * N) NodeId) h : Prop :=
  ∀ t T u, terms h !! t = Some T → u ∈ tm_voters T → g !! (u, t) = Some (tm_leader T).

Definition answered (v : NodeId) (t : N) (u : NodeId) : Prop :=
  ∃ e, e ∈ net ∧ from e = u ∧ to e = v ∧ msg e = RequestVoteResponse t true.

(** How [v] comes to lead [t]. *)
Definition won (v : NodeId) : N → NodeId → gset NodeId → list Entry → Prop := λ t c vs l,
  c = v ∧
  (∀ u, u ∈ vs → (u = v ∨ answered v t u) ∧ (g !! (u, t) = Some v ∨ u = v ∧ has_quorum M {[v]} = true)) ∧
  (∀ e lli llt, e ∈ net → asked v t lli llt e → lli = len l ∧ llt = end_term l).

(** A history after [h] in which the only new term is the one the node leads. *)
Definition later (v : NodeId) h n : Prop :=
  ∃ h', grows (won v) v h h' ∧ well h' ∧ good h' anyhow true v n ∧
    ∀ t T, terms h !! t = None → terms h' !! t = Some T → role n = Leader ∧ my_term n = t.

Lemma held_later Y v h n : held V net Y true v h n → later v h n.
Proof.
  intros (h' & Hg & Hw & Hn). exists h'. split; [eapply grows_weaken; [|exact Hg]; by intros ? ? ? ? []|]. split; [done|]. split; [by eapply good_any|].
  intros t T HN HT. by destruct (gr_new _ _ _ _ Hg t T HN HT).
Qed.

Lemma good_held Y b v h n : well h → good h Y b v n → held V net Y b v h n.
Proof. intros Hw Hn. exists h. split; [apply grows_refl|done]. Qed.

(** A candidate that won. *)
Definition crowned n : RaftNode :=
  let next := last_index n + 1 in
  n <| role := Leader |> <| spec := None |> <| outgoing := ∅ |> <| incoming := None |> <| leader := Some (my_id n) |>
    <| heartbeat_elapsed := 0 |> <| check_quorum_elapsed := 0 |> <| recent_active := ∅ |>
    <| next_index := list_to_map ((λ p, (p, next)) <$> peers n) |>
    <| match_index := list_to_map ((λ p, (p, 0)) <$> peers n) |>.

Section win.
Context (v : NodeId) (h : History) (Hw : well h) (n : RaftNode (S := S)) (F : list Entry).
Context (Hid : my_id n = v) (Hc : core V net h n F) (Hr : roles V net h n F) (Hcand : role n = Candidate).
Context (Hq : has_quorum M (votes n) = true) (HN : terms h !! my_term n = None).
Context (Hg : ∀ u, u ∈ votes n → g !! (u, my_term n) = Some v ∨ u = v ∧ has_quorum M {[v]} = true).
Abbreviation t := (my_term n).
Abbreviation h' := (elect t v (votes n) F h).

Lemma own_covers t1 i : part h t1 i `prefix_of` F ∨ lost h t1 i (t + 1) → covered h t1 i (len F) (end_term F) ∨ lost h t1 i t.
Proof.
  intros [Hp|Hl]; [left|right; by apply lost_below]. exists F. split_and!; [apply Hc|done|]. right. done.
Qed.

Lemma vote_covers u t1 i : u ∈ votes n → acked h u t1 i → t1 < t → covered h t1 i (len F) (end_term F) ∨ lost h t1 i t.
Proof.
  intros Hu Ha Hlt. destruct (rl_votes _ _ _ _ _ Hr u Hcand Hu) as [->|(e & He & Hfrom & Hto & Hm)].
  - apply own_covers. destruct (cr_acked _ _ _ _ _ Hc t1 i Ha) as [_ [[Hp _]|Hl]]; auto.
  - destruct Hw as (_ & _ & Hnet). eapply Forall_forall in Hnet as [_ Hs]; [|exact He]. rewrite Hm in Hs. rewrite <- Hfrom in Ha.
    destruct (Hs HN t1 i Ha Hlt) as [(e' & lli & llt & He' & Hask & Hcov)|Hl]; [left|by right]. rewrite Hto in Hask.
    by destruct (rl_asked _ _ _ _ _ Hr e' lli llt (or_introl He') Hask Hcand) as [-> ->].
Qed.

Lemma old_entries e : e ∈ F → Wal.term e < t.
Proof.
  intros He. pose proof (cr_terms _ _ _ _ _ Hc e He). destruct (decide (Wal.term e = t)) as [E|]; [|lia].
  apply list_elem_of_lookup in He as [k Hk]. destruct (cr_coherent _ _ _ _ _ Hc k e Hk) as (T & HT & _). congruence.
Qed.

Lemma elect_won : won v t v (votes n) F.
Proof.
  split_and!; [done| |].
  - intros u Hu. split; [|by apply Hg]. rewrite <- Hid. by apply (rl_votes _ _ _ _ _ Hr).
  - intros e lli llt He Ha. rewrite <- Hid in Ha. by apply (rl_asked _ _ _ _ _ Hr e lli llt (or_introl He) Ha).
Qed.

Lemma elect_well : well h'.
Proof.
  destruct Hw as (Hok & Hpt & Hnet). split_and!.
  - apply elect_ok; try done; try apply Hc; [|apply old_entries|apply vote_covers]. rewrite <- Hid. apply (rl_voter _ _ _ _ _ Hr). congruence.
  - intros t' T' HT'. cbn in HT'. apply lookup_insert_Some in HT' as [[<- <-]|[_ HT']]; [|by eapply Hpt]. simpl. by eapply core_plain.
  - eapply Forall_impl; [exact Hnet|]. intros e. eapply sent_grows; [done|by apply elect_grows, elect_won|done].
Qed.

Lemma elect_core : core V net h' n F.
Proof.
  eapply core_grows; [apply Hw|by apply elect_grows, elect_won|by left|..|done].
  - intros t' T HN' HT' _. cbn in HT'. apply lookup_insert_Some in HT' as [[<- _]|[_ HT']]; [done|congruence].
  - intros t' T HN' HT' _. cbn in HT'. apply lookup_insert_Some in HT' as [[<- <-]|[_ HT']]; [|congruence]. split; [done|]. simpl.
    intros t1 i Hp _. apply own_covers. apply (cr_pending _ _ _ _ _ Hc t1 i Hp).
Qed.

(** What was said is on disk: the votes of others were asked for after it was
    written, and a single voter follows no one. *)
Lemma pending_durable t1 i : pending n t1 i → part h t1 i `prefix_of` F ∧ i ≤ l_synced (wal n) ∨ lost h t1 i (t + 1).
Proof.
  intros Hp. destruct (cr_pending _ _ _ _ _ Hc t1 i Hp) as (_ & (T & HT & Hi & Hl) & [Hpre|]); [|by right]. left. split; [done|].
  assert (i ≤ len F) as Hle.
  { apply prefix_len in Hpre. unfold part in Hpre. rewrite HT, len_upto in Hpre; done. }
  destruct (decide (votes n ⊆ {[v]})) as [Hs|Hs].
  - exfalso. pose proof (quorum_alone V (votes n) v Hq Hs) as HV. destruct Hw as (Hok & _).
    pose proof (to_leader _ _ _ _ (ho_terms V h Hok t1 T HT)) as Hin. apply HV, elem_of_singleton in Hin. congruence.
  - assert (∃ u, u ∈ votes n ∧ u ≠ v) as (u & Hu & Hne) by (by apply not_alone).
    destruct (rl_votes _ _ _ _ _ Hr u Hcand Hu) as [E|(e & He & _ & Hto & Hm)]; [congruence|]. destruct Hw as (_ & _ & Hnet).
    eapply Forall_forall in Hnet as [Hs' _]; [|exact He]. unfold said in Hs'. rewrite Hm in Hs'. destruct Hs' as (e' & lli & llt & He' & Ha).
    rewrite Hto in Ha. pose proof (rl_synced _ _ _ _ _ Hr e' lli llt He' Ha Hcand). lia.
Qed.

Lemma elect_good : good h' (leads t) true v (crowned n).
Proof.
  split; [done|]. exists F. split; [|split; [|done]].
  - pose proof elect_core as []. split; try done. intros p x Hx. apply const_map in Hx as [Hp ->]. split; [|lia].
    unfold peers in Hp. apply list_elem_of_In, filter_In in Hp as [_ Hp]. by apply negb_true_iff, String.eqb_neq in Hp.
  - intros _. destruct Hr. split; try done.
    + intros _. apply rl_voter0. congruence.
    + intros _. exists (mkTerm v (votes n) F F). split; [apply lookup_insert_eq|done].
    + intros p m _ Hm. apply const_map in Hm as [_ ->]. split; [lia|]. right. left. done.
    + intros t1 i _ Hp. pose proof (pending_valid V net h n F t1 i Hc Hp) as Hv.
      assert (grows (won v) v h h') as Hgr by (by apply elect_grows, elect_won). rewrite (part_grows _ _ _ _ Hgr) by done.
      destruct (pending_durable t1 i Hp); [by left|right; by eapply lost_grows].
Qed.

Lemma become_leader_lands : lands (later v h) (become_leader n).
Proof.
  unfold become_leader. rewrite run_modify. fold (crowned n). apply (lands_weaken (held V net (leads t) true v h')).
  - intros n' (h2 & Hg2 & Hw2 & Hn2). exists h2. assert (grows (won v) v h h') as Hgr by (by apply elect_grows, elect_won).
    split; [eapply grows_trans; [exact Hgr|]; eapply grows_weaken; [|exact Hg2]; by intros ? ? ? ? []|]. split; [done|].
    split; [by eapply good_any|]. intros t' T HN' HT'. destruct Hn2 as (_ & F2 & _ & _ & Hlead & Ht). split; [done|].
    destruct (decide (t' = t)) as [->|Hne]; [done|]. destruct (gr_new _ _ _ _ Hg2 t' T); [|done]. simpl. by rewrite lookup_insert_ne.
  - apply lands_then; [apply append_local_lands; [apply ml_noop|by intros s|by apply good_held; [apply elect_well|apply elect_good]]|].
    eauto 10 using safe_bind, held_broadcast, held_advance_commit.
Qed.

End win.

(** ** Candidates *)

Section node.
Context (v : NodeId) (h : History) (Hw : well h).

Lemma good_later Y n : good h Y true v n → later v h n.
Proof. intros Hn. by eapply held_later, good_held. Qed.

Lemma stays {A} Y (m : SM RaftNode RaftError A) n : safe (good h Y true v) m → good h Y true v n → lands (later v h) (m n).
Proof. intros Hm Hn. eapply lands_weaken; [apply good_later|]. by apply safe_at. Qed.

Lemma stand_core n F : core V net h n F → core V net h (stand n) F.
Proof.
  intros Hc. apply (core_hard V net h n F (mkHard (my_term n + 1) (Some (my_id n)))) in Hc; [|simpl; lia]. destruct Hc. by split.
Qed.

Lemma stand_roles n F : core V net h n F → my_id n ∈ V → roles V net h (stand n) F.
Proof.
  intros Hc Hv. split; try done; change (my_term (stand n)) with (my_term n + 1); change (my_id (stand n)) with (my_id n).
  - intros e lli llt He Ha _. pose proof (cr_ask _ _ _ _ _ Hc e _ lli llt He Ha). lia.
  - intros e lli llt He Ha _. pose proof (cr_ask _ _ _ _ _ Hc e _ lli llt (or_introl He) Ha). lia.
  - intros T _ HT Hl. pose proof (cr_led _ _ _ _ _ Hc _ T HT Hl). lia.
  - intros u _ Hu. left. change (u ∈ ({[my_id n]} : gset NodeId)) in Hu. by apply elem_of_singleton in Hu.
Qed.

(** A single voter leads a new term. *)
Lemma alone_new n F : core V net h n F → has_quorum M {[my_id n]} = true → terms h !! (my_term n + 1) = None.
Proof.
  intros Hc Hq. destruct (terms h !! (my_term n + 1)) as [T|] eqn:HT; [|done]. destruct Hw as (Hok & _).
  destruct (has_quorum_intersect M _ _ Hq (to_quorum _ _ _ _ (ho_terms V h Hok _ _ HT))) as (u & _ & Hu & Hu').
  apply elem_of_singleton in Hu as ->. destruct (cr_voted _ _ _ _ _ Hc _ T HT Hu'). lia.
Qed.

Definition asks (t lli llt : N) : Role → N → list Entry → Prop := λ _ t' F, t' = t ∧ lli = len F ∧ llt = end_term F.

Lemma ask_good t lli llt n ps :
  good h (asks t lli llt) true v n → lands (later v h) (sm_for ps (λ p, send p (RequestVote t lli llt)) n).
Proof.
  intros Hn. eapply stays; [|done]. apply safe_for. intros p _. apply safe_say. intros n' F' _ _ _ (E1 & E2 & E3). by split.
Qed.

Lemma campaign_lands n : good h anyhow true v n → my_id n ∈ V → lands (later v h) (campaign n).
Proof.
  intros (Hid & F & Hc & _ & _) Hv. pose proof (stand_core n F Hc) as Hc1. pose proof (stand_roles n F Hc Hv) as Hr1.
  unfold campaign, persist_hard. rewrite !run_modify. fold (stand n). rewrite (run_ok _ _ _ _ _ (timer_ok (stand n))).
  assert (same (stand n) (reset_election_timer (stand n)).1) as Hs.
  { unfold reset_election_timer, sm_modify. simpl. destruct (election_ticks _). by split. }
  pose proof (core_same _ _ _ _ _ _ Hs Hc1) as Hc2. pose proof (roles_same _ _ _ _ _ _ Hs Hr1) as Hr2.
  pose proof (sm_role _ _ Hs) as Hrole. pose proof (sm_votes _ _ Hs) as Hvotes. pose proof (sm_membership _ _ Hs) as Hmem.
  assert (my_term (reset_election_timer (stand n)).1 = my_term n + 1) as Ht by apply timer_term.
  assert (my_id (reset_election_timer (stand n)).1 = v) as Hid2 by (unfold my_id in *; by rewrite (sm_cfg _ _ Hs)).
  revert Hc2 Hr2 Hrole Hvotes Hmem Ht Hid2. generalize (reset_election_timer (stand n)).1. intros n2 Hc2 Hr2 Hrole Hvotes Hmem Ht Hid2.
  change (votes (stand n)) with ({[my_id n]} : gset NodeId) in Hvotes. rewrite Hid in Hvotes. rewrite run_get.
  destruct (has_quorum _ _) eqn:Hq.
  - rewrite (proj1 (cr_members _ _ _ _ _ Hc2)) in Hq. pose proof Hq as Hq'. rewrite Hvotes in Hq'. 
    apply (become_leader_lands v h Hw n2 F); try done.
    + rewrite Ht. apply (alone_new n F Hc). by rewrite Hid.
    + intros u Hu. right. rewrite Hvotes in Hu. by apply elem_of_singleton in Hu.
  - rewrite (core_last_index _ _ _ _ _ Hc2), (core_last_term _ _ _ _ _ Hc2). apply ask_good. split; [done|]. exists F. done.
Qed.

Lemma is_voter_in n F : core V net h n F → is_voter n = true → my_id n ∈ V.
Proof. unfold is_voter. intros Hc Hb%bool_decide_eq_true. by rewrite (proj1 (cr_members _ _ _ _ _ Hc)) in Hb. Qed.

Lemma pre_campaign_lands n : good h anyhow true v n → lands (later v h) (pre_campaign n).
Proof.
  intros Hn. pose proof Hn as (Hid & F & Hc & Hr & _). unfold pre_campaign. rewrite run_get. destruct (is_voter n) eqn:Hv; cbn [negb].
  - apply (is_voter_in n F Hc) in Hv. rewrite run_modify. set (n1 := n <| role := PreCandidate |> <| leader := None |> <| votes := {[my_id n]} |>).
    assert (good h anyhow true v n1) as Hn1.
    { split; [done|]. exists F. split; [destruct Hc; by split|]. split; [intros _|done]. by split. }
    apply (lands_bind (good h anyhow true v)); [apply safe_timer|apply good_later|done|].
    intros _ n2 Hn2. rewrite run_get. destruct (has_quorum _ _).
    + apply campaign_lands; [done|]. destruct Hn2 as (Hid2 & _). by rewrite Hid2, <- Hid.
    + apply (stays anyhow); [|done]. apply safe_for. intros p _. by apply safe_chat.
  - apply (stays anyhow); [apply safe_timer|done].
Qed.

(** ** Messages *)

Lemma fine_lands {A} (x : _ * res RaftError A) : fine V net h v x → lands (later v h) x.
Proof. unfold fine, lands. destruct x as [n' [a|e|]]; [apply good_later|..]; (intros [Hn ?]; split; [by eapply good_later|done]). Qed.

Lemma count_vote u n :
  good h anyhow true v n → (role n = Candidate → answered v (my_term n) u) → good h anyhow true v (n <| votes ::= λ s, {[u]} ∪ s |>).
Proof.
  intros (Hid & F & Hc & Hr & _) Hu. split; [done|]. exists F. split; [destruct Hc; by split|]. split; [|done]. intros _.
  destruct (Hr eq_refl). split; try done. intros w Hcand Hin. cbn in Hin. apply elem_of_union in Hin as [->%elem_of_singleton|Hin]; [|by apply rl_votes0].
  right. change (my_id _) with (my_id n). rewrite Hid. by apply Hu.
Qed.

Lemma pre_vote_lands src t granted n : good h anyhow true v n → lands (later v h) (dispatch src (PreVoteResponse t granted) n).
Proof.
  intros Hn. unfold dispatch. rewrite run_get. destruct (has_role n PreCandidate && granted && (t =? my_term n + 1)) eqn:Hb; [|by eapply good_later].
  apply andb_prop in Hb as [[Hr _]%andb_prop _]. apply bool_decide_eq_true in Hr. rewrite run_modify, run_get.
  assert (good h anyhow true v (n <| votes ::= λ s, {[src]} ∪ s |>)) as Hn' by (apply count_vote; [done|congruence]).
  destruct (has_quorum _ _); [|by eapply good_later]. apply campaign_lands; [done|]. destruct Hn as (_ & F & _ & Hro & _).
  apply (rl_voter _ _ _ _ _ (Hro eq_refl)). congruence.
Qed.

Lemma vote_lands src t granted n :
  link g h → counted V g n → good h anyhow true v n → (granted = true → answered v t src ∧ g !! (src, t) = Some v) →
  lands (later v h) (dispatch src (RequestVoteResponse t granted) n).
Proof.
  intros Hlink Hcnt Hn Ha. unfold dispatch. rewrite run_get.
  destruct (has_role n Candidate && (t =? my_term n) && granted) eqn:Hb; [|by eapply good_later].
  apply andb_prop in Hb as [[Hr ->%N.eqb_eq]%andb_prop ->]. apply bool_decide_eq_true in Hr. destruct (Ha eq_refl) as [Hans Hvote].
  rewrite run_modify, run_get.
  assert (good h anyhow true v (n <| votes ::= λ s, {[src]} ∪ s |>)) as Hn' by (by apply count_vote).
  assert (∀ u, u ∈ {[src]} ∪ votes n → g !! (u, my_term n) = Some v) as Hvs.
  { intros u [->%elem_of_singleton|Hu]%elem_of_union; [done|]. destruct Hn as (<- & _). by apply (co_votes _ _ _ Hcnt). }
  destruct (has_quorum _ _) eqn:Hq; [|by eapply good_later]. destruct Hn' as (Hid & F & Hc & Hro & _). specialize (Hro eq_refl).
  rewrite (proj1 (cr_members _ _ _ _ _ Hc)) in Hq. eapply (become_leader_lands v h Hw _ F); try done.
  - change (terms h !! my_term n = None). destruct (terms h !! my_term n) as [T|] eqn:HT; [|done]. destruct Hw as (Hok & _).
    destruct (has_quorum_intersect M _ _ Hq (to_quorum _ _ _ _ (ho_terms V h Hok _ _ HT))) as (u & _ & Hu & Hu').
    destruct (rl_new _ _ _ _ _ Hro T Hr HT). pose proof (Hlink _ T u HT Hu') as E. rewrite (Hvs u Hu) in E. injection E as E. congruence.
  - intros u Hu. left. by apply Hvs.
Qed.

(** A leader of the term that counts the answer. *)
Lemma counts_leads n t src : good h anyhow true v n → counts n t src = true → src ≠ v ∧ good h (leads t) true v n.
Proof.
  intros (Hid & F & Hc & Hr & _) [[Hl%bool_decide_eq_true ->%N.eqb_eq]%andb_prop [x Hx]%bool_decide_eq_true]%andb_prop.
  destruct (cr_next _ _ _ _ _ Hc src x Hx) as [Hne _]. split; [congruence|]. split; [done|]. by exists F.
Qed.

Lemma leads_now n : good h anyhow true v n → has_role n Leader = true → good h (leads (my_term n)) true v n.
Proof. intros (Hid & F & Hc & Hr & _) Hl%bool_decide_eq_true. split; [done|]. by exists F. Qed.

Lemma read_index_lands src t id n : good h anyhow true v n → lands (later v h) (on_read_index src t id n).
Proof.
  intros Hn. destruct Hw as (Hok & Hpt & Hnet). unfold on_read_index. rewrite run_get. destruct (has_role n Leader) eqn:Hr.
  - pose proof (leads_now n Hn Hr) as Hl. apply (stays (leads (my_term n))); [|done].
    apply safe_bind; [destruct (negb _); [apply safe_ret|by apply safe_register_read]|intros served]. destruct served; [apply safe_ret|].
    apply safe_bind; [apply safe_reads|intros t']. by apply safe_chat.
  - destruct (negb (t =? my_term n)); (apply (stays anyhow); [|done]); (apply safe_ret_bind, safe_bind; [apply safe_reads|intros t']; by apply safe_chat).
Qed.

(** Messages that do not raise the term they arrive in. *)
Definition early (m : Message (S := S)) : bool := match m with PreVote _ _ _ | PreVoteResponse _ true => true | _ => false end.

Definition observed (m : Message (S := S)) n (x : RaftNode (S := S) * res RaftError bool) : Prop :=
  ∃ n' go, x = (n', Ok go) ∧ good h anyhow true v n' ∧ (n' = n ∨ role n' = Follower) ∧
    (go = true → early m = false → msg_term m ≤ my_term n').

Lemma observe_good src m n : good h anyhow true v n → observed m n (observe_term src m n).
Proof.
  intros Hn. destruct Hw as (Hok & Hpt & Hnet).
  assert (∀ go : bool, (go = true → early m = false → msg_term m ≤ my_term n) → observed m n ((mret go : SM RaftNode RaftError bool) n)) as Hstay.
  { intros go Hgo. exists n, go. split_and!; try done. by left. }
  assert (∀ l, my_term n < msg_term m → observed m n ((become_follower (msg_term m) l ;; mret true) n)) as Hstep.
  { intros l Hlt. destruct (become_follower_good V net h v (msg_term m) l n) as (n' & E & Hn'); [by eapply good_false|].
    exists n', true. split; [by rewrite (run_ok _ _ _ _ _ E)|]. split; [by eapply good_any|].
    destruct Hn' as (_ & F & _ & _ & -> & ->). split; [by right|lia]. }
  unfold observe_term. rewrite run_get. cbv zeta. destruct (N.ltb_spec (my_term n) (msg_term m)) as [Hlt|Hge].
  - destruct m as [? ? ?|? []|? ? ?|? []|? ? ? ? ? ?|? ? ? ?|? ? ? ?|? ? ?|? ?|? ? ?]; try (by apply Hstay); try (by apply Hstep).
    simpl. destruct (leader_active n); [by apply Hstay|by apply Hstep].
  - destruct m as [? ? ?|? []|? ? ?|? []|? ? ? ? ? ?|? ? ? ?|? ? ? ?|? ? ?|? ?|? ? ?]; by apply Hstay.
Qed.

Lemma dispatch_lands e n :
  link g h → counted V g n → told g e → e ∈ net → to e = v → good h anyhow true v n → (early (msg e) = false → msg_term (msg e) ≤ my_term n) →
  lands (later v h) (dispatch (from e) (msg e) n).
Proof.
  intros Hlink Hcnt Htold He Hto Hn Hterm. pose proof Hw as (Hok & Hpt & Hnet). pose proof (proj1 (Forall_forall _ _) Hnet e He) as [Hs Hs'].
  unfold said in Hs. destruct (msg e) as [t lli llt|t granted|t lli llt|t granted|t pi pt es lc rs|t ok mi rs|t idx seq x|t mi a|t id|t id idx] eqn:Em.
  - unfold dispatch. rewrite run_get. apply (stays anyhow); [|done]. by apply safe_chat.
  - by apply pre_vote_lands.
  - apply fine_lands. by eapply on_request_vote_good.
  - apply vote_lands; try done. intros ->. split; [by exists e|]. unfold told in Htold. rewrite Em in Htold. congruence.
  - apply fine_lands. rewrite Hto in Hs. apply on_append_good; try done. by apply Hterm.
  - unfold dispatch. rewrite run_get. destruct (counts n t (from e)) eqn:Hcn; [|by eapply good_later].
    destruct (counts_leads n t (from e) Hn Hcn) as [Hne Hl]. eapply lands_weaken; [apply held_later|]. apply safe_at; [|by apply good_held].
    apply held_append_response; [done|]. intros ->. by apply Hs'.
  - destruct Hs as (s & k & Hsh & Hx). apply fine_lands. eapply on_snapshot_good; try done. by apply Hterm.
  - unfold dispatch. rewrite run_get. destruct (counts n t (from e)) eqn:Hcn; [|by eapply good_later]. destruct Hs as (P & HP & Hm).
    destruct (counts_leads n t (from e) Hn Hcn) as [Hne Hl]. eapply lands_weaken; [apply held_later|]. apply safe_at; [|by apply good_held].
    by eapply held_snapshot_response.
  - by apply read_index_lands.
  - unfold dispatch. rewrite run_get. destruct (has_role n Leader); [by eapply good_later|]. eapply good_later, good_same; [|exact Hn]. by split.
Qed.

Lemma step_lands e n :
  link g h → counted V g n → told g e → e ∈ net → to e = v → good h anyhow true v n → lands (later v h) (step e n).
Proof.
  intros Hlink Hcnt Htold He Hto Hn. destruct (observe_good (from e) (msg e) n Hn) as (n' & go & E & Hn' & Hsame & Hgo).
  unfold step. rewrite (run_ok _ _ _ _ _ E). destruct go; [|by eapply good_later]. apply dispatch_lands; auto.
  destruct Hsame as [->|Hr]; [done|]. by split; rewrite Hr.
Qed.

(** ** The interface *)

Lemma tick_lands n : good h anyhow true v n → lands (later v h) (tick n).
Proof.
  intros Hn. unfold tick. rewrite run_modify, run_get. assert (good h anyhow true v (n <| ticks ::= N.add 1 |>)) as Hn1
    by (eapply good_same; [|exact Hn]; by split). revert Hn1. generalize (n <| ticks ::= N.add 1 |>). intros n1 Hn1.
  destruct (has_role n1 Leader) eqn:Hr.
  - eapply lands_weaken; [apply held_later|]. eapply tick_leader_lands, good_held; [done|]. by apply leads_now.
  - rewrite run_modify, run_get. assert (good h anyhow true v (n1 <| election_elapsed ::= N.add 1 |>)) as Hn2
      by (eapply good_same; [|exact Hn1]; by split). destruct (_ <=? _); [by apply pre_campaign_lands|by eapply good_later].
Qed.

Lemma propose_later c n : (∀ n, balks c n → excused n) → good h anyhow true v n → lands (later v h) (propose c n).
Proof.
  intros Hb Hn. destruct (has_role n Leader) eqn:Hr.
  - eapply lands_weaken; [apply held_later|]. eapply propose_lands, good_held; [done|done|]. by apply leads_now.
  - unfold propose. rewrite run_get, Hr. simpl. split; [by eapply good_later|done].
Qed.

Lemma read_lands n : good h anyhow true v n → lands (later v h) (read_index n).
Proof.
  intros Hn. destruct Hw as (Hok & Hpt & Hnet). unfold read_index, sm_reads, mbind at 1, sm_bind at 1. rewrite run_modify, run_get.
  set (n1 := n <| next_read_id ::= N.add 1 |>).
  assert (good h anyhow true v n1) as Hn1 by (eapply good_same; [|exact Hn]; by split). destruct (has_role n1 Leader) eqn:Hr.
  - apply (stays (leads (my_term n1))); [|by apply leads_now]. apply safe_bind; [|intros _; apply safe_ret].
    apply safe_bind; [by apply safe_register_read|intros served]. destruct served; [apply safe_ret|]. apply safe_bind; [apply safe_reads|intros l].
    by apply safe_err.
  - apply (stays anyhow); [|done]. apply safe_bind; [|intros _; apply safe_ret]. destruct (leader n1); [by apply safe_chat|by apply safe_err].
Qed.

Lemma read_result_lands id n : good h anyhow true v n → lands (later v h) (read_result id n).
Proof. intros Hn. eapply good_later, good_same; [|exact Hn]. by split. Qed.

Lemma forget_lands id n : good h anyhow true v n → lands (later v h) (forget_read id n).
Proof. intros Hn. eapply good_later, good_same; [|exact Hn]. by split. Qed.

End node.
End elect.
End RaftElect.
