(* ===== verification/RaftNet.v ===== *)
(** * Sending and restarting ([raft.rs])

    What a node knows stays true when others send; what it hands to the network
    it has on disk; and after a crash it opens with all it ever promised. *)

From S2P Require Import Prelude Membership Wal WalSpec RaftLog RaftMachine Raft RaftCalc RaftVotes RaftCluster RaftSafe RaftOps RaftFollow RaftLead.

Module RaftNet.
Import Membership.
Import Wal WalSpec RaftLog Raft RaftCalc RaftVotes RaftSafe RaftOps RaftFollow RaftLead.

Open Scope N_scope.

Section net.
Context {S : Type} `{MachineLaws S} (V : gset NodeId).
Abbreviation M := (Stable V).
Abbreviation Entry := (WalRecord m_command).
Abbreviation History := (Hist (C := m_command)).
Implicit Types n : RaftNode (S := S).
Implicit Types F : list Entry.
Implicit Types h : History.
Implicit Types net : list (Envelope (S := S)).

(** ** More messages *)

Section more.
Context (net net' : list (Envelope (S := S))) (Hsub : ∀ e, e ∈ net → e ∈ net').

Lemma endorsed_more h c t t1 i : endorsed net h c t t1 i → endorsed net' h c t t1 i.
Proof. intros [(e & lli & llt & He & Ha)|Hl]; [left|by right]. exists e, lli, llt. auto. Qed.

Lemma said_more h e : said V net h e → said V net' h e.
Proof. unfold said. destruct (msg e) as [| | |? []| | | | | |]; try done. intros (e' & lli & llt & He & Ha). exists e', lli, llt. auto. Qed.

Lemma sent_more h e : sent V net h e → sent V net' h e.
Proof.
  intros [Hs Hm]. split; [by apply said_more|]. destruct (msg e) as [| | |? []| | | | | |]; try done.
  intros HN t1 i Ha Hlt. by apply endorsed_more, Hm.
Qed.

(** Messages of other nodes. *)
Lemma core_more h n F : (∀ e, e ∈ net' → from e = my_id n → e ∈ net) → core V net h n F → core V net' h n F.
Proof.
  intros Hown []. split; try done.
  - intros e t He Hf Hm. destruct (cr_answer0 e t) as [H1 H2]; [destruct He as [He|He]; [left; by apply Hown|by right]|done|done|].
    split; [done|]. intros HN t1 i Hp Hlt. by apply endorsed_more, H2.
  - intros e t lli llt He Ha. eapply (cr_ask0 e); [|done]. destruct He as [He|He]; [left; apply Hown; [done|apply Ha]|by right].
  - eapply Forall_impl; [done|]. intros e. apply said_more.
Qed.

Lemma roles_more h n F : (∀ e, e ∈ net' → from e = my_id n → e ∈ net) → roles V net h n F → roles V net' h n F.
Proof.
  intros Hown []. split; try done.
  - intros e lli llt He Ha Hr. eapply (rl_asked0 e); [|done..]. destruct He as [He|He]; [left; apply Hown; [done|apply Ha]|by right].
  - intros e lli llt He Ha Hr. eapply (rl_synced0 e); [|done..]. apply Hown; [done|apply Ha].
  - intros u Hr Hu. destruct (rl_votes0 u Hr Hu) as [->|(e & He & Hm)]; [by left|right]. exists e. auto.
Qed.

End more.

(** ** Sending *)

Definition flushed n : RaftNode := (if has_role n Leader then n else n <| wal ::= log_sync |>) <| outbox := [] |>.

Lemma run_flush n : take_messages n = (flushed n, Ok (outbox n)).
Proof. unfold take_messages, flushed. rewrite run_get. by destruct (has_role n Leader). Qed.

Section flush.
Context (net : list (Envelope (S := S))) (v : NodeId) (h : History) (n : RaftNode (S := S)) (F : list Entry).
Context (Hw : well V net h) (Hid : my_id n = v) (Hc : core V net h n F) (Hr : roles V net h n F).
Context (Hfrom : Forall (λ e, from e = my_id n) (outbox n)).
Context (Hdur : role n ≠ Leader → l_synced (wal n) = len F).
Abbreviation h' := (acknowledge v (pending n) h).
Abbreviation net' := (net ++ outbox n).
Abbreviation n' := (n <| outbox := [] |>).

Lemma may_pending t i : pending n t i → may_ack h n F t i.
Proof.
  intros Hp. pose proof (pending_valid V net h n F t i Hc Hp) as Hv. destruct (cr_pending _ _ _ _ _ Hc t i Hp) as (Ht & (T & HT & Hi & _) & Hd).
  split; [done|]. split; [done|]. split; [|by right]. destruct (decide (role n = Leader)) as [Hl|Hl]; [by apply (rl_durable _ _ _ _ _ Hr)|].
  destruct Hd as [Hpre|]; [left; split; [done|]|by right]. rewrite (Hdur Hl). apply prefix_len in Hpre. unfold part in Hpre.
  rewrite HT, len_upto in Hpre; done.
Qed.

Lemma in_flush e : e ∈ net' ↔ e ∈ net ∨ e ∈ outbox n.
Proof. apply elem_of_app. Qed.

Lemma flush_said e : e ∈ outbox n → said V net' h' e.
Proof.
  intros He. eapply (said_more net); [intros x Hx; apply in_flush; by left|]. eapply said_grows; [apply acknowledge_grows|].
  by eapply Forall_forall in He; [|apply (cr_said _ _ _ _ _ Hc)].
Qed.

Lemma flush_answer e t :
  e ∈ net ∨ e ∈ outbox n → from e = my_id n → msg e = RequestVoteResponse t true →
  t ≤ my_term n ∧ (terms h !! t = None → ∀ t1 i, acked h' (my_id n) t1 i → t1 < t → endorsed net' h' (to e) t t1 i).
Proof.
  intros He Hf Hm. destruct (cr_answer _ _ _ _ _ Hc e t He Hf Hm) as [Ht Hend]. split; [done|]. intros HN t1 i Ha Hlt.
  assert (valid h t1 i ∧ endorsed net h (to e) t t1 i) as [Hv He'].
  { destruct Ha as [Ha|[_ Hp]].
    - split; [by eapply (acked_valid V h (proj1 Hw))|]. apply Hend; auto.
    - split; [by eapply pending_valid|]. apply Hend; auto. }
  eapply endorsed_more; [intros x Hx; apply in_flush; by left|]. eapply endorsed_grows; [apply acknowledge_grows|done..].
Qed.

Lemma flush_well : well V net' h'.
Proof.
  destruct (ack_well V net v (pending n) h n F Hw Hid Hc may_pending) as (Hok & Hpt & Hnet). split_and!; [done..|]. apply Forall_app. split.
  - eapply Forall_impl; [exact Hnet|]. intros e. apply sent_more. intros x Hx. apply in_flush. by left.
  - apply Forall_forall. intros e He. split; [by apply flush_said|]. pose proof (proj1 (Forall_forall _ _) Hfrom e He) as Hf. simpl in Hf.
    destruct (msg e) as [| | |t []| |t [] m rs| | | |] eqn:Em; try done.
    + intros HN t1 i Ha Hlt. rewrite Hf in Ha. by apply (flush_answer e t (or_intror He) Hf Em).
    + intros i Hi. right. split; [congruence|]. exists (to e), m, rs. split; [|done]. destruct e as [f d x]. simpl in *. subst. done.
Qed.

Lemma no_pending t i : ¬ pending n' t i.
Proof. intros (d & m & rs & He & _). cbn in He. by apply elem_of_nil in He. Qed.

Lemma flush_core : core V net' h' n' F.
Proof.
  pose proof (ack_core V net v (pending n) h n F Hw Hc may_pending) as []. split; try done.
  - intros t i Hp. by destruct (no_pending t i).
  - intros t T HT Hv. split; [by apply (cr_voted0 t T)|]. intros t1 i Hp. by destruct (no_pending t1 i).
  - intros e t He Hf Hm. destruct (flush_answer e t) as [H1 H2]; [|done..|].
    { destruct He as [He|He]; [by apply in_flush|]. cbn in He. by apply elem_of_nil in He. }
    split; [done|]. intros HN t1 i [Hp|Ha] Hlt; [by destruct (no_pending t1 i)|by apply H2].
  - intros e t lli llt He Ha. eapply (cr_ask0 e); [|done]. destruct He as [He|He]; [by apply in_flush|]. cbn in He. by apply elem_of_nil in He.
Qed.

Lemma flush_roles : roles V net' h' n' F.
Proof.
  pose proof (ack_roles V net v (pending n) h n F Hr) as []. split; try done.
  - intros e lli llt He Ha Hrole. eapply (rl_asked0 e); [|done..]. destruct He as [He|He]; [by apply in_flush|]. cbn in He. by apply elem_of_nil in He.
  - intros e lli llt He Ha Hrole. cbn. rewrite Hdur; [done|]. cbn in Hrole. congruence.
  - intros u Hrole Hu. destruct (rl_votes0 u Hrole Hu) as [->|(e & He & Hm)]; [by left|right]. exists e. split; [apply in_flush; by left|done].
  - intros t i _ Hp. by destruct (no_pending t i).
Qed.

End flush.

Lemma flush_good net v h n :
  well V net h → good V net h anyhow true v n → Forall (λ e, from e = my_id n) (outbox n) →
  ∃ h', grows calm v h h' ∧ well V (net ++ outbox n) h' ∧ good V (net ++ outbox n) h' anyhow true v (flushed n).
Proof.
  intros Hw Hn Hfrom. set (n1 := if has_role n Leader then n else n <| wal ::= log_sync |>).
  assert (good V net h anyhow true v n1) as (Hid & F & Hc & Hr & _) by (unfold n1; destruct (has_role n Leader); [done|by apply good_sync]).
  specialize (Hr eq_refl). assert (outbox n1 = outbox n ∧ my_id n1 = my_id n) as [Eo Ei] by (unfold n1; by destruct (has_role n Leader)).
  assert (role n1 ≠ Leader → l_synced (wal n1) = len F) as Hd.
  { rewrite <- (cr_last _ _ _ _ _ Hc). unfold n1, has_role. case_bool_decide; [done|]. by intros _. }
  rewrite <- Eo, <- Ei in *. exists (acknowledge v (pending n1) h). split; [apply acknowledge_grows|]. split; [by eapply flush_well|].
  split; [done|]. exists F. split; [by apply flush_core|]. split; [intros _; by apply flush_roles|done].
Qed.

(** ** Restarting *)

Lemma contiguous_from i (l : list Entry) : (∀ k e, l !! k = Some e → index e = i + N.of_nat k) → contiguous i l = true.
Proof.
  revert i. induction l as [|e l IH]; intros i Hl; [done|]. simpl. rewrite (Hl 0%nat e eq_refl), N.add_0_r, N.eqb_refl. simpl. apply IH.
  intros k x Hk. rewrite (Hl (Datatypes.S k) x Hk). lia.
Qed.

Lemma top_take (l : list Entry) k i :
  (∀ j e, l !! j = Some e → index e = i + N.of_nat j + 1) → i ≤ N.max i (top (take k l)) ∧ N.max i (top (take k l)) = i + N.of_nat (Nat.min k (length l)).
Proof.
  intros Hl. split; [lia|]. unfold top. rewrite last_lookup, length_take. destruct (Nat.min k (length l)) as [|m] eqn:Em; simpl.
  - rewrite lookup_ge_None_2; [lia|]. rewrite length_take. lia.
  - rewrite lookup_take_lt by lia. destruct (l !! m) as [e|] eqn:He; [rewrite (Hl m e He); lia|]. apply lookup_ge_None_1 in He. lia.
Qed.

Section restart.
Context (net : list (Envelope (S := S))) (v : NodeId) (h : History) (n : RaftNode (S := S)) (F : list Entry) (k : nat).
Context (Hw : well V net h) (Hid : my_id n = v) (Hc : core V net h n F) (Hk : survive (wal n) k).
Abbreviation a := (m_applied (stored n)).
Abbreviation left := (take k (l_recs (wal n))).
Abbreviation L := (N.max a (top left)).

Lemma recs_at j e : l_recs (wal n) !! j = Some e → index e = snapshot_index n + N.of_nat j + 1.
Proof. rewrite (cr_recs _ _ _ _ _ Hc), (cr_log _ _ _ _ _ Hc), lookup_drop. intros He. rewrite (cr_numbered _ _ _ _ _ Hc _ e He). lia. Qed.

Lemma left_end : N.max (snapshot_index n) (top left) = snapshot_index n + N.of_nat (Nat.min k (length (l_recs (wal n)))).
Proof. by destruct (top_take (l_recs (wal n)) k (snapshot_index n) recs_at). Qed.

Lemma recs_length : snapshot_index n + N.of_nat (length (l_recs (wal n))) = len F.
Proof. rewrite (cr_recs _ _ _ _ _ Hc), (cr_log _ _ _ _ _ Hc), length_drop. destruct Hc. unfold len in *. lia. Qed.

(** All that was synced is left. *)
Lemma left_synced : l_synced (wal n) ≤ L ∧ L ≤ len F.
Proof.
  pose proof left_end as HE. pose proof recs_length as HL. destruct (cr_synced _ _ _ _ _ Hc) as [Hs1 Hs2]. destruct (cr_stored_at _ _ _ _ _ Hc).
  pose proof (cr_commit _ _ _ _ _ Hc). split; [|lia]. destruct (decide (k < length (l_recs (wal n)))%nat) as [Hlt|]; [|lia].
  destruct (lookup_lt_is_Some_2 _ _ Hlt) as [e He]. assert (drop k (l_recs (wal n)) !! 0%nat = Some e) as He' by (by rewrite lookup_drop, Nat.add_0_r).
  pose proof (Forall_lookup_1 _ _ _ _ Hk He') as Hd. simpl in Hd. rewrite (recs_at k e He) in Hd. pose proof (cr_floor _ _ _ _ _ Hc). lia.
Qed.

Lemma left_upto : left = drop (N.to_nat (snapshot_index n)) (upto (snapshot_index n + N.of_nat k) F).
Proof. 
  rewrite (cr_recs _ _ _ _ _ Hc), (cr_log _ _ _ _ _ Hc). unfold upto. rewrite take_drop_commute. f_equal. f_equal. lia.
Qed.

Lemma left_replayed : List.filter (λ e : Entry, a <? index e) left = drop (N.to_nat a) (upto L F).
Proof.
  destruct (cr_stored_at _ _ _ _ _ Hc) as [Ha _]. rewrite left_upto, filter_above; [|apply numbered_upto, Hc|done]. rewrite <- left_upto.
  pose proof left_end as HE. pose proof recs_length as HL. unfold upto. unfold len in HL. apply list_eq. intros j. rewrite !lookup_drop.
  destruct (decide (N.to_nat a + j < length F)%nat) as [Hlt|Hge].
  - destruct (decide (N.to_nat a + j < N.to_nat L)%nat) as [Hlt'|Hge'].
    + rewrite !lookup_take_lt by lia. done.
    + rewrite !lookup_take_ge by lia. done.
  - rewrite !lookup_ge_None_2; [done|rewrite length_take; lia..].
Qed.

Definition reopened : RaftNode :=
  (booted (cfg n) M (hard_file n) (stored n) (RaftCluster.crash_wal k (wal n))) <| wal := mkLog (drop (N.to_nat a) (upto L F)) L L a |>.

Lemma reopened_hard : hard reopened = hard n.
Proof.
  unfold reopened. simpl. rewrite (cr_file _ _ _ _ _ Hc). destruct (hard n) as [t vf] eqn:E. simpl. f_equal. 
  destruct (replay_at _ _ (numbered_upto a F (cr_numbered _ _ _ _ _ Hc)) (cr_stored _ _ _ _ _ Hc)) as [_ ->].
  assert (end_term (upto a F) ≤ my_term n) as Hle; [|unfold my_term in Hle; rewrite E in Hle; simpl in Hle; lia].
  unfold end_term. destruct (list.last (upto a F)) as [e|] eqn:El; [|lia]. apply (cr_terms _ _ _ _ _ Hc). 
  apply list_elem_of_lookup. rewrite last_lookup in El. eexists. eapply prefix_lookup_Some; [exact El|apply upto_prefix].
Qed.

Lemma reopened_core : core V net h reopened (upto L F).
Proof.
  destruct left_synced as [Hsy HL]. pose proof reopened_hard as Hh. assert (my_term reopened = my_term n) as Ht by (unfold my_term; by rewrite Hh).
  destruct (replay_at _ _ (numbered_upto a F (cr_numbered _ _ _ _ _ Hc)) (cr_stored _ _ _ _ _ Hc)) as [_ Hst].
  pose proof (cr_stored_at _ _ _ _ _ Hc) as [Ha1 Ha2]. pose proof (cr_commit _ _ _ _ _ Hc) as Hcm.
  assert (upto a (upto L F) = upto a F) as Hu by (apply upto_upto; lia). assert (len (upto L F) = L) as Hlen by (by apply len_upto).
  assert (∀ t i, ¬ pending reopened t i) as Hnp by (intros t i (d & m & rs & He & _); cbn in He; by apply elem_of_nil in He).
  assert (∀ l, l `prefix_of` F → len l ≤ L → l `prefix_of` upto L F) as Hpre by (intros l Hp Hi; by apply prefix_in_upto).
  pose proof Hc as []. split; rewrite ?Ht, ?Hlen; cbn -[N.max]; rewrite ?Hu; try done; try lia.
  - by apply numbered_upto.
  - by eapply coherent_prefix; [apply upto_prefix|].
  - intros e He. apply cr_terms0. apply list_elem_of_lookup in He as [j Hj]. apply list_elem_of_lookup. exists j. eapply prefix_lookup_Some; [exact Hj|apply upto_prefix].
  - apply left_replayed.
  - symmetry. apply left_replayed.
  - eapply settled_mono; [done..|]. by apply upto_mono.
  - change (hard_file n = hard reopened). by rewrite Hh.
  - intros t i Hack. destruct (cr_acked0 t i Hack) as [Hti [[Hp Hi]|Hd]]; (split; [done|]); [left|by right]. split; [|lia]. apply Hpre; [done|].
    destruct Hw as (Hok & _). destruct (acked_valid V h Hok _ _ _ Hack) as (T & HT & HiT). unfold part. rewrite HT, len_upto by done. lia.
  - intros t i Hp. by destruct (Hnp t i).
  - intros t T HT Hv. split; [by eapply cr_voted0|]. intros t1 i Hp. by destruct (Hnp t1 i).
  - intros e t He Hf Hm. destruct He as [He|He]; [|by apply elem_of_nil in He]. destruct (cr_answer0 e t (or_introl He) Hf Hm) as [H1 H2]. split; [done|].
    intros HN t1 i [Hp|Hack] Hlt; [by destruct (Hnp t1 i)|]. apply H2; auto.
  - intros e t lli llt He Hask. destruct He as [He|He]; [|by apply elem_of_nil in He]. by eapply cr_ask0; [left|].
Qed.

Lemma restart_good : ∃ n', RaftCluster.restart k n = Ok n' ∧ good V net h anyhow true v n'.
Proof.
  unfold RaftCluster.restart, open. destruct (cr_config _ _ _ _ _ Hc) as [-> ->]. unfold replayed. cbn [negb l_recs RaftCluster.crash_wal].
  rewrite contiguous_from; cbn [negb].
  - set (n0 := booted _ _ _ _ _). destruct Hw as (Hok & Hpt & Hnet).
    assert (good V net h anyhow true v reopened) as Hn1.
    { split; [done|]. exists (upto L F). split; [apply reopened_core|]. split; [intros _; by apply follower_roles|done]. }
    pose proof (safe_refresh V net h Hok Hpt v _ _ _ Hn1 ltac:(done)) as Hn2.
    pose proof (safe_timer (EX := when_stuck) V net h anyhow true v _ Hn2) as Hn3. rewrite timer_ok in Hn3.
    exists (reset_election_timer (refresh_membership reopened).1).1. split; [|exact Hn3].
    unfold start, wal_compact_through, wal_raise_floor. rewrite !run_modify.
    assert (n0 <| wal ::= log_keep (λ j, a <? j) |> <| wal ::= λ l, mkLog (l_recs l) (N.max a (l_last l)) (N.max a (l_synced l)) (N.max a (l_floor l)) |> = reopened) as ->.
    { unfold reopened. fold n0. rewrite <- left_replayed. unfold log_keep. simpl. rewrite N.max_0_r. done. }
    rewrite (run_ok _ _ _ _ _ (eq_refl : refresh_membership reopened = ((refresh_membership reopened).1, Ok ()))). by rewrite timer_ok.
  - intros j e. rewrite left_replayed, lookup_drop. intros He. rewrite (numbered_upto L F (cr_numbered _ _ _ _ _ Hc) _ e He). lia.
Qed.

End restart.

End net.
End RaftNet.
