(* ===== verification/RaftAgree.v ===== *)
(** * What a cluster agrees on ([raft.rs], [raft_server.rs])

    The invariant of a cluster: the votes of [RaftVotes.v] and one history in
    which every node and message is sound.  It follows that replicas apply the same
    commands in the same order, whatever is lost, reordered or crashes. *)

From S2P Require Import Prelude Membership Wal WalSpec RaftLog RaftMachine Raft RaftCalc RaftVotes RaftCluster RaftSafe RaftOps RaftFollow RaftLead RaftElect RaftNet.

Module RaftAgree.
Import Membership.
Import Wal WalSpec RaftLog Raft RaftCalc RaftVotes RaftCluster RaftSafe RaftOps RaftFollow RaftLead RaftElect RaftNet.

Open Scope N_scope.

Section agree.
Context {S : Type} `{MachineLaws S} (V : gset NodeId).
Abbreviation M := (Stable V).
Abbreviation Entry := (WalRecord m_command).
Abbreviation History := (Hist (C := m_command)).
Implicit Types n : RaftNode (S := S).
Implicit Types h : History.
Implicit Types c : Cluster (S := S).

Record agree (g : gmap (NodeId * N) NodeId) h c : Prop := {
  ag_fair : fair V g c;
  ag_link : link g h;
  ag_well : well V (net c) h;
  ag_nodes v n : nodes c !! v = Some n → good V (net c) h anyhow true v n;
}.

(** ** The node that acts *)

Lemma alive_later (EX : Excuse (S := S)) g v h c {A} (x : _ * res RaftError A) n' ms :
  lands (later V (net c) g v h) x → alive x = Some (n', ms) → ms = [] ∧ later V (net c) g v h n'.
Proof. unfold lands. destruct x as [n1 [a|e|]]; simpl; [|intros [? _]|done]; intros; naive_solver. Qed.

(** What the action leaves, with what it sent. *)
Definition acted g v h c n' ms : Prop :=
  ∃ h', grows (won V (net c) g v) v h h' ∧ well V (net c ++ ms) h' ∧ good V (net c ++ ms) h' anyhow true v n' ∧
    ∀ t T, terms h !! t = None → terms h' !! t = Some T → role n' = Leader ∧ my_term n' = t.

Lemma later_acted g v h c n' ms : ms = [] ∧ later V (net c) g v h n' → acted g v h c n' ms.
Proof. intros [-> Hl]. unfold acted. by rewrite app_nil_r. Qed.

Lemma act_agrees g h c v n a n' ms :
  agree g h c → nodes c !! v = Some n → allowed v a c → act a n = Some (n', ms) → acted g v h c n' ms.
Proof.
  intros [Hf Hlink Hw Hns] Hn Ha E. pose proof (Hns v n Hn) as Hg. destruct (fa_nodes _ _ _ Hf v n Hn) as (Hid & Hb & Hcnt).
  destruct a as [|p| |id|id|e| |k]; [| |try (eapply later_acted, (alive_later when_stuck); [|exact E])..].
  - eapply later_acted, (alive_later when_stuck); [|exact E]. by apply tick_lands.
  - eapply later_acted, (alive_later (when_balking p)); [|exact E]. apply propose_later; [done|by right|done].
  - by apply read_lands.
  - by apply read_result_lands.
  - by apply forget_lands.
  - destruct Ha as [He Hto]. pose proof (proj1 (Forall_forall _ _) (fa_net _ _ _ Hf) e He) as [Ht _]. by apply step_lands.
  - apply flush_sends in E as [-> ->]. rewrite run_flush. simpl. destruct (flush_good V (net c) v h n) as (h' & Hgr & Hw' & Hn'); [done..| |].
    + eapply Forall_impl; [apply (bl_from _ _ _ Hb)|]. by intros e [? _].
    + exists h'. split; [eapply grows_weaken; [|exact Hgr]; by intros ? ? ? ? []|]. split; [done|]. split; [done|].
      intros t T HN HT. by destruct (gr_new _ _ _ _ Hgr t T HN HT).
  - destruct Hg as (_ & F & Hc & _). destruct (restart_good V (net c) v h n F k Hw Hid Hc (Ha n Hn)) as (n1 & E1 & Hn1).
    simpl in E. rewrite E1 in E. injection E as <- <-. apply later_acted. split; [done|]. by apply (good_later V (net c) g v h Hw anyhow).
Qed.

(** ** The other nodes *)

Lemma others_agree g v h h' c u n ms :
  well V (net c) h → grows (won V (net c) g v) v h h' → Forall (λ e, from e = v) ms → u ≠ v →
  good V (net c) h anyhow true u n → good V (net c ++ ms) h' anyhow true u n.
Proof.
  intros Hw Hg Hms Hne (Hid & F & Hc & Hr & _). split; [done|]. exists F.
  assert (∀ e, e ∈ net c ++ ms → from e = my_id n → e ∈ net c) as Hown.
  { intros e [He|He]%elem_of_app Hf; [done|]. eapply Forall_forall in He; [|exact Hms]. simpl in He. congruence. }
  assert (∀ e, e ∈ net c → e ∈ net c ++ ms) as Hsub by (intros e He; apply elem_of_app; by left).
  assert (∀ t T, terms h !! t = None → terms h' !! t = Some T → tm_leader T = v) as Hlead.
  { intros t T HN HT. by destruct (gr_new _ _ _ _ Hg t T HN HT) as (-> & _). }
  split; [|split; [|done]].
  - apply (core_more V (net c)); [done..|]. eapply core_grows; [apply Hw|exact Hg| | | |done].
    + intros t i Ha. left. eapply gr_other; [exact Hg|congruence|done].
    + intros t T HN HT El. exfalso. apply Hne. rewrite <- Hid, <- El. by eapply Hlead.
    + intros t T HN HT Hin. destruct (gr_new _ _ _ _ Hg t T HN HT) as (_ & Hvs & Hask). destruct (Hvs _ Hin) as [[E|(e & He & Hf & Hto & Hm)] _]; [congruence|].
      destruct (cr_answer _ _ _ _ _ Hc e t (or_introl He) Hf Hm) as [Ht Hend]. split; [done|]. intros t1 i Hp Hlt.
      destruct (Hend HN t1 i (or_introl Hp) Hlt) as [(e' & lli & llt & He' & Ha & Hcov)|Hl]; [left|by right]. rewrite Hto in Ha.
      by destruct (Hask e' lli llt He' Ha) as [-> ->].
  - intros _. apply (roles_more V (net c)); [done..|]. eapply roles_grows; [exact Hg|congruence| |done|by apply Hr].
    intros t T HN HT. rewrite (Hlead t T HN HT). congruence.
Qed.

(** The votes of a new term were cast. *)
Lemma link_later g g' v h h' c n' :
  g ⊆ g' → link g h → grows (won V (net c) g v) v h h' → my_id n' = v → counted V g' n' →
  (∀ t T, terms h !! t = None → terms h' !! t = Some T → role n' = Leader ∧ my_term n' = t) → link g' h'.
Proof.
  intros Hsub Hlink Hg Hid Hcnt Hnew t T u HT Hu. destruct (terms h !! t) as [T0|] eqn:HT0.
  - destruct (gr_old _ _ _ _ Hg t T0 HT0) as (T' & HT' & E1 & E2 & _). rewrite HT in HT'. injection HT' as <-. rewrite E1. rewrite E2 in Hu.
    eapply lookup_weaken; [by eapply Hlink|done].
  - destruct (gr_new _ _ _ _ Hg t T HT0 HT) as (-> & Hvs & _). destruct (Hvs u Hu) as [_ [E|[-> Hq]]]; [by eapply lookup_weaken|].
    destruct (Hnew t T HT0 HT) as [Hl <-]. destruct (co_leader _ _ _ Hcnt Hl) as (vs & Hq' & Hel). rewrite <- Hid in *.
    destruct (has_quorum_intersect M _ _ Hq Hq') as (w & _ & Hw%elem_of_singleton & Hw'). subst w. by apply Hel.
Qed.

(** History only grows. *)
Definition extends h h' : Prop := ∀ b l, settled V h b l → settled V h' b l.

Lemma move_agree g h c v a : agree g h c → allowed v a c → ∃ g' h', extends h h' ∧ agree g' h' (move v a c).
Proof.
  intros Hag Ha. pose proof Hag as [Hf Hlink Hw Hns]. destruct (move_fair V g c v a Hf Ha) as (g' & Hsub & Hf'). revert Hf'.
  unfold move. destruct (nodes c !! v) as [n|] eqn:Hn; [|intros _; exists g, h; by split; [intros ? ?|]]. destruct (act a n) as [[n' ms]|] eqn:E; intros Hf'.
  - destruct (act_agrees g h c v n a n' ms Hag Hn Ha E) as (h' & Hg & Hw' & Hn' & Hnew). exists g', h'. split; [intros b l; by eapply settled_grows|].
    assert (Forall (λ e, from e = v) ms) as Hms.
    { eapply Forall_impl; [exact (act_sends V g c v n a n' ms Hf Hn E)|]. by intros e (? & _). }
    destruct (fa_nodes _ _ _ Hf' v n') as (Hid & _ & Hcnt); [apply lookup_insert_eq|].
    split; simpl; [exact Hf'|by eapply (link_later g g' v h h' c n'); try done|exact Hw'|]. intros u m [[<- <-]|[Hne Hm]]%lookup_insert_Some; [done|]. eapply others_agree; try done. by apply Hns.
  - exists g', h. split; [by intros ? ?|]. split; simpl; [exact Hf'| |exact Hw|].
    + intros t T u HT Hu. eapply lookup_weaken; [by eapply Hlink|done].
    + intros u m [_ Hm]%lookup_delete_Some. by apply Hns.
Qed.

(** ** Start *)

Definition blank : History := mkHist ∅ (λ _ _ _, False).

Lemma blank_terms t T : terms blank !! t = Some T → False.
Proof. cbn. by rewrite lookup_empty. Qed.

Lemma blank_ok : hist_ok V blank.
Proof. split; [intros t T HT; by apply blank_terms in HT|done]. Qed.

Lemma booted_core cf :
  config_ok cf = true → initial_voters cf = Some M → core V [] blank (booted cf M (mkHard 0 None) m_empty new_log) [].
Proof.
  intros Hcf Hv. destruct ml_empty as (Ea & Et & Em). split; unfold my_term, booted, replayed; simpl; rewrite ?Ea, ?Et; try done.
  - intros e He. by apply elem_of_nil in He.
  - by left.
  - intros t i (d & m & rs & He & _). by apply elem_of_nil in He.
  - intros e t [He|He]; by apply elem_of_nil in He.
  - intros e t lli llt [He|He]; by apply elem_of_nil in He.
Qed.

Lemma open_agrees cf n :
  initial_voters cf = Some M → open cf (mkHard 0 None) m_empty new_log = Ok n → good V [] blank anyhow true (cid cf) n.
Proof.
  intros Hv E. assert (config_ok cf = true) as Hcf by (unfold open in E; by destruct (config_ok cf)).
  destruct (restart_good V [] (cid cf) blank (booted cf M (mkHard 0 None) m_empty new_log) [] 0 ltac:(split_and!; [apply blank_ok|done|done]) eq_refl (booted_core cf Hcf Hv)) as (n' & E' & Hn').
  { constructor. }
  change (RaftCluster.restart 0 (booted cf M (mkHard 0 None) m_empty new_log)) with (open cf (mkHard 0 None) (m_empty : S) new_log) in E'.
  congruence.
Qed.

Lemma starts_agree c : starts V c → agree ∅ blank c.
Proof.
  intros Hc. pose proof Hc as [Hnet Hns]. split.
  - by apply starts_fair.
  - intros t T u HT. by apply blank_terms in HT.
  - rewrite Hnet. split_and!; [apply blank_ok| |constructor]. intros t T HT. by apply blank_terms in HT.
  - intros v n Hn. rewrite Hnet. destruct (Hns v n Hn) as (cf & <- & Hv & Ho). by apply open_agrees.
Qed.

Lemma reachable_agree c : reachable V c → ∃ g h, agree g h c.
Proof.
  revert c. apply reachable_ind'; [intros c Hc; exists ∅, blank; by apply starts_agree|]. intros c v a (g & h & Hag) Ha.
  destruct (move_agree g h c v a Hag Ha) as (g' & h' & _ & Hag'). by exists g', h'.
Qed.

Lemma later_agree g h c c' : agree g h c → rtc cstep c c' → ∃ g' h', extends h h' ∧ agree g' h' c'.
Proof.
  intros Hag Hr. revert g h Hag. induction Hr as [c|c c1 c' [v a c0 Ha] _ IH]; intros g h Hag; [exists g, h; by split; [intros ? ?|]|].
  destruct (move_agree g h c0 v a Hag Ha) as (g1 & h1 & He1 & Hag1). destruct (IH g1 h1 Hag1) as (g2 & h2 & He2 & Hag2).
  exists g2, h2. split; [intros b l Hl; by apply He2, He1|done].
Qed.

(** ** One log *)

(** What [n] has committed is a beginning of [L], and its states are what the
    commands up to their indexes compute. *)
Record applies (L : list Entry) n : Prop := {
  ap_length : commit_index n ≤ len L;
  ap_catalog : m_applied (catalog n) ≤ commit_index n ∧ replay (upto (m_applied (catalog n)) L) = Some (catalog n);
  ap_stored : m_applied (stored n) ≤ commit_index n ∧ replay (upto (m_applied (stored n)) L) = Some (stored n);
  ap_entry i e : i ≤ commit_index n → entry n i = Some e → L !! N.to_nat (i - 1) = Some e;
}.

Lemma applies_prefix P L n : P `prefix_of` L → applies P n → applies L n.
Proof.
  intros Hp [H1 [H2 H3] [H4 H5] H6]. pose proof (prefix_len _ _ Hp). split; rewrite <- ?(upto_of_prefix _ _ _ Hp) by lia; try done; [lia|].
  intros i e Hi He. eapply prefix_lookup_Some; [by apply H6|done].
Qed.

Lemma core_applies net h n F : core V net h n F → applies (upto (commit_index n) F) n.
Proof.
  intros Hc. pose proof (core_entry _ _ _ _ _ Hc) as Hent. destruct Hc. destruct cr_stored_at0. split; rewrite ?len_upto, ?upto_upto by lia; try done.
  intros i e Hi He. rewrite Hent in He. destruct (N.leb_spec i (snapshot_index n)); [done|]. rewrite lookup_upto by lia. done.
Qed.

Lemma longest h (m : gmap NodeId (RaftNode (S := S))) (L0 : list Entry) :
  hist_ok V h → (∃ b, settled V h b L0) → (∀ v n, m !! v = Some n → ∃ P b, settled V h b P ∧ applies P n) →
  ∃ L, (∃ b, settled V h b L) ∧ L0 `prefix_of` L ∧ ∀ v n, m !! v = Some n → applies L n.
Proof.
  intros Hok HL0 Hm. revert Hm. induction m as [|v n m Hv IH] using map_ind; intros Hm; [exists L0; by split_and!; [|done|]|].
  destruct IH as (L & [b HL] & Hp & Hap); [intros u x Hu; apply (Hm u); by rewrite lookup_insert_ne by congruence|].
  destruct (Hm v n) as (P & b' & HP & HnP); [apply lookup_insert_eq|]. destruct (settled_total V h Hok _ _ _ _ HL HP) as [Hle|Hle].
  - exists P. split; [by exists b'|]. split; [by etrans|]. intros u x [[<- <-]|[_ Hx]]%lookup_insert_Some; [done|]. eapply applies_prefix; [done|by eapply Hap].
  - exists L. split; [by exists b|]. split; [done|]. intros u x [[<- <-]|[_ Hx]]%lookup_insert_Some; [by eapply applies_prefix|by eapply Hap].
Qed.

Lemma agree_applies g h c v n : agree g h c → nodes c !! v = Some n → ∃ P b, settled V h b P ∧ applies P n.
Proof.
  intros Hag Hn. destruct (ag_nodes _ _ _ Hag v n Hn) as (_ & F & Hc & _). eexists _, _. split; [apply Hc|by eapply core_applies].
Qed.

(** C2. State machine safety: there is one log of commands that only grows.  At any
    time every node has committed a beginning of it, and its catalog and its
    checkpoint are exactly what the commands up to their applied indexes compute;
    whatever messages are lost, duplicated, delayed or reordered and whichever
    nodes crash, cleanly, and open again.  The voters are fixed. *)
Theorem state_machine_safety c c' :
  reachable V c → rtc cstep c c' →
  ∃ L L', L `prefix_of` L' ∧ (∀ v n, nodes c !! v = Some n → applies L n) ∧ (∀ v n, nodes c' !! v = Some n → applies L' n).
Proof.
  intros Hc Hr. destruct (reachable_agree c Hc) as (g & h & Hag). destruct (later_agree g h c c' Hag Hr) as (g' & h' & Hext & Hag').
  destruct (longest h (nodes c) [] (proj1 (ag_well _ _ _ Hag))) as (L & [b HL] & _ & HapL); [exists 0; by left|intros v n; by eapply agree_applies|].
  destruct (longest h' (nodes c') L (proj1 (ag_well _ _ _ Hag'))) as (L' & _ & Hp & HapL'); [exists b; by apply Hext|intros v n; by eapply agree_applies|].
  by exists L, L'.
Qed.

(** The largest commit index of the nodes. *)
Definition top_commit c : N := map_fold (λ _ n m, N.max (commit_index n) m) 0 (nodes c).

Lemma top_commit_ge c v n : nodes c !! v = Some n → commit_index n ≤ top_commit c.
Proof.
  revert v n. apply (map_fold_weak_ind (λ k m, ∀ v n, m !! v = Some n → commit_index n ≤ k)); [by intros ? ? ?|].
  intros u x m r Hu IH v n [[<- <-]|[_ Hn]]%lookup_insert_Some; [lia|]. specialize (IH v n Hn). lia.
Qed.

Lemma top_commit_le c (k : N) : (∀ v n, nodes c !! v = Some n → commit_index n ≤ k) → top_commit c ≤ k.
Proof.
  apply (map_fold_weak_ind (λ r m, (∀ v n, m !! v = Some n → commit_index n ≤ k) → r ≤ k)); [lia|].
  intros u x m r Hu IH Hm. pose proof (Hm u x (lookup_insert_eq _ _ _)).
  assert (r ≤ k); [apply IH; intros v n Hn; apply (Hm v); by rewrite lookup_insert_ne by congruence|lia].
Qed.

Lemma applies_upto k L n : commit_index n ≤ k → applies L n → applies (upto k L) n.
Proof.
  intros Hk [H1 [H2 H3] [H4 H5] H6]. split; rewrite ?upto_upto by lia; try done.
  - unfold len, upto in *. rewrite length_take. lia.
  - intros i e Hi He. assert (i ≠ 0) by (intros ->; unfold entry in He; by destruct (N.leb_spec 0 (snapshot_index n)); [|lia]).
    rewrite lookup_upto by lia. by apply H6.
Qed.

(** Exactly what some node has committed. *)
Lemma one_log c : reachable V c → ∃ L, len L = top_commit c ∧ ∀ v n, nodes c !! v = Some n → applies L n.
Proof.
  intros Hc. destruct (reachable_agree c Hc) as (g & h & Hag).
  destruct (longest h (nodes c) [] (proj1 (ag_well _ _ _ Hag))) as (L & _ & _ & HL); [exists 0; by left|intros v n; by eapply agree_applies|].
  exists (upto (top_commit c) L). split.
  - apply len_upto, top_commit_le. intros v n Hn. apply HL in Hn. apply Hn.
  - intros v n Hn. apply applies_upto; [by eapply top_commit_ge|by eapply HL].
Qed.

(** Entry [e] of index [i] is committed at [n]; [n] has it, or a snapshot that covers it. *)
Definition has_committed n (i : N) (e : Entry) : Prop := i ≤ commit_index n ∧ entry n i = Some e.
Definition holds n (i : N) (e : Entry) : Prop := entry n i = Some e ∨ i ≤ snapshot_index n.

(** C12. Leader completeness: an entry that any node has committed is in the log of
    every leader of the same or a later term, then and ever after, unless that
    leader's snapshot already covers it; with fixed voters and clean crashes. *)
Theorem leader_completeness c c' a b na nb i e :
  reachable V c → rtc cstep c c' → nodes c !! a = Some na → nodes c' !! b = Some nb →
  has_committed na i e → role nb = Leader → my_term na ≤ my_term nb → holds nb i e.
Proof.
  intros Hc Hr Ha Hb [Hi He] Hl Ht. destruct (reachable_agree c Hc) as (g & h & Hag). destruct (later_agree g h c c' Hag Hr) as (g' & h' & Hext & Hag').
  destruct (ag_nodes _ _ _ Hag a na Ha) as (_ & Fa & Hca & _). destruct (ag_nodes _ _ _ Hag' b nb Hb) as (_ & Fb & Hcb & Hrb & _).
  destruct (rl_leader _ _ _ _ _ (Hrb eq_refl) Hl) as (T & HT & _ & HF). destruct (ag_well _ _ _ Hag') as (Hok' & _).
  pose proof (settled_log V h' Hok' _ _ _ T (Hext _ _ (cr_settled _ _ _ _ _ Hca)) Ht HT) as Hp. rewrite HF in Hp.
  unfold holds. rewrite (core_entry _ _ _ _ _ Hcb). destruct (N.leb_spec i (snapshot_index nb)); [by right|left].
  apply (ap_entry _ _ (applies_prefix _ _ _ Hp (core_applies _ _ _ _ Hca))); done.
Qed.

(** The logs of two nodes are the same up to [i], where neither has compacted. *)
Definition same_log n n' (i : N) : Prop := ∀ j x y, j ≤ i → entry n j = Some x → entry n' j = Some y → x = y.

(** C13. Log matching: when two nodes have an entry of the same index and term, their
    logs hold the same commands up to it; with fixed voters and clean crashes. *)
Theorem log_matching c a b na nb i e e' :
  reachable V c → nodes c !! a = Some na → nodes c !! b = Some nb → entry na i = Some e → entry nb i = Some e' → Wal.term e = Wal.term e' →
  same_log na nb i.
Proof.
  intros Hc Ha Hb He He' Et j x y Hj Hx Hy. destruct (reachable_agree c Hc) as (g & h & Hag).
  destruct (ag_nodes _ _ _ Hag a na Ha) as (_ & Fa & Hca & _). destruct (ag_nodes _ _ _ Hag b nb Hb) as (_ & Fb & Hcb & _).
  rewrite (core_entry _ _ _ _ _ Hca) in He, Hx. rewrite (core_entry _ _ _ _ _ Hcb) in He', Hy. repeat case_match; try done.
  pose proof (same_entry h Fa Fb _ e e' (cr_coherent _ _ _ _ _ Hca) (cr_coherent _ _ _ _ _ Hcb) He He' Et) as E.
  assert (N.to_nat (j - 1) < Datatypes.S (N.to_nat (i - 1)))%nat as Hlt by lia.
  rewrite <- (lookup_take_lt _ _ _ Hlt) in Hx. rewrite <- (lookup_take_lt _ _ _ Hlt) in Hy. congruence.
Qed.

(** ** Operations that panic *)

(** The operation returned, and not with an error that stops the server; or it
    panicked in a node that satisfies [Q]. *)
Definition orderly {A} (Q : RaftNode (S := S) → Prop) (x : RaftNode (S := S) * res RaftError A) : Prop :=
  match x with (_, Ok _) => True | (_, Err e) => benign e | (n', Panic) => Q n' end.

(** The state machine panics on the next entry of the log [n] has committed. *)
Definition blocked n : Prop :=
  ∃ L e, applies L n ∧ len L = commit_index n ∧ upto (m_applied (catalog n)) L ++ [e] `prefix_of` L ∧ committed e (catalog n) = None.

Lemma stuck_blocked net h b v n : good V net h anyhow b v n → stuck n → blocked n.
Proof.
  intros (_ & F & Hc & _) (Hlt & e & He & Hs). pose proof (core_applies _ _ _ _ Hc) as Ha. exists (upto (commit_index n) F), e.
  split; [done|]. split; [apply len_upto, Hc|]. split; [|done]. pose proof (ap_entry _ _ Ha _ e (ltac:(lia) : m_applied (catalog n) + 1 ≤ commit_index n) He) as Hl.
  replace (N.to_nat (m_applied (catalog n) + 1 - 1)) with (N.to_nat (m_applied (catalog n))) in Hl by lia.
  unfold upto at 1. rewrite <- (take_S_r _ _ e Hl). apply prefix_take.
Qed.

Lemma lands_orderly {A} (EX : Excuse (S := S)) J Q (x : _ * res RaftError A) : (∀ n, J n → excused n → Q n) → lands J x → orderly Q x.
Proof. intros HQ. unfold lands, orderly. destruct x as [n' [a|e|]]; [done|by intros [_ ?]|]. intros [Hn He]. by apply HQ. Qed.

Lemma later_blocked net g v h n : later V net g v h n → stuck n → blocked n.
Proof. intros (h' & _ & _ & Hg & _). by eapply stuck_blocked. Qed.

(** No operation of a node of a reachable cluster ends in a fatal error; it panics
    only where the state machine does; and a node that crashes opens again. *)
Lemma operations_land c v n :
  reachable V c → nodes c !! v = Some n →
  (∀ e, e ∈ net c → to e = v → orderly blocked (step e n)) ∧ orderly blocked (tick n) ∧
  (∀ p, orderly (λ n', blocked n' ∨ balks p n') (propose p n)) ∧ orderly blocked (read_index n) ∧ orderly blocked (take_messages n) ∧
  ∀ k, survive (wal n) k → ∃ n', restart k n = Ok n'.
Proof.
  intros Hc Hn. destruct (reachable_agree c Hc) as (g & h & [Hfair Hlink Hw Hns]). pose proof (Hns v n Hn) as Hg.
  destruct (fa_nodes _ _ _ Hfair v n Hn) as (Hid & _ & Hcnt). pose proof (later_blocked (net c) g v h) as Hb. split_and!.
  - intros e He Hto. pose proof (proj1 (Forall_forall _ _) (fa_net _ _ _ Hfair) e He) as [Ht _].
    eapply (lands_orderly when_stuck); [exact Hb|]. by apply (step_lands V (net c) g v h Hw e n).
  - eapply (lands_orderly when_stuck); [exact Hb|]. by apply (tick_lands V (net c) g v h Hw).
  - intros p. eapply (lands_orderly (when_balking p)); [intros n' Hl [Hs|Hs]; [left; by eapply Hb|by right]|].
    apply (propose_later V (net c) g v h Hw); [by right|done].
  - eapply (lands_orderly when_stuck); [exact Hb|]. by apply (read_lands V (net c) g v h Hw).
  - by rewrite run_flush.
  - intros k Hk. destruct Hg as (_ & F & HcF & _). destruct (restart_good V (net c) v h n F k Hw Hid HcF Hk) as (n' & E & _). by exists n'.
Qed.

End agree.

(** ** A run

    [b] takes over with the vote of [c], without hearing from [a] again. *)

Definition takeover_b : list Move :=
  repeat (Do "b"%string ATick) 7
  ++ [Do "b"%string AFlush; Recv 10; Do "c"%string AFlush; Recv 11; Do "b"%string AFlush; Recv 13; Do "c"%string AFlush; Recv 14].

Definition led_by_b : Cluster := foldl exec replicated_by_a takeover_b.

Lemma replicated_reachable : reachable voters3 replicated_by_a.
Proof.
  exists three. split; [exact three_starts|]. transitivity led_by_a; exact (exec_steps _ _).
Qed.

Definition first_entry : WalRecord (m_command (S := Count)) := mkRecord 1 1 CNoop.

Lemma state_machine_safety_witness :
  commit_index <$> nodes led_by_b !! "a"%string = Some 1 ∧
  ∃ L L', L `prefix_of` L' ∧ (∀ v n, nodes replicated_by_a !! v = Some n → applies L n) ∧ (∀ v n, nodes led_by_b !! v = Some n → applies L' n).
Proof.
  split; [vm_compute; done|]. exact (state_machine_safety voters3 replicated_by_a led_by_b replicated_reachable (exec_steps _ _)).
Defined.

Lemma leader_completeness_witness :
  ∃ na nb, nodes replicated_by_a !! "a"%string = Some na ∧ nodes led_by_b !! "b"%string = Some nb ∧
    has_committed na 1 first_entry ∧ holds nb 1 first_entry.
Proof.
  assert ((λ n, (my_term n, commit_index n, entry n 1)) <$> nodes replicated_by_a !! "a"%string = Some (1, 1, Some first_entry)) as Ha by (vm_compute; done).
  assert ((λ n, (my_term n, role n)) <$> nodes led_by_b !! "b"%string = Some (2, Leader)) as Hb by (vm_compute; done).
  apply fmap_Some in Ha as (na & Ha & [= Ht Hc He]). apply fmap_Some in Hb as (nb & Hb & [= Ht' Hl]).
  assert (has_committed na 1 first_entry) as Hh by (split; [rewrite <- Hc; lia|exact (eq_sym He)]).
  exists na, nb. split; [exact Ha|]. split; [exact Hb|]. split; [exact Hh|].
  refine (leader_completeness voters3 replicated_by_a led_by_b _ _ na nb 1 first_entry replicated_reachable (exec_steps _ _) Ha Hb Hh (eq_sym Hl) _).
  rewrite <- Ht, <- Ht'. lia.
Defined.

Lemma log_matching_witness :
  ∃ na nb, nodes replicated_by_a !! "a"%string = Some na ∧ nodes replicated_by_a !! "b"%string = Some nb ∧
    entry na 1 = Some first_entry ∧ same_log na nb 1.
Proof.
  assert ((λ n, entry n 1) <$> nodes replicated_by_a !! "a"%string = Some (Some first_entry)) as Ha by (vm_compute; done).
  assert ((λ n, entry n 1) <$> nodes replicated_by_a !! "b"%string = Some (Some first_entry)) as Hb by (vm_compute; done).
  apply fmap_Some in Ha as (na & Ha & He). apply fmap_Some in Hb as (nb & Hb & He').
  exists na, nb. split; [exact Ha|]. split; [exact Hb|]. split; [exact (eq_sym He)|].
  exact (log_matching voters3 replicated_by_a _ _ na nb 1 first_entry first_entry replicated_reachable Ha Hb (eq_sym He) (eq_sym He') eq_refl).
Defined.

End RaftAgree.
