(* ===== verification/Tree.v ===== *)
(** * Directory trees

    The abstract tree a filesystem's inodes form: directories with their parent,
    entries and link count, and leaves with theirs.  [tree_ok] is what a POSIX
    tree is: one root, every other directory named once, by its parent, link
    counts that count, and no cycles.  Four operations - add an unnamed node,
    attach it, detach a named one, drop an unnamed one - keep it; the namespace
    operations are compositions of them. *)

From S2P Require Import Prelude.

Module Tree.

Open Scope N_scope.

Definition ROOT : N := 1.

Inductive node :=
| SDir (parent : N) (entries : gmap string N) (nlink : N)
| SLeaf (nlink : N).

Abbreviation tree := (gmap N node).

Definition is_sdir (o : option node) : bool := match o with Some (SDir _ _ _) => true | _ => false end.

(** ** Counting *)

Definition ecount (c : N) (es : gmap string N) : nat :=
  map_sum (λ x, if decide (x = c) then 1%nat else 0%nat) es.
Definition node_links (c : N) (s : node) : nat := match s with SDir _ es _ => ecount c es | SLeaf _ => 0%nat end.
(** The entries that name [c]. *)
Definition links (t : tree) (c : N) : nat := map_sum (node_links c) t.
(** The entries that name a directory. *)
Definition subdirs (t : tree) (es : gmap string N) : nat :=
  map_sum (λ x, if is_sdir (t !! x) then 1%nat else 0%nat) es.

(** ** Well-formed trees *)

(** The way up from [d] reaches the root, or the unnamed node [h]. *)
Inductive climbs (t : tree) (h : option N) : N → Prop :=
| climb_root : climbs t h ROOT
| climb_hole c : h = Some c → climbs t h c
| climb_up d p es n : t !! d = Some (SDir p es n) → climbs t h p → climbs t h d.

(** A tree, but for the node [h] that no entry names. *)
Record ok_but (h : option N) (t : tree) : Prop := {
  ob_root : ∃ es n, t !! ROOT = Some (SDir ROOT es n) ∧ h ≠ Some ROOT;
  ob_entry : ∀ d p es n name c, t !! d = Some (SDir p es n) → es !! name = Some c →
    ∃ s, t !! c = Some s ∧ ∀ p' es' n', s = SDir p' es' n' → p' = d ∧ c ≠ ROOT ∧ h ≠ Some c;
  ob_named : ∀ c p es n, t !! c = Some (SDir p es n) → c ≠ ROOT → h ≠ Some c →
    ∃ pp es' n', t !! p = Some (SDir pp es' n') ∧ ecount c es' = 1%nat;
  ob_leaf : ∀ c n, t !! c = Some (SLeaf n) → n = N.of_nat (links t c) ∧ (h ≠ Some c → 1 <= n);
  ob_dir : ∀ d p es n, t !! d = Some (SDir p es n) → n = 2 + N.of_nat (subdirs t es);
  ob_climbs : ∀ d, is_sdir (t !! d) = true → climbs t h d;
}.

Definition tree_ok : tree → Prop := ok_but None.

(** ** The four operations *)

Definition add_entry (d : N) (name : string) (c : N) (k : N) (t : tree) : tree :=
  match t !! d with
  | Some (SDir p es n) => <[d := SDir p (<[name := c]> es) (n + k)]> t
  | _ => t
  end.

Definition del_entry (d : N) (name : string) (k : N) (t : tree) : tree :=
  match t !! d with
  | Some (SDir p es n) => <[d := SDir p (delete name es) (n - k)]> t
  | _ => t
  end.

(** Name [c] in [d]. *)
Definition attach (d : N) (name : string) (c : N) (t : tree) : tree :=
  match t !! c with
  | Some (SDir _ es n) => add_entry d name c 1 (<[c := SDir d es n]> t)
  | Some (SLeaf n) => add_entry d name c 0 (<[c := SLeaf (n + 1)]> t)
  | None => t
  end.

(** Remove the name of [c] in [d]. *)
Definition detach (d : N) (name : string) (c : N) (t : tree) : tree :=
  match t !! c with
  | Some (SDir _ es n) => del_entry d name 1 t
  | Some (SLeaf n) => del_entry d name 0 (<[c := SLeaf (n - 1)]> t)
  | None => t
  end.

(** ** Counting lemmas *)

Lemma ecount_insert c name x es :
  es !! name = None → ecount c (<[name := x]> es) = ((if decide (x = c) then 1 else 0) + ecount c es)%nat.
Proof. intros He. unfold ecount. by rewrite map_sum_insert_None. Qed.

Lemma ecount_delete c name x es :
  es !! name = Some x → ecount c es = ((if decide (x = c) then 1 else 0) + ecount c (delete name es))%nat.
Proof. intros He. unfold ecount. by rewrite (map_sum_delete _ _ _ _ He). Qed.

Lemma ecount_elem c name es : es !! name = Some c → (1 ≤ ecount c es)%nat.
Proof. intros He. rewrite (ecount_delete c name c es He), decide_True by done. lia. Qed.

Lemma ecount_pos c es : (1 ≤ ecount c es)%nat → ∃ name, es !! name = Some c.
Proof.
  intros Hc. destruct (decide (map_Exists (λ _ x, x = c) es)) as [(name & x & Hx & ->)|Hn]; [by exists name|].
  exfalso. assert (ecount c es = 0%nat) as Hz; [|lia]. apply map_sum_zero. intros name x Hx.
  rewrite decide_False; [done|]. intros ->. apply Hn. by exists name, c.
Qed.

Lemma ecount_zero c es : ecount c es = 0%nat ↔ ∀ name, es !! name ≠ Some c.
Proof.
  split.
  - intros Hz name Hn. apply ecount_elem in Hn. lia.
  - intros Hn. destruct (ecount c es) eqn:He; [done|]. destruct (ecount_pos c es) as [name ?]; [lia|].
    by destruct (Hn name).
Qed.

Lemma links_insert t i s c :
  (links (<[i := s]> t) c + default 0 (node_links c <$> t !! i) = node_links c s + links t c)%nat.
Proof. apply map_sum_insert. Qed.

Lemma links_delete t i s c :
  t !! i = Some s → links t c = (node_links c s + links (delete i t) c)%nat.
Proof. apply map_sum_delete. Qed.

Lemma links_zero t c :
  (∀ d p es n name, t !! d = Some (SDir p es n) → es !! name ≠ Some c) → links t c = 0%nat.
Proof.
  intros Hn. apply map_sum_zero. intros d [p es n|n] Hd; [|done]. simpl. apply ecount_zero. eauto.
Qed.

Lemma links_pos t d p es n name c :
  t !! d = Some (SDir p es n) → es !! name = Some c → (1 ≤ links t c)%nat.
Proof.
  intros Hd He. unfold links. pose proof (map_sum_elem (node_links c) t d _ Hd) as Hle. simpl in Hle.
  apply ecount_elem in He. lia.
Qed.

Lemma subdirs_insert t name x es :
  es !! name = None →
  subdirs t (<[name := x]> es) = ((if is_sdir (t !! x) then 1 else 0) + subdirs t es)%nat.
Proof. intros He. unfold subdirs. by rewrite map_sum_insert_None. Qed.

Lemma subdirs_delete t name x es :
  es !! name = Some x →
  subdirs t es = ((if is_sdir (t !! x) then 1 else 0) + subdirs t (delete name es))%nat.
Proof. intros He. unfold subdirs. by rewrite (map_sum_delete _ _ _ _ He). Qed.

(** Only which nodes are directories matters to [subdirs]. *)
Lemma subdirs_ext t t' es :
  (∀ name x, es !! name = Some x → is_sdir (t !! x) = is_sdir (t' !! x)) → subdirs t es = subdirs t' es.
Proof. intros Hx. apply map_sum_ext. intros name x He. by rewrite (Hx name x He). Qed.

(** ** Climbing *)

(** A change that keeps every directory's parent keeps the ways up. *)
Lemma climbs_mono (t t' : tree) h h' d :
  (∀ x p es n, t !! x = Some (SDir p es n) → x ≠ ROOT → climbs t' h' p → climbs t' h' x) →
  (∀ c, h = Some c → climbs t' h' c) → climbs t h d → climbs t' h' d.
Proof.
  intros Hup Hh. induction 1 as [|c Hc|d p es n Hd Hp IH]; [constructor|auto|].
  destruct (decide (d = ROOT)) as [->|]; [constructor|]. eauto.
Qed.

Lemma sdir_lookup (t : tree) x : is_sdir (t !! x) = true ↔ ∃ p es n, t !! x = Some (SDir p es n).
Proof. destruct (t !! x) as [[]|]; naive_solver. Qed.

Section ok.
Context (h : option N) (t : tree) (Hok : ok_but h t).

Lemma named_exists d p es n name c :
  t !! d = Some (SDir p es n) → es !! name = Some c → is_Some (t !! c).
Proof. intros Hd He. destruct (ob_entry h t Hok _ _ _ _ _ _ Hd He) as (s & -> & _). eauto. Qed.

(** A directory is named by its parent only. *)
Lemma dir_namer d p es n name c p' es' n' :
  t !! d = Some (SDir p es n) → es !! name = Some c → t !! c = Some (SDir p' es' n') →
  p' = d ∧ c ≠ ROOT ∧ h ≠ Some c.
Proof.
  intros Hd He Hc. destruct (ob_entry h t Hok _ _ _ _ _ _ Hd He) as (s & Hs & Hp). rewrite Hc in Hs.
  injection Hs as <-. eauto.
Qed.

(** No two entries name one directory. *)
Lemma dir_name_once d p es n name name' c :
  t !! d = Some (SDir p es n) → es !! name = Some c → es !! name' = Some c →
  is_sdir (t !! c) = true → name' = name.
Proof.
  intros Hd He He' (p' & es' & n' & Hc)%sdir_lookup.
  destruct (dir_namer _ _ _ _ _ _ _ _ _ Hd He Hc) as (-> & Hr & Hh).
  destruct (ob_named h t Hok _ _ _ _ Hc Hr Hh) as (pp & es2 & n2 & Hd2 & H1). rewrite Hd in Hd2.
  injection Hd2 as <- <- <-. destruct (decide (name' = name)) as [?|Hne]; [done|]. exfalso.
  rewrite (ecount_delete c name c es He), decide_True in H1 by done.
  assert (delete name es !! name' = Some c) as Hd' by (by rewrite lookup_delete_ne).
  apply ecount_elem in Hd'. lia.
Qed.

(** The parent of a directory is a directory. *)
Lemma parent_is_dir c p es n :
  t !! c = Some (SDir p es n) → c ≠ ROOT → h ≠ Some c → is_sdir (t !! p) = true.
Proof.
  intros Hc Hr Hh. destruct (ob_named h t Hok _ _ _ _ Hc Hr Hh) as (? & ? & ? & -> & _). done.
Qed.

Lemma root_is_dir : is_sdir (t !! ROOT) = true.
Proof. destruct (ob_root h t Hok) as (es & n & -> & _). done. Qed.
End ok.

(** ** A new node *)

Definition unnamed (s : node) : Prop :=
  match s with SDir _ es n => es = ∅ ∧ n = 2 | SLeaf n => n = 0 end.

Lemma links_fresh h t i : ok_but h t → t !! i = None → links t i = 0%nat.
Proof.
  intros Hok Hi. apply links_zero. intros d p es n name Hd He.
  destruct (named_exists h t Hok _ _ _ _ _ _ Hd He). congruence.
Qed.

Lemma add_node_ok t i s :
  tree_ok t → t !! i = None → unnamed s → ok_but (Some i) (<[i := s]> t).
Proof.
  intros Hok Hi Hs.
  assert (∀ x y, t !! x = Some y → <[i := s]> t !! x = Some y) as Hold.
  { intros x y Hx. rewrite lookup_insert_ne; [done|congruence]. }
  assert (∀ c, node_links c s = 0%nat) as Hnl.
  { intros c. destruct s as [p es n|]; [|done]. destruct Hs as [-> _]. apply map_sum_empty. }
  assert (∀ c, links (<[i := s]> t) c = links t c) as Hlinks.
  { intros c. pose proof (links_insert t i s c) as Hl. rewrite Hi, Hnl in Hl. simpl in Hl. lia. }
  assert (∀ d p es n, t !! d = Some (SDir p es n) → subdirs (<[i := s]> t) es = subdirs t es) as Hsub.
  { intros d p es n Hd. apply subdirs_ext. intros name x He.
    destruct (named_exists None t Hok _ _ _ _ _ _ Hd He) as [y Hy]. by rewrite (Hold x y Hy), Hy. }
  split.
  - destruct (ob_root None t Hok) as (es & n & Hr & _). exists es, n. split; [auto|]. intros [= ->]. congruence.
  - intros d p es n name c [[<- ->]|[Hd Hl]]%lookup_insert_Some He.
    { destruct Hs as [-> _]. by rewrite lookup_empty in He. }
    destruct (ob_entry None t Hok _ _ _ _ _ _ Hl He) as (y & Hy & Hp). exists y. split; [auto|].
    intros p' es' n' ->. destruct (Hp _ _ _ eq_refl) as (? & ? & _). split_and!; [done..|].
    intros [= ->]. congruence.
  - intros c p es n [[<- ->]|[Hd Hl]]%lookup_insert_Some Hr Hh; [done|].
    destruct (ob_named None t Hok _ _ _ _ Hl Hr) as (pp & es' & n' & Hp & He); [done|]. eauto 10.
  - intros c n [[<- ->]|[Hd Hl]]%lookup_insert_Some; rewrite Hlinks.
    + rewrite (links_fresh None) by done. simpl in Hs. subst. split; [done|]. by intros [].
    + destruct (ob_leaf None t Hok _ _ Hl) as [? Hle]. split; [done|]. intros _. by apply Hle.
  - intros d p es n [[<- ->]|[Hd Hl]]%lookup_insert_Some.
    + destruct Hs as [-> ->]. unfold subdirs. by rewrite map_sum_empty.
    + rewrite (Hsub _ _ _ _ Hl). by apply (ob_dir None t Hok d p).
  - intros d Hd. destruct (decide (d = i)) as [->|Hne]; [by apply climb_hole|].
    rewrite lookup_insert_ne in Hd by done. apply (climbs_mono t _ None); [|done|by apply Hok].
    intros x p es n Hx _ Hc. eapply climb_up; [by apply Hold|done].
Qed.

(** ** Removing a name *)

(** Lookups after one node is replaced, where it matters which it was. *)
Lemma insert_cases (t : tree) i s x y :
  <[i := s]> t !! x = Some y ↔ (x = i ∧ y = s) ∨ (x ≠ i ∧ t !! x = Some y).
Proof. rewrite lookup_insert_Some. naive_solver. Qed.

Lemma is_sdir_insert (t : tree) i s x :
  is_sdir (Some s) = is_sdir (t !! i) → is_sdir (<[i := s]> t !! x) = is_sdir (t !! x).
Proof.
  intros Hs. destruct (decide (x = i)) as [->|Hne].
  - by rewrite lookup_insert_eq.
  - by rewrite lookup_insert_ne.
Qed.

Section detach.
Context (t : tree) (Hok : tree_ok t) (d p : N) (es : gmap string N) (n : N) (name : string) (c : N).
Context (Hd : t !! d = Some (SDir p es n)) (He : es !! name = Some c).

(** Nothing else names a directory. *)
Lemma only_name x p1 es1 n1 name1 :
  is_sdir (t !! c) = true → t !! x = Some (SDir p1 es1 n1) → es1 !! name1 = Some c → x = d ∧ name1 = name.
Proof.
  intros (p' & es' & n' & Hc)%sdir_lookup Hx H1.
  destruct (dir_namer None t Hok _ _ _ _ _ _ _ _ _ Hd He Hc) as (-> & _).
  destruct (dir_namer None t Hok _ _ _ _ _ _ _ _ _ Hx H1 Hc) as (<- & _).
  rewrite Hd in Hx. injection Hx as <- <- <-. split; [done|].
  eapply (dir_name_once None t Hok); [exact Hd|exact He|done|by rewrite Hc].
Qed.

Lemma ecount_other x : x ≠ c → ecount x (delete name es) = ecount x es.
Proof. intros Hx. rewrite (ecount_delete x name c es He), decide_False by congruence. done. Qed.

(** A tree [t'] in which [d] lost the name and every directory kept its parent. *)
Context (t' : tree) (n' : N).
Context (Hd' : t' !! d = Some (SDir p (delete name es) n')).
Context (Hdir' : ∀ x p1 es1 n1, x ≠ d → t' !! x = Some (SDir p1 es1 n1) ↔ t !! x = Some (SDir p1 es1 n1)).
Context (Hex' : ∀ x, is_Some (t !! x) → is_Some (t' !! x)).

Lemma detach_sdir x : is_sdir (t' !! x) = is_sdir (t !! x).
Proof.
  apply eq_true_iff_eq. rewrite !sdir_lookup. destruct (decide (x = d)) as [->|Hne].
  - rewrite Hd', Hd. naive_solver.
  - by setoid_rewrite Hdir'.
Qed.

Lemma detach_parent x p1 es1 n1 :
  t' !! x = Some (SDir p1 es1 n1) → ∃ es2 n2, t !! x = Some (SDir p1 es2 n2).
Proof.
  destruct (decide (x = d)) as [->|Hne]; [rewrite Hd'; intros [= <- <- <-]; eauto|].
  rewrite Hdir' by done. eauto.
Qed.

Lemma detach_climbs h x : is_sdir (t' !! x) = true → climbs t' h x.
Proof.
  rewrite detach_sdir. intros Hx. apply (climbs_mono t _ None); [|done|by apply Hok].
  intros y p1 es1 n1 Hy _ Hcl. destruct (decide (y = d)) as [->|Hne].
  - rewrite Hd in Hy. injection Hy as <- <- <-. by eapply climb_up.
  - eapply climb_up; [by apply Hdir'|done].
Qed.

Lemma detach_root : ∃ es0 n0, t' !! ROOT = Some (SDir ROOT es0 n0).
Proof.
  destruct (ob_root None t Hok) as (es0 & n0 & H0 & _). destruct (decide (d = ROOT)) as [Hr|Hne].
  - rewrite <- Hr, Hd in H0. injection H0 as Hp -> ->. rewrite <- Hr, Hd', Hp. eauto.
  - exists es0, n0. by apply Hdir'.
Qed.

Lemma detach_entry x p1 es1 n1 name1 c1 :
  t' !! x = Some (SDir p1 es1 n1) → es1 !! name1 = Some c1 →
  ∃ s, t' !! c1 = Some s ∧ ∀ p2 es2 n2, s = SDir p2 es2 n2 → p2 = x ∧ c1 ≠ ROOT ∧ c ≠ c1.
Proof.
  intros Hx H1.
  assert (∃ es0 n0, t !! x = Some (SDir p1 es0 n0) ∧ es0 !! name1 = Some c1 ∧ ¬ (x = d ∧ name1 = name))
    as (es0 & n0 & Hx0 & H0 & Hnot).
  { destruct (decide (x = d)) as [->|Hne].
    - rewrite Hd' in Hx. injection Hx as <- <- <-. apply lookup_delete_Some in H1 as [? ?]. exists es, n. naive_solver.
    - apply Hdir' in Hx; [|done]. exists es1, n1. naive_solver. }
  destruct (ob_entry None t Hok _ _ _ _ _ _ Hx0 H0) as (y & Hy & Hp).
  destruct (Hex' c1) as [y' Hy']; [by eexists|]. exists y'. split; [done|]. intros p2 es2 n2 ->.
  destruct (detach_parent _ _ _ _ Hy') as (es3 & n3 & H3). rewrite Hy in H3. injection H3 as ->.
  destruct (Hp _ _ _ eq_refl) as (? & ? & _). split_and!; [done..|]. intros <-.
  apply Hnot. eapply only_name; [by rewrite Hy|done..].
Qed.

Lemma detach_named x p1 es1 n1 :
  t' !! x = Some (SDir p1 es1 n1) → x ≠ ROOT → c ≠ x →
  ∃ pp es2 n2, t' !! p1 = Some (SDir pp es2 n2) ∧ ecount x es2 = 1%nat.
Proof.
  intros (es2 & n2 & Hx2)%detach_parent Hxr Hxc.
  destruct (ob_named None t Hok _ _ _ _ Hx2 Hxr) as (pp & es3 & n3 & Hp & H1); [done|].
  destruct (decide (p1 = d)) as [->|Hne].
  - rewrite Hd in Hp. injection Hp as <- <- <-. exists p, (delete name es), n'. split; [done|].
    by rewrite ecount_other by congruence.
  - exists pp, es3, n3. split; [by apply Hdir'|done].
Qed.

Lemma detach_subdirs x p1 es1 n1 :
  t' !! x = Some (SDir p1 es1 n1) →
  x = d ∨ n1 = 2 + N.of_nat (subdirs t' es1).
Proof.
  intros Hx. destruct (decide (x = d)) as [->|Hne]; [by left|right].
  rewrite (subdirs_ext _ t) by (intros; apply detach_sdir). apply Hdir' in Hx; [|done].
  by eapply (ob_dir None t Hok).
Qed.
End detach.

Lemma detach_dir_ok t d p es n name c :
  tree_ok t → t !! d = Some (SDir p es n) → es !! name = Some c → is_sdir (t !! c) = true →
  ok_but (Some c) (detach d name c t).
Proof.
  intros Hok Hd He Hsd. pose proof Hsd as (p' & es' & m & Hc)%sdir_lookup.
  destruct (dir_namer None t Hok _ _ _ _ _ _ _ _ _ Hd He Hc) as (-> & Hr & _).
  unfold detach. rewrite Hc. unfold del_entry. rewrite Hd.
  set (t' := <[d := _]> t).
  assert (t' !! d = Some (SDir p (delete name es) (n - 1))) as Hd' by apply lookup_insert_eq.
  assert (∀ x, x ≠ d → t' !! x = t !! x) as Hne by (intros; by apply lookup_insert_ne).
  assert (∀ x p1 es1 n1, x ≠ d → t' !! x = Some (SDir p1 es1 n1) ↔ t !! x = Some (SDir p1 es1 n1)) as Hdir'
    by (intros; by rewrite Hne).
  assert (∀ x, is_Some (t !! x) → is_Some (t' !! x)) as Hex'
    by (intros x; unfold t'; rewrite lookup_insert_is_Some'; auto).
  split.
  - edestruct detach_root as (es0 & n0 & H0); [exact Hok|exact Hd|done..|]. exists es0, n0. split; [done|congruence].
  - intros x p1 es1 n1 name1 c1 Hx H1.
    edestruct detach_entry as (s & Hs & Hp); [exact Hok|exact Hd|exact He|exact Hd'|done..|exact Hx|exact H1|].
    exists s. split; [done|]. intros p2 es2 n2 E. destruct (Hp _ _ _ E) as (? & ? & ?). split_and!; [done..|congruence].
  - intros x p1 es1 n1 Hx Hxr Hxh. eapply detach_named; [exact Hok|exact Hd|exact He|done..|congruence].
  - intros x m' Hx. assert (x ≠ d) as Hxd by congruence. rewrite Hne in Hx by done.
    destruct (ob_leaf None t Hok _ _ Hx) as [-> H1].
    pose proof (links_insert t d (SDir p (delete name es) (n - 1)) x) as Hlk. rewrite Hd in Hlk. simpl in Hlk.
    rewrite (ecount_other es name c He) in Hlk by congruence. split; [unfold t'; lia|]. intros _. by apply H1.
  - intros x p1 es1 n1 Hx. destruct (detach_subdirs t Hok d p es n name c Hd He t' _ Hd' Hdir' x p1 es1 n1 Hx) as [->|?]; [|done].
    rewrite Hd' in Hx. injection Hx as <- <- <-.
    rewrite (subdirs_ext t' t) by (intros; by apply (detach_sdir t d p es n name c Hd He t' _ Hd' Hdir')).
    pose proof (ob_dir None t Hok _ _ _ _ Hd) as Hn. rewrite (subdirs_delete t name c es He), Hsd in Hn. lia.
  - intros x Hx. eapply detach_climbs; [exact Hok|exact Hd|done..].
Qed.

Lemma detach_leaf_ok t d p es n name c m :
  tree_ok t → t !! d = Some (SDir p es n) → es !! name = Some c → t !! c = Some (SLeaf m) →
  ok_but (Some c) (detach d name c t).
Proof.
  intros Hok Hd He Hc. assert (c ≠ d) as Hcd by congruence.
  unfold detach. rewrite Hc. unfold del_entry. rewrite lookup_insert_ne by done. rewrite Hd.
  set (t1 := <[c := _]> t). set (t' := <[d := _]> t1).
  assert (t' !! d = Some (SDir p (delete name es) (n - 0))) as Hd' by apply lookup_insert_eq.
  assert (t' !! c = Some (SLeaf (m - 1))) as Hc'.
  { unfold t'. rewrite lookup_insert_ne by done. apply lookup_insert_eq. }
  assert (∀ x, x ≠ d → x ≠ c → t' !! x = t !! x) as Hne.
  { intros. unfold t', t1. by rewrite !lookup_insert_ne. }
  assert (∀ x p1 es1 n1, x ≠ d → t' !! x = Some (SDir p1 es1 n1) ↔ t !! x = Some (SDir p1 es1 n1)) as Hdir'.
  { intros x p1 es1 n1 Hx. destruct (decide (x = c)) as [->|]; [by rewrite Hc', Hc|by rewrite Hne]. }
  assert (∀ x, is_Some (t !! x) → is_Some (t' !! x)) as Hex'.
  { intros x. unfold t', t1. rewrite !lookup_insert_is_Some'. auto. }
  assert (∀ x, (links t' x + (if decide (c = x) then 1 else 0) = links t x)%nat) as Hlinks.
  { intros x. pose proof (links_insert t1 d (SDir p (delete name es) (n - 0)) x) as H1.
    pose proof (links_insert t c (SLeaf (m - 1)) x) as H2. fold t1 in H2. fold t' in H1.
    rewrite Hc in H2. replace (t1 !! d) with (Some (SDir p es n)) in H1 by (unfold t1; by rewrite lookup_insert_ne). simpl in H1, H2.
    rewrite (ecount_delete x name c es He) in H1. lia. }
  split.
  - edestruct detach_root as (es0 & n0 & H0); [exact Hok|exact Hd|done..|]. exists es0, n0. split; [done|].
    intros [= ->]. destruct (ob_root None t Hok) as (? & ? & ? & _). congruence.
  - intros x p1 es1 n1 name1 c1 Hx H1.
    edestruct detach_entry as (s & Hs & Hp); [exact Hok|exact Hd|exact He|exact Hd'|done..|exact Hx|exact H1|].
    exists s. split; [done|]. intros p2 es2 n2 E. destruct (Hp _ _ _ E) as (? & ? & ?). split_and!; [done..|congruence].
  - intros x p1 es1 n1 Hx Hxr Hxh. eapply detach_named; [exact Hok|exact Hd|exact He|done..|congruence].
  - intros x m' Hx. specialize (Hlinks x). destruct (decide (c = x)) as [<-|Hcx].
    + rewrite Hc' in Hx. injection Hx as <-. destruct (ob_leaf None t Hok _ _ Hc) as [-> _]. split; [lia|done].
    + assert (x ≠ d) by congruence. rewrite Hne in Hx by congruence.
      destruct (ob_leaf None t Hok _ _ Hx) as [-> H1]. split; [lia|]. intros _. by apply H1.
  - intros x p1 es1 n1 Hx. destruct (detach_subdirs t Hok d p es n name c Hd He t' _ Hd' Hdir' x p1 es1 n1 Hx) as [->|?]; [|done].
    rewrite Hd' in Hx. injection Hx as <- <- <-.
    rewrite (subdirs_ext t' t) by (intros; by apply (detach_sdir t d p es n name c Hd He t' _ Hd' Hdir')).
    pose proof (ob_dir None t Hok _ _ _ _ Hd) as Hn. rewrite (subdirs_delete t name c es He), Hc in Hn. simpl in Hn. lia.
  - intros x Hx. eapply detach_climbs; [exact Hok|exact Hd|done..].
Qed.

(** ** Naming a node *)

(** The unnamed node [s] as it is once [d] names it. *)
Definition adopted (d : N) (s : node) : node :=
  match s with SDir _ es n => SDir d es n | SLeaf n => SLeaf (n + 1) end.

Section attach.
Context (t : tree) (c : N) (Hok : ok_but (Some c) t).
Context (d p : N) (es : gmap string N) (n : N) (name : string) (s : node).
Context (Hd : t !! d = Some (SDir p es n)) (He : es !! name = None) (Hc : t !! c = Some s) (Hcd : c ≠ d).

Definition attached : tree :=
  <[d := SDir p (<[name := c]> es) (n + if is_sdir (Some s) then 1 else 0)]> (<[c := adopted d s]> t).

Lemma attach_eq : attach d name c t = attached.
Proof.
  unfold attach, attached. rewrite Hc. destruct s; unfold add_entry;
    rewrite lookup_insert_ne by done; by rewrite Hd.
Qed.

Lemma attached_d : attached !! d = Some (SDir p (<[name := c]> es) (n + if is_sdir (Some s) then 1 else 0)).
Proof. apply lookup_insert_eq. Qed.
Lemma attached_c : attached !! c = Some (adopted d s).
Proof. unfold attached. rewrite lookup_insert_ne by done. apply lookup_insert_eq. Qed.
Lemma attached_other x : x ≠ d → x ≠ c → attached !! x = t !! x.
Proof. intros. unfold attached. by rewrite !lookup_insert_ne. Qed.

Lemma attached_sdir x : is_sdir (attached !! x) = is_sdir (t !! x).
Proof.
  destruct (decide (x = d)) as [->|]; [by rewrite attached_d, Hd|].
  destruct (decide (x = c)) as [->|]; [rewrite attached_c, Hc; by destruct s|]. by rewrite attached_other.
Qed.

Lemma attached_links x : links attached x = (links t x + if decide (c = x) then 1 else 0)%nat.
Proof.
  unfold attached. set (t1 := <[c := adopted d s]> t).
  set (k := n + _). clearbody k.
  pose proof (links_insert t c (adopted d s) x) as H2. fold t1 in H2. rewrite Hc in H2.
  pose proof (links_insert t1 d (SDir p (<[name := c]> es) k) x) as H1.
  replace (t1 !! d) with (Some (SDir p es n)) in H1 by (unfold t1; by rewrite lookup_insert_ne).
  assert (node_links x (adopted d s) = node_links x s) as Hn by (by destruct s).
  rewrite Hn in H2. simpl in H1, H2. rewrite (ecount_insert x name c es He) in H1. lia.
Qed.

(** The unnamed directory is not named. *)
Lemma hole_unnamed x p1 es1 n1 name1 :
  is_sdir (Some s) = true → t !! x = Some (SDir p1 es1 n1) → es1 !! name1 ≠ Some c.
Proof.
  intros Hs Hx H1. destruct s as [p' es' n'|]; [|done].
  by destruct (dir_namer (Some c) t Hok _ _ _ _ _ _ _ _ _ Hx H1 Hc) as (_ & _ & []).
Qed.

Lemma hole_not_root : c ≠ ROOT.
Proof. destruct (ob_root (Some c) t Hok) as (_ & _ & _ & Hr). congruence. Qed.

(** Old directories: same parent unless [c], same entries but for [name] in [d]. *)
Lemma attached_dir x p1 es1 n1 :
  attached !! x = Some (SDir p1 es1 n1) →
  ∃ p0 es0 n0, t !! x = Some (SDir p0 es0 n0) ∧ (p1 = if decide (x = c) then d else p0) ∧
    es1 = if decide (x = d) then <[name := c]> es0 else es0.
Proof.
  destruct (decide (x = d)) as [->|Hxd].
  { rewrite attached_d. intros [= <- <- <-]. exists p, es, n. rewrite (decide_False (P := d = c)) by done. done. }
  destruct (decide (x = c)) as [->|Hxc].
  - rewrite attached_c, Hc. destruct s as [p0 es0 n0|]; [|done]. intros [= <- <- <-]. by exists p0, es0, n0.
  - rewrite attached_other by done. intros Hx. by exists p1, es1, n1.
Qed.

Lemma attached_entry x p1 es1 n1 name1 c1 :
  attached !! x = Some (SDir p1 es1 n1) → es1 !! name1 = Some c1 →
  ∃ y, attached !! c1 = Some y ∧ ∀ p2 es2 n2, y = SDir p2 es2 n2 → p2 = x ∧ c1 ≠ ROOT.
Proof.
  intros (p0 & es0 & n0 & Hx & _ & ->)%attached_dir H1.
  destruct (decide (x = d ∧ name1 = name)) as [[-> ->]|Hnew].
  { rewrite decide_True, lookup_insert_eq in H1 by done. injection H1 as <-. exists (adopted d s).
    rewrite attached_c. split; [done|]. pose proof hole_not_root. by destruct s; intros p2 es2 n2 [= <- <- <-]. }
  assert (es0 !! name1 = Some c1) as H0.
  { case_decide; [|done]. rewrite lookup_insert_ne in H1 by naive_solver. done. }
  destruct (ob_entry (Some c) t Hok _ _ _ _ _ _ Hx H0) as (y & Hy & Hp).
  destruct (decide (c1 = c)) as [->|Hc1].
  - exists (adopted d s). rewrite attached_c. split; [done|]. rewrite Hc in Hy. injection Hy as <-.
    destruct s as [p' es' n'|]; [|done]. by destruct (Hp _ _ _ eq_refl) as (_ & _ & []).
  - destruct (decide (c1 = d)) as [->|Hc2].
    + eexists. rewrite attached_d. split; [done|]. rewrite Hd in Hy. injection Hy as <-.
      intros p2 es2 n2 [= <- <- <-]. destruct (Hp _ _ _ eq_refl) as (? & ? & _). done.
    + exists y. rewrite attached_other by done. split; [done|]. intros p2 es2 n2 ->.
      destruct (Hp _ _ _ eq_refl) as (? & ? & _). done.
Qed.

Lemma attached_ecount x y p0 es0 n0 :
  t !! x = Some (SDir p0 es0 n0) → y ≠ c → ∃ pp es1 n1, attached !! x = Some (SDir pp es1 n1) ∧
    ecount y es1 = ecount y es0.
Proof.
  intros Hx Hy. destruct (decide (x = d)) as [->|Hxd].
  - rewrite Hd in Hx. injection Hx as <- <- <-. do 3 eexists. rewrite attached_d. split; [done|].
    rewrite ecount_insert by done. by rewrite decide_False by congruence.
  - destruct (decide (x = c)) as [->|Hxc].
    + rewrite Hc in Hx. injection Hx as Hs. do 3 eexists. rewrite attached_c, Hs. by split.
    + do 3 eexists. rewrite attached_other by done. by split.
Qed.
End attach.

(** The way up from [d] avoids [c]. *)
Definition clear_of (t : tree) (c d : N) : Prop := climbs (delete c t) None d.

Lemma attached_climbs t c d p es n name s x :
  ok_but (Some c) t → t !! d = Some (SDir p es n) → t !! c = Some s → c ≠ d →
  (is_sdir (Some s) = true → clear_of t c d) →
  is_sdir (t !! x) = true → climbs (attached t c d p es n name s) None x.
Proof.
  intros Hok Hd Hc Hcd Hclear Hx. set (t' := attached _ _ _ _ _ _ _ _).
  assert (∀ y q es1 n1, y ≠ c → t !! y = Some (SDir q es1 n1) → climbs t' None q → climbs t' None y) as Hup.
  { intros y q es1 n1 Hy Hl Hq. destruct (decide (y = d)) as [->|Hyd].
    - rewrite Hd in Hl. injection Hl as <- <- <-. eapply climb_up; [by apply attached_d|done].
    - eapply climb_up; [|done]. unfold t'. by rewrite attached_other. }
  destruct (is_sdir (Some s)) eqn:Hs.
  - assert (climbs t' None d) as Hcd'.
    { apply (climbs_mono (delete c t) t' None); [|done|by apply Hclear].
      intros y q es1 n1 [Hy Hl]%lookup_delete_Some _ Hq. by eapply Hup. }
    assert (climbs t' None c) as Hcc.
    { destruct s as [q es1 n1|]; [|done].
      by apply (climb_up _ _ _ d es1 n1); [apply (attached_c t c d p es n name (SDir q es1 n1))|]. }
    apply (climbs_mono t t' (Some c)); [|by intros ? [= <-]|by apply Hok].
    intros y q es1 n1 Hy _ Hq. destruct (decide (y = c)) as [->|]; [done|]. by eapply Hup.
  - assert (climbs t (Some c) x) as Hcl by (by apply Hok). revert Hx.
    induction Hcl as [|c' [= <-]|y q es1 n1 Hy Hq IH]; [constructor|by rewrite Hc, Hs|].
    intros _. destruct (decide (y = ROOT)) as [->|Hyr]; [constructor|].
    assert (y ≠ c) as Hyc by (intros ->; rewrite Hc in Hy; injection Hy as ->; done).
    eapply Hup; [done..|]. apply IH. eapply (parent_is_dir (Some c) t Hok); [done..|congruence].
Qed.

Lemma attach_ok t c d p es n name s :
  ok_but (Some c) t → t !! d = Some (SDir p es n) → es !! name = None → t !! c = Some s → c ≠ d →
  (is_sdir (Some s) = true → clear_of t c d) →
  tree_ok (attach d name c t).
Proof.
  intros Hok Hd He Hc Hcd Hclear. rewrite (attach_eq t c d p es n name s) by done.
  set (t' := attached _ _ _ _ _ _ _ _).
  assert (∀ x, is_sdir (t' !! x) = is_sdir (t !! x)) as Hsd by (intros; by apply attached_sdir).
  split.
  - destruct (ob_root _ t Hok) as (es0 & n0 & H0 & Hr). destruct (decide (d = ROOT)) as [->|Hne].
    + rewrite Hd in H0. injection H0 as -> -> ->. do 2 eexists. split; [by apply attached_d|done].
    + exists es0, n0. split; [|done]. unfold t'. by rewrite attached_other by congruence.
  - intros x p1 es1 n1 name1 c1 Hx H1.
    destruct (attached_entry t c Hok d p es n name s Hd He Hc Hcd _ _ _ _ _ _ Hx H1) as (y & Hy & Hp).
    exists y. split; [done|]. intros p2 es2 n2 E. by destruct (Hp _ _ _ E).
  - intros x p1 es1 n1 Hx Hxr _.
    destruct (attached_dir t c d p es n name s Hd Hc Hcd _ _ _ _ Hx) as (p0 & es0 & n0 & Hx0 & Hp1 & Hes).
    destruct (decide (x = c)) as [->|Hxc]; subst p1.
    + do 3 eexists. split; [by apply attached_d|]. rewrite ecount_insert, decide_True by done.
      rewrite (proj2 (ecount_zero c es)); [done|]. intros name1. eapply (hole_unnamed t c Hok s Hc); [|exact Hd].
      rewrite Hc in Hx0. by injection Hx0 as ->.
    + destruct (ob_named _ t Hok _ _ _ _ Hx0 Hxr) as (pp & es2 & n2 & Hp & Hcnt); [congruence|].
      destruct (attached_ecount t c d p es n name s Hd He Hc Hcd _ x _ _ _ Hp Hxc) as (? & ? & ? & ? & ?).
      do 3 eexists. split; [done|]. congruence.
  - intros x m Hx. unfold t' in *. rewrite (attached_links t c d p es n name s) by done.
    destruct (decide (c = x)) as [<-|Hxc].
    + rewrite (attached_c t c d p es n name s) in Hx by done. destruct s as [|k]; [done|]. injection Hx as <-.
      destruct (ob_leaf _ t Hok _ _ Hc) as [-> _]. split; [lia|]. intros _. lia.
    + assert (x ≠ d) by (intros ->; by rewrite attached_d in Hx).
      rewrite attached_other in Hx by done. destruct (ob_leaf _ t Hok _ _ Hx) as [-> H1].
      split; [lia|]. intros _. apply H1. congruence.
  - intros x p1 es1 n1 Hx. rewrite (subdirs_ext _ t) by (intros; apply Hsd).
    destruct (decide (x = d)) as [->|Hxd].
    + unfold t' in Hx. rewrite attached_d in Hx. injection Hx as <- <- <-.
      rewrite (ob_dir _ t Hok _ _ _ _ Hd), subdirs_insert, Hc by done. destruct s; simpl; lia.
    + destruct (attached_dir t c d p es n name s Hd Hc Hcd _ _ _ _ Hx) as (p0 & es0 & n0 & Hx0 & _ & ->).
      rewrite decide_False by done. rewrite <- (ob_dir _ t Hok _ _ _ _ Hx0).
      destruct (decide (x = c)) as [->|Hxc].
      * unfold t' in Hx. rewrite attached_c in Hx by done. rewrite Hc in Hx0. injection Hx0 as ->. by injection Hx as _ _.
      * unfold t' in Hx. rewrite attached_other in Hx by done. congruence.
  - intros x Hx. rewrite Hsd in Hx. by apply attached_climbs.
Qed.

(** ** Dropping an unnamed node *)

Lemma drop_ok t c s :
  ok_but (Some c) t → t !! c = Some s → (∀ x, node_links x s = 0%nat) →
  (is_sdir (Some s) = false → links t c = 0%nat) → tree_ok (delete c t).
Proof.
  intros Hok Hc Hs Hl.
  assert (∀ d p es n name, t !! d = Some (SDir p es n) → es !! name ≠ Some c) as Hno.
  { intros d p es n name Hd He. destruct (is_sdir (Some s)) eqn:Hsd.
    - by eapply (hole_unnamed t c Hok s Hc).
    - specialize (Hl eq_refl). pose proof (links_pos t _ _ _ _ _ _ Hd He). lia. }
  assert (∀ x p es n, t !! x = Some (SDir p es n) → x ≠ ROOT → x ≠ c → p ≠ c) as Hpar.
  { intros x p es n Hx Hxr Hxc ->. destruct (ob_named _ t Hok _ _ _ _ Hx Hxr) as (pp & es' & n' & Hp & H1); [congruence|].
    rewrite Hc in Hp. injection Hp as ->. specialize (Hs x). simpl in Hs. lia. }
  assert (∀ x, links (delete c t) x = links t x) as Hlk.
  { intros x. rewrite (links_delete t c s x Hc), Hs. done. }
  assert (∀ d p es n, t !! d = Some (SDir p es n) → subdirs (delete c t) es = subdirs t es) as Hsub.
  { intros d p es n Hd. apply subdirs_ext. intros name x He. rewrite lookup_delete_ne; [done|]. intros <-. by eapply Hno. }
  split.
  - destruct (ob_root _ t Hok) as (es0 & n0 & H0 & Hr). exists es0, n0. split; [|done].
    rewrite lookup_delete_ne; [done|congruence].
  - intros d p es n name x [Hdc Hd]%lookup_delete_Some He.
    destruct (ob_entry _ t Hok _ _ _ _ _ _ Hd He) as (y & Hy & Hp). exists y.
    rewrite lookup_delete_ne by (intros <-; by eapply Hno). split; [done|]. intros p2 es2 n2 E.
    by destruct (Hp _ _ _ E) as (? & ? & _).
  - intros x p es n [Hxc Hx]%lookup_delete_Some Hxr _.
    destruct (ob_named _ t Hok _ _ _ _ Hx Hxr) as (pp & es' & n' & Hp & H1); [congruence|].
    exists pp, es', n'. rewrite lookup_delete_ne; [done|]. intros <-.
    exact (Hpar _ _ _ _ Hx Hxr (not_eq_sym Hxc) eq_refl).
  - intros x m [Hxc Hx]%lookup_delete_Some. rewrite Hlk. destruct (ob_leaf _ t Hok _ _ Hx) as [? H1].
    split; [done|]. intros _. apply H1. congruence.
  - intros d p es n [Hdc Hd]%lookup_delete_Some. rewrite (Hsub _ _ _ _ Hd). by eapply (ob_dir _ t Hok).
  - intros x Hx. destruct (decide (x = c)) as [->|Hxc]; [by rewrite lookup_delete_eq in Hx|].
    rewrite lookup_delete_ne in Hx by done. pose proof (ob_climbs _ t Hok x Hx) as Hcl. clear Hx.
    induction Hcl as [|c' [= <-]|y q es1 n1 Hy Hq IH]; [constructor|done|].
    destruct (decide (y = ROOT)) as [->|Hyr]; [constructor|].
    eapply climb_up; [by rewrite lookup_delete_ne|]. apply IH. by eapply Hpar.
Qed.

(** A leaf that still has a name is in its place. *)
Lemma leaf_ok t c m : ok_but (Some c) t → t !! c = Some (SLeaf m) → 1 <= m → tree_ok t.
Proof.
  intros Hok Hc Hm. split.
  - destruct (ob_root _ t Hok) as (es0 & n0 & H0 & Hr). by exists es0, n0.
  - intros d p es n name x Hd He. destruct (ob_entry _ t Hok _ _ _ _ _ _ Hd He) as (y & Hy & Hp).
    exists y. split; [done|]. intros p2 es2 n2 E. by destruct (Hp _ _ _ E) as (? & ? & _).
  - intros x p es n Hx Hxr _. eapply (ob_named _ t Hok); [done..|]. intros [= ->]. congruence.
  - intros x k Hx. destruct (ob_leaf _ t Hok _ _ Hx) as [? H1]. split; [done|]. intros _.
    destruct (decide (x = c)) as [->|]; [congruence|apply H1; congruence].
  - apply (ob_dir _ t Hok).
  - intros x Hx. assert (climbs t (Some c) x) as Hcl by (by apply Hok). revert Hx.
    induction Hcl as [|c' [= <-]|y q es1 n1 Hy Hq IH]; [constructor|by rewrite Hc|].
    intros _. destruct (decide (y = ROOT)) as [->|Hyr]; [constructor|].
    eapply climb_up; [done|]. apply IH. eapply (parent_is_dir (Some c) t Hok); [done..|congruence].
Qed.

(** ** The namespace operations *)

Definition create (d : N) (name : string) (i : N) (s : node) (t : tree) : tree :=
  attach d name i (<[i := s]> t).

(** Take the name [name] of [c] out of [d], and [c] with it when it was the last. *)
Definition remove (d : N) (name : string) (c : N) (t : tree) : tree :=
  let t' := detach d name c t in
  match t' !! c with
  | Some (SDir _ _ _) => delete c t'
  | Some (SLeaf n) => if n =? 0 then delete c t' else t'
  | None => t'
  end.

Definition move (p : N) (name : string) (np : N) (nname : string) (src : N) (dst : option N) (t : tree) : tree :=
  let t := match dst with Some x => remove np nname x t | None => t end in
  attach np nname src (detach p name src t).

(** What [detach] leaves. *)
Lemma detach_lookup t d p es n name c s :
  t !! d = Some (SDir p es n) → t !! c = Some s → c ≠ d →
  detach d name c t !! d = Some (SDir p (delete name es) (n - if is_sdir (Some s) then 1 else 0)) ∧
  detach d name c t !! c = Some (match s with SDir _ _ _ => s | SLeaf m => SLeaf (m - 1) end) ∧
  ∀ x, x ≠ d → x ≠ c → detach d name c t !! x = t !! x.
Proof.
  intros Hd Hc Hcd. unfold detach, del_entry. rewrite Hc. destruct s as [p' es' n'|m].
  - rewrite Hd. split_and!; [apply lookup_insert_eq|by rewrite lookup_insert_ne|].
    intros. by rewrite lookup_insert_ne.
  - rewrite lookup_insert_ne, Hd by done. split_and!; [apply lookup_insert_eq| |].
    + rewrite lookup_insert_ne by done. apply lookup_insert_eq.
    + intros. by rewrite !lookup_insert_ne.
Qed.

Lemma create_ok t d p es n name i s :
  tree_ok t → t !! d = Some (SDir p es n) → es !! name = None → t !! i = None → unnamed s →
  tree_ok (create d name i s t).
Proof.
  intros Hok Hd He Hi Hs. assert (i ≠ d) as Hid by congruence.
  eapply (attach_ok _ i d p es n); [by apply add_node_ok|by rewrite lookup_insert_ne|done| |done|].
  - apply lookup_insert_eq.
  - intros _. unfold clear_of. rewrite delete_insert_id by done. apply Hok. by rewrite Hd.
Qed.

Lemma link_ok t d p es n name c m :
  tree_ok t → t !! d = Some (SDir p es n) → es !! name = None → t !! c = Some (SLeaf m) →
  tree_ok (attach d name c t).
Proof.
  intros Hok Hd He Hc. eapply (attach_ok _ c d p es n); [|done..|congruence|done].
  destruct Hok as [Hr Hen Hna Hle Hdi Hcl]. split.
  - destruct Hr as (es0 & n0 & H0 & _). exists es0, n0. split; [done|congruence].
  - intros d1 p1 es1 n1 name1 c1 Hd1 H1. destruct (Hen _ _ _ _ _ _ Hd1 H1) as (y & Hy & Hp).
    exists y. split; [done|]. intros p2 es2 n2 E. destruct (Hp _ _ _ E) as (? & ? & _). split_and!; [done..|congruence].
  - intros c1 p1 es1 n1 Hc1 Hr1 _. by eapply Hna.
  - intros c1 k Hc1. destruct (Hle c1 k Hc1) as [? H1]. split; [done|]. intros _. by apply H1.
  - done.
  - intros x Hx. apply (climbs_mono t t None); [|done|auto]. intros. by eapply climb_up.
Qed.

(** A directory does not contain itself. *)
Lemma no_self_entry t d p es n name : tree_ok t → t !! d = Some (SDir p es n) → es !! name ≠ Some d.
Proof.
  intros Hok Hd He. destruct (dir_namer None t Hok _ _ _ _ _ _ _ _ _ Hd He Hd) as (-> & Hr & _).
  assert (climbs t None d) as Hcl by (apply Hok; by rewrite Hd).
  induction Hcl as [|c Hc|x q es1 n1 Hx Hq IH]; [done|done|].
  rewrite Hd in Hx. injection Hx as <- <- <-. auto.
Qed.

Lemma remove_ok t d p es n name c s :
  tree_ok t → t !! d = Some (SDir p es n) → es !! name = Some c → t !! c = Some s →
  (∀ x, node_links x s = 0%nat) → tree_ok (remove d name c t).
Proof.
  intros Hok Hd He Hc Hs. assert (c ≠ d) as Hcd by (intros ->; by eapply no_self_entry).
  destruct (detach_lookup t d p es n name c s Hd Hc Hcd) as (_ & Hc' & _).
  unfold remove. rewrite Hc'. destruct s as [p' es' n'|m].
  - eapply (drop_ok _ c); [eapply detach_dir_ok; [done..|by rewrite Hc]|done|done|done].
  - assert (ok_but (Some c) (detach d name c t)) as Hob by (by eapply detach_leaf_ok).
    destruct (N.eqb_spec (m - 1) 0) as [Hz|Hz].
    + eapply (drop_ok _ c); [done..|]. intros _. destruct (ob_leaf _ _ Hob _ _ Hc') as [Hl _]. lia.
    + eapply leaf_ok; [done..|lia].
Qed.

(** ** Moving *)

Inductive tabove (t : tree) (a : N) : N → Prop :=
| tabove_refl : tabove t a a
| tabove_step d p es n : d ≠ ROOT → t !! d = Some (SDir p es n) → tabove t a p → tabove t a d.

(** Every directory has the parent it had. *)
Definition sub_parents (t' t : tree) : Prop :=
  ∀ x p es n, t' !! x = Some (SDir p es n) → ∃ es0 n0, t !! x = Some (SDir p es0 n0).

Lemma tabove_mono t' t a d : sub_parents t' t → tabove t' a d → tabove t a d.
Proof.
  intros Hs. induction 1 as [|d p es n Hr Hd _ IH]; [constructor|].
  destruct (Hs _ _ _ _ Hd) as (es0 & n0 & H0). by eapply tabove_step.
Qed.

Lemma clear_of_above t c d : climbs t None d → ¬ tabove t c d → clear_of t c d.
Proof.
  induction 1 as [|x Hx|d p es n Hd Hp IH]; intros Hn; [constructor|done|].
  destruct (decide (d = ROOT)) as [->|Hr]; [constructor|].
  eapply climb_up; [rewrite lookup_delete_ne; [exact Hd|]|].
  - intros ->. apply Hn. constructor.
  - apply IH. intros Ha. apply Hn. by eapply tabove_step.
Qed.

Lemma detach_sub_parents t d p es n name c s :
  t !! d = Some (SDir p es n) → t !! c = Some s → c ≠ d → sub_parents (detach d name c t) t.
Proof.
  intros Hd Hc Hcd x q es1 n1 Hx. destruct (detach_lookup t d p es n name c s Hd Hc Hcd) as (H1 & H2 & H3).
  destruct (decide (x = d)) as [->|]; [rewrite H1 in Hx; injection Hx as <- <- <-; eauto|].
  destruct (decide (x = c)) as [->|]; [|rewrite H3 in Hx by done; eauto].
  rewrite H2 in Hx. destruct s; [|done]. injection Hx as -> -> ->. eauto.
Qed.

Lemma clear_of_mono t t' c d :
  (∀ x p es n, x ≠ c → t !! x = Some (SDir p es n) → ∃ es0 n0, t' !! x = Some (SDir p es0 n0)) →
  clear_of t c d → clear_of t' c d.
Proof.
  intros Hs. apply climbs_mono; [|done]. intros x p es n [Hx Hl]%lookup_delete_Some _ Hc.
  destruct (Hs x p es n) as (es0 & n0 & H0); [done..|]. eapply climb_up; [by rewrite lookup_delete_ne|done].
Qed.

Lemma remove_lookup t d p es n name c s :
  t !! d = Some (SDir p es n) → t !! c = Some s → c ≠ d →
  remove d name c t !! d = Some (SDir p (delete name es) (n - if is_sdir (Some s) then 1 else 0)) ∧
  (∀ x, x ≠ d → x ≠ c → remove d name c t !! x = t !! x) ∧ sub_parents (remove d name c t) t.
Proof.
  intros Hd Hc Hcd. pose proof (detach_sub_parents t d p es n name c s Hd Hc Hcd) as Hsub.
  destruct (detach_lookup t d p es n name c s Hd Hc Hcd) as (H1 & H2 & H3).
  unfold remove. rewrite H2. set (t' := detach d name c t) in *.
  assert (sub_parents (delete c t') t) as Hsub'.
  { intros x q es1 n1 [_ Hx]%lookup_delete_Some. by eapply Hsub. }
  assert (delete c t' !! d = t' !! d) as Hdd by (by rewrite lookup_delete_ne).
  assert (∀ x, x ≠ d → x ≠ c → delete c t' !! x = t !! x) as Hxx
    by (intros; rewrite lookup_delete_ne; auto).
  destruct s as [p' es' n'|m]; [|destruct (m - 1 =? 0)]; split_and!; by rewrite ?Hdd.
Qed.

Lemma relocate_ok t p pp es n name src s np pq es' n' nname :
  tree_ok t → t !! p = Some (SDir pp es n) → es !! name = Some src → t !! src = Some s →
  t !! np = Some (SDir pq es' n') → es' !! nname = None →
  (is_sdir (Some s) = true → ¬ tabove t src np) →
  tree_ok (attach np nname src (detach p name src t)).
Proof.
  intros Hok Hp He Hs Hnp He' Habove.
  assert (src ≠ p) as Hsp by (intros ->; exact (no_self_entry _ _ _ _ _ _ Hok Hp He)).
  assert (src ≠ np) as Hsn.
  { intros ->. rewrite Hs in Hnp. injection Hnp as ->. by destruct (Habove eq_refl (tabove_refl t np)). }
  destruct (detach_lookup t p pp es n name src s Hp Hs Hsp) as (H1 & H2 & H3).
  assert (ok_but (Some src) (detach p name src t)) as Hob.
  { destruct s as [p' e' k|m]; [eapply detach_dir_ok; [done..|by rewrite Hs]|by eapply detach_leaf_ok]. }
  assert (∃ es2 n2, detach p name src t !! np = Some (SDir pq es2 n2) ∧ es2 !! nname = None) as (es2 & n2 & Hnp2 & He2).
  { destruct (decide (np = p)) as [->|Hne].
    - rewrite Hp in Hnp. injection Hnp as -> -> ->. do 2 eexists. split; [done|]. apply lookup_delete_None. by right.
    - exists es', n'. split; [by rewrite H3|done]. }
  eapply (attach_ok _ src np pq es2 n2); [done..|]. intros Hsd.
  apply (clear_of_mono t).
  - intros x q es1 n1 Hx Hl. destruct (decide (x = p)) as [->|Hxp].
    + rewrite Hp in Hl. injection Hl as <- <- <-. eauto.
    + exists es1, n1. by rewrite H3.
  - apply clear_of_above; [apply Hok; by rewrite Hnp|]. apply Habove. by destruct s.
Qed.

Lemma move_ok t p pp es n name src s np pq es' n' nname dst :
  tree_ok t → t !! p = Some (SDir pp es n) → es !! name = Some src → t !! src = Some s →
  t !! np = Some (SDir pq es' n') → es' !! nname = dst → dst ≠ Some src →
  (is_sdir (Some s) = true → ¬ tabove t src np) →
  (∀ x, dst = Some x → ∃ sx, t !! x = Some sx ∧ ∀ y, node_links y sx = 0%nat) →
  tree_ok (move p name np nname src dst t).
Proof.
  intros Hok Hp He Hs Hnp Hdst Hne Habove Hrep. unfold move. destruct dst as [x|].
  2:{ by eapply relocate_ok. }
  destruct (Hrep x eq_refl) as (sx & Hx & Hnl).
  assert (x ≠ np) as Hxn by (intros ->; exact (no_self_entry _ _ _ _ _ _ Hok Hnp Hdst)).
  assert (x ≠ p) as Hxp.
  { intros ->. rewrite Hp in Hx. injection Hx as <-. specialize (Hnl src). simpl in Hnl.
    apply ecount_elem in He. lia. }
  destruct (remove_lookup t np pq es' n' nname x sx Hnp Hx Hxn) as (H1 & H2 & H3).
  assert (tree_ok (remove np nname x t)) as Hok1 by (by eapply remove_ok).
  assert (∃ es1 n1, remove np nname x t !! p = Some (SDir pp es1 n1) ∧ es1 !! name = Some src) as (es1 & n1 & Hp1 & He1).
  { destruct (decide (p = np)) as [->|Hpn].
    - rewrite Hp in Hnp. injection Hnp as -> -> ->. do 2 eexists. split; [done|].
      rewrite lookup_delete_ne by congruence. done.
    - exists es, n. split; [by rewrite H2|done]. }
  assert (src ≠ np) as Hsn.
  { intros ->. rewrite Hs in Hnp. injection Hnp as ->. by destruct (Habove eq_refl (tabove_refl t np)). }
  eapply relocate_ok; [done|exact Hp1|exact He1|rewrite H2 by congruence; exact Hs|exact H1|apply lookup_delete_eq|].
  intros Hsd Ha. by eapply Habove, tabove_mono.
Qed.

End Tree.
