(* ===== verification/Namespace.v ===== *)
(** * The file and directory namespace ([namespace.rs])

    Each branch of [Catalog::apply_fs] as an operation on the catalog, with the
    helpers it calls; the replication branches are in [Replica.v]. *)

From Stdlib Require Import Ascii.
From S2P Require Import Prelude MetaError Leases Acl Catalog Extents FsTree.

Module Namespace.
Import Catalog Extents FsTree.

Open Scope N_scope.

(** ** Helpers *)

Definition filesystem (self : Catalog) (fs : FsId) : res MetaError FsMeta :=
  ok_or (filesystems self !! fs) NotFound.

(** A live filesystem, or [fs@snapshot]. *)
Definition fs_view (self : Catalog) (fs : string) : res MetaError FsMeta :=
  match split_once "@"%char fs with
  | None => filesystem self fs
  | Some (fs, snap) =>
      match fs_snapshots self !! snap with
      | Some s => if String.eqb (sn_fs_id s) fs then Ok (sn_tree s) else Err NotFound
      | None => Err NotFound
      end
  end.

(** Read the catalog. *)
Definition look {A} (f : Catalog → res MetaError A) : M A := sm_try (λ s, f (cat s)).

(** Work on what [fs_mut] returns; its changes stay also after an error. *)
Definition on_fs {A} (fs : FsId) (m : SM FsMeta MetaError A) : M A := λ s,
  match filesystems (cat s) !! fs with
  | None => (s, Err NotFound)
  | Some f =>
      let '(f', r) := m f in
      (s <| cat ::= λ c, c <| filesystems ::= <[fs := f']> |> |>, r)
  end.

(** [InodeTable::scan]: every inode in order. *)
Definition scan (self : FsMeta) : list Inode := bt_values (inodes self).

Definition drop_inode (i : Inode) : M () :=
  match kind i with
  | File _ m => sm_for (bt_values m) dec_ref
  | _ => mret ()
  end.

Definition share_extents (tree : FsMeta) : M () := sm_for (file_extents (scan tree)) inc_ref.

(** [iter().sum::<u64>()]. *)
Definition sum_u64 (l : list N) : N := foldr u64_add 0 l.

Definition check_byte_quota (self : Catalog) (fs : FsId) (i : N) (new : list (N * N)) :
    res MetaError () :=
  f ← filesystem self fs;
  match quota f ≫= max_bytes, usage f with
  | Some max, Some u =>
      x ← inode f i;
      match kind x with
      | File _ m =>
          let freed := sum_u64 (extent_len self <$> omap (λ n : N * N, m !! n.1) new) in
          let added := sum_u64 (new.*2) in
          if added <=? freed then Ok ()
          else
            let after := u64_add (used_bytes u) added - freed in
            reject_if (max <? after) Quota
      | _ => Ok ()
      end
  | _, _ => Ok ()
  end.

(** Change what [usage_mut] returns, if the filesystem keeps it. *)
Definition edit_usage (fs : FsId) (g : FsUsage → FsUsage) (self : Catalog) : Catalog :=
  match filesystems self !! fs with
  | Some f =>
      match usage f with
      | Some u => self <| filesystems ::= <[fs := f <| usage := Some (g u) |>]> |>
      | None => self
      end
  | None => self
  end.

Definition forget_usage (fs : FsId) (i : Inode) (self : Catalog) : Catalog :=
  match kind i with
  | File n m =>
      let used := sum_u64 (extent_len self <$> bt_values m) in
      edit_usage fs (λ u, u <| file_bytes ::= λ b, b - n |> <| used_bytes ::= λ b, b - used |>) self
  | _ => self
  end.

Definition count_usage (self : Catalog) (f : FsMeta) : FsUsage :=
  let all := scan f in
  mkFsUsage (sum_u64 (size <$> base.filter (λ i, node_type i = NFile) all))
            (sum_u64 (extent_len self <$> file_extents all)).

Definition fill_usage (self : Catalog) : Catalog :=
  let fs := (λ f, (f_id f, count_usage self f))
              <$> base.filter (λ f, usage f = None) (bt_values (filesystems self)) in
  let self := foldl (λ c (x : FsId * FsUsage),
    match filesystems c !! x.1 with
    | Some f => c <| filesystems ::= <[x.1 := f <| usage := Some (x.2) |>]> |>
    | None => c
    end) self fs in
  let snaps := (λ s, (sn_id s, count_usage self (sn_tree s)))
                 <$> base.filter (λ s, usage (sn_tree s) = None) (bt_values (fs_snapshots self)) in
  foldl (λ c (x : SnapshotId * FsUsage),
    match fs_snapshots c !! x.1 with
    | Some s => c <| fs_snapshots ::= <[x.1 := s <| sn_tree ::= λ f, f <| usage := Some (x.2) |> |>]> |>
    | None => c
    end) self snaps.

(** ** Filesystems *)

Definition new_root (now : Z) : Inode := Inode_new ROOT_INO (Dir ROOT_INO ∅) 493 0 0 now.

Definition new_fs (fs : FsId) (name : string) (now : Z) (grid : option N) (r : option ReplicaState) :
    FsMeta :=
  mkFsMeta fs name (ROOT_INO + 1) {[ROOT_INO := new_root now]} None grid (Some (mkFsUsage 0 0)) None r.

Definition create_fs (fs : FsId) (name : string) (now : Z) (grid : option N) : M () :=
  if bool_decide (grid = Some 0) then sm_err Invalid
  else
    s ← sm_get;
    match filesystems (cat s) !! fs with
    | Some f => if String.eqb (f_name f) name then mret () else sm_err Exists
    | None => edit (λ c, c <| filesystems ::= <[fs := new_fs fs name now grid None]> |>)
    end.

Definition delete_fs (fs : FsId) : M () :=
  f ← look (λ c, filesystem c fs);
  let all := scan f in
  edit (λ c, c <| filesystems ::= delete fs |>) ;;
  edit (λ c, c <| leases ::= λ l, Leases.forget_fs l fs |>) ;;
  sm_for all drop_inode.

(** ** Directory entries *)

Definition new_kind (t : NodeType) (parent : N) (target : option string) (rdev : N) :
    res MetaError InodeKind :=
  match t with
  | NFile => Ok (File 0 ∅)
  | NDir => Ok (Dir parent ∅)
  | NSymlink =>
      match target with
      | Some t =>
          if negb (String.eqb t EmptyString) && (strlen t <=? MAX_SYMLINK_BYTES)
          then Ok (Symlink t) else Err Invalid
      | None => Err Invalid
      end
  | t => Ok (Special t rdev)
  end.

Definition extend {V} (m : gmap string V) (l : list (string * V)) : gmap string V :=
  foldl (λ m x, <[x.1 := x.2]> m) m l.

Definition mknode_in (parent : N) (name id : string) (t : NodeType) (target : option string)
    (rdev m : N) (create_mode : option N) (u g : N) (now : Z) : SM FsMeta MetaError () :=
  existing ← sm_try (λ f, entry f parent name);
  match existing with
  | Some e =>
      if negb (String.eqb id EmptyString)
      then x ← sm_try (λ f, inode f e); if String.eqb (op_id x) id then mret () else sm_err Exists
      else sm_err Exists
  | None =>
      sm_try check_inode_quota ;;
      ma ← sm_try (λ f, inherit_acls f parent t m create_mode);
      let '(m, acls) := ma in
      k ← sm_lift (new_kind t parent target rdev);
      i ← sm_reads next_ino;
      sm_modify (λ f, f <| next_ino ::= λ n, u64_add n 1 |>) ;;
      let x := (Inode_new i k m u g now) <| op_id := id |> <| xattrs ::= λ a, extend a acls |> in
      sm_modify (λ f, f <| inodes ::= <[ino x := x]> |>) ;;
      set_entry parent name (Some i) ;;
      dir_changed parent (if is_dir x then 1 else 0) now
  end.

Definition mknode (fs : FsId) (parent : N) (name id : string) (t : NodeType)
    (target : option string) (rdev m : N) (create_mode : option N) (u g : N) (now : Z) : M () :=
  sm_lift (check_name name) ;;
  on_fs fs (mknode_in parent name id t target rdev m create_mode u g now).

Definition link_in (i parent : N) (name : string) (now : Z) : SM FsMeta MetaError () :=
  x ← sm_try (λ f, inode f i);
  if is_dir x then sm_err IsDir
  else
    existing ← sm_try (λ f, entry f parent name);
    match existing with
    | Some e => if e =? i then mret () else sm_err Exists
    | None =>
        set_entry parent name (Some i) ;;
        dir_changed parent 0 now ;;
        edit_inode i (λ x, x <| nlink ::= λ n, u32_add n 1 |> <| ctime_ns := now |>)
    end.

Definition link (fs : FsId) (i parent : N) (name : string) (now : Z) : M () :=
  sm_lift (check_name name) ;; on_fs fs (link_in i parent name now).

Definition unlink_in (parent : N) (name : string) (now : Z) : SM FsMeta MetaError (option Inode) :=
  i ← sm_try (λ f, lookup f parent name);
  x ← sm_try (λ f, inode f i);
  if is_dir x then sm_err IsDir
  else
    set_entry parent name None ;;
    dir_changed parent 0 now ;;
    drop_link i now.

(** The end of [Unlink] and [Rename]: release an inode that lost its last link. *)
Definition drop_gone (fs : FsId) (gone : option Inode) : M () :=
  match gone with
  | Some x => edit (forget_usage fs x) ;; drop_inode x
  | None => mret ()
  end.

Definition unlink (fs : FsId) (parent : N) (name : string) (now : Z) : M () :=
  gone ← on_fs fs (unlink_in parent name now); drop_gone fs gone.

Definition rmdir_in (parent : N) (name : string) (now : Z) : SM FsMeta MetaError () :=
  i ← sm_try (λ f, lookup f parent name);
  x ← sm_try (λ f, dir f i);
  if negb (size x =? 0) then sm_err NotEmpty
  else
    set_entry parent name None ;;
    dir_changed parent (-1) now ;;
    sm_modify (λ f, f <| inodes ::= delete i |>).

Definition rmdir (fs : FsId) (parent : N) (name : string) (now : Z) : M () :=
  on_fs fs (rmdir_in parent name now).

(** What [Rename] does to a target that exists: the checks, then its removal. *)
Definition replace_target (dst new_parent : N) (new_name : string) (src_dir : bool) (now : Z) :
    SM FsMeta MetaError (option Inode) :=
  x ← sm_try (λ f, inode f dst);
  let dst_dir := is_dir x in
  match src_dir, dst_dir with
  | true, false => sm_err NotDir
  | false, true => sm_err IsDir
  | _, _ =>
      (if src_dir && dst_dir
       then d ← sm_try (λ f, dir f dst); if negb (size d =? 0) then sm_err NotEmpty else mret ()
       else mret ()) ;;
      set_entry new_parent new_name None ;;
      if dst_dir
      then
        sm_modify (λ f, f <| inodes ::= delete dst |>) ;;
        dir_changed new_parent (-1) now ;;
        mret None
      else drop_link dst now
  end.

Definition set_parent (p : N) (k : InodeKind) : InodeKind :=
  match k with Dir _ es => Dir p es | k => k end.

(** The move itself, once the target's place is free. *)
Definition move_entry (parent : N) (name : string) (new_parent : N) (new_name : string) (src : N)
    (src_dir : bool) (now : Z) : SM FsMeta MetaError () :=
  set_entry parent name None ;;
  set_entry new_parent new_name (Some src) ;;
  let moved := if src_dir && negb (parent =? new_parent) then 1%Z else 0%Z in
  dir_changed parent (- moved) now ;;
  dir_changed new_parent moved now ;;
  edit_inode src (λ x, x <| ctime_ns := now |> <| kind ::= set_parent new_parent |>).

Definition rename_in (parent : N) (name : string) (new_parent : N) (new_name : string) (now : Z) :
    SM FsMeta MetaError (option Inode) :=
  src ← sm_try (λ f, lookup f parent name);
  dst ← sm_try (λ f, entry f new_parent new_name);
  if bool_decide (dst = Some src) then mret None
  else
    s ← sm_try (λ f, inode f src);
    let src_dir := is_dir s in
    within ← (if src_dir then sm_try (λ f, is_within f new_parent src) else mret false);
    if (within : bool) then sm_err Invalid
    else
      dropped ← match dst with
                | Some d => replace_target d new_parent new_name src_dir now
                | None => mret None
                end;
      move_entry parent name new_parent new_name src src_dir now ;;
      mret dropped.

Definition rename (fs : FsId) (parent : N) (name : string) (new_parent : N) (new_name : string)
    (now : Z) : M () :=
  sm_lift (check_name new_name) ;;
  gone ← on_fs fs (rename_in parent name new_parent new_name now);
  drop_gone fs gone.

(** ** Attributes *)

(** The resize of [SetAttr]: the inode, the extents cut off and the sizes. *)
Definition resize_file (n : N) (now : Z) (x : Inode) :
    res MetaError (Inode * gmap N ExtentId * option (N * N)) :=
  match kind x with
  | File sz m =>
      let kept := if n <? sz then base.filter (λ e : N * ExtentId, e.1 < n) m else m in
      let cut := if n <? sz then base.filter (λ e : N * ExtentId, n <= e.1) m else ∅ in
      if n =? sz then Ok (x <| kind := File sz kept |>, cut, None)
      else Ok (x <| kind := File n kept |> <| mtime_ns := now |>, cut, Some (sz, n))
  | _ => Err IsDir
  end.

(** The fields [SetAttr] overwrites. *)
Definition overwrite (attr : SetAttr) (acl : option bytes) (now : Z) (x : Inode) : Inode :=
  let x := match a_mode attr with Some m => x <| mode := N.land m 4095 |> | None => x end in
  let x := match acl with Some a => x <| xattrs ::= <[Acl.ACCESS := a]> |> | None => x end in
  let x := match a_uid attr with Some u => x <| uid := u |> | None => x end in
  let x := match a_gid attr with Some g => x <| gid := g |> | None => x end in
  let x := match a_atime_ns attr with Some t => x <| atime_ns := t |> | None => x end in
  let x := match a_mtime_ns attr with Some t => x <| mtime_ns := t |> | None => x end in
  x <| ctime_ns := now |>.

Definition chmod_acl (attr : SetAttr) (x : Inode) : res MetaError (option bytes) :=
  match a_mode attr, xattrs x !! Acl.ACCESS with
  | Some m, Some raw => a ← Acl.parse raw; Ok (Some (Acl.encode (Acl.chmod a m)))
  | _, _ => Ok None
  end.

Definition set_attr_in (i : N) (attr : SetAttr) (now : Z) :
    SM FsMeta MetaError (gmap N ExtentId * option (N * N)) :=
  x ← sm_try (λ f, inode f i);
  acl ← sm_lift (chmod_acl attr x);
  r ← sm_lift (match a_size attr with
               | Some n => resize_file n now x
               | None => Ok (x, ∅, None)
               end);
  let '(x, cut, resized) := r in
  sm_modify (λ f, f <| inodes ::= <[i := overwrite attr acl now x]> |>) ;;
  mret (cut, resized).

Definition set_attr (fs : FsId) (i : N) (attr : SetAttr) (now : Z) : M () :=
  r ← on_fs fs (set_attr_in i attr now);
  let '(cut, resized) := r in
  s ← sm_get;
  let cut_bytes := sum_u64 (extent_len (cat s) <$> bt_values cut) in
  edit (edit_usage fs (λ u,
    let u := match resized with
             | Some (old, new) => u <| file_bytes ::= λ b, u64_saturating_add (b - old) new |>
             | None => u
             end in
    u <| used_bytes ::= λ b, b - cut_bytes |>)) ;;
  sm_for (bt_values cut) dec_ref.

(** The mode and minimality an access ACL implies; a default one is checked. *)
Definition acl_mode (x : Inode) (name : string) (value : bytes) : res MetaError (option (N * bool)) :=
  if String.eqb name Acl.ACCESS
  then a ← Acl.parse value; Ok (Some (Acl.apply_to_mode a (mode x), Acl.is_minimal a))
  else if String.eqb name Acl.DEFAULT
  then
    a ← Acl.parse value;
    if negb (is_dir x) then Err Invalid else Ok None
  else Ok None.

Definition blen (v : bytes) : N := N.of_nat (length v).

(** Names plus values of every attribute. *)
Definition xattr_bytes (m : gmap string bytes) : N :=
  foldr N.add 0 ((λ x : string * bytes, strlen (x.1) + blen (x.2)) <$> bt_entries m).

Definition set_xattr_in (i : N) (name : string) (value : bytes) (xm : XattrMode) (now : Z) :
    SM FsMeta MetaError () :=
  x ← sm_try (λ f, inode f i);
  am ← sm_lift (acl_mode x name value);
  let old := xattrs x !! name in
  match xm, old with
  | XCreate, Some _ => sm_err Exists
  | XReplace, None => sm_err NoAttr
  | _, _ =>
      let total := xattr_bytes (xattrs x)
                   - match old with Some v => strlen name + blen v | None => 0 end
                   + strlen name + blen value in
      if MAX_XATTR_TOTAL_BYTES <? total then sm_err TooBig
      else
        let x' := match am with
                  | Some (m, true) => x <| mode := m |> <| xattrs ::= delete name |>
                  | Some (m, false) => x <| mode := m |> <| xattrs ::= <[name := value]> |>
                  | None => x <| xattrs ::= <[name := value]> |>
                  end in
        sm_modify (λ f, f <| inodes ::= <[i := x' <| ctime_ns := now |>]> |>)
  end.

Definition set_xattr (fs : FsId) (i : N) (name : string) (value : bytes) (xm : XattrMode) (now : Z) :
    M () :=
  sm_lift (check_xattr_name name) ;;
  sm_lift (reject_if (MAX_XATTR_VALUE_BYTES <? blen value) TooBig) ;;
  on_fs fs (set_xattr_in i name value xm now).

Definition remove_xattr_in (i : N) (name : string) (now : Z) : SM FsMeta MetaError () :=
  x ← sm_try (λ f, inode f i);
  match xattrs x !! name with
  | None => sm_err NoAttr
  | Some _ => edit_inode i (λ x, x <| xattrs ::= delete name |> <| ctime_ns := now |>)
  end.

Definition remove_xattr (fs : FsId) (i : N) (name : string) (now : Z) : M () :=
  on_fs fs (remove_xattr_in i name now).

(** ** Extents of files *)

(** Insert each extent at its offset; the ids this replaces, in order. *)
Fixpoint insert_extents (m : gmap N ExtentId) (new : list (N * ExtentId)) :
    gmap N ExtentId * list ExtentId :=
  match new with
  | [] => (m, [])
  | (k, e) :: new =>
      let '(m', old) := insert_extents (<[k := e]> m) new in
      (m', option_list (m !! k) ++ old)
  end.

(** The change of the inode in [InstallFileExtent(s)]: the replaced ids and by
    how much the file grew. *)
Definition install_in (i : N) (new : list (N * ExtentId)) (at_least : N) (now : Z) (repl : bool) :
    SM FsMeta MetaError (list ExtentId * N) :=
  x ← sm_try (λ f, inode f i);
  match kind x with
  | File sz m =>
      let '(m', old) := insert_extents m new in
      let sz' := N.max sz at_least in
      let x' := x <| kind := File sz' m' |> in
      let x' := if negb repl then touch now x' else x' in
      sm_modify (λ f, f <| inodes ::= <[i := x']> |>) ;;
      mret (old, sz' - sz)
  | _ => sm_err IsDir
  end.

Definition install_file_extent (fs : FsId) (i off : N) (e : ExtentRef) (at_least : N) (now : Z)
    (repl : bool) : M () :=
  sm_lift (check e) ;;
  look (λ c, check_byte_quota c fs i [(off, len e)]) ;;
  r ← on_fs fs (install_in i [(off, eid e)] at_least now repl);
  let '(old, grown) := r in
  edit (add_extent_ref e) ;;
  s ← sm_get;
  let old_len := match old with o :: _ => extent_len (cat s) o | [] => 0 end in
  edit (edit_usage fs (λ u, u <| file_bytes ::= λ b, u64_saturating_add b grown |>
                              <| used_bytes ::= λ b, u64_add b (len e) - old_len |>)) ;;
  sm_for old dec_ref.

Definition install_file_extents (fs : FsId) (i : N) (new : list ExtentRef) (at_least : N) (now : Z)
    (repl : bool) : M () :=
  sm_lift (res_for new check) ;;
  look (λ c, check_byte_quota c fs i ((λ e, (logical_offset e, len e)) <$> new)) ;;
  r ← on_fs fs (install_in i ((λ e, (logical_offset e, eid e)) <$> new) at_least now repl);
  let '(old, grown) := r in
  edit (λ c, foldl (λ c e, add_extent_ref e c) c new) ;;
  s ← sm_get;
  let old_len := sum_u64 (extent_len (cat s) <$> old) in
  let new_len := sum_u64 (len <$> new) in
  edit (edit_usage fs (λ u, u <| file_bytes ::= λ b, u64_saturating_add b grown |>
                              <| used_bytes ::= λ b, u64_add b new_len - old_len |>)) ;;
  sm_for old dec_ref.

(** ** Snapshots and clones *)

Definition snapshot_tree (id : SnapshotId) (fs : FsId) (name : string) (now : Z) : M () :=
  s ← sm_get;
  match fs_snapshots (cat s) !! id with
  | Some sn =>
      if String.eqb (sn_fs_id sn) fs && String.eqb (sn_name sn) name then mret () else sm_err Exists
  | None =>
      f ← look (λ c, filesystem c fs);
      let tree := f <| replica := None |> in
      share_extents tree ;;
      edit (λ c, c <| fs_snapshots ::= <[id := mkFsSnapshotMeta id fs name now tree]> |>)
  end.

Definition is_replica_base (id : SnapshotId) (f : FsMeta) : bool :=
  match replica f with Some r => bool_decide (rs_local r = Some id) | None => false end.

Definition delete_fs_snapshot (id : SnapshotId) : M () :=
  s ← sm_get;
  if existsb (is_replica_base id) (bt_values (filesystems (cat s))) then sm_err Invalid
  else
    sn ← look (λ c, ok_or (fs_snapshots c !! id) NotFound);
    edit (λ c, c <| fs_snapshots ::= delete id |>) ;;
    sm_for (scan (sn_tree sn)) drop_inode.

Definition clone_fs (id : FsId) (name : string) (snapshot_id : SnapshotId) : M () :=
  s ← sm_get;
  match filesystems (cat s) !! id with
  | Some f =>
      if String.eqb (f_name f) name && bool_decide (source_snapshot f = Some snapshot_id)
      then mret () else sm_err Exists
  | None =>
      sn ← look (λ c, ok_or (fs_snapshots c !! snapshot_id) NotFound);
      let tree := sn_tree sn in
      share_extents tree ;;
      edit (λ c, c <| filesystems ::= <[id := tree <| f_id := id |> <| f_name := name |>
                        <| source_snapshot := Some snapshot_id |> <| replica := None |>]> |>)
  end.

Definition set_quota (fs : FsId) (mb mi : option N) : M () :=
  let q := mkFsQuota mb mi in
  on_fs fs (sm_modify (λ f, f <| quota := if bool_decide (q = mkFsQuota None None) then None else Some q |>)).

(** The filesystem a client change applies to. *)
Definition client_change (op : FsOp) : option FsId :=
  match op with
  | Mknode fs _ _ _ _ _ _ _ _ _ _ _ | Link fs _ _ _ _ | Unlink fs _ _ _ | Rmdir fs _ _ _
  | Rename fs _ _ _ _ _ | SetAttrOp fs _ _ _ | SetXattr fs _ _ _ _ _ | RemoveXattr fs _ _ _
  | InstallFileExtent fs _ _ _ _ _ false | InstallFileExtents fs _ _ _ _ false => Some fs
  | _ => None
  end.

(** The filesystem replication data applies to. *)
Definition replica_install (op : FsOp) : option FsId :=
  match op with
  | InstallFileExtent fs _ _ _ _ _ true | InstallFileExtents fs _ _ _ _ true => Some fs
  | _ => None
  end.

(** The two guards before the branches of [apply_fs]. *)
Definition fs_guards (op : FsOp) (self : Catalog) : res MetaError () :=
  (match client_change op with
   | Some fs =>
       reject_if (match filesystems self !! fs with
                  | Some f => bool_decide (replica f ≠ None)
                  | None => false
                  end) ReadOnly
   | None => Ok ()
   end) ;;
  match replica_install op with
  | Some fs => f ← filesystem self fs; reject_if (bool_decide (replica f = None)) Invalid
  | None => Ok ()
  end.
End Namespace.
