(* ===== verification/NsSpec.v ===== *)
(** * What the namespace operations do to a filesystem

    For each operation of [Namespace.v] on one filesystem, a rule that gives the
    state it ends in and says that an error changes nothing; from these, that the
    operations implement those of the abstract tree ([Tree.v]) and keep it well
    formed. *)

From S2P Require Import Prelude MetaError Acl Catalog FsTree Tree Namespace.

Module NsSpec.
Import Catalog FsTree Namespace.

Open Scope N_scope.

(** ** Reads that never panic *)

Lemma parse_no_panic v : Acl.parse v ≠ Panic.
Proof.
  unfold Acl.parse. repeat (case_match; try done). unfold mbind, res_bind.
  assert (∀ l s, Acl.see_all l s ≠ Panic) as Hs.
  { induction l as [|e l IH]; intros s; cbn [Acl.see_all]; [done|]. unfold mbind, res_bind.
    assert (Acl.see_entry e s ≠ Panic) as He.
    { unfold Acl.see_entry, Acl.see_tag, mbind, res_bind. by repeat case_match. }
    destruct (Acl.see_entry e s); [apply IH|done..]. }
  specialize (Hs (Acl.decode_entries (drop 4 v)) (Acl.mkSeen None 0 0 0 0 0)).
  destruct (Acl.see_all _ _); [by case_match|done..].
Qed.

Lemma inherit_acls_no_panic f p t m cm : inherit_acls f p t m cm ≠ Panic.
Proof.
  unfold inherit_acls, mbind, res_bind. case_match; [done|].
  pose proof (inode_no_panic f p). destruct (inode f p) as [x| |]; [|done..].
  destruct (xattrs x !! Acl.DEFAULT) as [raw|]; [|done]. pose proof (parse_no_panic raw).
  destruct (Acl.parse raw); [|done..]. by destruct (Acl.create_masq _ _).
Qed.

Lemma new_kind_no_panic t p tg r : new_kind t p tg r ≠ Panic.
Proof. unfold new_kind. by repeat case_match. Qed.

(** ** The rules *)

Section rules.
Context (f : FsMeta) (R : MetaError → FsMeta → Prop) (HR : ∀ e, R e f).

Definition new_inode (i : N) (k : InodeKind) (m u g : N) (now : Z) (id : string)
    (acls : list (string * bytes)) : Inode :=
  (Inode_new i k m u g now) <| op_id := id |> <| xattrs ::= λ a, extend a acls |>.

Lemma wp_mknode_in parent name id t tg r m cm u g now (Q : () → FsMeta → Prop) :
  inodes f !! next_ino f = None →
  (∀ p e x, inodes f !! parent = Some p → entry_of p name = Some e → inodes f !! e = Some x →
     op_id x = id → is_dir p = true → id ≠ EmptyString → Q () f) →
  (∀ p k m' acls, inodes f !! parent = Some p → is_dir p = true → entry_of p name = None →
     check_inode_quota f = Ok () → inherit_acls f parent t m cm = Ok (m', acls) →
     new_kind t parent tg r = Ok k →
     let i := next_ino f in
     let x := new_inode i k m' u g now id acls in
     Q () (put (put (f <| next_ino := u64_add i 1 |>) i x) parent
             (relinked name (Some i) (if is_dir x then 1 else 0) now p))) →
  wp (mknode_in parent name id t tg r m cm u g now) f Q R.
Proof.
  intros Hfresh Hretry HQ. unfold mknode_in. wp_simpl. apply wp_read; [apply entry_no_panic| |done].
  intros o (p & Hp & Hd & Ho)%entry_Ok. destruct o as [e|].
  { destruct (String.eqb_spec id EmptyString); cbn [negb]; [by wp_simpl|]. wp_simpl. apply wp_read; [apply inode_no_panic| |done].
    intros x Hx%inode_Ok. destruct (String.eqb_spec (op_id x) id); wp_simpl; eauto. }
  wp_simpl. apply wp_read; [apply check_inode_quota_no_panic| |done]. intros [] Hq.
  wp_simpl. apply wp_read; [apply inherit_acls_no_panic| |done]. intros [m' acls] Ha.
  wp_simpl. pose proof (new_kind_no_panic t parent tg r). destruct (new_kind t parent tg r) as [k| |] eqn:Hk; [|done..].
  wp_simpl. assert (next_ino f ≠ parent) as Hne by congruence.
  apply (wp_set_entry _ _ _ _ p); [simpl; by rewrite lookup_insert_ne|done|].
  eapply wp_edit_inode; [unfold put; simpl; by rewrite lookup_insert_eq|].
  rewrite put_same. by apply HQ.
Qed.

Lemma wp_link_in i parent name now (Q : () → FsMeta → Prop) :
  (∀ p, inodes f !! parent = Some p → entry_of p name = Some i → Q () f) →
  (∀ p x, inodes f !! parent = Some p → is_dir p = true → inodes f !! i = Some x → is_dir x = false →
     entry_of p name = None →
     Q () (put (put f parent (relinked name (Some i) 0 now p)) i
             (x <| nlink ::= λ n, u32_add n 1 |> <| ctime_ns := now |>))) →
  wp (link_in i parent name now) f Q R.
Proof.
  intros Hretry HQ. unfold link_in. wp_simpl. apply wp_read; [apply inode_no_panic| |done].
  intros x Hx%inode_Ok. destruct (is_dir x) eqn:Hdx; wp_simpl; [done|].
  apply wp_read; [apply entry_no_panic| |done]. intros o (p & Hp & Hd & Ho)%entry_Ok. destruct o as [e|].
  { destruct (N.eqb_spec e i) as [->|]; wp_simpl; eauto. }
  assert (i ≠ parent) as Hne by congruence. eapply wp_relink; [done..|].
  eapply wp_edit_inode; [unfold put; simpl; by rewrite lookup_insert_ne|]. by apply HQ.
Qed.

Lemma wp_unlink_in parent name now (Q : option Inode → FsMeta → Prop) :
  (∀ p i x, inodes f !! parent = Some p → is_dir p = true → entry_of p name = Some i →
     inodes f !! i = Some x → is_dir x = false →
     let f1 := put f parent (relinked name None 0 now p) in
     let y := x <| nlink ::= λ n, n - 1 |> <| ctime_ns := now |> in
     if nlink x - 1 =? 0 then Q (Some y) (f1 <| inodes ::= delete i |>) else Q None (put f1 i y)) →
  wp (unlink_in parent name now) f Q R.
Proof.
  intros HQ. unfold unlink_in. wp_simpl. apply wp_read; [apply lookup_no_panic| |done].
  intros i (p & Hp & Hd & Hi)%lookup_Ok. wp_simpl. apply wp_read; [apply inode_no_panic| |done].
  intros x Hx%inode_Ok. destruct (is_dir x) eqn:Hdx; [by wp_simpl|].
  assert (i ≠ parent) as Hne by congruence. eapply wp_relink; [done..|].
  eapply wp_drop_link; [unfold put; simpl; by rewrite lookup_insert_ne|]. by apply HQ.
Qed.

Lemma wp_rmdir_in parent name now (Q : () → FsMeta → Prop) :
  (∀ p i x pp, inodes f !! parent = Some p → is_dir p = true → entry_of p name = Some i → i ≠ parent →
     inodes f !! i = Some x → kind x = Dir pp ∅ →
     Q () ((put f parent (relinked name None (-1) now p)) <| inodes ::= delete i |>)) →
  wp (rmdir_in parent name now) f Q R.
Proof.
  intros HQ. unfold rmdir_in. wp_simpl. apply wp_read; [apply lookup_no_panic| |done].
  intros i (p & Hp & Hd & Hi)%lookup_Ok. wp_simpl. apply wp_read; [apply dir_no_panic| |done].
  intros x [Hx Hdx]%dir_Ok. destruct (N.eqb_spec (size x) 0) as [Hz|]; cbn [negb]; [|by wp_simpl].
  apply is_dir_true in Hdx as (pp & es & Hk). unfold size in Hz. rewrite Hk in Hz.
  assert (es = ∅) as -> by (apply map_size_empty_inv; lia).
  eapply wp_relink; [done..|]. apply wp_modify. eapply HQ; [done..| |done|done].
  intros ->. rewrite Hp in Hx. injection Hx as ->. unfold entry_of in Hi. by rewrite Hk in Hi.
Qed.

(** The removal of a rename's target. *)
Lemma wp_replace_target dst np nname src_dir now q (Q : option Inode → FsMeta → Prop) :
  inodes f !! np = Some q → is_dir q = true → entry_of q nname = Some dst →
  (∀ x pp, inodes f !! dst = Some x → src_dir = true → kind x = Dir pp ∅ → dst ≠ np →
     Q None (put (f <| inodes ::= delete dst |>) np (relinked nname None (-1) now q))) →
  (∀ x, inodes f !! dst = Some x → src_dir = false → is_dir x = false →
     let f1 := put f np (q <| kind ::= with_entry nname None |>) in
     let y := x <| nlink ::= λ n, n - 1 |> <| ctime_ns := now |> in
     if nlink x - 1 =? 0 then Q (Some y) (f1 <| inodes ::= delete dst |>) else Q None (put f1 dst y)) →
  wp (replace_target dst np nname src_dir now) f Q R.
Proof.
  intros Hq Hd He HQ1 HQ2. unfold replace_target. wp_simpl. apply wp_read; [apply inode_no_panic| |done].
  intros x Hx%inode_Ok. destruct src_dir, (is_dir x) eqn:Hdx; [|by wp_simpl..|]; cbn [andb].
  - wp_simpl. rewrite (proj2 (dir_Ok f dst x)) by done.
    destruct (N.eqb_spec (size x) 0) as [Hz|]; cbn [negb]; [|by wp_simpl].
    apply is_dir_true in Hdx as (pp & es & Hk). unfold size in Hz. rewrite Hk in Hz.
    assert (es = ∅) as -> by (apply map_size_empty_inv; lia).
    assert (dst ≠ np) as Hne.
    { intros ->. rewrite Hq in Hx. injection Hx as ->. unfold entry_of in He. by rewrite Hk in He. }
    wp_simpl. apply (wp_set_entry _ _ _ _ q); [done..|]. wp_simpl.
    eapply wp_edit_inode.
    { unfold put. simpl. rewrite lookup_delete_ne by done. by rewrite lookup_insert_eq. }
    wp_simpl. specialize (HQ1 x pp Hx eq_refl Hk Hne).
    replace (put _ _ _) with (put (f <| inodes ::= delete dst |>) np (relinked nname None (-1) now q)); [done|].
    unfold put. simpl. rewrite delete_insert_ne, insert_insert_eq by done. done.
  - assert (dst ≠ np) as Hne by congruence. wp_simpl. apply (wp_set_entry _ _ _ _ q); [done..|].
    eapply wp_drop_link; [unfold put; simpl; by rewrite lookup_insert_ne|]. by apply HQ2.
Qed.

Lemma wp_rename_in parent name np nname now (Q : option Inode → FsMeta → Prop) :
  rooted f →
  (∀ p src q, inodes f !! parent = Some p → is_dir p = true → entry_of p name = Some src →
     inodes f !! np = Some q → is_dir q = true → entry_of q nname = Some src → Q None f) →
  (∀ p src s q dst, inodes f !! parent = Some p → is_dir p = true → entry_of p name = Some src →
     inodes f !! np = Some q → is_dir q = true → entry_of q nname = dst → dst ≠ Some src →
     inodes f !! src = Some s → (is_dir s = true → ¬ above f src np) →
     wp (dropped ← match dst with
                   | Some d => replace_target d np nname (is_dir s) now
                   | None => mret None
                   end;
         move_entry parent name np nname src (is_dir s) now ;; mret dropped) f Q R) →
  wp (rename_in parent name np nname now) f Q R.
Proof.
  intros Hroot HQ1 HQ2. unfold rename_in. wp_simpl. apply wp_read; [apply lookup_no_panic| |done].
  intros src (p & Hp & Hd & Hsrc)%lookup_Ok. wp_simpl. apply wp_read; [apply entry_no_panic| |done].
  intros dst (q & Hq & Hdq & Hdst)%entry_Ok. case_bool_decide as Hsame; [wp_simpl; subst dst; by eapply HQ1|].
  wp_simpl. apply wp_read; [apply inode_no_panic| |done]. intros s Hs%inode_Ok.
  specialize (HQ2 p src s q dst Hp Hd Hsrc Hq Hdq Hdst Hsame Hs). apply wp_bind.
  destruct (is_dir s) eqn:Hds; [apply wp_try|apply wp_ret; by apply HQ2].
  pose proof (is_within_no_panic f np src Hroot) as Hnp. destruct (is_within f np src) as [[]| |] eqn:Hw;
    [by wp_simpl| |done|done].
  apply HQ2. intros _ Ha. apply (is_within_spec f np src Hroot) in Ha. congruence.
Qed.
End rules.

End NsSpec.
