(* ===== verification/NsRefs.v ===== *)
(** * References and the namespace operations

    No client operation of [Namespace.v] loses or invents a reference on an
    extent, and a rejected one changes nothing: the lemmas here establish, for
    each, the invariant of [Extents.v] and that new inode numbers stay fresh. *)

From S2P Require Import Prelude MetaError Leases Acl Catalog Extents FsTree Namespace NsSpec.

Module NsRefs.
Import Catalog Extents FsTree Namespace NsSpec.

Open Scope N_scope.

(** ** References of inodes and trees *)

(** The extents an inode names. *)
Definition ext_list (i : Inode) : list ExtentId :=
  match kind i with File _ m => bt_values m | _ => [] end.

Lemma inode_refs_list x i : inode_refs x i = count x (ext_list i).
Proof. unfold inode_refs, ext_list. destruct (kind i); [done|apply map_refs_values|done..]. Qed.

Lemma drop_inode_list i : drop_inode i = sm_for (ext_list i) dec_ref.
Proof. unfold drop_inode, ext_list. by destruct (kind i). Qed.

Lemma file_extents_list l : file_extents l = l ≫= ext_list.
Proof. done. Qed.

Lemma count_bind x l : count x (l ≫= ext_list) = sum_list_with (inode_refs x) l.
Proof.
  induction l as [|i l IH]; [done|]. rewrite bind_cons, count_app, IH. simpl. by rewrite inode_refs_list.
Qed.

Lemma tree_refs_list x f : tree_refs x f = count x (scan f ≫= ext_list).
Proof.
  rewrite count_bind. unfold tree_refs, map_sum, scan, bt_values. apply sum_list_with_perm.
  by rewrite bt_entries_perm.
Qed.

Lemma tree_refs_put x f i y :
  (tree_refs x (put f i y) + default 0 (inode_refs x <$> inodes f !! i) = inode_refs x y + tree_refs x f)%nat.
Proof. apply map_sum_insert. Qed.

Lemma tree_refs_put_same x f i y z :
  inodes f !! i = Some z → inode_refs x y = inode_refs x z → tree_refs x (put f i y) = tree_refs x f.
Proof. intros Hz He. pose proof (tree_refs_put x f i y) as Hp. rewrite Hz in Hp. simpl in Hp. lia. Qed.

Lemma tree_refs_delete x f i z :
  inodes f !! i = Some z →
  (tree_refs x (f <| inodes ::= delete i |>) + inode_refs x z = tree_refs x f)%nat.
Proof. intros Hz. unfold tree_refs. simpl. rewrite (map_sum_delete _ _ _ _ Hz). lia. Qed.

(** A special node is neither a file, a directory nor a symlink. *)
Definition kind_ok (k : InodeKind) : Prop :=
  match k with Special t _ => t ∉ [NFile; NDir; NSymlink] | _ => True end.

(** Inode numbers given out are below [next_ino]. *)
Definition fresh (f : FsMeta) : Prop :=
  ∀ i x, inodes f !! i = Some x → i < next_ino f ∧ kind_ok (kind x).

Lemma fresh_next f : fresh f → inodes f !! next_ino f = None.
Proof. intros Hf. apply eq_None_not_Some. intros [x Hx]. destruct (Hf _ _ Hx). lia. Qed.

Lemma fresh_put f i y :
  fresh f → is_Some (inodes f !! i) → kind_ok (kind y) → fresh (put f i y).
Proof.
  intros Hf [z Hz] Hy j x. unfold put. simpl. rewrite lookup_insert_Some. intros [[<- <-]|[_ ?]]; [|auto].
  split; [by eapply Hf|done].
Qed.

Lemma fresh_delete f i : fresh f → fresh (f <| inodes ::= delete i |>).
Proof. intros Hf j x. simpl. rewrite lookup_delete_Some. intros [_ ?]. by apply (Hf j). Qed.

(** What an operation on a filesystem leaves: the references it had but those of
    the inode it drops. *)
Definition kept (f : FsMeta) (gone : option Inode) (f' : FsMeta) : Prop :=
  (∀ x, (tree_refs x f' + default 0 (inode_refs x <$> gone) = tree_refs x f)%nat) ∧ fresh f'.

Lemma kept_refl f : fresh f → kept f None f.
Proof. intros Hf. split; [intros; simpl; lia|done]. Qed.

(** The inode keeps its extents. *)
Definition same_files (x y : Inode) : Prop :=
  (∀ e, inode_refs e y = inode_refs e x) ∧ (kind_ok (kind x) → kind_ok (kind y)).

Lemma kept_put f gone f1 i y z :
  kept f gone f1 → inodes f1 !! i = Some z → same_files z y → kept f gone (put f1 i y).
Proof.
  intros [Hr Hf] Hz Hs. split.
  - intros x. rewrite (tree_refs_put_same x f1 i y z) by (done || apply Hs). apply Hr.
  - apply fresh_put; [done|by eexists|]. apply Hs. by eapply Hf.
Qed.

Lemma kept_delete f f1 i z z' :
  kept f None f1 → inodes f1 !! i = Some z → same_files z z' → kept f (Some z') (f1 <| inodes ::= delete i |>).
Proof.
  intros [Hr Hf] Hz Hs. split; [|by apply fresh_delete].
  intros x. pose proof (tree_refs_delete x f1 i z Hz). specialize (Hr x). simpl in *. rewrite (proj1 Hs x). lia.
Qed.

Lemma kept_delete_dir f gone f1 i z :
  kept f gone f1 → inodes f1 !! i = Some z → is_dir z = true → kept f gone (f1 <| inodes ::= delete i |>).
Proof.
  intros [Hr Hf] Hz Hd. split; [|by apply fresh_delete].
  intros x. pose proof (tree_refs_delete x f1 i z Hz) as Hx. specialize (Hr x).
  apply is_dir_true in Hd as (p & es & Hk). unfold inode_refs in Hx at 1. rewrite Hk in Hx. lia.
Qed.

Lemma same_files_entry x name o : same_files x (x <| kind ::= with_entry name o |>).
Proof. unfold same_files, inode_refs. simpl. by destruct (kind x). Qed.

Lemma same_files_relinked x name o z now : same_files x (relinked name o z now x).
Proof. unfold same_files, inode_refs, relinked, touch. simpl. by destruct (kind x). Qed.

Lemma same_files_kind x y : kind y = kind x → same_files x y.
Proof. intros Hk. unfold same_files, inode_refs. by rewrite Hk. Qed.

#[export] Hint Resolve same_files_entry same_files_relinked kept_refl : core.
#[export] Hint Extern 1 (same_files _ _) => by apply same_files_kind : core.

(** ** Steps on a filesystem *)

Definition has (f : FsMeta) (i : N) : Prop := is_Some (inodes f !! i).
Definition dir_at (f : FsMeta) (d : N) : Prop := ∃ z, inodes f !! d = Some z ∧ is_dir z = true.
(** Inodes stay, and directories stay directories. *)
Definition stays (f f' : FsMeta) : Prop := (∀ i, has f i → has f' i) ∧ (∀ d, dir_at f d → dir_at f' d).

Lemma stays_put f i y z : inodes f !! i = Some z → is_dir y = is_dir z → stays f (put f i y).
Proof.
  intros Hz Hd. unfold stays, has, dir_at, put. simpl. split.
  - intros j. rewrite lookup_insert_is_Some'. auto.
  - intros d (w & Hw & Hdw). destruct (decide (i = d)) as [->|Hne].
    + exists y. rewrite lookup_insert_eq. split; [done|congruence].
    + exists w. by rewrite lookup_insert_ne.
Qed.

Lemma wp_edit_kept f gone f1 i g (Q : () → FsMeta → Prop) R :
  kept f gone f1 → has f1 i → (∀ x, same_files x (g x) ∧ is_dir (g x) = is_dir x) →
  (∀ f2, kept f gone f2 → stays f1 f2 → Q () f2) → wp (edit_inode i g) f1 Q R.
Proof.
  intros Hk [z Hz] Hg HQ. destruct (Hg z). eapply wp_edit_inode; [done|].
  apply HQ; [by eapply kept_put|by eapply stays_put].
Qed.

Lemma wp_set_entry_kept f gone f1 d name o (Q : () → FsMeta → Prop) R :
  kept f gone f1 → dir_at f1 d →
  (∀ f2, kept f gone f2 → stays f1 f2 → Q () f2) → wp (set_entry d name o) f1 Q R.
Proof.
  intros Hk (z & Hz & Hd) HQ. eapply wp_set_entry; [done..|].
  apply HQ; [by eapply kept_put|]. eapply stays_put; [done|]. apply is_dir_with_entry.
Qed.

Lemma is_dir_relinked name o z now x : is_dir (relinked name o z now x) = is_dir x.
Proof. unfold relinked, touch, is_dir. simpl. by destruct (kind x). Qed.

Lemma wp_move_entry_kept f gone f1 parent name np nname src src_dir now (Q : () → FsMeta → Prop) R :
  kept f gone f1 → dir_at f1 parent → dir_at f1 np → has f1 src →
  (∀ f2, kept f gone f2 → Q () f2) → wp (move_entry parent name np nname src src_dir now) f1 Q R.
Proof.
  intros Hk Hp Hn Hs HQ. unfold move_entry. apply wp_bind.
  apply (wp_set_entry_kept f gone); [done..|]. intros f2 Hk2 [S2 D2]. apply wp_bind.
  apply (wp_set_entry_kept f gone); [done|auto|]. intros f3 Hk3 [S3 D3]. apply wp_bind.
  apply (wp_edit_kept f gone); [done| | |].
  { destruct (D3 _ (D2 _ Hp)) as (z & ? & _). by eexists. }
  { intros x. split; [by apply same_files_kind|done]. }
  intros f4 Hk4 [S4 D4]. apply wp_bind. apply (wp_edit_kept f gone); [done| | |].
  { destruct (D4 _ (D3 _ (D2 _ Hn))) as (z & ? & _). by eexists. }
  { intros x. split; [by apply same_files_kind|done]. }
  intros f5 Hk5 [S5 D5]. apply (wp_edit_kept f gone); [done|auto| |auto].
  intros x. split.
  - unfold same_files, inode_refs. simpl. by destruct (kind x).
  - unfold is_dir. simpl. by destruct (kind x).
Qed.

(** ** The operations on one filesystem *)

Section fs_level.
Context (f : FsMeta) (Hf : fresh f).
Abbreviation unchanged := (λ (_ : MetaError) f', f' = f).

Lemma mknode_kept parent name id t tg r m cm u g now :
  next_ino f < u64_max →
  wp (mknode_in parent name id t tg r m cm u g now) f (λ _ f', kept f None f') unchanged.
Proof.
  intros Hroom. apply wp_mknode_in; [done|by apply fresh_next|auto|].
  intros p k m' acls Hp Hd _ _ _ Hk i x.
  assert (∀ e, inode_refs e x = 0%nat) as Hx.
  { intros e. unfold inode_refs. simpl. unfold new_kind in Hk.
    repeat case_match; simplify_eq; done. }
  assert (inodes f !! i = None) as Hi by (by apply fresh_next).
  eapply kept_put; [|unfold put; simpl; rewrite lookup_insert_ne by congruence; exact Hp|auto].
  split.
  - intros e. unfold tree_refs, put. cbn [set_field inodes default fmap option_fmap option_map].
    rewrite map_sum_insert_None, Hx by done. lia.
  - intros j y. unfold put. simpl. rewrite lookup_insert_Some.
    rewrite u64_add_small by (unfold i, u64_max, u64_size in *; lia). unfold i.
    intros [[<- <-]|[_ Hj]].
    + split; [lia|]. simpl. unfold new_kind in Hk. repeat case_match; simplify_eq; set_solver.
    + destruct (Hf _ _ Hj). split; [lia|done].
Qed.

Lemma link_kept i parent name now :
  wp (link_in i parent name now) f (λ _ f', kept f None f') unchanged.
Proof.
  apply wp_link_in; [done|auto|]. intros p x Hp Hd Hx Hdx _.
  apply (kept_put _ _ _ _ _ x); [apply (kept_put _ _ _ _ _ p); auto| |by apply same_files_kind].
  unfold put. simpl. rewrite lookup_insert_ne; [done|congruence].
Qed.

Lemma drop_link_kept f1 i (x : Inode) now :
  kept f None f1 → inodes f1 !! i = Some x →
  let y := x <| nlink ::= λ n, n - 1 |> <| ctime_ns := now |> in
  if nlink x - 1 =? 0 then kept f (Some y) (f1 <| inodes ::= delete i |>) else kept f None (put f1 i y).
Proof.
  intros Hk Hx y. destruct (_ =? _).
  - apply (kept_delete _ _ _ x); [done..|by apply same_files_kind].
  - apply (kept_put _ _ _ _ _ x); [done..|by apply same_files_kind].
Qed.

Lemma unlink_kept parent name now : wp (unlink_in parent name now) f (kept f) unchanged.
Proof.
  apply wp_unlink_in; [done|]. intros p i x Hp Hd Hi Hx Hdx f1.
  apply drop_link_kept; [eapply kept_put; [by apply kept_refl|done|auto]|].
  unfold f1, put. simpl. rewrite lookup_insert_ne; [done|congruence].
Qed.

Lemma rmdir_kept parent name now : wp (rmdir_in parent name now) f (λ _ f', kept f None f') unchanged.
Proof.
  apply wp_rmdir_in; [done|]. intros p i x pp Hp Hd Hi Hne Hx Hk.
  eapply kept_delete_dir; [eapply kept_put; [by apply kept_refl|done|auto]| |].
  - unfold put. simpl. by rewrite lookup_insert_ne.
  - apply is_dir_true. eauto.
Qed.

Lemma rename_kept parent name np nname now :
  rooted f → wp (rename_in parent name np nname now) f (kept f) unchanged.
Proof.
  intros Hr. apply wp_rename_in; [done|done|auto|].
  intros p src s q dst Hp Hdp Hsrc Hq Hdq Hdst Hne Hs _. apply wp_bind.
  assert (∀ gone f1, kept f gone f1 → dir_at f1 parent → dir_at f1 np → has f1 src →
    wp (move_entry parent name np nname src (is_dir s) now ;; mret gone) f1 (kept f) unchanged) as Hmove.
  { intros gone f1 Hk H1 H2 H3. apply wp_bind. by eapply wp_move_entry_kept. }
  destruct dst as [d|].
  2:{ apply wp_ret, Hmove; [by apply kept_refl|by exists p|by exists q|by eexists]. }
  eapply wp_replace_target; [done|done|done|exact Hdst| |].
  - intros x pp Hx Hsd Hk Hdn.
    assert (d ≠ parent) as Hdp'.
    { intros ->. rewrite Hp in Hx. injection Hx as ->. unfold entry_of in Hsrc. by rewrite Hk in Hsrc. }
    apply Hmove.
    + eapply kept_put; [eapply kept_delete_dir; [by apply kept_refl|done|apply is_dir_true; eauto]| |auto].
      simpl. by rewrite lookup_delete_ne.
    + unfold dir_at, put. simpl. destruct (decide (parent = np)) as [->|].
      * eexists. rewrite lookup_insert_eq. split; [done|]. by rewrite is_dir_relinked.
      * exists p. by rewrite lookup_insert_ne, lookup_delete_ne.
    + eexists. unfold put. simpl. rewrite lookup_insert_eq. split; [done|]. by rewrite is_dir_relinked.
    + unfold has, put. simpl. rewrite lookup_insert_is_Some', lookup_delete_ne by congruence. right. by eexists.
  - intros x Hx Hsd Hdx f1.
    assert (kept f None f1) as Hk1 by (eapply kept_put; [by apply kept_refl|done|auto]).
    assert (stays f f1) as [S1 D1] by (eapply stays_put; [done|apply is_dir_with_entry]).
    assert (inodes f1 !! d = Some x) as Hx1.
    { unfold f1, put. simpl. rewrite lookup_insert_ne; [done|congruence]. }
    assert (dir_at f1 parent) as Hp1 by (apply D1; by exists p).
    assert (dir_at f1 np) as Hn1 by (apply D1; by exists q).
    assert (has f1 src) as Hs1 by (apply S1; by eexists).
    pose proof (drop_link_kept f1 d x now Hk1 Hx1) as Hdrop. simpl in Hdrop |- *.
    destruct (_ =? _); apply Hmove; try done.
    + destruct Hp1 as (z & Hz & Hdz). exists z. simpl. by rewrite lookup_delete_ne by congruence.
    + destruct Hn1 as (z & Hz & Hdz). exists z. simpl. by rewrite lookup_delete_ne by congruence.
    + unfold has. simpl. rewrite lookup_delete_ne by congruence. done.
    + eapply (stays_put f1 d); [done|by simpl|done].
    + eapply (stays_put f1 d); [done|by simpl|done].
    + eapply (stays_put f1 d); [done|by simpl|done].
Qed.

(** *** Attributes *)

Lemma acl_mode_no_panic x name v : acl_mode x name v ≠ Panic.
Proof.
  unfold acl_mode, mbind, res_bind. pose proof (parse_no_panic v).
  destruct (_ =? _)%string; [by destruct (Acl.parse v)|].
  destruct (_ =? _)%string; [|done]. destruct (Acl.parse v); [by case_match|done..].
Qed.

Lemma set_xattr_kept i name v xm now :
  wp (set_xattr_in i name v xm now) f (λ _ f', kept f None f') unchanged.
Proof.
  unfold set_xattr_in. wp_simpl. apply wp_read; [apply inode_no_panic| |done]. intros x Hx%inode_Ok.
  wp_simpl. apply wp_read; [apply acl_mode_no_panic| |done]. intros am _.
  assert (wp (if MAX_XATTR_TOTAL_BYTES <? xattr_bytes (xattrs x)
        - match xattrs x !! name with Some v => strlen name + blen v | None => 0 end + strlen name + blen v
      then sm_err TooBig
      else sm_modify (λ f, f <| inodes ::= <[i := (match am with
                | Some (m, true) => x <| mode := m |> <| xattrs ::= delete name |>
                | Some (m, false) => x <| mode := m |> <| xattrs ::= <[name := v]> |>
                | None => x <| xattrs ::= <[name := v]> |>
                end) <| ctime_ns := now |>]> |>)) f (λ _ f', kept f None f') unchanged) as Hgo.
  { destruct (_ <? _); wp_simpl; [done|]. apply (kept_put _ _ _ _ _ x); [by apply kept_refl|done|].
    apply same_files_kind. by destruct am as [[m []]|]. }
  destruct xm, (xattrs x !! name); wp_simpl; done.
Qed.

Lemma remove_xattr_kept i name now :
  wp (remove_xattr_in i name now) f (λ _ f', kept f None f') unchanged.
Proof.
  unfold remove_xattr_in. wp_simpl. apply wp_read; [apply inode_no_panic| |done]. intros x Hx%inode_Ok.
  destruct (xattrs x !! name); [|by wp_simpl]. eapply wp_edit_inode; [done|].
  apply (kept_put _ _ _ _ _ x); [by apply kept_refl|done|by apply same_files_kind].
Qed.

(** *** File contents *)

(** The references [f'] has more are [due], those it has less [owed]. *)
Definition moved (due owed : list ExtentId) (f' : FsMeta) : Prop :=
  (∀ x, (tree_refs x f' + count x owed = tree_refs x f + count x due)%nat) ∧ fresh f'.

Lemma moved_put i x y due owed :
  inodes f !! i = Some x → (kind_ok (kind x) → kind_ok (kind y)) →
  (∀ e, inode_refs e y + count e owed = inode_refs e x + count e due)%nat → moved due owed (put f i y).
Proof.
  intros Hx Hk Hr. split; [|apply fresh_put; [done|by eexists|by eapply Hk, Hf]].
  intros e. pose proof (tree_refs_put e f i y) as Ht. rewrite Hx in Ht. simpl in Ht. specialize (Hr e). lia.
Qed.

Lemma map_refs_split e (m : gmap N ExtentId) (n : N) :
  map_refs e m = Nat.add (map_refs e (base.filter (λ x : N * ExtentId, x.1 < n) m))
                         (map_refs e (base.filter (λ x : N * ExtentId, n <= x.1) m)).
Proof.
  induction m as [|k y m Hk IH] using map_ind; [by rewrite !map_filter_empty, map_refs_empty|].
  pose proof (map_refs_insert e m k y) as H1. rewrite Hk, count_nil in H1. simpl in H1.
  assert (∀ P (D : ∀ x : N * ExtentId, Decision (P x)), base.filter P m !! k = None) as Hno.
  { intros P D. apply map_lookup_filter_None. by left. }
  rewrite !map_filter_insert. destruct (decide (k < n)) as [Hlt|Hlt].
  - rewrite decide_True, decide_False by (simpl; lia).
    pose proof (map_refs_insert e (base.filter (λ x : N * ExtentId, x.1 < n) m) k y) as H2.
    rewrite Hno, count_nil in H2. simpl in H2.
    rewrite (delete_id m) by done. lia.
  - rewrite decide_False, decide_True by (simpl; lia).
    pose proof (map_refs_insert e (base.filter (λ x : N * ExtentId, n <= x.1) m) k y) as H2.
    rewrite Hno, count_nil in H2. simpl in H2.
    rewrite (delete_id m) by done. lia.
Qed.

Lemma resize_file_refs n now x y cut rs :
  resize_file n now x = Ok (y, cut, rs) →
  ∀ e, (inode_refs e y + map_refs e cut = inode_refs e x)%nat.
Proof.
  unfold resize_file. intros Hr e. unfold inode_refs at 2. destruct (kind x) as [|sz m| |] eqn:Hk; try done.
  pose proof (map_refs_split e m n) as Hs. pose proof (map_refs_empty e) as He.
  destruct (n =? sz), (n <? sz); injection Hr as <- <- <-; unfold inode_refs; simpl; lia.
Qed.

Lemma overwrite_kind attr acl now x : kind (overwrite attr acl now x) = kind x.
Proof. unfold overwrite. by repeat case_match. Qed.

Lemma set_attr_moved i attr now :
  wp (set_attr_in i attr now) f (λ r f', moved [] (bt_values (r.1)) f') unchanged.
Proof.
  unfold set_attr_in. wp_simpl. apply wp_read; [apply inode_no_panic| |done]. intros x Hx%inode_Ok.
  wp_simpl. apply wp_read; [| |done].
  { unfold chmod_acl, mbind, res_bind. repeat case_match; try done. by destruct (parse_no_panic l). }
  intros acl _. wp_simpl. apply wp_read; [| |done].
  { unfold resize_file. by repeat case_match. }
  intros [[y cut] rs] Hr. wp_simpl. apply (moved_put _ x); [done| |].
  { rewrite overwrite_kind. unfold resize_file in Hr. by repeat case_match; simplify_eq. }
  intros e. rewrite (proj1 (same_files_kind y _ (overwrite_kind _ _ _ _))), <- map_refs_values, count_nil. cbn [fst].
  destruct (a_size attr) as [n|].
  - rewrite (resize_file_refs _ _ _ _ _ _ Hr e). lia.
  - injection Hr as -> <- _. rewrite map_refs_empty. done.
Qed.

Lemma insert_extents_refs e new m :
  (map_refs e (insert_extents m new).1 + count e (insert_extents m new).2
   = map_refs e m + count e (new.*2))%nat.
Proof.
  revert m. induction new as [|[k y] new IH]; intros m; csimpl; [by rewrite count_nil|].
  specialize (IH (<[k := y]> m)). destruct (insert_extents (<[k := y]> m) new) as [m' old].
  csimpl in *. rewrite count_app, count_cons. pose proof (map_refs_insert e m k y). lia.
Qed.

Lemma install_moved i new at_least now repl :
  wp (install_in i new at_least now repl) f (λ r f', moved (new.*2) (r.1) f') unchanged.
Proof.
  unfold install_in. wp_simpl. apply wp_read; [apply inode_no_panic| |done]. intros x Hx%inode_Ok.
  destruct (kind x) as [|sz m| |] eqn:Hk; [by wp_simpl| |by wp_simpl..].
  destruct (insert_extents m new) as [m' old] eqn:Hin. wp_simpl.
  apply (moved_put _ x); [done|by destruct repl|]. intros e.
  pose proof (insert_extents_refs e new m) as Hr. rewrite Hin in Hr. simpl in Hr |- *.
  unfold inode_refs. rewrite Hk. destruct repl; simpl; lia.
Qed.
End fs_level.

(** ** The operations on the catalog *)

Record all_fresh (c : Catalog) : Prop := {
  af_fs : ∀ fs f, filesystems c !! fs = Some f → fresh f;
  af_snap : ∀ id s, fs_snapshots c !! id = Some s → fresh (sn_tree s);
}.

(** The invariant a command keeps while it runs. *)
Record ginv (c0 : Catalog) (due owed : list ExtentId) (s : Ctx) : Prop := {
  gi_inv : inv c0 due owed s;
  gi_fresh : all_fresh (cat s);
}.

Lemma only_extents_fresh c c' : only_extents c c' → all_fresh c → all_fresh c'.
Proof. intros [es ->] [? ?]. by split. Qed.

Lemma ginv_same c0 due owed s f :
  ginv c0 due owed s → extents (f (cat s)) = extents (cat s) →
  (∀ x, catalog_refs x (f (cat s)) = catalog_refs x (cat s)) → all_fresh (f (cat s)) →
  ginv c0 due owed (s <| cat ::= f |>).
Proof.
  intros [Hi _] He Hr Hf. split; [|done]. eapply inv_edit; [done|done|]. intros x. rewrite Hr. lia.
Qed.

Definition put_fs (fs : FsId) (f : FsMeta) (c : Catalog) : Catalog := c <| filesystems ::= <[fs := f]> |>.

Lemma put_fs_same fs f c : filesystems c !! fs = Some f → put_fs fs f c = c.
Proof. intros Hf. unfold put_fs. simpl. rewrite insert_id by done. by destruct c. Qed.

Lemma put_fs_refs x fs f c :
  (catalog_refs x (put_fs fs f c) + default 0 (tree_refs x <$> filesystems c !! fs)
   = tree_refs x f + catalog_refs x c)%nat.
Proof.
  unfold catalog_refs, put_fs. simpl. pose proof (map_sum_insert (tree_refs x) (filesystems c) fs f). lia.
Qed.

Lemma put_fs_refs_some x fs f f0 c :
  filesystems c !! fs = Some f0 →
  (catalog_refs x (put_fs fs f c) + tree_refs x f0 = tree_refs x f + catalog_refs x c)%nat.
Proof. intros Hf. pose proof (put_fs_refs x fs f c) as Hp. by rewrite Hf in Hp. Qed.

Lemma put_fs_fresh fs f c : all_fresh c → fresh f → all_fresh (put_fs fs f c).
Proof.
  intros [H1 H2] Hf. split; simpl; [|done]. intros fs' f'. rewrite lookup_insert_Some. naive_solver.
Qed.

Lemma wp_on_fs {A} fs (m : SM FsMeta MetaError A) s (Q : A → Ctx → Prop) (R : MetaError → Ctx → Prop) :
  R NotFound s →
  (∀ f, filesystems (cat s) !! fs = Some f →
     wp m f (λ a f', Q a (s <| cat ::= put_fs fs f' |>)) (λ e f', R e (s <| cat ::= put_fs fs f' |>))) →
  wp (on_fs fs m) s Q R.
Proof.
  intros HN Hf. unfold wp, on_fs. destruct (filesystems (cat s) !! fs) as [f|] eqn:Hl; [|done].
  specialize (Hf f eq_refl). unfold wp in Hf. by destruct (m f) as [f' []].
Qed.

Lemma ctx_same fs f s : filesystems (cat s) !! fs = Some f → s <| cat ::= put_fs fs f |> = s.
Proof. intros Hf. destruct s as [c g]. simpl in *. by rewrite put_fs_same. Qed.

Lemma ginv_moved c0 fs f due owed f' s :
  ginv c0 [] [] s → filesystems (cat s) !! fs = Some f → moved f due owed f' →
  ginv c0 due owed (s <| cat ::= put_fs fs f' |>).
Proof.
  intros [Hi Hf] Hl [Hr Hf']. split; [|by apply put_fs_fresh].
  eapply inv_edit; [done|done|]. intros x. pose proof (put_fs_refs_some x fs f' f (cat s) Hl).
  specialize (Hr x). rewrite !count_nil. lia.
Qed.

(** Work on one filesystem that moves references and, when it fails, does nothing. *)
Lemma wp_on_fs_moved {A} c0 fs (m : SM FsMeta MetaError A) (due owed : A → list ExtentId) s
    (Q : A → Ctx → Prop) (R : MetaError → Ctx → Prop) :
  ginv c0 [] [] s → (∀ e, R e s) →
  (∀ f, filesystems (cat s) !! fs = Some f → fresh f →
     wp m f (λ a f', moved f (due a) (owed a) f') (λ _ f', f' = f)) →
  (∀ a f', ginv c0 (due a) (owed a) (s <| cat ::= put_fs fs f' |>) → Q a (s <| cat ::= put_fs fs f' |>)) →
  wp (on_fs fs m) s Q R.
Proof.
  intros Hg HR Hm HQ. apply wp_on_fs; [done|]. intros f Hl.
  eapply wp_mono; [apply Hm; [done|by eapply af_fs, Hl; apply Hg]| |].
  - intros a f' Hk. by eapply HQ, ginv_moved.
  - intros e f' ->. by rewrite ctx_same.
Qed.

Lemma kept_moved f gone f' : kept f gone f' → moved f [] (default [] (ext_list <$> gone)) f'.
Proof.
  intros [Hr Hf]. split; [|done]. intros x. specialize (Hr x). rewrite count_nil.
  destruct gone; simpl in *; [rewrite <- inode_refs_list|rewrite count_nil]; lia.
Qed.

Lemma wp_on_fs_kept c0 fs (m : SM FsMeta MetaError ()) s :
  ginv c0 [] [] s →
  (∀ f, filesystems (cat s) !! fs = Some f → fresh f → wp m f (λ _ f', kept f None f') (λ _ f', f' = f)) →
  wp (on_fs fs m) s (λ _ s', ginv c0 [] [] s') (λ _ s', s' = s).
Proof.
  intros Hg Hm. apply (wp_on_fs_moved c0 fs m (λ _, []) (λ _, [])); [done|done| |done].
  intros f Hl Hf. eapply wp_mono; [by apply Hm| |done]. intros [] f' Hk. by apply kept_moved in Hk.
Qed.

(** *** Usage counters *)

Lemma edit_usage_cases fs g c :
  edit_usage fs g c = c ∨ ∃ f u, filesystems c !! fs = Some f ∧ edit_usage fs g c = put_fs fs (f <| usage := u |>) c.
Proof.
  unfold edit_usage. destruct (filesystems c !! fs) as [f|]; [|by left].
  destruct (usage f) as [u|] eqn:Hu; [right|by left]. by exists f, (Some (g u)).
Qed.

Lemma ginv_edit_usage c0 due owed fs g s :
  ginv c0 due owed s → ginv c0 due owed (s <| cat ::= edit_usage fs g |>).
Proof.
  intros Hg. destruct (edit_usage_cases fs g (cat s)) as [He|(f & u & Hf & He)].
  - apply ginv_same; [done|by rewrite He..|rewrite He; apply Hg].
  - apply ginv_same; [done|by rewrite He|..]; rewrite He.
    + intros x. pose proof (put_fs_refs_some x fs (f <| usage := u |>) f (cat s) Hf) as Hp.
      change (tree_refs x (f <| usage := u |>)) with (tree_refs x f) in Hp. lia.
    + apply put_fs_fresh; [apply Hg|]. apply (af_fs _ (gi_fresh _ _ _ _ Hg) _ _ Hf).
Qed.

Lemma forget_usage_cases fs i c : forget_usage fs i c = c ∨ ∃ g, forget_usage fs i c = edit_usage fs g c.
Proof. unfold forget_usage. destruct (kind i); [by left|right; eauto|by left..]. Qed.

Lemma ginv_forget_usage c0 due owed fs i s :
  ginv c0 due owed s → ginv c0 due owed (s <| cat ::= forget_usage fs i |>).
Proof.
  intros Hg. destruct (forget_usage_cases fs i (cat s)) as [He|[g He]].
  - apply ginv_same; [done|by rewrite He..|rewrite He; apply Hg].
  - replace (s <| cat ::= forget_usage fs i |>) with (s <| cat ::= edit_usage fs g |>); [by apply ginv_edit_usage|].
    destruct s. simpl in *. by rewrite He.
Qed.

(** *** Dropping references *)

Lemma wp_dec_refs_good c0 l rest s :
  ginv c0 [] (l ++ rest) s → wp (sm_for l dec_ref) s (λ _ s', ginv c0 [] rest s') (λ _ _, False).
Proof.
  intros [Hi Hf]. eapply wp_mono; [by apply wp_dec_refs| |done]. intros [] s' [Hi' Ho].
  split; [done|by eapply only_extents_fresh].
Qed.

Lemma wp_drop_inodes c0 l rest s :
  ginv c0 [] ((l ≫= ext_list) ++ rest) s →
  wp (sm_for l drop_inode) s (λ _ s', ginv c0 [] rest s') (λ _ _, False).
Proof.
  intros Hg. apply (wp_for l drop_inode (λ l s', ginv c0 [] ((l ≫= ext_list) ++ rest) s')); [|done..].
  intros i l' s' Hg'. rewrite drop_inode_list. apply wp_dec_refs_good. by rewrite bind_cons, <- app_assoc in Hg'.
Qed.

Lemma wp_drop_gone c0 fs gone s :
  ginv c0 [] (default [] (ext_list <$> gone)) s →
  wp (drop_gone fs gone) s (λ _ s', ginv c0 [] [] s') (λ _ _, False).
Proof.
  intros Hg. destruct gone as [x|]; simpl in *; [|done]. unfold edit. wp_simpl. rewrite drop_inode_list.
  apply wp_dec_refs_good. rewrite app_nil_r. by apply ginv_forget_usage.
Qed.

(** *** Each operation *)

(** References are kept and an error changes nothing. *)
Abbreviation keeps m c0 s := (wp m s (λ _ s', ginv c0 [] [] s') (λ _ s', s' = s)).

Lemma filesystem_Ok c fs f : filesystem c fs = Ok f ↔ filesystems c !! fs = Some f.
Proof. unfold filesystem, ok_or. destruct (filesystems c !! fs); naive_solver. Qed.
Lemma filesystem_no_panic c fs : filesystem c fs ≠ Panic.
Proof. unfold filesystem, ok_or. by case_match. Qed.
Lemma check_name_no_panic n : check_name n ≠ Panic.
Proof. unfold check_name, reject_if. by case_match. Qed.
Lemma check_xattr_name_no_panic n : check_xattr_name n ≠ Panic.
Proof. unfold check_xattr_name. by repeat case_match. Qed.

Section ops.
Context (c0 : Catalog) (s : Ctx) (Hg : ginv c0 [] [] s).

Lemma fresh_lookup fs f : filesystems (cat s) !! fs = Some f → fresh f.
Proof. apply (af_fs _ (gi_fresh _ _ _ _ Hg)). Qed.

Lemma mknode_good fs parent name id t tg r m cm u g now :
  (∀ f, filesystems (cat s) !! fs = Some f → next_ino f < u64_max) →
  keeps (mknode fs parent name id t tg r m cm u g now) c0 s.
Proof.
  intros Hroom. unfold mknode. wp_simpl. apply wp_read; [apply check_name_no_panic| |done]. intros [] _.
  apply wp_on_fs_kept; [done|]. intros f Hl Hf. apply mknode_kept; auto.
Qed.

Lemma link_good fs i parent name now : keeps (link fs i parent name now) c0 s.
Proof.
  unfold link. wp_simpl. apply wp_read; [apply check_name_no_panic| |done]. intros [] _.
  apply wp_on_fs_kept; [done|]. intros f _ Hf. by apply link_kept.
Qed.

Lemma wp_gone fs (m : SM FsMeta MetaError (option Inode)) :
  (∀ f, filesystems (cat s) !! fs = Some f → fresh f → wp m f (kept f) (λ _ f', f' = f)) →
  keeps (gone ← on_fs fs m; drop_gone fs gone) c0 s.
Proof.
  intros Hm. apply wp_bind.
  apply (wp_on_fs_moved c0 fs m (λ _, []) (λ gone, default [] (ext_list <$> gone))); [done|done| |].
  - intros f Hl Hf. eapply wp_mono; [by apply Hm| |done]. intros gone f'. apply kept_moved.
  - intros gone f' Hg'. by eapply wp_mono; [by apply wp_drop_gone| |].
Qed.

Lemma unlink_good fs parent name now : keeps (unlink fs parent name now) c0 s.
Proof. apply wp_gone. intros f _ Hf. by apply unlink_kept. Qed.

Lemma rmdir_good fs parent name now : keeps (rmdir fs parent name now) c0 s.
Proof. apply wp_on_fs_kept; [done|]. intros f _ Hf. by apply rmdir_kept. Qed.

Lemma rename_good fs parent name np nname now :
  (∀ f, filesystems (cat s) !! fs = Some f → rooted f) →
  keeps (rename fs parent name np nname now) c0 s.
Proof.
  intros Hr. unfold rename. apply wp_bind, wp_lift, wp_read; [apply check_name_no_panic| |done]. intros [] _.
  apply wp_gone. intros f Hl Hf. apply rename_kept; auto.
Qed.

Lemma set_attr_good fs i attr now : keeps (set_attr fs i attr now) c0 s.
Proof.
  unfold set_attr. apply wp_bind.
  apply (wp_on_fs_moved c0 fs _ (λ _, []) (λ r, bt_values (r.1))); [done|done| |].
  - intros f _ Hf. by apply set_attr_moved.
  - intros [cut rs] f' Hg'. unfold edit. wp_simpl. simpl in Hg'.
    eapply wp_mono; [apply (wp_dec_refs_good c0 _ [])|done|done].
    rewrite app_nil_r. by apply ginv_edit_usage.
Qed.

Lemma set_xattr_good fs i name v xm now : keeps (set_xattr fs i name v xm now) c0 s.
Proof.
  unfold set_xattr. wp_simpl. apply wp_read; [apply check_xattr_name_no_panic| |done]. intros [] _.
  wp_simpl. apply wp_read; [unfold reject_if; by case_match| |done]. intros [] _.
  apply wp_on_fs_kept; [done|]. intros f _ Hf. by apply set_xattr_kept.
Qed.

Lemma remove_xattr_good fs i name now : keeps (remove_xattr fs i name now) c0 s.
Proof. apply wp_on_fs_kept; [done|]. intros f _ Hf. by apply remove_xattr_kept. Qed.

Lemma set_quota_good fs mb mi : keeps (set_quota fs mb mi) c0 s.
Proof.
  apply wp_on_fs_kept; [done|]. intros f _ Hf. wp_simpl. split; [|done].
  intros x. change (tree_refs x (f <| quota := _ |>)) with (tree_refs x f). simpl. lia.
Qed.
End ops.

(** *** Installing extents *)

Lemma add_extent_ref_fresh e c : all_fresh c → all_fresh (add_extent_ref e c).
Proof.
  intros [H1 H2]. destruct (add_extent_ref_eq e c) as (m & fl & -> & _). by split.
Qed.

Lemma add_extent_refs_good c0 new due owed s :
  gc s = [] → ginv c0 ((eid <$> new) ++ due) owed s →
  ginv c0 due owed (s <| cat ::= λ c, foldl (λ c e, add_extent_ref e c) c new |>).
Proof.
  revert s. induction new as [|e new IH]; intros s Hgc [Hi Hf]; cbn [foldl].
  - by destruct s.
  - refine (IH (s <| cat ::= add_extent_ref e |>) _ _); [done|]. split.
    + by apply add_extent_ref_inv.
    + by apply add_extent_ref_fresh.
Qed.

Lemma ec_check_no_panic e : check e ≠ Panic.
Proof.
  unfold check, Ec.Ec.check, Ec.Ec.scheme, ok_or, reject_if, mbind, res_bind. by repeat case_match.
Qed.

Lemma check_byte_quota_no_panic c fs i l : check_byte_quota c fs i l ≠ Panic.
Proof.
  unfold check_byte_quota, filesystem, inode, ok_or, reject_if, mbind, res_bind. by repeat case_match.
Qed.

Lemma res_for_no_panic {E A} (l : list A) (g : A → res E ()) :
  (∀ x, g x ≠ Panic) → res_for l g ≠ Panic.
Proof.
  intros Hg. induction l as [|x l IH]; simpl; [done|]. unfold mbind, res_bind.
  specialize (Hg x). by destruct (g x).
Qed.

Section installs.
Context (c0 : Catalog) (s : Ctx) (Hg : ginv c0 [] [] s) (Hgc : gc s = []).

Lemma install_extents_good fs i new at_least now repl :
  keeps (install_file_extents fs i new at_least now repl) c0 s.
Proof.
  unfold install_file_extents, look. apply wp_bind, wp_lift, wp_read; [| |done].
  { apply res_for_no_panic, ec_check_no_panic. }
  intros [] _. apply wp_bind, wp_try, wp_read; [apply check_byte_quota_no_panic| |done]. intros [] _.
  apply wp_bind. apply (wp_on_fs_moved c0 fs _ (λ _, eid <$> new) fst); [done|done| |].
  - intros f _ Hf. eapply wp_mono; [by apply install_moved| |done]. intros r f'.
    by rewrite <- list_fmap_compose.
  - intros [old grown] f' Hg'. unfold edit. wp_simpl.
    eapply wp_mono; [apply (wp_dec_refs_good c0 _ [])|done|done].
    rewrite app_nil_r. apply ginv_edit_usage, add_extent_refs_good; [done|by rewrite app_nil_r].
Qed.

Lemma install_extent_good fs i off e at_least now repl :
  keeps (install_file_extent fs i off e at_least now repl) c0 s.
Proof.
  unfold install_file_extent, look. apply wp_bind, wp_lift, wp_read; [apply ec_check_no_panic| |done].
  intros [] _. apply wp_bind, wp_try, wp_read; [apply check_byte_quota_no_panic| |done]. intros [] _.
  apply wp_bind. apply (wp_on_fs_moved c0 fs _ (λ _, [eid e]) fst); [done|done| |].
  - intros f _ Hf. by apply install_moved.
  - intros [old grown] f' Hg'. unfold edit. wp_simpl.
    eapply wp_mono; [apply (wp_dec_refs_good c0 _ [])|done|done].
    rewrite app_nil_r. apply ginv_edit_usage. apply (add_extent_refs_good c0 [e]); [done|done].
Qed.
End installs.

(** *** Filesystems, snapshots and clones *)

Definition del_fs (fs : FsId) (c : Catalog) : Catalog := c <| filesystems ::= delete fs |>.

Lemma del_fs_refs x fs f c :
  filesystems c !! fs = Some f → (catalog_refs x (del_fs fs c) + tree_refs x f = catalog_refs x c)%nat.
Proof.
  intros Hf. unfold catalog_refs, del_fs. simpl. rewrite (map_sum_delete (tree_refs x) _ _ _ Hf). lia.
Qed.

Definition put_snap (id : SnapshotId) (sn : FsSnapshotMeta) (c : Catalog) : Catalog :=
  c <| fs_snapshots ::= <[id := sn]> |>.

Lemma put_snap_refs x id sn c :
  fs_snapshots c !! id = None → catalog_refs x (put_snap id sn c) = (tree_refs x (sn_tree sn) + catalog_refs x c)%nat.
Proof. intros Hs. unfold catalog_refs, put_snap. simpl. rewrite map_sum_insert_None by done. lia. Qed.

Lemma del_snap_refs x id sn c :
  fs_snapshots c !! id = Some sn →
  (catalog_refs x (c <| fs_snapshots ::= delete id |>) + tree_refs x (sn_tree sn) = catalog_refs x c)%nat.
Proof.
  intros Hs. unfold catalog_refs. simpl.
  rewrite (map_sum_delete (λ s, tree_refs x (sn_tree s)) _ _ _ Hs). lia.
Qed.

(** A tree of the catalog: its references are counted. *)
Definition tree_in (f : FsMeta) (c : Catalog) : Prop := ∀ x, (tree_refs x f ≤ catalog_refs x c)%nat.

Lemma fs_tree_in fs f c : filesystems c !! fs = Some f → tree_in f c.
Proof. intros Hf x. pose proof (del_fs_refs x fs f c Hf). lia. Qed.

Lemma snap_tree_in id sn c : fs_snapshots c !! id = Some sn → tree_in (sn_tree sn) c.
Proof. intros Hs x. pose proof (del_snap_refs x id sn c Hs). lia. Qed.

Lemma wp_share c0 tree owed s (Q : () → Ctx → Prop) R :
  ginv c0 [] owed s → tree_in tree (cat s) →
  (∀ s', ginv c0 [] ((scan tree ≫= ext_list) ++ owed) s' → only_extents (cat s) (cat s') → gc s' = gc s →
     Q () s') →
  wp (share_extents tree) s Q R.
Proof.
  intros [Hi Hf] Ht HQ. unfold share_extents. rewrite file_extents_list.
  eapply wp_mono; [apply wp_inc_refs; [done|]| |done].
  - intros x Hx%count_elem. rewrite <- tree_refs_list in Hx. specialize (Ht x). lia.
  - intros [] s' (Hi' & Ho & Hgc). apply HQ; [|done|done]. split; [done|by eapply only_extents_fresh].
Qed.

(** Dropping a whole tree that left the catalog. *)
Lemma wp_drop_tree c0 f rest s :
  ginv c0 [] ((scan f ≫= ext_list) ++ rest) s →
  wp (sm_for (scan f) drop_inode) s (λ _ s', ginv c0 [] rest s') (λ _ _, False).
Proof. apply wp_drop_inodes. Qed.

Lemma new_fs_refs x fs name now grid r : tree_refs x (new_fs fs name now grid r) = 0%nat.
Proof.
  unfold tree_refs, new_fs. cbn [inodes]. rewrite <- insert_empty, map_sum_insert_None, map_sum_empty by done. done.
Qed.

Lemma new_fs_fresh fs name now grid r : fresh (new_fs fs name now grid r).
Proof. intros i x. simpl. rewrite lookup_singleton_Some. by intros [<- <-]. Qed.

Lemma all_fresh_put c fs f : all_fresh c → fresh f → all_fresh (put_fs fs f c).
Proof. apply put_fs_fresh. Qed.

Section trees.
Context (c0 : Catalog) (s : Ctx) (Hg : ginv c0 [] [] s).

(** A new filesystem that takes the references [owed]. *)
Lemma ginv_put_new owed s' fs f :
  ginv c0 [] owed s' → filesystems (cat s') !! fs = None → fresh f →
  (∀ x, tree_refs x f = count x owed) → ginv c0 [] [] (s' <| cat ::= put_fs fs f |>).
Proof.
  intros [Hi Hf] Hn Hff Hr. split; [|by apply put_fs_fresh].
  eapply inv_edit; [done|done|]. intros x. pose proof (put_fs_refs x fs f (cat s')) as Hp.
  rewrite Hn in Hp. simpl in Hp. rewrite !count_nil, <- Hr. lia.
Qed.

Lemma create_fs_good fs name now grid : keeps (create_fs fs name now grid) c0 s.
Proof.
  unfold create_fs. case_bool_decide; [by wp_simpl|]. wp_simpl.
  destruct (filesystems (cat s) !! fs) as [f|] eqn:Hf.
  - destruct (_ =? _)%string; by wp_simpl.
  - unfold edit. wp_simpl. apply (ginv_put_new [] s); [done|done|apply new_fs_fresh|]. intros x. apply new_fs_refs.
Qed.

Lemma delete_fs_good fs : keeps (delete_fs fs) c0 s.
Proof.
  unfold delete_fs, look, edit. wp_simpl. apply wp_read; [apply filesystem_no_panic| |done].
  intros f Hl%filesystem_Ok.
  wp_simpl. eapply wp_mono; [apply (wp_drop_tree c0 f [])| |done]; [|done].
  rewrite app_nil_r. apply ginv_same; [|done|done|].
  - destruct Hg as [Hi [Hf1 Hf2]]. split.
    + eapply (inv_edit c0 [] []); [done|done|]. intros x. rewrite !count_nil, <- tree_refs_list.
      pose proof (del_fs_refs x fs f (cat s) Hl) as Hd. unfold del_fs in Hd. lia.
    + split; [|done]. simpl. intros fs' f' [_ ?]%lookup_delete_Some. eauto.
  - destruct Hg as [_ [Hf1 Hf2]]. split; [|done]. simpl. intros fs' f' [_ ?]%lookup_delete_Some. eauto.
Qed.

(** A snapshot under a new id of a filesystem that exists does not fail. *)
Lemma snapshot_tree_total id fs name now f :
  fs_snapshots (cat s) !! id = None → filesystems (cat s) !! fs = Some f →
  wp (snapshot_tree id fs name now) s (λ _ s', ginv c0 [] [] s') (λ _ _, False).
Proof.
  intros Hid Hl. unfold snapshot_tree, look, edit. wp_simpl. rewrite Hid. wp_simpl.
  rewrite (proj2 (filesystem_Ok (cat s) fs f)) by done.
  wp_simpl. eapply wp_share; [exact Hg|exact (fs_tree_in fs f (cat s) Hl)|].
  intros s' Hg' Ho _. rewrite app_nil_r in Hg'. wp_simpl. destruct Hg' as [Hi' Hf']. split.
  - apply (inv_edit c0 [] (scan f ≫= ext_list) [] [] s'
      (put_snap id (mkFsSnapshotMeta id fs name now (f <| replica := None |>)))); [done|done|].
    intros x. rewrite !count_nil, <- tree_refs_list.
    rewrite (put_snap_refs x id) by (by destruct Ho as [es ->]).
    change (tree_refs x (sn_tree _)) with (tree_refs x f). lia.
  - destruct Hf' as [H1 H2]. split; [done|]. simpl. intros id' sn' [[<- <-]|[_ ?]]%lookup_insert_Some; [|eauto].
    exact (af_fs _ (gi_fresh _ _ _ _ Hg) _ _ Hl).
Qed.

Lemma snapshot_tree_good id fs name now : keeps (snapshot_tree id fs name now) c0 s.
Proof.
  destruct (fs_snapshots (cat s) !! id) as [sn|] eqn:Hid.
  { unfold snapshot_tree. wp_simpl. rewrite Hid. destruct (_ && _); by wp_simpl. }
  destruct (filesystems (cat s) !! fs) as [f|] eqn:Hl.
  - eapply wp_mono; [by eapply snapshot_tree_total|done|done].
  - unfold snapshot_tree, look. wp_simpl. rewrite Hid. wp_simpl. unfold filesystem. by rewrite Hl.
Qed.

Lemma delete_fs_snapshot_good id : keeps (delete_fs_snapshot id) c0 s.
Proof.
  unfold delete_fs_snapshot, look, edit. wp_simpl. destruct (existsb _ _); [by wp_simpl|]. wp_simpl.
  destruct (fs_snapshots (cat s) !! id) as [sn|] eqn:Hid; cbn [ok_or]; [|done].
  eapply wp_mono; [apply (wp_drop_tree c0 (sn_tree sn) [])|done|done]. rewrite app_nil_r.
  destruct Hg as [Hi [Hf1 Hf2]]. split.
  - apply (inv_edit c0 [] [] [] _ s (λ c, c <| fs_snapshots ::= delete id |>)); [done|done|].
    intros x. rewrite !count_nil, <- tree_refs_list.
    pose proof (del_snap_refs x id sn (cat s) Hid) as Hd. lia.
  - split; [done|]. simpl. intros id' sn' [_ ?]%lookup_delete_Some. eauto.
Qed.

Lemma clone_fs_good id name snap : keeps (clone_fs id name snap) c0 s.
Proof.
  unfold clone_fs, look, edit. wp_simpl. destruct (filesystems (cat s) !! id) as [f|] eqn:Hid.
  { destruct (_ && _); by wp_simpl. }
  wp_simpl. destruct (fs_snapshots (cat s) !! snap) as [sn|] eqn:Hs; cbn [ok_or]; [|done].
  wp_simpl. eapply wp_share; [exact Hg|exact (snap_tree_in snap sn (cat s) Hs)|].
  intros s' Hg' Ho _. rewrite app_nil_r in Hg'. wp_simpl.
  eapply (ginv_put_new _ s'); [exact Hg'|by destruct Ho as [es ->]| |].
  - exact (af_snap _ (gi_fresh _ _ _ _ Hg) _ _ Hs).
  - intros x. by rewrite <- tree_refs_list.
Qed.
End trees.

End NsRefs.
