(* ===== verification/NsTree.v ===== *)
(** * Directory operations refine the abstract tree

    [view] forgets everything of an inode table but names, parents and link
    counts.  Each directory operation of [Namespace.v] does to the view exactly
    what the operation of [Tree.v] does, so that trees stay trees: every
    directory has one name, every link count is right and every way up ends at
    the root. *)

From S2P Require Import Prelude MetaError Leases Acl Catalog Extents FsTree Tree Namespace NsSpec NsRefs.

Module NsTree.
Import Catalog Extents FsTree Namespace NsSpec NsRefs.
Import Tree (node, SDir, SLeaf, is_sdir, tree_ok).

Open Scope N_scope.

Definition shape (x : Inode) : node :=
  match kind x with Dir p es => SDir p es (nlink x) | _ => SLeaf (nlink x) end.
Definition view (f : FsMeta) : gmap N node := shape <$> inodes f.

(** Link counts that can be raised without wrapping around. *)
Definition u32_max : N := 4294967295.
Definition roomy (f : FsMeta) : Prop := ∀ i x, inodes f !! i = Some x → nlink x < u32_max.

Lemma view_put f i x : view (put f i x) = <[i := shape x]> (view f).
Proof. unfold view, put. simpl. by rewrite fmap_insert. Qed.
Lemma view_delete f i : view (f <| inodes ::= delete i |>) = delete i (view f).
Proof. unfold view. simpl. by rewrite fmap_delete. Qed.
Lemma view_lookup f i : view f !! i = shape <$> inodes f !! i.
Proof. apply lookup_fmap. Qed.

Lemma view_dir f d p :
  inodes f !! d = Some p → is_dir p = true → ∃ pp es, kind p = Dir pp es ∧ view f !! d = Some (SDir pp es (nlink p)).
Proof.
  intros Hp (pp & es & Hk)%is_dir_true. exists pp, es. split; [done|]. rewrite view_lookup, Hp. simpl. unfold shape. by rewrite Hk.
Qed.

Lemma view_leaf f i x : inodes f !! i = Some x → is_dir x = false → view f !! i = Some (SLeaf (nlink x)).
Proof. intros Hx Hd. rewrite view_lookup, Hx. simpl. unfold shape, is_dir in *. by destruct (kind x). Qed.

Lemma view_SDir f d pp es n :
  view f !! d = Some (SDir pp es n) → ∃ p, inodes f !! d = Some p ∧ kind p = Dir pp es ∧ nlink p = n ∧ is_dir p = true.
Proof.
  rewrite view_lookup. intros (p & Hs & Hp)%fmap_Some. exists p. unfold shape, is_dir in *. destruct (kind p); naive_solver.
Qed.

Lemma is_sdir_shape x : is_sdir (Some (shape x)) = is_dir x.
Proof. unfold shape, is_dir. by destruct (kind x). Qed.

Lemma as_u32_small z : (0 <= z < 4294967296)%Z → as_u32 z = Z.to_N z.
Proof. intros Hz. unfold as_u32. apply N.mod_small. unfold u32_size. lia. Qed.

(** The shape of a directory after an entry changed. *)
Lemma shape_relinked name o z now p pp es :
  kind p = Dir pp es → nlink p < u32_max → (-1 <= z <= 1)%Z →
  shape (relinked name o z now p) =
    SDir pp (match o with Some c => <[name := c]> es | None => delete name es end) (Z.to_N (Z.of_N (nlink p) + z)).
Proof.
  intros Hk Hn Hz. unfold shape, relinked, touch. simpl. rewrite Hk. simpl.
  rewrite as_u32_small; [f_equal; lia|]. unfold u32_max in Hn. lia.
Qed.

(** ** The operations *)

Section ops.
Context (f : FsMeta) (Hok : tree_ok (view f)) (Hroom : roomy f).

(** A new node of type [t] under the number [i], and its one name. *)
Definition created (parent : N) (name id : string) (t : NodeType) (u g : N) (f' : FsMeta) : Prop :=
  let i := next_ino f in
  (∃ s, Tree.unnamed s ∧ (is_sdir (Some s) = true ↔ t = NDir) ∧ view f' = Tree.create parent name i s (view f)) ∧
  ∃ x, inodes f' !! i = Some x ∧ node_type x = t ∧ op_id x = id ∧ uid x = u ∧ gid x = g.

(** An earlier attempt of the operation made the node that has the name. *)
Definition retried (parent : N) (name id : string) : Prop :=
  id ≠ EmptyString ∧ ∃ i x, entry f parent name = Ok (Some i) ∧ inodes f !! i = Some x ∧ op_id x = id.

Lemma mknode_refines parent name id t tg r m cm u g now :
  inodes f !! next_ino f = None →
  wp (mknode_in parent name id t tg r m cm u g now) f
    (λ _ f', f' = f ∧ retried parent name id ∨
       tree_ok (view f') ∧ entry f parent name = Ok None ∧ created parent name id t u g f')
    (λ _ f', f' = f).
Proof.
  intros Hfresh. apply wp_mknode_in; [done|done| |].
  { intros p e x Hp He Hx Hid Hd Hne. left. split; [done|]. split; [done|]. exists e, x. split; [|done]. apply entry_Ok. by exists p. }
  intros p k m' acls Hp Hd He _ _ Hk i x. right.
  destruct (view_dir f parent p Hp Hd) as (pp & es & Hkp & Hv).
  assert (es !! name = None) as Hes by (unfold entry_of in He; by rewrite Hkp in He).
  assert (i ≠ parent) as Hne by (unfold i; congruence).
  assert (view f !! i = None) as Hi by (rewrite view_lookup; unfold i; by rewrite Hfresh).
  set (s := match k with Dir _ _ => SDir parent ∅ 2 | _ => SLeaf 0 end).
  assert (shape x = Tree.adopted parent s ∧ is_dir x = is_sdir (Some s) ∧ Tree.unnamed s ∧
          (is_sdir (Some s) = true ↔ t = NDir)) as (Hx & Hdx & Hu & Ht).
  { unfold x, s, shape, is_dir. simpl. unfold new_kind in Hk.
    destruct t; repeat case_match; simplify_eq; naive_solver. }
  enough (view (put (put (f <| next_ino := u64_add i 1 |>) i x) parent
            (relinked name (Some i) (if is_dir x then 1 else 0) now p)) = Tree.create parent name i s (view f)) as Heq.
  { rewrite Heq. split; [by eapply Tree.create_ok|]. split; [apply entry_Ok; by exists p|]. split; [by exists s|]. exists x. split; [|split_and!; try done].
    - unfold put. simpl. by rewrite lookup_insert_ne, lookup_insert_eq.
    - unfold x. simpl. unfold new_kind in Hk. by destruct t; repeat case_match; simplify_eq. }
  rewrite view_put, view_put. change (view (f <| next_ino := _ |>)) with (view f).
  unfold Tree.create. rewrite (Tree.attach_eq _ i parent pp es (nlink p) name s);
    [|by rewrite lookup_insert_ne|by rewrite lookup_insert_eq|done].
  unfold Tree.attached. rewrite insert_insert_eq, Hx. f_equal.
  rewrite (shape_relinked _ _ _ _ _ pp es); [|done|by eapply Hroom|by destruct (is_dir x)].
  rewrite Hdx. f_equal. destruct (is_sdir (Some s)); lia.
Qed.

Lemma link_refines i parent name now :
  wp (link_in i parent name now) f
    (λ _ f', view f' = view f ∨
       tree_ok (view f') ∧ view f' = Tree.attach parent name i (view f)) (λ _ f', f' = f).
Proof.
  apply wp_link_in; [done|by left|]. intros p x Hp Hd Hx Hdx He. right.
  destruct (view_dir f parent p Hp Hd) as (pp & es & Hkp & Hv). pose proof (view_leaf f i x Hx Hdx) as Hl.
  assert (es !! name = None) as Hes by (unfold entry_of in He; by rewrite Hkp in He).
  assert (i ≠ parent) as Hne by congruence.
  enough (view (put (put f parent (relinked name (Some i) 0 now p)) i
            (x <| nlink ::= λ n, u32_add n 1 |> <| ctime_ns := now |>)) = Tree.attach parent name i (view f)) as Heq.
  { rewrite Heq. split; [|done]. by eapply Tree.link_ok. }
  rewrite (Tree.attach_eq _ i parent pp es (nlink p) name (SLeaf (nlink x))) by done. unfold Tree.attached.
  rewrite view_put, view_put, insert_insert_ne by done. f_equal.
  - rewrite (shape_relinked _ _ _ _ _ pp es); [|done|by eapply Hroom|done]. f_equal. simpl. lia.
  - f_equal. unfold shape, is_dir in *. simpl. pose proof (Hroom i x Hx) as Hn. unfold u32_add, u32_max, u32_size in *.
    rewrite N.mod_small by lia. by destruct (kind x).
Qed.

Lemma unlink_refines parent name now :
  wp (unlink_in parent name now) f
    (λ _ f', tree_ok (view f') ∧ ∃ i, lookup f parent name = Ok i ∧ view f' = Tree.remove parent name i (view f))
    (λ _ f', f' = f).
Proof.
  apply wp_unlink_in; [done|]. intros p i x Hp Hd He Hx Hdx f1 y.
  assert (lookup f parent name = Ok i) as Hlk by (apply lookup_Ok; by exists p).
  destruct (view_dir f parent p Hp Hd) as (pp & es & Hkp & Hv). pose proof (view_leaf f i x Hx Hdx) as Hl.
  assert (es !! name = Some i) as Hes by (unfold entry_of in He; by rewrite Hkp in He).
  assert (i ≠ parent) as Hne by congruence.
  assert (tree_ok (Tree.remove parent name i (view f))) as Hrem by (by eapply Tree.remove_ok).
  assert (view (put f1 i y) = Tree.detach parent name i (view f)) as Hdet.
  { unfold Tree.detach. rewrite Hl. unfold Tree.del_entry. rewrite lookup_insert_ne, Hv by done.
    unfold f1. rewrite view_put, view_put, insert_insert_ne by done. f_equal.
    - rewrite (shape_relinked _ _ _ _ _ pp es); [|done|by eapply Hroom|done]. f_equal. lia.
    - f_equal. unfold y, shape, is_dir in *. simpl. by destruct (kind x). }
  assert (shape y = SLeaf (nlink x - 1)) as Hy by (unfold y, shape, is_dir in *; simpl; by destruct (kind x)).
  assert (if nlink x - 1 =? 0 then view (f1 <| inodes ::= delete i |>) = Tree.remove parent name i (view f)
          else view (put f1 i y) = Tree.remove parent name i (view f)) as Heq.
  { unfold Tree.remove. rewrite <- Hdet, view_put, lookup_insert_eq, Hy.
    destruct (nlink x - 1 =? 0); [|done]. by rewrite view_delete, delete_insert_eq. }
  destruct (nlink x - 1 =? 0); rewrite Heq; eauto.
Qed.

Lemma rmdir_refines parent name now :
  wp (rmdir_in parent name now) f
    (λ _ f', tree_ok (view f') ∧ ∃ i, lookup f parent name = Ok i ∧ view f' = Tree.remove parent name i (view f))
    (λ _ f', f' = f).
Proof.
  apply wp_rmdir_in; [done|]. intros p i x qq Hp Hd He Hne Hx Hk.
  assert (lookup f parent name = Ok i) as Hlk by (apply lookup_Ok; by exists p).
  destruct (view_dir f parent p Hp Hd) as (pp & es & Hkp & Hv).
  assert (view f !! i = Some (SDir qq ∅ (nlink x))) as Hl by (rewrite view_lookup, Hx; simpl; unfold shape; by rewrite Hk).
  assert (es !! name = Some i) as Hes by (unfold entry_of in He; by rewrite Hkp in He).
  enough (view ((put f parent (relinked name None (-1) now p)) <| inodes ::= delete i |>)
          = Tree.remove parent name i (view f)) as Heq.
  { rewrite Heq. split; [|eauto]. eapply Tree.remove_ok; [done..|]. intros y. apply map_sum_empty. }
  unfold Tree.remove, Tree.detach. rewrite Hl. unfold Tree.del_entry. rewrite Hv, lookup_insert_ne, Hl by done.
  rewrite view_delete, view_put. do 2 f_equal.
  rewrite (shape_relinked _ _ _ _ _ pp es); [|done|by eapply Hroom|done]. f_equal. lia.
Qed.
End ops.

(** ** Renaming *)

Lemma shape_with_entry name o x p es :
  kind x = Dir p es →
  shape (x <| kind ::= with_entry name o |>) =
    SDir p (match o with Some c => <[name := c]> es | None => delete name es end) (nlink x).
Proof. intros Hk. unfold shape. simpl. by rewrite Hk. Qed.

Lemma roomy_put f i x : roomy f → nlink x < u32_max → roomy (put f i x).
Proof. intros Hr Hx j y. unfold put. simpl. intros [[<- <-]|[_ ?]]%lookup_insert_Some; [done|by eapply Hr]. Qed.
Lemma roomy_delete f i : roomy f → roomy (f <| inodes ::= delete i |>).
Proof. intros Hr j y. simpl. intros [_ ?]%lookup_delete_Some. by eapply Hr. Qed.

(** Removing the target of a rename. *)
Lemma replace_target_refines f dst np nname src_dir now q pq es' :
  roomy f → inodes f !! np = Some q → kind q = Dir pq es' → es' !! nname = Some dst → 1 <= nlink q →
  wp (replace_target dst np nname src_dir now) f
    (λ _ f', view f' = Tree.remove np nname dst (view f) ∧ roomy f' ∧
       ∃ sx, view f !! dst = Some sx ∧ ∀ y, Tree.node_links y sx = 0%nat) (λ _ f', f' = f).
Proof.
  intros Hroom Hq Hk He Hn.
  assert (is_dir q = true) as Hd by (unfold is_dir; by rewrite Hk).
  assert (entry_of q nname = Some dst) as Hent by (unfold entry_of; by rewrite Hk).
  assert (view f !! np = Some (SDir pq es' (nlink q))) as Hv by (rewrite view_lookup, Hq; simpl; unfold shape; by rewrite Hk).
  pose proof (Hroom np q Hq) as Hnq.
  eapply wp_replace_target; [done|exact Hq|done|done|..].
  - intros x pp Hx _ Hkx Hne.
    assert (view f !! dst = Some (SDir pp ∅ (nlink x))) as Hl by (rewrite view_lookup, Hx; simpl; unfold shape; by rewrite Hkx).
    split_and!.
    + unfold Tree.remove, Tree.detach. rewrite Hl. unfold Tree.del_entry. rewrite Hv, lookup_insert_ne, Hl by done.
      rewrite view_put, view_delete, delete_insert_ne by done. f_equal.
      rewrite (shape_relinked _ _ _ _ _ pq es') by done. f_equal. lia.
    + apply roomy_put; [by apply roomy_delete|]. unfold relinked, touch. simpl.
      rewrite as_u32_small; unfold u32_max in *; lia.
    + eexists. split; [done|]. intros y. apply map_sum_empty.
  - intros x Hx _ Hdx f1 y. pose proof (view_leaf f dst x Hx Hdx) as Hl. assert (dst ≠ np) as Hne by congruence.
    assert (shape y = SLeaf (nlink x - 1)) as Hy by (unfold y, shape, is_dir in *; simpl; by destruct (kind x)).
    assert (view (put f1 dst y) = Tree.detach np nname dst (view f)) as Hdet.
    { unfold Tree.detach. rewrite Hl. unfold Tree.del_entry. rewrite lookup_insert_ne, Hv by done.
      unfold f1. rewrite view_put, view_put, insert_insert_ne, Hy by done. f_equal.
      rewrite (shape_with_entry _ _ _ pq es') by done. f_equal. lia. }
    assert (roomy f1) as Hr1 by (apply roomy_put; [done|done]).
    assert (roomy (put f1 dst y)) as Hr2 by (apply roomy_put; [done|]; unfold y; simpl; pose proof (Hroom dst x Hx); lia).
    assert (if nlink x - 1 =? 0 then view (f1 <| inodes ::= delete dst |>) = Tree.remove np nname dst (view f)
            else view (put f1 dst y) = Tree.remove np nname dst (view f)) as Heq.
    { unfold Tree.remove. rewrite <- Hdet, view_put, lookup_insert_eq, Hy.
      destruct (nlink x - 1 =? 0); [|done]. by rewrite view_delete, delete_insert_eq. }
    destruct (nlink x - 1 =? 0); rewrite Heq; split_and!; eauto using roomy_delete.
Qed.

(** The shape of a node taken from one directory and put in another. *)
Lemma shape_moved x np now :
  1 <= nlink x →
  shape (x <| ctime_ns := now |> <| kind ::= set_parent np |>) =
    Tree.adopted np (match shape x with SDir _ _ _ => shape x | SLeaf m => SLeaf (m - 1) end).
Proof. intros Hn. unfold shape. simpl. destruct (kind x); simpl; [done|f_equal; lia..]. Qed.

(** A directory whose count moved by [z]. *)
Lemma shape_stamped x z now p es :
  kind x = Dir p es → nlink x < u32_max → (-1 <= z <= 1)%Z →
  shape (touch now (x <| nlink ::= λ n, as_u32 (Z.max (Z.of_N n + z) 0) |>)) = SDir p es (Z.to_N (Z.of_N (nlink x) + z)).
Proof.
  intros Hk Hn Hz. unfold shape, touch. simpl. rewrite Hk. rewrite as_u32_small; [f_equal; lia|]. unfold u32_max in Hn. lia.
Qed.

Section move.
Context (f : FsMeta) (Hroom : roomy f).
Context (parent np src : N) (p q s : Inode) (pp pq : N) (es es' : gmap string N) (name nname : string).
Context (Hp : inodes f !! parent = Some p) (Hkp : kind p = Dir pp es) (He : es !! name = Some src).
Context (Hq : inodes f !! np = Some q) (Hkq : kind q = Dir pq es') (He' : es' !! nname = None).
Context (Hs : inodes f !! src = Some s) (Hsp : src ≠ parent) (Hsn : src ≠ np) (Hs1 : 1 <= nlink s).
Context (Hp1 : is_dir s = true → 1 <= nlink p).

Let dp : is_dir p = true.
Proof. unfold is_dir. by rewrite Hkp. Qed.
Let dq : is_dir q = true.
Proof. unfold is_dir. by rewrite Hkq. Qed.
Let vp : view f !! parent = Some (SDir pp es (nlink p)).
Proof. rewrite view_lookup, Hp. simpl. unfold shape. by rewrite Hkp. Qed.
Let vq : view f !! np = Some (SDir pq es' (nlink q)).
Proof. rewrite view_lookup, Hq. simpl. unfold shape. by rewrite Hkq. Qed.
Let vs : view f !! src = Some (shape s).
Proof. by rewrite view_lookup, Hs. Qed.

(** The tree after the move, looked up. *)
Lemma moved_lookup x :
  Tree.attach np nname src (Tree.detach parent name src (view f)) !! x =
    if decide (x = src) then Some (shape (s <| ctime_ns := 0%Z |> <| kind ::= set_parent np |>))
    else if decide (x = np) then
      Some (SDir pq (<[nname := src]> (if decide (np = parent) then delete name es' else es'))
              (if is_dir s && negb (parent =? np) then nlink q + 1 else nlink q))
    else if decide (x = parent) then
      Some (SDir pp (delete name es) (if is_dir s then nlink p - 1 else nlink p))
    else view f !! x.
Proof.
  destruct (Tree.detach_lookup (view f) parent pp es (nlink p) name src (shape s) vp vs Hsp) as (H1 & H2 & H3).
  set (t := Tree.detach parent name src (view f)) in *.
  assert (t !! np = Some (SDir pq (if decide (np = parent) then delete name es' else es')
    (nlink q - if decide (np = parent) then (if is_dir s then 1 else 0) else 0))) as Hnp.
  { case_decide as Hd.
    - rewrite Hd in Hq. rewrite Hp in Hq. injection Hq as <-. rewrite Hkp in Hkq. injection Hkq as <- <-.
      rewrite Hd, H1, is_sdir_shape. done.
    - rewrite H3, vq by done. f_equal. f_equal. lia. }
  rewrite (Tree.attach_eq t src np pq _ _ nname _ Hnp H2 Hsn). unfold Tree.attached.
  destruct (decide (x = src)) as [->|Hx].
  { rewrite lookup_insert_ne, lookup_insert_eq by done. by rewrite (shape_moved s np 0%Z Hs1). }
  destruct (decide (x = np)) as [->|Hxn].
  - rewrite lookup_insert_eq. do 2 f_equal.
    assert (is_sdir (Some (match shape s with SDir _ _ _ => shape s | SLeaf m => SLeaf (m - 1) end)) = is_dir s) as ->.
    { rewrite <- is_sdir_shape. by destruct (shape s). }
    case_decide as Hd.
    + rewrite Hd, N.eqb_refl. destruct (is_dir s); simpl; [|lia].
      rewrite Hd in Hq. rewrite Hp in Hq. injection Hq as <-. specialize (Hp1 eq_refl). lia.
    + rewrite (proj2 (N.eqb_neq parent np)) by congruence. destruct (is_dir s); simpl; lia.
  - rewrite !lookup_insert_ne by done. destruct (decide (x = parent)) as [->|Hxp]; [|by apply H3].
    rewrite H1, is_sdir_shape. destruct (is_dir s); do 2 f_equal; lia.
Qed.

Lemma move_entry_refines now :
  wp (move_entry parent name np nname src (is_dir s) now) f
    (λ _ f', view f' = Tree.attach np nname src (Tree.detach parent name src (view f))) (λ _ _, False).
Proof.
  pose proof moved_lookup as Hmv. unfold move_entry. set (z := if is_dir s && negb (parent =? np) then 1%Z else 0%Z).
  assert (-1 <= - z <= 1 ∧ -1 <= z <= 1)%Z as [Hz1 Hz2] by (unfold z; destruct (_ && _); lia).
  pose proof (Hroom parent p Hp) as Hnp. pose proof (Hroom np q Hq) as Hnq.
  rewrite wp_bind. apply (wp_set_entry _ _ _ _ p); [done|done|]. set (p1 := p <| kind ::= with_entry name None |>).
  rewrite wp_bind. unfold dir_changed. destruct (decide (np = parent)) as [Hd|Hd].
  - subst np. assert (q = p ∧ pq = pp ∧ es' = es) as (-> & -> & ->) by (split_and!; congruence).
    assert (z = 0%Z) as Hz0 by (unfold z; rewrite N.eqb_refl, andb_false_r; done).
    apply (wp_set_entry _ _ _ _ p1); [unfold put; simpl; by rewrite lookup_insert_eq|by unfold p1; rewrite is_dir_with_entry|].
    rewrite wp_bind, put_same. eapply wp_edit_inode; [unfold put; simpl; by rewrite lookup_insert_eq|].
    rewrite put_same, wp_bind. eapply wp_edit_inode; [unfold put; simpl; by rewrite lookup_insert_eq|]. rewrite put_same.
    eapply wp_edit_inode; [unfold put; simpl; by rewrite lookup_insert_ne, Hs by done|].
    rewrite view_put, view_put. apply map_eq. intros x. rewrite Hmv.
    destruct (decide (x = src)) as [->|Hx]; [by rewrite lookup_insert_eq|]. rewrite lookup_insert_ne by done.
    destruct (decide (x = parent)) as [->|Hxn]; [|by rewrite lookup_insert_ne by congruence].
    rewrite lookup_insert_eq. f_equal.
    rewrite Hz0, N.eqb_refl, andb_false_r. unfold shape, touch, p1. simpl. rewrite Hkp. simpl.
    rewrite !as_u32_small by (unfold u32_max in *; rewrite ?as_u32_small by (unfold u32_max in *; lia); lia). f_equal. lia.
  - apply (wp_set_entry _ _ _ _ q); [unfold put; simpl; by rewrite lookup_insert_ne|done|]. set (q1 := q <| kind ::= with_entry nname (Some src) |>).
    rewrite wp_bind. eapply (wp_edit_inode _ _ _ p1);
      [unfold put; simpl; by rewrite lookup_insert_ne, lookup_insert_eq by done|].
    rewrite wp_bind. eapply (wp_edit_inode _ _ _ q1);
      [unfold put; simpl; by rewrite lookup_insert_ne, lookup_insert_eq by done|].
    eapply wp_edit_inode; [unfold put; simpl; by rewrite !lookup_insert_ne, Hs by done|].
    rewrite !view_put. apply map_eq. intros x. rewrite Hmv.
    destruct (decide (x = src)) as [->|Hx]; [by rewrite lookup_insert_eq|]. rewrite lookup_insert_ne by done.
    destruct (decide (x = np)) as [->|Hxn].
    + rewrite lookup_insert_eq. f_equal.
      rewrite (shape_stamped _ _ _ pq (<[nname := src]> es')); [|unfold q1; simpl; by rewrite Hkq|done|done].
      f_equal. unfold z, q1. simpl. destruct (_ && _); lia.
    + rewrite lookup_insert_ne by done. destruct (decide (x = parent)) as [->|Hxp].
      * rewrite lookup_insert_eq. f_equal.
        rewrite (shape_stamped _ _ _ pp (delete name es)); [|unfold p1; simpl; by rewrite Hkp|done|done].
        f_equal. unfold z, p1. simpl. rewrite (proj2 (N.eqb_neq parent np)) by congruence. destruct (is_dir s); simpl; lia.
      * by rewrite !lookup_insert_ne.
Qed.
End move.

(** ** Walking up a tree *)

Lemma view_parent_of f d p : parent_of f d p ↔ d ≠ ROOT_INO ∧ ∃ es n, view f !! d = Some (SDir p es n).
Proof.
  unfold parent_of. split.
  - intros (Hr & x & es & Hx & Hk). split; [done|]. exists es, (nlink x). rewrite view_lookup, Hx. simpl. unfold shape. by rewrite Hk.
  - intros (Hr & es & n & (x & Hx & Hk & _)%view_SDir). split; [done|]. eauto.
Qed.

Lemma tree_rooted f : tree_ok (view f) → rooted f.
Proof.
  intros Hok d. destruct (parent_of_dec f d) as [[p Hp]|Hp]; [|exists 0%nat; constructor; by right].
  apply view_parent_of in Hp as (Hr & es & n & Hd).
  assert (Tree.climbs (view f) None d) as Hc by (apply Hok; by rewrite Hd). clear -Hc.
  induction Hc as [|c Hc|d p es n Hd Hp [k IH]]; [exists 0%nat; constructor; by left|done|].
  destruct (decide (d = ROOT_INO)) as [->|Hne]; [exists 0%nat; constructor; by left|].
  exists (S k). eapply (stop_later f _ _ d p); [done|apply view_parent_of; eauto|done].
Qed.

Lemma tabove_above f a d : Tree.tabove (view f) a d → above f a d.
Proof.
  induction 1 as [|d p es n Hr Hd _ IH]; [constructor|]. eapply above_step; [|done]. apply view_parent_of. eauto.
Qed.

Lemma node_count f i x : tree_ok (view f) → inodes f !! i = Some x → 1 <= nlink x ∧ (is_dir x = true → 2 <= nlink x).
Proof.
  intros Hok Hx. destruct (is_dir x) eqn:Hd.
  - destruct (view_dir f i x Hx Hd) as (pp & es & _ & Hv). pose proof (Tree.ob_dir _ _ Hok _ _ _ _ Hv). lia.
  - pose proof (view_leaf f i x Hx Hd) as Hv. destruct (Tree.ob_leaf _ _ Hok _ _ Hv) as [_ H1]. split; [by apply H1|done].
Qed.

Lemma shape_nlink x y : shape x = shape y → nlink x = nlink y ∧ is_dir x = is_dir y.
Proof. unfold shape, is_dir. destruct (kind x), (kind y); naive_solver. Qed.

(** The directories and the source of a rename, once the target is gone. *)
Lemma after_remove f f1 parent np src x p q s sx pp pq es es' name nname :
  tree_ok (view f) → view f1 = Tree.remove np nname x (view f) →
  inodes f !! parent = Some p → kind p = Dir pp es → es !! name = Some src →
  inodes f !! np = Some q → kind q = Dir pq es' → es' !! nname = Some x → Some x ≠ Some src →
  inodes f !! src = Some s → src ≠ np → view f !! x = Some sx → (∀ y, Tree.node_links y sx = 0%nat) →
  ∃ p1 es1 q1 s1, inodes f1 !! parent = Some p1 ∧ kind p1 = Dir pp es1 ∧ es1 !! name = Some src ∧ 1 <= nlink p1 ∧
    inodes f1 !! np = Some q1 ∧ kind q1 = Dir pq (delete nname es') ∧ inodes f1 !! src = Some s1 ∧ shape s = shape s1.
Proof.
  intros Hok Hv1 Hp Hkp Hes Hq Hkq Hes' Hne Hs Hsn vx Hnl.
  assert (is_dir p = true) as Hdp by (unfold is_dir; by rewrite Hkp).
  assert (view f !! parent = Some (SDir pp es (nlink p))) as vp by (rewrite view_lookup, Hp; simpl; unfold shape; by rewrite Hkp).
  assert (view f !! np = Some (SDir pq es' (nlink q))) as vq by (rewrite view_lookup, Hq; simpl; unfold shape; by rewrite Hkq).
  assert (x ≠ np) as Hxn by (intros ->; exact (Tree.no_self_entry _ _ _ _ _ _ Hok vq Hes')).
  assert (x ≠ parent) as Hxp.
  { intros ->. rewrite vp in vx. injection vx as <-. specialize (Hnl src). simpl in Hnl. apply Tree.ecount_elem in Hes. lia. }
  assert (src ≠ x) as Hsx by congruence.
  destruct (Tree.remove_lookup (view f) np pq es' _ nname x sx vq vx Hxn) as (H1 & H2 & _). rewrite <- Hv1 in H1, H2.
  destruct (view_SDir _ _ _ _ _ H1) as (q1 & Hq1 & Hkq1 & Hnq1 & _).
  assert (view f1 !! src = Some (shape s)) as vs by (by rewrite H2, view_lookup, Hs).
  rewrite view_lookup in vs. apply fmap_Some in vs as (s1 & Hs1 & Hsh).
  destruct (node_count f parent p Hok Hp) as [_ Hn2]. specialize (Hn2 Hdp). destruct (decide (parent = np)) as [Heq|Hpn].
  - subst np. rewrite Hp in Hq. injection Hq as <-. rewrite Hkp in Hkq. injection Hkq as <- <-.
    exists q1, (delete nname es), q1, s1. split_and!; [done|done|rewrite lookup_delete_ne; [done|congruence]| |done..].
    rewrite Hnq1. destruct (is_sdir (Some sx)); lia.
  - rewrite <- (H2 parent) in vp by done. apply view_SDir in vp as (p1 & Hp1 & Hkp1 & Hnp1 & _). exists p1, es, q1, s1.
    split_and!; [done..|lia|done|done|done|done].
Qed.

Lemma rename_refines f parent name np nname now :
  tree_ok (view f) → roomy f →
  wp (rename_in parent name np nname now) f
    (λ _ f', tree_ok (view f') ∧ ∃ src dst, lookup f parent name = Ok src ∧ entry f np nname = Ok dst ∧
       view f' = if decide (dst = Some src) then view f else Tree.move parent name np nname src dst (view f))
    (λ _ f', f' = f).
Proof.
  intros Hok Hroom. apply wp_rename_in; [done|by apply tree_rooted|..].
  { intros p src q Hp Hdp He Hq Hdq He'. split; [done|]. exists src, (Some src).
    rewrite decide_True by done. split_and!; [apply lookup_Ok; by exists p|apply entry_Ok; by exists q|done]. }
  intros p src s q dst Hp Hdp He Hq Hdq He' Hne Hs Hab.
  assert (lookup f parent name = Ok src ∧ entry f np nname = Ok dst) as [Hlk Hen]
    by (split; [apply lookup_Ok; by exists p|apply entry_Ok; by exists q]).
  destruct (view_dir f parent p Hp Hdp) as (pp & es & Hkp & vp). destruct (view_dir f np q Hq Hdq) as (pq & es' & Hkq & vq).
  assert (es !! name = Some src) as Hes by (unfold entry_of in He; by rewrite Hkp in He).
  assert (es' !! nname = dst) as Hes' by (unfold entry_of in He'; by rewrite Hkq in He').
  assert (view f !! src = Some (shape s)) as vs by (by rewrite view_lookup, Hs).
  assert (is_sdir (Some (shape s)) = true → ¬ Tree.tabove (view f) src np) as Hta.
  { rewrite is_sdir_shape. intros Hd Ht. by apply (Hab Hd), tabove_above. }
  assert (src ≠ parent) as Hsp by (intros ->; exact (Tree.no_self_entry _ _ _ _ _ _ Hok vp Hes)).
  assert (src ≠ np) as Hsn.
  { intros ->. rewrite vs in vq. apply Hta; [by injection vq as ->|constructor]. }
  destruct (node_count f src s Hok Hs) as [Hs1 _].
  rewrite wp_bind. destruct dst as [x|].
  - eapply wp_mono; [eapply (replace_target_refines f); [done|exact Hq|done|done|by eapply node_count]| |done].
    intros dropped f1 (Hv1 & Hr1 & sx & vx & Hnl).
    destruct (after_remove f f1 parent np src x p q s sx pp pq es es' name nname)
      as (p1 & es1 & q1 & s1 & Hp1 & Hkp1 & Hes1 & Hnp1 & Hq1 & Hkq1 & Hs1' & Hsh); [done..|].
    destruct (shape_nlink _ _ Hsh) as [Hnl1 ->].
    rewrite wp_bind. eapply wp_mono with (R := λ _ _, False); [|intros [] f' Hf'|done].
    { eapply (move_entry_refines f1 Hr1 parent np src p1 q1 s1 pp pq es1); try done;
        [apply lookup_delete_eq|lia]. }
    rewrite wp_ret, Hf', Hv1. split; [|exists src, (Some x); by rewrite decide_False by done].
    eapply (Tree.move_ok _ parent pp es _ name src (shape s) np pq es' _ nname (Some x)); try done.
    intros y [= <-]. by exists sx.
  - rewrite wp_ret, wp_bind.
    eapply wp_mono; [eapply (move_entry_refines f Hroom parent np src p q s pp pq es es'); try done;
      intros _; by eapply node_count| |done].
    intros [] f' Hf'. rewrite wp_ret, Hf'. split; [|by exists src, None].
    eapply (Tree.move_ok _ parent pp es _ name src _ np pq es' _ nname None); done.
Qed.

(** ** The operations against the abstract tree *)

(** C17. [Rename] is the move of one name.  On a well-formed tree it leaves a
    well-formed tree: the one in which the target's name, if taken, is removed
    with what it named when that was its last name, and then the source's name
    moves, parent pointer and subdirectory counts included.  Renaming to a name of
    the same inode changes nothing.  A refused rename changes nothing. *)
Theorem rename_correct f parent name np nname now :
  tree_ok (view f) → roomy f →
  match rename_in parent name np nname now f with
  | (f', Ok _) => tree_ok (view f') ∧ ∃ src dst, lookup f parent name = Ok src ∧ entry f np nname = Ok dst ∧
      view f' = if decide (dst = Some src) then view f else Tree.move parent name np nname src dst (view f)
  | (f', Err _) => f' = f
  | (_, Panic) => False
  end.
Proof.
  intros Ht Hr. pose proof (rename_refines f parent name np nname now Ht Hr) as Hw. unfold wp in Hw.
  by destruct (rename_in _ _ _ _ _ f) as [f' []].
Qed.

(** C18. [Mknode] adds one node of the type and owner asked for, under a fresh number,
    and one name for it that was not taken; when the name is taken it succeeds only
    as the retry of the operation that made the node of that name, told by its id,
    and then changes nothing; refused, it changes nothing. *)
Theorem mknode_correct f parent name id t target rdev m cm u g now :
  tree_ok (view f) → roomy f → fresh f →
  match mknode_in parent name id t target rdev m cm u g now f with
  | (f', Ok _) =>
      match entry f parent name with
      | Ok None => tree_ok (view f') ∧ view f !! next_ino f = None ∧ created f parent name id t u g f'
      | _ => f' = f ∧ retried f parent name id
      end
  | (f', Err _) => f' = f
  | (_, Panic) => False
  end.
Proof.
  intros Ht Hr Hf. pose proof (fresh_next f Hf) as Hn.
  pose proof (mknode_refines f Ht Hr parent name id t target rdev m cm u g now Hn) as Hw. unfold wp in Hw.
  destruct (mknode_in _ _ _ _ _ _ _ _ _ _ _ f) as [f' []]; [|done..].
  rewrite view_lookup, Hn. destruct Hw as [[-> Hid]|(Hok & -> & Hc)]; [|done]. destruct Hid as (? & i & x & He & ?). rewrite He. split; [done|]. split; [done|]. by exists i, x.
Qed.

(** C19. [Unlink] and [Rmdir] take one name away, and the node with it when that
    was the last; refused (a directory unlinked, a directory with entries removed,
    a missing name), they change nothing. *)
Theorem unlink_rmdir_correct f parent name now (dir : bool) :
  tree_ok (view f) → roomy f →
  match (if dir then rmdir_in parent name now ;; mret None else unlink_in parent name now) f with
  | (f', Ok _) => tree_ok (view f') ∧ ∃ i, lookup f parent name = Ok i ∧ view f' = Tree.remove parent name i (view f)
  | (f', Err _) => f' = f
  | (_, Panic) => False
  end.
Proof.
  intros Ht Hr. destruct dir.
  - pose proof (rmdir_refines f Ht Hr parent name now) as Hw. unfold wp in Hw. unfold mbind, sm_bind.
    by destruct (rmdir_in _ _ _ f) as [f' []].
  - pose proof (unlink_refines f Ht Hr parent name now) as Hw. unfold wp in Hw. by destruct (unlink_in _ _ _ f) as [f' []].
Qed.

End NsTree.
