(* ===== verification/Replica.v ===== *)
(** * Replica filesystems ([namespace/replica.rs])

    The receiving side of asynchronous replication: increments in parts, their
    completion, promotion and demotion.  The [expect]s of the source are
    [Panic]s here. *)

From S2P Require Import Prelude MetaError Leases Catalog Extents FsTree Namespace.

Module Replica.
Import Catalog Extents FsTree Namespace.

Open Scope N_scope.

Definition empty_replica (fs : FsId) (name : string) (grid : N) (now : Z) : FsMeta :=
  new_fs fs name now (Some grid) (Some (mkReplicaState None None None)).

Definition replica_of (self : Catalog) (fs : FsId) : res MetaError ReplicaState :=
  f ← filesystem self fs; ok_or (replica f) Invalid.

Definition create_replica (fs : FsId) (name : string) (now : Z) (grid : N) : M () :=
  if grid =? 0 then sm_err Invalid
  else
    s ← sm_get;
    match filesystems (cat s) !! fs with
    | Some f =>
        if String.eqb (f_name f) name && bool_decide (replica f ≠ None)
           && bool_decide (extent_bytes f = Some grid)
        then mret () else sm_err Exists
    | None => edit (λ c, c <| filesystems ::= <[fs := empty_replica fs name grid now]> |>)
    end.

(** ** Going back to a snapshot *)

Definition snapshot_of (self : Catalog) (fs : FsId) (snapshot : SnapshotId) : res MetaError FsSnapshotMeta :=
  match fs_snapshots self !! snapshot with
  | Some s => if String.eqb (sn_fs_id s) fs then Ok s else Err NotFound
  | None => Err NotFound
  end.

Definition revert_to (fs : FsId) (snapshot : SnapshotId) (r : option ReplicaState) : M () :=
  sn ← look (λ c, snapshot_of c fs snapshot);
  current ← look (λ c, filesystem c fs);
  let old := scan current in
  let tree := (sn_tree sn) <| f_id := f_id current |> <| f_name := f_name current |>
                <| quota := quota current |> <| source_snapshot := source_snapshot current |>
                <| next_ino := N.max (next_ino (sn_tree sn)) (next_ino current) |> <| replica := r |> in
  share_extents tree ;;
  edit (λ c, c <| filesystems ::= <[fs := tree]> |>) ;;
  edit (λ c, c <| leases ::= λ l, Leases.forget_fs l fs |>) ;;
  sm_for old drop_inode.

Definition discard_partial (fs : FsId) : M () :=
  r ← look (λ c, replica_of c fs);
  match rs_local r with
  | Some local => revert_to fs local (Some (r <| rs_pending := None |>))
  | None =>
      f ← look (λ c, filesystem c fs);
      let old := scan f in
      root ← look (λ c, inode f ROOT_INO);
      let fresh := (empty_replica fs (f_name f) (default 0 (extent_bytes f)) (ctime_ns root))
                     <| quota := quota f |> <| next_ino := next_ino f |> in
      edit (λ c, c <| filesystems ::= <[fs := fresh]> |>) ;;
      edit (λ c, c <| leases ::= λ l, Leases.forget_fs l fs |>) ;;
      sm_for old drop_inode
  end.

(** ** Checking a part *)

Definition check_target (n : ReplicaInode) : res MetaError () :=
  match r_node_type n with
  | NSymlink =>
      match r_target n with
      | Some t => reject_if (negb (negb (String.eqb t EmptyString) && (strlen t <=? MAX_SYMLINK_BYTES))) Invalid
      | None => Err Invalid
      end
  | NDir => reject_if (r_parent n =? 0) Invalid
  | _ => Ok ()
  end.

Definition check_xattrs (m : gmap string bytes) : res MetaError () :=
  res_for (bt_entries m) (λ x : string * bytes,
    check_xattr_name (x.1) ;; reject_if (MAX_XATTR_VALUE_BYTES <? blen (x.2)) TooBig) ;;
  reject_if (MAX_XATTR_TOTAL_BYTES <? xattr_bytes m) TooBig.

(** One inode of the part; the types seen so far, extended. *)
Definition check_inode (f : FsMeta) (types : gmap N NodeType) (n : ReplicaInode) :
    res MetaError (gmap N NodeType) :=
  reject_if (r_ino n =? 0) Invalid ;;
  reject_if ((r_ino n =? ROOT_INO) && bool_decide (r_node_type n ≠ NDir)) Invalid ;;
  let known := match types !! r_ino n with
               | Some t => Some t
               | None => node_type <$> inodes f !! r_ino n
               end in
  reject_if (match known with Some t => bool_decide (t ≠ r_node_type n) | None => false end) Invalid ;;
  let types := <[r_ino n := r_node_type n]> types in
  check_target n ;;
  reject_if (bool_decide (r_node_type n ≠ NDir) && bool_decide (r_entries n ≠ [])) Invalid ;;
  reject_if (bool_decide (r_node_type n ≠ NFile) && bool_decide (r_holes n ≠ [])) Invalid ;;
  res_for (r_entries n) (λ e : string * option N, check_name (e.1)) ;;
  check_xattrs (r_xattrs n) ;;
  Ok types.

Fixpoint check_inodes (f : FsMeta) (types : gmap N NodeType) (l : list ReplicaInode) :
    res MetaError (gmap N NodeType) :=
  match l with
  | [] => Ok types
  | n :: l => types ← check_inode f types n; check_inodes f types l
  end.

Definition check_part (self : Catalog) (fs : FsId) (from : option SnapshotId) (to : SnapshotId)
    (l : list ReplicaInode) (removed : list N) : res MetaError () :=
  r ← replica_of self fs;
  reject_if (bool_decide (rs_pending r ≠ Some to) && bool_decide (rs_base r ≠ from)) Invalid ;;
  f ← filesystem self fs;
  types ← check_inodes f ∅ l;
  res_for removed (λ i,
    reject_if (i =? ROOT_INO) Invalid ;; reject_if (bool_decide (types !! i ≠ None)) Invalid).

(** ** Applying a part *)

(** [for h in holes { dropped.extend(extents.remove(h)) }]. *)
Fixpoint remove_holes (m : gmap N ExtentId) (holes : list N) : gmap N ExtentId * list ExtentId :=
  match holes with
  | [] => (m, [])
  | h :: holes =>
      let '(m', d) := remove_holes (delete h m) holes in (m', option_list (m !! h) ++ d)
  end.

(** The kind of an inode the replica has: the extents dropped and the growth. *)
Definition update_kind (n : ReplicaInode) (k : InodeKind) : res MetaError (InodeKind * list ExtentId * Z) :=
  match k with
  | File sz m =>
      let kept := if r_size n <? sz then base.filter (λ e : N * ExtentId, e.1 < r_size n) m else m in
      let cut := if r_size n <? sz then base.filter (λ e : N * ExtentId, r_size n <= e.1) m else ∅ in
      let '(m', d) := remove_holes kept (r_holes n) in
      Ok (File (r_size n) m', bt_values cut ++ d, (Z.of_N (r_size n) - Z.of_N sz)%Z)
  | Dir _ es => Ok (Dir (r_parent n) es, [], 0%Z)
  | Symlink _ => match r_target n with Some t => Ok (Symlink t, [], 0%Z) | None => Panic end
  | Special t _ => Ok (Special t (r_rdev n), [], 0%Z)
  end.

Definition first_kind (n : ReplicaInode) : res MetaError (InodeKind * Z) :=
  match r_node_type n with
  | NFile => Ok (File (r_size n) ∅, Z.of_N (r_size n))
  | NDir => Ok (Dir (r_parent n) ∅, 0%Z)
  | NSymlink => match r_target n with Some t => Ok (Symlink t, 0%Z) | None => Panic end
  | t => Ok (Special t (r_rdev n), 0%Z)
  end.

Definition replica_inode (n : ReplicaInode) (k : InodeKind) (id : string) : Inode :=
  mkInode (r_ino n) k (N.land (r_mode n) 4095) (r_uid n) (r_gid n) (r_nlink n) (r_atime_ns n)
    (r_mtime_ns n) (r_ctime_ns n) id (r_xattrs n).

Definition upsert (n : ReplicaInode) : SM FsMeta MetaError (list ExtentId * Z) :=
  o ← sm_reads (λ f, inodes f !! r_ino n);
  r ← match o with
      | Some i =>
          kdz ← sm_lift (update_kind n (kind i));
          let '(k, d, z) := kdz in
          sm_modify (λ f, f <| inodes ::= <[r_ino n := (replica_inode n k (op_id i)) <| ino := ino i |>]> |>) ;;
          mret (d, z)
      | None =>
          kz ← sm_lift (first_kind n);
          let '(k, z) := kz in
          sm_modify (λ f, f <| inodes ::= <[r_ino n := replica_inode n k EmptyString]> |>) ;;
          mret ([], z)
      end;
  sm_modify (λ f, f <| next_ino ::= λ x, N.max x (u64_add (r_ino n) 1) |>) ;;
  sm_for (r_entries n) (λ e : string * option N, table_set_entry (r_ino n) (e.1) (e.2) ;; mret ()) ;;
  mret r.

Fixpoint upsert_all (l : list ReplicaInode) : SM FsMeta MetaError (list ExtentId * Z) :=
  match l with
  | [] => mret ([], 0%Z)
  | n :: l =>
      r1 ← upsert n;
      r2 ← upsert_all l;
      mret (r1.1 ++ r2.1, (r1.2 + r2.2)%Z)
  end.

(** [for ino in removed], collecting what [remove] returns. *)
Fixpoint remove_all (l : list N) : SM FsMeta MetaError (list Inode) :=
  match l with
  | [] => mret []
  | i :: l =>
      o ← sm_reads (λ f, inodes f !! i);
      sm_modify (λ f, f <| inodes ::= delete i |>) ;;
      r ← remove_all l;
      mret (option_list o ++ r)
  end.

Definition apply_part (to : SnapshotId) (l : list ReplicaInode) (removed : list N) :
    SM FsMeta MetaError (list ExtentId * Z * list Inode) :=
  r ← upsert_all l;
  gone ← remove_all removed;
  f ← sm_get;
  match replica f with
  | Some st => sm_modify (λ f, f <| replica := Some (st <| rs_pending := Some to |>) |>) ;; mret (r, gone)
  | None => sm_panic
  end.

Definition replica_apply (fs : FsId) (from : option SnapshotId) (to : SnapshotId)
    (l : list ReplicaInode) (removed : list N) : M () :=
  look (λ c, check_part c fs from to l removed) ;;
  r ← look (λ c, replica_of c fs);
  (if match rs_pending r with Some p => negb (String.eqb p to) | None => false end
   then discard_partial fs else mret ()) ;;
  x ← on_fs fs (apply_part to l removed);
  let '(dropped, grown, gone) := x in
  s ← sm_get;
  let dropped_bytes := sum_u64 (extent_len (cat s) <$> dropped) in
  edit (edit_usage fs (λ u,
    u <| file_bytes ::= λ b, Z.to_N (Z.max (Z.of_N b + grown) 0) `mod` u64_size |>
      <| used_bytes ::= λ b, b - dropped_bytes |>)) ;;
  sm_for dropped dec_ref ;;
  sm_for gone (λ i, edit (forget_usage fs i) ;; drop_inode i).

(** ** Completing, promoting, demoting *)

Definition replica_commit (fs : FsId) (from : option SnapshotId) (to snapshot : SnapshotId)
    (name : string) (nino : N) (now : Z) : M () :=
  r ← look (λ c, replica_of c fs);
  if bool_decide (rs_base r = Some to) && bool_decide (rs_local r = Some snapshot) then mret ()
  else
    let started := bool_decide (rs_pending r = Some to) in
    if negb started && bool_decide (rs_base r ≠ from) then sm_err Invalid
    else
      let partial := negb started && bool_decide (rs_pending r ≠ None) in
      s ← sm_get;
      if bool_decide (fs_snapshots (cat s) !! snapshot ≠ None) then sm_err Exists
      else
        (if partial then discard_partial fs else mret ()) ;;
        on_fs fs (sm_modify (λ f, f <| next_ino ::= λ x, N.max x nino |>
                    <| replica := Some (mkReplicaState (Some to) (Some snapshot) None) |>)) ;;
        snapshot_tree snapshot fs name now.

Definition replica_promote (fs : FsId) (force : bool) : M () :=
  f ← look (λ c, filesystem c fs);
  match replica f with
  | None => mret ()
  | Some r =>
      match rs_local r, rs_pending r with
      | Some local, Some _ => revert_to fs local None
      | Some _, None => on_fs fs (sm_modify (λ f, f <| replica := None |>))
      | None, _ =>
          if force then on_fs fs (sm_modify (λ f, f <| replica := None |>)) else sm_err Invalid
      end
  end.

Definition replica_demote (fs : FsId) (snapshot to : SnapshotId) : M () :=
  f ← look (λ c, filesystem c fs);
  match replica f with
  | Some r =>
      if bool_decide (rs_local r = Some snapshot) && bool_decide (rs_base r = Some to)
      then mret () else sm_err Invalid
  | None => revert_to fs snapshot (Some (mkReplicaState (Some to) (Some snapshot) None))
  end.

(** ** The whole dispatch of [apply_fs] *)

Definition apply_fs (op : FsOp) : M () :=
  look (fs_guards op) ;;
  match op with
  | CreateFs fs name now grid => create_fs fs name now grid
  | DeleteFs fs => delete_fs fs
  | Mknode fs parent name id t target rdev m cm u g now => mknode fs parent name id t target rdev m cm u g now
  | Link fs i parent name now => link fs i parent name now
  | Unlink fs parent name now => unlink fs parent name now
  | Rmdir fs parent name now => rmdir fs parent name now
  | Rename fs parent name np nname now => rename fs parent name np nname now
  | SetAttrOp fs i attr now => set_attr fs i attr now
  | SetXattr fs i name v m now => set_xattr fs i name v m now
  | RemoveXattr fs i name now => remove_xattr fs i name now
  | InstallFileExtent fs i off e n now r => install_file_extent fs i off e n now r
  | InstallFileExtents fs i l n now r => install_file_extents fs i l n now r
  | SnapshotFs id fs name now => snapshot_tree id fs name now
  | DeleteFsSnapshot id => delete_fs_snapshot id
  | CloneFs id name sn => clone_fs id name sn
  | SetQuota fs mb mi => set_quota fs mb mi
  | CreateReplica fs name now grid => create_replica fs name now grid
  | ReplicaApply fs from to l removed => replica_apply fs from to l removed
  | ReplicaCommit fs from to sn name nino now => replica_commit fs from to sn name nino now
  | ReplicaPromote fs force => replica_promote fs force
  | ReplicaDemote fs sn to => replica_demote fs sn to
  end.

End Replica.
