(* ===== verification/ReplicaRefs.v ===== *)
(** * References and the replication operations

    As [NsRefs.v], for the operations of [Replica.v].  A part of an increment is
    checked against the tree it is about to change, unless a partly applied
    increment is discarded first: [ReplicaApply] is shown to keep its promises
    when it is not. *)

From S2P Require Import Prelude MetaError Leases Catalog Extents FsTree Namespace NsSpec NsRefs Replica.

Module ReplicaRefs.
Import Catalog Extents FsTree Namespace NsSpec NsRefs Replica.

Open Scope N_scope.

Lemma replica_of_Ok c fs r :
  replica_of c fs = Ok r ↔ ∃ f, filesystems c !! fs = Some f ∧ replica f = Some r.
Proof.
  unfold replica_of, filesystem, ok_or, mbind, res_bind.
  destruct (filesystems c !! fs) as [f|]; [|naive_solver]. destruct (replica f) eqn:Hr; naive_solver.
Qed.
Lemma replica_of_no_panic c fs : replica_of c fs ≠ Panic.
Proof. unfold replica_of, filesystem, ok_or, mbind, res_bind. by repeat case_match. Qed.

Lemma snapshot_of_Ok c fs id sn :
  snapshot_of c fs id = Ok sn → fs_snapshots c !! id = Some sn.
Proof. unfold snapshot_of. intros H. by repeat case_match; simplify_eq. Qed.
Lemma snapshot_of_no_panic c fs id : snapshot_of c fs id ≠ Panic.
Proof. unfold snapshot_of. by repeat case_match. Qed.

(** ** Replacing a filesystem's tree *)

(** The new tree's references [owed] are settled, the old tree's become owed. *)
Lemma ginv_replace c0 fs f tree s :
  ginv c0 [] (scan tree ≫= ext_list) s → filesystems (cat s) !! fs = Some f → fresh tree →
  ginv c0 [] (scan f ≫= ext_list) (s <| cat ::= put_fs fs tree |>).
Proof.
  intros [Hi Hf] Hl Ht. split; [|by apply put_fs_fresh].
  eapply inv_edit; [done|done|]. intros x. pose proof (put_fs_refs_some x fs tree f (cat s) Hl).
  rewrite !count_nil, <- !tree_refs_list. lia.
Qed.

Lemma ginv_forget_leases c0 due owed fs s :
  ginv c0 due owed s →
  ginv c0 due owed (s <| cat ::= λ c, c <| leases ::= λ l, Leases.forget_fs l fs |> |>).
Proof. intros Hg. apply ginv_same; [done|done|done|]. destruct Hg as [_ [? ?]]. by split. Qed.

Lemma wp_on_fs' {A} fs (m : SM FsMeta MetaError A) s (Q : A → Ctx → Prop) (R : MetaError → Ctx → Prop) :
  is_Some (filesystems (cat s) !! fs) →
  (∀ f, filesystems (cat s) !! fs = Some f →
     wp m f (λ a f', Q a (s <| cat ::= put_fs fs f' |>)) (λ e f', R e (s <| cat ::= put_fs fs f' |>))) →
  wp (on_fs fs m) s Q R.
Proof.
  intros [f Hf] HQ. specialize (HQ f Hf). unfold wp, on_fs in *. rewrite Hf. by destruct (m f) as [f' []].
Qed.

(** What going back leaves besides the invariant. *)
Definition reverted (fs : FsId) (r : option ReplicaState) (c c' : Catalog) : Prop :=
  fs_snapshots c' = fs_snapshots c ∧ ∃ f, filesystems c' !! fs = Some f ∧ replica f = r.

Lemma only_extents_reverted fs r c c1 c2 :
  reverted fs r c c1 → only_extents c1 c2 → reverted fs r c c2.
Proof. by intros ? [es ->]. Qed.

Lemma wp_drop_tree_frame c0 f s :
  ginv c0 [] (scan f ≫= ext_list) s →
  wp (sm_for (scan f) drop_inode) s
    (λ _ s', ginv c0 [] [] s' ∧ only_extents (cat s) (cat s')) (λ _ _, False).
Proof.
  intros Hg.
  apply (wp_for (scan f) drop_inode (λ l s', ginv c0 [] (l ≫= ext_list) s' ∧ only_extents (cat s) (cat s'))); [|done..].
  intros i l s' [[Hi Hf] Ho]. rewrite drop_inode_list. rewrite bind_cons in Hi.
  eapply wp_mono; [by apply wp_dec_refs| |done]. intros [] s'' [Hi' Ho'].
  split; [split; [done|by eapply only_extents_fresh]|by etrans].
Qed.

Section ops.
Context (c0 : Catalog) (s : Ctx) (Hg : ginv c0 [] [] s).

Lemma create_replica_good fs name now grid : keeps (create_replica fs name now grid) c0 s.
Proof.
  unfold create_replica. destruct (grid =? 0); [by wp_simpl|]. wp_simpl.
  destruct (filesystems (cat s) !! fs) as [f|] eqn:Hf.
  - destruct (_ && _); by wp_simpl.
  - unfold edit. wp_simpl. apply (ginv_put_new c0 [] s); [done|done|apply new_fs_fresh|].
    intros x. apply new_fs_refs.
Qed.

Lemma revert_to_good fs id r :
  wp (revert_to fs id r) s (λ _ s', ginv c0 [] [] s' ∧ reverted fs r (cat s) (cat s')) (λ _ s', s' = s).
Proof.
  unfold revert_to, look, edit. wp_simpl. apply wp_read; [apply snapshot_of_no_panic| |done].
  intros sn Hsn%snapshot_of_Ok. wp_simpl. apply wp_read; [apply filesystem_no_panic| |done].
  intros f Hf%filesystem_Ok. wp_simpl. set (tree := _ <| replica := r |>).
  eapply wp_share; [exact Hg|exact (snap_tree_in id sn (cat s) Hsn)|]. intros s' Hg' Ho _.
  rewrite app_nil_r in Hg'. wp_simpl.
  assert (filesystems (cat s') !! fs = Some f) as Hf' by (by destruct Ho as [es ->]).
  assert (fresh tree) as Htree.
  { intros i x Hx. destruct (af_snap _ (gi_fresh _ _ _ _ Hg) _ _ Hsn i x Hx). simpl. split; [lia|done]. }
  eapply wp_mono; [apply (wp_drop_tree_frame c0 f)| |done].
  - apply ginv_forget_leases, ginv_replace; done.
  - intros [] s'' [Hg'' Ho']. split; [done|]. eapply only_extents_reverted; [|exact Ho'].
    split; simpl; [by destruct Ho as [es ->]|]. exists tree. by rewrite lookup_insert_eq.
Qed.

Lemma discard_partial_good fs r :
  replica_of (cat s) fs = Ok r →
  wp (discard_partial fs) s
    (λ _ s', ginv c0 [] [] s' ∧ ∃ r', reverted fs (Some r') (cat s) (cat s')) (λ _ s', s' = s).
Proof.
  intros Hr. unfold discard_partial, look, edit. wp_simpl. rewrite Hr. wp_simpl.
  destruct (rs_local r) as [local|].
  { eapply wp_mono; [apply revert_to_good| |done]. intros [] s' [? ?]. eauto. }
  wp_simpl. apply wp_read; [apply filesystem_no_panic| |done]. intros f Hf%filesystem_Ok.
  wp_simpl. apply wp_read; [apply inode_no_panic| |done]. intros root Hroot%inode_Ok. wp_simpl.
  set (tree := _ <| next_ino := next_ino f |>).
  assert (fresh tree) as Htree.
  { intros i x. simpl. rewrite lookup_singleton_Some. intros [<- <-]. split; [|done].
    by apply (af_fs _ (gi_fresh _ _ _ _ Hg) _ _ Hf) in Hroot as [? _]. }
  eapply wp_mono; [apply (wp_drop_tree_frame c0 f)| |done].
  - apply ginv_forget_leases, ginv_replace; [|done|done].
    replace (scan tree ≫= ext_list) with ([] : list ExtentId) by done. done.
  - intros [] s'' [Hg'' Ho']. split; [done|]. exists (mkReplicaState None None None).
    eapply only_extents_reverted; [|exact Ho'].
    split; simpl; [done|]. exists tree. by rewrite lookup_insert_eq.
Qed.

(** Editing the fields of a filesystem that do not hold inodes. *)
Lemma kept_fields f g : fresh f → inodes (g f) = inodes f → next_ino f <= next_ino (g f) → kept f None (g f).
Proof.
  intros Hf Hi Hn. split.
  - intros x. unfold tree_refs. rewrite Hi. simpl. lia.
  - intros i x. rewrite Hi. intros Hx. destruct (Hf i x Hx). split; [lia|done].
Qed.

Lemma replica_commit_good fs from to snap name nino now :
  keeps (replica_commit fs from to snap name nino now) c0 s.
Proof.
  unfold replica_commit, look. wp_simpl. apply wp_read; [apply replica_of_no_panic| |done]. intros r Hr.
  destruct (_ && _); [by wp_simpl|]. destruct (_ && _); [by wp_simpl|]. wp_simpl.
  case_bool_decide as Hsnap; [by wp_simpl|]. apply wp_bind.
  pose proof Hr as (f0 & Hf0 & _)%replica_of_Ok.
  assert (∀ s1 f1, ginv c0 [] [] s1 → fs_snapshots (cat s1) !! snap = None → filesystems (cat s1) !! fs = Some f1 →
    wp (on_fs fs (sm_modify (λ f, f <| next_ino ::= λ x, N.max x nino |>
                  <| replica := Some (mkReplicaState (Some to) (Some snap) None) |>)) ;;
        snapshot_tree snap fs name now) s1 (λ _ s', ginv c0 [] [] s') (λ _ _, False)) as Hfinish.
  { intros s1 f1 Hg1 Hs1 Hf1. apply wp_bind, wp_on_fs'; [by eexists|]. intros f Hf. rewrite wp_modify.
    eapply snapshot_tree_total; [|done|simpl; by rewrite lookup_insert_eq].
    eapply ginv_moved; [done|done|]. apply (kept_moved f None), (kept_fields f (λ f, f <| next_ino ::= λ x, N.max x nino |>
      <| replica := Some (mkReplicaState (Some to) (Some snap) None) |>)); [|done|simpl; lia].
    by eapply af_fs, Hf; apply Hg1. }
  destruct (negb _ && _).
  - eapply wp_mono; [by eapply discard_partial_good| |done].
    intros [] s1 (Hg1 & r' & Hsn & f1 & Hf1 & _).
    eapply wp_mono; [eapply (Hfinish s1 f1); [done|by rewrite Hsn|done]|done|done].
  - apply wp_ret. eapply wp_mono; [by eapply (Hfinish s f0)|done|done].
Qed.

Lemma replica_promote_good fs force : keeps (replica_promote fs force) c0 s.
Proof.
  assert (keeps (on_fs fs (sm_modify (λ f, f <| replica := None |>))) c0 s) as Hset.
  { apply wp_on_fs_kept; [done|]. intros f _ Hf. apply wp_modify, (kept_fields f); [done|done|simpl; lia]. }
  unfold replica_promote, look. wp_simpl. apply wp_read; [apply filesystem_no_panic| |done]. intros f _.
  destruct (replica f) as [r|]; [|by wp_simpl]. destruct (rs_local r), (rs_pending r); try done.
  - eapply wp_mono; [apply revert_to_good|by intros [] s' []|done].
  - destruct force; [done|by wp_simpl].
  - destruct force; [done|by wp_simpl].
Qed.

Lemma replica_demote_good fs snap to : keeps (replica_demote fs snap to) c0 s.
Proof.
  unfold replica_demote, look. wp_simpl. apply wp_read; [apply filesystem_no_panic| |done]. intros f _.
  destruct (replica f) as [r|].
  - destruct (_ && _); by wp_simpl.
  - eapply wp_mono; [apply revert_to_good|by intros [] s' []|done].
Qed.
End ops.

(** ** Applying a part of an increment *)

(** Composing moves. *)
Lemma moved_trans f f1 f2 owed1 owed2 :
  moved f [] owed1 f1 → moved f1 [] owed2 f2 → moved f [] (owed1 ++ owed2) f2.
Proof.
  intros [H1 _] [H2 ?]. split; [|done]. intros x. specialize (H1 x). specialize (H2 x).
  rewrite count_app. rewrite count_nil in *. lia.
Qed.

Lemma kept_moved_nil f f' : kept f None f' → moved f [] [] f'.
Proof. apply (kept_moved f None). Qed.

Lemma remove_holes_refs x holes m :
  (map_refs x (remove_holes m holes).1 + count x (remove_holes m holes).2 = map_refs x m)%nat.
Proof.
  revert m. induction holes as [|h holes IH]; intros m; simpl; [rewrite count_nil; lia|].
  specialize (IH (delete h m)). destruct (remove_holes (delete h m) holes) as [m' d]. simpl in *.
  rewrite count_app. destruct (m !! h) as [e|] eqn:Hh; simpl.
  - pose proof (map_refs_insert x (delete h m) h e) as Hi.
    rewrite insert_delete_id, lookup_delete_eq in Hi by done. simpl in Hi. rewrite count_nil in Hi.
    rewrite ?count_cons, ?count_nil in *. lia.
  - rewrite delete_id in IH by done. rewrite ?count_nil. lia.
Qed.

(** The types of the inodes of [f], when those of [types] have been brought to
    theirs and the others are as in [f0]. *)
Definition agrees (f0 : FsMeta) (types : gmap N NodeType) (f : FsMeta) : Prop :=
  ∀ i x, inodes f !! i = Some x →
    types !! i = Some (node_type x) ∨
    types !! i = None ∧ ∃ x0, inodes f0 !! i = Some x0 ∧ node_type x0 = node_type x.

(** What a checked inode of a part satisfies. *)
Record checked (f0 : FsMeta) (types : gmap N NodeType) (n : ReplicaInode) : Prop := {
  ck_type : ∀ f x, agrees f0 types f → inodes f !! r_ino n = Some x → node_type x = r_node_type n;
  ck_target : r_node_type n = NSymlink → r_target n ≠ None;
  ck_entries : r_node_type n ≠ NDir → r_entries n = [];
}.

Lemma check_inode_Ok f0 types n types' :
  check_inode f0 types n = Ok types' →
  types' = <[r_ino n := r_node_type n]> types ∧ checked f0 types n.
Proof.
  unfold check_inode. intros H. repeat setoid_rewrite res_bind_Ok in H. setoid_rewrite reject_if_Ok in H.
  destruct H as (? & _ & ? & _ & ? & Hk & ? & Ht & ? & He & ? & _ & ? & _ & ? & _ & [= <-]).
  split; [done|]. split.
  - intros f y Ha Hx. destruct (Ha _ _ Hx) as [Hs|(Hs & y0 & Hy0 & <-)]; rewrite Hs in Hk; [|rewrite Hy0 in Hk].
    all: simpl in Hk; by apply bool_decide_eq_false, dec_stable in Hk.
  - intros Hn. unfold check_target in Ht. rewrite Hn in Ht. by destruct (r_target n).
  - intros Hn. rewrite bool_decide_true in He by done. simpl in He. by apply bool_decide_eq_false, dec_stable in He.
Qed.

Lemma update_kind_spec n x :
  (node_type x = NSymlink → r_target n ≠ None) → kind_ok (kind x) →
  ∃ k d z, update_kind n (kind x) = Ok (k, d, z) ∧ kind_ok k ∧
    ∀ y, kind y = k → node_type y = node_type x ∧ ∀ e, (inode_refs e y + count e d = inode_refs e x)%nat.
Proof.
  unfold node_type, inode_refs. destruct (kind x) as [p es|sz m|t|t rd] eqn:Hk; simpl; intros Ht Hok.
  - do 3 eexists. split_and!; [done|done|]. intros y ->. by split.
  - set (kp := if r_size n <? sz then _ else m). set (cut := if r_size n <? sz then _ else ∅).
    destruct (remove_holes kp (r_holes n)) as [m' d] eqn:Hr.
    do 3 eexists. split_and!; [done|done|]. intros y ->. split; [done|]. intros e.
    pose proof (remove_holes_refs e (r_holes n) kp) as Hh. rewrite Hr in Hh. simpl in Hh.
    rewrite count_app, <- map_refs_values. subst kp cut. destruct (r_size n <? sz).
    + rewrite (map_refs_split e m (r_size n)). lia.
    + rewrite map_refs_empty. lia.
  - destruct (r_target n) as [t'|]; [|by destruct Ht]. do 3 eexists. split_and!; [done|done|]. intros y ->. by split.
  - do 3 eexists. split_and!; [done|done|]. intros y ->. by split.
Qed.

Lemma first_kind_spec n :
  (r_node_type n = NSymlink → r_target n ≠ None) →
  ∃ k z, first_kind n = Ok (k, z) ∧ kind_ok k ∧
    ∀ y, kind y = k → node_type y = r_node_type n ∧ ∀ e, inode_refs e y = 0%nat.
Proof.
  unfold first_kind, node_type, inode_refs. intros Ht.
  destruct (r_node_type n) eqn:Hn; [| |destruct (r_target n); [|by destruct Ht]|..];
    (do 2 eexists; split_and!; [done|simpl; rewrite ?elem_of_cons, ?elem_of_nil; naive_solver|intros y ->; split; [done|]]);
    intros e; by rewrite ?map_refs_empty.
Qed.

(** Writing an inode of the declared type, new or not. *)
Lemma agrees_put f0 types f i y t :
  agrees f0 types f → node_type y = t → agrees f0 (<[i := t]> types) (put f i y).
Proof.
  intros Ha <- j x. unfold put. simpl. destruct (decide (i = j)) as [->|Hne].
  - rewrite !lookup_insert_eq. naive_solver.
  - rewrite !lookup_insert_ne by done. apply Ha.
Qed.

Lemma agrees_put_same f0 types f i y z :
  agrees f0 types f → inodes f !! i = Some z → node_type y = node_type z → agrees f0 types (put f i y).
Proof.
  intros Ha Hz Ht j x. unfold put. simpl. intros [[<- <-]|[_ ?]]%lookup_insert_Some; [rewrite Ht|]; by apply Ha.
Qed.

Lemma entries_kept i l f0 types f :
  agrees f0 types f → fresh f → (l ≠ [] → dir_at f i) →
  wp (sm_for l (λ e : string * option N, table_set_entry i (e.1) (e.2) ;; mret ())) f
    (λ _ f', agrees f0 types f' ∧ kept f None f' ∧ replica f' = replica f) (λ _ _, False).
Proof.
  intros Ha Hf Hd.
  apply (wp_for l _ (λ l f', (agrees f0 types f' ∧ kept f None f' ∧ replica f' = replica f) ∧ (l ≠ [] → dir_at f' i)));
    [|by split; [split_and!; [|apply kept_refl|]|]|by intros ? [? _]].
  intros [name o] l' f1 [(Ha1 & Hk1 & Hr1) Hd1]. destruct (Hd1 ltac:(done)) as (z & Hz & Hdz).
  apply wp_bind. eapply (wp_table_set_entry _ _ _ _ z); [done|done|]. apply wp_ret.
  split; [split_and!; [|by eapply kept_put|done]|].
  - eapply agrees_put_same; [done|done|]. unfold node_type. simpl. by destruct (kind z).
  - intros _. eapply stays_put; [done|apply is_dir_with_entry|by exists z].
Qed.

(** A node of a directory's type is a directory. *)
Lemma node_type_dir x : kind_ok (kind x) → node_type x = NDir → is_dir x = true.
Proof.
  unfold node_type, is_dir, kind_ok. destruct (kind x) as [| | |t]; try done. intros Ht ->. destruct Ht.
  rewrite !elem_of_cons. auto.
Qed.

Section upsert.
Context (f0 : FsMeta) (types : gmap N NodeType) (n : ReplicaInode) (f : FsMeta).
Context (Hck : checked f0 types n) (Ha : agrees f0 types f) (Hf : fresh f) (Hn : r_ino n < u64_max).

(** The inode's type is as declared afterwards, and the references it loses
    are those collected. *)
Definition upserted (r : list ExtentId * Z) (f' : FsMeta) : Prop :=
  agrees f0 (<[r_ino n := r_node_type n]> types) f' ∧ moved f [] r.1 f' ∧ replica f' = replica f.

Lemma upsert_written y (r : list ExtentId * Z) :
  node_type y = r_node_type n → kind_ok (kind y) →
  (∀ e, (inode_refs e y + count e r.1 = default 0 (inode_refs e <$> inodes f !! r_ino n))%nat) →
  wp (sm_modify (λ f, f <| next_ino ::= λ x, N.max x (u64_add (r_ino n) 1) |>) ;;
      sm_for (r_entries n) (λ e : string * option N, table_set_entry (r_ino n) (e.1) (e.2) ;; mret ()) ;;
      mret r) (put f (r_ino n) y) upserted (λ _ _, False).
Proof.
  intros Ht Hok Hr. apply wp_bind. rewrite wp_modify. set (f2 := _ <| next_ino ::= _ |>).
  assert (next_ino f2 = N.max (next_ino f) (r_ino n + 1)) as Hnext.
  { unfold f2. simpl. rewrite u64_add_small; [done|]. unfold u64_max, u64_size in *. lia. }
  assert (moved f [] r.1 f2) as Hm.
  { split.
    - intros e. specialize (Hr e). pose proof (tree_refs_put e f (r_ino n) y) as Hp.
      change (tree_refs e f2) with (tree_refs e (put f (r_ino n) y)). rewrite count_nil. lia.
    - intros i x. rewrite Hnext. simpl. intros [[<- <-]|[_ Hx]]%lookup_insert_Some; [split; [lia|done]|].
      destruct (Hf i x Hx). split; [lia|done]. }
  apply wp_bind. eapply wp_mono; [apply (entries_kept _ _ f0 (<[r_ino n := r_node_type n]> types))| |done].
  - by apply (agrees_put f0 types f (r_ino n) y).
  - apply Hm.
  - intros He. exists y. simpl. rewrite lookup_insert_eq. split; [done|]. apply node_type_dir; [done|].
    rewrite Ht. destruct (decide (r_node_type n = NDir)) as [|Hd]; [done|]. by destruct He; eapply ck_entries.
  - intros [] f3 (Ha3 & Hk3 & Hr3). apply wp_ret. split_and!; [done| |by rewrite Hr3].
    rewrite <- (app_nil_r r.1). eapply moved_trans; [done|by apply kept_moved_nil].
Qed.

Lemma upsert_moved : wp (upsert n) f upserted (λ _ _, False).
Proof.
  unfold upsert. apply wp_bind. rewrite wp_reads. destruct (inodes f !! r_ino n) as [x|] eqn:Hx.
  - assert (node_type x = r_node_type n) as Ht by (by eapply ck_type).
    destruct (update_kind_spec n x) as (k & d & z & Hk & Hok & Hy).
    { intros ?. eapply ck_target; [done|congruence]. } { by eapply Hf. }
    rewrite !wp_bind, wp_lift, Hk, wp_bind, wp_modify, wp_ret.
    destruct (Hy ((replica_inode n k (op_id x)) <| ino := ino x |>)) as [Hty Hry]; [done|].
    apply upsert_written; [by rewrite Hty|done|]. intros e. rewrite Hx. apply Hry.
  - destruct (first_kind_spec n) as (k & z & Hk & Hok & Hy); [by eapply ck_target|].
    rewrite !wp_bind, wp_lift, Hk, wp_bind, wp_modify, wp_ret.
    destruct (Hy (replica_inode n k EmptyString) eq_refl) as [Hty Hry].
    apply upsert_written; [by rewrite Hty|done|]. intros e. by rewrite Hx, Hry, count_nil.
Qed.
End upsert.

Lemma upsert_all_moved f0 l types types' f :
  check_inodes f0 types l = Ok types' → agrees f0 types f → fresh f → Forall (λ n, r_ino n < u64_max) l →
  wp (upsert_all l) f (λ r f', moved f [] r.1 f' ∧ replica f' = replica f) (λ _ _, False).
Proof.
  revert types f. induction l as [|n l IH]; intros types f Hc Ha Hf Hl; simpl.
  { apply wp_ret. split; [apply kept_moved_nil; eauto|done]. }
  simpl in Hc. apply res_bind_Ok in Hc as (types1 & [-> Hck]%check_inode_Ok & Hc).
  apply Forall_cons in Hl as [Hn Hl]. rewrite wp_bind.
  eapply wp_mono; [by eapply upsert_moved| |done]. intros r1 f1 (Ha1 & Hm1 & Hr1). rewrite wp_bind.
  eapply wp_mono; [eapply IH; [done|done|apply Hm1|done]| |done]. intros r2 f2 (Hm2 & Hr2).
  apply wp_ret. split; [by eapply moved_trans|congruence].
Qed.

Lemma remove_all_moved l f :
  fresh f → wp (remove_all l) f (λ gone f', moved f [] (gone ≫= ext_list) f' ∧ replica f' = replica f) (λ _ _, False).
Proof.
  revert f. induction l as [|i l IH]; intros f Hf; simpl.
  { apply wp_ret. split; [apply kept_moved_nil; eauto|done]. }
  rewrite wp_bind, wp_reads, wp_bind, wp_modify, wp_bind.
  eapply wp_mono; [apply IH; by apply fresh_delete| |done]. intros gone f' [Hm Hr]. apply wp_ret. split; [|done].
  rewrite bind_app. eapply moved_trans; [|exact Hm]. split; [|by apply fresh_delete]. intros x.
  rewrite count_nil. destruct (inodes f !! i) as [z|] eqn:Hz; simpl.
  - rewrite app_nil_r, <- inode_refs_list. pose proof (tree_refs_delete x f i z Hz). simpl in *. lia.
  - rewrite count_nil. unfold tree_refs. simpl. by rewrite delete_id.
Qed.

(** ** Checking does not panic *)

Lemma bind_no_panic {E A B} (x : res E A) (g : A → res E B) :
  x ≠ Panic → (∀ a, g a ≠ Panic) → (x ≫= g) ≠ Panic.
Proof. intros Hx Hg. unfold mbind, res_bind. by destruct x. Qed.
Lemma reject_no_panic {E} b (e : E) : reject_if b e ≠ Panic.
Proof. by destruct b. Qed.

Create HintDb nopanic.
#[export] Hint Resolve reject_no_panic check_name_no_panic check_xattr_name_no_panic replica_of_no_panic
  filesystem_no_panic : nopanic.
#[export] Hint Extern 1 ((_ ≫= _) ≠ Panic) => apply bind_no_panic; [|intros ?] : nopanic.
#[export] Hint Extern 1 (res_for _ _ ≠ Panic) => apply res_for_no_panic; intros ? : nopanic.
#[export] Hint Extern 2 (Ok _ ≠ Panic) => done : nopanic.

Lemma check_target_no_panic n : check_target n ≠ Panic.
Proof. unfold check_target. destruct (r_node_type n); try done; [auto with nopanic|]. destruct (r_target n); auto with nopanic. Qed.
#[export] Hint Resolve check_target_no_panic : nopanic.

Lemma check_inodes_no_panic f types l : check_inodes f types l ≠ Panic.
Proof.
  revert types. induction l as [|n l IH]; intros types; [done|]. simpl. apply bind_no_panic; [|auto].
  unfold check_inode, check_xattrs. auto 15 with nopanic.
Qed.
#[export] Hint Resolve check_inodes_no_panic : nopanic.

Lemma check_part_no_panic c fs from to l removed : check_part c fs from to l removed ≠ Panic.
Proof. unfold check_part. auto 12 with nopanic. Qed.

Lemma check_part_Ok c fs from to l removed u :
  check_part c fs from to l removed = Ok u →
  ∃ f types, filesystems c !! fs = Some f ∧ check_inodes f ∅ l = Ok types.
Proof.
  unfold check_part. intros H. repeat setoid_rewrite res_bind_Ok in H.
  destruct H as (r & _ & _ & _ & f & Hf%filesystem_Ok & types & Hc & _). eauto.
Qed.

Section apply.
Context (c0 : Catalog) (s : Ctx) (Hg : ginv c0 [] [] s).

Lemma apply_part_moved f types to l removed :
  check_inodes f ∅ l = Ok types → fresh f → Forall (λ n, r_ino n < u64_max) l → replica f ≠ None →
  wp (apply_part to l removed) f
    (λ x f', moved f [] (x.1.1 ++ (x.2 ≫= ext_list)) f') (λ _ _, False).
Proof.
  intros Hc Hf Hl Hr. unfold apply_part. rewrite wp_bind.
  eapply wp_mono; [eapply upsert_all_moved; [done| |done|done]| |done].
  { intros i x Hx. right. split; [done|eauto]. }
  intros r f1 [Hm1 Hr1]. rewrite wp_bind. eapply wp_mono; [apply remove_all_moved, Hm1| |done].
  intros gone f2 [Hm2 Hr2]. rewrite wp_bind, wp_get. rewrite Hr2, Hr1.
  destruct (replica f) as [st|]; [|done]. rewrite wp_bind, wp_modify, wp_ret.
  destruct (moved_trans _ _ _ _ _ Hm1 Hm2) as [H1 H2]. by split.
Qed.

(** A part that continues the increment in progress, or starts one, is applied
    as checked. *)
Lemma replica_apply_good fs from to l removed :
  Forall (λ n, r_ino n < u64_max) l →
  (∀ r p, replica_of (cat s) fs = Ok r → rs_pending r = Some p → p = to) →
  keeps (replica_apply fs from to l removed) c0 s.
Proof.
  intros Hl Hclean. unfold replica_apply, look. rewrite wp_bind, wp_try.
  apply wp_read; [apply check_part_no_panic| |done]. intros [] Hchk. rewrite wp_bind, wp_try.
  apply wp_read; [apply replica_of_no_panic| |done]. intros r Hr. rewrite wp_bind.
  replace (match rs_pending r with Some p => negb (String.eqb p to) | None => false end) with false.
  2:{ destruct (rs_pending r) as [p|] eqn:Hp; [|done]. rewrite (Hclean r p) by done. by rewrite String.eqb_refl. }
  apply check_part_Ok in Hchk as (f & types & Hf & Hc). apply replica_of_Ok in Hr as (f' & Hf' & Hr). simplify_eq.
  rewrite wp_ret, wp_bind. eapply wp_mono with (R := λ _ _, False)
    (Q := λ x s', ginv c0 [] (x.1.1 ++ (x.2 ≫= ext_list)) s'); [| |done].
  { apply wp_on_fs'; [by eexists|]. intros f1 Hf1. simplify_eq.
    eapply wp_mono; [eapply (apply_part_moved f); [done|by eapply af_fs, Hf; apply Hg|done|by rewrite Hr]| |done].
    intros x f1 Hm. by eapply ginv_moved. }
  intros [[dropped grown] gone] s1 Hg1. simpl in Hg1. unfold edit. rewrite wp_bind, wp_get, wp_bind, wp_modify, wp_bind.
  eapply wp_mono; [eapply wp_dec_refs_good; apply ginv_edit_usage, Hg1| |done]. intros [] s2 Hg2.
  apply (wp_for gone _ (λ l s', ginv c0 [] (l ≫= ext_list) s')); [|done|done].
  intros i l' s3 Hg3. rewrite wp_bind, wp_modify, drop_inode_list.
  apply wp_dec_refs_good, ginv_forget_usage. by rewrite bind_cons in Hg3.
Qed.
End apply.

End ReplicaRefs.
