(* ===== verification/Metadata.v ===== *)
(** * The metadata state machine ([metadata.rs], [impl Catalog])

    Every command of the replicated log: [exec] is the [match] of
    [Catalog::apply_inner], one arm per command; [apply_inner], [apply] and
    [apply_committed] wrap it as the source does.  An arm that returns
    [self.applied(..)] early returns normally here, since what follows the
    [match] is the same call. *)

From S2P Require Import Prelude MetaError FreeList Membership Leases Catalog Extents FsTree Namespace Replica.

Module Metadata.
Import Catalog Extents FsTree Namespace Replica.

Open Scope N_scope.

(** ** Volumes *)

(** [self.volumes.get_mut(id).ok_or(NotFound)?]. *)
Definition volume (self : Catalog) (id : VolumeId) : res MetaError VolumeMeta :=
  ok_or (volumes self !! id) NotFound.

Definition put_volume (id : VolumeId) (v : VolumeMeta) (self : Catalog) : Catalog :=
  self <| volumes ::= <[id := v]> |>.

Definition create_volume (id : VolumeId) (name : string) (size : N) : M () :=
  s ← sm_get;
  match volumes (cat s) !! id with
  | Some v => if String.eqb (v_name v) name && (v_size_bytes v =? size) then mret () else sm_err Invalid
  | None => edit (put_volume id (mkVolumeMeta id name size ∅))
  end.

Definition install_extent (id : VolumeId) (off : N) (e : ExtentRef) : M () :=
  sm_lift (check e) ;;
  v ← look (λ c, volume c id);
  edit (put_volume id (v <| v_extents ::= <[off := eid e]> |>)) ;;
  edit (add_extent_ref e) ;;
  match v_extents v !! off with Some old => dec_ref old | None => mret () end.

Definition install_extents (id : VolumeId) (l : list ExtentRef) : M () :=
  sm_lift (res_for l check) ;;
  v ← look (λ c, volume c id);
  let '(m, old) := insert_extents (v_extents v) ((λ e, (logical_offset e, eid e)) <$> l) in
  edit (put_volume id (v <| v_extents := m |>)) ;;
  edit (λ c, foldl (λ c e, add_extent_ref e c) c l) ;;
  sm_for old dec_ref.

Definition create_snapshot (id : SnapshotId) (vid : VolumeId) (name : string) : M () :=
  s ← sm_get;
  match snapshots (cat s) !! id with
  | Some sn => if String.eqb (s_volume_id sn) vid && String.eqb (s_name sn) name then mret () else sm_err Invalid
  | None =>
      v ← look (λ c, volume c vid);
      sm_for (bt_values (v_extents v)) inc_ref ;;
      edit (λ c, c <| snapshots ::= <[id := mkSnapshotMeta id vid name (v_size_bytes v) (v_extents v)]> |>)
  end.

Definition delete_snapshot (id : SnapshotId) : M () :=
  s ← look (λ c, ok_or (snapshots c !! id) NotFound);
  edit (λ c, c <| snapshots ::= delete id |>) ;;
  sm_for (bt_values (s_extents s)) dec_ref.

Definition delete_volume (id : VolumeId) : M () :=
  v ← look (λ c, volume c id);
  edit (λ c, c <| volumes ::= delete id |>) ;;
  sm_for (bt_values (v_extents v)) dec_ref.

Definition resize_volume (id : VolumeId) (size : N) : M () :=
  v ← look (λ c, volume c id);
  if size <? v_size_bytes v then sm_err Invalid
  else edit (put_volume id (v <| v_size_bytes := size |>)).

Definition clone_snapshot (id : VolumeId) (name : string) (sid : SnapshotId) (size_bytes : option N) : M () :=
  s ← sm_get;
  match volumes (cat s) !! id with
  | Some v => if String.eqb (v_name v) name then mret () else sm_err Invalid
  | None =>
      sn ← look (λ c, ok_or (snapshots c !! sid) NotFound);
      let floor := if 0 <? s_size_bytes sn then s_size_bytes sn else written_end (cat s) (s_extents sn) in
      let size := default floor size_bytes in
      if (size =? 0) || (size <? floor) then sm_err Invalid
      else
        sm_for (bt_values (s_extents sn)) inc_ref ;;
        edit (put_volume id (mkVolumeMeta id name size (s_extents sn)))
  end.

(** ** Device space *)

(** [self.free.release(..).map_err(MetaError::Invalid)?] for one replica. *)
Definition release_replica (n : N) (r : ReplicaRef) : M () :=
  s ← sm_get;
  match FreeList.release (free (cat s)) (node_id r) (device_index r) (offset r) n with
  | Ok fl => edit (λ c, c <| free := fl |>)
  | Err _ => sm_err Invalid
  | Panic => sm_panic
  end.

Definition mark_extent_reclaimed (id : ExtentId) : M () :=
  e ← look (λ c, ok_or (extents c !! id) NotFound);
  if negb (refs e =? 0) then sm_err Invalid
  else
    edit (λ c, c <| extents ::= delete id |>) ;;
    sm_for (replicas (extent e)) (release_replica (stored_len (extent e))).

Definition tier_extent (id : ExtentId) (key : string) (rs : list ReplicaRef) : M () :=
  e ← look (λ c, ok_or (extents c !! id) NotFound);
  if bool_decide (object (extent e) ≠ None) then sm_err Invalid
  else if bool_decide (replicas (extent e) ≠ rs) || bool_decide (rs = []) then sm_err Invalid
  else
    let x := (extent e) <| replicas := [] |> <| ec := None |> <| object := Some key |> in
    edit (λ c, c <| extents ::= <[id := e <| extent := x |>]> |>) ;;
    sm_for (replicas (extent e)) (release_replica (stored_len (extent e))).

(** [replicas.iter().enumerate().any(|(i, r)| i != pos && r.node_id == node)]. *)
Definition other_on_node (l : list ReplicaRef) (pos : nat) (node : string) : bool :=
  existsb (λ x : nat * ReplicaRef, negb (Nat.eqb (x.1) pos) && String.eqb (node_id (x.2)) node)
    (imap pair l).

Definition replace_replica (id : ExtentId) (old new : ReplicaRef) : M () :=
  if bool_decide (old = new) then sm_err Invalid
  else
    e ← look (λ c, ok_or (extents c !! id) NotFound);
    pos ← sm_lift (ok_or (position (λ r, bool_decide (r = old)) (replicas (extent e))) Invalid);
    if other_on_node (replicas (extent e)) pos (node_id new) then sm_err Invalid
    else
      let n := stored_len (extent e) in
      edit (λ c, c <| extents ::= <[id := e <| extent ::= λ x, x <| replicas ::= <[pos := new]> |> |>]> |>) ;;
      edit (λ c, c <| free ::= λ fl, fst (FreeList.reserve fl (node_id new) (device_index new) (offset new) n) |>) ;;
      release_replica n old.

(** ** Cluster membership and leases *)

Definition change_membership (m : Membership.Membership) (addrs : gmap string string) : M () :=
  if bool_decide (Membership.voters m = ∅) then sm_err Invalid
  else
    sm_lift (match m with
             | Membership.Joint old new => reject_if (bool_decide (old = ∅) || bool_decide (new = ∅)) Invalid
             | _ => Ok ()
             end) ;;
    edit (λ c, c <| raft_addrs ::= λ a, addrs ∪ a |> <| membership := Some m |>).

(** The closure [Leases::apply] asks whether an inode is a regular file. *)
Definition lease_file (self : Catalog) (fs : FsId) (i : N) : res MetaError () :=
  f ← filesystem self fs;
  x ← inode f i;
  match kind x with File _ _ => Ok () | _ => Err Invalid end.

Definition lease (term : N) (op : Leases.LeaseOp) : M () := λ s,
  let '(l, r) := Leases.apply (lease_file (cat s)) term op (leases (cat s)) in
  (s <| cat ::= λ c, c <| leases := l |> |>, r).

(** ** Applying a command *)

Definition exec (term : N) (cmd : MetaCommand) : M () :=
  match cmd with
  | CreateVolume id name size => create_volume id name size
  | InstallExtent id off e => install_extent id off e
  | InstallExtents id l => install_extents id l
  | CreateSnapshot id vid name => create_snapshot id vid name
  | DeleteSnapshot id => delete_snapshot id
  | DeleteVolume id => delete_volume id
  | ResizeVolume id size => resize_volume id size
  | CloneSnapshot id name sid size => clone_snapshot id name sid size
  | MarkExtentReclaimed id => mark_extent_reclaimed id
  | ReplaceReplica id old new => replace_replica id old new
  | TierExtent id key rs => tier_extent id key rs
  | ChangeMembership m addrs => change_membership m addrs
  | Fs op => apply_fs op
  | Lease op => lease term op
  | Noop => mret ()
  end.

Definition applied (term index : N) (self : Catalog) : Catalog :=
  self <| current_term := term |> <| applied_index := index |>.

Definition apply_inner (term index : N) (cmd : MetaCommand) : SM Catalog MetaError (list ExtentId) :=
  λ self,
    if index <=? applied_index self then (self, Ok [])
    else
      match exec term cmd (mkCtx self []) with
      | (s, Ok _) => (applied term index (cat s), Ok (gc s))
      | (s, Err e) => (cat s, Err e)
      | (s, Panic) => (cat s, Panic)
      end.

Definition apply (term index : N) (cmd : MetaCommand) : SM Catalog MetaError (list ExtentId) :=
  λ self,
    match apply_inner term index cmd self with
    | (c, Err Store) => (c, Panic)
    | r => r
    end.

Definition apply_committed (term index : N) (cmd : MetaCommand) : SM Catalog MetaError (list ExtentId) :=
  λ self,
    match apply term index cmd self with
    | (c, Err e) => (if applied_index c <? index then applied term index c else c, Err e)
    | r => r
    end.

End Metadata.
