(* ===== verification/Frames.v ===== *)
(** * What commands leave alone

    A calculus for properties of the catalog that do not depend on how a command
    ends: a relation is respected by a command when it is by each of its steps. *)

From S2P Require Import Prelude MetaError Leases Catalog Extents FsTree Namespace Replica.

Module Frames.
Import Catalog Extents FsTree Namespace Replica.

Open Scope N_scope.

(** [frames R m]: whatever [m] answers, the catalogs before and after are related
    by [R], which the steps of the commands are shown to respect. *)
Definition frames (R : relation Catalog) {A} (m : M A) : Prop := ∀ s, R (cat s) (cat (m s).1).

(** Changes that concern neither inodes nor snapshots of filesystems. *)
Class Quiet (R : relation Catalog) : Prop := {
  quiet_po :: PreOrder R;
  quiet_volumes : ∀ c g, R c (c <| volumes ::= g |>);
  quiet_snapshots : ∀ c g, R c (c <| snapshots ::= g |>);
  quiet_forget : ∀ c fs, R c (c <| leases ::= λ l, Leases.forget_fs l fs |>);
  quiet_recount : ∀ c id e n, extents c !! id = Some e → R c (c <| extents ::= <[id := e <| refs := n |>]> |>);
  quiet_usage : ∀ c fs f u, filesystems c !! fs = Some f →
    R c (c <| filesystems ::= <[fs := f <| usage := u |>]> |>);
}.

(** Changes of filesystems besides. *)
Class Indifferent (R : relation Catalog) : Prop := {
  ind_quiet :: Quiet R;
  ind_filesystems : ∀ c g, R c (c <| filesystems ::= g |>);
  ind_fs_snapshots : ∀ c g, R c (c <| fs_snapshots ::= g |>);
}.

Create HintDb frames.

Section frames.
Context (R : relation Catalog) `{!PreOrder R}.

Lemma frames_ret {A} (a : A) : frames R (mret a).
Proof. by intros s. Qed.
Lemma frames_err {A} e : frames R (A := A) (sm_err e).
Proof. by intros s. Qed.
Lemma frames_get : frames R sm_get.
Proof. by intros s. Qed.
Lemma frames_lift {A} (r : res MetaError A) : frames R (sm_lift r).
Proof. by intros s. Qed.
Lemma frames_look {A} (f : Catalog → res MetaError A) : frames R (look f).
Proof. by intros s. Qed.
Lemma frames_bind {A B} (m : M A) (k : A → M B) : frames R m → (∀ a, frames R (k a)) → frames R (m ≫= k).
Proof.
  intros Hm Hk s. specialize (Hm s). unfold mbind, sm_bind. destruct (m s) as [s' [a| |]]; [|done..].
  etrans; [exact Hm|apply Hk].
Qed.
Lemma frames_for {A} (l : list A) (f : A → M ()) : (∀ x, frames R (f x)) → frames R (sm_for l f).
Proof. intros Hf. induction l as [|x l IH]; [apply frames_ret|]. by apply frames_bind. Qed.
Lemma frames_edit f : (∀ c, R c (f c)) → frames R (edit f).
Proof. intros Hf s. apply Hf. Qed.
End frames.

Lemma frames_on_fs (R : relation Catalog) `{!Indifferent R} {A} fs (m : SM FsMeta MetaError A) : frames R (on_fs fs m).
Proof.
  intros s. unfold on_fs. destruct (filesystems (cat s) !! fs) as [f|]; [|done]. destruct (m f). apply ind_filesystems.
Qed.

Section quiet.
Context (R : relation Catalog) `{!Quiet R}.

Lemma frames_dec_ref id : frames R (dec_ref id).
Proof.
  intros s. unfold dec_ref, mbind, sm_bind. simpl. destruct (extents (cat s) !! id) as [e|] eqn:He; [|done].
  simpl. destruct (refs e =? 0); [done|]. destruct (refs e - 1 =? 0); simpl; by apply (quiet_recount (cat s) id e).
Qed.
Lemma frames_inc_ref id : frames R (inc_ref id).
Proof.
  intros s. unfold inc_ref, mbind, sm_bind. simpl. destruct (extents (cat s) !! id) as [e|] eqn:He; [|done].
  by apply (quiet_recount (cat s) id e).
Qed.
Lemma usage_step fs g c : R c (edit_usage fs g c).
Proof.
  unfold edit_usage. destruct (filesystems c !! fs) as [f|] eqn:Hf; [|done]. destruct (usage f); [|done].
  by apply quiet_usage.
Qed.
Lemma frames_usage fs g : frames R (edit (edit_usage fs g)).
Proof. apply frames_edit. apply usage_step. Qed.
Lemma frames_forget fs i : frames R (edit (forget_usage fs i)).
Proof. apply frames_edit. intros c. unfold forget_usage. case_match; [done|apply usage_step|done..]. Qed.
End quiet.

#[export] Hint Resolve frames_ret frames_err frames_get frames_lift frames_look frames_on_fs
  frames_dec_ref frames_inc_ref frames_usage frames_forget : frames.
#[export] Hint Extern 3 => first [apply quiet_volumes|apply quiet_snapshots|apply quiet_forget
  |apply ind_filesystems|apply ind_fs_snapshots] : frames.
#[export] Hint Extern 1 (frames _ (_ ≫= _)) => apply frames_bind; [apply _| |intros ?] : frames.
#[export] Hint Extern 1 (frames _ (sm_for _ _)) => apply frames_for; [apply _|intros ?] : frames.
#[export] Hint Extern 1 (frames _ (if ?b then _ else _)) => destruct b : frames.
#[export] Hint Extern 1 (frames _ (match ?x with _ => _ end)) => destruct x : frames.
#[export] Hint Extern 2 (frames _ (edit _)) => apply frames_edit; intros ? : frames.

Ltac frames := eauto 40 with frames nocore typeclass_instances.

Lemma frames_drop_inode R `{!Quiet R} i : frames R (drop_inode i).
Proof. unfold drop_inode. frames. Qed.
Lemma frames_share R `{!Quiet R} f : frames R (share_extents f).
Proof. unfold share_extents. frames. Qed.
#[export] Hint Resolve frames_drop_inode frames_share : frames.

Section ops.
Context (R : relation Catalog) `{!Indifferent R}.

Lemma frames_snapshot_tree id fs name now : frames R (snapshot_tree id fs name now).
Proof. unfold snapshot_tree. frames. Qed.
Lemma frames_revert_to fs id r : frames R (revert_to fs id r).
Proof. unfold revert_to. frames. Qed.
Hint Resolve frames_snapshot_tree frames_revert_to : frames.
Lemma frames_discard_partial fs : frames R (discard_partial fs).
Proof. unfold discard_partial. frames. Qed.
End ops.
#[export] Hint Resolve frames_snapshot_tree frames_revert_to frames_discard_partial : frames.

End Frames.
