(* ===== verification/NoStore.v ===== *)
(** * Store errors

    [MetaError::Store] stands for a catalog store that cannot be read, on which
    [Catalog::apply] panics.  The code modelled here works on the contents of the
    catalog and never makes that error itself. *)

From S2P Require Import Prelude MetaError FreeList Membership Leases Acl Ec Catalog Extents FsTree Namespace Replica Metadata.

Module NoStore.
Import Catalog Extents FsTree Namespace Replica Metadata.

Definition ns {A} (r : res MetaError A) : Prop := r ≠ Err Store.
Definition nsm {S A} (m : SM S MetaError A) : Prop := ∀ s, ns (m s).2.

Create HintDb nostore.

Lemma ns_ok {A} (a : A) : ns (Ok a).
Proof. done. Qed.
Lemma ns_bind {A B} (x : res MetaError A) (f : A → res MetaError B) : ns x → (∀ a, ns (f a)) → ns (x ≫= f).
Proof. unfold ns, mbind, res_bind. destruct x; naive_solver. Qed.
Lemma ns_reject b e : e ≠ Store → ns (reject_if b e).
Proof. unfold ns. destruct b; naive_solver. Qed.
Lemma ns_ok_or {A} (o : option A) e : e ≠ Store → ns (ok_or o e).
Proof. unfold ns. destruct o; naive_solver. Qed.
Lemma ns_for {A} (l : list A) f : (∀ x, ns (f x)) → ns (res_for l f).
Proof. intros Hf. induction l as [|x l IH]; [done|]. by apply ns_bind. Qed.

Lemma nsm_ret {S A} (a : A) : nsm (S := S) (mret a).
Proof. by intros s. Qed.
Lemma nsm_bind {S A B} (m : SM S MetaError A) (k : A → SM S MetaError B) : nsm m → (∀ a, nsm (k a)) → nsm (m ≫= k).
Proof.
  intros Hm Hk s. specialize (Hm s). unfold mbind, sm_bind. destruct (m s) as [s' []]; simpl in *; [apply Hk|unfold ns in *; naive_solver|done].
Qed.
Lemma nsm_lift {S A} (r : res MetaError A) : ns r → nsm (S := S) (sm_lift r).
Proof. intros Hr s. apply Hr. Qed.
Lemma nsm_try {S A} (f : S → res MetaError A) : (∀ s, ns (f s)) → nsm (sm_try f).
Proof. intros Hr s. apply Hr. Qed.
Lemma nsm_look {A} (f : Catalog → res MetaError A) : (∀ s, ns (f s)) → nsm (look f).
Proof. intros Hr s. apply Hr. Qed.
Lemma nsm_err {S A} e : e ≠ Store → nsm (S := S) (A := A) (sm_err e).
Proof. intros He s. unfold ns. simpl. congruence. Qed.
Lemma nsm_for {S A} (l : list A) (f : A → SM S MetaError ()) : (∀ x, nsm (f x)) → nsm (sm_for l f).
Proof. intros Hf. induction l as [|x l IH]; [by intros ?|]. by apply nsm_bind. Qed.
Lemma nsm_on_fs {A} fs (m : SM FsMeta MetaError A) : nsm m → nsm (on_fs fs m).
Proof. intros Hm s. unfold on_fs. destruct (filesystems (cat s) !! fs) as [f|]; [|done]. specialize (Hm f). by destruct (m f). Qed.
Lemma nsm_get {S} : nsm (S := S) sm_get.
Proof. by intros ?. Qed.
Lemma nsm_put {S} (s : S) : nsm (sm_put s).
Proof. by intros ?. Qed.
Lemma nsm_modify {S} (f : S → S) : nsm (sm_modify f).
Proof. by intros ?. Qed.
Lemma nsm_reads {S A} (f : S → A) : nsm (sm_reads f).
Proof. by intros ?. Qed.
Lemma nsm_panic {S A} : nsm (S := S) (A := A) sm_panic.
Proof. by intros ?. Qed.
Lemma nsm_edit f : nsm (edit f).
Proof. by intros ?. Qed.

#[export] Hint Resolve ns_ok nsm_ret nsm_get nsm_put nsm_modify nsm_reads nsm_panic nsm_edit : nostore.
#[export] Hint Extern 0 (_ ≠ Store) => discriminate : nostore.
#[export] Hint Extern 0 (ns (Err _)) => discriminate : nostore.
#[export] Hint Extern 0 (ns Panic) => discriminate : nostore.
#[export] Hint Resolve ns_reject ns_ok_or nsm_lift nsm_err nsm_on_fs : nostore.
#[export] Hint Extern 1 (ns (_ ≫= _)) => apply ns_bind; [|intros ?] : nostore.
#[export] Hint Extern 1 (ns (res_for _ _)) => apply ns_for; intros ? : nostore.
#[export] Hint Extern 1 (ns (match ?x with _ => _ end)) => destruct x : nostore.
#[export] Hint Extern 1 (nsm (_ ≫= _)) => apply nsm_bind; [|intros ?] : nostore.
#[export] Hint Extern 1 (nsm (sm_for _ _)) => apply nsm_for; intros ? : nostore.
#[export] Hint Extern 1 (nsm (sm_try _)) => apply nsm_try; intros ? : nostore.
#[export] Hint Extern 1 (nsm (look _)) => apply nsm_look; intros ? : nostore.
#[export] Hint Extern 1 (nsm (match ?x with _ => _ end)) => destruct x : nostore.

Ltac nostore := eauto 60 with nostore nocore.

Lemma ns_filesystem c fs : ns (filesystem c fs).
Proof. unfold filesystem. nostore. Qed.
Lemma ns_inode f i : ns (inode f i).
Proof. unfold inode. nostore. Qed.
#[export] Hint Resolve ns_filesystem ns_inode : nostore.
Lemma ns_dir f i : ns (dir f i).
Proof. unfold dir. nostore. Qed.
#[export] Hint Resolve ns_dir : nostore.
Lemma ns_entry f i n : ns (entry f i n).
Proof. unfold entry. nostore. Qed.
#[export] Hint Resolve ns_entry : nostore.
Lemma ns_lookup f i n : ns (lookup f i n).
Proof. unfold lookup. nostore. Qed.
Lemma ns_check_name n : ns (check_name n).
Proof. unfold check_name. nostore. Qed.
Lemma ns_check_xattr_name n : ns (check_xattr_name n).
Proof. unfold check_xattr_name. nostore. Qed.
#[export] Hint Resolve ns_lookup ns_check_name ns_check_xattr_name : nostore.

Lemma ns_parse v : ns (Acl.parse v).
Proof.
  unfold Acl.parse. assert (∀ l s, ns (Acl.see_all l s)); [|nostore].
  induction l as [|e l IH]; intros s; simpl; [done|]. apply ns_bind; [|done].
  unfold Acl.see_entry, Acl.see_tag. nostore.
Qed.
#[export] Hint Resolve ns_parse : nostore.

Lemma ns_inherit f p t m cm : ns (inherit_acls f p t m cm).
Proof. unfold inherit_acls. nostore. Qed.
Lemma ns_inode_quota f : ns (check_inode_quota f).
Proof. unfold check_inode_quota. nostore. Qed.
Lemma ns_within f i a : ns (is_within f i a).
Proof.
  unfold is_within. generalize (S (base.size (inodes f))) as n. intros n. revert i.
  induction n as [|n IH]; intros i; simpl; [done|]. nostore.
Qed.
Lemma ns_byte_quota c fs i l : ns (check_byte_quota c fs i l).
Proof. unfold check_byte_quota. nostore. Qed.
Lemma ns_new_kind t p tg r : ns (new_kind t p tg r).
Proof. unfold new_kind. nostore. Qed.
Lemma ns_check e : ns (check e).
Proof. unfold check, Ec.check, Ec.scheme. nostore. Qed.
Lemma ns_acl_mode x n v : ns (acl_mode x n v).
Proof. unfold acl_mode. nostore. Qed.
Lemma ns_chmod x m : ns (chmod_acl x m).
Proof. unfold chmod_acl. nostore. Qed.
#[export] Hint Resolve ns_inherit ns_inode_quota ns_within ns_byte_quota ns_new_kind ns_check ns_acl_mode ns_chmod : nostore.

(** ** Filesystems *)

Lemma nsm_set_entry d n o : nsm (set_entry d n o).
Proof. unfold set_entry, table_set_entry, edit_inode. nostore. Qed.
Lemma nsm_table_set_entry d n o : nsm (table_set_entry d n o).
Proof. unfold table_set_entry, edit_inode. nostore. Qed.
Lemma nsm_edit_inode i g : nsm (edit_inode i g).
Proof. unfold edit_inode. nostore. Qed.
#[export] Hint Resolve nsm_set_entry nsm_table_set_entry nsm_edit_inode : nostore.

Lemma nsm_drop_link i now : nsm (drop_link i now).
Proof. unfold drop_link. nostore. Qed.
Lemma nsm_dir_changed d z now : nsm (dir_changed d z now).
Proof. unfold dir_changed. nostore. Qed.
#[export] Hint Resolve nsm_drop_link nsm_dir_changed : nostore.
Lemma nsm_replace_target np nname s q now : nsm (replace_target np nname s q now).
Proof. unfold replace_target. nostore. Qed.
Lemma nsm_move_entry parent name np nname src s now : nsm (move_entry parent name np nname src s now).
Proof. unfold move_entry, set_parent. nostore. Qed.
#[export] Hint Resolve nsm_replace_target nsm_move_entry : nostore.

Lemma nsm_mknode_in parent name id t tg r m cm u g now : nsm (mknode_in parent name id t tg r m cm u g now).
Proof. unfold mknode_in. nostore. Qed.
Lemma nsm_rename_in parent name np nname now : nsm (rename_in parent name np nname now).
Proof. unfold rename_in. nostore. Qed.
Lemma nsm_set_attr_in i a now : nsm (set_attr_in i a now).
Proof. unfold set_attr_in, resize_file. nostore. Qed.
Lemma nsm_set_xattr_in i n v m now : nsm (set_xattr_in i n v m now).
Proof. unfold set_xattr_in. nostore. Qed.
Lemma nsm_install_in i l n now r : nsm (install_in i l n now r).
Proof. unfold install_in. nostore. Qed.
#[export] Hint Resolve nsm_mknode_in nsm_rename_in nsm_set_attr_in nsm_set_xattr_in nsm_install_in : nostore.

(** ** Extents *)

Lemma nsm_dec_ref x : nsm (dec_ref x).
Proof. unfold dec_ref. nostore. Qed.
Lemma nsm_inc_ref x : nsm (inc_ref x).
Proof. unfold inc_ref. nostore. Qed.
#[export] Hint Resolve nsm_dec_ref nsm_inc_ref : nostore.
Lemma nsm_drop_inode i : nsm (drop_inode i).
Proof. unfold drop_inode. nostore. Qed.
Lemma nsm_share f : nsm (share_extents f).
Proof. unfold share_extents. nostore. Qed.
#[export] Hint Resolve nsm_drop_inode nsm_share : nostore.
Lemma nsm_drop_gone fs g : nsm (drop_gone fs g).
Proof. unfold drop_gone. nostore. Qed.
Lemma nsm_snapshot_tree id fs n now : nsm (snapshot_tree id fs n now).
Proof. unfold snapshot_tree. nostore. Qed.
#[export] Hint Resolve nsm_drop_gone nsm_snapshot_tree : nostore.

(** ** Replicas *)

Lemma ns_replica_of c fs : ns (replica_of c fs).
Proof. unfold replica_of. nostore. Qed.
Lemma ns_snapshot_of c fs id : ns (snapshot_of c fs id).
Proof. unfold snapshot_of. nostore. Qed.
#[export] Hint Resolve ns_replica_of ns_snapshot_of : nostore.
Lemma nsm_revert_to fs id r : nsm (revert_to fs id r).
Proof. unfold revert_to. nostore. Qed.
#[export] Hint Resolve nsm_revert_to : nostore.
Lemma nsm_discard fs : nsm (discard_partial fs).
Proof. unfold discard_partial. nostore. Qed.
#[export] Hint Resolve nsm_discard : nostore.
Lemma ns_check_inodes f types l : ns (check_inodes f types l).
Proof.
  revert types. induction l as [|n l IH]; intros types; simpl; [done|]. apply ns_bind; [|done].
  unfold check_inode, check_target, check_xattrs. nostore.
Qed.
#[export] Hint Resolve ns_check_inodes : nostore.
Lemma ns_check_part c fs from to l r : ns (check_part c fs from to l r).
Proof. unfold check_part. nostore. Qed.
#[export] Hint Resolve ns_check_part : nostore.

Lemma nsm_apply_part to l removed : nsm (apply_part to l removed).
Proof.
  unfold apply_part. apply nsm_bind; [|intros r; apply nsm_bind; [|nostore]].
  - induction l as [|n l IH]; simpl; [nostore|]. apply nsm_bind; [|nostore].
    unfold upsert, update_kind, first_kind. nostore.
  - induction removed as [|i removed IH]; simpl; nostore.
Qed.
#[export] Hint Resolve nsm_apply_part : nostore.

Lemma nsm_apply_fs op : nsm (apply_fs op).
Proof.
  unfold apply_fs. apply nsm_bind; [unfold fs_guards; nostore|intros _].
  destruct op; unfold create_fs, delete_fs, mknode, link, link_in, unlink, unlink_in, rmdir, rmdir_in, rename, set_attr, set_xattr,
    remove_xattr, remove_xattr_in, install_file_extent, install_file_extents, delete_fs_snapshot, clone_fs, set_quota, create_replica,
    replica_apply, replica_commit, replica_promote, replica_demote; nostore.
Qed.

(** ** Every command *)

Lemma ns_lease file t op l : (∀ fs i, ns (file fs i)) → ns (Leases.apply file t op l).2.
Proof.
  intros Hf. destruct op; unfold Leases.apply, mbind, sm_bind, sm_lift, sm_get, sm_modify, sm_put,
    Leases.session_of, ok_or, Leases.check_holder_name, reject_if; simpl; repeat (case_match; simplify_eq/=); try done.
  all: intros [= ->]; by edestruct Hf.
Qed.

Lemma nsm_exec term cmd : nsm (exec term cmd).
Proof.
  destruct cmd; simpl; [..|apply nsm_apply_fs| |nostore].
  1-12: unfold create_volume, install_extent, install_extents, create_snapshot, delete_snapshot, delete_volume,
      resize_volume, clone_snapshot, mark_extent_reclaimed, replace_replica, tier_extent, change_membership, volume,
      release_replica; nostore.
  intros s. unfold lease. pose proof (ns_lease (lease_file (cat s)) term op (leases (cat s))) as H.
  destruct (Leases.apply _ _ _ _). apply H. intros fs i. unfold lease_file. nostore.
Qed.

End NoStore.
