(* ===== verification/Space.v ===== *)
(** * Device space ([alloc.rs] and [metadata.rs] together)

    The catalog records twice what is on the devices: each extent lists the
    ranges of its replicas or shards, and the free list what [MarkExtentReclaimed],
    [TierExtent] and [ReplaceReplica] gave back.  [space_ok] says the two agree:
    no byte belongs to two ranges, and none that is in use is free.  It is what
    makes a release never fail, which [Catalog::apply_committed] relies on. *)

From S2P Require Import Prelude MetaError FreeList Catalog Extents.

Module Space.
Import Catalog Extents.
Import FreeList (FreeList, is_free, in_range, wf).

Open Scope N_scope.

(** ** Ranges in use *)

(** An extent's share of the devices: the length of each range, and where. *)
Definition spot : Type := N * list ReplicaRef.

Definition spot_of (m : ExtentMeta) : spot := (stored_len (extent m), replicas (extent m)).
Definition spots (c : Catalog) : gmap ExtentId spot := spot_of <$> extents c.

(** Byte [b] of device [d] of node [nd] is in the range of [n] bytes at [r]. *)
Definition covers (n : N) (r : ReplicaRef) (nd : string) (d b : N) : Prop :=
  in_range (node_id r) (device_index r) (offset r) n nd d b.

(** The two ranges share no byte. *)
Definition clear (n : N) (r : ReplicaRef) (n' : N) (r' : ReplicaRef) : Prop :=
  ∀ nd d b, covers n r nd d b → ¬ covers n' r' nd d b.

#[export] Instance clear_sym n : Symmetric (λ r r', clear n r n r').
Proof. intros r r' H nd d b H1 H2. by eapply H. Qed.

(** The range has no free byte. *)
Definition taken (fl : FreeList) (n : N) (r : ReplicaRef) : Prop :=
  ∀ nd d b, covers n r nd d b → ¬ is_free fl nd d b.

Record space_ok (sp : gmap ExtentId spot) (fl : FreeList) : Prop := {
  so_wf : wf fl;
  so_bound : ∀ x n l r, sp !! x = Some (n, l) → r ∈ l → offset r + n < u64_size;
  so_taken : ∀ x n l r, sp !! x = Some (n, l) → r ∈ l → taken fl n r;
  so_within : ∀ x n l, sp !! x = Some (n, l) → pairwise (λ r r', clear n r n r') l;
  so_across : ∀ x n l r x' n' l' r', x ≠ x' → sp !! x = Some (n, l) → r ∈ l →
    sp !! x' = Some (n', l') → r' ∈ l' → clear n r n' r';
}.

(** A range that can be given to an extent: it overlaps no range in use, and is
    either free or not known to the free list at all. *)
Record placeable (sp : gmap ExtentId spot) (fl : FreeList) (n : N) (r : ReplicaRef) : Prop := {
  pl_bound : offset r + n < u64_size;
  pl_unused : ∀ x n' l r', sp !! x = Some (n', l) → r' ∈ l → clear n r n' r';
  pl_whole : taken fl n r ∨ ∀ nd d b, covers n r nd d b → is_free fl nd d b;
}.

Definition reserve_at (fl : FreeList) (n : N) (r : ReplicaRef) : FreeList :=
  fst (FreeList.reserve fl (node_id r) (device_index r) (offset r) n).
Definition release_at (fl : FreeList) (n : N) (r : ReplicaRef) : res FreeList.FreeError FreeList :=
  FreeList.release fl (node_id r) (device_index r) (offset r) n.

(** ** Giving and taking one range *)

Lemma reserve_at_spec fl n r :
  wf fl → offset r + n < u64_size → taken fl n r ∨ (∀ nd d b, covers n r nd d b → is_free fl nd d b) →
  wf (reserve_at fl n r) ∧
  (∀ nd d b, is_free (reserve_at fl n r) nd d b ↔ is_free fl nd d b ∧ ¬ covers n r nd d b).
Proof.
  intros Hwf Hb Hw. unfold reserve_at. destruct (N.eq_dec n 0) as [->|Hn].
  { unfold FreeList.reserve. simpl. split; [done|]. intros. unfold covers, in_range. naive_solver lia. }
  pose proof (FreeList.reserve_effect fl (node_id r) (device_index r) (offset r) n Hwf) as He.
  destruct (FreeList.reserve _ _ _ _ _) as [fl' ok]. destruct He as (Hwf' & Hok & Hno & Hyes); [lia|done|].
  simpl. split; [done|]. destruct Hw as [Ht|Hw].
  - destruct ok.
    + exfalso. apply (Ht (node_id r) (device_index r) (offset r)); [unfold covers, in_range; naive_solver lia|].
      apply Hok; [done|lia].
    + rewrite (Hno eq_refl). intros nd d b. split; [|naive_solver]. intros Hf. split; [done|]. intros Hc. by eapply Ht.
  - apply Hyes, Hok. intros b Hbb. apply Hw. unfold covers, in_range. naive_solver.
Qed.

Lemma release_at_spec fl n r :
  wf fl → offset r + n < u64_size → taken fl n r →
  ∃ fl', release_at fl n r = Ok fl' ∧ wf fl' ∧
    (∀ nd d b, is_free fl' nd d b ↔ covers n r nd d b ∨ is_free fl nd d b).
Proof.
  intros Hwf Hb Ht. unfold release_at. destruct (N.eq_dec n 0) as [->|Hn].
  { exists fl. unfold FreeList.release. simpl. split_and!; [done|done|]. intros. unfold covers, in_range. naive_solver lia. }
  pose proof (FreeList.release_meets_post fl (node_id r) (device_index r) (offset r) n Hwf) as He.
  destruct (FreeList.release _ _ _ _ _) as [fl'|[]|]; simpl in He.
  - destruct He as (Hwf' & Hf & _); [lia|done|]. by exists fl'.
  - destruct He as (b & Hbb & Hf); [lia|done|]. exfalso.
    eapply Ht; [|exact Hf]. unfold covers, in_range. naive_solver.
  - destruct He; [lia|done].
Qed.

(** ** Ranges come and go *)

(** Fewer ranges for an extent. *)
Lemma space_shrink sp fl x n l l' :
  space_ok (<[x := (n, l)]> sp) fl → (∃ k, l ≡ₚ l' ++ k) → space_ok (<[x := (n, l')]> sp) fl.
Proof.
  intros [Hwf Hb Ht Hw Ha] [k Hl].
  assert (∀ r, r ∈ l' → r ∈ l) as Hin by (intros r; rewrite Hl; set_solver).
  assert (∀ y n1 l1 r, <[x := (n, l')]> sp !! y = Some (n1, l1) → r ∈ l1 →
    ∃ l2, <[x := (n, l)]> sp !! y = Some (n1, l2) ∧ r ∈ l2) as Hup.
  { intros y n1 l1 r. destruct (decide (x = y)) as [<-|Hne].
    - rewrite !lookup_insert_eq. intros [= <- <-] Hr. eauto.
    - rewrite !lookup_insert_ne by done. eauto. }
  split; [done|..].
  - intros y n1 l1 r Hy Hr. destruct (Hup _ _ _ _ Hy Hr) as (l2 & ? & ?). eauto.
  - intros y n1 l1 r Hy Hr. destruct (Hup _ _ _ _ Hy Hr) as (l2 & ? & ?). eauto.
  - intros y n1 l1. destruct (decide (x = y)) as [<-|Hne].
    + rewrite lookup_insert_eq. intros [= <- <-]. specialize (Hw x n l). rewrite lookup_insert_eq in Hw.
      apply (pairwise_perm _ _ _ Hl), pairwise_app in Hw; [|done]. apply Hw.
    + rewrite lookup_insert_ne by done. intros Hy. apply (Hw y). by rewrite lookup_insert_ne.
  - intros y n1 l1 r y' n1' l1' r' Hne Hy Hr Hy' Hr'.
    destruct (Hup _ _ _ _ Hy Hr) as (l2 & ? & ?). destruct (Hup _ _ _ _ Hy' Hr') as (l2' & ? & ?). eauto.
Qed.

Lemma space_perm sp fl x n l l' :
  space_ok (<[x := (n, l)]> sp) fl → l ≡ₚ l' → space_ok (<[x := (n, l')]> sp) fl.
Proof. intros H Hl. eapply space_shrink; [done|]. exists []. by rewrite app_nil_r. Qed.

(** The free list changes only outside the ranges in use. *)
Lemma space_free sp fl fl' :
  space_ok sp fl → wf fl' →
  (∀ x n l r nd d b, sp !! x = Some (n, l) → r ∈ l → covers n r nd d b → is_free fl' nd d b → is_free fl nd d b) →
  space_ok sp fl'.
Proof.
  intros [Hwf Hb Ht Hw Ha] Hwf' Hf. split; try done. intros x n l r Hx Hr nd d b Hc Hfr.
  by eapply Ht; eauto.
Qed.

Lemma space_drop sp fl x n r l :
  space_ok (<[x := (n, r :: l)]> sp) fl →
  ∃ fl', release_at fl n r = Ok fl' ∧ space_ok (<[x := (n, l)]> sp) fl' ∧
    (∀ nd d b, is_free fl' nd d b ↔ covers n r nd d b ∨ is_free fl nd d b).
Proof.
  intros Hok. assert (<[x := (n, r :: l)]> sp !! x = Some (n, r :: l)) as Hx by apply lookup_insert_eq.
  destruct (release_at_spec fl n r) as (fl' & Hr & Hwf & Hf).
  { by eapply so_wf. } { eapply so_bound; [done..|]. set_solver. } { eapply so_taken; [done..|]. set_solver. }
  exists fl'. split_and!; [done| |done].
  apply (space_free _ fl); [eapply space_shrink; [done|]; exists [r]; by rewrite Permutation_app_comm|done|].
  intros y n1 l1 r1 nd d b Hy Hr1 Hc [Hcr|?]%Hf; [exfalso|done].
  destruct (decide (y = x)) as [->|Hne].
  - rewrite lookup_insert_eq in Hy. injection Hy as <- <-. pose proof (so_within _ _ Hok x n _ Hx) as [Hp _].
    by eapply (Hp r1).
  - eapply (so_across _ _ Hok x n (r :: l) r y n1 l1 r1); [done|done|set_solver|..|done|done|done].
    by rewrite lookup_insert_ne in Hy |- *.
Qed.

Lemma space_add sp fl x n r l :
  space_ok (<[x := (n, l)]> sp) fl → placeable (<[x := (n, l)]> sp) fl n r →
  space_ok (<[x := (n, r :: l)]> sp) (reserve_at fl n r).
Proof.
  intros Hok [Hpb Hpu Hpw]. destruct (reserve_at_spec fl n r) as [Hwf Hf]; [by eapply so_wf|done|done|].
  assert (∀ y n1 l1 r1, <[x := (n, r :: l)]> sp !! y = Some (n1, l1) → r1 ∈ l1 →
    y = x ∧ n1 = n ∧ r1 = r ∨ ∃ l2, <[x := (n, l)]> sp !! y = Some (n1, l2) ∧ r1 ∈ l2) as Hup.
  { intros y n1 l1 r1. destruct (decide (x = y)) as [<-|Hne].
    - rewrite !lookup_insert_eq. intros [= <- <-] [->|Hr]%elem_of_cons; eauto.
    - rewrite !lookup_insert_ne by done. eauto. }
  split; [done|..].
  - intros y n1 l1 r1 Hy Hr. destruct (Hup _ _ _ _ Hy Hr) as [(-> & -> & ->)|(l2 & ? & ?)]; [done|].
    by eapply so_bound.
  - intros y n1 l1 r1 Hy Hr nd d b Hc [Hfr Hnc]%Hf.
    destruct (Hup _ _ _ _ Hy Hr) as [(-> & -> & ->)|(l2 & ? & ?)]; [done|]. by eapply so_taken.
  - intros y n1 l1. destruct (decide (x = y)) as [<-|Hne].
    + rewrite lookup_insert_eq. intros [= <- <-]. split; [|eapply (so_within _ _ Hok x); apply lookup_insert_eq].
      intros r1 Hr1. eapply Hpu; [apply lookup_insert_eq|done].
    + rewrite lookup_insert_ne by done. intros Hy. apply (so_within _ _ Hok y). by rewrite lookup_insert_ne.
  - intros y n1 l1 r1 y' n1' l1' r1' Hne Hy Hr Hy' Hr'.
    destruct (Hup _ _ _ _ Hy Hr) as [(-> & -> & ->)|(l2 & ? & ?)];
      destruct (Hup _ _ _ _ Hy' Hr') as [(-> & -> & ->)|(l2' & ? & ?)].
    + done.
    + by eapply Hpu.
    + intros nd d b H1 H2. by eapply Hpu.
    + by eapply so_across.
Qed.

(** Without ranges it does not matter what an extent's record says. *)
Lemma space_forget sp fl x n : space_ok (<[x := (n, [])]> sp) fl → space_ok (delete x sp) fl.
Proof.
  intros Hok. assert (∀ y s, delete x sp !! y = Some s → <[x := (n, [])]> sp !! y = Some s) as Hup.
  { intros y s [Hne Hy]%lookup_delete_Some. by rewrite lookup_insert_ne. }
  destruct Hok as [Hwf Hb Ht Hw Ha]. split; [done|eauto|eauto|eauto|]. intros. by eapply Ha; eauto.
Qed.

Lemma space_blank sp fl x n : space_ok (delete x sp) fl → space_ok (<[x := (n, [])]> sp) fl.
Proof.
  intros Hok. assert (∀ y n1 l1, <[x := (n, [])]> sp !! y = Some (n1, l1) →
    l1 = [] ∨ delete x sp !! y = Some (n1, l1)) as Hup.
  { intros y n1 l1 [[<- [= <- <-]]|[Hne Hy]]%lookup_insert_Some; [by left|]. right. by rewrite lookup_delete_ne. }
  destruct Hok as [Hwf Hb Ht Hw Ha]. split; [done|..].
  - intros y n1 l1 r [->|?]%Hup Hr; [set_solver|eauto].
  - intros y n1 l1 r [->|?]%Hup Hr; [set_solver|eauto].
  - intros y n1 l1 [->|?]%Hup; [done|eauto].
  - intros y n1 l1 r y' n1' l1' r' Hne [->|?]%Hup Hr [->|?]%Hup Hr'; [set_solver..|]. by eapply Ha.
Qed.

(** Placing one range leaves room for another that does not overlap it. *)
Lemma placeable_add sp fl x n k r r' :
  wf fl → placeable (<[x := (n, k)]> sp) fl n r → placeable (<[x := (n, k)]> sp) fl n r' → clear n r n r' →
  placeable (<[x := (n, r :: k)]> sp) (reserve_at fl n r) n r'.
Proof.
  intros Hwf [Hb _ Hw] [Hb' Hu' Hw'] Hcl. destruct (reserve_at_spec fl n r) as [_ Hf]; [done..|]. split; [done| |].
  - intros y n1 l r1 [[<- [= <- <-]]|[Hne Hy]]%lookup_insert_Some.
    + intros [->|Hr]%elem_of_cons; [by apply (clear_sym n)|]. eapply Hu'; [apply lookup_insert_eq|done].
    + intros Hr. eapply Hu'; [by rewrite lookup_insert_ne|done].
  - destruct Hw' as [Ht|Hfr]; [left|right].
    + intros nd d b Hc [Hfree _]%Hf. by eapply Ht.
    + intros nd d b Hc. apply Hf. split; [by apply Hfr|]. intros Hc'. by eapply Hcl.
Qed.

Lemma space_add_all sp x n l : ∀ fl k,
  space_ok (<[x := (n, k)]> sp) fl → (∀ r, r ∈ l → placeable (<[x := (n, k)]> sp) fl n r) →
  pairwise (λ r r', clear n r n r') l →
  space_ok (<[x := (n, rev l ++ k)]> sp) (foldl (λ fl r, reserve_at fl n r) fl l).
Proof.
  induction l as [|r l IH]; intros fl k Hok Hp Hc; [done|]. destruct Hc as [Hr Hl].
  cbn [foldl]. simpl rev. rewrite <- app_assoc. apply IH; [|intros r' Hr'|done].
  - apply space_add; [done|]. apply Hp. set_solver.
  - apply placeable_add; [by eapply so_wf|apply Hp; set_solver..|by apply Hr].
Qed.

(** ** Taking a reference *)

(** An extent the catalog knows, or whose ranges can be given to it. *)
Definition admits (c : Catalog) (e : ExtentRef) : Prop :=
  extents c !! eid e ≠ None ∨
  (∀ r, r ∈ replicas e → placeable (spots c) (free c) (stored_len e) r) ∧
  pairwise (λ r r', clear (stored_len e) r (stored_len e) r') (replicas e).

Fixpoint admits_all (c : Catalog) (l : list ExtentRef) : Prop :=
  match l with
  | [] => True
  | e :: l => admits c e ∧ admits_all (add_extent_ref e c) l
  end.

Lemma add_extent_ref_space c e :
  space_ok (spots c) (free c) → admits c e →
  space_ok (spots (add_extent_ref e c)) (free (add_extent_ref e c)).
Proof.
  intros Hok Ha. unfold add_extent_ref. destruct (extents c !! eid e) as [m|] eqn:Hm.
  - rewrite Hm. simpl. unfold spots. simpl. rewrite fmap_insert.
    rewrite insert_id; [done|]. by rewrite lookup_fmap, Hm.
  - simpl. rewrite Hm. destruct Ha as [Hno|[Hp Hc]]; [done|]. simpl. unfold spots. simpl. rewrite fmap_insert.
    assert (spots c !! eid e = None) as Hs by (unfold spots; by rewrite lookup_fmap, Hm).
    assert (space_ok (<[eid e := (stored_len e, [])]> (spots c)) (free c)) as Hok'.
    { apply space_blank. by rewrite delete_id. }
    eapply space_perm; [|symmetry; apply Permutation_rev].
    rewrite <- (app_nil_r (rev _)). apply (space_add_all _ _ _ (replicas e)); [done| |done].
    intros r Hr. destruct (Hp r Hr) as [Hb Hu Hw]. split; [done| |done].
    intros y n' l r' [[_ [= <- <-]]|[_ Hy]]%lookup_insert_Some Hr'; [set_solver|by eapply Hu].
Qed.

Lemma add_extent_refs_space l c :
  space_ok (spots c) (free c) → admits_all c l →
  let c' := foldl (λ c e, add_extent_ref e c) c l in space_ok (spots c') (free c').
Proof.
  revert c. induction l as [|e l IH]; intros c Hok Ha; [done|]. destruct Ha as [He Hl].
  apply IH; [by apply add_extent_ref_space|done].
Qed.

End Space.
