(* ===== verification/MetaSpace.v ===== *)
(** * Commands and device space

    Every command of the log keeps [Space.space_ok] when the ranges it brings in
    are free or new: most do not touch device space at all (the [frames]
    calculus), the installs take ranges, and the three commands that give ranges
    back never find one free already, so that the releases cannot fail. *)

From S2P Require Import Prelude MetaError FreeList Leases Catalog Extents FsTree Namespace Replica Metadata Frames Space.

Module MetaSpace.
Import Catalog Extents FsTree Namespace Replica Metadata Frames Space.

Open Scope N_scope.

Definition sound (c : Catalog) : Prop := space_ok (spots c) (free c).

Definition space_same (c c' : Catalog) : Prop := spots c' = spots c ∧ free c' = free c.

#[export] Instance space_same_po : PreOrder space_same.
Proof. split; [by intros c|]. intros c1 c2 c3 [? ?] [? ?]. split; congruence. Qed.

Lemma sound_same c c' : space_same c c' → sound c → sound c'.
Proof. unfold sound. by intros [-> ->]. Qed.

(** ** Commands that leave device space alone *)

Lemma spots_recount c id e n :
  extents c !! id = Some e → spots (c <| extents ::= <[id := e <| refs := n |>]> |>) = spots c.
Proof.
  intros He. unfold spots. simpl. rewrite fmap_insert. apply insert_id. by rewrite lookup_fmap, He.
Qed.

#[export] Instance space_same_ind : Indifferent space_same.
Proof.
  split; [|by intros..]. split; [apply _|by intros..| |by intros].
  intros c id e n He. split; [by apply spots_recount|done].
Qed.

#[export] Hint Extern 4 (space_same _ _) => done : frames.

(** ** Installs *)

(** [m] does not touch device space but to add references to [l], once. *)
Definition installs (l : list ExtentRef) (m : M ()) : Prop :=
  ∀ s, space_same (cat s) (cat (m s).1) ∨
    ∃ c, space_same (cat s) c ∧ space_same (foldl (λ c e, add_extent_ref e c) c l) (cat (m s).1).

Lemma installs_frames l m : frames space_same m → installs l m.
Proof. intros Hm s. left. apply Hm. Qed.

Lemma installs_bind {A} l (m : M A) k : frames space_same m → (∀ a, installs l (k a)) → installs l (m ≫= k).
Proof.
  intros Hm Hk s. specialize (Hm s). unfold mbind, sm_bind. destruct (m s) as [s' [a| |]]; [|by left..].
  simpl in Hm. destruct (Hk a s') as [Hs|(c & Hc & Hs)]; [left|right; exists c; split; [|done]]; by etrans.
Qed.

Lemma installs_add l m :
  frames space_same m → installs l (edit (λ c, foldl (λ c e, add_extent_ref e c) c l) ;; m).
Proof.
  intros Hm s. right. exists (cat s). split; [done|]. unfold mbind, sm_bind. simpl.
  apply (Hm (mkCtx _ _)).
Qed.

(** What a command installs. *)
Definition installed (cmd : MetaCommand) : list ExtentRef :=
  match cmd with
  | InstallExtent _ _ e => [e]
  | InstallExtents _ l => l
  | Fs (InstallFileExtent _ _ _ e _ _ _) => [e]
  | Fs (InstallFileExtents _ _ l _ _ _) => l
  | _ => []
  end.

Lemma installs_file_extent fs i off e n now r : installs [e] (install_file_extent fs i off e n now r).
Proof.
  unfold install_file_extent. do 3 (apply installs_bind; [frames|intros ?]). case_match.
  apply (installs_add [e]). frames.
Qed.

Lemma installs_file_extents fs i l n now r : installs l (install_file_extents fs i l n now r).
Proof.
  unfold install_file_extents. do 3 (apply installs_bind; [frames|intros ?]). case_match.
  apply installs_add. frames.
Qed.

Lemma installs_fs op : installs (installed (Fs op)) (apply_fs op).
Proof.
  unfold apply_fs. apply installs_bind; [frames|intros _]. destruct op; simpl.
  11: apply installs_file_extent. 11: apply installs_file_extents.
  all: apply installs_frames.
  all: unfold create_fs, delete_fs, mknode, link, unlink, rmdir, rename, drop_gone, set_attr, set_xattr, remove_xattr,
    delete_fs_snapshot, clone_fs, set_quota, create_replica, replica_apply, replica_commit, replica_promote, replica_demote;
    try frames.
Qed.

(** Taking a reference looks at device space only. *)
Lemma add_extent_ref_spots e c :
  spots (add_extent_ref e c) =
    match spots c !! eid e with Some _ => spots c | None => <[eid e := (stored_len e, replicas e)]> (spots c) end ∧
  free (add_extent_ref e c) =
    match spots c !! eid e with Some _ => free c | None => reserve_all e (free c) end.
Proof.
  unfold add_extent_ref, spots. rewrite lookup_fmap. destruct (extents c !! eid e) as [m|] eqn:Hm; simpl.
  - rewrite Hm. simpl. rewrite fmap_insert, insert_id by (by rewrite lookup_fmap, Hm). done.
  - rewrite Hm. simpl. by rewrite fmap_insert.
Qed.

#[export] Instance add_extent_ref_proper e : Proper (space_same ==> space_same) (add_extent_ref e).
Proof.
  intros c c' [Hs Hf]. destruct (add_extent_ref_spots e c) as [H1 H2], (add_extent_ref_spots e c') as [H1' H2'].
  split; rewrite ?H1, ?H2, ?H1', ?H2', Hs, ?Hf; done.
Qed.

Lemma admits_same c c' e : space_same c c' → admits c e → admits c' e.
Proof.
  intros [Hs Hf] [Hk|[Hp Hc]]; [left|right; by rewrite Hs, Hf].
  intros Hn. apply Hk. apply (f_equal (.!! eid e)) in Hs. unfold spots in Hs. rewrite !lookup_fmap, Hn in Hs.
  by destruct (extents c !! eid e).
Qed.

Lemma admits_all_same c c' l : space_same c c' → admits_all c l → admits_all c' l.
Proof.
  revert c c'. induction l as [|e l IH]; intros c c' Hs; [done|]. intros [He Hl].
  split; [by eapply admits_same|]. eapply IH; [|done]. by apply add_extent_ref_proper.
Qed.

Lemma installs_sound l m s :
  installs l m → sound (cat s) → admits_all (cat s) l → sound (cat (m s).1).
Proof.
  intros Hm Hok Ha. destruct (Hm s) as [Hs|(c & Hc & Hs)]; [by eapply sound_same|].
  eapply sound_same; [exact Hs|]. apply add_extent_refs_space; [by eapply sound_same|by eapply admits_all_same].
Qed.

(** ** Giving ranges back *)

Lemma wp_release n r s fl' Q R :
  release_at (free (cat s)) n r = Ok fl' →
  Q () (s <| cat ::= λ c, c <| free := fl' |> |>) → wp (release_replica n r) s Q R.
Proof.
  intros Hr HQ. unfold release_replica. rewrite wp_bind, wp_get. unfold release_at in Hr. by rewrite Hr.
Qed.

(** The bytes of the ranges [l] of [n] bytes each. *)
Definition in_ranges (n : N) (l : list ReplicaRef) (nd : string) (d b : N) : Prop :=
  ∃ r, r ∈ l ∧ covers n r nd d b.

Lemma wp_release_all sp x n l s :
  space_ok (<[x := (n, l)]> sp) (free (cat s)) →
  wp (sm_for l (release_replica n)) s
    (λ _ s', ∃ fl, s' = s <| cat ::= λ c, c <| free := fl |> |> ∧ space_ok (<[x := (n, [])]> sp) fl ∧
       (∀ nd d b, FreeList.is_free fl nd d b ↔ in_ranges n l nd d b ∨ FreeList.is_free (free (cat s)) nd d b))
    (λ _ _, False).
Proof.
  intros Hok.
  apply (wp_for l _ (λ k s', ∃ fl, s' = s <| cat ::= λ c, c <| free := fl |> |> ∧ space_ok (<[x := (n, k)]> sp) fl ∧
    (∀ nd d b, in_ranges n l nd d b ∨ FreeList.is_free (free (cat s)) nd d b
       ↔ in_ranges n k nd d b ∨ FreeList.is_free fl nd d b))).
  - intros r k s' (fl & -> & Hok' & Hf). destruct (space_drop _ _ _ _ _ _ Hok') as (fl' & Hr & Hok'' & Hf').
    eapply wp_release; [exact Hr|]. exists fl'. split_and!; [done|done|]. intros nd d b.
    rewrite Hf, Hf'. unfold in_ranges. setoid_rewrite elem_of_cons. naive_solver.
  - exists (free (cat s)). split_and!; [by destruct s as [[] ?]|done|done].
  - intros s' (fl & -> & Hok' & Hf). exists fl. split_and!; [done|done|]. intros nd d b. rewrite Hf.
    unfold in_ranges. set_solver.
Qed.

Lemma spots_known c id e :
  extents c !! id = Some e → spots c = <[id := (stored_len (extent e), replicas (extent e))]> (spots c).
Proof. intros He. symmetry. apply insert_id. unfold spots. by rewrite lookup_fmap, He. Qed.

(** Between the two states only extent records and the free list changed; the
    references stayed, and an extent that went had none. *)
Definition reclaims (s s' : Ctx) : Prop :=
  gc s' = gc s ∧ ∃ es fl, cat s' = (cat s) <| extents := es |> <| free := fl |> ∧
    ∀ x, match es !! x with
         | Some m => ∃ m0, extents (cat s) !! x = Some m0 ∧ refs m = refs m0
         | None => ∀ m0, extents (cat s) !! x = Some m0 → refs m0 = 0
         end.

Lemma reclaims_put s id e e' fl :
  extents (cat s) !! id = Some e → refs e' = refs e →
  reclaims s (s <| cat ::= λ c, c <| extents ::= <[id := e']> |> <| free := fl |> |>).
Proof.
  intros He Hr. split; [done|]. eexists _, fl. split; [done|]. intros x. destruct (decide (id = x)) as [<-|Hne].
  - rewrite lookup_insert_eq. eauto.
  - rewrite lookup_insert_ne by done. destruct (extents (cat s) !! x); naive_solver.
Qed.

Lemma reclaims_delete s id e fl :
  extents (cat s) !! id = Some e → refs e = 0 →
  reclaims s (s <| cat ::= λ c, c <| extents ::= delete id |> <| free := fl |> |>).
Proof.
  intros He Hr. split; [done|]. eexists _, fl. split; [done|]. intros x. destruct (decide (id = x)) as [<-|Hne].
  - rewrite lookup_delete_eq. naive_solver.
  - rewrite lookup_delete_ne by done. destruct (extents (cat s) !! x); naive_solver.
Qed.

Section reclaim.
Context (s : Ctx) (Hok : sound (cat s)).

(** The command either fails without a change or keeps the space sound, and
    the references of the extents that stay. *)
Abbreviation safe m := (wp m s (λ _ s', sound (cat s') ∧ reclaims s s') (λ _ s', s' = s)).

Lemma mark_safe id : safe (mark_extent_reclaimed id).
Proof.
  unfold mark_extent_reclaimed, look, edit. rewrite wp_bind, wp_try.
  destruct (extents (cat s) !! id) as [e|] eqn:He; cbn [ok_or]; [|done].
  destruct (N.eqb_spec (refs e) 0) as [Hz|]; [|done]. simpl negb. cbv iota. rewrite wp_bind, wp_modify.
  unfold sound in Hok. rewrite (spots_known _ _ _ He) in Hok.
  eapply wp_mono; [eapply wp_release_all, Hok| |done]. intros [] s' (fl & -> & Hok' & _).
  split; [|by eapply (reclaims_delete s)]. unfold sound, spots. simpl.
  rewrite fmap_delete. by eapply space_forget.
Qed.

Lemma tier_safe id key rs : safe (tier_extent id key rs).
Proof.
  unfold tier_extent, look, edit. rewrite wp_bind, wp_try.
  destruct (extents (cat s) !! id) as [e|] eqn:He; cbn [ok_or]; [|done].
  case_bool_decide; [done|]. destruct (_ || _); [done|]. rewrite wp_bind, wp_modify.
  unfold sound in Hok. rewrite (spots_known _ _ _ He) in Hok.
  eapply wp_mono; [eapply wp_release_all, Hok| |done]. intros [] s' (fl & -> & Hok' & _).
  split; [|by eapply (reclaims_put s)]. unfold sound, spots. simpl.
  rewrite fmap_insert. by eapply space_blank, space_forget.
Qed.

Lemma replace_safe id old new :
  (∀ e, extents (cat s) !! id = Some e → placeable (spots (cat s)) (free (cat s)) (stored_len (extent e)) new) →
  safe (replace_replica id old new).
Proof.
  intros Hp. unfold replace_replica, look, edit. case_bool_decide; [done|]. rewrite wp_bind, wp_try.
  destruct (extents (cat s) !! id) as [e|] eqn:He; cbn [ok_or]; [|done]. specialize (Hp e eq_refl).
  rewrite wp_bind, wp_lift. destruct (position _ _) as [pos|] eqn:Hpos; cbn [ok_or]; [|done].
  destruct (other_on_node _ _ _); [done|]. rewrite wp_bind, wp_modify, wp_bind, wp_modify.
  apply position_Some in Hpos as (l1 & o & l2 & Hl & <- & Ho%bool_decide_eq_true & _). subst o.
  unfold sound in Hok. rewrite (spots_known _ _ _ He), Hl in Hp, Hok.
  pose proof (space_add _ _ _ _ _ _ Hok Hp) as Hok1.
  apply (space_perm _ _ _ _ _ (old :: l1 ++ new :: l2)) in Hok1; [|by rewrite <- !Permutation_middle, Permutation_swap].
  apply space_drop in Hok1 as (fl' & Hr & Hok2 & _). eapply wp_release; [exact Hr|].
  split; [|by eapply (reclaims_put s)]. unfold sound, spots. simpl. rewrite fmap_insert. unfold spot_of at 1. simpl.
  replace (stored_len _) with (stored_len (extent e)) by done. rewrite Hl.
  pose proof (insert_app_plus 0 l1 (old :: l2) new) as Hi. simpl in Hi. by rewrite Hi.
Qed.
End reclaim.

(** ** Every command *)

(** The ranges a command brings into the catalog can be given to its extents. *)
Definition cmd_space (c : Catalog) (cmd : MetaCommand) : Prop :=
  admits_all c (installed cmd) ∧
  match cmd with
  | ReplaceReplica id _ new =>
      ∀ e, extents c !! id = Some e → placeable (spots c) (free c) (stored_len (extent e)) new
  | _ => True
  end.

Lemma installs_install_extent id off e : installs [e] (install_extent id off e).
Proof.
  unfold install_extent. do 3 (apply installs_bind; [frames|intros ?]). apply (installs_add [e]). frames.
Qed.

Lemma installs_install_extents id l : installs l (install_extents id l).
Proof.
  unfold install_extents. do 2 (apply installs_bind; [frames|intros ?]). case_match.
  apply installs_bind; [frames|intros ?]. apply installs_add. frames.
Qed.

Lemma exec_sound term cmd s :
  sound (cat s) → cmd_space (cat s) cmd → sound (cat (exec term cmd s).1).
Proof.
  intros Hok [Ha Hr].
  assert (∀ m : M (), wp m s (λ _ s', sound (cat s') ∧ reclaims s s') (λ _ s', s' = s) → sound (cat (m s).1)) as Hsafe.
  { intros m. unfold wp. destruct (m s) as [s' []]; simpl; [tauto|by intros ->|done]. }
  destruct cmd; simpl in *.
  9: by apply Hsafe, mark_safe. 9: by apply Hsafe, replace_safe. 9: by apply Hsafe, tier_safe.
  2: by apply (installs_sound [extent0]); [apply installs_install_extent|..].
  2: by apply (installs_sound extents0); [apply installs_install_extents|..].
  8: by eapply installs_sound; [apply installs_fs|..].
  9: done.
  all: eapply (installs_sound []); [apply installs_frames|done|done].
  all: unfold create_volume, create_snapshot, delete_snapshot, delete_volume, resize_volume, clone_snapshot,
    change_membership; try frames.
  intros [c g]. unfold lease. simpl. by destruct (Leases.apply _ _ _ _).
Qed.

End MetaSpace.
