(* ===== verification/MetaRefs.v ===== *)
(** * Commands and references

    The remaining arms of [Metadata.exec] keep the invariants of [Extents.v] and
    [NsRefs.v], and with the filesystem operations every command does: references
    are exact, the extents reported are those that lost their last one, and a
    command that is rejected changed nothing. *)

From S2P Require Import Prelude MetaError FreeList Membership Leases Catalog Extents FsTree Namespace NsSpec NsRefs Replica ReplicaRefs Metadata Space MetaSpace.

Module MetaRefs.
Import Catalog Extents FsTree Namespace NsSpec NsRefs Replica ReplicaRefs Metadata Space MetaSpace.

Open Scope N_scope.

(** ** Volumes and their snapshots *)

Lemma volume_Ok c id v : volume c id = Ok v ↔ volumes c !! id = Some v.
Proof. unfold volume. destruct (volumes c !! id); naive_solver. Qed.
Lemma volume_no_panic c id : volume c id ≠ Panic.
Proof. unfold volume. by destruct (volumes c !! id). Qed.

Lemma put_volume_refs x id v c :
  (catalog_refs x (put_volume id v c) + default 0 (map_refs x ∘ v_extents <$> volumes c !! id)
   = map_refs x (v_extents v) + catalog_refs x c)%nat.
Proof.
  unfold catalog_refs, put_volume. simpl.
  pose proof (map_sum_insert (λ v, map_refs x (v_extents v)) (volumes c) id v) as H.
  change (map_refs x ∘ v_extents <$> volumes c !! id) with ((λ v, map_refs x (v_extents v)) <$> volumes c !! id). lia.
Qed.

Lemma del_volume_refs x id v c :
  volumes c !! id = Some v →
  (catalog_refs x (c <| volumes ::= delete id |>) + map_refs x (v_extents v) = catalog_refs x c)%nat.
Proof.
  intros Hv. unfold catalog_refs. simpl. rewrite (map_sum_delete (λ v, map_refs x (v_extents v)) _ _ _ Hv). lia.
Qed.

Lemma del_snapshot_refs x id sn c :
  snapshots c !! id = Some sn →
  (catalog_refs x (c <| snapshots ::= delete id |>) + map_refs x (s_extents sn) = catalog_refs x c)%nat.
Proof.
  intros Hv. unfold catalog_refs. simpl. rewrite (map_sum_delete (λ v, map_refs x (s_extents v)) _ _ _ Hv). lia.
Qed.

(** A change of volumes and snapshots only, which moves references. *)
Lemma ginv_move c0 due owed due' owed' s f :
  ginv c0 due owed s →
  extents (f (cat s)) = extents (cat s) → filesystems (f (cat s)) = filesystems (cat s) →
  fs_snapshots (f (cat s)) = fs_snapshots (cat s) →
  (∀ x, catalog_refs x (f (cat s)) + count x owed' + count x due
        = catalog_refs x (cat s) + count x owed + count x due')%nat →
  ginv c0 due' owed' (s <| cat ::= f |>).
Proof.
  intros [Hi [H1 H2]] He Hf Hs Hr. split; [by eapply inv_edit|]. split; simpl; [rewrite Hf|rewrite Hs]; done.
Qed.

Section volumes.
Context (c0 : Catalog) (s : Ctx) (Hg : ginv c0 [] [] s).

Lemma create_volume_good id name size : keeps (create_volume id name size) c0 s.
Proof.
  unfold create_volume, edit. rewrite wp_bind, wp_get. destruct (volumes (cat s) !! id) as [v|] eqn:Hv.
  - by destruct (_ && _).
  - rewrite wp_modify. eapply ginv_move; [exact Hg|done..|]. intros x.
    pose proof (put_volume_refs x id (mkVolumeMeta id name size ∅) (cat s)) as H.
    rewrite Hv in H. simpl in H. rewrite map_refs_empty in H. lia.
Qed.

Lemma resize_volume_good id size : keeps (resize_volume id size) c0 s.
Proof.
  unfold resize_volume, edit, look. rewrite wp_bind, wp_try. apply wp_read; [apply volume_no_panic| |done].
  intros v Hv%volume_Ok. destruct (size <? v_size_bytes v); [done|]. rewrite wp_modify.
  eapply ginv_move; [exact Hg|done..|]. intros x.
  pose proof (put_volume_refs x id (v <| v_size_bytes := size |>) (cat s)) as H. rewrite Hv in H. simpl in H |- *. lia.
Qed.

Lemma delete_volume_good id : keeps (delete_volume id) c0 s.
Proof.
  unfold delete_volume, edit, look. rewrite wp_bind, wp_try. apply wp_read; [apply volume_no_panic| |done].
  intros v Hv%volume_Ok. rewrite wp_bind, wp_modify.
  eapply wp_mono; [apply (wp_dec_refs_good c0 _ [])|done|done]. eapply ginv_move; [exact Hg|done..|].
  intros x. pose proof (del_volume_refs x id v (cat s) Hv). rewrite app_nil_r, <- map_refs_values, ?count_nil. lia.
Qed.

Lemma delete_snapshot_good id : keeps (delete_snapshot id) c0 s.
Proof.
  unfold delete_snapshot, edit, look. rewrite wp_bind, wp_try.
  destruct (snapshots (cat s) !! id) as [sn|] eqn:Hs; cbn [ok_or]; [|done]. rewrite wp_bind, wp_modify.
  eapply wp_mono; [apply (wp_dec_refs_good c0 _ [])|done|done]. eapply ginv_move; [exact Hg|done..|].
  intros x. pose proof (del_snapshot_refs x id sn (cat s) Hs). rewrite app_nil_r, <- map_refs_values, ?count_nil. lia.
Qed.

(** Taking a second reference to all extents of a map of the catalog. *)
Lemma wp_share_map (m : gmap N ExtentId) (k : M ()) (Q : () → Ctx → Prop) R :
  (∀ x, map_refs x m ≤ catalog_refs x (cat s))%nat →
  (∀ s', ginv c0 [] (bt_values m) s' → only_extents (cat s) (cat s') → wp k s' Q R) →
  wp (sm_for (bt_values m) inc_ref ;; k) s Q R.
Proof.
  intros Hm HQ. rewrite wp_bind. eapply wp_mono; [apply (wp_inc_refs c0)| |done].
  - apply Hg.
  - intros x Hx%count_elem. rewrite <- map_refs_values in Hx. specialize (Hm x). lia.
  - intros [] s' (Hi & Ho & _). rewrite app_nil_r in Hi. apply HQ; [|done].
    split; [done|]. eapply only_extents_fresh; [done|apply Hg].
Qed.

Lemma create_snapshot_good id vid name : keeps (create_snapshot id vid name) c0 s.
Proof.
  unfold create_snapshot, edit, look. rewrite wp_bind, wp_get.
  destruct (snapshots (cat s) !! id) as [sn|] eqn:Hs; [by destruct (_ && _)|].
  rewrite wp_bind, wp_try. apply wp_read; [apply volume_no_panic| |done]. intros v Hv%volume_Ok.
  apply wp_share_map.
  - intros x. pose proof (del_volume_refs x vid v (cat s) Hv). lia.
  - intros s' Hg' [es Ho]. rewrite wp_modify. eapply ginv_move; [exact Hg'|done..|]. intros x.
    rewrite <- map_refs_values, ?count_nil. unfold catalog_refs. simpl. rewrite map_sum_insert_None by (by rewrite Ho). simpl. lia.
Qed.

Lemma clone_snapshot_good id name sid size : keeps (clone_snapshot id name sid size) c0 s.
Proof.
  unfold clone_snapshot, edit, look. rewrite wp_bind, wp_get.
  destruct (volumes (cat s) !! id) as [v|] eqn:Hv; [by destruct (String.eqb _ _)|].
  rewrite wp_bind, wp_try. destruct (snapshots (cat s) !! sid) as [sn|] eqn:Hs; cbn [ok_or]; [|done].
  destruct (_ || _); [done|]. apply wp_share_map.
  - intros x. pose proof (del_snapshot_refs x sid sn (cat s) Hs). lia.
  - intros s' Hg' [es Ho]. rewrite wp_modify. eapply ginv_move; [exact Hg'|done..|]. intros x.
    pose proof (put_volume_refs x id (mkVolumeMeta id name (default (if 0 <? s_size_bytes sn then s_size_bytes sn
      else written_end (cat s) (s_extents sn)) size) (s_extents sn)) (cat s')) as H.
    rewrite Ho in H at 2. simpl in H. rewrite Hv in H. simpl in H.
    rewrite <- map_refs_values, ?count_nil. lia.
Qed.

Context (Hgc : gc s = []).

Lemma vol_install_extents_good id l : keeps (install_extents id l) c0 s.
Proof.
  unfold install_extents, edit, look. rewrite wp_bind, wp_lift. apply wp_read; [| |done].
  { apply res_for_no_panic, ec_check_no_panic. }
  intros [] _. rewrite wp_bind, wp_try. apply wp_read; [apply volume_no_panic| |done]. intros v Hv%volume_Ok.
  destruct (insert_extents _ _) as [m old] eqn:Hin. rewrite wp_bind, wp_modify, wp_bind, wp_modify.
  eapply wp_mono; [apply (wp_dec_refs_good c0 _ [])|done|done]. rewrite app_nil_r.
  apply add_extent_refs_good; [done|]. rewrite app_nil_r. eapply ginv_move; [exact Hg|done..|]. intros x.
  pose proof (put_volume_refs x id (v <| v_extents := m |>) (cat s)) as H. rewrite Hv in H.
  change (v_extents (v <| v_extents := m |>)) with m in H. cbn [default fmap option_fmap option_map compose] in H.
  pose proof (insert_extents_refs x ((λ e, (logical_offset e, eid e)) <$> l) (v_extents v)) as H2.
  rewrite Hin in H2. rewrite <- list_fmap_compose in H2. unfold compose in H2. simpl in H2. rewrite !count_nil. unfold Datatypes.id in H. change ((λ x : ExtentRef, eid x) <$> l) with (eid <$> l) in H2. lia.
Qed.

Lemma vol_install_extent_good id off e : keeps (install_extent id off e) c0 s.
Proof.
  unfold install_extent, edit, look. rewrite wp_bind, wp_lift. apply wp_read; [apply ec_check_no_panic| |done].
  intros [] _. rewrite wp_bind, wp_try. apply wp_read; [apply volume_no_panic| |done]. intros v Hv%volume_Ok.
  rewrite wp_bind, wp_modify, wp_bind, wp_modify.
  assert (ginv c0 [] (option_list (v_extents v !! off))
    (s <| cat ::= put_volume id (v <| v_extents ::= <[off := eid e]> |>) |> <| cat ::= add_extent_ref e |>)) as Hg'.
  { apply (add_extent_refs_good c0 [e]); [done|]. eapply ginv_move; [exact Hg|done..|]. intros x.
    pose proof (put_volume_refs x id (v <| v_extents ::= <[off := eid e]> |>) (cat s)) as H.
    rewrite Hv in H. simpl in H. pose proof (map_refs_insert x (v_extents v) off (eid e)).
    csimpl. simpl. rewrite count_cons, !count_nil. lia. }
  destruct (v_extents v !! off) as [old|]; [|done].
  destruct Hg' as [Hi Hf]. eapply wp_mono; [apply (wp_dec_ref c0 old []), Hi| |done].
  intros [] s' [Hi' Ho]. split; [done|by eapply only_extents_fresh].
Qed.
End volumes.

(** ** Device space, membership, leases *)

Lemma reclaims_good c0 s s' : ginv c0 [] [] s → gc s = [] → reclaims s s' → ginv c0 [] [] s'.
Proof.
  intros [[Hb Hs Hc] [H1 H2]] Hgc (Hgc' & es & fl & Heq & Hes). rewrite Hgc in Hgc'.
  split; [split|]; rewrite ?Heq, ?Hgc'.
  - intros x. specialize (Hb x). specialize (Hes x). unfold held in *. simpl.
    change (catalog_refs x _) with (catalog_refs x (cat s)).
    destruct (es !! x) as [m|].
    + destruct Hes as (m0 & Hm0 & Hr). rewrite Hm0 in Hb. rewrite Hr. lia.
    + destruct (extents (cat s) !! x) as [m0|]; [specialize (Hes m0 eq_refl)|]; lia.
  - set_solver.
  - intros x (m & Hm & Hz). simpl in Hm. specialize (Hes x). rewrite Hm in Hes. destruct Hes as (m0 & Hm0 & Hr).
    right. destruct (Hc x) as [?|?]; [by exists m0; split; [|congruence]|by rewrite Hgc in *; set_solver|done].
  - by split.
Qed.

Lemma change_membership_good c0 s m addrs : ginv c0 [] [] s → keeps (change_membership m addrs) c0 s.
Proof.
  intros Hg. unfold change_membership, edit. case_bool_decide; [done|]. rewrite wp_bind, wp_lift.
  apply wp_read; [|intros [] _|done].
  - destruct m; [done|]. apply reject_no_panic.
  - rewrite wp_modify. eapply ginv_move; [exact Hg|done..].
Qed.

Lemma lease_file_no_panic c fs i : lease_file c fs i ≠ Panic.
Proof. unfold lease_file, filesystem, inode, ok_or, mbind, res_bind. by repeat case_match. Qed.

Lemma lease_apply_no_panic file t op l :
  (∀ fs i, file fs i ≠ Panic) → (Leases.apply file t op l).2 ≠ Panic.
Proof.
  intros Hf. destruct op; unfold Leases.apply, mbind, sm_bind, sm_lift, sm_get, sm_modify, sm_put,
    Leases.session_of, ok_or, Leases.check_holder_name, reject_if; simpl; repeat (case_match; simplify_eq/=); try done.
  all: by edestruct Hf.
Qed.

Lemma lease_good c0 s term op : ginv c0 [] [] s → keeps (lease term op) c0 s.
Proof.
  intros Hg. pose proof (lease_apply_no_panic (lease_file (cat s)) term op (leases (cat s)) (lease_file_no_panic (cat s))) as Hp.
  unfold wp, lease. destruct (Leases.apply _ _ _ _) as [l r] eqn:Hl. destruct r as [[]|e|].
  - eapply ginv_move; [exact Hg|done..].
  - rewrite (Leases.apply_not_ok _ _ _ _ _ _ Hl) by done. by destruct s as [[] ?].
  - done.
Qed.

(** ** Filesystem operations *)

(** What the filesystem operations need of the catalog beyond its invariants:
    room for a new inode number; directories that hang off the root where
    [Rename] walks up; an increment that continues the one in progress. *)
Definition fs_pre (c : Catalog) (op : FsOp) : Prop :=
  match op with
  | Mknode fs _ _ _ _ _ _ _ _ _ _ _ => ∀ f, filesystems c !! fs = Some f → next_ino f < u64_max
  | Rename fs _ _ _ _ _ => ∀ f, filesystems c !! fs = Some f → rooted f
  | ReplicaApply fs _ to l _ =>
      Forall (λ n, r_ino n < u64_max) l ∧
      ∀ r p, replica_of c fs = Ok r → rs_pending r = Some p → p = to
  | _ => True
  end.

Lemma fs_guards_no_panic op c : fs_guards op c ≠ Panic.
Proof. unfold fs_guards. apply bind_no_panic; [case_match; auto with nopanic|intros _; case_match; auto with nopanic]. Qed.

Lemma apply_fs_good c0 s op : ginv c0 [] [] s → gc s = [] → fs_pre (cat s) op → keeps (apply_fs op) c0 s.
Proof.
  intros Hg Hgc Hp. unfold apply_fs, look. rewrite wp_bind, wp_try.
  apply wp_read; [apply fs_guards_no_panic|intros [] _|done]. destruct op; simpl in Hp.
  - by apply create_fs_good.
  - by apply delete_fs_good.
  - by apply mknode_good.
  - by apply link_good.
  - by apply unlink_good.
  - by apply rmdir_good.
  - by apply rename_good.
  - by apply set_attr_good.
  - by apply set_xattr_good.
  - by apply remove_xattr_good.
  - by apply install_extent_good.
  - by apply install_extents_good.
  - by apply snapshot_tree_good.
  - by apply delete_fs_snapshot_good.
  - by apply clone_fs_good.
  - by apply set_quota_good.
  - by apply create_replica_good.
  - destruct Hp. by apply replica_apply_good.
  - by apply replica_commit_good.
  - by apply replica_promote_good.
  - by apply replica_demote_good.
Qed.

(** ** Every command *)

Definition cmd_pre (c : Catalog) (cmd : MetaCommand) : Prop :=
  cmd_space c cmd ∧ match cmd with Fs op => fs_pre c op | _ => True end.

Lemma exec_good c0 s term cmd :
  ginv c0 [] [] s → gc s = [] → sound (cat s) → cmd_pre (cat s) cmd → keeps (exec term cmd) c0 s.
Proof.
  intros Hg Hgc Hok [[_ Hr] Hp].
  assert (∀ m : M (), wp m s (λ _ s', sound (cat s') ∧ reclaims s s') (λ _ s', s' = s) → keeps m c0 s) as Hsafe.
  { intros m Hm. eapply wp_mono; [exact Hm| |done]. intros [] s' [_ ?]. by eapply reclaims_good. }
  destruct cmd; simpl in *.
  - by apply create_volume_good.
  - by apply vol_install_extent_good.
  - by apply vol_install_extents_good.
  - by apply create_snapshot_good.
  - by apply delete_snapshot_good.
  - by apply delete_volume_good.
  - by apply resize_volume_good.
  - by apply clone_snapshot_good.
  - by apply Hsafe, mark_safe.
  - by apply Hsafe, replace_safe.
  - by apply Hsafe, tier_safe.
  - by apply change_membership_good.
  - by apply apply_fs_good.
  - by apply lease_good.
  - by rewrite wp_ret.
Qed.

End MetaRefs.
