(* ===== verification/MetaSpec.v ===== *)
(** * What the metadata state machine promises

    The invariant of a catalog, that every command of the log keeps it, and what
    follows for the catalogs a log can produce: no reference dangles, space is
    given back only when nothing refers to it, a rejected command is a no-op,
    and replaying entries a checkpoint covers changes nothing. *)

From S2P Require Import Prelude MetaError FreeList Membership Leases Catalog Extents FsTree Namespace NsRefs Replica Metadata Frames NoStore Space MetaSpace MetaRefs.

Module MetaSpec.
Import Catalog Extents FsTree Namespace NsRefs Replica Metadata Frames Space MetaSpace MetaRefs.

Open Scope N_scope.

(** ** The invariant *)

(** A configuration has voters, a joint one on both sides. *)
Definition has_voters (m : Membership.Membership) : Prop :=
  match m with
  | Membership.Stable v => v ≠ ∅
  | Membership.Joint o n => o ≠ ∅ ∧ n ≠ ∅
  end.

Record catalog_ok (c : Catalog) : Prop := {
  ok_refs : refs_exact c;
  ok_fresh : all_fresh c;
  ok_space : sound c;
  ok_leases : Leases.wf (leases c);
  ok_members : ∀ m, membership c = Some m → has_voters m;
}.

(** What a command needs beyond the invariant: see [cmd_space] and [fs_pre]; the
    bounds of a lock are 64-bit.  [apply_inner] checks none of this: it is up to the
    engine, which places ranges through its leases, and to the clients. *)
Definition accepts (c : Catalog) (cmd : MetaCommand) : Prop :=
  cmd_pre c cmd ∧ match cmd with Lease op => Leases.op_in_range op | _ => True end.

(** ** Leases and membership *)

(** Commands keep the two invariants that do not depend on references. *)
Definition side_kept (c c' : Catalog) : Prop :=
  (Leases.wf (leases c) → Leases.wf (leases c')) ∧
  ((∀ m, membership c = Some m → has_voters m) → ∀ m, membership c' = Some m → has_voters m).

#[export] Instance side_kept_ind : Indifferent side_kept.
Proof.
  split; [|by intros..]. split; [|by intros..| |by intros|by intros].
  - split; [by intros c|]. intros c1 c2 c3 [? ?] [? ?]. split; auto.
  - intros c fs. split; [apply Leases.forget_fs_wf|done].
Qed.

Lemma side_add e c : side_kept c (add_extent_ref e c).
Proof. destruct (add_extent_ref_eq e c) as (m & fl & -> & _). done. Qed.
Lemma side_add_all l c : side_kept c (foldl (λ c e, add_extent_ref e c) c l).
Proof. revert c. induction l as [|e l IH]; intros c; [done|]. etrans; [apply side_add|apply IH]. Qed.

Lemma frames_release n r : frames side_kept (release_replica n r).
Proof.
  intros s. unfold release_replica, mbind, sm_bind. simpl. by destruct (FreeList.release _ _ _ _ _).
Qed.

#[local] Hint Resolve side_add side_add_all frames_release : frames.
#[local] Hint Extern 4 (side_kept _ _) => done : frames.

Lemma side_fs op : frames side_kept (apply_fs op).
Proof.
  unfold apply_fs. apply frames_bind; [apply _|frames|intros _].
  destruct op; unfold create_fs, delete_fs, mknode, link, unlink, rmdir, rename, drop_gone, set_attr, set_xattr,
    remove_xattr, install_file_extent, install_file_extents, delete_fs_snapshot, clone_fs, set_quota, create_replica,
    replica_apply, replica_commit, replica_promote, replica_demote; frames.
Qed.

Lemma side_exec term cmd :
  match cmd with Lease op => Leases.op_in_range op | _ => True end → frames side_kept (exec term cmd).
Proof.
  intros Hop. destruct cmd; simpl; [..|apply side_fs| |];
    try (unfold create_volume, install_extent, install_extents, create_snapshot, delete_snapshot, delete_volume,
      resize_volume, clone_snapshot, mark_extent_reclaimed, replace_replica, tier_extent; frames).
  - intros s. unfold change_membership. case_bool_decide as Hv; [done|].
    unfold mbind, sm_bind. simpl. destruct (match membership0 with Membership.Stable _ => _ | _ => _ end) eqn:Hm; [|done..].
    split; [done|]. intros _ m [= <-]. destruct membership0 as [v|o n]; simpl.
    + intros ->. by apply Hv.
    + apply reject_if_Ok, orb_false_iff in Hm as [H1%bool_decide_eq_false H2%bool_decide_eq_false]. done.
  - intros [c g]. unfold lease. simpl. pose proof (Leases.apply_wf (lease_file c) term op (leases c)) as Hw.
    destruct (Leases.apply _ _ _ _). split; [|done]. simpl in *. auto.
Qed.

(** ** One command *)

(** The effect of [exec] on a catalog that satisfies the invariant. *)
Lemma exec_ok term cmd c :
  catalog_ok c → accepts c cmd →
  match exec term cmd (mkCtx c []) with
  | (s, Ok _) => catalog_ok (cat s) ∧ (∀ x, x ∈ gc s → zero x (cat s)) ∧ (∀ x, zero x (cat s) → x ∈ gc s ∨ zero x c)
  | (s, Err _) => s = mkCtx c []
  | (_, Panic) => False
  end.
Proof.
  intros [H1 H2 H3 H4 H5] [Hp Hop].
  assert (ginv c [] [] (mkCtx c [])) as Hg by (split; [by apply inv_start|done]).
  pose proof (exec_good c (mkCtx c []) term cmd Hg eq_refl H3 Hp) as Hk.
  pose proof (exec_sound term cmd (mkCtx c []) H3 (proj1 Hp)) as Hs.
  pose proof (side_exec term cmd Hop (mkCtx c [])) as [Hl Hm].
  unfold wp in Hk. destruct (exec term cmd (mkCtx c [])) as [s [[]|e|]]; [|done..]. simpl in *.
  destruct Hk as [[Hb Hso Hco] Hf]. split; [|done]. split; [by apply balanced_nil|done|done|auto|auto].
Qed.

Lemma catalog_ok_applied term index c : catalog_ok c → catalog_ok (applied term index c).
Proof. intros [H1 [H2 H3] H4 H5 H6]. by split. Qed.

(** [apply_committed] of a new index, in terms of [exec]. *)
Lemma apply_committed_exec term index cmd c :
  applied_index c < index →
  apply_committed term index cmd c =
    match exec term cmd (mkCtx c []) with
    | (s, Ok _) => (applied term index (cat s), Ok (gc s))
    | (s, Err e) => (if applied_index (cat s) <? index then applied term index (cat s) else cat s, Err e)
    | (s, Panic) => (cat s, Panic)
    end.
Proof.
  intros Hi. unfold apply_committed, apply, apply_inner. destruct (N.leb_spec index (applied_index c)); [lia|].
  pose proof (NoStore.nsm_exec term cmd (mkCtx c [])) as Hs.
  destruct (exec term cmd (mkCtx c [])) as [s [u|e|]]; [done| |done]. by destruct e.
Qed.

Lemma apply_committed_old term index cmd c : index <= applied_index c → apply_committed term index cmd c = (c, Ok []).
Proof. intros Hi. unfold apply_committed, apply, apply_inner. by rewrite (proj2 (N.leb_le _ _) Hi). Qed.

(** C4. Applying a committed command.  Take a catalog that satisfies the invariant and
    a command that meets its preconditions there ([accepts]), which the state machine
    does not check: the ranges it places are in no extent and wholly free or wholly
    unknown to the free list, inode numbers have not run out, the directories of a
    filesystem in which it renames lead to the root, a part for a replica belongs to
    the increment that is pending if one is, and the bounds of a lock are 64-bit.  The
    command then either succeeds: the invariant holds again, the entry's index and term
    are recorded, every extent the command reports for collection has no reference
    left, and every extent that lost its last reference is reported; or it is rejected,
    and then the catalog is the one before the command with the entry's index and term
    recorded.  It does not panic. *)
Theorem apply_committed_ok term index cmd c :
  catalog_ok c → accepts c cmd → applied_index c < index →
  match apply_committed term index cmd c with
  | (c', Ok l) =>
      catalog_ok c' ∧ applied_index c' = index ∧ current_term c' = term ∧
      (∀ x, x ∈ l → zero x c') ∧ (∀ x, zero x c' → x ∈ l ∨ zero x c)
  | (c', Err _) => c' = applied term index c
  | (_, Panic) => False
  end.
Proof.
  intros Hok Ha Hi. rewrite apply_committed_exec by done. pose proof (exec_ok term cmd c Hok Ha) as He.
  destruct (exec term cmd (mkCtx c [])) as [s [u|e|]]; [|subst s; simpl; by rewrite (proj2 (N.ltb_lt _ _) Hi)|done].
  destruct He as (Hok' & H1 & H2). split_and!; try done. by apply catalog_ok_applied.
Qed.

(** ** The catalogs a log produces *)

(** A state of a replica: the empty catalog, then entries of the log, each with
    an index above the last; entries the catalog covers already may come again. *)
Inductive reachable : Catalog → Prop :=
| reach_start : reachable empty_catalog
| reach_apply term index cmd c c' r :
    reachable c → accepts c cmd → apply_committed term index cmd c = (c', r) → reachable c'.

Lemma empty_ok : catalog_ok empty_catalog.
Proof.
  split; [done|by split|split; [by repeat constructor|by intros..]|apply Leases.empty_wf|done].
Qed.

Lemma reachable_ok c : reachable c → catalog_ok c.
Proof.
  induction 1 as [|term index cmd c c' r _ IH Ha Hc]; [apply empty_ok|].
  destruct (N.leb_spec index (applied_index c)).
  { rewrite apply_committed_old in Hc by done. by simplify_eq. }
  rewrite apply_committed_exec in Hc by done. pose proof (exec_ok term cmd c IH Ha) as He.
  destruct (exec term cmd (mkCtx c [])) as [s [u|e|]]; simplify_eq; [|simpl|done].
  - apply catalog_ok_applied, He.
  - rewrite (proj2 (N.ltb_lt _ _)) by done. by apply catalog_ok_applied.
Qed.

(** A place of the catalog that names an extent: of a volume, of one of its
    snapshots, of a file of a filesystem or of a filesystem's snapshot. *)
Inductive names (c : Catalog) (x : ExtentId) : Prop :=
| names_volume id v off : volumes c !! id = Some v → v_extents v !! off = Some x → names c x
| names_snapshot id s off : snapshots c !! id = Some s → s_extents s !! off = Some x → names c x
| names_file fs f i n sz m off : filesystems c !! fs = Some f → inodes f !! i = Some n →
    kind n = File sz m → m !! off = Some x → names c x
| names_fs_snapshot id s i n sz m off : fs_snapshots c !! id = Some s → inodes (sn_tree s) !! i = Some n →
    kind n = File sz m → m !! off = Some x → names c x.

Lemma map_refs_names x m : (1 ≤ map_refs x m)%nat ↔ ∃ off, m !! off = Some x.
Proof.
  rewrite map_refs_values. split.
  - intros Hx. unfold count in Hx. destruct (base.filter _ _) as [|y l] eqn:Hf; [simpl in Hx; lia|].
    assert (y ∈ base.filter (x =.) (bt_values m)) as [<- Hy]%list_elem_of_filter by (rewrite Hf; set_solver).
    by apply elem_of_bt_values.
  - intros Hx. by apply count_elem, elem_of_bt_values.
Qed.

Lemma map_sum_pos {K V} `{Countable K} (g : V → nat) (m : gmap K V) :
  (1 ≤ map_sum g m)%nat ↔ ∃ k v, m !! k = Some v ∧ (1 ≤ g v)%nat.
Proof.
  split.
  - intros Hm. destruct (decide (map_Exists (λ _ v, 1 ≤ g v)%nat m)) as [(k & v & ? & ?)|Hn]; [eauto|].
    exfalso. assert (map_sum g m = 0%nat); [|lia]. apply map_sum_zero. intros k v Hv.
    destruct (decide (1 ≤ g v)%nat) as [?|?]; [|lia]. destruct Hn. by exists k, v.
  - intros (k & v & Hv & Hg). pose proof (map_sum_elem g m k v Hv). lia.
Qed.

Lemma tree_refs_names x f :
  (1 ≤ tree_refs x f)%nat ↔
  ∃ i n sz m off, inodes f !! i = Some n ∧ kind n = File sz m ∧ m !! off = Some x.
Proof.
  unfold tree_refs. rewrite map_sum_pos. unfold inode_refs. split.
  - intros (i & n & Hi & Hr). destruct (kind n) as [|sz m| |] eqn:Hk; [lia| |lia..].
    apply map_refs_names in Hr as [off ?]. by exists i, n, sz, m, off.
  - intros (i & n & sz & m & off & Hi & Hk & Hm). exists i, n. split; [done|]. rewrite Hk.
    apply map_refs_names. by exists off.
Qed.

Lemma catalog_refs_names x c : (1 ≤ catalog_refs x c)%nat ↔ names c x.
Proof.
  unfold catalog_refs. split.
  - intros Hx.
    assert (1 ≤ map_sum (λ v, map_refs x (v_extents v)) (volumes c) ∨ 1 ≤ map_sum (λ s, map_refs x (s_extents s)) (snapshots c)
      ∨ 1 ≤ map_sum (tree_refs x) (filesystems c) ∨ 1 ≤ map_sum (λ s, tree_refs x (sn_tree s)) (fs_snapshots c))%nat
      as [H|[H|[H|H]]] by lia; apply map_sum_pos in H as (k & v & Hv & H).
    + apply map_refs_names in H as [off ?]. by eapply names_volume.
    + apply map_refs_names in H as [off ?]. by eapply names_snapshot.
    + apply tree_refs_names in H as (i & n & sz & m & off & ? & ? & ?). by eapply names_file.
    + apply tree_refs_names in H as (i & n & sz & m & off & ? & ? & ?). by eapply names_fs_snapshot.
  - destruct 1 as [id v off Hv Hx|id v off Hv Hx|fs f i n sz m off Hf Hi Hk Hx|id s i n sz m off Hf Hi Hk Hx].
    + assert (1 ≤ map_sum (λ v, map_refs x (v_extents v)) (volumes c))%nat; [|lia].
      apply map_sum_pos. exists id, v. split; [done|]. apply map_refs_names. eauto.
    + assert (1 ≤ map_sum (λ v, map_refs x (s_extents v)) (snapshots c))%nat; [|lia].
      apply map_sum_pos. exists id, v. split; [done|]. apply map_refs_names. eauto.
    + assert (1 ≤ map_sum (tree_refs x) (filesystems c))%nat; [|lia].
      apply map_sum_pos. exists fs, f. split; [done|]. apply tree_refs_names. by exists i, n, sz, m, off.
    + assert (1 ≤ map_sum (λ s, tree_refs x (sn_tree s)) (fs_snapshots c))%nat; [|lia].
      apply map_sum_pos. exists id, s. split; [done|]. apply tree_refs_names. by exists i, n, sz, m, off.
Qed.

(** C7. No reference dangles and no extent leaks: in every catalog that a log of
    commands that meet their preconditions produces, an extent is named by a volume, a
    snapshot, a file or a file of a snapshot exactly when its record is there with a
    positive count. *)
Theorem named_extents_live c x :
  reachable c → names c x ↔ ∃ m, extents c !! x = Some m ∧ 0 < refs m.
Proof.
  intros Hr. pose proof (ok_refs c (reachable_ok c Hr) x) as Hx. rewrite <- catalog_refs_names, <- Hx.
  unfold held. split.
  - destruct (extents c !! x) as [m|]; [|lia]. intros ?. exists m. split; [done|lia].
  - intros (m & -> & ?). lia.
Qed.

(** C24. Reclaiming an extent.  [MarkExtentReclaimed] succeeds exactly when nothing
    names the extent; it then forgets the record and puts exactly the bytes of the
    extent's replicas on the free list.  Otherwise only the index moves. *)
Theorem reclaim_correct term index x m c :
  reachable c → applied_index c < index → extents c !! x = Some m →
  match apply_committed term index (MarkExtentReclaimed x) c with
  | (c', Ok l) => ¬ names c x ∧ l = [] ∧ extents c' = delete x (extents c) ∧
      ∀ nd d b, FreeList.is_free (free c') nd d b ↔
        in_ranges (stored_len (extent m)) (replicas (extent m)) nd d b ∨ FreeList.is_free (free c) nd d b
  | (c', Err e) => names c x ∧ e = Invalid ∧ c' = applied term index c
  | (_, Panic) => False
  end.
Proof.
  intros Hr Hi Hm. pose proof (reachable_ok c Hr) as Hok. rewrite apply_committed_exec by done. simpl exec.
  pose proof (ok_refs c Hok x) as Hx. unfold held in Hx. rewrite Hm in Hx.
  pose proof (catalog_refs_names x c) as Hn. rewrite <- Hx in Hn.
  unfold mark_extent_reclaimed, look, edit, mbind, sm_bind, sm_try. simpl. rewrite Hm. simpl.
  destruct (N.eqb_spec (refs m) 0) as [Hz|Hz]; simpl.
  2:{ split_and!; [apply Hn; lia|done|]. by rewrite (proj2 (N.ltb_lt _ _) Hi). }
  pose proof (ok_space c Hok) as Hs. unfold sound in Hs. rewrite (spots_known _ _ _ Hm) in Hs.
  match goal with |- context [sm_for ?l ?f ?s0] =>
    pose proof (wp_release_all (spots c) x _ l s0 Hs) as Hw; unfold wp in Hw;
    destruct (sm_for l f s0) as [s' [[]|e|]]; [|done..] end.
  destruct Hw as (fl & -> & _ & Hf). simpl. split_and!; [rewrite <- Hn; lia|done|done|exact Hf].
Qed.

(** ** Replaying the log *)

(** Entries applied in order; [None] when one panics. *)
Fixpoint run (log : list (N * N * MetaCommand)) (c : Catalog) : option Catalog :=
  match log with
  | [] => Some c
  | (term, index, cmd) :: log =>
      match apply_committed term index cmd c with
      | (_, Panic) => None
      | (c', _) => run log c'
      end
  end.

Lemma apply_committed_index term index cmd c c' r :
  apply_committed term index cmd c = (c', r) → r ≠ Panic → N.max (applied_index c) index <= applied_index c'.
Proof.
  intros Hc Hr. destruct (N.leb_spec index (applied_index c)).
  { rewrite apply_committed_old in Hc by done. simplify_eq. lia. }
  rewrite apply_committed_exec in Hc by done.
  destruct (exec term cmd (mkCtx c [])) as [s [u|e|]]; simplify_eq; simpl; [lia|].
  case_match eqn:Hlt; simpl; [lia|]. apply N.ltb_ge in Hlt. lia.
Qed.

Lemma run_index log c c' :
  run log c = Some c' → applied_index c <= applied_index c' ∧ Forall (λ e, e.1.2 <= applied_index c') log.
Proof.
  revert c. induction log as [|[[term index] cmd] log IH]; intros c; simpl; [intros [= ->]; split; [lia|done]|].
  destruct (apply_committed term index cmd c) as [c1 r] eqn:Hc. intros Hrun.
  assert (r ≠ Panic) as Hr by (by intros ->).
  assert (run log c1 = Some c') as [H1 H2]%IH by (by destruct r).
  pose proof (apply_committed_index _ _ _ _ _ _ Hc Hr). split; [lia|]. constructor; [simpl; lia|done].
Qed.

Lemma run_covered log c : Forall (λ e, e.1.2 <= applied_index c) log → run log c = Some c.
Proof.
  induction log as [|[[term index] cmd] log IH]; [done|]. intros [Hi Hl]%Forall_cons. simpl in *.
  rewrite apply_committed_old by done. auto.
Qed.

Lemma run_app l1 l2 c : run (l1 ++ l2) c = run l1 c ≫= run l2.
Proof.
  revert c. induction l1 as [|[[term index] cmd] l1 IH]; intros c; [done|]. simpl.
  destruct (apply_committed term index cmd c) as [c1 [?|?|]]; [apply IH..|done].
Qed.

(** C30. Restart.  A replica that comes back with a catalog that covers the entries
    [l1] (a checkpoint, a transferred snapshot) and applies the whole log again
    reaches the state of the replica that applied [l1] and [l2] once. *)
Theorem replay_from_checkpoint l1 l2 c c1 :
  run l1 c = Some c1 → run (l1 ++ l2) c1 = run (l1 ++ l2) c.
Proof.
  intros Hrun. rewrite !run_app, Hrun. simpl. apply run_index in Hrun as [_ Hc]. by rewrite run_covered.
Qed.

(** ** A part checked against a tree that is then replaced *)

Definition demo_node (i : N) (t : NodeType) (target : option string) : ReplicaInode :=
  mkReplicaInode i t 420 0 0 1 0 0 0 ∅ 0 [] 0 [] target 0.

(** A replica completes an increment with a symlink as inode 5, then receives
    two parts of the next one, which remove it and bring a file of that number. *)
Definition demo_replica : list (N * N * MetaCommand) :=
  [(1, 1, Fs (CreateReplica "r" "r" 0 4096));
   (1, 2, Fs (ReplicaApply "r" None "s1" [demo_node 5 NSymlink (Some "t"%string)] []));
   (1, 3, Fs (ReplicaCommit "r" None "s1" "l1" "l1" 6 0));
   (1, 4, Fs (ReplicaApply "r" (Some "s1"%string) "s2" [] [5]));
   (1, 5, Fs (ReplicaApply "r" (Some "s1"%string) "s2" [demo_node 5 NFile None] []))].

(** C33. [replica_apply] checks a part against the current tree and only then goes
    back to the last complete one when the part belongs to another increment.
    There are committed commands, each accepted, after which a part passes
    [check_part] and the state machine panics: inode 5 is a file in the tree that
    was checked and a symlink, without a target in the part, in the tree the part
    is applied to. *)
Theorem replica_apply_stale_check :
  ∃ c, run demo_replica empty_catalog = Some c ∧
    check_part c "r" (Some "s1"%string) "s3" [demo_node 5 NFile None] [] = Ok () ∧
    snd (apply_committed 1 6 (Fs (ReplicaApply "r" (Some "s1"%string) "s3" [demo_node 5 NFile None] [])) c) = Panic.
Proof.
  destruct (run demo_replica empty_catalog) as [c|] eqn:E; vm_compute in E; [|done].
  exists c. split; [done|]. injection E as <-. split; by vm_compute.
Qed.

(** ** Examples *)

Definition demo_extent : ExtentRef :=
  mkExtentRef "e1" 0 4096 [] [mkReplicaRef "n1" 0 0; mkReplicaRef "n2" 0 8192] None 0 None.

Definition demo1 : Catalog := fst (apply_committed 1 1 (CreateVolume "v" "vol" 65536) empty_catalog).
Definition demo2 : Catalog := fst (apply_committed 1 2 (InstallExtent "v" 0 demo_extent) demo1).
Definition demo3 : Catalog := fst (apply_committed 1 3 (DeleteVolume "v") demo2).

Lemma demo_accepts : accepts demo1 (InstallExtent "v" 0 demo_extent).
Proof.
  split; [|done]. split; [|done]. split; [|done]. split; [|done]. right. split.
  - intros r Hr. split.
    + apply list_elem_of_In in Hr as [<-|[<-|[]]]; done.
    + by intros x n l r'.
    + left. intros nd d b _ (y & Hy & _). by apply elem_of_nil in Hy.
  - split; [|split; [|done]]; [|set_solver]. intros r ->%list_elem_of_singleton nd d b (Hn & _) (Hn' & _).
    simpl in *. congruence.
Qed.

Lemma demo1_reachable : reachable demo1.
Proof.
  eapply (reach_apply 1 1 (CreateVolume "v" "vol" 65536) empty_catalog _ (Ok [])); [constructor|done|by vm_compute].
Qed.
Lemma demo2_reachable : reachable demo2.
Proof.
  eapply (reach_apply 1 2 (InstallExtent "v" 0 demo_extent) demo1 _ (Ok [])); [apply demo1_reachable|apply demo_accepts|by vm_compute].
Qed.
Lemma demo3_reachable : reachable demo3.
Proof.
  eapply (reach_apply 1 3 (DeleteVolume "v") demo2 _ (Ok ["e1"%string])); [apply demo2_reachable|done|by vm_compute].
Qed.

Lemma apply_committed_ok_witness :
  ∃ c', apply_committed 1 2 (InstallExtent "v" 0 demo_extent) demo1 = (c', Ok []) ∧ catalog_ok c'.
Proof.
  pose proof (apply_committed_ok 1 2 (InstallExtent "v" 0 demo_extent) demo1 (reachable_ok _ demo1_reachable) demo_accepts eq_refl) as H.
  destruct (apply_committed 1 2 (InstallExtent "v" 0 demo_extent) demo1) as [c' r] eqn:E.
  assert (r = Ok []) as -> by (by vm_compute in E; injection E as _ <-). exists c'. split; [done|]. apply H.
Defined.

Lemma named_extents_live_witness : ∃ m, extents demo2 !! "e1"%string = Some m ∧ 0 < refs m.
Proof.
  apply (named_extents_live demo2 "e1" demo2_reachable).
  apply (names_volume demo2 "e1" "v" (mkVolumeMeta "v" "vol" 65536 {[0 := "e1"%string]}) 0); by vm_compute.
Defined.

Lemma reclaim_correct_witness :
  ¬ names demo3 "e1" ∧
  FreeList.is_free (free (fst (apply_committed 1 4 (MarkExtentReclaimed "e1") demo3))) "n2" 0 9000.
Proof.
  pose proof (reclaim_correct 1 4 "e1" (mkExtentMeta demo_extent 0 false) demo3 demo3_reachable eq_refl eq_refl) as H.
  destruct (apply_committed 1 4 (MarkExtentReclaimed "e1") demo3) as [c' r] eqn:E.
  assert (r = Ok []) as -> by (by vm_compute in E; injection E as _ <-).
  destruct H as (Hn & _ & _ & Hf). split; [done|]. apply Hf. left.
  exists (mkReplicaRef "n2" 0 8192). split; [apply list_elem_of_further, list_elem_of_here|]. by vm_compute.
Defined.

Lemma replay_from_checkpoint_witness :
  let log := [(1, 1, CreateVolume "v" "vol" 65536); (1, 2, InstallExtent "v" 0 demo_extent)] in
  run (log ++ [(1, 3, DeleteVolume "v")]) demo2 = run (log ++ [(1, 3, DeleteVolume "v")]) empty_catalog.
Proof. apply replay_from_checkpoint. by vm_compute. Defined.

End MetaSpec.
