(* ===== verification/TreeSpec.v ===== *)
(** * Filesystem trees of the catalog

    Every filesystem and every snapshot of one is a tree in the sense of
    [Tree.v], whatever clients do: the invariant of the catalogs a log without
    replication increments can produce.  (An increment brings the tree of
    another cluster, which the state machine does not check as a whole.) *)

From S2P Require Import Prelude MetaError FreeList Membership Leases Catalog Extents FsTree Tree Namespace NsSpec NsRefs NsTree Replica ReplicaRefs Metadata Frames MetaSpace MetaRefs MetaSpec.

Module TreeSpec.
Import Catalog Extents FsTree Namespace NsSpec NsRefs NsTree Replica ReplicaRefs Metadata Frames MetaSpace MetaRefs MetaSpec.
Import Tree (tree_ok).

Open Scope N_scope.

Record trees_ok (c : Catalog) : Prop := {
  to_fs : ∀ fs f, filesystems c !! fs = Some f → tree_ok (view f);
  to_snap : ∀ id s, fs_snapshots c !! id = Some s → tree_ok (view (sn_tree s));
}.

(** ** Steps that leave the trees alone *)

Definition same_trees (c c' : Catalog) : Prop :=
  view <$> filesystems c' = view <$> filesystems c ∧ fs_snapshots c' = fs_snapshots c.

Lemma same_trees_put c fs f f' :
  filesystems c !! fs = Some f → view f' = view f → same_trees c (c <| filesystems ::= <[fs := f']> |>).
Proof.
  intros Hf Hv. split; [|done]. simpl. rewrite fmap_insert. apply insert_id. by rewrite lookup_fmap, Hf, Hv.
Qed.

#[export] Instance same_trees_quiet : Quiet same_trees.
Proof.
  split; [|by intros..|].
  - split; [by intros c|]. intros c1 c2 c3 [? ?] [? ?]. split; congruence.
  - intros c fs f u Hf. by apply (same_trees_put c fs f).
Qed.

Lemma same_trees_ok c c' : same_trees c c' → trees_ok c → trees_ok c'.
Proof.
  intros [Hf Hs] [H1 H2]. split; [|by rewrite Hs]. intros fs f Hl.
  apply (f_equal (.!! fs)) in Hf. rewrite !lookup_fmap, Hl in Hf. simpl in Hf.
  destruct (filesystems c !! fs) as [f0|] eqn:H0; [|done]. injection Hf as ->. eauto.
Qed.

Lemma same_add_all l c : same_trees c (foldl (λ c e, add_extent_ref e c) c l).
Proof.
  revert c. induction l as [|e l IH]; intros c; [done|]. etrans; [|apply IH].
  destruct (add_extent_ref_eq e c) as (m & fl & -> & _). done.
Qed.
#[local] Hint Resolve same_add_all : frames.
Lemma same_add e c : same_trees c (add_extent_ref e c).
Proof. apply (same_add_all [e]). Qed.
#[local] Hint Resolve same_add : frames.
#[local] Hint Extern 4 (same_trees _ _) => done : frames.

(** Work on one filesystem that changes attributes and contents only. *)
Definition steady {A} (m : SM FsMeta MetaError A) : Prop := ∀ f, view (m f).1 = view f.

Lemma frames_steady {A} fs (m : SM FsMeta MetaError A) : steady m → frames same_trees (on_fs fs m).
Proof.
  intros Hm s. unfold on_fs. destruct (filesystems (cat s) !! fs) as [f|] eqn:Hf; [|done].
  specialize (Hm f). destruct (m f) as [f' r]. by apply (same_trees_put (cat s) fs f).
Qed.

Lemma view_same_shape f i x y : inodes f !! i = Some x → shape y = shape x → view (f <| inodes ::= <[i := y]> |>) = view f.
Proof.
  intros Hx Hs. unfold view. simpl. rewrite fmap_insert, Hs. apply insert_id. by rewrite lookup_fmap, Hx.
Qed.

(** A read of an inode, then one write of an inode of the same shape. *)
Lemma steady_read {A} i (k : Inode → SM FsMeta MetaError A) :
  (∀ f x, inodes f !! i = Some x → view (k x f).1 = view f) → steady (x ← sm_try (λ f, inode f i); k x).
Proof.
  intros Hk f. unfold mbind, sm_bind, sm_try, inode. simpl. destruct (inodes f !! i) as [x|] eqn:Hx; [|done].
  simpl. by apply Hk.
Qed.

Lemma shape_ext x y : kind y = kind x → nlink y = nlink x → shape y = shape x.
Proof. unfold shape. by intros -> ->. Qed.

Lemma shape_overwrite a acl now x : shape (overwrite a acl now x) = shape x.
Proof.
  apply shape_ext; unfold overwrite;
    destruct (a_mode a), acl, (a_uid a), (a_gid a), (a_atime_ns a), (a_mtime_ns a); reflexivity.
Qed.

Lemma steady_set_attr i a now : steady (set_attr_in i a now).
Proof.
  apply steady_read. intros f x Hx. unfold mbind, sm_bind, sm_lift. simpl.
  destruct (chmod_acl a x) as [acl| |]; simpl; [|done..].
  destruct (a_size a) as [n|]; simpl.
  - unfold resize_file. destruct (kind x) as [|sz m| |] eqn:Hk; [done| |done..].
    destruct (n =? sz); simpl; (eapply view_same_shape; [done|]; rewrite shape_overwrite; unfold shape; simpl; by rewrite Hk).
  - eapply view_same_shape; [done|]. apply shape_overwrite.
Qed.

Lemma steady_set_xattr i name v m now : steady (set_xattr_in i name v m now).
Proof.
  apply steady_read. intros f x Hx. unfold mbind, sm_bind, sm_lift. simpl.
  destruct (acl_mode x name v) as [am| |]; [|done..].
  assert (∀ y t, kind y = kind x → nlink y = nlink x →
    view (f <| inodes ::= <[i := y <| ctime_ns := t |>]> |>) = view f) as Hput.
  { intros y t Hk Hn. eapply view_same_shape; [exact Hx|by apply shape_ext]. }
  assert (view ((if MAX_XATTR_TOTAL_BYTES <? xattr_bytes (xattrs x)
                   - match xattrs x !! name with Some w => strlen name + blen w | None => 0 end + strlen name + blen v
                 then sm_err TooBig
                 else sm_modify (λ f, f <| inodes ::= <[i := (match am with
                    | Some (m, true) => x <| mode := m |> <| xattrs ::= delete name |>
                    | Some (m, false) => x <| mode := m |> <| xattrs ::= <[name := v]> |>
                    | None => x <| xattrs ::= <[name := v]> |>
                    end) <| ctime_ns := now |>]> |>)) f).1 = view f) as Hmain.
  { destruct (_ <? _); [done|]. apply Hput; by destruct am as [[? []]|]. }
  destruct m, (xattrs x !! name); (exact Hmain || done).
Qed.

Lemma steady_remove_xattr i name now : steady (remove_xattr_in i name now).
Proof.
  apply steady_read. intros f x Hx. destruct (xattrs x !! name); [|done].
  unfold edit_inode, mbind, sm_bind, sm_try, inode. simpl. rewrite Hx. simpl. by eapply view_same_shape.
Qed.

Lemma steady_install i new n now r : steady (install_in i new n now r).
Proof.
  apply steady_read. intros f x Hx. destruct (kind x) as [|sz m| |] eqn:Hk; [done| |done..].
  destruct (insert_extents m new) as [m' old]. simpl. eapply view_same_shape; [done|].
  unfold shape. destruct r; simpl; by rewrite Hk.
Qed.

Lemma steady_modify g : (∀ f, inodes (g f) = inodes f) → steady (sm_modify g).
Proof. intros Hg f. unfold view. simpl. by rewrite Hg. Qed.

#[local] Hint Resolve frames_steady steady_set_attr steady_set_xattr steady_remove_xattr steady_install : frames.
#[local] Hint Extern 2 (steady (sm_modify _)) => by apply steady_modify : frames.

(** ** Directory operations *)

Definition safe (m : M ()) (s : Ctx) : Prop := trees_ok (cat (m s).1).

(** A filesystem of one directory. *)
Lemma new_fs_tree fs name now grid r : tree_ok (view (new_fs fs name now grid r)).
Proof.
  assert (view (new_fs fs name now grid r) = {[Tree.ROOT := Tree.SDir Tree.ROOT ∅ 2]}) as ->.
  { unfold view, new_fs. simpl. by rewrite map_fmap_singleton. }
  split.
  - exists ∅, 2. by rewrite lookup_singleton_eq.
  - intros d p es n nm c [_ [= <- <- <-]]%lookup_singleton_Some. done.
  - intros c p es n [<- _]%lookup_singleton_Some. done.
  - intros c n [_ ?]%lookup_singleton_Some. done.
  - intros d p es n [_ [= <- <- <-]]%lookup_singleton_Some. done.
  - intros d. destruct (decide (d = Tree.ROOT)) as [->|Hne]; [constructor|]. by rewrite lookup_singleton_ne.
Qed.

Section safe.
Context (s : Ctx) (Hok : trees_ok (cat s)).

Lemma safe_frames m : frames same_trees m → safe m s.
Proof. intros Hm. exact (same_trees_ok _ _ (Hm s) Hok). Qed.
Lemma safe_look {A} (f : Catalog → res MetaError A) k :
  (∀ a, f (cat s) = Ok a → safe (k a) s) → safe (look f ≫= k) s.
Proof. intros Hk. unfold safe, look, mbind, sm_bind, sm_try. simpl. destruct (f (cat s)); [by apply Hk|done..]. Qed.
Lemma safe_lift {A} (r : res MetaError A) k : (∀ a, r = Ok a → safe (k a) s) → safe (sm_lift r ≫= k) s.
Proof. intros Hk. unfold safe, mbind, sm_bind, sm_lift. simpl. destruct r; [by apply Hk|done..]. Qed.
Lemma safe_get k : safe (k s) s → safe (sm_get ≫= k) s.
Proof. done. Qed.

(** A step that keeps the trees, then steps that leave them alone. *)
Lemma safe_then {A} (m : M A) (k : A → M ()) :
  trees_ok (cat (m s).1) → (∀ a, frames same_trees (k a)) → safe (m ≫= k) s.
Proof.
  intros Hm Hk. unfold safe, mbind, sm_bind. destruct (m s) as [s' [a| |]]; [|done..].
  exact (same_trees_ok _ _ (Hk a s') Hm).
Qed.
Lemma safe_edit f (k : () → M ()) :
  trees_ok (f (cat s)) → (∀ a, frames same_trees (k a)) → safe (edit f ≫= k) s.
Proof. intros Hf. by apply safe_then. Qed.
(** Steps that leave the trees alone, then one that keeps them. *)
Lemma safe_after {A} (m : M A) (k : A → M ()) :
  frames same_trees m → (∀ a s', trees_ok (cat s') → same_trees (cat s) (cat s') → safe (k a) s') → safe (m ≫= k) s.
Proof.
  intros Hm Hk. unfold safe, mbind, sm_bind. specialize (Hm s). destruct (m s) as [s' [a| |]]; simpl in *;
    [apply Hk; [exact (same_trees_ok _ _ Hm Hok)|exact Hm]|exact (same_trees_ok _ _ Hm Hok)..].
Qed.

Lemma safe_seq {A} (m : M A) (k : A → M ()) :
  trees_ok (cat (m s).1) → (∀ a s', trees_ok (cat s') → safe (k a) s') → safe (m ≫= k) s.
Proof.
  intros Hm Hk. unfold safe, mbind, sm_bind. destruct (m s) as [s' [a| |]]; [by apply Hk|done..].
Qed.

Lemma trees_put fs f : tree_ok (view f) → trees_ok ((cat s) <| filesystems ::= <[fs := f]> |>).
Proof.
  intros Hf. destruct Hok as [H1 H2]. split; simpl; [|done].
  intros fs' f' [[<- <-]|[_ ?]]%lookup_insert_Some; eauto.
Qed.

Lemma on_fs_trees {A} fs (m : SM FsMeta MetaError A) :
  (∀ f, filesystems (cat s) !! fs = Some f → tree_ok (view f) → 
     wp m f (λ _ f', tree_ok (view f')) (λ _ f', f' = f)) → trees_ok (cat (on_fs fs m s).1).
Proof.
  intros Hm. unfold on_fs. destruct (filesystems (cat s) !! fs) as [f|] eqn:Hf; [|done].
  specialize (Hm f eq_refl (to_fs _ Hok _ _ Hf)). unfold wp in Hm.
  destruct (m f) as [f' [a|e|]]; simpl; [by apply trees_put|subst; by apply trees_put, (to_fs _ Hok fs)|done].
Qed.

(** ** Filesystems and snapshots *)

Lemma create_fs_safe fs name now grid : safe (create_fs fs name now grid) s.
Proof.
  unfold create_fs. destruct (bool_decide _); [done|]. apply safe_get.
  destruct (filesystems (cat s) !! fs); [by destruct (String.eqb _ _)|]. apply trees_put, new_fs_tree.
Qed.
Lemma create_replica_safe fs name now grid : safe (create_replica fs name now grid) s.
Proof.
  unfold create_replica. destruct (grid =? 0); [done|]. apply safe_get.
  destruct (filesystems (cat s) !! fs); [by destruct (_ && _)|]. apply trees_put, new_fs_tree.
Qed.
Lemma delete_fs_safe fs : safe (delete_fs fs) s.
Proof.
  apply safe_look. intros f _. apply safe_edit; [|frames]. destruct Hok as [H1 H2]. split; simpl; [|done].
  intros fs' f' [_ ?]%lookup_delete_Some. eauto.
Qed.
Lemma delete_fs_snapshot_safe id : safe (delete_fs_snapshot id) s.
Proof.
  apply safe_get. destruct (existsb _ _); [done|]. apply safe_look. intros sn _. apply safe_edit; [|frames].
  destruct Hok as [H1 H2]. split; simpl; [done|]. intros id' sn' [_ ?]%lookup_delete_Some. eauto.
Qed.
End safe.

Section copies.
Context (s : Ctx) (Hok : trees_ok (cat s)).

Lemma snapshot_tree_safe id fs name now : safe (snapshot_tree id fs name now) s.
Proof.
  apply safe_get. destruct (fs_snapshots (cat s) !! id); [by destruct (_ && _)|].
  apply safe_look; [done|]. intros f Hf%filesystem_Ok. apply safe_after; [done|frames|].
  intros _ s' [H1 H2] _. split; simpl; [done|]. intros id' sn' [[<- <-]|[_ ?]]%lookup_insert_Some; [|eauto].
  exact (to_fs _ Hok _ _ Hf).
Qed.

Lemma clone_fs_safe id name snap : safe (clone_fs id name snap) s.
Proof.
  apply safe_get. destruct (filesystems (cat s) !! id); [by destruct (_ && _)|].
  apply safe_look; [done|]. intros sn Hsn. apply safe_after; [done|frames|]. intros _ s' Hs' _.
  destruct (fs_snapshots (cat s) !! snap) as [sn'|] eqn:Hl; [|done]. injection Hsn as <-.
  apply (trees_put s' Hs'). exact (to_snap _ Hok _ _ Hl).
Qed.

Lemma revert_to_safe fs id r : safe (revert_to fs id r) s.
Proof.
  apply safe_look; [done|]. intros sn Hsn%snapshot_of_Ok. apply safe_look; [done|]. intros f _.
  apply safe_after; [done|frames|]. intros _ s' Hs' _. apply safe_edit; [|frames].
  apply (trees_put s' Hs'). exact (to_snap _ Hok _ _ Hsn).
Qed.

Lemma discard_partial_safe fs : safe (discard_partial fs) s.
Proof.
  apply safe_look; [done|]. intros r _. destruct (rs_local r); [apply revert_to_safe|].
  apply safe_look; [done|]. intros f _. apply safe_look; [done|]. intros x _. apply safe_edit; [|frames].
  apply (trees_put s Hok). exact (new_fs_tree fs (f_name f) (ctime_ns x) (Some (default 0 (extent_bytes f))) None).
Qed.
End copies.

Section replicas.
Context (s : Ctx) (Hok : trees_ok (cat s)).

Lemma replica_commit_safe fs from to snap name nino now :
  safe (replica_commit fs from to snap name nino now) s.
Proof.
  apply safe_look; [done|]. intros r _. cbv beta zeta. destruct (_ && _); [done|]. destruct (_ && _); [done|].
  apply safe_get. destruct (bool_decide _); [done|]. apply safe_seq.
  { destruct (_ && _); [by apply discard_partial_safe|done]. }
  intros _ s1 H1. apply safe_after; [done|frames|]. intros _ s2 H2 _. by apply snapshot_tree_safe.
Qed.
Lemma replica_promote_safe fs force : safe (replica_promote fs force) s.
Proof.
  apply safe_look; [done|]. intros f _. destruct (replica f) as [r|]; [|done].
  destruct (rs_local r), (rs_pending r); [by apply revert_to_safe|by apply safe_frames; [|frames]|..];
    (destruct force; [by apply safe_frames; [|frames]|done]).
Qed.
Lemma replica_demote_safe fs snap to : safe (replica_demote fs snap to) s.
Proof.
  apply safe_look; [done|]. intros f _. destruct (replica f) as [r|]; [by destruct (_ && _)|]. by apply revert_to_safe.
Qed.
End replicas.

(** ** Directory operations *)

(** What the directory operations need: counters with room for one more.  An
    increment of a replica is left out. *)
Definition fs_client (c : Catalog) (op : FsOp) : Prop :=
  match op with
  | Mknode fs _ _ _ _ _ _ _ _ _ _ _ => ∀ f, filesystems c !! fs = Some f → next_ino f < u64_max ∧ roomy f
  | Link fs _ _ _ _ | Unlink fs _ _ _ | Rmdir fs _ _ _ | Rename fs _ _ _ _ _ =>
      ∀ f, filesystems c !! fs = Some f → roomy f
  | ReplicaApply _ _ _ _ _ => False
  | _ => True
  end.

Section dirs.
Context (s : Ctx) (Hok : trees_ok (cat s)) (Hfr : all_fresh (cat s)).

Lemma wp_tree {A} (m : SM FsMeta MetaError A) f (P : FsMeta → Prop) :
  tree_ok (view f) → wp m f (λ _ f', view f' = view f ∨ tree_ok (view f') ∧ P f') (λ _ f', f' = f) →
  wp m f (λ _ f', tree_ok (view f')) (λ _ f', f' = f).
Proof. intros Ht Hm. eapply wp_mono; [exact Hm| |done]. intros a f' [->|[? _]]; done. Qed.
Lemma wp_tree' {A} (m : SM FsMeta MetaError A) f (P : FsMeta → Prop) :
  wp m f (λ _ f', tree_ok (view f') ∧ P f') (λ _ f', f' = f) →
  wp m f (λ _ f', tree_ok (view f')) (λ _ f', f' = f).
Proof. intros Hm. eapply wp_mono; [exact Hm| |done]. by intros a f' [? _]. Qed.

Lemma apply_fs_trees op : fs_client (cat s) op → safe (apply_fs op) s.
Proof.
  intros Hp. apply safe_look; [done|]. intros _ _. destruct op; simpl in Hp.
  - by apply create_fs_safe.
  - by apply delete_fs_safe.
  - apply safe_lift; [done|]. intros _ _. apply on_fs_trees; [done|]. intros f Hf Ht. destruct (Hp f Hf) as [_ Hr].
    eapply wp_mono; [eapply mknode_refines; [done..|]; by apply fresh_next, (af_fs _ Hfr fs)| |done]. by intros [] f' [[-> _]|[? _]].
  - apply safe_lift; [done|]. intros _ _. apply on_fs_trees; [done|]. intros f Hf Ht. eapply wp_tree, link_refines; auto.
  - apply safe_then; [|unfold drop_gone; frames]. apply on_fs_trees; [done|]. intros f Hf Ht. eapply wp_tree', unlink_refines; auto.
  - apply on_fs_trees; [done|]. intros f Hf Ht. eapply wp_tree', rmdir_refines; auto.
  - apply safe_lift; [done|]. intros _ _. apply safe_then; [|unfold drop_gone; frames].
    apply on_fs_trees; [done|]. intros f Hf Ht. eapply wp_tree', rename_refines; auto.
  - apply safe_frames; [done|]. unfold set_attr. frames.
  - apply safe_frames; [done|]. unfold set_xattr. frames.
  - apply safe_frames; [done|]. unfold remove_xattr. frames.
  - apply safe_frames; [done|]. unfold install_file_extent. frames.
  - apply safe_frames; [done|]. unfold install_file_extents. frames.
  - by apply snapshot_tree_safe.
  - by apply delete_fs_snapshot_safe.
  - by apply clone_fs_safe.
  - apply safe_frames; [done|]. unfold set_quota. frames.
  - by apply create_replica_safe.
  - done.
  - by apply replica_commit_safe.
  - by apply replica_promote_safe.
  - by apply replica_demote_safe.
Qed.
End dirs.

(** ** Every command *)

Definition client_accepts (c : Catalog) (cmd : MetaCommand) : Prop :=
  cmd_space c cmd ∧
  match cmd with Fs op => fs_client c op | Lease op => Leases.op_in_range op | _ => True end.

(** On trees, [Rename] needs nothing more: the way up always ends. *)
Lemma client_accepts_accepts c cmd : trees_ok c → client_accepts c cmd → accepts c cmd.
Proof.
  intros Ht [Hs Hc]. split; [split; [done|]|by destruct cmd]. destruct cmd as [| | | | | | | | | | | |op| |]; try done.
  destruct op; simpl in *; try done.
  - intros f Hf. by apply Hc.
  - intros f Hf. apply tree_rooted. by eapply to_fs.
Qed.

Lemma same_release n r : frames same_trees (release_replica n r).
Proof.
  intros s. unfold release_replica, mbind, sm_bind. simpl. by destruct (FreeList.release _ _ _ _ _).
Qed.
Lemma same_lease term op : frames same_trees (lease term op).
Proof. intros [c g]. unfold lease. simpl. by destruct (Leases.apply _ _ _ _). Qed.
#[local] Hint Resolve same_release same_lease : frames.

Lemma exec_trees term cmd s :
  trees_ok (cat s) → all_fresh (cat s) → client_accepts (cat s) cmd → trees_ok (cat (exec term cmd s).1).
Proof.
  intros Ht Hf [_ Hc]. destruct cmd; simpl; [..|by apply apply_fs_trees| |done];
    try (apply safe_frames; [done|]; unfold create_volume, install_extent, install_extents, create_snapshot, delete_snapshot,
      delete_volume, resize_volume, clone_snapshot, mark_extent_reclaimed, replace_replica, tier_extent, change_membership; frames).
Qed.

(** The catalogs logs of client commands produce. *)
Inductive client_reachable : Catalog → Prop :=
| client_start : client_reachable empty_catalog
| client_apply term index cmd c c' r :
    client_reachable c → client_accepts c cmd → apply_committed term index cmd c = (c', r) → client_reachable c'.

Lemma client_invariant c : client_reachable c → reachable c ∧ trees_ok c.
Proof.
  induction 1 as [|term index cmd c c' r _ [Hr Ht] Ha Hc]; [split; [constructor|by split]|].
  pose proof (client_accepts_accepts c cmd Ht Ha) as Ha'. split; [by eapply reach_apply|].
  destruct (N.leb_spec index (applied_index c)).
  { rewrite apply_committed_old in Hc by done. by simplify_eq. }
  pose proof (exec_trees term cmd (mkCtx c []) Ht (ok_fresh _ (reachable_ok c Hr)) Ha) as He.
  assert (∀ c1, trees_ok c1 → trees_ok (applied term index c1)) as Happ by (intros c1 [? ?]; by split).
  rewrite apply_committed_exec in Hc by done. destruct (exec term cmd (mkCtx c [])) as [s1 [u|e|]]; simplify_eq; simpl in *;
    [by apply Happ|case_match; [by apply Happ|done]|done].
Qed.

(** C5. Filesystems stay trees.  In every catalog that client commands can
    produce, each filesystem and each of its snapshots has a root; every entry
    names an inode that exists; every directory but the root has exactly one
    name, in the directory it calls its parent; every link count is the number of
    names, or two plus the number of subdirectories; and every way up ends at the
    root. *)
Theorem filesystems_are_trees c :
  client_reachable c →
  (∀ fs f, filesystems c !! fs = Some f → tree_ok (view f)) ∧
  (∀ id s, fs_snapshots c !! id = Some s → tree_ok (view (sn_tree s))).
Proof. intros Hc. destruct (client_invariant c Hc) as [_ [H1 H2]]. by split. Qed.

(** The check of [Rename] against moving a directory into itself terminates
    on every filesystem client commands can produce, and is exact: it answers
    true precisely when the directory is the destination or above it. *)
Theorem is_within_total c fs f d a :
  client_reachable c → filesystems c !! fs = Some f →
  is_within f d a ≠ Panic ∧ (is_within f d a = Ok true ↔ above f a d).
Proof.
  intros [_ Ht]%client_invariant Hf. assert (rooted f) as Hr by (eapply tree_rooted, to_fs; done).
  split; [by apply is_within_no_panic|by apply is_within_spec].
Qed.

(** ** Examples *)

Definition tree_log : list (N * N * MetaCommand) :=
  [(1, 1, Fs (CreateFs "fs" "fs" 0 None));
   (1, 2, Fs (Mknode "fs" 1 "a" EmptyString NDir None 0 493 None 0 0 0));
   (1, 3, Fs (Mknode "fs" 2 "b" EmptyString NDir None 0 493 None 0 0 0));
   (1, 4, Fs (Mknode "fs" 3 "f" EmptyString NFile None 0 420 None 0 0 0));
   (1, 5, Fs (Rename "fs" 2 "b" 1 "c" 0))].

Definition tree_demo (n : nat) : Catalog := default empty_catalog (run (take n tree_log) empty_catalog).

Lemma tree_demo_step n term index cmd :
  client_reachable (tree_demo n) → client_accepts (tree_demo n) cmd →
  fst (apply_committed term index cmd (tree_demo n)) = tree_demo (S n) → client_reachable (tree_demo (S n)).
Proof.
  intros Hn Ha <-. eapply (client_apply term index cmd (tree_demo n)); [done|done|apply surjective_pairing].
Qed.

(** The hypotheses of a command on filesystem [fs], from a test that evaluates. *)
Lemma demo_room c fs (P : FsMeta → Prop) :
  (∃ f, filesystems c !! fs = Some f ∧ P f) → ∀ f, filesystems c !! fs = Some f → P f.
Proof. intros (f & Hf & HP) f' Hf'. congruence. Qed.

Lemma roomy_check f : forallb (λ x : N * Inode, nlink (x.2) <? u32_max) (map_to_list (inodes f)) = true → roomy f.
Proof.
  intros Hb i x Hx. rewrite forallb_forall in Hb. apply N.ltb_lt, (Hb (i, x)), list_elem_of_In, elem_of_map_to_list. done.
Qed.

Ltac demo_fs := cbv beta iota delta [fs_client]; apply demo_room; eexists; split; [vm_compute; reflexivity|].

Lemma tree_demo_reachable : client_reachable (tree_demo 5).
Proof.
  apply (tree_demo_step 4 1 5 (Fs (Rename "fs" 2 "b" 1 "c" 0))); [|split; [done|]|by vm_compute].
  2:{ demo_fs. apply roomy_check. by vm_compute. }
  apply (tree_demo_step 3 1 4 (Fs (Mknode "fs" 3 "f" EmptyString NFile None 0 420 None 0 0 0))); [|split; [done|]|by vm_compute].
  2:{ demo_fs. split; [done|]. apply roomy_check. by vm_compute. }
  apply (tree_demo_step 2 1 3 (Fs (Mknode "fs" 2 "b" EmptyString NDir None 0 493 None 0 0 0))); [|split; [done|]|by vm_compute].
  2:{ demo_fs. split; [done|]. apply roomy_check. by vm_compute. }
  apply (tree_demo_step 1 1 2 (Fs (Mknode "fs" 1 "a" EmptyString NDir None 0 493 None 0 0 0))); [|split; [done|]|by vm_compute].
  2:{ demo_fs. split; [done|]. apply roomy_check. by vm_compute. }
  apply (tree_demo_step 0 1 1 (Fs (CreateFs "fs" "fs" 0 None))); [constructor|by split|by vm_compute].
Qed.

Lemma filesystems_are_trees_witness :
  ∃ f, filesystems (tree_demo 5) !! "fs"%string = Some f ∧ tree_ok (view f) ∧
    entry_of (default (new_root 0) (inodes f !! 1)) "c" = Some 3.
Proof.
  destruct (filesystems_are_trees (tree_demo 5) tree_demo_reachable) as [H _].
  destruct (filesystems (tree_demo 5) !! "fs"%string) as [f|] eqn:E; [|by vm_compute in E].
  exists f. split; [done|]. split; [by apply (H "fs"%string)|]. vm_compute in E. injection E as <-. by vm_compute.
Defined.

Lemma is_within_total_witness :
  ∃ f, filesystems (tree_demo 5) !! "fs"%string = Some f ∧ is_within f 3 2 ≠ Panic ∧ is_within f 3 1 = Ok true.
Proof.
  destruct (filesystems (tree_demo 5) !! "fs"%string) as [f|] eqn:E; [|by vm_compute in E].
  exists f. split; [done|]. split; [apply (is_within_total (tree_demo 5) "fs" f 3 2 tree_demo_reachable E)|].
  vm_compute in E. injection E as <-. by vm_compute.
Defined.

Lemma tree_demo_fs :
  ∃ f, filesystems (tree_demo 5) !! "fs"%string = Some f ∧ tree_ok (view f) ∧ fresh f ∧ roomy f.
Proof.
  destruct (client_invariant _ tree_demo_reachable) as [Hr Ht].
  destruct (filesystems (tree_demo 5) !! "fs"%string) as [f|] eqn:E; [|by vm_compute in E].
  exists f. split; [done|]. split; [by eapply to_fs|]. split; [exact (af_fs _ (ok_fresh _ (reachable_ok _ Hr)) _ _ E)|].
  apply roomy_check. vm_compute in E. injection E as <-. by vm_compute.
Defined.

Lemma rename_correct_witness :
  ∃ f f', tree_ok (view f) ∧ rename_in 3 "f" 1 "g" 9 f = (f', Ok None) ∧ tree_ok (view f').
Proof.
  destruct tree_demo_fs as (f & E & Ht & _ & Hr). pose proof (rename_correct f 3 "f" 1 "g" 9 Ht Hr) as H.
  exists f. destruct (rename_in 3 "f" 1 "g" 9 f) as [f' r] eqn:Er. exists f'.
  assert (r = Ok None) as ->; [|exact (conj Ht (conj eq_refl (proj1 H)))].
  vm_compute in E. injection E as <-. vm_compute in Er. by injection Er as _ <-.
Defined.

Lemma mknode_correct_witness :
  ∃ f f', tree_ok (view f) ∧ mknode_in 1 "new" "op" NFile None 0 420 None 7 8 9 f = (f', Ok ()) ∧
    tree_ok (view f') ∧ created f 1 "new" "op" NFile 7 8 f'.
Proof.
  destruct tree_demo_fs as (f & E & Ht & Hf & Hr).
  pose proof (mknode_correct f 1 "new" "op" NFile None 0 420 None 7 8 9 Ht Hr Hf) as H.
  exists f. destruct (mknode_in 1 "new" "op" NFile None 0 420 None 7 8 9 f) as [f' r] eqn:Er. exists f'.
  assert (r = Ok () ∧ entry f 1 "new" = Ok None) as [-> He]; [|rewrite He in H; destruct H as (Hok & _ & Hc); exact (conj Ht (conj eq_refl (conj Hok Hc)))].
  clear H. vm_compute in E. injection E as <-. vm_compute in Er. by injection Er as _ <-.
Defined.

(** A directory with entries is not removed; the file in it is. *)
Lemma unlink_rmdir_correct_witness :
  ∃ f f', tree_ok (view f) ∧ rmdir_in 1 "c" 9 f = (f, Err NotEmpty) ∧
    (unlink_in 3 "f" 9 f).1 = f' ∧ tree_ok (view f') ∧ view f' = Tree.remove 3 "f" 4 (view f) ∧ inodes f' !! 4 = None.
Proof.
  destruct tree_demo_fs as (f & E & Ht & _ & Hr). exists f, (unlink_in 3 "f" 9 f).1. split; [done|].
  pose proof (unlink_rmdir_correct f 1 "c" 9 true Ht Hr) as H. cbv iota in H. unfold mbind, sm_bind in H.
  pose proof (unlink_rmdir_correct f 3 "f" 9 false Ht Hr) as H'. cbv iota in H'.
  destruct (rmdir_in 1 "c" 9 f) as [f1 r] eqn:Er. destruct (unlink_in 3 "f" 9 f) as [f2 r2] eqn:Eu.
  assert (r = Err NotEmpty ∧ (∃ o, r2 = Ok o) ∧ lookup f 3 "f" = Ok 4 ∧ inodes f2 !! 4 = None) as (-> & [o ->] & Hl & Hg).
  { clear H H'. vm_compute in E. injection E as <-. vm_compute in Er, Eu. injection Er as _ <-. injection Eu as <- <-. split_and!; try done. by eexists. }
  split; [by rewrite H|]. split; [done|]. destruct H' as [Hok (i & Hi & Hv)]. assert (i = 4) as -> by congruence. exact (conj Hok (conj Hv Hg)).
Defined.

End TreeSpec.
