(* ===== verification/CatalogKeys.v ===== *)
(** * Inodes are filed under their numbers

    Whatever commands a log holds, accepted or rejected, every inode of every
    filesystem and snapshot is in its table under its own number; and a command
    other than a membership change leaves the configuration alone. *)

From S2P Require Import Prelude MetaError FreeList Membership Leases Catalog Extents FsTree Namespace NsRefs Replica Metadata Frames NoStore MetaSpec.

Module CatalogKeys.
Import Catalog Extents FsTree Namespace NsRefs Replica Metadata Frames.

Open Scope N_scope.

(** ** One filesystem *)

Definition keyed_fs (f : FsMeta) : Prop := map_Forall (λ i x, ino x = i) (inodes f).

(** Work on one filesystem that files inodes under their numbers. *)
Definition files {A} (m : SM FsMeta MetaError A) : Prop := ∀ f, keyed_fs f → keyed_fs (m f).1.

Lemma files_ret {A} (a : A) : files (mret a).
Proof. by intros f. Qed.
Lemma files_err {A} e : files (A := A) (sm_err e).
Proof. by intros f. Qed.
Lemma files_panic {A} : files (A := A) sm_panic.
Proof. by intros f. Qed.
Lemma files_get : files sm_get.
Proof. by intros f. Qed.
Lemma files_reads {A} (g : FsMeta → A) : files (sm_reads g).
Proof. by intros f. Qed.
Lemma files_try {A} (g : FsMeta → res MetaError A) : files (sm_try g).
Proof. by intros f. Qed.
Lemma files_lift {A} (r : res MetaError A) : files (sm_lift r).
Proof. by intros f. Qed.
Lemma files_bind {A B} (m : SM FsMeta MetaError A) (k : A → SM FsMeta MetaError B) : files m → (∀ a, files (k a)) → files (m ≫= k).
Proof. intros Hm Hk f Hf. specialize (Hm f Hf). unfold mbind, sm_bind. destruct (m f) as [f' [a| |]]; [by apply Hk|done..]. Qed.
Lemma files_for {A} (l : list A) (k : A → SM FsMeta MetaError ()) : (∀ x, files (k x)) → files (sm_for l k).
Proof. intros Hk. induction l as [|x l IH]; [apply files_ret|]. by apply files_bind. Qed.
Lemma files_modify g : (∀ f, keyed_fs f → keyed_fs (g f)) → files (sm_modify g).
Proof. intros Hg f Hf. by apply Hg. Qed.

Lemma keyed_insert f i x : ino x = i → keyed_fs f → keyed_fs (f <| inodes ::= <[i := x]> |>).
Proof. intros Hx Hf. apply map_Forall_insert_2; done. Qed.
Lemma keyed_delete f i : keyed_fs f → keyed_fs (f <| inodes ::= delete i |>).
Proof. intros Hf. by apply map_Forall_delete. Qed.

(** An inode read before it is changed. *)
Lemma files_inode {A} i (k : Inode → SM FsMeta MetaError A) : (∀ x, ino x = i → files (k x)) → files (x ← sm_try (λ f, inode f i); k x).
Proof.
  intros Hk f Hf. unfold mbind, sm_bind, sm_try, inode. simpl. destruct (inodes f !! i) as [x|] eqn:Hx; [|done]. simpl. apply Hk; [|done].
  by apply (Hf i x).
Qed.

Create HintDb files.
Hint Resolve files_ret files_err files_panic files_get files_reads files_try files_lift : files.

Lemma files_edit i g : (∀ x, ino (g x) = ino x) → files (edit_inode i g).
Proof.
  intros Hg. apply files_inode. intros x Hx. apply files_modify. intros f Hf. apply keyed_insert; [|done]. by rewrite Hg.
Qed.

(** Takes the work apart; leaves the inodes that are written. *)
Ltac files_step :=
  lazymatch goal with
  | |- files (edit_inode _ _) => apply files_edit; intros ?
  | |- files (sm_try (λ f, inode f _) ≫= _) => apply files_inode; intros ? ?
  | |- files (_ ≫= _) => apply files_bind; [|intros ?]
  | |- files (sm_for _ _) => apply files_for; intros ?
  | |- files (sm_modify _) => apply files_modify; intros ? ?
  | |- files (match ?x with _ => _ end) => destruct x eqn:?
  | |- keyed_fs (_ <| inodes ::= <[_ := _]> |>) => apply keyed_insert
  | |- keyed_fs (_ <| inodes ::= delete _ |>) => apply keyed_delete
  end.
Ltac files := repeat first [solve [auto with files nocore] | done | files_step].

Lemma files_table_set d name o : files (table_set_entry d name o).
Proof. unfold table_set_entry. files. Qed.
Hint Resolve files_table_set : files.
Lemma files_set_entry d name o : files (set_entry d name o).
Proof. unfold set_entry. files. Qed.
Lemma files_dir_changed d k now : files (dir_changed d k now).
Proof. unfold dir_changed. files. Qed.
Lemma files_drop_link i now : files (drop_link i now).
Proof. unfold drop_link. files. Qed.
Hint Resolve files_set_entry files_dir_changed files_drop_link : files.

Lemma files_mknode parent name id t target rdev m cm u g now : files (mknode_in parent name id t target rdev m cm u g now).
Proof. unfold mknode_in. files. Qed.
Lemma files_link i parent name now : files (link_in i parent name now).
Proof. unfold link_in. files. Qed.
Lemma files_unlink parent name now : files (unlink_in parent name now).
Proof. unfold unlink_in. files. Qed.
Lemma files_rmdir parent name now : files (rmdir_in parent name now).
Proof. unfold rmdir_in. files. Qed.
Lemma files_replace dst np nn b now : files (replace_target dst np nn b now).
Proof. unfold replace_target. files. Qed.
Hint Resolve files_replace : files.
Lemma files_rename parent name np nn now : files (rename_in parent name np nn now).
Proof. unfold rename_in, move_entry. files. Qed.
Lemma files_remove_xattr i name now : files (remove_xattr_in i name now).
Proof. unfold remove_xattr_in. files. Qed.

Lemma ino_overwrite a acl now x : ino (overwrite a acl now x) = ino x.
Proof. unfold overwrite. by destruct (a_mode a), acl, (a_uid a), (a_gid a), (a_atime_ns a), (a_mtime_ns a). Qed.

Lemma files_set_attr i a now : files (set_attr_in i a now).
Proof.
  unfold set_attr_in. files_step. apply files_bind; [apply files_lift|intros acl].
  intros f Hf. unfold mbind, sm_bind, sm_lift. destruct (a_size a) as [n|]; simpl; [|apply keyed_insert; [by rewrite ino_overwrite|done]].
  unfold resize_file. destruct (kind x); try done. destruct (n =? _); simpl; (apply keyed_insert; [by rewrite ino_overwrite|done]).
Qed.

Lemma files_set_xattr i name v m now : files (set_xattr_in i name v m now).
Proof. unfold set_xattr_in. files; by destruct a as [[? []]|]. Qed.

Lemma files_install i new n now r : files (install_in i new n now r).
Proof. unfold install_in. files; by destruct r. Qed.

Lemma files_upsert n : files (upsert n).
Proof.
  unfold upsert. intros f Hf. unfold upsert, sm_reads, mbind at 1, sm_bind at 1. assert (∀ i, inodes f !! r_ino n = Some i → ino i = r_ino n) as Hi by (intros i Hi; by apply (Hf (r_ino n))).
  destruct (inodes f !! r_ino n) as [i|]; (apply files_bind; [|intros r|done]); files. simpl. auto.
Qed.

Lemma files_upsert_all l : files (upsert_all l).
Proof. induction l as [|n l IH]; cbn [upsert_all]; files. apply files_upsert. Qed.
Lemma files_remove_all l : files (remove_all l).
Proof. induction l as [|n l IH]; cbn [remove_all]; files. Qed.
Hint Resolve files_upsert_all files_remove_all : files.
Lemma files_apply_part to l removed : files (apply_part to l removed).
Proof. unfold apply_part. files. Qed.

(** ** The catalog *)

Definition keyed (c : Catalog) : Prop :=
  map_Forall (λ _ f, keyed_fs f) (filesystems c) ∧ map_Forall (λ _ s, keyed_fs (sn_tree s)) (fs_snapshots c).

Definition kept (c c' : Catalog) : Prop := keyed c → keyed c'.

#[export] Instance kept_quiet : Quiet kept.
Proof.
  split; [|by intros; intros ?..|].
  - split; [by intros c ?|]. intros c1 c2 c3 H1 H2 Hc. auto.
  - intros c fs f u Hf [H1 H2]. split; [|done]. apply map_Forall_insert_2; [|done]. by apply (H1 fs f).
Qed.

Lemma frames_filed {A} fs (m : SM FsMeta MetaError A) : files m → frames kept (on_fs fs m).
Proof.
  intros Hm s [H1 H2]. unfold on_fs. destruct (filesystems (cat s) !! fs) as [f|] eqn:Hf; [|by split].
  specialize (Hm f (H1 fs f Hf)). destruct (m f) as [f' r]. split; [|done]. by apply map_Forall_insert_2.
Qed.

(** What is read from a catalog that files inodes under their numbers. *)
Lemma frames_look_with {A B} (P : A → Prop) (g : Catalog → res MetaError A) (k : A → M B) :
  (∀ c a, keyed c → g c = Ok a → P a) → (∀ a, P a → frames kept (k a)) → frames kept (look g ≫= k).
Proof.
  intros HP Hk s Hs. unfold look, mbind, sm_bind, sm_try. destruct (g (cat s)) as [a| |] eqn:E; [|done..]. by apply (Hk a); [eapply HP|].
Qed.
Lemma frames_get_with {B} (k : Ctx → M B) : (∀ s, keyed (cat s) → frames kept (k s)) → frames kept (sm_get ≫= k).
Proof. intros Hk s Hs. by apply (Hk s). Qed.

Lemma kept_put_fs c fs f : keyed_fs f → kept c (c <| filesystems ::= <[fs := f]> |>).
Proof. intros Hf [H1 H2]. split; [|done]. by apply map_Forall_insert_2. Qed.
Lemma kept_drop c fs : kept c (c <| filesystems ::= delete fs |>).
Proof. intros [H1 H2]. split; [|done]. by apply map_Forall_delete. Qed.
Lemma kept_snap c id s : keyed_fs (sn_tree s) → kept c (c <| fs_snapshots ::= <[id := s]> |>).
Proof. intros Hf [H1 H2]. split; [done|]. by apply map_Forall_insert_2. Qed.
Lemma kept_unsnap c id : kept c (c <| fs_snapshots ::= delete id |>).
Proof. intros [H1 H2]. split; [done|]. by apply map_Forall_delete. Qed.

Lemma keyed_new fs name now grid r : keyed_fs (new_fs fs name now grid r).
Proof. by apply map_Forall_singleton. Qed.

Lemma look_fs c fs f : keyed c → filesystem c fs = Ok f → keyed_fs f.
Proof. intros [H1 _]. unfold filesystem, ok_or. destruct (filesystems c !! fs) as [g|] eqn:E; [|done]. intros [= <-]. by apply (H1 fs). Qed.
Lemma look_snap c fs id s : keyed c → snapshot_of c fs id = Ok s → keyed_fs (sn_tree s).
Proof.
  intros [_ H2]. unfold snapshot_of. destruct (fs_snapshots c !! id) as [g|] eqn:E; [|done]. destruct (String.eqb _ _); [|done].
  intros [= <-]. by apply (H2 id).
Qed.

Lemma kept_add_all l c : kept c (foldl (λ c e, add_extent_ref e c) c l).
Proof.
  revert c. induction l as [|e l IH]; intros c; [by intros ?|]. etrans; [|apply IH]. destruct (add_extent_ref_eq e c) as (m & fl & -> & _). by intros ?.
Qed.
Lemma kept_add e c : kept c (add_extent_ref e c).
Proof. apply (kept_add_all [e]). Qed.
Lemma kept_release n r : frames kept (release_replica n r).
Proof. intros s Hs. unfold release_replica, mbind, sm_bind. simpl. by destruct (FreeList.release _ _ _ _ _). Qed.

#[local] Hint Resolve kept_put_fs kept_drop kept_snap kept_unsnap keyed_new kept_add_all kept_add kept_release : frames.
#[local] Hint Extern 1 (frames kept (on_fs _ _)) => apply frames_filed : frames.
#[local] Hint Resolve files_mknode files_link files_unlink files_rmdir files_rename files_set_attr files_set_xattr files_remove_xattr
  files_install files_apply_part : frames.
#[local] Hint Extern 1 (files (sm_modify _)) => apply files_modify; intros ? ?; done : frames.
#[local] Hint Extern 4 (kept _ _) => by intros ? : frames.

Lemma kept_snapshot_tree id fs name now : frames kept (snapshot_tree id fs name now).
Proof.
  unfold snapshot_tree. apply frames_get_with. intros s Hs. destruct (fs_snapshots (cat s) !! id); [frames|].
  apply (frames_look_with keyed_fs); [intros c a; apply look_fs|]. intros f Hf. frames.
Qed.

Lemma kept_revert fs id r : frames kept (revert_to fs id r).
Proof.
  unfold revert_to. apply (frames_look_with (λ s, keyed_fs (sn_tree s))); [intros c a; apply look_snap|]. intros sn Hsn.
  apply frames_bind; [apply _|frames|intros f]. apply frames_bind; [apply _|frames|intros _]. apply frames_bind; [apply _| |intros _; frames].
  apply frames_edit. intros c. by apply kept_put_fs.
Qed.

Lemma kept_discard fs : frames kept (discard_partial fs).
Proof.
  unfold discard_partial. apply frames_bind; [apply _|frames|intros r]. destruct (rs_local r); [apply kept_revert|].
  apply frames_bind; [apply _|frames|intros f]. apply frames_bind; [apply _|frames|intros root]. apply frames_bind; [apply _| |intros _; frames].
  apply frames_edit. intros c. apply kept_put_fs. apply keyed_new.
Qed.
#[local] Hint Resolve kept_snapshot_tree kept_revert kept_discard : frames.

Lemma kept_clone id name sid : frames kept (clone_fs id name sid).
Proof.
  unfold clone_fs. apply frames_get_with. intros s Hs. destruct (filesystems (cat s) !! id); [frames|].
  apply (frames_look_with (λ s, keyed_fs (sn_tree s))).
  - intros c a [_ H2]. unfold ok_or. destruct (fs_snapshots c !! sid) as [g|] eqn:E; [|done]. intros [= <-]. by apply (H2 sid).
  - intros sn Hsn. apply frames_bind; [apply _|frames|intros _]. apply frames_edit. intros c. by apply kept_put_fs.
Qed.
#[local] Hint Resolve kept_clone : frames.

Lemma kept_fs op : frames kept (apply_fs op).
Proof.
  unfold apply_fs. apply frames_bind; [apply _|frames|intros _].
  destruct op; unfold create_fs, delete_fs, mknode, link, unlink, rmdir, rename, drop_gone, set_attr, set_xattr,
    remove_xattr, install_file_extent, install_file_extents, delete_fs_snapshot, set_quota, create_replica,
    replica_apply, replica_commit, replica_promote, replica_demote; frames.
Qed.

Lemma kept_exec term cmd : frames kept (exec term cmd).
Proof.
  destruct cmd; simpl; [..|apply kept_fs| |];
    try (unfold create_volume, install_extent, install_extents, create_snapshot, delete_snapshot, delete_volume,
      resize_volume, clone_snapshot, mark_extent_reclaimed, replace_replica, tier_extent, change_membership; frames).
  intros s Hs. unfold lease. by destruct (Leases.apply _ _ _ _).
Qed.

(** ** Index and configuration *)

(** The index stays; the configuration too, unless the command changes it. *)
Definition steady (b : bool) (c c' : Catalog) : Prop := applied_index c' = applied_index c ∧ (b = true → membership c' = membership c).

#[export] Instance steady_ind b : Indifferent (steady b).
Proof.
  split; [|by intros..]. split; [|by intros..]. split; [by intros c|]. intros c1 c2 c3 [H1 H2] [H3 H4]. split; [congruence|].
  intros Hb. rewrite H4, H2; done.
Qed.

Lemma steady_add_all b l c : steady b c (foldl (λ c e, add_extent_ref e c) c l).
Proof.
  revert c. induction l as [|e l IH]; intros c; [done|]. etrans; [|apply IH]. destruct (add_extent_ref_eq e c) as (m & fl & -> & _). done.
Qed.
Lemma steady_add b e c : steady b c (add_extent_ref e c).
Proof. apply (steady_add_all b [e]). Qed.
Lemma steady_release b n r : frames (steady b) (release_replica n r).
Proof. intros s. unfold release_replica, mbind, sm_bind. simpl. by destruct (FreeList.release _ _ _ _ _). Qed.
#[local] Hint Resolve steady_add_all steady_add steady_release : frames.
#[local] Hint Extern 4 (steady _ _ _) => done : frames.

Lemma steady_fs b op : frames (steady b) (apply_fs op).
Proof.
  unfold apply_fs. apply frames_bind; [apply _|frames|intros _].
  destruct op; unfold create_fs, delete_fs, mknode, link, unlink, rmdir, rename, drop_gone, set_attr, set_xattr,
    remove_xattr, install_file_extent, install_file_extents, delete_fs_snapshot, clone_fs, set_quota, create_replica,
    replica_apply, replica_commit, replica_promote, replica_demote; frames.
Qed.

Definition changes (cmd : MetaCommand) : option (Membership.Membership * gmap string string) :=
  match cmd with ChangeMembership m a => Some (m, a) | _ => None end.

Lemma steady_exec b term cmd : (b = true → changes cmd = None) → frames (steady b) (exec term cmd).
Proof.
  intros Hb. destruct cmd; simpl; [..|apply steady_fs| |];
    try (unfold create_volume, install_extent, install_extents, create_snapshot, delete_snapshot, delete_volume,
      resize_volume, clone_snapshot, mark_extent_reclaimed, replace_replica, tier_extent; frames).
  - destruct b; [by specialize (Hb eq_refl)|]. unfold change_membership. frames.
  - intros s. unfold lease. by destruct (Leases.apply _ _ _ _).
Qed.

(** ** Committed commands *)

Lemma committed_keyed t i cmd c c' r : keyed c → apply_committed t i cmd c = (c', r) → keyed c'.
Proof.
  intros Hc. destruct (N.leb_spec i (applied_index c)) as [Hle|Hlt].
  { rewrite MetaSpec.apply_committed_old by done. by intros [= <- _]. }
  rewrite MetaSpec.apply_committed_exec by done. pose proof (kept_exec t cmd (mkCtx c []) Hc) as Hk.
  destruct (exec t cmd (mkCtx c [])) as [s [u|e|]]; simpl in Hk; intros [= <- _]; [done|by destruct (_ <? _)|done].
Qed.

Lemma committed_index t i cmd c c' r :
  applied_index c < i → apply_committed t i cmd c = (c', r) → r ≠ Panic → applied_index c' = i ∧ current_term c' = t.
Proof.
  intros Hi. rewrite MetaSpec.apply_committed_exec by done. pose proof (steady_exec false t cmd ltac:(done) (mkCtx c [])) as [Ha _].
  destruct (exec t cmd (mkCtx c [])) as [s [u|e|]]; simpl in Ha; intros [= <- <-] Hr; [done| |done].
  by rewrite Ha, (proj2 (N.ltb_lt _ _) Hi).
Qed.

Lemma committed_members t i cmd c c' r : changes cmd = None → apply_committed t i cmd c = (c', r) → membership c' = membership c.
Proof.
  intros Hn. destruct (N.leb_spec i (applied_index c)) as [Hle|Hlt].
  { rewrite MetaSpec.apply_committed_old by done. by intros [= <- _]. }
  rewrite MetaSpec.apply_committed_exec by done. pose proof (steady_exec true t cmd (λ _, Hn) (mkCtx c [])) as [_ Hm]. specialize (Hm eq_refl).
  destruct (exec t cmd (mkCtx c [])) as [s [u|e|]]; simpl in Hm; intros [= <- _]; [done|by destruct (_ <? _)|done].
Qed.

End CatalogKeys.
