(* ===== verification/RaftSnapshot.v ===== *)
(** * Snapshots in chunks, and Raft over the catalog ([raft_snapshot.rs])

    The leader streams its catalog to a follower: a header, pages of extents and
    of each filesystem's inodes, then the end; the follower stages the chunks.
    With [apply] and [apply_committed] of [Metadata.v] this makes the catalog a
    state machine of [Raft.v]. *)

From S2P Require Import Prelude MetaError Membership Leases Catalog Extents FsTree Namespace Replica Metadata MetaSpec CatalogKeys RaftMachine.

Module RaftSnapshot.
Import Catalog Metadata CatalogKeys.

Open Scope N_scope.

Definition CHUNK_INODES : nat := N.to_nat 1024.
Definition CHUNK_EXTENTS : nat := N.to_nat 4096.

Inductive SnapshotChunk :=
| Header (catalog : Catalog)
| Extents (extents : list (ExtentId * ExtentMeta))
| Inodes (fs : FsId) (inodes : list Inode)
| Done.

(** What follows the chunk in flight. *)
Inductive Cursor :=
| ExtentsAfter (after : option ExtentId)
| InodesFrom (fs : nat) (from : N)
| CDone
| CEnd.

(** The catalog without its extents and without the inodes of its filesystems. *)
Definition header_of (self : Catalog) : Catalog :=
  self <| extents := ∅ |> <| filesystems ::= fmap (λ f, f <| inodes := ∅ |>) |>.

(** [Outgoing::start]. *)
Definition start (self : Catalog) : SnapshotChunk * Cursor := (Header (header_of self), ExtentsAfter None).

Definition is_done (x : SnapshotChunk) : bool := match x with Done => true | _ => false end.

(** [range(..).take(n)] over the keys of which [from] holds. *)
Definition range_page {K V} `{Countable K} `{!BTreeKey K} (from : K → bool) (n : nat) (m : gmap K V) : list (K * V) :=
  take n (List.filter (λ x : K * V, from (x.1)) (bt_entries m)).

Definition after_key (after : option ExtentId) (k : ExtentId) : bool :=
  match after with Some a => bool_decide (bt_lt a k) | None => true end.

(** [InodeTable::page_full]. *)
Definition page_full (self : FsMeta) (from : N) (limit : nat) : list Inode :=
  (range_page (λ i, from <=? i) limit (inodes self)).*2.

(** The cursor after a page of inodes. *)
Definition after_page (j : nat) (page : list Inode) : Cursor :=
  match list.last page with
  | Some x => if (length page =? CHUNK_INODES)%nat then InodesFrom j (u64_add (ino x) 1) else InodesFrom (S j) 0
  | None => InodesFrom (S j) 0
  end.

(** The loop of [Outgoing::advance]: [None] when nothing follows. *)
Fixpoint advance_loop (fuel : nat) (self : Catalog) (next : Cursor) : res MetaError (option (SnapshotChunk * Cursor)) :=
  match fuel with
  | O => Panic
  | S fuel =>
      match next with
      | ExtentsAfter after =>
          match range_page (after_key after) CHUNK_EXTENTS (extents self) with
          | [] => advance_loop fuel self (InodesFrom 0 0)
          | page => Ok (Some (Extents page, ExtentsAfter (fst <$> list.last page)))
          end
      | InodesFrom k from =>
          match bt_keys (filesystems self) !! k with
          | None => advance_loop fuel self CDone
          | Some id =>
              let page := match filesystems self !! id with
                          | Some f => page_full f from CHUNK_INODES
                          | None => []
                          end in
              match page with
              | [] => advance_loop fuel self (after_page k page)
              | _ => Ok (Some (Inodes id page, after_page k page))
              end
          end
      | CDone => Ok (Some (Done, CEnd))
      | CEnd => Ok None
      end
  end.

(** A step for each filesystem left, and for each kind of cursor. *)
Definition advance (self : Catalog) (next : Cursor) : res MetaError (option (SnapshotChunk * Cursor)) :=
  advance_loop (length (bt_keys (filesystems self)) + 4) self next.

Definition header (x : SnapshotChunk) : option Catalog := match x with Header c => Some c | _ => None end.

(** [Incoming::stage]; [None] for chunks that are not staged. *)
Definition stage (x : SnapshotChunk) (self : Catalog) : option Catalog :=
  match x with
  | Extents l => Some (self <| extents ::= λ m, foldl (λ m x, <[x.1 := x.2]> m) m l |>)
  | Inodes fs l =>
      match filesystems self !! fs with
      | None => None
      | Some f => Some (self <| filesystems ::= <[fs := f <| inodes ::= λ m, foldl (λ m x, <[ino x := x]> m) m l |>]> |>)
      end
  | Header _ | Done => None
  end.

(** ** Pages *)

Section page.
Context {K V : Type} `{Countable K} `{!BTreeKey K} (from : K → bool) (n : nat) (m : gmap K V).
Abbreviation all := (List.filter (λ x : K * V, from (x.1)) (bt_entries m)).
Abbreviation page := (range_page from n m).

Lemma elem_of_all k x : (k, x) ∈ all ↔ from k = true ∧ m !! k = Some x.
Proof. rewrite list_elem_of_In, filter_In, <- list_elem_of_In, elem_of_bt_entries. simpl. tauto. Qed.

Lemma page_in k x : (k, x) ∈ page → from k = true ∧ m !! k = Some x.
Proof. intros Hk. apply elem_of_all. unfold range_page in Hk. by apply elem_of_take in Hk as (j & Hj & _); apply list_elem_of_lookup; exists j. Qed.

Lemma page_short k x : (length page < n)%nat → from k = true → m !! k = Some x → (k, x) ∈ page.
Proof.
  unfold range_page. rewrite length_take. intros Hl Hf Hx. rewrite take_ge by lia. by apply elem_of_all.
Qed.

Lemma page_covers k x l y :
  list.last page = Some (l, y) → bt_le k l → from k = true → m !! k = Some x → (k, x) ∈ page.
Proof.
  intros Hlast Hle Hf Hx. assert ((k, x) ∈ all) as Hin by (by apply elem_of_all). unfold range_page in *.
  rewrite <- (take_drop n all) in Hin. apply elem_of_app in Hin as [|Hin]; [done|]. exfalso.
  assert ((l, y) ∈ take n all) as Hl by (apply list_elem_of_lookup; rewrite last_lookup in Hlast; by eexists).
  assert (StronglySorted entry_le all) as Hs by apply sorted_filter, bt_entries_sorted.
  rewrite <- (take_drop n all) in Hs. apply StronglySorted_app in Hs as (Hs & _). pose proof (Hs _ _ Hl Hin) as Hle'.
  assert (k = l) as -> by (by apply (anti_symm bt_le)).
  assert (m !! l = Some y) as Hy by (apply elem_of_all; rewrite <- (take_drop n all); apply elem_of_app; by left).
  assert (x = y) as -> by congruence. assert (NoDup all) as Hn.
  { apply NoDup_ListNoDup, List.NoDup_filter, NoDup_ListNoDup. rewrite bt_entries_perm. apply NoDup_map_to_list. }
  rewrite <- (take_drop n all) in Hn. apply NoDup_app in Hn as (_ & Hn & _). by apply (Hn (l, y)).
Qed.

Lemma page_nil : page = [] → (0 < n)%nat → ∀ k x, from k = true → m !! k = Some x → False.
Proof. intros E Hn k x Hf Hx. assert ((k, x) ∈ page) as Hin by (apply page_short; rewrite ?E; done). rewrite E in Hin. by apply elem_of_nil in Hin. Qed.

End page.

(** ** What is staged *)

(** The catalog [s] with extents [E] and inodes [I]. *)
Definition built (s : Catalog) (E : gmap ExtentId ExtentMeta) (I : FsId → gmap N Inode) : Catalog :=
  s <| extents := E |> <| filesystems := map_imap (λ id f, Some (f <| inodes := I id |>)) (filesystems s) |>.

Lemma built_header s : header_of s = built s ∅ (λ _, ∅).
Proof.
  assert ((λ f, f <| inodes := ∅ |>) <$> filesystems s = map_imap (λ id f, Some (f <| inodes := ∅ |>)) (filesystems s)) as E.
  { apply map_eq. intros id. rewrite map_lookup_imap, lookup_fmap. by destruct (filesystems s !! id). }
  unfold header_of, built. rewrite <- E. done.
Qed.

Lemma built_whole s I : (∀ id f, filesystems s !! id = Some f → I id = inodes f) → built s (extents s) I = s.
Proof.
  intros HI. unfold built. assert (map_imap (λ id f, Some (f <| inodes := I id |>)) (filesystems s) = filesystems s) as ->.
  { apply map_eq. intros id. rewrite map_lookup_imap. destruct (filesystems s !! id) as [f|] eqn:E; [|done]. simpl. rewrite (HI id f E). by destruct f. }
  by destruct s.
Qed.

Definition add_inodes (I : FsId → gmap N Inode) (fs : FsId) (l : list Inode) : FsId → gmap N Inode :=
  λ id, if String.eqb id fs then foldl (λ m x, <[ino x := x]> m) (I id) l else I id.

Lemma stage_extents s E I l : stage (Extents l) (built s E I) = Some (built s (foldl (λ m x, <[x.1 := x.2]> m) E l) I).
Proof. done. Qed.

Lemma stage_inodes s E I fs l c : stage (Inodes fs l) (built s E I) = Some c → c = built s E (add_inodes I fs l).
Proof.
  unfold stage. change (filesystems (built s E I)) with (map_imap (λ id f, Some (f <| inodes := I id |>)) (filesystems s)).
  rewrite map_lookup_imap. destruct (filesystems s !! fs) as [f|] eqn:Hf; [|done]. intros [= <-].
  assert (<[fs := (f <| inodes := I fs |>) <| inodes ::= λ m, foldl (λ m x, <[ino x := x]> m) m l |>]>
      (map_imap (λ id f, Some (f <| inodes := I id |>)) (filesystems s))
    = map_imap (λ id f, Some (f <| inodes := add_inodes I fs l id |>)) (filesystems s)) as EQ.
  { apply map_eq. intros id. rewrite map_lookup_imap. unfold add_inodes. destruct (decide (id = fs)) as [->|Hne].
    - by rewrite lookup_insert_eq, Hf, String.eqb_refl.
    - rewrite lookup_insert_ne, map_lookup_imap by done. by rewrite (proj2 (String.eqb_neq _ _) Hne). }
  unfold built. rewrite <- EQ. done.
Qed.

Lemma fill {K V A} `{Countable K} (key : A → K) (val : A → V) (M : gmap K V) l E :
  E ⊆ M → (∀ x, x ∈ l → M !! key x = Some (val x)) →
  foldl (λ m x, <[key x := val x]> m) E l ⊆ M ∧
  ∀ k, is_Some (E !! k) ∨ (∃ x, x ∈ l ∧ key x = k) → is_Some (foldl (λ m x, <[key x := val x]> m) E l !! k).
Proof.
  revert E. induction l as [|x l IH]; intros E HE Hl; simpl.
  - split; [done|]. intros k [?|(x & Hx & _)]; [done|by apply elem_of_nil in Hx].
  - destruct (IH (<[key x := val x]> E)) as [H1 H2].
    { apply insert_subseteq_l; [apply Hl; by left|done]. }
    { intros y Hy. apply Hl. by right. }
    split; [done|]. intros k Hk. apply H2. destruct (decide (key x = k)) as [<-|Hne]; [left; by rewrite lookup_insert_eq|].
    rewrite lookup_insert_ne by done. destruct Hk as [|(y & [->|Hy]%elem_of_cons & Hk)]; [by left|done|right; by exists y].
Qed.

(** Extents [E] and inodes [I] are of [s], and all that precede the cursor. *)
Record covers (s : Catalog) (next : Cursor) (E : gmap ExtentId ExtentMeta) (I : FsId → gmap N Inode) : Prop := {
  cv_extents : E ⊆ extents s;
  cv_inodes id f : filesystems s !! id = Some f → I id ⊆ inodes f;
  cv_next :
    match next with
    | ExtentsAfter after => ∀ k, is_Some (extents s !! k) → after_key after k = false → is_Some (E !! k)
    | InodesFrom j from =>
        E = extents s ∧
        ∀ j' id f i, bt_keys (filesystems s) !! j' = Some id → filesystems s !! id = Some f → is_Some (inodes f !! i) →
          (j' < j)%nat ∨ (j' = j ∧ i < from) → is_Some (I id !! i)
    | CDone | CEnd => E = extents s ∧ ∀ id f, filesystems s !! id = Some f → I id = inodes f
    end;
}.

Lemma full_submap {K V} `{Countable K} (m m' : gmap K V) : m ⊆ m' → (∀ k, is_Some (m' !! k) → is_Some (m !! k)) → m = m'.
Proof.
  intros Hs Hf. apply map_eq. intros k. destruct (m !! k) as [x|] eqn:E; [symmetry; by eapply lookup_weaken|].
  destruct (m' !! k) as [y|] eqn:E'; [|done]. destruct (Hf k) as [z Hz]; [by eexists|]. congruence.
Qed.

(** What the chunk adds. *)
Definition added (x : SnapshotChunk) (E : gmap ExtentId ExtentMeta) (I : FsId → gmap N Inode) : gmap ExtentId ExtentMeta * (FsId → gmap N Inode) :=
  match x with
  | Extents l => (foldl (λ m x, <[x.1 := x.2]> m) E l, I)
  | Inodes fs l => (E, add_inodes I fs l)
  | _ => (E, I)
  end.

Lemma covers_extents s after E I page :
  covers s (ExtentsAfter after) E I → range_page (after_key after) CHUNK_EXTENTS (extents s) = page → page ≠ [] →
  covers s (ExtentsAfter (fst <$> list.last page)) (foldl (λ m x, <[x.1 := x.2]> m) E page) I.
Proof.
  intros [HE HI Hn] Hp Hne. destruct (fill fst snd (extents s) page E HE) as [H1 H2].
  { intros [k x] Hx. rewrite <- Hp in Hx. by apply page_in in Hx as [_ Hx]. }
  split; [done..|]. intros k [x Hx] Hk. apply H2. destruct (list.last page) as [[l y]|] eqn:Hl; [|by apply last_None in Hl]. simpl in Hk.
  destruct (after_key after k) eqn:Ha; [|left; apply Hn; [by eexists|done]]. right. exists (k, x). split; [|done]. rewrite <- Hp in *.
  eapply page_covers; [exact Hl| |done..]. apply bool_decide_eq_false in Hk. destruct (total bt_le k l) as [|Hle]; [done|].
  destruct (decide (l = k)) as [->|Hlk]; [done|]. by destruct Hk.
Qed.

Lemma covers_no_extents s after E I :
  covers s (ExtentsAfter after) E I → range_page (after_key after) CHUNK_EXTENTS (extents s) = [] → covers s (InodesFrom 0 0) E I.
Proof.
  intros [HE HI Hn] Hp. split; [done..|]. split; [|intros; lia]. apply full_submap; [done|]. intros k [x Hx].
  destruct (after_key after k) eqn:Ha; [|apply Hn; [by eexists|done]]. exfalso. eapply (page_nil _ _ _ Hp); [unfold CHUNK_EXTENTS; lia|done..].
Qed.

Lemma covers_end s j from E I : covers s (InodesFrom j from) E I → bt_keys (filesystems s) !! j = None → covers s CDone E I.
Proof.
  intros [HE HI [HE' Hn]] Hj. apply lookup_ge_None_1 in Hj. split; [done..|]. split; [done|]. intros id f Hf. apply full_submap; [by apply HI|].
  intros i Hi. assert (id ∈ bt_keys (filesystems s)) as [j' Hj']%list_elem_of_lookup by (apply elem_of_bt_keys; by eexists).
  eapply Hn; [done..|]. left. apply lookup_lt_Some in Hj'. lia.
Qed.

Lemma covers_ext s next E I I' : (∀ id, I id = I' id) → covers s next E I → covers s next E I'.
Proof.
  intros HI [H1 H2 H3]. split; [done|intros id f; rewrite <- HI; apply H2|]. destruct next; try done.
  - destruct H3 as [H3 H4]. split; [done|]. intros j' id f i. rewrite <- HI. apply H4.
  - destruct H3 as [H3 H4]. split; [done|]. intros id f. rewrite <- HI. apply H4.
  - destruct H3 as [H3 H4]. split; [done|]. intros id f. rewrite <- HI. apply H4.
Qed.

Section inodes_page.
Context (f : FsMeta) (from : N) (Hk : keyed_fs f).
Abbreviation page := (page_full f from CHUNK_INODES).

Lemma inodes_page_in x : x ∈ page → inodes f !! ino x = Some x.
Proof.
  unfold page_full. intros ([i y] & -> & Hy)%list_elem_of_fmap. apply page_in in Hy as [_ Hy]. simpl. by rewrite (Hk i y Hy).
Qed.

Lemma inodes_page_upto x y i : list.last page = Some x → from ≤ i → i ≤ ino x → inodes f !! i = Some y → ∃ z, z ∈ page ∧ ino z = i.
Proof.
  unfold page_full. rewrite fmap_last. intros Hl Hfi Hi Hy. destruct (list.last (range_page _ _ _)) as [[k z]|] eqn:E; [|done].
  injection Hl as <-. assert ((i, y) ∈ range_page (λ i, from <=? i) CHUNK_INODES (inodes f)) as Hin.
  { eapply page_covers; [exact E| |by apply N.leb_le|done]. simpl in *.
    assert ((k, z) ∈ range_page (λ i, from <=? i) CHUNK_INODES (inodes f)) as Hz by (apply list_elem_of_lookup; rewrite last_lookup in E; by eexists).
    apply page_in in Hz as [_ Hz]. by rewrite (Hk k z Hz) in Hi. }
  exists y. split; [apply list_elem_of_fmap; by exists (i, y)|]. by apply (Hk i).
Qed.

Lemma inodes_page_all y i : length page ≠ CHUNK_INODES → from ≤ i → inodes f !! i = Some y → ∃ z, z ∈ page ∧ ino z = i.
Proof.
  unfold page_full. rewrite length_fmap. intros Hl Hfi Hy. assert ((i, y) ∈ range_page (λ i, from <=? i) CHUNK_INODES (inodes f)) as Hin.
  { apply page_short; [|by apply N.leb_le|done]. unfold range_page in *. rewrite length_take in *. lia. }
  exists y. split; [apply list_elem_of_fmap; by exists (i, y)|]. by apply (Hk i).
Qed.

End inodes_page.

Lemma after_page_covers f from j page i y j0 from0 :
  keyed_fs f → page_full f from CHUNK_INODES = page → after_page j page = InodesFrom j0 from0 → from ≤ i → inodes f !! i = Some y →
  (j < j0)%nat ∨ (j = j0 ∧ i < from0) → ∃ z, z ∈ page ∧ ino z = i.
Proof.
  intros Hk <- Ha Hi Hy Hj. unfold after_page in Ha. destruct (list.last _) as [x|] eqn:Hl.
  - destruct (Nat.eqb_spec (length (page_full f from CHUNK_INODES)) CHUNK_INODES) as [|Hne]; [|by eapply inodes_page_all].
    injection Ha as <- <-. destruct Hj as [|[_ Hj]]; [lia|]. eapply inodes_page_upto; [done..| |done]. unfold u64_add in Hj.
    pose proof (N.Div0.mod_le (ino x + 1) u64_size). lia.
  - apply last_None in Hl. eapply inodes_page_all; [done| |done..]. rewrite Hl. unfold CHUNK_INODES. simpl. lia.
Qed.

Lemma after_page_from j page : ∃ j0 from0, after_page j page = InodesFrom j0 from0 ∧ (j ≤ j0)%nat ∧ (j0 = j ∨ j0 = S j ∧ from0 = 0).
Proof. unfold after_page. destruct (list.last page); [destruct (_ =? _)%nat|]; eexists _, _; (split; [done|]); lia. Qed.

Lemma add_inodes_spec s I id f l :
  keyed_fs f → filesystems s !! id = Some f → (∀ id f, filesystems s !! id = Some f → I id ⊆ inodes f) → (∀ x, x ∈ l → inodes f !! ino x = Some x) →
  (∀ id' f', filesystems s !! id' = Some f' → add_inodes I id l id' ⊆ inodes f') ∧
  (∀ id' i, is_Some (I id' !! i) ∨ (id' = id ∧ ∃ x, x ∈ l ∧ ino x = i) → is_Some (add_inodes I id l id' !! i)).
Proof.
  intros Hk Hf HI Hl. destruct (fill ino (λ x, x) (inodes f) l (I id) (HI id f Hf) Hl) as [H1 H2]. unfold add_inodes. split.
  - intros id' f' Hf'. destruct (String.eqb_spec id' id) as [->|]; [|by apply HI]. assert (f' = f) as -> by congruence. exact H1.
  - intros id' i Hi. destruct (String.eqb_spec id' id) as [->|Hne]; [|destruct Hi as [|[? _]]; done]. apply H2. destruct Hi as [|[_ ?]]; auto.
Qed.

Lemma covers_inodes s j from E I id f page :
  keyed_fs f → covers s (InodesFrom j from) E I → bt_keys (filesystems s) !! j = Some id → filesystems s !! id = Some f →
  page_full f from CHUNK_INODES = page → covers s (after_page j page) E (add_inodes I id page).
Proof.
  intros Hk [HE HI [HE' Hn]] Hj Hf Hp. destruct (add_inodes_spec s I id f page Hk Hf HI) as [Ha1 Ha2].
  { intros x Hx. rewrite <- Hp in Hx. by eapply inodes_page_in. }
  split; [done..|]. destruct (after_page_from j page) as (j0 & from0 & E0 & Hle & Hcase). rewrite E0. split; [done|].
  intros j' id' f' i Hj' Hf' [y Hy] Hlt. apply Ha2. destruct (decide (j' = j)) as [->|Hne].
  - assert (id' = id) as -> by congruence. assert (f' = f) as -> by congruence. destruct (decide (i < from)) as [Hi|Hi].
    + left. eapply Hn; [done..|by eexists|]. right. done.
    + right. split; [done|]. eapply (after_page_covers f from j page i y j0 from0); [done..|lia|done|]. lia.
  - left. eapply Hn; [done..|by eexists|]. left. lia.
Qed.

Lemma advance_covers fuel s next E I x next' :
  keyed s → covers s next E I → advance_loop fuel s next = Ok (Some (x, next')) →
  header x = None ∧ covers s next' (added x E I).1 (added x E I).2.
Proof.
  intros [Hks _]. revert next E I. induction fuel as [|fuel IH]; intros next E I Hc; [done|]. cbn [advance_loop].
  destruct next as [after|j from| |].
  - destruct (range_page _ _ _) as [|y l] eqn:Hp; [apply IH; by eapply covers_no_extents|]. intros [= <- <-]. split; [done|].
    by eapply (covers_extents s after E I (y :: l)).
  - destruct (bt_keys (filesystems s) !! j) as [id|] eqn:Hj; [|apply IH; by eapply covers_end].
    assert (id ∈ bt_keys (filesystems s)) as [f Hf]%elem_of_bt_keys by (apply list_elem_of_lookup; by eexists). rewrite Hf.
    pose proof (covers_inodes s j from E I id f _ (Hks id f Hf) Hc Hj Hf eq_refl) as Hc'.
    destruct (page_full f from CHUNK_INODES) as [|y l] eqn:Hp.
    + apply IH. eapply covers_ext; [|exact Hc']. intros id'. unfold add_inodes. simpl. by destruct (String.eqb id' id).
    + intros [= <- <-]. done.
  - intros [= <- <-]. split; [done|]. destruct Hc. by split.
  - done.
Qed.

Lemma advance_kind fuel s next x next' :
  advance_loop fuel s next = Ok (Some (x, next')) →
  header x = None ∧ (is_done x = true ↔ next' = CEnd) ∧ match x with Inodes fs _ => is_Some (filesystems s !! fs) | _ => True end.
Proof.
  revert next. induction fuel as [|fuel IH]; intros next; [done|]. cbn [advance_loop]. destruct next as [after|j from| |]; [| |by intros [= <- <-]|done].
  - destruct (range_page _ _ _); [apply IH|by intros [= <- <-]].
  - destruct (bt_keys (filesystems s) !! j) as [id|] eqn:Hj; [|apply IH].
    destruct (match filesystems s !! id with Some f => _ | None => _ end) as [|y l]; [apply IH|].
    intros [= <- <-]. split; [done|]. split; [by destruct (after_page_from j (y :: l)) as (j0 & f0 & -> & _)|].
    apply elem_of_bt_keys, list_elem_of_lookup. by eexists.
Qed.

(** ** Ends *)

Section ends.
Context (s : Catalog).
Abbreviation keys := (bt_keys (filesystems s)).

Definition left_in (id : FsId) (from : N) : nat :=
  match filesystems s !! id with Some f => length (List.filter (λ x : N * Inode, from <=? x.1) (bt_entries (inodes f))) | None => 0%nat end.
Definition left_after (k : nat) : nat := sum_list_with (λ id, left_in id 0) (drop k keys).

(** What is left to send, with a step for each change of the cursor. *)
Definition steps (next : Cursor) : nat :=
  match next with
  | ExtentsAfter after =>
      (length (List.filter (λ x : ExtentId * ExtentMeta, after_key after (x.1)) (bt_entries (extents s))) + left_after 0 + length keys + 3)%nat
  | InodesFrom k from => (match keys !! k with Some id => left_in id from | None => 0 end + left_after (S k) + (length keys - k) + 2)%nat
  | CDone => 1%nat
  | CEnd => 0%nat
  end.

Lemma steps_next k : (k < length keys)%nat → (steps (InodesFrom (S k) 0) < steps (InodesFrom k 0))%nat ∧ ∀ from, (steps (InodesFrom (S k) 0) < steps (InodesFrom k from))%nat.
Proof.
  intros Hk. assert ((match keys !! S k with Some id => left_in id 0 | None => 0 end + left_after (S (S k)))%nat = left_after (S k)) as E.
  { unfold left_after. destruct (keys !! S k) as [id|] eqn:Hid; [by rewrite (drop_S _ _ _ Hid)|]. apply lookup_ge_None_1 in Hid. by rewrite !drop_ge by lia. }
  split; intros; simpl; rewrite E; lia.
Qed.

(** Fewer steps are left after each turn of the loop. *)
Lemma filter_shorter {A} (p q : A → bool) (l : list A) x :
  (∀ y, q y = true → p y = true) → x ∈ l → p x = true → q x = false → (length (List.filter q l) < length (List.filter p l))%nat.
Proof.
  intros Hpq. assert (∀ l, (length (List.filter q l) ≤ length (List.filter p l))%nat) as Hle.
  { clear l. induction l as [|y l IH]; simpl; [done|]. specialize (Hpq y). destruct (q y), (p y); simpl; lia. }
  induction l as [|y l IH]; intros Hx Hp Hq; [by apply elem_of_nil in Hx|]. apply elem_of_cons in Hx as [<-|Hx]; simpl.
  - rewrite Hp, Hq. simpl. specialize (Hle l). lia.
  - specialize (IH Hx Hp Hq). specialize (Hpq y). destruct (q y), (p y); simpl; lia.
Qed.

Lemma steps_extents after page :
  range_page (after_key after) CHUNK_EXTENTS (extents s) = page → page ≠ [] → (steps (ExtentsAfter (fst <$> list.last page)) < steps (ExtentsAfter after))%nat.
Proof.
  intros Hp Hne. destruct (list.last page) as [[k x]|] eqn:Hl; [|by apply last_None in Hl]. simpl.
  assert ((k, x) ∈ page) as Hin by (apply list_elem_of_lookup; rewrite last_lookup in Hl; by eexists). rewrite <- Hp in Hin.
  apply page_in in Hin as [Ha Hx].
  pose proof (filter_shorter (λ x : ExtentId * ExtentMeta, after_key after (x.1)) (λ x, bool_decide (bt_lt k (x.1))) (bt_entries (extents s)) (k, x)) as Hs.
  apply Nat.add_lt_mono_r, Nat.add_lt_mono_r, Nat.add_lt_mono_r, Hs; [|by apply elem_of_bt_entries|done|].
  - intros [k' y] Hk%bool_decide_eq_true. simpl in *. destruct after as [a|]; [|done]. simpl in *. apply bool_decide_eq_true in Ha. apply bool_decide_eq_true.
    destruct Ha as [Ha Hak], Hk as [Hk Hkk]. split; [by etrans|]. intros ->. apply Hkk. by apply (anti_symm bt_le).
  - apply bool_decide_eq_false. by intros [_ ?].
Qed.

(** No inode has the largest number. *)
Definition numbers_end : Prop := ∀ id f i, filesystems s !! id = Some f → is_Some (inodes f !! i) → i < u64_max.

Lemma steps_page k id f from page :
  keyed s → numbers_end → keys !! k = Some id → filesystems s !! id = Some f → page_full f from CHUNK_INODES = page →
  (steps (after_page k page) < steps (InodesFrom k from))%nat.
Proof.
  intros [Hks _] Hend Hk Hf Hp. pose proof (lookup_lt_Some _ _ _ Hk) as Hlt. destruct (steps_next k Hlt) as [_ Hnext]. unfold after_page.
  destruct (list.last page) as [x|] eqn:Hl; [|apply Hnext]. destruct (_ =? _)%nat; [|apply Hnext]. simpl. rewrite Hk.
  apply Nat.add_lt_mono_r, Nat.add_lt_mono_r, Nat.add_lt_mono_r. unfold left_in. rewrite Hf.
  assert (x ∈ page) as Hin by (apply list_elem_of_lookup; rewrite last_lookup in Hl; by eexists). rewrite <- Hp in Hin. unfold page_full in Hin.
  apply list_elem_of_fmap in Hin as ([i y] & -> & Hy). apply page_in in Hy as [Hi Hy]. simpl. pose proof (Hks id f Hf i y Hy) as Hiy. simpl in Hiy. rewrite Hiy.
  pose proof (Hend id f i Hf ltac:(by eexists)) as Hmax.
  assert (u64_add i 1 = i + 1) as -> by (unfold u64_add; apply N.mod_small; unfold u64_max, u64_size in *; lia).
  apply (filter_shorter _ _ _ (i, y)); simpl.
  - intros [j z]. simpl. rewrite !N.leb_le. apply N.leb_le in Hi. lia.
  - by apply elem_of_bt_entries.
  - done.
  - apply N.leb_gt. lia.
Qed.

Lemma advance_steps fuel next x next' :
  keyed s → numbers_end → advance_loop fuel s next = Ok (Some (x, next')) → (steps next' < steps next)%nat.
Proof.
  intros Hk Hend. revert next. induction fuel as [|fuel IH]; intros next; [done|]. cbn [advance_loop]. destruct next as [after|j from| |].
  - destruct (range_page _ _ _) as [|y l] eqn:Hp.
    + intros Hs%IH. etrans; [exact Hs|]. simpl. unfold left_after. rewrite drop_0.
      destruct keys as [|id ks]; simpl; rewrite ?drop_0; lia.
    + intros [= <- <-]. by apply (steps_extents after (y :: l)).
  - destruct (keys !! j) as [id|] eqn:Hj; [|intros Hs%IH; etrans; [exact Hs|]; simpl; lia].
    assert (id ∈ keys) as [f Hf]%elem_of_bt_keys by (apply list_elem_of_lookup; by eexists). rewrite Hf.
    pose proof (steps_page j id f from _ Hk Hend Hj Hf eq_refl) as Hs. destruct (page_full f from CHUNK_INODES) as [|y l] eqn:Hp.
    + intros Hs'%IH. lia.
    + intros [= <- <-]. exact Hs.
  - intros [= <- <-]. simpl. lia.
  - done.
Qed.

(** The loop of [advance] ends. *)
Definition turns (next : Cursor) : nat :=
  match next with ExtentsAfter _ => length keys + 3 | InodesFrom k _ => (length keys - k) + 2 | _ => 1 end.

Lemma advance_returns fuel next : (turns next ≤ fuel)%nat → ∃ r, advance_loop fuel s next = Ok r ∧ (r = None → next = CEnd).
Proof.
  revert next. induction fuel as [|fuel IH]; intros next Hf; [destruct next; simpl in Hf; lia|]. cbn [advance_loop]. destruct next as [after|j from| |].
  - destruct (range_page _ _ _) as [|y l]; [|by eexists]. destruct (IH (InodesFrom 0 0)) as (r & -> & Hr); [simpl in *; lia|]. exists r. split; [done|].
    intros E. by specialize (Hr E).
  - destruct (keys !! j) as [id|] eqn:Hj; [|destruct (IH CDone) as (r & -> & Hr); [simpl in *; lia|]; exists r; split; [done|]; intros E; by specialize (Hr E)].
    apply lookup_lt_Some in Hj. destruct (match filesystems s !! id with Some f => page_full f from CHUNK_INODES | None => [] end) as [|y l]; [|by eexists].
    destruct (IH (InodesFrom (S j) 0)) as (r & E & Hr); [simpl in *; lia|]. exists r. split; [exact E|]. intros E'. by specialize (Hr E').
  - by eexists.
  - by eexists.
Qed.

End ends.

(** ** The catalog as a state machine *)

(** [let _ = ..]: what a command reports is not looked at. *)
Definition outcome {A} (x : Catalog * res MetaError A) : Catalog * res MetaError () :=
  (x.1, match x.2 with Ok _ => Ok () | Err e => Err e | Panic => Panic end).

#[export] Instance catalog_machine : Machine Catalog := {|
  m_command := MetaCommand;
  m_error := MetaError;
  m_apply t i cmd c := outcome (apply t i cmd c);
  m_apply_committed t i cmd c := outcome (apply_committed t i cmd c);
  m_applied := applied_index;
  m_term := current_term;
  m_membership := membership;
  m_addrs := raft_addrs;
  m_empty := empty_catalog;
  m_noop := Noop;
  m_change := ChangeMembership;
  m_changes := changes;
  x_chunk := SnapshotChunk;
  x_cursor := Cursor;
  x_start := start;
  x_advance := advance;
  x_is_done := is_done;
  x_header := header;
  x_stage := stage;
|}.

Lemma staged_covers s q p x k : keyed s → staged_at s q p → chunk_at s q x k → ∃ E I, p = built s E I ∧ covers s k E I.
Proof.
  intros Hs Hst. revert x k. induction Hst as [x0 k0 p E0 Hh|q x0 k0 p p' _ IH Hc0 Hd Hp]; intros x k Hc.
  - apply chunk_at_inv in Hc. injection Hc as <- <-. injection E0 as <- <-. injection Hh as <-. exists ∅, (λ _, ∅). split; [apply built_header|].
    split; [apply map_empty_subseteq|intros; apply map_empty_subseteq|done].
  - destruct (chunk_at_fun s _ _ _ _ _ Hc0 Hc) as [<- <-]. apply chunk_at_inv in Hc0. destruct (q + 1) as [|q'] eqn:Eq; [lia|].
    destruct Hc0 as (x1 & k1 & Hc1 & _ & Ha). replace (N.pos q' - 1) with q in Hc1 by lia. destruct (IH x1 k1 Hc1) as (E & I & -> & Hcov).
    destruct (advance_covers _ s k1 E I x0 k0 Hs Hcov Ha) as [Hx Hcov']. exists (added x0 E I).1, (added x0 E I).2. split; [|done].
    destruct x0 as [c|l|fs l|]; try done; [by injection Hp as <-|]. by apply stage_inodes.
Qed.

Lemma transfer_whole s q p x k : keyed s → staged_at s q p → chunk_at s (q + 1) x k → is_done x = true → p = s.
Proof.
  intros Hs Hst Hc Hd. apply chunk_at_inv in Hc. destruct (q + 1) as [|q'] eqn:Eq; [lia|]. destruct Hc as (x1 & k1 & Hc1 & _ & Ha).
  replace (N.pos q' - 1) with q in Hc1 by lia. destruct (staged_covers s q p x1 k1 Hs Hst Hc1) as (E & I & -> & Hcov).
  destruct (advance_covers _ s k1 E I x k Hs Hcov Ha) as [_ Hcov']. destruct x; try done. simpl in Hcov'.
  assert (k = CEnd) as -> by (by apply (advance_kind _ _ _ _ _ Ha)).
  destruct Hcov' as [_ _ [-> HI]]. by apply built_whole.
Qed.

Lemma apply_reaches t i cmd s s' l : apply t i cmd s = (s', Ok l) → i ≤ applied_index s'.
Proof.
  unfold apply, apply_inner. destruct (N.leb_spec i (applied_index s)) as [Hi|_]; [by intros [= <- _]|].
  destruct (exec t cmd (Extents.mkCtx s [])) as [x [u|[]|]]; intros E; try done. by injection E as <- _.
Qed.

#[export] Instance catalog_laws : MachineLaws Catalog.
Proof.
  refine {| m_wf := keyed |}; try done.
  - intros t i c s s' r Hi E Hr. unfold m_apply_committed, catalog_machine, outcome in E. destruct (apply_committed t i c s) as [s1 r1] eqn:E1. simpl in E.
    injection E as <- <-. apply (committed_index t i c s s1 r1); [done..|]. by intros ->.
  - intros t i c s s' r Hc E. unfold m_apply_committed, catalog_machine, outcome in E. destruct (apply_committed t i c s) as [s1 r1] eqn:E1. simpl in E.
    injection E as <- <-. by eapply committed_members.
  - intros t i c s s' s'' E E'. unfold m_apply, m_apply_committed, catalog_machine, outcome in E, E'.
    destruct (apply t i c s) as [s1 [l| |]] eqn:E1; try done. injection E as <-. by rewrite (MetaSpec.apply_committed_old _ _ _ _ (apply_reaches _ _ _ _ _ _ E1)) in E'.
  - intros s x k h [= <- <-] [= <-]. done.
  - intros s k x k' E. by apply (advance_kind _ _ _ _ _ E).
  - intros s k E. destruct (advance_returns s (length (bt_keys (filesystems s)) + 4) k) as (r & E' & _); [destruct k; simpl; lia|].
    simpl in E. unfold advance in E. by rewrite E' in E.
  - intros x s s' E. destruct x; try done; simpl in E; [by injection E as <-|]. by destruct (filesystems s !! fs); [injection E as <-|].
  - intros t i c s s' r Hs E. unfold m_apply_committed, catalog_machine, outcome in E. destruct (apply_committed t i c s) as [s1 r1] eqn:E1. simpl in E.
    injection E as <- <-. by eapply committed_keyed.
  - apply transfer_whole.
Qed.

(** C14. A snapshot transfer ends, and exactly: when no inode has the largest number,
    the leader comes to the last chunk after finitely many, and what a follower
    has staged by then from the chunks before it is the leader's catalog, extent by
    extent and inode by inode. *)
Theorem transfer_ends (s : Catalog) :
  keyed s → numbers_end s → ∃ q p x k, staged_at s q p ∧ chunk_at s (q + 1) x k ∧ is_done x = true ∧ p = s.
Proof.
  intros Hs Hend.
  assert (∀ m q x k p, (steps s k ≤ m)%nat → chunk_at s q x k → is_done x = false → staged_at s q p → k ≠ CEnd →
    ∃ q p x k, staged_at s q p ∧ chunk_at s (q + 1) x k ∧ is_done x = true) as Hgo.
  { induction m as [|m IH]; intros q x k p Hm Hc Hd Hst Hk; [destruct k; simpl in Hm; try lia; done|].
    destruct (advance_returns s (length (bt_keys (filesystems s)) + 4) k) as (r & E & Hr); [destruct k; simpl; lia|].
    destruct r as [[x' k']|]; [|by destruct Hk; apply Hr]. assert (chunk_at s (q + 1) x' k') as Hc' by (by eapply chunk_next).
    pose proof (advance_kind _ _ _ _ _ E) as (Hh & Hdone & Hfs). destruct (is_done x') eqn:Hd'; [by exists q, p, x', k'|].
    destruct (staged_covers s q p x k Hs Hst Hc) as (EE & I & -> & Hcov).
    assert (∃ p', x_stage x' (built s EE I) = Some p') as [p' Hp'].
    { destruct x' as [c|l|fs l|]; try done; [by eexists|]. destruct Hfs as [f Hf]. simpl.
      rewrite map_lookup_imap, Hf. by eexists. }
    eapply (IH (q + 1) x' k' p'); [|done|done|by eapply staged_next|].
    - pose proof (advance_steps s _ k x' k' Hs Hend E). lia.
    - intros ->. by destruct Hdone as [_ Hdone]; specialize (Hdone eq_refl). }
  destruct (Hgo (steps s (ExtentsAfter None)) 0 (Header (header_of s)) (ExtentsAfter None) (header_of s)) as (q & p & x & k & Hst & Hc & Hd); try done.
  - by apply chunk_first.
  - by eapply staged_first.
  - exists q, p, x, k. split_and!; try done. by eapply transfer_whole.
Qed.

Definition demo_fs : Catalog := empty_catalog <| filesystems := {["f"%string := Namespace.new_fs "f" "fs" 0 None None]} |>.

Lemma transfer_ends_witness :
  ∃ q p x k, staged_at demo_fs q p ∧ chunk_at demo_fs (q + 1) x k ∧ is_done x = true ∧ p = demo_fs.
Proof.
  apply (transfer_ends demo_fs).
  - split; [|by intros ? ?]. apply map_Forall_singleton. unfold keyed_fs. by apply map_Forall_singleton.
  - intros id f i Hf Hi. change (filesystems demo_fs) with ({["f"%string := Namespace.new_fs "f" "fs" 0 None None]} : gmap FsId FsMeta) in Hf.
    apply lookup_singleton_Some in Hf as [_ <-]. destruct Hi as [y Hy]. simpl in Hy. apply lookup_singleton_Some in Hy as [<- _]. done.
Defined.

End RaftSnapshot.
