(* ===== verification/RaftCatalog.v ===== *)
(** * The replicated catalog ([metadata.rs], [raft.rs], [raft_snapshot.rs])

    Raft over the catalog: what [RaftAgree.v] shows of the log and [MetaSpec.v] of
    the commands hold together of every node of a metadata cluster. *)

From S2P Require Import Prelude Membership Wal WalSpec RaftLog RaftMachine Raft RaftCalc RaftVotes RaftCluster RaftSafe RaftAgree Leases Catalog Extents FsTree Replica Metadata CatalogKeys RaftSnapshot MetaSpace MetaRefs MetaSpec.

Module RaftCatalog.
Import Catalog Metadata RaftSnapshot Wal WalSpec Raft RaftLog RaftCluster RaftSafe RaftAgree.

Open Scope N_scope.

Abbreviation Entry := (WalRecord (m_command (S := Catalog))).

(** Every command meets its preconditions in the catalog the commands before it
    compute. *)
Definition accepted (L : list Entry) : Prop :=
  ∀ P e s, P ++ [e] `prefix_of` L → replay P = Some s → MetaSpec.accepts s (command e).

Lemma accepted_prefix P L : P `prefix_of` L → accepted L → accepted P.
Proof. intros Hp HL Q e s Hq. apply HL. by etrans. Qed.

Lemma committed_apply (e : Entry) s s' : committed e s = Some s' → ∃ r, Metadata.apply_committed (Wal.term e) (index e) (command e) s = (s', r).
Proof.
  unfold committed. simpl. unfold outcome. destruct (Metadata.apply_committed _ _ _ _) as [s1 [l|er|]]; intros [= <-]; by eexists.
Qed.

(** The catalogs of [MetaSpec.reachable] are those of accepted logs. *)
Lemma replay_reachable L s : accepted L → replay L = Some s → MetaSpec.reachable s.
Proof.
  revert s. induction L as [|e L IH] using rev_ind; intros s HL Hs; [injection Hs as <-; constructor|].
  rewrite replay_snoc in Hs. destruct (replay L) as [s1|] eqn:E; [|done]. simpl in Hs.
  assert (MetaSpec.accepts s1 (command e)) as Ha by (by eapply (HL L)). specialize (IH s1 (accepted_prefix _ _ (prefix_app_r _ _ _ (reflexivity L)) HL) eq_refl).
  apply committed_apply in Hs as [r Hr]. by eapply MetaSpec.reach_apply.
Qed.

(** C3. A metadata cluster keeps one sound catalog.  Two nodes that have applied the
    same index have the same catalog.  The commands committed anywhere form one
    log, and if each met its preconditions when it was applied then at every node
    both the catalog and the checkpoint satisfy the invariant of the metadata state
    machine: references are counted exactly, no space is shared, and the
    configuration has voters. *)
Theorem replicas_sound (V : gset NodeId) (c : Cluster (S := Catalog)) :
  RaftCluster.reachable V c →
  (∀ v w n m, nodes c !! v = Some n → nodes c !! w = Some m →
    applied_index (catalog n) = applied_index (catalog m) → catalog n = catalog m) ∧
  ∃ L : list Entry, len L = top_commit c ∧ (∀ v n, nodes c !! v = Some n → applies L n) ∧
    (accepted L → ∀ v n, nodes c !! v = Some n → MetaSpec.catalog_ok (catalog n) ∧ MetaSpec.catalog_ok (stored n)).
Proof.
  intros Hc. destruct (one_log V c Hc) as (L & HL & Hap). split.
  - intros v w n m Hn Hm E. apply Hap in Hn as [_ [_ Hn] _ _], Hm as [_ [_ Hm] _ _]. simpl in *. rewrite E, Hm in Hn. by injection Hn.
  - exists L. split; [done|]. split; [done|]. intros Hacc v n Hn. apply Hap in Hn as [_ [_ H1] [_ H2] _].
    split; apply MetaSpec.reachable_ok; eapply replay_reachable; [|done| |done]; (eapply accepted_prefix; [apply upto_prefix|done]).
Qed.

(** ** Operations that return

    The catalog panics on a committed command only when some command of the log did
    not meet its preconditions. *)
Definition unmet (n : RaftNode (S := Catalog)) : Prop :=
  ∃ L : list Entry, applies L n ∧ len L = commit_index n ∧ ¬ accepted L.

Lemma blocked_unmet n : blocked n → unmet n.
Proof.
  intros (L & e & Ha & Hl & Hp & Hn). exists L. split; [done|]. split; [done|]. intros Hacc. destruct (ap_catalog _ _ Ha) as [_ Hs]. simpl in *.
  pose proof (replay_reachable _ _ (accepted_prefix _ _ (upto_prefix _ _) Hacc) Hs) as Hr. pose proof (Hacc _ _ _ Hp Hs) as He.
  revert Hn. unfold committed. simpl. unfold outcome. destruct (N.leb_spec (index e) (applied_index (catalog n))) as [Hi|Hi].
  - by rewrite MetaSpec.apply_committed_old.
  - rewrite MetaSpec.apply_committed_exec by done. pose proof (MetaSpec.exec_ok (Wal.term e) (command e) _ (MetaSpec.reachable_ok _ Hr) He) as Hx.
    by destruct (Metadata.exec _ _ _) as [x [u|er|]].
Qed.

Lemma orderly_mono {A} (Q Q' : _ → Prop) (x : RaftNode (S := Catalog) * res (RaftError (S := Catalog)) A) : (∀ n, Q n → Q' n) → orderly Q x → orderly Q' x.
Proof. destruct x as [n [a|e|]]; simpl; auto. Qed.


(** ** A run in which a volume is created *)

Definition create_v : list (Move (S := Catalog)) :=
  [Do (S := Catalog) "a" (APropose (S := Catalog) (CreateVolume "v" "vol" 65536)); Do "a"%string AFlush; Recv 11; Do "b"%string AFlush; Recv 13].

Definition with_volume : Cluster (S := Catalog) := foldl exec three (elect_a ++ replicate_a ++ create_v).

Definition volume_log : list Entry := [mkRecord 1 1 (m_noop (S := Catalog)); mkRecord 1 2 (CreateVolume "v" "vol" 65536)].

Lemma volume_log_accepted : accepted volume_log.
Proof.
  intros P e s Hp _. assert (e ∈ volume_log) as He by (eapply elem_of_prefix; [|exact Hp]; set_solver).
  unfold volume_log in He. repeat (apply elem_of_cons in He as [->|He]; [by repeat split|]). by apply elem_of_nil in He.
Qed.

Lemma replicas_sound_witness :
  ∃ n, nodes with_volume !! "a"%string = Some n ∧ is_Some (volumes (catalog n) !! "v"%string) ∧ MetaSpec.catalog_ok (catalog n).
Proof.
  assert ((λ n, (commit_index n, entry n 1, entry n 2, bool_decide (is_Some (volumes (catalog n) !! "v"%string)))) <$> nodes with_volume !! "a"%string =
    Some (2, volume_log !! 0%nat, volume_log !! 1%nat, true)) as Ha by (vm_compute; done).
  assert (top_commit with_volume = 2) as Ht by (vm_compute; done).
  apply fmap_Some in Ha as (n & Ha & [= Hc H1 H2 Hv]). exists n. split; [exact Ha|]. split; [by apply (bool_decide_eq_true_1 _ (eq_sym Hv))|].
  destruct (replicas_sound voters3 with_volume) as (_ & L & HL & Hap & Hok); [exists three; exact (conj three_starts (exec_steps _ _))|].
  destruct (Hap "a"%string n Ha) as [_ _ _ Hent].
  assert (L !! 0%nat = volume_log !! 0%nat) as E1 by (apply (Hent 1); [rewrite <- Hc; lia|exact (eq_sym H1)]).
  assert (L !! 1%nat = volume_log !! 1%nat) as E2 by (apply (Hent 2); [rewrite <- Hc; lia|exact (eq_sym H2)]).
  assert (L = volume_log) as ->.
  { rewrite Ht in HL. unfold len in HL. destruct L as [|x [|y [|z L]]]; simpl in HL; try lia. injection E1 as ->. by injection E2 as ->. }
  exact (proj1 (Hok volume_log_accepted "a"%string n Ha)).
Defined.

Definition propose_delete (n : RaftNode (S := Catalog)) : option (N * N) :=
  match propose (S := Catalog) (DeleteVolume "v") n with (n', Ok i) => Some (i, len (log n')) | _ => None end.


End RaftCatalog.
