(* ===== verification/RaftReads.v ===== *)
(** * Read barriers across a restart ([raft.rs], [raft_server.rs])

    A node numbers its read barriers from 1 again after a restart, and an answer
    is matched by number and term only.  A run shows what follows. *)

From S2P Require Import Prelude Membership Wal WalSpec RaftLog RaftMachine Raft RaftCalc RaftVotes RaftCluster RaftAgree.

Module RaftReads.
Import Wal WalSpec Raft RaftCluster RaftAgree.

Open Scope N_scope.

(** The barrier a node starts has number [id]; what it waits for has come. *)
Definition starts_barrier (n : RaftNode (S := Count)) (id : N) : Prop := (read_index n).2 = Ok id.
Definition answered_with (n : RaftNode (S := Count)) (id i : N) : Prop := (read_result id n).2 = Ok (Some (Some i)).

(** [b] starts a barrier, and [a] answers it; the answer (message 16) is under way
    when an entry is committed. *)
Definition ask_and_commit : list (Move (S := Count)) :=
  [Do "a" AFlush; Recv 9; Do "b" AFlush; Do "b" AReadIndex; Do "b" AFlush; Recv 12; Do "a" AFlush; Recv 13; Do "b" AFlush; Recv 15; Do "a" AFlush;
   Do (S := Count) "a" (APropose (S := Count) CIncr); Do "a" AFlush; Recv 17; Do "b" AFlush; Recv 19; Do "a" AFlush]%string.
Definition committed_two : Cluster := foldl exec replicated_by_a ask_and_commit.

(** [b] restarts with its whole log and hears from [a] again. *)
Definition rebooted_b : Cluster := move "b"%string (ACrash 2) committed_two.
Definition before_ask : Cluster := foldl exec rebooted_b [Recv 17; Do "b"%string AFlush].

(** It starts a barrier; the old answer arrives. *)
Definition after_answer : Cluster := foldl exec before_ask [Do "b"%string AReadIndex; Do "b"%string AFlush; Recv 16].

Lemma reboot_steps : rtc cstep committed_two rebooted_b.
Proof.
  apply rtc_once. constructor. intros n Hn.
  assert ((λ n, length (l_recs (wal n))) <$> nodes committed_two !! "b"%string = Some 2%nat) as Hl by (vm_compute; done).
  rewrite Hn in Hl. injection Hl as Hl. unfold survive. rewrite drop_ge; [constructor|exact (Nat.eq_le_incl _ _ Hl)].
Qed.

Lemma committed_two_reachable : reachable voters3 committed_two.
Proof.
  destruct replicated_reachable as (c & Hc & Hr). exists c. split; [exact Hc|]. etrans; [exact Hr|exact (exec_steps _ _)].
Qed.

(** C37. A barrier can be answered from the past: in a reachable cluster entry 2 is
    committed at the leader of the only term; a node then starts a barrier, and is
    told that index 1 is enough. *)
Theorem barrier_answered_stale :
  ∃ c c' na nb nb', reachable voters3 c ∧ rtc cstep c c' ∧
    nodes c !! "a"%string = Some na ∧ role na = Leader ∧ commit_index na = 2 ∧
    nodes c !! "b"%string = Some nb ∧ starts_barrier nb 1 ∧
    nodes c' !! "b"%string = Some nb' ∧ my_term nb' = my_term na ∧ answered_with nb' 1 1.
Proof.
  assert ((λ n, (role n, commit_index n, my_term n)) <$> nodes before_ask !! "a"%string = Some (Leader, 2, 1)) as Ha by (vm_compute; done).
  assert ((λ n, (read_index n).2) <$> nodes before_ask !! "b"%string = Some (Ok 1)) as Hb by (vm_compute; done).
  assert ((λ n, (my_term n, (read_result 1 n).2)) <$> nodes after_answer !! "b"%string = Some (1, Ok (Some (Some 1)))) as Hb' by (vm_compute; done).
  apply fmap_Some in Ha as (na & Ha & [= Hr Hc Ht]). apply fmap_Some in Hb as (nb & Hb & Hi). apply fmap_Some in Hb' as (nb' & Hb' & [= Ht' Hi']).
  exists before_ask, after_answer, na, nb, nb'. split.
  - destruct committed_two_reachable as (c & Hc0 & Hrt). exists c. split; [exact Hc0|]. etrans; [exact Hrt|]. etrans; [exact reboot_steps|exact (exec_steps _ _)].
  - split; [exact (exec_steps _ _)|]. split; [exact Ha|]. split; [exact (eq_sym Hr)|]. split; [exact (eq_sym Hc)|]. split; [exact Hb|].
    split; [exact (eq_sym Hi)|]. split; [exact Hb'|]. split; [congruence|]. exact (f_equal Ok (eq_sym Hi')).
Qed.

End RaftReads.
