(* ===== verification/Placement.v ===== *)
(** * Replica placement ([placement.rs])

    Which data nodes get the replicas of an extent: the eligible nodes with the
    most free space first, one per host when the policy says so, and one per rack
    as far as racks go. *)

From S2P Require Import Prelude.

Module Placement.

Open Scope N_scope.

Record FailureDomain := mkFailureDomain { zone : string; rack : string; host : string }.
#[export] Instance FailureDomain_eq_dec : EqDecision FailureDomain.
Proof. solve_decision. Defined.

Record Node := mkNode { id : string; failure_domain : FailureDomain; free_bytes : N; healthy : bool }.
#[export] Instance Node_eq_dec : EqDecision Node.
Proof. solve_decision. Defined.

Record PlacementPolicy := mkPolicy {
  replicas : N;
  require_distinct_hosts : bool;
  prefer_distinct_racks : bool;
}.
#[export] Instance eta_PlacementPolicy : Eta PlacementPolicy :=
  λ p, mkPolicy (replicas p) (require_distinct_hosts p) (prefer_distinct_racks p).

Definition default_policy : PlacementPolicy := mkPolicy 3 true true.

Abbreviation host_of n := (host (failure_domain n)).
Abbreviation rack_of n := (rack (failure_domain n)).

(** ** The two passes *)

(** The order of [sort_by]: more free space first, then by id. *)
Definition compare_nodes (a b : Node) : comparison :=
  match free_bytes b ?= free_bytes a with Eq => String.compare (id a) (id b) | o => o end.
Definition not_after (a b : Node) : Prop := compare_nodes a b ≠ Gt.
#[export] Instance not_after_dec : RelDecision not_after.
Proof. intros a b. unfold not_after. destruct (compare_nodes a b); [left|left|right]; by auto. Defined.

Record Picked := mkPicked { out : list string; hosts : gset string; racks : gset string }.

Definition full (policy : PlacementPolicy) (p : Picked) : bool := N.of_nat (length (out p)) =? replicas policy.
Definition host_taken (policy : PlacementPolicy) (n : Node) (p : Picked) : bool :=
  require_distinct_hosts policy && bool_decide (host_of n ∈ hosts p).

(** The first pass: no rack twice. *)
Fixpoint first_pass (policy : PlacementPolicy) (l : list Node) (p : Picked) : Picked :=
  match l with
  | [] => p
  | n :: l =>
      if full policy p then p
      else if host_taken policy n p then first_pass policy l p
      else if bool_decide (rack_of n ∈ racks p) then first_pass policy l p
      else first_pass policy l (mkPicked (out p ++ [id n]) ({[host_of n]} ∪ hosts p) ({[rack_of n]} ∪ racks p))
  end.

(** The second pass fills up. *)
Fixpoint second_pass (policy : PlacementPolicy) (l : list Node) (p : Picked) : Picked :=
  match l with
  | [] => p
  | n :: l =>
      if full policy p then p
      else if existsb (String.eqb (id n)) (out p) then second_pass policy l p
      else if host_taken policy n p then second_pass policy l p
      else second_pass policy l (mkPicked (out p ++ [id n]) ({[host_of n]} ∪ hosts p) (racks p))
  end.

Definition eligible (bytes : N) (n : Node) : bool := healthy n && (bytes <=? free_bytes n).

Definition candidates (nodes : list Node) (bytes : N) : list Node :=
  merge_sort not_after (List.filter (eligible bytes) nodes).

Definition select_replicas (nodes : list Node) (bytes : N) (policy : PlacementPolicy) : list string :=
  let l := candidates nodes bytes in
  let p := mkPicked [] ∅ ∅ in
  let p := if prefer_distinct_racks policy then first_pass policy l p else p in
  out (second_pass policy l p).

(** ** What is picked *)

(** [ch] are the nodes picked so far, of the candidates [l]. *)
Record picks (policy : PlacementPolicy) (l ch : list Node) (p : Picked) : Prop := {
  pk_out : out p = id <$> ch;
  pk_in : ∀ n, n ∈ ch → n ∈ l;
  pk_hosts : ∀ h, h ∈ hosts p ↔ ∃ n, n ∈ ch ∧ host_of n = h;
  pk_len : N.of_nat (length ch) <= replicas policy;
  pk_ids : NoDup (id <$> ch);
  pk_distinct : require_distinct_hosts policy = true → NoDup ((λ n, host_of n) <$> ch);
}.

Lemma host_taken_false policy l ch p n :
  picks policy l ch p → host_taken policy n p = false →
  require_distinct_hosts policy = true → host_of n ∉ (λ n, host_of n) <$> ch.
Proof.
  intros Hp Hh Hd. unfold host_taken in Hh. rewrite Hd in Hh. simpl in Hh. apply bool_decide_eq_false in Hh.
  rewrite (pk_hosts _ _ _ _ Hp) in Hh. intros (m & Hm & Hin)%list_elem_of_fmap. apply Hh. by exists m.
Qed.

Lemma picks_add policy l ch p n rs :
  picks policy l ch p → n ∈ l → full policy p = false → id n ∉ out p → host_taken policy n p = false →
  picks policy l (ch ++ [n]) (mkPicked (out p ++ [id n]) ({[host_of n]} ∪ hosts p) rs).
Proof.
  intros Hp Hn Hf Hid Hh. pose proof (host_taken_false _ _ _ _ _ Hp Hh) as Hd. destruct Hp as [Ho Hi Hhs Hl Hids Hdi]. split; simpl.
  - by rewrite Ho, fmap_app.
  - intros m [?| ->%list_elem_of_singleton]%elem_of_app; auto.
  - intros h. rewrite elem_of_union, elem_of_singleton, Hhs. setoid_rewrite elem_of_app. setoid_rewrite list_elem_of_singleton. naive_solver.
  - unfold full in Hf. rewrite Ho, length_fmap in Hf. apply N.eqb_neq in Hf. rewrite length_app. simpl. lia.
  - rewrite fmap_app. apply NoDup_app. split; [done|]. split; [|apply NoDup_singleton].
    intros x Hx ->%list_elem_of_singleton. by rewrite Ho in Hid.
  - intros Hr. rewrite fmap_app. apply NoDup_app. split; [auto|]. split; [|apply NoDup_singleton].
    intros x Hx ->%list_elem_of_singleton. by apply Hd.
Qed.

(** A node is passed over for its host, for its rack or because the picks are
    complete. *)
Definition passed (policy : PlacementPolicy) (rk : bool) (ch : list Node) (n : Node) : Prop :=
  require_distinct_hosts policy = true ∧ host_of n ∈ (λ n, host_of n) <$> ch ∨
  rk = true ∧ rack_of n ∈ (λ n, rack_of n) <$> ch.

Lemma passed_more policy rk ch ch' n : passed policy rk ch n → passed policy rk (ch ++ ch') n.
Proof. unfold passed. rewrite !fmap_app, !elem_of_app. tauto. Qed.

Lemma host_taken_passed policy rk l ch p n : picks policy l ch p → host_taken policy n p = true → passed policy rk ch n.
Proof.
  intros Hp [Hr Hh%bool_decide_eq_true]%andb_true_iff. left. split; [done|].
  apply (pk_hosts _ _ _ _ Hp) in Hh as (m & Hm & Eh). rewrite <- Eh. by apply (list_elem_of_fmap_2 (λ n, host_of n)).
Qed.

(** The first pass picks nodes of different racks, until the picks are complete or
    nothing else qualifies. *)
Lemma first_pass_spec policy all : ∀ l ch p,
  NoDup (id <$> l) → (∀ n, n ∈ l → n ∈ all ∧ id n ∉ out p) →
  picks policy all ch p → (∀ r, r ∈ racks p ↔ r ∈ (λ n, rack_of n) <$> ch) → NoDup ((λ n, rack_of n) <$> ch) →
  ∃ more, picks policy all (ch ++ more) (first_pass policy l p) ∧ NoDup ((λ n, rack_of n) <$> (ch ++ more)) ∧
    (full policy (first_pass policy l p) = true ∨ ∀ n, n ∈ l → passed policy true (ch ++ more) n).
Proof.
  induction l as [|n l IH]; intros ch p Hnd Hl Hp Hr Hrk; simpl.
  { exists []. rewrite app_nil_r. split_and!; [done..|]. right. by intros n ?%elem_of_nil. }
  destruct (full policy p) eqn:Hf; [exists []; rewrite app_nil_r; auto|].
  apply NoDup_cons in Hnd as [Hn Hnd]. destruct (Hl n) as [Hall Hid]; [by left|].
  assert (∀ ch p', passed policy true ch n → picks policy all ch p' → (∀ r, r ∈ racks p' ↔ r ∈ (λ n, rack_of n) <$> ch) →
    NoDup ((λ n, rack_of n) <$> ch) → (∀ m, m ∈ l → id m ∉ out p') →
    ∃ more, picks policy all (ch ++ more) (first_pass policy l p') ∧ NoDup ((λ n, rack_of n) <$> (ch ++ more)) ∧
      (full policy (first_pass policy l p') = true ∨ ∀ m, m ∈ n :: l → passed policy true (ch ++ more) m)) as Hgo.
  { intros ch' p' Hpa Hp' Hr' Hrk' Ho'. destruct (IH ch' p') as (more & H1 & H2 & H3); [done| |done..|].
    - intros m Hm. split; [|by apply Ho']. apply Hl. by right.
    - exists more. split_and!; [done..|]. destruct H3 as [H3|H3]; [by left|right]. intros m [->|Hm]%elem_of_cons; [by apply passed_more|by apply H3]. }
  destruct (host_taken policy n p) eqn:Hh.
  { apply Hgo; try done; [by eapply host_taken_passed|]. intros m Hm. apply Hl. by right. }
  case_bool_decide as Hra.
  { apply Hgo; try done; [right; split; [done|by apply Hr]|]. intros m Hm. apply Hl. by right. }
  destruct (Hgo (ch ++ [n]) (mkPicked (out p ++ [id n]) ({[host_of n]} ∪ hosts p) ({[rack_of n]} ∪ racks p))) as (more & H1 & H2 & H3).
  - right. split; [done|]. rewrite fmap_app. set_solver.
  - by apply picks_add.
  - intros r. rewrite fmap_app. csimpl. rewrite elem_of_union, elem_of_singleton, Hr, elem_of_app, list_elem_of_singleton. tauto.
  - rewrite fmap_app. apply NoDup_app. split; [done|]. split; [|apply NoDup_singleton]. intros x Hx ->%list_elem_of_singleton. by apply Hra, Hr.
  - intros m Hm. simpl. rewrite elem_of_app, list_elem_of_singleton. intros [Ho|Eid]; [by apply (Hl m); [right|]|].
    apply Hn. rewrite <- Eid. by apply list_elem_of_fmap_2.
  - exists ([n] ++ more). rewrite app_assoc. auto.
Qed.

Lemma second_pass_spec policy all : ∀ l ch p,
  (∀ n, n ∈ l → n ∈ all) → picks policy all ch p →
  ∃ more, picks policy all (ch ++ more) (second_pass policy l p) ∧
    (full policy (second_pass policy l p) = true ∨
     ∀ n, n ∈ l → id n ∈ id <$> (ch ++ more) ∨ passed policy false (ch ++ more) n).
Proof.
  induction l as [|n l IH]; intros ch p Hl Hp; simpl.
  { exists []. rewrite app_nil_r. split; [done|]. right. by intros n ?%elem_of_nil. }
  destruct (full policy p) eqn:Hf; [exists []; rewrite app_nil_r; auto|].
  assert (∀ ch p', picks policy all ch p' → id n ∈ id <$> ch ∨ passed policy false ch n →
    ∃ more, picks policy all (ch ++ more) (second_pass policy l p') ∧
      (full policy (second_pass policy l p') = true ∨
       ∀ m, m ∈ n :: l → id m ∈ id <$> (ch ++ more) ∨ passed policy false (ch ++ more) m)) as Hgo.
  { intros ch' p' Hp' Hn. destruct (IH ch' p') as (more & H1 & H2); [intros m Hm; apply Hl; by right|done|].
    exists more. split; [done|]. destruct H2 as [H2|H2]; [by left|right]. intros m [->|Hm]%elem_of_cons; [|by apply H2].
    destruct Hn as [Hn|Hn]; [left; rewrite fmap_app; apply elem_of_app; by left|right; by apply passed_more]. }
  destruct (existsb (String.eqb (id n)) (out p)) eqn:Hex.
  { apply Hgo; [done|]. left. apply existsb_exists in Hex as (x & Hx & ->%String.eqb_eq). by rewrite <- (pk_out _ _ _ _ Hp), list_elem_of_In. }
  destruct (host_taken policy n p) eqn:Hh; [apply Hgo; [done|right; by eapply host_taken_passed]|].
  destruct (Hgo (ch ++ [n]) (mkPicked (out p ++ [id n]) ({[host_of n]} ∪ hosts p) (racks p))) as (more & H1 & H2).
  - apply picks_add; try done; [apply Hl; by left|]. intros Hin. apply not_true_iff_false in Hex. apply Hex, existsb_exists.
    exists (id n). split; [by apply list_elem_of_In|apply String.eqb_refl].
  - left. rewrite fmap_app. set_solver.
  - exists ([n] ++ more). rewrite app_assoc. auto.
Qed.

Lemma elem_of_candidates nodes bytes n : n ∈ candidates nodes bytes ↔ n ∈ nodes ∧ eligible bytes n = true.
Proof. unfold candidates. rewrite (merge_sort_Permutation not_after). rewrite !list_elem_of_In. apply filter_In. Qed.

Lemma candidates_NoDup nodes bytes : NoDup (id <$> nodes) → NoDup (id <$> candidates nodes bytes).
Proof.
  intros Hn. unfold candidates. rewrite (merge_sort_Permutation not_after). induction nodes as [|x nodes IH]; [constructor|].
  apply NoDup_cons in Hn as [Hx Hn]. simpl. destruct (eligible bytes x); [|by apply IH]. apply NoDup_cons. split; [|by apply IH].
  intros (y & Ey & Hy)%list_elem_of_fmap. apply Hx. rewrite Ey. apply list_elem_of_fmap_2. apply list_elem_of_In, filter_In in Hy as [Hy _]. by apply list_elem_of_In.
Qed.

(** C22. Placement picks different eligible nodes, at most as many as the policy asks
    for and on different hosts when it says so.  It stops short only when every
    eligible node left shares a host with a picked one, and it puts two replicas in
    a rack only when every eligible node left shares a rack or a host with one. *)
Theorem select_replicas_correct nodes bytes policy :
  NoDup (id <$> nodes) →
  ∃ ch, select_replicas nodes bytes policy = id <$> ch ∧ NoDup (id <$> ch) ∧ N.of_nat (length ch) <= replicas policy ∧
    (∀ n, n ∈ ch → n ∈ nodes ∧ eligible bytes n = true) ∧
    (require_distinct_hosts policy = true → NoDup ((λ n, host_of n) <$> ch)) ∧
    (N.of_nat (length ch) < replicas policy →
     ∀ n, n ∈ nodes → eligible bytes n = true → id n ∈ id <$> ch ∨ passed policy false ch n) ∧
    (prefer_distinct_racks policy = true →
     NoDup ((λ n, rack_of n) <$> ch) ∨ ∀ n, n ∈ nodes → eligible bytes n = true → passed policy true ch n).
Proof.
  intros Hn. unfold select_replicas. set (l := candidates nodes bytes). set (p0 := mkPicked [] ∅ ∅).
  assert (picks policy l [] p0) as H0.
  { split; try done; [by intros n ?%elem_of_nil|intros h; simpl; set_solver|simpl; lia|constructor|constructor]. }
  assert (∃ ch, picks policy l ch (if prefer_distinct_racks policy then first_pass policy l p0 else p0) ∧
    (prefer_distinct_racks policy = true → NoDup ((λ n, rack_of n) <$> ch) ∧
      (full policy (first_pass policy l p0) = true ∨ ∀ n, n ∈ l → passed policy true ch n))) as (ch1 & Hp1 & Hrk).
  { destruct (prefer_distinct_racks policy); [|by exists []].
    destruct (first_pass_spec policy l l [] p0) as (ch & H1 & H2 & H3); [by apply candidates_NoDup| |done|simpl; set_solver|constructor|by exists ch].
    intros n Hin. split; [done|]. by intros ?%elem_of_nil. }
  set (p1 := if prefer_distinct_racks policy then first_pass policy l p0 else p0) in *.
  destruct (second_pass_spec policy l l ch1 p1) as (more & Hp2 & Hend); [done..|].
  exists (ch1 ++ more). split; [apply Hp2|]. split; [apply Hp2|]. split; [apply Hp2|].
  split; [intros n Hin; by apply elem_of_candidates, (pk_in _ _ _ _ Hp2)|]. split; [apply Hp2|]. split.
  - intros Hlt n Hin He. destruct Hend as [Hf|Hend]; [|apply Hend; by apply elem_of_candidates].
    unfold full in Hf. rewrite (pk_out _ _ _ _ Hp2), length_fmap in Hf. apply N.eqb_eq in Hf. lia.
  - intros Hpr. destruct (Hrk Hpr) as [Hr1 [Hf|Hall]].
    + left. subst p1. rewrite Hpr in Hp1, Hp2, Hend.
      assert (second_pass policy l (first_pass policy l p0) = first_pass policy l p0) as E by (destruct l; [done|]; cbn [second_pass]; by rewrite Hf).
      rewrite E in Hp2. pose proof (pk_out _ _ _ _ Hp2) as E2. rewrite (pk_out _ _ _ _ Hp1) in E2. apply (f_equal length) in E2.
      rewrite !length_fmap, length_app in E2. destruct more; simpl in E2; [by rewrite app_nil_r|lia].
    + right. intros n Hin He. apply passed_more, Hall. by apply elem_of_candidates.
Qed.

Definition demo_nodes : list Node :=
  [mkNode "n1" (mkFailureDomain "z" "r1" "h1") 100 true; mkNode "n2" (mkFailureDomain "z" "r1" "h2") 90 true;
   mkNode "n3" (mkFailureDomain "z" "r2" "h3") 80 true; mkNode "n4" (mkFailureDomain "z" "r2" "h3") 95 true]%string.

Lemma select_replicas_correct_witness :
  select_replicas demo_nodes 10 default_policy = ["n1"; "n4"; "n2"]%string ∧
  ∃ ch, select_replicas demo_nodes 10 default_policy = id <$> ch ∧ NoDup (id <$> ch) ∧ NoDup ((λ n, host_of n) <$> ch).
Proof.
  split; [vm_compute; done|]. destruct (select_replicas_correct demo_nodes 10 default_policy) as (ch & H1 & H2 & _ & _ & H3 & _).
  - apply (bool_decide_unpack _). vm_compute. done.
  - exists ch. auto.
Defined.

End Placement.
