(* ===== verification/NativeError.v ===== *)
(** * Errors of the storage engine ([engine.rs], [raft.rs])

    The constructors of [NativeError] and of the [RaftError] it carries; texts for
    the operator are dropped, values that code branches on are kept. *)

From S2P Require Import Prelude MetaError.

Module NativeError.
Import MetaError.

Inductive RaftFault :=
| RaftIo
| RaftJson
| RaftWal
| NotLeader
| Rejected (e : MetaError)
| Config
| Inconsistent
| LeadershipLost
| Timeout
| Shutdown
| TermChanged
| MembershipBusy.

Inductive NativeError :=
| Io
| MetadataJson
| Metadata (e : MetaError)
| WalFault
| Raft (e : RaftFault)
| NotFound
| InsufficientReplicas (needed found : N)
| Checksum (id : string)
| Poisoned
| Invalid
| Fenced (current : N)
| Remote
| ReadOnly.

#[export] Instance RaftFault_eq_dec : EqDecision RaftFault.
Proof. solve_decision. Defined.
#[export] Instance NativeError_eq_dec : EqDecision NativeError.
Proof. solve_decision. Defined.

End NativeError.
