(* ===== verification/Device.v ===== *)
(** * Block storage ([device.rs])

    The interface the engine writes replicas through, what it promises, and the
    file behind a local device.  A call of the operating system fails when the
    environment says so: [faults k] is the outcome of the [k]-th call, and a write
    that fails has written a beginning of its data. *)

From S2P Require Import Prelude MetaError NativeError.

Module Device.
Import NativeError.

Open Scope N_scope.

Abbreviation bytes := (list N).
Abbreviation size l := (N.of_nat (length l)).

(** ** The interface *)

Class BlockStore (D : Type) := {
  (** Appends at the end of the device and returns the offset. *)
  append : N → bytes → D → D * res NativeError N;
  (** Overwrites bytes; never extends the device. *)
  write_at : N → N → bytes → D → D * res NativeError ();
  read_exact_at : N → N → D → D * res NativeError bytes;
  device_len : D → D * res NativeError N;
}.

Definition clear_of (off n off' n' : N) : Prop := off + n <= off' ∨ off' + n' <= off ∨ n = 0 ∨ n' = 0.

(** What the engine relies on.  [peek] is what the device holds, [bs_end] the end of
    the space it has handed out, [steady] says that calls do not fail. *)
Class BlockStoreLaws (D : Type) `{BlockStore D} := {
  bs_wf : D → Prop;
  peek : D → N → N → option bytes;
  bs_end : D → N;
  steady : D → Prop;
  peek_len d off n b : peek d off n = Some b → size b = n;
  read_law d off n d' r : bs_wf d → read_exact_at off n d = (d', r) →
    bs_wf d' ∧ r ≠ Panic ∧ bs_end d' = bs_end d ∧ (∀ o k, peek d' o k = peek d o k) ∧
    (∀ b, r = Ok b → peek d off n = Some b);
  write_law d f off data d' r : bs_wf d → write_at f off data d = (d', r) →
    bs_wf d' ∧ r ≠ Panic ∧ bs_end d' = bs_end d ∧
    (∀ o k, clear_of o k off (size data) → peek d' o k = peek d o k) ∧
    (r = Ok () → peek d' off (size data) = Some data);
  append_law d f data d' r : bs_wf d → append f data d = (d', r) →
    bs_wf d' ∧ r ≠ Panic ∧ bs_end d <= bs_end d' ∧
    (∀ o k, o + k <= bs_end d → peek d' o k = peek d o k) ∧
    (∀ off, r = Ok off →
      bs_end d <= off ∧ off + size data <= bs_end d' ∧ off + size data < u64_size ∧ peek d' off (size data) = Some data);
  len_law d d' r : bs_wf d → device_len d = (d', r) →
    bs_wf d' ∧ r ≠ Panic ∧ bs_end d' = bs_end d ∧ ∀ o k, peek d' o k = peek d o k;
  steady_read d off n b : bs_wf d → steady d → peek d off n = Some b → ∃ d', read_exact_at off n d = (d', Ok b) ∧ steady d';
  steady_write d f off data : bs_wf d → steady d → is_Some (peek d off (size data)) → ∃ d', write_at f off data d = (d', Ok ()) ∧ steady d';
}.

(** ** Files *)

Definition i64_max : N := 9223372036854775807.

Record FileDevice := mkDevice {
  file : bytes;
  (** End of the space handed out to appends. *)
  dev_end : N;
  faults : N → option nat;
  calls : N;
}.
#[export] Instance eta_FileDevice : Eta FileDevice := λ d, mkDevice (file d) (dev_end d) (faults d) (calls d).

(** The outcome of the next call. *)
Definition call (d : FileDevice) : FileDevice * option nat := (d <| calls ::= N.succ |>, faults d (calls d)).

(** [open]: the space handed out ends with the file. *)
Definition open (f : bytes) (faults : N → option nat) : FileDevice := mkDevice f (size f) faults 0.

(** [pwrite]: a gap is filled with zeros. *)
Definition pwrite (off : nat) (data f : bytes) : bytes :=
  take off (f ++ replicate (off - length f) 0) ++ data ++ drop (off + length data) f.

(** [write_all_at] and [sync_data]; a file does not extend past the largest offset. *)
Definition write_all_at (data : bytes) (off : N) (d : FileDevice) : FileDevice * res NativeError () :=
  let '(d, f) := call d in
  if i64_max <? off + size data then (d, Err Io)
  else
    match f with
    | None => (d <| file ::= pwrite (N.to_nat off) data |>, Ok ())
    | Some k => (d <| file ::= pwrite (N.to_nat off) (take k data) |>, Err Io)
    end.

(** An append takes its space first. *)
Definition append_start (data : bytes) (d : FileDevice) : FileDevice * N :=
  (d <| dev_end ::= λ e, u64_add e (size data) |>, dev_end d).

(** It gives the space back when it fails, unless a later one took the space after it. *)
Definition append_finish (off : N) (data : bytes) (d : FileDevice) : FileDevice * res NativeError N :=
  match write_all_at data off d with
  | (d, Ok _) => (d, Ok off)
  | (d, Err e) => (if dev_end d =? u64_add off (size data) then d <| dev_end := off |> else d, Err e)
  | (d, Panic) => (d, Panic)
  end.

Definition file_append (data : bytes) (d : FileDevice) : FileDevice * res NativeError N :=
  let '(d, off) := append_start data d in append_finish off data d.

Definition file_len (d : FileDevice) : FileDevice * res NativeError N :=
  match call d with (d, None) => (d, Ok (size (file d))) | (d, Some _) => (d, Err Io) end.

Definition file_write_at (off : N) (data : bytes) (d : FileDevice) : FileDevice * res NativeError () :=
  match file_len d with
  | (d, Ok e) => if e <? u64_add off (size data) then (d, Err Invalid) else write_all_at data off d
  | (d, Err e) => (d, Err e)
  | (d, Panic) => (d, Panic)
  end.

(** [read_exact_at]: an error at the end of the file. *)
Definition file_read_exact_at (off n : N) (d : FileDevice) : FileDevice * res NativeError bytes :=
  match call d with
  | (d, None) =>
      if size (file d) <? off + n then (d, Err Io)
      else (d, Ok (take (N.to_nat n) (drop (N.to_nat off) (file d))))
  | (d, Some _) => (d, Err Io)
  end.

#[export] Instance file_store : BlockStore FileDevice := {|
  append _ := file_append;
  write_at _ := file_write_at;
  read_exact_at := file_read_exact_at;
  device_len := file_len;
|}.

(** ** Bytes of a file *)

Definition file_peek (d : FileDevice) (off n : N) : option bytes :=
  if off + n <=? size (file d) then Some (take (N.to_nat n) (drop (N.to_nat off) (file d))) else None.

(** Every byte handed out is in the file. *)
Definition file_wf (d : FileDevice) : Prop := dev_end d <= size (file d) ∧ size (file d) <= i64_max.

Lemma pwrite_length off data f : length (pwrite off data f) = Nat.max (length f) (off + length data).
Proof. unfold pwrite. rewrite !length_app, length_take, length_app, length_replicate, length_drop. lia. Qed.

Lemma pwrite_lookup off data f i :
  (i < length f ∨ off ≤ length f)%nat →
  pwrite off data f !! i = if decide (off ≤ i < off + length data)%nat then data !! (i - off)%nat else f !! i.
Proof.
  intros Hi. unfold pwrite. assert (length (take off (f ++ replicate (off - length f) 0)) = off) as Hl.
  { rewrite length_take, length_app, length_replicate. lia. }
  case_decide as Hd.
  - rewrite lookup_app_r by lia. rewrite Hl, lookup_app_l by lia. done.
  - destruct (decide (i < off)%nat).
    + rewrite lookup_app_l by lia. rewrite lookup_take_lt by lia. destruct Hi; [by rewrite lookup_app_l by lia|].
      replace (off - length f)%nat with 0%nat by lia. by rewrite app_nil_r.
    + rewrite lookup_app_r by lia. rewrite Hl, lookup_app_r by lia. rewrite lookup_drop. f_equal. lia.
Qed.

(** What lies apart from a write, inside the file, stays. *)
Lemma pwrite_clear off data f o n :
  (o + n ≤ length f)%nat → (o + n ≤ off ∨ off + length data ≤ o ∨ n = 0)%nat →
  take n (drop o (pwrite off data f)) = take n (drop o f).
Proof.
  intros Hin Hc. apply list_eq. intros i. destruct (decide (i < n)%nat); [|by rewrite !lookup_take_ge by lia].
  rewrite !lookup_take_lt, !lookup_drop by lia. rewrite pwrite_lookup by lia. case_decide; [lia|done].
Qed.

Lemma pwrite_written off data f : (off ≤ length f)%nat → take (length data) (drop off (pwrite off data f)) = data.
Proof.
  intros Hle. apply list_eq. intros i. destruct (decide (i < length data)%nat).
  - rewrite lookup_take_lt, lookup_drop, pwrite_lookup by lia. rewrite decide_True by lia. f_equal. lia.
  - rewrite lookup_take_ge by lia. symmetry. apply lookup_ge_None. lia.
Qed.

Lemma pwrite_nil off f : (off ≤ length f)%nat → pwrite off [] f = f.
Proof.
  intros Hle. unfold pwrite. replace (off - length f)%nat with 0%nat by lia. simpl. rewrite app_nil_r, Nat.add_0_r. apply take_drop.
Qed.

(** [write_all_at] inside the file or right after it. *)
Lemma write_all_at_law data off d d' r :
  file_wf d → off <= size (file d) → write_all_at data off d = (d', r) →
  r ≠ Panic ∧ dev_end d' = dev_end d ∧ size (file d) <= size (file d') <= i64_max ∧ faults d' = faults d ∧
  (∀ o k, clear_of o k off (size data) → o + k <= size (file d) → file_peek d' o k = file_peek d o k) ∧
  (r = Ok () → file_peek d' off (size data) = Some data).
Proof.
  intros [Hw1 Hw2] Ho E. unfold write_all_at in E. simpl in E. destruct (N.ltb_spec i64_max (off + size data)) as [|Hmax]; [injection E as <- <-; simpl; split_and!; done || lia|].
  assert (∀ dt o k, (length dt ≤ length data)%nat → clear_of o k off (size data) → o + k <= size (file d) →
    file_peek (d <| calls ::= N.succ |> <| file ::= pwrite (N.to_nat off) dt |>) o k = file_peek d o k) as Hpeek.
  { intros dt o k Hdt Hc Hk. unfold file_peek. simpl. rewrite pwrite_length. leb_lia. f_equal.
    destruct dt as [|x dt]; [by rewrite pwrite_nil by lia|]. apply pwrite_clear; [lia|]. unfold clear_of in Hc. simpl in *. lia. }
  destruct (faults d (calls d)) as [k|]; injection E as <- <-; simpl.
  - split_and!; try done; [rewrite pwrite_length, length_take; lia..|]. intros o n Hc Hn. apply Hpeek; [|done|done]. rewrite length_take. lia.
  - split_and!; try done; [rewrite pwrite_length; lia..| |].
    + intros o n Hc Hn. by apply Hpeek.
    + intros _. unfold file_peek. simpl. rewrite pwrite_length. leb_lia. f_equal.
      rewrite Nat2N.id. apply pwrite_written. lia.
Qed.

Definition file_steady (d : FileDevice) : Prop := ∀ k, calls d <= k → faults d k = None.

Lemma file_peek_len d off n b : file_peek d off n = Some b → size b = n.
Proof.
  unfold file_peek. destruct (N.leb_spec (off + n) (size (file d))); [|done]. intros [= <-]. rewrite length_take, length_drop. lia.
Qed.

Lemma file_append_law data d d' r :
  file_wf d → file_append data d = (d', r) →
  file_wf d' ∧ r ≠ Panic ∧ dev_end d <= dev_end d' ∧
  (∀ o k, o + k <= dev_end d → file_peek d' o k = file_peek d o k) ∧
  (∀ off, r = Ok off →
    dev_end d <= off ∧ off + size data <= dev_end d' ∧ off + size data < u64_size ∧ file_peek d' off (size data) = Some data).
Proof.
  intros [Hw1 Hw2] E. unfold file_append, append_start, append_finish in E.
  destruct (write_all_at data (dev_end d) (d <| dev_end ::= λ e, u64_add e (size data) |>)) as [d1 r1] eqn:E1.
  assert (∀ x, write_all_at data (dev_end d) (d <| dev_end := x |>) = (d1 <| dev_end := x |>, r1)) as Hany.
  { clear -E1. intros x. unfold write_all_at, call in *. simpl in *. repeat case_match; by injection E1 as <- <-. }
  destruct (write_all_at_law data (dev_end d) d (d1 <| dev_end := dev_end d |>) r1) as (Hr & _ & Hs & _ & Hp & Hok); [done|done|rewrite <- Hany; by destruct d|].
  assert (dev_end d1 = u64_add (dev_end d) (size data)) as He by (clear -E1; unfold write_all_at, call in E1; simpl in E1; repeat case_match; by injection E1 as <- <-).
  assert (∀ x o k, file_peek (d1 <| dev_end := x |>) o k = file_peek d1 o k) as Hx by done.
  destruct r1 as [[]|e|]; [| |done].
  - injection E as <- <-. specialize (Hok eq_refl). rewrite Hx in Hok. simpl in Hs.
    assert (dev_end d + size data <= size (file d1)).
    { unfold file_peek in Hok. by destruct (N.leb_spec (dev_end d + size data) (size (file d1))). }
    assert (dev_end d1 = dev_end d + size data) as He'.
    { rewrite He. apply u64_add_small. unfold i64_max, u64_size in *. lia. }
    unfold file_wf. rewrite He'. split_and!; try done; try lia.
    + intros o k Hk. rewrite <- Hx with (x := dev_end d). apply Hp; [left; lia|lia].
    + intros off [= <-]. split_and!; try done; try lia. unfold i64_max, u64_size in *. lia.
  - rewrite He, N.eqb_refl in E. injection E as <- <-. simpl in Hs. unfold file_wf. simpl. split_and!; try done; try lia.
    intros o k Hk. apply Hp; [left; lia|lia].
Qed.

Lemma file_write_law off data d d' r :
  file_wf d → file_write_at off data d = (d', r) →
  file_wf d' ∧ r ≠ Panic ∧ dev_end d' = dev_end d ∧
  (∀ o k, clear_of o k off (size data) → file_peek d' o k = file_peek d o k) ∧
  (r = Ok () → file_peek d' off (size data) = Some data).
Proof.
  intros [Hw1 Hw2] E. unfold file_write_at, file_len, call in E. simpl in E. destruct (faults d (calls d)); [by injection E as <- <-|].
  simpl in E. destruct (N.ltb_spec (size (file d)) (u64_add off (size data))) as [|Hle]; [by injection E as <- <-|].
  destruct (N.le_gt_cases (off + size data) i64_max) as [Hmax|Hmax].
  - rewrite u64_add_small in Hle by (unfold i64_max, u64_size in *; lia).
    change (write_all_at data off (d <| calls ::= N.succ |>) = (d', r)) in E.
    destruct (write_all_at_law data off (d <| calls ::= N.succ |>) d' r) as (Hr & He & Hs & _ & Hp & Hok); [done|simpl; lia|done|].
    simpl in *. assert (size (file d') = size (file d)) as Hsz.
    { clear -E Hle Hmax. unfold write_all_at, call in E. simpl in E. repeat case_match; injection E as <- <-; simpl; rewrite ?pwrite_length, ?length_take; lia. }
    split_and!; try done; [split; lia|]. intros o k Hc. destruct (N.le_gt_cases (o + k) (size (file d))); [by rewrite (Hp o k)|].
    unfold file_peek. rewrite Hsz. leb_lia. done.
  - unfold write_all_at, call in E. simpl in E. destruct (N.ltb_spec i64_max (off + size data)); [|lia]. by injection E as <- <-.
Qed.

#[export] Instance file_laws : BlockStoreLaws FileDevice.
Proof.
  refine {| bs_wf := file_wf; peek := file_peek; bs_end := dev_end; steady := file_steady |}; simpl.
  - apply file_peek_len.
  - intros d off n d' r Hw E. unfold file_read_exact_at, call in E. simpl in E. destruct (faults d (calls d)); [by injection E as <- <-|]. simpl in E.
    destruct (N.ltb_spec (size (file d)) (off + n)); injection E as <- <-; [done|]. split_and!; try done.
    intros b [= <-]. unfold file_peek. leb_lia. done.
  - intros d _ off data d' r Hw E. by apply (file_write_law off data d d' r).
  - intros d _ data d' r Hw E. by apply (file_append_law data d d' r).
  - intros d d' r Hw E. unfold file_len, call in E. simpl in E. by destruct (faults d (calls d)); injection E as <- <-.
  - intros d off n b Hw Hs Hp. unfold file_read_exact_at, call. simpl. rewrite (Hs (calls d)) by lia. simpl.
    unfold file_peek in Hp. destruct (N.leb_spec (off + n) (size (file d))); [|done]. leb_lia. injection Hp as <-.
    eexists. split; [done|]. intros k Hk. apply Hs. simpl in Hk. lia.
  - intros d _ off data [Hw1 Hw2] Hs [b Hp]. unfold file_write_at, file_len, call. simpl. rewrite (Hs (calls d)) by lia. simpl.
    unfold file_peek in Hp. destruct (N.leb_spec (off + size data) (size (file d))); [|done].
    rewrite u64_add_small by (unfold i64_max, u64_size in *; lia). leb_lia. unfold write_all_at, call. simpl. leb_lia.
    rewrite (Hs (N.succ (calls d))) by lia. eexists. split; [done|]. intros k Hk. apply Hs. simpl in Hk. lia.
Defined.

(** ** Appends that overlap in time *)

(** The device, the appends that have taken their space and those acknowledged. *)
Record Appends := mkAppends { dev : FileDevice; running : list (N * bytes); acked : list (N * bytes) }.

Inductive append_step : Appends → Appends → Prop :=
| ap_start data d run ack :
    dev_end d + size data < u64_size →
    append_step (mkAppends d run ack) (mkAppends (append_start data d).1 (((append_start data d).2, data) :: run) ack)
| ap_finish off data d run1 run2 ack d' r :
    append_finish off data d = (d', r) →
    append_step (mkAppends d (run1 ++ (off, data) :: run2) ack)
      (mkAppends d' (run1 ++ run2) (match r with Ok o => [(o, data)] | _ => [] end ++ ack)).

Definition apart (x y : N * bytes) : Prop := clear_of (x.1) (size (x.2)) (y.1) (size (y.2)).

#[export] Instance apart_sym : Symmetric apart.
Proof. intros x y. unfold apart, clear_of. lia. Qed.

Record appends_ok (s : Appends) : Prop := {
  ao_apart : pairwise apart (running s ++ acked s);
  ao_below : ∀ x, x ∈ running s ++ acked s → 0 < size (x.2) → x.1 + size (x.2) <= dev_end (dev s);
  ao_start : ∀ x, x ∈ running s → x.1 < u64_size;
  ao_room : dev_end (dev s) < u64_size;
  ao_data : ∀ x, x ∈ acked s → file_peek (dev s) (x.1) (size (x.2)) = Some (x.2);
}.

Lemma write_all_at_end data off d d' r : write_all_at data off d = (d', r) → dev_end d' = dev_end d ∧ r ≠ Panic.
Proof. unfold write_all_at, call. simpl. repeat case_match; by intros [= <- <-]. Qed.

(** A write beside acknowledged bytes leaves them, and a complete one is there. *)
Lemma write_all_at_beside data off d d' r :
  write_all_at data off d = (d', r) →
  (∀ o b, clear_of o (size b) off (size data) → file_peek d o (size b) = Some b → file_peek d' o (size b) = Some b) ∧
  (r = Ok () → file_peek d' off (size data) = Some data).
Proof.
  assert (∀ dt o b d0, (length dt ≤ length data)%nat → file d0 = pwrite (N.to_nat off) dt (file d) →
    clear_of o (size b) off (size data) → file_peek d o (size b) = Some b → file_peek d0 o (size b) = Some b) as Hp.
  { intros dt o b d0 Hdt Hf Hc. unfold file_peek. rewrite Hf, pwrite_length. destruct (N.leb_spec (o + size b) (size (file d))); [|done]. leb_lia.
    intros [= Hb]. f_equal. rewrite <- Hb at 2. destruct dt as [|x dt].
    - unfold pwrite. simpl. rewrite Nat.add_0_r. destruct (decide (N.to_nat off ≤ length (file d))%nat) as [Hle|Hgt].
      + replace (N.to_nat off - length (file d))%nat with 0%nat by lia. by rewrite app_nil_r, take_drop.
      + rewrite (drop_ge (file d)) by lia. rewrite app_nil_r, (take_ge (file d ++ _)) by (rewrite length_app, length_replicate; lia).
        rewrite drop_app_le by lia. rewrite take_app_le by (rewrite length_drop; lia). done.
    - apply pwrite_clear; [lia|]. unfold clear_of in Hc. simpl in *. lia. }
  unfold write_all_at, call. simpl. destruct (N.ltb_spec i64_max (off + size data)); [by intros [= <- <-]|].
  destruct (faults d (calls d)) as [k|]; intros [= <- <-]; (split; [intros o b; eapply Hp; [|done]; rewrite ?length_take; lia|done || intros _]).
  unfold file_peek. simpl. rewrite pwrite_length. leb_lia. f_equal. rewrite Nat2N.id. unfold pwrite.
  rewrite drop_app_ge by (rewrite length_take, length_app, length_replicate; lia).
  rewrite length_take, length_app, length_replicate. replace (_ - _)%nat with 0%nat by lia. rewrite drop_0. by rewrite take_app_length.
Qed.

Lemma appends_ok_step s s' : appends_ok s → append_step s s' → appends_ok s'.
Proof.
  intros [Ha Hb Hst Hr Hd] Hs. destruct Hs as [data d run ack Hroom|off data d run1 run2 ack d' r E]; simpl in *.
  - assert (u64_add (dev_end d) (size data) = dev_end d + size data) as He by (by apply u64_add_small). split; simpl; rewrite ?He; try done.
    + split; [|done]. intros y Hy. specialize (Hb y Hy). unfold apart, clear_of. simpl. lia.
    + intros x [->|Hx]%elem_of_cons Hpos; simpl; [lia|]. specialize (Hb x Hx Hpos). lia.
    + intros x [->|Hx]%elem_of_cons; [done|by apply Hst].
  - assert (pairwise apart ((off, data) :: run1 ++ run2 ++ ack)) as Ha' by (eapply (pairwise_perm apart); [|exact Ha]; rewrite <- app_assoc; apply Permutation_sym, Permutation_middle).
    assert (∀ x, x ∈ (off, data) :: run1 ++ run2 ++ ack → 0 < size x.2 → x.1 + size x.2 <= dev_end d) as Hb' by (intros x Hx; apply Hb; set_solver).
    destruct Ha' as [Hx Ha']. unfold append_finish in E. destruct (write_all_at data off d) as [d1 r1] eqn:E1.
    destruct (write_all_at_end _ _ _ _ _ E1) as [He Hp]. destruct (write_all_at_beside _ _ _ _ _ E1) as [Hk Hok].
    assert (∀ x, x ∈ ack → file_peek d1 (x.1) (size (x.2)) = Some (x.2)) as Hdata.
    { intros x Hin. apply Hk; [|by apply Hd]. apply (symmetry (R := apart) (x := (off, data))), Hx. set_solver. }
    destruct r1 as [[]|e|]; [| |done].
    + injection E as <- <-. split; simpl; rewrite ?He; try done.
      * eapply (pairwise_perm apart); [|exact (conj Hx Ha' : pairwise apart ((off, data) :: _))]. rewrite <- app_assoc. simpl. rewrite !app_assoc. apply Permutation_middle.
      * intros x Hin. apply Hb'. set_solver.
      * intros x Hin. apply Hst. set_solver.
      * intros x [->|Hin]%elem_of_cons; [by apply Hok|by apply Hdata].
    + assert (off < u64_size) as Hoff by (apply (Hst (off, data)); set_solver).
      assert (dev_end d = u64_add off (size data) → ∀ x, x ∈ run1 ++ run2 ++ ack → 0 < size x.2 → x.1 + size x.2 <= off) as Hlow.
      { intros Hend x Hin Hpos. specialize (Hx x Hin). pose proof (Hb' x ltac:(set_solver) Hpos) as H1. pose proof (Hb' (off, data) ltac:(set_solver)) as H2.
        unfold apart, clear_of in Hx. simpl in *. destruct (N.eq_dec (size data) 0) as [E0|]; [|specialize (H2 ltac:(lia))];
          rewrite u64_add_small in Hend by lia; lia. }
      rewrite He in E. destruct (N.eqb_spec (dev_end d) (u64_add off (size data))) as [Hend|]; injection E as <- <-; split; simpl; rewrite ?He;
        try (by rewrite <- app_assoc); try done; try (intros x Hin; apply Hst; set_solver).
      * intros x Hin Hpos. apply Hlow; [done| |done]. by rewrite app_assoc.
      * intros x Hin. apply Hb'. set_solver.
Qed.

(** C21. Appends that overlap in time get space of their own: however they start,
    finish and fail, no two that run or were acknowledged share a byte, and the
    device holds the data of every acknowledged one at the offset it was told. *)
Theorem overlapping_appends d s :
  dev_end d < u64_size → rtc append_step (mkAppends d [] []) s →
  pairwise apart (running s ++ acked s) ∧ ∀ off data, (off, data) ∈ acked s → file_peek (dev s) off (size data) = Some data.
Proof.
  intros Hd Hr. assert (appends_ok s) as [Ha _ _ _ Hdata].
  { revert s Hr. apply (rtc_ind_r appends_ok); [|intros; by eapply appends_ok_step]. split; simpl; [done|by intros x ?%elem_of_nil..|done|by intros x ?%elem_of_nil]. }
  split; [done|]. intros off data Hin. by apply (Hdata (off, data)).
Qed.

(** Two appends start; the first fails after three bytes, the second succeeds. *)
Definition demo_device : FileDevice := open [] (λ k, if k =? 0 then Some 3%nat else None).

Lemma overlapping_appends_witness :
  ∃ s, rtc append_step (mkAppends demo_device [] []) s ∧ acked s = [(4, [9; 9])] ∧ file (dev s) = [1; 1; 1; 0; 9; 9] ∧
    file_peek (dev s) 4 2 = Some [9; 9].
Proof.
  assert (∃ s, rtc append_step (mkAppends demo_device [] []) s ∧ acked s = [(4, [9; 9])] ∧ file (dev s) = [1; 1; 1; 0; 9; 9]) as (s & Hr & Ha & Hf).
  { eexists. split.
    - eapply rtc_l; [apply (ap_start [1; 1; 1; 1]); done|]. eapply rtc_l; [apply (ap_start [9; 9]); done|].
      eapply rtc_l; [apply (ap_finish 0 [1; 1; 1; 1] _ [(4, [9; 9])] []); done|].
      eapply rtc_l; [apply (ap_finish 4 [9; 9] _ [] []); done|]. done.
    - done. }
  exists s. split; [exact Hr|]. split; [exact Ha|]. split; [exact Hf|].
  apply (proj2 (overlapping_appends demo_device s ltac:(done) Hr) 4 [9; 9]). rewrite Ha. by left.
Defined.

End Device.
