(* ===== verification/DataNode.v ===== *)
(** * The data node ([data_node.rs])

    A data node serves devices over the network.  Every write carries a fence, the
    writer's Raft term, and the metadata group it writes for; the node keeps the
    highest fence it accepted from each group in a file and refuses lower ones. *)

From S2P Require Import Prelude MetaError NativeError Device.

Module DataNode.
Import NativeError Device.

Open Scope N_scope.

Definition MAX_PAYLOAD : N := 268435456.

Inductive Request :=
| Append (fence : N) (data : bytes) (device : nat) (group : N)
| WriteAt (fence offset : N) (data : bytes) (device : nat) (group : N)
| Read (offset len : N) (device : nat)
| Len (device : nat)
| Devices
| Fences.

Inductive Response :=
| Appended (offset : N)
| Written
| Data (data : bytes)
| LenIs (len : N)
| DeviceCount (count : nat)
| FenceList (fences : list (N * N))
| IsFenced (current : N)
| Error.

Section node.
Context {D : Type} `{BlockStore D}.

(** What a fence file holds: a number, or something that is not one. *)
Inductive FenceFile := Number (f : N) | Corrupt.

(** [Shared]: the fences in memory and their files.  [disk k] is what happens to the
    [k]-th read or write of a fence file. *)
Record Shared := mkShared {
  devices : list D;
  fences : gmap N N;
  files : gmap N FenceFile;
  disk : N → DiskFault;
  ops : N;
}.
#[local] Instance eta_Shared : Eta Shared := λ s, mkShared (devices s) (fences s) (files s) (disk s) (ops s).

(** [read_fence]: a group that never wrote has no file; a read that fails and a file
    that does not parse are errors. *)
Definition read_fence (fault : DiskFault) (file : option FenceFile) : res NativeError N :=
  match fault, file with
  | DiskOk, None => Ok 0
  | DiskOk, Some (Number f) => Ok f
  | DiskOk, Some Corrupt => Err Invalid
  | _, _ => Err Io
  end.

(** [Shared::fence]: from the file the first time. *)
Definition fence (group : N) (s : Shared) : Shared * res NativeError N :=
  match fences s !! group with
  | Some f => (s, Ok f)
  | None =>
      let s' := s <| ops ::= N.succ |> in
      match read_fence (disk s (ops s)) (files s !! group) with
      | Ok f => (s' <| fences ::= <[group := f]> |>, Ok f)
      | Err e => (s', Err e)
      | Panic => (s', Panic)
      end
  end.

(** [durable::write_atomic] of a fence: it can fail after the rename, with the new
    contents in place. *)
Definition save_fence (group f : N) (s : Shared) : Shared * bool :=
  let s' := s <| ops ::= N.succ |> in
  match disk s (ops s) with
  | DiskOk => (s' <| files ::= <[group := Number f]> |>, true)
  | DiskLost => (s', false)
  | DiskWritten => (s' <| files ::= <[group := Number f]> |>, false)
  end.

(** The loop of [Shared::fenced]: the second round finds the fence it raised. *)
Fixpoint fenced_loop (fuel : nat) (group f : N) (write : Shared → Shared * res NativeError Response) (s : Shared) : Shared * Response :=
  match fuel with
  | O => (s, Error)
  | S fuel =>
      let current := default 0 (fences s !! group) in
      if f <? current then (s, IsFenced current)
      else if f =? current then
        match write s with (s, Ok r) => (s, r) | (s, _) => (s, Error) end
      else
        match save_fence group f s with
        | (s, false) => (s, Error)
        | (s, true) => fenced_loop fuel group f write (s <| fences ::= <[group := f]> |>)
        end
  end.

Definition fenced (group f : N) (write : Shared → Shared * res NativeError Response) (s : Shared) : Shared * Response :=
  match fence group s with
  | (s, Ok _) => fenced_loop 2 group f write s
  | (s, _) => (s, Error)
  end.

(** A request on one device. *)
Definition on_device {A} (i : nat) (op : D → D * res NativeError A) (k : A → Response) (s : Shared) : Shared * res NativeError Response :=
  match devices s !! i with
  | None => (s, Err Invalid)
  | Some d =>
      let '(d, r) := op d in
      (s <| devices ::= <[i := d]> |>, match r with Ok a => Ok (k a) | Err e => Err e | Panic => Panic end)
  end.

Definition answer (x : Shared * res NativeError Response) : Shared * Response :=
  (x.1, match x.2 with Ok r => r | _ => Error end).

(** One request of [serve]; a payload that is too large ends the connection. *)
Definition handle (req : Request) (s : Shared) : Shared * option Response :=
  match req with
  | Append f data d g =>
      if MAX_PAYLOAD <? size data then (s, None)
      else let '(s, r) := fenced g f (on_device d (append f data) Appended) s in (s, Some r)
  | WriteAt f off data d g =>
      if MAX_PAYLOAD <? size data then (s, None)
      else let '(s, r) := fenced g f (on_device d (write_at f off data) (λ _, Written)) s in (s, Some r)
  | Read off n d =>
      if MAX_PAYLOAD <? n then (s, Some Error)
      else let '(s, r) := answer (on_device d (read_exact_at off n) Data s) in (s, Some r)
  | Len d => let '(s, r) := answer (on_device d device_len LenIs s) in (s, Some r)
  | Devices => (s, Some (DeviceCount (length (devices s))))
  | Fences => (s, Some (FenceList (bt_entries (fences s))))
  end.

(** [start_devices]: at least one device; the fence of group 0 is read, the others when
    they are needed. *)
Definition start_devices (ds : list D) (fs : gmap N FenceFile) (dk : N → DiskFault) : res NativeError Shared :=
  match ds with
  | [] => Err Invalid
  | _ =>
      match read_fence (dk 0) (fs !! 0) with
      | Ok f => Ok (mkShared ds {[0 := f]} fs dk 1)
      | Err e => Err e
      | Panic => Panic
      end
  end.

(** ** Fences *)

(** Writes with a fence below [f] are refused by what the file holds. *)
Definition on_file (s : Shared) (g f : N) : Prop :=
  match files s !! g with None => f = 0 | Some (Number c) => f <= c | Some Corrupt => True end.

(** They are refused by the node: the fence in memory goes before the file. *)
Definition held (s : Shared) (g f : N) : Prop :=
  match fences s !! g with Some c => f <= c | None => on_file s g f end.

(** What is in memory is in the file. *)
Definition durable (s : Shared) : Prop := ∀ g c, fences s !! g = Some c → on_file s g c.

Definition write_of (req : Request) : option (N * N) :=
  match req with Append f _ _ g => Some (g, f) | WriteAt f _ _ _ g => Some (g, f) | _ => None end.

(** The request was carried out on a device. *)
Definition performed (r : option Response) : Prop :=
  match r with Some (Appended _) => True | Some Written => True | _ => False end.

(** The node serves a request, or is started again on its files; a start that fails
    changes none of them. *)
Inductive happens : Shared → Shared → Prop :=
| happens_serve req s : happens s (handle req s).1
| happens_restart ds dk s s' : start_devices ds (files s) dk = Ok s' → happens s s'.

Lemma on_device_fences {A} i (op : D → D * res NativeError A) k s :
  fences (on_device i op k s).1 = fences s ∧ files (on_device i op k s).1 = files s.
Proof. unfold on_device. destruct (devices s !! i) as [d|]; [|done]. by destruct (op d). Qed.

(** A step that does not lower fences, and keeps them durable. *)
Definition raises (s s' : Shared) : Prop := durable s' ∧ ∀ g f, held s g f → held s' g f.

Lemma raises_same s s' : durable s → fences s' = fences s → files s' = files s → raises s s'.
Proof. intros Hd E1 E2. unfold raises, durable, held, on_file in *. by rewrite E1, E2. Qed.

Lemma raises_trans s1 s2 s3 : raises s1 s2 → raises s2 s3 → raises s1 s3.
Proof. intros [_ H1] [Hd H2]. split; [done|]. auto. Qed.

Lemma on_file_mono s g f f' : f <= f' → on_file s g f' → on_file s g f.
Proof. unfold on_file. destruct (files s !! g) as [[c|]|]; [lia|done|lia]. Qed.

Lemma held_on_file s g f : durable s → held s g f → on_file s g f.
Proof. unfold held. intros Hd Hf. destruct (fences s !! g) as [c|] eqn:E; [|done]. eapply on_file_mono; [exact Hf|by apply Hd]. Qed.

Lemma read_fence_on_file s k g f : read_fence k (files s !! g) = Ok f → ∀ f', on_file s g f' ↔ f' <= f.
Proof. unfold on_file, read_fence. intros E f'. destruct k, (files s !! g) as [[c|]|]; try done; injection E as <-; [done|lia]. Qed.

Lemma fence_spec g s : durable s →
  match fence g s with
  | (s', Ok c) => raises s s' ∧ fences s' !! g = Some c ∧ devices s' = devices s ∧ ∀ f, held s g f ↔ f <= c
  | (s', _) => raises s s' ∧ devices s' = devices s
  end.
Proof.
  intros Hd. unfold fence, held. destruct (fences s !! g) as [c|] eqn:E; [split; [by apply raises_same|done]|].
  destruct (read_fence _ _) as [c|e|] eqn:Ef; [|split; [by apply raises_same|done]..]. pose proof (read_fence_on_file s _ g c Ef) as Hc.
  split; [|by simpl; rewrite lookup_insert_eq]. split.
  - intros g' f' Hg'. simpl in Hg'. apply lookup_insert_Some in Hg' as [[<- <-]|[_ Hf]]; [by apply Hc|by apply Hd].
  - intros g' f'. unfold held. simpl. destruct (decide (g = g')) as [<-|]; [rewrite lookup_insert_eq, E; apply Hc|by rewrite lookup_insert_ne].
Qed.

(** Saving a higher fence; the memory follows when it succeeds. *)
Lemma save_fence_spec g f c s : durable s → fences s !! g = Some c → c < f →
  match save_fence g f s with
  | (s', true) => raises s (s' <| fences ::= <[g := f]> |>)
  | (s', false) => raises s s'
  end.
Proof.
  intros Hd Hg Hlt. unfold save_fence. destruct (disk s (ops s)); [|by apply raises_same|].
  all: split; [intros g' f' Hg'; simpl in Hg'|intros g' f'; unfold held, on_file; simpl].
  - unfold on_file. simpl. apply lookup_insert_Some in Hg' as [[<- <-]|[Hne Hf]]; [by rewrite lookup_insert_eq|]. rewrite lookup_insert_ne by done. by apply Hd.
  - destruct (decide (g = g')) as [<-|]; [rewrite !lookup_insert_eq, Hg; lia|by rewrite !lookup_insert_ne].
  - unfold on_file. simpl. destruct (decide (g = g')) as [<-|]; [|rewrite lookup_insert_ne by done; by apply Hd].
    rewrite lookup_insert_eq. rewrite Hg in Hg'. injection Hg' as <-. lia.
  - destruct (decide (g = g')) as [<-|]; [by rewrite Hg|by rewrite !lookup_insert_ne].
Qed.

Section fenced.
Context (write : Shared → Shared * res NativeError Response) (Hw : ∀ s, fences (write s).1 = fences s ∧ files (write s).1 = files s).

(** The write at the fence in memory. *)
Lemma write_runs g f s s' r : durable s → fences s !! g = Some f →
  (match write s with (s, Ok r) => (s, r) | (s, _) => (s, Error) end) = (s', r) → raises s s' ∧ held s' g f.
Proof.
  intros Hd Hf E. destruct (Hw s) as [F1 F2]. destruct (write s) as [s1 r1]. simpl in *.
  assert (s' = s1) as -> by (by destruct r1; injection E). split; [by apply raises_same|]. unfold held. by rewrite F1, Hf.
Qed.

(** A fenced write: refused below the fence the node holds; when it is carried out the
    node holds its fence. *)
Lemma fenced_spec g f s s' r :
  durable s → fenced g f write s = (s', r) →
  raises s s' ∧ (∀ f', held s g f' → f < f' → devices s' = devices s ∧ ¬ performed (Some r)) ∧ (performed (Some r) → held s' g f).
Proof.
  intros Hd. unfold fenced. pose proof (fence_spec g s Hd) as Hs. destruct (fence g s) as [s1 [c|e|]].
  2, 3: destruct Hs as [H1 H2]; intros [= <- <-]; split; [done|]; split; [by intros f' _ _; split; [|intros []]|by intros []].
  destruct Hs as (Hr1 & Hg & Hdev & Hc). cbn [fenced_loop]. rewrite Hg. simpl. pose proof (proj1 Hr1) as Hd1. destruct (N.ltb_spec f c) as [Hlt|Hge].
  { intros [= <- <-]. split; [done|]. split; [|done]. intros f' _ _. by split; [|intros []]. }
  assert (∀ f', held s g f' → f < f' → False) as Hno by (intros f' Hf' ?; apply Hc in Hf'; lia).
  destruct (N.eqb_spec f c) as [->|Hne].
  { intros E. destruct (write_runs g c s1 s' r Hd1 Hg E) as [H1 H2]. split; [by eapply raises_trans|]. split; [|done]. intros f' H3 H4. by destruct (Hno f'). }
  pose proof (save_fence_spec g f c s1 Hd1 Hg ltac:(lia)) as H2. destruct (save_fence g f s1) as [s2 []].
  - cbn [fences]. intros E. rewrite lookup_insert_eq in E. simpl in E. rewrite N.ltb_irrefl, N.eqb_refl in E.
    destruct (write_runs g f _ s' r (proj1 H2) (lookup_insert_eq _ _ _) E) as [H3 H4].
    split; [exact (raises_trans _ _ _ Hr1 (raises_trans _ _ _ H2 H3))|]. split; [|done]. intros f' H5 H6. by destruct (Hno f').
  - intros [= <- <-]. split; [by eapply raises_trans|]. split; [|done]. intros f' H5 H6. by destruct (Hno f').
Qed.

(** As [handle] answers. *)
Lemma fenced_answer g f s s' r :
  durable s → (let '(s, r) := fenced g f write s in (s, Some r)) = (s', r) →
  raises s s' ∧ (∀ f', held s g f' → f < f' → devices s' = devices s ∧ ¬ performed r) ∧ (performed r → held s' g f).
Proof. intros Hd E. destruct (fenced g f write s) as [s1 r1] eqn:E1. injection E as <- <-. by apply fenced_spec. Qed.

End fenced.

Lemma handle_spec req s s' r :
  durable s → handle req s = (s', r) →
  raises s s' ∧
  ∀ g f, write_of req = Some (g, f) →
    (∀ f', held s g f' → f < f' → devices s' = devices s ∧ ¬ performed r) ∧ (performed r → held s' g f).
Proof.
  intros Hd E. destruct req as [f data d g|f off data d g|off n d|d| |]; simpl in E.
  1, 2: destruct (MAX_PAYLOAD <? size data); [injection E as <- <-; split; [by apply raises_same|by split; [intros ? _ _; split; [|intros []]|]]|].
  1, 2: destruct (fenced_answer _ (on_device_fences _ _ _) g f s s' r Hd E) as [? ?]; split; [done|]; by intros ? ? [= <- <-].
  - split; [|done]. destruct (MAX_PAYLOAD <? n); injection E as <- <-; [by apply raises_same|]. apply raises_same; [done|apply on_device_fences..].
  - split; [|done]. injection E as <- <-. apply raises_same; [done|apply on_device_fences..].
  - split; [|done]. injection E as <- <-. by apply raises_same.
  - split; [|done]. injection E as <- <-. by apply raises_same.
Qed.

Lemma start_reads ds fs dk s : start_devices ds fs dk = Ok s → files s = fs ∧ ∃ f, read_fence (dk 0) (files s !! 0) = Ok f ∧ fences s = {[0 := f]}.
Proof.
  unfold start_devices. destruct ds as [|d ds]; [done|]. destruct (read_fence _ _) as [f|e|] eqn:E; try done. intros [= <-]. simpl. eauto.
Qed.

Lemma start_durable ds fs dk s : start_devices ds fs dk = Ok s → durable s.
Proof.
  intros E. apply start_reads in E as (_ & f & Hf & E) . intros g c Hg. rewrite E in Hg. apply lookup_singleton_Some in Hg as [<- <-].
  by apply (read_fence_on_file s _ 0 f Hf).
Qed.

Lemma happens_raises s s' : happens s s' → durable s → raises s s'.
Proof.
  intros Hs Hd. destruct Hs as [req s|ds dk s s' E].
  - destruct (handle req s) as [s' r] eqn:E. by apply (handle_spec req s s' r).
  - split; [by eapply start_durable|]. intros g f Hf. apply held_on_file in Hf; [|done].
    destruct (start_reads _ _ _ _ E) as (E1 & c & Hc & E2). assert (on_file s' g f) as Hf' by (unfold on_file in *; by rewrite E1).
    unfold held. rewrite E2. destruct (decide (0 = g)) as [<-|]; [rewrite lookup_singleton_eq; by apply (read_fence_on_file s' _ 0 c Hc)|by rewrite lookup_singleton_ne].
Qed.

Lemma history_raises s s' : rtc happens s s' → durable s → raises s s'.
Proof.
  induction 1 as [s|s s1 s' Hs _ IH]; intros Hd; [by apply raises_same|]. pose proof (happens_raises _ _ Hs Hd) as H1.
  eapply raises_trans; [exact H1|]. apply IH, H1.
Qed.

(** C20. A deposed leader cannot write: once a node has carried out a write of some
    group at a fence, it carries out no later write of that group with a lower one,
    whatever requests it served and however often it restarted in between, whichever
    reads and writes of its fence files failed, and such a write leaves its devices as
    they are. *)
Theorem deposed_writes_refused ds fs dk s s0 req g f s1 r1 s1' req' f' s2 r2 :
  start_devices ds fs dk = Ok s → rtc happens s s0 →
  write_of req = Some (g, f) → handle req s0 = (s1, r1) → performed r1 → rtc happens s1 s1' →
  write_of req' = Some (g, f') → f' < f → handle req' s1' = (s2, r2) →
  ¬ performed r2 ∧ devices s2 = devices s1'.
Proof.
  intros Hs Hh Hq E1 Hp Hh' Hq' Hlt E2. pose proof (history_raises _ _ Hh (start_durable _ _ _ _ Hs)) as [Hd0 _].
  destruct (handle_spec req s0 s1 r1 Hd0 E1) as [[Hd1 _] H1]. destruct (H1 g f Hq) as [_ Hf]. specialize (Hf Hp).
  destruct (history_raises _ _ Hh' Hd1) as [Hd1' Hr]. destruct (handle_spec req' s1' s2 r2 Hd1' E2) as [_ H2].
  destruct (H2 g f' Hq') as [Href _]. by destruct (Href f (Hr g f Hf) Hlt).
Qed.

End node.

Definition demo_store : FileDevice := open [0; 0; 0; 0] (λ _, None).
Definition demo_write (f : N) (b : N) : Request := WriteAt f 0 [b; b] 0 7.

(** A node, after term 5 wrote and term 6 failed to: its fence reached the file. *)
Definition demo_disk (k : N) : DiskFault := if k =? 3 then DiskWritten else DiskOk.
Definition demo_node : Shared := mkShared [demo_store] {[0 := 0]} ∅ demo_disk 1.
Definition demo_failed : Shared := (handle (demo_write 6 2) (handle (demo_write 5 1) demo_node).1).1.
Definition demo_again : Shared := mkShared (devices demo_failed) {[0 := 0]} (files demo_failed) (λ _, DiskOk) 1.

(** Term 5 writes; term 6 fails, and the node restarts; term 4 is refused, at term 6. *)
Lemma deposed_writes_refused_witness :
  (handle (demo_write 5 1) demo_node).2 = Some Written ∧ (handle (demo_write 6 2) (handle (demo_write 5 1) demo_node).1).2 = Some Error ∧
  let s := handle (demo_write 4 3) demo_again in s.2 = Some (IsFenced 6) ∧ ¬ performed s.2 ∧ devices s.1 = devices demo_again.
Proof.
  cbv zeta. split; [vm_compute; done|]. split; [vm_compute; done|]. split; [vm_compute; done|].
  apply (deposed_writes_refused [demo_store] ∅ demo_disk demo_node demo_node (demo_write 5 1) 7 5 (handle (demo_write 5 1) demo_node).1 (Some Written) demo_again (demo_write 4 3) 4).
  - vm_compute. done.
  - done.
  - done.
  - vm_compute. done.
  - done.
  - eapply rtc_l; [apply (happens_serve (demo_write 6 2))|]. apply rtc_once. apply (happens_restart (devices demo_failed) (λ _, DiskOk)). vm_compute. done.
  - done.
  - done.
  - apply surjective_pairing.
Defined.

End DataNode.
