(* ===== verification/Inflight.v ===== *)
(** * Free space held by placements in flight ([engine/inflight.rs])

    A placement writes into free ranges before the command that installs its data
    commits.  Placements draw from one view, the applied free list without the
    ranges that placements hold; the view may be a second old. *)

From S2P Require Import Prelude MetaError FreeList NativeError.

Module Inflight.
Import NativeError.
Import FreeList (FreeList, FreeRange, mkFreeRange, fr_node_id, fr_device_index, fr_offset, fr_len, is_free, in_range, wf, range_ok, covers).

Open Scope N_scope.

(** Instants and durations are in milliseconds. *)
Definition REFRESH : N := 1000.
Definition QUARANTINE : N := 300000.

Record State := mkState {
  view : option (FreeList * N);
  held : gmap N (list FreeRange);
  quarantine : list (N * FreeRange);
  next : N;
}.
#[export] Instance eta_State : Eta State := λ s, mkState (view s) (held s) (quarantine s) (next s).

Definition initial : State := mkState None ∅ [] 0.

(** ** Operations *)

(** [NativeEngine::lease]: a token. *)
Definition lease (s : State) : State * N :=
  let token := next s + 1 in (s <| next := token |> <| held ::= <[token := []]> |>, token).

(** [view.reserve(..)]; the result is not looked at. *)
Definition without (v : FreeList) (r : FreeRange) : FreeList :=
  fst (FreeList.reserve v (fr_node_id r) (fr_device_index r) (fr_offset r) (fr_len r)).

(** Every range that is held or quarantined. *)
Definition ranges (s : State) : list FreeRange := concat (bt_values (held s)) ++ (quarantine s).*2.

(** The view is rebuilt from the applied free list [fl] when it is too old at [t]. *)
Definition refresh (fl : FreeList) (t now : N) (s : State) : State :=
  if match view s with None => true | Some (_, at_) => REFRESH <=? t - at_ end
  then
    let s := s <| quarantine ::= List.filter (λ x : N * FreeRange, now <? x.1) |> in
    s <| view := Some (foldl without fl (ranges s), now) |>
  else s.

(** [Lease::take]. *)
Definition take (fl : FreeList) (t now : N) (token : N) (node_id : string) (device_index len : N) (s : State) : State * option N :=
  let s := refresh fl t now s in
  match view s with
  | None => (s, None)
  | Some (v, at_) =>
      match FreeList.find v node_id device_index len with
      | None => (s, None)
      | Some off =>
          let r := mkFreeRange node_id device_index off len in
          (s <| view := Some (without v r, at_) |>
             <| held ::= <[token := default [] (held s !! token) ++ [r]]> |>, Some off)
      end
  end.

(** The errors after which a commit may still apply. *)
Definition unknown (e : NativeError) : bool :=
  match e with
  | Raft Timeout | Raft LeadershipLost | Raft Shutdown | Raft RaftIo | Raft RaftWal => true
  | _ => false
  end.

(** [Lease::settle]. *)
Definition settle (now : N) (token : N) (e : NativeError) (s : State) : State :=
  if negb (unknown e) then s
  else
    let l := default [] (held s !! token) in
    s <| held ::= <[token := []]> |> <| quarantine ::= λ q, q ++ ((λ r, (now + QUARANTINE, r)) <$> l) |>.

(** [Drop for Lease]. *)
Definition release (token : N) (s : State) : State :=
  let s := s <| held ::= delete token |> in
  if bool_decide (held s = ∅) && bool_decide (length (quarantine s) = 0%nat) then s <| view := None |> else s.

(** ** The view *)

Definition disjoint (r s : FreeRange) : Prop := ∀ n d b, covers r n d b → ¬ covers s n d b.
#[export] Instance disjoint_sym : Symmetric disjoint.
Proof. intros r s H n d b Hs Hr. by eapply H. Qed.

Definition claimed (l : list FreeRange) (n : string) (d b : N) : Prop := ∃ r, r ∈ l ∧ covers r n d b.

(** All bytes of the range are free, or none. *)
Definition solid (fl : FreeList) (r : FreeRange) : Prop :=
  (∀ n d b, covers r n d b → is_free fl n d b) ∨ (∀ n d b, covers r n d b → ¬ is_free fl n d b).

(** The view has only free bytes that no placement holds, and no byte is held twice. *)
Record consistent (fl : FreeList) (s : State) : Prop := {
  cs_wf : wf fl;
  cs_view v t : view s = Some (v, t) → wf v ∧ ∀ n d b, is_free v n d b → is_free fl n d b ∧ ¬ claimed (ranges s) n d b;
  cs_ok : Forall range_ok (ranges s);
  cs_solid : ∀ r, r ∈ ranges s → solid fl r;
  cs_apart : pairwise disjoint (ranges s);
  cs_next : ∀ k, is_Some (held s !! k) → k <= next s;
}.

Lemma without_spec v r :
  wf v → range_ok r → solid v r →
  wf (without v r) ∧ ∀ n d b, is_free (without v r) n d b ↔ is_free v n d b ∧ ¬ covers r n d b.
Proof.
  intros Hwf Hok Hs. destruct Hok as [Hpos Hu]. unfold without.
  pose proof (FreeList.reserve_effect v (fr_node_id r) (fr_device_index r) (fr_offset r) (fr_len r) Hwf Hpos Hu) as He.
  destruct (FreeList.reserve _ _ _ _ _) as [v' ok]. destruct He as (Hwf' & Hiff & Hno & Hyes). simpl. split; [done|].
  assert (∀ n d b, in_range (fr_node_id r) (fr_device_index r) (fr_offset r) (fr_len r) n d b ↔ covers r n d b) as Hc.
  { intros n d b. unfold in_range, covers. naive_solver lia. }
  destruct Hs as [Hs|Hs].
  - assert (ok = true) as -> by (apply Hiff; intros b Hb; apply Hs, Hc; done). intros n d b. by rewrite (Hyes eq_refl), Hc.
  - destruct ok.
    + exfalso. apply (Hs (fr_node_id r) (fr_device_index r) (fr_offset r)); [unfold covers; split_and!; done || lia|]. apply Hiff; [done|lia].
    + rewrite (Hno eq_refl). intros n d b. split; [|tauto]. intros Hf. split; [done|]. intros Hcv. by eapply Hs.
Qed.

Lemma without_all l fl :
  wf fl → Forall range_ok l → (∀ r, r ∈ l → solid fl r) → pairwise disjoint l →
  wf (foldl without fl l) ∧ ∀ n d b, is_free (foldl without fl l) n d b ↔ is_free fl n d b ∧ ¬ claimed l n d b.
Proof.
  revert fl. induction l as [|r l IH]; intros fl Hwf Hok Hs Hp; simpl.
  { split; [done|]. unfold claimed. set_solver. }
  apply Forall_cons in Hok as [Hr Hok]. destruct Hp as [Hd Hp].
  destruct (without_spec fl r) as [Hwf' Hf]; [done|done|apply Hs; by left|]. destruct (IH (without fl r)) as [Hw Hf']; [done|done| |done|].
  - intros x Hx. destruct (Hs x) as [Ha|Ha]; [by right|left|right]; intros n d b Hc.
    + apply Hf. split; [by apply Ha|]. intros Hcr. by eapply (Hd x).
    + intros [Hfr _]%Hf. by eapply Ha.
  - split; [done|]. intros n d b. rewrite Hf', Hf. unfold claimed. setoid_rewrite elem_of_cons. naive_solver.
Qed.

Lemma values_insert (m : gmap N (list FreeRange)) k l :
  concat (bt_values (<[k := l]> m)) ≡ₚ l ++ concat (bt_values (delete k m)).
Proof.
  unfold bt_values. rewrite !bt_entries_perm, <- insert_delete_eq. rewrite map_to_list_insert by apply lookup_delete_eq. done.
Qed.
Lemma values_split (m : gmap N (list FreeRange)) k :
  concat (bt_values m) ≡ₚ default [] (m !! k) ++ concat (bt_values (delete k m)).
Proof.
  destruct (m !! k) as [l|] eqn:E; simpl; [|by rewrite delete_id].
  rewrite <- (insert_id m k l) at 1 by done. apply values_insert.
Qed.

(** ** What the operations keep *)

Lemma claimed_perm l l' n d b : l ≡ₚ l' → claimed l n d b ↔ claimed l' n d b.
Proof. intros Hp. unfold claimed. by setoid_rewrite Hp. Qed.

(** Fewer ranges, the same view. *)
Lemma consistent_fewer fl s s' :
  consistent fl s → (∃ l, ranges s ≡ₚ ranges s' ++ l) → view s' = view s ∨ view s' = None →
  (∀ k, is_Some (held s' !! k) → k <= next s') → consistent fl s'.
Proof.
  intros [Hwf Hv Hok Hs Hp Hn] [l Hl] Hview Hn'. assert (∀ r, r ∈ ranges s' → r ∈ ranges s) as Hin by (intros r; rewrite Hl; set_solver).
  split; try done.
  - intros v t E. destruct Hview as [E'|E']; rewrite E' in E; [|done]. destruct (Hv v t E) as [Hw Hf]. split; [done|].
    intros n d b Hb. destruct (Hf n d b Hb) as [? Hc]. split; [done|]. intros (r & Hr & Hcv). apply Hc. exists r. auto.
  - rewrite Hl in Hok. by apply Forall_app in Hok as [? _].
  - intros r Hr. by apply Hs, Hin.
  - apply (pairwise_perm _ _ _ Hl), pairwise_app in Hp as [? _]. done.
Qed.

Lemma lease_consistent fl s : consistent fl s → consistent fl (lease s).1 ∧ held s !! (lease s).2 = None.
Proof.
  intros Hc. pose proof (cs_next _ _ Hc) as Hn. assert (held s !! (next s + 1) = None) as Hnone.
  { destruct (held s !! (next s + 1)) eqn:E; [|done]. specialize (Hn _ (mk_is_Some _ _ E)). lia. }
  split; [|done]. eapply consistent_fewer; [exact Hc| |by left|].
  - exists []. rewrite app_nil_r. unfold ranges. simpl. by rewrite values_insert, delete_id.
  - simpl. intros k [x [[<- _]|[_ Hk]]%lookup_insert_Some]; [lia|]. specialize (Hn k (mk_is_Some _ _ Hk)). lia.
Qed.

Lemma refresh_consistent fl t now s : consistent fl s → consistent fl (refresh fl t now s) ∧ is_Some (view (refresh fl t now s)) ∧
  held (refresh fl t now s) = held s ∧ ∃ l, ranges s ≡ₚ ranges (refresh fl t now s) ++ l.
Proof.
  intros Hc. unfold refresh. destruct (match view s with None => true | _ => _ end) eqn:E.
  - set (s1 := s <| quarantine ::= List.filter (λ x : N * FreeRange, now <? x.1) |>).
    assert (∃ l, ranges s ≡ₚ ranges s1 ++ l) as Hl.
    { exists ((List.filter (λ x : N * FreeRange, negb (now <? x.1)) (quarantine s)).*2). unfold ranges. simpl. rewrite <- app_assoc. f_equiv.
      rewrite <- fmap_app. f_equiv. clear. induction (quarantine s) as [|x q IH]; [done|]. simpl. destruct (now <? x.1); simpl; rewrite IH at 1; [done|].
      apply Permutation_middle. }
    assert (consistent fl (s1 <| view := None |>)) as Hc1 by (eapply consistent_fewer; [exact Hc|exact Hl|by right|apply Hc]).
    split_and!; [|done|done|exact Hl]. destruct Hc1 as [Hwf _ Hok Hs Hp Hn]. destruct (without_all (ranges s1) fl) as [Hw Hf]; [done..|].
    split; try done. intros v t' [= <- <-]. split; [done|]. intros n d b Hb. by apply Hf.
  - destruct (view s) as [[v at_]|]; [|done]. split_and!; [done|done|done|]. exists []. by rewrite app_nil_r.
Qed.

(** What is taken is free, and nobody else holds it. *)
Lemma take_consistent fl t now token nd dv len s s' r :
  consistent fl s → is_Some (held s !! token) → take fl t now token nd dv len s = (s', r) →
  consistent fl s' ∧ (∀ k, is_Some (held s' !! k) ↔ is_Some (held s !! k)) ∧
  match r with
  | Some off =>
      0 < len ∧ off + len < u64_size ∧ (∀ b, off <= b < off + len → is_free fl nd dv b ∧ ¬ claimed (concat (bt_values (held s))) nd dv b) ∧
      held s' = <[token := default [] (held s !! token) ++ [mkFreeRange nd dv off len]]> (held s)
  | None => held s' = held s
  end.
Proof.
  intros Hc Htok E. unfold take in E. destruct (refresh_consistent fl t now s Hc) as (Hc1 & Hview & Hheld & _). set (s1 := refresh fl t now s) in *.
  destruct Hview as [[v at_] Hv]. rewrite Hv in E. destruct Hc1 as [Hwf Hvw Hok Hs Hp Hn]. destruct (Hvw v at_ Hv) as [Hwv Hfv].
  pose proof (FreeList.find_effect v nd dv len Hwv) as Hfind. destruct (FreeList.find v nd dv len) as [off|].
  2:{ injection E as <- <-. rewrite Hheld. by split. }
  injection E as <- <-. destruct Hfind as (Hpos & Hu & Hfree & _). set (r := mkFreeRange nd dv off len).
  assert (∀ n d b, covers r n d b → n = nd ∧ d = dv ∧ off <= b < off + len) as Hcov by (unfold covers; simpl; naive_solver).
  assert (range_ok r) as Hrok by done.
  assert (∀ n d b, covers r n d b → is_free fl n d b ∧ ¬ claimed (ranges s1) n d b) as Hrf by (intros n d b (-> & -> & Hb)%Hcov; by apply Hfv, Hfree).
  assert (ranges (s1 <| view := Some (without v r, at_) |> <| held ::= <[token := default [] (held s1 !! token) ++ [r]]> |>) ≡ₚ r :: ranges s1) as Hperm.
  { unfold ranges. simpl. rewrite values_insert, (values_split (held s1) token) at 1. rewrite <- !app_assoc. simpl. by rewrite <- Permutation_middle. }
  assert (solid v r) as Hsol by (left; intros n d b (-> & -> & Hb)%Hcov; by apply Hfree).
  destruct (without_spec v r Hwv Hrok Hsol) as [Hww Hwf'].
  split_and!.
  - split; try done; rewrite ?Hperm.
    + intros v' t' [= <- <-]. split; [done|]. intros n d b [Hb Hnc]%Hwf'. destruct (Hfv n d b Hb) as [? Hcl]. split; [done|].
      rewrite (claimed_perm _ _ _ _ _ Hperm). unfold claimed. setoid_rewrite elem_of_cons. unfold claimed in Hcl. naive_solver.
    + by apply Forall_cons.
    + intros x. rewrite Hperm. intros [->|Hx]%elem_of_cons; [left; intros n d b Hb; by apply Hrf|by apply Hs].
    + eapply pairwise_perm; [apply _|symmetry; exact Hperm|]. split; [|done]. intros y Hy n d b Hb Hcy. apply (Hrf n d b Hb). exists y. done.
    + simpl. intros k [x [[<- _]|[_ Hk]]%lookup_insert_Some]; [|by apply (Hn k), (mk_is_Some _ _ Hk)]. apply Hn. by rewrite Hheld.
  - simpl. intros k. rewrite Hheld. destruct (decide (token = k)) as [<-|]; [rewrite lookup_insert_eq|by rewrite lookup_insert_ne]. naive_solver.
  - done.
  - done.
  - intros b Hb. destruct (Hrf nd dv b) as [Hfr Hcl]; [unfold covers; simpl; split_and!; done || lia|]. split; [done|]. intros (x & Hx & Hcx). apply Hcl.
    exists x. split; [|done]. unfold ranges. rewrite Hheld. by apply elem_of_app; left.
  - simpl. by rewrite Hheld.
Qed.

(** Only the range taken is new. *)
Lemma take_ranges fl t now token nd dv len s s' r :
  take fl t now token nd dv len s = (s', r) → ∀ fr, fr ∈ ranges s' → fr ∈ ranges s ∨ ∃ off, r = Some off ∧ fr = mkFreeRange nd dv off len.
Proof.
  intros E fr. assert (∀ x, x ∈ ranges (refresh fl t now s) → x ∈ ranges s) as Hr.
  { intros x. unfold refresh. case_match; [|done]. unfold ranges. simpl. rewrite !elem_of_app. intros [?|Hx]; [by left|right].
    apply list_elem_of_fmap in Hx as (y & -> & [Hy _]%list_elem_of_In%filter_In). apply list_elem_of_fmap. exists y. split; [done|]. by apply list_elem_of_In. }
  unfold take in E. destruct (view _) as [[v at_]|]; [|injection E as <- <-; auto]. destruct (FreeList.find v nd dv len) as [off|]; injection E as <- <-; [|auto].
  unfold ranges at 1. simpl. rewrite elem_of_app, values_insert, !elem_of_app, list_elem_of_singleton. intros [[[Hx| ->]|Hx]|Hx]; [left; apply Hr|by eauto|left; apply Hr..]; unfold ranges.
  - apply elem_of_app. left. rewrite (values_split _ token). apply elem_of_app. by left.
  - apply elem_of_app. left. rewrite (values_split _ token). apply elem_of_app. by right.
  - apply elem_of_app. by right.
Qed.

Lemma settle_consistent fl now token e s : consistent fl s → is_Some (held s !! token) → consistent fl (settle now token e s).
Proof.
  intros Hc Htok. unfold settle. destruct (unknown e); simpl; [|done]. eapply consistent_fewer; [exact Hc| |by left|].
  - exists []. rewrite app_nil_r. unfold ranges. simpl. rewrite values_insert, (values_split (held s) token), fmap_app, <- list_fmap_compose.
    simpl.
    replace (((λ x : N * FreeRange, x.2) ∘ (λ r : FreeRange, (now + QUARANTINE, r))) <$> default [] (held s !! token)) with (default [] (held s !! token)) by (symmetry; apply list_fmap_id).
    rewrite <- !app_assoc, (Permutation_app_comm (default [] _)). by rewrite <- !app_assoc.
  - simpl. intros k [x [[<- _]|[_ Hk]]%lookup_insert_Some]; apply (cs_next _ _ Hc); [done|by eexists].
Qed.

Lemma release_consistent fl token s : consistent fl s → consistent fl (release token s).
Proof.
  intros Hc. assert (consistent fl (s <| held ::= delete token |>)) as Hc1.
  { eapply consistent_fewer; [exact Hc| |by left|].
    - exists (default [] (held s !! token)). unfold ranges. simpl. rewrite (values_split (held s) token), <- !app_assoc.
      rewrite (Permutation_app_comm (default [] _)). by rewrite <- !app_assoc.
    - simpl. intros k [x [_ Hk]%lookup_delete_Some]. apply (cs_next _ _ Hc). by eexists. }
  unfold release. destruct (_ && _); [|done]. eapply consistent_fewer; [exact Hc1| |by right|apply Hc1]. exists []. by rewrite app_nil_r.
Qed.

(** The applied free list changes: what the view offers stays free, and held ranges solid. *)
Lemma applied_consistent fl fl' s :
  consistent fl s → wf fl' →
  (∀ n d b, is_free fl n d b → ¬ claimed (ranges s) n d b → is_free fl' n d b) → (∀ r, r ∈ ranges s → solid fl' r) →
  consistent fl' s.
Proof.
  intros [Hwf Hv Hok Hs Hp Hn] Hwf' Hf Hs'. split; try done. intros v t E. destruct (Hv v t E) as [Hw Hview]. split; [done|].
  intros n d b Hb. destruct (Hview n d b Hb) as [Hfr Hc]. auto.
Qed.

End Inflight.
