(* ===== verification/Objects.v ===== *)
(** * Object storage ([object.rs])

    The interface tiered extents go through, with what its documentation promises,
    and a store in memory that keeps the promise. *)

From S2P Require Import Prelude MetaError NativeError Device.

Module Objects.
Import NativeError Device.

Open Scope N_scope.

(** An error of input or output is [None]. *)
Class ObjectStore (O : Type) := {
  (** Replaces any object under the key; durable when it returns. *)
  put : string → bytes → O → O * option ();
  get : string → O → O * option bytes;
  (** Removing a missing object is not an error. *)
  remove : string → O → O * option ();
  (** The keys that start with a prefix. *)
  list_keys : string → O → O * option (list string);
}.

(** [?] on an error of input or output. *)
Definition io {A} (o : option A) : res NativeError A := ok_or o Io.

(** [object_at] is what the store holds; [responsive] says that its reads do not fail. *)
Class ObjectStoreLaws (O : Type) `{ObjectStore O} := {
  object_at : O → string → option bytes;
  put_law o k b o' r : put k b o = (o', r) →
    (∀ k', k' ≠ k → object_at o' k' = object_at o k') ∧ (r = Some () → object_at o' k = Some b);
  get_law o k o' r : get k o = (o', r) →
    (∀ k', object_at o' k' = object_at o k') ∧ (∀ b, r = Some b → object_at o k = Some b);
  remove_law o k o' r : remove k o = (o', r) → ∀ k', k' ≠ k → object_at o' k' = object_at o k';
  list_law o p o' r : list_keys p o = (o', r) →
    (∀ k', object_at o' k' = object_at o k') ∧ ∀ l k, r = Some l → k ∈ l → String.prefix p k = true;
  responsive : O → Prop;
  responsive_get o k b : responsive o → object_at o k = Some b → ∃ o', get k o = (o', Some b) ∧ responsive o';
}.

(** Objects in memory. *)
Record MemStore := mkMemStore { contents : gmap string bytes }.

#[export] Instance mem_store : ObjectStore MemStore := {|
  put k b o := (mkMemStore (<[k := b]> (contents o)), Some ());
  get k o := (o, contents o !! k);
  remove k o := (mkMemStore (delete k (contents o)), Some ());
  list_keys p o := (o, Some (List.filter (String.prefix p) (bt_keys (contents o))));
|}.

#[export] Instance mem_laws : ObjectStoreLaws MemStore.
Proof.
  refine {| object_at o k := contents o !! k; responsive _ := True |}; simpl.
  - intros o k b o' r [= <- <-]. simpl. split; [|intros _; by rewrite lookup_insert_eq].
    intros k' Hk. by rewrite lookup_insert_ne.
  - by intros o k o' r [= <- <-].
  - intros o k o' r [= <- <-] k' Hk. simpl. by rewrite lookup_delete_ne.
  - intros o p o' r [= <- <-]. split; [done|]. by intros l k [= <-] [_ Hp]%list_elem_of_In%filter_In.
  - intros o k b _ ->. by exists o.
Defined.

End Objects.
