(* ===== verification/Engine.v ===== *)
(** * The storage engine: its state and metadata commits ([engine.rs])

    The engine over a local write-ahead log: data nodes with their devices and
    health, the catalog with its log and checkpoint, placements in flight, and the
    object store.  Times, identifiers and failures of the disk come from the
    environment: [clock k] is the [k]-th reading of the clock, [uuid k] the [k]-th
    identifier drawn, and [disk k] what happens to the [k]-th write of metadata.
    The log is the list of records of [WalSpec.v] and a checkpoint the catalog it
    stores, as [CheckpointSpec.v] shows; [attached] says that the log appends to the
    file a restart would read.  Counters of the telemetry are left out. *)

From S2P Require Import Prelude MetaError FreeList Ec Catalog Extents FsTree Namespace Metadata Wal WalSpec NativeError Device Objects Placement Inflight.

Module Engine.
Import Catalog Metadata NativeError Device Objects Placement.

Open Scope N_scope.

Abbreviation Record_ := (Wal.WalRecord MetaCommand).
Abbreviation WalLog := (WalSpec.Log (T := MetaCommand)).

Record EngineConfig := mkEngineConfig {
  extent_bytes : N;
  placement : PlacementPolicy;
  wal_compact_after : N;
  node_retry_after : N;
  erasure : option Ec.EcScheme;
  erasure_min_bytes : N;
  object_prefix : string;
}.

(** What the engine is built with: its configuration, the hash function and the
    erasure code. *)
Class EngineParams := {
  cfg : EngineConfig;
  sha256 : bytes → bytes;
  rs_encode : N → N → list bytes → option (list bytes);
  rs_decode : N → N → list (nat * bytes) → list (nat * bytes) → option (list (nat * bytes));
}.

Section engine.
Context {D O : Type} `{BlockStore D} `{ObjectStore O} `{P : EngineParams}.

(** A data node and its health. *)
Record NodeRuntime := mkRuntime {
  spec : Node;
  devices : list D;
  failures : N;
  down_until : option N;
  down_since : option N;
  next_device : N;
}.
#[global] Instance eta_NodeRuntime : Eta NodeRuntime :=
  λ n, mkRuntime (spec n) (devices n) (failures n) (down_until n) (down_since n) (next_device n).

Record Engine := mkEngine {
  nodes : list NodeRuntime;
  catalog : Catalog;
  wal : WalLog;
  wal_records : N;
  attached : bool;
  (** The catalog of the last checkpoint. *)
  stored : Catalog;
  inflight : Inflight.State;
  reads : gmap string N;
  objects : option O;
  opened_ms : N;
  clock : N → N;
  readings : N;
  uuid : N → string;
  uuids : N;
  disk : N → DiskFault;
  (** Whether a directory is synced after a file in it was replaced. *)
  dir_sync : N → bool;
  saves : N;
}.
#[global] Instance eta_Engine : Eta Engine :=
  λ e, mkEngine (nodes e) (catalog e) (wal e) (wal_records e) (attached e) (stored e) (inflight e) (reads e) (objects e) (opened_ms e) (clock e)
         (readings e) (uuid e) (uuids e) (disk e) (dir_sync e) (saves e).

Abbreviation E := (SM Engine NativeError).

(** A step on the state, in the monad. *)
Definition stepping {A} (f : Engine → Engine * res NativeError A) : E A := f.

(** ** The environment *)

Definition now : E N :=
  e ← sm_get; sm_modify (λ e, e <| readings ::= N.succ |>) ;; mret (clock e (readings e)).

Definition new_uuid : E string :=
  e ← sm_get; sm_modify (λ e, e <| uuids ::= N.succ |>) ;; mret (uuid e (uuids e)).

Definition disk_outcome : E DiskFault :=
  e ← sm_get; sm_modify (λ e, e <| saves ::= N.succ |>) ;; mret (disk e (saves e)).

Definition with_catalog {A} (f : Catalog → A) : E A := sm_reads (λ e, f (catalog e)).

(** [?] on an error of the metadata state machine. *)
Definition meta {A} (r : res MetaError A) : res NativeError A :=
  match r with Ok a => Ok a | Err e => Err (Metadata e) | Panic => Panic end.

(** ** Nodes and their health *)

(** [NativeEngine::node]: the position of the first node with the id. *)
Definition find_node (e : Engine) (node_id : string) : option nat :=
  position (λ n, String.eqb (id (spec n)) node_id) (nodes e).

Definition node (node_id : string) : E nat := sm_try (λ e, ok_or (find_node e node_id) NotFound).

Definition edit_node (i : nat) (f : NodeRuntime → NodeRuntime) : E () := sm_modify (λ e, e <| nodes ::= alter f i |>).

(** [is_up]: the clock is read only for a node that backs off. *)
Definition is_up (n : NodeRuntime) : E bool :=
  if healthy (spec n)
  then match down_until n with None => mret true | Some t => t' ← now; mret (t <=? t') end
  else mret false.

Definition mark_down (i : nat) : E () :=
  t ← now;
  edit_node i (λ n, n <| failures ::= λ f, u64_add f 1 |> <| down_until := Some (t + node_retry_after cfg) |>
                      <| down_since ::= λ d, Some (default t d) |>).

Definition mark_up (i : nat) : E () := edit_node i (λ n, n <| down_until := None |> <| down_since := None |>).

(** A call on device [k] of node [i]; [None] when there is no such device. *)
Definition on_device {A} (i k : nat) (op : D → D * res NativeError A) : E (option (res NativeError A)) := λ e,
  match nodes e !! i ≫= λ n, devices n !! k with
  | None => (e, Ok None)
  | Some d =>
      let '(d, r) := op d in
      (e <| nodes ::= alter (λ n, n <| devices ::= <[k := d]> |>) i |>, Ok (Some r))
  end.

(** The nodes that are up and not skipped. *)
Fixpoint up_specs (skip : Node → bool) (l : list NodeRuntime) : E (list Node) :=
  match l with
  | [] => mret []
  | n :: l =>
      up ← is_up n;
      rest ← up_specs skip l;
      mret (if up && negb (skip (spec n)) then spec n :: rest else rest)
  end.

Definition placement_order (len : N) (skip : Node → bool) : E (list string) :=
  e ← sm_get;
  specs ← up_specs skip (nodes e);
  mret (select_replicas specs len ((placement cfg) <| replicas := size specs |>)).

(** ** Tasks that run side by side

    Each gets its result; a task that panics is an error.  They run in order. *)

Fixpoint run_all {A} (l : list (E A)) : E (list (res NativeError A)) :=
  match l with
  | [] => mret []
  | t :: l => λ e,
      let '(e, r) := t e in
      let '(e, rs) := run_all l e in
      (e, match rs with
          | Ok rs => Ok (match r with Panic => Err Poisoned | r => r end :: rs)
          | r => r
          end)
  end.

(** [for r in placed { if let Some(r) = r? { replicas.push(r) } }]. *)
Fixpoint collect {A} (l : list (res NativeError (option A))) : res NativeError (list A) :=
  match l with
  | [] => Ok []
  | r :: l => o ← r; rest ← collect l; Ok (match o with Some a => a :: rest | None => rest end)
  end.

(** ** Leases on free space *)

Definition lease : E N := λ e, let '(s, t) := Inflight.lease (inflight e) in (e <| inflight := s |>, Ok t).

(** [Lease::take]. *)
Definition take_free (token : N) (node_id : string) (device_index len : N) : E (option N) :=
  t ← now; t' ← now;
  stepping (λ e, let '(s, r) := Inflight.take (free (catalog e)) t t' token node_id device_index len (inflight e) in
                 (e <| inflight := s |>, Ok r)).

(** [Lease::settle]. *)
Definition settle (token : N) (err : NativeError) : E () :=
  if Inflight.unknown err then t ← now; sm_modify (λ e, e <| inflight ::= Inflight.settle t token err |>) else mret ().

(** The scope of a lease: it is dropped however the scope ends. *)
Definition with_lease {A} (f : N → E A) : E A :=
  t ← lease;
  stepping (λ e, let '(e, r) := f t e in (e <| inflight ::= Inflight.release t |>, r)).

(** [.inspect_err(|e| alloc.settle(e))]. *)
Definition settling {A} (token : N) (m : E A) : E A := λ e,
  match m e with
  | (e, Err err) => ((settle token err e).1, Err err)
  | r => r
  end.

(** ** Metadata *)

(** [load_local]: the checkpoint and the records after it. *)
Fixpoint replay_records (l : list Record_) (c : Catalog) : res NativeError Catalog :=
  match l with
  | [] => Ok c
  | r :: l =>
      if applied_index c <? Wal.index r then
        match apply (Wal.term r) (Wal.index r) (Wal.command r) c with
        | (c, Ok _) => replay_records l c
        | (_, Err err) => Err (Metadata err)
        | (_, Panic) => Panic
        end
      else replay_records l c
  end.

(** [Wal::raise_floor]. *)
Definition raise_floor (i : N) (l : WalLog) : WalLog :=
  WalSpec.mkLog (WalSpec.l_recs l) (N.max i (WalSpec.l_last l)) (N.max i (WalSpec.l_synced l)) (N.max i (WalSpec.l_floor l)).

(** The log as [Wal::open] finds it. *)
Definition open_wal (recs : list Record_) : WalLog := WalSpec.mkLog recs (WalSpec.top recs) (WalSpec.top recs) 0.

Definition load_local (st : Catalog) (recs : list Record_) : res NativeError (Catalog * WalLog) :=
  c ← replay_records recs st; Ok (c, raise_floor (applied_index c) (open_wal recs)).

(** The catalog and the log are read again from the disk. *)
Definition reload (recs : list Record_) : E () := λ e,
  match load_local (stored e) recs with
  | Ok (c, w) => (e <| catalog := c |> <| wal := w |> <| wal_records := size recs |> <| attached := true |>, Ok ())
  | Err err => (e, Err err)
  | Panic => (e, Panic)
  end.

(** [store.checkpoint]: what fails leaves the last checkpoint or is one. *)
Definition save_checkpoint : E () :=
  o ← disk_outcome;
  match o with
  | DiskOk => sm_modify (λ e, e <| stored := catalog e |>)
  | DiskLost => sm_err Io
  | DiskWritten => sm_modify (λ e, e <| stored := catalog e |>) ;; sm_err Io
  end.

(** [wal.compact_through], returning the records removed: the file is replaced, and
    opened again once its directory is synced. *)
Definition compact_through (i : N) : E N :=
  o ← disk_outcome;
  e ← sm_get;
  match o with
  | DiskLost => sm_err WalFault
  | _ =>
      let w := WalSpec.log_keep (λ j, i <? j) (wal e) in
      if dir_sync e (saves e) then
        let kept := size (WalSpec.l_recs w) in
        sm_modify (λ e, e <| wal := w |> <| wal_records := kept |> <| attached := true |>) ;;
        mret (wal_records e - kept)
      else
        sm_modify (λ e, e <| wal ::= λ l, WalSpec.mkLog (WalSpec.l_recs w) (WalSpec.l_last l) (WalSpec.l_synced l) (WalSpec.l_floor l) |>
                          <| attached := false |>) ;;
        sm_err WalFault
  end.

(** The records a restart reads once one more is written. *)
Definition with_record (rec : Record_) (e : Engine) : list Record_ :=
  if attached e then WalSpec.l_recs (wal e) ++ [rec] else WalSpec.l_recs (wal e).

(** [wal.append]: an index that does not grow is refused before anything is written;
    when it fails, what a restart would see is loaded. *)
Definition append_record (rec : Record_) : E () :=
  e ← sm_get;
  if Wal.index rec <=? WalSpec.l_last (wal e) then reload (WalSpec.l_recs (wal e)) ;; sm_err WalFault
  else
    o ← disk_outcome;
    match o with
    | DiskOk =>
        sm_modify (λ e, e <| wal ::= λ l, WalSpec.mkLog (with_record rec e) (Wal.index rec) (Wal.index rec) (WalSpec.l_floor l) |>
                          <| wal_records ::= N.succ |>)
    | DiskLost => reload (WalSpec.l_recs (wal e)) ;; sm_err WalFault
    | DiskWritten => reload (with_record rec e) ;; sm_err WalFault
    end.

(** [commit] over the local log: the record is applied, then logged; a rejected one
    is not logged. *)
Definition commit (command : MetaCommand) : E () :=
  e ← sm_get;
  let index := u64_add (WalSpec.l_last (wal e)) 1 in
  let term := N.max (current_term (catalog e)) 1 in
  match apply term index command (catalog e) with
  | (c, Err err) => sm_modify (λ e, e <| catalog := c |>) ;; sm_err (Metadata err)
  | (c, Panic) => sm_modify (λ e, e <| catalog := c |>) ;; sm_panic
  | (c, Ok _) =>
      sm_modify (λ e, e <| catalog := c |>) ;;
      append_record (Wal.mkRecord term index command) ;;
      e ← sm_get;
      if (0 <? wal_compact_after cfg) && (wal_compact_after cfg <=? wal_records e)
      then save_checkpoint ;; compact_through index ;; mret ()
      else mret ()
  end.

(** [NativeEngine::checkpoint]. *)
Definition checkpoint : E N :=
  save_checkpoint ;;
  e ← sm_get;
  compact_through (applied_index (catalog e)).

(** [open_with_devices] over the local log, after a crash that left [recs]: the
    checkpoint is written again. *)
Definition open_with_devices (specs : list (Node * list D)) (st : Catalog) (recs : list Record_) (obj : option O)
    (clk : N → N) (us : N → string) (dk : N → DiskFault) (ds : N → bool) : res NativeError Engine :=
  if extent_bytes cfg =? 0 then Err Invalid
  else if existsb (λ x : Node * list D, bool_decide (length (x.2) = 0%nat)) specs then Err Invalid
  else
    '(c, w) ← load_local st recs;
    let e := mkEngine ((λ x : Node * list D, mkRuntime (x.1) (x.2) 0 None None 0) <$> specs) c w (size recs) true st Inflight.initial ∅ obj (clk 0)
               clk 1 us 0 dk ds 0 in
    match save_checkpoint e with
    | (e, Ok _) => Ok e
    | (_, Err err) => Err err
    | (_, Panic) => Panic
    end.

End engine.

Arguments NodeRuntime D : clear implicits.
Arguments Engine D O : clear implicits.

End Engine.
