(* ===== verification/EngineRead.v ===== *)
(** * The storage engine: reading ([engine.rs])

    An extent is read from its object, from enough of its shards or from a replica,
    and verified; a read of a volume or a snapshot looks up the extents of its range
    and puts their bytes together.  A read in two steps, the lookup and the fetch,
    lets other operations come between them. *)

From S2P Require Import Prelude MetaError Ec Catalog Extents NativeError Device Objects Placement Engine.

Module EngineRead.
Import Placement Catalog NativeError Device Objects Engine.

Open Scope N_scope.

#[local] Existing Instance Ec.EcLayout_eq_dec.
#[export] Instance ExtentRef_eq_dec : EqDecision ExtentRef.
Proof. solve_decision. Defined.

(** Extents fetched side by side by one read. *)
Definition READ_PARALLELISM : nat := 8.

(** FNV-1a. *)
Definition fnv (h : N) (a : Ascii.ascii) : N := N.lxor h (Ascii.N_of_ascii a) * 1099511628211 mod u64_size.

Definition replica_start (id : string) (n : nat) : nat :=
  if (n =? 0)%nat then 0%nat
  else N.to_nat (foldl fnv 14695981039346656037 (String.list_ascii_of_string id) mod N.of_nat n).

(** [iter().cycle().skip(start).take(len)]. *)
Definition rotate {A} (start : nat) (l : list A) : list A := drop start l ++ take start l.

(** [slice::chunks]; [fuel] is the length of the slice. *)
Fixpoint chunks {A} (fuel : nat) (n : nat) (l : list A) : list (list A) :=
  match fuel, l with
  | S fuel, _ :: _ => take n l :: chunks fuel n (drop n l)
  | _, _ => []
  end.

Section read.
Context {D O : Type} `{BlockStore D} `{ObjectStore O} `{P : EngineParams}.

Abbreviation Eng := (Engine D O).
Abbreviation E := (SM Eng NativeError).

Definition verify (buf checksum : bytes) : bool := bool_decide (sha256 buf = checksum).

(** The node of a replica, if it is configured and healthy. *)
Definition healthy_node (e : Eng) (node_id : string) : option nat :=
  position (λ n, String.eqb (id (spec n)) node_id && healthy (spec n)) (nodes e).

(** ** One extent *)

Definition read_object (ext : ExtentRef) (key : string) : E bytes :=
  e ← sm_get;
  match objects e with
  | None => sm_err Invalid
  | Some o =>
      let '(o, r) := get key o in
      sm_modify (λ e, e <| objects := Some o |>) ;;
      buf ← sm_lift (io r);
      if negb (size buf =? len ext) || negb (verify buf (checksum ext)) then sm_err (Checksum (eid ext)) else mret buf
  end.

(** The position of the node of each replica with one, nodes that are up first. *)
Fixpoint partition_up {A} (up : A → E bool) (l : list A) : E (list A * list A) :=
  match l with
  | [] => mret ([], [])
  | x :: l =>
      b ← up x;
      r ← partition_up up l;
      mret (if b : bool then (x :: r.1, r.2) else (r.1, x :: r.2))
  end.

Definition node_up (i : nat) : E bool :=
  e ← sm_get;
  match nodes e !! i with Some n => is_up n | None => mret false end.

(** The replicas in the order of the read, until one verifies. *)
Fixpoint try_replicas (ext : ExtentRef) (order : list (ReplicaRef * nat)) : E bytes :=
  match order with
  | [] => sm_err (Checksum (eid ext))
  | (r, i) :: order =>
      got ← on_device i (N.to_nat (device_index r)) (read_exact_at (offset r) (len ext));
      match got with
      | None => try_replicas ext order
      | Some (Ok buf) => if verify buf (checksum ext) then mark_up i ;; mret buf else try_replicas ext order
      | Some (Err _) => mark_down i ;; try_replicas ext order
      | Some Panic => sm_panic
      end
  end.

(** [read_shard]. *)
Definition read_shard (ext : ExtentRef) (lay : Ec.EcLayout) (i : nat) : E (option bytes) :=
  e ← sm_get;
  match replicas ext !! i ≫= λ r, pair r <$> healthy_node e (node_id r) with
  | None => mret None
  | Some (r, k) =>
      got ← on_device k (N.to_nat (device_index r)) (read_exact_at (offset r) (Ec.shard_len lay));
      match got with
      | None => mret None
      | Some (Ok buf) => if Ec.verify sha256 lay i buf then mark_up k ;; mret (Some buf) else mret None
      | Some (Err _) => mark_down k ;; mret None
      | Some Panic => sm_panic
      end
  end.

(** Any node of the name is up; reading past the replicas panics. *)
Fixpoint any_up (node_id : string) (l : list (NodeRuntime D)) : E bool :=
  match l with
  | [] => mret false
  | n :: l => if String.eqb (id (spec n)) node_id then up ← is_up n; if up : bool then mret true else any_up node_id l
              else any_up node_id l
  end.

Definition shard_up (ext : ExtentRef) (i : nat) : E bool :=
  e ← sm_get;
  match replicas ext !! i with Some r => any_up (node_id r) (nodes e) | None => sm_panic end.

(** Data shards of nodes that are up, then parity, then the rest in the same order. *)
Definition shard_order (ext : ExtentRef) (lay : Ec.EcLayout) : E (list nat) :=
  r ← partition_up (shard_up ext) (seq 0 (N.to_nat (Ec.data lay + Ec.parity lay)));
  let by_kind l := List.filter (λ i, N.of_nat i <? Ec.data lay) l ++ List.filter (λ i, negb (N.of_nat i <? Ec.data lay)) l in
  mret (by_kind (r.1) ++ by_kind (r.2)).

Definition fill (shards : list (option bytes)) (got : list (nat * res NativeError (option bytes))) : list (option bytes) :=
  foldl (λ l x, match x.2 with Ok (Some b) => <[x.1 := Some b]> l | _ => l end) shards got.

Definition arrived (got : list (res NativeError (option bytes))) : nat :=
  length (List.filter (λ r, match r with Ok (Some _) => true | _ => false end) got).

(** Rounds of reads until enough shards arrived; [fuel] is one more than the shards. *)
Fixpoint read_rounds (fuel : nat) (ext : ExtentRef) (lay : Ec.EcLayout) (have : nat) (order : list nat) (shards : list (option bytes)) : E (list (option bytes)) :=
  if N.of_nat have <? Ec.data lay then
    let need := (N.to_nat (Ec.data lay) - have)%nat in
    match fuel, take need order with
    | S fuel, x :: batch =>
        got ← run_all (read_shard ext lay <$> x :: batch);
        read_rounds fuel ext lay (have + arrived got) (drop need order) (fill shards (zip (x :: batch) got))
    | _, _ => sm_err (Checksum (eid ext))
    end
  else mret shards.

Definition read_shards (ext : ExtentRef) (lay : Ec.EcLayout) : E bytes :=
  order ← shard_order ext lay;
  shards ← read_rounds (S (length order)) ext lay 0 order (replicate (N.to_nat (Ec.data lay + Ec.parity lay)) None);
  data ← sm_lift (meta (Ec.rebuild_data rs_decode lay shards));
  out ← sm_lift (meta (Ec.join lay data (len ext)));
  if verify out (checksum ext) then mret out else sm_err (Checksum (eid ext)).

Definition read_placed (ext : ExtentRef) : E bytes :=
  match object ext with
  | Some key => read_object ext key
  | None =>
      match ec ext with
      | Some lay => read_shards ext lay
      | None =>
          e ← sm_get;
          let rs := rotate (replica_start (eid ext) (length (replicas ext))) (replicas ext) in
          r ← partition_up (λ x : ReplicaRef * nat, node_up (x.2)) (omap (λ r, pair r <$> healthy_node e (node_id r)) rs);
          try_replicas ext (r.1 ++ r.2)
      end
  end.

(** A read that fails because the extent moved meanwhile is tried where it is now. *)
Definition retry_moved (ext : ExtentRef) (id : string) : E bytes :=
  now ← with_catalog (λ c, extent <$> extents c !! id);
  match now with
  | Some now => if bool_decide (now = ext) then sm_err (Checksum id) else read_placed now
  | None => sm_err (Checksum id)
  end.

Definition touch (x : string) : E () :=
  e ← sm_get;
  match objects e with
  | Some _ => t ← now; sm_modify (λ e, e <| reads ::= <[x := t]> |>)
  | None => mret ()
  end.

Definition read_extent (ext : ExtentRef) : E bytes :=
  touch (eid ext) ;;
  stepping (λ e,
    match read_placed ext e with
    | (e, Err (Checksum id)) => retry_moved ext id e
    | r => r
    end).

(** ** A range of bytes *)

(** The extents of a map that overlap a range, which lies within [size]. *)
Definition extents_in (c : Catalog) (m : gmap N ExtentId) (grid sz offset len : N) : res NativeError (list ExtentRef) :=
  match u64_checked_add offset len with
  | Some stop =>
      if sz <? stop then Err Invalid
      else if len =? 0 then Ok []
      else
        let first := offset - offset mod grid in
        mapM (λ x : N * ExtentId, ok_or (extent <$> extents c !! x.2) NotFound)
          (List.filter (λ x : N * ExtentId, (first <=? x.1) && (x.1 <? stop)) (bt_entries m))
  | None => Err Invalid
  end.

(** The extents with a byte in the range, and their part of it. *)
Definition wanted (offset stop : N) (l : list ExtentRef) : list (ExtentRef * N * N) :=
  omap (λ ext,
    let start := N.max (logical_offset ext) offset in
    let stop := N.min (u64_add (logical_offset ext) (len ext)) stop in
    if start <? stop then Some (ext, start, stop) else None) l.

(** [out[a..b].copy_from_slice(&buf[c..d])] panics outside a slice. *)
Definition copy_part (offset : N) (x : ExtentRef * N * N) (buf out : bytes) : res NativeError bytes :=
  let '(ext, start, stop) := x in
  let lo := N.to_nat (start - logical_offset ext) in
  let hi := N.to_nat (stop - logical_offset ext) in
  let at_ := N.to_nat (start - offset) in
  if (length buf <? hi)%nat || (length out <? N.to_nat (stop - offset))%nat then Panic
  else Ok (take at_ out ++ take (hi - lo) (drop lo buf) ++ drop (N.to_nat (stop - offset)) out).

Fixpoint copy_window (offset : N) (l : list ((ExtentRef * N * N) * res NativeError bytes)) (out : bytes) : res NativeError bytes :=
  match l with
  | [] => Ok out
  | (x, r) :: l => buf ← r; out ← copy_part offset x buf out; copy_window offset l out
  end.

(** A single extent is read on the caller's thread, where a panic is one of the read. *)
Definition read_window (window : list (ExtentRef * N * N)) : E (list (res NativeError bytes)) :=
  match window with
  | [(ext, _, _)] => stepping (λ e, match read_extent ext e with (e, Panic) => (e, Panic) | (e, r) => (e, Ok [r]) end)
  | _ => run_all ((λ x : ExtentRef * N * N, read_extent (x.1.1)) <$> window)
  end.

Fixpoint read_windows (offset : N) (l : list (list (ExtentRef * N * N))) (out : bytes) : E bytes :=
  match l with
  | [] => mret out
  | window :: l =>
      bufs ← read_window window;
      out ← sm_lift (copy_window offset (zip window bufs) out);
      read_windows offset l out
  end.

Definition read_range (l : list ExtentRef) (offset len : N) : E bytes :=
  let w := wanted offset (u64_add offset len) l in
  read_windows offset (chunks (length w) READ_PARALLELISM w) (replicate (N.to_nat len) 0).

(** ** Volumes and snapshots *)

(** What a read of a volume looks up. *)
Definition volume_range (volume_id : string) (offset len : N) (c : Catalog) : res NativeError (list ExtentRef) :=
  v ← ok_or (volumes c !! volume_id) NotFound;
  extents_in c (v_extents v) (extent_bytes cfg) (v_size_bytes v) offset len.

Definition read (volume_id : string) (offset len : N) : E bytes :=
  l ← sm_try (λ e, volume_range volume_id offset len (catalog e));
  read_range l offset len.

Definition snapshot_range (snapshot_id : string) (offset len : N) (c : Catalog) : res NativeError (list ExtentRef) :=
  s ← ok_or (snapshots c !! snapshot_id) NotFound;
  let sz := if 0 <? s_size_bytes s then s_size_bytes s else Extents.written_end c (s_extents s) in
  extents_in c (s_extents s) (extent_bytes cfg) sz offset len.

Definition read_snapshot (snapshot_id : string) (offset len : N) : E bytes :=
  l ← sm_try (λ e, snapshot_range snapshot_id offset len (catalog e));
  read_range l offset len.

End read.

End EngineRead.
