(* ===== verification/EngineWrite.v ===== *)
(** * The storage engine: writing ([engine.rs])

    A write places the bytes of each grid cell it touches on the data nodes, as
    replicas or as shards, and commits the new extents as one command.  A write of
    whole cells is in two steps, so that other operations come between its placement
    and its commit, as they do when it holds no lock; any other write is one step. *)

From S2P Require Import Prelude MetaError Ec Catalog FsTree Namespace NativeError Device Objects Placement Inflight Engine EngineRead.

Module EngineWrite.
Import Placement Catalog NativeError Device Objects Engine EngineRead.

Open Scope N_scope.

(** Extents whose replicas are written side by side by one write. *)
Definition WRITE_PARALLELISM : nat := 4.

(** What a data write lands in. *)
Inductive Target :=
| TVolume (volume_id : string)
| TFile (fs : string) (ino : N) (replica : bool).

Section write.
Context {D O : Type} `{BlockStore D} `{ObjectStore O} `{P : EngineParams}.

Abbreviation Eng := (Engine D O).
Abbreviation E := (SM Eng NativeError).

(** [write_fence] over a local log. *)
Definition write_fence : E N := mret 0.

Definition now_ns : E Z := t ← now; mret (Z.of_N t * 1000000)%Z.

(** ** Targets *)

Definition grid (t : Target) (c : Catalog) : res NativeError N :=
  match t with
  | TVolume _ => Ok (extent_bytes cfg)
  | TFile fs _ _ => f ← meta (Namespace.filesystem c fs); Ok (default (extent_bytes cfg) (Catalog.extent_bytes f))
  end.

(** The id of the extent at a grid cell, and the extent. *)
Definition id_at (t : Target) (c : Catalog) (cell : N) : res NativeError (option ExtentId) :=
  match t with
  | TVolume v => Ok (volumes c !! v ≫= λ v, v_extents v !! cell)
  | TFile fs i _ =>
      f ← meta (Namespace.filesystem c fs);
      n ← meta (FsTree.inode f i);
      match kind n with File _ m => Ok (m !! cell) | _ => Err (Metadata MetaError.IsDir) end
  end.

Definition extent_at (t : Target) (c : Catalog) (cell : N) : res NativeError (option ExtentRef) :=
  x ← id_at t c cell;
  Ok (x ≫= λ x, extent <$> extents c !! x).

(** ** Placement *)

Definition place_replica (node_id : string) (fence : N) (data : bytes) (token : N) : E (option ReplicaRef) :=
  i ← node node_id;
  e ← sm_get;
  match nodes e !! i with
  | None => sm_panic
  | Some n =>
      if (length (devices n) =? 0)%nat then sm_panic
      else
        let k := next_device n mod size (devices n) in
        edit_node i (λ n, n <| next_device ::= λ x, u64_add x 1 |>) ;;
        free_off ← take_free token node_id k (size data);
        written ← match free_off with
                  | Some off =>
                      w ← on_device i (N.to_nat k) (write_at fence off data);
                      mret ((λ r : res NativeError (), _ ← r; Ok off) <$> w)
                  | None => on_device i (N.to_nat k) (append fence data)
                  end;
        match written with
        | None | Some Panic => sm_panic
        | Some (Ok offset) => mark_up i ;; mret (Some (mkReplicaRef node_id k offset))
        | Some (Err (Fenced c)) => sm_err (Fenced c)
        | Some (Err _) => mark_down i ;; mret None
        end
  end.

(** Batches of nodes until there are enough replicas or no node is left; [fuel] is the
    length of [order]. *)
Fixpoint place_rounds (fuel : nat) (needed : nat) (fence : N) (chunk : bytes) (token : N) (order : list string) (rs : list ReplicaRef) : E (list ReplicaRef) :=
  if (length rs <? needed)%nat then
    let k := (needed - length rs)%nat in
    match fuel, take k order with
    | S fuel, n :: batch =>
        placed ← run_all ((λ node_id, place_replica node_id fence chunk token) <$> n :: batch);
        more ← sm_lift (collect placed);
        place_rounds fuel needed fence chunk token (drop k order) (rs ++ more)
    | _, _ => mret rs
    end
  else mret rs.

(** The record of an extent placed at [rs]. *)
Definition new_extent (chunk : bytes) (rs : list ReplicaRef) (lay : option Ec.EcLayout) : E ExtentRef :=
  id ← new_uuid;
  t ← now;
  mret (mkExtentRef id 0 (size chunk) (sha256 chunk) rs lay t None).

(** What a round of shards gives: the slots filled, the shards to try elsewhere and
    the nodes left for them. *)
Fixpoint settle_round (needed : N) (l : list (nat * res NativeError (option ReplicaRef))) (spare : list string) (slots : list (option ReplicaRef))
    (retry : list (nat * string)) : res NativeError (list (option ReplicaRef) * list (nat * string) * list string) :=
  match l with
  | [] => Ok (slots, retry, spare)
  | (i, r) :: l =>
      o ← r;
      match o, spare with
      | Some rep, _ => settle_round needed l spare (<[i := Some rep]> slots) retry
      | None, n :: spare => settle_round needed l spare slots (retry ++ [(i, n)])
      | None, [] => Err (InsufficientReplicas needed (size (base.filter is_Some slots)))
      end
  end.

(** Rounds of shard writes until each has a place; [fuel] is the number of nodes. *)
Fixpoint shard_rounds (fuel : nat) (needed fence : N) (shards : list bytes) (token : N) (pending : list (nat * string)) (spare : list string)
    (slots : list (option ReplicaRef)) : E (list (option ReplicaRef)) :=
  match fuel, pending with
  | _, [] => mret slots
  | S fuel, _ =>
      placed ← run_all ((λ x : nat * string, match shards !! x.1 with
                                              | Some shard => place_replica (x.2) fence shard token
                                              | None => sm_panic
                                              end) <$> pending);
      r ← sm_lift (settle_round needed (zip (pending.*1) placed) spare slots []);
      shard_rounds fuel needed fence shards token (r.1.2) (r.2) (r.1.1)
  | _, _ => sm_panic
  end.

Definition place_shards (scheme : Ec.EcScheme) (chunk : bytes) (fence token : N) : E ExtentRef :=
  enc ← sm_lift (meta (Ec.encode sha256 rs_encode scheme chunk));
  let needed := Ec.sc_shards scheme in
  order ← placement_order (Ec.shard_len (Ec.layout enc)) (λ _, false);
  if size order <? needed then sm_err (InsufficientReplicas needed (size order))
  else
    let n := N.to_nat needed in
    slots ← shard_rounds (length order) needed fence (Ec.shards enc) token (zip (seq 0 n) (take n order)) (drop n order) (replicate n None);
    new_extent chunk (omap (λ x, x) slots) (Some (Ec.layout enc)).

(** [place_extent] without erasure coding. *)
Definition place_copies (chunk : bytes) (fence token : N) : E ExtentRef :=
  let needed := Placement.replicas (placement cfg) in
  order ← placement_order (size chunk) (λ _, false);
  if size order <? needed then sm_err (InsufficientReplicas needed (size order))
  else
    rs ← place_rounds (length order) (N.to_nat needed) fence chunk token order [];
    if size rs <? needed then sm_err (InsufficientReplicas needed (size rs)) else new_extent chunk rs None.

Definition place_extent (chunk : bytes) (fence token : N) : E ExtentRef :=
  match erasure cfg with
  | Some scheme =>
      if erasure_min_bytes cfg <=? size chunk then place_shards scheme chunk fence token
      else place_copies chunk fence token
  | None => place_copies chunk fence token
  end.

(** Each cell's content, a few at a time; the extents in cell order. *)
Definition place_window (window : list (N * bytes)) (fence token : N) : E (list (res NativeError ExtentRef)) :=
  match window with
  | [(_, content)] => stepping (λ e, match place_extent content fence token e with (e, Panic) => (e, Panic) | (e, r) => (e, Ok [r]) end)
  | _ => run_all ((λ x : N * bytes, place_extent (x.2) fence token) <$> window)
  end.

Fixpoint place_windows (l : list (list (N * bytes))) (fence token : N) : E (list ExtentRef) :=
  match l with
  | [] => mret []
  | window :: l =>
      placed ← place_window window fence token;
      here ← sm_lift (mapM (λ x : (N * bytes) * res NativeError ExtentRef, ext ← x.2; Ok (ext <| logical_offset := x.1.1 |>)) (zip window placed));
      rest ← place_windows l fence token;
      mret (here ++ rest)
  end.

Definition place_cells (cells : list (N * bytes)) (fence token : N) : E (list ExtentRef) :=
  place_windows (chunks (length cells) WRITE_PARALLELISM cells) fence token.

(** ** Commits *)

Definition extent_end (ext : ExtentRef) : N := u64_add (logical_offset ext) (len ext).

Definition commit_cells (t : Target) (placed : list ExtentRef) (token : N) : E () :=
  cmd ← match t with
        | TVolume v => mret (InstallExtents v placed)
        | TFile fs i replica =>
            ns ← now_ns;
            mret (Fs (InstallFileExtents fs i placed (foldr N.max 0 (extent_end <$> placed)) ns replica))
        end;
  settling token (commit cmd).

Definition commit_extent (t : Target) (logical n : N) (ext : ExtentRef) : E () :=
  let ext := ext <| logical_offset := logical |> in
  cmd ← match t with
        | TVolume v => mret (InstallExtent v logical ext)
        | TFile fs i replica => ns ← now_ns; mret (Fs (InstallFileExtent fs i logical ext (u64_add logical n) ns replica))
        end;
  commit cmd.

Definition install_extent (t : Target) (logical : N) (chunk : bytes) (fence : N) : E () :=
  with_lease (λ token,
    ext ← place_extent chunk fence token;
    settling token (commit_extent t logical (size chunk) ext)).

(** ** Writes of part of a cell *)

(** The new content of a cell: the old bytes, or zeros, around the new ones. *)
Definition cell_content (t : Target) (cell : N) (within : nat) (part : bytes) : E bytes :=
  existing ← sm_try (λ e, extent_at t (catalog e) cell);
  match existing with
  | Some ext =>
      if (0 <? within)%nat || (size part <? len ext) then
        buf ← read_extent ext;
        let buf := if (length buf <? within + length part)%nat then buf ++ replicate (within + length part - length buf) 0 else buf in
        mret (take within buf ++ part ++ drop (within + length part) buf)
      else mret part
  | None => mret (replicate within 0 ++ part)
  end.

(** The cells of the data from [pos] on; [fuel] is the length of the data. *)
Fixpoint cells_from (fuel : nat) (t : Target) (g pos : N) (rest : bytes) : E (list (N * bytes)) :=
  match fuel, rest with
  | _, [] => mret []
  | S fuel, _ =>
      let cell := pos - pos mod g in
      let within := N.to_nat (pos - cell) in
      let n := Nat.min (length rest) (N.to_nat g - within) in
      content ← cell_content t cell within (take n rest);
      cells ← cells_from fuel t g (u64_add pos (N.of_nat n)) (drop n rest);
      mret ((cell, content) :: cells)
  | _, _ => sm_panic
  end.

(** [write_locked]: a single cell is committed on its own. *)
Definition write_locked (t : Target) (offset : N) (data : bytes) (fence : N) : E () :=
  g ← sm_try (λ e, grid t (catalog e));
  cells ← cells_from (length data) t g offset data;
  match cells with
  | [(cell, content)] => install_extent t cell content fence
  | _ => with_lease (λ token, placed ← place_cells cells fence token; commit_cells t placed token)
  end.

(** ** Writes of whole cells *)

(** A write of whole cells between its placement and its commit. *)
Record Aligned := mkAligned { al_target : Target; al_token : N; al_placed : list ExtentRef }.

Definition whole_cells (g offset : N) (data : bytes) : list (N * bytes) :=
  imap (λ i chunk, (u64_add offset (N.of_nat i * g), chunk)) (chunks (length data) (N.to_nat g) data).

(** [write_aligned] to the end of the placement; [None] when it does nothing.  A
    placement that fails gives its lease back. *)
Definition aligned_begin (t : Target) (offset : N) (data : bytes) (in_bounds : Catalog → res NativeError ()) : E (option Aligned) :=
  if (length data =? 0)%nat then mret None
  else
    fence ← write_fence;
    g ← sm_try (λ e, grid t (catalog e));
    if negb (offset mod g =? 0) || negb (size data mod g =? 0) then mret None
    else
      sm_try (λ e, in_bounds (catalog e)) ;;
      token ← lease;
      stepping (λ e,
        match place_cells (whole_cells g offset data) fence token e with
        | (e, Ok placed) => (e, Ok (Some (mkAligned t token placed)))
        | (e, Err err) => (e <| inflight ::= Inflight.release token |>, Err err)
        | (e, Panic) => (e <| inflight ::= Inflight.release token |>, Panic)
        end).

(** The rest of [write_aligned]. *)
Definition aligned_end (a : Aligned) (in_bounds : Catalog → res NativeError ()) : E () := λ e,
  let '(e, r) := (sm_try (λ e, in_bounds (catalog e)) ;; commit_cells (al_target a) (al_placed a) (al_token a)) e in
  (e <| inflight ::= Inflight.release (al_token a) |>, r).

Definition write_aligned (t : Target) (offset : N) (data : bytes) (in_bounds : Catalog → res NativeError ()) : E bool :=
  a ← aligned_begin t offset data in_bounds;
  match a with
  | None => mret false
  | Some a => aligned_end a in_bounds ;; mret true
  end.

(** ** Volumes *)

Definition in_bounds (volume_id : string) (offset : N) (data : bytes) (c : Catalog) : res NativeError () :=
  sz ← ok_or (v_size_bytes <$> volumes c !! volume_id) NotFound;
  if sz <? u64_saturating_add offset (size data) then Err Invalid else Ok ().

(** [write] when it is not of whole cells. *)
Definition write_part (volume_id : string) (offset : N) (data : bytes) : E () :=
  fence ← write_fence;
  sm_try (λ e, in_bounds volume_id offset data (catalog e)) ;;
  write_locked (TVolume volume_id) offset data fence.

Definition write (volume_id : string) (offset : N) (data : bytes) : E () :=
  if (length data =? 0)%nat then mret ()
  else
    d ← write_aligned (TVolume volume_id) offset data (in_bounds volume_id offset data);
    if d : bool then mret () else write_part volume_id offset data.

Definition create_volume_as (id name : string) (sz : N) : E string :=
  if sz =? 0 then sm_err Invalid else commit (CreateVolume id name sz) ;; mret id.

Definition create_volume (name : string) (sz : N) : E string := id ← new_uuid; create_volume_as id name sz.

Definition delete_volume (volume_id : string) : E () := commit (DeleteVolume volume_id).

Definition resize_volume (volume_id : string) (sz : N) : E () := commit (ResizeVolume volume_id sz).

Definition clone_snapshot_as (id snapshot_id name : string) (sz : option N) : E string :=
  commit (CloneSnapshot id name snapshot_id sz) ;; mret id.

Definition clone_snapshot (snapshot_id name : string) (sz : option N) : E string :=
  id ← new_uuid; clone_snapshot_as id snapshot_id name sz.

Definition create_snapshot_as (id volume_id name : string) : E string :=
  commit (CreateSnapshot id volume_id name) ;; mret id.

Definition create_snapshot (volume_id name : string) : E string := id ← new_uuid; create_snapshot_as id volume_id name.

Definition delete_snapshot (snapshot_id : string) : E () := commit (DeleteSnapshot snapshot_id).

End write.

End EngineWrite.
