(* ===== verification/EngineRepair.v ===== *)
(** * The storage engine: reclaiming, repairing and tiering ([engine.rs], [gc.rs], [engine/rebuild.rs], [engine/tier.rs])

    What runs in the background: extents nothing names are given back, bad replicas
    and shards are rebuilt on other nodes, and cold extents move to object storage. *)

From S2P Require Import Prelude MetaError FreeList Ec Catalog NativeError Device Objects Placement Inflight Engine EngineRead EngineWrite.

Module EngineRepair.
Import Placement Catalog NativeError Device Objects Engine EngineRead EngineWrite.

Open Scope N_scope.

Record GcStats := mkGcStats { gc_candidates : N; gc_reclaimed : N; freed_bytes : N }.
#[export] Instance eta_GcStats : Eta GcStats := λ s, mkGcStats (gc_candidates s) (gc_reclaimed s) (freed_bytes s).

Record RepairStats := mkRepairStats {
  extents_checked : N;
  replicas_repaired : N;
  unrecoverable : N;
  deferred : N;
  bytes_read : N;
  bytes_written : N;
}.
#[export] Instance eta_RepairStats : Eta RepairStats :=
  λ s, mkRepairStats (extents_checked s) (replicas_repaired s) (unrecoverable s) (deferred s) (bytes_read s) (bytes_written s).

Definition no_repairs : RepairStats := mkRepairStats 0 0 0 0 0 0.

(** [RepairStats::add]. *)
Definition add_stats (a b : RepairStats) : RepairStats :=
  mkRepairStats (u64_add (extents_checked a) (extents_checked b)) (u64_add (replicas_repaired a) (replicas_repaired b))
    (u64_add (unrecoverable a) (unrecoverable b)) (u64_add (deferred a) (deferred b)) (u64_add (bytes_read a) (bytes_read b))
    (u64_add (bytes_written a) (bytes_written b)).

Record TierPolicy := mkTierPolicy { cold_after : N; min_bytes : N }.

Record TierStats := mkTierStats { t_candidates : N; t_tiered : N; t_bytes : N; t_deferred : N; orphans_deleted : N }.
#[export] Instance eta_TierStats : Eta TierStats :=
  λ s, mkTierStats (t_candidates s) (t_tiered s) (t_bytes s) (t_deferred s) (orphans_deleted s).

(** An extent with parts on lost nodes; [d_spare] is how many more it can lose. *)
Record Degraded := mkDegraded { d_extent_id : string; d_lost : N; d_spare : Z }.

(** The entries by number, then by name. *)
Definition ranked_le (a b : Z * string) : Prop := (a.1 < b.1)%Z ∨ a.1 = b.1 ∧ String.le (a.2) (b.2).
#[export] Instance ranked_le_dec : RelDecision ranked_le := λ a b, ltac:(unfold ranked_le; apply _).

Definition collect_candidates (c : Catalog) : list ExtentId :=
  (List.filter (λ x : ExtentId * ExtentMeta, (refs (x.2) =? 0) && negb (tombstoned (x.2))) (bt_entries (extents c))).*1.

Section repair.
Context {D O : Type} `{BlockStore D} `{ObjectStore O} `{P : EngineParams}.

Abbreviation Eng := (Engine D O).
Abbreviation E := (SM Eng NativeError).

(** ** Reclaiming extents *)

(** [let _ = store.delete(key)]. *)
Definition drop_object (key : string) : E () :=
  sm_modify (λ e, match objects e with Some o => e <| objects := Some (fst (remove key o)) |> | None => e end).

Fixpoint reclaim_all (l : list ExtentId) (n : N) : E N :=
  match l with
  | [] => mret n
  | x :: l =>
      key ← with_catalog (λ c, extents c !! x ≫= λ m, object (extent m));
      commit (MarkExtentReclaimed x) ;;
      match key with Some key => drop_object key | None => mret () end ;;
      reclaim_all l (u64_add n 1)
  end.

Definition gc_once : E GcStats :=
  l ← with_catalog collect_candidates;
  before ← with_catalog (λ c, FreeList.total_bytes (free c));
  n ← reclaim_all l 0;
  after ← with_catalog (λ c, FreeList.total_bytes (free c));
  mret (mkGcStats (size l) n (after - before)).

(** ** Repair *)

(** The nodes and hosts of the replicas that stay. *)
Definition skip_taken (e : Eng) (others : list ReplicaRef) (n : Node) : bool :=
  existsb (λ r, String.eqb (node_id r) (id n)) others
  || (require_distinct_hosts (placement cfg)
      && existsb (λ r, match find_node e (node_id r) ≫= λ i, nodes e !! i with
                       | Some m => String.eqb (host (failure_domain (spec m))) (host (failure_domain n))
                       | None => false
                       end) others).

(** The first node that takes the data. *)
Fixpoint place_first (order : list string) (fence : N) (data : bytes) (token : N) : E (option ReplicaRef) :=
  match order with
  | [] => mret None
  | n :: order =>
      r ← place_replica n fence data token;
      match r with Some r => mret (Some r) | None => place_first order fence data token end
  end.

(** What one replacement came to. *)
Inductive Replaced := Moved (new : ReplicaRef) | Skipped | Refused.

Definition replace_one (ext : ExtentRef) (current : list ReplicaRef) (old : ReplicaRef) (data : bytes) (fence : N) : E Replaced :=
  e ← sm_get;
  order ← placement_order (size data) (skip_taken e (List.filter (λ r, negb (bool_decide (r = old))) current));
  with_lease (λ token,
    placed ← place_first order fence data token;
    match placed with
    | None => mret Skipped
    | Some new =>
        stepping (λ e,
          match settling token (commit (ReplaceReplica (eid ext) old new)) e with
          | (e, Ok _) => (e, Ok (Moved new))
          | (e, Err (Metadata _)) | (e, Err (Raft (Rejected _))) => (e, Ok Refused)
          | (e, Err err) => (e, Err err)
          | (e, Panic) => (e, Panic)
          end)
    end).

Definition put_replica (old new : ReplicaRef) (l : list ReplicaRef) : list ReplicaRef :=
  match position (λ r, bool_decide (r = old)) l with Some i => <[i := new]> l | None => l end.

Fixpoint replace_all (ext : ExtentRef) (current : list ReplicaRef) (bad : list (ReplicaRef * bytes)) (fence : N) (st : RepairStats) : E RepairStats :=
  match bad with
  | [] => mret st
  | (old, data) :: bad =>
      r ← replace_one ext current old data fence;
      match r with
      | Skipped => replace_all ext current bad fence (st <| deferred ::= λ n, u64_add n 1 |>)
      | Refused => mret (st <| deferred ::= λ n, u64_add n 1 |>)
      | Moved new =>
          replace_all ext (put_replica old new current) bad fence
            (st <| replicas_repaired ::= λ n, u64_add n 1 |> <| bytes_written ::= λ n, u64_add n (size data) |>)
      end
  end.

(** [replace_replicas]: nothing happens when the extent changed since it was read. *)
Definition replace_replicas (ext : ExtentRef) (bad : list (ReplicaRef * bytes)) (fence : N) (st : RepairStats) : E RepairStats :=
  unchanged ← with_catalog (λ c, match extents c !! eid ext with
                                 | Some m => bool_decide (replicas (extent m) = replicas ext)
                                 | None => false
                                 end);
  if unchanged : bool then replace_all ext (replicas ext) bad fence st else mret (st <| deferred ::= λ n, u64_add n 1 |>).

(** The shards that can be read, with the bytes read for them. *)
Fixpoint probe_shards (ext : ExtentRef) (lay : Ec.EcLayout) (lost : gset string) (l : list nat) (st : RepairStats) : E (list (option bytes) * RepairStats) :=
  match l with
  | [] => mret ([], st)
  | i :: l =>
      match replicas ext !! i with
      | None => sm_panic
      | Some r =>
          b ← (if bool_decide (node_id r ∈ lost) then mret None else read_shard ext lay i);
          rest ← probe_shards ext lay lost l (st <| bytes_read ::= λ n, u64_add n (match b with Some b => size b | None => 0 end) |>);
          mret (b :: rest.1, rest.2)
      end
  end.

(** The replicas that fail, and the content of one that does not. *)
Fixpoint probe_replicas (ext : ExtentRef) (lost : gset string) (l : list ReplicaRef) (good : option bytes) (st : RepairStats) :
    E (option bytes * list ReplicaRef * RepairStats) :=
  match l with
  | [] => mret (good, [], st)
  | r :: l =>
      let bad st := rest ← probe_replicas ext lost l good st; mret (rest.1.1, r :: rest.1.2, rest.2) in
      e ← sm_get;
      match position (λ n, String.eqb (id (spec n)) (node_id r) && healthy (spec n) && negb (bool_decide (id (spec n) ∈ lost))) (nodes e) with
      | None => bad st
      | Some i =>
          got ← on_device i (N.to_nat (device_index r)) (read_exact_at (offset r) (len ext));
          match got with
          | None => bad st
          | Some (Ok buf) =>
              if verify buf (checksum ext) then
                mark_up i ;;
                probe_replicas ext lost l (match good with Some b => Some b | None => Some buf end) (st <| bytes_read ::= λ n, u64_add n (size buf) |>)
              else bad st
          | Some (Err _) => mark_down i ;; bad st
          | Some Panic => sm_panic
          end
      end
  end.

Definition repair_extent_with (x : string) (lost : gset string) (fence : N) (st : RepairStats) : E RepairStats :=
  m ← with_catalog (λ c, extent <$> extents c !! x);
  match m with
  | None => mret st
  | Some ext =>
      let st := st <| extents_checked ::= λ n, u64_add n 1 |> in
      match ec ext with
      | Some lay =>
          p ← probe_shards ext lay lost (seq 0 (N.to_nat (Ec.data lay + Ec.parity lay))) st;
          let bad := List.filter (λ i, bool_decide (p.1 !! i = Some None)) (seq 0 (length (p.1))) in
          if (length bad =? 0)%nat then mret (p.2)
          else
            match Ec.rebuild rs_encode rs_decode lay (p.1) with
            | Err _ => mret ((p.2) <| unrecoverable ::= λ n, u64_add n 1 |>)
            | Panic => sm_panic
            | Ok all =>
                match mapM (λ i, r ← replicas ext !! i; b ← all !! i; Some (r, b)) bad with
                | Some bad => replace_replicas ext bad fence (p.2)
                | None => sm_panic
                end
            end
      | None =>
          p ← probe_replicas ext lost (replicas ext) None st;
          match p.1.2, p.1.1 with
          | [], _ => mret (p.2)
          | _, None => mret ((p.2) <| unrecoverable ::= λ n, u64_add n 1 |>)
          | bad, Some data => replace_replicas ext ((λ r, (r, data)) <$> bad) fence (p.2)
          end
      end
  end.

Fixpoint repair_all (l : list string) (fence : N) (st : RepairStats) : E RepairStats :=
  match l with
  | [] => mret st
  | x :: l => st ← repair_extent_with x ∅ fence st; repair_all l fence st
  end.

Definition repair_once : E RepairStats :=
  fence ← write_fence;
  ids ← with_catalog (λ c, bt_keys (extents c));
  repair_all ids fence no_repairs.

(** ** What the rebuild controller asks *)

(** [repair_extent]. *)
Definition repair_extent (x : string) (lost : gset string) : E RepairStats :=
  fence ← write_fence; repair_extent_with x lost fence no_repairs.

(** Nodes configured unhealthy or failing for at least [after]. *)
Definition lost_nodes (after : N) : E (gset string) :=
  t ← now;
  e ← sm_get;
  mret (list_to_set ((λ n, id (spec n)) <$>
    List.filter (λ n, negb (healthy (spec n)) || match down_since n with Some s => after <=? t - s | None => false end) (nodes e))).

Fixpoint probe_from (l : list nat) : E () :=
  match l with
  | [] => mret ()
  | i :: l =>
      up ← node_up i;
      (if up : bool then
         got ← on_device i 0 device_len;
         match got with
         | None => mret ()
         | Some (Ok _) => mark_up i
         | Some (Err _) => mark_down i
         | Some Panic => sm_panic
         end
       else mret ()) ;;
      probe_from l
  end.

Definition probe_nodes : E () := e ← sm_get; probe_from (seq 0 (length (nodes e))).

Definition degraded (lost : gset string) (m : ExtentMeta) : option Degraded :=
  let e := extent m in
  let n := length (List.filter (λ r, bool_decide (node_id r ∈ lost)) (replicas e)) in
  if (n =? 0)%nat then None
  else
    let tolerance := match ec e with Some lay => Z.of_N (Ec.parity lay) | None => Z.of_nat (length (replicas e) - 1) end in
    Some (mkDegraded (eid e) (N.of_nat n) (tolerance - Z.of_nat n)).

Definition more_urgent (a b : Degraded) : Prop := ranked_le (d_spare a, d_extent_id a) (d_spare b, d_extent_id b).
#[global] Instance more_urgent_dec : RelDecision more_urgent := λ a b, ranked_le_dec _ _.

Definition degraded_extents (lost : gset string) : E (list Degraded) :=
  if bool_decide (lost = ∅) then mret []
  else with_catalog (λ c, merge_sort more_urgent (omap (degraded lost) (bt_values (extents c)))).

Definition extent_ids_after (after : option string) (n : nat) : E (list string) :=
  with_catalog (λ c, take n (List.filter (λ x, match after with Some a => negb (String.leb x a) | None => true end) (bt_keys (extents c)))).

(** ** Tiering *)

Definition object_key (x : string) : string := String.append (object_prefix cfg) (String.append "extents/" x).

Definition cold_extents (policy : TierPolicy) : E (list string) :=
  t ← now;
  e ← sm_get;
  let cold m :=
    let x := extent m in
    let touched := N.max (N.max (created_ms x) (opened_ms e)) (default 0 (reads e !! eid x)) in
    if (0 <? refs m) && negb (tombstoned m) && bool_decide (object x = None) && negb (length (replicas x) =? 0)%nat
       && (min_bytes policy <=? len x) && (cold_after policy <=? t - touched)
    then Some (Z.of_N touched, eid x) else None in
  mret (snd <$> merge_sort ranked_le (omap cold (bt_values (extents (catalog e))))).

Definition put_object (key : string) (data : bytes) : E () :=
  e ← sm_get;
  match objects e with
  | None => sm_err Invalid
  | Some o => let '(o, r) := put key data o in sm_modify (λ e, e <| objects := Some o |>) ;; sm_lift (io r)
  end.

Definition tier_extent (x : string) : E (option N) :=
  e ← sm_get;
  match objects e with
  | None => sm_err Invalid
  | Some _ =>
      m ← with_catalog (λ c, extent <$> extents c !! x);
      match m with
      | None => mret None
      | Some ext =>
          if bool_decide (object ext ≠ None) || (length (replicas ext) =? 0)%nat then mret None
          else
            data ← read_placed ext;
            let key := object_key x in
            put_object key data ;;
            stepping (λ e,
              match commit (TierExtent x key (replicas ext)) e with
              | (e, Ok _) => (e <| reads ::= delete x |>, Ok (Some (size data)))
              | (e, Err (Metadata _)) | (e, Err (Raft (Rejected _))) => (drop_object key ;; mret None) e
              | (e, Err err) => (e, Err err)
              | (e, Panic) => (e, Panic)
              end)
      end
  end.

Fixpoint delete_orphans (l : list string) (n : N) : E N :=
  match l with
  | [] => mret n
  | key :: l =>
      e ← sm_get;
      match objects e with
      | None => sm_panic
      | Some o =>
          let '(o, r) := remove key o in
          sm_modify (λ e, e <| objects := Some o |>) ;; sm_lift (io r) ;; delete_orphans l (u64_add n 1)
      end
  end.

Definition sweep_objects : E N :=
  e ← sm_get;
  match objects e with
  | None => mret 0
  | Some o =>
      let '(o, r) := list_keys (object_key EmptyString) o in
      sm_modify (λ e, e <| objects := Some o |>) ;;
      keys ← sm_lift (io r);
      live ← with_catalog (λ c, omap (λ m, object (extent m)) (bt_values (extents c)));
      delete_orphans (List.filter (λ k, negb (bool_decide (k ∈ live))) keys) 0
  end.

(** The loop of [tier_once]; [stop k] is the answer of the [k]-th call. *)
Fixpoint tier_all (stop : nat → bool) (k : nat) (l : list string) (st : TierStats) : E TierStats :=
  match l with
  | [] => mret st
  | x :: l =>
      if stop k then mret st
      else
        r ← tier_extent x;
        tier_all stop (S k) l
          (match r with
           | Some n => st <| t_tiered ::= λ m, u64_add m 1 |> <| t_bytes ::= λ m, u64_add m n |>
           | None => st <| t_deferred ::= λ m, u64_add m 1 |>
           end)
  end.

Definition tier_once (policy : TierPolicy) (stop : nat → bool) : E TierStats :=
  n ← sweep_objects;
  cold ← cold_extents policy;
  st ← tier_all stop 0 cold (mkTierStats (size cold) 0 0 0 n);
  t ← now;
  sm_modify (λ e, e <| reads ::= base.filter (λ x : string * N, t - cold_after policy <= x.2) |>) ;;
  mret st.

End repair.

End EngineRepair.
