(* ===== verification/EngineMeta.v ===== *)
(** * Commits of the storage engine

    Over a local log, a command is committed as a whole or not at all, whatever the
    disk does, and what a restart loads is the catalog the engine has; except that a
    compaction whose directory sync fails leaves the log appending to a file that a
    restart does not read. *)

From S2P Require Import Prelude MetaError FreeList Catalog Extents Metadata NoStore MetaSpec Wal WalSpec NativeError Device Objects Placement Inflight Engine.

Module EngineMeta.
Import Placement Catalog Extents Metadata MetaSpec NativeError Device Objects Engine.

Open Scope N_scope.

Section meta.
Context {D O : Type} `{BlockStore D} `{ObjectStore O} `{P : EngineParams}.

Abbreviation Eng := (Engine D O).
Abbreviation E := (SM Eng NativeError).

(** Everything but the metadata and its disk stays. *)
Record meta_only (e e' : Eng) : Prop := {
  mo_nodes : nodes e' = nodes e;
  mo_inflight : inflight e' = inflight e;
  mo_reads : reads e' = reads e;
  mo_objects : objects e' = objects e;
  mo_readings : readings e' = readings e;
  mo_clock : clock e' = clock e;
  mo_uuid : uuid e' = uuid e;
  mo_uuids : uuids e' = uuids e;
  mo_dir : dir_sync e' = dir_sync e;
}.

#[global] Instance meta_only_po : PreOrder meta_only.
Proof. split; [by intros e; split|]. intros e1 e2 e3 [] []. by split; etrans. Qed.

(** A restart loads the catalog. *)
Record durable (e : Eng) : Prop := {
  du_attached : attached e = true;
  du_replay : replay_records (WalSpec.l_recs (wal e)) (stored e) = Ok (catalog e);
  du_covered : Forall (λ r, Wal.index r <= applied_index (catalog e)) (WalSpec.l_recs (wal e));
  du_stored : applied_index (stored e) <= applied_index (catalog e);
  du_last : applied_index (catalog e) <= WalSpec.l_last (wal e);
  du_dir : ∀ k, dir_sync e k = true;
}.

(** [c'] is [c] after the command. *)
Definition commits (cmd : MetaCommand) (c c' : Catalog) : Prop :=
  ∃ term index s, applied_index c < index ∧ exec term cmd (mkCtx c []) = (s, Ok ()) ∧ c' = applied term index (cat s).

Lemma replay_app l1 l2 c : replay_records (l1 ++ l2) c = (c' ← replay_records l1 c; replay_records l2 c').
Proof.
  revert c. induction l1 as [|r l1 IH]; intros c; [done|]. simpl. case_match; [|apply IH].
  destruct (apply _ _ _ c) as [c' [?|?|]]; [apply IH|done..].
Qed.

Lemma replay_covered l c : Forall (λ r, Wal.index r <= applied_index c) l → replay_records l c = Ok c.
Proof. induction 1 as [|r l Hr _ IH]; [done|]. simpl. by rewrite (proj2 (N.ltb_ge _ _) Hr). Qed.

(** [apply] of a new index, in terms of [exec]. *)
Lemma apply_exec term index cmd c :
  applied_index c < index →
  apply term index cmd c =
    match exec term cmd (mkCtx c []) with
    | (s, Ok _) => (applied term index (cat s), Ok (gc s))
    | (s, Err e) => (cat s, Err e)
    | (s, Panic) => (cat s, Panic)
    end.
Proof.
  intros Hi. unfold apply, apply_inner. destruct (N.leb_spec index (applied_index c)); [lia|].
  pose proof (NoStore.nsm_exec term cmd (mkCtx c [])) as Hs.
  destruct (exec term cmd (mkCtx c [])) as [s [u|e|]]; [done| |done]. by destruct e.
Qed.

(** What a restart would see, loaded over any catalog. *)
Lemma reload_durable recs e c :
  (∀ k, dir_sync e k = true) → replay_records recs (stored e) = Ok c → Forall (λ r, Wal.index r <= applied_index c) recs →
  applied_index (stored e) <= applied_index c →
  ∃ e', reload recs e = (e', Ok ()) ∧ meta_only e e' ∧ durable e' ∧ catalog e' = c.
Proof.
  intros Hd Hr Hc Hs. unfold reload, load_local. rewrite Hr. simpl. eexists. split; [done|]. split; [by split|]. split; [|done].
  split; simpl; try done. lia.
Qed.

Lemma save_checkpoint_durable e :
  durable e →
  wp save_checkpoint e (λ _ e', meta_only e e' ∧ durable e' ∧ catalog e' = catalog e ∧ applied_index (stored e') = applied_index (catalog e))
    (λ err e', meta_only e e' ∧ durable e' ∧ catalog e' = catalog e ∧ err = Io).
Proof.
  intros [Ha Hr Hc Hs Hl Hd]. unfold save_checkpoint, disk_outcome. wp_simpl.
  assert (replay_records (WalSpec.l_recs (wal e)) (catalog e) = Ok (catalog e)) as Hr' by (by apply replay_covered).
  destruct (disk e (saves e)); wp_simpl; (split; [by split|]); (split; [|done]); split; simpl; try done; lia.
Qed.

Lemma compact_durable i e :
  durable e → i <= applied_index (stored e) →
  wp (compact_through i) e (λ _ e', meta_only e e' ∧ durable e' ∧ catalog e' = catalog e)
    (λ err e', meta_only e e' ∧ durable e' ∧ catalog e' = catalog e ∧ err = WalFault).
Proof.
  intros [Ha Hr Hc Hs Hl Hd] Hi. unfold compact_through, disk_outcome. wp_simpl.
  assert (∀ l c, i <= applied_index c → replay_records (List.filter (λ r, i <? Wal.index r) l) c = replay_records l c) as Hf.
  { clear. induction l as [|r l IH]; intros c Hi; [done|]. simpl. destruct (N.ltb_spec i (Wal.index r)); simpl.
    - destruct (N.ltb_spec (applied_index c) (Wal.index r)) as [Hlt|]; [|by apply IH].
      rewrite apply_exec by done. destruct (exec _ _ _) as [s [u|err|]]; [|done..]. apply IH. simpl. lia.
    - destruct (N.ltb_spec (applied_index c) (Wal.index r)); [lia|by apply IH]. }
  assert (∀ k, dir_sync (e <| saves ::= N.succ |>) k = true) as Hd1 by done.
  destruct (disk e (saves e)); wp_simpl; [|by split|]; rewrite Hd1; wp_simpl; (split; [by split|]); (split; [|done]);
    split; simpl; try done; try lia; [by rewrite Hf| |by rewrite Hf|]; apply Forall_forall; intros r [? _]%list_elem_of_In%filter_In;
    rewrite Forall_forall in Hc; apply Hc; by apply list_elem_of_In.
Qed.

(** A new record is written, or what a restart sees is loaded: the catalog before it or
    the one after. *)
Lemma append_durable e e1 c1 rec :
  durable e → e1 = e <| catalog := c1 |> →
  apply (Wal.term rec) (Wal.index rec) (Wal.command rec) (catalog e) = (c1, Ok []) ∧ c1 = catalog e ∧ Wal.index rec <= applied_index (catalog e) ∨
  (∃ l, apply (Wal.term rec) (Wal.index rec) (Wal.command rec) (catalog e) = (c1, Ok l)) ∧ applied_index (catalog e) < Wal.index rec ∧ applied_index c1 = Wal.index rec →
  wp (append_record rec) e1
    (λ _ e', meta_only e e' ∧ durable e' ∧ catalog e' = c1 ∧ applied_index (catalog e) < Wal.index rec)
    (λ err e', meta_only e e' ∧ durable e' ∧ (catalog e' = catalog e ∨ catalog e' = c1 ∧ applied_index (catalog e) < Wal.index rec) ∧ err = WalFault).
Proof.
  intros Hdu -> Hrec. pose proof Hdu as [Ha Hr Hc Hs Hl Hd]. unfold append_record. wp_simpl. cbn [wal].
  assert (∀ e2 : Eng, stored e2 = stored e → dir_sync e2 = dir_sync e → meta_only e e2 →
    wp (reload (WalSpec.l_recs (wal e)) ;; sm_err WalFault) e2 (λ (_ : ()) _, False)
      (λ err e', meta_only e e' ∧ durable e' ∧ (catalog e' = catalog e ∨ catalog e' = c1 ∧ applied_index (catalog e) < Wal.index rec) ∧ err = WalFault)) as Hre.
  { intros e2 Es Ed Hm. rewrite wp_bind. destruct (reload_durable (WalSpec.l_recs (wal e)) e2 (catalog e)) as (e' & E & Hm' & Hd' & Hc'); rewrite ?Es, ?Ed; try done.
    unfold wp at 1. rewrite E. rewrite wp_err. split; [by etrans|]. auto. }
  change (wal (e <| catalog := c1 |>)) with (wal e). case_match eqn:Hi; [eapply wp_mono; [by apply Hre|done|done]|].
  apply N.leb_gt in Hi. destruct Hrec as [(? & ? & ?)|[[l Hrec] [Hnew Happ]]]; [lia|].
  unfold disk_outcome. wp_simpl. change (disk (e <| catalog := c1 |>)) with (disk e). change (saves (e <| catalog := c1 |>)) with (saves e).
  assert (replay_records (WalSpec.l_recs (wal e) ++ [rec]) (stored e) = Ok c1) as Hr1.
  { rewrite replay_app, Hr. simpl. rewrite (proj2 (N.ltb_lt _ _) Hnew), Hrec. done. }
  assert (Forall (λ r, Wal.index r <= applied_index c1) (WalSpec.l_recs (wal e) ++ [rec])) as Hc1.
  { apply Forall_app. split; [|apply Forall_singleton; lia]. eapply Forall_impl; [exact Hc|]. simpl. lia. }
  destruct (disk e (saves e)).
  - wp_simpl. split; [by split|]. split; [|done]. split; simpl; unfold with_record; simpl; rewrite ?Ha; try done; lia.
  - eapply wp_mono; [by apply Hre|done|done].
  - rewrite wp_bind. replace (with_record rec (e <| catalog := c1 |>)) with (WalSpec.l_recs (wal e) ++ [rec]) by (unfold with_record; simpl; by rewrite Ha).
    destruct (reload_durable (WalSpec.l_recs (wal e) ++ [rec]) (e <| catalog := c1 |> <| saves ::= N.succ |>) c1) as (e' & E & Hm' & Hd' & Hc'); try done; [simpl; lia|].
    unfold wp at 1. rewrite E. rewrite wp_err. split; [by destruct Hm'|]. split_and!; auto.
Qed.

(** A command is committed as a whole or not at all. *)
Lemma commit_effect cmd e :
  durable e → catalog_ok (catalog e) → accepts (catalog e) cmd →
  wp (commit cmd) e (λ _ e', meta_only e e' ∧ durable e' ∧ commits cmd (catalog e) (catalog e'))
    (λ err e', meta_only e e' ∧ durable e' ∧ (catalog e' = catalog e ∨ commits cmd (catalog e) (catalog e')) ∧
      match err with Metadata _ => catalog e' = catalog e | Io | WalFault => True | _ => False end).
Proof.
  intros Hd Hok Hacc. unfold commit. wp_simpl. set (index := u64_add _ 1). set (term := N.max _ 1).
  destruct (N.le_gt_cases index (applied_index (catalog e))) as [Hle|Hgt].
  { unfold apply, apply_inner. rewrite (proj2 (N.leb_le _ _) Hle). wp_simpl.
    eapply wp_mono; [apply (append_durable e _ (catalog e)); [done|done|left; simpl; split_and!; [|done|done]]| |].
    - unfold apply, apply_inner. by rewrite (proj2 (N.leb_le _ _) Hle).
    - intros [] e' (_ & _ & _ & Hlt). simpl in Hlt. lia.
    - intros err e' (Hm & Hd' & Hc & ->). split_and!; try done. left. destruct Hc as [|[_ Hlt]]; [done|simpl in Hlt; lia]. }
  rewrite apply_exec by done. pose proof (exec_ok term cmd (catalog e) Hok Hacc) as Hex.
  destruct (exec term cmd (mkCtx (catalog e) [])) as [s [[]|err|]] eqn:Ex; [| |done].
  2:{ subst s. wp_simpl. split; [by split|]. split; [by destruct Hd|]. auto. }
  assert (commits cmd (catalog e) (applied term index (cat s))) as Hcom by (exists term, index, s; done).
  wp_simpl. eapply wp_mono; [apply (append_durable e _ (applied term index (cat s))); [done|done|right; split_and!; [|done|done]]| |].
  - exists (gc s). simpl. rewrite apply_exec by done. by rewrite Ex.
  - intros [] e1 (Hm & Hd1 & Hc1 & _). wp_simpl. case_match.
    2:{ wp_simpl. rewrite Hc1. done. }
    wp_simpl. eapply wp_mono; [by apply save_checkpoint_durable| |].
    + intros [] e2 (Hm2 & Hd2 & Hc2 & Hs2). wp_simpl. eapply wp_mono; [apply compact_durable; [done|]| |].
      * rewrite Hs2, Hc1. done.
      * intros n e3 (Hm3 & Hd3 & Hc3). wp_simpl. rewrite Hc3, Hc2, Hc1. split; [|done]. by repeat (etrans; [done|]).
      * intros err e3 (Hm3 & Hd3 & Hc3 & ->). rewrite Hc3, Hc2, Hc1. split; [by repeat (etrans; [done|])|]. auto.
    + intros err e2 (Hm2 & Hd2 & Hc2 & ->). rewrite Hc2, Hc1. split; [by etrans|]. auto.
  - intros err e1 (Hm & Hd1 & Hc1 & ->). split_and!; try done. destruct Hc1 as [|[-> _]]; auto.
Qed.

End meta.

(** ** A log that a restart does not read *)

Definition demo_config : EngineConfig := mkEngineConfig 4 default_policy 1024 5000 None 65536 "atlas-native/".

Definition demo_params : EngineParams := {|
  cfg := demo_config;
  sha256 b := b;
  rs_encode _ _ _ := None;
  rs_decode _ _ _ _ := None;
|}.

(** An engine opened over an empty directory, whose directory syncs fail. *)
Definition unsynced : res NativeError (Engine FileDevice MemStore) :=
  open_with_devices (P := demo_params) [] empty_catalog [] None (λ k, k) (λ _, EmptyString) (λ _, DiskOk) (λ _, false).

(** C39. A checkpoint whose directory sync fails loses what is committed after it:
    the log goes on appending to the file that was replaced, so a command is
    acknowledged and a restart does not see it. *)
Theorem acknowledged_commit_lost :
  ∃ e e1 e2 c w,
    unsynced = Ok e ∧ checkpoint e = (e1, Err WalFault) ∧
    commit (P := demo_params) (CreateVolume "v" "vol" 4096) e1 = (e2, Ok ()) ∧ is_Some (volumes (catalog e2) !! "v") ∧
    load_local (stored e2) (WalSpec.l_recs (wal e2)) = Ok (c, w) ∧ volumes c !! "v" = None.
Proof.
  do 5 eexists. split; [vm_compute; reflexivity|]. split; [vm_compute; reflexivity|]. split; [vm_compute; reflexivity|].
  split; [by eexists; vm_compute|]. split; [vm_compute; reflexivity|]. by vm_compute.
Qed.

End EngineMeta.
