(* ===== verification/EngineData.v ===== *)
(** * Reads of the storage engine return what was written

    How the devices of an engine evolve, which operations leave everything that
    matters alone, and that an extent is read back as the bytes it was made of:
    whatever the devices answer, a read of an extent that describes [b] returns [b]
    or an error. *)

From S2P Require Import Prelude MetaError FreeList Ec Catalog Extents NativeError Device Objects Placement Inflight Engine EngineRead.

Module EngineData.
Import Placement Catalog NativeError Device Objects Engine EngineRead.

Open Scope N_scope.

(** ** What the engine relies on *)

(** No two byte strings have one hash, the configured code recovers lost shards, and
    an extent has between one and [2 ^ 63] bytes. *)
Class ParamsOk (P : EngineParams) : Prop := {
  sha256_inj a b : sha256 a = sha256 b → a = b;
  code_new sc : erasure cfg = Some sc → Ec.new (Ec.sc_data sc) (Ec.sc_parity sc) = Some sc;
  code_law sc : erasure cfg = Some sc → Ec.codec_law rs_encode rs_decode (Ec.sc_data sc) (Ec.sc_parity sc);
  grid_pos : 0 < extent_bytes cfg;
  grid_bound : extent_bytes cfg < 2 ^ 63;
}.

Section data.
Context {D O : Type} {BD : BlockStore D} {LD : BlockStoreLaws D} {BO : ObjectStore O} {LO : ObjectStoreLaws O} {P : EngineParams} {POk : ParamsOk P}.

Abbreviation Eng := (Engine D O).
Abbreviation E := (SM Eng NativeError).

(** ** Devices *)

Definition dev (e : Eng) (i k : nat) : option D := nodes e !! i ≫= λ n, devices n !! k.

Definition shape (e : Eng) : list (Node * nat) := (λ n, (spec n, length (devices n))) <$> nodes e.

(** [d'] is [d] after writes to the bytes [W] and past its end. *)
Record grows (W : N → Prop) (d d' : D) : Prop := {
  gr_wf : bs_wf d → bs_wf d';
  gr_end : bs_end d <= bs_end d';
  gr_peek o m : o + m <= bs_end d → (∀ b, o <= b < o + m → ¬ W b) → peek d' o m = peek d o m;
}.

Record evolves (W : nat → nat → N → Prop) (e e' : Eng) : Prop := {
  ev_shape : shape e' = shape e;
  ev_dev i k d : dev e i k = Some d → ∃ d', dev e' i k = Some d' ∧ grows (W i k) d d';
}.

Record nodes_ok (e : Eng) : Prop := {
  no_wf i k d : dev e i k = Some d → bs_wf d;
  no_some i n : nodes e !! i = Some n → devices n ≠ [];
}.

Definition untouched : nat → nat → N → Prop := λ _ _ _, False.

Lemma device_grows_refl W d : grows W d d.
Proof. by split. Qed.
Lemma device_grows_trans W d1 d2 d3 : grows W d1 d2 → grows W d2 d3 → grows W d1 d3.
Proof.
  intros [Hw1 He1 Hp1] [Hw2 He2 Hp2]. split; [auto|lia|]. intros o m Hm HW. rewrite Hp2, Hp1; auto. lia.
Qed.
Lemma grows_mono (W W' : N → Prop) d d' : (∀ b, W b → W' b) → grows W d d' → grows W' d d'.
Proof. intros HW [H1 H2 H3]. split; auto. intros o m Hm Hn. apply H3; [done|]. intros b Hb Hw. by eapply Hn; [|apply HW]. Qed.

Lemma evolves_refl W e : evolves W e e.
Proof. split; [done|]. intros i k d Hd. exists d. split; [done|apply device_grows_refl]. Qed.
Lemma evolves_trans W e1 e2 e3 : evolves W e1 e2 → evolves W e2 e3 → evolves W e1 e3.
Proof.
  intros [Hs1 H1] [Hs2 H2]. split; [by rewrite Hs2|]. intros i k d Hd. destruct (H1 i k d Hd) as (d2 & Hd2 & G1).
  destruct (H2 i k d2 Hd2) as (d3 & Hd3 & G2). exists d3. split; [done|]. by eapply device_grows_trans.
Qed.
Lemma evolves_mono (W W' : nat → nat → N → Prop) e e' : (∀ i k b, W i k b → W' i k b) → evolves W e e' → evolves W' e e'.
Proof.
  intros HW [H1 H2]. split; [done|]. intros i k d Hd. destruct (H2 i k d Hd) as (d' & ? & G). exists d'. split; [done|].
  eapply grows_mono; [|done]. apply HW.
Qed.

Lemma shape_node e i n : nodes e !! i = Some n → shape e !! i = Some (spec n, length (devices n)).
Proof. intros Hn. unfold shape. by rewrite list_lookup_fmap, Hn. Qed.

(** Nothing comes from nowhere. *)
Lemma evolves_back W e e' i k d' : evolves W e e' → dev e' i k = Some d' → ∃ d, dev e i k = Some d ∧ grows (W i k) d d'.
Proof.
  intros [Hs Hd] Hd'. unfold dev in Hd'. destruct (nodes e' !! i) as [n'|] eqn:Hn'; [|done]. simpl in Hd'.
  pose proof (shape_node _ _ _ Hn') as Hsh. rewrite Hs in Hsh. unfold shape in Hsh. rewrite list_lookup_fmap in Hsh.
  destruct (nodes e !! i) as [n|] eqn:Hn; [|done]. injection Hsh as _ Hl. apply lookup_lt_Some in Hd' as Hk. rewrite <- Hl in Hk.
  destruct (lookup_lt_is_Some_2 (devices n) k Hk) as [d Hdk]. assert (dev e i k = Some d) as Hde by (unfold dev; by rewrite Hn).
  destruct (Hd i k d Hde) as (d2 & Hd2 & G). exists d. split; [done|]. unfold dev in Hd2. rewrite Hn' in Hd2. simpl in Hd2. by simplify_eq.
Qed.

Lemma evolves_ok W e e' : evolves W e e' → nodes_ok e → nodes_ok e'.
Proof.
  intros Hev [Hw Hs]. split.
  - intros i k d' Hd'. destruct (evolves_back _ _ _ _ _ _ Hev Hd') as (d & Hd & [Hg _ _]). by apply Hg, (Hw i k).
  - intros i n' Hn'. pose proof (shape_node _ _ _ Hn') as Hsh. rewrite (ev_shape _ _ _ Hev) in Hsh. unfold shape in Hsh. rewrite list_lookup_fmap in Hsh.
    destruct (nodes e !! i) as [n|] eqn:Hn; [|done]. injection Hsh as _ Hl. specialize (Hs i n Hn). destruct (devices n'); [|done]. by destruct (devices n).
Qed.

(** ** Operations that leave everything that matters alone *)

Definition objects_same (o o' : option O) : Prop :=
  match o, o' with
  | Some o, Some o' => ∀ k, object_at o' k = object_at o k
  | None, None => True
  | _, _ => False
  end.

(** Metadata, identifiers and the environment stay. *)
Record same_meta (e e' : Eng) : Prop := {
  sm_catalog : catalog e' = catalog e;
  sm_wal : wal e' = wal e;
  sm_attached : attached e' = attached e;
  sm_stored : stored e' = stored e;
  sm_uuid : uuid e' = uuid e;
  sm_dir : dir_sync e' = dir_sync e;
}.

#[global] Instance same_meta_po : PreOrder same_meta.
Proof. split; [by intros e; split|]. intros e1 e2 e3 [] []. by split; etrans. Qed.

Record calm (e e' : Eng) : Prop := {
  cm_meta : same_meta e e';
  cm_uuids : uuids e' = uuids e;
  cm_inflight : inflight e' = inflight e;
  cm_objects : objects_same (objects e) (objects e');
  cm_devices : evolves untouched e e';
}.

#[global] Instance calm_po : PreOrder calm.
Proof.
  split.
  - intros e. split; [done|done|done|by unfold objects_same; case_match|apply evolves_refl].
  - intros e1 e2 e3 [H1 U1 I1 O1 D1] [H2 U2 I2 O2 D2]. split; [by etrans|by etrans|by etrans| |by eapply evolves_trans].
    unfold objects_same in *. repeat case_match; try done. intros k. by rewrite O2.
Qed.

Definition soft {A} (m : E A) (Q : A → Prop) : Prop :=
  ∀ e, nodes_ok e → wp m e (λ a e', calm e e' ∧ Q a) (λ _ e', calm e e').

Lemma calm_ok e e' : calm e e' → nodes_ok e → nodes_ok e'.
Proof. intros [_ _ _ _ Hev]. by eapply evolves_ok. Qed.

Lemma soft_ret {A} (a : A) (Q : A → Prop) : Q a → soft (mret a) Q.
Proof. intros Hq e _. rewrite wp_ret. done. Qed.
Lemma soft_err {A} err (Q : A → Prop) : soft (sm_err err) Q.
Proof. intros e _. rewrite wp_err. done. Qed.
Lemma soft_bind {A B} (m : E A) (k : A → E B) Q Q' : soft m Q → (∀ a, Q a → soft (k a) Q') → soft (m ≫= k) Q'.
Proof.
  intros Hm Hk e Hok. rewrite wp_bind. eapply wp_mono; [by apply Hm| |done]. intros a e1 [Hc Hq]. eapply wp_mono; [apply Hk; [done|by eapply calm_ok]| |].
  - intros b e2 [Hc2 ?]. split; [by etrans|done].
  - intros err e2 Hc2. by etrans.
Qed.
Lemma soft_mono {A} (m : E A) (Q Q' : A → Prop) : soft m Q → (∀ a, Q a → Q' a) → soft m Q'.
Proof. intros Hm HQ e Hok. eapply wp_mono; [by apply Hm| |done]. intros a e' [? ?]. auto. Qed.
Lemma soft_get {A} (k : Eng → E A) Q : (∀ e, soft (k e) Q) → soft (sm_get ≫= k) Q.
Proof. intros Hk e Hok. rewrite wp_bind, wp_get. by apply Hk. Qed.
Lemma soft_lift {A} (r : res NativeError A) (Q : A → Prop) : r ≠ Panic → (∀ a, r = Ok a → Q a) → soft (sm_lift r) Q.
Proof. intros Hp Hq e _. rewrite wp_lift. destruct r; [split; [done|by apply Hq]|done|done]. Qed.
Lemma soft_modify f (Q : () → Prop) : (∀ e, calm e (f e)) → Q () → soft (sm_modify f) Q.
Proof. intros Hf Hq e _. rewrite wp_modify. done. Qed.

Lemma objects_refl o : objects_same o o.
Proof. by destruct o. Qed.
Lemma calm_light e e' :
  same_meta e e' → uuids e' = uuids e → inflight e' = inflight e → objects e' = objects e → nodes e' = nodes e → calm e e'.
Proof.
  intros Hm Hu Hi Ho Hn. split; [done..|rewrite Ho; apply objects_refl|]. split; [unfold shape; by rewrite Hn|].
  intros i k d Hd. exists d. split; [unfold dev; by rewrite Hn|apply device_grows_refl].
Qed.

Lemma soft_now : soft now (λ _, True).
Proof.
  unfold now. apply soft_get. intros e0. eapply (soft_bind _ _ (λ _, True)); [apply soft_modify; [|done]; intros e; by apply calm_light|].
  intros [] _. by apply soft_ret.
Qed.

(** Edits of a node that leave its devices. *)
Lemma soft_edit i f (Q : () → Prop) : (∀ n, spec (f n) = spec n ∧ devices (f n) = devices n) → Q () → soft (edit_node i f) Q.
Proof.
  intros Hf Hq. apply soft_modify; [|done]. intros e. split; [done|done|done|apply objects_refl|]. split.
  - unfold shape. simpl. apply list_eq. intros j. rewrite !list_lookup_fmap. destruct (decide (i = j)) as [<-|Hj].
    + rewrite list_lookup_alter_eq. destruct (nodes e !! i); [|done]. simpl. by destruct (Hf n) as [-> ->].
    + by rewrite list_lookup_alter_ne.
  - intros j k d Hd. exists d. split; [|apply device_grows_refl]. unfold dev in *. simpl. destruct (decide (i = j)) as [<-|Hj].
    + rewrite list_lookup_alter_eq. destruct (nodes e !! i); [|done]. simpl in *. by destruct (Hf n) as [_ ->].
    + by rewrite list_lookup_alter_ne.
Qed.

Lemma soft_mark_up i : soft (mark_up i) (λ _, True).
Proof. by apply soft_edit. Qed.
Lemma soft_mark_down i : soft (mark_down i) (λ _, True).
Proof. unfold mark_down. eapply soft_bind; [apply soft_now|]. intros t _. by apply soft_edit. Qed.
Lemma soft_is_up n : soft (is_up n) (λ _, True).
Proof.
  unfold is_up. case_match; [|by apply soft_ret]. case_match; [|by apply soft_ret]. eapply soft_bind; [apply soft_now|]. intros t _. by apply soft_ret.
Qed.

(** Calls of a device. *)
Lemma on_device_evolves {A} i k (op : D → D * res NativeError A) (W : N → Prop) e :
  nodes_ok e → (∀ d d' r, bs_wf d → op d = (d', r) → grows W d d') →
  let '(e', r) := on_device i k op e in
  evolves (λ i' k' b, i' = i ∧ k' = k ∧ W b) e e' ∧ same_meta e e' ∧ uuids e' = uuids e ∧ inflight e' = inflight e ∧ objects e' = objects e ∧
  match dev e i k with
  | None => r = Ok None ∧ e' = e
  | Some d => r = Ok (Some (op d).2) ∧ dev e' i k = Some (op d).1
  end.
Proof.
  intros Hok Hop. unfold on_device. fold (dev e i k). destruct (dev e i k) as [d|] eqn:Hd; [|split_and!; try done; apply evolves_refl].
  destruct (op d) as [d' r] eqn:Ed. pose proof (Hop d d' r (no_wf _ Hok i k d Hd) Ed) as Hg. unfold dev in Hd. destruct (nodes e !! i) as [n|] eqn:Hn; [|done]. simpl in Hd.
  apply lookup_lt_Some in Hd as Hlt. split_and!; try done.
  - split.
    + unfold shape. simpl. apply list_eq. intros j. rewrite !list_lookup_fmap. destruct (decide (i = j)) as [<-|Hj].
      * rewrite list_lookup_alter_eq, Hn. simpl. by rewrite length_insert.
      * by rewrite list_lookup_alter_ne.
    + intros j k' d0 Hd0. unfold dev in *. simpl. destruct (decide (i = j)) as [<-|Hj].
      * rewrite list_lookup_alter_eq, Hn in *. simpl in *. destruct (decide (k = k')) as [<-|Hk].
        -- rewrite list_lookup_insert_eq by done. simplify_eq. exists d'. split; [done|]. eapply grows_mono; [|exact Hg]. done.
        -- rewrite list_lookup_insert_ne by done. exists d0. split; [done|apply device_grows_refl].
      * rewrite list_lookup_alter_ne by done. exists d0. split; [done|apply device_grows_refl].
  - unfold dev. simpl. rewrite list_lookup_alter_eq, Hn. simpl. by rewrite list_lookup_insert_eq.
Qed.

Lemma evolves_calm e e' :
  evolves untouched e e' → same_meta e e' → uuids e' = uuids e → inflight e' = inflight e → objects e' = objects e → calm e e'.
Proof. intros ?? ? ? Ho. split; try done. rewrite Ho. apply objects_refl. Qed.

Lemma soft_call {A} i k (op : D → D * res NativeError A) (Q : res NativeError A → Prop) :
  (∀ d d' r, bs_wf d → op d = (d', r) → grows (λ _, False) d d' ∧ r ≠ Panic ∧ Q r) →
  soft (on_device i k op) (λ o, match o with Some r => r ≠ Panic ∧ Q r | None => True end).
Proof.
  intros Hop e Hok. pose proof (on_device_evolves i k op (λ _, False) e Hok) as Hev.
  unfold wp. destruct (on_device i k op e) as [e' r]. destruct Hev as (Hev & Hm & Hu & Hi & Ho & Hr).
  { intros d d' r' Hw E. by destruct (Hop d d' r' Hw E). }
  assert (calm e e') as Hc by (apply evolves_calm; try done; eapply evolves_mono; [|exact Hev]; by intros i' k' b (_ & _ & ?)).
  destruct (dev e i k) as [d|] eqn:Hd; destruct Hr as [-> _]; [|done]. split; [done|]. destruct (op d) as [d' r'] eqn:E. simpl.
  by destruct (Hop d d' r' (no_wf _ Hok i k d Hd) E).
Qed.

Lemma soft_read i k off n :
  soft (on_device i k (read_exact_at off n)) (λ o, match o with Some Panic => False | _ => True end).
Proof.
  eapply soft_mono; [apply (soft_call i k (read_exact_at off n) (λ _, True))|intros [[]|]; naive_solver].
  intros d d' r Hw E. destruct (read_law d off n d' r Hw E) as (Hw' & Hp & He & Hk & _). split_and!; try done.
  split; [done|by rewrite He|]. intros. apply Hk.
Qed.

Lemma soft_len i k : soft (on_device i k device_len) (λ o, match o with Some Panic => False | _ => True end).
Proof.
  eapply soft_mono; [apply (soft_call i k device_len (λ _, True))|intros [[]|]; naive_solver].
  intros d d' r Hw E. destruct (len_law d d' r Hw E) as (Hw' & Hp & He & Hk). split_and!; try done.
  split; [done|by rewrite He|]. intros. apply Hk.
Qed.

Lemma soft_run_all {X A} (f : X → E A) (Q : X → A → Prop) l :
  (∀ x, x ∈ l → soft (f x) (Q x)) → soft (run_all (f <$> l)) (Forall2 (λ x r, r ≠ Panic ∧ ∀ a, r = Ok a → Q x a) l).
Proof.
  intros Hf. induction l as [|x l IH]; [by apply soft_ret|]. intros e Hok. specialize (IH (λ y Hy, Hf y (list_elem_of_further _ _ _ Hy))).
  pose proof (Hf x ltac:(left) e Hok) as Hx. unfold wp in *. csimpl. simpl run_all. destruct (f x e) as [e1 r].
  assert (calm e e1 ∧ r ≠ Panic ∧ ∀ a, r = Ok a → Q x a) as (Hc & Hp & Hq).
  { destruct r as [a|err|]; [|done|done]. destruct Hx as [? ?]. split_and!; try done. by intros ? [= <-]. }
  specialize (IH e1 (calm_ok _ _ Hc Hok)). unfold wp in IH. destruct (run_all (f <$> l) e1) as [e2 [rs|err|]]; [|exact (transitivity Hc IH)|done].
  destruct IH as [Hc2 Hrs]. split; [exact (transitivity Hc Hc2)|]. constructor; [|done]. by destruct r.
Qed.

(** ** Extents and the bytes they are made of *)

(** The parts of an extent of [b]: copies, or its shards. *)
Definition laid (b : bytes) (ps : list bytes) (ext : ExtentRef) : Prop :=
  match ec ext with
  | None => ps = replicate (length (replicas ext)) b
  | Some lay =>
      length (replicas ext) = length ps ∧
      ∃ sc, erasure cfg = Some sc ∧ Ec.encode sha256 rs_encode sc b = Ok (Ec.mkEcShards lay ps)
  end.

Record describes (b : bytes) (ps : list bytes) (ext : ExtentRef) : Prop := {
  de_len : len ext = size b;
  de_sum : checksum ext = sha256 b;
  de_size : size b < 2 ^ 63;
  de_laid : laid b ps ext;
}.

Lemma verify_true buf b : verify buf (sha256 b) = true → buf = b.
Proof. intros Hv%bool_decide_eq_true. by apply sha256_inj. Qed.

Lemma soft_read_object ext key b ps : describes b ps ext → soft (read_object ext key) (λ out, out = b).
Proof.
  intros [Hl Hs _ _] e Hok. unfold read_object. rewrite wp_bind, wp_get. destruct (objects e) as [o|] eqn:Ho; [|by rewrite wp_err].
  destruct (get key o) as [o' r] eqn:Eg. destruct (get_law o key o' r Eg) as (Hsame & _).
  assert (calm e (e <| objects := Some o' |>)) as Hc.
  { split; [done..| |]; simpl; [by rewrite Ho|]. split; [done|]. intros i k d Hd. exists d. split; [done|apply device_grows_refl]. }
  rewrite wp_bind, wp_modify, wp_bind, wp_lift. destruct r as [buf|]; simpl; [|done].
  destruct (negb _ || negb _) eqn:Hv; [by rewrite wp_err|]. rewrite wp_ret. split; [done|].
  apply orb_false_iff in Hv as [_ Hv%negb_false_iff]. rewrite Hs in Hv. by apply verify_true.
Qed.

Lemma soft_partition {A} (up : A → E bool) l :
  (∀ x, x ∈ l → soft (up x) (λ _, True)) → soft (partition_up up l) (λ r, r.1 ++ r.2 ≡ₚ l).
Proof.
  induction l as [|x l IH]; intros Hup; [by apply soft_ret|]. simpl. eapply soft_bind; [apply Hup; left|]. intros b _.
  eapply soft_bind; [apply IH; intros y Hy; apply Hup; by right|]. intros [a z] Hp. apply soft_ret. simpl in *. destruct b; simpl; [by rewrite Hp|].
  by rewrite <- Permutation_middle, Hp.
Qed.

Lemma soft_node_up i : soft (node_up i) (λ _, True).
Proof. unfold node_up. apply soft_get. intros e. case_match; [apply soft_is_up|by apply soft_ret]. Qed.

Lemma soft_try_replicas ext order b ps : describes b ps ext → soft (try_replicas ext order) (λ out, out = b).
Proof.
  intros Hd. pose proof (de_sum _ _ _ Hd) as Hs. induction order as [|[r i] order IH]; simpl; [apply soft_err|].
  eapply soft_bind; [apply soft_read|]. intros [[buf|err|]|] Hb; [|eapply soft_bind; [apply soft_mark_down|done]|done|done].
  destruct (verify buf (checksum ext)) eqn:Hv; [|done]. eapply soft_bind; [apply soft_mark_up|]. intros [] _. apply soft_ret. rewrite Hs in Hv. by apply verify_true.
Qed.

(** ** Shards *)

(** What [encode] makes of an extent. *)
Lemma encoded sc b lay ps :
  Ec.encode sha256 rs_encode sc b = Ok (Ec.mkEcShards lay ps) →
  ∃ pp, ps = Ec.split_shards sc b ++ pp ∧ rs_encode (Ec.sc_data sc) (Ec.sc_parity sc) (Ec.split_shards sc b) = Some pp ∧
    lay = Ec.mkEcLayout (Ec.sc_data sc) (Ec.sc_parity sc) (Ec.sc_shard_len sc (size b)) (sha256 <$> ps).
Proof.
  unfold Ec.encode, Ec.parity_of. destruct (rs_encode _ _ _) as [pp|]; [|done]. simpl. intros [= <- <-]. by exists pp.
Qed.

Lemma encoded_length sc b lay ps :
  erasure cfg = Some sc → size b < 2 ^ 63 → Ec.encode sha256 rs_encode sc b = Ok (Ec.mkEcShards lay ps) →
  N.of_nat (length ps) = Ec.data lay + Ec.parity lay ∧ Forall (λ p, size p = Ec.shard_len lay) ps.
Proof.
  intros Hc Hb He. destruct (encoded _ _ _ _ He) as (pp & -> & Hpp & ->). simpl. destruct (Ec.split_shards_shape sc b) as [Hl Hf].
  destruct (Ec.new_data _ _ _ (code_new sc Hc)) as (_ & Hk & _). destruct (Ec.sc_shard_len_spec sc (size b) Hk Hb) as (H2 & Hev & _).
  destruct (Ec.law_encode _ _ _ _ (code_law sc Hc) (Ec.split_shards sc b) _ ltac:(lia) H2 Hev Hf) as (pp' & Hpp' & Hlp & Hfp).
  rewrite Hpp in Hpp'. injection Hpp' as <-. split; [rewrite length_app; lia|]. apply Forall_app. split; eapply Forall_impl; try done; simpl; lia.
Qed.

Lemma soft_read_shard ext lay ps sc b i :
  Ec.encode sha256 rs_encode sc b = Ok (Ec.mkEcShards lay ps) →
  soft (read_shard ext lay i) (λ o, ∀ s, o = Some s → ps !! i = Some s).
Proof.
  intros He. destruct (encoded _ _ _ _ He) as (pp & _ & _ & Hlay). unfold read_shard. apply soft_get. intros e0. case_match; [|by apply soft_ret]. case_match. subst.
  eapply soft_bind; [apply soft_read|]. intros [[buf|err|]|] Hb; [| |done|by apply soft_ret].
  - destruct (Ec.verify sha256 _ i buf) eqn:Hv; [|by apply soft_ret]. eapply soft_bind; [apply soft_mark_up|]. intros [] _. apply soft_ret. intros s [= <-].
    unfold Ec.verify in Hv. apply andb_true_iff in Hv as [_ Hv]. simpl in Hv. rewrite list_lookup_fmap in Hv.
    destruct (ps !! i) as [p|]; [|done]. simpl in Hv. by apply verify_true in Hv as ->.
  - eapply soft_bind; [apply soft_mark_down|]. intros [] _. by apply soft_ret.
Qed.

Lemma remains_fill ps ss batch got :
  Ec.remains ps ss → Forall2 (λ i r, r ≠ Panic ∧ ∀ o, r = Ok o → ∀ s, o = Some s → ps !! i = Some s) batch got → Ec.remains ps (fill ss (zip batch got)).
Proof.
  intros Hr Hg. revert ss Hr. induction Hg as [|i r batch got [_ Hi] Hg IH]; intros ss Hr; [done|]. csimpl. unfold fill. simpl. apply IH.
  destruct r as [[s|]| |]; try done. specialize (Hi _ eq_refl s eq_refl). apply Forall2_same_length_lookup. pose proof (Forall2_length _ _ _ Hr) as Hl.
  split; [by rewrite length_insert|]. intros j x o Hx Ho. destruct (decide (i = j)) as [<-|Hj].
  - rewrite list_lookup_insert_eq in Ho by (rewrite <- Hl; by eapply lookup_lt_Some). simplify_eq. by right.
  - rewrite list_lookup_insert_ne in Ho by done. by eapply Forall2_lookup_lr in Hr.
Qed.

Lemma soft_read_rounds fuel ext lay ps sc b have order ss :
  Ec.encode sha256 rs_encode sc b = Ok (Ec.mkEcShards lay ps) → Ec.remains ps ss →
  soft (read_rounds fuel ext lay have order ss) (Ec.remains ps).
Proof.
  intros He. revert have order ss. induction fuel as [|fuel IH]; intros have order ss Hr; simpl; (case_match; [|by apply soft_ret]); [apply soft_err|].
  destruct (take _ order) as [|i batch]; [apply soft_err|]. eapply soft_bind; [apply (soft_run_all (read_shard ext lay) (λ i o, ∀ s, o = Some s → ps !! i = Some s) (i :: batch))|].
  - intros j _. by eapply soft_read_shard.
  - intros got Hg. apply IH. apply (remains_fill ps ss (i :: batch) got Hr Hg).
Qed.

Lemma soft_shard_order ext lay :
  N.of_nat (length (replicas ext)) = Ec.data lay + Ec.parity lay → soft (shard_order ext lay) (λ _, True).
Proof.
  intros Hl. unfold shard_order. eapply soft_bind; [apply soft_partition|intros; by apply soft_ret].
  intros i [_ Hi]%elem_of_seq. unfold shard_up. apply soft_get. intros e. destruct (lookup_lt_is_Some_2 (replicas ext) i) as [r ->]; [lia|].
  generalize (nodes e). induction l as [|n l IH]; simpl; [by apply soft_ret|]. case_match; [|done]. eapply soft_bind; [apply soft_is_up|].
  intros [] _; [by apply soft_ret|done].
Qed.

(** Enough shards give the extent. *)
Lemma rebuilt sc b lay ps ss :
  erasure cfg = Some sc → size b < 2 ^ 63 → Ec.encode sha256 rs_encode sc b = Ok (Ec.mkEcShards lay ps) → Ec.remains ps ss →
  match Ec.rebuild_data rs_decode lay ss with
  | Ok ds => Ec.join lay ds (size b) = Ok b
  | Err _ => N.of_nat (length (base.filter is_Some ss)) < Ec.data lay
  | Panic => False
  end.
Proof.
  intros Hc Hb He Hr. destruct (encoded_length _ _ _ _ Hc Hb He) as [Hlen _]. destruct (encoded _ _ _ _ He) as (pp & -> & Hpp & ->).
  set (ds := Ec.split_shards sc b) in *. simpl in *. destruct (Ec.split_shards_shape sc b) as [Hl _]. fold ds in Hl. rewrite length_app in Hlen.
  destruct (N.le_gt_cases (Ec.sc_data sc) (N.of_nat (length (base.filter is_Some ss)))) as [Hen|Hen].
  - rewrite (Ec.rebuild_data_ok rs_encode rs_decode _ sc ds pp ss); [|by apply code_law|by apply code_new|done|simpl; lia|done|done|done].
    unfold Ec.join. simpl. rewrite (proj2 (Nat.ltb_ge _ _)) by lia. f_equal. rewrite (take_ge ds) by lia.
    destruct (Ec.new_data _ _ _ (code_new sc Hc)) as (_ & Hk & _). rewrite Nat2N.id. by apply Ec.split_shards_concat.
  - unfold Ec.rebuild_data, Ec.scheme. simpl. rewrite (code_new sc Hc). simpl. destruct (negb _); [exact Hen|]. by rewrite (proj2 (N.ltb_lt _ _) Hen).
Qed.

Lemma soft_read_shards ext lay b ps : describes b ps ext → ec ext = Some lay → soft (read_shards ext lay) (λ out, out = b).
Proof.
  intros [Hl Hs Hb Hlaid] Hec. unfold laid in Hlaid. rewrite Hec in Hlaid. destruct Hlaid as (Hn & sc & Hc & He).
  destruct (encoded_length _ _ _ _ Hc Hb He) as [Hps _]. unfold read_shards.
  eapply soft_bind; [apply soft_shard_order; lia|]. intros order _.
  eapply soft_bind; [eapply soft_read_rounds; [exact He|]|].
  { apply Forall2_same_length_lookup. rewrite length_replicate. split; [lia|]. intros i x o _ [-> _]%lookup_replicate. by left. }
  intros ss Hr. pose proof (rebuilt _ _ _ _ _ Hc Hb He Hr) as Hre.
  eapply (soft_bind _ _ (λ ds, Ec.rebuild_data rs_decode lay ss = Ok ds)); [apply soft_lift|].
  { by destruct (Ec.rebuild_data rs_decode lay ss). }
  { destruct (Ec.rebuild_data rs_decode lay ss); [by intros ds [= <-]|done|done]. }
  intros ds Hds. rewrite Hds in Hre. rewrite Hl, Hre. eapply (soft_bind _ _ (λ out, out = b)); [apply soft_lift; [done|by intros a [= <-]]|].
  intros out ->. case_match; [by apply soft_ret|apply soft_err].
Qed.

(** Whatever the devices answer, an extent reads as the bytes it was made of. *)
Lemma soft_read_placed ext b ps : describes b ps ext → soft (read_placed ext) (λ out, out = b).
Proof.
  intros Hd. unfold read_placed. destruct (object ext) as [key|]; [by eapply soft_read_object|].
  destruct (ec ext) as [lay|] eqn:Hec; [by eapply soft_read_shards|]. apply soft_get. intros e. eapply soft_bind; [apply soft_partition|].
  - intros x _. apply soft_node_up.
  - intros r _. by eapply soft_try_replicas.
Qed.

(** ** Errors of reads *)

(** [m] fails only with errors in [R]. *)
Definition errs (R : NativeError → Prop) {A} (m : E A) : Prop := ∀ e e' err, m e = (e', Err err) → R err.

Section errs.
Context (R : NativeError → Prop).

Lemma errs_ret {A} (a : A) : errs R (mret a).
Proof. by intros e e' err. Qed.
Lemma errs_panic {A} : errs R (A := A) sm_panic.
Proof. by intros e e' err. Qed.
Lemma errs_err {A} err : R err → errs R (A := A) (sm_err err).
Proof. intros Hr e e' err' [= _ <-]. done. Qed.
Lemma errs_get : errs R sm_get.
Proof. by intros e e' err. Qed.
Lemma errs_modify f : errs R (sm_modify f).
Proof. by intros e e' err. Qed.
Lemma errs_lift {A} (r : res NativeError A) : (∀ err, r = Err err → R err) → errs R (sm_lift r).
Proof. intros Hr e e' err [= _ ?]. auto. Qed.
Lemma errs_bind {A B} (m : E A) (k : A → E B) : errs R m → (∀ a, errs R (k a)) → errs R (m ≫= k).
Proof.
  intros Hm Hk e e' err. unfold mbind, sm_bind. destruct (m e) as [e1 [a|err1|]] eqn:E1; [apply Hk| |done]. intros [= _ <-]. by eapply Hm.
Qed.
Lemma errs_device {A} i k (op : D → D * res NativeError A) : errs R (on_device i k op).
Proof. intros e e' err. unfold on_device. case_match; [|done]. by case_match. Qed.
Lemma errs_run_all {A} (l : list (E A)) : errs R (run_all l).
Proof.
  assert (∀ l (e e' : Eng) r, run_all (A := A) l e = (e', r) → ∃ rs, r = Ok rs) as Hok.
  { clear. induction l as [|t l IH]; intros e e' r; simpl; [intros [= _ <-]; by eexists|]. destruct (t e) as [e1 r1]. destruct (run_all l e1) as [e2 r2] eqn:E2.
    destruct (IH _ _ _ E2) as [rs ->]. intros [= _ <-]. by eexists. }
  intros e e' err E1. by destruct (Hok _ _ _ _ E1).
Qed.
End errs.

Create HintDb errs.
#[local] Hint Resolve errs_ret errs_panic errs_get errs_modify errs_device errs_run_all : errs.
#[local] Hint Extern 1 (errs _ (_ ≫= _)) => apply errs_bind; [|intros ?] : errs.
#[local] Hint Extern 1 (errs _ (match ?x with _ => _ end)) => destruct x : errs.
#[local] Hint Extern 1 (errs _ (if ?x then _ else _)) => destruct x : errs.
#[local] Hint Extern 2 (errs _ (sm_err _)) => apply errs_err; by intros ? : errs.

Lemma errs_now R : errs R (now : E N).
Proof. unfold now. eauto with errs. Qed.
#[local] Hint Resolve errs_now : errs.
Lemma errs_mark_up R i : errs R (mark_up i).
Proof. unfold mark_up, edit_node. eauto with errs. Qed.
Lemma errs_mark_down R i : errs R (mark_down i).
Proof. unfold mark_down, edit_node. eauto with errs. Qed.
Lemma errs_is_up R n : errs R (is_up n).
Proof. unfold is_up. eauto with errs. Qed.
#[local] Hint Resolve errs_mark_up errs_mark_down errs_is_up : errs.

Lemma errs_partition R {A} (up : A → E bool) l : (∀ x, errs R (up x)) → errs R (partition_up up l).
Proof. intros Hup. induction l as [|x l IH]; simpl; eauto with errs. Qed.

(** The extent whose checksum fails is the one read. *)
Lemma errs_read_placed ext : errs (λ err, ∀ id, err = Checksum id → id = eid ext) (read_placed ext : E bytes).
Proof.
  set (R := λ err, _). assert (R (Checksum (eid ext))) as Hc by (by intros id [= <-]).
  assert (∀ A (r : res MetaError A) err, meta r = Err err → R err) as Hmeta by (by intros A [] err; [|intros [= <-] id|]).
  unfold read_placed. destruct (object ext) as [key|]; [|destruct (ec ext) as [lay|]].
  - unfold read_object. apply errs_bind; [apply errs_get|intros e]. case_match; [|apply errs_err; by intros id]. case_match.
    apply errs_bind; [apply errs_modify|intros _]. apply errs_bind; [apply errs_lift|intros buf; case_match; [by apply errs_err|apply errs_ret]].
    intros err. unfold io, ok_or. case_match; [done|]. by intros [= <-] id.
  - unfold read_shards. apply errs_bind; [|intros order; apply errs_bind].
    + unfold shard_order. apply errs_bind; [|intros; apply errs_ret]. apply errs_partition. intros i. unfold shard_up. apply errs_bind; [apply errs_get|intros e].
      case_match; [|apply errs_panic]. generalize (nodes e). induction l as [|n l IH]; simpl; eauto with errs.
    + generalize (replicate (N.to_nat (Ec.data lay + Ec.parity lay)) (None : option bytes)) as ss. generalize (S (length order)) as fuel. generalize 0%nat as have.
      intros have fuel. revert have order. induction fuel as [|fuel IH]; intros have order ss; cbn [read_rounds]; (case_match; [|apply errs_ret]); [by apply errs_err|].
      destruct (take _ order) as [|n batch]; [by apply errs_err|]. apply errs_bind; [apply errs_run_all|intros got; apply IH].
    + intros ss. apply errs_bind; [by apply errs_lift, Hmeta|intros ds]. apply errs_bind; [by apply errs_lift, Hmeta|intros out]. case_match; [apply errs_ret|by apply errs_err].
  - apply errs_bind; [apply errs_get|intros e]. apply errs_bind; [apply errs_partition; intros x; unfold node_up; eauto with errs|]. intros r.
    generalize (r.1 ++ r.2). induction l as [|[rr i] l IH]; simpl; [by apply errs_err|]. eauto 8 with errs.
Qed.

End data.
End EngineData.
