(* ===== verification/EngineInv.v ===== *)
(** * What holds of a storage engine

    The catalog is sound and survives a restart, placements in flight own the space
    they were given, and every extent is on its devices or in its object as it was
    written; [δ] is what the extents were made of, those reclaimed included. *)

From S2P Require Import Prelude MetaError FreeList Ec Catalog Extents Space MetaSpec NativeError Device Objects Placement Inflight Engine EngineRead EngineWrite EngineRepair EngineMeta EngineData.

Module EngineInv.
Import Placement Catalog Space MetaSpec NativeError Device Objects Engine EngineRead EngineWrite EngineRepair EngineMeta EngineData.
Import FreeList (is_free).

Open Scope N_scope.

(** A part on a device that no extent of the catalog has yet, placed under a lease. *)
Record Claim := mkClaim { cl_token : N; cl_at : ReplicaRef; cl_data : bytes }.

Definition owns (cl : Claim) : string → N → N → Prop := covers (size (cl_data cl)) (cl_at cl).

Definition apart (a b : Claim) : Prop := ∀ nd k o, owns a nd k o → ¬ owns b nd k o.
#[export] Instance apart_sym : Symmetric apart.
Proof. intros a b Hab nd k o H1 H2. by eapply Hab. Qed.

Section inv.
Context {D O : Type} {BD : BlockStore D} {LD : BlockStoreLaws D} {BO : ObjectStore O} {LO : ObjectStoreLaws O} {P : EngineParams} {POk : ParamsOk P}.

Abbreviation Eng := (Engine D O).
Abbreviation E := (SM Eng NativeError).
Implicit Types e : Eng.

(** ** The invariant *)

(** The part is on its device, below the space still to hand out. *)
Definition stored_at (e : Eng) (r : ReplicaRef) (p : bytes) : Prop :=
  ∀ i d, find_node e (node_id r) = Some i → dev e i (N.to_nat (device_index r)) = Some d →
    offset r + size p <= bs_end d ∧ peek d (offset r) (size p) = Some p.

(** An extent is where its record says. *)
Definition kept (e : Eng) (b : bytes) (ps : list bytes) (ext : ExtentRef) : Prop :=
  match object ext with
  | Some key => key = object_key (eid ext) ∧ replicas ext = [] ∧ ∀ o, objects e = Some o → object_at o key = Some b
  | None => Forall2 (stored_at e) (replicas ext) ps
  end.

(** The ranges a lease holds. *)
Definition leased (s : Inflight.State) (tok : N) : list FreeList.FreeRange := default [] (Inflight.held s !! tok).

Definition same_bytes (fr : FreeList.FreeRange) (cl : Claim) : Prop := ∀ nd k b, FreeList.covers fr nd k b ↔ owns cl nd k b.

Record claim_ok (e : Eng) (cl : Claim) : Prop := {
  cl_place : placeable (spots (catalog e)) (free (catalog e)) (size (cl_data cl)) (cl_at cl);
  cl_held : taken (free (catalog e)) (size (cl_data cl)) (cl_at cl) ∨ ∃ fr, fr ∈ leased (inflight e) (cl_token cl) ∧ same_bytes fr cl;
  cl_open : is_Some (Inflight.held (inflight e) !! cl_token cl);
  cl_stored : stored_at e (cl_at cl) (cl_data cl);
}.

Record inv (δ : gmap ExtentId bytes) (L : list Claim) (e : Eng) : Prop := {
  iv_cat : catalog_ok (catalog e);
  iv_dur : durable e;
  iv_nodes : nodes_ok e;
  iv_hold : Inflight.consistent (free (catalog e)) (inflight e);
  iv_leased fr nd k b : fr ∈ Inflight.ranges (inflight e) → FreeList.covers fr nd k b → is_free (free (catalog e)) nd k b;
  iv_low nd k b i d : is_free (free (catalog e)) nd k b → find_node e nd = Some i → dev e i (N.to_nat k) = Some d → b < bs_end d;
  iv_ext x m : extents (catalog e) !! x = Some m →
    eid (extent m) = x ∧ ∃ b ps, δ !! x = Some b ∧ describes b ps (extent m) ∧ kept e b ps (extent m);
  iv_claims : Forall (claim_ok e) L;
  iv_apart : pairwise apart L;
  iv_fresh k : uuids e <= k → δ !! uuid e k = None;
  iv_uuid j k : uuids e <= j → j < k → uuid e j ≠ uuid e k;
}.

(** ** Where things are *)

Lemma find_node_shape e e' nd : shape e' = shape e → find_node e' nd = find_node e nd.
Proof.
  unfold find_node, shape. generalize (nodes e') (nodes e). induction l as [|n l IH]; intros [|n' l']; try done. csimpl. intros [= Hs _ Hl].
  simpl. rewrite Hs. destruct (String.eqb _ _); [done|]. by rewrite (IH l').
Qed.

Lemma find_node_id e nd i : find_node e nd = Some i → ∃ n, nodes e !! i = Some n ∧ Placement.id (spec n) = nd.
Proof.
  intros Hf. apply position_Some in Hf as (l1 & n & l2 & Hl & Hi & Hid & _). exists n. rewrite Hl, <- Hi. split; [by rewrite list_lookup_middle|by apply String.eqb_eq].
Qed.

Lemma parts_size b ps ext p : describes b ps ext → p ∈ ps → size p = stored_len ext.
Proof.
  intros [Hl _ Hb Hlaid] Hp. unfold laid in Hlaid. unfold stored_len. destruct (ec ext) as [lay|].
  - destruct Hlaid as (_ & sc & Hc & He). destruct (encoded_length _ _ _ _ Hc Hb He) as [_ Hf]. rewrite Forall_forall in Hf. by apply Hf.
  - rewrite Hlaid in Hp. apply elem_of_replicate in Hp as [-> _]. done.
Qed.

(** A part of an extent of the catalog. *)
Lemma part_of e δ L x m r :
  inv δ L e → extents (catalog e) !! x = Some m → r ∈ replicas (extent m) →
  ∃ p, size p = stored_len (extent m) ∧ stored_at e r p ∧ taken (free (catalog e)) (stored_len (extent m)) r.
Proof.
  intros Hi Hm Hr. destruct (iv_ext _ _ _ Hi x m Hm) as (_ & b & ps & _ & Hd & Hk). unfold kept in Hk.
  destruct (object (extent m)). { destruct Hk as (_ & Hnil & _). rewrite Hnil in Hr. by apply elem_of_nil in Hr. }
  apply list_elem_of_lookup in Hr as [j Hj]. destruct (Forall2_lookup_l _ _ _ _ _ Hk Hj) as (p & Hp & Hs).
  exists p. split; [eapply parts_size; [done|]; by eapply list_elem_of_lookup_2|]. split; [done|].
  eapply (so_taken _ _ (ok_space _ (iv_cat _ _ _ Hi)) x); [unfold spots; by rewrite lookup_fmap, Hm|by eapply list_elem_of_lookup_2].
Qed.

(** ** How it is kept *)

Lemma stored_evolves W e e' r p :
  evolves W e e' → stored_at e r p →
  (∀ i b, find_node e (node_id r) = Some i → covers (size p) r (node_id r) (device_index r) b → ¬ W i (N.to_nat (device_index r)) b) →
  stored_at e' r p.
Proof.
  intros Hev Hs HW i d' Hf Hd'. rewrite (find_node_shape _ _ _ (ev_shape _ _ _ Hev)) in Hf.
  destruct (evolves_back _ _ _ _ _ _ Hev Hd') as (d & Hd & [_ He Hp]). destruct (Hs i d Hf Hd) as [Hle Hpk]. split; [lia|].
  rewrite Hp; [done|done|]. intros b Hb. apply HW; [done|]. unfold covers, FreeList.in_range. split_and!; try done; lia.
Qed.

(** Devices evolve where nothing is stored, and leases only grow. *)
Lemma inv_evolves W δ L e e' :
  inv δ L e → evolves W e e' → same_meta e e' → uuids e' = uuids e → objects_same (objects e) (objects e') →
  Inflight.consistent (free (catalog e)) (inflight e') →
  (∀ t, is_Some (Inflight.held (inflight e) !! t) → is_Some (Inflight.held (inflight e') !! t)) →
  (∀ t fr, fr ∈ leased (inflight e) t → fr ∈ leased (inflight e') t) →
  (∀ fr nd k b, fr ∈ Inflight.ranges (inflight e') → FreeList.covers fr nd k b → is_free (free (catalog e)) nd k b) →
  (∀ nd k i b, find_node e nd = Some i → W i (N.to_nat k) b →
    (∀ x m r, extents (catalog e) !! x = Some m → r ∈ replicas (extent m) → ¬ covers (stored_len (extent m)) r nd k b) ∧
    ∀ cl, cl ∈ L → ¬ owns cl nd k b) →
  inv δ L e'.
Proof.
  intros Hi Hev Hm Hu Ho Hcons Hopen Hheld Hrg HW. pose proof Hm as [Ec Ew Ea Es Eu Ed].
  assert (∀ nd, find_node e' nd = find_node e nd) as Hfn by (intros nd; by apply find_node_shape, (ev_shape W)).
  destruct Hi as [Hcat Hdur Hnodes Hhold Hlsd Hlow Hext Hcl Hap Hfr Huu] eqn:Heq. clear Heq. split; rewrite ?Ec, ?Hu, ?Eu; try done.
  - destruct Hdur. split; by rewrite ?Ea, ?Ew, ?Es, ?Ec, ?Ed.
  - by eapply evolves_ok.
  - intros nd k b i d' Hfree Hf Hd'. rewrite Hfn in Hf. destruct (evolves_back _ _ _ _ _ _ Hev Hd') as (d & Hd & [_ He _]).
    specialize (Hlow nd k b i d Hfree Hf Hd). lia.
  - intros x m Hx. destruct (Hext x m Hx) as (Hid & b & ps & Hδ & Hd & Hk). split; [done|]. exists b, ps. split; [done|]. split; [done|].
    unfold kept in *. destruct (object (extent m)) as [key|].
    + destruct Hk as (Hkey & Hr & Hobj). split_and!; try done. intros o' Ho'. unfold objects_same in Ho. rewrite Ho' in Ho. destruct (objects e) as [o|]; [|done].
      rewrite Ho. by apply Hobj.
    + apply Forall2_same_length_lookup. split; [by eapply Forall2_length|]. intros j r p Hr Hp.
      eapply stored_evolves; [exact Hev|by eapply Forall2_lookup_lr|]. intros i o Hf Hcov Hw.
      destruct (HW _ _ _ _ Hf Hw) as [Hno _]. eapply Hno; [exact Hx|by eapply list_elem_of_lookup_2|].
      erewrite <- parts_size; [exact Hcov|exact Hd|by eapply list_elem_of_lookup_2].
  - apply Forall_forall. intros cl Hin. rewrite Forall_forall in Hcl. destruct (Hcl cl Hin) as [Hp Hh Hop Hs]. split; rewrite ?Ec; try done; [naive_solver|by apply Hopen|].
    eapply stored_evolves; [exact Hev|done|]. intros i o Hf Hcov Hw. destruct (HW _ _ _ _ Hf Hw) as [_ Hno]. by eapply Hno.
Qed.

Lemma inv_calm δ L e e' : inv δ L e → calm e e' → inv δ L e'.
Proof.
  intros Hi [Hm Hu Hin Ho Hev]. eapply inv_evolves; [exact Hi|exact Hev|done|done|done|rewrite Hin; apply Hi|by rewrite Hin|by rewrite Hin|rewrite Hin; apply Hi|]. done.
Qed.

Lemma inv_fewer δ L L' e : inv δ (L ++ L') e → inv δ L' e.
Proof.
  intros [H1 H2 H3 H4 H4' H5 H6 Hcl Hap H9 H10]. split; try done; [by apply Forall_app in Hcl as [_ ?]|].
  by apply pairwise_app in Hap as (_ & ? & _).
Qed.

Lemma inv_perm δ L L' e : L ≡ₚ L' → inv δ L e → inv δ L' e.
Proof.
  intros Hp [H1 H2 H3 H4 H4' H5 H6 Hcl Hap H9 H10]. split; try done; [by rewrite <- Hp|]. by eapply (pairwise_perm apart).
Qed.

Lemma inv_claim δ L e cl : inv δ L e → claim_ok e cl → (∀ c, c ∈ L → apart cl c) → inv δ (cl :: L) e.
Proof. intros [H1 H2 H3 H4 H4' H5 H6 Hcl Hap H9 H10] Hok Ha. split; try done. by constructor. Qed.

(** ** Reading an extent *)

Lemma soft_touch x : soft (touch x : E ()) (λ _, True).
Proof.
  unfold touch. apply soft_get. intros e. case_match; [|by apply soft_ret]. eapply soft_bind; [apply soft_now|]. intros t _.
  apply soft_modify; [|done]. intros e'. by apply calm_light.
Qed.

(** An extent that describes what its id stands for is read as that, also when it
    has moved since it was looked up. *)
Lemma read_extent_spec δ L e ext b ps :
  inv δ L e → δ !! eid ext = Some b → describes b ps ext →
  wp (read_extent ext) e (λ out e', calm e e' ∧ out = b) (λ _ e', calm e e').
Proof.
  intros Hi Hb Hd. unfold read_extent. rewrite wp_bind. eapply wp_mono; [apply soft_touch, Hi| |done]. intros [] e1 [Hc1 _].
  assert (inv δ L e1) as Hi1 by (by eapply inv_calm). pose proof (soft_read_placed ext b ps Hd e1 (iv_nodes _ _ _ Hi1)) as Hr.
  pose proof (errs_read_placed ext e1) as Herr. unfold stepping, wp in *. destruct (read_placed ext e1) as [e2 [out|err|]]; [| |done].
  { destruct Hr as [Hc2 ->]. split; [by etrans|done]. }
  assert (calm e e2) as Hc by (by etrans). specialize (Herr e2 err eq_refl). destruct err; try exact Hc. rewrite (Herr _ eq_refl).
  assert (inv δ L e2) as Hi2 by (by eapply inv_calm).
  change (wp (retry_moved ext (eid ext)) e2 (λ out e', calm e e' ∧ out = b) (λ _ e', calm e e')). unfold retry_moved, with_catalog. rewrite wp_bind, wp_reads.
  destruct (extents (catalog e2) !! eid ext) as [m|] eqn:Hm; simpl; [|by rewrite wp_err]. case_bool_decide; [by rewrite wp_err|].
  destruct (iv_ext _ _ _ Hi2 _ _ Hm) as (Hid & b' & ps' & Hb' & Hd' & _). assert (b' = b) as -> by congruence.
  eapply wp_mono; [apply (soft_read_placed _ _ _ Hd'), Hi2| |]; [|intros err e3 Hc3; by etrans]. intros out e3 [Hc3 ->]. split; [by etrans|done].
Qed.

End inv.
End EngineInv.
