(* ===== verification/EnginePlace.v ===== *)
(** * Placing data

    A part placed on a data node gets space no extent and no other placement has,
    and what was on the devices stays; the parts of a new extent are those it
    describes. *)

From S2P Require Import Prelude MetaError FreeList Ec Catalog Extents Space MetaSpec NativeError Device Objects Placement Inflight Engine EngineRead EngineWrite EngineRepair EngineMeta EngineData EngineInv.

Module EnginePlace.
Import Placement Catalog Space MetaSpec NativeError Device Objects Engine EngineRead EngineWrite EngineRepair EngineMeta EngineData EngineInv.
Import FreeList (is_free, mkFreeRange).

Open Scope N_scope.

Section place.
Context {D O : Type} {BD : BlockStore D} {LD : BlockStoreLaws D} {BO : ObjectStore O} {LO : ObjectStoreLaws O} {P : EngineParams} {POk : ParamsOk P}.

Abbreviation Eng := (Engine D O).
Abbreviation E := (SM Eng NativeError).
Implicit Types e : Eng.

(** ** What a placement changes *)

Record busy (e e' : Eng) : Prop := {
  bz_meta : same_meta e e';
  bz_objects : objects_same (objects e) (objects e');
  bz_shape : shape e' = shape e;
  bz_tokens t : is_Some (Inflight.held (inflight e') !! t) ↔ is_Some (Inflight.held (inflight e) !! t);
}.

#[global] Instance busy_po : PreOrder busy.
Proof.
  split.
  - intros e. split; [done|apply objects_refl|done|done].
  - intros e1 e2 e3 [M1 O1 S1 T1] [M2 O2 S2 T2]. split; [by etrans| |by etrans|intros t; by rewrite T2].
    unfold objects_same in *. repeat case_match; try done. intros k. by rewrite O2.
Qed.

Lemma busy_calm e e' : calm e e' → busy e e'.
Proof. intros [Hm _ Hi Ho Hev]. split; [done|done|apply Hev|by rewrite Hi]. Qed.

Lemma calm_stop δ L e e' : calm e e' → inv δ L e → busy e e' ∧ uuids e' = uuids e ∧ inv δ L e'.
Proof. intros Hc Hi. split; [by apply busy_calm|]. split; [apply Hc|by eapply inv_calm]. Qed.

(** [m] keeps the invariant while it places: [Q] says what it claims. *)
Definition places {A} (δ : gmap ExtentId bytes) (L : list Claim) (tok : N) (m : E A) (Q : A → list Claim → Prop) : Prop :=
  ∀ e, inv δ L e → is_Some (Inflight.held (inflight e) !! tok) →
    wp m e (λ a e', busy e e' ∧ uuids e' = uuids e ∧ ∃ L', Q a L' ∧ inv δ (L' ++ L) e')
      (λ _ e', busy e e' ∧ uuids e' = uuids e ∧ inv δ L e').

Lemma places_soft {A} δ L tok (m : E A) (Q : A → Prop) : soft m Q → places δ L tok m (λ a L', Q a ∧ L' = []).
Proof.
  intros Hm e Hi Ht. eapply wp_mono; [apply Hm, Hi| |].
  - intros a e' [Hc Hq]. split; [by apply busy_calm|]. split; [apply Hc|]. exists []. split; [done|]. by eapply inv_calm.
  - intros err e' Hc. by apply calm_stop.
Qed.

Lemma places_mono {A} δ L tok (m : E A) (Q Q' : A → list Claim → Prop) :
  places δ L tok m Q → (∀ a L', Q a L' → Q' a L') → places δ L tok m Q'.
Proof.
  intros Hm HQ e Hi Ht. eapply wp_mono; [by apply Hm| |done]. intros a e' (? & ? & L' & ? & ?). split_and!; try done. exists L'. auto.
Qed.

Lemma places_bind {A B} δ L tok (m : E A) (k : A → E B) Q Q' :
  places δ L tok m Q → (∀ a L1, Q a L1 → places δ (L1 ++ L) tok (k a) (λ b L2, Q' b (L2 ++ L1))) → places δ L tok (m ≫= k) Q'.
Proof.
  intros Hm Hk e Hi Ht. rewrite wp_bind. eapply wp_mono; [by apply Hm| |done]. intros a e1 (Hb & Hu & L1 & Hq & Hi1).
  eapply wp_mono; [apply (Hk a L1 Hq e1 Hi1)| |]; [by apply Hb|..].
  - intros b e2 (Hb2 & Hu2 & L2 & Hq2 & Hi2). split; [by etrans|]. split; [by rewrite Hu2|]. exists (L2 ++ L1). by rewrite <- app_assoc.
  - intros err e2 (Hb2 & Hu2 & Hi2). split; [by etrans|]. split; [by rewrite Hu2|]. by eapply inv_fewer.
Qed.

Lemma places_ret {A} δ L tok (a : A) (Q : A → list Claim → Prop) : Q a [] → places δ L tok (mret a) Q.
Proof. intros Hq e Hi Ht. rewrite wp_ret. split; [done|]. split; [done|]. by exists []. Qed.
Lemma places_err {A} δ L tok err (Q : A → list Claim → Prop) : places δ L tok (sm_err err) Q.
Proof. intros e Hi Ht. rewrite wp_err. done. Qed.
Lemma places_lift {A} δ L tok (r : res NativeError A) (Q : A → list Claim → Prop) : r ≠ Panic → (∀ a, r = Ok a → Q a []) → places δ L tok (sm_lift r) Q.
Proof. intros Hp Hq e Hi Ht. rewrite wp_lift. destruct r; [|done|done]. split; [done|]. split; [done|]. exists []. auto. Qed.

(** Part of what was claimed is given up. *)
Lemma places_weaken {A} δ L tok (m : E A) (Q Q' : A → list Claim → Prop) :
  places δ L tok m Q → (∀ a L', Q a L' → ∃ L1 L2, L' ≡ₚ L1 ++ L2 ∧ Q' a L2) → places δ L tok m Q'.
Proof.
  intros Hm HQ e Hi Ht. eapply wp_mono; [by apply Hm| |done]. intros a e' (? & ? & L' & Hq & Hi'). split_and!; try done.
  destruct (HQ a L' Hq) as (L1 & L2 & Hp & Hq'). exists L2. split; [done|]. eapply (inv_fewer _ L1). rewrite app_assoc. eapply inv_perm; [|exact Hi']. by rewrite Hp.
Qed.

(** ** Space from the free list *)

Lemma take_free_spec δ L e tok nd k n :
  inv δ L e → is_Some (Inflight.held (inflight e) !! tok) →
  wp (take_free tok nd k n) e (λ o e', busy e e' ∧ uuids e' = uuids e ∧ inv δ L e' ∧ nodes e' = nodes e ∧
      match o with
      | Some off => 0 < n ∧ off + n < u64_size ∧ ∀ b, off <= b < off + n →
          is_free (free (catalog e)) nd k b ∧ mkFreeRange nd k off n ∈ leased (inflight e') tok ∧ ∀ cl, cl ∈ L → ¬ owns cl nd k b
      | None => True
      end) (λ _ _, False).
Proof.
  intros Hi Ht. unfold take_free, now. wp_simpl. unfold stepping, wp. simpl.
  destruct (Inflight.take _ _ _ _ _ _ _ _) as [s r] eqn:Etk.
  destruct (Inflight.take_consistent _ _ _ _ _ _ _ _ _ _ (iv_hold _ _ _ Hi) Ht Etk) as (Hc & Htok & Hr).
  match goal with |- busy e ?x ∧ _ => set (e' := x) end.
  assert (∀ t fr, fr ∈ leased (inflight e) t → fr ∈ leased s t) as Hheld.
  { unfold leased. destruct r as [off|]; [destruct Hr as (_ & _ & _ & ->)|by rewrite Hr]. intros t fr Hfr.
    destruct (decide (t = tok)) as [->|Hne]; [rewrite lookup_insert_eq; simpl; set_solver|by rewrite lookup_insert_ne]. }
  assert (∀ fr nd k b, fr ∈ Inflight.ranges s → FreeList.covers fr nd k b → is_free (free (catalog e)) nd k b) as Hrg.
  { intros fr nd' k' b Hfr Hcv. destruct (Inflight.take_ranges _ _ _ _ _ _ _ _ _ _ Etk fr Hfr) as [Hold|(off & -> & ->)]; [by eapply iv_leased|].
    destruct Hr as (_ & _ & Hfree & _). destruct Hcv as (<- & <- & Hb). simpl in *. apply Hfree. lia. }
  assert (inv δ L e') as Hi'.
  { eapply (inv_evolves untouched _ _ e); try done; [|apply objects_refl|intros t; apply Htok]. split; [done|]. intros i j d Hd. exists d. split; [done|apply device_grows_refl]. }
  split; [by split; [|apply objects_refl|..]|]. split; [done|]. split; [done|]. split; [done|]. destruct r as [off|]; [|done].
  destruct Hr as (Hn & Hb & Hfree & Hh). split; [done|]. split; [done|]. intros b Hbr. destruct (Hfree b Hbr) as [Hf Hno]. split; [done|]. split.
  - unfold leased. simpl. rewrite Hh, lookup_insert_eq. simpl. set_solver.
  - intros cl Hcl Hown. pose proof (iv_claims _ _ _ Hi) as Hcls. rewrite Forall_forall in Hcls.
    destruct (Hcls cl Hcl) as [_ [Htk|(fr & Hin & Hsame)] _ _]; [by eapply Htk|]. apply Hno. exists fr. split; [|by apply Hsame].
    rewrite (Inflight.values_split _ (cl_token cl)). apply elem_of_app. by left.
Qed.

(** ** Writes to a device *)

Lemma busy_device W e e' :
  evolves W e e' → same_meta e e' → inflight e' = inflight e → objects e' = objects e → busy e e'.
Proof. intros Hev Hm Hi Ho. split; [done|rewrite Ho; apply objects_refl|apply Hev|by rewrite Hi]. Qed.

Lemma covers_split n r nd k b : covers n r nd k b ↔ nd = node_id r ∧ k = device_index r ∧ offset r <= b < offset r + n.
Proof. unfold covers, FreeList.in_range. naive_solver lia. Qed.

(** Over space from the free list. *)
Lemma written_spec δ L e tok nd i k fence off data :
  inv δ L e → is_Some (Inflight.held (inflight e) !! tok) → find_node e nd = Some i → 0 < size data → off + size data < u64_size →
  (∀ b, off <= b < off + size data →
    is_free (free (catalog e)) nd k b ∧ mkFreeRange nd k off (size data) ∈ leased (inflight e) tok ∧ ∀ cl, cl ∈ L → ¬ owns cl nd k b) →
  wp (on_device i (N.to_nat k) (write_at fence off data)) e (λ o e', busy e e' ∧ uuids e' = uuids e ∧
      match o with
      | None => dev e i (N.to_nat k) = None
      | Some (Ok _) => inv δ (mkClaim tok (mkReplicaRef nd k off) data :: L) e'
      | Some (Err _) => inv δ L e'
      | Some Panic => False
      end) (λ _ _, False).
Proof.
  intros Hi Ht Hf Hpos Hb Hmine. pose proof (on_device_evolves i (N.to_nat k) (write_at fence off data) (λ b, off <= b < off + size data) e (iv_nodes _ _ _ Hi)) as Hev.
  unfold wp. destruct (on_device i (N.to_nat k) (write_at fence off data) e) as [e' r]. destruct Hev as (Hev & Hm & Hu & Hin & Ho & Hr).
  { intros d d' r' Hw Ew. destruct (write_law d fence off data d' r' Hw Ew) as (Hw' & _ & He & Hp & _). split; [done|lia|].
    intros o m Hom Hno. apply Hp. unfold clear_of. destruct (N.eq_dec m 0), (N.eq_dec (size data) 0); try lia.
    destruct (N.le_gt_cases (o + m) off), (N.le_gt_cases (off + size data) o); try lia. exfalso. apply (Hno (N.max o off)); lia. }
  assert (busy e e') as Hbz by (by eapply busy_device).
  assert (inv δ L e') as Hi'.
  { eapply inv_evolves; [exact Hi|exact Hev|done|done|rewrite Ho; apply objects_refl|rewrite Hin; apply Hi|by rewrite Hin|by rewrite Hin|rewrite Hin; apply Hi|].
    intros nd' k' i' b Hf' (-> & Hk & Hbr). assert (k' = k) as -> by lia.
    destruct (find_node_id _ _ _ Hf) as (n & Hn & <-). destruct (find_node_id _ _ _ Hf') as (n' & Hn' & <-). assert (n' = n) as -> by congruence.
    destruct (Hmine b Hbr) as (Hfree & _ & Hcl). split; [|done]. intros x m r0 Hx Hr0 Hcv.
    destruct (part_of _ _ _ _ _ _ Hi Hx Hr0) as (p & _ & _ & Htk). by eapply Htk. }
  destruct (dev e i (N.to_nat k)) as [d|] eqn:Hd; destruct Hr as [-> Hd']; [|done]. split; [done|]. split; [done|].
  destruct (write_at fence off data d) as [d' r'] eqn:Ew. simpl in *.
  destruct (write_law d fence off data d' r' (no_wf _ (iv_nodes _ _ _ Hi) _ _ _ Hd) Ew) as (_ & Hp & He & _ & Hok). destruct r' as [[]|err|]; [|done|done].
  pose proof (sm_catalog _ _ Hm) as Ec. apply inv_claim; [done| |].
  - split; simpl.
    + split; simpl; [done| |right].
      * intros x n' l r' Hx Hr' nd' k' b (-> & -> & Hbr)%covers_split. simpl in *. rewrite Ec in Hx. unfold spots in Hx. rewrite lookup_fmap in Hx.
        destruct (extents (catalog e) !! x) as [m|] eqn:Hxm; [|done]. injection Hx as <- <-. destruct (part_of _ _ _ _ _ _ Hi Hxm Hr') as (p & _ & _ & Htk).
        intros Hcv. eapply Htk; [exact Hcv|]. by apply Hmine.
      * intros nd' k' b (-> & -> & Hbr)%covers_split. rewrite Ec. by apply Hmine.
    + right. eexists. rewrite Hin. split; [apply (Hmine off); lia|]. intros nd' k' b. unfold owns. rewrite covers_split. unfold FreeList.covers. simpl. naive_solver.
    + by rewrite Hin.
    + intros i0 d0 Hf0 Hd0. simpl in *. rewrite (find_node_shape _ _ _ (ev_shape _ _ _ Hev)), Hf in Hf0. injection Hf0 as <-. rewrite Hd' in Hd0. injection Hd0 as <-.
      split; [|by apply Hok]. rewrite He. assert (off + size data - 1 < bs_end d); [|lia]. eapply (iv_low _ _ _ Hi nd k); [apply Hmine; lia|done|done].
  - intros c Hc nd' k' b (-> & -> & Hbr)%covers_split. by apply Hmine.
Qed.

(** Past the end of the device. *)
Lemma appended_spec δ L e tok nd i k fence data :
  inv δ L e → is_Some (Inflight.held (inflight e) !! tok) → find_node e nd = Some i →
  wp (on_device i (N.to_nat k) (append fence data)) e (λ o e', busy e e' ∧ uuids e' = uuids e ∧
      match o with
      | None => dev e i (N.to_nat k) = None
      | Some (Ok off) => inv δ (mkClaim tok (mkReplicaRef nd k off) data :: L) e'
      | Some (Err _) => inv δ L e'
      | Some Panic => False
      end) (λ _ _, False).
Proof.
  intros Hi Ht Hf. pose proof (on_device_evolves i (N.to_nat k) (append fence data) (λ _, False) e (iv_nodes _ _ _ Hi)) as Hev.
  unfold wp. destruct (on_device i (N.to_nat k) (append fence data) e) as [e' r]. destruct Hev as (Hev & Hm & Hu & Hin & Ho & Hr).
  { intros d d' r' Hw Ew. destruct (append_law d fence data d' r' Hw Ew) as (Hw' & _ & He & Hp & _). by split; auto. }
  assert (busy e e') as Hbz by (by eapply busy_device).
  assert (inv δ L e') as Hi'.
  { eapply inv_evolves; [exact Hi|exact Hev|done|done|rewrite Ho; apply objects_refl|rewrite Hin; apply Hi|by rewrite Hin|by rewrite Hin|rewrite Hin; apply Hi|].
    by intros nd' k' i' b _ (_ & _ & ?). }
  destruct (dev e i (N.to_nat k)) as [d|] eqn:Hd; destruct Hr as [-> Hd']; [|done]. split; [done|]. split; [done|].
  destruct (append fence data d) as [d' r'] eqn:Ew. simpl in *.
  destruct (append_law d fence data d' r' (no_wf _ (iv_nodes _ _ _ Hi) _ _ _ Hd) Ew) as (_ & Hp & He & _ & Hok). destruct r' as [off|err|]; [|done|done].
  destruct (Hok off eq_refl) as (Hlow & Hend & Hbound & Hpeek). clear Hok. pose proof (sm_catalog _ _ Hm) as Ec.
  assert (∀ r p b, stored_at e r p → covers (size p) r nd k b → b < bs_end d) as Hbelow.
  { intros r p b Hs (-> & -> & Hb)%covers_split. destruct (Hs i d Hf Hd) as [? _]. lia. }
  apply inv_claim; [done| |].
  - split; simpl.
    + split; simpl; [done| |left].
      * intros x n' l r' Hx Hr' nd' k' b (-> & -> & Hbr)%covers_split. simpl in *. rewrite Ec in Hx. unfold spots in Hx. rewrite lookup_fmap in Hx.
        destruct (extents (catalog e) !! x) as [m|] eqn:Hxm; [|done]. injection Hx as <- <-. destruct (part_of _ _ _ _ _ _ Hi Hxm Hr') as (p & Hsz & Hst & _).
        intros Hcv. rewrite <- Hsz in Hcv. specialize (Hbelow _ _ _ Hst Hcv). lia.
      * intros nd' k' b (-> & -> & Hbr)%covers_split Hfree. simpl in *. rewrite Ec in Hfree. pose proof (iv_low _ _ _ Hi nd k b i d Hfree Hf Hd). lia.
    + left. intros nd' k' b (-> & -> & Hbr)%covers_split Hfree. simpl in *. rewrite Ec in Hfree. pose proof (iv_low _ _ _ Hi nd k b i d Hfree Hf Hd). lia.
    + by rewrite Hin.
    + intros i0 d0 Hf0 Hd0. simpl in *. rewrite (find_node_shape _ _ _ (ev_shape _ _ _ Hev)), Hf in Hf0. injection Hf0 as <-. rewrite Hd' in Hd0. by injection Hd0 as <-.
  - intros c Hc nd' k' b (-> & -> & Hbr)%covers_split Hown. simpl in *. pose proof (iv_claims _ _ _ Hi) as Hcls. rewrite Forall_forall in Hcls.
    destruct (Hcls c Hc) as [_ _ _ Hst]. specialize (Hbelow _ _ _ Hst Hown). lia.
Qed.

Lemma placed_replica δ L tok nd fence data :
  places δ L tok (place_replica nd fence data tok) (λ o L', match o with Some r => node_id r = nd ∧ L' = [mkClaim tok r data] | None => L' = [] end).
Proof.
  intros e Hi Ht. unfold place_replica, node. wp_simpl. destruct (find_node e nd) as [i|] eqn:Hf; cbn [ok_or]; [|done]. wp_simpl.
  destruct (find_node_id _ _ _ Hf) as (n & Hn & Hid). rewrite Hn. pose proof (no_some _ (iv_nodes _ _ _ Hi) i n Hn) as Hne.
  destruct (Nat.eqb_spec (length (devices n)) 0) as [Hz|Hz]; [by destruct (devices n)|]. set (k := next_device n mod size (devices n)).
  assert (N.to_nat k < length (devices n))%nat as Hk by (pose proof (N.mod_lt (next_device n) (size (devices n)) ltac:(lia)); lia).
  wp_simpl. eapply wp_mono; [apply (soft_edit i _ (λ _, True)); [done|done|apply Hi]| |by intros err e1 Hc1; apply calm_stop]. intros [] e1 [Hc1 _].
  assert (inv δ L e1) as Hi1 by (by eapply inv_calm). rewrite wp_bind. eapply wp_mono; [apply take_free_spec; [exact Hi1|by rewrite (cm_inflight _ _ Hc1)]| |done].
  intros o e2 (Hb2 & Hu2 & Hi2 & Hn2 & Ho).
  assert (busy e e2 ∧ uuids e2 = uuids e) as [Hb Hu] by (split; [etrans; [by apply busy_calm|done]|by rewrite Hu2, (cm_uuids _ _ Hc1)]).
  assert (find_node e2 nd = Some i) as Hf2 by (rewrite (find_node_shape e e2); [done|apply Hb]).
  assert (dev e2 i (N.to_nat k) ≠ None) as Hdev.
  { intros Hnone. pose proof (bz_shape _ _ Hb) as Hsh. apply (f_equal (λ l, l !! i)) in Hsh. unfold shape in Hsh. rewrite !list_lookup_fmap, Hn in Hsh.
    unfold dev in Hnone. destruct (nodes e2 !! i) as [n2|]; [|done]. injection Hsh as _ Hl. simpl in Hnone. apply lookup_ge_None in Hnone. lia. }
  assert (∀ w e3, busy e2 e3 → uuids e3 = uuids e2 →
    match w with None => dev e2 i (N.to_nat k) = None | Some (Ok off) => inv δ (mkClaim tok (mkReplicaRef nd k off) data :: L) e3 | Some (Err _) => inv δ L e3 | Some Panic => False end →
    wp (match w with None | Some Panic => sm_panic | Some (Ok off) => mark_up i ;; mret (Some (mkReplicaRef nd k off))
        | Some (Err (Fenced c)) => sm_err (Fenced c) | Some (Err _) => mark_down i ;; mret None end) e3
      (λ o e', busy e e' ∧ uuids e' = uuids e ∧ ∃ L', match o with Some r => node_id r = nd ∧ L' = [mkClaim tok r data] | None => L' = [] end ∧ inv δ (L' ++ L) e')
      (λ _ e', busy e e' ∧ uuids e' = uuids e ∧ inv δ L e')) as Hend.
  { intros w e3 Hb3 Hu3 Hw. assert (busy e e3) by (by etrans). assert (uuids e3 = uuids e) by congruence. destruct w as [[off|err|]|]; [| |done|done].
    - rewrite wp_bind. eapply wp_mono; [apply soft_mark_up; apply Hw| |].
      + intros [] e4 [Hc4 _]. rewrite wp_ret. split; [etrans; [done|by apply busy_calm]|]. split; [by rewrite (cm_uuids _ _ Hc4)|].
        exists [mkClaim tok (mkReplicaRef nd k off) data]. split; [done|]. by eapply inv_calm.
      + intros err e4 Hc4. split; [etrans; [done|by apply busy_calm]|]. split; [by rewrite (cm_uuids _ _ Hc4)|]. eapply (inv_fewer _ [_]). by eapply inv_calm.
    - assert (wp (mark_down i ;; mret None) e3 (λ o e', busy e e' ∧ uuids e' = uuids e ∧ ∃ L', match o with Some r => node_id r = nd ∧ L' = [mkClaim tok r data] | None => L' = [] end ∧ inv δ (L' ++ L) e')
        (λ _ e', busy e e' ∧ uuids e' = uuids e ∧ inv δ L e')) as Hdown.
      { rewrite wp_bind. eapply wp_mono; [apply soft_mark_down; apply Hw| |].
        - intros [] e4 [Hc4 _]. rewrite wp_ret. split; [etrans; [done|by apply busy_calm]|]. split; [by rewrite (cm_uuids _ _ Hc4)|]. exists []. split; [done|]. by eapply inv_calm.
        - intros err' e4 Hc4. split; [etrans; [done|by apply busy_calm]|]. split; [by rewrite (cm_uuids _ _ Hc4)|]. by eapply inv_calm. }
      destruct err; try exact Hdown. by rewrite wp_err. }
  rewrite wp_bind. destruct o as [off|].
  - rewrite wp_bind. eapply wp_mono; [apply (written_spec δ L e2 tok nd i k fence off data); [done|by apply Hb|done|apply Ho..|]| |done].
    { rewrite (sm_catalog _ _ (bz_meta _ _ Hb2)). apply Ho. }
    intros w e3 (Hb3 & Hu3 & Hw). rewrite wp_ret. apply Hend; [done|done|]. destruct w as [[[]| |]|]; done.
  - eapply wp_mono; [apply (appended_spec δ L e2 tok nd i k fence data); [done|by apply Hb|done]| |done]. intros w e3 (Hb3 & Hu3 & Hw). by apply Hend.
Qed.

(** ** Side by side *)

(** The claims of tasks in order, those of the last first. *)
Inductive gathers {X A} (Q : X → A → list Claim → Prop) : list X → list (res NativeError A) → list Claim → Prop :=
| ga_nil : gathers Q [] [] []
| ga_ok x a L1 l rs L2 : Q x a L1 → gathers Q l rs L2 → gathers Q (x :: l) (Ok a :: rs) (L2 ++ L1)
| ga_err x err l rs L2 : gathers Q l rs L2 → gathers Q (x :: l) (Err err :: rs) L2.

Lemma places_run_all {X A} (f : X → E A) (Q : X → A → list Claim → Prop) l δ tok : ∀ L,
  (∀ x L', x ∈ l → places δ L' tok (f x) (Q x)) → places δ L tok (run_all (f <$> l)) (gathers Q l).
Proof.
  induction l as [|x l IH]; intros L Hf; [apply places_ret; constructor|]. intros e Hi Ht.
  pose proof (Hf x L ltac:(left) e Hi Ht) as Hx. unfold wp in *. csimpl. simpl run_all. destruct (f x e) as [e1 [a|err|]]; [| |done].
  - destruct Hx as (Hb & Hu & L1 & Hq & Hi1). pose proof (IH (L1 ++ L) ltac:(intros; apply Hf; by right) e1 Hi1 ltac:(by apply Hb)) as Hl.
    unfold wp in Hl. destruct (run_all (f <$> l) e1) as [e2 [rs|err|]]; [| |done].
    + destruct Hl as (Hb2 & Hu2 & L2 & Hg & Hi2). split; [by etrans|]. split; [by rewrite Hu2|]. exists (L2 ++ L1). split; [by constructor|]. by rewrite <- app_assoc.
    + destruct Hl as (Hb2 & Hu2 & Hi2). split; [by etrans|]. split; [by rewrite Hu2|]. by eapply inv_fewer.
  - destruct Hx as (Hb & Hu & Hi1). pose proof (IH L ltac:(intros; apply Hf; by right) e1 Hi1 ltac:(by apply Hb)) as Hl.
    unfold wp in Hl. destruct (run_all (f <$> l) e1) as [e2 [rs|err'|]]; [| |done].
    + destruct Hl as (Hb2 & Hu2 & L2 & Hg & Hi2). split; [by etrans|]. split; [by rewrite Hu2|]. exists L2. split; [by constructor|done].
    + destruct Hl as (Hb2 & Hu2 & Hi2). split; [by etrans|]. split; [by rewrite Hu2|done].
Qed.

Definition copy_of (tok : N) (chunk : bytes) (r : ReplicaRef) : Claim := mkClaim tok r chunk.

Lemma collect_gathers {X} tok (l : list X) chunk rs L more :
  gathers (λ (_ : X) (o : option ReplicaRef) L', match o with Some r => L' = [mkClaim tok r chunk] | None => L' = [] end) l rs L →
  collect rs = Ok more → L ≡ₚ copy_of tok chunk <$> more.
Proof.
  intros Hg. revert more. induction Hg as [|x o L1 l rs L2 Hq Hg IH|]; intros more; simpl; [by intros [= <-]| |done].
  destruct (collect rs) as [rest| |]; [|done..]. simpl. intros [= <-]. rewrite (IH rest eq_refl). destruct o; subst L1; [|by rewrite app_nil_r].
  csimpl. by rewrite Permutation_app_comm.
Qed.

Lemma collect_no_panic {X A} (Q : X → option A → list Claim → Prop) l rs L : gathers Q l rs L → collect rs ≠ Panic.
Proof. induction 1 as [|x o L1 l rs L2 Hq Hg IH|]; simpl; [done| |done]. by destruct (collect rs). Qed.

Lemma placed_rounds δ tok fuel needed fence chunk : ∀ L order rs,
  places δ L tok (place_rounds fuel needed fence chunk tok order rs) (λ rs' L', ∃ more, rs' = rs ++ more ∧ L' ≡ₚ copy_of tok chunk <$> more).
Proof.
  induction fuel as [|fuel IH]; intros L order rs; simpl; (case_match; [|apply places_ret; exists []; by rewrite app_nil_r]).
  { apply places_ret. exists []. by rewrite app_nil_r. }
  destruct (take _ order) as [|n batch]; [apply places_ret; exists []; by rewrite app_nil_r|].
  eapply places_bind; [apply (places_run_all (λ node_id, place_replica node_id fence chunk tok) (λ _ o L', match o with Some r => L' = [mkClaim tok r chunk] | None => L' = [] end) (n :: batch))|].
  { intros x L' _. eapply places_mono; [apply placed_replica|]. intros [r|] L1; [by intros [_ ->]|done]. }
  intros placed L1 Hg. eapply (places_bind _ _ _ _ _ (λ more L', L' = [] ∧ L1 ≡ₚ copy_of tok chunk <$> more)).
  { apply places_lift; [by eapply collect_no_panic|]. intros more Hm. split; [done|]. by eapply collect_gathers. }
  intros more L2 [-> Hm]. simpl. eapply places_mono; [apply IH|]. intros rs' L3 (more' & -> & Hm'). exists (more ++ more').
  rewrite app_nil_r, fmap_app, Hm, Hm', app_assoc. split; [done|]. by rewrite Permutation_app_comm.
Qed.

(** ** Shards *)

Definition slot_claims (tok : N) (slots : list (option ReplicaRef)) (shards : list bytes) : list Claim :=
  omap (λ x : option ReplicaRef * bytes, match x.1 with Some r => Some (mkClaim tok r (x.2)) | None => None end) (zip slots shards).

Lemma slot_claims_insert tok slots shards i r p :
  length slots = length shards → slots !! i = Some None → shards !! i = Some p →
  slot_claims tok (<[i := Some r]> slots) shards ≡ₚ mkClaim tok r p :: slot_claims tok slots shards.
Proof.
  revert shards i. induction slots as [|o slots IH]; intros [|s shards] i Hl Hs Hp; try done. destruct i as [|i]; simplify_eq/=; [done|].
  unfold slot_claims in *. csimpl. destruct o; rewrite IH by done; [apply Permutation_swap|done].
Qed.

Lemma slot_claims_full tok slots shards :
  length slots = length shards → (∀ i, slots !! i ≠ Some None) →
  length (omap (λ x, x) slots) = length shards ∧ slot_claims tok slots shards = zip_with (mkClaim tok) (omap (λ x, x) slots) shards.
Proof.
  revert shards. induction slots as [|o slots IH]; intros [|s shards] Hl Hs; try done. unfold slot_claims in *. csimpl. destruct o as [r|]; [|by destruct (Hs 0%nat)].
  destruct (IH shards) as [H1 H2]; [by simplify_eq/=|intros i; apply (Hs (S i))|]. simpl. by rewrite H1, H2.
Qed.

(** The slots still to fill are those pending. *)
Definition open_slots (slots : list (option ReplicaRef)) (pending : list (nat * string)) : Prop :=
  NoDup (pending.*1) ∧ ∀ i, i ∈ pending.*1 ↔ slots !! i = Some None.

Lemma settled_round tok needed shards l spare slots retry (done_ : list Claim) :
  length slots = length shards → NoDup (l.*1 ++ retry.*1) → (∀ i, i ∈ l.*1 ++ retry.*1 ↔ slots !! i = Some None) →
  done_ ≡ₚ slot_claims tok slots shards →
  ∀ L, gathers (λ (i : nat) (o : option ReplicaRef) L', match o with Some r => ∃ p, shards !! i = Some p ∧ L' = [mkClaim tok r p] | None => L' = [] end) (l.*1) (l.*2) L →
  settle_round needed l spare slots retry ≠ Panic ∧
  ∀ slots' retry' spare', settle_round needed l spare slots retry = Ok (slots', retry', spare') →
    length slots' = length slots ∧ open_slots slots' retry' ∧ L ++ done_ ≡ₚ slot_claims tok slots' shards ∧
    (length spare' + length retry' <= length spare + length retry)%nat.
Proof.
  revert spare slots retry done_. induction l as [|[i r] l IH]; intros spare slots retry done_ Hl Hnd Hopen Hd L Hg; csimpl in *.
  { inversion Hg; subst. split; [done|]. intros slots' retry' spare' [= <- <- <-]. split_and!; try done. }
  apply NoDup_cons in Hnd as [Hni Hnd]. inversion Hg as [|? o L1 ? ? L2 Hq Hg'|? err ? ? ? Hg']; subst; simpl; [|done].
  assert (slots !! i = Some None) as Hsi by (apply Hopen; by left). destruct o as [r|].
  - destruct Hq as (p & Hp & ->). destruct (IH spare (<[i := Some r]> slots) retry (mkClaim tok r p :: done_)) with (L := L2) as [Hnp Hok]; try done.
    + by rewrite length_insert.
    + intros j. destruct (decide (i = j)) as [<-|Hj].
      * split; [done|]. rewrite list_lookup_insert_eq by (by eapply lookup_lt_Some). done.
      * rewrite list_lookup_insert_ne by done. rewrite <- Hopen. split; [by right|]. by intros [->|?]%elem_of_cons.
    + rewrite Hd. symmetry. by apply slot_claims_insert.
    + split; [done|]. intros slots' retry' spare' Hs. destruct (Hok _ _ _ Hs) as (H1 & H2 & H3 & H4). rewrite length_insert in H1. split_and!; try done.
      rewrite <- H3, <- app_assoc. done.
  - subst L1. destruct spare as [|n spare]; [done|]. rewrite app_nil_r.
    destruct (IH spare slots (retry ++ [(i, n)]) done_) with (L := L2) as [Hnp Hok]; try done.
    + rewrite fmap_app. csimpl. rewrite app_assoc. apply NoDup_app. split; [done|]. split; [|apply NoDup_singleton]. intros j Hj ->%list_elem_of_singleton. done.
    + intros j. rewrite fmap_app, app_assoc, elem_of_app. csimpl. rewrite list_elem_of_singleton, <- Hopen, elem_of_cons. tauto.
    + split; [done|]. intros slots' retry' spare' Hs. destruct (Hok _ _ _ Hs) as (H1 & H2 & H3 & H4). split_and!; try done. rewrite length_app in H4. simpl in *. lia.
Qed.

Definition shard_claims (tok : N) (shards : list bytes) (i : nat) (o : option ReplicaRef) (L : list Claim) : Prop :=
  match o with Some r => ∃ p, shards !! i = Some p ∧ L = [mkClaim tok r p] | None => L = [] end.

Lemma gathers_zip tok shards (l : list (nat * string)) rs L :
  gathers (λ x : nat * string, shard_claims tok shards (x.1)) l rs L →
  (zip (l.*1) rs).*1 = l.*1 ∧ gathers (shard_claims tok shards) ((zip (l.*1) rs).*1) ((zip (l.*1) rs).*2) L.
Proof.
  intros Hg. assert (length rs = length l) as Hl by (induction Hg; simpl; congruence). rewrite fst_zip, snd_zip by (rewrite length_fmap; lia).
  split; [done|]. clear Hl. induction Hg; csimpl; by constructor.
Qed.

Lemma placed_shard_rounds δ tok needed fence shards fuel : ∀ L pending spare slots done_,
  length slots = length shards → open_slots slots pending → done_ ≡ₚ slot_claims tok slots shards → pending = [] ∨ (length spare < fuel)%nat →
  places δ L tok (shard_rounds fuel needed fence shards tok pending spare slots)
    (λ slots' L', length slots' = length shards ∧ (∀ i, slots' !! i ≠ Some None) ∧ L' ++ done_ ≡ₚ slot_claims tok slots' shards).
Proof.
  induction fuel as [|fuel IH]; intros L pending spare slots done_ Hl [Hnd Hopen] Hd Hfuel.
  all: destruct pending as [|x pending]; [simpl; apply places_ret; split_and!; [done| |done]; intros i Hi; apply Hopen in Hi; by apply elem_of_nil in Hi|].
  { destruct Hfuel as [?|?]; [done|lia]. }
  cbn [shard_rounds]. eapply places_bind; [apply (places_run_all _ (λ x : nat * string, shard_claims tok shards (x.1)) (x :: pending))|].
  { intros y L' Hy. destruct (lookup_lt_is_Some_2 shards (y.1)) as [p Hp].
    { rewrite <- Hl. apply (lookup_lt_Some _ _ None), Hopen, list_elem_of_fmap. by exists y. }
    simpl. rewrite Hp. eapply places_mono; [apply placed_replica|]. intros [r|] L1; simpl; [|done]. intros [_ ->]. by exists p. }
  intros placed L1 Hg. apply gathers_zip in Hg as [Hz Hg].
  destruct (settled_round tok needed shards (zip ((x :: pending).*1) placed) spare slots [] done_) with (L := L1) as [Hnp Hok]; try done.
  { by rewrite Hz, app_nil_r. }
  { intros i. by rewrite Hz, app_nil_r. }
  eapply (places_bind _ _ _ _ _ (λ r L', L' = [] ∧ settle_round needed (zip ((x :: pending).*1) placed) spare slots [] = Ok r)).
  { apply places_lift; [done|]. by intros r ->. }
  intros [[slots' retry'] spare'] L2 [-> Hs]. destruct (Hok _ _ _ Hs) as (H1 & H2 & H3 & H4). simpl in H4. simpl.
  eapply places_mono; [apply (IH _ retry' spare' slots' (L1 ++ done_))|].
  - congruence.
  - done.
  - done.
  - destruct Hfuel as [?|?]; [done|]. destruct retry'; [by left|right; simpl in *; lia].
  - intros slots2 L3 (Hl3 & Hn3 & Hp3). split_and!; try done. rewrite app_nil_r, <- app_assoc. done.
Qed.

(** ** New extents *)

(** As [places], with new extents in [δ']. *)
Definition makes {A} (δ : gmap ExtentId bytes) (L : list Claim) (tok : N) (m : E A) (Q : A → gmap ExtentId bytes → list Claim → Prop) : Prop :=
  ∀ e, inv δ L e → is_Some (Inflight.held (inflight e) !! tok) →
    wp m e (λ a e', busy e e' ∧ ∃ δ' L', δ ⊆ δ' ∧ Q a δ' L' ∧ inv δ' (L' ++ L) e')
      (λ _ e', busy e e' ∧ ∃ δ', δ ⊆ δ' ∧ inv δ' L e').

Lemma makes_places {A} δ L tok (m : E A) Q : places δ L tok m Q → makes δ L tok m (λ a δ' L', δ' = δ ∧ Q a L').
Proof.
  intros Hm e Hi Ht. eapply wp_mono; [by apply Hm| |].
  - intros a e' (Hb & _ & L' & Hq & Hi'). split; [done|]. by exists δ, L'.
  - intros err e' (Hb & _ & Hi'). split; [done|]. by exists δ.
Qed.

Lemma makes_bind {A B} δ L tok (m : E A) (k : A → E B) Q Q' :
  makes δ L tok m Q → (∀ a δ1 L1, δ ⊆ δ1 → Q a δ1 L1 → makes δ1 (L1 ++ L) tok (k a) (λ b δ2 L2, Q' b δ2 (L2 ++ L1))) → makes δ L tok (m ≫= k) Q'.
Proof.
  intros Hm Hk e Hi Ht. rewrite wp_bind. eapply wp_mono; [by apply Hm| |done]. intros a e1 (Hb & δ1 & L1 & Hsub & Hq & Hi1).
  eapply wp_mono; [apply (Hk a δ1 L1 Hsub Hq e1 Hi1)| |]; [by apply Hb|..].
  - intros b e2 (Hb2 & δ2 & L2 & Hsub2 & Hq2 & Hi2). split; [by etrans|]. exists δ2, (L2 ++ L1). split; [by etrans|]. by rewrite <- app_assoc.
  - intros err e2 (Hb2 & δ2 & Hsub2 & Hi2). split; [by etrans|]. exists δ2. split; [by etrans|by eapply inv_fewer].
Qed.

Lemma makes_mono {A} δ L tok (m : E A) (Q Q' : A → gmap ExtentId bytes → list Claim → Prop) :
  makes δ L tok m Q → (∀ a δ' L', δ ⊆ δ' → Q a δ' L' → Q' a δ' L') → makes δ L tok m Q'.
Proof.
  intros Hm HQ e Hi Ht. eapply wp_mono; [by apply Hm| |done]. intros a e' (? & δ' & L' & Hsub & Hq & Hi'). split; [done|]. exists δ', L'. auto.
Qed.

(** A new identifier, with the bytes it stands for. *)
Lemma inv_fresh δ L e b :
  inv δ L e → δ !! uuid e (uuids e) = None ∧ inv (<[uuid e (uuids e) := b]> δ) L (e <| uuids ::= N.succ |>).
Proof.
  intros Hi. assert (δ !! uuid e (uuids e) = None) as Hn by (apply (iv_fresh _ _ _ Hi); lia). split; [done|].
  destruct Hi as [H1 H2 H3 H4 H4' H5 H6 H7 H8 H9 H10]. split; try done.
  - by destruct H2.
  - by destruct H3.
  - intros x m Hx. destruct (H6 x m Hx) as (Hid & b' & ps & Hδ & ?). split; [done|]. exists b', ps. split; [|done]. rewrite lookup_insert_ne; [done|congruence].
  - eapply Forall_impl; [exact H7|]. by intros cl [].
  - intros k Hk. change (N.succ (uuids e) <= k) in Hk. change (<[uuid e (uuids e) := b]> δ !! uuid e k = None).
    rewrite lookup_insert_ne; [apply H9; lia|]. apply H10; lia.
  - intros j k Hj Hjk. change (N.succ (uuids e) <= j) in Hj. apply H10; lia.
Qed.

(** An extent of [chunk] with its parts. *)
Record fresh_extent (δ δ' : gmap ExtentId bytes) (chunk : bytes) (ext : ExtentRef) (ps : list bytes) : Prop := {
  fe_new : δ !! eid ext = None;
  fe_map : δ' = <[eid ext := chunk]> δ;
  fe_desc : describes chunk ps ext;
  fe_object : object ext = None;
  fe_parts : length (replicas ext) = length ps;
}.

Lemma made_extent δ L tok chunk rs lay ps :
  size chunk < 2 ^ 63 → length rs = length ps →
  (∀ x off t, laid chunk ps (mkExtentRef x off (size chunk) (sha256 chunk) rs lay t None)) →
  makes δ L tok (new_extent chunk rs lay) (λ ext δ' L', L' = [] ∧ replicas ext = rs ∧ fresh_extent δ δ' chunk ext ps).
Proof.
  intros Hs Hl Hlaid e Hi Ht. unfold new_extent, new_uuid, now. wp_simpl. simpl. destruct (inv_fresh δ L e chunk Hi) as [Hn Hi'].
  match goal with |- busy e ?x ∧ _ => set (e' := x) end. assert (calm (e <| uuids ::= N.succ |>) e') as Hc by (by apply calm_light).
  split. { split; [done|apply objects_refl|done|done]. }
  exists (<[uuid e (uuids e) := chunk]> δ), []. split; [by apply insert_subseteq|]. split; [|by eapply inv_calm].
  split; [done|]. split; [done|]. split; try done.
Qed.

Lemma soft_placement_order n skip : soft (placement_order n skip : E (list string)) (λ _, True).
Proof.
  unfold placement_order. apply soft_get. intros e. eapply (soft_bind _ _ (λ _, True)); [|intros; by apply soft_ret].
  generalize (nodes e). induction l as [|n' l IH]; simpl; [by apply soft_ret|]. eapply soft_bind; [apply soft_is_up|]. intros b _.
  eapply soft_bind; [exact IH|]. intros r _. by apply soft_ret.
Qed.

(** What placing an extent gives. *)
Definition made (tok : N) (chunk : bytes) (δ : gmap ExtentId bytes) (ext : ExtentRef) (δ' : gmap ExtentId bytes) (L : list Claim) : Prop :=
  ∃ ps, fresh_extent δ δ' chunk ext ps ∧ L ≡ₚ zip_with (mkClaim tok) (replicas ext) ps.

Lemma placed_copies δ L tok chunk fence :
  size chunk < 2 ^ 63 → makes δ L tok (place_copies chunk fence tok) (made tok chunk δ).
Proof.
  intros Hs. unfold place_copies. eapply makes_bind; [apply makes_places, places_soft, soft_placement_order|].
  intros order δ1 L1 _ (-> & _ & ->). simpl. case_match; [eapply makes_mono; [apply makes_places, (places_err _ _ _ _ (λ _ _, False))|by intros ??? _ [_ ?]]|].
  eapply makes_bind; [apply makes_places, placed_rounds|]. intros rs δ2 L2 _ (-> & more & Hrs & HL). simpl in Hrs. subst more.
  case_match; [eapply makes_mono; [apply makes_places, (places_err _ _ _ _ (λ _ _, False))|by intros ??? _ [_ ?]]|].
  eapply makes_mono; [apply (made_extent _ _ _ _ _ _ (replicate (length rs) chunk)); [done|by rewrite length_replicate|done]|].
  intros ext δ' L' _ (-> & Hr & Hfe). exists (replicate (length rs) chunk). split; [exact Hfe|]. simpl. rewrite ?app_nil_r, HL, Hr.
  clear. induction rs; csimpl; [done|]. by f_equiv.
Qed.

Lemma placed_shards δ L tok sc chunk fence :
  size chunk < 2 ^ 63 → erasure cfg = Some sc → makes δ L tok (place_shards sc chunk fence tok) (made tok chunk δ).
Proof.
  intros Hs Hc. unfold place_shards.
  eapply (makes_bind _ _ _ _ _ (λ enc δ' L', δ' = δ ∧ Ec.encode sha256 rs_encode sc chunk = Ok enc ∧ L' = [])).
  { apply (makes_places _ _ _ _ (λ enc L', Ec.encode sha256 rs_encode sc chunk = Ok enc ∧ L' = [])), places_lift.
    - unfold Ec.encode, Ec.parity_of. by destruct (rs_encode _ _ _).
    - intros enc. by destruct (Ec.encode _ _ _ _) eqn:E; [intros [= <-]|..]. }
  intros [lay ps] δ1 L1 _ (-> & He & ->). simpl. destruct (encoded_length _ _ _ _ Hc Hs He) as [Hlen _].
  assert (Ec.sc_shards sc = N.of_nat (length ps)) as Hsc.
  { destruct (encoded _ _ _ _ He) as (pp & _ & _ & ->). simpl in Hlen. unfold Ec.sc_shards. lia. }
  eapply makes_bind; [apply makes_places, places_soft, soft_placement_order|]. intros order δ1 L1 _ (-> & _ & ->). simpl.
  destruct (N.ltb_spec (size order) (Ec.sc_shards sc)); [eapply makes_mono; [apply makes_places, (places_err _ _ _ _ (λ _ _, False))|by intros ??? _ [_ ?]]|].
  rewrite Hsc, Nat2N.id in *.
  eapply makes_bind; [apply makes_places, (placed_shard_rounds _ _ _ _ ps (length order) L _ _ (replicate (length ps) None) [])|].
  - apply length_replicate.
  - assert ((zip (seq 0 (length ps)) (take (length ps) order)).*1 = seq 0 (length ps)) as Hz by (apply fst_zip; rewrite length_take, length_seq; lia).
    unfold open_slots. rewrite Hz. split; [apply NoDup_seq|]. intros i. rewrite elem_of_seq, lookup_replicate. naive_solver lia.
  - unfold slot_claims. clear. induction ps; csimpl; [done|]. exact IHps.
  - destruct ps as [|p0 ps0]; [by left|right; rewrite length_drop; simpl in *; lia].
  - intros slots δ2 L2 _ (-> & Hl & Hfull & HL). rewrite app_nil_r in HL. destruct (slot_claims_full tok slots ps Hl Hfull) as [Hr Hz].
    eapply makes_mono; [apply (made_extent _ _ _ _ _ _ ps); [done|done|]|].
    + intros x off t. unfold laid. simpl. split; [done|]. by exists sc.
    + intros ext δ' L' _ (-> & Hrs & Hfe). exists ps. split; [done|]. simpl. by rewrite ?app_nil_r, HL, Hz, <- Hrs.
Qed.

Lemma placed_extent δ L tok chunk fence : size chunk < 2 ^ 63 → makes δ L tok (place_extent chunk fence tok) (made tok chunk δ).
Proof.
  intros Hs. unfold place_extent. destruct (erasure cfg) as [sc|] eqn:Hc; [case_match|]; first [by apply placed_shards|by apply placed_copies].
Qed.

End place.
End EnginePlace.
