(* ===== verification/EngineRange.v ===== *)
(** * Ranges of bytes of the storage engine

    The bytes of a volume, a snapshot or a file are those of the extents of its grid
    cells, zeros where there is none.  A read of a range returns them as they were
    when it looked the extents up, whatever happens to the extents meanwhile. *)

From S2P Require Import Prelude MetaError FreeList Ec Catalog Extents MetaSpec NativeError Device Objects Placement Inflight Engine EngineRead EngineMeta EngineData EngineInv.

Module EngineRange.
Import Placement Catalog NativeError Device Objects Engine EngineRead EngineMeta EngineData EngineInv.

Open Scope N_scope.

(** ** Images *)

Definition get0 (b : bytes) (j : nat) : N := default 0 (b !! j).

Definition cell_of (g i : N) : N := i - i mod g.

Definition cell_bytes (δ : gmap ExtentId bytes) (m : gmap N ExtentId) (cell : N) : bytes :=
  default [] (m !! cell ≫= λ x, δ !! x).

Definition byte_at (δ : gmap ExtentId bytes) (g : N) (m : gmap N ExtentId) (i : N) : N :=
  get0 (cell_bytes δ m (cell_of g i)) (N.to_nat (i mod g)).

Definition slice (δ : gmap ExtentId bytes) (g : N) (m : gmap N ExtentId) (off n : N) : bytes :=
  (λ j, byte_at δ g m (off + N.of_nat j)) <$> seq 0 (N.to_nat n).

(** Everything up to a size. *)
Definition image (δ : gmap ExtentId bytes) (g : N) (m : gmap N ExtentId) (sz : N) : bytes := slice δ g m 0 sz.

Lemma slice_length δ g m off n : length (slice δ g m off n) = N.to_nat n.
Proof. unfold slice. by rewrite length_fmap, length_seq. Qed.

Lemma slice_lookup δ g m off n j : (j < N.to_nat n)%nat → slice δ g m off n !! j = Some (byte_at δ g m (off + N.of_nat j)).
Proof. intros Hj. unfold slice. rewrite list_lookup_fmap, lookup_seq_lt by done. done. Qed.

Lemma image_slice δ g m sz off n : off + n <= sz → slice δ g m off n = take (N.to_nat n) (drop (N.to_nat off) (image δ g m sz)).
Proof.
  intros Hle. apply list_eq. intros j. destruct (decide (j < N.to_nat n)%nat).
  - rewrite slice_lookup, lookup_take_lt, lookup_drop by done. unfold image. rewrite slice_lookup by lia. do 2 f_equal. lia.
  - rewrite lookup_take_ge by lia. apply lookup_ge_None_2. rewrite slice_length. lia.
Qed.

(** ** Extents of a map *)

(** The extents of a map sit on the grid, within [sz] bytes. *)
Definition map_ok (δ : gmap ExtentId bytes) (g : N) (c : Catalog) (m : gmap N ExtentId) (sz : N) : Prop :=
  ∀ off x, m !! off = Some x →
    off mod g = 0 ∧ (∃ b, δ !! x = Some b ∧ size b <= g ∧ off + size b <= sz) ∧
    ∃ mt, extents c !! x = Some mt ∧ logical_offset (extent mt) = off.

Lemma cell_grid g i : 0 < g → cell_of g i mod g = 0 ∧ cell_of g i <= i < cell_of g i + g ∧ cell_of g i + i mod g = i.
Proof.
  intros Hg. unfold cell_of. pose proof (N.mod_lt i g ltac:(lia)) as Hm. pose proof (N.div_mod i g ltac:(lia)) as Hd.
  assert (i - i mod g = i / g * g) as E by (rewrite Hd at 1; rewrite N.add_sub; apply N.mul_comm). split; [rewrite E; apply N.Div0.mod_mul|].
  pose proof (N.Div0.mod_le i g) as Hle. clear Hd E. revert Hm Hle. generalize (i mod g). intros r. lia.
Qed.

(** Cells are a grid apart. *)
Lemma cell_unique g c i : 0 < g → c mod g = 0 → c <= i < c + g → cell_of g i = c ∧ i mod g = i - c.
Proof.
  intros Hg Hc Hi. pose proof (N.div_mod c g ltac:(lia)) as Hd. rewrite Hc, N.add_0_r in Hd.
  assert (i mod g = i - c) as E. { symmetry. apply (N.mod_unique i g (c / g)); lia. }
  split; [|done]. unfold cell_of. rewrite E. lia.
Qed.

Section range.
Context {D O : Type} {BD : BlockStore D} {LD : BlockStoreLaws D} {BO : ObjectStore O} {LO : ObjectStoreLaws O} {P : EngineParams} {POk : ParamsOk P}.

Abbreviation Eng := (Engine D O).
Abbreviation E := (SM Eng NativeError).
Implicit Types e : Eng.

(** A record of an extent of the map. *)
Record found (δ : gmap ExtentId bytes) (g : N) (m : gmap N ExtentId) (ext : ExtentRef) : Prop := {
  fo_map : m !! logical_offset ext = Some (eid ext);
  fo_grid : logical_offset ext mod g = 0;
  fo_bytes : ∃ b ps, δ !! eid ext = Some b ∧ describes b ps ext ∧ size b <= g ∧ logical_offset ext + size b < u64_size;
}.

(** The records a read of a range looks up. *)
Record looked_up (δ : gmap ExtentId bytes) (g : N) (m : gmap N ExtentId) (l : list ExtentRef) (off n : N) : Prop := {
  lu_found : Forall (found δ g m) l;
  lu_all cell x : 0 < n → m !! cell = Some x → cell_of g off <= cell < off + n → ∃ ext, ext ∈ l ∧ logical_offset ext = cell ∧ eid ext = x;
  lu_bound : off + n < u64_size;
}.

Lemma looked_up_mono δ δ' g m l off n : δ ⊆ δ' → looked_up δ g m l off n → looked_up δ' g m l off n.
Proof.
  intros Hs [Hf Ha Hb]. split; try done. eapply Forall_impl; [exact Hf|]. intros ext [H1 H2 (b & ps & H3 & H4)]. split; try done.
  exists b, ps. split; [|done]. by eapply lookup_weaken.
Qed.

Lemma mapM_Ok {A B} (f : A → res NativeError B) l k : mapM f l = Ok k → Forall2 (λ a b, f a = Ok b) l k.
Proof.
  revert k. induction l as [|a l IH]; intros k; simpl; [intros [= <-]; constructor|]. destruct (f a) as [b| |] eqn:Ef; [|done..]. simpl.
  destruct (mapM f l) as [k'| |]; [|done..]. simpl. intros [= <-]. constructor; auto.
Qed.

Lemma mapM_total {A B} (f : A → res NativeError B) l : (∀ x, x ∈ l → ∃ b, f x = Ok b) → ∃ k, mapM f l = Ok k.
Proof.
  intros Hf. induction l as [|a l IH]; simpl; [by eexists|]. destruct (Hf a) as [b ->]; [by left|]. simpl.
  destruct IH as [k ->]; [intros x Hx; apply Hf; by right|]. by eexists.
Qed.

(** What a lookup finds. *)
Lemma extents_in_spec δ L e g m sz off n :
  inv δ L e → 0 < g → map_ok δ g (catalog e) m sz → sz < u64_size →
  match extents_in (catalog e) m g sz off n with
  | Ok l => off + n <= sz ∧ looked_up δ g m l off n
  | Err _ => sz < off + n
  | Panic => False
  end.
Proof.
  intros Hi Hg Hm Hsz. unfold extents_in, u64_checked_add. destruct (N.leb_spec (off + n) u64_max) as [Hb|Hb]; [|unfold u64_max, u64_size in *; lia].
  destruct (N.ltb_spec sz (off + n)); [done|]. destruct (N.eqb_spec n 0) as [->|Hn].
  { split; [lia|]. split; [done| |lia]. intros cell x ?. lia. }
  set (es := List.filter _ _).
  assert (∀ cell x, (cell, x) ∈ es ↔ m !! cell = Some x ∧ cell_of g off <= cell < off + n) as Hes.
  { intros cell x. unfold es. rewrite list_elem_of_In, filter_In, <- list_elem_of_In, elem_of_bt_entries, andb_true_iff, N.leb_le, N.ltb_lt. simpl. unfold cell_of. done. }
  destruct (mapM_total (λ x : N * ExtentId, ok_or (extent <$> extents (catalog e) !! x.2) NotFound) es) as [l El].
  { intros [cell x] [Hx _]%Hes. destruct (Hm cell x Hx) as (_ & _ & mt & Hmt & _). simpl. rewrite Hmt. by eexists. }
  rewrite El.
  split; [lia|]. apply mapM_Ok in El. split; [| |lia].
  - apply Forall_forall. intros ext Hext. apply list_elem_of_lookup in Hext as [j Hj]. destruct (Forall2_lookup_r _ _ _ _ _ El Hj) as ([cell x] & Hcx & Hok).
    apply list_elem_of_lookup_2, Hes in Hcx as [Hx _]. destruct (Hm cell x Hx) as (Hgr & (b & Hb' & Hs & Hend) & mt & Hmt & Hlo). simpl in Hok. rewrite Hmt in Hok. injection Hok as <-.
    destruct (iv_ext _ _ _ Hi x mt Hmt) as (Hid & b' & ps & Hδ & Hd & _). assert (b' = b) as -> by congruence.
    split; rewrite ?Hlo, ?Hid; try done. exists b, ps. split_and!; try done. lia.
  - intros cell x _ Hx Hc. assert ((cell, x) ∈ es) as Hin by (by apply Hes). apply list_elem_of_lookup in Hin as [j Hj].
    destruct (Forall2_lookup_l _ _ _ _ _ El Hj) as (ext & Hext & Hok). exists ext. split; [by eapply list_elem_of_lookup_2|].
    destruct (Hm cell x Hx) as (_ & _ & mt & Hmt & Hlo). simpl in Hok. rewrite Hmt in Hok. injection Hok as <-.
    split; [done|]. by destruct (iv_ext _ _ _ Hi x mt Hmt).
Qed.

(** ** Reading a range *)

(** [soft] where the invariant holds. *)
Definition reading {A} δ L (m : E A) (Q : A → Prop) : Prop :=
  ∀ e, inv δ L e → wp m e (λ a e', calm e e' ∧ Q a) (λ _ e', calm e e').

Lemma reading_run_all {X A} δ L (f : X → E A) (Q : X → A → Prop) l :
  (∀ x, x ∈ l → reading δ L (f x) (Q x)) → reading δ L (run_all (f <$> l)) (Forall2 (λ x r, r ≠ Panic ∧ ∀ a, r = Ok a → Q x a) l).
Proof.
  intros Hf. induction l as [|x l IH]; [by intros e _|]. intros e Hi. specialize (IH (λ y Hy, Hf y (list_elem_of_further _ _ _ Hy))).
  pose proof (Hf x ltac:(left) e Hi) as Hx. unfold wp in *. csimpl. simpl run_all. destruct (f x e) as [e1 r].
  assert (calm e e1 ∧ r ≠ Panic ∧ ∀ a, r = Ok a → Q x a) as (Hc & Hp & Hq).
  { destruct r as [a|err|]; [|done|done]. destruct Hx as [? ?]. split_and!; try done. by intros ? [= <-]. }
  specialize (IH e1 (inv_calm _ _ _ _ Hi Hc)). unfold wp in IH. destruct (run_all (f <$> l) e1) as [e2 [rs|err|]]; [|exact (transitivity Hc IH)|done].
  destruct IH as [Hc2 Hrs]. split; [exact (transitivity Hc Hc2)|]. constructor; [|done]. by destruct r.
Qed.

Lemma chunks_concat {A} fuel k (l : list A) : (0 < k)%nat → (length l <= fuel)%nat → concat (chunks fuel k l) = l.
Proof.
  intros Hk. revert l. induction fuel as [|fuel IH]; intros [|x l] Hl; simpl in *; try done; [lia|]. rewrite IH; [by rewrite <- (take_drop k (x :: l)) at 3|].
  destruct k; [lia|]. simpl. rewrite length_drop. lia.
Qed.

Section fetch.
Context (δ : gmap ExtentId bytes) (L : list Claim) (g : N) (m : gmap N ExtentId) (off n : N).
Context (Hg : 0 < g) (Hend : off + n < u64_size).

Abbreviation Part := (ExtentRef * N * N)%type.

(** A record and its part of the range. *)
Definition part_ok (x : Part) : Prop :=
  let '(ext, start, stop) := x in
  found δ g m ext ∧ start = N.max (logical_offset ext) off ∧ stop = N.min (logical_offset ext + len ext) (off + n) ∧ start < stop.

Lemma wanted_ok l : Forall (found δ g m) l → Forall part_ok (wanted off (u64_add off n) l).
Proof.
  intros Hl. apply Forall_forall. intros [[ext start] stop] Hin. unfold wanted in Hin. apply list_elem_of_omap in Hin as (ext' & Hext & Hx).
  rewrite Forall_forall in Hl. pose proof (Hl _ Hext) as Hf. destruct (fo_bytes _ _ _ _ Hf) as (b & ps & _ & Hd & _ & Hb). rewrite <- (de_len _ _ _ Hd) in Hb.
  rewrite !u64_add_small in Hx by done. destruct (N.ltb_spec (N.max (logical_offset ext') off) (N.min (logical_offset ext' + len ext') (off + n))); [|done].
  injection Hx as <- <- <-. done.
Qed.

Lemma wanted_all l ext :
  Forall (found δ g m) l → ext ∈ l → N.max (logical_offset ext) off < N.min (logical_offset ext + len ext) (off + n) →
  (ext, N.max (logical_offset ext) off, N.min (logical_offset ext + len ext) (off + n)) ∈ wanted off (u64_add off n) l.
Proof.
  intros Hl Hext Hlt. unfold wanted. apply list_elem_of_omap. exists ext. split; [done|]. rewrite Forall_forall in Hl.
  destruct (fo_bytes _ _ _ _ (Hl _ Hext)) as (b & ps & _ & Hd & _ & Hb). rewrite <- (de_len _ _ _ Hd) in Hb.
  rewrite !u64_add_small by done. by rewrite (proj2 (N.ltb_lt _ _) Hlt).
Qed.

(** What has been copied: zeros or the bytes of the range, and these where it was copied. *)
Record copied (S : list Part) (out : bytes) : Prop := {
  co_len : length out = N.to_nat n;
  co_byte j : (j < N.to_nat n)%nat → out !! j = Some 0 ∨ out !! j = Some (byte_at δ g m (off + N.of_nat j));
  co_done x j : x ∈ S → (j < N.to_nat n)%nat → x.1.2 <= off + N.of_nat j < x.2 → out !! j = Some (byte_at δ g m (off + N.of_nat j));
}.

Lemma found_byte ext b i :
  found δ g m ext → δ !! eid ext = Some b → logical_offset ext <= i < logical_offset ext + size b →
  b !! N.to_nat (i - logical_offset ext) = Some (byte_at δ g m i).
Proof.
  intros [Hm Hgr (b' & ps & Hb & Hd & Hs & _)] Hb' Hi. assert (b' = b) as -> by congruence.
  destruct (cell_unique g (logical_offset ext) i Hg Hgr) as [Hc Hr]; [lia|]. unfold byte_at, cell_bytes. rewrite Hc, Hr, Hm. simpl. rewrite Hb. simpl.
  unfold get0. destruct (lookup_lt_is_Some_2 b (N.to_nat (i - logical_offset ext))) as [y ->]; [lia|done].
Qed.

Lemma copy_part_spec x b S out :
  part_ok x → δ !! eid (x.1.1) = Some b → copied S out → ∃ out', copy_part off x b out = Ok out' ∧ copied (x :: S) out'.
Proof.
  destruct x as [[ext start] stop]. intros (Hf & Hst & Hsp & Hlt) Hb [Hl Hby Hdn]. simpl in *.
  destruct (fo_bytes _ _ _ _ Hf) as (b' & ps & Hb' & Hd & _ & _). assert (b' = b) as -> by congruence. pose proof (de_len _ _ _ Hd) as Hlen.
  unfold copy_part. rewrite (proj2 (Nat.ltb_ge _ _)) by lia. rewrite (proj2 (Nat.ltb_ge _ _)) by lia. simpl. eexists. split; [done|].
  set (lo := N.to_nat (start - logical_offset ext)). set (hi := N.to_nat (stop - logical_offset ext)). set (at_ := N.to_nat (start - off)). set (to_ := N.to_nat (stop - off)).
  assert (length (take at_ out) = at_) as L1 by (rewrite length_take; lia).
  assert (length (take (hi - lo) (drop lo b)) = (hi - lo)%nat) as L2 by (rewrite length_take, length_drop; lia).
  assert (∀ j, (take at_ out ++ take (hi - lo) (drop lo b) ++ drop to_ out) !! j =
    if decide (at_ <= j < to_)%nat then b !! (j - at_ + lo)%nat else out !! j) as Hlook.
  { intros j. case_decide as Hj.
    - rewrite lookup_app_r by lia. rewrite L1, lookup_app_l by lia. rewrite lookup_take_lt, lookup_drop by lia. f_equal. lia.
    - destruct (decide (j < at_)%nat); [rewrite lookup_app_l by lia; by rewrite lookup_take_lt|].
      rewrite lookup_app_r by lia. rewrite L1, lookup_app_r by lia. rewrite L2, lookup_drop. f_equal. lia. }
  assert (∀ j, (at_ <= j < to_)%nat → b !! (j - at_ + lo)%nat = Some (byte_at δ g m (off + N.of_nat j))) as Hnew.
  { intros j Hj. erewrite <- found_byte; [|exact Hf|exact Hb|lia]. f_equal. lia. }
  split.
  - rewrite !length_app, L1, L2, length_drop. lia.
  - intros j Hj. rewrite Hlook. case_decide; [right; by apply Hnew|by apply Hby].
  - intros y j [->|Hy]%elem_of_cons Hj Hr; rewrite Hlook; simpl in *.
    + rewrite decide_True by lia. apply Hnew. lia.
    + case_decide; [by apply Hnew|by eapply Hdn].
Qed.

Lemma copy_window_spec (l : list Part) : ∀ rs S out,
  Forall part_ok l → Forall2 (λ x r, r ≠ Panic ∧ ∀ b, r = Ok b → δ !! eid (x.1.1) = Some b) l rs → copied S out →
  match copy_window off (zip l rs) out with Ok out' => copied (rev l ++ S) out' | Err _ => True | Panic => False end.
Proof.
  induction l as [|x l IH]; intros rs S out Hl Hrs Hc; [by destruct rs|]. apply Forall2_cons_inv_l in Hrs as (r & rs' & [Hp Hb] & Hrs & ->).
  apply Forall_cons in Hl as [Hx Hl]. csimpl. destruct r as [b| |]; simpl; [|done|done].
  destruct (copy_part_spec x b S out Hx (Hb b eq_refl) Hc) as (out' & -> & Hc'). simpl. specialize (IH rs' (x :: S) out' Hl Hrs Hc').
  destruct (copy_window off (zip l rs') out'); [|done|done]. by rewrite <- app_assoc.
Qed.

Lemma read_window_spec (l : list Part) :
  Forall part_ok l → reading δ L (read_window l) (Forall2 (λ x r, r ≠ Panic ∧ ∀ b, r = Ok b → δ !! eid (x.1.1) = Some b) l).
Proof.
  intros Hl. assert (∀ x, x ∈ l → reading δ L (read_extent (x.1.1)) (λ b, δ !! eid (x.1.1) = Some b)) as Hx.
  { intros [[ext start] stop] Hin e Hi. rewrite Forall_forall in Hl. destruct (Hl _ Hin) as (Hf & _). destruct (fo_bytes _ _ _ _ Hf) as (b & ps & Hb & Hd & _).
    eapply wp_mono; [by eapply read_extent_spec| |done]. by intros out e' [? ->]. }
  assert (reading δ L (run_all ((λ x : Part, read_extent (x.1.1)) <$> l)) (Forall2 (λ x r, r ≠ Panic ∧ ∀ b, r = Ok b → δ !! eid (x.1.1) = Some b) l)) as Hall
    by (by apply reading_run_all).
  destruct l as [|[[ext start] stop] [|y l]]; [exact Hall| |exact Hall]. intros e Hi. specialize (Hx _ ltac:(left) e Hi). simpl in Hx. unfold read_window, stepping, wp in *. simpl.
  destruct (read_extent ext e) as [e1 [b|err|]]; [| |done]; (split; [tauto|]); (constructor; [|constructor]); (split; [done|]); [|done]. intros b' [= <-]. by destruct Hx.
Qed.

Lemma read_windows_spec ws : ∀ S out,
  Forall (Forall part_ok) ws → copied S out → reading δ L (read_windows off ws out) (copied (rev (concat ws) ++ S)).
Proof.
  induction ws as [|w ws IH]; intros S out Hws Hc e Hi; simpl; [by rewrite wp_ret|]. apply Forall_cons in Hws as [Hw Hws].
  rewrite wp_bind. eapply wp_mono; [by apply read_window_spec| |done]. intros rs e1 [Hc1 Hrs]. rewrite wp_bind, wp_lift.
  pose proof (copy_window_spec w rs S out Hw Hrs Hc) as Hcp. destruct (copy_window off (zip w rs) out) as [out'| |]; [|done|done].
  eapply wp_mono; [apply (IH _ _ Hws Hcp); by eapply inv_calm| |].
  - intros out2 e2 [Hc2 Ho]. split; [by etrans|]. by rewrite rev_app_distr, <- app_assoc.
  - intros err e2 Hc2. by etrans.
Qed.

(** A read returns the bytes of the range. *)
Lemma read_range_spec l : looked_up δ g m l off n → reading δ L (read_range l off n) (λ out, out = slice δ g m off n).
Proof.
  intros [Hf Ha _] e Hi. unfold read_range. set (w := wanted off (u64_add off n) l). pose proof (wanted_ok l Hf) as Hw. fold w in Hw.
  assert (concat (chunks (length w) READ_PARALLELISM w) = w) as Hcat by (apply chunks_concat; unfold READ_PARALLELISM; lia).
  eapply wp_mono; [apply (read_windows_spec (chunks (length w) READ_PARALLELISM w) [])| |done].
  - apply Forall_forall. intros ch Hch. apply Forall_forall. intros x Hx. rewrite Forall_forall in Hw. apply Hw. rewrite <- Hcat.
    apply elem_of_concat. by exists ch.
  - split; [by rewrite length_replicate| |by intros x j ?%elem_of_nil]. intros j Hj. left. by apply lookup_replicate.
  - done.
  - rewrite Hcat, app_nil_r. intros out e' [Hc [Hl Hby Hdn]]. split; [done|]. apply list_eq. intros j. destruct (decide (j < N.to_nat n)%nat) as [Hj|Hj].
    2:{ rewrite !lookup_ge_None_2; [done|rewrite slice_length; lia|lia]. }
    rewrite slice_lookup by done. set (i := off + N.of_nat j). destruct (m !! cell_of g i) as [x|] eqn:Hx.
    + destruct (cell_grid g i Hg) as (Hg0 & Hci & Hsum). destruct (cell_grid g off Hg) as (Ho0 & Hco & _).
      destruct (Ha (cell_of g i) x) as (ext & Hext & Hlo & Hid); [lia|done| |].
      { split; [|lia]. destruct (N.le_gt_cases (cell_of g off) (cell_of g i)); [done|]. exfalso.
        destruct (cell_unique g (cell_of g off) i Hg Ho0) as [E _]; [lia|]. lia. }
      rewrite Forall_forall in Hf. pose proof (Hf _ Hext) as Hfe. destruct (fo_bytes _ _ _ _ Hfe) as (b & ps & Hb & Hd & _). pose proof (de_len _ _ _ Hd) as Hlen.
      destruct (N.le_gt_cases (cell_of g i + size b) i) as [Hout|Hin].
      * assert (byte_at δ g m i = 0) as Hz.
        { unfold byte_at, cell_bytes. rewrite Hx. simpl. rewrite <- Hid, Hb. simpl. unfold get0. rewrite lookup_ge_None_2; [done|]. lia. }
        destruct (Hby j Hj) as [E|E]; rewrite E; [by rewrite <- Hz|done].
      * apply (Hdn (ext, N.max (logical_offset ext) off, N.min (logical_offset ext + len ext) (off + n))); [|done|simpl; rewrite Hlo; lia].
        apply list_elem_of_In. rewrite <- in_rev. apply list_elem_of_In.
        apply wanted_all; [by apply Forall_forall|done|]. rewrite Hlo. lia.
    + assert (byte_at δ g m i = 0) as Hz by (unfold byte_at, cell_bytes; by rewrite Hx). destruct (Hby j Hj) as [E|E]; rewrite E; [by rewrite <- Hz|done].
Qed.
End fetch.

End range.
End EngineRange.
