(* ===== verification/EngineCat.v ===== *)
(** * What the engine's commands do to a catalog

    For each command the engine commits: the maps of volumes and snapshots, the
    records of extents and the free list after it. *)

From S2P Require Import Prelude MetaError FreeList Catalog Extents FsTree Namespace Metadata Frames Space MetaSpace MetaRefs MetaSpec.

Module EngineCat.
Import Catalog Extents FsTree Namespace Metadata Frames Space MetaSpace MetaSpec.
Import FreeList (is_free).

Open Scope N_scope.

(** ** Records of extents *)

(** The records without their counts. *)
Definition statics (c : Catalog) : gmap ExtentId ExtentRef := extent <$> extents c.

Lemma statics_lookup c x m : extents c !! x = Some m → statics c !! x = Some (extent m).
Proof. intros Hm. unfold statics. by rewrite lookup_fmap, Hm. Qed.
Lemma statics_back c x e : statics c !! x = Some e → ∃ m, extents c !! x = Some m ∧ extent m = e.
Proof. unfold statics. rewrite lookup_fmap. destruct (extents c !! x) as [m|]; [|done]. intros [= <-]. eauto. Qed.

(** Extents and free space are the same. *)
Definition same_space (c c' : Catalog) : Prop := statics c' = statics c ∧ free c' = free c.
(** Volumes and snapshots, too. *)
Definition same_dirs (c c' : Catalog) : Prop := same_space c c' ∧ volumes c' = volumes c ∧ snapshots c' = snapshots c.

#[export] Instance same_space_po : PreOrder same_space.
Proof. split; [done|]. intros c1 c2 c3 [H1 H2] [H3 H4]. split; by etrans. Qed.
#[export] Instance same_dirs_po : PreOrder same_dirs.
Proof. split; [done|]. intros c1 c2 c3 (H1 & H2 & H3) (H4 & H5 & H6). split_and!; by etrans. Qed.

Lemma statics_recount c id e n : extents c !! id = Some e → extent <$> <[id := e <| refs := n |>]> (extents c) = statics c.
Proof. intros He. rewrite fmap_insert. simpl. apply insert_id. by apply statics_lookup. Qed.

#[export] Instance same_space_ind : Indifferent same_space.
Proof.
  split; [|by intros..]. split; [apply _|by intros..| |by intros].
  intros c id e n He. split; [by apply statics_recount|done].
Qed.

Lemma same_dirs_dec id : frames same_dirs (dec_ref id).
Proof.
  intros s. unfold dec_ref, mbind, sm_bind. simpl. destruct (extents (cat s) !! id) as [e|] eqn:He; [|done].
  simpl. destruct (refs e =? 0); [done|]. destruct (refs e - 1 =? 0); simpl; (split; [|done]); (split; [by apply statics_recount|done]).
Qed.
Lemma same_dirs_inc id : frames same_dirs (inc_ref id).
Proof.
  intros s. unfold inc_ref, mbind, sm_bind. simpl. destruct (extents (cat s) !! id) as [e|] eqn:He; [|done].
  split; [|done]. split; [by apply statics_recount|done].
Qed.

Lemma dec_all l s : same_dirs (cat s) (cat (sm_for l dec_ref s).1).
Proof. apply (frames_for same_dirs). intros x. apply same_dirs_dec. Qed.
Lemma inc_all l s : same_dirs (cat s) (cat (sm_for l inc_ref s).1).
Proof. apply (frames_for same_dirs). intros x. apply same_dirs_inc. Qed.

(** ** New extents *)

(** The ranges of an extent, with their length. *)
Definition ranges_of (e : ExtentRef) : list (N * ReplicaRef) := pair (stored_len e) <$> replicas e.

Definition in_parts (l : list (N * ReplicaRef)) (nd : string) (k b : N) : Prop := ∃ x, x ∈ l ∧ covers (x.1) (x.2) nd k b.
Definition parts_clear (x y : N * ReplicaRef) : Prop := clear (x.1) (x.2) (y.1) (y.2).

Lemma reserve_parts l fl :
  FreeList.wf fl →
  (∀ x, x ∈ l → offset (x.2) + x.1 < u64_size ∧ (taken fl (x.1) (x.2) ∨ ∀ nd d b, covers (x.1) (x.2) nd d b → is_free fl nd d b)) →
  pairwise parts_clear l →
  let fl' := foldl (λ fl x, reserve_at fl (x.1) (x.2)) fl l in
  FreeList.wf fl' ∧ ∀ nd d b, is_free fl' nd d b ↔ is_free fl nd d b ∧ ¬ in_parts l nd d b.
Proof.
  revert fl. induction l as [|x l IH]; intros fl Hwf Hl Hp; simpl.
  { split; [done|]. unfold in_parts. set_solver. }
  destruct Hp as [Hx Hp]. destruct (Hl x ltac:(left)) as [Hb Hw]. destruct (reserve_at_spec fl (x.1) (x.2) Hwf Hb Hw) as [Hwf1 Hf1].
  destruct (IH (reserve_at fl (x.1) (x.2))) as [Hwf2 Hf2]; [done| |done|].
  - intros y Hy. destruct (Hl y ltac:(by right)) as [Hby Hwy]. split; [done|]. destruct Hwy as [Ht|Hfr]; [left|right].
    + intros nd d b Hc [Hf _]%Hf1. by eapply Ht.
    + intros nd d b Hc. apply Hf1. split; [by apply Hfr|]. intros Hcx. by eapply (Hx y Hy).
  - split; [done|]. intros nd d b. rewrite Hf2, Hf1. unfold in_parts. setoid_rewrite elem_of_cons. naive_solver.
Qed.

Lemma reserve_all_parts e fl : reserve_all e fl = foldl (λ fl x, reserve_at fl (x.1) (x.2)) fl (ranges_of e).
Proof. unfold reserve_all, ranges_of, reserve_at. generalize (stored_len e). intros n. revert fl. induction (replicas e) as [|r l IH]; intros fl; [done|]. apply IH. Qed.

(** Extents the catalog does not know yet, each on ranges of its own. *)
Record new_extents (c : Catalog) (l : list ExtentRef) : Prop := {
  ne_ids : NoDup (eid <$> l);
  ne_new e : e ∈ l → extents c !! eid e = None;
  ne_place x : x ∈ concat (ranges_of <$> l) → placeable (spots c) (free c) (x.1) (x.2);
  ne_clear : pairwise parts_clear (concat (ranges_of <$> l));
}.

Lemma add_extent_new e c :
  extents c !! eid e = None →
  statics (add_extent_ref e c) = <[eid e := e]> (statics c) ∧ free (add_extent_ref e c) = reserve_all e (free c) ∧
  volumes (add_extent_ref e c) = volumes c ∧ snapshots (add_extent_ref e c) = snapshots c ∧
  (∀ x, x ≠ eid e → extents (add_extent_ref e c) !! x = extents c !! x).
Proof.
  intros Hn. unfold add_extent_ref. rewrite Hn. simpl. rewrite Hn. simpl. unfold statics. simpl. rewrite fmap_insert.
  split_and!; try done. intros x Hx. by rewrite lookup_insert_ne.
Qed.

Lemma new_extents_cons c e l : sound c → new_extents c (e :: l) → admits c e ∧ sound (add_extent_ref e c) ∧ new_extents (add_extent_ref e c) l.
Proof.
  intros Hok [Hids Hnew Hpl Hcl]. csimpl in *. apply NoDup_cons in Hids as [Hni Hids]. destruct (pairwise_app parts_clear (ranges_of e) (concat (ranges_of <$> l))) as [Happ _].
  destruct (Happ Hcl) as (Hc1 & Hc2 & Hc12). clear Happ. pose proof (Hnew e ltac:(left)) as Hn.
  assert (admits c e) as Ha.
  { right. split.
    - intros r Hr. apply (Hpl (stored_len e, r)). apply elem_of_app. left. apply list_elem_of_fmap. by exists r.
    - clear -Hc1. unfold ranges_of in Hc1. revert Hc1. generalize (stored_len e). intros n. induction (replicas e) as [|r l IH]; [done|]. csimpl. intros [Hr Hl]. split; [|by apply IH].
      intros r' Hr'. apply (Hr (n, r')). apply list_elem_of_fmap. by exists r'. }
  split; [done|]. split; [by apply add_extent_ref_space|]. destruct (add_extent_new e c Hn) as (Hst & Hfr & _ & _ & Hother). split.
  - done.
  - intros e' He'. rewrite Hother; [apply Hnew; by right|]. intros Heq. apply Hni. rewrite <- Heq. by apply list_elem_of_fmap_2.
  - intros x Hx. destruct (Hpl x) as [Hb Hu Hw]; [set_solver|].
    destruct (reserve_parts (ranges_of e) (free c)) as [_ Hff].
    { apply Hok. }
    { intros y Hy. destruct (Hpl y) as [? ? ?]; [set_solver|]. done. }
    { done. }
    rewrite Hfr, reserve_all_parts. split; [done| |].
    + intros y n' l' r' Hy Hr'. rewrite (proj1 (add_extent_ref_spots e c)) in Hy. unfold spots in Hy at 1. rewrite lookup_fmap, Hn in Hy. simpl in Hy.
      apply lookup_insert_Some in Hy as [[_ [= <- <-]]|[_ Hy]]; [|by eapply Hu]. intros nd k b H1 H2.
      apply (Hc12 (stored_len e, r') x) with nd k b; [|done|done|done]. apply list_elem_of_fmap. by exists r'.
    + destruct Hw as [Ht|Hf]; [left|right].
      * intros nd d b Hc [Hf _]%Hff. by eapply Ht.
      * intros nd d b Hc. apply Hff. split; [by apply Hf|]. intros (y & Hy & Hcy). by eapply (Hc12 y x).
  - done.
Qed.

(** All at once. *)
Lemma new_extents_all l c :
  sound c → new_extents c l →
  let c' := foldl (λ c e, add_extent_ref e c) c l in
  admits_all c l ∧ volumes c' = volumes c ∧ snapshots c' = snapshots c ∧
  (∀ x, statics c' !! x = match find (λ e, String.eqb (eid e) x) l with Some e => Some e | None => statics c !! x end) ∧
  (∀ nd k b, is_free (free c') nd k b ↔ is_free (free c) nd k b ∧ ¬ in_parts (concat (ranges_of <$> l)) nd k b).
Proof.
  revert c. induction l as [|e l IH]; intros c Hok Hne; simpl.
  { split_and!; try done. unfold in_parts. set_solver. }
  destruct (new_extents_cons c e l Hok Hne) as (Ha & Hok1 & Hne1). destruct (IH _ Hok1 Hne1) as (Haa & Hv & Hs & Hst & Hf).
  pose proof Hne as [Hids Hnew Hpl Hcl]. pose proof (Hnew e ltac:(left)) as Hn.
  destruct (add_extent_new e c Hn) as (Hst1 & Hfr1 & Hv1 & Hs1 & _). split_and!; try done; [by rewrite Hv|by rewrite Hs|..].
  - intros x. rewrite Hst, Hst1. csimpl in Hids. apply NoDup_cons in Hids as [Hni _]. destruct (String.eqb_spec (eid e) x) as [<-|Hx].
    + destruct (find _ l) as [e'|] eqn:Hfd; [|by rewrite lookup_insert_eq]. apply find_some in Hfd as [Hin Heq]. apply String.eqb_eq in Heq.
      exfalso. apply Hni. rewrite <- Heq. apply list_elem_of_fmap_2. by apply list_elem_of_In.
    + destruct (find _ l); [done|]. by rewrite lookup_insert_ne.
  - intros nd k b. rewrite Hf, Hfr1, reserve_all_parts. csimpl in *. destruct (pairwise_app parts_clear (ranges_of e) (concat (ranges_of <$> l))) as [Happ _].
    destruct (Happ Hcl) as (Hc1 & _ & _). destruct (reserve_parts (ranges_of e) (free c)) as [_ Hff]; [apply Hok| |done|].
    { intros y Hy. destruct (Hpl y) as [? ? ?]; [set_solver|]. done. }
    rewrite Hff. unfold in_parts. setoid_rewrite elem_of_app. naive_solver.
Qed.

(** ** Volumes and snapshots *)

(** A step of a command that succeeds. *)
Lemma bind_ok {A B} (m : M A) (k : A → M B) s s' b :
  (m ≫= k) s = (s', Ok b) → ∃ s1 a, m s = (s1, Ok a) ∧ k a s1 = (s', Ok b).
Proof. unfold mbind, sm_bind. destruct (m s) as [s1 [a| |]]; [|done..]. eauto. Qed.

Lemma look_ok {A} (f : Catalog → res MetaError A) s s' a : look f s = (s', Ok a) → s' = s ∧ f (cat s) = Ok a.
Proof. unfold look, sm_try. by intros [= <- ?]. Qed.

Lemma volume_ok c id v : volume c id = Ok v → volumes c !! id = Some v.
Proof. unfold volume. by destruct (volumes c !! id); simpl; [intros [= <-]|]. Qed.

Definition quiet_command (cmd : MetaCommand) : Prop :=
  match cmd with
  | CreateVolume _ _ _ | CreateSnapshot _ _ _ | DeleteSnapshot _ | DeleteVolume _ | ResizeVolume _ _ | CloneSnapshot _ _ _ _ => True
  | _ => False
  end.

Lemma quiet_effect term cmd : quiet_command cmd → frames same_space (exec term cmd).
Proof.
  destruct cmd; simpl; try done; intros _;
    unfold create_volume, create_snapshot, delete_snapshot, delete_volume, resize_volume, clone_snapshot; frames.
Qed.

Section effects.
Context (term : N) (c : Catalog) (s : Ctx).

Lemma create_volume_effect id name sz :
  exec term (CreateVolume id name sz) (mkCtx c []) = (s, Ok ()) →
  snapshots (cat s) = snapshots c ∧
  match volumes c !! id with
  | Some v => v_name v = name ∧ v_size_bytes v = sz ∧ volumes (cat s) = volumes c
  | None => volumes (cat s) = <[id := mkVolumeMeta id name sz ∅]> (volumes c)
  end.
Proof.
  simpl. unfold create_volume. intros (s1 & a & [= <- <-] & E)%bind_ok. simpl in E. destruct (volumes c !! id) as [v|]; [|by injection E as <-].
  destruct (String.eqb_spec (v_name v) name); [|done]. destruct (N.eqb_spec (v_size_bytes v) sz); [|done]. by injection E as <-.
Qed.

Lemma delete_volume_effect id :
  exec term (DeleteVolume id) (mkCtx c []) = (s, Ok ()) →
  snapshots (cat s) = snapshots c ∧ is_Some (volumes c !! id) ∧ volumes (cat s) = delete id (volumes c).
Proof.
  simpl. unfold delete_volume. intros (s1 & v & [-> Hv%volume_ok]%look_ok & E)%bind_ok. apply bind_ok in E as (s2 & [] & [= <-] & E).
  pose proof (dec_all (bt_values (v_extents v)) (mkCtx (c <| volumes ::= delete id |>) [])) as (_ & Hvol & Hsn). 
  change (sm_for (bt_values (v_extents v)) dec_ref (mkCtx (c <| volumes ::= delete id |>) []) = (s, Ok ())) in E. rewrite E in Hvol, Hsn. simpl in *.
  split_and!; [done|by eexists|done].
Qed.

Lemma resize_volume_effect id sz :
  exec term (ResizeVolume id sz) (mkCtx c []) = (s, Ok ()) →
  snapshots (cat s) = snapshots c ∧
  ∃ v, volumes c !! id = Some v ∧ v_size_bytes v <= sz ∧ volumes (cat s) = <[id := v <| v_size_bytes := sz |>]> (volumes c).
Proof.
  simpl. unfold resize_volume. intros (s1 & v & [-> Hv%volume_ok]%look_ok & E)%bind_ok. destruct (N.ltb_spec sz (v_size_bytes v)); [done|]. injection E as <-.
  split; [done|]. exists v. done.
Qed.

Lemma create_snapshot_effect id vid name :
  exec term (CreateSnapshot id vid name) (mkCtx c []) = (s, Ok ()) →
  volumes (cat s) = volumes c ∧
  match snapshots c !! id with
  | Some sn => s_volume_id sn = vid ∧ s_name sn = name ∧ snapshots (cat s) = snapshots c
  | None => ∃ v, volumes c !! vid = Some v ∧ snapshots (cat s) = <[id := mkSnapshotMeta id vid name (v_size_bytes v) (v_extents v)]> (snapshots c)
  end.
Proof.
  simpl. unfold create_snapshot. intros (s1 & a & [= <- <-] & E)%bind_ok. simpl in E. destruct (snapshots c !! id) as [sn|] eqn:Hsn.
  { destruct (String.eqb_spec (s_volume_id sn) vid); [|done]. destruct (String.eqb_spec (s_name sn) name); [|done]. by injection E as <-. }
  apply bind_ok in E as (s1 & v & [-> Hv%volume_ok]%look_ok & E). apply bind_ok in E as (s2 & [] & E1 & E).
  pose proof (inc_all (bt_values (v_extents v)) (mkCtx c [])) as (_ & Hvol & Hs). rewrite E1 in Hvol, Hs. injection E as <-. simpl in *. split; [done|].
  exists v. by rewrite Hs.
Qed.

Lemma delete_snapshot_effect id :
  exec term (DeleteSnapshot id) (mkCtx c []) = (s, Ok ()) →
  volumes (cat s) = volumes c ∧ is_Some (snapshots c !! id) ∧ snapshots (cat s) = delete id (snapshots c).
Proof.
  simpl. unfold delete_snapshot. intros (s1 & sn & [-> Hsn]%look_ok & E)%bind_ok. apply bind_ok in E as (s2 & [] & [= <-] & E). simpl in Hsn.
  destruct (snapshots c !! id) as [sn'|] eqn:Hs; [|done]. injection Hsn as ->.
  pose proof (dec_all (bt_values (s_extents sn)) (mkCtx (c <| snapshots ::= delete id |>) [])) as (_ & Hvol & Hsn).
  change (sm_for (bt_values (s_extents sn)) dec_ref (mkCtx (c <| snapshots ::= delete id |>) []) = (s, Ok ())) in E. rewrite E in Hvol, Hsn. simpl in *.
  split_and!; [done|by eexists|done].
Qed.

Lemma clone_snapshot_effect id name sid size :
  exec term (CloneSnapshot id name sid size) (mkCtx c []) = (s, Ok ()) →
  snapshots (cat s) = snapshots c ∧
  match volumes c !! id with
  | Some v => v_name v = name ∧ volumes (cat s) = volumes c
  | None => ∃ sn sz, snapshots c !! sid = Some sn ∧ volumes (cat s) = <[id := mkVolumeMeta id name sz (s_extents sn)]> (volumes c) ∧ 0 < sz ∧
      let floor := if 0 <? s_size_bytes sn then s_size_bytes sn else written_end c (s_extents sn) in floor <= sz ∧ sz = default floor size
  end.
Proof.
  simpl. unfold clone_snapshot. intros (s1 & a & [= <- <-] & E)%bind_ok. simpl in E. destruct (volumes c !! id) as [v|] eqn:Hv.
  { destruct (String.eqb_spec (v_name v) name); [|done]. by injection E as <-. }
  apply bind_ok in E as (s1 & sn & [-> Hsn]%look_ok & E). simpl in Hsn. destruct (snapshots c !! sid) as [sn'|] eqn:Hs; [|done]. injection Hsn as ->. cbv zeta in E.
  set (floor := if 0 <? s_size_bytes sn then _ else _) in *. destruct (N.eqb_spec (default floor size) 0); [done|]. destruct (N.ltb_spec (default floor size) floor); [done|]. simpl in E.
  apply bind_ok in E as (s2 & [] & E1 & E). pose proof (inc_all (bt_values (s_extents sn)) (mkCtx c [])) as (_ & Hvol & Hsn). rewrite E1 in Hvol, Hsn. injection E as <-. simpl in *.
  split; [done|]. exists sn, (default floor size). rewrite Hvol. split_and!; try done. lia.
Qed.

(** ** Data *)

Definition named (l : list ExtentRef) : list (N * ExtentId) := (λ e, (logical_offset e, eid e)) <$> l.

Lemma insert_extents_lookup l m k :
  NoDup (logical_offset <$> l) →
  (insert_extents m (named l)).1 !! k = match find (λ e, logical_offset e =? k) l with Some e => Some (eid e) | None => m !! k end.
Proof.
  revert m. induction l as [|e l IH]; intros m Hnd; [done|]. csimpl in *. apply NoDup_cons in Hnd as [Hni Hnd].
  pose proof (IH (<[logical_offset e := eid e]> m) Hnd) as Hi. unfold named in *. csimpl. destruct (insert_extents _ _) as [m' old]. simpl in *. rewrite Hi.
  destruct (N.eqb_spec (logical_offset e) k) as [<-|Hk].
  - destruct (find _ l) as [e'|] eqn:Hf; [|by rewrite lookup_insert_eq]. apply find_some in Hf as [Hin Heq%N.eqb_eq]. exfalso. apply Hni.
    rewrite <- Heq. apply list_elem_of_fmap_2. by apply list_elem_of_In.
  - destruct (find _ l); [done|]. by rewrite lookup_insert_ne.
Qed.

(** Extents of a volume. *)
Definition installed_volume (id : VolumeId) (l : list ExtentRef) (c' : Catalog) : Prop :=
  snapshots c' = snapshots c ∧ same_space (foldl (λ c e, add_extent_ref e c) c l) c' ∧
  ∃ v, volumes c !! id = Some v ∧ volumes c' = <[id := v <| v_extents := (insert_extents (v_extents v) (named l)).1 |>]> (volumes c).

Lemma statics_put_volume id v c0 : statics (put_volume id v c0) = statics c0.
Proof. done. Qed.

(** Adding references does not look at volumes. *)
Lemma add_extent_volumes g e c0 : add_extent_ref e (c0 <| volumes ::= g |>) = (add_extent_ref e c0) <| volumes ::= g |>.
Proof. unfold add_extent_ref. simpl. destruct (extents c0 !! eid e) as [m|] eqn:Hm; simpl; by rewrite Hm. Qed.
Lemma add_extents_volumes g l c0 :
  foldl (λ c e, add_extent_ref e c) (c0 <| volumes ::= g |>) l = (foldl (λ c e, add_extent_ref e c) c0 l) <| volumes ::= g |>.
Proof. revert c0. induction l as [|e l IH]; intros c0; [done|]. cbn [foldl]. rewrite add_extent_volumes. apply IH. Qed.

Lemma install_extents_effect id l :
  sound c → new_extents c l → exec term (InstallExtents id l) (mkCtx c []) = (s, Ok ()) → installed_volume id l (cat s).
Proof.
  intros Hok Hne. simpl. unfold install_extents. intros (s1 & a & E1 & E)%bind_ok. unfold sm_lift in E1. injection E1 as <- _.
  apply bind_ok in E as (s1 & v & [-> Hv%volume_ok]%look_ok & E). fold (named l) in E. destruct (insert_extents (v_extents v) (named l)) as [m old] eqn:Em.
  apply bind_ok in E as (s2 & [] & [= <-] & E). apply bind_ok in E as (s3 & [] & [= <-] & E). simpl in E. unfold put_volume in E. rewrite add_extents_volumes in E.
  destruct (new_extents_all l c Hok Hne) as (_ & Hvol & Hsn & _). set (c1 := foldl (λ c e, add_extent_ref e c) c l) in *.
  match type of E with sm_for old dec_ref ?s0 = _ => pose proof (dec_all old s0) as (Hsp & Hv' & Hs'); rewrite E in Hsp, Hv', Hs' end. simpl in *.
  split; [by rewrite Hs'|]. split; [exact Hsp|]. exists v. split; [done|]. by rewrite Hv', Hvol, Em.
Qed.

Lemma install_extent_effect id off e :
  sound c → new_extents c [e] → logical_offset e = off → exec term (InstallExtent id off e) (mkCtx c []) = (s, Ok ()) → installed_volume id [e] (cat s).
Proof.
  intros Hok Hne <-. simpl. unfold install_extent. intros (s1 & a & E1 & E)%bind_ok. unfold sm_lift in E1. injection E1 as <- _.
  apply bind_ok in E as (s1 & v & [-> Hv%volume_ok]%look_ok & E).
  apply bind_ok in E as (s2 & [] & [= <-] & E). apply bind_ok in E as (s3 & [] & [= <-] & E). simpl in E. unfold put_volume in E. rewrite add_extent_volumes in E.
  destruct (new_extents_all [e] c Hok Hne) as (_ & Hvol & Hsn & _). simpl in Hvol, Hsn. 
  assert (same_dirs ((add_extent_ref e c) <| volumes ::= <[id := v <| v_extents ::= <[logical_offset e := eid e]> |>]> |>) (cat s)) as (Hsp & Hv' & Hs').
  { destruct (v_extents v !! logical_offset e) as [old|]; [|injection E as <-; reflexivity].
    match type of E with dec_ref old ?s0 = _ => pose proof (same_dirs_dec old s0) as Hd; rewrite E in Hd; exact Hd end. }
  simpl in *. split; [by rewrite Hs'|]. split; [exact Hsp|]. exists v. split; [done|]. by rewrite Hv', Hvol.
Qed.

(** ** Space *)

Lemma release_effect n l x c0 s0 :
  sm_for l (release_replica n) (mkCtx c0 []) = (s0, Ok ()) → space_ok (<[x := (n, l)]> (spots c)) (free c0) →
  ∃ fl, cat s0 = c0 <| free := fl |> ∧ ∀ nd k b, is_free fl nd k b ↔ in_ranges n l nd k b ∨ is_free (free c0) nd k b.
Proof.
  intros E Hok. pose proof (wp_release_all (spots c) x n l (mkCtx c0 []) Hok) as Hw. unfold wp in Hw. rewrite E in Hw.
  destruct Hw as (fl & -> & _ & Hf). by exists fl.
Qed.

Lemma reclaim_effect x :
  sound c → exec term (MarkExtentReclaimed x) (mkCtx c []) = (s, Ok ()) →
  volumes (cat s) = volumes c ∧ snapshots (cat s) = snapshots c ∧
  ∃ m, extents c !! x = Some m ∧ refs m = 0 ∧ statics (cat s) = delete x (statics c) ∧
    ∀ nd k b, is_free (free (cat s)) nd k b ↔ in_ranges (stored_len (extent m)) (replicas (extent m)) nd k b ∨ is_free (free c) nd k b.
Proof.
  intros Hok. simpl. unfold mark_extent_reclaimed. intros (s1 & m & [-> Hm]%look_ok & E)%bind_ok. simpl in Hm. destruct (extents c !! x) as [m'|] eqn:Hx; [|done].
  injection Hm as ->. destruct (N.eqb_spec (refs m) 0) as [Hz|]; [|done]. simpl in E. apply bind_ok in E as (s1 & [] & [= <-] & E). unfold sound in Hok.
  rewrite (spots_known _ _ _ Hx) in Hok. destruct (release_effect _ _ x _ _ E Hok) as (fl & -> & Hf). simpl. split; [done|]. split; [done|].
  exists m. split_and!; try done. unfold statics. simpl. apply fmap_delete.
Qed.

Definition tiered (key : string) (e : ExtentRef) : ExtentRef := e <| replicas := [] |> <| ec := None |> <| object := Some key |>.

Lemma tier_effect x key rs :
  sound c → exec term (TierExtent x key rs) (mkCtx c []) = (s, Ok ()) →
  volumes (cat s) = volumes c ∧ snapshots (cat s) = snapshots c ∧
  ∃ m, extents c !! x = Some m ∧ object (extent m) = None ∧ replicas (extent m) = rs ∧ statics (cat s) = <[x := tiered key (extent m)]> (statics c) ∧
    ∀ nd k b, is_free (free (cat s)) nd k b ↔ in_ranges (stored_len (extent m)) (replicas (extent m)) nd k b ∨ is_free (free c) nd k b.
Proof.
  intros Hok. simpl. unfold tier_extent. intros (s1 & m & [-> Hm]%look_ok & E)%bind_ok. simpl in Hm. destruct (extents c !! x) as [m'|] eqn:Hx; [|done].
  injection Hm as ->. case_bool_decide as Ho; [done|]. destruct (bool_decide (replicas (extent m) ≠ rs) || bool_decide (rs = [])) eqn:Hb; [done|].
  apply orb_false_iff in Hb as [Hr%bool_decide_eq_false _]. cbv zeta in E. apply bind_ok in E as (s1 & [] & [= <-] & E). unfold sound in Hok.
  rewrite (spots_known _ _ _ Hx) in Hok. destruct (release_effect _ _ x _ _ E Hok) as (fl & -> & Hf). simpl. split; [done|]. split; [done|].
  exists m. split_and!; [done|destruct (object (extent m)); [by destruct Ho|done]|destruct (decide (replicas (extent m) = rs)); [done|by destruct Hr]| |exact Hf]. unfold statics. simpl. by rewrite fmap_insert.
Qed.

Definition moved (pos : nat) (new : ReplicaRef) (e : ExtentRef) : ExtentRef := e <| replicas ::= <[pos := new]> |>.

Lemma replace_effect x old new :
  sound c → (∀ m, extents c !! x = Some m → placeable (spots c) (free c) (stored_len (extent m)) new) →
  exec term (ReplaceReplica x old new) (mkCtx c []) = (s, Ok ()) →
  volumes (cat s) = volumes c ∧ snapshots (cat s) = snapshots c ∧
  ∃ m pos, extents c !! x = Some m ∧ replicas (extent m) !! pos = Some old ∧ statics (cat s) = <[x := moved pos new (extent m)]> (statics c) ∧
    ∀ nd k b, is_free (free (cat s)) nd k b ↔
      covers (stored_len (extent m)) old nd k b ∨ is_free (free c) nd k b ∧ ¬ covers (stored_len (extent m)) new nd k b.
Proof.
  intros Hok Hp. simpl. unfold replace_replica. case_bool_decide; [done|]. intros (s1 & m & [-> Hm]%look_ok & E)%bind_ok. simpl in Hm. destruct (extents c !! x) as [m'|] eqn:Hx; [|done].
  injection Hm as ->. specialize (Hp m eq_refl). apply bind_ok in E as (s1 & pos & E1 & E). unfold sm_lift in E1. injection E1 as <- Hpos.
  destruct (position _ _) as [pos'|] eqn:Hps; [|done]. injection Hpos as ->. destruct (other_on_node _ _ _); [done|]. cbv zeta in E.
  apply bind_ok in E as (s1 & [] & [= <-] & E). apply bind_ok in E as (s1 & [] & [= <-] & E). simpl in E.
  apply position_Some in Hps as (l1 & o & l2 & Hl & <- & Ho%bool_decide_eq_true & _). subst o.
  unfold sound in Hok. pose proof (spots_known _ _ _ Hx) as Hsp. rewrite Hsp, Hl in Hok, Hp. pose proof (space_add _ _ _ _ _ _ Hok Hp) as Hok1.
  apply (space_perm _ _ _ _ _ (old :: l1 ++ new :: l2)) in Hok1; [|by rewrite <- !Permutation_middle, Permutation_swap].
  apply space_drop in Hok1 as (fl' & Hr & _ & Hf'). unfold release_replica in E. apply bind_ok in E as (s1 & s2 & [= <- <-] & E). simpl in E.
  unfold release_at, reserve_at in Hr. rewrite Hr in E. injection E as <-. simpl. split; [done|]. split; [done|].
  exists m, (length l1). split_and!; [done|rewrite Hl; by apply list_lookup_middle|unfold statics; simpl; by rewrite fmap_insert|].
  intros nd k b. rewrite Hf'. destruct Hp as [Hb _ Hw]. destruct (reserve_at_spec (free c) (stored_len (extent m)) new (so_wf _ _ Hok) Hb Hw) as [_ Hf]. by rewrite Hf.
Qed.

End effects.

End EngineCat.
