(* ===== verification/EngineBatch.v ===== *)
(** * Placing the cells of a write

    [place_cells] of [engine.rs]: every cell gets an extent of its own, which holds
    its content and whose parts are claimed. *)

From S2P Require Import Prelude MetaError FreeList Ec Catalog Extents Metadata Space MetaSpace MetaSpec NativeError Device Objects Placement Inflight Engine EngineRead EngineWrite EngineRepair EngineMeta EngineData EngineInv EnginePlace EngineRange.

Module EngineBatch.
Import Placement Catalog Extents Metadata Space MetaSpace MetaSpec NativeError Device Objects Engine EngineRead EngineWrite EngineRepair EngineMeta EngineData EngineInv EnginePlace EngineRange.

Open Scope N_scope.

Section batch.
Context {D O : Type} {BD : BlockStore D} {LD : BlockStoreLaws D} {BO : ObjectStore O} {LO : ObjectStoreLaws O} {P : EngineParams} {POk : ParamsOk P}.

Abbreviation Eng := (Engine D O).
Abbreviation E := (SM Eng NativeError).
Implicit Types e : Eng.

(** [ext] holds what its id stands for in the parts [ps]. *)
Record holds (δ : gmap ExtentId bytes) (ext : ExtentRef) (ps : list bytes) : Prop := {
  ho_desc : ∃ b, δ !! eid ext = Some b ∧ describes b ps ext;
  ho_object : object ext = None;
  ho_parts : length (replicas ext) = length ps;
}.

Definition claims_of (tok : N) (ext : ExtentRef) (ps : list bytes) : list Claim := zip_with (mkClaim tok) (replicas ext) ps.

(** Extents whose parts are the claims [L]. *)
Inductive prepared (δ : gmap ExtentId bytes) (tok : N) : list ExtentRef → list Claim → Prop :=
| prepared_nil : prepared δ tok [] []
| prepared_cons ext ps exts L L' : holds δ ext ps → prepared δ tok exts L → L' ≡ₚ claims_of tok ext ps ++ L → prepared δ tok (ext :: exts) L'.

Lemma holds_mono δ δ' ext ps : δ ⊆ δ' → holds δ ext ps → holds δ' ext ps.
Proof. intros Hs [(b & Hb & Hd) Ho Hp]. split; [exists b; split; [by eapply lookup_weaken|done]|done..]. Qed.

Lemma prepared_mono δ δ' tok exts L : δ ⊆ δ' → prepared δ tok exts L → prepared δ' tok exts L.
Proof. induction 2; econstructor; eauto using holds_mono. Qed.

Lemma prepared_perm δ tok exts L L' : prepared δ tok exts L → L' ≡ₚ L → prepared δ tok exts L'.
Proof. destruct 1 as [|ext ps exts L L1 Hh Hp H1]; intros H2; [apply Permutation_nil_r in H2 as ->; constructor|]. econstructor; [done..|by rewrite H2]. Qed.

Lemma prepared_app δ tok exts L exts' L' : prepared δ tok exts L → prepared δ tok exts' L' → prepared δ tok (exts ++ exts') (L ++ L').
Proof.
  induction 1 as [|ext ps exts L L1 Hh Hp IH H1]; intros Hp'; [done|]. simpl. econstructor; [done|by apply IH|]. by rewrite H1, app_assoc.
Qed.

(** What the cells [cells] became. *)
Record placed (tok : N) (cells : list (N * bytes)) (δ : gmap ExtentId bytes) (exts : list ExtentRef) (δ' : gmap ExtentId bytes) (L : list Claim) : Prop := {
  pd_prepared : prepared δ' tok exts L;
  pd_ids : NoDup (eid <$> exts);
  pd_new ext : ext ∈ exts → δ !! eid ext = None;
  pd_cells : Forall2 (λ (x : N * bytes) ext, logical_offset ext = x.1 ∧ δ' !! eid ext = Some (x.2)) cells exts;
}.

Lemma placed_app tok cells cells' δ exts exts' δ1 δ2 L L' :
  δ ⊆ δ1 → δ1 ⊆ δ2 → placed tok cells δ exts δ1 L → placed tok cells' δ1 exts' δ2 L' → placed tok (cells ++ cells') δ (exts ++ exts') δ2 (L' ++ L).
Proof.
  intros Hs1 Hs2 [Hp Hn Hi Hc] [Hp' Hn' Hi' Hc']. split.
  - eapply prepared_perm; [apply prepared_app; [by eapply prepared_mono|exact Hp']|]. by rewrite Permutation_app_comm.
  - rewrite fmap_app. apply NoDup_app. split_and!; try done. intros x (ext & -> & Hx)%list_elem_of_fmap (ext' & Heq & Hx')%list_elem_of_fmap.
    apply Hi' in Hx'. rewrite <- Heq in Hx'. apply list_elem_of_lookup in Hx as [j Hj]. destruct (Forall2_lookup_r _ _ _ _ _ Hc Hj) as (c & _ & _ & Hd). congruence.
  - intros ext [He|He]%elem_of_app; [by apply Hi|]. apply Hi' in He. by eapply lookup_weaken_None.
  - apply Forall2_app; [|done]. eapply Forall2_impl; [exact Hc|]. intros x ext [Hl Hd]. split; [done|by eapply lookup_weaken].
Qed.

(** ** The tasks of a window *)

Inductive mades (tok : N) : gmap ExtentId bytes → list (N * bytes) → list (res NativeError ExtentRef) → gmap ExtentId bytes → list Claim → Prop :=
| mades_nil δ : mades tok δ [] [] δ []
| mades_ok δ x l ext rs δ1 δ2 L1 L2 :
    δ ⊆ δ1 → δ1 ⊆ δ2 → made tok (x.2) δ ext δ1 L1 → mades tok δ1 l rs δ2 L2 → mades tok δ (x :: l) (Ok ext :: rs) δ2 (L2 ++ L1)
| mades_err δ x l err rs δ1 δ2 L : δ ⊆ δ1 → δ1 ⊆ δ2 → mades tok δ1 l rs δ2 L → mades tok δ (x :: l) (Err err :: rs) δ2 L.

Lemma made_placed tok x δ ext δ' L :
  made tok (x.2) δ ext δ' L → placed tok [x] δ [ext <| logical_offset := x.1 |>] δ' L.
Proof.
  intros (ps & [Hn Hm Hd Ho Hl] & HL). assert (δ' !! eid ext = Some (x.2)) as Hlk by (by rewrite Hm, lookup_insert_eq). split.
  - econstructor; [|constructor|by rewrite app_nil_r]. split; [|done|done]. exists (x.2). split; [done|]. by destruct Hd.
  - apply NoDup_singleton.
  - intros ? ->%list_elem_of_singleton. done.
  - constructor; [done|constructor].
Qed.

(** When every task succeeded, the window is placed. *)
Lemma mades_placed tok δ l rs δ' L here :
  mades tok δ l rs δ' L → mapM (λ x : (N * bytes) * res NativeError ExtentRef, ext ← x.2; Ok (ext <| logical_offset := x.1.1 |>)) (zip l rs) = Ok here →
  placed tok l δ here δ' L.
Proof.
  intros Hm. revert here. induction Hm as [δ|δ x l ext rs δ1 δ2 L1 L2 Hs1 Hs2 Hmd Hm IH|]; intros here; simpl; [|destruct (mapM _ _) as [rest| |]; [|done..]|done].
  - intros [= <-]. split; [constructor|constructor|by intros ? ?%elem_of_nil|constructor].
  - intros [= <-]. apply (placed_app tok [x] l δ [_] rest δ1 δ2); [done|done|by apply made_placed|by apply IH].
Qed.

Lemma mades_no_panic tok δ l rs δ' L :
  mades tok δ l rs δ' L → mapM (λ x : (N * bytes) * res NativeError ExtentRef, ext ← x.2; Ok (ext <| logical_offset := x.1.1 |>)) (zip l rs) ≠ Panic.
Proof. induction 1 as [|? ? ? ? ? ? ? ? ? ? ? ? ? IH|]; simpl; [done| |done]. by destruct (mapM _ _). Qed.

Definition cells_small (l : list (N * bytes)) : Prop := Forall (λ x, size (x.2) < 2 ^ 63) l.

Lemma mades_run δ L tok fence l :
  cells_small l → makes δ L tok (run_all ((λ x : N * bytes, place_extent (x.2) fence tok) <$> l)) (λ rs δ' L', mades tok δ l rs δ' L').
Proof.
  intros Hs. revert δ L. induction Hs as [|x l Hx Hs IH]; intros δ L; [intros e Hi Ht; split; [done|]; exists δ, []; split; [done|]; by split; [constructor|]|].
  intros e Hi Ht. pose proof (placed_extent δ L tok (x.2) fence Hx e Hi Ht) as H1. unfold wp in *. csimpl. simpl run_all.
  destruct (place_extent (x.2) fence tok e) as [e1 [ext|err|]]; [| |done].
  - destruct H1 as (Hb & δ1 & L1 & Hs1 & Hmd & Hi1). pose proof (IH δ1 (L1 ++ L) e1 Hi1 ltac:(by apply Hb)) as Hl. unfold wp in Hl.
    destruct (run_all _ e1) as [e2 [rs|err|]]; [| |done]; destruct Hl as (Hb2 & δ2 & Hl); (split; [by etrans|]); exists δ2.
    + destruct Hl as (L2 & Hs2 & Hm & Hi2). exists (L2 ++ L1). split; [by etrans|]. split; [by eapply mades_ok|]. by rewrite <- app_assoc.
    + destruct Hl as [Hs2 Hi2]. split; [by etrans|]. by eapply inv_fewer.
  - destruct H1 as (Hb & δ1 & Hs1 & Hi1). pose proof (IH δ1 L e1 Hi1 ltac:(by apply Hb)) as Hl. unfold wp in Hl.
    destruct (run_all _ e1) as [e2 [rs|err'|]]; [| |done]; destruct Hl as (Hb2 & δ2 & Hl); (split; [by etrans|]); exists δ2.
    + destruct Hl as (L2 & Hs2 & Hm & Hi2). exists L2. split; [by etrans|]. split; [by eapply mades_err|done].
    + destruct Hl as [Hs2 Hi2]. split; [by etrans|done].
Qed.

Lemma mades_window δ L tok fence l : cells_small l → makes δ L tok (place_window l fence tok) (λ rs δ' L', mades tok δ l rs δ' L').
Proof.
  intros Hs. destruct l as [|[c b] [|y l]]; [by apply (mades_run δ L tok fence [])| |by apply (mades_run δ L tok fence ((c, b) :: y :: l))].
  pose proof (Forall_inv Hs) as Hb0. simpl in Hb0. intros e Hi Ht. pose proof (placed_extent δ L tok b fence Hb0 e Hi Ht) as H1. unfold wp in *. cbn [place_window]. unfold stepping.
  destruct (place_extent b fence tok e) as [e1 [ext|err|]]; [| |done].
  - destruct H1 as (Hb & δ1 & L1 & Hs1 & Hmd & Hi1). split; [done|]. exists δ1, L1. split; [done|]. split; [|done]. by apply (mades_ok _ _ (c, b) [] _ [] δ1 δ1 L1 []); [| | |constructor].
  - destruct H1 as (Hb & δ1 & Hs1 & Hi1). split; [done|]. exists δ1, []. split; [done|]. split; [|done]. by apply (mades_err _ _ (c, b) [] _ [] δ1 δ1 []); [| |constructor].
Qed.

Lemma placed_windows tok fence ws : ∀ δ L, cells_small (concat ws) → makes δ L tok (place_windows ws fence tok) (placed tok (concat ws) δ).
Proof.
  induction ws as [|w ws IH]; intros δ L Hs.
  { eapply makes_mono; [apply makes_places, (places_ret _ _ _ _ (λ exts L', exts = [] ∧ L' = [])); done|]. intros ? ? ? _ (-> & -> & ->).
    split; [constructor|constructor|by intros ? ?%elem_of_nil|constructor]. }
  simpl in *. apply Forall_app in Hs as [Hw Hs]. eapply makes_bind; [by apply mades_window|]. intros rs δ1 L1 Hs1 Hm.
  eapply (makes_bind _ _ _ _ _ (λ here δ' L', δ' = δ1 ∧ L' = [] ∧ placed tok w δ here δ1 L1)).
  { eapply makes_mono; [apply makes_places, (places_lift _ _ _ _ (λ here L', placed tok w δ here δ1 L1 ∧ L' = []))|].
    - by eapply mades_no_panic.
    - intros here Hh. split; [|done]. by eapply mades_placed.
    - naive_solver. }
  intros here δ1' L1' _ (-> & -> & Hh). eapply makes_bind; [by apply IH|]. intros rest δ2 L2 Hs2 Hr.
  eapply makes_mono; [apply makes_places, (places_ret _ _ _ _ (λ exts L', exts = here ++ rest ∧ L' = [])); done|]. intros ? ? ? _ (-> & -> & ->).
  rewrite app_nil_r. by eapply placed_app.
Qed.

Lemma placed_cells δ L tok fence cells : cells_small cells → makes δ L tok (place_cells cells fence tok) (placed tok cells δ).
Proof.
  intros Hs. unfold place_cells. pose proof (chunks_concat (length cells) WRITE_PARALLELISM cells ltac:(unfold WRITE_PARALLELISM; lia) ltac:(lia)) as Hc.
  pose proof (placed_windows tok fence (chunks (length cells) WRITE_PARALLELISM cells) δ L) as Hp. rewrite Hc in Hp. auto.
Qed.

End batch.
End EngineBatch.
