(* ===== verification/EngineCommit.v ===== *)
(** * Commits keep the invariant

    When a command the engine commits is applied, the catalog's extents are still
    where their records say, and the space of placements in flight is still theirs. *)

From S2P Require Import Prelude MetaError FreeList Ec Catalog Extents Metadata Space MetaSpace MetaSpec NativeError Device Objects Placement Inflight Engine EngineRead EngineWrite EngineRepair EngineMeta EngineData EngineInv EnginePlace EngineCat EngineRange EngineBatch.

Module EngineCommit.
Import Placement Catalog Extents Metadata Space MetaSpace MetaSpec NativeError Device Objects Engine EngineRead EngineWrite EngineRepair EngineMeta EngineData EngineInv EnginePlace EngineCat EngineBatch.
Import FreeList (is_free, FreeRange).
#[local] Existing Instances FreeList.FreeRange_eq_dec Inflight.disjoint_sym.

Open Scope N_scope.

Section commit.
Context {D O : Type} {BD : BlockStore D} {LD : BlockStoreLaws D} {BO : ObjectStore O} {LO : ObjectStoreLaws O} {P : EngineParams} {POk : ParamsOk P}.

Abbreviation Eng := (Engine D O).
Abbreviation E := (SM Eng NativeError).
Implicit Types e : Eng.

(** The claims [L'] become part of the catalog [c']. *)
Record becomes (δ : gmap ExtentId bytes) (L' : list Claim) (e : Eng) (c' : Catalog) : Prop := {
  bc_ok : catalog_ok c';
  bc_ext x m : extents c' !! x = Some m → eid (extent m) = x ∧ ∃ b ps, δ !! x = Some b ∧ describes b ps (extent m) ∧ kept e b ps (extent m);
  bc_parts x m r : extents c' !! x = Some m → r ∈ replicas (extent m) →
    (∃ x0 m0, extents (catalog e) !! x0 = Some m0 ∧ r ∈ replicas (extent m0) ∧ stored_len (extent m0) = stored_len (extent m)) ∨
    ∃ cl, cl ∈ L' ∧ cl_at cl = r ∧ size (cl_data cl) = stored_len (extent m);
  bc_free nd k b : is_free (free c') nd k b →
    is_free (free (catalog e)) nd k b ∨
    ∃ x m r, extents (catalog e) !! x = Some m ∧ r ∈ replicas (extent m) ∧ covers (stored_len (extent m)) r nd k b;
  bc_keep nd k b : is_free (free (catalog e)) nd k b → is_free (free c') nd k b ∨ ∃ cl, cl ∈ L' ∧ owns cl nd k b;
  bc_taken cl nd k b : cl ∈ L' → owns cl nd k b → ¬ is_free (free c') nd k b;
}.

Lemma leased_ranges s tok fr : fr ∈ leased s tok → fr ∈ Inflight.ranges s.
Proof. intros Hfr. unfold Inflight.ranges. rewrite (Inflight.values_split _ tok), !elem_of_app. auto. Qed.

(** A leased range is that of a claim or has nothing to do with them. *)
Lemma range_of_claim e (L : list Claim) fr :
  Inflight.consistent (free (catalog e)) (inflight e) →
  (∀ nd k b, FreeList.covers fr nd k b → is_free (free (catalog e)) nd k b) → fr ∈ Inflight.ranges (inflight e) →
  Forall (claim_ok e) L → (∃ cl, cl ∈ L ∧ same_bytes fr cl) ∨ ∀ cl nd k b, cl ∈ L → FreeList.covers fr nd k b → ¬ owns cl nd k b.
Proof.
  intros Hcons Hfree Hfr HL. induction HL as [|cl L Hcl HL IH]; [right; by intros ???? ?%elem_of_nil|].
  destruct IH as [(c & Hc & Hs)|IH]; [left; exists c; split; [by right|done]|].
  destruct Hcl as [_ [Htk|(fr' & Hin & Hs)] _ _].
  - right. intros c nd k b [->|Hc]%elem_of_cons Hcv; [|by eapply IH]. intros Ho. eapply Htk; [exact Ho|]. by apply Hfree.
  - destruct (decide (fr = fr')) as [<-|Hne]; [left; exists cl; split; [by left|done]|].
    right. intros c nd k b [->|Hc]%elem_of_cons Hcv; [|by eapply IH]. intros Ho%Hs.
    destruct (pairwise_elem _ _ fr fr' (Inflight.cs_apart _ _ Hcons) Hfr (leased_ranges _ _ _ Hin)) as [|[Hd|Hd]]; [done|by eapply Hd..].
Qed.

Lemma becomes_consistent δ L L' e c' :
  inv δ (L' ++ L) e → becomes δ L' e c' → Inflight.consistent (free c') (inflight e).
Proof.
  intros Hi Hb. pose proof (iv_claims _ _ _ Hi) as Hcls. apply Forall_app in Hcls as [HL' _]. pose proof (iv_hold _ _ _ Hi) as Hcons.
  eapply Inflight.applied_consistent; [exact Hcons|apply (so_wf _ _ (ok_space _ (bc_ok _ _ _ _ Hb)))| |].
  - intros nd k b Hf Hnc. destruct (bc_keep _ _ _ _ Hb nd k b Hf) as [|(cl & Hcl & Ho)]; [done|]. exfalso. apply Hnc.
    rewrite Forall_forall in HL'. destruct (HL' cl Hcl) as [_ [Htk|(fr & Hin & Hs)] _ _]; [by edestruct Htk|]. exists fr. split; [by eapply leased_ranges|by apply Hs].
  - intros fr Hfr. assert (∀ nd k b, FreeList.covers fr nd k b → is_free (free (catalog e)) nd k b) as Hfree by (intros; by eapply iv_leased).
    destruct (range_of_claim e L' fr) as [(cl & Hcl & Hs)|Hno]; try done.
    + right. intros nd k b Hcv. eapply (bc_taken _ _ _ _ Hb cl); [done|]. by apply Hs.
    + left. intros nd k b Hcv. destruct (bc_keep _ _ _ _ Hb nd k b (Hfree _ _ _ Hcv)) as [|(cl & Hcl & Ho)]; [done|]. by destruct (Hno cl nd k b Hcl Hcv).
Qed.

(** The leases after the command: as before, or without that of the claims. *)
Definition leases_after (L' L : list Claim) (s s' : Inflight.State) : Prop :=
  s' = s ∧ L' = [] ∨
  ∃ tok, s' = Inflight.release tok s ∧ Forall (λ cl, cl_token cl = tok) L' ∧ Forall (λ cl, cl_token cl ≠ tok) L.

Lemma release_ranges tok s :
  (∃ l, Inflight.ranges s ≡ₚ Inflight.ranges (Inflight.release tok s) ++ l ∧ l = leased s tok) ∧
  (∀ t, t ≠ tok → Inflight.held (Inflight.release tok s) !! t = Inflight.held s !! t).
Proof.
  assert (Inflight.held (Inflight.release tok s) = delete tok (Inflight.held s) ∧ Inflight.quarantine (Inflight.release tok s) = Inflight.quarantine s) as [Hh Hq].
  { unfold Inflight.release. by destruct (_ && _). }
  split.
  - exists (leased s tok). split; [|done]. unfold Inflight.ranges. rewrite Hh, Hq, (Inflight.values_split (Inflight.held s) tok). unfold leased.
    rewrite <- app_assoc, (Permutation_app_comm (default [] _)). by rewrite <- !app_assoc.
  - intros t Ht. by rewrite Hh, lookup_delete_ne.
Qed.

(** What is left of the leases is free in [c']. *)
Lemma ranges_after δ L L' e c' s' fr :
  inv δ (L' ++ L) e → becomes δ L' e c' → leases_after L' L (inflight e) s' → fr ∈ Inflight.ranges s' →
  ∀ nd k b, FreeList.covers fr nd k b → is_free (free c') nd k b.
Proof.
  intros Hi Hb Hs Hfr nd k b Hcv. destruct Hs as [[-> ->]|(tok & -> & HL' & _)].
  - destruct (bc_keep _ _ _ _ Hb nd k b) as [|(cl & Hcl & _)]; [by eapply iv_leased|done|by apply elem_of_nil in Hcl].
  - destruct (release_ranges tok (inflight e)) as [(l & Hp & ->) _]. pose proof (iv_hold _ _ _ Hi) as Hcons.
    pose proof (pairwise_perm _ _ _ Hp (Inflight.cs_apart _ _ Hcons)) as Hap. apply pairwise_app in Hap as (_ & _ & Hap).
    assert (is_free (free (catalog e)) nd k b) as Hfree by (eapply iv_leased; [exact Hi| |exact Hcv]; rewrite Hp; set_solver).
    destruct (bc_keep _ _ _ _ Hb nd k b Hfree) as [|(cl & Hcl & Ho)]; [done|]. exfalso.
    pose proof (iv_claims _ _ _ Hi) as Hcls. apply Forall_app in Hcls as [Hcls _]. rewrite Forall_forall in Hcls, HL'.
    destruct (Hcls cl Hcl) as [_ [Htk|(fr' & Hin & Hs)] _ _]; [by eapply Htk|]. rewrite (HL' cl Hcl) in Hin.
    eapply (Hap fr fr' Hfr Hin); [exact Hcv|]. by apply Hs.
Qed.

Lemma leased_after L' L s s' cl : leases_after L' L s s' → cl ∈ L → Inflight.held s' !! cl_token cl = Inflight.held s !! cl_token cl.
Proof.
  intros [[-> _]|(tok & -> & _ & HL)] Hcl; [done|]. rewrite Forall_forall in HL. destruct (release_ranges tok s) as [_ Hh]. apply Hh. by apply HL.
Qed.

Lemma claim_after δ L L' e e' s' cl :
  inv δ (L' ++ L) e → meta_only e e' → becomes δ L' e (catalog e') → leases_after L' L (inflight e) s' → cl ∈ L →
  claim_ok (e' <| inflight := s' |>) cl.
Proof.
  intros Hi Hm Hb Hs Hcl. pose proof (leased_after _ _ _ _ _ Hs Hcl) as Hh. pose proof (iv_apart _ _ _ Hi) as Hap. apply pairwise_app in Hap as (_ & _ & Hap).
  pose proof (iv_claims _ _ _ Hi) as Hcls. apply Forall_app in Hcls as [_ HL]. rewrite Forall_forall in HL. destruct (HL cl Hcl) as [[Hbd Hun _] Hheld Hop Hst].
  assert (taken (free (catalog e')) (size (cl_data cl)) (cl_at cl) ∨ ∃ fr, fr ∈ leased s' (cl_token cl) ∧ same_bytes fr cl) as Hheld'.
  { unfold leased. rewrite Hh. destruct Hheld as [Htk|Hfr]; [left|by right]. intros nd k b Ho Hf.
    destruct (bc_free _ _ _ _ Hb nd k b Hf) as [|(x & m & r & Hx & Hr & Hcv)]; [by eapply Htk|].
    eapply (Hun x); [unfold spots; by rewrite lookup_fmap, Hx|exact Hr|exact Ho|exact Hcv]. }
  split; [split; [done| |]| | |].
  - intros x n l r. unfold spots. rewrite lookup_fmap. simpl. destruct (extents (catalog e') !! x) as [m|] eqn:Hx; [|done]. intros [= <- <-] Hr.
    destruct (bc_parts _ _ _ _ Hb x m r Hx Hr) as [(x0 & m0 & Hx0 & Hr0 & <-)|(c & Hc & <- & <-)].
    + eapply (Hun x0); [unfold spots; by rewrite lookup_fmap, Hx0|done].
    + intros nd k b H1 H2. by eapply (Hap c cl Hc Hcl).
  - destruct Hheld' as [Htk|(fr & Hfr & Hsb)]; [by left|right]. intros nd k b Hc. eapply ranges_after; [exact Hi|exact Hb|exact Hs|by eapply leased_ranges|by apply Hsb].
  - done.
  - simpl. by rewrite Hh.
  - intros i d. unfold find_node, dev. simpl. rewrite (mo_nodes _ _ Hm). apply Hst.
Qed.

Lemma kept_meta e e' s' b ps ext : meta_only e e' → kept e b ps ext → kept (e' <| inflight := s' |>) b ps ext.
Proof.
  intros Hm. unfold kept, stored_at, find_node, dev. simpl. by rewrite (mo_nodes _ _ Hm), (mo_objects _ _ Hm).
Qed.

Lemma inv_becomes δ L L' e e' s' :
  inv δ (L' ++ L) e → meta_only e e' → durable e' → becomes δ L' e (catalog e') → leases_after L' L (inflight e) s' →
  inv δ L (e' <| inflight := s' |>).
Proof.
  intros Hi Hm Hdur Hb Hs. pose proof (iv_apart _ _ _ Hi) as Hap. apply pairwise_app in Hap as (_ & Hap & _).
  assert (∀ nd, find_node (e' <| inflight := s' |>) nd = find_node e nd) as Hfn by (intros nd; unfold find_node; simpl; by rewrite (mo_nodes _ _ Hm)).
  assert (∀ i k, dev (e' <| inflight := s' |>) i k = dev e i k) as Hdv by (intros i k; unfold dev; simpl; by rewrite (mo_nodes _ _ Hm)).
  split; simpl.
  - apply Hb.
  - by destruct Hdur.
  - destruct (iv_nodes _ _ _ Hi) as [Hw Hne]. split; [intros i k d; rewrite Hdv; apply Hw|]. intros i n. simpl. rewrite (mo_nodes _ _ Hm). apply Hne.
  - pose proof (becomes_consistent _ _ _ _ _ Hi Hb) as Hc. destruct Hs as [[-> _]|(tok & -> & _)]; [done|by apply Inflight.release_consistent].
  - intros fr nd k b Hfr Hcv. eapply ranges_after; [exact Hi|exact Hb|exact Hs|done|done].
  - intros nd k b i d Hf. rewrite Hfn, Hdv. intros Hn Hd. destruct (bc_free _ _ _ _ Hb nd k b Hf) as [|(x & m & r & Hx & Hr & Hcv)]; [by eapply iv_low|].
    destruct (part_of _ _ _ _ _ _ Hi Hx Hr) as (p & Hp & Hst & _). destruct Hcv as (-> & -> & Hcv). destruct (Hst i d Hn Hd) as [Hle _]. lia.
  - intros x m Hx. destruct (bc_ext _ _ _ _ Hb x m Hx) as (He & b & ps & Hd & Hds & Hk). split; [done|]. exists b, ps. split_and!; [done..|by eapply kept_meta].
  - apply Forall_forall. intros cl Hcl. by eapply claim_after.
  - done.
  - intros k. simpl. rewrite (mo_uuids _ _ Hm), (mo_uuid _ _ Hm). apply Hi.
  - intros j k. simpl. rewrite (mo_uuids _ _ Hm), (mo_uuid _ _ Hm). apply Hi.
Qed.

(** ** What each command does *)

Lemma commits_ok cmd c c' : catalog_ok c → accepts c cmd → commits cmd c c' → catalog_ok c'.
Proof.
  intros Hok Ha (term & index & s & _ & Hex & ->). pose proof (exec_ok term cmd c Hok Ha) as He. rewrite Hex in He. by apply catalog_ok_applied, He.
Qed.

Lemma statics_kept δ L e x ext :
  inv δ L e → statics (catalog e) !! x = Some ext → eid ext = x ∧ ∃ b ps, δ !! x = Some b ∧ describes b ps ext ∧ kept e b ps ext.
Proof. intros Hi (m & Hm & <-)%statics_back. by eapply iv_ext. Qed.

(** In terms of the records alone. *)
Lemma becomes_intro δ L' e c' :
  catalog_ok c' →
  (∀ x ext, statics c' !! x = Some ext → eid ext = x ∧ (∃ b ps, δ !! x = Some b ∧ describes b ps ext ∧ kept e b ps ext) ∧
    ∀ r, r ∈ replicas ext →
      (∃ x0 ext0, statics (catalog e) !! x0 = Some ext0 ∧ r ∈ replicas ext0 ∧ stored_len ext0 = stored_len ext) ∨
      ∃ cl, cl ∈ L' ∧ cl_at cl = r ∧ size (cl_data cl) = stored_len ext) →
  (∀ nd k b, is_free (free c') nd k b →
    is_free (free (catalog e)) nd k b ∨
    ∃ x ext r, statics (catalog e) !! x = Some ext ∧ r ∈ replicas ext ∧ covers (stored_len ext) r nd k b) →
  (∀ nd k b, is_free (free (catalog e)) nd k b → is_free (free c') nd k b ∨ ∃ cl, cl ∈ L' ∧ owns cl nd k b) →
  (∀ cl nd k b, cl ∈ L' → owns cl nd k b → ¬ is_free (free c') nd k b) →
  becomes δ L' e c'.
Proof.
  intros Hok Hext Hf Hk Ht. split; [done| | | |done|done].
  - intros x m Hm. destruct (Hext x (extent m)) as (? & ? & _); [by apply statics_lookup|done].
  - intros x m r Hm Hr. destruct (Hext x (extent m)) as (_ & _ & Hp); [by apply statics_lookup|]. destruct (Hp r Hr) as [(x0 & ext0 & Hx0 & ? & ?)|]; [left|by right].
    apply statics_back in Hx0 as (m0 & Hm0 & <-). by exists x0, m0.
  - intros nd k b Hb. destruct (Hf nd k b Hb) as [|(x & ext & r & Hx & ? & ?)]; [by left|right]. apply statics_back in Hx as (m & Hm & <-). by exists x, m, r.
Qed.

Lemma becomes_quiet δ L e c' : inv δ L e → catalog_ok c' → same_space (catalog e) c' → becomes δ [] e c'.
Proof.
  intros Hi Hok [Hs Hf]. apply becomes_intro; rewrite ?Hf; [done| |by left|by left|by intros ???? ?%elem_of_nil].
  rewrite Hs. intros x ext Hx. destruct (statics_kept _ _ _ _ _ Hi Hx) as [? ?]. split_and!; try done. intros r Hr. left. by exists x, ext.
Qed.

(** ** New extents *)

Definition range_of (cl : Claim) : N * ReplicaRef := (size (cl_data cl), cl_at cl).

Lemma claims_ranges δ tok ext ps : holds δ ext ps → range_of <$> claims_of tok ext ps = ranges_of ext.
Proof.
  intros [(b & _ & Hd) _ Hl]. assert (∀ p, p ∈ ps → size p = stored_len ext) as Hs by (intros p; by eapply parts_size). unfold claims_of, ranges_of.
  revert Hl Hs. generalize (replicas ext) (stored_len ext). clear. induction ps as [|p ps IH]; intros [|r rs] n Hl Hs; try done. csimpl. f_equal.
  - unfold range_of. simpl. rewrite (Hs p); [done|by left].
  - apply IH; [by injection Hl|]. intros q Hq. apply Hs. by right.
Qed.

Lemma prepared_ranges δ tok exts L : prepared δ tok exts L → concat (ranges_of <$> exts) ≡ₚ range_of <$> L.
Proof.
  induction 1 as [|ext ps exts L L' Hh _ IH HL]; [done|]. csimpl. rewrite IH, HL, fmap_app. by erewrite claims_ranges.
Qed.

Lemma prepared_token δ tok exts L : prepared δ tok exts L → Forall (λ cl, cl_token cl = tok) L.
Proof.
  induction 1 as [|ext ps exts L L' Hh _ IH HL]; [done|]. rewrite HL. apply Forall_app. split; [|done].
  apply Forall_forall. intros cl (i & r & p & -> & _)%elem_of_lookup_zip_with. done.
Qed.

Lemma prepared_elem δ tok exts L ext :
  prepared δ tok exts L → ext ∈ exts → ∃ ps, holds δ ext ps ∧ ∀ cl, cl ∈ claims_of tok ext ps → cl ∈ L.
Proof.
  induction 1 as [|ext' ps exts L L' Hh _ IH HL]; intros Hin; [by apply elem_of_nil in Hin|]. apply elem_of_cons in Hin as [->|Hin].
  - exists ps. split; [done|]. intros cl Hc. rewrite HL. set_solver.
  - destruct (IH Hin) as (ps' & Hh' & Hc). exists ps'. split; [done|]. intros cl Hcl. rewrite HL. set_solver.
Qed.

#[local] Instance parts_clear_sym : Symmetric parts_clear.
Proof. intros x y H nd k b H1 H2. by eapply H. Qed.

Lemma pairwise_fmap {A B} (f : A → B) (R : B → B → Prop) l : pairwise R (f <$> l) ↔ pairwise (λ x y, R (f x) (f y)) l.
Proof. induction l as [|x l IH]; [done|]. csimpl. rewrite IH. setoid_rewrite list_elem_of_fmap. naive_solver. Qed.

Lemma prepared_new δ L L' e tok exts :
  inv δ (L' ++ L) e → prepared δ tok exts L' → NoDup (eid <$> exts) → (∀ ext, ext ∈ exts → extents (catalog e) !! eid ext = None) →
  new_extents (catalog e) exts.
Proof.
  intros Hi Hp Hn Hx. pose proof (prepared_ranges _ _ _ _ Hp) as Hr. pose proof (iv_claims _ _ _ Hi) as Hcl. apply Forall_app in Hcl as [Hcl _].
  pose proof (iv_apart _ _ _ Hi) as Hap. apply pairwise_app in Hap as (Hap & _). split; [done|done| |].
  - intros x. rewrite Hr, list_elem_of_fmap. intros (cl & -> & Hc). rewrite Forall_forall in Hcl. apply (Hcl cl Hc).
  - apply (pairwise_perm _ (range_of <$> L')); [by symmetry|]. by apply pairwise_fmap.
Qed.

Lemma in_parts_claims δ tok exts L nd k b : prepared δ tok exts L → in_parts (concat (ranges_of <$> exts)) nd k b ↔ ∃ cl, cl ∈ L ∧ owns cl nd k b.
Proof.
  intros Hp. unfold in_parts. setoid_rewrite (prepared_ranges _ _ _ _ Hp). setoid_rewrite list_elem_of_fmap. split; [|intros (cl & ? & ?); exists (range_of cl); split; [by exists cl|done]].
  intros (x & (cl & -> & ?) & ?). by exists cl.
Qed.

(** An extent at its claims is where its record says. *)
Lemma holds_kept δ e tok ext ps :
  holds δ ext ps → (∀ cl, cl ∈ claims_of tok ext ps → stored_at e (cl_at cl) (cl_data cl)) → ∃ b, δ !! eid ext = Some b ∧ describes b ps ext ∧ kept e b ps ext.
Proof.
  intros [(b & Hb & Hd) Ho Hl] Hst. exists b. split_and!; try done. unfold kept. rewrite Ho. revert Hl Hst. unfold claims_of. generalize (replicas ext). clear.
  induction ps as [|p ps IH]; intros [|r rs] Hl Hst; try done; constructor; [apply (Hst (mkClaim tok r p)); by left|].
  apply IH; [by injection Hl|]. intros cl Hcl. apply Hst. by right.
Qed.

#[local] Instance owns_dec cl nd k b : Decision (owns cl nd k b).
Proof. unfold owns, covers, FreeList.in_range. apply _. Defined.

Lemma becomes_install δ L L' e tok exts c' :
  inv δ (L' ++ L) e → prepared δ tok exts L' → NoDup (eid <$> exts) → (∀ ext, ext ∈ exts → extents (catalog e) !! eid ext = None) →
  catalog_ok c' → same_space (foldl (λ c x, add_extent_ref x c) (catalog e) exts) c' → becomes δ L' e c'.
Proof.
  intros Hi Hp Hn Hx Hok [Hs Hf]. pose proof (prepared_new _ _ _ _ _ _ Hi Hp Hn Hx) as Hne. pose proof (iv_claims _ _ _ Hi) as Hcl. apply Forall_app in Hcl as [Hcl _].
  rewrite Forall_forall in Hcl. destruct (new_extents_all exts (catalog e) (ok_space _ (iv_cat _ _ _ Hi)) Hne) as (_ & _ & _ & Hst & Hfr). rewrite <- Hf in Hfr.
  setoid_rewrite (in_parts_claims _ _ _ _ _ _ _ Hp) in Hfr. apply becomes_intro; [done| | | |].
  - intros x ext. rewrite Hs, Hst. destruct (find _ exts) as [ext'|] eqn:Hfd.
    + intros [= ->]. apply find_some in Hfd as [Hin Heq%String.eqb_eq]. apply list_elem_of_In in Hin. destruct (prepared_elem _ _ _ _ _ Hp Hin) as (ps & Hh & Hc).
      subst x. split; [done|]. split.
      * destruct (holds_kept _ e tok _ _ Hh) as (b & ? & ? & ?); [|by exists b, ps]. intros cl Hcl'. by apply Hcl, Hc.
      * intros r Hr. right. assert ((stored_len ext, r) ∈ ranges_of ext) as Hr' by (by apply list_elem_of_fmap_2).
        rewrite <- (claims_ranges _ tok _ _ Hh) in Hr'. apply list_elem_of_fmap in Hr' as (cl & [= H1 H2] & Hcl'). exists cl. auto.
    + intros Hx'. destruct (statics_kept _ _ _ _ _ Hi Hx') as [? ?]. split_and!; try done. intros r Hr. left. by exists x, ext.
  - intros nd k b [? _]%Hfr. by left.
  - intros nd k b Hb. destruct (decide (List.Exists (λ cl, owns cl nd k b) L')) as [Ho%Exists_exists|Ho]; [by right|left].
    apply Hfr. split; [done|]. intros (cl & ? & ?). apply Ho, Exists_exists. by exists cl.
  - intros cl nd k b Hc Ho [_ Hno]%Hfr. apply Hno. by exists cl.
Qed.

(** ** Extents that go, move to objects or change a device *)

Lemma becomes_reclaim δ L e x c' :
  inv δ L e → catalog_ok c' → commits (MarkExtentReclaimed x) (catalog e) c' → becomes δ [] e c'.
Proof.
  intros Hi Hok (term & index & s & _ & Hex & ->). destruct (reclaim_effect _ _ _ _ (ok_space _ (iv_cat _ _ _ Hi)) Hex) as (_ & _ & m & Hm & _ & Hst & Hf).
  apply becomes_intro; [done| | | |by intros ???? ?%elem_of_nil].
  - intros y ext Hy. change (statics (cat s) !! y = Some ext) in Hy. rewrite Hst in Hy. apply lookup_delete_Some in Hy as [_ Hy].
    destruct (statics_kept _ _ _ _ _ Hi Hy) as [? ?]. split_and!; try done. intros r Hr. left. by exists y, ext.
  - intros nd k b [(r & Hr & Hcv)|]%Hf; [right|by left]. exists x, (extent m), r. split; [by apply statics_lookup|done].
  - intros nd k b Hb. left. apply Hf. by right.
Qed.

Lemma becomes_tier δ L e x key rs c' :
  inv δ L e → key = object_key x → (∀ b o, δ !! x = Some b → objects e = Some o → object_at o key = Some b) → catalog_ok c' →
  commits (TierExtent x key rs) (catalog e) c' → becomes δ [] e c'.
Proof.
  intros Hi Hkey Hobj Hok (term & index & s & _ & Hex & ->). destruct (tier_effect _ _ _ _ _ _ (ok_space _ (iv_cat _ _ _ Hi)) Hex) as (_ & _ & m & Hm & _ & _ & Hst & Hf).
  apply becomes_intro; [done| | | |by intros ???? ?%elem_of_nil].
  - intros y ext Hy. change (statics (cat s) !! y = Some ext) in Hy. rewrite Hst in Hy. apply lookup_insert_Some in Hy as [[<- <-]|[_ Hy]].
    + destruct (iv_ext _ _ _ Hi x m Hm) as (He & b & ps & Hb & [H1 H2 H3 _] & _). split; [done|]. split; [|by intros r ?%elem_of_nil].
      exists b, []. split_and!; [done|by split|]. unfold kept. simpl. rewrite He. split_and!; try done. intros o. by apply Hobj.
    + destruct (statics_kept _ _ _ _ _ Hi Hy) as [? ?]. split_and!; try done. intros r Hr. left. by exists y, ext.
  - intros nd k b [(r & Hr & Hcv)|]%Hf; [right|by left]. exists x, (extent m), r. split; [by apply statics_lookup|done].
  - intros nd k b Hb. left. apply Hf. by right.
Qed.

Lemma describes_det b ps ps' ext : describes b ps ext → describes b ps' ext → ps = ps'.
Proof.
  intros [_ _ _ H1] [_ _ _ H2]. unfold laid in *. destruct (ec ext); [|congruence]. destruct H1 as (_ & sc & Hc & H1), H2 as (_ & sc' & Hc' & H2). congruence.
Qed.

(** The part of the extent at its replica [old]. *)
Definition part_at (δ : gmap ExtentId bytes) (ext : ExtentRef) (old : ReplicaRef) (p : bytes) : Prop :=
  ∃ b ps, δ !! eid ext = Some b ∧ describes b ps ext ∧ ∀ pos, replicas ext !! pos = Some old → ps !! pos = Some p.

Lemma becomes_replace δ L e tok x old new p c' :
  inv δ (mkClaim tok new p :: L) e → (∀ m, extents (catalog e) !! x = Some m → part_at δ (extent m) old p ∧ size p = stored_len (extent m)) → catalog_ok c' →
  commits (ReplaceReplica x old new) (catalog e) c' → becomes δ [mkClaim tok new p] e c'.
Proof.
  intros Hi Hpart Hok (term & index & s & _ & Hex & ->). pose proof (iv_claims _ _ _ Hi) as [Hcl _]%Forall_cons.
  assert (∀ m, extents (catalog e) !! x = Some m → placeable (spots (catalog e)) (free (catalog e)) (stored_len (extent m)) new) as Hpl.
  { intros m Hm. destruct (Hpart m Hm) as [_ <-]. apply (cl_place _ _ Hcl). }
  destruct (replace_effect _ _ _ _ _ _ (ok_space _ (iv_cat _ _ _ Hi)) Hpl Hex) as (_ & _ & m & pos & Hm & Hold & Hst & Hf).
  destruct (Hpart m Hm) as [(b & ps & Hb & Hd & Hp) Hsz]. specialize (Hp pos Hold).
  assert (∀ nd k b, owns (mkClaim tok new p) nd k b ↔ covers (stored_len (extent m)) new nd k b) as Hown by (intros; unfold owns; simpl; by rewrite Hsz).
  apply becomes_intro; [done| | | |].
  - intros y ext Hy. change (statics (cat s) !! y = Some ext) in Hy. rewrite Hst in Hy. apply lookup_insert_Some in Hy as [[<- <-]|[_ Hy]].
    + destruct (iv_ext _ _ _ Hi x m Hm) as (He & b' & ps' & Hb' & Hd' & Hk). rewrite He in Hb. assert (b' = b) as -> by congruence. rewrite (describes_det _ _ _ _ Hd' Hd) in Hk. clear Hd'.
      split; [done|]. split.
      * exists b, ps. split; [done|]. split; [destruct Hd as [H1 H2 H3 H4]; split; try done; revert H4; unfold laid, moved; simpl; by rewrite length_insert|].
        revert Hk. unfold kept, moved. simpl. destruct (object (extent m)); [by intros (_ & Hnil & _); rewrite Hnil in Hold|]. intros Hk.
        rewrite <- (list_insert_id ps pos p Hp). apply Forall2_insert; [done|]. apply (cl_stored _ _ Hcl).
      * intros r Hr. apply list_elem_of_lookup in Hr as [j Hj]. unfold moved in Hj. simpl in Hj. apply list_lookup_insert_Some in Hj as [(<- & <- & _)|[_ Hj]].
        { right. exists (mkClaim tok new p). split_and!; [by left|done|done]. }
        left. exists x, (extent m). split_and!; [by apply statics_lookup|by eapply list_elem_of_lookup_2|done].
    + destruct (statics_kept _ _ _ _ _ Hi Hy) as [? ?]. split_and!; try done. intros r Hr. left. by exists y, ext.
  - intros nd k b' [Hcv|[? _]]%Hf; [right|by left]. exists x, (extent m), old. split; [by apply statics_lookup|]. split; [by eapply list_elem_of_lookup_2|done].
  - intros nd k b' Hb'. destruct (decide (owns (mkClaim tok new p) nd k b')) as [Ho|Ho]; [right; exists (mkClaim tok new p); split; [by left|done]|left].
    apply Hf. right. split; [done|]. by rewrite <- Hown.
  - intros cl nd k b' ->%list_elem_of_singleton Ho%Hown [Hcv|[_ Hno]]%Hf; [|done].
    eapply (pl_unused _ _ _ _ (Hpl m Hm) x); [unfold spots; by rewrite lookup_fmap, Hm|by eapply list_elem_of_lookup_2|exact Ho|exact Hcv].
Qed.

End commit.
End EngineCommit.
