(* ===== verification/EngineDisks.v ===== *)
(** * The disks the catalog describes

    What a user of the engine sees: volumes and snapshots as sequences of bytes.  The
    catalog and the content of its extents determine them; a write of new extents
    over the cells of a range changes the bytes of the range and no others. *)

From S2P Require Import Prelude MetaError FreeList Ec Catalog Extents Namespace Metadata Space MetaSpace MetaSpec NativeError Device Objects Placement Inflight Engine EngineRead EngineWrite EngineRepair EngineMeta EngineData EngineInv EnginePlace EngineCat EngineRange EngineBatch EngineCommit.

Module EngineDisks.
Import Placement Catalog Extents Metadata Space MetaSpace MetaSpec NativeError Device Objects Engine EngineRead EngineWrite EngineRepair EngineMeta EngineData EngineInv EnginePlace EngineCat EngineRange EngineBatch EngineCommit.

Open Scope N_scope.

(** ** Disks *)

Definition zeros (n : N) : bytes := replicate (N.to_nat n) 0.

Record Disk := mkDisk { dk_name : string; dk_bytes : bytes }.
Record Snap := mkSnap { sp_volume : string; sp_name : string; sp_bytes : bytes }.
Record Disks := mkDisks { vols : gmap string Disk; snaps : gmap string Snap }.
#[export] Instance eta_Disks : Eta Disks := λ d, mkDisks (vols d) (snaps d).

(** Bytes that are not stored are zero. *)
Lemma byte_beyond δ g c m sz i : 0 < g → map_ok δ g c m sz → sz <= i → byte_at δ g m i = 0.
Proof.
  intros Hg Hm Hi. unfold byte_at, cell_bytes. destruct (m !! cell_of g i) as [x|] eqn:Hx; [|done]. simpl.
  destruct (Hm _ _ Hx) as (_ & (b & -> & Hb & Hend) & _). simpl. unfold get0. rewrite lookup_ge_None_2; [done|].
  destruct (cell_grid g i Hg) as (_ & _ & Hs). lia.
Qed.

Lemma image_lookup δ g m sz j : image δ g m sz !! j = if (j <? N.to_nat sz)%nat then Some (byte_at δ g m (N.of_nat j)) else None.
Proof.
  unfold image. destruct (Nat.ltb_spec j (N.to_nat sz)); [by rewrite slice_lookup|]. apply lookup_ge_None_2. rewrite slice_length. lia.
Qed.

Lemma image_length δ g m sz : length (image δ g m sz) = N.to_nat sz.
Proof. apply slice_length. Qed.

Lemma image_size δ g m sz : size (image δ g m sz) = sz.
Proof. rewrite image_length. apply N2Nat.id. Qed.

Lemma image_empty δ g sz : image δ g ∅ sz = zeros sz.
Proof.
  apply list_eq. intros j. rewrite image_lookup. unfold zeros. destruct (Nat.ltb_spec j (N.to_nat sz)); [|symmetry; apply lookup_replicate_None; lia].
  symmetry. by apply lookup_replicate_2.
Qed.

Lemma image_grow δ g c m sz sz' :
  0 < g → map_ok δ g c m sz → sz <= sz' → image δ g m sz' = image δ g m sz ++ zeros (sz' - sz).
Proof.
  intros Hg Hm Hle. apply list_eq. intros j. rewrite lookup_app, !image_lookup, image_length. unfold zeros.
  destruct (Nat.ltb_spec j (N.to_nat sz)), (Nat.ltb_spec j (N.to_nat sz')); try lia; [done| |].
  - rewrite lookup_replicate_2 by lia. f_equal. by eapply byte_beyond; [|done|lia].
  - symmetry. apply lookup_replicate_None. lia.
Qed.

(** ** Writes *)

(** [cells] are the new contents of the cells that a write of [data] at [off] touches. *)
Record updates (δ : gmap ExtentId bytes) (g : N) (m : gmap N ExtentId) (off : N) (data : bytes) (sz : N) (cells : list (N * bytes)) : Prop := {
  up_keys : NoDup (cells.*1);
  up_cell x : x ∈ cells → x.1 mod g = 0 ∧ size (x.2) <= g ∧ x.1 + size (x.2) <= sz ∧ ∃ i, off <= i < off + size data ∧ x.1 = cell_of g i;
  up_byte x j : x ∈ cells → (j < N.to_nat g)%nat →
    get0 (x.2) j = if (off <=? x.1 + N.of_nat j) && (x.1 + N.of_nat j <? off + size data) then get0 data (N.to_nat (x.1 + N.of_nat j - off))
                   else get0 (cell_bytes δ m (x.1)) j;
  up_all i : off <= i < off + size data → cell_of g i ∈ cells.*1;
}.

Lemma updates_mono δ δ' g c m sz off data cells :
  δ ⊆ δ' → map_ok δ g c m sz → updates δ g m off data sz cells → updates δ' g m off data sz cells.
Proof.
  intros Hs Hm [Hk Hc Hb Ha]. split; try done. intros x j Hx Hj. rewrite (Hb x j Hx Hj). do 2 f_equal. unfold cell_bytes.
  destruct (m !! x.1) as [y|] eqn:Hy; [|done]. simpl. destruct (Hm _ _ Hy) as (_ & (b & Hlk & _) & _). by rewrite Hlk, (lookup_weaken _ _ _ _ Hlk Hs).
Qed.

(** The map after the cells are installed. *)
Definition installed_map (m : gmap N ExtentId) (exts : list ExtentRef) : gmap N ExtentId := (Namespace.insert_extents m (named exts)).1.

(** The cells are the extents [exts]. *)
Definition cells_are (δ : gmap ExtentId bytes) (cells : list (N * bytes)) (exts : list ExtentRef) : Prop :=
  Forall2 (λ (x : N * bytes) ext, logical_offset ext = x.1 ∧ δ !! eid ext = Some (x.2)) cells exts.

Lemma cells_keys δ cells exts : cells_are δ cells exts → logical_offset <$> exts = cells.*1.
Proof. induction 1 as [|x ext cells exts [Hl _] _ IH]; [done|]. csimpl. by rewrite Hl, IH. Qed.

Lemma installed_lookup δ m cells exts k :
  NoDup (cells.*1) → cells_are δ cells exts →
  (∃ b, (k, b) ∈ cells ∧ cell_bytes δ (installed_map m exts) k = b ∧ ∃ ext, ext ∈ exts ∧ installed_map m exts !! k = Some (eid ext) ∧ δ !! eid ext = Some b ∧ logical_offset ext = k) ∨
  (k ∉ cells.*1) ∧ installed_map m exts !! k = m !! k.
Proof.
  intros Hnd Hc. pose proof (cells_keys _ _ _ Hc) as Hkeys. assert (NoDup (logical_offset <$> exts)) as Hnd' by (by rewrite Hkeys).
  pose proof (insert_extents_lookup exts m k Hnd') as Hl. fold (installed_map m exts) in Hl. destruct (find _ exts) as [ext|] eqn:Hf.
  - left. apply find_some in Hf as [Hin Hk%N.eqb_eq]. apply list_elem_of_In, list_elem_of_lookup in Hin as [j Hj].
    destruct (Forall2_lookup_r _ _ _ _ _ Hc Hj) as ([k' b] & Hx & Hlo & Hb). simpl in *. exists b. rewrite Hk in Hlo. subst k'.
    split; [by eapply list_elem_of_lookup_2|]. unfold cell_bytes. rewrite Hl. simpl. rewrite Hb. split; [done|]. exists ext. split; [by eapply list_elem_of_lookup_2|done].
  - right. split; [|done]. rewrite <- Hkeys. intros (ext & -> & Hin)%list_elem_of_fmap. apply list_elem_of_In in Hin. pose proof (find_none _ _ Hf _ Hin) as Hne. simpl in Hne. by rewrite N.eqb_refl in Hne.
Qed.

Lemma byte_written δ g m off data sz cells exts i :
  0 < g → updates δ g m off data sz cells → cells_are δ cells exts →
  byte_at δ g (installed_map m exts) i = if (off <=? i) && (i <? off + size data) then get0 data (N.to_nat (i - off)) else byte_at δ g m i.
Proof.
  intros Hg [Hk Hc Hb Ha] Hcells. destruct (cell_grid g i Hg) as (_ & _ & Hs). pose proof (N.mod_lt i g ltac:(lia)) as Hlt. unfold byte_at.
  destruct (installed_lookup δ m cells exts (cell_of g i) Hk Hcells) as [(b & Hin & -> & _)|[Hni Hsame]].
  - pose proof (Hb _ (N.to_nat (i mod g)) Hin ltac:(lia)) as Hbyte. simpl in Hbyte. rewrite Hbyte, !N2Nat.id, Hs. done.
  - destruct (N.leb_spec off i), (N.ltb_spec i (off + size data)); simpl; try (unfold cell_bytes; by rewrite Hsame). destruct Hni. by apply Ha.
Qed.

(** The image after a write. *)
Lemma image_written δ g m off data sz cells exts :
  0 < g → updates δ g m off data sz cells → cells_are δ cells exts → off + size data <= sz →
  image δ g (installed_map m exts) sz = pwrite (N.to_nat off) data (image δ g m sz).
Proof.
  intros Hg Hu Hc Hle. apply list_eq. intros j. rewrite image_lookup, pwrite_lookup by (rewrite image_length; lia). rewrite image_lookup.
  destruct (Nat.ltb_spec j (N.to_nat sz)) as [Hj|Hj]; [|rewrite decide_False by lia; done].
  rewrite (byte_written _ _ _ _ _ _ _ _ _ Hg Hu Hc). case_decide as Hd.
  - rewrite (proj2 (N.leb_le _ _)), (proj2 (N.ltb_lt _ _)) by lia. simpl. unfold get0. replace (N.to_nat (N.of_nat j - off)) with (j - N.to_nat off)%nat by lia.
    by destruct (lookup_lt_is_Some_2 data (j - N.to_nat off)%nat ltac:(lia)) as [y ->].
  - by destruct (N.leb_spec off (N.of_nat j)), (N.ltb_spec (N.of_nat j) (off + N.of_nat (length data))); try lia.
Qed.

(** ** Whole cells *)

Lemma chunks_lookup {A} fuel k (l : list A) i :
  (0 < k)%nat → (length l <= fuel)%nat → chunks fuel k l !! i = if (i * k <? length l)%nat then Some (take k (drop (i * k) l)) else None.
Proof.
  intros Hk. revert l i. induction fuel as [|fuel IH]; intros [|x l] i Hl; simpl in Hl; try lia; [by destruct (i * k)%nat..|].
  destruct i as [|i]; [done|]. change (chunks (S fuel) k (x :: l)) with (take k (x :: l) :: chunks fuel k (drop k (x :: l))).
  cbn [lookup list_lookup]. rewrite IH by (rewrite length_drop; simpl; lia). rewrite length_drop, drop_drop. replace (k + i * k)%nat with (S i * k)%nat by lia.
  destruct (Nat.ltb_spec (i * k) (length (x :: l) - k)), (Nat.ltb_spec (S i * k) (length (x :: l))); try done; lia.
Qed.

Lemma whole_lookup g off data i x :
  0 < g → size data mod g = 0 → off + size data < u64_size → whole_cells g off data !! i = Some x →
  (i * N.to_nat g + N.to_nat g <= length data)%nat ∧ x = (off + N.of_nat i * g, take (N.to_nat g) (drop (i * N.to_nat g) data)).
Proof.
  intros Hg Hmod Hb. unfold whole_cells. rewrite list_lookup_imap, chunks_lookup by lia. destruct (Nat.ltb_spec (i * N.to_nat g) (length data)) as [Hi|]; [|done].
  simpl. intros [= <-]. apply N.Div0.mod_divides in Hmod as [q Hq].
  assert (N.of_nat i * g < g * q) as Hlt by lia. assert (N.of_nat i < q) as Hiq by (apply (N.mul_lt_mono_pos_l g); lia).
  assert (g * (N.of_nat i + 1) <= g * q) as Hle by (apply N.mul_le_mono_l; lia).
  split; [lia|]. rewrite u64_add_small by lia. done.
Qed.

Lemma whole_updates δ g m off data sz :
  0 < g → off mod g = 0 → size data mod g = 0 → off + size data <= sz → sz < u64_size → updates δ g m off data sz (whole_cells g off data).
Proof.
  intros Hg Hoff Hmod Hle Hsz.
  assert (∀ i x, whole_cells g off data !! i = Some x → (i * N.to_nat g + N.to_nat g <= length data)%nat ∧ x = (off + N.of_nat i * g, take (N.to_nat g) (drop (i * N.to_nat g) data))) as Hw
    by (intros i x; apply whole_lookup; [done|done|lia]).
  assert (∀ i, (off + i * g) mod g = 0) as Hgrid by (intros i; by rewrite N.Div0.mod_add).
  split.
  - apply NoDup_alt. intros i j k. rewrite !list_lookup_fmap. destruct (whole_cells g off data !! i) as [x|] eqn:Hx; [|done]. destruct (whole_cells g off data !! j) as [y|] eqn:Hy; [|done].
    destruct (Hw i x Hx) as [_ ->], (Hw j y Hy) as [_ ->]. intros [= <-] [= E]. assert (N.of_nat i * g = N.of_nat j * g) as E' by lia. apply N.mul_cancel_r in E'; lia.
  - intros x [i Hi]%list_elem_of_lookup. destruct (Hw i x Hi) as [Hl ->]. cbn [fst snd]. rewrite length_take, length_drop. split_and!; [done|lia|lia|].
    exists (off + N.of_nat i * g). split; [lia|]. unfold cell_of. by rewrite Hgrid, N.sub_0_r.
  - intros x j [i Hi]%list_elem_of_lookup Hj. destruct (Hw i x Hi) as [Hl ->]. cbn [fst snd]. rewrite (proj2 (N.leb_le _ _)), (proj2 (N.ltb_lt _ _)) by lia. cbn [andb].
    unfold get0. rewrite lookup_take_lt, lookup_drop by lia. do 2 f_equal. lia.
  - intros i Hi. set (q := (i - off) / g). pose proof (N.div_mod (i - off) g ltac:(lia)) as Hd. pose proof (N.mod_lt (i - off) g ltac:(lia)) as Hm. fold q in Hd. clearbody q. revert Hd Hm. generalize ((i - off) mod g). intros r Hd Hm.
    assert (q * g <= i - off < q * g + g) as Hq by lia. destruct (cell_unique g (off + q * g) i Hg (Hgrid q)) as [-> _]; [lia|].
    assert (chunks (length data) (N.to_nat g) data !! N.to_nat q = Some (take (N.to_nat g) (drop (N.to_nat q * N.to_nat g) data))) as Hch.
    { rewrite chunks_lookup by lia. destruct (Nat.ltb_spec (N.to_nat q * N.to_nat g) (length data)); [done|lia]. }
    apply list_elem_of_lookup. exists (N.to_nat q). unfold whole_cells. rewrite list_lookup_fmap, list_lookup_imap, Hch. simpl. rewrite N2Nat.id, u64_add_small by lia. done.
Qed.

Lemma whole_small g off data : 0 < g → g < 2 ^ 63 → size data mod g = 0 → off + size data < u64_size → cells_small (whole_cells g off data).
Proof.
  intros Hg Hb Hmod Hle. apply Forall_forall. intros x [i Hi]%list_elem_of_lookup. destruct (whole_lookup _ _ _ _ _ Hg Hmod Hle Hi) as [_ ->]. simpl. rewrite length_take. lia.
Qed.

(** ** Parts of cells *)

Lemma get0_pwrite off data f j :
  get0 (pwrite off data f) j = if ((off <=? j) && (j <? off + length data))%nat then get0 data (j - off) else get0 f j.
Proof.
  unfold get0, pwrite. assert (length (take off (f ++ replicate (off - length f) 0)) = off) as Hl by (rewrite length_take, length_app, length_replicate; lia).
  destruct (Nat.leb_spec off j), (Nat.ltb_spec j (off + length data)); cbn [andb]; try lia.
  - rewrite lookup_app_r, Hl, lookup_app_l by lia. done.
  - rewrite lookup_app_r, Hl, lookup_app_r by lia. rewrite lookup_drop. do 2 f_equal. lia.
  - rewrite lookup_app_l, lookup_take_lt by lia. destruct (decide (j < length f)%nat); [by rewrite lookup_app_l|].
    rewrite lookup_app_r by lia. rewrite lookup_replicate_2, lookup_ge_None_2 by lia. done.
Qed.

Lemma cell_mono g c i : 0 < g → c mod g = 0 → c <= i → c <= cell_of g i.
Proof.
  intros Hg Hc Hi. destruct (cell_grid g i Hg) as (Hgr & Hin & _). destruct (N.le_gt_cases c (cell_of g i)) as [|Hlt]; [done|]. exfalso.
  destruct (cell_unique g c i Hg Hc) as [E _]; lia.
Qed.

(** One cell, then the rest of the write. *)
Lemma updates_cons δ g m pos rest sz n content cells :
  0 < g → let within := N.to_nat (pos mod g) in
  n = Nat.min (length rest) (N.to_nat g - within) → (0 < length rest)%nat → pos + size rest <= sz →
  content = pwrite within (take n rest) (cell_bytes δ m (cell_of g pos)) → size content <= g → cell_of g pos + size content <= sz →
  updates δ g m (pos + N.of_nat n) (drop n rest) sz cells → updates δ g m pos rest sz ((cell_of g pos, content) :: cells).
Proof.
  intros Hg within Hn Hr Hle Hc Hs1 Hs2 [Hk Hcell Hbyte Hall]. destruct (cell_grid g pos Hg) as (Hgr & Hin & Hsum). pose proof (N.mod_lt pos g ltac:(lia)) as Hmod.
  rewrite length_drop in *. assert (pos mod g = N.of_nat within) as Hw by (unfold within; lia). clearbody within. rewrite Hw in *. clear Hw.
  assert (length (take n rest) = n) as Hlt by (rewrite length_take; lia).
  (* what comes later is past this cell *)
  assert (∀ x, x ∈ cells → cell_of g pos + g <= x.1 ∧ pos + N.of_nat n = cell_of g pos + g) as Hlater.
  { intros x Hx. destruct (Hcell x Hx) as (_ & _ & _ & i & Hi & ->). split; [|lia]. apply cell_mono; [done| |lia]. rewrite <- (N.mul_1_l g) at 2. by rewrite N.Div0.mod_add. }
  split.
  - simpl. constructor; [|done]. intros (x & Heq & Hx)%list_elem_of_fmap. destruct (Hlater x Hx) as [Hgt _]. rewrite <- Heq in Hgt. simpl in Hgt. lia.
  - intros x [->|Hx]%elem_of_cons; [simpl; split_and!; [done|done|done|exists pos; split; [lia|done]]|]. destruct (Hcell x Hx) as (? & ? & ? & i & ? & ?). split_and!; try done. exists i. split; [lia|done].
  - intros x j [->|Hx]%elem_of_cons Hj; cbn [fst snd].
    + rewrite Hc, get0_pwrite, Hlt. destruct (Nat.leb_spec within j), (N.leb_spec pos (cell_of g pos + N.of_nat j)); cbn [andb]; try lia.
      destruct (Nat.ltb_spec j (within + n)), (N.ltb_spec (cell_of g pos + N.of_nat j) (pos + size rest)); try lia.
      unfold get0. rewrite lookup_take_lt by lia. do 2 f_equal. lia.
    + destruct (Hlater x Hx) as [? ?]. rewrite (Hbyte x j Hx Hj). rewrite !(proj2 (N.leb_le _ _)) by lia. cbn [andb].
      destruct (N.ltb_spec (x.1 + N.of_nat j) (pos + N.of_nat n + N.of_nat (length rest - n))), (N.ltb_spec (x.1 + N.of_nat j) (pos + size rest)); try lia.
      unfold get0. rewrite lookup_drop. do 2 f_equal. lia.
  - intros i Hi. destruct (N.lt_ge_cases i (pos + N.of_nat n)) as [Hlo|Hhi].
    + destruct (cell_unique g (cell_of g pos) i Hg Hgr) as [-> _]; [lia|]. by left.
    + right. apply Hall. lia.
Qed.

Section cells.
Context {D O : Type} {BD : BlockStore D} {LD : BlockStoreLaws D} {BO : ObjectStore O} {LO : ObjectStoreLaws O} {P : EngineParams} {POk : ParamsOk P}.

Abbreviation Eng := (Engine D O).
Abbreviation E := (SM Eng NativeError).
Implicit Types e : Eng.
Abbreviation g := (extent_bytes cfg).

(** The bytes of the cell around the new ones. *)
Lemma cell_content_spec δ L e v vm sz cell within part :
  inv δ L e → volumes (catalog e) !! v = Some vm → map_ok δ g (catalog e) (v_extents vm) sz →
  wp (cell_content (TVolume v) cell within part) e (λ out e', calm e e' ∧ out = pwrite within part (cell_bytes δ (v_extents vm) cell)) (λ _ e', calm e e').
Proof.
  intros Hi Hv Hm. unfold cell_content, cell_bytes. wp_simpl. unfold extent_at, id_at. rewrite Hv. simpl. destruct (v_extents vm !! cell) as [x|] eqn:Hx; simpl.
  2:{ wp_simpl. split; [done|]. unfold pwrite. simpl. rewrite Nat.sub_0_r, drop_nil, app_nil_r. by rewrite take_ge by (by rewrite length_replicate). }
  destruct (Hm _ _ Hx) as (_ & (b & Hb & _) & mt & Hmt & _). rewrite Hmt, Hb. simpl. destruct (iv_ext _ _ _ Hi x mt Hmt) as (Hid & b' & ps & Hb' & Hd & _).
  assert (b' = b) as -> by congruence. destruct ((0 <? within)%nat || (size part <? len (extent mt))) eqn:Hcase; wp_simpl.
  - eapply wp_mono; [eapply read_extent_spec; [exact Hi|by rewrite Hid|exact Hd]| |done]. intros buf e' [Hc ->]. wp_simpl. split; [done|]. unfold pwrite.
    destruct (Nat.ltb_spec (length b) (within + length part)).
    + rewrite (drop_ge _ (within + length part)) by (rewrite length_app, length_replicate; lia). rewrite (drop_ge b) by lia. f_equal.
      apply list_eq. intros j. destruct (decide (j < within)%nat); [|by rewrite !lookup_take_ge by lia]. rewrite !lookup_take_lt by done.
      destruct (decide (j < length b)%nat); [by rewrite !lookup_app_l|]. rewrite !lookup_app_r by lia. by rewrite !lookup_replicate_2 by lia.
    + replace (within - length b)%nat with 0%nat by lia. by rewrite app_nil_r.
  - apply orb_false_iff in Hcase as [Hw%Nat.ltb_ge Hs%N.ltb_ge]. rewrite (de_len _ _ _ Hd) in Hs. split; [done|]. unfold pwrite. replace within with 0%nat by lia. simpl. by rewrite drop_ge, app_nil_r by lia.
Qed.

Lemma cells_from_S fuel t pos rest :
  (0 < length rest)%nat →
  let within := N.to_nat (pos - cell_of g pos) in
  let n := Nat.min (length rest) (N.to_nat g - within) in
  (cells_from (S fuel) t g pos rest : E _) =
    (content ← cell_content t (cell_of g pos) within (take n rest);
     cells ← cells_from fuel t g (u64_add pos (N.of_nat n)) (drop n rest);
     mret ((cell_of g pos, content) :: cells)).
Proof. destruct rest; [simpl; lia|done]. Qed.

Lemma cells_from_spec δ L v vm sz fuel : ∀ e pos rest,
  inv δ L e → volumes (catalog e) !! v = Some vm → map_ok δ g (catalog e) (v_extents vm) sz → sz < u64_size → pos + size rest <= sz → (length rest <= fuel)%nat →
  wp (cells_from fuel (TVolume v) g pos rest) e (λ cells e', calm e e' ∧ updates δ g (v_extents vm) pos rest sz cells) (λ _ e', calm e e').
Proof.
  pose proof grid_pos as Hg. induction fuel as [|fuel IH]; intros e pos rest Hi Hv Hm Hsz Hle Hf; (destruct rest as [|y rest]; [|]); try (simpl in Hf; lia).
  1,2: simpl; wp_simpl; split; [done|]; split; [constructor|by intros ? ?%elem_of_nil|by intros ? ? ?%elem_of_nil|simpl; lia].
  set (r := y :: rest) in *. assert (0 < length r)%nat as Hpos by (simpl; lia). clearbody r. clear y rest. rename r into rest.
  destruct (cell_grid g pos Hg) as (Hgr & Hin & Hsum). rewrite cells_from_S by done. cbn zeta. replace (pos - cell_of g pos) with (pos mod g) by lia.
  pose proof (N.mod_lt pos g ltac:(lia)) as Hmod. set (within := N.to_nat (pos mod g)). set (n := Nat.min (length rest) (N.to_nat g - within)).
  assert (pos mod g = N.of_nat within) as Hw by (unfold within; by rewrite N2Nat.id). assert (n <= length rest)%nat as Hn by (unfold n; lia).
  rewrite wp_bind. eapply wp_mono; [eapply cell_content_spec; [exact Hi|exact Hv|exact Hm]| |done]. intros content e1 [Hc1 Hcont].
  assert (catalog e1 = catalog e) as Ec by apply Hc1. rewrite u64_add_small by lia. rewrite wp_bind.
  eapply wp_mono; [apply (IH e1); rewrite ?Ec; try done; [by eapply inv_calm|rewrite length_drop; lia|]| |].
  - rewrite length_drop. assert (0 < n)%nat by (unfold n; rewrite Hw in Hmod; lia). lia.
  - intros cells e2 [Hc2 Hu]. wp_simpl. split; [by etrans|]. assert (size content <= g ∧ cell_of g pos + size content <= sz) as [Hs1 Hs2].
    { rewrite Hcont, pwrite_length, length_take. rewrite Hw in *. unfold cell_bytes. destruct (v_extents vm !! cell_of g pos) as [x|] eqn:Hx; simpl; [|lia].
      destruct (Hm _ _ Hx) as (_ & (b & -> & Hb1 & Hb2) & _). simpl. lia. }
    by eapply updates_cons.
  - intros err e2 Hc2. by etrans.
Qed.

End cells.

End EngineDisks.
