(* ===== verification/EngineSpec.v ===== *)
(** * What the engine promises

    Volumes and snapshots as byte sequences, the operations on them, and the effect of
    each committed command on them. *)

From S2P Require Import Prelude MetaError FreeList Ec Catalog Extents Metadata Space MetaSpace MetaSpec NativeError Device Objects Placement Inflight Engine EngineRead EngineWrite EngineRepair EngineMeta EngineData EngineInv EnginePlace EngineCat EngineRange EngineBatch EngineCommit EngineDisks.

Module EngineSpec.
Import Placement Catalog Extents Metadata Space MetaSpace MetaSpec NativeError Device Objects Engine EngineRead EngineWrite EngineRepair EngineMeta EngineData EngineInv EnginePlace EngineCat EngineRange EngineBatch EngineCommit EngineDisks.

Open Scope N_scope.

(** ** The operations on disks *)

Inductive Op :=
| VCreate (id name : string) (sz : N)
| VDelete (id : string)
| VResize (id : string) (sz : N)
| VClone (id snapshot name : string) (sz : option N)
| SCreate (id volume name : string)
| SDelete (id : string)
| VWrite (id : string) (offset : N) (data : bytes)
| VRead (id : string) (offset n : N)
| SRead (id : string) (offset n : N).

Definition bytes_in (b : bytes) (offset n : N) : option bytes :=
  if offset + n <=? size b then Some (take (N.to_nat n) (drop (N.to_nat offset) b)) else None.

(** The disks after an operation and the bytes it returns; [None] when it must fail. *)
Definition perform (op : Op) (s : Disks) : option (Disks * bytes) :=
  match op with
  | VCreate id name sz =>
      if sz =? 0 then None
      else
        match vols s !! id with
        | Some d => if bool_decide (dk_name d = name) && (size (dk_bytes d) =? sz) then Some (s, []) else None
        | None => Some (s <| vols ::= <[id := mkDisk name (zeros sz)]> |>, [])
        end
  | VDelete id => match vols s !! id with Some _ => Some (s <| vols ::= delete id |>, []) | None => None end
  | VResize id sz =>
      match vols s !! id with
      | Some d => if size (dk_bytes d) <=? sz then Some (s <| vols ::= <[id := mkDisk (dk_name d) (dk_bytes d ++ zeros (sz - size (dk_bytes d)))]> |>, []) else None
      | None => None
      end
  | VClone id snapshot name sz =>
      match vols s !! id with
      | Some d => if bool_decide (dk_name d = name) then Some (s, []) else None
      | None =>
          match snaps s !! snapshot with
          | Some sn =>
              let sz := default (size (sp_bytes sn)) sz in
              if size (sp_bytes sn) <=? sz then Some (s <| vols ::= <[id := mkDisk name (sp_bytes sn ++ zeros (sz - size (sp_bytes sn)))]> |>, []) else None
          | None => None
          end
      end
  | SCreate id volume name =>
      match snaps s !! id with
      | Some sn => if bool_decide (sp_volume sn = volume) && bool_decide (sp_name sn = name) then Some (s, []) else None
      | None =>
          match vols s !! volume with
          | Some d => Some (s <| snaps ::= <[id := mkSnap volume name (dk_bytes d)]> |>, [])
          | None => None
          end
      end
  | SDelete id => match snaps s !! id with Some _ => Some (s <| snaps ::= delete id |>, []) | None => None end
  | VWrite id offset data =>
      if (length data =? 0)%nat then Some (s, [])
      else
        match vols s !! id with
        | Some d => if offset + size data <=? size (dk_bytes d) then Some (s <| vols ::= <[id := mkDisk (dk_name d) (pwrite (N.to_nat offset) data (dk_bytes d))]> |>, []) else None
        | None => None
        end
  | VRead id offset n => d ← vols s !! id; b ← bytes_in (dk_bytes d) offset n; Some (s, b)
  | SRead id offset n => d ← snaps s !! id; b ← bytes_in (sp_bytes d) offset n; Some (s, b)
  end.

Section spec.
Context {D O : Type} {BD : BlockStore D} {LD : BlockStoreLaws D} {BO : ObjectStore O} {LO : ObjectStoreLaws O} {P : EngineParams} {POk : ParamsOk P}.

Abbreviation Eng := (Engine D O).
Abbreviation E := (SM Eng NativeError).
Implicit Types e : Eng.
Abbreviation g := (extent_bytes cfg).

(** ** The disks of a catalog *)

Definition disk_of (δ : gmap ExtentId bytes) (v : VolumeMeta) : Disk := mkDisk (v_name v) (image δ g (v_extents v) (v_size_bytes v)).
Definition snap_of (δ : gmap ExtentId bytes) (s : SnapshotMeta) : Snap := mkSnap (s_volume_id s) (s_name s) (image δ g (s_extents s) (s_size_bytes s)).

Definition disks (δ : gmap ExtentId bytes) (c : Catalog) : Disks := mkDisks (disk_of δ <$> volumes c) (snap_of δ <$> snapshots c).

(** A map of extents of [c] within a size; [in_bounds] is exact below the largest one. *)
Record fits (δ : gmap ExtentId bytes) (c : Catalog) (m : gmap N ExtentId) (sz : N) : Prop := {
  fi_pos : 0 < sz;
  fi_max : sz < u64_max;
  fi_map : map_ok δ g c m sz;
}.

Record disks_ok (δ : gmap ExtentId bytes) (c : Catalog) : Prop := {
  dk_vols id v : volumes c !! id = Some v → fits δ c (v_extents v) (v_size_bytes v);
  dk_snaps id s : snapshots c !! id = Some s → fits δ c (s_extents s) (s_size_bytes s);
}.

Lemma u64_below sz : sz < u64_max → sz < u64_size.
Proof. unfold u64_max, u64_size. lia. Qed.

Lemma map_ok_mono δ δ' c m sz : δ ⊆ δ' → map_ok δ g c m sz → map_ok δ' g c m sz.
Proof.
  intros Hs Hm off x Hx. destruct (Hm off x Hx) as (H1 & (b & Hb & H2) & H3). split; [done|]. split; [|done]. exists b. split; [by eapply lookup_weaken|done].
Qed.

Lemma image_mono δ δ' c m sz n : δ ⊆ δ' → map_ok δ g c m sz → image δ' g m n = image δ g m n.
Proof.
  intros Hs Hm. unfold image, slice. apply list_fmap_ext. intros _ j _. unfold byte_at, cell_bytes. destruct (m !! _) as [x|] eqn:Hx; [|done].
  destruct (Hm _ _ Hx) as (_ & (b & Hb & _) & _). simpl. by rewrite Hb, (lookup_weaken _ _ _ _ Hb Hs).
Qed.

(** More content does not change what is there. *)
Lemma disks_mono δ δ' c : δ ⊆ δ' → disks_ok δ c → disks_ok δ' c ∧ disks δ' c = disks δ c.
Proof.
  intros Hs [Hv Hn]. split.
  - split; intros ? ? Hx; [destruct (Hv _ _ Hx)|destruct (Hn _ _ Hx)]; split; try done; by eapply map_ok_mono.
  - unfold disks. f_equal; apply map_fmap_ext; intros i x Hx; unfold disk_of, snap_of; f_equal.
    + destruct (Hv _ _ Hx). by eapply image_mono.
    + destruct (Hn _ _ Hx). by eapply image_mono.
Qed.

(** The records that stay keep their place. *)
Definition offsets_kept (c c' : Catalog) : Prop :=
  ∀ x ext ext', statics c !! x = Some ext → statics c' !! x = Some ext' → logical_offset ext' = logical_offset ext.

Lemma offsets_same c c' : same_space c c' → offsets_kept c c'.
Proof. intros [Hs _] x ext ext' Hx. rewrite Hs, Hx. by intros [= <-]. Qed.

Lemma live_names c x : catalog_ok c → names c x → is_Some (extents c !! x).
Proof.
  intros Hok Hn. apply catalog_refs_names in Hn. rewrite <- (ok_refs c Hok x) in Hn. unfold held in Hn. destruct (extents c !! x); [by eexists|lia].
Qed.

Lemma map_ok_kept δ c c' m sz : offsets_kept c c' → (∀ off x, m !! off = Some x → is_Some (extents c' !! x)) → map_ok δ g c m sz → map_ok δ g c' m sz.
Proof.
  intros Hk Hl Hm off x Hx. destruct (Hm off x Hx) as (H1 & H2 & mt & Hmt & Ho). split; [done|]. split; [done|]. destruct (Hl off x Hx) as [mt' Hmt'].
  exists mt'. split; [done|]. rewrite <- Ho. eapply Hk; by apply statics_lookup.
Qed.

(** Maps that fit before the command fit after it. *)
Lemma disks_ok_kept δ c c' :
  catalog_ok c' → offsets_kept c c' →
  (∀ id v, volumes c' !! id = Some v → fits δ c (v_extents v) (v_size_bytes v)) →
  (∀ id s, snapshots c' !! id = Some s → fits δ c (s_extents s) (s_size_bytes s)) → disks_ok δ c'.
Proof.
  intros Hok Hk Hv Hs. split; intros id x Hx; [destruct (Hv id x Hx) as [? ? Hm]|destruct (Hs id x Hx) as [? ? Hm]]; (split; [done|done|]);
    (eapply map_ok_kept; [done| |done]); intros off y Hy; apply live_names; [done| |done|]; by econstructor.
Qed.

Lemma fits_empty δ c sz : 0 < sz → sz < u64_max → fits δ c ∅ sz.
Proof. intros H1 H2. by split. Qed.

Lemma fits_grow δ c m sz sz' : fits δ c m sz → sz <= sz' → sz' < u64_max → fits δ c m sz'.
Proof.
  intros [H1 H2 Hm] Hle Hb. split; [lia|done|]. intros off x Hx. destruct (Hm off x Hx) as (? & (b & ? & ? & ?) & ?). split; [done|]. split; [|done]. exists b. split_and!; try done. lia.
Qed.

Lemma fits_image δ c m sz sz' : fits δ c m sz → sz <= sz' → image δ g m sz' = image δ g m sz ++ zeros (sz' - size (image δ g m sz)).
Proof. intros [_ _ Hm] Hle. rewrite image_size. by eapply image_grow; [apply grid_pos| |]. Qed.

(** ** What commands do to the disks *)

Lemma commits_quiet cmd c c' : quiet_command cmd → commits cmd c c' → same_space c c'.
Proof. intros Hq (term & index & s & _ & Hex & ->). pose proof (quiet_effect term cmd Hq (mkCtx c [])) as Hs. rewrite Hex in Hs. exact Hs. Qed.

(** [op] takes the disks from [c] to [c']. *)
Definition does (δ : gmap ExtentId bytes) (op : Op) (c c' : Catalog) : Prop :=
  disks_ok δ c' ∧ perform op (disks δ c) = Some (disks δ c', []).

(** The disks are the same. *)
Definition same_disks (δ : gmap ExtentId bytes) (c c' : Catalog) : Prop := disks_ok δ c' ∧ disks δ c' = disks δ c.

Lemma same_disks_intro δ c c' :
  disks_ok δ c → catalog_ok c' → offsets_kept c c' → volumes c' = volumes c → snapshots c' = snapshots c → same_disks δ c c'.
Proof.
  intros [Hv Hs] Hok Hk Ev Es. split; [|unfold disks; by rewrite Ev, Es]. apply (disks_ok_kept δ c c'); [done|done| |]; rewrite ?Ev, ?Es; done.
Qed.

Section commands.
Context (δ : gmap ExtentId bytes) (c c' : Catalog) (Hc : disks_ok δ c) (Hok : catalog_ok c').

Lemma does_create id name sz : sz < u64_max → sz ≠ 0 → commits (CreateVolume id name sz) c c' → does δ (VCreate id name sz) c c'.
Proof.
  intros Hsz Hnz Hcm. pose proof (λ Hq, commits_quiet _ _ _ Hq Hcm) as Hsp; specialize (Hsp I). destruct Hcm as (term & index & s & _ & Hex & ->).
  apply create_volume_effect in Hex as [Es Ev]. unfold does, perform. rewrite (proj2 (N.eqb_neq _ _) Hnz). simpl. rewrite lookup_fmap. destruct (volumes c !! id) as [v|] eqn:Hv; simpl.
  - destruct Ev as (En & Ez & Ev). assert (same_disks δ c (applied term index (cat s))) as [Hd Eq] by (by apply same_disks_intro; [|apply Hok|apply offsets_same|..]).
    split; [done|]. rewrite bool_decide_true by done. rewrite image_size, Ez, N.eqb_refl. simpl. by rewrite Eq.
  - split.
    + apply (disks_ok_kept δ c); [done|by apply offsets_same| |]; cbn [volumes snapshots applied]; simpl.
      * intros id' v'. rewrite Ev. intros [[<- <-]|[_ Hv']]%lookup_insert_Some; [apply fits_empty; simpl; lia|by eapply dk_vols].
      * intros id' s'. rewrite Es. by apply dk_snaps.
    + unfold disks. simpl. rewrite Ev, Es, fmap_insert. unfold disk_of at 2. simpl. by rewrite image_empty.
Qed.

Lemma does_delete id : commits (DeleteVolume id) c c' → does δ (VDelete id) c c'.
Proof.
  intros Hcm. pose proof (λ Hq, commits_quiet _ _ _ Hq Hcm) as Hsp; specialize (Hsp I). destruct Hcm as (term & index & s & _ & Hex & ->).
  apply delete_volume_effect in Hex as (Es & [v Hv] & Ev). unfold does, perform. simpl. rewrite lookup_fmap, Hv. simpl. split.
  - apply (disks_ok_kept δ c); [done|by apply offsets_same| |]; simpl; rewrite ?Ev, ?Es; [intros id' v' [_ Hv']%lookup_delete_Some; by eapply dk_vols|by apply dk_snaps].
  - unfold disks. simpl. by rewrite Ev, Es, fmap_delete.
Qed.

Lemma does_resize id sz : sz < u64_max → commits (ResizeVolume id sz) c c' → does δ (VResize id sz) c c'.
Proof.
  intros Hsz Hcm. pose proof (λ Hq, commits_quiet _ _ _ Hq Hcm) as Hsp; specialize (Hsp I). destruct Hcm as (term & index & s & _ & Hex & ->).
  apply resize_volume_effect in Hex as (Es & v & Hv & Hle & Ev). pose proof (dk_vols _ _ Hc id v Hv) as Hf. unfold does, perform. simpl. rewrite lookup_fmap, Hv. simpl. split.
  - apply (disks_ok_kept δ c); [done|by apply offsets_same| |]; simpl; rewrite ?Ev, ?Es; [|by apply dk_snaps].
    intros id' v' [[<- <-]|[_ Hv']]%lookup_insert_Some; [by eapply fits_grow|by eapply dk_vols].
  - rewrite image_size, (proj2 (N.leb_le _ _) Hle). unfold disks. simpl. rewrite Ev, Es, fmap_insert. unfold disk_of at 2. simpl.
    by rewrite (fits_image _ _ _ _ sz Hf Hle), image_size.
Qed.

Lemma does_snapshot id vid name : commits (CreateSnapshot id vid name) c c' → does δ (SCreate id vid name) c c'.
Proof.
  intros Hcm. pose proof (λ Hq, commits_quiet _ _ _ Hq Hcm) as Hsp; specialize (Hsp I). destruct Hcm as (term & index & s & _ & Hex & ->).
  apply create_snapshot_effect in Hex as [Ev Es]. unfold does, perform. simpl. rewrite !lookup_fmap. destruct (snapshots c !! id) as [sn|] eqn:Hn; simpl.
  - destruct Es as (En & Ez & Es). assert (same_disks δ c (applied term index (cat s))) as [Hd Eq] by (by apply same_disks_intro; [|apply Hok|apply offsets_same|..]).
    split; [done|]. rewrite !bool_decide_true by done. simpl. by rewrite Eq.
  - destruct Es as (v & Hv & Es). rewrite Hv. simpl. split.
    + apply (disks_ok_kept δ c); [done|by apply offsets_same| |]; simpl; rewrite ?Ev, ?Es; [by apply dk_vols|].
      intros id' s' [[<- <-]|[_ Hs']]%lookup_insert_Some; [simpl; by eapply dk_vols|by eapply dk_snaps].
    + unfold disks. simpl. rewrite Ev, Es, fmap_insert. done.
Qed.

Lemma does_drop id : commits (DeleteSnapshot id) c c' → does δ (SDelete id) c c'.
Proof.
  intros Hcm. pose proof (λ Hq, commits_quiet _ _ _ Hq Hcm) as Hsp; specialize (Hsp I). destruct Hcm as (term & index & s & _ & Hex & ->).
  apply delete_snapshot_effect in Hex as (Ev & [v Hv] & Es). unfold does, perform. simpl. rewrite lookup_fmap, Hv. simpl. split.
  - apply (disks_ok_kept δ c); [done|by apply offsets_same| |]; simpl; rewrite ?Ev, ?Es; [by apply dk_vols|intros id' v' [_ Hv']%lookup_delete_Some; by eapply dk_snaps].
  - unfold disks. simpl. by rewrite Ev, Es, fmap_delete.
Qed.

Lemma does_clone id name sid sz : (∀ n, sz = Some n → n < u64_max) → commits (CloneSnapshot id name sid sz) c c' → does δ (VClone id sid name sz) c c'.
Proof.
  intros Hsz Hcm. pose proof (λ Hq, commits_quiet _ _ _ Hq Hcm) as Hsp; specialize (Hsp I). destruct Hcm as (term & index & s & _ & Hex & ->).
  apply clone_snapshot_effect in Hex as [Es Ev]. unfold does, perform. simpl. rewrite !lookup_fmap. destruct (volumes c !! id) as [v|] eqn:Hv; simpl.
  - destruct Ev as (En & Ev). assert (same_disks δ c (applied term index (cat s))) as [Hd Eq] by (by apply same_disks_intro; [|apply Hok|apply offsets_same|..]).
    split; [done|]. rewrite bool_decide_true by done. by rewrite Eq.
  - destruct Ev as (sn & n & Hn & Ev & Hpos & Hfl & Edef). rewrite Hn. simpl. pose proof (dk_snaps _ _ Hc sid sn Hn) as Hf. rewrite image_size.
    rewrite (proj2 (N.ltb_lt _ _) (fi_pos _ _ _ _ Hf)) in *. rewrite <- Edef, (proj2 (N.leb_le _ _) Hfl). assert (n < u64_max) as Hnb.
    { destruct sz as [n'|]; simpl in Edef; subst n; [by apply Hsz|apply Hf]. }
    split.
    + apply (disks_ok_kept δ c); [done|by apply offsets_same| |]; simpl; rewrite ?Ev, ?Es; [|by apply dk_snaps].
      intros id' v' [[<- <-]|[_ Hv']]%lookup_insert_Some; [simpl; by eapply fits_grow|by eapply dk_vols].
    + unfold disks. simpl. rewrite Ev, Es, fmap_insert. unfold disk_of at 2. simpl. by rewrite (fits_image _ _ _ _ n Hf Hfl), image_size.
Qed.

(** Maintenance does not change the disks. *)
Lemma same_reclaim x : sound c → commits (MarkExtentReclaimed x) c c' → same_disks δ c c'.
Proof.
  intros Hs (term & index & s & _ & Hex & ->). destruct (reclaim_effect _ _ _ _ Hs Hex) as (Ev & Es & m & _ & _ & Est & _). apply same_disks_intro; try done.
  intros y ext ext' Hy Hy'. change (statics (cat s) !! y = Some ext') in Hy'. rewrite Est in Hy'. apply lookup_delete_Some in Hy' as [_ Hy']. congruence.
Qed.

Lemma same_tier x key rs : sound c → commits (TierExtent x key rs) c c' → same_disks δ c c'.
Proof.
  intros Hs (term & index & s & _ & Hex & ->). destruct (tier_effect _ _ _ _ _ _ Hs Hex) as (Ev & Es & m & Hm & _ & _ & Est & _). apply same_disks_intro; try done.
  intros y ext ext' Hy Hy'. change (statics (cat s) !! y = Some ext') in Hy'. rewrite Est in Hy'. apply lookup_insert_Some in Hy' as [[<- <-]|[_ Hy']]; [|congruence].
  rewrite (statics_lookup _ _ _ Hm) in Hy. by injection Hy as <-.
Qed.

Lemma same_replace x old new :
  sound c → (∀ m, extents c !! x = Some m → placeable (spots c) (free c) (stored_len (extent m)) new) →
  commits (ReplaceReplica x old new) c c' → same_disks δ c c'.
Proof.
  intros Hs Hpl (term & index & s & _ & Hex & ->). destruct (replace_effect _ _ _ _ _ _ Hs Hpl Hex) as (Ev & Es & m & pos & Hm & _ & Est & _). apply same_disks_intro; try done.
  intros y ext ext' Hy Hy'. change (statics (cat s) !! y = Some ext') in Hy'. rewrite Est in Hy'. apply lookup_insert_Some in Hy' as [[<- <-]|[_ Hy']]; [|congruence].
  rewrite (statics_lookup _ _ _ Hm) in Hy. by injection Hy as <-.
Qed.

End commands.

(** ** Writes *)

(** The catalog with the new records, before a volume names them. *)
Definition with_extents (c : Catalog) (exts : list ExtentRef) : Catalog := foldl (λ c x, add_extent_ref x c) c exts.

Lemma with_extents_old c exts x ext :
  sound c → new_extents c exts → statics c !! x = Some ext → statics (with_extents c exts) !! x = Some ext.
Proof.
  intros Hs Hn Hx. destruct (new_extents_all exts c Hs Hn) as (_ & _ & _ & Hst & _). unfold with_extents. rewrite Hst. destruct (find _ exts) as [y|] eqn:Hf; [|done].
  apply find_some in Hf as [Hin%list_elem_of_In Heq%String.eqb_eq]. pose proof (ne_new _ _ Hn y Hin) as Hnone. apply statics_back in Hx as (m & Hm & _). congruence.
Qed.

Lemma with_extents_new c exts ext : sound c → new_extents c exts → ext ∈ exts → statics (with_extents c exts) !! eid ext = Some ext.
Proof.
  intros Hs Hn Hin. destruct (new_extents_all exts c Hs Hn) as (_ & _ & _ & Hst & _). unfold with_extents. rewrite Hst. destruct (find _ exts) as [y|] eqn:Hf.
  - apply find_some in Hf as [Hy%list_elem_of_In Heq%String.eqb_eq]. apply list_elem_of_lookup in Hin as [i Hi]. apply list_elem_of_lookup in Hy as [j Hj].
    pose proof (ne_ids _ _ Hn) as Hnd. rewrite NoDup_alt in Hnd. assert (i = j) as -> by (apply (Hnd i j (eid ext)); rewrite list_lookup_fmap; [by rewrite Hi|by rewrite Hj; simpl; f_equal]).
    congruence.
  - apply list_elem_of_In in Hin. pose proof (find_none _ _ Hf _ Hin) as Hne. simpl in Hne. by rewrite String.eqb_refl in Hne.
Qed.

Lemma map_ok_with δ c exts m sz : sound c → new_extents c exts → map_ok δ g c m sz → map_ok δ g (with_extents c exts) m sz.
Proof.
  intros Hs Hn Hm off x Hx. destruct (Hm off x Hx) as (H1 & H2 & mt & Hmt & Ho). split; [done|]. split; [done|].
  pose proof (with_extents_old c exts x _ Hs Hn (statics_lookup _ _ _ Hmt)) as (mt' & Hmt' & E)%statics_back. exists mt'. split; [done|]. by rewrite E.
Qed.

Lemma map_ok_installed δ c exts m sz off data cells :
  sound c → new_extents c exts → map_ok δ g c m sz → updates δ g m off data sz cells → cells_are δ cells exts →
  map_ok δ g (with_extents c exts) (installed_map m exts) sz.
Proof.
  intros Hs Hn Hm Hu Hcells k x Hx. destruct (installed_lookup δ m cells exts k (up_keys _ _ _ _ _ _ _ Hu) Hcells) as [(b & Hin & _ & ext & Hext & Hlk & Hb & Hlo)|[_ Hold]].
  - rewrite Hlk in Hx. injection Hx as <-. destruct (up_cell _ _ _ _ _ _ _ Hu _ Hin) as (? & ? & ? & _). split; [done|]. split; [by exists b|].
    pose proof (with_extents_new c exts ext Hs Hn Hext) as (mt & Hmt & E)%statics_back. exists mt. split; [done|]. by rewrite E.
  - rewrite Hold in Hx. by eapply map_ok_with.
Qed.

Lemma does_write δ c c' id v off data cells exts :
  disks_ok δ c → catalog_ok c' → sound c → new_extents c exts → volumes c !! id = Some v → off + size data <= v_size_bytes v → (0 < length data)%nat →
  updates δ g (v_extents v) off data (v_size_bytes v) cells → cells_are δ cells exts →
  installed_volume c id exts c' → does δ (VWrite id off data) c c'.
Proof.
  intros [Hvs Hsn] Hok Hs Hn Hv Hle Hdata Hu Hcells (Es & Hsp & v' & Hv' & Ev). rewrite Hv in Hv'. injection Hv' as <-. destruct (Hvs id v Hv) as [H1 H2 Hm]. split.
  - apply (disks_ok_kept δ (with_extents c exts)); [done|by apply offsets_same| |]; rewrite ?Ev, ?Es.
    + intros id' v' [[<- <-]|[_ Hv']]%lookup_insert_Some; [split; [done|done|by eapply map_ok_installed]|]. destruct (Hvs id' v' Hv'). split; try done. by apply map_ok_with.
    + intros id' s' Hs'. destruct (Hsn id' s' Hs'). split; try done. by apply map_ok_with.
  - unfold perform. destruct (Nat.eqb_spec (length data) 0); [lia|]. simpl. rewrite lookup_fmap, Hv. simpl. rewrite image_size, (proj2 (N.leb_le _ _) Hle).
    unfold disks. simpl. rewrite Ev, Es, fmap_insert. unfold disk_of at 2. simpl. by rewrite <- (image_written _ _ _ _ _ _ _ _ grid_pos Hu Hcells Hle).
Qed.

End spec.
End EngineSpec.
