(* ===== verification/EngineOps.v ===== *)
(** * The engine's operations

    Every operation of the engine does to the disks what it promises, or fails: then the
    disks are as before, or the operation took place all the same.  An operation never
    panics, and never disturbs what another one has in flight. *)

From S2P Require Import Prelude MetaError FreeList Ec Catalog Extents Metadata Space MetaSpace MetaRefs MetaSpec NativeError Device Objects Placement Inflight Engine EngineRead EngineWrite EngineRepair EngineMeta EngineData EngineInv EnginePlace EngineCat EngineRange EngineBatch EngineCommit EngineDisks EngineSpec.

Module EngineOps.
Import Placement Catalog Extents Metadata Space MetaSpace MetaSpec NativeError Device Objects Engine EngineRead EngineWrite EngineRepair EngineMeta EngineData EngineInv EnginePlace EngineCat EngineRange EngineBatch EngineCommit EngineDisks EngineSpec.

Open Scope N_scope.

Section ops.
Context {D O : Type} {BD : BlockStore D} {LD : BlockStoreLaws D} {BO : ObjectStore O} {LO : ObjectStoreLaws O} {P : EngineParams} {POk : ParamsOk P}.

Abbreviation Eng := (Engine D O).
Abbreviation E := (SM Eng NativeError).
Implicit Types e : Eng.
Abbreviation g := (extent_bytes cfg).

(** ** After an operation *)

(** What others have in flight is left alone: records are new or were there, and
    leases stay. *)
Record keeps (δ : gmap ExtentId bytes) (e e' : Eng) : Prop := {
  kp_new x : is_Some (extents (catalog e') !! x) → is_Some (extents (catalog e) !! x) ∨ δ !! x = None;
  kp_tokens t : is_Some (Inflight.held (inflight e) !! t) → is_Some (Inflight.held (inflight e') !! t);
}.

Record after (δ δ' : gmap ExtentId bytes) (L : list Claim) (e e' : Eng) : Prop := {
  af_sub : δ ⊆ δ';
  af_keeps : keeps δ e e';
  af_inv : inv δ' L e';
  af_disks : disks_ok δ' (catalog e');
}.

Lemma keeps_trans δ δ1 e e1 e2 : δ ⊆ δ1 → keeps δ e e1 → keeps δ1 e1 e2 → keeps δ e e2.
Proof.
  intros Hs [Hn1 Ht1] [Hn2 Ht2]. split; [|auto]. intros x [|Hx]%Hn2; [by apply Hn1|right]. by eapply lookup_weaken_None.
Qed.

Lemma after_trans δ δ1 δ2 L L1 e e1 e2 : after δ δ1 L1 e e1 → after δ1 δ2 L e1 e2 → after δ δ2 L e e2.
Proof. intros [Hs1 Hk1 _ _] [Hs2 Hk2 Hi Hd]. split; [by etrans| |done|done]. by eapply keeps_trans. Qed.

Lemma after_calm δ L e e' : inv δ L e → disks_ok δ (catalog e) → calm e e' → after δ δ L e e' ∧ catalog e' = catalog e.
Proof.
  intros Hi Hd Hc. assert (catalog e' = catalog e) as Ec by apply Hc. split; [|done]. split; [done| |by eapply inv_calm|by rewrite Ec].
  split; [rewrite Ec; by left|]. by rewrite (cm_inflight _ _ Hc).
Qed.

(** [m] performs [op]. *)
Definition serves {A} (δ : gmap ExtentId bytes) (L : list Claim) (e : Eng) (op : Op) (out : A → bytes) (m : E A) : Prop :=
  wp m e (λ a e', ∃ δ', after δ δ' L e e' ∧ perform op (disks δ (catalog e)) = Some (disks δ' (catalog e'), out a))
    (λ _ e', ∃ δ', after δ δ' L e e' ∧
      (disks δ' (catalog e') = disks δ (catalog e) ∨ ∃ b, perform op (disks δ (catalog e)) = Some (disks δ' (catalog e'), b))).

(** ** Commits *)

Lemma inflight_eta (e : Eng) : e <| inflight := inflight e |> = e.
Proof. by destruct e. Qed.

Lemma committed δ L L' cmd e :
  inv δ (L' ++ L) e → accepts (catalog e) cmd → (∀ c', catalog_ok c' → commits cmd (catalog e) c' → becomes δ L' e c') →
  wp (commit cmd) e
    (λ _ e', meta_only e e' ∧ (commits cmd (catalog e) (catalog e') ∧ catalog_ok (catalog e')) ∧
      ∀ s', leases_after L' L (inflight e) s' → inv δ L (e' <| inflight := s' |>))
    (λ err e', meta_only e e' ∧ Inflight.unknown err = false ∧
      (catalog e' = catalog e ∨ commits cmd (catalog e) (catalog e') ∧ catalog_ok (catalog e')) ∧
      ∀ s', leases_after L' L (inflight e) s' → inv δ L (e' <| inflight := s' |>)).
Proof.
  intros Hi Ha Hb. pose proof (iv_cat _ _ _ Hi) as Hok. eapply wp_mono; [apply commit_effect; [apply Hi|done|done]| |].
  - intros [] e' (Hm & Hd & Hc). pose proof (commits_ok _ _ _ Hok Ha Hc) as Hok'. split_and!; try done. intros s' Hs'. eapply inv_becomes; [exact Hi|done|done|by apply Hb|done].
  - intros err e' (Hm & Hd & Hc & Herr). split; [done|]. split; [by destruct err|]. destruct Hc as [Hc|Hc].
    + split; [by left|]. intros s' Hs'. eapply (inv_becomes δ L []); [eapply inv_fewer; exact Hi|done|done| |].
      * eapply becomes_quiet; [exact Hi|by rewrite Hc|]. by rewrite Hc.
      * destruct Hs' as [[-> ->]|(tok & -> & _ & HL)]; [by left|]. right. by exists tok.
    + pose proof (commits_ok _ _ _ Hok Ha Hc) as Hok'. split; [by right|]. intros s' Hs'. eapply inv_becomes; [exact Hi|done|done|by apply Hb|done].
Qed.

(** Commands with nothing in flight. *)
Lemma inv_no_lease δ L e e' : meta_only e e' → (∀ s', leases_after [] L (inflight e) s' → inv δ L (e' <| inflight := s' |>)) → inv δ L e'.
Proof. intros Hm Hs. rewrite <- (inflight_eta e'), (mo_inflight _ _ Hm). apply Hs. by left. Qed.

Lemma keeps_meta δ L e e' : inv δ L e → meta_only e e' → (∀ x, is_Some (extents (catalog e') !! x) → is_Some (extents (catalog e) !! x) ∨ δ !! x = None) → keeps δ e e'.
Proof. intros Hi Hm Hx. split; [done|]. by rewrite (mo_inflight _ _ Hm). Qed.

Lemma statics_some c x : is_Some (statics c !! x) ↔ is_Some (extents c !! x).
Proof. unfold statics. by rewrite lookup_fmap, fmap_is_Some. Qed.

Lemma op_quiet δ L e cmd op :
  inv δ L e → disks_ok δ (catalog e) → quiet_command cmd →
  (∀ c', catalog_ok c' → commits cmd (catalog e) c' → does δ op (catalog e) c') →
  serves δ L e op (λ _, []) (commit cmd).
Proof.
  intros Hi Hd Hq Hop. assert (accepts (catalog e) cmd) as Ha by (by destruct cmd).
  assert (∀ e', meta_only e e' → commits cmd (catalog e) (catalog e') → catalog_ok (catalog e') → inv δ L e' →
    after δ δ L e e' ∧ perform op (disks δ (catalog e)) = Some (disks δ (catalog e'), [])) as Hdone.
  { intros e' Hm Hc Hok' Hi'. destruct (Hop _ Hok' Hc) as [Hd' Hp]. split; [|done]. split; [done| |done|done]. eapply keeps_meta; [done|done|].
    destruct (commits_quiet _ _ _ Hq Hc) as [Hst _]. intros x Hx. left. apply statics_some. rewrite <- Hst. by apply statics_some. }
  eapply wp_mono; [apply (committed δ L [] cmd e); [done|done|]| |].
  - intros c' Hok' Hc. eapply becomes_quiet; [done|done|by eapply commits_quiet].
  - intros [] e' (Hm & [Hc Hok'] & Hs). exists δ. apply Hdone; try done. by eapply inv_no_lease.
  - intros err e' (Hm & _ & Hc & Hs). exists δ. assert (inv δ L e') as Hi' by (by eapply inv_no_lease). destruct Hc as [Hc|[Hc Hok']].
    + split; [|left; by rewrite Hc]. split; [done| |done|by rewrite Hc]. eapply keeps_meta; [done|done|]. rewrite Hc. by left.
    + destruct (Hdone e' Hm Hc Hok' Hi') as [? ?]. split; [done|]. right. by eexists.
Qed.

(** ** Operations on volumes and snapshots *)

Lemma serves_ret {A B} δ L e op (m : E A) (f : A → B) (out : B → bytes) : serves δ L e op (λ a, out (f a)) m → serves δ L e op out (a ← m; mret (f a)).
Proof. intros Hm. unfold serves in *. rewrite wp_bind. eapply wp_mono; [exact Hm| |done]. intros a e' H. by rewrite wp_ret. Qed.

Lemma serves_err {A} δ L e op (out : A → bytes) err : inv δ L e → disks_ok δ (catalog e) → serves δ L e op out (sm_err err).
Proof. intros Hi Hd. unfold serves. rewrite wp_err. exists δ. split; [|by left]. by apply after_calm. Qed.

Section volume_ops.
Context (δ : gmap ExtentId bytes) (L : list Claim) (e : Eng) (Hi : inv δ L e) (Hd : disks_ok δ (catalog e)).

Lemma serves_create id name sz : sz < u64_max → serves δ L e (VCreate id name sz) (λ _, []) (create_volume_as id name sz).
Proof.
  intros Hsz. unfold create_volume_as. destruct (N.eqb_spec sz 0); [by apply serves_err|].
  apply (serves_ret _ _ _ _ _ (λ _ : (), id)), op_quiet; [done|done|done|]. intros c' Hok. by apply does_create.
Qed.

Lemma serves_delete id : serves δ L e (VDelete id) (λ _, []) (delete_volume id).
Proof. apply op_quiet; [done|done|done|]. intros c' Hok. by apply does_delete. Qed.

Lemma serves_resize id sz : sz < u64_max → serves δ L e (VResize id sz) (λ _, []) (resize_volume id sz).
Proof. intros Hsz. apply op_quiet; [done|done|done|]. intros c' Hok. by apply does_resize. Qed.

Lemma serves_clone id sid name sz : (∀ n, sz = Some n → n < u64_max) → serves δ L e (VClone id sid name sz) (λ _, []) (clone_snapshot_as id sid name sz).
Proof. intros Hsz. apply (serves_ret _ _ _ _ _ (λ _ : (), id)), op_quiet; [done|done|done|]. intros c' Hok. by apply does_clone. Qed.

Lemma serves_snapshot id vid name : serves δ L e (SCreate id vid name) (λ _, []) (create_snapshot_as id vid name).
Proof. apply (serves_ret _ _ _ _ _ (λ _ : (), id)), op_quiet; [done|done|done|]. intros c' Hok. by apply does_snapshot. Qed.

Lemma serves_drop id : serves δ L e (SDelete id) (λ _, []) (delete_snapshot id).
Proof. apply op_quiet; [done|done|done|]. intros c' Hok. by apply does_drop. Qed.

End volume_ops.

(** ** Reads *)

(** The content of every extent of the map is known. *)
Definition stocked (δ : gmap ExtentId bytes) (m : gmap N ExtentId) : Prop := ∀ k x, m !! k = Some x → is_Some (δ !! x).

Lemma map_ok_stocked δ c m sz : map_ok δ g c m sz → stocked δ m.
Proof. intros Hm k x Hx. destruct (Hm k x Hx) as (_ & (b & Hb & _) & _). by eexists. Qed.

(** What the lookup of a read finds, and what it returns from then on. *)
Lemma volume_range_spec δ L e id off n :
  inv δ L e → disks_ok δ (catalog e) →
  match volume_range id off n (catalog e) with
  | Ok l => ∃ m, looked_up δ g m l off n ∧ stocked δ m ∧ perform (VRead id off n) (disks δ (catalog e)) = Some (disks δ (catalog e), slice δ g m off n)
  | Err _ => perform (VRead id off n) (disks δ (catalog e)) = None
  | Panic => False
  end.
Proof.
  intros Hi Hd. unfold volume_range, perform. simpl. rewrite lookup_fmap. destruct (volumes (catalog e) !! id) as [v|] eqn:Hv; simpl; [|done].
  destruct (dk_vols _ _ Hd id v Hv) as [_ Hmax Hm]. pose proof (extents_in_spec δ L e g (v_extents v) (v_size_bytes v) off n Hi grid_pos Hm (u64_below _ Hmax)) as Hx.
  unfold bytes_in. rewrite image_size. destruct (extents_in _ _ _ _ _ _) as [l|err|]; [| |done].
  - destruct Hx as [Hle Hl]. exists (v_extents v). split; [done|]. split; [by eapply map_ok_stocked|]. rewrite (proj2 (N.leb_le _ _) Hle). simpl. by rewrite (image_slice _ _ _ _ _ _ Hle).
  - by rewrite (proj2 (N.leb_gt _ _) Hx).
Qed.

Lemma snapshot_range_spec δ L e id off n :
  inv δ L e → disks_ok δ (catalog e) →
  match snapshot_range id off n (catalog e) with
  | Ok l => ∃ m, looked_up δ g m l off n ∧ stocked δ m ∧ perform (SRead id off n) (disks δ (catalog e)) = Some (disks δ (catalog e), slice δ g m off n)
  | Err _ => perform (SRead id off n) (disks δ (catalog e)) = None
  | Panic => False
  end.
Proof.
  intros Hi Hd. unfold snapshot_range, perform. simpl. rewrite lookup_fmap. destruct (snapshots (catalog e) !! id) as [s|] eqn:Hs; simpl; [|done].
  destruct (dk_snaps _ _ Hd id s Hs) as [Hpos Hmax Hm]. rewrite (proj2 (N.ltb_lt _ _) Hpos).
  pose proof (extents_in_spec δ L e g (s_extents s) (s_size_bytes s) off n Hi grid_pos Hm (u64_below _ Hmax)) as Hx.
  unfold bytes_in. rewrite image_size. destruct (extents_in _ _ _ _ _ _) as [l|err|]; [| |done].
  - destruct Hx as [Hle Hl]. exists (s_extents s). split; [done|]. split; [by eapply map_ok_stocked|]. rewrite (proj2 (N.leb_le _ _) Hle). simpl. by rewrite (image_slice _ _ _ _ _ _ Hle).
  - by rewrite (proj2 (N.leb_gt _ _) Hx).
Qed.

Lemma serves_fetch δ L e op l m off n :
  inv δ L e → disks_ok δ (catalog e) → looked_up δ g m l off n → perform op (disks δ (catalog e)) = Some (disks δ (catalog e), slice δ g m off n) →
  serves δ L e op (λ b, b) (read_range l off n).
Proof.
  intros Hi Hd Hl Hp. eapply wp_mono; [exact (read_range_spec δ L g m off n grid_pos (lu_bound _ _ _ _ _ _ Hl) l Hl e Hi)| |].
  - intros out e' [Hc ->]. exists δ. destruct (after_calm _ _ _ _ Hi Hd Hc) as [? Ec]. split; [done|]. by rewrite Ec.
  - intros err e' Hc. exists δ. destruct (after_calm _ _ _ _ Hi Hd Hc) as [? Ec]. split; [done|]. left. by rewrite Ec.
Qed.

Lemma serves_read δ L e id off n : inv δ L e → disks_ok δ (catalog e) → serves δ L e (VRead id off n) (λ b, b) (read id off n).
Proof.
  intros Hi Hd. pose proof (volume_range_spec δ L e id off n Hi Hd) as Hr. unfold read, serves. wp_simpl. destruct (volume_range _ _ _ _) as [l|err|]; [| |done].
  - destruct Hr as (m & Hl & _ & Hp). wp_simpl. by eapply serves_fetch.
  - wp_simpl. exists δ. split; [by apply after_calm|by left].
Qed.

Lemma serves_read_snapshot δ L e id off n : inv δ L e → disks_ok δ (catalog e) → serves δ L e (SRead id off n) (λ b, b) (read_snapshot id off n).
Proof.
  intros Hi Hd. pose proof (snapshot_range_spec δ L e id off n Hi Hd) as Hr. unfold read_snapshot, serves. wp_simpl. destruct (snapshot_range _ _ _ _) as [l|err|]; [| |done].
  - destruct Hr as (m & Hl & _ & Hp). wp_simpl. by eapply serves_fetch.
  - wp_simpl. exists δ. split; [by apply after_calm|by left].
Qed.

End ops.
End EngineOps.
