(* ===== verification/EngineWrites.v ===== *)
(** * Writes

    The two ways of [engine.rs] to write: whole cells, placed first and committed later,
    and parts of cells.  Either is one change of the disk. *)

From S2P Require Import Prelude MetaError FreeList Ec Catalog Extents Metadata Space MetaSpace MetaRefs MetaSpec NativeError Device Objects Placement Inflight Engine EngineRead EngineWrite EngineRepair EngineMeta EngineData EngineInv EnginePlace EngineCat EngineRange EngineBatch EngineCommit EngineDisks EngineSpec EngineOps.

Module EngineWrites.
Import Placement Catalog Extents Metadata Space MetaSpace MetaSpec NativeError Device Objects Engine EngineRead EngineWrite EngineRepair EngineMeta EngineData EngineInv EnginePlace EngineCat EngineRange EngineBatch EngineCommit EngineDisks EngineSpec EngineOps.

Open Scope N_scope.

Section writes.
Context {D O : Type} {BD : BlockStore D} {LD : BlockStoreLaws D} {BO : ObjectStore O} {LO : ObjectStoreLaws O} {P : EngineParams} {POk : ParamsOk P}.

Abbreviation Eng := (Engine D O).
Abbreviation E := (SM Eng NativeError).
Implicit Types e : Eng.
Abbreviation g := (extent_bytes cfg).

(** ** Leases *)

(** A lease no one else has. *)
Record fresh_lease (δ : gmap ExtentId bytes) (L : list Claim) (e e' : Eng) (tok : N) : Prop := {
  fl_inv : inv δ L e';
  fl_catalog : catalog e' = catalog e;
  fl_held : is_Some (Inflight.held (inflight e') !! tok);
  fl_new : Inflight.held (inflight e) !! tok = None;
  fl_others t : t ≠ tok → Inflight.held (inflight e') !! t = Inflight.held (inflight e) !! t;
}.

Lemma lease_spec δ L e : inv δ L e → wp lease e (λ tok e', fresh_lease δ L e e' tok) (λ _ _, False).
Proof.
  intros Hi. unfold lease, wp. pose proof (Inflight.lease_consistent _ _ (iv_hold _ _ _ Hi)) as [Hc Hn].
  assert (Inflight.ranges (Inflight.lease (inflight e)).1 ≡ₚ Inflight.ranges (inflight e)) as Hr.
  { unfold Inflight.ranges. simpl in *. by rewrite Inflight.values_insert, delete_id. }
  assert (Inflight.held (Inflight.lease (inflight e)).1 = <[(Inflight.lease (inflight e)).2 := []]> (Inflight.held (inflight e))) as Hh by done.
  destruct (Inflight.lease (inflight e)) as [s tok]. cbn [fst snd] in *. split.
  - eapply (inv_evolves untouched δ L e); [done|by split; [|intros i k d Hd; exists d; split; [exact Hd|apply device_grows_refl]]|done|done|apply objects_refl|exact Hc| | |intros fr nd k b; simpl; rewrite Hr; by eapply iv_leased|done]; simpl.
    + intros t Ht. rewrite Hh. by apply lookup_insert_is_Some'; right.
    + intros t fr. unfold leased. rewrite Hh. destruct (decide (t = tok)) as [->|Hne]; [rewrite Hn; by intros ?%elem_of_nil|by rewrite lookup_insert_ne].
  - done.
  - simpl. rewrite Hh, lookup_insert_eq. by eexists.
  - done.
  - intros t Hne. simpl. by rewrite Hh, lookup_insert_ne.
Qed.

Lemma fresh_token δ L e e' tok : inv δ L e → fresh_lease δ L e e' tok → Forall (λ cl, cl_token cl ≠ tok) L.
Proof.
  intros Hi Hf. eapply Forall_impl; [apply (iv_claims _ _ _ Hi)|]. intros cl Hcl <-. destruct (cl_open _ _ Hcl) as [x Hx]. pose proof (fl_new _ _ _ _ _ Hf). congruence.
Qed.

(** A lease that is given back with nothing committed. *)
Lemma inv_release δ L L' e tok :
  inv δ (L' ++ L) e → Forall (λ cl, cl_token cl ≠ tok) L → inv δ L (e <| inflight ::= Inflight.release tok |>).
Proof.
  intros Hi HL. apply inv_fewer in Hi. apply (inv_becomes δ L [] e e); [done|done|apply Hi| |right; by exists tok]. by eapply becomes_quiet; [done|apply Hi|].
Qed.

Lemma release_held tok s t : t ≠ tok → Inflight.held (Inflight.release tok s) !! t = Inflight.held s !! t.
Proof. intros Ht. destruct (release_ranges tok s) as [_ H]. by apply H. Qed.

(** ** Committing what is placed *)

(** The extents [exts] are placed under the lease [tok], and no one knows them yet. *)
Record ready (δ : gmap ExtentId bytes) (L L' : list Claim) (e : Eng) (tok : N) (exts : list ExtentRef) : Prop := {
  rd_inv : inv δ (L' ++ L) e;
  rd_prepared : prepared δ tok exts L';
  rd_ids : NoDup (eid <$> exts);
  rd_new ext : ext ∈ exts → extents (catalog e) !! eid ext = None;
  rd_others : Forall (λ cl, cl_token cl ≠ tok) L;
}.

(** After the commit and the end of the lease. *)
Record landed (δ : gmap ExtentId bytes) (L : list Claim) (e e' : Eng) (tok : N) (exts : list ExtentRef) : Prop := {
  ld_inv : inv δ L e';
  ld_disks : disks_ok δ (catalog e');
  ld_new x : is_Some (extents (catalog e') !! x) → is_Some (extents (catalog e) !! x) ∨ x ∈ eid <$> exts;
  ld_tokens t : t ≠ tok → is_Some (Inflight.held (inflight e) !! t) → is_Some (Inflight.held (inflight e') !! t);
}.

Lemma ready_new δ L L' e tok exts : ready δ L L' e tok exts → new_extents (catalog e) exts.
Proof. intros [Hi Hp Hn Hx _]. by eapply prepared_new. Qed.

(** Nothing was committed. *)
Lemma landed_not δ L L' e e' tok exts :
  ready δ L L' e tok exts → disks_ok δ (catalog e) → catalog e' = catalog e → inflight e' = inflight e →
  inv δ L (e' <| inflight ::= Inflight.release tok |>) → landed δ L e (e' <| inflight ::= Inflight.release tok |>) tok exts.
Proof.
  intros Hr Hd Ec Ein Hi. split; [done|simpl; by rewrite Ec|simpl; rewrite Ec; by left|]. intros t Ht. simpl. by rewrite Ein, release_held.
Qed.

Lemma commit_placed δ L L' e tok exts id v off data cells cmd :
  ready δ L L' e tok exts → disks_ok δ (catalog e) → volumes (catalog e) !! id = Some v → off + size data <= v_size_bytes v → (0 < length data)%nat →
  updates δ g (v_extents v) off data (v_size_bytes v) cells → cells_are δ cells exts →
  accepts (catalog e) cmd → (∀ c', commits cmd (catalog e) c' → installed_volume (catalog e) id exts c') →
  wp (settling tok (commit cmd)) e
    (λ _ e', landed δ L e (e' <| inflight ::= Inflight.release tok |>) tok exts ∧
      perform (VWrite id off data) (disks δ (catalog e)) = Some (disks δ (catalog e'), []))
    (λ _ e', landed δ L e (e' <| inflight ::= Inflight.release tok |>) tok exts ∧
      (disks δ (catalog e') = disks δ (catalog e) ∨ perform (VWrite id off data) (disks δ (catalog e)) = Some (disks δ (catalog e'), []))).
Proof.
  intros Hr Hd Hv Hle Hdata Hu Hcells Ha Hcmd. pose proof (ready_new _ _ _ _ _ _ Hr) as Hne. pose proof Hr as [Hi Hp Hn Hx Hot]. pose proof (ok_space _ (iv_cat _ _ _ Hi)) as Hs.
  assert (leases_after L' L (inflight e) (Inflight.release tok (inflight e))) as Hla by (right; exists tok; split_and!; [done|by eapply prepared_token|done]).
  assert (∀ e', meta_only e e' → commits cmd (catalog e) (catalog e') → catalog_ok (catalog e') → inv δ L (e' <| inflight := Inflight.release tok (inflight e) |>) →
    landed δ L e (e' <| inflight ::= Inflight.release tok |>) tok exts ∧ perform (VWrite id off data) (disks δ (catalog e)) = Some (disks δ (catalog e'), [])) as Hdone.
  { intros e' Hm Hc Hok' Hi'. rewrite <- (mo_inflight _ _ Hm) in Hi'. specialize (Hcmd _ Hc). destruct (does_write δ _ _ id v off data cells exts Hd Hok' Hs Hne Hv Hle Hdata Hu Hcells Hcmd) as [Hd' Hp'].
    split; [|done]. split; [done|done| |intros t Ht; simpl; by rewrite (mo_inflight _ _ Hm), release_held].
    intros x [ext Hext]%statics_some. destruct Hcmd as (_ & [Hst _] & _). destruct (new_extents_all exts (catalog e) Hs Hne) as (_ & _ & _ & Hlk & _).
    change (statics (catalog e') !! x = Some ext) in Hext. rewrite Hst, Hlk in Hext. destruct (find _ exts) as [y|] eqn:Hf; [right|left; apply statics_some; by eexists].
    apply find_some in Hf as [Hin%list_elem_of_In <-%String.eqb_eq]. by apply list_elem_of_fmap_2. }
  unfold settling, wp. pose proof (committed δ L L' cmd e Hi Ha) as Hcm. unfold wp in Hcm.
  assert (∀ c', catalog_ok c' → commits cmd (catalog e) c' → becomes δ L' e c') as Hbc by (intros c' Hok' Hc; eapply becomes_install; [exact Hi|exact Hp|done|done|done|by apply (Hcmd c')]).
  specialize (Hcm Hbc). destruct (commit cmd e) as [e' [[]|err|]]; [| |done].
  - destruct Hcm as (Hm & [Hc Hok'] & Hi'). by apply Hdone; [..|apply Hi'].
  - destruct Hcm as (Hm & Hun & Hc & Hi'). assert ((settle tok err e').1 = e') as -> by (unfold settle; by rewrite Hun). destruct Hc as [Hc|[Hc Hok']].
    + split; [|left; by rewrite Hc]. eapply landed_not; [done|done|done|apply Hm|]. specialize (Hi' _ Hla). by rewrite <- (mo_inflight _ _ Hm) in Hi'.
    + destruct (Hdone e' Hm Hc Hok' (Hi' _ Hla)) as [? ?]. split; [done|by right].
Qed.

(** Several extents, or one. *)
Lemma accepts_install δ L L' e tok exts id : ready δ L L' e tok exts → accepts (catalog e) (InstallExtents id exts).
Proof.
  intros Hr. destruct (new_extents_all exts (catalog e) (ok_space _ (iv_cat _ _ _ (rd_inv _ _ _ _ _ _ Hr))) (ready_new _ _ _ _ _ _ Hr)) as [Ha _]. by repeat split.
Qed.
Lemma accepts_install_one δ L L' e tok ext id off : ready δ L L' e tok [ext] → accepts (catalog e) (InstallExtent id off ext).
Proof.
  intros Hr. destruct (new_extents_all [ext] (catalog e) (ok_space _ (iv_cat _ _ _ (rd_inv _ _ _ _ _ _ Hr))) (ready_new _ _ _ _ _ _ Hr)) as [[Ha _] _]. by repeat split.
Qed.

Lemma commits_install δ L L' e tok exts id c' : ready δ L L' e tok exts → commits (InstallExtents id exts) (catalog e) c' → installed_volume (catalog e) id exts c'.
Proof.
  intros Hr (term & index & s & _ & Hex & ->). apply install_extents_effect in Hex; [exact Hex|apply (iv_cat _ _ _ (rd_inv _ _ _ _ _ _ Hr))|by eapply ready_new].
Qed.
Lemma commits_install_one δ L L' e tok ext id c' :
  ready δ L L' e tok [ext] → commits (InstallExtent id (logical_offset ext) ext) (catalog e) c' → installed_volume (catalog e) id [ext] c'.
Proof.
  intros Hr (term & index & s & _ & Hex & ->). apply install_extent_effect in Hex; [exact Hex|apply (iv_cat _ _ _ (rd_inv _ _ _ _ _ _ Hr))|by eapply ready_new|done].
Qed.

(** ** Whole cells *)

Lemma in_bounds_spec δ c id off data :
  disks_ok δ c →
  match in_bounds id off data c with
  | Ok _ => ∃ v, volumes c !! id = Some v ∧ off + size data <= v_size_bytes v ∧ v_size_bytes v < u64_max
  | Err _ => True
  | Panic => False
  end.
Proof.
  intros Hd. unfold in_bounds. destruct (volumes c !! id) as [v|] eqn:Hv; simpl; [|done]. pose proof (fi_max _ _ _ _ (dk_vols _ _ Hd id v Hv)) as Hmax.
  unfold u64_saturating_add. destruct (N.ltb_spec (v_size_bytes v) (N.min u64_max (off + size data))); [done|]. exists v. split_and!; [done|lia|done].
Qed.

(** A write of whole cells between its placement and its commit. *)
Record pending (δ : gmap ExtentId bytes) (e : Eng) (L' : list Claim) (a : Aligned) (id : string) (off : N) (data : bytes) : Prop := {
  pn_target : al_target a = TVolume id;
  pn_data : (0 < length data)%nat;
  pn_off : off mod g = 0;
  pn_size : size data mod g = 0;
  pn_prepared : prepared δ (al_token a) (al_placed a) L';
  pn_ids : NoDup (eid <$> al_placed a);
  pn_new ext : ext ∈ al_placed a → extents (catalog e) !! eid ext = None;
  pn_cells : cells_are δ (whole_cells g off data) (al_placed a);
  pn_held : is_Some (Inflight.held (inflight e) !! al_token a);
}.

(** The engine after the placement. *)
Record begun (δ δ' : gmap ExtentId bytes) (L L' : list Claim) (e e' : Eng) (a : Aligned) (id : string) (off : N) (data : bytes) : Prop := {
  bg_sub : δ ⊆ δ';
  bg_inv : inv δ' (L' ++ L) e';
  bg_catalog : catalog e' = catalog e;
  bg_pending : pending δ' e' L' a id off data;
  bg_fresh : Inflight.held (inflight e) !! al_token a = None;
  bg_tokens t : is_Some (Inflight.held (inflight e) !! t) → is_Some (Inflight.held (inflight e') !! t);
  bg_unknown ext : ext ∈ al_placed a → δ !! eid ext = None;
}.

(** A lease that ends without a commit. *)
Lemma after_release δ δ' L e e1 e2 tok :
  inv δ L e → disks_ok δ (catalog e) → δ ⊆ δ' → fresh_lease δ L e e1 tok → busy e1 e2 → inv δ' L e2 →
  after δ δ' L e (e2 <| inflight ::= Inflight.release tok |>) ∧ catalog e2 = catalog e.
Proof.
  intros Hi Hd Hs Hf Hb Hi2. assert (catalog e2 = catalog e) as Ec by (rewrite <- (fl_catalog _ _ _ _ _ Hf); apply Hb). split; [|done]. split; [done| | |simpl; rewrite Ec; by apply (disks_mono δ)].
  - split; [simpl; rewrite Ec; by left|]. intros t [x Hx]. simpl. assert (t ≠ tok) as Hne by (intros ->; pose proof (fl_new _ _ _ _ _ Hf); congruence).
    rewrite release_held by done. apply (bz_tokens _ _ Hb). rewrite (fl_others _ _ _ _ _ Hf) by done. by eexists.
  - apply (inv_release δ' L []); [done|]. exact (fresh_token _ _ _ _ _ Hi Hf).
Qed.

Lemma aligned_begin_spec δ L e id off data :
  inv δ L e → disks_ok δ (catalog e) →
  wp (aligned_begin (TVolume id) off data (in_bounds id off data)) e
    (λ o e', match o with Some a => ∃ δ' L', begun δ δ' L L' e e' a id off data | None => e' = e end)
    (λ _ e', ∃ δ', after δ δ' L e e' ∧ catalog e' = catalog e).
Proof.
  intros Hi Hd. unfold aligned_begin. destruct (Nat.eqb_spec (length data) 0) as [|Hne]; [by wp_simpl|]. unfold write_fence. wp_simpl. simpl grid. cbv beta iota.
  destruct (N.eqb_spec (off mod g) 0) as [Ho|]; [|cbn [negb orb]; by wp_simpl]. destruct (N.eqb_spec (size data mod g) 0) as [Hs|]; [|cbn [negb orb]; by wp_simpl]. cbn [negb orb].
  pose proof (in_bounds_spec δ (catalog e) id off data Hd) as Hb. wp_simpl. destruct (in_bounds id off data (catalog e)) as [[]|err|]; [|wp_simpl; exists δ; by apply after_calm|done].
  destruct Hb as (v & Hv & Hle & Hmax). pose proof (u64_below _ Hmax) as Hmax'. wp_simpl. eapply wp_mono; [by apply lease_spec| |done]. intros tok e1 Hf.
  assert (cells_small (whole_cells g off data)) as Hsmall by (apply whole_small; [apply grid_pos|apply grid_bound|done|lia]).
  pose proof (placed_cells δ L tok 0 (whole_cells g off data) Hsmall e1 (fl_inv _ _ _ _ _ Hf) (fl_held _ _ _ _ _ Hf)) as Hp. unfold wp, stepping in *.
  destruct (place_cells _ _ _ e1) as [e2 [exts|err|]]; [| |done].
  - destruct Hp as (Hbz & δ' & L' & Hsub & [Hprep Hids Hnew Hcells] & Hi2). exists δ', L'. assert (catalog e2 = catalog e) as Ec by (rewrite <- (fl_catalog _ _ _ _ _ Hf); apply Hbz).
    split; try done.
    + split; try done; simpl; [lia| |by apply (bz_tokens _ _ Hbz), Hf]. intros ext Hext. rewrite Ec. destruct (extents (catalog e) !! eid ext) as [m|] eqn:Hm; [|done].
      destruct (iv_ext _ _ _ Hi _ _ Hm) as (_ & b & ps & Hδ & _). pose proof (Hnew ext Hext). congruence.
    + apply Hf.
    + intros t [x Ht]. apply (bz_tokens _ _ Hbz). rewrite (fl_others _ _ _ _ _ Hf); [by eexists|]. intros ->. pose proof (fl_new _ _ _ _ _ Hf). congruence.
  - destruct Hp as (Hbz & δ' & Hsub & Hi2). exists δ'. destruct (after_release _ _ _ _ _ _ _ Hi Hd Hsub Hf Hbz Hi2) as [? ?]; by split.
Qed.

Lemma pending_ready δ L L' e a id off data :
  inv δ (L' ++ L) e → pending δ e L' a id off data → Forall (λ cl, cl_token cl ≠ al_token a) L → ready δ L L' e (al_token a) (al_placed a).
Proof. intros Hi Hp HL. by split; try apply Hp. Qed.

(** The commit of whole cells. *)
Lemma aligned_end_spec δ L L' e a id off data :
  inv δ (L' ++ L) e → disks_ok δ (catalog e) → pending δ e L' a id off data → Forall (λ cl, cl_token cl ≠ al_token a) L →
  wp (aligned_end a (in_bounds id off data)) e
    (λ _ e', landed δ L e e' (al_token a) (al_placed a) ∧ perform (VWrite id off data) (disks δ (catalog e)) = Some (disks δ (catalog e'), []))
    (λ _ e', landed δ L e e' (al_token a) (al_placed a) ∧
      (disks δ (catalog e') = disks δ (catalog e) ∨ perform (VWrite id off data) (disks δ (catalog e)) = Some (disks δ (catalog e'), []))).
Proof.
  intros Hi Hd Hp HL. pose proof (pending_ready _ _ _ _ _ _ _ _ Hi Hp HL) as Hr. pose proof (in_bounds_spec δ (catalog e) id off data Hd) as Hb.
  unfold aligned_end, commit_cells. rewrite (pn_target _ _ _ _ _ _ _ Hp). unfold wp, mbind, sm_bind, sm_try. destruct (in_bounds id off data (catalog e)) as [[]|err|]; [| |done].
  - destruct Hb as (v & Hv & Hle & Hmax). pose proof (commit_placed δ L L' e (al_token a) (al_placed a) id v off data (whole_cells g off data) (InstallExtents id (al_placed a)) Hr Hd Hv Hle) as Hc.
    unfold wp in Hc. simpl. destruct (settling (al_token a) (commit (InstallExtents id (al_placed a))) e) as [e' [[]|err|]]; apply Hc; try apply Hp.
    all: try (by eapply accepts_install); try (intros c'; by eapply commits_install).
    all: apply whole_updates; try apply Hp; try done; [apply grid_pos|by apply u64_below].
  - split; [|by left]. eapply (landed_not δ L L' e e); [done|done|done|done|]. by eapply inv_release.
Qed.

(** ** Parts of cells *)

Lemma updates_small δ m off data sz cells : updates δ g m off data sz cells → cells_small cells.
Proof. intros Hu. apply Forall_forall. intros x Hx. destruct (up_cell _ _ _ _ _ _ _ Hu x Hx) as (_ & Hs & _). pose proof grid_bound. lia. Qed.

(** A lease, a placement and a commit. *)
Lemma placed_and_committed {A} δ L e id v off data cells (place : N → E A) (exts_of : A → list ExtentRef) (cmd : A → MetaCommand) :
  inv δ L e → disks_ok δ (catalog e) → volumes (catalog e) !! id = Some v → off + size data <= v_size_bytes v → (0 < length data)%nat →
  updates δ g (v_extents v) off data (v_size_bytes v) cells →
  (∀ tok, makes δ L tok (place tok) (λ a δ' L', placed tok cells δ (exts_of a) δ' L')) →
  (∀ δ' L' e' tok a, ready δ' L L' e' tok (exts_of a) → Forall (λ x, logical_offset (x.2) = x.1) (zip (cells.*1) (exts_of a)) →
    accepts (catalog e') (cmd a) ∧ ∀ c', commits (cmd a) (catalog e') c' → installed_volume (catalog e') id (exts_of a) c') →
  serves δ L e (VWrite id off data) (λ _, []) (with_lease (λ tok, a ← place tok; settling tok (commit (cmd a)))).
Proof.
  intros Hi Hd Hv Hle Hdata Hu Hplace Hcmd. unfold serves, with_lease. rewrite wp_bind. eapply wp_mono; [by apply lease_spec| |done]. intros tok e1 Hf.
  pose proof (Hplace tok e1 (fl_inv _ _ _ _ _ Hf) (fl_held _ _ _ _ _ Hf)) as Hp. unfold wp, stepping, mbind, sm_bind in *.
  destruct (place tok e1) as [e2 [a|err|]]; [| |done].
  2:{ destruct Hp as (Hbz & δ' & Hsub & Hi2). exists δ'. destruct (after_release _ _ _ _ _ _ _ Hi Hd Hsub Hf Hbz Hi2) as [? Ec]. split; [done|]. left. simpl. rewrite Ec. by apply disks_mono. }
  destruct Hp as (Hbz & δ' & L' & Hsub & [Hprep Hids Hnew Hcells] & Hi2). assert (catalog e2 = catalog e) as Ec by (rewrite <- (fl_catalog _ _ _ _ _ Hf); apply Hbz).
  destruct (disks_mono _ _ _ Hsub Hd) as [Hd' Eq].
  assert (ready δ' L L' e2 tok (exts_of a)) as Hr.
  { split; try done; [|exact (fresh_token _ _ _ _ _ Hi Hf)]. intros ext Hext. rewrite Ec. destruct (extents (catalog e) !! eid ext) as [m|] eqn:Hm; [|done].
    destruct (iv_ext _ _ _ Hi _ _ Hm) as (_ & b & ps & Hδ & _). pose proof (Hnew ext Hext). congruence. }
  destruct (Hcmd δ' L' e2 tok a Hr) as [Hacc Hinst].
  { clear -Hcells. induction Hcells as [|x ext cells exts [Hl _] _ IH]; [constructor|]. by constructor. }
  pose proof (commit_placed δ' L L' e2 tok (exts_of a) id v off data cells (cmd a) Hr) as Hc. rewrite Ec in Hc. rewrite Ec in Hacc, Hinst.
  specialize (Hc Hd' Hv Hle Hdata (updates_mono _ _ _ _ _ _ _ _ _ Hsub (fi_map _ _ _ _ (dk_vols _ _ Hd id v Hv)) Hu) Hcells Hacc Hinst). unfold wp in Hc.
  assert (∀ e3, landed δ' L e2 (e3 <| inflight ::= Inflight.release tok |>) tok (exts_of a) → after δ δ' L e (e3 <| inflight ::= Inflight.release tok |>)) as Haft.
  { intros e3 [H1 H2 H3 H4]. split; try done. split.
    - intros x Hx. apply H3 in Hx as [Hx|(ext & -> & Hext)%list_elem_of_fmap]; [left; by rewrite <- Ec|right; by apply Hnew].
    - intros t [x Ht]. assert (t ≠ tok) as Hne by (intros ->; pose proof (fl_new _ _ _ _ _ Hf); congruence). apply H4; [done|]. apply (bz_tokens _ _ Hbz).
      rewrite (fl_others _ _ _ _ _ Hf) by done. by eexists. }
  rewrite Eq in Hc. destruct (settling tok (commit (cmd a)) e2) as [e3 [[]|err|]]; [| |done]; destruct Hc as [Hl Hp]; exists δ'; (split; [by apply Haft|]); [done|].
  destruct Hp as [Hp|Hp]; [left; simpl; by rewrite Hp|right; by eexists].
Qed.

Lemma serves_cells δ L e id v off data cells fence :
  inv δ L e → disks_ok δ (catalog e) → volumes (catalog e) !! id = Some v → off + size data <= v_size_bytes v → (0 < length data)%nat →
  updates δ g (v_extents v) off data (v_size_bytes v) cells →
  serves δ L e (VWrite id off data) (λ _, [])
    (match cells with
     | [(cell, content)] => install_extent (TVolume id) cell content fence
     | _ => with_lease (λ token, placed ← place_cells cells fence token; commit_cells (TVolume id) placed token)
     end).
Proof.
  intros Hi Hd Hv Hle Hdata Hu. pose proof (updates_small _ _ _ _ _ _ Hu) as Hsm.
  assert (serves δ L e (VWrite id off data) (λ _, []) (with_lease (λ token, placed ← place_cells cells fence token; commit_cells (TVolume id) placed token))) as Hmany.
  { apply (placed_and_committed δ L e id v off data cells (λ tok, place_cells cells fence tok) (λ exts, exts) (λ exts, InstallExtents id exts)); try done.
    - intros tok. by apply placed_cells.
    - intros δ' L' e' tok exts Hr _. split; [by eapply accepts_install|]. intros c'. by eapply commits_install. }
  destruct cells as [|[cell content] [|x cells]]; [exact Hmany| |exact Hmany]. clear Hmany. pose proof (Forall_inv Hsm) as Hs. simpl in Hs.
  apply (placed_and_committed δ L e id v off data [(cell, content)] (λ tok, place_extent content fence tok) (λ ext, [ext <| logical_offset := cell |>])
    (λ ext, InstallExtent id cell (ext <| logical_offset := cell |>))); try done.
  - intros tok. eapply makes_mono; [by apply placed_extent|]. intros ext δ' L' _ Hm. by apply (made_placed tok (cell, content)).
  - intros δ' L' e' tok ext Hr _. split; [by eapply accepts_install_one|]. intros c'. exact (commits_install_one _ _ _ _ _ (ext <| logical_offset := cell |>) id c' Hr).
Qed.

Lemma serves_mono {A} δ L e e1 op (out : A → bytes) m : inv δ L e → disks_ok δ (catalog e) → calm e e1 → serves δ L e1 op out m → wp m e1
    (λ a e', ∃ δ', after δ δ' L e e' ∧ perform op (disks δ (catalog e)) = Some (disks δ' (catalog e'), out a))
    (λ _ e', ∃ δ', after δ δ' L e e' ∧
      (disks δ' (catalog e') = disks δ (catalog e) ∨ ∃ b, perform op (disks δ (catalog e)) = Some (disks δ' (catalog e'), b))).
Proof.
  intros Hi Hd Hc Hm. destruct (after_calm _ _ _ _ Hi Hd Hc) as [Ha Ec]. unfold serves in Hm. rewrite Ec in Hm.
  eapply wp_mono; [exact Hm| |]; [intros a e' (δ' & Ha' & H)|intros err e' (δ' & Ha' & H)]; exists δ'; (split; [by eapply after_trans|done]).
Qed.

Lemma serves_write_part δ L e id off data :
  inv δ L e → disks_ok δ (catalog e) → (0 < length data)%nat → serves δ L e (VWrite id off data) (λ _, []) (write_part id off data).
Proof.
  intros Hi Hd Hdata. unfold write_part, write_fence, serves. wp_simpl. pose proof (in_bounds_spec δ (catalog e) id off data Hd) as Hb.
  destruct (in_bounds id off data (catalog e)) as [[]|err|]; [|wp_simpl; exists δ; split; [by apply after_calm|by left]|done]. destruct Hb as (v & Hv & Hle & Hmax).
  unfold write_locked. wp_simpl. simpl grid. cbv beta iota. wp_simpl. pose proof (dk_vols _ _ Hd id v Hv) as Hf.
  eapply wp_mono; [eapply (cells_from_spec δ L id v (v_size_bytes v)); [exact Hi|exact Hv|apply Hf|by apply u64_below|done|done]| |].
  - intros cells e1 [Hc1 Hu]. destruct (after_calm _ _ _ _ Hi Hd Hc1) as [Ha Ec]. eapply serves_mono; [done|done|done|].
    eapply serves_cells; [apply Ha|apply Ha|by rewrite Ec|done|done|done].
  - intros err e1 Hc1. exists δ. destruct (after_calm _ _ _ _ Hi Hd Hc1) as [Ha Ec]. split; [done|]. left. by rewrite Ec.
Qed.

(** Both ways. *)
Lemma serves_write δ L e id off data :
  inv δ L e → disks_ok δ (catalog e) → serves δ L e (VWrite id off data) (λ _, []) (write id off data).
Proof.
  intros Hi Hd. unfold write, serves. destruct (Nat.eqb_spec (length data) 0) as [Hz|Hnz].
  { wp_simpl. exists δ. split; [by apply after_calm|]. unfold perform. by rewrite Hz. }
  unfold write_aligned. wp_simpl. eapply wp_mono; [by apply aligned_begin_spec| |].
  - intros [a|] e1 He1; [|subst e1; wp_simpl; apply serves_write_part; [done|done|lia]]. destruct He1 as (δ' & L' & [Hsub Hi1 Ec Hp Hfresh Htok Hunk]).
    destruct (disks_mono _ _ _ Hsub Hd) as [Hd' Eq]. wp_simpl.
    assert (Forall (λ cl, cl_token cl ≠ al_token a) L) as HL.
    { eapply Forall_impl; [apply (iv_claims _ _ _ Hi)|]. intros cl Hcl Heq. destruct (cl_open _ _ Hcl) as [x Hx]. rewrite Heq in Hx. congruence. }
    assert (∀ e2, landed δ' L e1 e2 (al_token a) (al_placed a) → after δ δ' L e e2) as Haft.
    { intros e2 [H1 H2 H3 H4]. split; try done. split.
      - intros x Hx. apply H3 in Hx as [Hx|(ext & -> & Hext)%list_elem_of_fmap]; [left; by rewrite <- Ec|right; by apply Hunk].
      - intros t [x Ht]. apply H4; [congruence|]. apply Htok. by eexists. }
    eapply wp_mono; [apply (aligned_end_spec δ' L L' e1 a id off data); [done|by rewrite Ec|done|done]| |]; rewrite Ec, Eq.
    + intros [] e2 [Hl Hpf]. wp_simpl. exists δ'. split; [by apply Haft|done].
    + intros err e2 [Hl Hpf]. exists δ'. split; [by apply Haft|]. destruct Hpf as [|Hpf]; [by left|right; by eexists].
  - intros err e1 (δ' & Ha & Ec). exists δ'. split; [done|]. left. rewrite Ec. apply (disks_mono _ _ _ (af_sub _ _ _ _ _ Ha) Hd).
Qed.

End writes.
End EngineWrites.
