(* ===== verification/EngineUpkeep.v ===== *)
(** * Maintenance

    Collection of extents that nothing names, tiering to objects, repair of replicas and
    shards, and checkpoints: none of them changes a disk, whatever fails. *)

From S2P Require Import Prelude MetaError FreeList Ec Catalog Extents Metadata Space MetaSpace MetaRefs MetaSpec NativeError Device Objects Placement Inflight Engine EngineRead EngineWrite EngineRepair EngineMeta EngineData EngineInv EnginePlace EngineCat EngineRange EngineBatch EngineCommit EngineDisks EngineSpec EngineOps EngineWrites.

Module EngineUpkeep.
Import Placement Catalog Extents Metadata Space MetaSpace MetaSpec NativeError Device Objects Engine EngineRead EngineWrite EngineRepair EngineMeta EngineData EngineInv EnginePlace EngineCat EngineRange EngineBatch EngineCommit EngineDisks EngineSpec EngineOps EngineWrites.

Open Scope N_scope.

Section upkeep.
Context {D O : Type} {BD : BlockStore D} {LD : BlockStoreLaws D} {BO : ObjectStore O} {LO : ObjectStoreLaws O} {P : EngineParams} {POk : ParamsOk P}.

Abbreviation Eng := (Engine D O).
Abbreviation E := (SM Eng NativeError).
Implicit Types e : Eng.
Abbreviation g := (extent_bytes cfg).

(** ** Operations that leave the disks alone *)

Record quietly (δ : gmap ExtentId bytes) (L : list Claim) (e e' : Eng) : Prop := {
  qu_after : after δ δ L e e';
  qu_disks : disks δ (catalog e') = disks δ (catalog e);
}.

Lemma quietly_trans δ L e e1 e2 : quietly δ L e e1 → quietly δ L e1 e2 → quietly δ L e e2.
Proof. intros [H1 D1] [H2 D2]. split; [by eapply after_trans|by rewrite D2]. Qed.

Lemma quietly_calm δ L e e' : inv δ L e → disks_ok δ (catalog e) → calm e e' → quietly δ L e e'.
Proof. intros Hi Hd Hc. destruct (after_calm _ _ _ _ Hi Hd Hc) as [Ha Ec]. split; [done|by rewrite Ec]. Qed.

Definition maintains {A} (m : E A) (Q : A → Prop) : Prop :=
  ∀ δ L e, inv δ L e → disks_ok δ (catalog e) → wp m e (λ a e', quietly δ L e e' ∧ Q a) (λ _ e', quietly δ L e e').

Lemma maintains_soft {A} (m : E A) Q : soft m Q → maintains m Q.
Proof.
  intros Hm δ L e Hi Hd. eapply wp_mono; [apply Hm, Hi| |].
  - intros a e' [Hc Hq]. split; [by apply quietly_calm|done].
  - intros err e' Hc. by apply quietly_calm.
Qed.

Lemma maintains_bind {A B} (m : E A) (k : A → E B) Q Q' : maintains m Q → (∀ a, Q a → maintains (k a) Q') → maintains (m ≫= k) Q'.
Proof.
  intros Hm Hk δ L e Hi Hd. rewrite wp_bind. eapply wp_mono; [by apply Hm| |done]. intros a e1 [H1 Hq].
  eapply wp_mono; [apply (Hk a Hq δ L e1); apply H1| |]; [intros b e2 [H2 ?]; split; [|done]|intros err e2 H2]; by eapply quietly_trans.
Qed.

Lemma maintains_ret {A} (a : A) (Q : A → Prop) : Q a → maintains (mret a) Q.
Proof. intros Hq. apply maintains_soft. by apply soft_ret. Qed.

(** ** Commits of maintenance *)

Lemma upkeep_commit δ L e cmd :
  inv δ L e → disks_ok δ (catalog e) → accepts (catalog e) cmd →
  (∀ c', catalog_ok c' → commits cmd (catalog e) c' → becomes δ [] e c' ∧ same_disks δ (catalog e) c' ∧ ∀ x, is_Some (extents c' !! x) → is_Some (extents (catalog e) !! x)) →
  wp (commit cmd) e (λ _ e', quietly δ L e e' ∧ meta_only e e' ∧ commits cmd (catalog e) (catalog e'))
    (λ err e', quietly δ L e e' ∧ meta_only e e' ∧ (match err with Metadata _ | Raft _ => catalog e' = catalog e | _ => True end)).
Proof.
  intros Hi Hd Ha Hcmd. assert (∀ e', meta_only e e' → inv δ L e' → commits cmd (catalog e) (catalog e') → catalog_ok (catalog e') → quietly δ L e e') as Hdone.
  { intros e' Hm Hi' Hc Hok. destruct (Hcmd _ Hok Hc) as (_ & [Hd' Eq] & Hx). split; [|done]. split; [done| |done|done]. eapply keeps_meta; [done|done|]. intros x. left. auto. }
  pose proof (committed δ L [] cmd e Hi Ha ltac:(intros; by apply Hcmd)) as Hc. pose proof (commit_effect cmd e (iv_dur _ _ _ Hi) (iv_cat _ _ _ Hi) Ha) as Hce.
  unfold wp in *. destruct (commit cmd e) as [e' [[]|err|]]; [| |done].
  - destruct Hc as (Hm & [Hc Hok] & Hs). split; [|done]. apply Hdone; try done. by eapply inv_no_lease.
  - destruct Hc as (Hm & _ & Hc & Hs), Hce as (_ & _ & _ & Herr). assert (inv δ L e') as Hi' by (by eapply inv_no_lease). split; [|split; [done|by destruct err]].
    destruct Hc as [Ec|[Hc Hok]]; [|by apply Hdone]. split; [|by rewrite Ec]. split; [done| |done|by rewrite Ec]. eapply keeps_meta; [done|done|]. rewrite Ec. by left.
Qed.

(** ** Objects *)

Lemma object_key_inj x y : object_key x = object_key y → x = y.
Proof.
  unfold object_key. assert (∀ p a b, String.append p a = String.append p b → a = b) as Hinj by (induction p as [|ch p IH]; intros a b; [done|intros [= ?]; by apply IH]).
  intros H%Hinj%Hinj. done.
Qed.

Lemma object_of δ L e x m key : inv δ L e → extents (catalog e) !! x = Some m → object (extent m) = Some key → key = object_key x.
Proof.
  intros Hi Hm Ho. destruct (iv_ext _ _ _ Hi x m Hm) as (Hid & b & ps & _ & _ & Hk). unfold kept in Hk. rewrite Ho in Hk. destruct Hk as [-> _]. by rewrite Hid.
Qed.

(** Objects no extent needs come and go. *)
Lemma inv_objects δ L e o o' key :
  inv δ L e → objects e = Some o → (∀ k, k ≠ key → object_at o' k = object_at o k) →
  (∀ x m, extents (catalog e) !! x = Some m → object (extent m) ≠ Some key) → inv δ L (e <| objects := Some o' |>).
Proof.
  intros Hi Ho Hsame Hnone. destruct Hi as [H1 H2 H3 H4 H5 H6 H7 H8 H9 H10 H11]. split; try done.
  - by destruct H2.
  - by destruct H3.
  - intros x m Hm. destruct (H7 x m Hm) as (Hid & b & ps & Hb & Hd & Hk). split; [done|]. exists b, ps. split_and!; try done. unfold kept in *. simpl.
    specialize (Hnone x m Hm). destruct (object (extent m)) as [k|]; [|done]. destruct Hk as (Hkey & Hr & Hobj). split_and!; try done. intros o2 [= <-].
    rewrite Hsame by congruence. by apply Hobj.
  - eapply Forall_impl; [exact H8|]. intros cl [C1 C2 C3 C4]. by split.
Qed.

Lemma quietly_objects δ L e o o' key :
  inv δ L e → disks_ok δ (catalog e) → objects e = Some o → (∀ k, k ≠ key → object_at o' k = object_at o k) →
  (∀ x m, extents (catalog e) !! x = Some m → object (extent m) ≠ Some key) → quietly δ L e (e <| objects := Some o' |>).
Proof. intros Hi Hd Ho Hs Hn. split; [|done]. split; [done|by split; [left|]|by eapply inv_objects|done]. Qed.

Lemma upkeep_drop δ L e key :
  inv δ L e → disks_ok δ (catalog e) → (∀ x m, extents (catalog e) !! x = Some m → object (extent m) ≠ Some key) →
  wp (drop_object key) e (λ _ e', quietly δ L e e') (λ _ _, False).
Proof.
  intros Hi Hd Hn. unfold drop_object. rewrite wp_modify. destruct (objects e) as [o|] eqn:Ho; [|by apply quietly_calm]. destruct (remove key o) as [o' r] eqn:Er.
  eapply quietly_objects; [done|done|done| |done]. by eapply remove_law.
Qed.

(** ** Collection *)

Lemma upkeep_reclaim l : ∀ n, maintains (reclaim_all l n) (λ _, True).
Proof.
  induction l as [|x l IH]; intros n; simpl; [by apply maintains_ret|]. intros δ L e Hi Hd. unfold with_catalog. wp_simpl.
  eapply wp_mono; [apply (upkeep_commit δ L e (MarkExtentReclaimed x)); [done|done|done|]| |].
  - intros c' Hok Hc. split_and!; [by eapply becomes_reclaim|eapply same_reclaim; [done|done|apply (iv_cat _ _ _ Hi)|done]|].
    destruct Hc as (term & index & s & _ & Hex & ->). destruct (reclaim_effect _ _ _ _ (ok_space _ (iv_cat _ _ _ Hi)) Hex) as (_ & _ & m & _ & _ & Hst & _).
    intros y Hy. apply statics_some. apply statics_some in Hy. change (is_Some (statics (cat s) !! y)) in Hy. rewrite Hst in Hy. apply lookup_delete_is_Some in Hy. tauto.
  - intros [] e1 (Hq & Hm & Hc). wp_simpl. set (ko := extents (catalog e) !! x ≫= _).
    assert (wp (match ko with Some key => drop_object key | None => mret () end) e1 (λ _ e2, quietly δ L e e2) (λ _ _, False)) as Hdrop.
    { destruct ko as [key|] eqn:Hkey; [|by wp_simpl]. eapply wp_mono; [apply (upkeep_drop δ L e1 key); [apply Hq|apply Hq|]|intros [] e2 H2; by eapply quietly_trans|done].
      intros y my Hy Hobj. unfold ko in Hkey. destruct (extents (catalog e) !! x) as [m|] eqn:Hx; [|done]. simpl in Hkey.
      apply (object_of _ _ _ _ _ _ (af_inv _ _ _ _ _ (qu_after _ _ _ _ Hq)) Hy) in Hobj. apply (object_of _ _ _ _ _ _ Hi Hx) in Hkey. rewrite Hkey in Hobj. apply object_key_inj in Hobj as <-.
      destruct Hc as (term & index & s & _ & Hex & Hcat). destruct (reclaim_effect _ _ _ _ (ok_space _ (iv_cat _ _ _ Hi)) Hex) as (_ & _ & m' & _ & _ & Hst & _).
      apply statics_lookup in Hy. rewrite Hcat in Hy. change (statics (cat s) !! x = Some (extent my)) in Hy. by rewrite Hst, lookup_delete_eq in Hy. }
    eapply wp_mono; [exact Hdrop| |done]. intros [] e2 H2. eapply wp_mono; [apply (IH _ δ L e2); apply H2| |]; [intros a e3 [H3 _]; split; [|done]|intros err e3 H3]; by eapply quietly_trans.
  - intros err e1 (Hq & _). done.
Qed.

Lemma maintains_gc : maintains gc_once (λ _, True).
Proof.
  unfold gc_once, with_catalog. intros δ L e Hi Hd. wp_simpl. eapply wp_mono; [by apply upkeep_reclaim| |done]. intros n e1 [Hq _]. by wp_simpl.
Qed.

(** ** Tiering *)

Lemma calm_objects e o o' : objects e = Some o → (∀ k, object_at o' k = object_at o k) → calm e (e <| objects := Some o' |>).
Proof.
  intros Ho Hs. split; [done..| |]; simpl; [by rewrite Ho|]. split; [done|]. intros i k d Hd. exists d. split; [done|apply device_grows_refl].
Qed.

Definition no_object (e : Eng) (key : string) : Prop := ∀ x m, extents (catalog e) !! x = Some m → object (extent m) ≠ Some key.

(** The object of an extent that is on devices is no one's. *)
Lemma fresh_object δ L e x m : inv δ L e → extents (catalog e) !! x = Some m → object (extent m) = None → no_object e (object_key x).
Proof.
  intros Hi Hm Ho y my Hy Hobj. pose proof (object_of _ _ _ _ _ _ Hi Hy Hobj) as ->%object_key_inj. congruence.
Qed.

Lemma upkeep_put δ L e key data :
  inv δ L e → disks_ok δ (catalog e) → no_object e key →
  wp (put_object key data) e (λ _ e', quietly δ L e e' ∧ catalog e' = catalog e ∧ ∀ o, objects e' = Some o → object_at o key = Some data)
    (λ _ e', quietly δ L e e').
Proof.
  intros Hi Hd Hn. unfold put_object. wp_simpl. destruct (objects e) as [o|] eqn:Ho; [|wp_simpl; by apply quietly_calm]. destruct (put key data o) as [o' r] eqn:Ep.
  destruct (put_law _ _ _ _ _ Ep) as [Hs Hr]. wp_simpl. assert (quietly δ L e (e <| objects := Some o' |>)) as Hq by (by eapply quietly_objects).
  destruct r as [[]|]; simpl; [|done]. split; [done|]. split; [done|]. intros o2 [= <-]. auto.
Qed.

Lemma upkeep_tier_commit δ L e x m key b :
  inv δ L e → disks_ok δ (catalog e) → extents (catalog e) !! x = Some m → object (extent m) = None → key = object_key x → δ !! x = Some b →
  (∀ o, objects e = Some o → object_at o key = Some b) →
  wp (stepping (λ e,
        match commit (TierExtent x key (replicas (extent m))) e with
        | (e, Ok _) => (e <| reads ::= delete x |>, Ok (Some (size b)))
        | (e, Err (Metadata _)) | (e, Err (Raft (Rejected _))) => (drop_object key ;; mret None) e
        | (e, Err err) => (e, Err err)
        | (e, Panic) => (e, Panic)
        end) : E (option N)) e (λ _ e', quietly δ L e e') (λ _ e', quietly δ L e e').
Proof.
  intros Hi Hd Hm Ho Hkey Hb Hobj.
  assert (∀ e1, quietly δ L e e1 → catalog e1 = catalog e → wp (drop_object key ;; mret None : E (option N)) e1 (λ _ e', quietly δ L e e') (λ _ e', quietly δ L e e')) as Hdrop.
  { intros e1 Hq Ec. wp_simpl. eapply wp_mono; [apply (upkeep_drop δ L e1 key); [apply Hq|apply Hq|]| |done].
    - rewrite Ec, Hkey. by apply (fresh_object δ L e x m).
    - intros [] e2 H2. wp_simpl. by eapply quietly_trans. }
  pose proof (upkeep_commit δ L e (TierExtent x key (replicas (extent m))) Hi Hd) as Hc. unfold wp, stepping in *.
  assert (∀ c', catalog_ok c' → commits (TierExtent x key (replicas (extent m))) (catalog e) c' →
    becomes δ [] e c' ∧ same_disks δ (catalog e) c' ∧ ∀ y, is_Some (extents c' !! y) → is_Some (extents (catalog e) !! y)) as Hcmd.
  { intros c' Hok Hcm. split_and!.
    - eapply becomes_tier; [exact Hi|exact Hkey| |done|done]. intros b' o Hb' Hoo. assert (b' = b) as -> by congruence. by apply Hobj.
    - eapply same_tier; [done|done|apply (iv_cat _ _ _ Hi)|done].
    - destruct Hcm as (term & index & s & _ & Hex & ->). destruct (tier_effect _ _ _ _ _ _ (ok_space _ (iv_cat _ _ _ Hi)) Hex) as (_ & _ & m' & Hm' & _ & _ & Hst & _).
      intros y Hy. apply statics_some. apply statics_some in Hy. change (is_Some (statics (cat s) !! y)) in Hy. rewrite Hst in Hy.
      apply lookup_insert_is_Some in Hy as [<-|[_ Hy]]; [|done]. apply statics_some. by eexists. }
  specialize (Hc ltac:(by repeat split) Hcmd). destruct (commit (TierExtent x key (replicas (extent m))) e) as [e1 [[]|err|]]; [| |done].
  - destruct Hc as (Hq & _). eapply quietly_trans; [exact Hq|]. apply quietly_calm; [apply Hq|apply Hq|]. by apply calm_light.
  - destruct Hc as (Hq & _ & Herr). destruct err as [| |me| |[]| | | | | | | |]; try exact Hq; exact (Hdrop e1 Hq Herr).
Qed.

Lemma maintains_tier_extent x : maintains (tier_extent x) (λ _, True).
Proof.
  intros δ L e Hi Hd. assert (quietly δ L e e) as Hq0 by (by apply quietly_calm). unfold tier_extent, with_catalog. wp_simpl. destruct (objects e) as [o|] eqn:Ho; [|by wp_simpl].
  wp_simpl. destruct (extents (catalog e) !! x) as [m|] eqn:Hm; simpl; [|by wp_simpl]. case_bool_decide as Hobj; [by wp_simpl|]. destruct (length _ =? 0)%nat; [by wp_simpl|].
  assert (object (extent m) = None) as Hnone by (destruct (object (extent m)); [by destruct Hobj|done]).
  destruct (iv_ext _ _ _ Hi x m Hm) as (_ & b & ps & Hb & Hds & _). cbn [orb]. wp_simpl.
  eapply wp_mono; [apply (soft_read_placed _ _ _ Hds); apply Hi| |by intros err e1 Hc; apply quietly_calm]. intros data e1 [Hc1 ->].
  pose proof (quietly_calm _ _ _ _ Hi Hd Hc1) as Hq1. destruct (after_calm _ _ _ _ Hi Hd Hc1) as [_ Ec1]. wp_simpl.
  eapply wp_mono; [apply (upkeep_put δ L e1); [apply Hq1|apply Hq1|rewrite <- Ec1 in Hm; eapply fresh_object; [apply Hq1|done|done]]| |by intros err e2 H2; eapply quietly_trans].
  intros [] e2 (H2 & Ec2 & Hput). assert (quietly δ L e e2) as Hq2 by (by eapply quietly_trans).
  eapply wp_mono; [apply (upkeep_tier_commit δ L e2 x m (object_key x) b)| |]; try done; [apply Hq2|apply Hq2|by rewrite Ec2, Ec1| |].
  - intros a e3 H3. split; [by eapply quietly_trans|done].
  - intros err e3 H3. by eapply quietly_trans.
Qed.

Lemma upkeep_orphans δ L l : ∀ e n,
  inv δ L e → disks_ok δ (catalog e) → is_Some (objects e) → (∀ key, key ∈ l → no_object e key) →
  wp (delete_orphans l n) e (λ _ e', quietly δ L e e') (λ _ e', quietly δ L e e').
Proof.
  induction l as [|key l IH]; intros e n Hi Hd [o Ho] Hl; cbn [delete_orphans]; wp_simpl; [by apply quietly_calm|]. rewrite Ho. destruct (remove key o) as [o' r] eqn:Er. wp_simpl.
  assert (quietly δ L e (e <| objects := Some o' |>)) as Hq by (eapply quietly_objects; [done|done|done|by eapply remove_law|apply Hl; by left]).
  destruct r as [[]|]; cbn [io ok_or]; [|done]. wp_simpl. eapply wp_mono; [apply (IH (e <| objects := Some o' |>)); [apply Hq|apply Hq|by eexists|intros k Hk; apply Hl; by right]| |];
    [intros a e2 H2|intros err e2 H2]; by eapply quietly_trans.
Qed.

Lemma maintains_sweep : maintains sweep_objects (λ _, True).
Proof.
  intros δ L e Hi Hd. unfold sweep_objects, with_catalog. wp_simpl. destruct (objects e) as [o|] eqn:Ho; [|wp_simpl; split; [by apply quietly_calm|done]].
  destruct (list_keys _ o) as [o' r] eqn:El. destruct (list_law _ _ _ _ El) as [Hs _]. pose proof (calm_objects e o o' Ho Hs) as Hc. wp_simpl.
  pose proof (quietly_calm _ _ _ _ Hi Hd Hc) as Hq. destruct r as [keys|]; cbn [io ok_or]; [|done]. wp_simpl. set (live := omap _ _).
  eapply wp_mono; [apply (upkeep_orphans δ L _ (e <| objects := Some o' |>)); [apply Hq|apply Hq|by eexists|]| |].
  - intros key Hk x m Hm Hobj. apply list_elem_of_In, filter_In in Hk as [_ Hk]. apply negb_true_iff, bool_decide_eq_false in Hk. apply Hk. unfold live.
    apply list_elem_of_omap. exists m. split; [|done]. apply elem_of_bt_values. by exists x.
  - intros a e2 H2. split; [by eapply quietly_trans|done].
  - intros err e2 H2. by eapply quietly_trans.
Qed.

Lemma maintains_tier_all stop l : ∀ k st, maintains (tier_all stop k l st) (λ _, True).
Proof.
  induction l as [|x l IH]; intros k st; simpl; [by apply maintains_ret|]. case_match; [by apply maintains_ret|].
  eapply maintains_bind; [apply maintains_tier_extent|]. intros r _. apply IH.
Qed.

Lemma maintains_tier policy stop : maintains (tier_once policy stop) (λ _, True).
Proof.
  unfold tier_once. eapply maintains_bind; [apply maintains_sweep|intros n _]. eapply (maintains_bind _ _ (λ _, True)).
  { unfold cold_extents. apply maintains_soft. eapply soft_bind; [apply soft_now|intros t _]. apply soft_get. intros e. by apply soft_ret. }
  intros cold _. eapply maintains_bind; [apply maintains_tier_all|intros st _]. eapply maintains_bind; [apply maintains_soft, soft_now|intros t _].
  apply maintains_soft. eapply (soft_bind _ _ (λ _, True)); [apply soft_modify; [|done]; intros e; by apply calm_light|intros [] _; by apply soft_ret].
Qed.

(** A checkpoint. *)
Lemma maintains_checkpoint : maintains checkpoint (λ _, True).
Proof.
  intros δ L e Hi Hd. assert (∀ e', meta_only e e' → durable e' → catalog e' = catalog e → quietly δ L e e') as Hdone.
  { intros e' Hm Hdu Ec. split; [|by rewrite Ec]. split; [done|eapply keeps_meta; [done|done|rewrite Ec; by left]| |by rewrite Ec].
    rewrite <- (inflight_eta e'), (mo_inflight _ _ Hm). apply (inv_becomes δ L [] e e'); [done|done|done| |by left]. eapply becomes_quiet; [done|rewrite Ec; apply Hi|by rewrite Ec]. }
  unfold checkpoint. wp_simpl. eapply wp_mono; [apply save_checkpoint_durable, Hi| |].
  - intros [] e1 (Hm1 & Hd1 & Ec1 & Hs1). wp_simpl. eapply wp_mono; [apply compact_durable; [done|by rewrite Hs1, Ec1]| |].
    + intros n e2 (Hm2 & Hd2 & Ec2). split; [|done]. apply Hdone; [by etrans|done|by rewrite Ec2].
    + intros err e2 (Hm2 & Hd2 & Ec2 & _). apply Hdone; [by etrans|done|by rewrite Ec2].
  - intros err e1 (Hm1 & Hd1 & Ec1 & _). by apply Hdone.
Qed.


(** ** Repair *)

(** The parts [bad] of the extent [x] are to go elsewhere. *)
Record mending (δ : gmap ExtentId bytes) (c : Catalog) (x : string) (bad : list (ReplicaRef * bytes)) (m : ExtentMeta) (b : bytes) (ps : list bytes) : Prop := {
  md_extent : extents c !! x = Some m;
  md_id : eid (extent m) = x;
  md_bytes : δ !! x = Some b;
  md_desc : describes b ps (extent m);
  md_size old p : (old, p) ∈ bad → size p = stored_len (extent m);
  md_part old p pos : (old, p) ∈ bad → replicas (extent m) !! pos = Some old → ps !! pos = Some p;
  md_used : stored_len (extent m) = 0 ∨ NoDup (bad.*1) ∧ ∀ old, old ∈ bad.*1 → old ∈ replicas (extent m);
}.

Lemma mending_tail δ c x y bad m b ps : mending δ c x (y :: bad) m b ps → mending δ c x bad m b ps.
Proof.
  intros [H1 H2 H3 H4 H5 H6 H7]. split; try done.
  - intros old p Hin. apply (H5 old). by right.
  - intros old p pos Hin. apply (H6 old). by right.
  - destruct H7 as [|[Hnd Hin]]; [by left|right]. csimpl in Hnd. apply NoDup_cons in Hnd as [_ Hnd]. split; [done|]. intros old Ho. apply Hin. by right.
Qed.

(** After a replacement, what is left to repair. *)
Lemma mending_moved δ c x old p bad m b ps c' new :
  sound c → mending δ c x ((old, p) :: bad) m b ps → placeable (spots c) (free c) (stored_len (extent m)) new →
  commits (ReplaceReplica x old new) c c' → ∃ m', mending δ c' x bad m' b ps.
Proof.
  intros Hs [Hm Hid Hb [D1 D2 D3 D4] Hsz Hpart Hused] Hpl (term & index & s & _ & Hex & ->).
  assert (∀ m0, extents c !! x = Some m0 → placeable (spots c) (free c) (stored_len (extent m0)) new) as Hpl' by (intros m0 Hm0; by assert (m0 = m) as -> by congruence).
  destruct (replace_effect _ _ _ _ _ _ Hs Hpl' Hex) as (_ & _ & m0 & pos & Hm0 & Hold & Hst & _). assert (m0 = m) as -> by congruence.
  assert (statics (cat s) !! x = Some (moved pos new (extent m))) as (m' & Hm' & Em)%statics_back by (by rewrite Hst, lookup_insert_eq).
  exists m'. unfold moved in Em. split; rewrite ?Em; simpl; try done.
  - split; try done. revert D4. unfold laid. simpl. by rewrite length_insert.
  - intros old' p' Hin. apply (Hsz old' p'). by right.
  - intros old' p' pos' Hin [(<- & <- & Hl)|[_ Hj]]%list_lookup_insert_Some; [|by eapply (Hpart old'); [right|]].
    assert (ps !! pos = Some p) as Hp by (apply (Hpart old); [by left|done]). rewrite Hp. f_equal.
    pose proof (Hsz old p ltac:(by left)) as S1. pose proof (Hsz new p' ltac:(by right)) as S2. destruct Hused as [Hz|[_ Hin']].
    + destruct p, p'; simpl in *; try done; lia.
    + destruct (N.eq_0_gt_0_cases (stored_len (extent m))) as [Hz|Hpos]; [destruct p, p'; simpl in *; try done; lia|]. exfalso.
      assert (new ∈ replicas (extent m)) as Hnew by (apply Hin'; right; apply (list_elem_of_fmap_2 fst bad (new, p')); done).
      eapply (pl_unused _ _ _ _ Hpl x _ _ new); [unfold spots; by rewrite lookup_fmap, Hm|exact Hnew| |]; apply covers_split; split_and!; try done; lia.
  - destruct Hused as [|[Hnd Hin]]; [by left|right]. csimpl in Hnd. apply NoDup_cons in Hnd as [Hni Hnd]. split; [done|]. intros old' Ho.
    assert (old' ∈ replicas (extent m)) as [j Hj]%list_elem_of_lookup by (apply Hin; by right). apply list_elem_of_lookup. exists j.
    rewrite list_lookup_insert_ne; [done|]. intros <-. congruence.
Qed.

Lemma placed_first δ L tok fence data order :
  places δ L tok (place_first order fence data tok) (λ o L', match o with Some r => L' = [mkClaim tok r data] | None => L' = [] end).
Proof.
  revert L. induction order as [|n order IH]; intros L; simpl; [by apply places_ret|]. eapply places_bind; [apply placed_replica|].
  intros [r|] L1; [intros [_ ->]; by apply places_ret|]. intros ->. eapply places_mono; [apply IH|]. intros o L' Ho. by rewrite app_nil_r.
Qed.

(** The commit of a replacement. *)
Lemma upkeep_replace δ L e tok x old new p bad m b ps :
  inv δ (mkClaim tok new p :: L) e → disks_ok δ (catalog e) → Forall (λ cl, cl_token cl ≠ tok) L → mending δ (catalog e) x ((old, p) :: bad) m b ps →
  let done_ e' := inv δ L (e' <| inflight ::= Inflight.release tok |>) ∧ same_disks δ (catalog e) (catalog e') ∧ inflight e' = inflight e ∧
    (∀ y, is_Some (extents (catalog e') !! y) → is_Some (extents (catalog e) !! y)) in
  wp (settling tok (commit (ReplaceReplica x old new))) e
    (λ _ e', done_ e' ∧ ∃ m', mending δ (catalog e') x bad m' b ps) (λ _ e', done_ e').
Proof.
  intros Hi Hd HL Hmd done_. pose proof (iv_claims _ _ _ Hi) as [Hcl _]%Forall_cons. pose proof (ok_space _ (iv_cat _ _ _ Hi)) as Hs.
  assert (∀ m0, extents (catalog e) !! x = Some m0 → m0 = m) as Hm by (intros m0 Hm0; pose proof (md_extent _ _ _ _ _ _ _ Hmd); congruence).
  assert (size p = stored_len (extent m)) as Hsz by (apply (md_size _ _ _ _ _ _ _ Hmd old); by left).
  assert (∀ m0, extents (catalog e) !! x = Some m0 → placeable (spots (catalog e)) (free (catalog e)) (stored_len (extent m0)) new) as Hpl
    by (intros m0 ->%Hm; rewrite <- Hsz; apply (cl_place _ _ Hcl)).
  assert (leases_after [mkClaim tok new p] L (inflight e) (Inflight.release tok (inflight e))) as Hla by (right; exists tok; split_and!; [done|by repeat constructor|done]).
  assert (∀ e', meta_only e e' → (∀ s', leases_after [mkClaim tok new p] L (inflight e) s' → inv δ L (e' <| inflight := s' |>)) →
    commits (ReplaceReplica x old new) (catalog e) (catalog e') → catalog_ok (catalog e') → done_ e' ∧ ∃ m', mending δ (catalog e') x bad m' b ps) as Hdone.
  { intros e' Hmo Hi' Hc Hok. specialize (Hi' _ Hla). rewrite <- (mo_inflight _ _ Hmo) in Hi'. split.
    - split; [done|]. split; [by eapply same_replace|]. split; [apply Hmo|]. destruct Hc as (term & index & s & _ & Hex & Hcat).
      destruct (replace_effect _ _ _ _ _ _ Hs Hpl Hex) as (_ & _ & m0 & pos & Hm0 & _ & Hst & _). intros y Hy. apply statics_some. apply statics_some in Hy. rewrite Hcat in Hy.
      change (is_Some (statics (cat s) !! y)) in Hy. rewrite Hst in Hy. apply lookup_insert_is_Some in Hy as [<-|[_ Hy]]; [|done]. apply statics_some. by eexists.
    - eapply mending_moved; [done|exact Hmd|apply (Hpl m), Hmd|done]. }
  assert (accepts (catalog e) (ReplaceReplica x old new)) as Ha by (split; [split; [split; [done|exact Hpl]|done]|done]).
  pose proof (committed δ L [mkClaim tok new p] (ReplaceReplica x old new) e Hi Ha) as Hc. unfold settling, wp in *.
  assert (∀ c', catalog_ok c' → commits (ReplaceReplica x old new) (catalog e) c' → becomes δ [mkClaim tok new p] e c') as Hbc.
  { intros c' Hok Hcm. eapply becomes_replace; [exact Hi| |done|done]. intros m0 ->%Hm. split; [|done]. exists b, ps. rewrite (md_id _ _ _ _ _ _ _ Hmd).
    split_and!; [apply Hmd|apply Hmd|]. intros pos. apply (md_part _ _ _ _ _ _ _ Hmd). by left. }
  specialize (Hc Hbc). destruct (commit (ReplaceReplica x old new) e) as [e' [[]|err|]]; [| |done].
  - destruct Hc as (Hmo & [Hc Hok] & Hi'). by apply Hdone.
  - destruct Hc as (Hmo & Hun & Hc & Hi'). assert ((settle tok err e').1 = e') as -> by (unfold settle; by rewrite Hun).
    destruct Hc as [Ec|[Hc Hok]]; [|by apply Hdone]. specialize (Hi' _ Hla). rewrite <- (mo_inflight _ _ Hmo) in Hi'. split; [done|]. rewrite Ec. split; [by split|]. split; [apply Hmo|done].
Qed.

Lemma upkeep_replace_one δ L e ext current old p fence bad m b ps :
  inv δ L e → disks_ok δ (catalog e) → mending δ (catalog e) (eid ext) ((old, p) :: bad) m b ps →
  wp (replace_one ext current old p fence) e
    (λ r e', quietly δ L e e' ∧ match r with Refused => True | _ => ∃ m', mending δ (catalog e') (eid ext) bad m' b ps end) (λ _ e', quietly δ L e e').
Proof.
  intros Hi Hd Hmd. unfold replace_one. wp_simpl. eapply wp_mono; [apply soft_placement_order, Hi| |intros err e1 Hc; by apply quietly_calm].
  intros order e1 [Hc1 _]. pose proof (quietly_calm _ _ _ _ Hi Hd Hc1) as Hq1. destruct (after_calm _ _ _ _ Hi Hd Hc1) as [_ Ec1]. pose proof (af_inv _ _ _ _ _ (qu_after _ _ _ _ Hq1)) as Hi1. pose proof (af_disks _ _ _ _ _ (qu_after _ _ _ _ Hq1)) as Hd1.
  unfold with_lease. wp_simpl. eapply wp_mono; [by apply lease_spec| |done]. intros tok e2 Hf. pose proof (fresh_token _ _ _ _ _ Hi1 Hf) as HL.
  pose proof (placed_first δ L tok fence p order e2 (fl_inv _ _ _ _ _ Hf) (fl_held _ _ _ _ _ Hf)) as Hp. unfold wp, stepping, mbind, sm_bind in *.
  destruct (place_first order fence p tok e2) as [e3 [o|err|]]; [| |done].
  2:{ destruct Hp as (Hbz & _ & Hi3). destruct (after_release _ _ _ _ _ _ _ Hi1 Hd1 (reflexivity δ) Hf Hbz Hi3) as [Ha Ec]. eapply quietly_trans; [exact Hq1|]. split; [done|]. simpl. by rewrite Ec. }
  destruct Hp as (Hbz & _ & L' & Ho & Hi3). destruct o as [new|].
  2:{ subst L'. destruct (after_release _ _ _ _ _ _ _ Hi1 Hd1 (reflexivity δ) Hf Hbz Hi3) as [Ha Ec]. simpl. split; [eapply quietly_trans; [exact Hq1|]; split; [done|]; simpl; by rewrite Ec|].
      exists m. rewrite Ec, Ec1. by eapply mending_tail. }
  subst L'. assert (catalog e3 = catalog e1) as Ec3 by (rewrite <- (fl_catalog _ _ _ _ _ Hf); apply Hbz).
  pose proof (upkeep_replace δ L e3 tok (eid ext) old new p bad m b ps Hi3) as Hr. rewrite Ec3, Ec1 in Hr. rewrite Ec1 in Hd1. specialize (Hr Hd1 HL Hmd). unfold wp in Hr.
  assert (∀ e4, (inv δ L (e4 <| inflight ::= Inflight.release tok |>) ∧ same_disks δ (catalog e) (catalog e4) ∧ inflight e4 = inflight e3 ∧
    (∀ y, is_Some (extents (catalog e4) !! y) → is_Some (extents (catalog e) !! y))) → quietly δ L e (e4 <| inflight ::= Inflight.release tok |>)) as Hq.
  { intros e4 (H1 & [H2 H3] & H4 & H5). split; [|done]. split; [done| |done|done]. split; [intros y Hy; left; by apply H5|]. intros t [y Ht]. simpl. rewrite H4.
    rewrite <- (cm_inflight _ _ Hc1) in Ht. assert (t ≠ tok) as Hne by (intros ->; pose proof (fl_new _ _ _ _ _ Hf); congruence). rewrite release_held by done.
    apply (bz_tokens _ _ Hbz). rewrite (fl_others _ _ _ _ _ Hf) by done. by eexists. }
  destruct (settling tok (commit (ReplaceReplica (eid ext) old new)) e3) as [e4 [[]|err|]]; [destruct Hr as [Hr Hm']; split; [by apply Hq|done]| |done].
  destruct err as [| |me| |[]| | | | | | | |]; try exact (Hq _ Hr); (split; [exact (Hq _ Hr)|done]).
Qed.

Lemma upkeep_replace_all δ L ext bad : ∀ e current fence st m b ps,
  inv δ L e → disks_ok δ (catalog e) → mending δ (catalog e) (eid ext) bad m b ps →
  wp (replace_all ext current bad fence st) e (λ _ e', quietly δ L e e') (λ _ e', quietly δ L e e').
Proof.
  induction bad as [|[old p] bad IH]; intros e current fence st m b ps Hi Hd Hmd; simpl; [wp_simpl; by apply quietly_calm|]. rewrite wp_bind.
  eapply wp_mono; [by eapply upkeep_replace_one| |done]. intros r e1 [Hq Hr]. destruct r as [new| |]; [| |by wp_simpl]; destruct Hr as [m' Hm'];
    (eapply wp_mono; [eapply IH; [apply Hq|apply Hq|exact Hm']| |]; [intros a e2 H2|intros err e2 H2]; by eapply quietly_trans).
Qed.

(** ** What needs repair *)

Lemma pairwise_nth {A} (R : A → A → Prop) l i j x y : pairwise R l → (i < j)%nat → l !! i = Some x → l !! j = Some y → R x y.
Proof.
  revert i j. induction l as [|z l IH]; intros i j; [done|]. intros [Hz Hl] Hij Hi Hj. destruct j as [|j]; [lia|]. destruct i as [|i]; simplify_eq/=; [|eapply (IH i j); try done; lia].
  apply Hz. by eapply list_elem_of_lookup_2.
Qed.

(** No two parts of an extent are at the same place, unless they are empty. *)
Lemma part_places δ L e x m i j r :
  inv δ L e → extents (catalog e) !! x = Some m → replicas (extent m) !! i = Some r → replicas (extent m) !! j = Some r → i = j ∨ stored_len (extent m) = 0.
Proof.
  intros Hi Hm Hri Hrj. destruct (N.eq_0_gt_0_cases (stored_len (extent m))) as [|Hpos]; [by right|left].
  assert (pairwise (λ r r', clear (stored_len (extent m)) r (stored_len (extent m)) r') (replicas (extent m))) as Hp
    by (eapply (so_within _ _ (ok_space _ (iv_cat _ _ _ Hi)) x); unfold spots; by rewrite lookup_fmap, Hm).
  assert (∀ a b, (a < b)%nat → replicas (extent m) !! a = Some r → replicas (extent m) !! b = Some r → False) as Hno.
  { intros a b Hab Ha Hb. pose proof (pairwise_nth _ _ _ _ _ _ Hp Hab Ha Hb) as Hc. apply (Hc (node_id r) (device_index r) (offset r)); apply covers_split; split_and!; try done; lia. }
  destruct (Nat.lt_total i j) as [Hlt|[|Hlt]]; [by destruct (Hno i j)|done|by destruct (Hno j i)].
Qed.

Lemma describes_parts b ps ext : describes b ps ext → length ps = length (replicas ext).
Proof. intros [_ _ _ Hl]. unfold laid in Hl. destruct (ec ext); [by destruct Hl|]. by rewrite Hl, length_replicate. Qed.

(** Parts named by their positions. *)
Definition at_positions (ext : ExtentRef) (ps : list bytes) (idx : list nat) (bad : list (ReplicaRef * bytes)) : Prop :=
  NoDup idx ∧ Forall2 (λ i (x : ReplicaRef * bytes), replicas ext !! i = Some (x.1) ∧ ps !! i = Some (x.2)) idx bad.

Lemma mending_intro δ L e x m b ps idx bad :
  inv δ L e → extents (catalog e) !! x = Some m → δ !! x = Some b → describes b ps (extent m) → at_positions (extent m) ps idx bad →
  mending δ (catalog e) x bad m b ps.
Proof.
  intros Hi Hm Hb Hd [Hnd Hf]. assert (∀ y, y ∈ bad → ∃ i, i ∈ idx ∧ replicas (extent m) !! i = Some (y.1) ∧ ps !! i = Some (y.2)) as Hy.
  { intros y [j Hj]%list_elem_of_lookup. destruct (Forall2_lookup_r _ _ _ _ _ Hf Hj) as (i & Hij & ?). exists i. split; [by eapply list_elem_of_lookup_2|done]. }
  assert (∀ p, p ∈ ps → size p = stored_len (extent m)) as Hsz by (intros p; by eapply parts_size).
  split; try done; [by apply (iv_ext _ _ _ Hi x m Hm)| | |].
  - intros old p (i & _ & _ & Hp)%Hy. apply Hsz. by eapply list_elem_of_lookup_2.
  - intros old p pos (i & _ & Hr & Hp)%Hy Hpos. simpl in *. destruct (part_places _ _ _ _ _ _ _ _ Hi Hm Hr Hpos) as [<-|Hz]; [done|].
    destruct (lookup_lt_is_Some_2 ps pos) as [q Hq]; [rewrite (describes_parts _ _ _ Hd); by eapply lookup_lt_Some|]. rewrite Hq. f_equal.
    pose proof (Hsz p ltac:(by eapply list_elem_of_lookup_2)). pose proof (Hsz q ltac:(by eapply list_elem_of_lookup_2)). destruct p, q; simpl in *; try done; lia.
  - destruct (N.eq_0_gt_0_cases (stored_len (extent m))) as [|Hpos]; [by left|right]. split.
    + apply NoDup_alt. intros j1 j2 old. rewrite !list_lookup_fmap. destruct (bad !! j1) as [y1|] eqn:H1; [|done]. destruct (bad !! j2) as [y2|] eqn:H2; [|done]. intros [= <-] [= E].
      destruct (Forall2_lookup_r _ _ _ _ _ Hf H1) as (i1 & Hi1 & Hr1 & _), (Forall2_lookup_r _ _ _ _ _ Hf H2) as (i2 & Hi2 & Hr2 & _). rewrite E in Hr2.
      destruct (part_places _ _ _ _ _ _ _ _ Hi Hm Hr1 Hr2) as [<-|]; [|lia]. rewrite NoDup_alt in Hnd. by eapply Hnd.
    + intros old ([old' p] & -> & Hin)%list_elem_of_fmap. apply Hy in Hin as (i & _ & Hr & _). by eapply list_elem_of_lookup_2.
Qed.

Lemma upkeep_replace_replicas δ L e x m b ps ext idx bad fence st :
  inv δ L e → disks_ok δ (catalog e) → extents (catalog e) !! x = Some m → ext = extent m → δ !! x = Some b → describes b ps ext → at_positions ext ps idx bad →
  wp (replace_replicas ext bad fence st) e (λ _ e', quietly δ L e e') (λ _ e', quietly δ L e e').
Proof.
  intros Hi Hd Hm -> Hb Hds Hat. destruct (iv_ext _ _ _ Hi x m Hm) as [Hid _]. unfold replace_replicas, with_catalog. wp_simpl. rewrite Hid, Hm. rewrite bool_decide_true by done.
  eapply upkeep_replace_all; [done|done|]. rewrite Hid. by eapply mending_intro.
Qed.

Lemma sublist_positions {A} (l k : list A) : l `sublist_of` k → ∃ idx, NoDup idx ∧ Forall2 (λ i x, k !! i = Some x) idx l.
Proof.
  assert (∀ (idx : list nat) (l k : list A) y, NoDup idx → Forall2 (λ i x, k !! i = Some x) idx l → NoDup (S <$> idx) ∧ Forall2 (λ i x, (y :: k) !! i = Some x) (S <$> idx) l) as Hshift.
  { intros idx l' k' y Hnd Hf. split; [by apply NoDup_fmap; [apply _|]|]. by apply Forall2_fmap_l. }
  induction 1 as [|y l k _ (idx & Hnd & Hf)|y l k _ (idx & Hnd & Hf)]; [exists []; split; constructor|destruct (Hshift idx l k y Hnd Hf) as [H1 H2]..].
  - exists (0%nat :: (S <$> idx)). split; [|by constructor]. apply NoDup_cons. split; [by intros (i & ? & _)%list_elem_of_fmap|done].
  - by exists (S <$> idx).
Qed.

(** Copies that fail, and what the others hold. *)
Lemma soft_probe_replicas ext lost b ps l : describes b ps ext → ∀ good st,
  (∀ d, good = Some d → d = b) →
  soft (probe_replicas ext lost l good st : E _) (λ p, (∀ d, p.1.1 = Some d → d = b) ∧ p.1.2 `sublist_of` l).
Proof.
  intros Hd. induction l as [|r l IH]; intros good st Hg; simpl; [apply soft_ret; split; [done|constructor]|].
  assert (∀ st, soft (rest ← probe_replicas ext lost l good st; mret (rest.1.1, r :: rest.1.2, rest.2) : E (option bytes * list ReplicaRef * RepairStats))
    (λ p, (∀ d, p.1.1 = Some d → d = b) ∧ p.1.2 `sublist_of` (r :: l))) as Hbad.
  { intros st'. eapply soft_bind; [by apply IH|]. intros p [Hp1 Hp2]. apply soft_ret. split; [done|]. by apply sublist_skip. }
  apply soft_get. intros e. case_match; [|apply Hbad]. eapply soft_bind; [apply soft_read|]. intros [[buf|err|]|] Hb; [| |done|apply Hbad].
  - destruct (verify buf (checksum ext)) eqn:Hv; [|apply Hbad]. eapply soft_bind; [apply soft_mark_up|intros [] _].
    eapply soft_mono; [apply IH|intros p [Hp1 Hp2]; split; [done|by apply sublist_cons]]. intros d. destruct good as [g0|]; [by apply Hg|]. intros [= <-].
    rewrite (de_sum _ _ _ Hd) in Hv. by apply verify_true.
  - eapply soft_bind; [apply soft_mark_down|intros [] _; apply Hbad].
Qed.

(** Shards that can be read. *)
Lemma soft_probe_shards ext lay lost sc b ps l : Ec.encode sha256 rs_encode sc b = Ok (Ec.mkEcShards lay ps) → ∀ st,
  (∀ i, i ∈ l → (i < length (replicas ext))%nat) →
  soft (probe_shards ext lay lost l st : E _) (λ p, Forall2 (λ i o, ∀ s, o = Some s → ps !! i = Some s) l (p.1)).
Proof.
  intros He. induction l as [|i l IH]; intros st Hl; simpl; [by apply soft_ret|]. destruct (lookup_lt_is_Some_2 (replicas ext) i) as [r ->]; [apply Hl; by left|].
  eapply (soft_bind _ _ (λ o, ∀ s, o = Some s → ps !! i = Some s)); [case_bool_decide; [by apply soft_ret|by eapply soft_read_shard]|]. intros o Ho.
  eapply soft_bind; [apply IH; intros j Hj; apply Hl; by right|]. intros p Hp. apply soft_ret. by constructor.
Qed.

Lemma rebuilt_all sc b lay ps ss :
  erasure cfg = Some sc → size b < 2 ^ 63 → Ec.encode sha256 rs_encode sc b = Ok (Ec.mkEcShards lay ps) → Ec.remains ps ss →
  match Ec.rebuild rs_encode rs_decode lay ss with Ok all => all = ps | Err _ => True | Panic => False end.
Proof.
  intros Hc Hb He Hr. destruct (encoded_length _ _ _ _ Hc Hb He) as [Hlen _]. destruct (encoded _ _ _ _ He) as (pp & -> & Hpp & ->).
  destruct (Ec.split_shards_shape sc b) as [Hl _]. rewrite length_app in Hlen. simpl in *. set (lay := Ec.mkEcLayout _ _ _ _).
  destruct (N.le_gt_cases (Ec.sc_data sc) (N.of_nat (length (base.filter is_Some ss)))) as [Hen|Hen].
  - rewrite (Ec.rebuild_ok rs_encode rs_decode lay sc (Ec.split_shards sc b) pp ss); [done|by apply code_new|done|done|done|].
    apply (Ec.rebuild_data_ok rs_encode rs_decode lay sc (Ec.split_shards sc b) pp ss); [by apply code_law|by apply code_new|done|simpl; lia|done|done|done].
  - unfold Ec.rebuild, Ec.rebuild_data, Ec.scheme. simpl. rewrite (code_new sc Hc). simpl. destruct (negb _); [done|]. by rewrite (proj2 (N.ltb_lt _ _) Hen).
Qed.

Lemma mapM_positions ext ps (bad : list nat) :
  length ps = length (replicas ext) → NoDup bad → (∀ i, i ∈ bad → (i < length ps)%nat) →
  ∃ l, mapM (λ i, r ← replicas ext !! i; b ← ps !! i; Some (r, b)) bad = Some l ∧ at_positions ext ps bad l.
Proof.
  intros Hl Hnd Hb. destruct (mapM_is_Some_2 (λ i, r ← replicas ext !! i; b ← ps !! i; Some (r, b)) bad) as [l Hm].
  { apply Forall_forall. intros i Hi. specialize (Hb i Hi). unfold compose. destruct (lookup_lt_is_Some_2 (replicas ext) i ltac:(lia)) as [r ->]. destruct (lookup_lt_is_Some_2 ps i Hb) as [p ->]. by eexists. }
  exists l. split; [done|]. split; [done|]. apply mapM_Some_1 in Hm. eapply Forall2_impl; [exact Hm|]. intros i [r p]. destruct (replicas ext !! i); [|done]. destruct (ps !! i); [|done].
  simpl. by intros [= -> ->].
Qed.

Lemma maintains_repair x lost fence st : maintains (repair_extent_with x lost fence st) (λ _, True).
Proof.
  intros δ L e Hi Hd. unfold repair_extent_with, with_catalog. wp_simpl. destruct (extents (catalog e) !! x) as [m|] eqn:Hm; simpl; [|wp_simpl; split; [by apply quietly_calm|done]].
  destruct (iv_ext _ _ _ Hi x m Hm) as (Hid & b & ps & Hb & Hds & _). pose proof (describes_parts _ _ _ Hds) as Hlen.
  assert (∀ e1 idx bad st, calm e e1 → at_positions (extent m) ps idx bad →
    wp (replace_replicas (extent m) bad fence st) e1 (λ _ e', quietly δ L e e' ∧ True) (λ _ e', quietly δ L e e')) as Hrep.
  { intros e1 idx bad st' Hc Hat. pose proof (quietly_calm _ _ _ _ Hi Hd Hc) as Hq. destruct (after_calm _ _ _ _ Hi Hd Hc) as [_ Ec].
    eapply wp_mono; [eapply (upkeep_replace_replicas δ L e1 x m b ps); [apply Hq|apply Hq|by rewrite Ec|done|done|done|exact Hat]| |];
      [intros a e2 H2; split; [|done]|intros err e2 H2]; by eapply quietly_trans. }
  destruct (ec (extent m)) as [lay|] eqn:Hec.
  - pose proof (de_laid _ _ _ Hds) as Hl. unfold laid in Hl. rewrite Hec in Hl. destruct Hl as (_ & sc & Hsc & He). destruct (encoded_length _ _ _ _ Hsc (de_size _ _ _ Hds) He) as [Hps _].
    rewrite wp_bind. eapply wp_mono; [eapply soft_probe_shards; [exact He| |apply Hi]| |by intros err e1 Hc; apply quietly_calm].
    { intros i [_ Hlt]%elem_of_seq. lia. }
    intros p e1 [Hc Hp]. pose proof (quietly_calm _ _ _ _ Hi Hd Hc) as Hq. case_match; [by wp_simpl|].
    assert (Ec.remains ps (p.1)) as Hr.
    { apply Forall2_same_length_lookup. pose proof (Forall2_length _ _ _ Hp) as Hl1. rewrite length_seq in Hl1. split; [lia|]. intros i s o Hs Ho.
      destruct (Forall2_lookup_r _ _ _ _ _ Hp Ho) as (j & [-> _]%lookup_seq & Hj). destruct o as [s'|]; [right|by left]. specialize (Hj s' eq_refl). simpl in Hj. congruence. }
    pose proof (rebuilt_all _ _ _ _ _ Hsc (de_size _ _ _ Hds) He Hr) as Hre. destruct (Ec.rebuild _ _ lay (p.1)) as [all|err|]; [subst all|by wp_simpl|done].
    set (bad := List.filter _ _). destruct (mapM_positions (extent m) ps bad) as (l & -> & Hat); [done|apply list.NoDup_filter || (apply NoDup_ListNoDup, List.NoDup_filter, NoDup_ListNoDup, NoDup_seq)| |by eapply Hrep].
    intros i [Hi' _]%list_elem_of_In%filter_In. apply list_elem_of_In, elem_of_seq in Hi' as [_ Hlt]. rewrite (Forall2_length _ _ _ Hr). lia.
  - rewrite wp_bind. eapply wp_mono; [eapply (soft_probe_replicas _ _ _ _ _ Hds); [done|apply Hi]| |by intros err e1 Hc; apply quietly_calm].
    intros [[good bad] st'] e1 [Hc [Hg Hbad]]. simpl in *. pose proof (quietly_calm _ _ _ _ Hi Hd Hc) as Hq. destruct bad as [|r bad]; [by wp_simpl|]. destruct good as [d|]; [|by wp_simpl].
    specialize (Hg d eq_refl) as ->. destruct (sublist_positions _ _ Hbad) as (idx & Hnd & Hf). apply (Hrep e1 idx); [done|]. split; [done|].
    change (Forall2 (λ i (y : ReplicaRef * bytes), replicas (extent m) !! i = Some (y.1) ∧ ps !! i = Some (y.2)) idx ((λ r0, (r0, b)) <$> (r :: bad))). apply Forall2_fmap_r.
    eapply Forall2_impl; [exact Hf|]. intros i r' Hr'. split; [done|]. simpl. pose proof (de_laid _ _ _ Hds) as Hl. unfold laid in Hl. rewrite Hec in Hl. rewrite Hl.
    apply lookup_replicate_2. exact (lookup_lt_Some _ _ _ Hr').
Qed.

Lemma maintains_repair_once : maintains repair_once (λ _, True).
Proof.
  unfold repair_once. apply (maintains_bind _ _ (λ _, True)); [by apply maintains_soft, soft_ret|intros fence _].
  apply (maintains_bind _ _ (λ _, True)); [apply maintains_soft; by intros e He|intros l _].
  generalize no_repairs. induction l as [|x l IH]; intros st; simpl; [by apply maintains_ret|]. eapply maintains_bind; [apply maintains_repair|]. intros st' _. apply IH.
Qed.

End upkeep.
End EngineUpkeep.
