(* ===== verification/EngineSim.v ===== *)
(** * The engine as a whole

    Users, maintenance, writes and reads under way at the same time, and restarts: the
    engine's answers are those of byte sequences that change one operation at a time. *)

From stdpp Require Import pretty.
From S2P Require Import Prelude MetaError FreeList Wal WalSpec Ec Catalog Extents Metadata Space MetaSpace MetaRefs MetaSpec NativeError Device Objects Placement Inflight Engine EngineRead EngineWrite EngineRepair EngineMeta EngineData EngineInv EnginePlace EngineCat EngineRange EngineBatch EngineCommit EngineDisks EngineSpec EngineOps EngineWrites EngineUpkeep.

Module EngineSim.
Import Placement Catalog Extents Metadata Space MetaSpace MetaSpec NativeError Device Objects Engine EngineRead EngineWrite EngineRepair EngineMeta EngineData EngineInv EnginePlace EngineCat EngineRange EngineBatch EngineCommit EngineDisks EngineSpec EngineOps EngineWrites EngineUpkeep.

Open Scope N_scope.

Section sim.
Context {D O : Type} {BD : BlockStore D} {LD : BlockStoreLaws D} {BO : ObjectStore O} {LO : ObjectStoreLaws O} {P : EngineParams} {POk : ParamsOk P}.

Abbreviation Eng := (Engine D O).
Abbreviation E := (SM Eng NativeError).
Implicit Types e : Eng.
Abbreviation g := (extent_bytes cfg).

(** ** Restarts *)

(** The devices after a restart: they hold what they held. *)
Definition reopened (n : NodeRuntime D) (ds : list D) : Prop := Forall2 (λ d d', bs_wf d' ∧ grows (λ _, False) d d') (devices n) ds.

(** Identifiers go on where they were. *)
Definition later_uuids (e : Eng) : N → string := λ k, uuid e (uuids e + k).

Definition reopen (e : Eng) (dss : list (list D)) (obj : option O) (clk : N → N) (dk : N → DiskFault) : res NativeError Eng :=
  open_with_devices (zip (spec <$> nodes e) dss) (stored e) (WalSpec.l_recs (wal e)) obj clk (later_uuids e) dk (λ _, true).

(** The engine that [open_with_devices] builds before its first checkpoint. *)
Definition opened (specs : list (Node * list D)) (c st : Catalog) (recs : list Record_) (obj : option O) (clk : N → N) (us : N → string) (dk : N → DiskFault) (ds : N → bool) : Eng :=
  mkEngine ((λ x : Node * list D, mkRuntime (x.1) (x.2) 0 None None 0) <$> specs) c (raise_floor (applied_index c) (open_wal recs)) (size recs) true st Inflight.initial ∅ obj (clk 0)
    clk 1 us 0 dk ds 0.

Lemma initial_consistent fl : FreeList.wf fl → Inflight.consistent fl Inflight.initial.
Proof. intros Hwf. split; [done|by intros v t|by constructor|by intros r ?%elem_of_nil|done|by intros k [x Hx]]. Qed.

(** What the restart loads is what was committed. *)
Lemma opened_durable specs c st recs obj clk us dk ds :
  replay_records recs st = Ok c → Forall (λ r, Wal.index r <= applied_index c) recs → applied_index st <= applied_index c → (∀ k, ds k = true) →
  durable (opened specs c st recs obj clk us dk ds).
Proof. intros Hr Hf Hs Hd. split; simpl; try done. lia. Qed.

Lemma open_spec specs c st recs obj clk us dk ds (Q : Eng → Prop) :
  extent_bytes cfg ≠ 0 → Forall (λ x : Node * list D, x.2 ≠ []) specs → replay_records recs st = Ok c → durable (opened specs c st recs obj clk us dk ds) →
  (∀ e', meta_only (opened specs c st recs obj clk us dk ds) e' → durable e' → catalog e' = c → Q e') →
  match open_with_devices specs st recs obj clk us dk ds with Ok e' => Q e' | Err err => err = Io | Panic => False end.
Proof.
  intros Hg Hsp Hr Hdu HQ. unfold open_with_devices. rewrite (proj2 (N.eqb_neq _ _) Hg). destruct (existsb _ specs) eqn:He.
  { apply existsb_exists in He as (x & Hx & Hl%bool_decide_eq_true). rewrite Forall_forall in Hsp. destruct (Hsp x); [by apply list_elem_of_In|by apply length_zero_iff_nil]. }
  unfold load_local. rewrite Hr. simpl. fold (opened specs c st recs obj clk us dk ds). pose proof (save_checkpoint_durable _ Hdu) as Hs. unfold wp in Hs.
  destruct (save_checkpoint _) as [e' [[]|err|]]; [|tauto|done]. destruct Hs as (Hm & Hd & Hc & _). by apply HQ.
Qed.

Lemma dev_opened specs c st recs obj clk us dk ds i k :
  dev (opened specs c st recs obj clk us dk ds) i k = specs !! i ≫= λ x, x.2 !! k.
Proof. unfold dev, opened. simpl. rewrite list_lookup_fmap. by destruct (specs !! i). Qed.

Lemma find_opened e dss c st recs obj clk us dk ds nd :
  length dss = length (nodes e) → find_node (opened (zip (spec <$> nodes e) dss) c st recs obj clk us dk ds) nd = find_node e nd.
Proof.
  unfold find_node, opened. simpl. generalize (nodes e). intros l. revert dss. induction l as [|n l IH]; intros [|x dss] Hl; try done. simpl. injection Hl as Hl.
  destruct (String.eqb _ _); [done|]. by rewrite IH.
Qed.

Lemma reopen_spec δ L e dss obj clk dk :
  inv δ L e → Forall2 reopened (nodes e) dss → objects_same (objects e) obj →
  match reopen e dss obj clk dk with Ok e' => inv δ [] e' ∧ catalog e' = catalog e | Err err => err = Io | Panic => False end.
Proof.
  intros Hi Hds Hobj. pose proof (Forall2_length _ _ _ Hds) as Hlen. destruct (iv_dur _ _ _ Hi) as [_ Hrep Hcov Hst _ _].
  assert (∀ i k d', dev (opened (zip (spec <$> nodes e) dss) (catalog e) (stored e) (WalSpec.l_recs (wal e)) obj clk (later_uuids e) dk (λ _, true)) i k = Some d' →
    ∃ d, dev e i k = Some d ∧ bs_wf d' ∧ grows (λ _, False) d d') as Hback.
  { intros i k d'. rewrite dev_opened, lookup_zip_with, list_lookup_fmap. destruct (nodes e !! i) as [n|] eqn:Hn; [|done]. simpl. destruct (dss !! i) as [ds|] eqn:Hd; [|done]. simpl.
    intros Hk. pose proof (Forall2_lookup_lr _ _ _ _ _ _ Hds Hn Hd) as Hr. destruct (Forall2_lookup_r _ _ _ _ _ Hr Hk) as (d & Hdk & ? & ?). exists d. unfold dev. by rewrite Hn. }
  assert (durable (opened (zip (spec <$> nodes e) dss) (catalog e) (stored e) (WalSpec.l_recs (wal e)) obj clk (later_uuids e) dk (λ _, true))) as Hdu by (by apply opened_durable).
  assert (Forall (λ x : Node * list D, x.2 ≠ []) (zip (spec <$> nodes e) dss)) as Hne.
  { apply Forall_forall. intros [sp ds] Hin. apply list_elem_of_lookup in Hin as [i Hin]. rewrite lookup_zip_with, list_lookup_fmap in Hin. destruct (nodes e !! i) as [n|] eqn:Hn; [|done]. simpl in Hin.
    destruct (dss !! i) as [ds'|] eqn:Hd; [|done]. injection Hin as <- <-. simpl. intros ->. pose proof (Forall2_lookup_lr _ _ _ _ _ _ Hds Hn Hd) as Hr%Forall2_length.
    pose proof (no_some _ (iv_nodes _ _ _ Hi) i n Hn). by destruct (devices n). }
  apply (open_spec _ (catalog e)); [pose proof grid_pos; lia|done|done|done|].
  intros e' Hm Hdu' Hcat. split; [|done]. rewrite <- (inflight_eta e'), (mo_inflight _ _ Hm).
  set (e0 := opened _ _ _ _ _ _ _ _ _) in *. assert (∀ nd, find_node e0 nd = find_node e nd) as Hfn by (intros nd; by apply find_opened).
  assert (inv δ [] e0) as Hi0; [|apply (inv_becomes δ [] [] e0 e'); [done|done|done| |by left]; eapply becomes_quiet; [done|rewrite Hcat; apply Hi|by rewrite Hcat]].
  assert (∀ r p, stored_at e r p → stored_at e0 r p) as Hst0.
  { intros r p Hr i d' Hn Hd. rewrite Hfn in Hn. destruct (Hback _ _ _ Hd) as (d & Hdv & _ & [_ Hend Hpk]). destruct (Hr i d Hn Hdv) as [Hle Hp]. split; [lia|]. rewrite Hpk; [done|done|by intros b0 _ Hf0]. }
  split.
  - apply Hi.
  - done.
  - split; [intros i k d Hd; by destruct (Hback _ _ _ Hd) as (_ & _ & ? & _)|]. intros i n' Hn'. unfold e0, opened in Hn'. simpl in Hn'. rewrite list_lookup_fmap in Hn'.
    destruct (zip _ dss !! i) as [y|] eqn:Hy; [|done]. injection Hn' as <-. simpl. rewrite Forall_forall in Hne. apply (Hne y). by eapply list_elem_of_lookup_2.
  - apply initial_consistent. apply (ok_space _ (iv_cat _ _ _ Hi)).
  - by intros fr nd k b ?%elem_of_nil.
  - intros nd k b i d' Hf Hn Hd. rewrite Hfn in Hn. destruct (Hback _ _ _ Hd) as (d & Hdv & _ & [_ Hend _]). pose proof (iv_low _ _ _ Hi nd k b i d Hf Hn Hdv). lia.
  - intros x m Hx. destruct (iv_ext _ _ _ Hi x m Hx) as (Hid & b & ps & Hb & Hd & Hk). split; [done|]. exists b, ps. split_and!; try done. unfold kept in *.
    destruct (object (extent m)); [|eapply Forall2_impl; [exact Hk|]; intros r p; apply Hst0]. destruct Hk as (? & ? & Ho). split_and!; try done. intros o Hoo.
    change (obj = Some o) in Hoo. subst obj. unfold objects_same in Hobj. destruct (objects e) as [o0|]; [|done]. rewrite Hobj. by apply Ho.
  - constructor.
  - done.
  - intros k _. apply (iv_fresh _ _ _ Hi). lia.
  - intros j k _ Hjk. apply (iv_uuid _ _ _ Hi); lia.
Qed.

(** ** The world *)

(** A write of whole cells, and a read after its lookup. *)
Record Writer := mkWriter { wr_aligned : Aligned; wr_volume : string; wr_offset : N; wr_data : bytes }.
Record Reader := mkReader { rd_extents : list ExtentRef; rd_offset : N; rd_len : N }.

Record World := mkWorld { eng : Eng; writers : list Writer; readers : list Reader }.

(** What happens: an operation as a whole; maintenance; the two halves of a write of
    whole cells or of a read, with anything in between; a restart. *)
Inductive Task :=
| Do (op : Op)
| Gc
| RepairOnce
| RepairExtent (x : string) (lost : gset string)
| TierOnce (policy : TierPolicy) (stop : nat → bool)
| Checkpoint
| WriteBegin (id : string) (offset : N) (data : bytes)
| WriteEnd (k : nat)
| ReadBegin (id : string) (offset n : N)
| SnapBegin (id : string) (offset n : N)
| ReadEnd (k : nat)
| Restart (dss : list (list D)) (obj : option O) (clk : N → N) (dk : N → DiskFault).

Definition quiet_bytes {A} (m : E A) : E bytes := m ;; mret [].

Definition run_op (op : Op) : E bytes :=
  match op with
  | VCreate id name sz => quiet_bytes (create_volume_as id name sz)
  | VDelete id => quiet_bytes (delete_volume id)
  | VResize id sz => quiet_bytes (resize_volume id sz)
  | VClone id snapshot name sz => quiet_bytes (clone_snapshot_as id snapshot name sz)
  | SCreate id volume name => quiet_bytes (create_snapshot_as id volume name)
  | SDelete id => quiet_bytes (delete_snapshot id)
  | VWrite id offset data => quiet_bytes (write id offset data)
  | VRead id offset n => read id offset n
  | SRead id offset n => read_snapshot id offset n
  end.

Definition remove_nth {A} (k : nat) (l : list A) : list A := take k l ++ drop (S k) l.

Definition with_eng {A} (m : E A) (w : World) (k : A → World → World * res NativeError bytes) : World * res NativeError bytes :=
  match m (eng w) with
  | (e, Ok a) => k a (mkWorld e (writers w) (readers w))
  | (e, Err err) => (mkWorld e (writers w) (readers w), Err err)
  | (e, Panic) => (mkWorld e (writers w) (readers w), Panic)
  end.

Definition start_read (r : Catalog → res NativeError (list ExtentRef)) (offset n : N) (w : World) : World * res NativeError bytes :=
  match r (catalog (eng w)) with
  | Ok l => (mkWorld (eng w) (writers w) (readers w ++ [mkReader l offset n]), Ok [])
  | Err err => (w, Err err)
  | Panic => (w, Panic)
  end.

Definition perform_task (t : Task) (w : World) : World * res NativeError bytes :=
  match t with
  | Do op => with_eng (run_op op) w (λ b w, (w, Ok b))
  | Gc => with_eng (quiet_bytes gc_once) w (λ b w, (w, Ok b))
  | RepairOnce => with_eng (quiet_bytes repair_once) w (λ b w, (w, Ok b))
  | RepairExtent x lost => with_eng (quiet_bytes (repair_extent x lost)) w (λ b w, (w, Ok b))
  | TierOnce policy stop => with_eng (quiet_bytes (tier_once policy stop)) w (λ b w, (w, Ok b))
  | Checkpoint => with_eng (quiet_bytes checkpoint) w (λ b w, (w, Ok b))
  | WriteBegin id offset data =>
      with_eng (aligned_begin (TVolume id) offset data (in_bounds id offset data)) w (λ o w,
        match o with
        | Some a => (mkWorld (eng w) (writers w ++ [mkWriter a id offset data]) (readers w), Ok [])
        | None => (w, Ok [])
        end)
  | WriteEnd k =>
      match writers w !! k with
      | Some wr =>
          with_eng (aligned_end (wr_aligned wr) (in_bounds (wr_volume wr) (wr_offset wr) (wr_data wr)))
            (mkWorld (eng w) (remove_nth k (writers w)) (readers w)) (λ _ w, (w, Ok []))
      | None => (w, Ok [])
      end
  | ReadBegin id offset n => start_read (volume_range id offset n) offset n w
  | SnapBegin id offset n => start_read (snapshot_range id offset n) offset n w
  | ReadEnd k =>
      match readers w !! k with
      | Some r => with_eng (read_range (rd_extents r) (rd_offset r) (rd_len r)) (mkWorld (eng w) (writers w) (remove_nth k (readers w))) (λ b w, (w, Ok b))
      | None => (w, Ok [])
      end
  | Restart dss obj clk dk =>
      match reopen (eng w) dss obj clk dk with
      | Ok e => (mkWorld e [] [], Ok [])
      | Err err => (w, Err err)
      | Panic => (w, Panic)
      end
  end.

(** What is asked of a task: sizes that are below the largest 64-bit one, and
    devices and objects that survive a restart. *)
Definition task_ok (t : Task) (w : World) : Prop :=
  match t with
  | Do (VCreate _ _ sz) | Do (VResize _ sz) => sz < u64_max
  | Do (VClone _ _ _ (Some sz)) => sz < u64_max
  | Restart dss obj _ _ => Forall2 reopened (nodes (eng w)) dss ∧ objects_same (objects (eng w)) obj
  | _ => True
  end.

Inductive trace : World → list (Task * res NativeError bytes) → World → Prop :=
| trace_nil w : trace w [] w
| trace_cons w t w1 r l w2 : task_ok t w → perform_task t w = (w1, r) → trace w1 l w2 → trace w ((t, r) :: l) w2.

(** ** What users may rely on *)

(** The disks, the writes that have not taken place yet and the bytes that reads
    under way will return. *)
Record Promise := mkPromise { pr_disks : Disks; pr_writers : list (string * N * bytes); pr_readers : list bytes }.

(** An operation that fails did nothing or all of it. *)
Definition fails (op : Op) (s s' : Disks) : Prop := s' = s ∨ ∃ b, perform op s = Some (s', b).

(** An answer without bytes. *)
Definition answered (r : res NativeError bytes) : Prop := r = Ok [] ∨ ∃ err, r = Err err.

Inductive allows : Promise → Task → res NativeError bytes → Promise → Prop :=
| al_do op s s' ws rs b : perform op s = Some (s', b) → allows (mkPromise s ws rs) (Do op) (Ok b) (mkPromise s' ws rs)
| al_do_err op s s' ws rs err : fails op s s' → allows (mkPromise s ws rs) (Do op) (Err err) (mkPromise s' ws rs)
| al_upkeep t p r : match t with Gc | RepairOnce | RepairExtent _ _ | TierOnce _ _ | Checkpoint => True | _ => False end → answered r → allows p t r p
| al_begin id off data s ws rs : allows (mkPromise s ws rs) (WriteBegin id off data) (Ok []) (mkPromise s (ws ++ [(id, off, data)]) rs)
| al_begin_none id off data p r : answered r → allows p (WriteBegin id off data) r p
| al_end k id off data s s' ws rs : ws !! k = Some (id, off, data) → perform (VWrite id off data) s = Some (s', []) →
    allows (mkPromise s ws rs) (WriteEnd k) (Ok []) (mkPromise s' (remove_nth k ws) rs)
| al_end_err k id off data s s' ws rs err : ws !! k = Some (id, off, data) → fails (VWrite id off data) s s' →
    allows (mkPromise s ws rs) (WriteEnd k) (Err err) (mkPromise s' (remove_nth k ws) rs)
| al_end_none k p : pr_writers p !! k = None → allows p (WriteEnd k) (Ok []) p
| al_read id off n s ws rs b : perform (VRead id off n) s = Some (s, b) → allows (mkPromise s ws rs) (ReadBegin id off n) (Ok []) (mkPromise s ws (rs ++ [b]))
| al_read_err id off n p err : perform (VRead id off n) (pr_disks p) = None → allows p (ReadBegin id off n) (Err err) p
| al_snap id off n s ws rs b : perform (SRead id off n) s = Some (s, b) → allows (mkPromise s ws rs) (SnapBegin id off n) (Ok []) (mkPromise s ws (rs ++ [b]))
| al_snap_err id off n p err : perform (SRead id off n) (pr_disks p) = None → allows p (SnapBegin id off n) (Err err) p
| al_got k s ws rs b : rs !! k = Some b → allows (mkPromise s ws rs) (ReadEnd k) (Ok b) (mkPromise s ws (remove_nth k rs))
| al_got_err k s ws rs err : is_Some (rs !! k) → allows (mkPromise s ws rs) (ReadEnd k) (Err err) (mkPromise s ws (remove_nth k rs))
| al_got_none k p : pr_readers p !! k = None → allows p (ReadEnd k) (Ok []) p
| al_restart dss obj clk dk s ws rs : allows (mkPromise s ws rs) (Restart dss obj clk dk) (Ok []) (mkPromise s [] [])
| al_restart_err dss obj clk dk p : allows p (Restart dss obj clk dk) (Err Io) p.

Inductive promised : Promise → list (Task * res NativeError bytes) → Promise → Prop :=
| promised_nil p : promised p [] p
| promised_cons p t r p1 l p2 : allows p t r p1 → promised p1 l p2 → promised p ((t, r) :: l) p2.

(** ** The correspondence *)

(** A writer and the parts it placed. *)
Abbreviation Flight := (Writer * list Claim)%type.

Record flying (δ : gmap ExtentId bytes) (e : Eng) (fs : list Flight) : Prop := {
  fy_pending : Forall (λ f : Flight, pending δ e (f.2) (wr_aligned (f.1)) (wr_volume (f.1)) (wr_offset (f.1)) (wr_data (f.1))) fs;
  fy_tokens : NoDup ((λ f : Flight, al_token (wr_aligned (f.1))) <$> fs);
  fy_ids : NoDup (concat ((λ f : Flight, eid <$> al_placed (wr_aligned (f.1))) <$> fs));
}.

Definition will_read (δ : gmap ExtentId bytes) (r : Reader) (b : bytes) : Prop :=
  ∃ m, looked_up δ g m (rd_extents r) (rd_offset r) (rd_len r) ∧ stocked δ m ∧ b = slice δ g m (rd_offset r) (rd_len r).

Definition target (wr : Writer) : string * N * bytes := (wr_volume wr, wr_offset wr, wr_data wr).

Record sim (w : World) (p : Promise) (δ : gmap ExtentId bytes) (fs : list Flight) : Prop := {
  sm_inv : inv δ (concat (fs.*2)) (eng w);
  sm_ok : disks_ok δ (catalog (eng w));
  sm_disks : pr_disks p = disks δ (catalog (eng w));
  sm_flying : flying δ (eng w) fs;
  sm_writers : writers w = fs.*1;
  sm_targets : pr_writers p = target <$> writers w;
  sm_readers : Forall2 (will_read δ) (readers w) (pr_readers p);
}.

Lemma pending_after δ δ' e e' L' a id off data : δ ⊆ δ' → keeps δ e e' → pending δ e L' a id off data → pending δ' e' L' a id off data.
Proof.
  intros Hs [Hn Ht] [H1 H2 H3 H4 H5 H6 H7 H8 H9]. split; try done; [by eapply prepared_mono| | |by apply Ht].
  - intros ext Hext. destruct (extents (catalog e') !! eid ext) as [m|] eqn:Hm; [|done]. exfalso. destruct (Hn (eid ext)) as [[m' Hm']|Hnone]; [by eexists|rewrite (H7 ext Hext) in Hm'; done|].
    destruct (prepared_elem _ _ _ _ _ H5 Hext) as (ps & [(b & Hb & _) _ _] & _). congruence.
  - eapply Forall2_impl; [exact H8|]. intros x ext [Hl Hx]. split; [done|by eapply lookup_weaken].
Qed.

Lemma flying_after δ δ' e e' fs : δ ⊆ δ' → keeps δ e e' → flying δ e fs → flying δ' e' fs.
Proof. intros Hs Hk [H1 H2 H3]. split; try done. eapply Forall_impl; [exact H1|]. intros f. by apply pending_after. Qed.

Lemma slice_mono δ δ' m off n : δ ⊆ δ' → stocked δ m → slice δ' g m off n = slice δ g m off n.
Proof.
  intros Hs Hm. unfold slice. apply list_fmap_ext. intros _ j _. unfold byte_at, cell_bytes. destruct (m !! _) as [x|] eqn:Hx; [|done].
  destruct (Hm _ _ Hx) as [b Hb]. simpl. by rewrite Hb, (lookup_weaken _ _ _ _ Hb Hs).
Qed.

Lemma will_read_mono δ δ' r b : δ ⊆ δ' → will_read δ r b → will_read δ' r b.
Proof.
  intros Hs (m & Hl & Hm & ->). exists m. split; [by eapply looked_up_mono|]. split; [|by rewrite (slice_mono δ δ')].
  intros k x Hx. destruct (Hm k x Hx) as [b Hb]. exists b. by eapply lookup_weaken.
Qed.

Lemma sim_after w p δ δ' fs e' :
  sim w p δ fs → after δ δ' (concat (fs.*2)) (eng w) e' →
  sim (mkWorld e' (writers w) (readers w)) (mkPromise (disks δ' (catalog e')) (pr_writers p) (pr_readers p)) δ' fs.
Proof.
  intros [Hi Hok Hd Hf Hw Ht Hr] [Hs Hk Hi' Hd']. split; try done; [by eapply flying_after|]. eapply Forall2_impl; [exact Hr|]. intros r b. by apply will_read_mono.
Qed.

(** ** One task *)

(** The answer to a task, with the promise after it. *)
Definition answers (w : World) (p : Promise) (t : Task) : Prop :=
  let '(w', r) := perform_task t w in ∃ p' δ' fs', allows p t r p' ∧ sim w' p' δ' fs'.

Lemma promise_eta p : mkPromise (pr_disks p) (pr_writers p) (pr_readers p) = p.
Proof. by destruct p. Qed.

Lemma answers_do w p δ fs op :
  sim w p δ fs → serves δ (concat (fs.*2)) (eng w) op (λ b, b) (run_op op) → answers w p (Do op).
Proof.
  intros Hsim Hs. unfold answers. simpl. unfold with_eng. unfold serves, wp in Hs. rewrite <- (promise_eta p), (sm_disks _ _ _ _ Hsim).
  destruct (run_op op (eng w)) as [e' [b|err|]]; [| |done]; destruct Hs as (δ' & Ha & Hp); do 3 eexists; (split; [|by eapply sim_after]); [by constructor|by constructor].
Qed.

Lemma serves_quiet {A} δ L e op (m : E A) : serves δ L e op (λ _, []) m → serves δ L e op (λ b, b) (quiet_bytes m).
Proof. intros Hm. by apply (serves_ret _ _ _ _ _ (λ _ : A, [] : bytes)). Qed.

Lemma run_op_serves δ L e op w : inv δ L e → disks_ok δ (catalog e) → task_ok (Do op) w → serves δ L e op (λ b, b) (run_op op).
Proof.
  intros Hi Hd Ht. destruct op as [id name sz|id|id sz|id sn name sz|id v name|id|id off data|id off n|id off n]; simpl in *.
  - by apply serves_quiet, serves_create.
  - by apply serves_quiet, serves_delete.
  - by apply serves_quiet, serves_resize.
  - apply serves_quiet, serves_clone; [done|done|]. by destruct sz as [n|]; [intros ? [= <-]|].
  - by apply serves_quiet, serves_snapshot.
  - by apply serves_quiet, serves_drop.
  - by apply serves_quiet, serves_write.
  - by apply serves_read.
  - by apply serves_read_snapshot.
Qed.

Lemma answers_upkeep {A} w p δ fs t (m : E A) Q :
  sim w p δ fs → match t with Gc | RepairOnce | RepairExtent _ _ | TierOnce _ _ | Checkpoint => True | _ => False end →
  perform_task t w = with_eng (quiet_bytes m) w (λ b w, (w, Ok b)) → maintains m Q → answers w p t.
Proof.
  intros Hsim Ht Hp Hm. unfold answers. rewrite Hp. unfold with_eng, quiet_bytes, mbind, sm_bind. specialize (Hm δ _ (eng w) (sm_inv _ _ _ _ Hsim) (sm_ok _ _ _ _ Hsim)). unfold wp in Hm.
  assert (∀ e', quietly δ (concat (fs.*2)) (eng w) e' → sim (mkWorld e' (writers w) (readers w)) p δ fs) as Hq.
  { intros e' [Ha Hd]. pose proof (sim_after _ _ _ _ _ _ Hsim Ha) as Hs. by rewrite Hd, <- (sm_disks _ _ _ _ Hsim), promise_eta in Hs. }
  destruct (m (eng w)) as [e' [a|err|]]; [| |done]; exists p, δ, fs; (split; [apply al_upkeep; [done|]|]); [by left|apply Hq, Hm|right; by eexists|by apply Hq].
Qed.

(** ** Writes in two halves *)

Lemma flying_ids δ e fs x : flying δ e fs → x ∈ concat ((λ f : Flight, eid <$> al_placed (wr_aligned (f.1))) <$> fs) → is_Some (δ !! x).
Proof.
  intros [Hp _ _] Hx. apply elem_of_concat in Hx as (ids & Hids & Hx). apply list_elem_of_fmap in Hids as (f & -> & Hf).
  apply list_elem_of_fmap in Hx as (ext & -> & Hext). rewrite Forall_forall in Hp. pose proof (Hp f Hf) as Hpn.
  destruct (prepared_elem _ _ _ _ _ (pn_prepared _ _ _ _ _ _ _ Hpn) Hext) as (ps & [(b & Hb & _) _ _] & _). by eexists.
Qed.

Lemma flying_tokens δ e fs t : flying δ e fs → t ∈ ((λ f : Flight, al_token (wr_aligned (f.1))) <$> fs) → is_Some (Inflight.held (inflight e) !! t).
Proof. intros [Hp _ _] (f & -> & Hf)%list_elem_of_fmap. rewrite Forall_forall in Hp. apply (Hp f Hf). Qed.

Lemma begun_keeps δ δ' L L' e e' a id off data : begun δ δ' L L' e e' a id off data → keeps δ e e'.
Proof. intros Hb. split; [|apply Hb]. rewrite (bg_catalog _ _ _ _ _ _ _ _ _ _ Hb). by left. Qed.

Lemma flying_begun δ δ' L L' e e' a id off data fs :
  flying δ e fs → begun δ δ' L L' e e' a id off data → flying δ' e' (fs ++ [(mkWriter a id off data, L')]).
Proof.
  intros Hf Hb. destruct (flying_after _ _ _ _ _ (bg_sub _ _ _ _ _ _ _ _ _ _ Hb) (begun_keeps _ _ _ _ _ _ _ _ _ _ Hb) Hf) as [H1 H2 H3]. split.
  - apply Forall_app. split; [done|]. apply Forall_singleton. apply Hb.
  - rewrite fmap_app. apply NoDup_app. split_and!; [done| |apply NoDup_singleton]. intros t Ht ->%list_elem_of_singleton. simpl in Ht.
    destruct (flying_tokens _ _ _ _ Hf Ht) as [x Hx]. pose proof (bg_fresh _ _ _ _ _ _ _ _ _ _ Hb). congruence.
  - rewrite fmap_app, concat_app. apply NoDup_app. simpl. rewrite app_nil_r. split_and!; [done| |apply (bg_pending _ _ _ _ _ _ _ _ _ _ Hb)].
    intros x Hx (ext & -> & Hext)%list_elem_of_fmap. destruct (flying_ids _ _ _ _ Hf Hx) as [b Hbx]. pose proof (bg_unknown _ _ _ _ _ _ _ _ _ _ Hb ext Hext). congruence.
Qed.

Lemma answers_begin w p δ fs id off data : sim w p δ fs → answers w p (WriteBegin id off data).
Proof.
  intros Hsim. pose proof Hsim as [Hi Hok Hd Hf Hw Ht Hr]. unfold answers. simpl. unfold with_eng.
  pose proof (aligned_begin_spec δ (concat (fs.*2)) (eng w) id off data Hi Hok) as Hb. unfold wp in Hb. destruct (aligned_begin _ _ _ _ (eng w)) as [e' [[a|]|err|]]; [| | |done].
  - destruct Hb as (δ' & L' & Hb). destruct (disks_mono _ _ _ (bg_sub _ _ _ _ _ _ _ _ _ _ Hb) Hok) as [Hok' Eq]. rewrite <- (promise_eta p).
    do 2 eexists. exists (fs ++ [(mkWriter a id off data, L')]). split; [apply al_begin|]. split; simpl.
    + rewrite fmap_app, concat_app. simpl. rewrite app_nil_r. eapply inv_perm; [|apply Hb]. apply Permutation_app_comm.
    + by rewrite (bg_catalog _ _ _ _ _ _ _ _ _ _ Hb).
    + by rewrite (bg_catalog _ _ _ _ _ _ _ _ _ _ Hb), Eq.
    + by eapply flying_begun.
    + by rewrite fmap_app, Hw.
    + rewrite fmap_app, Ht. done.
    + eapply Forall2_impl; [exact Hr|]. intros r b. by apply will_read_mono, Hb.
  - subst e'. exists p, δ, fs. split; [apply al_begin_none; by left|]. by destruct w.
  - destruct Hb as (δ' & Ha & Ec). destruct (disks_mono _ _ _ (af_sub _ _ _ _ _ Ha) Hok) as [_ Eq]. exists p, δ', fs. split; [apply al_begin_none; right; by eexists|].
    pose proof (sim_after _ _ _ _ _ _ Hsim Ha) as Hs. by rewrite Ec, Eq, <- Hd, promise_eta in Hs.
Qed.

(** What is left when a writer is done. *)
Lemma flying_landed δ e e' f fs1 fs2 :
  flying δ e (fs1 ++ f :: fs2) → landed δ (concat ((fs1 ++ fs2).*2)) e e' (al_token (wr_aligned (f.1))) (al_placed (wr_aligned (f.1))) → flying δ e' (fs1 ++ fs2).
Proof.
  intros [H1 H2 H3] Hl. rewrite !fmap_app, fmap_cons in *. rewrite concat_app in H3. simpl in H3.
  apply Forall_app in H1 as [Ha [Hf Hb]%Forall_cons]. apply NoDup_app in H2 as (N1 & N2 & [N3 N4]%NoDup_cons).
  apply NoDup_app in H3 as (I1 & I2 & (I3 & I4 & I5)%NoDup_app).
  assert (∀ f', f' ∈ fs1 ++ fs2 → al_token (wr_aligned (f'.1)) ≠ al_token (wr_aligned (f.1)) ∧
    ∀ x, x ∈ eid <$> al_placed (wr_aligned (f'.1)) → x ∉ eid <$> al_placed (wr_aligned (f.1))) as Hother.
  { assert (∀ (l : list Flight) f' x, f' ∈ l → x ∈ eid <$> al_placed (wr_aligned (f'.1)) → x ∈ concat ((λ f : Flight, eid <$> al_placed (wr_aligned (f.1))) <$> l)) as Hc.
    { intros l f' x Hf' Hx. apply elem_of_concat. eexists. split; [apply list_elem_of_fmap_2; exact Hf'|done]. }
    intros f' [Hf'|Hf']%elem_of_app; split.
    - intros E. eapply N2; [apply list_elem_of_fmap_2; exact Hf'|]. rewrite E. by left.
    - intros x Hx Hx'. eapply I2; [by eapply Hc|]. apply elem_of_app. by left.
    - intros E. apply N3. rewrite <- E. by apply (list_elem_of_fmap_2 (λ f : Flight, al_token (wr_aligned (f.1)))).
    - intros x Hx Hx'. eapply I4; [exact Hx'|by eapply Hc]. }
  split.
  - apply Forall_forall. intros f' Hf'. destruct (Hother f' Hf') as [Htok Hid]. assert (pending δ e (f'.2) (wr_aligned (f'.1)) (wr_volume (f'.1)) (wr_offset (f'.1)) (wr_data (f'.1))) as Hp.
    { rewrite Forall_forall in Ha, Hb. apply elem_of_app in Hf' as [|]; auto. }
    destruct Hp as [P1 P2 P3 P4 P5 P6 P7 P8 P9]. split; try done; [|by apply (ld_tokens _ _ _ _ _ _ Hl)].
    intros ext Hext. destruct (extents (catalog e') !! eid ext) as [m|] eqn:Hm; [|done]. exfalso. destruct (ld_new _ _ _ _ _ _ Hl (eid ext)) as [[m' Hm']|Hin]; [by eexists| |].
    + rewrite (P7 ext Hext) in Hm'. done.
    + eapply Hid; [|exact Hin]. by apply list_elem_of_fmap_2.
  - rewrite fmap_app. apply NoDup_app. split_and!; try done. intros t H5 H6. eapply N2; [exact H5|by right].
  - rewrite fmap_app, concat_app. apply NoDup_app. split_and!; try done. intros x H5 H6. eapply I2; [exact H5|]. apply elem_of_app. by right.
Qed.

Lemma remove_nth_app {A} (l1 : list A) x l2 : remove_nth (length l1) (l1 ++ x :: l2) = l1 ++ l2.
Proof. unfold remove_nth. rewrite take_app_length. f_equal. replace (S (length l1)) with (length l1 + 1)%nat by lia. by rewrite drop_app_add. Qed.

Lemma claim_tokens δ e (fs : list Flight) t :
  Forall (λ f : Flight, pending δ e (f.2) (wr_aligned (f.1)) (wr_volume (f.1)) (wr_offset (f.1)) (wr_data (f.1))) fs →
  (∀ f, f ∈ fs → al_token (wr_aligned (f.1)) ≠ t) → Forall (λ cl, cl_token cl ≠ t) (concat (fs.*2)).
Proof.
  intros Hp Ht. apply Forall_forall. intros cl Hcl. apply elem_of_concat in Hcl as (L & HL & Hcl). apply list_elem_of_fmap in HL as (f & -> & Hf).
  rewrite Forall_forall in Hp. pose proof (prepared_token _ _ _ _ (pn_prepared _ _ _ _ _ _ _ (Hp f Hf))) as Htok. rewrite Forall_forall in Htok.
  rewrite (Htok cl); [by apply Ht|done].
Qed.

Lemma answers_end w p δ fs k : sim w p δ fs → answers w p (WriteEnd k).
Proof.
  intros Hsim. pose proof Hsim as [Hi Hok Hd Hf Hw Ht Hr]. unfold answers. simpl. destruct (writers w !! k) as [wr|] eqn:Hk.
  2:{ exists p, δ, fs. split; [apply al_end_none; by rewrite Ht, list_lookup_fmap, Hk|done]. }
  assert (∃ f, fs !! k = Some f ∧ f.1 = wr) as (f & Hfk & <-).
  { rewrite Hw, list_lookup_fmap in Hk. destruct (fs !! k) as [f|]; [|done]. injection Hk as <-. by exists f. }
  apply list_elem_of_split_length in Hfk as (fs1 & fs2 & -> & ->). pose proof (fy_pending _ _ _ Hf) as [Hp1 [Hpf Hp2]%Forall_cons]%Forall_app.
  assert (inv δ (f.2 ++ concat ((fs1 ++ fs2).*2)) (eng w)) as Hi'.
  { eapply inv_perm; [|exact Hi]. rewrite !fmap_app, !concat_app, fmap_cons. simpl. rewrite !app_assoc. f_equiv. apply Permutation_app_comm. }
  assert (Forall (λ cl, cl_token cl ≠ al_token (wr_aligned (f.1))) (concat ((fs1 ++ fs2).*2))) as Hoth.
  { eapply claim_tokens; [by apply Forall_app|]. pose proof (fy_tokens _ _ _ Hf) as Hn. rewrite fmap_app, fmap_cons in Hn. apply NoDup_app in Hn as (_ & N2 & [N3 _]%NoDup_cons).
    intros f' [Hf'|Hf']%elem_of_app E; [eapply N2; [apply list_elem_of_fmap_2; exact Hf'|rewrite E; by left]|]. apply N3. rewrite <- E.
    by apply (list_elem_of_fmap_2 (λ f : Flight, al_token (wr_aligned (f.1)))). }
  pose proof (aligned_end_spec δ _ (f.2) (eng w) (wr_aligned (f.1)) _ _ _ Hi' Hok Hpf Hoth) as He. unfold with_eng, wp in *. cbn [eng writers readers].
  assert (pr_writers p !! length fs1 = Some (wr_volume (f.1), wr_offset (f.1), wr_data (f.1))) as Hpk by (rewrite Ht, list_lookup_fmap, Hk; done).
  assert (remove_nth (length fs1) (writers w) = (fs1 ++ fs2).*1) as Hrm by (rewrite Hw, !fmap_app, fmap_cons, <- (length_fmap fst fs1); apply remove_nth_app).
  assert (∀ e', landed δ (concat ((fs1 ++ fs2).*2)) (eng w) e' (al_token (wr_aligned (f.1))) (al_placed (wr_aligned (f.1))) →
    sim (mkWorld e' (remove_nth (length fs1) (writers w)) (readers w)) (mkPromise (disks δ (catalog e')) (remove_nth (length fs1) (pr_writers p)) (pr_readers p)) δ (fs1 ++ fs2)) as Hsim'.
  { intros e' Hl. split; try done; simpl; [apply Hl|apply Hl|by eapply flying_landed|]. rewrite Hrm, Ht, Hw. rewrite <- !list_fmap_compose, !fmap_app, fmap_cons.
    rewrite <- (length_fmap (target ∘ fst) fs1) at 1. apply remove_nth_app. }
  rewrite <- (promise_eta p), Hd. destruct (aligned_end _ _ (eng w)) as [e' [[]|err|]]; [| |done]; destruct He as [Hl He]; do 3 eexists; (split; [|by apply Hsim']).
  - by eapply al_end.
  - eapply al_end_err; [exact Hpk|]. destruct He as [|He]; [by left|right; by eexists].
Qed.

(** ** Reads in two halves *)

Lemma answers_lookup w p δ fs t (r : Catalog → res NativeError (list ExtentRef)) off n op :
  sim w p δ fs → perform_task t w = start_read r off n w →
  match r (catalog (eng w)) with
  | Ok l => ∃ m, looked_up δ g m l off n ∧ stocked δ m ∧ perform op (disks δ (catalog (eng w))) = Some (disks δ (catalog (eng w)), slice δ g m off n)
  | Err _ => perform op (disks δ (catalog (eng w))) = None
  | Panic => False
  end →
  (∀ s ws rs b, perform op s = Some (s, b) → allows (mkPromise s ws rs) t (Ok []) (mkPromise s ws (rs ++ [b]))) →
  (∀ q err, perform op (pr_disks q) = None → allows q t (Err err) q) → answers w p t.
Proof.
  intros Hsim Hp Hr Hok Herr. pose proof Hsim as [Hi Hdk Hd Hf Hw Ht Hrd]. unfold answers. rewrite Hp. unfold start_read. destruct (r (catalog (eng w))) as [l|err|]; [| |done].
  - destruct Hr as (m & Hl & Hm & Hpf). rewrite <- (promise_eta p), Hd. do 2 eexists. exists fs. split; [by apply Hok|]. split; try done; simpl. apply Forall2_app; [done|].
    constructor; [|constructor]. by exists m.
  - exists p, δ, fs. split; [|done]. apply Herr. by rewrite Hd.
Qed.

Lemma answers_got w p δ fs k : sim w p δ fs → answers w p (ReadEnd k).
Proof.
  intros Hsim. pose proof Hsim as [Hi Hok Hd Hf Hw Ht Hr]. unfold answers. simpl. destruct (readers w !! k) as [rd|] eqn:Hk.
  2:{ exists p, δ, fs. split; [|done]. apply al_got_none. apply lookup_ge_None. rewrite <- (Forall2_length _ _ _ Hr). by apply lookup_ge_None. }
  destruct (Forall2_lookup_l _ _ _ _ _ Hr Hk) as (b & Hb & m & Hl & Hm & Hbm).
  pose proof (read_range_spec δ _ g m (rd_offset rd) (rd_len rd) grid_pos (lu_bound _ _ _ _ _ _ Hl) _ Hl (eng w) Hi) as Hrr. unfold with_eng, wp in *. cbn [eng writers readers].
  assert (∀ e', calm (eng w) e' →
    sim (mkWorld e' (writers w) (remove_nth k (readers w))) (mkPromise (pr_disks p) (pr_writers p) (remove_nth k (pr_readers p))) δ fs) as Hsim'.
  { intros e' Hc. destruct (after_calm _ _ _ _ Hi Hok Hc) as [Ha Ec]. destruct (sim_after _ _ _ _ _ _ Hsim Ha) as [S1 S2 S3 S4 S5 S6 S7]. split; simpl in *; try done; [by rewrite Hd, Ec|].
    unfold remove_nth. apply Forall2_app; [by apply Forall2_take|by apply Forall2_drop]. }
  rewrite <- (promise_eta p). destruct (read_range _ _ _ (eng w)) as [e' [out|err|]]; [| |done].
  - destruct Hrr as [Hc ->]. rewrite <- Hbm. do 3 eexists. split; [by apply al_got|]. by apply Hsim'.
  - do 3 eexists. split; [apply al_got_err; by eexists|]. by apply Hsim'.
Qed.

Lemma answers_restart w p δ fs dss obj clk dk :
  sim w p δ fs → task_ok (Restart dss obj clk dk) w → answers w p (Restart dss obj clk dk).
Proof.
  intros Hsim [Hds Hobj]. pose proof Hsim as [Hi Hok Hd Hf Hw Ht Hr]. unfold answers. simpl.
  pose proof (reopen_spec δ _ (eng w) dss obj clk dk Hi Hds Hobj) as Ho. destruct (reopen (eng w) dss obj clk dk) as [e'|err|]; [| |done].
  - destruct Ho as [Hi' Ec]. rewrite <- (promise_eta p). do 2 eexists. exists []. split; [apply al_restart|]. split; simpl; try done; [by rewrite Ec|by rewrite Hd, Ec|].
    split; [constructor|constructor|constructor].
  - subst err. exists p, δ, fs. split; [apply al_restart_err|done].
Qed.

(** ** Every task *)

Lemma answers_task w p δ fs t : sim w p δ fs → task_ok t w → answers w p t.
Proof.
  intros Hsim Ht. destruct t as [op| | |x lost|policy stop| |id off data|k|id off n|id off n|k|dss obj clk dk].
  - eapply answers_do; [done|]. eapply run_op_serves; [apply Hsim|apply Hsim|exact Ht].
  - by eapply answers_upkeep; [|done|done|apply maintains_gc].
  - by eapply answers_upkeep; [|done|done|apply maintains_repair_once].
  - eapply answers_upkeep; [done|done|done|]. unfold repair_extent. apply (maintains_bind _ _ (λ _, True)); [by apply maintains_soft, soft_ret|intros fence _; apply maintains_repair].
  - by eapply answers_upkeep; [|done|done|apply maintains_tier].
  - by eapply answers_upkeep; [|done|done|apply maintains_checkpoint].
  - by eapply answers_begin.
  - by eapply answers_end.
  - eapply (answers_lookup _ _ _ _ _ (volume_range id off n)); [done|done|eapply volume_range_spec; apply Hsim|by intros; apply al_read|by intros; apply al_read_err].
  - eapply (answers_lookup _ _ _ _ _ (snapshot_range id off n)); [done|done|eapply snapshot_range_spec; apply Hsim|by intros; apply al_snap|by intros; apply al_snap_err].
  - by eapply answers_got.
  - by eapply answers_restart.
Qed.

Lemma trace_promised w l w' : trace w l w' → ∀ p δ fs, sim w p δ fs → ∃ p' δ' fs', promised p l p' ∧ sim w' p' δ' fs'.
Proof.
  induction 1 as [w|w t w1 r l w2 Hok Hp _ IH]; intros p δ fs Hsim; [exists p, δ, fs; split; [constructor|done]|].
  pose proof (answers_task w p δ fs t Hsim Hok) as Ha. unfold answers in Ha. rewrite Hp in Ha. destruct Ha as (p1 & δ1 & fs1 & Hal & Hs1).
  destruct (IH p1 δ1 fs1 Hs1) as (p' & δ' & fs' & Hpr & Hs'). exists p', δ', fs'. split; [by econstructor|done].
Qed.

(** ** A new engine *)

(** An engine opened over an empty directory. *)
Definition new_engine (specs : list (Node * list D)) (obj : option O) (clk : N → N) (us : N → string) (dk : N → DiskFault) : res NativeError Eng :=
  open_with_devices specs empty_catalog [] obj clk us dk (λ _, true).

Definition nothing : Promise := mkPromise (mkDisks ∅ ∅) [] [].

Lemma new_sim specs obj clk us dk e :
  (∀ j k, j < k → us j ≠ us k) → Forall (λ x : Node * list D, Forall bs_wf (x.2)) specs → new_engine specs obj clk us dk = Ok e →
  sim (mkWorld e [] []) nothing ∅ [].
Proof.
  intros Hus Hwf He. assert (extent_bytes cfg ≠ 0) as Hg by (pose proof grid_pos; lia).
  assert (Forall (λ x : Node * list D, x.2 ≠ []) specs) as Hne.
  { unfold new_engine, open_with_devices in He. rewrite (proj2 (N.eqb_neq _ _) Hg) in He. destruct (existsb _ specs) eqn:Hx; [done|]. apply Forall_forall. intros x Hin Hnil.
    assert (existsb (λ x : Node * list D, bool_decide (length (x.2) = 0%nat)) specs = true) as Ht; [|congruence]. apply existsb_exists. exists x. split; [by apply list_elem_of_In|].
    by rewrite Hnil. }
  set (e0 := opened specs empty_catalog empty_catalog [] obj clk us dk (λ _, true)). assert (durable e0) as Hdu by (by apply opened_durable).
  pose proof (open_spec specs empty_catalog empty_catalog [] obj clk us dk (λ _, true) (λ e', meta_only e0 e' ∧ durable e' ∧ catalog e' = empty_catalog) Hg Hne eq_refl Hdu) as Ho.
  unfold new_engine in He. rewrite He in Ho. destruct Ho as (Hm & Hd & Hc); [done|].
  assert (inv ∅ [] e0) as Hi0.
  { split; [apply empty_ok|done| |apply initial_consistent; apply (ok_space _ empty_ok)|by intros fr nd k b ?%elem_of_nil| |done|constructor|done|done|].
    - split.
      + intros i k d Hdv. unfold e0 in Hdv. rewrite dev_opened in Hdv. destruct (specs !! i) as [x|] eqn:Hx; [|done]. simpl in Hdv. rewrite Forall_forall in Hwf.
        pose proof (Hwf x (list_elem_of_lookup_2 _ _ _ Hx)) as Hf. rewrite Forall_forall in Hf. apply Hf. by eapply list_elem_of_lookup_2.
      + intros i n Hn. unfold e0, opened in Hn. simpl in Hn. rewrite list_lookup_fmap in Hn. destruct (specs !! i) as [x|] eqn:Hx; [|done]. injection Hn as <-. simpl.
        rewrite Forall_forall in Hne. apply Hne. by eapply list_elem_of_lookup_2.
    - intros nd k b i d (r & Hr & _). by apply elem_of_nil in Hr.
    - intros j k _ Hjk. by apply Hus. }
  assert (inv ∅ [] e) as Hi.
  { rewrite <- (inflight_eta e), (mo_inflight _ _ Hm). apply (inv_becomes ∅ [] [] e0 e); [done|done|done| |by left]. eapply becomes_quiet; [done|rewrite Hc; apply empty_ok|by rewrite Hc]. }
  split; simpl; [exact Hi|rewrite Hc; by split|by rewrite Hc|split; constructor|done|done|constructor].
Qed.

(** C1. The engine keeps its promises.  Take an engine opened over an empty directory
    and whatever happens to it: operations on volumes and snapshots, collection,
    repair, tiering and checkpoints, writes of whole cells and reads whose two halves
    have anything in between, disks, devices and object stores that fail at any call,
    restarts that lose all that was in flight.  No operation panics.  What users see
    are byte sequences on which operations take place one at a time: one that returns
    success took place as specified, one that fails took place entirely or not at
    all, a write of whole cells takes place when it is committed, a read returns the
    bytes as they were at its lookup or fails, and neither maintenance nor a restart
    changes a byte.  This is for a hash without collisions, identifiers that are new,
    volumes of less than [2 ^ 64 - 1] bytes, directory syncs that succeed, and devices
    and objects that keep what they acknowledged over a restart. *)
Theorem engine_keeps_promises specs obj clk us dk e l w :
  (∀ j k, j < k → us j ≠ us k) → Forall (λ x : Node * list D, Forall bs_wf (x.2)) specs → new_engine specs obj clk us dk = Ok e →
  trace (mkWorld e [] []) l w →
  Forall (λ x : Task * res NativeError bytes, x.2 ≠ Panic) l ∧ ∃ p, promised nothing l p.
Proof.
  intros Hus Hwf He Ht. destruct (trace_promised _ _ _ Ht _ _ _ (new_sim _ _ _ _ _ _ Hus Hwf He)) as (p & _ & _ & Hp & _). split; [|by exists p]. clear -Hp.
  induction Hp as [|p t r p1 l p2 Ha _ IH]; constructor; [|done]. simpl. destruct Ha as [| | ? ? ? _ [->|[? ->]]| |? ? ? ? ? [->|[? ->]]| | | | | | | | | | | |]; done.
Qed.

(** ** Device space *)

(** The ranges of an extent's parts, and those of the writes under way. *)
Definition ranges_of (ext : ExtentRef) : list (N * ReplicaRef) := (λ r, (stored_len ext, r)) <$> replicas ext.
Definition writes_to (wr : Writer) : list (N * ReplicaRef) := concat (ranges_of <$> al_placed (wr_aligned wr)).
Definition in_flight (w : World) : list (N * ReplicaRef) := concat (writes_to <$> writers w).

Definition separate (a b : N * ReplicaRef) : Prop := clear (a.1) (a.2) (b.1) (b.2).

(** Every byte of a device belongs to one part of one extent, to one write under way,
    or to neither; the free list has none of the first and only leased ones of the
    second. *)
Record exclusive (w : World) : Prop := {
  ex_taken x m r : extents (catalog (eng w)) !! x = Some m → r ∈ replicas (extent m) → taken (free (catalog (eng w))) (stored_len (extent m)) r;
  ex_within x m : extents (catalog (eng w)) !! x = Some m → pairwise separate (ranges_of (extent m));
  ex_across x m x' m' a a' : x ≠ x' → extents (catalog (eng w)) !! x = Some m → extents (catalog (eng w)) !! x' = Some m' →
    a ∈ ranges_of (extent m) → a' ∈ ranges_of (extent m') → separate a a';
  ex_flight : pairwise separate (in_flight w);
  ex_new x m a a' : extents (catalog (eng w)) !! x = Some m → a ∈ ranges_of (extent m) → a' ∈ in_flight w → separate a' a;
  ex_leased wr a nd d b : wr ∈ writers w → a ∈ writes_to wr → covers (a.1) (a.2) nd d b → FreeList.is_free (free (catalog (eng w))) nd d b →
    ∃ fr, fr ∈ leased (inflight (eng w)) (al_token (wr_aligned wr)) ∧ FreeList.covers fr nd d b;
}.

Definition range_of (cl : Claim) : N * ReplicaRef := (size (cl_data cl), cl_at cl).

Lemma holds_ranges δ tok ext ps : holds δ ext ps → range_of <$> claims_of tok ext ps = ranges_of ext.
Proof.
  intros [(b & _ & Hd) _ Hl]. unfold claims_of, ranges_of. assert (∀ p, p ∈ ps → size p = stored_len ext) as Hs by (intros p; by apply (parts_size b ps)).
  clear Hd. revert ps Hl Hs. generalize (replicas ext). induction l as [|r l IH]; intros [|p ps] Hl Hs; try done. simpl. unfold range_of at 1. simpl.
  rewrite (Hs p) by set_solver. f_equal. apply IH; [by injection Hl|]. intros q Hq. apply Hs. set_solver.
Qed.

Lemma prepared_parts_ranges δ tok exts L : prepared δ tok exts L → range_of <$> L ≡ₚ concat (ranges_of <$> exts).
Proof. induction 1 as [|ext ps exts L L' Hh _ IH HL]; [done|]. rewrite HL, fmap_app, (holds_ranges _ _ _ _ Hh), IH. done. Qed.

Lemma sim_in_flight w p δ fs : sim w p δ fs → range_of <$> concat (fs.*2) ≡ₚ in_flight w.
Proof.
  intros Hs. unfold in_flight. rewrite (sm_writers _ _ _ _ Hs). pose proof (fy_pending _ _ _ (sm_flying _ _ _ _ Hs)) as Hf. clear Hs.
  induction Hf as [|[wr L] fs Hp _ IH]; [done|]. simpl. rewrite fmap_app, IH. simpl. by rewrite (prepared_parts_ranges _ _ _ _ (pn_prepared _ _ _ _ _ _ _ Hp)).
Qed.

Lemma sim_flight w p δ fs wr a : sim w p δ fs → wr ∈ writers w → a ∈ writes_to wr →
  ∃ cl, a = range_of cl ∧ cl_token cl = al_token (wr_aligned wr) ∧ claim_ok (eng w) cl.
Proof.
  intros Hs Hwr Ha. rewrite (sm_writers _ _ _ _ Hs) in Hwr. apply list_elem_of_fmap in Hwr as ([wr' L] & -> & Hf).
  pose proof (proj1 (Forall_forall _ _) (fy_pending _ _ _ (sm_flying _ _ _ _ Hs)) _ Hf) as Hp. pose proof (pn_prepared _ _ _ _ _ _ _ Hp) as Hpr. simpl in *.
  unfold writes_to in Ha. rewrite <- (prepared_parts_ranges _ _ _ _ Hpr) in Ha. apply list_elem_of_fmap in Ha as (cl & -> & Hcl). exists cl.
  split_and!; [done|by apply (proj1 (Forall_forall _ _) (prepared_token _ _ _ _ Hpr))|]. apply (proj1 (Forall_forall _ _) (iv_claims _ _ _ (sm_inv _ _ _ _ Hs))).
  apply elem_of_concat. exists L. split; [|done]. apply list_elem_of_fmap. by exists (wr', L).
Qed.

Lemma pairwise_ranges L : pairwise apart L → pairwise separate (range_of <$> L).
Proof. induction L as [|cl L IH]; [done|]. intros [Hcl HL]. split; [|auto]. intros a (cl' & -> & Hcl')%list_elem_of_fmap. exact (Hcl cl' Hcl'). Qed.

#[local] Instance separate_sym : Symmetric separate.
Proof. intros a b Hab nd d o H1 H2. by eapply Hab. Qed.

Lemma sim_exclusive w p δ fs : sim w p δ fs → exclusive w.
Proof.
  intros Hs. pose proof (sm_inv _ _ _ _ Hs) as Hi. pose proof (ok_space _ (iv_cat _ _ _ Hi)) as Hsp.
  assert (∀ x m, extents (catalog (eng w)) !! x = Some m → spots (catalog (eng w)) !! x = Some (stored_len (extent m), replicas (extent m))) as Hspot.
  { intros x m Hm. unfold spots. by rewrite lookup_fmap, Hm. }
  split.
  - intros x m r Hm Hr. exact (so_taken _ _ Hsp x _ _ r (Hspot x m Hm) Hr).
  - intros x m Hm. pose proof (so_within _ _ Hsp x _ _ (Hspot x m Hm)) as Hw. unfold ranges_of. revert Hw. generalize (replicas (extent m)).
    induction l as [|r l IH]; [done|]. intros [H1 H2]. split; [|auto]. intros a (r' & -> & Hr')%list_elem_of_fmap. exact (H1 r' Hr').
  - intros x m x' m' a a' Hne Hm Hm' (r & -> & Hr)%list_elem_of_fmap (r' & -> & Hr')%list_elem_of_fmap.
    exact (so_across _ _ Hsp x _ _ r x' _ _ r' Hne (Hspot x m Hm) Hr (Hspot x' m' Hm') Hr').
  - eapply pairwise_perm; [apply _|by apply (sim_in_flight _ _ _ _ Hs)|]. apply pairwise_ranges, Hi.
  - intros x m a a' Hm (r & -> & Hr)%list_elem_of_fmap Ha'. apply elem_of_concat in Ha' as (l & (wr & -> & Hwr)%list_elem_of_fmap & Ha').
    destruct (sim_flight _ _ _ _ wr a' Hs Hwr Ha') as (cl & -> & _ & Hok).
    exact (pl_unused _ _ _ _ (cl_place _ _ Hok) x _ _ r (Hspot x m Hm) Hr).
  - intros wr a nd d b Hwr Ha Hc Hf. destruct (sim_flight _ _ _ _ wr a Hs Hwr Ha) as (cl & -> & <- & Hok).
    destruct (cl_held _ _ Hok) as [Ht|(fr & Hfr & Hsame)]; [by destruct (Ht nd d b Hc)|]. exists fr. split; [done|by apply Hsame].
Qed.

(** C6. Device space is never shared.  Whatever happens to an engine opened over an
    empty directory, no byte of a device is in two parts, of one extent or of two, of
    extents of the catalog or of writes still under way; the free list has no byte of
    an extent, and of a write under way only bytes that are leased to it. *)
Theorem engine_space_exclusive specs obj clk us dk e l w :
  (∀ j k, j < k → us j ≠ us k) → Forall (λ x : Node * list D, Forall bs_wf (x.2)) specs → new_engine specs obj clk us dk = Ok e →
  trace (mkWorld e [] []) l w → exclusive w.
Proof.
  intros Hus Hwf He Ht. destruct (trace_promised _ _ _ Ht _ _ _ (new_sim _ _ _ _ _ _ Hus Hwf He)) as (p & δ & fs & _ & Hs). by eapply sim_exclusive.
Qed.

End sim.

(** ** Files and objects in memory *)

(** A restart opens the files again. *)
Lemma reopened_file d f : file_wf d → bs_wf (open (file d) f) ∧ grows (λ _, False) d (open (file d) f).
Proof. intros [Hw1 Hw2]. assert (file_wf (open (file d) f)) as Hwf by (by split). split; [exact Hwf|]. by split. Qed.

(** Three nodes of one device each; the second device fails from its seventh call on. *)
Definition demo_code : EngineParams := {|
  cfg := mkEngineConfig 8 (mkPolicy 2 true true) 4 5000 (Some (Ec.mkEcScheme 2 1)) 5 "atlas-native/";
  sha256 b := b;
  rs_encode := Ec.xor_encode;
  rs_decode := Ec.xor_decode;
|}.

#[export] Instance demo_code_ok : ParamsOk demo_code.
Proof. split; [done|by intros sc [= <-]|intros sc [= <-]; apply Ec.xor_codec_law|done|done]. Qed.

Definition demo_node (i : string) : Node := mkNode i (mkFailureDomain "z" i i) 1000 true.
Definition failing (d : FileDevice) : FileDevice := open (file d) (λ k, if 5 <? k then Some 1%nat else None).
Definition sound (d : FileDevice) : FileDevice := open (file d) (λ _, None).
Definition blank : FileDevice := open [] (λ _, None).

Definition demo_specs : list (Node * list FileDevice) := [(demo_node "a", [blank]); (demo_node "b", [failing blank]); (demo_node "c", [blank])].

Definition demo_uuid (k : N) : string := pretty k.

Definition demo_engine : Engine FileDevice MemStore :=
  match new_engine (P := demo_code) demo_specs (Some (mkMemStore ∅)) (λ k, k) demo_uuid (λ _, DiskOk) with
  | Ok e => e
  | _ => opened demo_specs empty_catalog empty_catalog [] None (λ k, k) demo_uuid (λ _, DiskOk) (λ _, true)
  end.

(** Tasks, and crashes after which the files are opened again. *)
Inductive Event := Then (t : Task (D := FileDevice) (O := MemStore)) | Crash.

Definition restart_files (w : World (D := FileDevice) (O := MemStore)) : Task :=
  Restart ((λ n : NodeRuntime FileDevice, sound <$> devices n) <$> nodes (eng w)) (objects (eng w)) (λ k, k) (λ _, DiskOk).

Definition task_of (ev : Event) (w : World) : Task := match ev with Then t => t | Crash => restart_files w end.

Definition event_ok (ev : Event) (w : World (D := FileDevice) (O := MemStore)) : bool :=
  match ev with
  | Then (Do (VCreate _ _ sz)) | Then (Do (VResize _ sz)) | Then (Do (VClone _ _ _ (Some sz))) => sz <? u64_max
  | Then (Restart _ _ _ _) => false
  | Then _ => true
  | Crash => forallb (λ n : NodeRuntime FileDevice, forallb (λ d, bool_decide (file_wf d)) (devices n)) (nodes (eng w))
  end.

Lemma event_task_ok ev w : event_ok ev w = true → task_ok (task_of ev w) w.
Proof.
  destruct ev as [[op| | | | | | | | | | |]|]; try done.
  - destruct op as [? ? sz| |? sz|? ? ? [sz|]| | | | |]; simpl; try done; by intros ?%N.ltb_lt.
  - intros Hw. split; [|unfold objects_same; by destruct (objects (eng w))]. apply Forall2_fmap_r, Forall_Forall2_diag, Forall_forall. intros n Hn.
    apply Forall2_fmap_r, Forall_Forall2_diag, Forall_forall. intros d Hd. apply reopened_file. simpl in Hw. rewrite forallb_forall in Hw.
    specialize (Hw n ltac:(by apply list_elem_of_In)). rewrite forallb_forall in Hw. specialize (Hw d ltac:(by apply list_elem_of_In)). by apply bool_decide_eq_true in Hw.
Qed.

Fixpoint run_events (evs : list Event) (w : World) : bool * list (Task * res NativeError bytes) * World :=
  match evs with
  | [] => (true, [], w)
  | ev :: evs =>
      let '(w1, r) := perform_task (P := demo_code) (task_of ev w) w in
      let '(ok, l, w2) := run_events evs w1 in
      (event_ok ev w && ok, (task_of ev w, r) :: l, w2)
  end.

Lemma run_events_trace evs : ∀ w, (run_events evs w).1.1 = true → trace (P := demo_code) w (run_events evs w).1.2 (run_events evs w).2.
Proof.
  induction evs as [|ev evs IH]; intros w; simpl; [constructor|]. destruct (perform_task (task_of ev w) w) as [w1 r] eqn:Hp. specialize (IH w1).
  destruct (run_events evs w1) as [[ok l] w2]. simpl in *. intros [Hev Hok]%andb_true_iff. econstructor; [by apply event_task_ok|done|by apply IH].
Qed.

(** Writes, one of whole cells with other operations in between, a snapshot, a read
    with a write in between, maintenance, a crash that loses a write under way, and
    extents that move to the object store. *)
Definition demo_events : list Event := [
  Then (Do (VCreate "v" "vol" 20)); Then (Do (VWrite "v" 0 [1; 2; 3; 4; 5; 6; 7; 8; 9]));
  Then (WriteBegin "v" 8 [11; 12; 13; 14; 15; 16; 17; 18]); Then (Do (SCreate "s" "v" "snap")); Then (Do (VWrite "v" 6 [21; 22; 23; 24]));
  Then (ReadBegin "v" 4 8); Then (WriteEnd 0); Then Gc; Then RepairOnce; Then (ReadEnd 0);
  Then (Do (VWrite "v" 18 [31; 32])); Then (Do (VRead "v" 0 20)); Then (Do (VRead "v" 0 21)); Then (Do (SRead "s" 0 20));
  Then (WriteBegin "v" 0 [1; 1; 1; 1; 1; 1; 1; 1]); Then Checkpoint; Crash; Then (WriteEnd 0); Then (Do (VRead "v" 0 20));
  Then (TierOnce (mkTierPolicy 0 0) (λ _, false)); Then RepairOnce; Then (Do (VRead "v" 0 20))].

Definition demo_log : list (Task * res NativeError bytes) := (run_events demo_events (mkWorld demo_engine [] [])).1.2.
Definition demo_world : World := (run_events demo_events (mkWorld demo_engine [] [])).2.

Lemma demo_uuid_inj j k : j < k → demo_uuid j ≠ demo_uuid k.
Proof. unfold demo_uuid. intros Hjk Hp%(inj pretty). lia. Qed.

Lemma demo_specs_wf : Forall (λ x : Node * list FileDevice, Forall bs_wf (x.2)) demo_specs.
Proof. repeat constructor; done. Qed.

Lemma demo_opens : new_engine (P := demo_code) demo_specs (Some (mkMemStore ∅)) (λ k, k) demo_uuid (λ _, DiskOk) = Ok demo_engine.
Proof.
  unfold demo_engine. destruct (new_engine _ _ _ _ _) as [e|err|] eqn:He; [done|exfalso..]; apply (f_equal (λ r : res _ _, match r with Ok _ => true | _ => false end)) in He; by vm_compute in He.
Qed.

Lemma demo_trace : trace (P := demo_code) (mkWorld demo_engine [] []) demo_log demo_world.
Proof. apply run_events_trace. by vm_compute. Qed.

Lemma engine_keeps_promises_witness :
  trace (P := demo_code) (mkWorld demo_engine [] []) demo_log demo_world ∧
  (demo_log.*2 !! 9%nat = Some (Ok [5; 6; 21; 22; 23; 24; 0; 0]) ∧ demo_log.*2 !! 12%nat = Some (Err Invalid)) ∧
  (Forall (λ x : Task * res NativeError bytes, x.2 ≠ Panic) demo_log ∧ ∃ p, promised nothing demo_log p).
Proof.
  split; [exact demo_trace|]. split; [by split; vm_compute|].
  exact (engine_keeps_promises (P := demo_code) demo_specs (Some (mkMemStore ∅)) (λ k, k) demo_uuid (λ _, DiskOk) demo_engine demo_log demo_world demo_uuid_inj demo_specs_wf demo_opens demo_trace).
Defined.

(** A write of whole cells under way, beside what is stored. *)
Definition busy_log : list (Task * res NativeError bytes) := (run_events (take 5 demo_events) (mkWorld demo_engine [] [])).1.2.
Definition busy_world : World := (run_events (take 5 demo_events) (mkWorld demo_engine [] [])).2.

Lemma engine_space_exclusive_witness :
  size (concat ((λ m, ranges_of (extent m)) <$> bt_values (extents (catalog (eng busy_world))))) = 10 ∧ size (in_flight busy_world) = 3 ∧ exclusive busy_world.
Proof.
  split; [by vm_compute|]. split; [by vm_compute|].
  apply (engine_space_exclusive (P := demo_code) demo_specs (Some (mkMemStore ∅)) (λ k, k) demo_uuid (λ _, DiskOk) demo_engine busy_log busy_world demo_uuid_inj demo_specs_wf demo_opens).
  apply run_events_trace. by vm_compute.
Defined.

(** C38. The bound of a write, [offset.saturating_add(len) > size], holds no write back
    in a volume of the largest size: one that runs past the end is acknowledged and
    goes on at the start of the volume, whose bytes it overwrites, and what it wrote
    before the end reads as zeros. *)
Theorem write_past_end_wraps :
  let '(e1, r1) := create_volume_as (P := demo_code) "v" "vol" u64_max demo_engine in
  let '(e2, r2) := write (P := demo_code) "v" (u64_max - 1) [1; 2; 3; 4] e1 in
  r1 = Ok "v"%string ∧ r2 = Ok () ∧ (read (P := demo_code) "v" 0 3 e2).2 = Ok [3; 4; 0] ∧ (read (P := demo_code) "v" (u64_max - 1) 1 e2).2 = Ok [0].
Proof. vm_compute. done. Qed.

End EngineSim.
