(* ===== verification/EngineAvail.v ===== *)
(** * Reads that succeed

    What is stored can be read: while one copy of an extent, or as many of its shards as
    its code needs, is on devices that answer, or while the object store answers where it
    has moved there, a read of it returns its bytes, whatever the other devices do. *)

From S2P Require Import Prelude MetaError FreeList Ec Catalog Extents Metadata Space MetaSpace MetaRefs MetaSpec NativeError Device Objects Placement Inflight Engine EngineRead EngineWrite EngineRepair EngineMeta EngineData EngineInv EnginePlace EngineCat EngineRange EngineBatch EngineCommit EngineDisks EngineSpec EngineOps EngineWrites EngineUpkeep EngineSim.

Module EngineAvail.
Import Placement Catalog Extents Metadata Space MetaSpace MetaSpec NativeError Device Objects Engine EngineRead EngineWrite EngineRepair EngineMeta EngineData EngineInv EnginePlace EngineCat EngineRange EngineBatch EngineCommit EngineDisks EngineSpec EngineOps EngineWrites EngineUpkeep EngineSim.

Open Scope N_scope.

Section avail.
Context {D O : Type} {BD : BlockStore D} {LD : BlockStoreLaws D} {BO : ObjectStore O} {LO : ObjectStoreLaws O} {P : EngineParams} {POk : ParamsOk P}.

Abbreviation Eng := (Engine D O).
Abbreviation E := (SM Eng NativeError).
Implicit Types e : Eng.
Abbreviation g := (extent_bytes cfg).

(** ** Devices that answer *)

(** The devices of [S] answer. *)
Definition steadies (S : gset (nat * nat)) (e : Eng) : Prop := ∀ i k, (i, k) ∈ S → ∃ d, dev e i k = Some d ∧ steady d.

(** A part is on a device of [S]. *)
Definition usable (S : gset (nat * nat)) (e : Eng) (r : ReplicaRef) : Prop :=
  ∃ i, healthy_node e (node_id r) = Some i ∧ (i, N.to_nat (device_index r)) ∈ S.
#[global] Instance usable_dec S e r : Decision (usable S e r).
Proof.
  unfold usable. destruct (healthy_node e (node_id r)) as [i|]; [|right; by intros (i & ? & _)].
  destruct (decide ((i, N.to_nat (device_index r)) ∈ S)) as [Hi|Hi]; [left; by exists i|right; intros (j & [= <-] & ?); done].
Defined.

(** Enough parts of an extent are on devices of [S]. *)
Definition on_devices (S : gset (nat * nat)) (e : Eng) (ext : ExtentRef) : Prop :=
  match ec ext with
  | None => ∃ r, r ∈ replicas ext ∧ usable S e r
  | Some lay => Ec.data lay <= size (base.filter (usable S e) (replicas ext))
  end.

#[global] Instance on_devices_dec S e ext : Decision (on_devices S e ext).
Proof.
  unfold on_devices. destruct (ec ext) as [lay|]; [apply _|].
  destruct (decide (List.Exists (usable S e) (replicas ext))) as [Hx|Hx]; [left; by apply List.Exists_exists in Hx as (r & ?%list_elem_of_In & ?); exists r|right].
  intros (r & Hr & Hu). apply Hx, List.Exists_exists. exists r. by rewrite <- list_elem_of_In.
Defined.

(** There is an object store, and it answers. *)
Definition answering (e : Eng) : Prop := ∃ o, objects e = Some o ∧ responsive o.

(** An extent can be read: from the object store if it has moved there, from devices of
    [S] otherwise. *)
Definition available (S : gset (nat * nat)) (e : Eng) (ext : ExtentRef) : Prop :=
  match object ext with Some _ => answering e | None => on_devices S e ext end.

(** ** Counting *)

Lemma filter_fmap_length {A B} (f : A → B) (Q : B → Prop) (R : A → Prop) `{!∀ x, Decision (Q x), !∀ x, Decision (R x)} l :
  (∀ x, R x ↔ Q (f x)) → length (base.filter Q (f <$> l)) = length (base.filter R l).
Proof. intros Hr. induction l as [|x l IH]; [done|]. csimpl. rewrite !filter_cons. destruct (decide (Q (f x))), (decide (R x)); simpl; rewrite ?IH; naive_solver. Qed.

Definition at_index {A} (Q : A → Prop) (l : list A) (i : nat) : Prop := from_option Q False (l !! i).
#[global] Instance at_index_dec {A} (Q : A → Prop) `{!∀ x, Decision (Q x)} l i : Decision (at_index Q l i).
Proof. unfold at_index. destruct (l !! i); simpl; apply _. Defined.

Lemma count_index {A} (Q : A → Prop) `{!∀ x, Decision (Q x)} l : length (base.filter (at_index Q l) (seq 0 (length l))) = length (base.filter Q l).
Proof.
  induction l as [|x l IH]; [done|].
  assert (length (base.filter (at_index Q (x :: l)) (Datatypes.S <$> seq 0 (length l))) = length (base.filter Q l)) as HS
    by (rewrite <- IH; by apply (filter_fmap_length Datatypes.S (at_index Q (x :: l)) (at_index Q l))).
  simpl seq. rewrite <- fmap_S_seq, !filter_cons. destruct (decide (at_index Q (x :: l) 0)) as [Ha|Ha], (decide (Q x)); simpl; rewrite ?HS; done.
Qed.

Lemma count_insert {A} (l : list (option A)) i a : l !! i = Some None → length (base.filter is_Some (<[i := Some a]> l)) = Datatypes.S (length (base.filter is_Some l)).
Proof.
  revert i. induction l as [|o l IH]; intros [|i] Hi; simplify_eq/=; [by rewrite !filter_cons|]. rewrite !filter_cons. destruct (decide (is_Some o)); simpl; by rewrite IH.
Qed.

Lemma filter_halves {A} (f : A → bool) l : List.filter f l ++ List.filter (λ x, negb (f x)) l ≡ₚ l.
Proof. induction l as [|x l IH]; [done|]. simpl. destruct (f x); simpl; [by rewrite IH|]. by rewrite <- Permutation_middle, IH. Qed.

(** Shards that arrive fill their slots. *)
Lemma fill_count ss batch (got : list (res NativeError (option bytes))) :
  NoDup batch → (∀ i, i ∈ batch → ss !! i = Some None) → length batch = length got →
  length (base.filter is_Some (fill ss (zip batch got))) = (length (base.filter is_Some ss) + arrived got)%nat ∧
  ∀ j, j ∉ batch → fill ss (zip batch got) !! j = ss !! j.
Proof.
  revert ss got. induction batch as [|i batch IH]; intros ss [|r got] Hnd Hi Hl; simplify_eq/=; [by rewrite Nat.add_0_r|]. apply NoDup_cons in Hnd as [Hni Hnd].
  unfold fill in *. simpl. unfold arrived in *. simpl. destruct r as [[b|]|err|]; simpl; try (destruct (IH ss got) as [H1 H2]; [done|intros j Hj; apply Hi; by right|done|]; split; [done|]; intros j Hj; apply H2; set_solver).
  destruct (IH (<[i := Some b]> ss) got) as [H1 H2]; [done| |done|].
  - intros j Hj. rewrite list_lookup_insert_ne; [apply Hi; by right|by intros ->].
  - split; [rewrite H1, count_insert by (apply Hi; by left); lia|]. intros j Hj. rewrite H2 by set_solver. apply list_lookup_insert_ne. set_solver.
Qed.

Section reading.
Context (δ : gmap ExtentId bytes) (L : list Claim) (S : gset (nat * nat)) (e0 : Eng).
(** Node names are distinct, so that the healthy node of a name is its node. *)
Context (Hids : NoDup ((λ n, Placement.id (spec n)) <$> nodes e0)).

(** The state during the read. *)
Record up (e : Eng) : Prop := {
  u_inv : inv δ L e;
  u_cat : catalog e = catalog e0;
  u_shape : shape e = shape e0;
  u_steady : steadies S e;
  u_object : answering e0 → answering e;
}.

Lemma up_calm e e' : up e → calm e e' → steadies S e' → (answering e → answering e') → up e'.
Proof.
  intros [H1 H2 H3 H4 H5] Hc Hs Ha. split; [by eapply inv_calm|rewrite <- H2; apply Hc|rewrite <- H3; apply (cm_devices _ _ Hc)|done|auto].
Qed.

Lemma healthy_shape e e' nd : shape e' = shape e → healthy_node e' nd = healthy_node e nd.
Proof.
  unfold healthy_node, shape. generalize (nodes e') (nodes e). induction l as [|n l IH]; intros [|n' l']; try done. csimpl. intros [= Hs _ Hl].
  simpl. rewrite Hs. destruct (_ && _); [done|]. by rewrite (IH l').
Qed.

Lemma healthy_find nd i : healthy_node e0 nd = Some i → find_node e0 nd = Some i.
Proof.
  unfold healthy_node, find_node. revert Hids. generalize (nodes e0). intros l. revert i. induction l as [|n l IH]; intros i Hn; [done|]. csimpl in Hn. apply NoDup_cons in Hn as [Hni Hn].
  simpl. destruct (String.eqb_spec (Placement.id (spec n)) nd) as [Heq|Hne]; simpl; [|destruct (position _ l) eqn:Hp; [|done]; simpl; intros [= <-]; by erewrite IH].
  destruct (healthy (spec n)); [done|]. destruct (position _ l) as [j|] eqn:Hp; [|done]. intros _. exfalso. apply position_Some in Hp as (l1 & n' & l2 & -> & _ & Hid & _).
  apply andb_true_iff in Hid as [Hid%String.eqb_eq _]. apply Hni. rewrite Heq, <- Hid. apply (list_elem_of_fmap_2 (λ n, Placement.id (spec n))). set_solver.
Qed.

(** [m] returns something in [Q]. *)
Definition gives {A} (m : E A) (Q : A → Prop) : Prop := ∀ e, up e → wp m e (λ a e', calm e e' ∧ up e' ∧ Q a) (λ _ _, False).

Lemma gives_ret {A} (a : A) (Q : A → Prop) : Q a → gives (mret a) Q.
Proof. intros Hq e Hu. by rewrite wp_ret. Qed.
Lemma gives_mono {A} (m : E A) (Q Q' : A → Prop) : gives m Q → (∀ a, Q a → Q' a) → gives m Q'.
Proof. intros Hm Hq e Hu. eapply wp_mono; [by apply Hm| |done]. naive_solver. Qed.
Lemma gives_bind {A B} (m : E A) (k : A → E B) Q Q' : gives m Q → (∀ a, Q a → gives (k a) Q') → gives (m ≫= k) Q'.
Proof.
  intros Hm Hk e Hu. rewrite wp_bind. eapply wp_mono; [by apply Hm| |done]. intros a e1 (Hc1 & Hu1 & Hq). eapply wp_mono; [by apply (Hk a Hq)| |done].
  intros b e2 (Hc2 & Hu2 & Hq2). split; [by etrans|done].
Qed.
Lemma gives_get {A} (k : Eng → E A) Q : (∀ e, up e → gives (k e) Q) → gives (sm_get ≫= k) Q.
Proof. intros Hk e Hu. rewrite wp_bind, wp_get. by apply Hk. Qed.
Lemma gives_modify f (Q : () → Prop) : (∀ e, calm e (f e)) → (∀ e i k, dev (f e) i k = dev e i k) → (∀ e, objects (f e) = objects e) → Q () → gives (sm_modify f) Q.
Proof.
  intros Hc Hd Ho Hq e Hu. rewrite wp_modify. split; [done|]. split; [|done]. eapply up_calm; [done|done| |unfold answering; by rewrite Ho].
  intros i k Hik. rewrite Hd. by apply (u_steady _ Hu).
Qed.
Lemma gives_lift {A} (r : res NativeError A) (Q : A → Prop) : (∃ a, r = Ok a ∧ Q a) → gives (sm_lift r) Q.
Proof. intros (a & -> & Hq) e Hu. by rewrite wp_lift. Qed.

Lemma gives_now : gives now (λ _, True).
Proof. unfold now. apply gives_get. intros e _. eapply (gives_bind _ _ (λ _, True)); [|by intros; apply gives_ret]. apply gives_modify; [intros e'; by apply calm_light|done..]. Qed.

Lemma gives_edit i f (Q : () → Prop) : (∀ n, spec (f n) = spec n ∧ devices (f n) = devices n) → Q () → gives (edit_node i f) Q.
Proof.
  intros Hf Hq e Hu. pose proof (soft_edit i f Q Hf Hq e (iv_nodes _ _ _ (u_inv _ Hu))) as Hs. unfold edit_node in *. rewrite wp_modify in *. destruct Hs as [Hc _].
  split; [done|]. split; [|done]. eapply up_calm; [done|done| |done]. intros j k Hjk. destruct (u_steady _ Hu j k Hjk) as (d & Hd & Hst). exists d. split; [|done]. revert Hd.
  unfold dev. simpl. destruct (decide (i = j)) as [<-|Hne]; [|by rewrite list_lookup_alter_ne]. rewrite list_lookup_alter_eq. destruct (nodes e !! i) as [n|]; [|done]. simpl. by rewrite (proj2 (Hf n)).
Qed.

Lemma gives_mark_up i : gives (mark_up i) (λ _, True).
Proof. by apply gives_edit. Qed.
Lemma gives_mark_down i : gives (mark_down i) (λ _, True).
Proof. unfold mark_down. eapply gives_bind; [apply gives_now|intros t _]. by apply gives_edit. Qed.
Lemma gives_is_up n : gives (is_up n) (λ _, True).
Proof. unfold is_up. case_match; [|by apply gives_ret]. case_match; [|by apply gives_ret]. eapply gives_bind; [apply gives_now|intros; by apply gives_ret]. Qed.

Lemma gives_partition {A} (up_ : A → E bool) l :
  (∀ x, x ∈ l → gives (up_ x) (λ _, True)) → gives (partition_up up_ l) (λ r, r.1 ++ r.2 ≡ₚ l).
Proof.
  induction l as [|x l IH]; intros Hup; [by apply gives_ret|]. simpl. eapply gives_bind; [apply Hup; left|]. intros b _.
  eapply gives_bind; [apply IH; intros y Hy; apply Hup; by right|]. intros [a z] Hp. apply gives_ret. simpl in *. destruct b; simpl; [by rewrite Hp|].
  by rewrite <- Permutation_middle, Hp.
Qed.

(** A read of a device: of what it holds, where it is one that answers. *)
Lemma gives_device i k off n p :
  (∀ e d, up e → dev e i k = Some d → (i, k) ∈ S → peek d off n = Some p) →
  gives (on_device i k (read_exact_at off n)) (λ o, o ≠ Some Panic ∧ ((i, k) ∈ S → o = Some (Ok p))).
Proof.
  intros Hpk e Hu. pose proof (soft_read i k off n e (iv_nodes _ _ _ (u_inv _ Hu))) as Hs. unfold wp, on_device in *. fold (dev e i k) in *.
  destruct (dev e i k) as [d|] eqn:Hd.
  2:{ split; [done|]. split; [done|]. split; [done|]. intros Hik. destruct (u_steady _ Hu i k Hik) as (d & Hd' & _). congruence. }
  assert ((i, k) ∈ S → ∃ d', read_exact_at off n d = (d', Ok p) ∧ steady d') as Hst.
  { intros Hik. destruct (u_steady _ Hu i k Hik) as (d0 & Hd0 & Hst). assert (d0 = d) as -> by congruence.
    apply steady_read; [by eapply no_wf; [apply (u_inv _ Hu)|]|done|by eapply Hpk]. }
  destruct (read_exact_at off n d) as [d' r] eqn:Er. destruct Hs as [Hc Hp]. split; [done|]. split.
  - eapply up_calm; [done|done| |done]. intros j k' Hjk. unfold dev in *. simpl. destruct (nodes e !! i) as [nd|] eqn:Hn; [|done]. simpl in Hd. apply lookup_lt_Some in Hd as Hlt.
    destruct (decide (i = j)) as [<-|Hne].
    + rewrite list_lookup_alter_eq, Hn. simpl. destruct (decide (k = k')) as [<-|Hk].
      * rewrite list_lookup_insert_eq by done. destruct (Hst Hjk) as (d2 & [= <- ->] & ?). by exists d'.
      * rewrite list_lookup_insert_ne by done. destruct (u_steady _ Hu i k' Hjk) as (d2 & Hd2 & ?). unfold dev in Hd2. rewrite Hn in Hd2. by exists d2.
    + rewrite list_lookup_alter_ne by done. apply (u_steady _ Hu j k' Hjk).
  - split; [destruct r; done|]. intros Hik. destruct (Hst Hik) as (d2 & [= _ ->] & _). done.
Qed.

(** ** Copies *)

(** An extent the catalog has. *)
Definition current (ext : ExtentRef) : Prop := ∃ m, extents (catalog e0) !! eid ext = Some m ∧ extent m = ext.

Lemma current_parts ext b ps e :
  up e → current ext → object ext = None → δ !! eid ext = Some b → describes b ps ext → Forall2 (stored_at e) (replicas ext) ps.
Proof.
  intros Hu (m & Hm & Hext) Ho Hb Hd. rewrite <- (u_cat _ Hu) in Hm. destruct (iv_ext _ _ _ (u_inv _ Hu) _ m Hm) as (_ & b' & ps' & Hb' & Hd' & Hk). rewrite Hext in *.
  assert (b' = b) as -> by congruence. rewrite (describes_det _ _ _ _ Hd' Hd) in Hk. unfold kept in Hk. by rewrite Ho in Hk.
Qed.

Lemma part_peek ext b ps e j r p i d :
  up e → current ext → object ext = None → δ !! eid ext = Some b → describes b ps ext → replicas ext !! j = Some r → ps !! j = Some p →
  healthy_node e0 (node_id r) = Some i → dev e i (N.to_nat (device_index r)) = Some d → peek d (offset r) (size p) = Some p.
Proof.
  intros Hu Hcur Ho Hb Hd Hr Hp Hh Hdv. pose proof (current_parts _ _ _ _ Hu Hcur Ho Hb Hd) as Hf. pose proof (Forall2_lookup_lr _ _ _ _ _ _ Hf Hr Hp) as Hs.
  apply (Hs i d); [|done]. rewrite (find_node_shape _ _ _ (u_shape _ Hu)). by apply healthy_find.
Qed.

Lemma gives_try ext b ps order :
  current ext → object ext = None → ec ext = None → δ !! eid ext = Some b → describes b ps ext →
  (∀ r i, (r, i) ∈ order → r ∈ replicas ext ∧ healthy_node e0 (node_id r) = Some i) →
  (∃ r i, (r, i) ∈ order ∧ (i, N.to_nat (device_index r)) ∈ S) → gives (try_replicas ext order) (λ out, out = b).
Proof.
  intros Hcur Ho Hec Hb Hd. induction order as [|[r i] order IH]; intros Hall (r0 & i0 & Hin & HS); [by apply elem_of_nil in Hin|]. simpl.
  destruct (Hall r i ltac:(left)) as [[j Hj]%list_elem_of_lookup Hh].
  assert (ps !! j = Some b) as Hp by (pose proof (de_laid _ _ _ Hd) as Hl; unfold laid in Hl; rewrite Hec in Hl; rewrite Hl; apply lookup_replicate_2; exact (lookup_lt_Some _ _ _ Hj)).
  assert ((i, N.to_nat (device_index r)) ∉ S → gives (try_replicas ext order) (λ out, out = b)) as Hrest.
  { intros Hn. apply IH; [intros r' i' Hr'; apply Hall; by right|]. exists r0, i0. split; [|done]. apply elem_of_cons in Hin as [[= -> ->]|]; [by destruct Hn|done]. }
  eapply gives_bind; [apply (gives_device i (N.to_nat (device_index r)) (offset r) (len ext) b)|].
  { intros e d Hu Hdv _. rewrite (de_len _ _ _ Hd). by eapply part_peek. }
  intros o [Hnp HoS]. destruct (decide ((i, N.to_nat (device_index r)) ∈ S)) as [Hik|Hik].
  - rewrite (HoS Hik). unfold verify. rewrite bool_decide_true by (symmetry; apply Hd). eapply gives_bind; [apply gives_mark_up|intros [] _; by apply gives_ret].
  - specialize (Hrest Hik). destruct o as [[buf|err|]|]; [|eapply gives_bind; [apply gives_mark_down|by intros [] _]|done|done].
    destruct (verify buf (checksum ext)) eqn:Hv; [|done]. eapply gives_bind; [apply gives_mark_up|intros [] _; apply gives_ret]. rewrite (de_sum _ _ _ Hd) in Hv. by apply verify_true.
Qed.

Lemma rotate_perm {A} n (l : list A) : rotate n l ≡ₚ l.
Proof. unfold rotate. rewrite Permutation_app_comm. by rewrite take_drop. Qed.

Lemma gives_copies ext b ps :
  current ext → object ext = None → ec ext = None → δ !! eid ext = Some b → describes b ps ext → (∃ r, r ∈ replicas ext ∧ usable S e0 r) →
  gives (read_placed ext) (λ out, out = b).
Proof.
  intros Hcur Ho Hec Hb Hd (r & Hr & i & Hh & HS). unfold read_placed. rewrite Ho, Hec. apply gives_get. intros e Hu.
  eapply gives_bind; [apply gives_partition|].
  { intros x _. unfold node_up. apply gives_get. intros e' _. case_match; [apply gives_is_up|by apply gives_ret]. }
  intros order Hp. eapply gives_try; try done.
  - intros r' i'. rewrite Hp, list_elem_of_omap. intros (r1 & Hr1 & Hx). rewrite rotate_perm in Hr1. rewrite (healthy_shape _ _ _ (u_shape _ Hu)) in Hx.
    destruct (healthy_node e0 (node_id r1)) as [i1|] eqn:Hh1; [|done]. injection Hx as <- <-. done.
  - exists r, i. split; [|done]. rewrite Hp, list_elem_of_omap. exists r. rewrite rotate_perm. split; [done|]. by rewrite (healthy_shape _ _ _ (u_shape _ Hu)), Hh.
Qed.

(** ** Shards *)

Lemma gives_run_all {X A} (f : X → E A) (Q : X → A → Prop) l :
  (∀ x, x ∈ l → gives (f x) (Q x)) → gives (run_all (f <$> l)) (Forall2 (λ x r, ∃ a, r = Ok a ∧ Q x a) l).
Proof.
  intros Hf. induction l as [|x l IH]; [by apply gives_ret|]. intros e Hu. specialize (IH (λ y Hy, Hf y (list_elem_of_further _ _ _ Hy))).
  pose proof (Hf x ltac:(left) e Hu) as Hx. unfold wp in *. csimpl. simpl run_all. destruct (f x e) as [e1 [a|err|]]; [|done|done]. destruct Hx as (Hc & Hu1 & Hq).
  specialize (IH e1 Hu1). unfold wp in IH. destruct (run_all (f <$> l) e1) as [e2 [rs|err|]]; [|done|done]. destruct IH as (Hc2 & Hu2 & Hrs).
  split; [exact (transitivity Hc Hc2)|]. split; [done|]. constructor; [by exists a|done].
Qed.

Section shards.
Context (ext : ExtentRef) (lay : Ec.EcLayout) (sc : Ec.EcScheme) (b : bytes) (ps : list bytes).
Context (Hcur : current ext) (Ho : object ext = None) (Hec : ec ext = Some lay) (Hb : δ !! eid ext = Some b) (Hd : describes b ps ext).
Context (Hsc : erasure cfg = Some sc) (Henc : Ec.encode sha256 rs_encode sc b = Ok (Ec.mkEcShards lay ps)).

Lemma shard_shape : N.of_nat (length ps) = Ec.data lay + Ec.parity lay ∧ length (replicas ext) = length ps ∧ ∀ i p, ps !! i = Some p → size p = Ec.shard_len lay ∧ Ec.verify sha256 lay i p = true.
Proof.
  destruct (encoded_length _ _ _ _ Hsc (de_size _ _ _ Hd) Henc) as [H1 H2]. split; [done|]. split; [by rewrite (describes_parts _ _ _ Hd)|].
  intros i p Hp. rewrite Forall_forall in H2. pose proof (H2 p (list_elem_of_lookup_2 _ _ _ Hp)) as Hs. split; [done|].
  destruct (encoded _ _ _ _ Henc) as (pp & _ & _ & Hlay). unfold Ec.verify. rewrite Hlay in *. simpl in *. rewrite list_lookup_fmap, Hp. simpl. rewrite Hs, N.eqb_refl. by rewrite bool_decide_true.
Qed.

(** A shard that is read is right, and one on a device of [S] is read. *)
Definition shard_read (i : nat) (o : option bytes) : Prop :=
  (∀ s, o = Some s → ps !! i = Some s) ∧ (at_index (usable S e0) (replicas ext) i → is_Some o).

Lemma gives_read_shard i : gives (read_shard ext lay i) (shard_read i).
Proof.
  unfold shard_read. destruct shard_shape as (_ & Hlen & Hps). unfold read_shard, at_index. apply gives_get. intros e Hu. destruct (replicas ext !! i) as [r|] eqn:Hr; simpl; [|by apply gives_ret].
  rewrite (healthy_shape _ _ _ (u_shape _ Hu)). destruct (healthy_node e0 (node_id r)) as [k|] eqn:Hh; simpl; [|apply gives_ret; split; [done|intros (k & Hk & _); congruence]].
  destruct (lookup_lt_is_Some_2 ps i) as [p Hp]; [rewrite <- Hlen; exact (lookup_lt_Some _ _ _ Hr)|]. destruct (Hps i p Hp) as [Hsz Hv].
  eapply gives_bind; [apply (gives_device k (N.to_nat (device_index r)) (offset r) (Ec.shard_len lay) p)|].
  { intros e' d Hu' Hdv _. rewrite <- Hsz. by eapply part_peek. }
  intros o [Hnp HoS]. assert (usable S e0 r → o = Some (Ok p)) as Hus by (intros (k' & Hk' & HS); apply HoS; congruence).
  destruct o as [[buf|err|]|]; [|eapply gives_bind; [apply gives_mark_down|intros [] _; apply gives_ret; split; [done|intros Hx%Hus; done]]|done|apply gives_ret; split; [done|intros Hx%Hus; done]].
  destruct (Ec.verify sha256 lay i buf) eqn:Hvb; [|apply gives_ret; split; [done|intros Hx%Hus; congruence]].
  eapply gives_bind; [apply gives_mark_up|intros [] _; apply gives_ret]. split; [|by eexists]. intros s [= <-]. unfold Ec.verify in Hvb. apply andb_true_iff in Hvb as [_ Hvb].
  destruct (encoded _ _ _ _ Henc) as (pp & _ & _ & Hlay). rewrite Hlay in Hvb. simpl in Hvb. rewrite list_lookup_fmap, Hp in Hvb. simpl in Hvb. apply verify_true in Hvb. by rewrite Hvb.
Qed.

Lemma arrived_count batch (got : list (res NativeError (option bytes))) :
  Forall2 (λ i r, ∃ o, r = Ok o ∧ shard_read i o) batch got →
  (length (base.filter (at_index (usable S e0) (replicas ext)) batch) <= arrived got)%nat.
Proof.
  unfold arrived. induction 1 as [|i r batch got (o & -> & _ & Hu) _ IH]; [done|]. rewrite filter_cons. simpl. destruct (decide _) as [Hi|Hi].
  - destruct (Hu Hi) as [s ->]. simpl. lia.
  - destruct o; simpl; lia.
Qed.

Lemma gives_rounds fuel : ∀ have order ss,
  NoDup order → (∀ i, i ∈ order → ss !! i = Some None) → Ec.remains ps ss → length (base.filter is_Some ss) = have →
  Ec.data lay <= N.of_nat (have + length (base.filter (at_index (usable S e0) (replicas ext)) order)) → (length order < fuel)%nat →
  gives (read_rounds fuel ext lay have order ss) (λ ss', Ec.remains ps ss' ∧ Ec.data lay <= N.of_nat (length (base.filter is_Some ss'))).
Proof.
  induction fuel as [|fuel IH]; intros have order ss Hnd Hnone Hrem Hhave Hen Hfuel; [lia|]. cbn [read_rounds]. destruct (N.ltb_spec (N.of_nat have) (Ec.data lay)) as [Hlt|Hge].
  2:{ apply gives_ret. split; [done|by rewrite Hhave]. }
  set (need := (N.to_nat (Ec.data lay) - have)%nat). assert (0 < need)%nat as Hneed by (unfold need; lia).
  destruct (take need order) as [|x batch] eqn:Htk.
  { destruct order; [simpl in Hen; lia|]. destruct need; [lia|done]. }
  pose proof (take_drop need order) as Hsplit. rewrite Htk in Hsplit. rewrite <- Hsplit in Hnd. apply NoDup_app in Hnd as (Hnb & Hdis & Hnr).
  eapply gives_bind; [apply (gives_run_all (read_shard ext lay) shard_read (x :: batch)); intros i _; apply gives_read_shard|]. intros got Hgot.
  destruct (fill_count ss (x :: batch) got) as [Hcnt Hsame]; [done|intros i Hi; apply Hnone; rewrite <- Hsplit; set_solver|by eapply Forall2_length|].
  apply IH; [done| | | | |].
  - intros i Hi. rewrite Hsame; [apply Hnone; rewrite <- Hsplit; set_solver|]. intros Hi'. by eapply Hdis.
  - apply remains_fill; [done|]. eapply Forall2_impl; [exact Hgot|]. intros i r (o & -> & Hs & _). split; [done|]. by intros o' [= <-].
  - by rewrite Hcnt, Hhave.
  - pose proof (arrived_count _ _ Hgot) as Ha. rewrite <- Hsplit, filter_app, length_app in Hen. lia.
  - rewrite length_drop. destruct order; [done|]. simpl in *. lia.
Qed.

Lemma gives_shards : Ec.data lay <= size (base.filter (usable S e0) (replicas ext)) → gives (read_shards ext lay) (λ out, out = b).
Proof.
  intros Hen. destruct shard_shape as (Hn & Hlen & _). unfold read_shards. eapply (gives_bind _ _ (λ order, order ≡ₚ seq 0 (N.to_nat (Ec.data lay + Ec.parity lay)))).
  { unfold shard_order. eapply gives_bind; [apply gives_partition|].
    - intros i [_ Hi]%elem_of_seq. unfold shard_up. apply gives_get. intros e _. destruct (lookup_lt_is_Some_2 (replicas ext) i) as [r ->]; [lia|].
      generalize (nodes e). induction l as [|nd l IH]; simpl; [by apply gives_ret|]. case_match; [|done]. eapply gives_bind; [apply gives_is_up|]. intros [] _; [by apply gives_ret|done].
    - intros r Hr. apply gives_ret. by rewrite !filter_halves. }
  intros order Hp. eapply gives_bind; [apply gives_rounds|].
  - rewrite Hp. apply NoDup_seq.
  - intros i. rewrite Hp. intros [_ Hi]%elem_of_seq. by apply lookup_replicate_2.
  - apply Forall2_same_length_lookup. rewrite length_replicate. split; [lia|]. intros i x o _ [-> _]%lookup_replicate. by left.
  - generalize (N.to_nat (Ec.data lay + Ec.parity lay)). clear. intros n. induction n as [|n IH]; [done|]. simpl. rewrite filter_cons. destruct (decide (is_Some None)) as [[x Hx]|]; done.
  - rewrite Hp. replace (N.to_nat (Ec.data lay + Ec.parity lay)) with (length (replicas ext)) by lia. rewrite count_index. lia.
  - lia.
  - intros ss [Hrem Hcnt]. pose proof (rebuilt _ _ _ _ _ Hsc (de_size _ _ _ Hd) Henc Hrem) as Hre. destruct (Ec.rebuild_data rs_decode lay ss) as [ds|err|] eqn:Hrb; [|lia|done].
    eapply (gives_bind _ _ (λ x, x = ds)); [apply gives_lift; by exists ds|intros x ->]. eapply (gives_bind _ _ (λ x, x = b)); [apply gives_lift; rewrite (de_len _ _ _ Hd), Hre; by exists b|intros x ->].
    unfold verify. rewrite bool_decide_true by (symmetry; apply Hd). by apply gives_ret.
Qed.

End shards.

(** ** Objects *)

Lemma gives_object ext key b ps :
  current ext → object ext = Some key → answering e0 → δ !! eid ext = Some b → describes b ps ext → gives (read_object ext key) (λ out, out = b).
Proof.
  intros (m & Hm & Hext) Ho Ha Hb Hd e Hu. destruct (u_object _ Hu Ha) as (o & He & Hans).
  rewrite <- (u_cat _ Hu) in Hm. destruct (iv_ext _ _ _ (u_inv _ Hu) _ m Hm) as (_ & b' & ps' & Hb' & _ & Hk). rewrite Hext in *. assert (b' = b) as -> by congruence.
  unfold kept in Hk. rewrite Ho in Hk. destruct Hk as (_ & _ & Hk). destruct (responsive_get o key b Hans (Hk o He)) as (o' & Hg & Hans').
  pose proof (soft_read_object ext key b ps Hd e (iv_nodes _ _ _ (u_inv _ Hu))) as Hs. unfold read_object in *. rewrite wp_bind, wp_get in *. rewrite He, Hg in *.
  rewrite wp_bind, wp_modify, wp_bind, wp_lift in *. simpl in *. unfold verify in *. rewrite <- (de_len _ _ _ Hd), N.eqb_refl, bool_decide_true in * by (symmetry; apply Hd). simpl in *.
  rewrite wp_ret in *. destruct Hs as [Hc _]. split; [done|]. split; [|done]. eapply up_calm; [done|done|apply (u_steady _ Hu)|]. intros _. by exists o'.
Qed.

(** ** Extents and ranges *)

Lemma gives_extent ext b ps :
  current ext → available S e0 ext → δ !! eid ext = Some b → describes b ps ext → gives (read_extent ext) (λ out, out = b).
Proof.
  intros Hcur Hav Hb Hd. unfold available in Hav. assert (gives (read_placed ext) (λ out, out = b)) as Hp.
  { destruct (object ext) as [key|] eqn:Ho; [unfold read_placed; rewrite Ho; by eapply gives_object|]. unfold on_devices in Hav. destruct (ec ext) as [lay|] eqn:Hec; [|by eapply gives_copies]. unfold read_placed. rewrite Ho, Hec. pose proof (de_laid _ _ _ Hd) as Hl. unfold laid in Hl. rewrite Hec in Hl.
    destruct Hl as (_ & sc & Hsc & He). by eapply gives_shards. }
  unfold read_extent. eapply (gives_bind _ _ (λ _, True)).
  { unfold touch. apply gives_get. intros e _. destruct (objects e); [|by apply gives_ret]. eapply gives_bind; [apply gives_now|intros t _]. apply gives_modify; [intros e'; by apply calm_light|done..]. }
  intros [] _ e Hu. specialize (Hp e Hu). unfold wp, stepping in *. by destruct (read_placed ext e) as [e' [out|err|]].
Qed.

Lemma gives_reading {A} (m : E A) Q : reading δ L m Q → gives m (λ _, True) → gives m Q.
Proof.
  intros Hr Hg e Hu. specialize (Hr e (u_inv _ Hu)). specialize (Hg e Hu). unfold wp in *. destruct (m e) as [e' [a|err|]]; [|done|done]. naive_solver.
Qed.

Section range.
Context (m : gmap N ExtentId) (l : list ExtentRef) (off n : N).
Context (Hl : looked_up δ g m l off n) (Hcur : Forall current l) (Hav : Forall (available S e0) l).

Definition fetchable (x : ExtentRef * N * N) : Prop := part_ok δ g m off n x ∧ x.1.1 ∈ l.

Lemma copy_window_done ws (rs : list (res NativeError bytes)) out : Forall (λ r, ∃ b, r = Ok b) rs → ∀ err, copy_window off (zip ws rs) out ≠ Err err.
Proof.
  intros Hrs. revert ws out. induction Hrs as [|r rs [b ->] _ IH]; intros [|[[ext start] stop] ws] out err; try done.
  change (copy_window off (zip ((ext, start, stop) :: ws) (Ok b :: rs)) out) with (out' ← copy_part off (ext, start, stop) b out; copy_window off (zip ws rs) out').
  destruct (copy_part off (ext, start, stop) b out) as [out'|err'|] eqn:Hc; [apply IH| |done].
  unfold copy_part in Hc. by destruct (_ || _).
Qed.

Lemma gives_window ws : Forall fetchable ws → gives (read_window ws) (Forall2 (λ x r, ∃ b, r = Ok b ∧ δ !! eid (x.1.1) = Some b) ws).
Proof.
  intros Hws. assert (∀ x, x ∈ ws → gives (read_extent (x.1.1)) (λ b, δ !! eid (x.1.1) = Some b)) as Hx.
  { intros x Hin. rewrite Forall_forall in Hws. destruct (Hws x Hin) as [Hp Hxl]. destruct x as [[ext start] stop]. destruct Hp as (Hf & _). simpl in *.
    destruct (fo_bytes _ _ _ _ Hf) as (b & ps & Hb & Hd & _). rewrite Forall_forall in Hcur, Hav. eapply gives_mono; [by eapply gives_extent; [apply Hcur|apply Hav| |]|]. by intros a ->. }
  pose proof (gives_run_all (λ x : ExtentRef * N * N, read_extent (x.1.1)) (λ x b, δ !! eid (x.1.1) = Some b) ws Hx) as Hall.
  destruct ws as [|[[ext start] stop] [|y ws]]; [exact Hall| |exact Hall]. intros e Hu. specialize (Hx _ ltac:(left) e Hu). simpl in Hx. unfold read_window, stepping, wp in *. simpl.
  destruct (read_extent ext e) as [e1 [b|err|]]; [|done|done]. destruct Hx as (Hc & Hu1 & Hb). split; [done|]. split; [done|]. constructor; [by exists b|constructor].
Qed.

Lemma gives_windows wss : ∀ T out, Forall (Forall fetchable) wss → copied δ g m off n T out → gives (read_windows off wss out) (λ _, True).
Proof.
  induction wss as [|ws wss IH]; intros T out Hws Hc; simpl; [by apply gives_ret|]. apply Forall_cons in Hws as [Hw Hws]. eapply gives_bind; [by apply gives_window|]. intros rs Hrs.
  assert (Forall (part_ok δ g m off n) ws) as Hpk by (eapply Forall_impl; [exact Hw|]; by intros x [? _]).
  pose proof (copy_window_spec δ g m off n grid_pos (lu_bound _ _ _ _ _ _ Hl) ws rs T out Hpk) as Hcp.
  assert (Forall2 (λ x r, r ≠ Panic ∧ ∀ b, r = Ok b → δ !! eid (x.1.1) = Some b) ws rs) as Hrs' by (eapply Forall2_impl; [exact Hrs|]; intros x r (b & -> & Hb); split; [done|by intros b' [= <-]]).
  assert (Forall (λ r : res NativeError bytes, ∃ b, r = Ok b) rs) as Hok by (clear -Hrs; induction Hrs as [|x r ws rs (b & -> & _) _ IH]; constructor; eauto).
  specialize (Hcp Hrs' Hc). pose proof (copy_window_done ws rs out Hok) as Hne. destruct (copy_window off (zip ws rs) out) as [out'|err|]; [|by destruct (Hne err)|done].
  eapply (gives_bind _ _ (λ x, x = out')); [apply gives_lift; by exists out'|intros x ->]. by eapply IH.
Qed.

Lemma gives_range : gives (read_range l off n) (λ out, out = slice δ g m off n).
Proof.
  apply gives_reading; [exact (read_range_spec δ L g m off n grid_pos (lu_bound _ _ _ _ _ _ Hl) l Hl)|]. unfold read_range. set (w := wanted off (u64_add off n) l).
  assert (Forall fetchable w) as Hw.
  { pose proof (wanted_ok δ g m off n (lu_bound _ _ _ _ _ _ Hl) l (lu_found _ _ _ _ _ _ Hl)) as Hp. fold w in Hp. apply Forall_forall. intros x Hx. rewrite Forall_forall in Hp. split; [by apply Hp|].
    unfold w, wanted in Hx. apply list_elem_of_omap in Hx as (ext & Hext & Hx). case_match; [|done]. by injection Hx as <-. }
  assert (concat (chunks (length w) READ_PARALLELISM w) = w) as Hcat by (apply chunks_concat; unfold READ_PARALLELISM; lia).
  apply (gives_windows _ []).
  - apply Forall_forall. intros ch Hch. apply Forall_forall. intros x Hx. rewrite Forall_forall in Hw. apply Hw. rewrite <- Hcat.
    apply elem_of_concat. by exists ch.
  - split; [by rewrite length_replicate| |by intros x j ?%elem_of_nil]. intros j Hj. left. by apply lookup_replicate.
Qed.

End range.

End reading.

(** ** Reads of a volume *)

(** An extent of a cell of the volume that has a byte in the range. *)
Definition touched (c : Catalog) (id : string) (off n : N) (ext : ExtentRef) : Prop :=
  ∃ v cell x m, volumes c !! id = Some v ∧ v_extents v !! cell = Some x ∧ cell < off + n ∧ off < cell + g ∧ extents c !! x = Some m ∧ extent m = ext.

Lemma range_touched c id off n l : volume_range id off n c = Ok l → Forall (touched c id off n) l.
Proof.
  unfold volume_range, extents_in, u64_checked_add. destruct (volumes c !! id) as [v|] eqn:Hv; [|done]. simpl. destruct (_ <=? u64_max); [|done]. destruct (_ <? off + n); [done|].
  destruct (n =? 0); [intros [= <-]; constructor|]. intros El%mapM_Ok. apply Forall_forall. intros ext [j Hj]%list_elem_of_lookup.
  destruct (Forall2_lookup_r _ _ _ _ _ El Hj) as ([cell x] & Hx & Hok). simpl in Hok. destruct (extents c !! x) as [m|] eqn:Hm; [|done]. injection Hok as <-.
  apply list_elem_of_lookup_2, list_elem_of_In, filter_In in Hx as [Hx [H1%N.leb_le H2%N.ltb_lt]%andb_true_iff]. apply list_elem_of_In, elem_of_bt_entries in Hx. simpl in *.
  exists v, cell, x, m. split_and!; try done. pose proof (N.mod_lt off g). pose proof grid_pos. lia.
Qed.

Lemma touched_current δ L e id off n ext : inv δ L e → touched (catalog e) id off n ext → current e ext.
Proof. intros Hi (v & cell & x & m & _ & _ & _ & _ & Hm & <-). exists m. destruct (iv_ext _ _ _ Hi x m Hm) as [-> _]. done. Qed.

(** C9. What the engine promises can be read.  After whatever happened to it, and with
    distinct node names, take devices that answer from now on, and a range of a volume.
    Suppose that of every extent of the range these devices hold a copy, or as many
    shards as its code needs, or that it has moved to the object store and the store
    answers.  A read of the range then returns the bytes that the promise has there,
    whatever the other devices do and wherever the other extents are. *)
Theorem reads_available specs obj clk us dk e l w :
  (∀ j k, j < k → us j ≠ us k) → Forall (λ x : Node * list D, Forall bs_wf (x.2)) specs → new_engine specs obj clk us dk = Ok e →
  trace (mkWorld e [] []) l w →
  ∃ p, promised nothing l p ∧ ∀ S id off n b,
    NoDup ((λ n, Placement.id (spec n)) <$> nodes (eng w)) → steadies S (eng w) →
    (∀ ext, touched (catalog (eng w)) id off n ext → available S (eng w) ext) →
    perform (VRead id off n) (pr_disks p) = Some (pr_disks p, b) →
    ∃ e', read id off n (eng w) = (e', Ok b).
Proof.
  intros Hus Hwf He Ht. destruct (trace_promised _ _ _ Ht _ _ _ (new_sim _ _ _ _ _ _ Hus Hwf He)) as (p & δ & fs & Hp & Hsim). exists p. split; [done|].
  intros S id off n b Hids Hst Hav. rewrite (sm_disks _ _ _ _ Hsim). intros Hb. pose proof (sm_inv _ _ _ _ Hsim) as Hi.
  pose proof (volume_range_spec _ _ _ id off n Hi (sm_ok _ _ _ _ Hsim)) as Hr. unfold read. unfold sm_try, mbind, sm_bind.
  destruct (volume_range id off n (catalog (eng w))) as [le|err|] eqn:Hv; [|congruence|done]. destruct Hr as (m & Hl & _ & Hs). assert (slice δ g m off n = b) as <- by congruence.
  apply range_touched in Hv.
  assert (Forall (current (eng w)) le) as Hcur by (eapply Forall_impl; [exact Hv|]; intros ext; by eapply touched_current).
  assert (Forall (available S (eng w)) le) as Hale by (eapply Forall_impl; [exact Hv|]; exact Hav).
  pose proof (gives_range δ (concat (fs.*2)) S (eng w) Hids m le off n Hl Hcur Hale (eng w)) as Hg. unfold wp in Hg.
  destruct (read_range le off n (eng w)) as [e' [out|err|]]; [|by destruct Hg; split..]. destruct Hg as (_ & _ & ->); [by split|by exists e'].
Qed.

End avail.

(** ** A device that fails *)

(** A write whose extents move to the object store, then a write of a whole cell, which
    is coded, and one of a few bytes, which is copied; the device of the second node
    fails. *)
Definition tier_now : Task (D := FileDevice) (O := MemStore) := TierOnce (mkTierPolicy 0 0) (λ _, false).
Definition avail_events : list Event := [
  Then (Do (VCreate "v" "vol" 20)); Then (Do (VWrite "v" 0 [1; 2; 3; 4; 5; 6; 7; 8; 9])); Then tier_now;
  Then (Do (VWrite "v" 8 [11; 12; 13; 14; 15; 16; 17; 18])); Then (Do (VWrite "v" 18 [31; 32]))].

Definition avail_log : list (Task * res NativeError bytes) := (run_events avail_events (mkWorld demo_engine [] [])).1.2.
Definition avail_world : World := (run_events avail_events (mkWorld demo_engine [] [])).2.

Lemma avail_log_eq : avail_log = [(Do (VCreate "v" "vol" 20), Ok []); (Do (VWrite "v" 0 [1; 2; 3; 4; 5; 6; 7; 8; 9]), Ok []); (tier_now, Ok []);
  (Do (VWrite "v" 8 [11; 12; 13; 14; 15; 16; 17; 18]), Ok []); (Do (VWrite "v" 18 [31; 32]), Ok [])].
Proof. vm_compute. reflexivity. Qed.

Lemma avail_trace : trace (P := demo_code) (mkWorld demo_engine [] []) avail_log avail_world.
Proof. apply run_events_trace. by vm_compute. Qed.

Definition avail_devices : gset (nat * nat) := {[(0, 0); (2, 0)]}%nat.

Lemma avail_steady : steadies avail_devices (eng avail_world).
Proof.
  intros i k [[= -> ->]%elem_of_singleton|[= -> ->]%elem_of_singleton]%elem_of_union; (eexists; split; [vm_compute; reflexivity|by intros j _]).
Qed.

Lemma avail_extents ext : touched (P := demo_code) (catalog (eng avail_world)) "v" 6 14 ext → available avail_devices (eng avail_world) ext.
Proof.
  intros (_ & _ & x & m & _ & _ & _ & _ & Hm & <-). unfold available. destruct (object (extent m)) eqn:Ho; [eexists; split; [vm_compute; reflexivity|done]|].
  revert x m Hm Ho. apply (bool_decide_eq_true_1 (map_Forall (λ _ m, object (extent m) = None → on_devices avail_devices (eng avail_world) (extent m)) (extents (catalog (eng avail_world))))).
  by vm_compute.
Qed.

Lemma avail_ids : NoDup ((λ n, Placement.id (spec n)) <$> nodes (eng avail_world)).
Proof. apply (bool_decide_eq_true_1 (NoDup _)). by vm_compute. Qed.

Lemma allows_done p op b p' : allows (D := FileDevice) (O := MemStore) p (Do op) (Ok b) p' → perform op (pr_disks p) = Some (pr_disks p', b).
Proof. intros Ha. by inversion Ha. Qed.

Lemma allows_tier p r p' : allows p tier_now r p' → pr_disks p' = pr_disks p.
Proof. intros Ha. by inversion Ha. Qed.

Lemma avail_promised p : promised nothing avail_log p → perform (VRead "v" 6 14) (pr_disks p) = Some (pr_disks p, [7; 8; 11; 12; 13; 14; 15; 16; 17; 18; 0; 0; 31; 32]).
Proof.
  rewrite avail_log_eq. intros Hp. inversion_clear Hp as [|? ? ? p1 ? ? H1 Hp1]. inversion_clear Hp1 as [|? ? ? p2 ? ? H2 Hp2]. inversion_clear Hp2 as [|? ? ? p3 ? ? H3 Hp3].
  inversion_clear Hp3 as [|? ? ? p4 ? ? H4 Hp4]. inversion_clear Hp4 as [|? ? ? p5 ? ? H5 Hp5]. inversion Hp5; subst. apply allows_done in H1, H2, H4, H5. apply allows_tier in H3.
  rewrite H3 in H4. clear H3. revert H1 H2 H4 H5. generalize (pr_disks p1) (pr_disks p2) (pr_disks p4) (pr_disks p). intros d1 d2 d4 d H1 H2 H4 H5.
  vm_compute in H1. injection H1 as <-. vm_compute in H2. injection H2 as <-. vm_compute in H4. injection H4 as <-. vm_compute in H5. injection H5 as <-. by vm_compute.
Qed.

Lemma reads_available_witness :
  (steadies avail_devices (eng avail_world) ∧ ((λ m, (bool_decide (object (extent m) = None), bool_decide (ec (extent m) = None))) <$> bt_values (extents (catalog (eng avail_world)))) =
    [(false, true); (false, true); (true, false); (true, true)]) ∧
  ∃ e', read (P := demo_code) "v" 6 14 (eng avail_world) = (e', Ok [7; 8; 11; 12; 13; 14; 15; 16; 17; 18; 0; 0; 31; 32]).
Proof.
  split; [split; [exact avail_steady|by vm_compute]|].
  destruct (reads_available (P := demo_code) demo_specs (Some (mkMemStore ∅)) (λ k, k) demo_uuid (λ _, DiskOk) demo_engine avail_log avail_world demo_uuid_inj demo_specs_wf demo_opens avail_trace)
    as (p & Hp & Hr).
  exact (Hr avail_devices _ _ _ _ avail_ids avail_steady avail_extents (avail_promised p Hp)).
Defined.

End EngineAvail.
